(* ===== verification/_CoqProject ===== *)
-Q . S2P
Prelude.v
Wire.v
Clock.v
ClockInv.v
ClockLive.v
ClockProps.v
Packstream.v
PackstreamProps.v
Wal.v
WalProps.v
TxnCodec.v
BoltProto.v
Ordered.v
NodeSet.v
NodeSetProps.v
Bplus.v
BplusInv.v
BplusOps.v
BplusCursor.v
BtreeIndex.v
BtreeIndexInv.v
BtreeIndexProps.v
BtreeLoad.v
BtreeProps.v
BtreeCodec.v
BtreeCodecProps.v
BtreeConc.v
BtreeConcInv.v
BtreeConcProps.v
Horizon.v
HorizonInv.v
HorizonStep.v
HorizonProps.v
StableSort.v
Csr.v
CsrRows.v
CsrGraph.v
CsrScatter.v
CsrViews.v
CsrBuild.v
CsrSymmetric.v
CsrChecks.v
CsrProps.v
Intersect.v
IntersectSeek.v
IntersectProps.v
WriteStamp.v
AdjHeap.v
AdjReverse.v
AdjList.v
AdjOps.v
AdjMaint.v
AdjHeapFacts.v
AdjHeapInv.v
AdjBuild.v
AdjStoreEntry.v
AdjWrite.v
AdjWrites.v
AdjRevFacts.v
AdjUpkeep.v
AdjSystem.v
AdjSpec.v
AdjSnapshot.v
AdjMirror.v
AdjQuiet.v
AdjReach.v
AdjProps.v
UnionFind.v
UnionFindProps.v
Components.v
ComponentsFacts.v
ComponentsProps.v
Spanning.v
Mapper.v
MapperFacts.v
MapperTable.v
MapperWalk.v
MapperProps.v
WalControl.v
IdReserve.v
