(* ===== verification/Prelude.v ===== *)
(** * GoGraph: a verification library for the core of the graph database

    GoGraph is a graph database written in Go: an in-memory labelled property graph
    under multi-version concurrency control, with property indexes, a write-ahead log,
    the Bolt wire protocol and the Cypher language.  This library models the parts
    below as executable definitions, translated from the files under src/, and proves
    what makes each of them correct.

    ** The parts and their files

    - [Prelude]: machine integers, function update, finite sums, filters, the tactics
      and the hint databases [gograph] and [gorw] the other files share.
      [Wire]: bytes, fixed-width integers, finite byte sources (encoding/binary, io),
      and CRC-32C (hash/crc32).
    - The clock of snapshots and commits (graph/mvcc/mvcc.go, commitlog.go, await.go,
      conflict.go): [Clock] has the machine, one step per atomic access of the source,
      with [Visible] and [Conflicts]; [ClockInv] and [ClockLive] its invariants by
      rely-guarantee reasoning; [ClockProps] the properties.
    - The reader horizon (graph/mvcc/horizon.go): [Horizon] has the slots, the
      occupancy words and the steps of [claim], [Enter], [EnterHolding], [Publish],
      [Leave] and [Oldest], with the client protocol of graph/lpg (BeginRead, EndRead,
      ReclaimNow); [HorizonInv], [HorizonStep] the invariant, the scans and the
      counters; [HorizonProps] the properties.
    - PackStream (bolt/packstream/encoder.go, decoder.go, value.go,
      inbound_budget.go): [Packstream], [PackstreamProps].
    - Bolt framing and version handshake (bolt/proto/chunking.go, handshake.go):
      [BoltProto], which charges the same shared budget as the decoder.
    - The log's frames, their reader and its replay loop (store/wal/format.go,
      reader.go): [Wal], [WalProps].  The keys and weights inside its payloads
      (store/txn/codec.go, weight_codec.go): [TxnCodec], one class [Codec] with its
      laws [CodecLaws], which every built-in codec discharges and a user's
      MarshalBinary has to.  The files and records around the frames
      (store/wal/control.go): [WalControl].
    - Node-id sets (graph/index/nodeset.go): [NodeSet], [NodeSetProps].
    - The ordered property index (graph/index/btree/bplus.go, index.go): [Ordered]
      has the key order (class [Ordered] with its laws, instances for Go's integers,
      strings and float64), the binary search and the abstract specification, a strictly
      ascending association list.  [Bplus] is the copy-on-write tree, with
      [BplusInv], [BplusOps] and [BplusCursor] on its updates, cursor and bulk
      packing.  [BtreeIndex] is the index over it: tree, arena and heap of
      entries, each entry a node-id set; [BtreeIndexInv], [BtreeIndexProps],
      [BtreeLoad], [BtreeProps] are its
      invariant and its properties.  [BtreeCodec] and [BtreeCodecProps] are its
      serialised form.  [BtreeConc] interleaves the goroutines that share it, with
      [BtreeConcInv] and [BtreeConcProps].
    - Compressed sparse rows (graph/csr): [StableSort] says what a stable rearrangement
      is, [Csr] has order.go, [CsrGraph] csr.go and symmetric_build.go, [Intersect]
      intersect.go, one definition per function or loop.  [CsrRows] reads the parallel
      columns as one list of slots and proves the in-place sorts on it;
      [CsrScatter] is counting and scattering, [CsrViews] well-formed snapshots and the
      reverse; [CsrBuild] and [CsrSymmetric] treat one build each,
      [CsrChecks] the checks and the readers, [IntersectSeek] one cursor; [CsrProps]
      and [IntersectProps] have the properties.

    - The versioned adjacency (graph/adjlist/adjlist.go, mvcc_adj.go, mvcc_view.go,
      direct_conflict.go, reverse.go, over graph/mvcc/stamp.go and tx.go):
      [WriteStamp] has the transactions and their commit records, [AdjHeap] the
      entries with the backing arrays their columns share, [AdjReverse] the in-edge
      index, [AdjList] slot arrays, conflicts, versions and [storeEntry], [AdjOps]
      insertion and removal, [AdjMaint] labels, compaction, reclamation, withdrawal,
      windows and pins, and the reads.  [AdjSystem] interleaves their critical
      sections: an action is what a thread does under one shard lock, or one atomic
      update outside; what it leaves for after the lock is owed and settled later.
      [AdjHeapFacts], [AdjHeapInv] (who owns which cell of which array), [AdjBuild]
      and [AdjStoreEntry] lead to [AdjWrite], the effect of
      one stored entry; it and [AdjWrites] to each write on views, [AdjSpec]
      to their specification and to every action; [AdjUpkeep] treats the maintenance; [AdjSnapshot] what a reader sees and the committed
      state; [AdjRevFacts], [AdjMirror] and [AdjQuiet] the in-edges and the counter;
      [AdjReach] the reachable states and the public calls as runs; [AdjProps] has the
      properties.
    - Disjoint sets (ds/unionfind.go): [UnionFind] has the structure over maps and the
      one over slices, [UnionFindProps] what every call does to the partition and the
      slices as a refinement of the maps.
    - Components and spanning forests (search/wcc.go, wcc_parallel.go, kruskal.go):
      [Components] has the algorithms, over the snapshots of [CsrGraph] and the slices
      of [UnionFind]; [ComponentsFacts] the dense numbering, the sweeps as unions over
      the arcs and the labels; [ComponentsProps] the serial and the parallel
      algorithm; [Spanning] forests, the counting of classes and Kruskal's algorithm.
    - The node mapper (graph/mapper.go, mapper_reserve.go, mapper_restore.go,
      mapper_watermark.go): [Mapper] has the 256 shards, each with its forward map,
      reverse table, bitset of holes and paged tail, and every operation under the lock
      of a shard; [MapperFacts] reads a shard as its slots, [MapperTable] a mapper as a
      table of keys and ids, [MapperWalk] treats walks, batched scans and the
      loading of a snapshot, [MapperProps] has the properties.
    - Node id reservations (store/txn/idreserve.go, store/recovery/idreplay.go and the
      control records of recovery.go): [IdReserve] has the reserver of a durable
      store, the replay, the sessions between them and their properties.

    ** How the parts meet

    A snapshot starts at the frontier of [Clock]; [Horizon] runs on a clock that only
    grows, which is what the frontier invariant of [ClockProps] provides.  [Wal] and
    [BtreeCodec] protect their bytes with a checksum; both, and [Packstream], read and
    write through [Wire].  [BtreeIndex] keeps [NodeSet]s in the entries its [Bplus]
    leaves point to, and [BtreeConc] runs the critical sections of [BtreeIndex]
    verbatim.  The roaring bitmap library is not part of the repository: it is the
    class [NodeSet.Roaring], its documented behaviour the class [RoaringLaws], and an
    instance shows the laws can hold.  A version of the adjacency is judged by [Visible]
    of [Clock]; the watermark [others] allows a reclaimer is what [horizon_safe]
    guarantees of a scan; the side column of the layer above is the class
    [AdjHeap.AuxColumn] with its laws [AuxLaws].  [CsrGraph] sees the adjacency as what a build
    reads of it, in one state per pass, and [Intersect] runs on the ranges of a
    [CsrGraph] snapshot whose runs [Csr] ordered.  [Components] runs on any snapshot
    that passes the checks of [CsrChecks]; the parallel workers write private forests
    only, so each is a value; a weight type is the class [Weight], the order its
    comparison follows the class [WeightOrder], and what [sort.Slice] promises the
    record [sorts].  A key of the mapper is the class [MapperKey], what its hash reads;
    the mapper asks a reserver through the class [IDReserver], whose laws
    [IDReserverLaws] the reserver of [IdReserve] discharges; that one writes the records
    of [WalControl], sealed by the checksum of [Wire] and the varints of [TxnCodec],
    through the class [RunWriter], what it uses of the log's writer.

    ** What the theorems show

    - Safety of the frontier and of snapshots under every interleaving of commits, no
      lost publication, no lost wake-up, commits that never wait, gap-free timestamps,
      and the exactness of the write-conflict test ([ClockProps]).
    - No finished reclamation scan passes a reader; slots, counters and scans are exact
      and bounded ([HorizonProps]).
    - The tree refines its association list, the index refines a map from keys to id
      sets, bulk loads equal repeated insertion, counts and heights are bounded, the
      serialised form round-trips and is corruption-proof, and the shared index is
      linearizable and free of deadlock ([BtreeProps], [BtreeCodecProps],
      [BtreeConcProps]); node sets refine finite sets, ids
      added one at a time being below 2^62 ([NodeSetProps]).
    - Values, messages, frames and records round-trip; arbitrary bytes never overdraw a
      budget, and a torn or corrupt log is told apart ([PackstreamProps], [BoltProto],
      [WalProps], [TxnCodec]).
    - Over every interleaving of writers, aborts, compaction and reclamation: the
      adjacency's columns stay in step and no allowed call panics; a published entry
      never changes though its successors extend its arrays in place; a pinned reader's
      view of every node is stable, its walk interleaved or not; each write refines its
      specification on slots; no version is stacked on an uncommitted one, and a
      withdrawal restores the committed state; the in-edge index is the transpose and
      the edge counter exact up to what is still owed ([AdjProps]).
    - Every build of a snapshot leaves each run the stable rearrangement of its source's
      entry; the ways of building agree array by array; the reverse of the reverse is
      the snapshot; the mark of a symmetric snapshot tells the truth; the checks
      protect the readers, except from the largest 64-bit id; and intersections are
      exact ([CsrProps], [IntersectProps]).
    - Two elements are connected exactly when the united pairs relate them, ranks never
      wrap a byte; the components are the classes of the arcs, numbered in order of
      first occurrence, and the parallel algorithm returns the same labels for every
      number of workers; Kruskal's forest is a minimum one ([UnionFindProps],
      [ComponentsProps], [Spanning]).
    - The mapper refines its table of keys and ids under interning, withdrawal and
      recovery's placements; keys and ids are in bijection, which the walk visits, no id is issued twice, a
      watermark separates earlier from later ids; batched scans return what the walk visits,
      of a changing mapper too, where no shard has a tail (with one they skip ids:
      [append_ids_skips]); snapshots are accepted exactly when well-formed and restore
      the mapper ([MapperProps]).  Ids reserved in the log survive a crash, and after a
      clean close recovery restores each shard's mark as it was, or at the length the
      shard has assigned ([IdReserve]); the log's control file, headers and records
      round-trip, and a changed byte of a checksummed part is refused ([WalControl]).

    ** Conventions, bounds and fuel

    A w-bit integer is a [Z] with its wrap-around written out ([u64] and friends); an
    index or a length is a [nat].  [None] in an operation of the tree is a Go panic.
    Concurrent code is a step function of a state in which every thread has a program
    counter; the number of threads is a parameter, and timestamps stay below the
    range the source reserves for transaction ids, which the theorems state.

    Recursion on fuel: a value's depth is bounded by [maxValueDepth] as in the source,
    and that bound is the fuel of [readValue] and [writeValue]; the frame loop, the
    message loop, chunk writing and the entry loop of [Deserialize] take the length
    of their input, which every iteration shortens ([Frames_terminates],
    [read_message_bounded], [deserialize_total]); a cursor's scan takes one more than the
    number of keys ([scan_fuel]); binary search the length of its range; packing the
    number of nodes of the level; the merge sort the length of the run; the leapfrog
    loop of [Next] the number of cursors times the slots they have left, since each
    turn counts a cursor or raises the candidate; a walk of a version chain one more than
    the number of versions, since links go to older ones; the doubling of a slot array
    the length it must reach; the climb and the compression of a union-find one more
    than its elements, since ranks grow towards the root; a scan of a shard one more than the indices ahead of
    its cursor, and [AppendIDs] two more than the shards ahead; the cuts of trailing
    holes the length of what they cut.  Each is proved sufficient where it is used: the
    theorems state results, not "if it returns".

    ** Not modelled

    The labelled property graph and its other versioned stores, the commit pipeline of store/txn, snapshots, recovery and checkpoints, the Bolt server, the
    Cypher front end and executor, the other graph algorithms: they are the plan's later
    stages, or (parser) generated code.  Of the modelled files: the sharded and
    streaming readers of the log, file locking and syncing, network deadlines and
    write errors are input and output of the operating system; statistics counters
    that no decision reads are left out; [bufio] is transparent; the aliasing of one
    live bitmap by two copies of a node set does not occur in the indexes, which keep
    one owner per set; of the mapper, capacities ([Reserve]), allocations that
    fail (the reverse table a load makes for a very large index) and keys whose equality is
    not that of their values (floating-point zeros, NaN); of the adjacency, the text of errors and reports, the
    histogram of chain lengths, and the ambient bracket a write without a transaction
    may share ([Stamp], modelled, is not called by the adjacency).  Its timestamps are
    arguments of the writes: the clock that allocates them is [Clock].  Memory is sequentially consistent, as Go's atomics are. *)

From Stdlib Require Import ZArith Lia.
From stdpp Require Export base tactics list option functions relations.

(** ** Machine integers

    Go's unsigned 64-, 32-, 16- and 8-bit integers are represented by [Z];
    every arithmetic operation of the source that can leave the range wraps
    explicitly with one of the functions below. *)

Definition u64 (z : Z) : Z := z mod 2 ^ 64.
Definition u32 (z : Z) : Z := z mod 2 ^ 32.
Definition u16 (z : Z) : Z := z mod 2 ^ 16.
Definition u8 (z : Z) : Z := z mod 2 ^ 8.

(** Two's-complement reinterpretation of a [w]-bit unsigned value. *)
Definition signed (w z : Z) : Z :=
  if decide (z < 2 ^ (w - 1))%Z then z else (z - 2 ^ w)%Z.

Create HintDb gograph.
Create Rewrite HintDb gorw.

Lemma u64_small z : (0 <= z < 2 ^ 64)%Z -> u64 z = z.
Proof. intros. apply Z.mod_small. lia. Qed.

Lemma u32_small z : (0 <= z < 2 ^ 32)%Z -> u32 z = z.
Proof. intros. apply Z.mod_small. lia. Qed.

#[export] Hint Rewrite u64_small u32_small using lia : gorw.

Lemma lor_shiftl (x b s : Z) : (0 <= s)%Z -> (0 <= x < 2 ^ s)%Z -> (0 <= b)%Z ->
  Z.lor x (Z.shiftl b s) = (x + b * 2 ^ s)%Z.
Proof.
  intros Hs Hx Hb. rewrite <- Z.shiftl_mul_pow2 by done.
  assert (Hand : Z.land x (Z.shiftl b s) = 0%Z).
  { apply Z.bits_inj'. intros n Hn. rewrite Z.land_spec, Z.bits_0.
    destruct (decide (n < s)%Z).
    - rewrite (Z.shiftl_spec_low b s n) by lia. apply andb_false_r.
    - rewrite <- (Z.mod_small x (2 ^ s)) by lia. by rewrite Z.mod_pow2_bits_high by lia. }
  rewrite <- Z.lxor_lor, <- Z.add_nocarry_lxor by done. done.
Qed.

(** ** Function update *)

Section fn.
Context {A B : Type} `{!EqDecision A}.
Implicit Types f : A -> B.

Lemma fn_insert_eq f a x : (<[a:=x]> f) a = x.
Proof. apply fn_lookup_insert. Qed.

Lemma fn_insert_dec f a x b : (<[a:=x]> f) b = if decide (a = b) then x else f b.
Proof. reflexivity. Qed.
End fn.

#[export] Hint Rewrite @fn_insert_eq : gorw.

(** Case analysis on the decision procedures and matches of the goal, solving
    the impossible branches. *)
Ltac case_all := repeat (case_decide || case_match); simplify_eq; try done.

(** Turn the boolean comparisons on [Z] of the context into propositions. *)
Ltac bool_to_prop :=
  repeat match goal with
  | H : (_ && _) = true |- _ => apply andb_true_iff in H as [? ?]
  | H : (_ || _) = false |- _ => apply orb_false_iff in H as [? ?]
  | H : negb _ = true |- _ => apply negb_true_iff in H
  | H : negb _ = false |- _ => apply negb_false_iff in H
  | H : (_ =? _)%Z = true |- _ => apply Z.eqb_eq in H
  | H : (_ =? _)%Z = false |- _ => apply Z.eqb_neq in H
  | H : (_ <? _)%Z = true |- _ => apply Z.ltb_lt in H
  | H : (_ <? _)%Z = false |- _ => apply Z.ltb_ge in H
  | H : (_ <=? _)%Z = true |- _ => apply Z.leb_le in H
  | H : (_ <=? _)%Z = false |- _ => apply Z.leb_gt in H
  end.

(** Split the visible conjunctions of the goal, without unfolding definitions. *)
Ltac spl := repeat match goal with |- _ /\ _ => split end.

(** ** Updates of lists *)

Lemma alter_last {A} (f : A -> A) l x : alter f (length l) (l ++ [x]) = l ++ [f x].
Proof. induction l as [|y l IH]; [done|]. cbn. f_equal. apply IH. Qed.

(** ** Finite sums over [0 .. n-1] *)

Fixpoint zsum (f : nat -> Z) (n : nat) : Z :=
  match n with O => 0 | S m => zsum f m + f m end%Z.

Lemma zsum_ext f g n : (forall i, (i < n)%nat -> f i = g i) -> zsum f n = zsum g n.
Proof. induction n as [|n IH]; intros H; simpl; [done|]. rewrite IH, H; auto with lia. Qed.

(** Changing one summand changes the sum by the difference. *)
Lemma zsum_update f g n t :
  (t < n)%nat -> (forall i, i <> t -> g i = f i) -> (zsum g n = zsum f n - f t + g t)%Z.
Proof.
  induction n as [|n IH]; intros Ht H; [lia|]. simpl. destruct (decide (t = n)) as [->|].
  - rewrite (zsum_ext g f n); [lia|]. intros. apply H. lia.
  - rewrite IH, (H n); auto with lia.
Qed.

Lemma zsum_nonneg f n : (forall i, (i < n)%nat -> 0 <= f i)%Z -> (0 <= zsum f n)%Z.
Proof.
  induction n as [|n IH]; intros H; simpl; [lia|].
  specialize (IH ltac:(intros; apply H; lia)). specialize (H n ltac:(lia)). lia.
Qed.

Lemma zsum_pos f n t :
  (forall i, (i < n)%nat -> 0 <= f i)%Z -> (t < n)%nat -> (0 < f t)%Z -> (0 < zsum f n)%Z.
Proof.
  intros H Ht Hp.
  rewrite (zsum_update (fun i => if decide (i = t) then 0 else f i)%Z f n t Ht).
  - case_decide; [|done]. assert (0 <= zsum (fun i => if decide (i = t) then 0 else f i) n)%Z; [|lia].
    apply zsum_nonneg. intros i Hi. case_decide; [lia|auto].
  - intros i Hi. by case_decide.
Qed.

(** A sum of nonnegative summands minus a sum that makes it nonpositive exposes
    a positive summand of the latter. *)
Lemma zsum_pos_inv f n : (0 < zsum f n)%Z -> exists i, (i < n)%nat /\ (0 < f i)%Z.
Proof.
  induction n as [|n IH]; simpl; intros H; [lia|].
  destruct (decide (0 < f n)%Z); [exists n; auto with lia|].
  destruct IH as (i & ? & ?); [lia|]. exists i. auto with lia.
Qed.

(** ** Filters *)

Lemma filter_none {A} (P : A -> Prop) `{!forall x, Decision (P x)} l :
  Forall (fun x => ~ P x) l -> filter P l = [].
Proof. induction 1 as [|x l Hx _ IH]; [done|]. by rewrite filter_cons_False. Qed.

Lemma filter_all {A} (P : A -> Prop) `{!forall x, Decision (P x)} l : Forall P l -> filter P l = l.
Proof. induction 1 as [|x l Hx _ IH]; [done|]. by rewrite filter_cons_True, IH. Qed.

Lemma filter_same {A} (P Q : A -> Prop) `{forall x, Decision (P x)} `{forall x, Decision (Q x)} (l : list A) :
  (forall x, x ∈ l -> P x <-> Q x) -> filter P l = filter Q l.
Proof.
  induction l as [|x l IH]; intros Hn; [done|]. pose proof (Hn x ltac:(left)). rewrite !filter_cons.
  rewrite IH by (intros y Hy; apply Hn; by right). repeat case_decide; tauto.
Qed.

(** ** Small ranges

    A decidable statement about every [z] of a small range is checked by
    evaluation. *)
Lemma small_range (P : Z -> Prop) {dec : forall z, Decision (P z)} (n : nat) :
  forallb (fun i => bool_decide (P (Z.of_nat i))) (seq 0 n) = true ->
  forall z, (0 <= z < Z.of_nat n)%Z -> P z.
Proof.
  intros H z Hz. rewrite forallb_forall in H.
  specialize (H (Z.to_nat z)). rewrite Z2Nat.id in H by lia.
  apply (bool_decide_unpack _). apply Is_true_true, H. apply in_seq. lia.
Qed.
