(* ===== verification/Wire.v ===== *)
(** * Bytes, fixed-width integers and byte sources

    What [encoding/binary] and [io.ReadFull] do for every wire format of the
    repository: a byte is a [Z] in [0, 256), [PutUint]'s two byte orders and their
    inverses, and reads from a finite source. *)

From Stdlib Require Import ZArith Lia.
From S2P Require Import Prelude.

Local Open Scope Z_scope.

Definition is_byte (b : Z) : Prop := 0 <= b < 256.

#[export] Instance is_byte_dec b : Decision (is_byte b).
Proof. unfold is_byte. apply _. Defined.

Abbreviation bytes := (Forall is_byte).

(** [binary.LittleEndian.PutUint{8n}] and [Uint{8n}]. *)
Fixpoint putLE (n : nat) (z : Z) : list Z :=
  match n with O => [] | S m => z mod 256 :: putLE m (z / 256) end.

Fixpoint getLE (l : list Z) : Z :=
  match l with [] => 0 | b :: l => b + 256 * getLE l end.

(** [binary.BigEndian.PutUint{8n}] and [Uint{8n}]. *)
Definition putBE (n : nat) (z : Z) : list Z := rev (putLE n z).
Definition getBE (l : list Z) : Z := getLE (rev l).

(** The width of [n] bytes. *)
Definition width (n : nat) : Z := 2 ^ (8 * Z.of_nat n).

Lemma width_0 : width 0 = 1.
Proof. reflexivity. Qed.

Lemma width_S n : width (S n) = 256 * width n.
Proof.
  unfold width. replace (8 * Z.of_nat (S n)) with (8 + 8 * Z.of_nat n) by lia.
  rewrite Z.pow_add_r by lia. reflexivity.
Qed.

Lemma width_pos n : 0 < width n.
Proof. apply Z.pow_pos_nonneg; lia. Qed.

Lemma length_putLE n z : length (putLE n z) = n.
Proof. revert z. induction n as [|n IH]; intros z; simpl; [done|]. by rewrite IH. Qed.

Lemma length_putBE n z : length (putBE n z) = n.
Proof. unfold putBE. by rewrite length_rev, length_putLE. Qed.

Lemma bytes_putLE n z : bytes (putLE n z).
Proof.
  revert z. induction n as [|n IH]; intros z; simpl; constructor; [|done].
  apply Z.mod_pos_bound. lia.
Qed.

Lemma bytes_rev l : bytes l -> bytes (rev l).
Proof. induction 1; simpl; [constructor|]. apply Forall_app; auto. Qed.

Lemma bytes_putBE n z : bytes (putBE n z).
Proof. apply bytes_rev, bytes_putLE. Qed.

Lemma getLE_putLE n z : 0 <= z < width n -> getLE (putLE n z) = z.
Proof.
  revert z. induction n as [|n IH]; intros z Hz.
  - rewrite width_0 in Hz. simpl. lia.
  - rewrite width_S in Hz. simpl. rewrite IH.
    + pose proof (Z.div_mod z 256). lia.
    + split; [apply Z.div_pos; lia|]. apply Z.div_lt_upper_bound; lia.
Qed.

Lemma getBE_putBE n z : 0 <= z < width n -> getBE (putBE n z) = z.
Proof. intros. unfold getBE, putBE. rewrite rev_involutive. by apply getLE_putLE. Qed.

Lemma getLE_range l : bytes l -> 0 <= getLE l < width (length l).
Proof.
  induction 1 as [|b l Hb _ IH]; simpl; [rewrite width_0; lia|].
  rewrite width_S. unfold is_byte in Hb. lia.
Qed.

Lemma getBE_range l : bytes l -> 0 <= getBE l < width (length l).
Proof. intros. unfold getBE. rewrite <- length_rev. by apply getLE_range, bytes_rev. Qed.

Lemma putLE_getLE l n : bytes l -> length l = n -> putLE n (getLE l) = l.
Proof.
  intros H <-. induction H as [|b l Hb _ IH]; simpl; [done|]. unfold is_byte in Hb.
  rewrite (Z.mul_comm 256), Z.mod_add, Z.div_add, Z.mod_small, Z.div_small by lia.
  by rewrite Z.add_0_l, IH.
Qed.

Lemma putBE_getBE l n : bytes l -> length l = n -> putBE n (getBE l) = l.
Proof.
  intros H Hl. unfold putBE, getBE. rewrite putLE_getLE; [by rewrite rev_involutive| |].
  - by apply bytes_rev.
  - by rewrite length_rev.
Qed.

#[export] Hint Resolve bytes_putLE bytes_putBE : gograph.
#[export] Hint Rewrite length_putLE length_putBE : gorw.

(** Two's complement: the [w]-bit image of a signed value and back. *)
Lemma signed_wrap w z : 0 < w -> - 2 ^ (w - 1) <= z < 2 ^ (w - 1) ->
  signed w (z mod 2 ^ w) = z.
Proof.
  intros Hw Hz. assert (2 ^ w = 2 * 2 ^ (w - 1)) as E.
  { replace w with (1 + (w - 1)) at 1 by lia. rewrite Z.pow_add_r by lia. done. }
  unfold signed. destruct (decide (0 <= z)).
  - rewrite Z.mod_small by lia. rewrite decide_True by lia. done.
  - replace (z mod 2 ^ w) with (z + 2 ^ w).
    + rewrite decide_False by lia. lia.
    + rewrite <- (Z.mod_small (z + 2 ^ w) (2 ^ w)) by lia.
      rewrite <- Z.add_mod_idemp_r, Z.mod_same, Z.add_0_r by lia. done.
Qed.

Lemma signed_range w z : 0 < w -> 0 <= z < 2 ^ w -> - 2 ^ (w - 1) <= signed w z < 2 ^ (w - 1).
Proof.
  intros Hw Hz. assert (2 ^ w = 2 * 2 ^ (w - 1)) as E.
  { replace w with (1 + (w - 1)) at 1 by lia. rewrite Z.pow_add_r by lia. done. }
  unfold signed. case_decide; lia.
Qed.

(** ** Reading from a finite source *)

(** [io.ReadFull]: the first [n] bytes and what is left, or nothing when fewer
    are there. *)
Definition take_bytes (n : nat) (src : list Z) : option (list Z * list Z) :=
  if decide (n <= length src)%nat then Some (take n src, drop n src) else None.

Lemma take_bytes_app l n rest : length l = n -> take_bytes n (l ++ rest) = Some (l, rest).
Proof.
  intros <-. unfold take_bytes. rewrite decide_True by (rewrite length_app; lia).
  by rewrite take_app_length, drop_app_length.
Qed.

Lemma take_bytes_spec n src l rest : take_bytes n src = Some (l, rest) ->
  src = l ++ rest /\ length l = n.
Proof.
  unfold take_bytes. case_decide; intros; simplify_eq.
  rewrite take_drop, length_take. split; [done|lia].
Qed.

(** * CRC-32C

    [hash/crc32] with the Castagnoli table, as [store/wal] and [graph/index/btree]
    use it: [MakeTable], [Update], and the facts the formats rely on -- a checksum
    fits in 32 bits, updating composes over concatenation, and a change confined
    to one byte always changes the checksum. *)

Local Open Scope Z_scope.

(** One bit of the reflected division. *)
Definition crc_bit (poly c : Z) : Z :=
  if Z.land c 1 =? 1 then Z.lxor (Z.shiftr c 1) poly else Z.shiftr c 1.

(** [crc32.MakeTable]. *)
Definition table_entry (poly i : Z) : Z := Nat.iter 8 (crc_bit poly) i.

Definition MakeTable (poly : Z) : list Z :=
  map (fun i => table_entry poly (Z.of_nat i)) (seq 0 256).

(** The reversed Castagnoli polynomial. *)
Definition Castagnoli : Z := 0x82F63B78.

Definition castagnoli : list Z := Eval vm_compute in MakeTable Castagnoli.

(** [crc32.Update crc castagnoli p]. *)
Definition crc_step (c b : Z) : Z :=
  Z.lxor (nth (Z.to_nat (Z.lxor (Z.land c 255) b)) castagnoli 0) (Z.shiftr c 8).

Definition crc_not (c : Z) : Z := Z.lxor c (2 ^ 32 - 1).

Definition crc_update (c : Z) (p : list Z) : Z := crc_not (fold_left crc_step p (crc_not c)).

Lemma castagnoli_is_table : castagnoli = MakeTable Castagnoli.
Proof. vm_compute. reflexivity. Qed.

(** The check value of the CRC catalogue: the checksum of "123456789". *)
Example crc32c_check :
  crc_update 0 [0x31; 0x32; 0x33; 0x34; 0x35; 0x36; 0x37; 0x38; 0x39] = 0xE3069283.
Proof. reflexivity. Qed.

Definition is_u32 (c : Z) : Prop := 0 <= c < 2 ^ 32.

(** ** Ranges *)

Lemma lxor_range w a b : 0 <= w -> 0 <= a < 2 ^ w -> 0 <= b < 2 ^ w -> 0 <= Z.lxor a b < 2 ^ w.
Proof.
  intros Hw Ha Hb. assert (0 <= Z.lxor a b) by (apply Z.lxor_nonneg; lia).
  split; [done|]. destruct (decide (Z.lxor a b = 0)) as [->|Hne]; [lia|].
  apply Z.log2_lt_pow2; [lia|].
  destruct (decide (a = 0)) as [->|]; [rewrite Z.lxor_0_l in *; apply Z.log2_lt_pow2; lia|].
  destruct (decide (b = 0)) as [->|]; [rewrite Z.lxor_0_r in *; apply Z.log2_lt_pow2; lia|].
  eapply Z.le_lt_trans; [apply Z.log2_lxor; lia|].
  apply Z.max_lub_lt; apply Z.log2_lt_pow2; lia.
Qed.

Lemma land_byte c : 0 <= Z.land c 255 < 256.
Proof.
  change 255 with (Z.ones 8). rewrite Z.land_ones by lia. by apply Z.mod_pos_bound.
Qed.

(** The table, as a function of its index. *)
Definition tab (i : Z) : Z := nth (Z.to_nat i) castagnoli 0.

Lemma tab_range i : 0 <= i < 256 -> is_u32 (tab i).
Proof. apply (small_range (fun i => 0 <= tab i < 2 ^ 32) 256). by vm_compute. Qed.

(** The top bytes of the table entries are pairwise different. *)
Definition tab_index (top : Z) : Z :=
  fold_right (fun i acc => if Z.shiftr (tab (Z.of_nat i)) 24 =? top then Z.of_nat i else acc)
    0 (seq 0 256).

Lemma tab_top i : 0 <= i < 256 -> tab_index (Z.shiftr (tab i) 24) = i.
Proof. apply (small_range (fun i => tab_index (Z.shiftr (tab i) 24) = i) 256). by vm_compute. Qed.

Lemma shiftr_range c : is_u32 c -> 0 <= Z.shiftr c 8 < 2 ^ 24.
Proof.
  unfold is_u32. intros. rewrite Z.shiftr_div_pow2 by lia.
  split; [apply Z.div_pos; lia|apply Z.div_lt_upper_bound; lia].
Qed.

Lemma crc_step_tab c b : crc_step c b = Z.lxor (tab (Z.lxor (Z.land c 255) b)) (Z.shiftr c 8).
Proof. reflexivity. Qed.

Lemma crc_index c b : is_byte b -> 0 <= Z.lxor (Z.land c 255) b < 256.
Proof. intros Hb. apply (lxor_range 8); [lia|apply land_byte|exact Hb]. Qed.

Lemma crc_step_range c b : is_u32 c -> is_byte b -> is_u32 (crc_step c b).
Proof.
  intros Hc Hb. apply (lxor_range 32); [lia| |].
  - apply tab_range. by apply crc_index.
  - pose proof (shiftr_range c Hc). lia.
Qed.

Lemma crc_not_range c : is_u32 c -> is_u32 (crc_not c).
Proof. intros Hc. by apply (lxor_range 32). Qed.

Lemma crc_not_not c : crc_not (crc_not c) = c.
Proof. unfold crc_not. by rewrite Z.lxor_assoc, Z.lxor_nilpotent, Z.lxor_0_r. Qed.

Lemma crc_fold_range p c : bytes p -> is_u32 c -> is_u32 (fold_left crc_step p c).
Proof.
  intros Hp. revert c. induction Hp as [|b p Hb _ IH]; intros c Hc; simpl; [done|].
  by apply IH, crc_step_range.
Qed.

Lemma crc_update_range c p : bytes p -> is_u32 c -> is_u32 (crc_update c p).
Proof. intros. by apply crc_not_range, crc_fold_range, crc_not_range. Qed.

(** Updating over a concatenation is updating twice. *)
Lemma crc_update_app c p q : crc_update c (p ++ q) = crc_update (crc_update c p) q.
Proof. unfold crc_update. by rewrite crc_not_not, fold_left_app. Qed.

(** ** A change in one byte changes the checksum *)

(** The top byte of a step's result reveals the table index it used. *)
Lemma crc_step_index c b : is_u32 c -> is_byte b ->
  tab_index (Z.shiftr (crc_step c b) 24) = Z.lxor (Z.land c 255) b.
Proof.
  intros Hc Hb. rewrite crc_step_tab, Z.shiftr_lxor.
  rewrite Z.shiftr_shiftr by lia. rewrite (Z.shiftr_div_pow2 c) by lia.
  rewrite (Z.div_small c) by exact Hc.
  rewrite Z.lxor_0_r. apply tab_top. by apply crc_index.
Qed.

Lemma lxor_cancel a b c : Z.lxor a c = Z.lxor b c -> a = b.
Proof.
  intros H. rewrite <- (Z.lxor_0_r a), <- (Z.lxor_0_r b), <- (Z.lxor_nilpotent c).
  by rewrite <- !Z.lxor_assoc, H.
Qed.

Lemma lxor_cancel_l a b c : Z.lxor c a = Z.lxor c b -> a = b.
Proof. rewrite !(Z.lxor_comm c). apply lxor_cancel. Qed.

(** A step determines its state from its result, and its byte from its state. *)
Lemma crc_step_inj c c' b : is_u32 c -> is_u32 c' -> is_byte b ->
  crc_step c b = crc_step c' b -> c = c'.
Proof.
  intros Hc Hc' Hb E.
  assert (Hi : Z.lxor (Z.land c 255) b = Z.lxor (Z.land c' 255) b).
  { rewrite <- (crc_step_index c b), <- (crc_step_index c' b) by done. by rewrite E. }
  rewrite !crc_step_tab, Hi in E. apply lxor_cancel_l in E. apply lxor_cancel in Hi.
  change 255 with (Z.ones 8) in Hi. rewrite !Z.land_ones in Hi by lia.
  rewrite !Z.shiftr_div_pow2 in E by lia.
  rewrite (Z.div_mod c (2 ^ 8)), (Z.div_mod c' (2 ^ 8)) by lia. congruence.
Qed.

Lemma crc_step_byte_inj c b b' : is_u32 c -> is_byte b -> is_byte b' ->
  crc_step c b = crc_step c b' -> b = b'.
Proof.
  intros Hc Hb Hb' E. apply (lxor_cancel_l _ _ (Z.land c 255)).
  rewrite <- (crc_step_index c b), <- (crc_step_index c b') by done. by rewrite E.
Qed.

Lemma crc_fold_inj p c c' : bytes p -> is_u32 c -> is_u32 c' ->
  fold_left crc_step p c = fold_left crc_step p c' -> c = c'.
Proof.
  intros Hp. revert c c'. induction Hp as [|b p Hb _ IH]; intros c c' Hc Hc' E; simpl in E; [done|].
  apply (crc_step_inj c c' b); auto. apply IH; auto using crc_step_range.
Qed.

Lemma crc_not_inj c c' : crc_not c = crc_not c' -> c = c'.
Proof. apply lxor_cancel. Qed.

Lemma crc_update_inj p c c' : bytes p -> is_u32 c -> is_u32 c' ->
  crc_update c p = crc_update c' p -> c = c'.
Proof.
  intros Hp Hc Hc' E%crc_not_inj. apply crc_not_inj.
  by apply (crc_fold_inj p); auto using crc_not_range.
Qed.

(** The checksum of two strings that differ in exactly one byte differs. *)
Lemma crc_one_byte c pre b b' post : is_u32 c -> bytes pre -> bytes post ->
  is_byte b -> is_byte b' -> b <> b' ->
  crc_update c (pre ++ b :: post) <> crc_update c (pre ++ b' :: post).
Proof.
  intros Hc Hpre Hpost Hb Hb' Hne E. apply Hne. rewrite !crc_update_app in E.
  set (c1 := crc_update c pre) in E. assert (Hc1 : is_u32 c1) by by apply crc_update_range.
  apply crc_not_inj in E. simpl in E.
  apply crc_fold_inj in E; auto using crc_step_range, crc_not_range.
  eapply crc_step_byte_inj; [|done|done|exact E]. by apply crc_not_range.
Qed.
