(* ===== verification/Clock.v ===== *)
(** * The MVCC clock and its commit registry

    Model of [graph/mvcc/mvcc.go], [graph/mvcc/commitlog.go] and
    [graph/mvcc/await.go]: the transaction clock that allocates commit
    timestamps, the lock-free registry of in-flight commits, and the contiguous
    visible frontier every snapshot starts at.  The code is lock-free, so the
    model is a small-step machine: one step of [tstep] is one atomic access of
    the source (plus the thread-local computation that follows it), threads
    interleave arbitrarily, and every program counter names the source line it
    is about to execute. *)

From stdpp Require Import functions.
From S2P Require Import Prelude.

Local Open Scope Z_scope.

(** ** Timestamps and visibility *)

(** In-flight transaction ids live at or above [TxIDBase]; commit timestamps
    live below it; [AbortedTS] is the all-ones word. *)
Definition TxIDBase : Z := Z.shiftl 1 63.
Definition AbortedTS : Z := 2 ^ 64 - 1.
Definition ImplicitTxBit : Z := Z.shiftl 1 62.
Definition BoundedTxBit : Z := Z.shiftl 1 61.

Definition Visible (ts startTS txID : Z) : bool :=
  if ts =? txID then true
  else if ts <? TxIDBase then ts <=? startTS
  else false.

(** First-updater-wins: a write conflicts when the newest version of the object
    is not visible to the writing transaction. *)
Definition Conflicts (headTS startTS txID : Z) : bool :=
  if headTS =? 0 then false else negb (Visible headTS startTS txID).

Definition IsImplicitTx (ts : Z) : bool :=
  (TxIDBase <=? ts) && negb (ts =? AbortedTS) &&
  negb (Z.land ts ImplicitTxBit =? 0).

Definition IsBoundedTx (ts : Z) : bool :=
  (TxIDBase <=? ts) && negb (ts =? AbortedTS) &&
  negb (Z.land ts BoundedTxBit =? 0) && (Z.land ts ImplicitTxBit =? 0).

(** ** Shared memory *)

Definition registrySlots : Z := Z.shiftl 1 12.
Definition registryMask : Z := registrySlots - 1.

Definition finishedNone : Z := 0.
Definition finishedMarked : Z := 1.
Definition finishedCounted : Z := 2.

(** One commit record per committing thread: a record's address is the thread
    that owns it. *)
Record CommitInfo := mkCI {
  ci_ts : Z;
  ci_claim : Z;
  ci_ready : bool;
  ci_finished : Z;
  ci_older : option nat
}.

(** The clock and its registry.  [owner] and [decided] are history variables:
    [owner ts] is the record whose compare-and-swap allocated [ts], [decided ts]
    says the owner of [ts] has entered [finishCommitTS].  No step reads them. *)
Record shared := mkSh {
  commit : Z;
  visible : Z;
  slots : Z -> option nat;
  recs : nat -> CommitInfo;
  pending : Z;
  linked : Z;
  outOfOrder : Z;
  helped : Z;
  chained : Z;
  waiters : Z;
  gate : option nat;
  gateNext : nat;
  closed : nat -> bool;
  owner : Z -> option nat;
  decided : Z -> bool
}.

Definition set_ts v r := mkCI v (ci_claim r) (ci_ready r) (ci_finished r) (ci_older r).
Definition set_claim v r := mkCI (ci_ts r) v (ci_ready r) (ci_finished r) (ci_older r).
Definition set_ready v r := mkCI (ci_ts r) (ci_claim r) v (ci_finished r) (ci_older r).
Definition set_finished v r := mkCI (ci_ts r) (ci_claim r) (ci_ready r) v (ci_older r).
Definition set_older v r := mkCI (ci_ts r) (ci_claim r) (ci_ready r) (ci_finished r) v.

Definition with_commit v s := mkSh v (visible s) (slots s) (recs s) (pending s)
  (linked s) (outOfOrder s) (helped s) (chained s) (waiters s) (gate s)
  (gateNext s) (closed s) (owner s) (decided s).
Definition with_visible v s := mkSh (commit s) v (slots s) (recs s) (pending s)
  (linked s) (outOfOrder s) (helped s) (chained s) (waiters s) (gate s)
  (gateNext s) (closed s) (owner s) (decided s).
Definition with_rec t (f : CommitInfo -> CommitInfo) s := mkSh (commit s)
  (visible s) (slots s) (<[t := f (recs s t)]> (recs s)) (pending s) (linked s)
  (outOfOrder s) (helped s) (chained s) (waiters s) (gate s) (gateNext s)
  (closed s) (owner s) (decided s).
Definition with_pending v s := mkSh (commit s) (visible s) (slots s) (recs s) v
  (linked s) (outOfOrder s) (helped s) (chained s) (waiters s) (gate s)
  (gateNext s) (closed s) (owner s) (decided s).
Definition with_linked v s := mkSh (commit s) (visible s) (slots s) (recs s)
  (pending s) v (outOfOrder s) (helped s) (chained s) (waiters s) (gate s)
  (gateNext s) (closed s) (owner s) (decided s).
Definition with_stats o h c s := mkSh (commit s) (visible s) (slots s) (recs s)
  (pending s) (linked s) o h c (waiters s) (gate s) (gateNext s) (closed s)
  (owner s) (decided s).
Definition with_waiters v s := mkSh (commit s) (visible s) (slots s) (recs s)
  (pending s) (linked s) (outOfOrder s) (helped s) (chained s) v (gate s)
  (gateNext s) (closed s) (owner s) (decided s).
(** A fresh broadcast channel replaces the current one. *)
Definition with_fresh_gate s := mkSh (commit s) (visible s) (slots s) (recs s)
  (pending s) (linked s) (outOfOrder s) (helped s) (chained s) (waiters s)
  (Some (gateNext s)) (S (gateNext s)) (closed s) (owner s) (decided s).
Definition with_closed g s := mkSh (commit s) (visible s) (slots s) (recs s)
  (pending s) (linked s) (outOfOrder s) (helped s) (chained s) (waiters s)
  (gate s) (gateNext s) (<[g := true]> (closed s)) (owner s) (decided s).
(** The installing compare-and-swap: the slot now heads at [t], which owns [ts]. *)
Definition with_install i ts t s := mkSh (commit s) (visible s)
  (<[i := Some t]> (slots s)) (recs s) (pending s) (linked s) (outOfOrder s)
  (helped s) (chained s) (waiters s) (gate s) (gateNext s) (closed s)
  (<[ts := Some t]> (owner s)) (decided s).
Definition with_decided ts s := mkSh (commit s) (visible s) (slots s) (recs s)
  (pending s) (linked s) (outOfOrder s) (helped s) (chained s) (waiters s)
  (gate s) (gateNext s) (closed s) (owner s) (<[ts := true]> (decided s)).

Definition slot_of (ts : Z) : Z := Z.land ts registryMask.

(** [atomic.CompareAndSwap] on the two counters. *)
Definition cas_commit (old new : Z) (s : shared) : shared :=
  if commit s =? old then with_commit new s else s.

(** ** Threads

    A thread is one client of the clock.  The four committing kinds are the
    client protocols of [graph/lpg]: [allocateReady] on the in-memory path
    ([KReady]); [AllocateCommitTS], the fsync, [MarkReady] on the durable path
    ([KDurable]); [AllocateCommitTS] followed by [abortRecord] and
    [AbandonCommit] ([KAbort]); and [WriteStamp.UntransactedStamp], which
    registers an anonymous record ([KAnon]).  [KWait floor] is a caller of
    [AwaitVisible]. *)
Inductive kind :=
  | KReady | KDurable | KAbort | KAnon
  | KWait (floor : Z).

#[export] Instance kind_eq_dec : EqDecision kind.
Proof. solve_decision. Defined.

(** The continuation of [advance]: back in the in-order branch of
    [finishCommitTS] (with its [own]), or in the out-of-order one. *)
Inductive adv_ret_k := AkIn (own : option nat) | AkOoo.

Record adv_frame := mkAdv {
  af_own : Z; af_help : bool; af_moved : bool; af_k : adv_ret_k }.

(** The continuation of [find]. *)
Inductive find_k :=
  | FkAdv (fr : adv_frame) (f : Z)   (** in [advance], with the loaded frontier *)
  | FkOoo (ts : Z)                   (** in the out-of-order branch *)
  | FkUnlink (ts : Z).               (** in the in-order branch, before [unlink] *)

(** The continuation of [unlink]. *)
Inductive unlink_k := UkAdv (fr : adv_frame) | UkFin.

Inductive pc :=
  (* AllocateFor *)
  | PAlloc | PReady
  (* commitRegistry.claim *)
  | CLoad
  | CHead (ts : Z)
  | CCmp (ts : Z) (head : option nat)
  | CBump (ts : Z)
  | CClaim (ts : Z) (head : option nat)
  | CVis (ts : Z) (head : option nat)
  | CLink (ts : Z) (head : option nat) (o : nat)
  | COlder (ts : Z) (head older : option nat)
  | CSwap (ts : Z) (head older : option nat)
  | CUndo | CUndoLink
  | CFollow (ts : Z)
  (* between allocation and publication *)
  | PMark (ts : Z) | PAbort (ts : Z)
  | SLoad (ts : Z) | SCas (ts cur : Z)
  (* finishCommitTS *)
  | FOwn (ts : Z)
  | FCas (ts : Z) (own : option nat)
  | FPend (ts : Z) (own : option nat)
  | FLinked (ts : Z) (own : option nat)
  | FWait
  | KSwap | KClose (g : nat)
  | GCheck (ts : Z) (own : option nat)
  | GMark (ts : Z) (r : nat)
  | GPend (ts : Z) (r : nat)
  | GVis (ts : Z) (r : nat)
  | GSettle (ts : Z) (r : nat)
  | GSettleDec (ts : Z)
  (* commitRegistry.find *)
  | FindHead (tgt : Z) (k : find_k)
  | FindLoop (tgt : Z) (cur : option nat) (k : find_k)
  | FindNext (tgt : Z) (r : nat) (k : find_k)
  (* advance *)
  | ALoad (fr : adv_frame)
  | AFin (fr : adv_frame) (f : Z) (r : nat)
  | AReady (fr : adv_frame) (f : Z) (r : nat)
  | AStampLoad (fr : adv_frame) (f : Z) (r : nat)
  | AStampCas (fr : adv_frame) (f : Z) (r : nat) (cur : Z)
  | ARead (fr : adv_frame) (f : Z) (r : nat)
  | AHelpCas (fr : adv_frame) (f : Z) (r : nat)
  | ACas (fr : adv_frame) (f : Z) (r : nat)
  | ASettle (fr : adv_frame) (r : nat)
  | ASettleDec (fr : adv_frame) (r : nat)
  (* commitRegistry.unlink *)
  | ULoad (r : nat) (k : unlink_k)
  | UCas (r o : nat) (k : unlink_k)
  | UDec (k : unlink_k)
  (* AwaitVisible *)
  | WCheck | WAdd | WGate | WGateCas | WGateLoad
  | WRead (ch : nat) | WBlock (ch : nat) | WLeave
  | PDone | PPanic.

(** ** Thread-local control flow *)

(** [CommitInfo.stamp]'s guard: is the record still in flight? *)
Definition in_flight (cur : Z) : bool := (TxIDBase <=? cur) && negb (cur =? AbortedTS).

Definition adv_ret (fr : adv_frame) : pc :=
  match af_k fr with
  | AkIn own => FLinked (af_own fr) own
  | AkOoo => if af_moved fr then FWait else PDone
  end.

Definition adv_moved (fr : adv_frame) : adv_frame :=
  mkAdv (af_own fr) (af_help fr) true (af_k fr).

(** Entering [advance] from the out-of-order branch of [finishCommitTS]. *)
Definition adv_ooo (ts : Z) (help : bool) : pc := ALoad (mkAdv ts help false AkOoo).

Definition find_ret (res : option nat) (k : find_k) : pc :=
  match k, res with
  | FkAdv fr f, None => adv_ret fr
  | FkAdv fr f, Some r => AFin fr f r
  | FkOoo ts, None => adv_ooo ts false
  | FkOoo ts, Some r => GMark ts r
  | FkUnlink ts, None => FWait
  | FkUnlink ts, Some r => ULoad r UkFin
  end.

Definition unlink_ret (k : unlink_k) : pc :=
  match k with UkAdv fr => ALoad fr | UkFin => FWait end.

(** What the client of kind [k] does once [AllocateFor] has returned [ts]. *)
Definition after_alloc (k : kind) (ts : Z) : pc :=
  match k with
  | KReady => SLoad ts
  | KDurable => PMark ts
  | KAbort => PAbort ts
  | _ => FOwn ts
  end.

(** ** One atomic step of thread [t]

    One definition per function of the source; [None] means the thread is blocked
    or finished, or that the program point is not one of that function's.
    [cancel] is the environment's choice of completing the context of a blocked
    waiter. *)

(** [Clock.AllocateFor], and the owner's protocol around it: the record guard and the
    early ready mark before the claim; [MarkReady], [CommitInfo.Abort] and
    [CommitInfo.stamp] between allocation and publication. *)
Definition alloc_step (kd : kind) (cancel : bool) (t : nat) (s : shared) (p : pc)
  : option (shared * pc) :=
  match p with
  | PAlloc =>
      Some (s, if decide (kd = KAnon) then CLoad
               else if ci_claim (recs s t) =? 0
                    then if decide (kd = KReady) then PReady else CLoad
                    else PPanic)
  | PReady => Some (with_rec t (set_ready true) s, CLoad)
  | PMark ts => Some (with_rec t (set_ready true) s, SLoad ts)
  | PAbort ts => Some (with_rec t (set_ts AbortedTS) s, FOwn ts)
  | SLoad ts =>
      let cur := ci_ts (recs s t) in
      Some (s, if in_flight cur then SCas ts cur else FOwn ts)
  | SCas ts cur =>
      if ci_ts (recs s t) =? cur then Some (with_rec t (set_ts ts) s, FOwn ts)
      else Some (s, SLoad ts)
  | _ => None
  end.

(** [commitRegistry.claim]: the allocation loop, the record's lap link, the
    installing compare-and-swap and the counter that follows it. *)
Definition claim_step (kd : kind) (cancel : bool) (t : nat) (s : shared) (p : pc)
  : option (shared * pc) :=
  match p with
  | CLoad => Some (s, CHead (u64 (commit s + 1)))
  | CHead ts => Some (s, CCmp ts (slots s (slot_of ts)))
  | CCmp ts head =>
      Some (s, match head with
               | Some h => if ts <=? ci_claim (recs s h) then CBump ts else CClaim ts head
               | None => CClaim ts head
               end)
  | CBump ts => Some (cas_commit (u64 (ts - 1)) ts s, CLoad)
  | CClaim ts head => Some (with_rec t (set_claim ts) s, CVis ts head)
  | CVis ts head =>
      Some (s, match head with
               | Some h => if visible s <? ci_claim (recs s h) then CLink ts head h
                           else COlder ts head None
               | None => COlder ts head None
               end)
  | CLink ts head o => Some (with_linked (linked s + 1) s, COlder ts head (Some o))
  | COlder ts head older => Some (with_rec t (set_older older) s, CSwap ts head older)
  | CSwap ts head older =>
      if decide (slots s (slot_of ts) = head) then
        let s' := with_install (slot_of ts) ts t s in
        Some (match older with
              | Some _ => with_stats (outOfOrder s) (helped s) (chained s + 1) s'
              | None => s'
              end, CFollow ts)
      else Some (s, match older with Some _ => CUndo | None => CLoad end)
  | CUndo => Some (with_rec t (set_older None) s, CUndoLink)
  | CUndoLink => Some (with_linked (linked s - 1) s, CLoad)
  | CFollow ts => Some (cas_commit (u64 (ts - 1)) ts s, after_alloc kd ts)
  | _ => None
  end.

(** [Clock.finishCommitTS]. *)
Definition finish_step (kd : kind) (cancel : bool) (t : nat) (s : shared) (p : pc)
  : option (shared * pc) :=
  match p with
  | FOwn ts =>
      Some (with_decided ts s,
            FCas ts (if decide (kd = KAnon) then None
                     else if ci_claim (recs s t) =? ts then Some t else None))
  | FCas ts own =>
      if visible s =? u64 (ts - 1) then Some (with_visible ts s, FPend ts own)
      else Some (s, GCheck ts own)
  | FPend ts own =>
      Some (s, if pending s =? 0 then FLinked ts own
               else ALoad (mkAdv ts false false (AkIn own)))
  | FLinked ts own =>
      Some (s, if linked s =? 0 then FWait
               else match own with
                    | Some r => ULoad r UkFin
                    | None => FindHead ts (FkUnlink ts)
                    end)
  | GCheck ts own =>
      Some (s, if visible s <? ts
               then match own with
                    | Some r => GMark ts r
                    | None => FindHead ts (FkOoo ts)
                    end
               else adv_ooo ts false)
  | GMark ts r =>
      if ci_finished (recs s r) =? finishedNone
      then Some (with_rec r (set_finished finishedMarked) s, GPend ts r)
      else Some (s, adv_ooo ts false)
  | GPend ts r =>
      Some (with_stats (outOfOrder s + 1) (helped s) (chained s)
              (with_pending (pending s + 1) s), GVis ts r)
  | GVis ts r => Some (s, if ts <=? visible s then GSettle ts r else adv_ooo ts true)
  | GSettle ts r =>
      if ci_finished (recs s r) =? finishedMarked
      then Some (with_rec r (set_finished finishedCounted) s, GSettleDec ts)
      else Some (s, adv_ooo ts true)
  | GSettleDec ts => Some (with_pending (pending s - 1) s, adv_ooo ts true)
  | _ => None
  end.

(** [Clock.wakeWaiters]. *)
Definition wake_step (kd : kind) (cancel : bool) (t : nat) (s : shared) (p : pc)
  : option (shared * pc) :=
  match p with
  | FWait => Some (s, if 0 <? waiters s then KSwap else PDone)
  | KSwap => Some (with_fresh_gate s, match gate s with Some g => KClose g | None => PDone end)
  | KClose g => Some (with_closed g s, PDone)
  | _ => None
  end.

(** [commitRegistry.find]. *)
Definition find_step (kd : kind) (cancel : bool) (t : nat) (s : shared) (p : pc)
  : option (shared * pc) :=
  match p with
  | FindHead tgt k => Some (s, FindLoop tgt (slots s (slot_of tgt)) k)
  | FindLoop tgt cur k =>
      Some (s, match cur with
               | None => find_ret None k
               | Some r =>
                   let c := ci_claim (recs s r) in
                   if c =? tgt then find_ret (Some r) k
                   else if c <? tgt then find_ret None k
                   else FindNext tgt r k
               end)
  | FindNext tgt r k => Some (s, FindLoop tgt (ci_older (recs s r)) k)
  | _ => None
  end.

(** [Clock.advance], with [CommitInfo.stamp] and [commitRegistry.passed] inlined. *)
Definition advance_step (kd : kind) (cancel : bool) (t : nat) (s : shared) (p : pc)
  : option (shared * pc) :=
  match p with
  | ALoad fr => Some (s, FindHead (u64 (visible s + 1)) (FkAdv fr (visible s)))
  | AFin fr f r =>
      Some (s, if ci_finished (recs s r) =? finishedNone then
                 if negb (af_help fr) || (af_own fr <=? f) then adv_ret fr else AReady fr f r
               else ACas fr f r)
  | AReady fr f r => Some (s, if ci_ready (recs s r) then AStampLoad fr f r else adv_ret fr)
  | AStampLoad fr f r =>
      let cur := ci_ts (recs s r) in
      Some (s, if in_flight cur then AStampCas fr f r cur else ARead fr f r)
  | AStampCas fr f r cur =>
      if ci_ts (recs s r) =? cur
      then Some (with_rec r (set_ts (u64 (f + 1))) s, ARead fr f r)
      else Some (s, AStampLoad fr f r)
  | ARead fr f r =>
      Some (s, if ci_ts (recs s r) =? u64 (f + 1) then AHelpCas fr f r else adv_ret fr)
  | AHelpCas fr f r =>
      if visible s =? f
      then Some (with_stats (outOfOrder s) (helped s + 1) (chained s)
                   (with_visible (u64 (f + 1)) s), ASettle (adv_moved fr) r)
      else Some (s, ALoad fr)
  | ACas fr f r =>
      if visible s =? f
      then Some (with_visible (u64 (f + 1)) s, ASettle (adv_moved fr) r)
      else Some (s, ALoad fr)
  | ASettle fr r =>
      if ci_finished (recs s r) =? finishedMarked
      then Some (with_rec r (set_finished finishedCounted) s, ASettleDec fr r)
      else Some (s, ULoad r (UkAdv fr))
  | ASettleDec fr r => Some (with_pending (pending s - 1) s, ULoad r (UkAdv fr))
  | _ => None
  end.

(** [commitRegistry.unlink]. *)
Definition unlink_step (kd : kind) (cancel : bool) (t : nat) (s : shared) (p : pc)
  : option (shared * pc) :=
  match p with
  | ULoad r k =>
      Some (s, match ci_older (recs s r) with
               | Some o => UCas r o k
               | None => unlink_ret k
               end)
  | UCas r o k =>
      if decide (ci_older (recs s r) = Some o)
      then Some (with_rec r (set_older None) s, UDec k)
      else Some (s, unlink_ret k)
  | UDec k => Some (with_linked (linked s - 1) s, unlink_ret k)
  | _ => None
  end.

(** [Clock.AwaitVisible] and [Clock.gate]. *)
Definition await_step (kd : kind) (cancel : bool) (t : nat) (s : shared) (p : pc)
  : option (shared * pc) :=
  match p with
  | WCheck =>
      match kd with
      | KWait floor => Some (s, if (floor =? 0) || (floor <=? visible s) then PDone else WAdd)
      | _ => None
      end
  | WAdd => Some (with_waiters (waiters s + 1) s, WGate)
  | WGate => Some (s, match gate s with Some g => WRead g | None => WGateCas end)
  | WGateCas => Some (match gate s with None => with_fresh_gate s | Some _ => s end, WGateLoad)
  | WGateLoad => Some (s, match gate s with Some g => WRead g | None => PPanic end)
  | WRead ch =>
      match kd with
      | KWait floor => Some (s, if floor <=? visible s then WLeave else WBlock ch)
      | _ => None
      end
  | WBlock ch =>
      if closed s ch then Some (s, WGate)
      else if cancel then Some (s, WLeave) else None
  | WLeave => Some (with_waiters (waiters s - 1) s, PDone)
  | _ => None
  end.

(** The thread dispatches on its program point. *)
Definition tstep (kd : kind) (cancel : bool) (t : nat) (s : shared) (p : pc)
  : option (shared * pc) :=
  match p with
  | PAlloc | PReady | PMark _ | PAbort _ | SLoad _ | SCas _ _ => alloc_step kd cancel t s p
  | CLoad | CHead _ | CCmp _ _ | CBump _ | CClaim _ _ | CVis _ _ | CLink _ _ _
  | COlder _ _ _ | CSwap _ _ _ | CUndo | CUndoLink | CFollow _ =>
      claim_step kd cancel t s p
  | FOwn _ | FCas _ _ | FPend _ _ | FLinked _ _ | GCheck _ _ | GMark _ _ | GPend _ _
  | GVis _ _ | GSettle _ _ | GSettleDec _ =>
      finish_step kd cancel t s p
  | FWait | KSwap | KClose _ => wake_step kd cancel t s p
  | FindHead _ _ | FindLoop _ _ _ | FindNext _ _ _ => find_step kd cancel t s p
  | ALoad _ | AFin _ _ _ | AReady _ _ _ | AStampLoad _ _ _ | AStampCas _ _ _ _
  | ARead _ _ _ | AHelpCas _ _ _ | ACas _ _ _ | ASettle _ _ | ASettleDec _ _ =>
      advance_step kd cancel t s p
  | ULoad _ _ | UCas _ _ _ | UDec _ => unlink_step kd cancel t s p
  | WCheck | WAdd | WGate | WGateCas | WGateLoad | WRead _ | WBlock _ | WLeave =>
      await_step kd cancel t s p
  | PDone | PPanic => None
  end.

(** ** The machine *)

(** A configuration: how many client threads there are, what each does, the
    transaction id its record is born with, and the timestamp recovery ratcheted
    the clock to. *)
Record config := mkCfg {
  nthreads : nat;
  kinds : nat -> kind;
  txids : nat -> Z;
  base : Z
}.

Record state := mkState { mem : shared; pcs : nat -> pc }.

Definition zero_ci : CommitInfo := mkCI 0 0 false finishedNone None.

(** [NewCommitInfo txID], and the anonymous record of [AllocateFor nil]. *)
Definition NewCommitInfo (txID : Z) : CommitInfo := set_ts txID zero_ci.

Definition init_ci (k : kind) (txID : Z) : CommitInfo :=
  match k with
  | KReady | KDurable | KAbort => NewCommitInfo txID
  | KAnon | KWait _ => zero_ci
  end.

Definition raiseVisible (f : Z) (s : shared) : shared :=
  if f <=? visible s then s else with_visible f s.

(** [Clock.RatchetTo], called once at recovery, before any other thread exists. *)
Definition RatchetTo (floor : Z) (s : shared) : shared :=
  raiseVisible floor (if commit s <? floor then with_commit floor s else s).

Definition zero_clock (cfg : config) : shared :=
  mkSh 0 0 (fun _ => None) (fun t => init_ci (kinds cfg t) (txids cfg t)) 0 0 0 0 0 0
    None 0 (fun _ => false) (fun _ => None) (fun _ => false).

Definition init_pc (k : kind) : pc :=
  match k with KWait _ => WCheck | _ => PAlloc end.

Definition init (cfg : config) : state :=
  mkState (RatchetTo (base cfg) (zero_clock cfg)) (fun t => init_pc (kinds cfg t)).

Definition step (cfg : config) (cancel : bool) (t : nat) (s : state) : option state :=
  if decide (t < nthreads cfg)%nat then
    match tstep (kinds cfg t) cancel t (mem s) (pcs s t) with
    | Some (m, p) => Some (mkState m (<[t := p]> (pcs s)))
    | None => None
    end
  else None.

(** A schedule, executed: blocked and finished threads are skipped. *)
Fixpoint exec (cfg : config) (sched : list nat) (s : state) : state :=
  match sched with
  | [] => s
  | t :: rest => exec cfg rest (default s (step cfg false t s))
  end.

(** One step of the machine, while the allocation counter stays below the
    in-flight id space (2^63 commits). *)
Definition mstep (cfg : config) (s s' : state) : Prop :=
  exists t cancel, commit (mem s) < TxIDBase - 1 /\ step cfg cancel t s = Some s'.

Definition reachable (cfg : config) (s : state) : Prop := rtc (mstep cfg) (init cfg) s.

Definition config_ok (cfg : config) : Prop :=
  0 <= base cfg < TxIDBase /\
  forall t, TxIDBase <= txids cfg t < AbortedTS.

(** ** Reader-side operations *)

Definition ReadTS (s : shared) : Z := visible s.
Definition Allocated (s : shared) : Z := commit s.
Definition InFlightCommits (s : shared) : Z :=
  if commit s <=? visible s then 0 else commit s - visible s.

(** [NextTxID] and its two flavours, on the value of [txSeq]. *)
Definition NextTxID (txSeq : Z) : Z := u64 (TxIDBase + u64 (txSeq + 1)).
Definition NextImplicitTxID (txSeq : Z) : Z := Z.lor (NextTxID txSeq) ImplicitTxBit.
Definition NextBoundedTxID (txSeq : Z) : Z := Z.lor (NextTxID txSeq) BoundedTxBit.
