(* ===== verification/ClockInv.v ===== *)
(** * Invariants of the MVCC clock machine

    The global invariant of the machine of [Clock], proved by rely-guarantee
    reasoning: [SI] is the invariant of the shared memory, [local_ok] the
    assertion a thread maintains at each program counter, and [G] what every
    step of one thread guarantees to the others. *)

From S2P Require Import Prelude Clock.

Local Open Scope Z_scope.

Section inv.
Variable cfg : config.
Hypothesis Hcfg : config_ok cfg.

#[local] Abbreviation kd := (kinds cfg).

Definition committer (k : kind) : Prop := forall f, k <> KWait f.
Definition durable (k : kind) : Prop := k = KReady \/ k = KDurable.

(** [r]'s record is registered. *)
Definition installed (s : shared) (r : nat) : Prop :=
  owner s (ci_claim (recs s r)) = Some r.

Definition not_installed (s : shared) (r : nat) : Prop :=
  forall ts, owner s ts <> Some r.

Record SI (s : shared) : Prop := mkSI {
  si_base : base cfg <= visible s;
  si_commit : base cfg <= commit s < TxIDBase;
  si_range : forall ts t, owner s ts = Some t ->
    base cfg < ts <= commit s + 1 /\ ts < TxIDBase /\
    ci_claim (recs s t) = ts /\ committer (kd t);
  si_full : forall ts, base cfg < ts <= commit s -> is_Some (owner s ts);
  si_vis : forall ts, base cfg < ts <= visible s -> is_Some (owner s ts);
  si_slot_some : forall i t, slots s i = Some t ->
    installed s t /\ slot_of (ci_claim (recs s t)) = i /\
    forall ts, is_Some (owner s ts) -> slot_of ts = i -> ts <= ci_claim (recs s t);
  si_slot_none : forall i ts, slots s i = None -> is_Some (owner s ts) -> slot_of ts <> i;
  si_older : forall t o, installed s t -> ci_older (recs s t) = Some o ->
    installed s o /\ ci_claim (recs s o) = ci_claim (recs s t) - registrySlots;
  si_chain : forall ts t, owner s ts = Some t -> visible s < ts - registrySlots ->
    ci_older (recs s t) = owner s (ts - registrySlots);
  si_passed : forall ts t, base cfg < ts <= visible s -> owner s ts = Some t ->
    decided s ts = true \/ (ci_ready (recs s t) = true /\ ci_ts (recs s t) = ts);
  si_fin : forall t, ci_finished (recs s t) <> finishedNone ->
    installed s t /\ decided s (ci_claim (recs s t)) = true;
  si_fin_range : forall t, ci_finished (recs s t) = finishedNone \/
    ci_finished (recs s t) = finishedMarked \/ ci_finished (recs s t) = finishedCounted;
  si_counted : forall t, ci_finished (recs s t) = finishedCounted ->
    ci_claim (recs s t) <= visible s;
  si_ready : forall t, ci_ready (recs s t) = true -> durable (kd t);
  si_ts : forall t, ci_ts (recs s t) = ci_ts (init_ci (kd t) (txids cfg t)) \/
    (kd t = KAbort /\ ci_ts (recs s t) = AbortedTS) \/
    (durable (kd t) /\ installed s t /\ ci_ts (recs s t) = ci_claim (recs s t));
  si_decided : forall ts, decided s ts = true -> exists t, owner s ts = Some t /\
    (durable (kd t) -> ci_ts (recs s t) = ts) /\
    (kd t = KAbort -> ci_ts (recs s t) = AbortedTS)
}.

(** What a step of thread [X] guarantees to every other thread. *)
Record G (X : nat) (s s' : shared) : Prop := mkG {
  g_commit : commit s <= commit s';
  g_vis : visible s <= visible s';
  g_owner : forall ts r, owner s ts = Some r -> owner s' ts = Some r;
  g_decided : forall ts, decided s ts = true -> decided s' ts = true;
  g_claim : forall r, installed s r -> ci_claim (recs s' r) = ci_claim (recs s r);
  g_fin : forall r, ci_finished (recs s r) <> finishedNone ->
    ci_finished (recs s' r) <> finishedNone;
  g_ready : forall r, ci_ready (recs s r) = true -> ci_ready (recs s' r) = true;
  g_ts : forall r, in_flight (ci_ts (recs s r)) = false ->
    ci_ts (recs s' r) = ci_ts (recs s r);
  g_gate : is_Some (gate s) -> is_Some (gate s');
  g_private : forall r, r <> X -> not_installed s r ->
    not_installed s' r /\ recs s' r = recs s r
}.

(** ** Thread assertions *)

Definition owns (s : shared) (t : nat) (ts : Z) : Prop := owner s ts = Some t.

Definition fresh (s : shared) (t : nat) : Prop :=
  not_installed s t /\ committer (kd t).

Definition head_ok (s : shared) (ts : Z) (head : option nat) : Prop :=
  forall h, head = Some h -> installed s h /\ slot_of (ci_claim (recs s h)) = slot_of ts.

Definition head_lt (s : shared) (ts : Z) (head : option nat) : Prop :=
  forall h, head = Some h -> ci_claim (recs s h) < ts.

Definition older_ok (s : shared) (head older : option nat) : Prop :=
  (forall o, older = Some o -> head = Some o) /\
  (older = None -> forall h, head = Some h -> ci_claim (recs s h) <= visible s).

(** The timestamp's owner has reached [finishCommitTS]. *)
Definition finishing (s : shared) (t : nat) (ts : Z) (own : option nat) : Prop :=
  owns s t ts /\ decided s ts = true /\ (forall r, own = Some r -> owner s ts = Some r).

(** Whoever needs the frontier to pass the thread's timestamp can see that it
    may: it is passed, or its record is marked. *)
Definition discharged (s : shared) (t : nat) : Prop :=
  exists ts, owns s t ts /\ ( ts <= visible s \/ ci_finished (recs s t) <> finishedNone).

Definition frame_ok (s : shared) (t : nat) (fr : adv_frame) : Prop :=
  owns s t (af_own fr) /\ decided s (af_own fr) = true /\ discharged s t /\
  match af_k fr with
  | AkIn own => finishing s t (af_own fr) own /\ af_own fr <= visible s
  | AkOoo => True
  end.

Definition find_k_ok (s : shared) (t : nat) (tgt : Z) (k : find_k) : Prop :=
  match k with
  | FkAdv fr f => frame_ok s t fr /\ base cfg <= f <= visible s /\ tgt = f + 1
  | FkOoo ts => tgt = ts /\ finishing s t ts None
  | FkUnlink ts => tgt = ts /\ finishing s t ts None /\ ts <= visible s
  end.

Definition cur_ok (s : shared) (tgt : Z) (cur : option nat) : Prop :=
  forall r, cur = Some r -> installed s r /\ slot_of (ci_claim (recs s r)) = slot_of tgt.

(** A search for a registered, unpassed timestamp has not walked past it. *)
Definition on_track (s : shared) (tgt : Z) (cur : option nat) : Prop :=
  exists r, cur = Some r /\ tgt <= ci_claim (recs s r).

Definition track_ok (s : shared) (tgt : Z) (cur : option nat) (k : find_k) : Prop :=
  match k with
  | FkOoo _ => visible s < tgt -> on_track s tgt cur
  | _ => True
  end.

Definition at_rec (s : shared) (t : nat) (fr : adv_frame) (f : Z) (r : nat) : Prop :=
  frame_ok s t fr /\ base cfg <= f <= visible s /\ owner s (f + 1) = Some r.

Definition unlink_k_ok (s : shared) (t : nat) (k : unlink_k) : Prop :=
  match k with UkAdv fr => frame_ok s t fr | UkFin => discharged s t end.

Definition passed_rec (s : shared) (r : nat) : Prop :=
  installed s r /\ ci_claim (recs s r) <= visible s.

Definition stamped (s : shared) (t : nat) (ts : Z) : Prop :=
  (durable (kd t) -> ci_ts (recs s t) = ts) /\
  (kd t = KAbort -> ci_ts (recs s t) = AbortedTS).

Definition local_ok (s : shared) (t : nat) (p : pc) : Prop :=
  match p with
  | PAlloc => fresh s t /\ ci_claim (recs s t) = 0
  | PReady => fresh s t /\ kd t = KReady
  | CLoad | CUndo | CUndoLink => fresh s t
  | CHead ts => fresh s t /\ base cfg < ts <= commit s + 1 /\ ts < TxIDBase
  | CCmp ts head => fresh s t /\ base cfg < ts <= commit s + 1 /\ ts < TxIDBase /\
      head_ok s ts head
  | CBump ts => fresh s t /\ base cfg < ts <= commit s + 1 /\ ts < TxIDBase /\
      is_Some (owner s ts)
  | CClaim ts head => fresh s t /\ base cfg < ts <= commit s + 1 /\ ts < TxIDBase /\
      head_ok s ts head /\ head_lt s ts head
  | CVis ts head => fresh s t /\ base cfg < ts <= commit s + 1 /\ ts < TxIDBase /\
      head_ok s ts head /\ head_lt s ts head /\ ci_claim (recs s t) = ts
  | CLink ts head o => fresh s t /\ base cfg < ts <= commit s + 1 /\ ts < TxIDBase /\
      head_ok s ts head /\ head_lt s ts head /\ ci_claim (recs s t) = ts /\
      older_ok s head (Some o)
  | COlder ts head older => fresh s t /\ base cfg < ts <= commit s + 1 /\ ts < TxIDBase /\
      head_ok s ts head /\ head_lt s ts head /\ ci_claim (recs s t) = ts /\
      older_ok s head older
  | CSwap ts head older => fresh s t /\ base cfg < ts <= commit s + 1 /\ ts < TxIDBase /\
      head_ok s ts head /\ head_lt s ts head /\ ci_claim (recs s t) = ts /\
      older_ok s head older /\ ci_older (recs s t) = older
  | CFollow ts => owns s t ts
  | PMark ts => owns s t ts /\ kd t = KDurable
  | PAbort ts => owns s t ts /\ kd t = KAbort
  | SLoad ts => owns s t ts /\ durable (kd t)
  | SCas ts cur => owns s t ts /\ durable (kd t) /\ in_flight cur = true
  | FOwn ts => owns s t ts /\ stamped s t ts
  | FCas ts own | GCheck ts own => finishing s t ts own
  | FPend ts own | FLinked ts own => finishing s t ts own /\ ts <= visible s
  | FWait | KSwap | KClose _ => discharged s t
  | PDone => committer (kd t) -> discharged s t
  | GMark ts r => finishing s t ts (Some r)
  | GPend ts r | GVis ts r =>
      finishing s t ts (Some r) /\ ci_finished (recs s r) <> finishedNone
  | GSettle ts r => finishing s t ts (Some r) /\ ci_finished (recs s r) <> finishedNone /\
      ts <= visible s
  | GSettleDec ts => finishing s t ts None /\ discharged s t
  | FindHead tgt k => find_k_ok s t tgt k
  | FindLoop tgt cur k => find_k_ok s t tgt k /\ cur_ok s tgt cur /\ track_ok s tgt cur k
  | FindNext tgt r k => find_k_ok s t tgt k /\ cur_ok s tgt (Some r) /\
      tgt < ci_claim (recs s r)
  | ALoad fr => frame_ok s t fr
  | AFin fr f r | AReady fr f r => at_rec s t fr f r
  | AStampLoad fr f r | ARead fr f r => at_rec s t fr f r /\ ci_ready (recs s r) = true
  | AStampCas fr f r cur =>
      at_rec s t fr f r /\ ci_ready (recs s r) = true /\ in_flight cur = true
  | AHelpCas fr f r =>
      at_rec s t fr f r /\ ci_ready (recs s r) = true /\ ci_ts (recs s r) = f + 1
  | ACas fr f r => at_rec s t fr f r /\ ci_finished (recs s r) <> finishedNone
  | ASettle fr r => frame_ok s t fr /\ passed_rec s r /\ af_moved fr = true
  | ASettleDec fr r => frame_ok s t fr /\ passed_rec s r /\ af_moved fr = true
  | ULoad r k | UCas r _ k => passed_rec s r /\ unlink_k_ok s t k
  | UDec k => unlink_k_ok s t k
  | WGateLoad => (exists f, kd t = KWait f) /\ is_Some (gate s)
  | WCheck | WAdd | WGate | WGateCas | WRead _ | WBlock _ | WLeave =>
      exists f, kd t = KWait f
  | PPanic => False
  end.

(** ** Arithmetic of the ring *)

Lemma slot_of_mod ts : slot_of ts = ts mod registrySlots.
Proof.
  unfold slot_of, registryMask. change (registrySlots - 1) with (Z.ones 12).
  rewrite Z.land_ones by lia. reflexivity.
Qed.

Lemma slot_of_lap ts : slot_of (ts - registrySlots) = slot_of ts.
Proof.
  rewrite !slot_of_mod. replace (ts - registrySlots) with (ts + (-1) * registrySlots) by lia.
  apply Z.mod_add. done.
Qed.

(** Two timestamps of one slot are at least a lap apart. *)
Lemma slot_of_gap a b : slot_of a = slot_of b -> a < b -> a <= b - registrySlots.
Proof.
  rewrite !slot_of_mod. intros Heq Hlt.
  assert (Hr : 0 < registrySlots) by done.
  pose proof (Z.div_mod a registrySlots ltac:(lia)) as Ha.
  pose proof (Z.div_mod b registrySlots ltac:(lia)) as Hb.
  assert (a / registrySlots < b / registrySlots) by nia. nia.
Qed.

(** ** The rely is stable *)

Lemma G_refl X s : G X s s.
Proof. constructor; auto; lia. Qed.

Lemma g_installed X s s' r : G X s s' -> installed s r -> installed s' r.
Proof. intros HG Hr. unfold installed in *. rewrite (g_claim _ _ _ HG) by done. by apply HG. Qed.

Lemma owner_installed s ts r : SI s -> owner s ts = Some r -> installed s r /\ ci_claim (recs s r) = ts.
Proof. intros HS Hr. destruct (si_range _ HS _ _ Hr) as (_ & _ & <- & _). auto. Qed.


Lemma in_flight_committed ts : ts < TxIDBase -> in_flight ts = false.
Proof. intros. unfold in_flight. destruct (Z.leb_spec TxIDBase ts); [lia|done]. Qed.

Section stable.
Variables (X t : nat) (s s' : shared).
Hypothesis HS : SI s.
Hypothesis HG : G X s s'.

Lemma owns_stable ts : owns s t ts -> owns s' t ts.
Proof. apply HG. Qed.

Lemma claim_stable r : installed s r -> ci_claim (recs s' r) = ci_claim (recs s r).
Proof. apply HG. Qed.

Lemma fresh_stable : t <> X -> fresh s t -> fresh s' t /\ recs s' t = recs s t.
Proof. intros Hne [Hf Hk]. destruct (g_private _ _ _ HG t Hne Hf). split_and!; done. Qed.

Lemma range_stable ts : base cfg < ts <= commit s + 1 -> base cfg < ts <= commit s' + 1.
Proof. pose proof (g_commit _ _ _ HG). lia. Qed.

Lemma head_ok_stable ts head : head_ok s ts head -> head_ok s' ts head.
Proof.
  intros H h Hh. destruct (H h Hh) as [Hi Hs]. split; [by eapply g_installed|].
  by rewrite claim_stable.
Qed.

Lemma head_lt_stable ts head : head_ok s ts head -> head_lt s ts head -> head_lt s' ts head.
Proof. intros H0 H h Hh. rewrite claim_stable; [auto|by apply (H0 h)]. Qed.

Lemma older_ok_stable ts head older :
  head_ok s ts head -> older_ok s head older -> older_ok s' head older.
Proof.
  intros H0 [H1 H2]. split; [done|]. intros Ho h Hh. rewrite claim_stable by by apply (H0 h).
  etrans; [by apply H2|]. apply HG.
Qed.

Lemma finishing_stable ts own : finishing s t ts own -> finishing s' t ts own.
Proof. intros (H1 & H2 & H3). split_and!; [by apply HG..|]. intros r Hr. apply HG. auto. Qed.

Lemma discharged_stable : discharged s t -> discharged s' t.
Proof.
  intros (ts & H1 & H2). exists ts. split; [by apply HG|].
  pose proof (g_vis _ _ _ HG). destruct H2 as [H2|H2]; [lia|right; by apply HG].
Qed.

Lemma vis_stable ts : ts <= visible s -> ts <= visible s'.
Proof. pose proof (g_vis _ _ _ HG). lia. Qed.

Lemma frame_ok_stable fr : frame_ok s t fr -> frame_ok s' t fr.
Proof.
  intros (H1 & H2 & H3 & H4). split_and!; [by apply HG..|by apply discharged_stable|].
  destruct (af_k fr); [|done]. destruct H4. split; [by apply finishing_stable|by apply vis_stable].
Qed.

Lemma find_k_ok_stable tgt k : find_k_ok s t tgt k -> find_k_ok s' t tgt k.
Proof.
  pose proof (g_vis _ _ _ HG). destruct k; simpl.
  - intros (H1 & H2 & H3). split_and!; [by apply frame_ok_stable|lia..].
  - intros (H1 & H2). split; [done|by apply finishing_stable].
  - intros (H1 & H2 & H3). split_and!; [done|by apply finishing_stable|lia].
Qed.

Lemma cur_ok_stable tgt cur : cur_ok s tgt cur -> cur_ok s' tgt cur.
Proof.
  intros H r Hr. destruct (H r Hr) as [Hi Hs]. split; [by eapply g_installed|].
  by rewrite claim_stable.
Qed.

Lemma track_ok_stable tgt cur k : cur_ok s tgt cur -> track_ok s tgt cur k -> track_ok s' tgt cur k.
Proof.
  intros H0. destruct k; simpl; [done| |done]. intros H Hv.
  pose proof (g_vis _ _ _ HG). destruct H as (r & -> & Hr); [lia|]. exists r. split; [done|].
  rewrite claim_stable; [done|by apply (H0 r)].
Qed.

Lemma at_rec_stable fr f r : at_rec s t fr f r -> at_rec s' t fr f r.
Proof.
  pose proof (g_vis _ _ _ HG). intros (H1 & H2 & H3).
  split_and!; [by apply frame_ok_stable|lia..|by apply HG].
Qed.

Lemma unlink_k_ok_stable k : unlink_k_ok s t k -> unlink_k_ok s' t k.
Proof. destruct k; [apply frame_ok_stable|apply discharged_stable]. Qed.

Lemma passed_rec_stable r : passed_rec s r -> passed_rec s' r.
Proof.
  intros [H1 H2]. split; [by eapply g_installed|]. rewrite claim_stable by done.
  by apply vis_stable.
Qed.

Lemma stamped_stable ts : owns s t ts -> stamped s t ts -> stamped s' t ts.
Proof.
  intros Ho [H1 H2]. destruct (si_range _ HS _ _ Ho) as (_ & Hlt & _).
  split; intros Hk; [specialize (H1 Hk)|specialize (H2 Hk)];
    (rewrite (g_ts _ _ _ HG); [done|]); [|by rewrite H2].
  by rewrite H1, in_flight_committed.
Qed.

Lemma local_ok_stable p : t <> X -> local_ok s t p -> local_ok s' t p.
Proof.
  intros Hne.
  Local Hint Resolve owns_stable head_ok_stable head_lt_stable older_ok_stable finishing_stable
    discharged_stable vis_stable frame_ok_stable find_k_ok_stable cur_ok_stable track_ok_stable
    at_rec_stable unlink_k_ok_stable passed_rec_stable stamped_stable range_stable : core.
  pose proof (g_fin _ _ _ HG) as Hfin. pose proof (g_ready _ _ _ HG) as Hrdy.
  destruct p; simpl; intros H;
    repeat match goal with
    | H : _ /\ _ |- _ => destruct H
    | H : fresh s _ |- _ => apply fresh_stable in H as [? Hrec]; [|done]
    end; try rewrite Hrec; split_and?; eauto; try lia.
  all: try (pose proof (g_commit _ _ _ HG); lia).
  - destruct H2. eexists. by apply HG.
  - rewrite claim_stable; [done|]. by apply (H0 _ eq_refl).
  - rewrite (g_ts _ _ _ HG); [done|]. destruct H as (_ & _ & H).
    destruct (si_range _ HS _ _ H) as (_ & Hlt & _). rewrite H1. by apply in_flight_committed.
  - by apply HG.
Qed.
End stable.

(** ** Effects on the shared memory

    One lemma per kind of memory effect: it keeps [SI] and respects [G]. *)

Ltac fn_split :=
  repeat match goal with
  | H : context [(<[_:=_]> _) _] |- _ => rewrite fn_insert_dec in H
  | |- context [(<[_:=_]> _) _] => rewrite fn_insert_dec
  end; repeat case_decide; subst; simpl in *.

Definition effect (t : nat) (s s' : shared) : Prop := SI s' /\ G t s s'.

Ltac si_crush :=
  match goal with HS : SI _ |- _ => destruct HS end;
  constructor; unfold installed in *; simpl in *; intros; fn_split; eauto; try discriminate.

Ltac g_crush :=
  constructor; unfold installed, not_installed in *; simpl in *; intros; fn_split; eauto;
  try lia; try done.

Lemma eff_refl t s : SI s -> effect t s s.
Proof. split; [done|apply G_refl]. Qed.

Lemma eff_ready t s : SI s -> durable (kd t) -> effect t s (with_rec t (set_ready true) s).
Proof.
  intros HS Hk. split; [|g_crush; congruence]. si_crush.
  - destruct (si_passed0 ts t0) as [?|[??]]; auto.
  - destruct (si_decided0 ts) as (r & ? & ?); [done|]. exists r; fn_split; auto.
Qed.

Lemma fresh_owner s t r : fresh s t -> owner s (ci_claim (recs s r)) = Some r -> r <> t.
Proof. intros [Hf _] Ho ->. by destruct (Hf _ Ho). Qed.

(** Nothing of the shared memory points at a record that is not installed. *)
Ltac absurd_owner :=
  exfalso; match goal with
  | Hni : not_installed ?s ?t |- _ =>
      match goal with
      | H : owner s _ = Some t |- _ => by destruct (Hni _ H)
      | Hs : forall i t, slots s i = Some t -> _, H : slots s _ = Some t |- _ =>
          destruct (Hs _ _ H) as [Ho _]; by destruct (Hni _ Ho)
      | Hs : forall t o, _ -> ci_older (recs s t) = Some o -> _,
        H1 : owner s (ci_claim (recs s ?u)) = Some ?u, H : ci_older (recs s ?u) = Some t |- _ =>
          destruct (Hs _ _ H1 H) as [Ho _]; by destruct (Hni _ Ho)
      | Hs : forall t, ci_finished (recs s t) <> finishedNone -> _,
        H : ci_finished (recs s t) <> finishedNone |- _ =>
          destruct (Hs _ H) as [Ho _]; by destruct (Hni _ Ho)
      | Hs : forall t, ci_finished (recs s t) <> finishedNone -> _,
        H : ci_finished (recs s t) = finishedCounted |- _ =>
          destruct (Hs t) as [Ho _]; [by rewrite H|]; by destruct (Hni _ Ho)
      end
  end.

Lemma eff_claim t ts s : SI s -> fresh s t -> effect t s (with_rec t (set_claim ts) s).
Proof.
  intros HS [Hni _]. split; [|g_crush; by edestruct Hni]. si_crush; try absurd_owner.
  - destruct (si_ts0 t0) as [|[|(_ & Ho & _)]]; auto. absurd_owner.
  - destruct (si_decided0 ts0) as (r & ? & ?); [done|]. exists r; fn_split; auto.
Qed.

Lemma eff_older t o s : SI s -> fresh s t -> effect t s (with_rec t (set_older o) s).
Proof.
  intros HS [Hni _]. split; [|g_crush; by edestruct Hni]. si_crush; try absurd_owner.
  destruct (si_decided0 ts) as (r & ? & ?); [done|]. exists r; fn_split; auto.
Qed.

Lemma eff_unlink t r s : SI s -> passed_rec s r -> effect t s (with_rec r (set_older None) s).
Proof.
  intros HS [Hi Hv]. split; [|g_crush]. si_crush.
  - destruct (si_range0 _ _ H) as (_ & _ & Hc & _).
    assert (registrySlots > 0) by done. lia.
  - destruct (si_decided0 ts) as (u & ? & ?); [done|]. exists u; fn_split; auto.
  - by destruct (H0 _ Hi).
Qed.

Lemma eff_mark t r s : SI s -> installed s r -> decided s (ci_claim (recs s r)) = true ->
  ci_finished (recs s r) = finishedNone ->
  effect t s (with_rec r (set_finished finishedMarked) s).
Proof.
  intros HS Hi Hd Hf. split; [|g_crush].
  - si_crush. destruct (si_decided0 ts) as (u & ? & ?); [done|]. exists u; fn_split; auto.
  - by destruct (H0 _ Hi).
Qed.

Lemma eff_settle t r s : SI s -> passed_rec s r -> ci_finished (recs s r) = finishedMarked ->
  effect t s (with_rec r (set_finished finishedCounted) s).
Proof.
  intros HS [Hi Hv] Hf. split; [|g_crush].
  - si_crush. by apply si_fin0; rewrite Hf.
    destruct (si_decided0 ts) as (u & ? & ?); [done|]. exists u; fn_split; auto.
  - by destruct (H0 _ Hi).
Qed.

(** The owner's or a helper's stamp. *)
Lemma eff_stamp t r ts s : SI s -> owner s ts = Some r -> durable (kd r) ->
  in_flight (ci_ts (recs s r)) = true -> effect t s (with_rec r (set_ts ts) s).
Proof.
  intros HS Hi Hk Hfl. destruct (owner_installed _ _ _ HS Hi) as [Hin Hc].
  split; [|g_crush; [congruence|by edestruct H0]]. si_crush.
  - destruct (si_range0 _ _ Hi) as (_ & _ & Ha & _), (si_range0 _ _ H0) as (_ & _ & Hb & _).
    destruct (si_passed0 ts0 t0) as [?|[??]]; auto.
  - destruct (si_decided0 ts0) as (u & Hu & ?); [done|]. exists u; fn_split; auto.
    destruct (si_range0 _ _ Hu) as (_ & _ & ? & _). split; [done|].
    split; intros Hx; [congruence|]. destruct Hk; congruence.
Qed.

Lemma init_in_flight t : durable (kd t) \/ kd t = KAbort ->
  in_flight (ci_ts (init_ci (kd t) (txids cfg t))) = true.
Proof.
  intros Hk. destruct Hcfg as [_ Ht]. specialize (Ht t).
  assert (ci_ts (init_ci (kd t) (txids cfg t)) = txids cfg t) as ->.
  { by destruct Hk as [[-> | ->] | ->]. }
  unfold in_flight. apply andb_true_iff. split; [lia|]. apply negb_true_iff. lia.
Qed.

Lemma eff_abort t ts s : SI s -> owner s ts = Some t -> kd t = KAbort ->
  effect t s (with_rec t (set_ts AbortedTS) s).
Proof.
  intros HS Hi Hk. destruct (owner_installed _ _ _ HS Hi) as [Hin Hc].
  assert (Hnd : ~ durable (kd t)) by (rewrite Hk; by intros [?|?]).
  assert (Hal : in_flight (ci_ts (recs s t)) = false -> ci_ts (recs s t) = AbortedTS).
  { destruct (si_ts _ HS t) as [Hx|[[_ ?]|[? _]]]; [|done|done].
    rewrite Hx, init_in_flight; [done|auto]. }
  split; [|g_crush; by rewrite Hal]. si_crush.
  - destruct (si_passed0 ts0 t0) as [?|[Hr ?]]; auto.
  - destruct (si_decided0 ts0) as (u & Hu & H1 & H2); [done|].
    exists u; fn_split; split_and!; auto; tauto.
Qed.

Lemma eff_decided t ts s : SI s -> owner s ts = Some t -> stamped s t ts ->
  effect t s (with_decided ts s).
Proof.
  intros HS Hi Hst. split; [|g_crush]. si_crush.
  destruct (si_fin0 _ H). auto.
Qed.

Lemma TxIDBase_val : TxIDBase = 9223372036854775808.
Proof. reflexivity. Qed.

Lemma u64_pred ts : base cfg < ts -> ts < TxIDBase -> u64 (ts - 1) = ts - 1.
Proof. destruct Hcfg as [? _]. intros. apply u64_small. pose proof TxIDBase_val. lia. Qed.

Lemma u64_succ f : base cfg <= f -> f < TxIDBase -> u64 (f + 1) = f + 1.
Proof. destruct Hcfg as [? _]. intros. apply u64_small. pose proof TxIDBase_val. lia. Qed.

Lemma eff_commit t ts s : SI s -> base cfg < ts <= commit s + 1 -> ts < TxIDBase ->
  is_Some (owner s ts) -> effect t s (cas_commit (u64 (ts - 1)) ts s).
Proof.
  intros HS Hr Hlt Ho. rewrite u64_pred by lia. unfold cas_commit.
  destruct (Z.eqb_spec (commit s) (ts - 1)) as [Heq|]; [|by apply eff_refl].
  split; [|g_crush]. si_crush.
  - lia.
  - destruct (si_range0 _ _ H) as (? & ? & ? & ?). split_and!; auto; lia.
  - destruct (decide (ts0 = ts)) as [->|]; [done|]. apply si_full0. lia.
Qed.

Lemma eff_visible t f r s : SI s -> visible s = f -> owner s (f + 1) = Some r ->
  decided s (f + 1) = true \/ (ci_ready (recs s r) = true /\ ci_ts (recs s r) = f + 1) ->
  effect t s (with_visible (f + 1) s).
Proof.
  intros HS <- Ho Hd. split; [|g_crush]. si_crush.
  - lia.
  - destruct (decide (ts = visible s + 1)) as [->|]; [by eexists|]. apply si_vis0. lia.
  - apply si_chain0; [done|lia].
  - destruct (decide (ts = visible s + 1)) as [->|]; [by simplify_eq|].
    apply si_passed0; [lia|done].
  - specialize (si_counted0 _ H). lia.
Qed.

(** The compare-and-swap of [claim] allocates exactly the next timestamp. *)
Lemma install_next s t ts head older : SI s -> local_ok s t (CSwap ts head older) ->
  slots s (slot_of ts) = head -> owner s ts = None /\ ts = commit s + 1.
Proof.
  intros HS (_ & Hr & Hlt & Hh & Hhl & _) Hs.
  assert (owner s ts = None) as Hn.
  { destruct (owner s ts) as [u|] eqn:Ho; [|done]. exfalso. destruct head as [h|].
    - destruct (si_slot_some _ HS _ _ Hs) as (_ & _ & Hmax).
      specialize (Hmax ts ltac:(by eexists) eq_refl). specialize (Hhl h eq_refl). lia.
    - by eapply (si_slot_none _ HS _ ts Hs); [by eexists|]. }
  split; [done|]. destruct (decide (ts <= commit s)); [|lia].
  destruct (si_full _ HS ts) as [? ?]; [lia|congruence].
Qed.

(** The link the installed record carries is the record of the previous lap,
    whenever that is still unpassed. *)
Lemma install_chain s t ts head older : SI s -> local_ok s t (CSwap ts head older) ->
  slots s (slot_of ts) = head -> visible s < ts - registrySlots ->
  ci_older (recs s t) = owner s (ts - registrySlots).
Proof.
  intros HS HL Hs Hv. destruct (install_next _ _ _ _ _ HS HL Hs) as [_ Hts].
  destruct HL as (_ & Hr & Hlt & Hh & Hhl & Hc & [Ho1 Ho2] & ->).
  assert (registrySlots > 0) by done. pose proof (si_base _ HS).
  destruct (si_full _ HS (ts - registrySlots)) as [u Hu]; [lia|]. rewrite Hu.
  destruct head as [h|].
  - destruct (si_slot_some _ HS _ _ Hs) as (Hi & Hsl & Hmax).
    specialize (Hmax (ts - registrySlots) ltac:(by eexists) (slot_of_lap ts)).
    specialize (Hhl h eq_refl). pose proof (slot_of_gap _ _ Hsl Hhl).
    assert (ci_claim (recs s h) = ts - registrySlots) as Heq by lia.
    unfold installed in Hi. rewrite Heq in Hi. simplify_eq.
    destruct older as [o|]; [by rewrite (Ho1 o eq_refl)|].
    specialize (Ho2 eq_refl h eq_refl). lia.
  - exfalso. eapply (si_slot_none _ HS _ (ts - registrySlots) Hs); [by eexists|].
    apply slot_of_lap.
Qed.

Section install.
Variables (t : nat) (ts : Z) (head older : option nat) (s : shared).
Hypothesis HS : SI s.
Hypothesis HL : local_ok s t (CSwap ts head older).
Hypothesis Hs : slots s (slot_of ts) = head.
Let s' := with_install (slot_of ts) ts t s.

Lemma owner_install x r : owner s' x = Some r <->
  (x = ts /\ r = t) \/ owner s x = Some r.
Proof.
  destruct (install_next _ _ _ _ _ HS HL Hs) as [Hn _].
  unfold s', with_install; simpl. rewrite fn_insert_dec. clear HL Hs.
  case_decide; subst; intuition congruence.
Qed.

Lemma installed_install r : installed s' r <-> r = t \/ installed s r.
Proof.
  destruct HL as (_ & _ & _ & _ & _ & Hc & _).
  unfold installed. rewrite owner_install. simpl. split; [by intros [[??]|?]; auto|].
  intros [-> | ?]; [by left|by right].
Qed.

Lemma slot_some_install i u : slots s' i = Some u ->
  installed s' u /\ slot_of (ci_claim (recs s' u)) = i /\
  forall x, is_Some (owner s' x) -> slot_of x = i -> x <= ci_claim (recs s' u).
Proof.
  destruct HL as (_ & _ & _ & Hh & Hhl & Hc & _).
  rewrite installed_install. simpl. rewrite fn_insert_dec. case_decide as Hi.
  - intros [= <-]. split_and!; [by left|by rewrite Hc|].
    intros x [r [[-> ->]|Hx]%owner_install] Hsl; [by rewrite Hc|]. rewrite Hc.
    destruct head as [h|].
    + destruct (si_slot_some _ HS _ _ Hs) as (_ & _ & Hmax).
      specialize (Hmax x ltac:(by eexists) ltac:(congruence)). specialize (Hhl h eq_refl). lia.
    + exfalso. eapply (si_slot_none _ HS _ x Hs); [by eexists|congruence].
  - intros Hu. destruct (si_slot_some _ HS _ _ Hu) as (Hin & Hsl & Hmax).
    split_and!; [by right|done|]. intros x [r [[-> ->]|Hx]%owner_install] Hslx; [done|].
    apply Hmax; [by eexists|done].
Qed.

Lemma SI_install : SI s'.
Proof.
  destruct (install_next _ _ _ _ _ HS HL Hs) as [Hn Hts].
  pose proof (install_chain _ _ _ _ _ HS HL Hs) as Hch.
  pose proof HL as ((Hni & Hk) & Hr & Hlt & Hh & Hhl & Hc & [Ho1 Ho2] & Hol).
  assert (Hr0 : registrySlots > 0) by done.
  assert (Hfin : ci_finished (recs s t) = finishedNone).
  { destruct (decide (ci_finished (recs s t) = finishedNone)) as [|Hx]; [done|].
    destruct (si_fin _ HS _ Hx) as [Hi _]. by destruct (Hni _ Hi). }
  constructor.
  - apply HS.
  - apply HS.
  - intros x r [[-> ->]|Hx]%owner_install; [done|]. by apply (si_range _ HS).
  - intros x Hx. destruct (si_full _ HS x Hx) as [r Ho]. exists r. apply owner_install. auto.
  - intros x Hx. destruct (si_vis _ HS x Hx) as [r Ho]. exists r. apply owner_install. auto.
  - apply slot_some_install.
  - intros i x Hi [r [[-> ->]|Hx]%owner_install]; simpl in Hi; rewrite fn_insert_dec in Hi;
      case_decide; simplify_eq; [done|]. eapply (si_slot_none _ HS); [done|by eexists].
  - intros u o. rewrite !installed_install. intros [-> | Hu] Ho; simpl in Ho |- *.
    + rewrite Hol in Ho. destruct (Hh _ (Ho1 _ Ho)) as [Hi Hsl]. split; [by right|].
      pose proof (slot_of_gap _ _ Hsl (Hhl _ (Ho1 _ Ho))). rewrite Hc.
      destruct (si_range _ HS _ _ Hi) as (Hb & _).
      destruct (decide (ci_claim (recs s o) < ts - registrySlots)) as [Hx|]; [|lia]. exfalso.
      destruct (si_slot_some _ HS _ _ (eq_trans Hs (Ho1 _ Ho))) as (_ & _ & Hmax).
      specialize (Hmax (ts - registrySlots)
                    ltac:(apply (si_full _ HS); lia) (slot_of_lap ts)). lia.
    + destruct (si_older _ HS _ _ Hu Ho). auto.
  - intros x r Hx Hv; simpl in *. apply owner_install in Hx as [[-> ->]|Hx].
    + rewrite fn_insert_dec, decide_False by lia. auto.
    + destruct (si_range _ HS _ _ Hx) as (Hb & _).
      rewrite fn_insert_dec, decide_False by lia. by apply (si_chain _ HS).
  - intros x r Hx [[-> ->]|Ho]%owner_install; [|by apply (si_passed _ HS)].
    exfalso. destruct (si_vis _ HS ts) as [? ?]; [done|congruence].
  - intros u Hu. rewrite installed_install. destruct (si_fin _ HS u Hu). auto.
  - apply HS.
  - apply HS.
  - apply HS.
  - intros u. rewrite installed_install. destruct (si_ts _ HS u) as [|[|(? & ? & ?)]]; auto 7.
  - intros x Hx. destruct (si_decided _ HS x Hx) as (u & Hu & ?). exists u.
    rewrite owner_install. auto.
Qed.

Lemma eff_install : effect t s s'.
Proof.
  split; [apply SI_install|].
  constructor; unfold not_installed; auto; try (simpl; lia).
  - intros x r Hx. apply owner_install. auto.
  - intros r Hne Hni. split; [|done]. intros x [[-> ->]|Hx]%owner_install; [done|].
    by destruct (Hni x).
Qed.
End install.

(** Counters, statistics and the broadcast gate are invisible to [SI]. *)
Definition same_core (s s' : shared) : Prop :=
  commit s' = commit s /\ visible s' = visible s /\ slots s' = slots s /\ recs s' = recs s /\
  owner s' = owner s /\ decided s' = decided s /\ (is_Some (gate s) -> is_Some (gate s')).

Lemma eff_same_core t s s' : SI s -> same_core s s' -> effect t s s'.
Proof.
  intros HS (E1 & E2 & E3 & E4 & E5 & E6 & E7). split.
  - destruct HS; constructor; unfold installed in *; rewrite ?E1, ?E2, ?E3, ?E4, ?E5, ?E6; auto.
  - constructor; unfold installed, not_installed; rewrite ?E1, ?E2, ?E3, ?E4, ?E5, ?E6; auto; lia.
Qed.

(** ** One step *)

Lemma adv_ret_ok s t fr : frame_ok s t fr -> local_ok s t (adv_ret fr).
Proof.
  intros (H1 & H2 & H3 & H4). unfold adv_ret. destruct (af_k fr) as [own|].
  - by destruct H4.
  - destruct (af_moved fr); simpl; auto.
Qed.

Lemma unlink_ret_ok s t k : unlink_k_ok s t k -> local_ok s t (unlink_ret k).
Proof. by destruct k. Qed.

Lemma finishing_none s t ts own : finishing s t ts own -> finishing s t ts None.
Proof. intros (H1 & H2 & _). by split_and!. Qed.

Lemma finishing_discharged s t ts own : finishing s t ts own ->
  (ts <= visible s \/ ci_finished (recs s t) <> finishedNone) -> discharged s t.
Proof. intros (H1 & H2 & H3) Hd. by exists ts. Qed.

Lemma adv_ooo_ok s t ts own help : finishing s t ts own -> discharged s t ->
  local_ok s t (adv_ooo ts help).
Proof. intros (H1 & H2 & H3) Hd. by split_and!. Qed.

Lemma find_ret_ok s t tgt cur k : SI s -> find_k_ok s t tgt k -> cur_ok s tgt cur ->
  (k = FkOoo tgt -> cur = None -> tgt <= visible s) ->
  (forall r, cur = Some r -> ci_claim (recs s r) = tgt) ->
  local_ok s t (find_ret cur k).
Proof.
  intros HS Hk Hc Hd Hr. destruct k as [fr f|ts|ts]; simpl in Hk.
  - destruct Hk as (Hfr & Hf & ->). destruct cur as [r|]; [|by apply adv_ret_ok].
    destruct (Hc r eq_refl) as [Hi _]. unfold installed in Hi. rewrite (Hr r eq_refl) in Hi.
    exact (conj Hfr (conj Hf Hi)).
  - destruct Hk as (-> & Hfin). destruct cur as [r|]; simpl.
    + destruct (Hc r eq_refl) as [Hi _]. unfold installed in Hi. rewrite (Hr r eq_refl) in Hi.
      destruct Hfin as (? & ? & _). split_and!; [done..|]. by intros ? [= <-].
    + eapply adv_ooo_ok; [done|]. eapply finishing_discharged; [done|]. left. auto.
  - destruct Hk as (-> & Hfin & Hv). assert (discharged s t) as Hdis.
    { eapply finishing_discharged; [done|]. by left. }
    destruct cur as [r|]; simpl; [|done]. destruct (Hc r eq_refl) as [Hi _].
    split; [|done]. split; [done|]. by rewrite (Hr r eq_refl).
Qed.

Lemma head_on_track s ts r : SI s -> owner s ts = Some r -> on_track s ts (slots s (slot_of ts)).
Proof.
  intros HS Ho. destruct (slots s (slot_of ts)) as [h|] eqn:Hs.
  - destruct (si_slot_some _ HS _ _ Hs) as (_ & _ & Hmax). exists h. split; [done|].
    apply Hmax; [by eexists|done].
  - exfalso. by eapply (si_slot_none _ HS _ ts Hs); [by eexists|].
Qed.

(** Following a link never skips an unpassed registered timestamp. *)
Lemma next_on_track s tgt u r : SI s -> owner s tgt = Some u -> visible s < tgt ->
  installed s r -> slot_of (ci_claim (recs s r)) = slot_of tgt -> tgt < ci_claim (recs s r) ->
  on_track s tgt (ci_older (recs s r)).
Proof.
  intros HS Ho Hv Hi Hsl Hlt. pose proof (slot_of_gap _ _ (eq_sym Hsl) Hlt).
  rewrite (si_chain _ HS _ _ Hi) by lia.
  destruct (si_range _ HS _ _ Ho) as (Hb & _), (si_range _ HS _ _ Hi) as (Hb' & _).
  assert (registrySlots > 0) by done.
  destruct (si_full _ HS (ci_claim (recs s r) - registrySlots)) as [w Hw]; [lia|].
  exists w. split; [done|]. destruct (si_range _ HS _ _ Hw) as (_ & _ & -> & _). lia.
Qed.

Lemma stamped_final s t ts : SI s -> owns s t ts -> in_flight (ci_ts (recs s t)) = false ->
  durable (kd t) -> stamped s t ts.
Proof.
  intros HS Ho Hf Hk. destruct (owner_installed _ _ _ HS Ho) as [_ Hc].
  split; [intros _|destruct Hk; congruence].
  destruct (si_ts _ HS t) as [Hx|[[? _]|(_ & _ & ->)]]; [|destruct Hk; congruence|done].
  rewrite Hx, init_in_flight in Hf by auto. done.
Qed.

Definition step_ok (t : nat) (s : shared) (o : shared * pc) : Prop :=
  effect t s o.1 /\ local_ok o.1 t o.2.

Lemma step_same t s p : SI s -> local_ok s t p -> step_ok t s (s, p).
Proof. intros. split; [by apply eff_refl|done]. Qed.

Lemma step_eff t s s' p : effect t s s' -> (G t s s' -> SI s' -> local_ok s' t p) ->
  step_ok t s (s', p).
Proof. intros [HS HG] HL. split; [by split|by apply HL]. Qed.

Lemma step_core t s s' p : SI s -> same_core s s' -> (G t s s' -> SI s' -> local_ok s' t p) ->
  step_ok t s (s', p).
Proof. intros HS Hc. apply step_eff. by apply eff_same_core. Qed.

Ltac same_core := unfold same_core; simpl; split_and!; auto.

Definition claim_pc (p : pc) : bool :=
  match p with
  | PAlloc | PReady | CLoad | CHead _ | CCmp _ _ | CBump _ | CClaim _ _ | CVis _ _
  | CLink _ _ _ | COlder _ _ _ | CSwap _ _ _ | CUndo | CUndoLink | CFollow _ => true
  | _ => false
  end.

Lemma claim_step_ok cancel t s p o : SI s -> local_ok s t p -> commit s < TxIDBase - 1 ->
  claim_pc p = true -> tstep (kd t) cancel t s p = Some o -> step_ok t s o.
Proof.
  intros HS HL Hb Hp Hst. destruct p; try done; clear Hp; simpl in Hst; simplify_eq.
  - destruct HL as [Hf Hc]. apply step_same; [done|]. rewrite Hc. simpl.
    repeat case_decide; done.
  - destruct HL as [Hf Hk]. apply step_eff; [apply eff_ready; [done|by left]|done].
  - pose proof (si_commit _ HS). rewrite u64_succ by lia.
    apply step_same; [done|]. simpl. spl; [done|lia..].
  - destruct HL as (Hf & Hr & Hlt). apply step_same; [done|]. simpl. spl; try done; try lia.
    intros h Hh. destruct (si_slot_some _ HS _ _ Hh) as (? & ? & _). done.
  - destruct HL as (Hf & Hr & Hlt & Hh). apply step_same; [done|]. destruct head as [h|].
    + destruct (Hh h eq_refl) as [Hi Hsl]. destruct (Z.leb_spec ts (ci_claim (recs s h))); simpl.
      * spl; try done; try lia. destruct (si_range _ HS _ _ Hi) as (? & ? & _).
        destruct (decide (ts <= commit s)); [apply (si_full _ HS); lia|].
        exists h. by replace ts with (ci_claim (recs s h)) by lia.
      * spl; try done; try lia. by intros ? [= <-].
    + simpl. spl; try done; lia.
  - destruct HL as (Hf & Hr & Hlt & Ho). apply step_eff; [by apply eff_commit|].
    intros HG HS'. simpl. unfold cas_commit. by case_match.
  - destruct HL as (Hf & Hr & Hlt & Hh & Hl). apply step_eff; [by apply eff_claim|].
    intros HG HS'. simpl. spl; try done; try lia.
    + by eapply head_ok_stable.
    + by eapply head_lt_stable.
    + by rewrite fn_insert_eq.
  - destruct HL as (Hf & Hr & Hlt & Hh & Hl & Hc). apply step_same; [done|].
    destruct head as [h|]; [destruct (Z.ltb_spec (visible s) (ci_claim (recs s h)))|];
      simpl; spl; try done; try lia.
    split; [done|]. intros _ ? [= <-]. lia.
  - destruct HL as (Hf & Hr & Hlt & Hh & Hl & Hc & Ho). apply step_core; [done|same_core|].
    intros _ _. simpl. spl; try done; lia.
  - destruct HL as (Hf & Hr & Hlt & Hh & Hl & Hc & Ho). apply step_eff; [by apply eff_older|].
    intros HG HS'. simpl. rewrite fn_insert_eq. spl; try done; try lia.
    + by eapply head_ok_stable.
    + by eapply head_lt_stable.
    + by eapply older_ok_stable.
  - case_decide as Hs; simplify_eq.
    + pose proof HL as (Hf & _ & _ & _ & _ & Hc & _).
      destruct (eff_install t ts _ _ s HS HL eq_refl) as [HS' HG].
      assert (Ho : owns (with_install (slot_of ts) ts t s) t ts).
      { unfold owns. simpl. apply fn_insert_eq. }
      destruct older; (apply step_eff; [|by intros]); [|done].
      destruct (eff_same_core t _ (with_stats (outOfOrder s) (helped s) (chained s + 1)
        (with_install (slot_of ts) ts t s)) HS') as [? ?]; [same_core|].
      split; [done|]. destruct HG; constructor; auto.
    + apply step_same; [done|]. destruct HL as (Hf & _). by destruct older.
  - apply step_eff; [by apply eff_older|]. done.
  - apply step_core; [done|same_core|done].
  - unfold owns in HL. destruct (si_range _ HS _ _ HL) as (Hr & Hlt & Hc & Hk).
    apply step_eff; [apply eff_commit; [done..|by eexists]|]. intros HG HS'.
    assert (owns (cas_commit (u64 (ts - 1)) ts s) t ts) as Ho by by apply HG.
    destruct (kd t) eqn:Hkt; simpl; spl; try done; rewrite ?Hkt; try done.
    + by left.
    + split; rewrite Hkt; [by intros [?|?]|done].
    + by destruct (Hk floor).
Qed.

Lemma finish_step_ok cancel t s p o : SI s -> local_ok s t p ->
  (match p with PMark _ | PAbort _ | SLoad _ | SCas _ _ | FOwn _ | FCas _ _ | FPend _ _
   | FLinked _ _ | FWait | KSwap | KClose _ | GCheck _ _ => true | _ => false end) = true ->
  tstep (kd t) cancel t s p = Some o -> step_ok t s o.
Proof.
  intros HS HL Hp Hst. destruct p; try done; clear Hp; simpl in Hst; simplify_eq.
  - destruct HL as [Ho Hk]. apply step_eff; [apply eff_ready; [done|by right]|].
    intros HG HS'. simpl. split; [done|by right].
  - destruct HL as [Ho Hk]. apply step_eff; [by eapply eff_abort|].
    intros HG HS'. simpl. split; [done|]. split; simpl; rewrite Hk; [by intros [?|?]|].
    by rewrite fn_insert_eq.
  - destruct HL as [Ho Hk]. apply step_same; [done|].
    destruct (in_flight _) eqn:Hf; simpl; [done|]. split; [done|]. by apply stamped_final.
  - destruct HL as (Ho & Hk & Hf). destruct (Z.eqb_spec (ci_ts (recs s t)) cur) as [<-|];
      simplify_eq; [|by apply step_same].
    apply step_eff; [by apply eff_stamp|]. intros HG HS'. simpl. split; [done|].
    split; simpl; rewrite fn_insert_eq; simpl; [done|]. destruct Hk; congruence.
  - destruct HL as (Ho & Hst). destruct (owner_installed _ _ _ HS Ho) as [_ Hc].
    apply step_eff; [by apply eff_decided|]. intros HG HS'. simpl.
    split; [done|]. split; [simpl; by rewrite fn_insert_eq|].
    intros r. repeat case_match; intros; by simplify_eq.
  - pose proof HL as (Ho & Hd & Hown). destruct (si_range _ HS _ _ Ho) as (Hr & Hlt & _).
    rewrite u64_pred in Hst by lia. destruct (Z.eqb_spec (visible s) (ts - 1)) as [Hv|];
      simplify_eq; [|by apply step_same].
    replace ts with (visible s + 1) in * by lia.
    apply step_eff; [by eapply eff_visible; eauto|]. intros HG HS'. simpl.
    split; [by eapply finishing_stable|lia].
  - destruct HL as (Hf & Hv). apply step_same; [done|]. destruct (_ =? 0); [done|].
    simpl. pose proof Hf as (? & ? & ?). split_and!; try done.
    eapply finishing_discharged; [done|by left].
  - destruct HL as (Hf & Hv). apply step_same; [done|].
    assert (discharged s t) by (eapply finishing_discharged; [done|by left]).
    destruct (_ =? 0); [done|]. destruct own as [r|]; simpl.
    + split; [|done]. destruct Hf as (_ & _ & Hown).
      destruct (owner_installed _ _ _ HS (Hown r eq_refl)) as [? ?]. split; [done|lia].
    + split; [done|by split].
  - apply step_same; [done|]. simpl in HL. destruct (0 <? _); simpl; auto.
  - apply step_core; [done|same_core|]. intros HG HS'. destruct (gate s); simpl; intros; exact HL.
  - apply step_core; [done|same_core|]. simpl; intros; exact HL.
  - apply step_same; [done|]. destruct (Z.ltb_spec (visible s) ts) as [Hv|Hv].
    + destruct own; [done|]. by split.
    + eapply adv_ooo_ok; [done|]. eapply finishing_discharged; [done|]. left. lia.
Qed.

Lemma mark_step_ok cancel t s p o : SI s -> local_ok s t p ->
  (match p with GMark _ _ | GPend _ _ | GVis _ _ | GSettle _ _ | GSettleDec _
   | FindHead _ _ | FindLoop _ _ _ | FindNext _ _ _ => true | _ => false end) = true ->
  tstep (kd t) cancel t s p = Some o -> step_ok t s o.
Proof.
  intros HS HL Hp Hst. destruct p; try done; clear Hp; simpl in Hst; simplify_eq.
  - pose proof HL as (Ho & Hd & Hr). specialize (Hr r eq_refl).
    assert (r = t) as -> by congruence.
    destruct (owner_installed _ _ _ HS Ho) as [Hi Hc].
    destruct (Z.eqb_spec (ci_finished (recs s t)) finishedNone) as [Hf|Hf]; simplify_eq.
    + apply step_eff; [by apply eff_mark|]. intros HG HS'. simpl. rewrite fn_insert_eq.
      split; [by eapply finishing_stable|done].
    + apply step_same; [done|]. eapply adv_ooo_ok; [done|].
      eapply finishing_discharged; [done|]. by right.
  - apply step_core; [done|same_core|]. by intros HG HS'.
  - destruct HL as (Hf & Hfin). apply step_same; [done|]. pose proof Hf as (Ho & _ & Hr).
    assert (r = t) as -> by (specialize (Hr r eq_refl); congruence).
    destruct (Z.leb_spec ts (visible s)); simpl; [done|].
    eapply adv_ooo_ok; [done|]. eapply finishing_discharged; [done|]. by right.
  - destruct HL as (Hf & Hfin & Hv). pose proof Hf as (Ho & _ & Hr).
    assert (r = t) as -> by (specialize (Hr r eq_refl); congruence).
    destruct (owner_installed _ _ _ HS Ho) as [Hi Hc].
    destruct (Z.eqb_spec (ci_finished (recs s t)) finishedMarked); simplify_eq.
    + apply step_eff; [apply eff_settle; [done| |done]; by split; [|lia]|]. intros HG HS'. simpl.
      split; [by eapply finishing_none|]. eapply discharged_stable; [done..|].
      eapply finishing_discharged; [done|]. by left.
    + apply step_same; [done|]. eapply adv_ooo_ok; [done|].
      eapply finishing_discharged; [done|]. by right.
  - destruct HL as (Hf & Hd). apply step_core; [done|same_core|]. intros HG HS'.
    by eapply adv_ooo_ok.
  - apply step_same; [done|]. simpl. split; [done|]. split.
    + intros r Hr. by destruct (si_slot_some _ HS _ _ Hr) as (? & ? & _).
    + destruct k; simpl; try done. intros _. destruct HL as (-> & Ho & _).
      by eapply head_on_track.
  - destruct HL as (Hk & Hc & Ht). apply step_same; [done|]. destruct cur as [r|].
    + destruct (Z.eqb_spec (ci_claim (recs s r)) tgt) as [He|He].
      { apply find_ret_ok with (tgt := tgt); [done..| |]; congruence. }
      destruct (Z.ltb_spec (ci_claim (recs s r)) tgt) as [Hl|Hl]; simpl.
      * apply find_ret_ok with (tgt := tgt); try done.
        intros -> _. destruct (decide (tgt <= visible s)); [done|].
        destruct Ht as (? & [= <-] & ?); lia.
      * split_and!; [done..|lia].
    + apply find_ret_ok with (tgt := tgt); try done. intros -> _.
      destruct (decide (tgt <= visible s)); [done|]. destruct Ht as (? & ? & ?); [lia|done].
  - destruct HL as (Hk & Hc & Hl). apply step_same; [done|].
    destruct (Hc r eq_refl) as [Hi Hsl]. simpl. split; [done|]. split.
    + intros o Ho. destruct (si_older _ HS _ _ Hi Ho) as [? ->]. split; [done|].
      rewrite <- Hsl. apply slot_of_lap.
    + destruct k as [|ts|]; simpl; try done. destruct Hk as (-> & Ho & _).
      intros Hv. by eapply next_on_track.
Qed.

Definition advance_pc (p : pc) : bool :=
  match p with
  | ALoad _ | AFin _ _ _ | AReady _ _ _ | AStampLoad _ _ _ | AStampCas _ _ _ _
  | ARead _ _ _ | AHelpCas _ _ _ | ACas _ _ _ | ASettle _ _ | ASettleDec _ _ => true
  | _ => false
  end.

Lemma at_rec_range s t fr f r : SI s -> at_rec s t fr f r ->
  u64 (f + 1) = f + 1 /\ installed s r /\ ci_claim (recs s r) = f + 1.
Proof.
  intros HS (_ & Hf & Ho). destruct (si_range _ HS _ _ Ho) as (_ & Hlt & Hc & _).
  destruct (owner_installed _ _ _ HS Ho). rewrite u64_succ by lia. done.
Qed.

(** A ready record whose stamp is decided carries its own timestamp. *)
Lemma ready_stamped s r ts : SI s -> owner s ts = Some r -> ci_ready (recs s r) = true ->
  in_flight (ci_ts (recs s r)) = false -> ci_ts (recs s r) = ts.
Proof.
  intros HS Ho Hr Hf. by apply (stamped_final s r ts HS Ho Hf (si_ready _ HS _ Hr)), (si_ready _ HS).
Qed.

Lemma visible_lt s : SI s -> visible s < TxIDBase.
Proof.
  intros HS. pose proof (si_base _ HS). destruct Hcfg as [Hb _].
  destruct (decide (base cfg < visible s)); [|lia].
  destruct (si_vis _ HS (visible s)) as [r Hr]; [lia|]. by destruct (si_range _ HS _ _ Hr) as (_ & ? & _).
Qed.

(** The frontier moves from [f] to [f + 1] over a record that may be passed. *)
Lemma pass_step_ok s s' t fr f r : SI s -> at_rec s t fr f r -> visible s = f ->
  decided s (f + 1) = true \/ (ci_ready (recs s r) = true /\ ci_ts (recs s r) = f + 1) ->
  same_core (with_visible (f + 1) s) s' ->
  step_ok t s (s', ASettle (adv_moved fr) r).
Proof.
  intros HS Hat Hv Hd Hc. pose proof Hat as (Hfr & _ & Ho).
  destruct (at_rec_range _ _ _ _ _ HS Hat) as (_ & Hi & Hcl).
  destruct (eff_visible t f r s HS Hv Ho Hd) as [HS1 HG1].
  destruct (eff_same_core t _ _ HS1 Hc) as [HS2 HG2].
  split; [split; [done|]|]; simpl.
  - destruct Hc as (E1 & E2 & E3 & E4 & E5 & E6 & E7), HG1.
    constructor; unfold installed, not_installed in *; rewrite ?E1, ?E2, ?E3, ?E4, ?E5, ?E6; auto.
  - assert (frame_ok s' t (adv_moved fr)) as Hfr'.
    { eapply (frame_ok_stable _ _ _ _ HG2), (frame_ok_stable _ _ _ _ HG1), Hfr. }
    split; [done|]. split; [|done]. eapply (passed_rec_stable _ _ _ HG2). split; [done|].
    simpl. lia.
Qed.

Lemma advance_step_ok cancel t s p o : SI s -> local_ok s t p -> advance_pc p = true ->
  tstep (kd t) cancel t s p = Some o -> step_ok t s o.
Proof.
  intros HS HL Hp Hst. destruct p; try done; clear Hp; simpl in Hst; simplify_eq.
  - apply step_same; [done|]. pose proof (si_base _ HS). simpl in *.
    pose proof (visible_lt _ HS). rewrite u64_succ by lia. split; [done|lia].
  - apply step_same; [done|].
    destruct (Z.eqb_spec (ci_finished (recs s r)) finishedNone); [|done].
    case_match; [|done]. apply adv_ret_ok, HL.
  - apply step_same; [done|]. destruct (ci_ready (recs s r)) eqn:Hr; [done|].
    apply adv_ret_ok, HL.
  - apply step_same; [done|]. destruct HL as [Hat Hr].
    destruct (in_flight _) eqn:Hf; done.
  - destruct HL as (Hat & Hr & Hf). pose proof Hat as (_ & _ & Ho).
    destruct (at_rec_range _ _ _ _ _ HS Hat) as (He & _ & _). rewrite He in Hst.
    destruct (Z.eqb_spec (ci_ts (recs s r)) cur) as [<-|]; simplify_eq; [|by apply step_same].
    apply step_eff; [by apply eff_stamp; [| |apply (si_ready _ HS)|]|].
    intros HG HS'. split; [by eapply at_rec_stable|]. by eapply (g_ready _ _ _ HG).
  - destruct HL as (Hat & Hr). destruct (at_rec_range _ _ _ _ _ HS Hat) as (-> & _ & _).
    apply step_same; [done|]. destruct (Z.eqb_spec (ci_ts (recs s r)) (f + 1)); [done|].
    apply adv_ret_ok, Hat.
  - destruct HL as (Hat & Hr & Hts). destruct (at_rec_range _ _ _ _ _ HS Hat) as (He & _ & _).
    rewrite He in Hst. destruct (Z.eqb_spec (visible s) f); simplify_eq.
    + eapply pass_step_ok; [done|done|done|by right|same_core].
    + apply step_same; [done|]. apply Hat.
  - destruct HL as (Hat & Hfin). destruct (at_rec_range _ _ _ _ _ HS Hat) as (He & Hi & Hc).
    rewrite He in Hst. destruct (Z.eqb_spec (visible s) f); simplify_eq.
    + eapply pass_step_ok; [done|done|done|left|same_core].
      rewrite <- Hc. by apply (si_fin _ HS).
    + apply step_same; [done|]. apply Hat.
  - destruct HL as (Hfr & Hps & Hm).
    destruct (Z.eqb_spec (ci_finished (recs s r)) finishedMarked); simplify_eq.
    + apply step_eff; [by apply eff_settle|]. intros HG HS'.
      split; [by eapply frame_ok_stable|]. split; [by eapply passed_rec_stable|done].
    + by apply step_same.
  - destruct HL as (Hfr & Hps & Hm). apply step_core; [done|same_core|]. done.
Qed.

Lemma unlink_step_ok cancel t s p o : SI s -> local_ok s t p ->
  (match p with ULoad _ _ | UCas _ _ _ | UDec _ => true | _ => false end) = true ->
  tstep (kd t) cancel t s p = Some o -> step_ok t s o.
Proof.
  intros HS HL Hp Hst. destruct p; try done; clear Hp; simpl in Hst; simplify_eq.
  - apply step_same; [done|]. destruct HL as (Hps & Hk).
    destruct (ci_older _); [done|]. by apply unlink_ret_ok.
  - destruct HL as (Hps & Hk). case_decide; simplify_eq.
    + apply step_eff; [by apply eff_unlink|]. intros HG HS'. simpl.
      by eapply unlink_k_ok_stable.
    + apply step_same; [done|]. by apply unlink_ret_ok.
  - apply step_core; [done|same_core|]. intros HG HS'. apply unlink_ret_ok.
    by eapply unlink_k_ok_stable.
Qed.

Definition waiter_pc (p : pc) : bool :=
  match p with
  | WCheck | WAdd | WGate | WGateCas | WGateLoad | WRead _ | WBlock _ | WLeave => true
  | _ => false
  end.

Lemma waiter_step_ok cancel t s p o : SI s -> local_ok s t p -> waiter_pc p = true ->
  tstep (kd t) cancel t s p = Some o -> step_ok t s o.
Proof.
  intros HS HL Hp Hst. assert (exists f, kd t = KWait f) as [fl Hk].
  { destruct p; try done; by destruct HL. }
  assert (Hd : forall s', committer (kd t) -> discharged s' t) by by rewrite Hk; intros ? Hx; destruct (Hx fl).
  rewrite Hk in Hst. destruct p; try done; clear Hp; simpl in Hst; simplify_eq.
  - apply step_same; [done|]. case_match; simpl; [auto|by exists fl].
  - apply step_core; [done|same_core|]. by exists fl.
  - apply step_same; [done|]. case_match; by exists fl.
  - destruct HL. destruct (gate s) eqn:Hg.
    + apply step_same; [done|]. split; [by exists fl|]. rewrite Hg. by eexists.
    + apply step_core; [done|same_core|]. split; [by exists fl|by eexists].
  - destruct HL as [_ [g Hg]]. rewrite Hg. apply step_same; [done|]. by exists fl.
  - apply step_same; [done|]. case_match; by exists fl.
  - repeat case_match; simplify_eq; (apply step_same; [done|]); by exists fl.
  - apply step_core; [done|same_core|]. intros; simpl; auto.
Qed.

Lemma tstep_ok cancel t s p o : SI s -> local_ok s t p -> commit s < TxIDBase - 1 ->
  tstep (kd t) cancel t s p = Some o -> step_ok t s o.
Proof.
  intros HS HL Hb Hst. destruct p; try (by simpl in Hst);
    first [ by eapply claim_step_ok | by eapply finish_step_ok | by eapply mark_step_ok
          | by eapply advance_step_ok | by eapply unlink_step_ok | by eapply waiter_step_ok ].
Qed.

(** ** The invariant of the machine *)

Definition Inv (s : state) : Prop :=
  SI (mem s) /\ forall t, (t < nthreads cfg)%nat -> local_ok (mem s) t (pcs s t).

Lemma mstep_G s s' : Inv s -> mstep cfg s s' -> Inv s' /\ exists t, G t (mem s) (mem s').
Proof.
  intros [HS HL] (t & cancel & Hb & Hst). unfold step in Hst. case_decide as Ht; [|done].
  destruct (tstep _ _ _ _ _) as [[m p]|] eqn:Hts; simplify_eq.
  destruct (tstep_ok _ _ _ _ _ HS (HL t Ht) Hb Hts) as [[HS' HG] HL']. simpl in *.
  split; [split|]; simpl; [done| |by exists t].
  intros u Hu. rewrite fn_insert_dec. case_decide; subst; [done|].
  eapply local_ok_stable; [exact HS|exact HG|congruence|auto].
Qed.

Lemma init_mem : exists m, mem (init cfg) = m /\
  commit m = base cfg /\ visible m = base cfg /\ slots m = slots (zero_clock cfg) /\
  recs m = recs (zero_clock cfg) /\ owner m = owner (zero_clock cfg) /\
  decided m = decided (zero_clock cfg) /\ pending m = 0 /\ waiters m = 0 /\
  gate m = None /\ closed m = closed (zero_clock cfg).
Proof.
  destruct Hcfg as [Hb _]. eexists; split; [done|]. unfold init, RatchetTo, raiseVisible. simpl.
  destruct (Z.ltb_spec 0 (base cfg)); simpl;
    (destruct (Z.leb_spec (base cfg) 0); simpl; split_and!; done || lia).
Qed.

Lemma Inv_init : Inv (init cfg).
Proof.
  destruct init_mem as (m & Hm & E1 & E2 & E3 & E4 & E5 & E6 & _).
  destruct Hcfg as [Hb _]. unfold Inv. rewrite Hm.
  assert (Hci : forall t, recs m t = init_ci (kd t) (txids cfg t)) by (intros; by rewrite E4).
  assert (H0 : forall t, ci_claim (recs m t) = 0 /\ ci_ready (recs m t) = false /\
    ci_finished (recs m t) = finishedNone /\ ci_older (recs m t) = None).
  { intros t. rewrite Hci. by destruct (kd t). }
  split.
  - constructor; unfold installed; rewrite ?E1, ?E2, ?E3, ?E5, ?E6; simpl; try done; try lia.
    + intros t Ht. by destruct (H0 t) as (_ & _ & ? & _).
    + intros t. left. apply H0.
    + intros t Ht. destruct (H0 t) as (_ & _ & Hx & _). by rewrite Hx in Ht.
    + intros t Ht. destruct (H0 t) as (_ & Hx & _ & _). by rewrite Hx in Ht.
    + intros t. left. by rewrite Hci.
  - intros t _. simpl. assert (forall ts, owner m ts <> Some t) as Hno by by rewrite E5.
    destruct (kd t) eqn:Hk; simpl; rewrite ?Hk; [..|by eexists];
      (split; [split; [done|by rewrite Hk]|apply H0]).
Qed.

Lemma Inv_reachable s : reachable cfg s -> Inv s.
Proof.
  intros Hr. unfold reachable in Hr. eapply rtc_ind_r; [apply Inv_init| |done].
  intros x y _ Hxy HI. by apply (mstep_G x y).
Qed.

End inv.
