(* ===== verification/ClockLive.v ===== *)
(** * Liveness of the MVCC clock machine

    The lost-publication and lost-wake-up freedom of the machine of [Clock]:
    whenever a finished commit sits just above the frontier, some thread is
    still committed to carrying the frontier over it, and whenever a waiter is
    blocked behind a frontier that has reached its floor, some thread is still
    committed to waking it. *)

From S2P Require Import Prelude Clock ClockInv.

Local Open Scope Z_scope.

Section live.
Variable cfg : config.
Hypothesis Hcfg : config_ok cfg.

#[local] Abbreviation kd := (kinds cfg).
#[local] Abbreviation N := (nthreads cfg).

(** ** Counters as sums over threads *)

Definition marked_w (s : shared) (t : nat) : Z :=
  if ci_finished (recs s t) =? finishedMarked then 1 else 0.

(** Marked but not yet counted in; settled but not yet counted out. *)
Definition at_count (p : pc) : Z := match p with GPend _ _ => 1 | _ => 0 end.
Definition at_uncount (p : pc) : Z :=
  match p with GSettleDec _ | ASettleDec _ _ => 1 | _ => 0 end.

Definition in_wait (p : pc) : Z :=
  match p with
  | WGate | WGateCas | WGateLoad | WRead _ | WBlock _ | WLeave => 1
  | _ => 0
  end.

(** ** Responsibility

    A thread is responsible for the frontier when its remaining code carries
    the frontier over a marked record just above it. *)
Definition resp (s : shared) (p : pc) : Prop :=
  match p with
  | FPend _ _ | GPend _ _ | GVis _ _ | GSettle _ _ | GSettleDec _ | ALoad _
  | AHelpCas _ _ _ | ACas _ _ _ | ASettle _ _ | ASettleDec _ _
  | ULoad _ (UkAdv _) | UCas _ _ (UkAdv _) | UDec (UkAdv _) => True
  | FindHead _ (FkAdv _ f) | FindNext _ _ (FkAdv _ f) | AFin _ f _ => f = visible s
  | FindLoop tgt cur (FkAdv _ f) => f = visible s /\ on_track s tgt cur
  | _ => False
  end.

(** A thread will wake the waiters: it moved the frontier, and has not yet
    looked at the waiter count, or is about to swap the gate. *)
Definition frame_wakes (fr : adv_frame) : Prop :=
  match af_k fr with AkIn _ => True | AkOoo => af_moved fr = true end.

Definition wakes (p : pc) : Prop :=
  match p with
  | FPend _ _ | FLinked _ _ | FWait | KSwap
  | FindHead _ (FkUnlink _) | FindLoop _ _ (FkUnlink _) | FindNext _ _ (FkUnlink _)
  | ULoad _ UkFin | UCas _ _ UkFin | UDec UkFin => True
  | FindHead _ (FkAdv fr _) | FindLoop _ _ (FkAdv fr _) | FindNext _ _ (FkAdv fr _)
  | ALoad fr | AFin fr _ _ | AReady fr _ _ | AStampLoad fr _ _ | AStampCas fr _ _ _
  | ARead fr _ _ | AHelpCas fr _ _ | ACas fr _ _ | ASettle fr _ | ASettleDec fr _
  | ULoad _ (UkAdv fr) | UCas _ _ (UkAdv fr) | UDec (UkAdv fr) => frame_wakes fr
  | _ => False
  end.

(** The channel a waiter holds will be closed, or is still the current one. *)
Definition chan_ok (s : state) (ch : nat) : Prop :=
  (ch < gateNext (mem s))%nat /\
  (closed (mem s) ch = true \/ gate (mem s) = Some ch \/
   exists u, (u < N)%nat /\ pcs s u = KClose ch).

Record LInv (s : state) : Prop := mkL {
  l_inv : Inv cfg s;
  l_lt : forall ts r, owner (mem s) ts = Some r -> (r < N)%nat;
  l_follow : forall ts r, owner (mem s) ts = Some r ->
    ts <= commit (mem s) \/ pcs s r = CFollow ts;
  l_pending : pending (mem s) =
    zsum (marked_w (mem s)) N - zsum (fun t => at_count (pcs s t)) N +
    zsum (fun t => at_uncount (pcs s t)) N;
  l_waiters : waiters (mem s) = zsum (fun t => in_wait (pcs s t)) N;
  l_resp : forall r, owner (mem s) (visible (mem s) + 1) = Some r ->
    ci_finished (recs (mem s) r) <> finishedNone ->
    exists t, (t < N)%nat /\ resp (mem s) (pcs s t);
  l_gate : forall g, gate (mem s) = Some g -> (g < gateNext (mem s))%nat;
  l_chan : forall t ch, (t < N)%nat -> pcs s t = WRead ch \/ pcs s t = WBlock ch ->
    chan_ok s ch;
  l_wake : forall t ch fl, (t < N)%nat -> pcs s t = WBlock ch -> kd t = KWait fl ->
    gate (mem s) = Some ch -> closed (mem s) ch = false -> fl <= visible (mem s) ->
    exists u, (u < N)%nat /\ wakes (pcs s u)
}.

(** ** How one step moves the summands *)

Lemma sum_pc (w : pc -> Z) s t p : (t < N)%nat ->
  zsum (fun u => w ((<[t := p]> (pcs s)) u)) N =
  zsum (fun u => w (pcs s u)) N - w (pcs s t) + w p.
Proof.
  intros Ht. rewrite (zsum_update (fun u => w (pcs s u)) _ N t Ht).
  - by rewrite fn_insert_eq.
  - intros i Hi. by rewrite fn_lookup_insert_ne.
Qed.

Lemma sum_marked s r f : (r < N)%nat ->
  zsum (marked_w (with_rec r f s)) N =
  zsum (marked_w s) N - marked_w s r + (if ci_finished (f (recs s r)) =? finishedMarked then 1 else 0).
Proof.
  intros Hr. rewrite (zsum_update (marked_w s) _ N r Hr).
  - unfold marked_w at 3. simpl. by rewrite fn_insert_eq.
  - intros i Hi. unfold marked_w. simpl. by rewrite fn_lookup_insert_ne.
Qed.

(** The marked sum only depends on the records. *)
Lemma sum_marked_same s s' : recs s' = recs s -> zsum (marked_w s') N = zsum (marked_w s) N.
Proof. intros E. apply zsum_ext. intros i _. unfold marked_w. by rewrite E. Qed.

Lemma sum_marked_keep s r f : (r < N)%nat ->
  ci_finished (f (recs s r)) = ci_finished (recs s r) ->
  zsum (marked_w (with_rec r f s)) N = zsum (marked_w s) N.
Proof.
  intros Hr He. rewrite sum_marked by done. unfold marked_w. rewrite He. lia.
Qed.

Section one_step.
Variables (cancel : bool) (t : nat) (s : state) (m : shared) (p' : pc).
Hypothesis HL : LInv s.
Hypothesis Ht : (t < N)%nat.
Hypothesis Hb : commit (mem s) < TxIDBase - 1.
Hypothesis Hst : tstep (kd t) cancel t (mem s) (pcs s t) = Some (m, p').
Let s' := mkState m (<[t := p']> (pcs s)).

Lemma step_both : Inv cfg s' /\ step_ok cfg t (mem s) (m, p').
Proof.
  destruct HL. pose proof l_inv0 as [HS Hloc].
  split; [|by eapply tstep_ok; eauto].
  apply (mstep_G cfg Hcfg s); [done|]. exists t, cancel. split; [done|].
  unfold step. by rewrite decide_True, Hst.
Qed.

Lemma rec_lt r : installed (mem s) r -> (r < N)%nat.
Proof. apply HL. Qed.

Lemma loc : local_ok cfg (mem s) t (pcs s t).
Proof. by apply HL. Qed.

(** The record a helper works on is one of the machine's. *)
Definition rec_of (p : pc) : option nat :=
  match p with
  | GMark _ r | GSettle _ r | AStampCas _ _ r _ | ASettle _ r | UCas r _ _ => Some r
  | _ => None
  end.

Lemma rec_of_lt r : rec_of (pcs s t) = Some r -> (r < N)%nat.
Proof.
  pose proof loc as Hloc. pose proof (l_lt _ HL) as Hlt.
  destruct (pcs s t); intros [= <-]; simpl in Hloc.
  - destruct Hloc as (_ & _ & Hr). eauto.
  - destruct Hloc as ((_ & _ & Hr) & _). eauto.
  - destruct Hloc as ((_ & _ & Hr) & _). eauto.
  - destruct Hloc as (_ & [Hr _] & _). by eapply Hlt.
  - destruct Hloc as ([Hr _] & _). by eapply Hlt.
Qed.

(** Case analysis on the program counter and on every branch of the step. *)
Ltac step_cases Hpc :=
  destruct (pcs s t) eqn:Hpc; simpl in Hst; simplify_eq; simpl in *;
  unfold cas_commit, find_ret, adv_ret, unlink_ret, after_alloc, adv_ooo in *;
  repeat (case_decide || case_match); simplify_eq; simpl in *.

Lemma step_pending : pending m =
  zsum (marked_w m) N - zsum (fun u => at_count (pcs s' u)) N +
  zsum (fun u => at_uncount (pcs s' u)) N.
Proof.
  unfold s'; simpl. rewrite !sum_pc by done. pose proof (l_pending _ HL) as Hp.
  pose proof rec_of_lt as Hr.
  step_cases Hpc;
    rewrite ?(sum_marked_same (mem s)), ?sum_marked_keep by (done || auto); try lia;
    rewrite sum_marked by auto; generalize dependent (zsum (marked_w (mem s)) N);
    intros A Hp; unfold marked_w; simpl; repeat case_match; bool_to_prop;
    unfold finishedNone, finishedMarked, finishedCounted in *; lia.
Qed.

Lemma step_waiters : waiters m = zsum (fun u => in_wait (pcs s' u)) N.
Proof.
  unfold s'; simpl. rewrite sum_pc by done. pose proof (l_waiters _ HL) as Hw.
  pose proof loc as Hloc. step_cases Hpc; try lia.
  destruct Hloc as [_ [? ?]]. congruence.
Qed.

Lemma step_lt ts r : owner m ts = Some r -> (r < N)%nat.
Proof.
  pose proof (l_lt _ HL ts r) as Hlt. step_cases Hpc; auto.
  all: rewrite fn_insert_dec; case_decide; intros; simplify_eq; auto.
Qed.

Lemma step_follow ts r : owner m ts = Some r -> ts <= commit m \/ pcs s' r = CFollow ts.
Proof.
  destruct step_both as [_ [[HS' HG] _]]. pose proof (l_inv _ HL) as [HS _]. simpl in *.
  pose proof (g_commit _ _ _ HG). pose proof loc as Hloc. intros Ho.
  assert (owner (mem s) ts = Some r \/ (exists h o, pcs s t = CSwap ts h o) /\ r = t /\ p' = CFollow ts)
    as [Hold|(_ & -> & ->)].
  { clear HS' HG HS Hloc H. step_cases Hpc; auto.
    all: rewrite fn_insert_dec in Ho; case_decide; simplify_eq; auto.
    all: right; split; [by eexists _, _|done]. }
  2: { right. by rewrite fn_insert_eq. }
  destruct (l_follow _ HL _ _ Hold) as [|Hpc]; [left; lia|].
  destruct (decide (r = t)) as [->|]; [|right; by rewrite fn_lookup_insert_ne].
  left. rewrite Hpc in Hst, Hloc. simpl in Hst, Hloc. simplify_eq.
  destruct (si_range _ _ HS _ _ Hold) as (Hr & Hlt & _). 
  pose proof (u64_pred cfg Hcfg ts ltac:(lia) ltac:(lia)) as Eu.
  clear HG HS'. unfold cas_commit in *. rewrite Eu in *. destruct (Z.eqb_spec (commit (mem s)) (ts - 1)); simpl; lia.
Qed.

Lemma step_gate g : gate m = Some g -> (g < gateNext m)%nat.
Proof.
  pose proof (l_gate _ HL g) as Hg. step_cases Hpc; auto; intros; simplify_eq; auto with lia.
Qed.

(** *** Who is responsible for the frontier *)

(** A step makes its thread responsible, or the responsibility was there before. *)
Lemma step_resp_new r : owner m (visible m + 1) = Some r ->
  ci_finished (recs m r) <> finishedNone ->
  resp m p' \/ (visible m = visible (mem s) /\
    owner (mem s) (visible (mem s) + 1) = Some r /\
    ci_finished (recs (mem s) r) <> finishedNone).
Proof.
  pose proof loc as Hloc. pose proof (l_inv _ HL) as [HS _]. intros Ho Hf.
  step_cases Hpc; auto.
  all: rewrite ?fn_insert_dec in *; repeat case_decide; simplify_eq; simpl in *; auto.
  all: destruct Hloc as ([Hn _] & _); exfalso;
    eapply Hn; by apply (si_fin _ _ HS).
Qed.

(** A marked record just above a zero [pending] count is about to be counted. *)
Lemma uncounted_open r : owner (mem s) (visible (mem s) + 1) = Some r ->
  ci_finished (recs (mem s) r) <> finishedNone -> pending (mem s) = 0 ->
  exists u, (u < N)%nat /\ 0 < at_count (pcs s u).
Proof.
  intros Ho Hf Hp. pose proof (l_inv _ HL) as [HS _]. pose proof (l_pending _ HL) as Hsum.
  apply zsum_pos_inv. destruct (si_range _ _ HS _ _ Ho) as (_ & _ & Hc & _).
  assert (Hm : 0 < zsum (marked_w (mem s)) N).
  { apply (zsum_pos _ _ r).
    - intros i _. unfold marked_w. case_match; lia.
    - by eapply HL.
    - unfold marked_w. destruct (si_fin_range _ _ HS r) as [|[->|Hco]]; [done..|].
      pose proof (si_counted _ _ HS r Hco). lia. }
  assert (0 <= zsum (fun u => at_uncount (pcs s u)) N); [|lia].
  apply zsum_nonneg. intros i _. destruct (pcs s i); simpl; lia.
Qed.

(** A thread that leaves the responsible points while a marked record sits above
    the frontier leaves because another thread is about to count it. *)
Lemma step_resp_keep r : owner (mem s) (visible (mem s) + 1) = Some r ->
  ci_finished (recs (mem s) r) <> finishedNone -> visible m = visible (mem s) ->
  resp (mem s) (pcs s t) ->
  resp m p' \/ exists u, (u < N)%nat /\ 0 < at_count (pcs s u).
Proof.
  pose proof loc as Hloc. pose proof (l_inv _ HL) as [HS _]. intros Ho Hf Hv Hr.
  pose proof (uncounted_open r Ho Hf) as Hopen.
  pose proof (visible_lt cfg Hcfg _ HS) as Hvl. pose proof (si_base _ _ HS).
  step_cases Hpc; auto; try done; bool_to_prop; auto.
  all: try (left; split; [done|]).
  all: try (destruct Hr as [-> (x & ? & ?)]; simplify_eq; first [by left|exfalso; lia]).
  - destruct Hloc as (_ & _ & ->). by eapply head_on_track.
  - destruct Hloc as ((_ & _ & ->) & Hc & ?), (Hc _ eq_refl). eapply next_on_track; eauto; lia.
  - destruct Hloc as (_ & _ & ?). simplify_eq.
  - destruct Hloc as (_ & _ & ?). simplify_eq.
  - destruct Hloc as (_ & _ & ?). simplify_eq.
  - destruct Hloc as (_ & _ & ?). simplify_eq.
Qed.

Lemma resp_stable u : (u < N)%nat -> u <> t -> visible m = visible (mem s) ->
  resp (mem s) (pcs s u) -> resp m (pcs s u).
Proof.
  intros Hu Hne Hv. destruct step_both as [_ [[_ HG] _]]. simpl in HG.
  pose proof (l_inv _ HL) as [_ Hl]. specialize (Hl u Hu).
  destruct (pcs s u); try destruct k; simpl in *; rewrite ?Hv; auto.
  intros [-> (x & -> & Hx)]. split; [done|]. exists x. split; [done|].
  destruct Hl as (_ & Hc & _). destruct (Hc x eq_refl) as [Hi _]. 
  by rewrite (g_claim _ _ _ HG) by done.
Qed.

Lemma step_resp r : owner m (visible m + 1) = Some r ->
  ci_finished (recs m r) <> finishedNone ->
  exists u, (u < N)%nat /\ resp m (pcs s' u).
Proof.
  intros Ho Hf. destruct (step_resp_new r Ho Hf) as [Hp|(Hv & Ho' & Hf')].
  { exists t. unfold s'; simpl. by rewrite fn_insert_eq. }
  destruct (l_resp _ HL r Ho' Hf') as (u & Hu & Hr).
  assert (exists x, (x < N)%nat /\ ((x = t /\ resp m p') \/ (x <> t /\ resp (mem s) (pcs s x))))
    as (x & Hx & [[-> Hp]|[Hne Hp]]).
  { destruct (decide (u = t)) as [->|]; [|eauto].
    destruct (step_resp_keep r Ho' Hf' Hv Hr) as [|(x & Hx & Hp)]; [eauto|].
    exists x. split; [done|]. destruct (decide (x = t)) as [->|].
    - left. split; [done|]. destruct (pcs s t) eqn:Hpc; simpl in Hp; try lia.
      simpl in Hst. by simplify_eq.
    - right. split; [done|]. by destruct (pcs s x); simpl in *; try lia. }
  - exists t. unfold s'; simpl. by rewrite fn_insert_eq.
  - exists x. unfold s'; simpl. rewrite fn_lookup_insert_ne by done.
    split; [done|]. by apply resp_stable.
Qed.

(** *** Waking the waiters *)

Lemma step_chan u ch : (u < N)%nat -> pcs s' u = WRead ch \/ pcs s' u = WBlock ch ->
  chan_ok s' ch.
Proof.
  intros Hu Hp.
  assert (Hnew : chan_ok s ch \/ gate (mem s) = Some ch /\ m = mem s).
  { unfold s' in Hp; simpl in Hp. rewrite fn_insert_dec in Hp. case_decide; [subst u|].
    - pose proof (l_chan _ HL t) as Hc. step_cases Hpc; naive_solver.
    - left. by eapply HL. }
  destruct Hnew as [[Hlt Hc]|[Hg ->]].
  2: { split; simpl; [by apply HL|auto]. }
  assert (Hmono : (gateNext (mem s) <= gateNext m)%nat) by (clear Hp; step_cases Hpc; lia).
  split; simpl; [lia|].
  destruct Hc as [Hc|[Hc|(x & Hx & Hc)]].
  - left. clear Hp. step_cases Hpc; auto. rewrite fn_insert_dec. by case_decide.
  - assert (gate m = Some ch \/ p' = KClose ch) as [?|Hk]; [|by auto|rewrite Hk].
    + clear Hp. step_cases Hpc; auto; left; congruence.
    + right; right. exists t. by rewrite fn_insert_eq.
  - destruct (decide (x = t)) as [->|].
    + left. rewrite Hc in Hst. simpl in Hst. simplify_eq. simpl. by rewrite fn_insert_eq.
    + right; right. exists x. by rewrite fn_lookup_insert_ne.
Qed.

(** A step either makes its thread a waker, or leaves what a blocked waiter sees. *)
Lemma step_wake_new u ch fl : (u < N)%nat -> pcs s' u = WBlock ch -> kd u = KWait fl ->
  gate m = Some ch -> closed m ch = false -> fl <= visible m ->
  wakes p' \/ (u <> t /\ pcs s u = WBlock ch /\ gate (mem s) = Some ch /\
    closed (mem s) ch = false /\ fl <= visible (mem s) /\ gate m = gate (mem s)).
Proof.
  unfold s'; simpl. intros Hu. rewrite fn_insert_dec. case_decide; [subst u|].
  { intros -> Hk _ _ Hfl. exfalso. step_cases Hpc; bool_to_prop; simplify_eq; lia. }
  intros Hp Hk Hg Hcl Hfl. pose proof (l_chan _ HL u ch Hu (or_intror Hp)) as [Hlt _].
  step_cases Hpc; auto 8; unfold frame_wakes; simpl; auto 8; simplify_eq; try lia.
  - rewrite fn_insert_dec in Hcl. case_decide; [done|]. auto 8.
  - left. by case_match.
  - left. by case_match.
Qed.

Lemma step_wake_keep u ch : (u < N)%nat -> pcs s u = WBlock ch ->
  gate (mem s) = Some ch -> gate m = gate (mem s) -> wakes (pcs s t) -> wakes p'.
Proof.
  intros Hu Hp Hg Hg' Hw. pose proof (l_waiters _ HL) as Hsum.
  pose proof (l_gate _ HL ch Hg) as Hlt.
  assert (0 < waiters (mem s)).
  { rewrite Hsum. apply (zsum_pos _ _ u); [|done|by rewrite Hp].
    intros i _. destruct (pcs s i); simpl; lia. }
  clear Hp Hsum. step_cases Hpc; auto; unfold frame_wakes in *; simplify_eq; bool_to_prop;
    repeat case_match; try congruence; try done; try lia.
Qed.

Lemma step_wake u ch fl : (u < N)%nat -> pcs s' u = WBlock ch -> kd u = KWait fl ->
  gate m = Some ch -> closed m ch = false -> fl <= visible m ->
  exists x, (x < N)%nat /\ wakes (pcs s' x).
Proof.
  intros Hu Hp Hk Hg Hc Hf.
  assert (Hme : wakes p' -> exists x, (x < N)%nat /\ wakes (pcs s' x)).
  { intros Hw. exists t. unfold s'; simpl. by rewrite fn_insert_eq. }
  destruct (step_wake_new u ch fl) as [|(Hne & Hp' & Hg' & Hc' & Hf' & Hgg)]; auto.
  destruct (l_wake _ HL u ch fl) as (x & Hx & Hw); auto.
  destruct (decide (x = t)) as [->|]; [apply Hme; by apply (step_wake_keep u ch)|].
  exists x. unfold s'; simpl. by rewrite fn_lookup_insert_ne.
Qed.

Lemma step_LInv : LInv s'.
Proof.
  constructor; simpl.
  - apply step_both.
  - apply step_lt.
  - apply step_follow.
  - apply step_pending.
  - apply step_waiters.
  - apply step_resp.
  - apply step_gate.
  - apply step_chan.
  - intros. by eapply step_wake.
Qed.

End one_step.

Lemma LInv_init : LInv (init cfg).
Proof.
  pose proof (Inv_init cfg Hcfg) as HI.
  destruct (init_mem cfg Hcfg) as (m0 & Hm & Hc & Hv & _ & Er & Eo & _ & Ep & Ew & Eg & _).
  assert (Hpc : forall t, pcs (init cfg) t = PAlloc \/ pcs (init cfg) t = WCheck).
  { intros t. simpl. destruct (kd t); simpl; auto. }
  assert (Hz : forall w : pc -> Z, w PAlloc = 0 -> w WCheck = 0 ->
    zsum (fun t => w (pcs (init cfg) t)) N = 0).
  { intros w H1 H2. rewrite (zsum_ext _ (fun _ => 0)).
    - generalize N. intros n. induction n as [|n IHn]; [done|]. cbn [zsum]. by rewrite IHn.
    - intros t _. by destruct (Hpc t) as [->| ->]. }
  constructor; rewrite ?Hm, ?Eo, ?Er, ?Ep, ?Ew, ?Eg; try done.
  - rewrite !Hz by done. rewrite (sum_marked_same (zero_clock cfg)) by done.
    rewrite (zsum_ext _ (fun _ => 0)); [generalize N; intros n; induction n; cbn [zsum]; lia|].
    intros t _. unfold marked_w. simpl. by destruct (kd t).
  - by rewrite Hz.
  - intros t ch _. destruct (Hpc t) as [->| ->]; naive_solver.
Qed.

Lemma LInv_mstep s s' : LInv s -> mstep cfg s s' -> LInv s'.
Proof.
  intros HL (t & cancel & Hb & Hst). unfold step in Hst.
  case_decide as Ht; [|done]. destruct (tstep _ _ _ _ _) as [[m p]|] eqn:Hs; [|done].
  simplify_eq. by eapply step_LInv.
Qed.

Lemma LInv_reachable s : reachable cfg s -> LInv s.
Proof.
  unfold reachable. generalize LInv_init. generalize (init cfg). intros s0 H0 Hr.
  induction Hr; eauto using LInv_mstep.
Qed.

End live.
