(* ===== verification/ClockProps.v ===== *)
(** * What the MVCC clock promises

    The properties of the machine of [Clock], stated on reachable states without
    its history variables, and a demonstration configuration that runs it. *)

From stdpp Require Import relations.
From S2P Require Import Prelude Clock ClockInv ClockLive.

Local Open Scope Z_scope.

(** ** Vocabulary *)

(** The thread's timestamp is allocated: it is past the installing
    compare-and-swap of [claim]. *)
Definition past_claim (p : pc) : bool :=
  match p with
  | PAlloc | PReady | CLoad | CHead _ | CCmp _ _ | CBump _ | CClaim _ _ | CVis _ _
  | CLink _ _ _ | COlder _ _ _ | CSwap _ _ _ | CUndo | CUndoLink
  | WCheck | WAdd | WGate | WGateCas | WGateLoad | WRead _ | WBlock _ | WLeave
  | PPanic => false
  | _ => true
  end.

(** Thread [t] is a committer that holds timestamp [ts]. *)
Definition holds (cfg : config) (s : state) (t : nat) (ts : Z) : Prop :=
  (t < nthreads cfg)%nat /\ committer (kinds cfg t) /\
  past_claim (pcs s t) = true /\ ci_claim (recs (mem s) t) = ts.

(** The outcome of the transaction of thread [t] is decided in its record: a
    committed one carries its timestamp, an aborted one [AbortedTS]. *)
Definition resolved (cfg : config) (s : state) (t : nat) (ts : Z) : Prop :=
  match kinds cfg t with
  | KReady | KDurable => ci_ts (recs (mem s) t) = ts
  | KAbort => ci_ts (recs (mem s) t) = AbortedTS
  | KAnon => True
  | KWait _ => False
  end.

(** No commit is in progress: every committer has returned or has not started. *)
Definition quiescent (cfg : config) (s : state) : Prop :=
  forall t, (t < nthreads cfg)%nat -> committer (kinds cfg t) ->
    pcs s t = PDone \/ pcs s t = PAlloc.

(** ** Ownership, without the history variables *)

Section props.
Variable cfg : config.
Hypothesis Hcfg : config_ok cfg.

Lemma past_claim_owns s t p : SI cfg s -> (p = PDone -> committer (kinds cfg t)) ->
  local_ok cfg s t p -> past_claim p = true ->
  owner s (ci_claim (recs s t)) = Some t.
Proof.
  intros HS Hk Hl Hp.
  enough (exists ts, owner s ts = Some t) as (ts & Ho) by by destruct (si_range _ _ HS _ _ Ho) as (_ & _ & -> & _).
  assert (Hd : discharged s t -> exists ts, owner s ts = Some t) by (intros (ts & ? & _); eauto).
  assert (Hf : forall fr, frame_ok s t fr -> exists ts, owner s ts = Some t) by (intros fr (? & _); eauto).
  assert (Hu : forall k, unlink_k_ok s t k -> exists ts, owner s ts = Some t)
    by (intros []; simpl; eauto).
  assert (Hfd : forall tgt k, find_k_ok cfg s t tgt k -> exists ts, owner s ts = Some t)
    by (intros tgt []; simpl; [intros (? & _)|intros (_ & ? & _)|intros (_ & (? & _) & _)]; eauto).
  destruct p; simpl in Hl, Hp; try done; eauto;
    unfold owns, finishing, at_rec in *; destruct_and?; eauto.
Qed.

Lemma owner_past_claim s t ts : Inv cfg s -> (t < nthreads cfg)%nat ->
  owner (mem s) ts = Some t -> past_claim (pcs s t) = true.
Proof.
  intros [HS Hl] Ht Ho. specialize (Hl t Ht).
  destruct (si_range _ _ HS _ _ Ho) as (_ & _ & _ & Hk).
  assert (Hn : not_installed (mem s) t -> False) by (intros H; by eapply H).
  assert (Hw : (exists f, kinds cfg t = KWait f) -> False) by (intros [f Hf]; by eapply Hk).
  destruct (pcs s t); try done; simpl in Hl; exfalso; unfold fresh in Hl; destruct_and?; auto.
Qed.

Lemma holds_owner s t ts : LInv cfg s -> holds cfg s t ts <-> owner (mem s) ts = Some t.
Proof.
  intros HL. pose proof (l_inv _ _ HL) as [HS Hloc]. split.
  - intros (Ht & Hk & Hp & <-). eapply past_claim_owns; eauto.
  - intros Ho. pose proof (l_lt _ _ HL _ _ Ho). destruct (si_range _ _ HS _ _ Ho) as (_ & _ & ? & ?).
    split_and!; eauto using owner_past_claim, l_inv.
Qed.

(** In a quiescent state the timestamps are held by threads that have returned,
    and nothing else is past its claim. *)
Lemma quiescent_owner s ts r : LInv cfg s -> quiescent cfg s ->
  owner (mem s) ts = Some r -> pcs s r = PDone.
Proof.
  intros HL Hq Ho. pose proof (l_inv _ _ HL) as [HS _].
  pose proof (l_lt _ _ HL _ _ Ho) as Hlt.
  pose proof (owner_past_claim s r ts (l_inv _ _ HL) Hlt Ho) as Hp.
  destruct (si_range _ _ HS _ _ Ho) as (_ & _ & _ & Hk).
  destruct (Hq r Hlt Hk) as [|E]; [done|]. by rewrite E in Hp.
Qed.

Lemma quiescent_past_claim s u : LInv cfg s -> quiescent cfg s -> (u < nthreads cfg)%nat ->
  past_claim (pcs s u) = true -> pcs s u = PDone.
Proof.
  intros HL Hq Hu Hp. pose proof (l_inv _ _ HL) as [HS Hloc].
  assert (Hd : pcs s u = PDone \/ pcs s u <> PDone) by (destruct (pcs s u); auto).
  destruct Hd as [|Hd]; [done|]. eapply quiescent_owner; [done|done|].
  eapply past_claim_owns; eauto. congruence.
Qed.

(** ** Runs of the machine *)

(** What is monotone along a run. *)
Definition later (s s' : shared) : Prop :=
  commit s <= commit s' /\ visible s <= visible s' /\
  (forall ts r, owner s ts = Some r -> owner s' ts = Some r) /\
  (forall r, in_flight (ci_ts (recs s r)) = false -> ci_ts (recs s' r) = ci_ts (recs s r)).

Lemma run_later s s' : Inv cfg s -> rtc (mstep cfg) s s' -> Inv cfg s' /\ later (mem s) (mem s').
Proof.
  intros HI Hr. revert HI. induction Hr as [s|s s1 s' Hs _ IH]; intros HI.
  { split; [done|]. unfold later. spl; auto; lia. }
  destruct (mstep_G cfg Hcfg s s1 HI Hs) as (HI1 & t & HG).
  destruct (IH HI1) as (HI' & Hc & Hv & Ho & Ht). split; [done|].
  destruct HG as [c1 v1 o1 _ _ _ _ t1 _ _]. unfold later. spl; [lia|lia|auto|].
  intros r Hf. pose proof (t1 r Hf) as E. rewrite (Ht r) by by rewrite E. done.
Qed.

(** A schedule that stays within the id space is a run. *)
Fixpoint exec_ok (sched : list nat) (s : state) : bool :=
  match sched with
  | [] => true
  | t :: rest => (commit (mem s) <? TxIDBase - 1) &&
      exec_ok rest (default s (step cfg false t s))
  end.

Lemma exec_run sched s : exec_ok sched s = true -> rtc (mstep cfg) s (exec cfg sched s).
Proof.
  revert s. induction sched as [|t rest IH]; intros s H; simpl in *; [done|].
  bool_to_prop. destruct (step cfg false t s) as [s1|] eqn:Hs; simpl in *; [|by apply IH].
  eapply rtc_l; [|by apply IH]. by exists t, false.
Qed.

Lemma exec_reachable sched : exec_ok sched (init cfg) = true ->
  reachable cfg (exec cfg sched (init cfg)).
Proof. apply exec_run. Qed.

(** A record that is still in flight carries its transaction id. *)
Lemma in_flight_txid s t : SI cfg s -> in_flight (ci_ts (recs s t)) = true ->
  ci_ts (recs s t) = txids cfg t /\ ci_ts (init_ci (kinds cfg t) (txids cfg t)) = txids cfg t.
Proof.
  intros HS Hf. destruct (si_ts _ _ HS t) as [E|[[_ E]|(_ & Hi & E)]]; rewrite E in Hf |- *.
  - by destruct (kinds cfg t).
  - done.
  - destruct (si_range _ _ HS _ _ Hi) as (_ & Hlt & _). by rewrite in_flight_committed in Hf.
Qed.

End props.

(** ** Visibility *)

Lemma Visible_in_flight ts v txID : TxIDBase <= ts -> ts <> txID -> Visible ts v txID = false.
Proof.
  intros. unfold Visible. destruct (Z.eqb_spec ts txID), (Z.ltb_spec ts TxIDBase); done || lia.
Qed.

Lemma Visible_committed ts v txID : ts < TxIDBase -> TxIDBase <= txID ->
  Visible ts v txID = (ts <=? v).
Proof.
  intros. unfold Visible. destruct (Z.eqb_spec ts txID), (Z.ltb_spec ts TxIDBase); done || lia.
Qed.

(** ** Progress *)

Lemma quiescent_frontier cfg s : config_ok cfg -> LInv cfg s -> quiescent cfg s ->
  visible (mem s) = commit (mem s).
Proof.
  intros Hcfg HL Hq. pose proof (l_inv _ _ HL) as [HS Hloc].
  assert (Hpc : forall ts r, owner (mem s) ts = Some r -> pcs s r = PDone)
    by (intros; by eapply quiescent_owner).
  apply Z.le_antisymm.
  - pose proof (si_commit _ _ HS). destruct (decide (base cfg < visible (mem s))); [|lia].
    destruct (si_vis _ _ HS (visible (mem s))) as [r Hv]; [lia|].
    destruct (l_follow _ _ HL _ _ Hv) as [|E]; [done|]. by rewrite (Hpc _ _ Hv) in E.
  - apply Z.le_ngt. intros Hlt. pose proof (si_base _ _ HS).
    destruct (si_full _ _ HS (visible (mem s) + 1)) as [r Ho]; [lia|].
    pose proof (l_lt _ _ HL _ _ Ho) as Hrn. pose proof (Hloc r Hrn) as Hd.
    destruct (si_range _ _ HS _ _ Ho) as (_ & _ & _ & Hk).
    rewrite (Hpc _ _ Ho) in Hd. destruct (Hd Hk) as (ts & Hts & Hf).
    destruct (si_range _ _ HS _ _ Hts) as (_ & _ & Ec & _).
    destruct (si_range _ _ HS _ _ Ho) as (_ & _ & Ec' & _).
    destruct Hf as [Hf|Hf]; [lia|].
    destruct (l_resp _ _ HL r Ho Hf) as (u & Hu & Hresp).
    rewrite (quiescent_past_claim cfg s u) in Hresp; [done..|].
    destruct (pcs s u); done.
Qed.

(** Only a blocked waiter has no step. *)
Lemma tstep_some kd cancel t s p : (forall ch, p <> WBlock ch) -> p <> PDone -> p <> PPanic ->
  (waiter_pc p = true -> exists f, kd = KWait f) -> is_Some (tstep kd cancel t s p).
Proof.
  intros H1 H2 H3 H4. destruct p; simpl in *; try congruence;
    repeat case_match; eauto; destruct H4 as [? ?]; congruence.
Qed.

Lemma step_some cfg cancel t s : (t < nthreads cfg)%nat ->
  is_Some (tstep (kinds cfg t) cancel t (mem s) (pcs s t)) -> is_Some (step cfg cancel t s).
Proof.
  intros Ht [[m p] H]. unfold step. rewrite decide_True, H by done. eauto.
Qed.

(** A waiter blocked behind a frontier that has reached its floor, while no
    commit is in progress, finds its channel closed. *)
Lemma blocked_closed cfg s t ch floor : LInv cfg s -> quiescent cfg s ->
  (t < nthreads cfg)%nat -> kinds cfg t = KWait floor -> pcs s t = WBlock ch ->
  floor <= visible (mem s) -> closed (mem s) ch = true.
Proof.
  intros HL Hq Ht Hk Hp Hfl.
  destruct (l_chan _ _ HL t ch Ht (or_intror Hp)) as [_ [|[Hg|(u & Hu & E)]]]; [done| |].
  - destruct (closed (mem s) ch) eqn:Hc; [done|].
    destruct (l_wake _ _ HL t ch floor Ht Hp Hk Hg Hc Hfl) as (u & Hu & Hw).
    rewrite (quiescent_past_claim cfg s u) in Hw; [done..|]. destruct (pcs s u); done.
  - assert (pcs s u = PDone); [|congruence].
    apply (quiescent_past_claim cfg); try done. by rewrite E.
Qed.

(** Running a waiter alone. *)
Section alone.
Variables (cfg : config) (t : nat) (floor : Z).
Hypothesis Ht : (t < nthreads cfg)%nat.
Hypothesis Hk : kinds cfg t = KWait floor.

(** How many steps a waiter whose floor has been reached is from its return. *)
Definition await_rank (p : pc) : nat :=
  match p with
  | PDone => 0 | WLeave => 1 | WRead _ => 2 | WGateLoad => 3 | WGateCas => 4
  | WGate => 5 | WBlock _ => 6 | WAdd => 6 | WCheck => 7 | _ => 9
  end.

Lemma exec_done n s : pcs s t = PDone -> pcs (exec cfg (replicate n t) s) t = PDone.
Proof.
  intros Hp. induction n as [|n IH]; [done|]. simpl.
  unfold step. rewrite decide_True, Hp by done. done.
Qed.

Lemma waiter_returns n s : floor <= visible (mem s) -> (await_rank (pcs s t) <= n)%nat ->
  (forall ch, pcs s t = WBlock ch -> closed (mem s) ch = true) ->
  (pcs s t = WGateLoad -> is_Some (gate (mem s))) -> (await_rank (pcs s t) < 9)%nat ->
  pcs (exec cfg (replicate n t) s) t = PDone.
Proof.
  revert s. induction n as [|n IH]; intros s Hv Hn Hb Hg Hl.
  { destruct (pcs s t) eqn:Hp; simpl in *; try lia. done. }
  destruct (pcs s t) eqn:Hp; simpl in Hn, Hl; try lia; try by apply exec_done.
  all: simpl; unfold step; rewrite decide_True, Hp by done; simpl; rewrite ?Hk; simpl.
  all: try rewrite (Hb _ eq_refl); try destruct (Hg eq_refl) as [g ->]; simpl.
  all: repeat case_match; bool_to_prop; try lia; simpl.
  all: apply IH; simpl; rewrite ?fn_insert_eq; simpl; try done; try lia; eauto.
Qed.
End alone.

(** ** Properties *)

(** commit timestamps are allocated without gaps and without duplicates.
    In every reachable state each timestamp between the recovery floor and the
    allocation counter is held by a committer, no two committers hold the same
    one, and one a committer holds is above the recovery floor and at most one
    above the counter (the holder that has yet to publish its own bump). *)
Theorem alloc_gap_free cfg s : config_ok cfg -> reachable cfg s ->
  (forall ts, base cfg < ts <= Allocated (mem s) -> exists t, holds cfg s t ts) /\
  (forall t t' ts, holds cfg s t ts -> holds cfg s t' ts -> t = t') /\
  (forall t ts, holds cfg s t ts -> base cfg < ts <= Allocated (mem s) + 1).
Proof.
  intros Hcfg Hr. pose proof (LInv_reachable cfg Hcfg s Hr) as HL.
  pose proof (l_inv _ _ HL) as [HS _]. unfold Allocated. split; [|split].
  - intros ts Hts. destruct (si_full _ _ HS ts Hts) as [t Ht]. exists t. by apply holds_owner.
  - intros t t' ts Ht Ht'. apply holds_owner in Ht, Ht'; [|done..]. congruence.
  - intros t ts Ht. apply holds_owner in Ht; [|done]. by destruct (si_range _ _ HS _ _ Ht).
Qed.

(** C1: the visible frontier is safe.  It never exceeds the allocation counter
    once no commit is between its installation and its own bump, and every
    timestamp at or below it belongs to a transaction whose outcome is decided:
    its record carries that timestamp, or [AbortedTS]. *)
Theorem frontier_safe cfg s : config_ok cfg -> reachable cfg s ->
  base cfg <= ReadTS (mem s) <= Allocated (mem s) + 1 /\
  forall ts, base cfg < ts <= ReadTS (mem s) ->
    exists t, holds cfg s t ts /\ resolved cfg s t ts.
Proof.
  intros Hcfg Hr. pose proof (LInv_reachable cfg Hcfg s Hr) as HL.
  pose proof (l_inv _ _ HL) as [HS _]. unfold ReadTS, Allocated. split.
  - pose proof (si_base _ _ HS). pose proof (si_commit _ _ HS).
    destruct (decide (base cfg < visible (mem s))); [|lia].
    destruct (si_vis _ _ HS (visible (mem s))) as [r Hv]; [lia|].
    destruct (si_range _ _ HS _ _ Hv). lia.
  - intros ts Hts. destruct (si_vis _ _ HS ts Hts) as [t Ht].
    exists t. split; [by apply holds_owner|].
    destruct (si_range _ _ HS _ _ Ht) as (_ & _ & _ & Hk).
    assert (Hd : (durable (kinds cfg t) -> ci_ts (recs (mem s) t) = ts) /\
      (kinds cfg t = KAbort -> ci_ts (recs (mem s) t) = AbortedTS)).
    { destruct (si_passed _ _ HS ts t Hts Ht) as [Hd|[Hrd Hst]].
      - destruct (si_decided _ _ HS ts Hd) as (t' & Ht' & H1 & H2). by simplify_eq.
      - destruct (si_ready _ _ HS t Hrd) as [Hk'|Hk']; rewrite Hk'; split; done. }
    unfold resolved, durable in *. destruct Hd. destruct (kinds cfg t) eqn:E; auto. by eapply Hk.
Qed.

(** C9: snapshots are stable.  Whatever a reader that started at an instant at
    or below the frontier decides about a version -- visible or not -- it decides
    the same forever, however the run continues: a transaction that commits later
    commits above the reader's instant. *)
Theorem snapshot_stable cfg s s' t v txID : config_ok cfg -> reachable cfg s ->
  rtc (mstep cfg) s s' -> v <= ReadTS (mem s) ->
  TxIDBase <= txID < AbortedTS -> txID <> txids cfg t ->
  Visible (ci_ts (recs (mem s') t)) v txID = Visible (ci_ts (recs (mem s) t)) v txID.
Proof.
  intros Hcfg Hr Hrun Hv Htx Hne. unfold ReadTS in Hv.
  pose proof (Inv_reachable cfg Hcfg s Hr) as HI.
  destruct (run_later cfg Hcfg s s' HI Hrun) as ([HS' _] & _ & _ & Ho & Hts).
  destruct HI as [HS _]. destruct (in_flight (ci_ts (recs (mem s) t))) eqn:Hf; [|by rewrite Hts].
  destruct (in_flight_txid cfg _ t HS Hf) as [E0 Ei]. pose proof Hcfg as [_ Hids]. specialize (Hids t).
  rewrite E0, (Visible_in_flight (txids cfg t)) by (done || lia).
  destruct (in_flight (ci_ts (recs (mem s') t))) eqn:Hf'.
  { destruct (in_flight_txid cfg _ t HS' Hf') as [-> _]. apply Visible_in_flight; done || lia. }
  destruct (si_ts _ _ HS' t) as [E|[[_ E]|(Hd & Hi & E)]]; rewrite E in Hf' |- *.
  - rewrite Ei. apply Visible_in_flight; done || lia.
  - apply Visible_in_flight; done || lia.
  - destruct (si_range _ _ HS' _ _ Hi) as (Hb & Hlt & _). rewrite Visible_committed by lia.
    apply Z.leb_gt. destruct (decide (ci_claim (recs (mem s') t) <= visible (mem s))); [|lia].
    set (c := ci_claim (recs (mem s') t)) in *.
    destruct (si_vis _ _ HS c) as [r Hc]; [lia|].
    assert (r = t) as -> by (apply Ho in Hc; unfold installed in Hi; unfold c in *; congruence).
    destruct (si_passed _ _ HS c t) as [Hdc|[_ Hdc]]; [lia|done|..].
    + destruct (si_decided _ _ HS c Hdc) as (t' & Ht' & Hst & _). simplify_eq.
      specialize (Hst Hd). rewrite Hst, in_flight_committed in Hf; done.
    + rewrite Hdc, in_flight_committed in Hf; done.
Qed.

(** no publication is lost.  When no commit is in progress, the frontier has
    caught up with the allocation counter, whatever the order in which the
    commits were finished: every committed transaction is visible to the next
    snapshot. *)
Theorem quiescent_visible cfg s : config_ok cfg -> reachable cfg s -> quiescent cfg s ->
  ReadTS (mem s) = Allocated (mem s) /\ InFlightCommits (mem s) = 0.
Proof.
  intros Hcfg Hr Hq. unfold ReadTS, Allocated, InFlightCommits.
  rewrite (quiescent_frontier cfg s Hcfg (LInv_reachable cfg Hcfg s Hr) Hq).
  by rewrite Z.leb_refl.
Qed.

(** no wake-up is lost.  When no commit is in progress, a caller of
    [AwaitVisible] whose floor has been allocated returns: wherever it is,
    scheduled alone it finishes within eight steps.  In particular it is never
    blocked on a channel that will not be closed. *)
Theorem await_wakes cfg s t floor : config_ok cfg -> reachable cfg s -> quiescent cfg s ->
  (t < nthreads cfg)%nat -> kinds cfg t = KWait floor -> floor <= Allocated (mem s) ->
  pcs (exec cfg (replicate 8 t) s) t = PDone.
Proof.
  intros Hcfg Hr Hq Ht Hk Hfl. pose proof (LInv_reachable cfg Hcfg s Hr) as HL.
  pose proof (l_inv _ _ HL) as [HS Hloc]. specialize (Hloc t Ht).
  unfold Allocated in Hfl. rewrite <- (quiescent_frontier cfg s) in Hfl by done.
  assert (Hp : past_claim (pcs s t) = true -> pcs s t = PDone)
    by by apply (quiescent_past_claim cfg).
  assert (Hc : committer (kinds cfg t) -> False) by (intros Hc; by eapply Hc).
  assert (Hrank : (await_rank (pcs s t) < 9)%nat).
  { destruct (pcs s t); simpl in *; try lia; try (discriminate Hp; done);
      exfalso; unfold fresh in Hloc; destruct_and?; auto. }
  apply (waiter_returns cfg t floor Ht Hk 8); [done|lia| | |done].
  - intros ch E. by apply (blocked_closed cfg s t ch floor).
  - intros E. rewrite E in Hloc. apply Hloc.
Qed.

(** committing never waits and never panics.  From every reachable state
    every committer that has not returned has a step to take, whatever the other
    threads are doing, and the panic of [AllocateFor] and of [AwaitVisible] are
    unreachable. *)
Theorem commit_nonblocking cfg s t : config_ok cfg -> reachable cfg s ->
  (t < nthreads cfg)%nat ->
  pcs s t <> PPanic /\
  (committer (kinds cfg t) -> pcs s t = PDone \/ is_Some (step cfg false t s)).
Proof.
  intros Hcfg Hr Ht. pose proof (Inv_reachable cfg Hcfg s Hr) as [_ Hloc]. specialize (Hloc t Ht).
  split; [by intros E; rewrite E in Hloc|]. intros Hk.
  assert (Hw : waiter_pc (pcs s t) = true -> exists f, kinds cfg t = KWait f)
    by (destruct (pcs s t); simpl in *; try done; intros _; by destruct_and?).
  destruct (pcs s t) eqn:Hp; auto; right; apply step_some; auto; rewrite Hp;
    try (apply tstep_some; [done..|auto]; done).
  destruct Hw as [f Hf]; [done|]. by destruct (Hk f).
Qed.

(** first-updater-wins is sound and complete.  For a transaction that started
    at an instant the clock had served, the write-conflict test on the head
    version of an object lets the write through exactly when the head's writer
    committed at a timestamp at or below that start: nothing in flight, aborted or
    committed later is ever overwritten, and nothing older is refused. *)
Theorem conflict_exact cfg s t startTS txID : config_ok cfg -> reachable cfg s ->
  startTS <= ReadTS (mem s) -> TxIDBase <= txID < AbortedTS -> txID <> txids cfg t ->
  kinds cfg t = KReady \/ kinds cfg t = KDurable \/ kinds cfg t = KAbort ->
  Conflicts (ci_ts (recs (mem s) t)) startTS txID = false <->
  kinds cfg t <> KAbort /\ exists ts, holds cfg s t ts /\ ts <= startTS.
Proof.
  intros Hcfg Hr Hst Htx Hne Hk. pose proof (LInv_reachable cfg Hcfg s Hr) as HL.
  pose proof (l_inv _ _ HL) as [HS Hloc]. unfold ReadTS in Hst.
  pose proof Hcfg as [_ Hids]. specialize (Hids t).
  assert (Hinit : ci_ts (init_ci (kinds cfg t) (txids cfg t)) = txids cfg t)
    by (destruct Hk as [->|[->| ->]]; done).
  split.
  - intros Hc. unfold Conflicts in Hc.
    destruct (si_ts _ _ HS t) as [E|[[Ha E]|(Hd & Hi & E)]].
    + rewrite E, Hinit in Hc. destruct (Z.eqb_spec (txids cfg t) 0); [rewrite TxIDBase_val in *; lia|].
      rewrite Visible_in_flight in Hc; done || lia.
    + rewrite E in Hc. destruct (Z.eqb_spec AbortedTS 0); [done|].
      rewrite Visible_in_flight in Hc; done || lia.
    + destruct (si_range _ _ HS _ _ Hi) as (Hb & Hlt & _). rewrite E in Hc.
      destruct (Z.eqb_spec (ci_claim (recs (mem s) t)) 0) as [|]; [destruct Hcfg; lia|].
      rewrite Visible_committed in Hc by lia. bool_to_prop.
      split; [by destruct Hd as [-> | ->]|]. eexists; split; [by apply holds_owner|done].
  - intros (Hna & ts & Hh & Hts). apply holds_owner in Hh; [|done].
    destruct (si_range _ _ HS _ _ Hh) as (Hb & Hlt & _).
    assert (E : ci_ts (recs (mem s) t) = ts).
    { destruct (si_passed _ _ HS ts t) as [Hdc|[_ E]]; [lia|done| |done].
      destruct (si_decided _ _ HS ts Hdc) as (t' & Ht' & Hd & _). simplify_eq.
      apply Hd. destruct Hk as [?|[?|?]]; [by left|by right|done]. }
    unfold Conflicts. rewrite E, Visible_committed by lia.
    destruct (Z.eqb_spec ts 0); [done|]. by destruct (Z.leb_spec ts startTS); [|lia].
Qed.

(** ** A demonstration run

    Two commits, one abort and a waiter on the second instant, over a clock
    recovered at timestamp 5. *)

Definition demo_kind (t : nat) : kind :=
  match t with O => KReady | 1%nat => KDurable | 2%nat => KAbort | _ => KWait 8 end.

Definition demo_txid (t : nat) : Z :=
  match t with O => TxIDBase + 1 | 1%nat => TxIDBase + 2 | _ => TxIDBase + 3 end.

Definition demo : config := mkCfg 4 demo_kind demo_txid 5.

(** Fifty rounds of a fair schedule, the durable commit lagging behind. *)
Definition demo_part : list nat := mjoin (replicate 12 [0; 2; 3]%nat) ++ replicate 12 1%nat.
Definition demo_full : list nat := demo_part ++ mjoin (replicate 60 [1; 3; 2; 0]%nat).
Definition demo_mid : state := exec demo demo_part (init demo).
Definition demo_end : state := exec demo demo_full (init demo).

Lemma demo_ok : config_ok demo.
Proof. split; [done|]. intros [|[|t]]; simpl; done. Qed.

Lemma demo_mid_reachable : reachable demo demo_mid.
Proof. apply exec_reachable. by vm_compute. Qed.

Lemma demo_end_reachable : reachable demo demo_end.
Proof. apply exec_reachable. by vm_compute. Qed.

Lemma demo_end_quiescent : quiescent demo demo_end.
Proof.
  intros t Ht _. left. destruct t as [|[|[|[|t]]]]; [by vm_compute..|simpl in Ht; lia].
Qed.

(** The run of [demo_full] after the state [demo_mid]. *)
Lemma demo_mid_end : rtc (mstep demo) demo_mid
  (exec demo (mjoin (replicate 60 [1; 3; 2; 0]%nat)) demo_mid).
Proof. apply exec_run. by vm_compute. Qed.

(** ** Witnesses *)

Lemma alloc_gap_free_witness : exists t, holds demo demo_end t 8.
Proof.
  destruct (alloc_gap_free demo demo_end demo_ok demo_end_reachable) as [H _].
  apply H. split; by vm_compute.
Defined.

Lemma frontier_safe_witness : exists t, holds demo demo_mid t 6 /\ resolved demo demo_mid t 6.
Proof.
  destruct (frontier_safe demo demo_mid demo_ok demo_mid_reachable) as [_ H].
  apply H. split; by vm_compute.
Defined.

Lemma snapshot_stable_witness :
  Visible (ci_ts (recs (mem demo_mid) 0)) 6 (TxIDBase + 9) = false /\
  Visible (ci_ts (recs (mem (exec demo (mjoin (replicate 60 [1; 3; 2; 0]%nat)) demo_mid)) 0))
    6 (TxIDBase + 9) = Visible (ci_ts (recs (mem demo_mid) 0)) 6 (TxIDBase + 9).
Proof.
  split; [by vm_compute|].
  apply (snapshot_stable demo demo_mid); [exact demo_ok|exact demo_mid_reachable
    |exact demo_mid_end|by vm_compute|split; by vm_compute|by vm_compute].
Defined.

Lemma quiescent_visible_witness : ReadTS (mem demo_end) = 8 /\
  InFlightCommits (mem demo_end) = 0.
Proof.
  destruct (quiescent_visible demo demo_end demo_ok demo_end_reachable demo_end_quiescent)
    as [E H]. split; [rewrite E; by vm_compute|exact H].
Defined.

Lemma await_wakes_witness : pcs (exec demo (replicate 8 3%nat) demo_end) 3%nat = PDone.
Proof.
  apply (await_wakes demo demo_end 3 8 demo_ok demo_end_reachable demo_end_quiescent);
    by vm_compute || (simpl; lia).
Defined.

Lemma demo_mid_open : pcs demo_mid 0%nat <> PDone.
Proof. by vm_compute. Qed.

Lemma commit_nonblocking_witness : is_Some (step demo false 0%nat demo_mid).
Proof.
  refine (match proj2 (commit_nonblocking demo demo_mid 0%nat demo_ok demo_mid_reachable _) _ with
          | or_introl E => False_ind _ (demo_mid_open E)
          | or_intror H => H
          end); [simpl; lia|intros f; discriminate].
Defined.

Lemma conflict_exact_witness :
  Conflicts (ci_ts (recs (mem demo_end) 1)) 7 (TxIDBase + 9) = false.
Proof.
  apply (conflict_exact demo demo_end 1 7 (TxIDBase + 9) demo_ok demo_end_reachable);
    [by vm_compute|by vm_compute|by vm_compute|right; left; reflexivity|].
  split; [done|]. exists 7. split; [|done]. split; [simpl; lia|]. split; [done|].
  split; by vm_compute.
Defined.
