(* ===== verification/Packstream.v ===== *)
(** * PackStream: the Bolt value codec

    Model of [bolt/packstream]: the encoder ([encoder.go]), the decoder with its
    wire, decoded-memory and shared inbound budgets ([decoder.go],
    [inbound_budget.go]) and the recursive value reader and writer ([value.go]).
    The encoder appends to an output buffer, the decoder consumes a finite
    source; the [bufio] layers in between are transparent. *)

From Stdlib Require Import ZArith Lia.
From S2P Require Import Prelude Wire.

Local Open Scope Z_scope.

(** ** Markers *)

Definition markerNull : Z := 0xC0.
Definition markerFalse : Z := 0xC2.
Definition markerTrue : Z := 0xC3.
Definition markerFloat64 : Z := 0xC1.
Definition markerInt8 : Z := 0xC8.
Definition markerInt16 : Z := 0xC9.
Definition markerInt32 : Z := 0xCA.
Definition markerInt64 : Z := 0xCB.
Definition markerBytes8 : Z := 0xCC.
Definition markerBytes16 : Z := 0xCD.
Definition markerBytes32 : Z := 0xCE.
Definition markerStr8 : Z := 0xD0.
Definition markerStr16 : Z := 0xD1.
Definition markerStr32 : Z := 0xD2.
Definition markerList8 : Z := 0xD4.
Definition markerList16 : Z := 0xD5.
Definition markerList32 : Z := 0xD6.
Definition markerMap8 : Z := 0xD8.
Definition markerMap16 : Z := 0xD9.
Definition markerMap32 : Z := 0xDA.

Definition tinyIntLow : Z := -16.
Definition tinyIntHigh : Z := 127.
Definition tinyStrBase : Z := 0x80.
Definition tinyListBase : Z := 0x90.
Definition tinyMapBase : Z := 0xA0.
Definition tinyStructBase : Z := 0xB0.
Definition tinyStrMax : Z := 15.
Definition tinyListMax : Z := 15.
Definition tinyMapMax : Z := 15.
Definition tinyStructMax : Z := 15.

(** ** Values

    The nine PackStream kinds, the two further integer types [writeValue]
    accepts, and anything else.  A float is its IEEE-754 bit pattern.  A Go map is
    the list of its entries in the order one iteration visits them. *)
#[warnings="-register-all"]
Inductive Value :=
  | VNull
  | VBool (b : bool)
  | VInt (z : Z)
  | VGoInt (z : Z)
  | VGoInt32 (z : Z)
  | VFloat (bits : Z)
  | VBytes (l : list Z)
  | VString (l : list Z)
  | VList (l : list Value)
  | VMap (m : list (list Z * Value))
  | VStruct (tag : Z) (fields : list Value)
  | VOther.

Definition maxValueDepth : nat := 128.

(** ** Encoder *)

Inductive enc_err := EPayloadTooLarge | ENegativeLength | EFieldCount | ENestingTooDeep
  | EUnsupported.

(** A writer appends to the output; the bytes written before an error stay. *)
Definition W : Type := list Z -> list Z * option enc_err.

Definition wnop : W := fun out => (out, None).
Definition emit (bs : list Z) : W := fun out => (out ++ bs, None).
Definition wfail (e : enc_err) : W := fun out => (out, Some e).
Definition wseq (w1 w2 : W) : W := fun out =>
  match w1 out with (out', None) => w2 out' | r => r end.
Definition wall (ws : list W) : W := foldr wseq wnop ws.

Declare Scope pack_scope.
Delimit Scope pack_scope with pack.
Infix ";;;" := wseq (at level 59, right associativity) : pack_scope.
Local Open Scope pack_scope.

Definition writeByte (b : Z) : W := emit [b].

Definition MaxUint8 : Z := 255.
Definition MaxUint16 : Z := 65535.
Definition MaxUint32 : Z := 2 ^ 32 - 1.

Definition checkUint32Length (n : Z) : W :=
  if MaxUint32 <? u64 n then wfail EPayloadTooLarge else wnop.

Definition WriteNull : W := writeByte markerNull.

Definition WriteBool (v : bool) : W :=
  if v then writeByte markerTrue else writeByte markerFalse.

Definition WriteInt (v : Z) : W :=
  if (tinyIntLow <=? v) && (v <=? tinyIntHigh) then writeByte (u8 v)
  else if (- 2 ^ 7 <=? v) && (v <=? 2 ^ 7 - 1) then writeByte markerInt8 ;;; writeByte (u8 v)
  else if (- 2 ^ 15 <=? v) && (v <=? 2 ^ 15 - 1) then
    writeByte markerInt16 ;;; emit (putBE 2 (u16 v))
  else if (- 2 ^ 31 <=? v) && (v <=? 2 ^ 31 - 1) then
    writeByte markerInt32 ;;; emit (putBE 4 (u32 v))
  else writeByte markerInt64 ;;; emit (putBE 8 (u64 v)).

Definition WriteFloat (bits : Z) : W := writeByte markerFloat64 ;;; emit (putBE 8 bits).

(** The length ladder shared by bytes, strings, lists and maps: an 8-, 16- or
    32-bit big-endian length behind its marker. *)
Definition write_length (m8 m16 m32 n : Z) : W :=
  if n <=? MaxUint8 then writeByte m8 ;;; writeByte (u8 n)
  else if n <=? MaxUint16 then writeByte m16 ;;; emit (putBE 2 (u16 n))
  else checkUint32Length n ;;; writeByte m32 ;;; emit (putBE 4 (u32 n)).

Definition WriteBytes (v : list Z) : W :=
  write_length markerBytes8 markerBytes16 markerBytes32 (Z.of_nat (length v)) ;;; emit v.

Definition WriteString (v : list Z) : W :=
  let n := Z.of_nat (length v) in
  (if n <=? tinyStrMax then writeByte (Z.lor tinyStrBase (u8 n))
   else write_length markerStr8 markerStr16 markerStr32 n) ;;; emit v.

Definition WriteListHeader (n : Z) : W :=
  if n <? 0 then wfail ENegativeLength
  else if n <=? tinyListMax then writeByte (Z.lor tinyListBase (u8 n))
  else write_length markerList8 markerList16 markerList32 n.

Definition WriteMapHeader (n : Z) : W :=
  if n <? 0 then wfail ENegativeLength
  else if n <=? tinyMapMax then writeByte (Z.lor tinyMapBase (u8 n))
  else write_length markerMap8 markerMap16 markerMap32 n.

Definition WriteStructHeader (tag n : Z) : W :=
  if (n <? 0) || (tinyStructMax <? n) then wfail EFieldCount
  else writeByte (Z.lor tinyStructBase (u8 n)) ;;; writeByte tag.

(** [writeValue v depth] with [fuel = maxValueDepth + 1 - depth]: the entry guard
    [depth > maxValueDepth] is [fuel = 0]. *)
Fixpoint writeValue (fuel : nat) (v : Value) : W :=
  match fuel with
  | O => wfail ENestingTooDeep
  | S fuel =>
      match v with
      | VNull => WriteNull
      | VBool b => WriteBool b
      | VInt z | VGoInt z | VGoInt32 z => WriteInt z
      | VFloat bits => WriteFloat bits
      | VBytes l => WriteBytes l
      | VString l => WriteString l
      | VList l =>
          WriteListHeader (Z.of_nat (length l)) ;;; wall (map (writeValue fuel) l)
      | VMap m =>
          WriteMapHeader (Z.of_nat (length m)) ;;;
          wall (map (fun kv => WriteString (fst kv) ;;; writeValue fuel (snd kv)) m)
      | VStruct tag fields =>
          WriteStructHeader tag (Z.of_nat (length fields)) ;;;
          wall (map (writeValue fuel) fields)
      | VOther => wfail EUnsupported
      end
  end.

Definition WriteValue (v : Value) : W := writeValue (S maxValueDepth) v.

(** ** Shared inbound budget *)

Definition inboundReserveChunk : Z := Z.shiftl 1 20.

Record InboundBudget := mkPool { limit : Z; pool_remaining : Z }.

Definition NewInboundBudget (limit : Z) : InboundBudget :=
  mkPool limit (if 0 <? limit then limit else 0).

Definition enabled (b : InboundBudget) : bool := 0 <? limit b.

Definition tryReserve (n : Z) (b : InboundBudget) : bool * InboundBudget :=
  if negb (enabled b) || (n <=? 0) then (true, b)
  else if pool_remaining b <? n then (false, b)
  else (true, mkPool (limit b) (pool_remaining b - n)).

Definition release (n : Z) (b : InboundBudget) : InboundBudget :=
  if negb (enabled b) || (n <=? 0) then b
  else mkPool (limit b) (pool_remaining b + n).

(** ** Decoder *)

Inductive dec_err := EEOF | EUnexpectedEOF | ELengthExceedsInput | EDecodedMemoryExceeded
  | EInboundBudgetExceeded | EMarker | EDepth.

Record Decoder := mkDec {
  src : list Z;
  shared : option InboundBudget;
  remaining : Z;
  maxMessageBytes : Z;
  decodedRemaining : Z;
  poolHeld : Z;
  poolAvail : Z
}.

Definition maxDecodedCollectionBytes : Z := Z.shiftl 128 20.
Definition defaultMaxMessageBytes : Z := Z.shiftl 16 20.
Definition unknownRemaining : Z := -1.
Definition listElemCost : Z := 48.
Definition collectionCost : Z := 32.
Definition mapEntryCost : Z := 112.
Definition mapCollectionCost : Z := 512.
Definition wire32MaxLen : Z := 2 ^ 31 - 1.

Definition set_src v rem d := mkDec v (shared d) rem (maxMessageBytes d)
  (decodedRemaining d) (poolHeld d) (poolAvail d).
Definition set_decoded v d := mkDec (src d) (shared d) (remaining d) (maxMessageBytes d)
  v (poolHeld d) (poolAvail d).
Definition set_pool sh held avail d := mkDec (src d) sh (remaining d) (maxMessageBytes d)
  (decodedRemaining d) held avail.

(** A decoding operation: an error or a result, and the decoder it leaves. *)
Definition D (A : Type) : Type := Decoder -> (dec_err + A) * Decoder.

#[export] Instance D_ret : MRet D := fun A x d => (inr x, d).
#[export] Instance D_bind : MBind D := fun A B f m d =>
  match m d with (inl e, d') => (inl e, d') | (inr x, d') => f x d' end.
Definition dfail {A} (e : dec_err) : D A := fun d => (inl e, d).
Definition gets {A} (f : Decoder -> A) : D A := fun d => (inr (f d), d).
Definition modify (f : Decoder -> Decoder) : D unit := fun d => (inr tt, f d).
Definition guard_or (b : bool) (e : dec_err) : D unit := if b then mret tt else dfail e.

(** [sourceLen]: the byte count of an in-memory source, or unknown. *)
Definition sourceLen (in_memory : bool) (bs : list Z) : Z :=
  if in_memory then Z.of_nat (length bs) else unknownRemaining.

Definition NewDecoder (in_memory : bool) (bs : list Z) : Decoder :=
  mkDec bs None (sourceLen in_memory bs) defaultMaxMessageBytes maxDecodedCollectionBytes 0 0.

Definition releaseShared (d : Decoder) : Decoder :=
  set_pool (match shared d with
            | Some b => if 0 <? poolHeld d then Some (release (poolHeld d) b) else Some b
            | None => None
            end) 0 0 d.

(** [Reset] and [ReleaseInboundBudget] detach the pool: they also return it. *)
Definition Reset (in_memory : bool) (bs : list Z) (d : Decoder)
  : Decoder * option InboundBudget :=
  let d1 := releaseShared d in
  (mkDec bs None (sourceLen in_memory bs)
     (if maxMessageBytes d1 =? 0 then defaultMaxMessageBytes else maxMessageBytes d1)
     maxDecodedCollectionBytes (poolHeld d1) (poolAvail d1), shared d1).

Definition SetInboundBudget (b : InboundBudget) (d : Decoder) : Decoder :=
  set_pool (if enabled b then Some b else None) 0 0 d.

Definition ReleaseInboundBudget (d : Decoder) : Decoder * option InboundBudget :=
  let d1 := releaseShared d in
  (set_pool None (poolHeld d1) (poolAvail d1) d1, shared d1).

Definition reserveShared (cost : Z) : D unit := fun d =>
  match shared d with
  | None => (inr tt, d)
  | Some b =>
      if cost <=? 0 then (inr tt, d)
      else if cost <=? poolAvail d then
        (inr tt, set_pool (Some b) (poolHeld d) (poolAvail d - cost) d)
      else
        let need := cost - poolAvail d in
        let chunk := if need <? inboundReserveChunk then inboundReserveChunk else need in
        let take b' c := (inr tt, set_pool (Some b') (poolHeld d + c) (poolAvail d + c - cost) d) in
        match tryReserve chunk b with
        | (true, b') => take b' chunk
        | (false, b') =>
            match tryReserve need b' with
            | (true, b'') => take b'' need
            | (false, b'') => (inl EInboundBudgetExceeded, set_pool (Some b'') (poolHeld d) (poolAvail d) d)
            end
        end
  end.

Definition budget (d : Decoder) : Z :=
  if remaining d =? unknownRemaining then maxMessageBytes d else remaining d.

(** [consume n] with the source moved on to [rest]. *)
Definition consume (n : Z) (rest : list Z) (d : Decoder) : Decoder :=
  set_src rest (if remaining d =? unknownRemaining then remaining d else remaining d - n) d.

Definition chargeDecoded (n perElem baseCost : Z) : D unit :=
  d ← gets id;
  let rem := decodedRemaining d - baseCost in
  if (rem <? 0) || (Z.quot rem perElem <? n) then dfail EDecodedMemoryExceeded
  else
    reserveShared (baseCost + n * perElem) ;;
    modify (set_decoded (rem - n * perElem)).

Definition readByte : D Z := fun d =>
  match src d with
  | [] => (inl EEOF, d)
  | b :: rest => (inr b, consume 1 rest d)
  end.

Definition readFull (n : nat) : D (list Z) := fun d =>
  match take_bytes n (src d) with
  | Some (bs, rest) => (inr bs, consume (Z.of_nat n) rest d)
  | None => (inl (if decide (src d = []) then EEOF else EUnexpectedEOF),
             consume (Z.of_nat (length (src d))) [] d)
  end.

Definition readLen32 : D Z :=
  bs ← readFull 4;
  let v := getBE bs in
  if wire32MaxLen <? v then dfail ELengthExceedsInput else mret v.

Definition peekByte : D Z := fun d =>
  match src d with [] => (inl EEOF, d) | b :: _ => (inr b, d) end.

Inductive Type_ := TypeNull | TypeBool | TypeInt | TypeFloat | TypeBytes | TypeString
  | TypeList | TypeMap | TypeStruct.

#[export] Instance Type_eq_dec : EqDecision Type_.
Proof. solve_decision. Defined.

Definition tiny (base max b : Z) : bool := (base <=? b) && (b <=? base + max).

(** [markerTypeTable]: unassigned markers keep the table's zero value, [TypeNull]. *)
Definition markerToType (b : Z) : Type_ :=
  if b <=? 0x7F then TypeInt
  else if 0xF0 <=? b then TypeInt
  else if b =? markerNull then TypeNull
  else if (b =? markerTrue) || (b =? markerFalse) then TypeBool
  else if b =? markerFloat64 then TypeFloat
  else if (b =? markerInt8) || (b =? markerInt16) || (b =? markerInt32) || (b =? markerInt64)
    then TypeInt
  else if (b =? markerBytes8) || (b =? markerBytes16) || (b =? markerBytes32) then TypeBytes
  else if (b =? markerStr8) || (b =? markerStr16) || (b =? markerStr32) then TypeString
  else if (b =? markerList8) || (b =? markerList16) || (b =? markerList32) then TypeList
  else if (b =? markerMap8) || (b =? markerMap16) || (b =? markerMap32) then TypeMap
  else if tiny tinyStrBase tinyStrMax b then TypeString
  else if tiny tinyListBase tinyListMax b then TypeList
  else if tiny tinyMapBase tinyMapMax b then TypeMap
  else if tiny tinyStructBase tinyStructMax b then TypeStruct
  else TypeNull.

Definition PeekType : D Type_ := b ← peekByte; mret (markerToType b).

Definition ReadNull : D unit :=
  b ← readByte; guard_or (b =? markerNull) EMarker.

Definition ReadBool : D bool :=
  b ← readByte;
  if b =? markerTrue then mret true
  else if b =? markerFalse then mret false
  else dfail EMarker.

Definition ReadInt : D Z :=
  b ← readByte;
  if b =? markerInt8 then raw ← readByte; mret (signed 8 raw)
  else if b =? markerInt16 then bs ← readFull 2; mret (signed 16 (getBE bs))
  else if b =? markerInt32 then bs ← readFull 4; mret (signed 32 (getBE bs))
  else if b =? markerInt64 then bs ← readFull 8; mret (signed 64 (getBE bs))
  else if (b <=? 0x7F) || (0xF0 <=? b) then mret (signed 8 b)
  else dfail EMarker.

Definition ReadFloat : D Z :=
  b ← readByte;
  if b =? markerFloat64 then bs ← readFull 8; mret (getBE bs)
  else dfail EMarker.

(** The length ladder shared by the four sized kinds, once the marker [b] is known
    not to be a tiny one. *)
Definition read_length (m8 m16 m32 b : Z) : D Z :=
  if b =? m8 then readByte
  else if b =? m16 then bs ← readFull 2; mret (getBE bs)
  else if b =? m32 then readLen32
  else dfail EMarker.

Definition read_payload (n : Z) : D (list Z) :=
  bud ← gets budget;
  guard_or (n <=? bud) ELengthExceedsInput ;;
  reserveShared n ;;
  readFull (Z.to_nat n).

Definition ReadBytes : D (list Z) :=
  b ← readByte;
  n ← read_length markerBytes8 markerBytes16 markerBytes32 b;
  read_payload n.

Definition ReadString : D (list Z) :=
  b ← readByte;
  n ← (if tiny tinyStrBase tinyStrMax b then mret (Z.land b 0x0F)
       else read_length markerStr8 markerStr16 markerStr32 b);
  if n =? 0 then mret [] else read_payload n.

Definition ReadListHeader : D Z :=
  b ← readByte;
  n ← (if tiny tinyListBase tinyListMax b then mret (Z.land b 0x0F)
       else read_length markerList8 markerList16 markerList32 b);
  bud ← gets budget;
  guard_or (n <=? bud) ELengthExceedsInput ;;
  chargeDecoded n listElemCost collectionCost ;;
  mret n.

Definition ReadMapHeader : D Z :=
  b ← readByte;
  n ← (if tiny tinyMapBase tinyMapMax b then mret (Z.land b 0x0F)
       else read_length markerMap8 markerMap16 markerMap32 b);
  bud ← gets budget;
  guard_or (n <=? Z.quot bud 2) ELengthExceedsInput ;;
  chargeDecoded n mapEntryCost mapCollectionCost ;;
  mret n.

Definition ReadStructHeader : D (Z * Z) :=
  b ← readByte;
  guard_or (negb ((b <? tinyStructBase) || (tinyStructBase + tinyStructMax <? b))) EMarker ;;
  let n := Z.land b 0x0F in
  tag ← readByte;
  bud ← gets budget;
  guard_or (n <=? bud) ELengthExceedsInput ;;
  chargeDecoded n listElemCost collectionCost ;;
  mret (tag, n).

(** [m[k] = val] on a Go map. *)
Fixpoint map_set (k : list Z) (v : Value) (m : list (list Z * Value)) : list (list Z * Value) :=
  match m with
  | [] => [(k, v)]
  | (k', v') :: m => if decide (k' = k) then (k, v) :: m else (k', v') :: map_set k v m
  end.

Fixpoint read_items (n : nat) (rv : D Value) : D (list Value) :=
  match n with
  | O => mret []
  | S n => v ← rv; l ← read_items n rv; mret (v :: l)
  end.

Fixpoint read_entries (n : nat) (rv : D Value) (m : list (list Z * Value))
  : D (list (list Z * Value)) :=
  match n with
  | O => mret m
  | S n => k ← ReadString; v ← rv; read_entries n rv (map_set k v m)
  end.

(** [readValue depth] with [fuel = maxValueDepth + 1 - depth], as in [writeValue]. *)
Fixpoint readValue (fuel : nat) : D Value :=
  match fuel with
  | O => dfail EDepth
  | S fuel =>
      t ← PeekType;
      match t with
      | TypeNull => ReadNull ;; mret VNull
      | TypeBool => b ← ReadBool; mret (VBool b)
      | TypeInt => z ← ReadInt; mret (VInt z)
      | TypeFloat => f ← ReadFloat; mret (VFloat f)
      | TypeBytes => l ← ReadBytes; mret (VBytes l)
      | TypeString => l ← ReadString; mret (VString l)
      | TypeList =>
          n ← ReadListHeader;
          l ← read_items (Z.to_nat n) (readValue fuel); mret (VList l)
      | TypeMap =>
          n ← ReadMapHeader;
          m ← read_entries (Z.to_nat n) (readValue fuel) []; mret (VMap m)
      | TypeStruct =>
          h ← ReadStructHeader;
          l ← read_items (Z.to_nat (snd h)) (readValue fuel); mret (VStruct (fst h) l)
      end
  end.

Definition ReadValue : D Value := readValue (S maxValueDepth).
