(* ===== verification/PackstreamProps.v ===== *)
(** * Correctness of the PackStream codec

    Round trips of values through the wire format under any decoder whose budgets
    cover them, and safety of decoding arbitrary bytes: bounded decoded memory,
    bounded depth, well-formed results and exact accounting of the shared pool. *)

From Stdlib Require Import ZArith Lia.
From S2P Require Import Prelude Wire Packstream.

Local Open Scope Z_scope.
Local Open Scope pack_scope.

(** ** What a value costs and when it is well formed *)

Definition zlen {A} (l : list A) : Z := Z.of_nat (length l).
Definition zlist_sum (l : list Z) : Z := foldr Z.add 0 l.

(** The decoded-memory charge of a value. *)
Fixpoint mem_cost (v : Value) : Z :=
  match v with
  | VList l => collectionCost + zlen l * listElemCost + zlist_sum (map mem_cost l)
  | VMap m => mapCollectionCost + zlen m * mapEntryCost +
      zlist_sum (map (fun kv => mem_cost (snd kv)) m)
  | VStruct _ l => collectionCost + zlen l * listElemCost + zlist_sum (map mem_cost l)
  | _ => 0
  end.

(** The shared-pool charge: the decoded memory and the payload bytes. *)
Fixpoint pool_cost (v : Value) : Z :=
  match v with
  | VBytes l | VString l => zlen l
  | VList l => collectionCost + zlen l * listElemCost + zlist_sum (map pool_cost l)
  | VMap m => mapCollectionCost + zlen m * mapEntryCost +
      zlist_sum (map (fun kv => zlen (fst kv) + pool_cost (snd kv)) m)
  | VStruct _ l => collectionCost + zlen l * listElemCost + zlist_sum (map pool_cost l)
  | _ => 0
  end.

(** The value the decoder returns for an encoded one: every integer is an int64. *)
Fixpoint norm (v : Value) : Value :=
  match v with
  | VGoInt z | VGoInt32 z => VInt z
  | VList l => VList (map norm l)
  | VMap m => VMap (map (fun kv => (fst kv, norm (snd kv))) m)
  | VStruct t l => VStruct t (map norm l)
  | v => v
  end.

Definition int64 (z : Z) : Prop := - 2 ^ 63 <= z < 2 ^ 63.
Definition sized (n : Z) : Prop := 0 <= n <= wire32MaxLen.

(** Well-formed values of at most [fuel] nesting levels. *)
Fixpoint wfv (fuel : nat) (v : Value) : Prop :=
  match fuel with
  | O => False
  | S fuel =>
      match v with
      | VNull | VBool _ => True
      | VInt z | VGoInt z | VGoInt32 z => int64 z
      | VFloat bits => 0 <= bits < 2 ^ 64
      | VBytes l | VString l => bytes l /\ sized (zlen l)
      | VList l => sized (zlen l) /\ Forall (wfv fuel) l
      | VMap m => sized (zlen m) /\ NoDup (map fst m) /\
          Forall (fun kv => bytes (fst kv) /\ sized (zlen (fst kv)) /\ wfv fuel (snd kv)) m
      | VStruct t l => is_byte t /\ zlen l <= tinyStructMax /\ Forall (wfv fuel) l
      | VOther => False
      end
  end.

Lemma zlen_nonneg {A} (l : list A) : 0 <= zlen l.
Proof. unfold zlen. lia. Qed.

(** ** The invariant of a decoder *)

Definition pool_ok (d : Decoder) : Prop :=
  match shared d with
  | None => True
  | Some b => 0 < limit b /\ 0 <= pool_remaining b /\ 0 <= poolAvail d <= poolHeld d
  end.

(** What the shared pool still grants this decoder covers [c] more bytes. *)
Definition covers (d : Decoder) (c : Z) : Prop :=
  match shared d with None => True | Some b => c <= poolAvail d + pool_remaining b end.

(** The wire budget covers the bytes that are really there. *)
Definition wire_ok (d : Decoder) : Prop := zlen (src d) <= budget d.

Lemma wire_ok_consume bs rest d : src d = bs ++ rest -> wire_ok d ->
  wire_ok (consume (zlen bs) rest d) /\ src (consume (zlen bs) rest d) = rest.
Proof.
  unfold wire_ok, budget, consume, zlen. intros -> Hw. simpl. split; [|done].
  rewrite length_app in Hw. unfold unknownRemaining in *.
  destruct (Z.eqb_spec (remaining d) (-1)) as [E|E]; simpl.
  - rewrite E. simpl. lia.
  - destruct (Z.eqb_spec (remaining d - Z.of_nat (length bs)) (-1)); lia.
Qed.

(** ** Reserving from the shared pool *)

Lemma tryReserve_true n b : 0 < limit b -> 0 < n -> n <= pool_remaining b ->
  tryReserve n b = (true, mkPool (limit b) (pool_remaining b - n)).
Proof.
  intros. unfold tryReserve, enabled.
  destruct (Z.ltb_spec 0 (limit b)), (Z.leb_spec n 0), (Z.ltb_spec (pool_remaining b) n);
    simpl; done || lia.
Qed.

Lemma tryReserve_false n b : 0 < limit b -> 0 < n -> pool_remaining b < n ->
  tryReserve n b = (false, b).
Proof.
  intros. unfold tryReserve, enabled.
  destruct (Z.ltb_spec 0 (limit b)), (Z.leb_spec n 0), (Z.ltb_spec (pool_remaining b) n);
    simpl; done || lia.
Qed.

(** What a reservation leaves alone. *)
Definition same_wire (d d' : Decoder) : Prop :=
  src d' = src d /\ remaining d' = remaining d /\ maxMessageBytes d' = maxMessageBytes d /\
  decodedRemaining d' = decodedRemaining d.

Definition pool_total (d : Decoder) : option (Z * Z) :=
  match shared d with None => None | Some b => Some (limit b, pool_remaining b + poolHeld d) end.

(** The reservation succeeds exactly when the pool covers the cost, and costs
    exactly that; either way the pool's total is conserved. *)
Lemma reserveShared_spec cost d : pool_ok d -> 0 <= cost ->
  exists d', same_wire d d' /\ pool_ok d' /\ pool_total d' = pool_total d /\
    ((reserveShared cost d = (inr tt, d') /\
      (forall c, covers d (cost + c) -> covers d' c)) \/
     (reserveShared cost d = (inl EInboundBudgetExceeded, d') /\ ~ covers d cost)).
Proof.
  unfold pool_ok, covers, pool_total, same_wire, reserveShared. intros Hp Hc.
  destruct (shared d) as [b|] eqn:Hs.
  2: { exists d. rewrite Hs. spl; auto. }
  destruct (Z.leb_spec cost 0).
  { exists d. rewrite Hs. spl; auto; try lia. left. split; [done|]. intros c. lia. }
  destruct (Z.leb_spec cost (poolAvail d)).
  { exists (set_pool (Some b) (poolHeld d) (poolAvail d - cost) d). simpl.
    spl; auto; try lia. left. split; [done|]. intros c. lia. }
  set (need := cost - poolAvail d).
  set (chunk := if need <? inboundReserveChunk then inboundReserveChunk else need).
  assert (Hch : need <= chunk /\ 0 < chunk).
  { unfold chunk, inboundReserveChunk. change (Z.shiftl 1 20) with 1048576.
    destruct (Z.ltb_spec need 1048576); unfold need in *; lia. }
  destruct Hp as (Hl & Hr & Ha). unfold need in *. clearbody chunk.
  destruct (decide (chunk <= pool_remaining b)).
  { rewrite tryReserve_true by (done || lia).
    exists (set_pool (Some (mkPool (limit b) (pool_remaining b - chunk)))
      (poolHeld d + chunk) (poolAvail d + chunk - cost) d). simpl. spl; try reflexivity; simpl; try lia.
    - do 2 f_equal. lia.
    - left. split; [reflexivity|]. simpl. intros c. lia. }
  rewrite (tryReserve_false chunk) by (done || lia).
  destruct (decide (cost - poolAvail d <= pool_remaining b)).
  { rewrite tryReserve_true by (done || lia).
    exists (set_pool (Some (mkPool (limit b) (pool_remaining b - (cost - poolAvail d))))
      (poolHeld d + (cost - poolAvail d)) (poolAvail d + (cost - poolAvail d) - cost) d). simpl. spl; try reflexivity; simpl; try lia.
    - do 2 f_equal. lia.
    - left. split; [reflexivity|]. simpl. intros c. lia. }
  rewrite tryReserve_false by (done || lia).
  exists (set_pool (Some b) (poolHeld d) (poolAvail d) d). simpl.
  spl; auto; try lia. right. split; [done|lia].
Qed.

(** ** Reading what was written

    [reads m bs need mem cost x]: on a source that starts with [bs] and has at
    least [need] bytes behind it, under budgets that cover [mem] and [cost], the
    operation [m] returns [x], consumes [bs] and spends exactly [mem], and at most
    [cost]. *)
Definition reads {A} (m : D A) (bs : list Z) (need mem cost : Z) (x : A) : Prop :=
  forall d rest, src d = bs ++ rest -> need <= zlen rest -> wire_ok d -> pool_ok d ->
    mem <= decodedRemaining d -> covers d cost ->
    exists d', m d = (inr x, d') /\ src d' = rest /\ wire_ok d' /\ pool_ok d' /\
      decodedRemaining d' = decodedRemaining d - mem /\
      pool_total d' = pool_total d /\
      (forall c, covers d (cost + c) -> covers d' c).

Lemma reads_ret {A} (x : A) : reads (mret x) [] 0 0 0 x.
Proof.
  intros d rest Hs _ Hw Hp _ _. exists d. simpl in Hs. spl; auto. lia.
Qed.

Lemma covers_le d c c' : c' <= c -> covers d c -> covers d c'.
Proof. unfold covers. case_match; lia. Qed.

Lemma reads_bind {A B} (m : D A) (f : A -> D B) x y bs1 bs2 n1 n2 m1 m2 c1 c2 :
  reads m bs1 n1 m1 c1 x -> reads (f x) bs2 n2 m2 c2 y ->
  n1 <= zlen bs2 + n2 -> 0 <= m2 -> 0 <= c2 ->
  reads (m ≫= f) (bs1 ++ bs2) n2 (m1 + m2) (c1 + c2) y.
Proof.
  intros H1 H2 Hn Hm Hc d rest Hs Hr Hw Hp Hmem Hcov.
  rewrite <- app_assoc in Hs.
  destruct (H1 d (bs2 ++ rest)) as (d1 & E1 & Hs1 & Hw1 & Hp1 & Hd1 & Ht1 & Hc1); auto.
  { unfold zlen in *. rewrite length_app. lia. }
  { lia. }
  { eapply covers_le; [|done]. lia. }
  destruct (H2 d1 rest) as (d2 & E2 & Hs2 & Hw2 & Hp2 & Hd2 & Ht2 & Hc2); auto; [lia|].
  exists d2. unfold mbind, D_bind. rewrite E1. spl; auto; try lia; try congruence.
  intros c Hc'. apply Hc2, Hc1. by rewrite Z.add_assoc.
Qed.

Lemma reads_eq {A} (m : D A) bs bs' n n' mem mem' cost cost' x :
  reads m bs n mem cost x -> bs = bs' -> n = n' -> mem = mem' -> cost = cost' ->
  reads m bs' n' mem' cost' x.
Proof. by intros H -> -> -> ->. Qed.

(** Sequencing an operation that only inspects the decoder. *)
Lemma reads_gets {A B} (g : Decoder -> A) (f : A -> D B) y bs n m c :
  (forall d, reads (f (g d)) bs n m c y) \/
  (forall d rest, src d = bs ++ rest -> n <= zlen rest -> wire_ok d -> pool_ok d ->
    m <= decodedRemaining d -> covers d c ->
    exists d', f (g d) d = (inr y, d') /\ src d' = rest /\ wire_ok d' /\ pool_ok d' /\
      decodedRemaining d' = decodedRemaining d - m /\ pool_total d' = pool_total d /\
      (forall c', covers d (c + c') -> covers d' c')) ->
  reads (gets g ≫= f) bs n m c y.
Proof.
  intros [H|H] d rest Hs Hn Hw Hp Hm Hc; unfold mbind, D_bind, gets; simpl; [by apply (H d)|auto].
Qed.

Lemma reads_readByte b : reads readByte [b] 0 0 0 b.
Proof.
  intros d rest Hs _ Hw Hp _ _. exists (consume 1 rest d). unfold readByte. rewrite Hs. simpl.
  destruct (wire_ok_consume [b] rest d Hs Hw) as [Hw' _]. spl; auto. lia.
Qed.

Lemma reads_readFull bs : reads (readFull (length bs)) bs 0 0 0 bs.
Proof.
  intros d rest Hs _ Hw Hp _ _. exists (consume (zlen bs) rest d). unfold readFull.
  rewrite Hs, take_bytes_app by done.
  destruct (wire_ok_consume bs rest d Hs Hw) as [Hw' ?]. spl; auto. simpl. lia.
Qed.

Lemma reads_readFull_n n bs : length bs = n -> reads (readFull n) bs 0 0 0 bs.
Proof. intros <-. apply reads_readFull. Qed.

Lemma reads_reserve cost : 0 <= cost -> reads (reserveShared cost) [] 0 0 cost tt.
Proof.
  intros H0 d rest Hs _ Hw Hp _ Hc. simpl in Hs.
  destruct (reserveShared_spec cost d Hp H0) as (d' & (E1 & E2 & E3 & E4) & Hp' & Ht & [[E Hcov]|[_ Hn]]);
    [|done].
  exists d'. rewrite E. spl; auto; try congruence.
  - unfold wire_ok, budget in *. by rewrite E1, E2, E3.
  - lia.
Qed.

Lemma reads_guard (b : bool) e : b = true -> reads (guard_or b e) [] 0 0 0 tt.
Proof. intros ->. apply reads_ret. Qed.

Lemma reads_guard_true {A} (f : D A) e bs need mem cost x :
  reads f bs need mem cost x -> reads (guard_or true e ≫= fun _ => f) bs need mem cost x.
Proof. intros H. exact H. Qed.

Lemma reads_charge n per base : 0 <= n -> 0 < per -> 0 <= base ->
  reads (chargeDecoded n per base) [] 0 (base + n * per) (base + n * per) tt.
Proof.
  intros Hn Hper Hb d rest Hs _ Hw Hp Hm Hc. simpl in Hs.
  unfold chargeDecoded, mbind, D_bind, gets, id. simpl.
  assert ((decodedRemaining d - base <? 0) || (Z.quot (decodedRemaining d - base) per <? n) = false) as ->.
  { rewrite Z.quot_div_nonneg by nia. apply orb_false_iff. split; apply Z.ltb_ge; [nia|].
    apply Z.div_le_lower_bound; nia. }
  destruct (reads_reserve (base + n * per) ltac:(nia) d rest) as
    (d' & E & Hs' & Hw' & Hp' & Hd' & Ht' & Hc'); auto; [unfold zlen; lia|nia|].
  unfold mbind, D_bind. rewrite E. unfold modify.
  eexists; split; [reflexivity|]. spl; auto. simpl. lia.
Qed.

(** [n] is within the wire budget when that many bytes are still to come. *)
Lemma reads_budget {B} (e : dec_err) (k : Z -> Z) (f : D B) n y bs nd m c :
  (forall b, zlen bs + nd <= b -> n <= k b) ->
  reads f bs nd m c y ->
  reads (gets budget ≫= fun bud => guard_or (n <=? k bud) e ≫= fun _ => f) bs nd m c y.
Proof.
  intros Hk Hf. apply reads_gets. right. intros d rest Hs Hn Hw Hp Hm Hc.
  assert ((n <=? k (budget d)) = true) as ->.
  { apply Z.leb_le, Hk. unfold wire_ok in Hw. rewrite Hs in Hw. unfold zlen in *.
    rewrite length_app in Hw. lia. }
  by apply (Hf d rest).
Qed.

(** ** Writers *)

(** The writer appends [bs], whatever is already there. *)
Definition writes (w : W) (bs : list Z) : Prop := forall out, w out = (out ++ bs, None).

Lemma writes_emit bs : writes (emit bs) bs.
Proof. done. Qed.

Lemma writes_nop : writes wnop [].
Proof. intros out. by rewrite app_nil_r. Qed.

Lemma writes_seq w1 w2 b1 b2 : writes w1 b1 -> writes w2 b2 -> writes (w1 ;;; w2) (b1 ++ b2).
Proof. intros H1 H2 out. unfold wseq. by rewrite H1, H2, app_assoc. Qed.

(** The bytes of a length behind its 8-, 16- or 32-bit marker. *)
Definition length_bytes (m8 m16 m32 n : Z) : Z * list Z :=
  if n <=? MaxUint8 then (m8, [n])
  else if n <=? MaxUint16 then (m16, putBE 2 n)
  else (m32, putBE 4 n).

Lemma sized_small n : sized n -> u8 n = n mod 256 /\ u32 n = n /\ u64 n = n.
Proof.
  unfold sized, wire32MaxLen, u8, u32, u64. intros.
  split; [done|]. rewrite (Z.mod_small n (2 ^ 32)), (Z.mod_small n (2 ^ 64)) by lia. done.
Qed.

Lemma writes_length m8 m16 m32 n : sized n ->
  let h := length_bytes m8 m16 m32 n in writes (write_length m8 m16 m32 n) (fst h :: snd h).
Proof.
  intros Hn h out. destruct (sized_small n Hn) as (E8 & E32 & E64). unfold sized, wire32MaxLen in Hn.
  unfold h, write_length, length_bytes, checkUint32Length, MaxUint8, MaxUint16, MaxUint32 in *.
  destruct (Z.leb_spec n 255).
  { unfold wseq, writeByte, emit. rewrite E8, Z.mod_small, <- app_assoc by lia. done. }
  destruct (Z.leb_spec n 65535).
  { unfold wseq, writeByte, emit, u16. rewrite Z.mod_small, <- app_assoc by lia. done. }
  rewrite E32, E64. destruct (Z.ltb_spec (2 ^ 32 - 1) n); [lia|].
  unfold wseq, wnop, writeByte, emit. by rewrite <- app_assoc.
Qed.

Lemma reads_len32 n : sized n -> reads readLen32 (putBE 4 n) 0 0 0 n.
Proof.
  intros Hn. rewrite <- (app_nil_r (putBE 4 n)).
  eapply (reads_bind _ _ _ _ _ [] 0 0 0 0 0 0); [apply reads_readFull_n, length_putBE| |by vm_compute..].
  cbv beta zeta. unfold sized, wire32MaxLen in *. rewrite getBE_putBE by (change (width 4) with (2 ^ 32); lia).
  destruct (Z.ltb_spec (2 ^ 31 - 1) n); [lia|]. apply reads_ret.
Qed.

Lemma reads_length m8 m16 m32 n : sized n -> m8 <> m16 -> m8 <> m32 -> m16 <> m32 ->
  let h := length_bytes m8 m16 m32 n in reads (read_length m8 m16 m32 (fst h)) (snd h) 0 0 0 n.
Proof.
  intros Hn H1 H2 H3 h. unfold h, length_bytes, MaxUint8, MaxUint16, read_length.
  unfold sized, wire32MaxLen in Hn.
  destruct (Z.leb_spec n 255); simpl.
  { rewrite Z.eqb_refl. apply reads_readByte. }
  destruct (Z.leb_spec n 65535); simpl.
  { destruct (Z.eqb_spec m16 m8); [done|]. rewrite Z.eqb_refl.
    rewrite <- (app_nil_r (putBE 2 n)).
    eapply (reads_bind _ _ _ _ _ [] 0 0 0 0 0 0); [apply reads_readFull_n, length_putBE| |by vm_compute..].
    rewrite getBE_putBE by (change (width 2) with 65536; lia). apply reads_ret. }
  destruct (Z.eqb_spec m32 m8); [done|]. destruct (Z.eqb_spec m32 m16); [done|].
  rewrite Z.eqb_refl. by apply reads_len32.
Qed.

(** ** Headers

    A string, list or map header: a tiny marker carrying the length, or the
    length ladder. *)
Section header.
Variables base m8 m16 m32 : Z.

Definition head_bytes (n : Z) : Z * list Z :=
  if n <=? 15 then (base + n, []) else length_bytes m8 m16 m32 n.

(** The three bases have four clear low bits, and their tiny range holds no
    sized marker. *)
Definition header_ok : Prop :=
  (base = tinyStrBase \/ base = tinyListBase \/ base = tinyMapBase \/ base = tinyStructBase) /\
  m8 <> m16 /\ m8 <> m32 /\ m16 <> m32 /\ base + 15 < m8 /\ base + 15 < m16 /\ base + 15 < m32.

Lemma tiny_bits n : header_ok -> 0 <= n <= 15 ->
  Z.lor base (u8 n) = base + n /\ Z.land (base + n) 0x0F = n /\ tiny base 15 (base + n) = true.
Proof.
  intros [Hb _] Hn. pattern n. revert Hn. cut (forall k, 0 <= k < Z.of_nat 16 ->
    Z.lor base (u8 k) = base + k /\ Z.land (base + k) 0x0F = k /\ tiny base 15 (base + k) = true).
  { intros H Hk. apply H. lia. }
  apply (small_range _). destruct Hb as [->|[->|[->| ->]]]; by vm_compute.
Qed.

Lemma writes_head n : header_ok -> sized n ->
  writes (if n <=? 15 then writeByte (Z.lor base (u8 n)) else write_length m8 m16 m32 n)
    (fst (head_bytes n) :: snd (head_bytes n)).
Proof.
  intros Hh Hn. unfold head_bytes. destruct (Z.leb_spec n 15).
  - destruct (tiny_bits n Hh) as (-> & _); [unfold sized in Hn; lia|]. apply writes_emit.
  - by apply writes_length.
Qed.

Lemma reads_head n : header_ok -> sized n ->
  let b := fst (head_bytes n) in
  reads (if tiny base 15 b then mret (Z.land b 0x0F) else read_length m8 m16 m32 b)
    (snd (head_bytes n)) 0 0 0 n.
Proof.
  intros Hh Hn. unfold head_bytes. destruct (Z.leb_spec n 15); simpl.
  - destruct (tiny_bits n Hh) as (_ & -> & ->); [unfold sized in Hn; lia|]. apply reads_ret.
  - destruct Hh as (_ & ? & ? & ? & ? & ? & ?).
    assert (tiny base 15 (fst (length_bytes m8 m16 m32 n)) = false) as ->.
    { unfold tiny, length_bytes. apply andb_false_iff. right. apply Z.leb_gt.
      repeat case_match; simpl; lia. }
    by apply reads_length.
Qed.
End header.

Lemma str_header_ok : header_ok tinyStrBase markerStr8 markerStr16 markerStr32.
Proof. repeat split; auto; by vm_compute. Qed.
Lemma list_header_ok : header_ok tinyListBase markerList8 markerList16 markerList32.
Proof. repeat split; auto; by vm_compute. Qed.
Lemma map_header_ok : header_ok tinyMapBase markerMap8 markerMap16 markerMap32.
Proof. repeat split; auto; by vm_compute. Qed.

(** ** Scalars *)

(** [m] starts by reading one byte and dispatching on it. *)
Lemma reads_byte_bind {A} (f : Z -> D A) b bs need mem cost x :
  0 <= mem -> 0 <= cost -> 0 <= zlen bs + need ->
  reads (f b) bs need mem cost x -> reads (readByte ≫= f) (b :: bs) need mem cost x.
Proof.
  intros H1 H2 H3 H. change (b :: bs) with ([b] ++ bs).
  rewrite <- (Z.add_0_l mem), <- (Z.add_0_l cost). eapply reads_bind; eauto.
  apply reads_readByte.
Qed.

Lemma reads_fixed {A} n bs (g : list Z -> A) : length bs = n ->
  reads (readFull n ≫= fun l => mret (g l)) bs 0 0 0 (g bs).
Proof.
  intros Hl. rewrite <- (app_nil_r bs).
  eapply (reads_bind _ _ _ _ _ [] 0 0 0 0 0 0);
    [by apply reads_readFull_n|rewrite app_nil_r; apply reads_ret|by vm_compute..].
Qed.

(** The bytes [WriteInt] emits. *)
Definition int_bytes (v : Z) : Z * list Z :=
  if (tinyIntLow <=? v) && (v <=? tinyIntHigh) then (u8 v, [])
  else if (- 2 ^ 7 <=? v) && (v <=? 2 ^ 7 - 1) then (markerInt8, [u8 v])
  else if (- 2 ^ 15 <=? v) && (v <=? 2 ^ 15 - 1) then (markerInt16, putBE 2 (u16 v))
  else if (- 2 ^ 31 <=? v) && (v <=? 2 ^ 31 - 1) then (markerInt32, putBE 4 (u32 v))
  else (markerInt64, putBE 8 (u64 v)).

Lemma writes_int v : writes (WriteInt v) (fst (int_bytes v) :: snd (int_bytes v)).
Proof.
  intros out. unfold WriteInt, int_bytes, wseq, writeByte, emit.
  repeat case_match; simpl; by rewrite <- ?app_assoc.
Qed.

Lemma getBE_wrap w n v : (0 < n)%nat -> w = 8 * Z.of_nat n -> - 2 ^ (w - 1) <= v < 2 ^ (w - 1) ->
  signed w (getBE (putBE n (v mod 2 ^ w))) = v.
Proof.
  intros Hn -> Hv. rewrite getBE_putBE.
  - apply signed_wrap; [lia|done].
  - apply Z.mod_pos_bound, Z.pow_pos_nonneg; lia.
Qed.

(** Which type the first byte announces, and that it is the right one. *)
Lemma int_bytes_type v : int64 v -> markerToType (fst (int_bytes v)) = TypeInt.
Proof.
  intros Hv. unfold int_bytes, tinyIntLow, tinyIntHigh.
  destruct ((-16 <=? v) && (v <=? 127)) eqn:E; [|by repeat case_match].
  bool_to_prop. simpl. unfold markerToType, u8. destruct (decide (0 <= v)).
  - rewrite Z.mod_small by lia. by destruct (Z.leb_spec v 0x7F); [|lia].
  - assert (v mod 2 ^ 8 = v + 256) as ->.
    { symmetry. apply (Z.mod_unique_pos v (2 ^ 8) (-1)); lia. }
    destruct (Z.leb_spec (v + 256) 0x7F); [lia|].
    by destruct (Z.leb_spec 0xF0 (v + 256)); [|lia].
Qed.

Lemma reads_int v : int64 v ->
  reads ReadInt (fst (int_bytes v) :: snd (int_bytes v)) 0 0 0 v.
Proof.
  intros Hv. pose proof (int_bytes_type v Hv) as Ht. unfold int64 in Hv.
  apply reads_byte_bind; [lia..|unfold zlen; lia|].
  unfold int_bytes, tinyIntLow, tinyIntHigh in *.
  destruct ((-16 <=? v) && (v <=? 127)) eqn:E0.
  { bool_to_prop. simpl in *.
    assert (Hw : signed 8 (u8 v) = v) by (apply signed_wrap; lia).
    assert (Hb : u8 v <= 127 \/ 240 <= u8 v).
    { unfold u8. destruct (decide (0 <= v)); [rewrite Z.mod_small by lia; lia|].
      assert (v mod 2 ^ 8 = v + 256) as ->; [|lia].
      symmetry. apply (Z.mod_unique_pos v (2 ^ 8) (-1)); lia. }
    unfold markerInt8, markerInt16, markerInt32, markerInt64.
    destruct (Z.eqb_spec (u8 v) 200), (Z.eqb_spec (u8 v) 201), (Z.eqb_spec (u8 v) 202),
      (Z.eqb_spec (u8 v) 203); try lia.
    assert ((u8 v <=? 127) || (240 <=? u8 v) = true) as ->.
    { apply orb_true_iff. rewrite !Z.leb_le. lia. }
    rewrite Hw. apply reads_ret. }
  destruct ((- 2 ^ 7 <=? v) && (v <=? 2 ^ 7 - 1)) eqn:E1.
  { bool_to_prop. simpl. rewrite <- (signed_wrap 8 v) at 2 by lia.
    apply reads_byte_bind; [lia..|by vm_compute|apply reads_ret]. }
  destruct ((- 2 ^ 15 <=? v) && (v <=? 2 ^ 15 - 1)) eqn:E2.
  { bool_to_prop. simpl. rewrite <- (getBE_wrap 16 2 v) at 2 by lia.
    apply (reads_fixed 2 _ (fun bs => signed 16 (getBE bs))), length_putBE. }
  destruct ((- 2 ^ 31 <=? v) && (v <=? 2 ^ 31 - 1)) eqn:E3.
  { bool_to_prop. simpl. rewrite <- (getBE_wrap 32 4 v) at 2 by lia.
    apply (reads_fixed 4 _ (fun bs => signed 32 (getBE bs))), length_putBE. }
  simpl. rewrite <- (getBE_wrap 64 8 v) at 2 by lia.
  apply (reads_fixed 8 _ (fun bs => signed 64 (getBE bs))), length_putBE.
Qed.

Lemma reads_float f : 0 <= f < 2 ^ 64 ->
  reads ReadFloat (markerFloat64 :: putBE 8 f) 0 0 0 f.
Proof.
  intros Hf. apply reads_byte_bind; [lia..|by vm_compute|]. simpl.
  rewrite <- (getBE_putBE 8 f) at 2 by done. apply reads_fixed, length_putBE.
Qed.

(** ** Sized payloads *)

Lemma reads_payload l : reads (read_payload (zlen l)) l 0 0 (zlen l) l.
Proof.
  unfold read_payload. apply (reads_budget _ (fun b => b)); [unfold zlen; lia|].
  eapply reads_eq; [eapply (reads_bind _ _ _ _ [] l 0 0 0 0 (zlen l) 0)|..];
    [apply reads_reserve, zlen_nonneg| |unfold zlen; lia..|done|done|done|apply Z.add_0_r].
  apply reads_readFull_n. unfold zlen. by rewrite Nat2Z.id.
Qed.

Definition str_bytes (l : list Z) : list Z :=
  let h := head_bytes tinyStrBase markerStr8 markerStr16 markerStr32 (zlen l) in
  fst h :: snd h ++ l.

Lemma writes_string l : sized (zlen l) -> writes (WriteString l) (str_bytes l).
Proof.
  intros Hl. unfold WriteString, str_bytes.
  apply (writes_seq _ _ (_ :: _) l); [|apply writes_emit].
  apply (writes_head _ _ _ _ _ str_header_ok Hl).
Qed.

Lemma reads_string l : sized (zlen l) -> reads ReadString (str_bytes l) 0 0 (zlen l) l.
Proof.
  intros Hl. unfold str_bytes. pose proof (zlen_nonneg l).
  apply reads_byte_bind; [lia..|unfold zlen; lia|].
  eapply reads_eq; [eapply (reads_bind _ _ _ _ _ l 0 0 0 0 0 (zlen l))|..];
    [apply (reads_head _ _ _ _ _ str_header_ok Hl)| |lia..|done|done|done|apply Z.add_0_l].
  destruct (Z.eqb_spec (zlen l) 0) as [E|E]; [|apply reads_payload].
  destruct l; [apply reads_ret|done].
Qed.

Definition blob_bytes (l : list Z) : list Z :=
  let h := length_bytes markerBytes8 markerBytes16 markerBytes32 (zlen l) in
  fst h :: snd h ++ l.

Lemma writes_blob l : sized (zlen l) -> writes (WriteBytes l) (blob_bytes l).
Proof.
  intros Hl. unfold WriteBytes, blob_bytes.
  apply (writes_seq _ _ (_ :: _) l); [by apply writes_length|apply writes_emit].
Qed.

Lemma reads_blob l : sized (zlen l) -> reads ReadBytes (blob_bytes l) 0 0 (zlen l) l.
Proof.
  intros Hl. unfold blob_bytes. pose proof (zlen_nonneg l).
  apply reads_byte_bind; [lia..|unfold zlen; lia|].
  eapply reads_eq; [eapply (reads_bind _ _ _ _ _ l 0 0 0 0 0 (zlen l))|..];
    [by apply reads_length| |lia..|done|done|done|apply Z.add_0_l].
  apply reads_payload.
Qed.

(** ** Dispatch *)

Lemma reads_peek {A} (f : Type_ -> D A) b bs need mem cost x :
  reads (f (markerToType b)) (b :: bs) need mem cost x ->
  reads (PeekType ≫= f) (b :: bs) need mem cost x.
Proof.
  intros H d rest Hs Hn Hw Hp Hm Hc. destruct (H d rest Hs Hn Hw Hp Hm Hc) as (d' & E & Hr).
  exists d'. split; [|done]. rewrite <- E. unfold PeekType, peekByte, mbind, D_bind, mret, D_ret.
  by rewrite Hs.
Qed.

Lemma reads_map {A B} (m : D A) (g : A -> B) bs need mem cost x :
  0 <= mem -> 0 <= cost -> 0 <= need ->
  reads m bs need mem cost x -> reads (m ≫= fun y => mret (g y)) bs need mem cost (g x).
Proof.
  intros H1 H2 H3 H. eapply reads_eq; [eapply (reads_bind _ _ _ _ bs [] need need mem 0 cost 0)|..];
    [done| |unfold zlen; simpl; lia|lia|lia|by rewrite app_nil_r|lia..].
  intros d rest Hs _ Hw Hp _ _. exists d. spl; auto. lia.
Qed.

(** The first byte of a header announces its kind. *)
Lemma head_type_cases base m8 m16 m32 n t : 0 <= n ->
  (forall k, 0 <= k <= 15 -> markerToType (base + k) = t) ->
  markerToType m8 = t -> markerToType m16 = t -> markerToType m32 = t ->
  markerToType (fst (head_bytes base m8 m16 m32 n)) = t.
Proof.
  intros Hn Ht H8 H16 H32. unfold head_bytes, length_bytes. destruct (Z.leb_spec n 15).
  - apply Ht. lia.
  - by repeat case_match.
Qed.

(** The sixteen tiny markers of a kind announce it. *)
Lemma tiny_type base t : forallb (fun i => bool_decide (markerToType (base + Z.of_nat i) = t))
    (seq 0 16) = true ->
  forall k, 0 <= k <= 15 -> markerToType (base + k) = t.
Proof. intros H k Hk. apply (small_range (fun z => markerToType (base + z) = t) 16 H). lia. Qed.

Lemma str_type n : 0 <= n ->
  markerToType (fst (head_bytes tinyStrBase markerStr8 markerStr16 markerStr32 n)) = TypeString.
Proof. intros. apply head_type_cases; [done|apply tiny_type; by vm_compute|by vm_compute..]. Qed.

Lemma list_type n : 0 <= n ->
  markerToType (fst (head_bytes tinyListBase markerList8 markerList16 markerList32 n)) = TypeList.
Proof. intros. apply head_type_cases; [done|apply tiny_type; by vm_compute|by vm_compute..]. Qed.

Lemma map_type n : 0 <= n ->
  markerToType (fst (head_bytes tinyMapBase markerMap8 markerMap16 markerMap32 n)) = TypeMap.
Proof. intros. apply head_type_cases; [done|apply tiny_type; by vm_compute|by vm_compute..]. Qed.

Lemma struct_type k : 0 <= k <= 15 -> markerToType (tinyStructBase + k) = TypeStruct.
Proof. apply tiny_type. by vm_compute. Qed.

Lemma blob_type n : markerToType (fst (length_bytes markerBytes8 markerBytes16 markerBytes32 n)) = TypeBytes.
Proof. unfold length_bytes. by repeat case_match. Qed.

(** ** Collection headers *)

Lemma reads_header base m8 m16 m32 n (k : Z -> Z) per cbase (need : Z) e : header_ok base m8 m16 m32 ->
  sized n -> 0 < per -> 0 <= cbase -> 0 <= need -> (forall b, need <= b -> n <= k b) ->
  let h := head_bytes base m8 m16 m32 n in
  reads (b ← readByte;
         n ← (if tiny base 15 b then mret (Z.land b 0x0F) else read_length m8 m16 m32 b);
         bud ← gets budget;
         guard_or (n <=? k bud) e ;;
         chargeDecoded n per cbase ;;
         mret n)
    (fst h :: snd h) need (cbase + n * per) (cbase + n * per) n.
Proof.
  intros Hh Hn Hper Hcb Hneed Hk h. assert (0 <= n) by (unfold sized in Hn; lia).
  assert (0 <= n * per) by nia.
  apply reads_byte_bind; [lia|lia|unfold zlen; lia|].
  eapply reads_eq; [eapply (reads_bind _ _ _ _ _ [] 0 need 0 (cbase + n * per) 0 (cbase + n * per))|..];
    [by apply reads_head| |unfold zlen; simpl; lia|lia|lia|by rewrite app_nil_r|lia..].
  apply (reads_budget e k). { intros b Hb. apply Hk. unfold zlen in Hb. simpl in Hb. lia. }
  intros d rest Hs Hr Hw Hp Hm Hc.
  apply (reads_map (chargeDecoded n per cbase) (fun _ => n) [] 0 _ _ tt); auto; try lia.
  apply reads_charge; lia.
Qed.

Lemma reads_list_header n : sized n ->
  let h := head_bytes tinyListBase markerList8 markerList16 markerList32 n in
  reads ReadListHeader (fst h :: snd h) n (collectionCost + n * listElemCost)
    (collectionCost + n * listElemCost) n.
Proof.
  intros Hn. assert (0 <= n) by (unfold sized in Hn; lia).
  apply (reads_header _ _ _ _ n (fun b => b));
    [apply list_header_ok|done|by vm_compute|by vm_compute|lia|done].
Qed.

Lemma reads_map_header n : sized n ->
  let h := head_bytes tinyMapBase markerMap8 markerMap16 markerMap32 n in
  reads ReadMapHeader (fst h :: snd h) (2 * n) (mapCollectionCost + n * mapEntryCost)
    (mapCollectionCost + n * mapEntryCost) n.
Proof.
  intros Hn. assert (0 <= n) by (unfold sized in Hn; lia).
  apply (reads_header _ _ _ _ n (fun b => Z.quot b 2));
    [apply map_header_ok|done|by vm_compute|by vm_compute|lia|].
  intros b Hb. rewrite Z.quot_div_nonneg by lia. apply Z.div_le_lower_bound; lia.
Qed.

Lemma reads_struct_header tag n : is_byte tag -> 0 <= n <= 15 ->
  reads ReadStructHeader [tinyStructBase + n; tag] n (collectionCost + n * listElemCost)
    (collectionCost + n * listElemCost) (tag, n).
Proof.
  intros Ht Hn. unfold ReadStructHeader.
  assert (0 <= collectionCost + n * listElemCost) by (unfold collectionCost, listElemCost; lia).
  apply reads_byte_bind; [lia|lia|unfold zlen; simpl; lia|].
  destruct (tiny_bits tinyStructBase 0xF0 0xF1 0xF2 n) as (_ & El & Etn); [|lia|].
  { repeat split; auto; by vm_compute. }
  assert (negb ((tinyStructBase + n <? tinyStructBase) ||
    (tinyStructBase + tinyStructMax <? tinyStructBase + n)) = true) as ->.
  { apply negb_true_iff, orb_false_iff. rewrite !Z.ltb_ge. unfold tinyStructMax. lia. }
  cbv zeta. rewrite El. apply reads_guard_true.
  apply reads_byte_bind; [lia|lia|unfold zlen; simpl; lia|].
  apply (reads_budget ELengthExceedsInput (fun b => b)); [unfold zlen; simpl; lia|].
  intros d rest Hs Hr Hw Hp Hm Hc.
  apply (reads_map (chargeDecoded n listElemCost collectionCost) (fun _ => (tag, n)) [] 0 _ _ tt);
    auto; try lia. apply reads_charge; first [lia|by vm_compute].
Qed.

Lemma writes_struct_header tag n : 0 <= n <= 15 ->
  writes (WriteStructHeader tag n) [tinyStructBase + n; tag].
Proof.
  intros Hn. unfold WriteStructHeader, tinyStructMax.
  destruct (Z.ltb_spec n 0), (Z.ltb_spec 15 n); try lia. simpl.
  destruct (tiny_bits tinyStructBase 0xF0 0xF1 0xF2 n) as (-> & _); [|lia|].
  { repeat split; auto; by vm_compute. }
  apply (writes_seq _ _ [_] [_]); apply writes_emit.
Qed.

(** ** Collections *)

(** The codec on one value at one depth, and on the entries of a map. *)
Definition codec_ok (fuel : nat) (v : Value) (bs : list Z) : Prop :=
  bs <> [] /\ writes (writeValue fuel v) bs /\
  reads (readValue fuel) bs 0 (mem_cost v) (pool_cost v) (norm v).

Lemma costs_nonneg fuel : forall v, wfv fuel v -> 0 <= mem_cost v /\ 0 <= pool_cost v.
Proof.
  assert (Hs : forall (l : list Z), Forall (fun z => 0 <= z) l -> 0 <= zlist_sum l)
    by (induction 1; simpl; lia).
  induction fuel as [|fuel IH]; intros v H; [done|].
  destruct v; simpl in *; try (pose proof (zlen_nonneg l)); try lia;
    unfold collectionCost, listElemCost, mapCollectionCost, mapEntryCost.
  - destruct H as [_ H]. split; apply Z.add_nonneg_nonneg; try lia;
      apply Hs, Forall_map; (eapply Forall_impl; [exact H|]); intros x Hx; by apply IH.
  - destruct H as (_ & _ & H). pose proof (zlen_nonneg m).
    split; apply Z.add_nonneg_nonneg; try lia;
      apply Hs, Forall_map; (eapply Forall_impl; [exact H|]); intros [k x] (_ & _ & Hw); simpl;
      destruct (IH x Hw); pose proof (zlen_nonneg k); lia.
  - destruct H as (_ & _ & H). pose proof (zlen_nonneg fields).
    split; apply Z.add_nonneg_nonneg; try lia;
      apply Hs, Forall_map; (eapply Forall_impl; [exact H|]); intros x Hx; by apply IH.
Qed.

Lemma items_ok fuel l : Forall (wfv fuel) l -> (forall v, wfv fuel v -> exists bs, codec_ok fuel v bs) ->
  exists bs, zlen l <= zlen bs /\ writes (wall (map (writeValue fuel) l)) bs /\
    reads (read_items (length l) (readValue fuel)) bs 0 (zlist_sum (map mem_cost l))
      (zlist_sum (map pool_cost l)) (map norm l) /\
    0 <= zlist_sum (map mem_cost l) /\ 0 <= zlist_sum (map pool_cost l).
Proof.
  intros Hl IH. induction Hl as [|v l Hv _ (bs & Hn & Hw & Hr & Hm & Hp)].
  { exists []. spl; try done. - apply writes_nop. - apply reads_ret. }
  destruct (IH v Hv) as (b & Hb & Hwb & Hrb). destruct (costs_nonneg fuel v Hv).
  exists (b ++ bs). spl; simpl; try lia.
  - unfold zlen in *. rewrite length_app. destruct b; [done|]. simpl. lia.
  - by apply writes_seq.
  - eapply reads_bind; [exact Hrb| |unfold zlen; lia|lia|lia].
    apply reads_map; try lia. done.
Qed.

Lemma map_set_fresh k v m : k ∉ map fst m -> map_set k v m = m ++ [(k, v)].
Proof.
  induction m as [|[k' v'] m IH]; intros Hk; simpl; [done|].
  rewrite decide_False by (intros ->; apply Hk; left). rewrite IH; [done|].
  intros Hin. apply Hk. by right.
Qed.

Definition norm_entry (kv : list Z * Value) := (fst kv, norm (snd kv)).

Lemma entries_ok fuel m : forall acc,
  Forall (fun kv => bytes (fst kv) /\ sized (zlen (fst kv)) /\ wfv fuel (snd kv)) m ->
  NoDup (map fst acc ++ map fst m) ->
  (forall v, wfv fuel v -> exists bs, codec_ok fuel v bs) ->
  exists bs, 2 * zlen m <= zlen bs /\
    writes (wall (map (fun kv => WriteString (fst kv) ;;; writeValue fuel (snd kv)) m)) bs /\
    reads (read_entries (length m) (readValue fuel) acc) bs 0
      (zlist_sum (map (fun kv => mem_cost (snd kv)) m))
      (zlist_sum (map (fun kv => zlen (fst kv) + pool_cost (snd kv)) m))
      (acc ++ map norm_entry m) /\
    0 <= zlist_sum (map (fun kv => mem_cost (snd kv)) m) /\
    0 <= zlist_sum (map (fun kv => zlen (fst kv) + pool_cost (snd kv)) m).
Proof.
  induction m as [|[k v] m IHm]; intros acc Hm Hnd IH.
  { exists []. rewrite app_nil_r. spl; try done. - apply writes_nop. - apply reads_ret. }
  inversion Hm as [|? ? (Hk & Hks & Hv) Hm']; subst. simpl in Hk, Hks, Hv.
  destruct (IH v Hv) as (b & Hb & Hwb & Hrb). destruct (costs_nonneg fuel v Hv).
  assert (Hfresh : k ∉ map fst acc).
  { apply NoDup_app in Hnd as (_ & Hd & _). intros Hin. by eapply Hd; [|left]. }
  destruct (IHm (acc ++ [(k, norm v)])) as (bs & Hn & Hw & Hr & Hmm & Hpp); [done| |done|].
  { rewrite map_app. simpl. by rewrite <- app_assoc. }
  exists (str_bytes k ++ b ++ bs). pose proof (zlen_nonneg k). spl; [| | |simpl; lia|simpl; lia].
  - unfold zlen, str_bytes in *. destruct b; [done|].
    repeat (simpl; rewrite ?length_app). lia.
  - rewrite app_assoc. apply (writes_seq (WriteString k ;;; writeValue fuel v)); [|done].
    apply writes_seq; [by apply writes_string|done].
  - eapply reads_eq; [eapply (reads_bind _ _ k _ _ (b ++ bs) 0 0 0 _ (zlen k));
      [by apply reads_string| |..]|..].
    + eapply (reads_bind _ _ (norm v) _ b bs 0 0); [exact Hrb| |unfold zlen; lia|exact Hmm|exact Hpp].
      rewrite map_set_fresh by done. by rewrite <- app_assoc in Hr.
    + unfold zlen; lia.
    + lia.
    + lia.
    + done.
    + done.
    + done.
    + simpl. lia.
Qed.

(** The decoder's dispatch, once the type is known. *)
Definition read_kind (fuel : nat) (t : Type_) : D Value :=
  match t with
  | TypeNull => ReadNull ;; mret VNull
  | TypeBool => b ← ReadBool; mret (VBool b)
  | TypeInt => z ← ReadInt; mret (VInt z)
  | TypeFloat => f ← ReadFloat; mret (VFloat f)
  | TypeBytes => l ← ReadBytes; mret (VBytes l)
  | TypeString => l ← ReadString; mret (VString l)
  | TypeList =>
      n ← ReadListHeader;
      l ← read_items (Z.to_nat n) (readValue fuel); mret (VList l)
  | TypeMap =>
      n ← ReadMapHeader;
      m ← read_entries (Z.to_nat n) (readValue fuel) []; mret (VMap m)
  | TypeStruct =>
      h ← ReadStructHeader;
      l ← read_items (Z.to_nat (snd h)) (readValue fuel); mret (VStruct (fst h) l)
  end.

Lemma readValue_S fuel : readValue (S fuel) = (t ← PeekType; read_kind fuel t).
Proof. reflexivity. Qed.

Lemma codec_kind fuel v b bs t : markerToType b = t -> writes (writeValue (S fuel) v) (b :: bs) ->
  reads (read_kind fuel t) (b :: bs) 0 (mem_cost v) (pool_cost v) (norm v) ->
  codec_ok (S fuel) v (b :: bs).
Proof.
  intros <- Hw Hr. split; [done|]. split; [done|]. rewrite readValue_S. by apply reads_peek.
Qed.

Theorem codec_wfv fuel : forall v, wfv fuel v -> exists bs, codec_ok fuel v bs.
Proof.
  induction fuel as [|fuel IH]; intros v Hv; [done|]. destruct v; simpl in Hv; try done.
  - exists [markerNull]. eapply (codec_kind _ _ _ _ TypeNull); [done|apply writes_emit|].
    apply (reads_map ReadNull (fun _ => VNull) _ 0 0 0 tt); [lia..|].
    apply reads_byte_bind; [lia..|by vm_compute|apply reads_ret].
  - exists [if b then markerTrue else markerFalse].
    eapply (codec_kind _ _ _ _ TypeBool); [by destruct b|destruct b; apply writes_emit|].
    apply (reads_map ReadBool VBool _ 0 0 0 b); [lia..|].
    apply reads_byte_bind; [lia..|by vm_compute|destruct b; apply reads_ret].
  - eexists. eapply (codec_kind _ _ _ _ TypeInt); [by apply int_bytes_type|apply writes_int|].
    apply (reads_map ReadInt VInt _ 0 0 0 z); [lia..|by apply reads_int].
  - eexists. eapply (codec_kind _ _ _ _ TypeInt); [by apply int_bytes_type|apply writes_int|].
    apply (reads_map ReadInt VInt _ 0 0 0 z); [lia..|by apply reads_int].
  - eexists. eapply (codec_kind _ _ _ _ TypeInt); [by apply int_bytes_type|apply writes_int|].
    apply (reads_map ReadInt VInt _ 0 0 0 z); [lia..|by apply reads_int].
  - eexists. eapply (codec_kind _ _ _ _ TypeFloat); [|
      apply (writes_seq _ _ [_] (putBE 8 bits)); apply writes_emit|]; [done|].
    apply (reads_map ReadFloat VFloat _ 0 0 0 bits); [lia..|by apply reads_float].
  - destruct Hv as [_ Hl]. eexists. eapply (codec_kind _ _ _ _ TypeBytes);
      [apply blob_type|by apply writes_blob|].
    apply (reads_map ReadBytes VBytes _ 0 0 (zlen l) l); [lia|apply zlen_nonneg|lia|by apply reads_blob].
  - destruct Hv as [_ Hl]. eexists. eapply (codec_kind _ _ _ _ TypeString);
      [apply (str_type _ (zlen_nonneg l))|by apply writes_string|].
    apply (reads_map ReadString VString _ 0 0 (zlen l) l); [lia|apply zlen_nonneg|lia|by apply reads_string].
  - destruct Hv as [Hl Hf]. destruct (items_ok fuel l Hf IH) as (bs & Hn & Hw & Hr & Hm & Hp).
    eexists (_ :: _ ++ bs). eapply (codec_kind _ _ _ _ TypeList); [apply (list_type _ (zlen_nonneg l))| |].
    { apply (writes_seq _ _ (_ :: _)); [|done]. unfold WriteListHeader.
      destruct (Z.ltb_spec (Z.of_nat (length l)) 0); [lia|].
      apply (writes_head _ _ _ _ _ list_header_ok Hl). }
    apply (reads_bind _ _ (zlen l) _ (_ :: _) bs (zlen l) 0 _ _ _ _ (reads_list_header _ Hl));
      [|lia|exact Hm|exact Hp].
    unfold zlen at 1. rewrite Nat2Z.id.
    apply (reads_map (read_items (length l) (readValue fuel)) VList _ 0 _ _ (map norm l)); auto; lia.
  - destruct Hv as (Hl & Hnd & Hf).
    destruct (entries_ok fuel m [] Hf Hnd IH) as (bs & Hn & Hw & Hr & Hm & Hp).
    eexists (_ :: _ ++ bs). eapply (codec_kind _ _ _ _ TypeMap); [apply (map_type _ (zlen_nonneg m))| |].
    { apply (writes_seq _ _ (_ :: _)); [|done]. unfold WriteMapHeader.
      destruct (Z.ltb_spec (Z.of_nat (length m)) 0); [lia|].
      apply (writes_head _ _ _ _ _ map_header_ok Hl). }
    apply (reads_bind _ _ (zlen m) _ (_ :: _) bs (2 * zlen m) 0 _ _ _ _ (reads_map_header _ Hl));
      [|lia|exact Hm|exact Hp].
    unfold zlen at 1. rewrite Nat2Z.id.
    apply (reads_map (read_entries (length m) (readValue fuel) []) VMap _ 0 _ _ _); auto; lia.
  - destruct Hv as (Ht & Hl & Hf). pose proof (zlen_nonneg fields). unfold tinyStructMax in Hl.
    destruct (items_ok fuel fields Hf IH) as (bs & Hn & Hw & Hr & Hm & Hp).
    exists ([tinyStructBase + zlen fields; tag] ++ bs).
    apply (codec_kind _ _ _ _ TypeStruct); [apply struct_type; lia| |].
    { apply (writes_seq _ _ [_; _]); [|done]. by apply writes_struct_header. }
    apply (reads_bind _ _ (tag, zlen fields) _ [_; _] bs (zlen fields) 0 _ _ _ _
      (reads_struct_header _ _ Ht (conj H Hl))); [|lia|exact Hm|exact Hp].
    simpl. unfold zlen at 1. rewrite Nat2Z.id.
    apply (reads_map (read_items (length fields) (readValue fuel)) (VStruct tag) _ 0 _ _ (map norm fields));
      auto; lia.
Qed.

(** ** Decoding arbitrary bytes *)

Definition dec_inv (d : Decoder) : Prop :=
  0 <= decodedRemaining d /\ bytes (src d) /\ pool_ok d.

(** Whatever the source holds, [m] keeps the decoder's invariant, only consumes,
    never refunds decoded memory and conserves the pool; a result satisfies [Q]
    and was charged at least [c] of it. *)
Definition safe {A} (m : D A) (Q : A -> Prop) (c : A -> Z) : Prop :=
  forall d r d', m d = (r, d') -> dec_inv d ->
    dec_inv d' /\ (exists used, src d = used ++ src d') /\
    decodedRemaining d' <= decodedRemaining d /\ pool_total d' = pool_total d /\
    forall x, r = inr x -> Q x /\ c x <= decodedRemaining d - decodedRemaining d'.

Lemma safe_weaken {A} (m : D A) (Q Q' : A -> Prop) c c' : safe m Q c ->
  (forall x, Q x -> Q' x /\ c' x <= c x) -> safe m Q' c'.
Proof.
  intros H HQ d r d' E Hd. destruct (H d r d' E Hd) as (H1 & H2 & H3 & H4 & H5). spl; auto.
  intros x Hx. destruct (H5 x Hx) as [Hq Hc]. destruct (HQ x Hq). split; [done|lia].
Qed.

Lemma safe_ret {A} (x : A) (Q : A -> Prop) c : Q x -> c x <= 0 -> safe (mret x) Q c.
Proof.
  intros HQ Hc d r d' E Hd. injection E as <- <-. split; [done|]. split; [by exists []|].
  split; [lia|]. split; [done|]. intros y [= <-]. split; [done|lia].
Qed.

Lemma safe_fail {A} e (Q : A -> Prop) c : safe (dfail e) Q c.
Proof.
  intros d r d' E Hd. injection E as <- <-. split; [done|]. split; [by exists []|].
  split; [lia|]. by split.
Qed.

Lemma safe_bind {A B} (m : D A) (f : A -> D B) (Q1 : A -> Prop) c1 (Q2 : B -> Prop) c2 :
  safe m Q1 c1 -> (forall x, Q1 x -> safe (f x) Q2 (fun y => c2 y - c1 x)) ->
  safe (m ≫= f) Q2 c2.
Proof.
  intros Hm Hf d r d' E Hd. unfold mbind, D_bind in E.
  destruct (m d) as [[e|x] d1] eqn:Em.
  - injection E as <- <-. destruct (Hm _ _ _ Em Hd) as (H1 & H2 & H3 & H4 & _). by spl.
  - destruct (Hm _ _ _ Em Hd) as (H1 & [u1 H2] & H3 & H4 & H5). destruct (H5 x eq_refl) as [Hq Hc].
    destruct (Hf x Hq d1 r d' E H1) as (K1 & [u2 K2] & K3 & K4 & K5).
    split; [done|]. split; [exists (u1 ++ u2); by rewrite H2, K2, app_assoc|].
    split; [lia|]. split; [congruence|]. intros y Hy. destruct (K5 y Hy). split; [done|lia].
Qed.

Lemma safe_gets {A B} (g : Decoder -> A) (f : A -> D B) (Q : B -> Prop) c :
  (forall x, safe (f x) Q c) -> safe (gets g ≫= f) Q c.
Proof. intros Hf d r d' E Hd. exact (Hf (g d) d r d' E Hd). Qed.

Definition c0 {A} (_ : A) : Z := 0.

Lemma safe_readByte : safe readByte is_byte c0.
Proof.
  intros d r d' E (Hr & Hb & Hp). unfold readByte in E. destruct (src d) as [|b rest] eqn:Hs.
  - injection E as <- <-. unfold dec_inv. rewrite Hs. spl; auto; [by exists []|lia|done].
  - injection E as <- <-. inversion Hb; subst. unfold dec_inv. simpl.
    spl; auto; [by exists [b]|lia|]. intros x [= <-]. split; [done|unfold c0; lia].
Qed.

Lemma safe_readFull n : safe (readFull n) (fun l => bytes l /\ length l = n) c0.
Proof.
  intros d r d' E (Hr & Hb & Hp). unfold readFull in E.
  destruct (take_bytes n (src d)) as [[l rest]|] eqn:Ht.
  - destruct (take_bytes_spec _ _ _ _ Ht) as [Hs Hl]. injection E as <- <-.
    rewrite Hs in Hb. apply Forall_app in Hb as [Hb1 Hb2]. unfold dec_inv; simpl.
    spl; auto; [by exists l|lia|]. intros x [= <-]. split; [done|unfold c0; lia].
  - injection E as <- <-. unfold dec_inv; simpl.
    spl; auto; [exists (src d); by rewrite app_nil_r|lia|done].
Qed.

Lemma safe_guard b e : safe (guard_or b e) (fun _ => b = true) c0.
Proof.
  unfold guard_or. destruct b; [apply safe_ret; [done|unfold c0; lia]|apply safe_fail].
Qed.

Lemma safe_reserve cost : 0 <= cost -> safe (reserveShared cost) (fun _ => True) c0.
Proof.
  intros H0 d r d' E (Hr & Hb & Hp).
  destruct (reserveShared_spec cost d Hp H0) as (d1 & (E1 & E2 & E3 & E4) & Hp' & Ht & Hres).
  assert (d' = d1) as -> by (destruct Hres as [[E' _]|[E' _]]; congruence).
  unfold dec_inv. rewrite E1, E4. spl; auto; [by exists []|lia|].
  intros x _. split; [done|unfold c0; lia].
Qed.

Lemma safe_charge n per base : 0 <= n -> 0 < per -> 0 <= base ->
  safe (chargeDecoded n per base) (fun _ => True) (fun _ => base + n * per).
Proof.
  intros Hn Hper Hbase d r d' E Hd. unfold chargeDecoded, mbind, D_bind, gets, id in E. simpl in E.
  destruct ((decodedRemaining d - base <? 0) || (Z.quot (decodedRemaining d - base) per <? n)) eqn:Ec.
  { injection E as <- <-. spl; auto; try apply Hd; [by exists []|lia|done]. }
  apply orb_false_iff in Ec as [Ec1 Ec2]. apply Z.ltb_ge in Ec1, Ec2.
  rewrite Z.quot_div_nonneg in Ec2 by lia.
  assert (n * per <= decodedRemaining d - base) by (pose proof (Z.mul_div_le (decodedRemaining d - base) per); nia).
  assert (Hc0 : 0 <= base + n * per) by nia. unfold mbind, D_bind in E.
  destruct (reserveShared (base + n * per) d) as [[e|[]] d1] eqn:Es;
    destruct (safe_reserve _ Hc0 _ _ _ Es Hd) as ((K1 & K2 & K3) & [u K4] & K5 & K6 & _).
  - injection E as <- <-. spl; auto; [by split|by exists u|done].
  - pose proof (reserveShared_spec (base + n * per) d (proj2 (proj2 Hd)) Hc0)
      as (d2 & (_ & _ & _ & Edr) & _ & _ & [[E2 _]|[E2 _]]); [|congruence].
    assert (d2 = d1) as -> by congruence.
    unfold modify in E. injection E as <- <-. unfold dec_inv. simpl.
    spl; auto; try lia. exists u. done.
Qed.

(** *** The readers *)

Ltac safe_step :=
  first [ apply safe_gets; intros ?
        | apply safe_fail
        | eapply safe_bind; [first [apply safe_readByte | apply safe_readFull | apply safe_guard]|
            intros ? ?; unfold c0] ].

Lemma safe_len n x : bytes x /\ length x = n -> (n <= 3)%nat -> sized (getBE x).
Proof.
  intros [Hb Hl] Hn. pose proof (getBE_range x Hb) as Hr. rewrite Hl in Hr. unfold sized, wire32MaxLen.
  destruct n as [|[|[|[|n]]]]; [..|lia]; unfold width in Hr; simpl in Hr; lia.
Qed.

Lemma safe_readLen32 : safe readLen32 sized c0.
Proof.
  unfold readLen32. safe_step. destruct (Z.ltb_spec wire32MaxLen (getBE x)); [apply safe_fail|].
  apply safe_ret; [|unfold c0; lia]. destruct H as [Hb _]. pose proof (getBE_range x Hb).
  split; lia.
Qed.

Lemma safe_read_length m8 m16 m32 b : safe (read_length m8 m16 m32 b) sized c0.
Proof.
  unfold read_length. repeat case_match.
  - eapply safe_weaken; [apply safe_readByte|]. unfold is_byte, sized, wire32MaxLen, c0. intros. lia.
  - safe_step. apply safe_ret; [|unfold c0; lia]. apply (safe_len 2); [done|lia].
  - apply safe_readLen32.
  - apply safe_fail.
Qed.

Lemma safe_length_of base b m8 m16 m32 : is_byte b ->
  safe (if tiny base 15 b then mret (Z.land b 0x0F) else read_length m8 m16 m32 b) sized c0.
Proof.
  intros Hb. case_match; [|apply safe_read_length]. apply safe_ret; [|unfold c0; lia].
  change 15 with (Z.ones 4). rewrite Z.land_ones by lia. unfold sized, wire32MaxLen.
  pose proof (Z.mod_pos_bound b (2 ^ 4)). lia.
Qed.

Lemma safe_payload n : sized n -> safe (read_payload n) (fun l => bytes l /\ zlen l = n) c0.
Proof.
  intros Hn. unfold read_payload. repeat safe_step. unfold sized in Hn.
  eapply safe_bind; [apply safe_reserve; lia|]. intros ? _. unfold c0.
  eapply safe_weaken; [apply safe_readFull|]. unfold c0, zlen. intros l [Hb ->]. split; [split; [done|lia]|lia].
Qed.

Lemma safe_ReadBytes : safe ReadBytes (fun l => bytes l /\ sized (zlen l)) c0.
Proof.
  unfold ReadBytes. safe_step. eapply safe_bind; [apply safe_read_length|]. intros n Hn. unfold c0.
  eapply safe_weaken; [by apply safe_payload|]. unfold c0. intros l [Hb <-]. split; [done|lia].
Qed.

Lemma safe_ReadString : safe ReadString (fun l => bytes l /\ sized (zlen l)) c0.
Proof.
  unfold ReadString. safe_step. eapply safe_bind; [by apply safe_length_of|]. intros n Hn. unfold c0.
  case_match; [apply safe_ret; [done|lia]|].
  eapply safe_weaken; [by apply safe_payload|]. unfold c0. intros l [Hb <-]. split; [done|lia].
Qed.

Lemma safe_ReadInt : safe ReadInt int64 c0.
Proof.
  unfold ReadInt. safe_step. rename x into b, H into Hb.
  assert (Hfix : forall w n, (0 < n <= 8)%nat -> w = 8 * Z.of_nat n ->
    safe (readFull n ≫= fun bs => mret (signed w (getBE bs))) int64 (fun y => 0 - 0)).
  { intros w n Hn ->. safe_step. destruct H as [Hx Hl]. apply safe_ret; [|lia].
    pose proof (getBE_range x Hx) as Hr. rewrite Hl in Hr. unfold width in Hr.
    pose proof (signed_range (8 * Z.of_nat n) (getBE x) ltac:(lia) Hr). unfold int64.
    pose proof (Z.pow_le_mono_r 2 (8 * Z.of_nat n - 1) 63). lia. }
  assert (H8 : forall y, is_byte y -> int64 (signed 8 y)).
  { intros y Hy. pose proof (signed_range 8 y). unfold is_byte, int64 in *. lia. }
  repeat case_match.
  - safe_step. apply safe_ret; [auto|lia].
  - apply (Hfix 16 2%nat); lia.
  - apply (Hfix 32 4%nat); lia.
  - apply (Hfix 64 8%nat); lia.
  - apply safe_ret; [auto|lia].
  - apply safe_fail.
Qed.

Lemma safe_ReadFloat : safe ReadFloat (fun f => 0 <= f < 2 ^ 64) c0.
Proof.
  unfold ReadFloat. safe_step. case_match; [|apply safe_fail]. safe_step.
  destruct H1 as [Hb Hl]. apply safe_ret; [|lia]. pose proof (getBE_range x0 Hb) as Hr.
  by rewrite Hl in Hr.
Qed.

Lemma safe_header base m8 m16 m32 (k : Z -> Z) per cbase e : 0 < per -> 0 <= cbase ->
  safe (b ← readByte;
        n ← (if tiny base 15 b then mret (Z.land b 0x0F) else read_length m8 m16 m32 b);
        bud ← gets budget;
        guard_or (n <=? k bud) e ;;
        chargeDecoded n per cbase ;;
        mret n) sized (fun n => cbase + n * per).
Proof.
  intros Hper Hc. safe_step. eapply safe_bind; [by apply safe_length_of|]. intros n Hn. unfold c0.
  repeat safe_step. unfold sized in Hn. eapply safe_bind; [apply safe_charge; lia|]. intros ? _.
  apply safe_ret; [done|lia].
Qed.

Lemma safe_ReadStructHeader : safe ReadStructHeader
  (fun h => is_byte (fst h) /\ 0 <= snd h <= tinyStructMax)
  (fun h => collectionCost + snd h * listElemCost).
Proof.
  unfold ReadStructHeader. repeat safe_step.
  assert (Hn : 0 <= Z.land x 15 <= 15).
  { change 15 with (Z.ones 4). rewrite Z.land_ones by lia. change (Z.ones 4) with 15.
    pose proof (Z.mod_pos_bound x (2 ^ 4)). lia. }
  eapply safe_bind; [apply safe_charge; [lia|by vm_compute..]|]. intros ? _.
  apply safe_ret; [done|simpl; lia].
Qed.

(** *** Collections and values *)

Lemma safe_items fuel n rv : safe rv (wfv fuel) mem_cost ->
  safe (read_items n rv) (fun l => length l = n /\ Forall (wfv fuel) l)
    (fun l => zlist_sum (map mem_cost l)).
Proof.
  intros Hrv. induction n as [|n IH]; simpl.
  - apply safe_ret; [done|simpl; lia].
  - eapply safe_bind; [exact Hrv|]. intros v Hv. cbv beta.
    eapply (safe_bind _ _ _ (fun l => zlist_sum (map mem_cost l))); [exact IH|].
    intros l [Hl Hf]. apply safe_ret; [split; [simpl; congruence|by constructor]|simpl; lia].
Qed.

Definition entry_wf fuel (kv : list Z * Value) : Prop :=
  bytes (fst kv) /\ sized (zlen (fst kv)) /\ wfv fuel (snd kv).
Definition entries_wf fuel m : Prop := NoDup (map fst m) /\ Forall (entry_wf fuel) m.
Definition entries_cost (m : list (list Z * Value)) : Z :=
  zlist_sum (map (fun kv => mem_cost (snd kv)) m).

Lemma map_set_keys k v m : map fst (map_set k v m) =
  if decide (k ∈ map fst m) then map fst m else map fst m ++ [k].
Proof.
  induction m as [|[k' v'] m IH]; cbn [map_set map fst].
  { rewrite decide_False by apply not_elem_of_nil. done. }
  destruct (decide (k' = k)) as [->|Hne]; cbn [map fst].
  - rewrite decide_True by left. done.
  - rewrite IH. destruct (decide (k ∈ map fst m)) as [Hin|Hin].
    + by rewrite decide_True by by right.
    + rewrite decide_False; [done|]. intros [?|?]%elem_of_cons; congruence.
Qed.

Lemma map_set_wf fuel k v m : entries_wf fuel m -> entry_wf fuel (k, v) ->
  entries_wf fuel (map_set k v m) /\
  (length (map_set k v m) <= S (length m))%nat /\
  entries_cost (map_set k v m) <= entries_cost m + mem_cost v.
Proof.
  intros [Hnd Hf] Hkv. unfold entries_wf. rewrite map_set_keys.
  assert (Hn : NoDup (if decide (k ∈ map fst m) then map fst m else map fst m ++ [k])).
  { case_decide; [done|]. apply NoDup_app. split; [done|]. split; [|by apply NoDup_singleton].
    intros x Hx ->%list_elem_of_singleton. done. }
  split; [split; [done|]|]; clear Hn Hnd.
  - induction Hf as [|[k' v'] m Hm Hf IH]; simpl; [by constructor|].
    case_decide; constructor; auto.
  - induction Hf as [|[k' v'] m (_ & _ & Hm) Hf IH]; simpl; unfold entries_cost in *; simpl in *; [lia|].
    destruct (costs_nonneg fuel v' Hm). case_decide; simpl; lia.
Qed.

Lemma safe_entries fuel n rv : safe rv (wfv fuel) mem_cost -> forall acc, entries_wf fuel acc ->
  safe (read_entries n rv acc)
    (fun m => entries_wf fuel m /\ (length m <= length acc + n)%nat)
    (fun m => entries_cost m - entries_cost acc).
Proof.
  intros Hrv. induction n as [|n IH]; intros acc Hacc; simpl.
  - apply safe_ret; [split; [done|lia]|lia].
  - eapply safe_bind; [apply safe_ReadString|]. intros k Hk. unfold c0.
    eapply safe_bind; [exact Hrv|]. intros v Hv. cbv beta.
    destruct (map_set_wf fuel k v acc Hacc) as (Hw & Hl & Hc); [exact (conj (proj1 Hk) (conj (proj2 Hk) Hv))|].
    eapply safe_weaken; [exact (IH _ Hw)|]. simpl. intros m [Hm Hlm].
    split; [split; [done|lia]|lia].
Qed.

Lemma safe_value fuel : safe (readValue fuel) (wfv fuel) mem_cost.
Proof.
  assert (Hatom : forall A (m : D A) (g : A -> Value) (Q : A -> Prop) f,
    safe m Q c0 -> (forall x, Q x -> wfv (S f) (g x) /\ mem_cost (g x) = 0) ->
    safe (m ≫= fun x => mret (g x)) (wfv (S f)) mem_cost).
  { intros A m g Q f Hm Hg. eapply safe_bind; [exact Hm|]. intros x Hx. destruct (Hg x Hx) as [? E].
    apply safe_ret; [done|unfold c0; lia]. }
  induction fuel as [|fuel IH]; [apply safe_fail|].
  rewrite readValue_S. eapply (safe_bind _ _ (fun _ => True) c0).
  { unfold PeekType. eapply (safe_bind _ _ (fun _ => True) c0).
    - intros d r d' E Hd. unfold peekByte in E.
      destruct (src d) eqn:Hs; injection E as <- <-; rewrite Hs; spl; auto;
        [by exists []|lia|done|by exists []|lia|intros; split; [done|unfold c0; lia]].
    - intros x _. apply safe_ret; [done|unfold c0; lia]. }
  intros t _. eapply (safe_weaken _ (wfv (S fuel)) _ mem_cost); [|unfold c0; intros; split; [done|lia]].
  destruct t; unfold read_kind.
  - eapply (Hatom unit _ (fun _ => VNull) (fun _ => True)); [|done].
    unfold ReadNull. safe_step. eapply safe_weaken; [apply safe_guard|]. unfold c0. split; [done|lia].
  - eapply (Hatom bool _ VBool (fun _ => True)); [|done].
    unfold ReadBool. safe_step. repeat case_match; try apply safe_fail; (apply safe_ret; [done|lia]).
  - eapply Hatom; [apply safe_ReadInt|done].
  - eapply Hatom; [apply safe_ReadFloat|done].
  - eapply Hatom; [apply safe_ReadBytes|]. simpl. done.
  - eapply Hatom; [apply safe_ReadString|]. simpl. done.
  - eapply safe_bind; [apply (safe_header _ _ _ _ (fun b => b)); by vm_compute|]. intros n Hn.
    eapply safe_bind; [by apply safe_items|]. intros l [Hl Hf]. unfold sized in Hn.
    assert (zlen l = n) as El by (unfold zlen; lia).
    apply safe_ret; [split; [|done]; unfold sized; lia|]. simpl. rewrite El. lia.
  - eapply safe_bind; [apply (safe_header _ _ _ _ (fun b => Z.quot b 2)); by vm_compute|].
    intros n Hn. eapply safe_bind; [apply safe_entries; [exact IH|]|].
    { split; [by apply NoDup_nil|by constructor]. }
    intros m [[Hnd Hf] Hl]. unfold sized in Hn. simpl in Hl.
    assert (zlen m <= n) as El by (unfold zlen; lia).
    apply safe_ret; [split; [unfold sized, zlen; lia|done]|]. simpl.
    unfold entries_cost, mapCollectionCost, mapEntryCost. simpl. lia.
  - eapply safe_bind; [apply safe_ReadStructHeader|]. intros [tag n] [Ht Hn]. simpl in *.
    eapply safe_bind; [by apply safe_items|]. intros l [Hl Hf].
    assert (zlen l = n) as El by (unfold zlen; lia).
    apply safe_ret; [split; [done|split; [lia|done]]|]. simpl. rewrite El. lia.
Qed.

(** ** Properties *)

(** C13: the PackStream codec round-trips.  Every well-formed value of at most
    [maxValueDepth + 1] levels is encoded without error, and a decoder whose wire,
    decoded-memory and shared budgets cover it, positioned on those bytes, returns
    the same value (every integer as an int64), leaves exactly the bytes behind
    it, and pays exactly the value's charge. *)
Theorem value_roundtrip v : wfv (S maxValueDepth) v ->
  exists bs, (forall out, WriteValue v out = (out ++ bs, None)) /\
  forall d rest, src d = bs ++ rest -> wire_ok d -> pool_ok d ->
    mem_cost v <= decodedRemaining d -> covers d (pool_cost v) ->
    exists d', ReadValue d = (inr (norm v), d') /\ src d' = rest /\
      decodedRemaining d' = decodedRemaining d - mem_cost v /\
      pool_total d' = pool_total d.
Proof.
  intros Hv. destruct (codec_wfv _ v Hv) as (bs & _ & Hw & Hr). exists bs. split; [exact Hw|].
  intros d rest Hs Hwire Hp Hm Hc.
  destruct (Hr d rest Hs (zlen_nonneg rest) Hwire Hp Hm Hc) as (d' & E & Hs' & _ & _ & Hd & Ht & _).
  exists d'. by spl.
Qed.

(** C35: decoding is safe on arbitrary bytes.  Whatever a decoder reads, its
    decoded-memory budget never goes negative, it only consumes its source, and
    when it returns a value that value is well formed, at most [maxValueDepth + 1]
    levels deep, encodable again, and was charged in full: its collections cost no
    more than the budget that was left. *)
Theorem decode_safe d r d' : ReadValue d = (r, d') -> bytes (src d) -> pool_ok d ->
  0 <= decodedRemaining d ->
  0 <= decodedRemaining d' <= decodedRemaining d /\
  (exists used, src d = used ++ src d') /\
  forall v, r = inr v ->
    wfv (S maxValueDepth) v /\
    mem_cost v <= decodedRemaining d - decodedRemaining d' /\
    exists bs, forall out, WriteValue v out = (out ++ bs, None).
Proof.
  intros E Hb Hp Hd. destruct (safe_value _ _ _ _ E (conj Hd (conj Hb Hp)))
    as ((H1 & _) & H2 & H3 & _ & H5).
  split; [lia|]. split; [done|]. intros v Hv. destruct (H5 v Hv) as [Hw Hc].
  split; [done|]. split; [done|]. destruct (codec_wfv _ v Hw) as (bs & _ & Hwr & _). by exists bs.
Qed.

(** the shared inbound budget is conserved.  A decoder that attaches a pool,
    decodes anything, successfully or not, and releases it, gives back exactly what
    it took: the pool is what it was. *)
Theorem inbound_budget_conserved b d r d' : 0 < limit b -> 0 <= pool_remaining b ->
  bytes (src d) -> 0 <= decodedRemaining d ->
  ReadValue (SetInboundBudget b d) = (r, d') ->
  snd (ReleaseInboundBudget d') = Some b.
Proof.
  intros Hl Hr Hb Hd E.
  assert (En : enabled b = true) by by apply Z.ltb_lt.
  assert (Hinv : dec_inv (SetInboundBudget b d)).
  { unfold SetInboundBudget, dec_inv, pool_ok. rewrite En. simpl. spl; auto; lia. }
  destruct (safe_value _ _ _ _ E Hinv) as ((_ & _ & Hp) & _ & _ & Ht & _).
  unfold pool_total, SetInboundBudget in Ht. rewrite En in Ht. simpl in Ht.
  unfold ReleaseInboundBudget, releaseShared, pool_ok in *. simpl.
  destruct (shared d') as [b'|]; [|done]. destruct b as [l p], b' as [l' p'].
  injection Ht as El Ep. simpl in *. subst l'.
  unfold release, enabled. simpl. destruct Hp as (_ & _ & Hh).
  destruct (Z.ltb_spec 0 (poolHeld d')); [|do 2 f_equal; lia].
  destruct (Z.ltb_spec 0 l), (Z.leb_spec (poolHeld d') 0); simpl; try lia. do 2 f_equal. lia.
Qed.

(** ** Witnesses *)

Definition demo_value : Value :=
  VMap [([0x61], VList [VInt 1; VGoInt (-200); VFloat 4607182418800017408; VNull]);
        ([0x62; 0x63], VStruct 0x4E [VString (replicate 20 0x7A); VBool true; VBytes [0; 255]])].

(** One level of [wfv] at a time. *)
Lemma wfv_list n l : sized (zlen l) -> Forall (wfv n) l -> wfv (S n) (VList l).
Proof. done. Qed.
Lemma wfv_map n m : sized (zlen m) -> NoDup (map fst m) -> Forall (entry_wf n) m ->
  wfv (S n) (VMap m).
Proof. done. Qed.
Lemma wfv_struct n t l : is_byte t -> zlen l <= tinyStructMax -> Forall (wfv n) l ->
  wfv (S n) (VStruct t l).
Proof. done. Qed.
Lemma wfv_entry n k v : bytes k -> sized (zlen k) -> wfv n v -> entry_wf n (k, v).
Proof. done. Qed.

Lemma demo_value_wf : wfv (S maxValueDepth) demo_value.
Proof.
  unfold demo_value, maxValueDepth.
  apply wfv_map; [split; by vm_compute|apply (bool_decide_unpack _); by vm_compute|].
  repeat apply Forall_cons_2; [apply wfv_entry|apply wfv_entry|apply Forall_nil_2].
  - apply (bool_decide_unpack _); by vm_compute.
  - split; by vm_compute.
  - apply wfv_list; [split; by vm_compute|].
    repeat apply Forall_cons_2; [split; by vm_compute..|exact I|apply Forall_nil_2].
  - apply (bool_decide_unpack _); by vm_compute.
  - split; by vm_compute.
  - apply wfv_struct; [split; by vm_compute|by vm_compute|].
    repeat apply Forall_cons_2; [|exact I| |apply Forall_nil_2].
    + split; [apply Forall_replicate; split; by vm_compute|split; by vm_compute].
    + split; [apply (bool_decide_unpack _); by vm_compute|split; by vm_compute].
Qed.

Lemma value_roundtrip_witness : exists bs, WriteValue demo_value [] = (bs, None) /\
  fst (ReadValue (NewDecoder true bs)) = inr (norm demo_value).
Proof.
  destruct (value_roundtrip demo_value demo_value_wf) as (bs & Hw & Hr).
  assert (Hbs : bs = fst (WriteValue demo_value [])) by by rewrite Hw.
  exists bs. split; [apply Hw|].
  destruct (Hr (NewDecoder true bs) []) as (d' & E & _).
  - by rewrite app_nil_r.
  - rewrite Hbs. by vm_compute.
  - exact I.
  - by vm_compute.
  - exact I.
  - by rewrite E.
Defined.

(** A list header that claims three elements, over two. *)
Definition demo_bytes : list Z := [0x92; 0x01; 0x90].

Lemma demo_bytes_ok : bytes demo_bytes.
Proof. apply (bool_decide_unpack _); by vm_compute. Qed.

Lemma decode_safe_witness :
  fst (ReadValue (NewDecoder true demo_bytes)) = inr (VList [VInt 1; VList []]) /\
  wfv (S maxValueDepth) (VList [VInt 1; VList []]).
Proof.
  split; [by vm_compute|].
  destruct (decode_safe (NewDecoder true demo_bytes) (inr (VList [VInt 1; VList []]))
    (snd (ReadValue (NewDecoder true demo_bytes)))) as (_ & _ & H);
    [by vm_compute|exact demo_bytes_ok|exact I|by vm_compute|].
  by apply H.
Defined.

Lemma inbound_budget_conserved_witness :
  snd (ReleaseInboundBudget (snd (ReadValue (SetInboundBudget (mkPool 2000000 1500000)
    (NewDecoder true demo_bytes))))) = Some (mkPool 2000000 1500000).
Proof.
  apply (inbound_budget_conserved _ (NewDecoder true demo_bytes)
    (fst (ReadValue (SetInboundBudget (mkPool 2000000 1500000) (NewDecoder true demo_bytes)))));
    [done|done|exact demo_bytes_ok|by vm_compute|by vm_compute].
Defined.
