(* ===== verification/Wal.v ===== *)
(** * The write-ahead log: frame format and reader

    Model of [store/wal/format.go] and of the single-file path of
    [store/wal/reader.go]: the two frame layouts, their CRC-32C protection, the
    discrimination of a torn tail from a corrupt length, and the replay loop.
    Readers are in-memory sources; the only read error is the end of input. *)

From Stdlib Require Import ZArith Lia.
From S2P Require Import Prelude Wire.

Local Open Scope Z_scope.

(** ** Frames *)

Definition Magic : list Z := [0x47; 0x47; 0x57; 0x41].
Definition CurrentVersion : Z := 2.
Definition LegacyVersion : Z := 1.
Definition HeaderSize : nat := 14.
Definition HeaderSizeV2 : nat := 36.
Definition maxFrameSize : Z := Z.shiftl 1 30.

Record Frame := mkFrame {
  Payload : list Z;
  Pos : Z;
  StoreID : Z;
  PrevLen : Z;
  Version : Z
}.

Inductive wal_err := ErrBadMagic | ErrUnsupportedVersion | ErrCRCMismatch | ErrTornFrame
  | ErrTornFrameMasksData | ErrFrameTooLarge | EOF.

#[export] Instance wal_err_eq_dec : EqDecision wal_err.
Proof. solve_decision. Defined.

(** 0 for a version this build does not know. *)
Definition headerSizeFor (v : Z) : nat :=
  if v =? LegacyVersion then HeaderSize
  else if v =? CurrentVersion then HeaderSizeV2
  else 0.

(** [b[i:j]] and the little-endian integer it holds. *)
Definition slice (i j : nat) (b : list Z) : list Z := take (j - i) (drop i b).
Definition le_at (i j : nat) (b : list Z) : Z := getLE (slice i j b).

(** ** Encoding *)

Definition encodeLegacy (payload : list Z) : list Z :=
  let plen := u32 (Z.of_nat (length payload)) in
  let head := Magic ++ putLE 2 LegacyVersion ++ putLE 4 plen in
  let crc := crc_update (crc_update 0 head) payload in
  head ++ putLE 4 crc ++ payload.

Definition putHeaderV2 (plen pos prevLen storeID payloadCRC : Z) : list Z :=
  let head := Magic ++ putLE 2 CurrentVersion ++ putLE 2 0 ++ putLE 4 plen ++ putLE 8 pos ++
    putLE 4 prevLen ++ putLE 8 storeID in
  head ++ putLE 4 (crc_update payloadCRC head).

Definition encodeV2 (payload : list Z) (pos prevLen storeID : Z) : list Z :=
  putHeaderV2 (u32 (Z.of_nat (length payload))) pos prevLen storeID (crc_update 0 payload) ++
  payload.

Definition Encode (f : Frame) : wal_err + list Z :=
  if maxFrameSize <? Z.of_nat (length (Payload f)) then inl ErrFrameTooLarge
  else if (Version f =? 0) || (Version f =? LegacyVersion) then inr (encodeLegacy (Payload f))
  else if Version f =? CurrentVersion then
    inr (encodeV2 (Payload f) (Pos f) (PrevLen f) (StoreID f))
  else inl ErrUnsupportedVersion.

Definition FrameSize (f : Frame) : nat :=
  (if Version f =? CurrentVersion then HeaderSizeV2 else HeaderSize) + length (Payload f).

(** ** Decoding *)

Definition frameCRC (version : Z) (header payload : list Z) : Z :=
  if version =? LegacyVersion then crc_update (crc_update 0 (slice 0 10 header)) payload
  else crc_update (crc_update 0 payload) (slice 0 32 header).

(** The declared length and checksum of a complete header. *)
Definition header_plen (version : Z) (head : list Z) : Z :=
  if version =? LegacyVersion then le_at 6 10 head else le_at 8 12 head.
Definition header_crc (version : Z) (head : list Z) : Z :=
  if version =? LegacyVersion then le_at 10 14 head else le_at 32 36 head.

(** One iteration of [embedsValidFrame]'s scan: the candidate at the front of [b],
    with the CRC work already spent.  [inl] is the verdict, [inr] the new total. *)
Definition embed_candidate (b : list Z) (spent budget : Z) : bool + Z :=
  if negb (bool_decide (slice 0 4 b = Magic)) then inr spent
  else
    let version := le_at 4 6 b in
    let hsz := headerSizeFor version in
    if bool_decide (hsz = 0%nat) || bool_decide (length b < hsz)%nat then inr spent
    else
      let plen := header_plen version b in
      if maxFrameSize <? plen then inr spent
      else
        let size := Z.of_nat hsz + plen in
        if Z.of_nat (length b) <? size then inr spent
        else if budget <? spent + size then inl true
        else if frameCRC version (slice 0 hsz b) (slice hsz (hsz + Z.to_nat plen) b)
                =? header_crc version b then inl true
        else inr (spent + size).

Fixpoint embed_scan (b : list Z) (spent budget : Z) : bool :=
  match b with
  | [] => false
  | _ :: b' =>
      if bool_decide (length b < HeaderSize)%nat then false
      else match embed_candidate b spent budget with
           | inl r => r
           | inr spent' => embed_scan b' spent' budget
           end
  end.

Definition embedsValidFrame (buf : list Z) : bool :=
  embed_scan buf 0 (2 * Z.of_nat (length buf)).

(** [readFramePayload]: the payload and what follows it, or the bytes of a short
    read. *)
Definition readFramePayload (r : list Z) (plen : Z) : list Z + (list Z * list Z) :=
  match take_bytes (Z.to_nat plen) r with
  | Some (payload, rest) => inr (payload, rest)
  | None => inl r
  end.

Definition Decode (r : list Z) : (wal_err + Frame) * list Z :=
  match take_bytes HeaderSize r with
  | None => (inl ErrTornFrame, [])
  | Some (h1, r1) =>
      if negb (bool_decide (slice 0 4 h1 = Magic)) then (inl ErrBadMagic, r1)
      else
        let version := le_at 4 6 h1 in
        let hsz := headerSizeFor version in
        if bool_decide (hsz = 0%nat) then (inl ErrUnsupportedVersion, r1)
        else match take_bytes (hsz - HeaderSize) r1 with
             | None => (inl ErrTornFrame, [])
             | Some (h2, r2) =>
                 let head := h1 ++ h2 in
                 let plen := header_plen version head in
                 let expectCRC := header_crc version head in
                 let '(pos, prevLen, storeID) :=
                   if version =? LegacyVersion then (0, 0, 0)
                   else (le_at 12 20 head, le_at 20 24 head, le_at 24 32 head) in
                 if maxFrameSize <? plen then (inl ErrFrameTooLarge, r2)
                 else match readFramePayload r2 plen with
                      | inl short =>
                          (inl (if embedsValidFrame short then ErrTornFrameMasksData
                                else ErrTornFrame), [])
                      | inr (payload, rest) =>
                          if frameCRC version head payload =? expectCRC
                          then (inr (mkFrame payload pos storeID prevLen version), rest)
                          else (inl ErrCRCMismatch, rest)
                      end
             end
  end.

(** ** Reader *)

Record Reader := mkReader {
  bufr : list Z;
  tail : Z;
  totalRead : Z;
  tailErr : option wal_err
}.

Definition NewReader (r : list Z) : Reader := mkReader r 0 0 None.

Definition decodeOne (r : Reader) : (wal_err + Frame) * list Z :=
  match bufr r with [] => (inl EOF, []) | _ => Decode (bufr r) end.

(** [Reader.Frames]: the loop, threading the consumer's state through [yield].
    [None] is fuel exhaustion. *)
Fixpoint Frames {S} (fuel : nat) (yield : S -> Frame -> S * bool) (st : S) (r : Reader)
  : option (S * Reader) :=
  match fuel with
  | O => None
  | Datatypes.S fuel =>
      let beforeRead := totalRead r in
      match decodeOne r with
      | (inl err, rest) =>
          Some (st, mkReader rest beforeRead (totalRead r)
                      (if bool_decide (err = EOF) then None else Some err))
      | (inr frame, rest) =>
          let total := totalRead r + Z.of_nat (FrameSize frame) in
          let r' := mkReader rest (tail r) total (tailErr r) in
          match yield st frame with
          | (st', true) => Frames fuel yield st' r'
          | (st', false) => Some (st', mkReader rest total total (tailErr r))
          end
      end
  end.

(** [Reader.Replay]: apply to every frame; a torn tail is not an error. *)
Definition Replay {S E} (fuel : nat) (apply : S -> Frame -> S * option E) (st : S) (r : Reader)
  : option (S * option (E + wal_err) * Reader) :=
  let yield := fun (se : S * option E) f =>
    let '(st', e) := apply (fst se) f in
    ((st', e), match e with None => true | Some _ => false end) in
  match Frames fuel yield (st, None) r with
  | None => None
  | Some ((st', Some e), r') => Some (st', Some (inl e), r')
  | Some ((st', None), r') =>
      Some (st', match tailErr r' with
                 | Some e => if bool_decide (e = ErrTornFrame) then None else Some (inr e)
                 | None => None
                 end, r')
  end.
