(* ===== verification/WalProps.v ===== *)
(** * Correctness of the write-ahead log format and its replay

    Frames round-trip, a torn tail is recognised as torn at every byte, a single
    corrupted payload byte is always detected, a corrupt length that swallows a
    durable frame is never taken for a torn tail, and replay yields exactly the
    frames that were durably written. *)

From Stdlib Require Import ZArith Lia.
From S2P Require Import Prelude Wire Wal.

Local Open Scope Z_scope.
#[local] Opaque crc_update.

(** ** Well-formed frames and their bytes *)

Record frame_ok (f : Frame) : Prop := mkFrameOk {
  fo_bytes : bytes (Payload f);
  fo_len : Z.of_nat (length (Payload f)) <= maxFrameSize;
  fo_ver : Version f = LegacyVersion \/ Version f = CurrentVersion;
  fo_pos : 0 <= Pos f < 2 ^ 64;
  fo_prev : 0 <= PrevLen f < 2 ^ 32;
  fo_store : 0 <= StoreID f < 2 ^ 64;
  fo_legacy : Version f = LegacyVersion -> Pos f = 0 /\ PrevLen f = 0 /\ StoreID f = 0
}.

Definition plen (f : Frame) : Z := Z.of_nat (length (Payload f)).

(** The header bytes before the checksum field of a legacy frame, and of a
    current one. *)
Definition legacy_head (f : Frame) : list Z :=
  Magic ++ putLE 2 LegacyVersion ++ putLE 4 (plen f).
Definition v2_head (f : Frame) : list Z :=
  Magic ++ putLE 2 CurrentVersion ++ putLE 2 0 ++ putLE 4 (plen f) ++ putLE 8 (Pos f) ++
  putLE 4 (PrevLen f) ++ putLE 8 (StoreID f).

(** The checksum of the frame's header over an arbitrary payload [p]. *)
Definition crc_over (f : Frame) (p : list Z) : Z :=
  if Version f =? LegacyVersion then crc_update (crc_update 0 (legacy_head f)) p
  else crc_update (crc_update 0 p) (v2_head f).

Definition header (f : Frame) : list Z :=
  (if Version f =? LegacyVersion then legacy_head f else v2_head f) ++
  putLE 4 (crc_over f (Payload f)).

Definition frame_bytes (f : Frame) : list Z := header f ++ Payload f.

Lemma plen_small f : frame_ok f -> 0 <= plen f < 2 ^ 32 /\ u32 (plen f) = plen f.
Proof.
  intros [_ Hl _ _ _ _ _]. unfold plen. change maxFrameSize with 1073741824 in Hl.
  assert (0 <= Z.of_nat (length (Payload f)) < 2 ^ 32) by lia.
  split; [done|]. by apply u32_small.
Qed.

Lemma Encode_bytes f : frame_ok f -> Encode f = inr (frame_bytes f).
Proof.
  intros Hf. destruct (plen_small f Hf) as [_ Hu]. destruct Hf as [_ Hl Hv _ _ _ _].
  unfold Encode, plen in *. destruct (Z.ltb_spec maxFrameSize (Z.of_nat (length (Payload f)))); [lia|].
  unfold frame_bytes, header, crc_over, encodeLegacy, encodeV2, putHeaderV2, legacy_head, v2_head, plen.
  rewrite Hu. destruct Hv as [Hv|Hv]; rewrite Hv;
    change (LegacyVersion =? 0) with false; change (LegacyVersion =? LegacyVersion) with true;
    change (CurrentVersion =? 0) with false; change (CurrentVersion =? LegacyVersion) with false;
    change (CurrentVersion =? CurrentVersion) with true; cbn [orb];
    rewrite <- !app_assoc; reflexivity.
Qed.

Lemma length_header f : frame_ok f ->
  length (header f) = headerSizeFor (Version f) /\ (HeaderSize <= length (header f))%nat.
Proof.
  intros [_ _ Hv _ _ _ _]. unfold header, legacy_head, v2_head, HeaderSize.
  destruct Hv as [-> | ->]; simpl; split; reflexivity || lia.
Qed.

Lemma frame_size f : frame_ok f -> length (frame_bytes f) = FrameSize f.
Proof.
  intros Hf. unfold frame_bytes, FrameSize. rewrite length_app.
  destruct (length_header f Hf) as [-> _]. destruct Hf as [_ _ Hv _ _ _ _].
  by destruct Hv as [-> | ->].
Qed.

Lemma bytes_head f : bytes (legacy_head f) /\ bytes (v2_head f).
Proof.
  assert (bytes Magic) by (apply (bool_decide_unpack _); by vm_compute).
  unfold legacy_head, v2_head. split; repeat apply Forall_app_2; auto with gograph.
Qed.

Lemma crc_over_range f p : bytes p -> is_u32 (crc_over f p).
Proof.
  intros Hp. destruct (bytes_head f). unfold crc_over.
  assert (is_u32 0) by done. case_match; apply crc_update_range; auto using crc_update_range.
Qed.

(** ** The fields of an encoded header *)

Definition fields_ok (f : Frame) (b : list Z) : Prop :=
  slice 0 4 b = Magic /\ le_at 4 6 b = Version f /\
  header_plen (Version f) b = plen f /\ header_crc (Version f) b = crc_over f (Payload f) /\
  (forall p, frameCRC (Version f) b p = crc_over f p) /\
  (Version f <> LegacyVersion ->
    le_at 12 20 b = Pos f /\ le_at 20 24 b = PrevLen f /\ le_at 24 32 b = StoreID f).

Lemma header_fields f t : frame_ok f -> fields_ok f (header f ++ t).
Proof.
  intros Hf. destruct (plen_small f Hf) as [Hp _].
  pose proof (crc_over_range f (Payload f) (fo_bytes f Hf)) as Hc.
  destruct Hf as [_ _ Hv Hpos Hprev Hst _].
  unfold fields_ok, header, header_plen, header_crc, frameCRC, le_at. set (c := crc_over f (Payload f)) in *.
  destruct Hv as [Hv|Hv]; rewrite Hv; change (LegacyVersion =? LegacyVersion) with true;
    change (CurrentVersion =? LegacyVersion) with false; cbv iota.
  - change (slice 0 4 ((legacy_head f ++ putLE 4 c) ++ t)) with Magic.
    change (slice 4 6 ((legacy_head f ++ putLE 4 c) ++ t)) with (putLE 2 LegacyVersion).
    change (slice 6 10 ((legacy_head f ++ putLE 4 c) ++ t)) with (putLE 4 (plen f)).
    change (slice 10 14 ((legacy_head f ++ putLE 4 c) ++ t)) with (putLE 4 c).
    change (slice 0 10 ((legacy_head f ++ putLE 4 c) ++ t)) with (legacy_head f).
    rewrite !getLE_putLE by (done || exact Hc || exact Hp). spl; try done.
    intros p. unfold crc_over. by rewrite Hv.
  - change (slice 0 4 ((v2_head f ++ putLE 4 c) ++ t)) with Magic.
    change (slice 4 6 ((v2_head f ++ putLE 4 c) ++ t)) with (putLE 2 CurrentVersion).
    change (slice 8 12 ((v2_head f ++ putLE 4 c) ++ t)) with (putLE 4 (plen f)).
    change (slice 12 20 ((v2_head f ++ putLE 4 c) ++ t)) with (putLE 8 (Pos f)).
    change (slice 20 24 ((v2_head f ++ putLE 4 c) ++ t)) with (putLE 4 (PrevLen f)).
    change (slice 24 32 ((v2_head f ++ putLE 4 c) ++ t)) with (putLE 8 (StoreID f)).
    change (slice 32 36 ((v2_head f ++ putLE 4 c) ++ t)) with (putLE 4 c).
    change (slice 0 32 ((v2_head f ++ putLE 4 c) ++ t)) with (v2_head f).
    rewrite !getLE_putLE by (done || exact Hc || exact Hp || assumption). spl; try done.
    intros p. unfold crc_over. by rewrite Hv.
Qed.

(** ** Decoding behind a header *)

Definition with_payload (f : Frame) (p : list Z) : Frame :=
  mkFrame p (Pos f) (StoreID f) (PrevLen f) (Version f).

Lemma with_payload_id f : with_payload f (Payload f) = f.
Proof. by destruct f. Qed.

Lemma slice_short i j a b : (j <= length a)%nat -> (i <= j)%nat -> slice i j (a ++ b) = slice i j a.
Proof.
  intros Hj Hi. unfold slice. rewrite drop_app_le by lia.
  rewrite take_app_le; [done|]. rewrite length_drop. lia.
Qed.

(** What [Decode] does with a complete header of a known version. *)
Lemma Decode_complete h v t : length h = headerSizeFor v -> headerSizeFor v <> 0%nat ->
  slice 0 4 h = Magic -> le_at 4 6 h = v ->
  Decode (h ++ t) =
  if maxFrameSize <? header_plen v h then (inl ErrFrameTooLarge, t)
  else match readFramePayload t (header_plen v h) with
       | inl short =>
           (inl (if embedsValidFrame short then ErrTornFrameMasksData else ErrTornFrame), [])
       | inr (p, rest) =>
           if frameCRC v h p =? header_crc v h then
             (inr (if v =? LegacyVersion then mkFrame p 0 0 0 v
                   else mkFrame p (le_at 12 20 h) (le_at 24 32 h) (le_at 20 24 h) v), rest)
           else (inl ErrCRCMismatch, rest)
       end.
Proof.
  intros Hl H0 F1 F2.
  assert (Hge : (HeaderSize <= length h)%nat).
  { rewrite Hl. unfold headerSizeFor, HeaderSize, HeaderSizeV2 in *. repeat case_match; lia. }
  unfold Decode. set (h1 := take HeaderSize h). set (h2 := drop HeaderSize h).
  assert (Hh : h = h1 ++ h2) by (symmetry; apply take_drop).
  assert (Hl1 : length h1 = HeaderSize) by (unfold h1; rewrite length_take; lia).
  assert (Hl2 : length h2 = (headerSizeFor v - HeaderSize)%nat)
    by (unfold h2; rewrite length_drop, Hl; done).
  assert (S1 : slice 0 4 h1 = Magic) by
    (rewrite <- F1, Hh, slice_short; rewrite ?Hl1; done || (unfold HeaderSize; lia)).
  assert (S2 : le_at 4 6 h1 = v) by
    (rewrite <- F2, Hh; unfold le_at; rewrite slice_short; rewrite ?Hl1; done || (unfold HeaderSize; lia)).
  rewrite Hh at 1. rewrite <- app_assoc, take_bytes_app by done. rewrite S1, S2.
  rewrite bool_decide_eq_true_2 by done. cbn [negb].
  rewrite bool_decide_eq_false_2 by done.
  rewrite take_bytes_app by done. rewrite <- Hh.
  destruct (v =? LegacyVersion); repeat case_match; simplify_eq; done.
Qed.

Lemma frame_hsz f : frame_ok f -> headerSizeFor (Version f) <> 0%nat.
Proof. intros Hf. by destruct (fo_ver f Hf) as [-> | ->]. Qed.

(** What [Decode] does with an intact header followed by any bytes. *)
Lemma Decode_header f t : frame_ok f ->
  Decode (header f ++ t) =
  match readFramePayload t (plen f) with
  | inl short => (inl (if embedsValidFrame short then ErrTornFrameMasksData else ErrTornFrame), [])
  | inr (p, rest) =>
      if crc_over f p =? crc_over f (Payload f) then (inr (with_payload f p), rest)
      else (inl ErrCRCMismatch, rest)
  end.
Proof.
  intros Hf. destruct (length_header f Hf) as [Hl Hge].
  destruct (header_fields f [] Hf) as (F1 & F2 & F3 & F4 & F5 & F6). rewrite app_nil_r in *.
  rewrite (Decode_complete _ (Version f)) by auto using frame_hsz. rewrite F3, F4.
  destruct (Z.ltb_spec maxFrameSize (plen f)); [pose proof (fo_len f Hf); unfold plen in *; lia|].
  destruct (readFramePayload t (plen f)) as [|[p rest]]; [done|]. rewrite F5. case_match; [|done].
  destruct (Z.eqb_spec (Version f) LegacyVersion) as [E|E].
  - destruct (fo_legacy f Hf E) as (E1 & E2 & E3). unfold with_payload. by rewrite E1, E2, E3.
  - by destruct (F6 E) as (-> & -> & ->).
Qed.

Lemma read_payload_app p rest : readFramePayload (p ++ rest) (Z.of_nat (length p)) = inr (p, rest).
Proof. unfold readFramePayload. by rewrite Nat2Z.id, take_bytes_app. Qed.

Lemma read_payload_short t n : Z.of_nat (length t) < n -> readFramePayload t n = inl t.
Proof. intros. unfold readFramePayload, take_bytes. by rewrite decide_False by lia. Qed.

Lemma Decode_frame f rest : frame_ok f -> Decode (frame_bytes f ++ rest) = (inr f, rest).
Proof.
  intros Hf. unfold frame_bytes. rewrite <- app_assoc, Decode_header by done.
  unfold plen. rewrite read_payload_app, Z.eqb_refl. by rewrite with_payload_id.
Qed.

(** ** The scan for a swallowed frame *)

(** A complete intact frame at the front of the buffer is always reported. *)
Lemma candidate_found f t spent budget : frame_ok f ->
  embed_candidate (frame_bytes f ++ t) spent budget = inl true.
Proof.
  intros Hf. destruct (length_header f Hf) as [Hl Hge].
  unfold frame_bytes. rewrite <- app_assoc. set (b := header f ++ Payload f ++ t).
  destruct (header_fields f (Payload f ++ t) Hf) as (F1 & F2 & F3 & F4 & F5 & _). fold b in F1, F2, F3, F4, F5.
  assert (Hlb : length b = (headerSizeFor (Version f) + length (Payload f) + length t)%nat)
    by (unfold b; rewrite !length_app; lia).
  unfold embed_candidate. rewrite F1, bool_decide_eq_true_2 by done. cbn [negb]. rewrite F2.
  rewrite bool_decide_eq_false_2 by (rewrite <- Hl; unfold HeaderSize in Hge; lia).
  rewrite bool_decide_eq_false_2 by lia. cbn [orb]. rewrite F3, F4.
  destruct (Z.ltb_spec maxFrameSize (plen f)); [pose proof (fo_len f Hf); unfold plen in *; lia|].
  destruct (Z.ltb_spec (Z.of_nat (length b)) (Z.of_nat (headerSizeFor (Version f)) + plen f));
    [unfold plen in *; lia|].
  case_match; [done|].
  assert (slice 0 (headerSizeFor (Version f)) b = header f) as ->.
  { unfold slice, b. rewrite Nat.sub_0_r. rewrite drop_0, <- Hl. apply take_app_length. }
  assert (slice (headerSizeFor (Version f)) (headerSizeFor (Version f) + Z.to_nat (plen f)) b = Payload f) as ->.
  { unfold slice, b, plen. rewrite Nat2Z.id, <- Hl, drop_app_length.
    replace (length (header f) + length (Payload f) - length (header f))%nat
      with (length (Payload f)) by lia. by rewrite take_app_length. }
  destruct (header_fields f [] Hf) as (_ & _ & _ & _ & F5' & _). rewrite app_nil_r in F5'.
  by rewrite F5', Z.eqb_refl.
Qed.

Lemma candidate_verdict b spent budget r : embed_candidate b spent budget = inl r -> r = true.
Proof. unfold embed_candidate. intros H. repeat case_match; congruence. Qed.

Lemma scan_found pre f t spent budget : frame_ok f ->
  embed_scan (pre ++ frame_bytes f ++ t) spent budget = true.
Proof.
  intros Hf. revert spent. assert (Hlen : (HeaderSize <= length (frame_bytes f))%nat).
  { unfold frame_bytes. rewrite length_app. destruct (length_header f Hf). lia. }
  induction pre as [|x pre IH]; intros spent.
  - simpl app. destruct (frame_bytes f ++ t) as [|y b] eqn:E.
    { apply (f_equal length) in E. rewrite length_app in E. simpl in E. unfold HeaderSize in Hlen. lia. }
    cbn [embed_scan]. rewrite <- E, bool_decide_eq_false_2 by (rewrite length_app; lia).
    by rewrite candidate_found.
  - change ((x :: pre) ++ frame_bytes f ++ t) with (x :: (pre ++ frame_bytes f ++ t)).
    cbn [embed_scan]. rewrite bool_decide_eq_false_2 by (simpl; rewrite !length_app; lia).
    destruct (embed_candidate _ _ _) as [r|spent'] eqn:E; [by eapply candidate_verdict|apply IH].
Qed.

(** ** Replay *)

(** The decoded form of what lies at the end of the log. *)
Lemma Frames_app {S} (yield : S -> Frame -> S * bool) f st rest tl tot te fuel : frame_ok f ->
  Frames (Datatypes.S fuel) yield st (mkReader (frame_bytes f ++ rest) tl tot te) =
  let tot' := tot + Z.of_nat (length (frame_bytes f)) in
  match yield st f with
  | (st', true) => Frames fuel yield st' (mkReader rest tl tot' te)
  | (st', false) => Some (st', mkReader rest tot' tot' te)
  end.
Proof.
  intros Hf. cbn [Frames]. unfold decodeOne. cbn [bufr totalRead].
  assert (Hlen : (HeaderSize <= length (frame_bytes f))%nat).
  { unfold frame_bytes. rewrite length_app. destruct (length_header f Hf). lia. }
  destruct (frame_bytes f ++ rest) eqn:E.
  { apply (f_equal length) in E. rewrite length_app in E. simpl in E. unfold HeaderSize in Hlen. lia. }
  rewrite <- E, Decode_frame by done. cbv beta iota zeta. by rewrite <- frame_size.
Qed.

(** What the end of the log decodes to. *)
Inductive tail_kind (t : list Z) : option wal_err -> Prop :=
  | tail_clean : t = [] -> tail_kind t None
  | tail_err e : t <> [] -> fst (Decode t) = inl e -> e <> EOF -> tail_kind t (Some e).

Lemma Decode_not_EOF r : fst (Decode r) <> inl EOF.
Proof. unfold Decode. repeat case_match; simpl; congruence. Qed.

(** A consumer that never stops sees every frame before the tail, in order. *)
Lemma Frames_all {S} (yield : S -> Frame -> S * bool) fs : (forall st f, snd (yield st f) = true) ->
  forall st t tl tot k fuel, Forall frame_ok fs -> tail_kind t k -> (length fs < fuel)%nat ->
  exists r, Frames fuel yield st (mkReader (concat (map frame_bytes fs) ++ t) tl tot None) =
    Some (fold_left (fun st f => fst (yield st f)) fs st, r) /\
    tail r = tot + Z.of_nat (length (concat (map frame_bytes fs))) /\ tailErr r = k.
Proof.
  intros Hy. induction fs as [|f fs IH]; intros st t tl tot k fuel Hfs Ht Hfuel;
    (destruct fuel as [|fuel]; [simpl in Hfuel; lia|]).
  - cbn [map concat app length fold_left]. rewrite Z.add_0_r. cbn [Frames].
    unfold decodeOne. cbn [bufr totalRead].
    destruct Ht as [->|e Hne E Hn]; [eexists; split; [reflexivity|done]|].
    destruct t as [|b t]; [done|]. destruct (Decode (b :: t)) as [r rest].
    simpl in E. subst r. rewrite bool_decide_eq_false_2 by done. eexists; split; [reflexivity|done].
  - inversion Hfs; subst. cbn [map concat fold_left]. rewrite <- app_assoc, Frames_app by done.
    cbv zeta. simpl in Hfuel. pose proof (Hy st f). destruct (yield st f) as [st' b]. simpl in *. subst b.
    destruct (IH st' t tl (tot + Z.of_nat (length (frame_bytes f))) k fuel)
      as (r & E & Hr & Hk); [done|done|lia|].
    exists r. split; [exact E|]. split; [|done]. rewrite length_app. lia.
Qed.

Lemma concat_length fs : Forall frame_ok fs ->
  (length fs <= length (concat (map frame_bytes fs)))%nat.
Proof.
  induction 1 as [|f fs Hf _ IH]; [done|]. cbn [map concat length].
  rewrite length_app. destruct (length_header f Hf) as [_ Hge].
  assert (1 <= length (frame_bytes f))%nat; [|lia].
  unfold frame_bytes. rewrite length_app. unfold HeaderSize in Hge. lia.
Qed.

(** ** Torn tails *)

Lemma torn_tail f n : frame_ok f -> (n < FrameSize f)%nat ->
  fst (Decode (take n (frame_bytes f))) =
  inl (if embedsValidFrame (drop (headerSizeFor (Version f)) (take n (frame_bytes f)))
       then ErrTornFrameMasksData else ErrTornFrame).
Proof.
  intros Hf Hn. rewrite <- frame_size in Hn by done. destruct (length_header f Hf) as [Hl Hge].
  unfold frame_bytes in *. rewrite length_app in Hn.
  destruct (decide (length (header f) <= n)%nat) as [Hc|Hc].
  - rewrite take_app_ge by done. set (t := take (n - length (header f)) (Payload f)).
    rewrite Decode_header, read_payload_short by (done || unfold plen, t; rewrite length_take; lia).
    by rewrite <- Hl, drop_app_length.
  - rewrite take_app_le by lia.
    rewrite (drop_ge (take n (header f))) by (rewrite length_take; lia).
    change (embedsValidFrame []) with false. cbv iota.
    assert (Ht : length (take n (header f)) = n) by (rewrite length_take; lia).
    unfold Decode. unfold take_bytes at 1. rewrite Ht. case_decide; [|done].
    rewrite take_take, Nat.min_l by lia.
    destruct (header_fields f [] Hf) as (F1 & F2 & _). rewrite app_nil_r in *.
    rewrite <- (take_drop HeaderSize (header f)) in F1, F2.
    unfold le_at in *. rewrite slice_short in F1, F2 by (rewrite ?length_take; unfold HeaderSize in *; lia).
    rewrite F1, F2, bool_decide_eq_true_2 by done. cbn [negb].
    rewrite bool_decide_eq_false_2 by by apply frame_hsz.
    unfold take_bytes. rewrite decide_False; [done|]. rewrite length_drop, Ht, <- Hl. lia.
Qed.

(** ** Termination of the loop *)

Lemma Decode_consumes r f rest : Decode r = (inr f, rest) -> (length rest < length r)%nat.
Proof.
  unfold Decode. intros H.
  destruct (take_bytes HeaderSize r) as [[h1 r1]|] eqn:E1; [|done].
  destruct (take_bytes_spec _ _ _ _ E1) as [-> Hl1].
  case_match; [done|]. case_match; [done|].
  destruct (take_bytes _ r1) as [[h2 r2]|] eqn:E2; [|done].
  destruct (take_bytes_spec _ _ _ _ E2) as [-> Hl2].
  assert (forall n p q, readFramePayload r2 n = inr (p, q) -> (length q <= length r2)%nat) as Hp.
  { unfold readFramePayload. intros n p q Hq.
    destruct (take_bytes _ r2) as [[x y]|] eqn:E3; [|done]. simplify_eq.
    destruct (take_bytes_spec _ _ _ _ E3) as [-> _]. rewrite length_app. lia. }
  assert (length rest <= length r2)%nat.
  { repeat case_match; simplify_eq; eauto. }
  rewrite !length_app, Hl1. unfold HeaderSize. lia.
Qed.

(** ** Properties *)

(** a WAL frame round-trips.  Every frame the writer may hand to [Encode] --
    either version, any payload up to the one-gibibyte ceiling -- is accepted,
    takes [FrameSize] bytes, and decodes to itself whatever follows it. *)
Theorem frame_roundtrip f : frame_ok f ->
  exists bs, Encode f = inr bs /\ length bs = FrameSize f /\
    forall rest, Decode (bs ++ rest) = (inr f, rest).
Proof.
  intros Hf. exists (frame_bytes f). split; [by apply Encode_bytes|].
  split; [by apply frame_size|]. intros rest. by apply Decode_frame.
Qed.

(** a crash in the middle of a write is recognised.  However many bytes of a
    frame reached the disk, short of all of them, decoding them is never a frame
    and never a checksum or magic error: it is a torn tail, promoted to
    [ErrTornFrameMasksData] exactly when the bytes after the header look like they
    contain a complete valid frame. *)
Theorem torn_tail_detected f n : frame_ok f -> (n < FrameSize f)%nat ->
  fst (Decode (take n (frame_bytes f))) =
  inl (if embedsValidFrame (drop (headerSizeFor (Version f)) (take n (frame_bytes f)))
       then ErrTornFrameMasksData else ErrTornFrame).
Proof. apply torn_tail. Qed.

(** a corrupted byte is detected.  Replacing any one payload byte of a durable
    frame by a different one makes [Decode] report [ErrCRCMismatch], never a frame
    with altered contents. *)
Theorem corrupt_byte_detected f pre b b' post rest : frame_ok f ->
  Payload f = pre ++ b :: post -> is_byte b' -> b' <> b ->
  Decode (header f ++ (pre ++ b' :: post) ++ rest) = (inl ErrCRCMismatch, rest).
Proof.
  intros Hf Hp Hb' Hne. rewrite Decode_header by done.
  assert (plen f = Z.of_nat (length (pre ++ b' :: post))) as ->
    by (unfold plen; rewrite Hp, !length_app; done).
  rewrite read_payload_app. destruct (Z.eqb_spec (crc_over f (pre ++ b' :: post)) (crc_over f (Payload f))) as [E|];
    [|done]. exfalso. pose proof (fo_bytes f Hf) as Hb. rewrite Hp in Hb, E.
  apply Forall_app in Hb as [Hpre Hb]. apply Forall_cons in Hb as [Hb Hpost].
  destruct (bytes_head f) as [Hlh Hvh]. assert (H0 : is_u32 0) by done. unfold crc_over in E. case_match.
  - revert E. apply crc_one_byte; auto using crc_update_range.
  - apply crc_update_inj in E; auto.
    + revert E. by apply crc_one_byte.
    + apply crc_update_range; [|done]. apply Forall_app; auto.
    + apply crc_update_range; [|done]. apply Forall_app; auto.
Qed.

(** a corrupt length never hides durable frames.  When a header declares more
    payload than the input has left and a complete durable frame starts anywhere
    in the bytes it would have consumed, [Decode] fails with
    [ErrTornFrameMasksData], which recovery treats as corruption, and not with the
    benign [ErrTornFrame]. *)
Theorem corrupt_length_detected h v pre f post : frame_ok f ->
  length h = headerSizeFor v -> headerSizeFor v <> 0%nat ->
  slice 0 4 h = Magic -> le_at 4 6 h = v -> header_plen v h <= maxFrameSize ->
  Z.of_nat (length (pre ++ frame_bytes f ++ post)) < header_plen v h ->
  fst (Decode (h ++ pre ++ frame_bytes f ++ post)) = inl ErrTornFrameMasksData.
Proof.
  intros Hf Hl H0 H1 H2 Hmax Hlen. rewrite (Decode_complete _ v) by done.
  destruct (Z.ltb_spec maxFrameSize (header_plen v h)); [lia|].
  rewrite read_payload_short by done. unfold embedsValidFrame. by rewrite scan_found.
Qed.

(** C27: replay delivers exactly the durable prefix.  Over a log that holds the
    frames [fs] followed by the first [n] bytes of one more frame, an interrupted
    write, [Replay] applies [fs] in order and nothing else, reports no error, and
    leaves [TailOffset] at the end of the last complete frame. *)
Theorem replay_durable {S E} (apply : S -> Frame -> S * option E) st fs g n :
  (forall st f, snd (apply st f) = None) ->
  Forall frame_ok fs -> frame_ok g -> (n < FrameSize g)%nat ->
  embedsValidFrame (drop (headerSizeFor (Version g)) (take n (frame_bytes g))) = false ->
  let log := concat (map frame_bytes fs) ++ take n (frame_bytes g) in
  exists r, Replay (Datatypes.S (length log)) apply st (NewReader log) =
    Some (fold_left (fun st f => fst (apply st f)) fs st, None, r) /\
    tail r = Z.of_nat (length (concat (map frame_bytes fs))).
Proof.
  intros Ha Hfs Hg Hn He log. pose proof (torn_tail g n Hg Hn) as Ht. rewrite He in Ht.
  pose proof (concat_length fs Hfs) as Hlen. unfold Replay.
  set (yield := fun (se : S * option E) f => let '(st', e) := apply (fst se) f in
    ((st', e), match e with None => true | Some _ => false end)).
  assert (Hy : forall se f, yield se f = ((fst (apply (fst se) f), None), true)).
  { intros se f. unfold yield. pose proof (Ha (fst se) f). destruct (apply (fst se) f) as [x y]. simpl in *. by subst. }
  destruct (Frames_all yield fs (fun se f => f_equal snd (Hy se f)) (st, None)
    (take n (frame_bytes g)) 0 0 (if decide (n = 0%nat) then None else Some ErrTornFrame)
    (Datatypes.S (length log))) as (r & E1 & Hr & Hk).
  - done.
  - destruct (decide (n = 0%nat)) as [->|Hn0]; [by constructor|]. constructor; [|done|done].
    intros E0. apply (f_equal length) in E0. rewrite length_take, frame_size in E0 by done. simpl in E0. lia.
  - unfold log. rewrite length_app. lia.
  - exists r. change (NewReader log) with (mkReader log 0 0 None). unfold log at 2. rewrite E1.
    assert (Hfold : forall fs st o, fold_left (fun se f => fst (yield se f)) fs (st, o) =
      (fold_left (fun st f => fst (apply st f)) fs st, match fs with [] => o | _ => None end)).
    { clear -Hy. induction fs as [|f fs IH]; intros st o; [done|]. cbn [fold_left].
      rewrite Hy. cbn [fst]. rewrite IH. by destruct fs. }
    rewrite Hfold. split; [|done]. rewrite Hk. by destruct fs; case_decide.
Qed.

(** the replay loop terminates.  [Reader.Frames] returns on every input, with
    any consumer: each frame it decodes consumes input, so one unit of fuel per
    byte, and one more, is enough. *)
Theorem Frames_terminates {S} (yield : S -> Frame -> S * bool) fuel st r :
  (length (bufr r) < fuel)%nat -> is_Some (Frames fuel yield st r).
Proof.
  revert st r. induction fuel as [|fuel IH]; intros st r Hf; [lia|].
  cbn [Frames]. destruct (decodeOne r) as [[e|f] rest] eqn:E; [eauto|].
  destruct (yield st f) as [st' [|]]; [|eauto]. apply IH. cbn [bufr].
  unfold decodeOne in E. destruct (bufr r) eqn:Eb; [done|]. apply Decode_consumes in E. lia.
Qed.

(** ** Witnesses *)

Definition demo_frame (v : Z) (p : list Z) : Frame := mkFrame p 0 0 0 v.

Lemma demo_frame_ok v p : bool_decide (bytes p) = true -> v = 1 \/ v = 2 ->
  (length p <= 100)%nat -> frame_ok (demo_frame v p).
Proof.
  intros Hb Hv Hl. constructor; simpl; try lia; try done.
  - by apply bool_decide_eq_true in Hb.
  - change maxFrameSize with 1073741824. lia.
Qed.

Definition demo1 : Frame := demo_frame 2 [1; 2; 3].
Definition demo2 : Frame := demo_frame 1 [9; 8].

Lemma demo1_ok : frame_ok demo1.
Proof. apply demo_frame_ok; [by vm_compute|by right|simpl; lia]. Qed.
Lemma demo2_ok : frame_ok demo2.
Proof. apply demo_frame_ok; [by vm_compute|by left|simpl; lia]. Qed.

Lemma frame_roundtrip_witness : exists bs, Encode demo1 = inr bs /\ length bs = 39%nat /\
  Decode (bs ++ [0]) = (inr demo1, [0]).
Proof.
  destruct (frame_roundtrip demo1 demo1_ok) as (bs & E & Hl & H).
  exists bs. split; [exact E|]. split; [exact Hl|apply H].
Defined.

Lemma torn_tail_detected_witness : fst (Decode (take 38 (frame_bytes demo1))) = inl ErrTornFrame.
Proof.
  rewrite (torn_tail_detected demo1 38 demo1_ok); [by vm_compute|]. vm_compute. lia.
Defined.

Lemma corrupt_byte_detected_witness :
  Decode (header demo1 ++ ([1] ++ 7 :: [3]) ++ []) = (inl ErrCRCMismatch, []).
Proof.
  apply (corrupt_byte_detected demo1 [1] 2 7 [3] [] demo1_ok); [done|split; by vm_compute|done].
Defined.

(** A header that declares 100 bytes, over the 39 of a durable frame. *)
Definition demo_bad_header : list Z := slice 0 36 (header (demo_frame 2 (replicate 100 0))).

Lemma corrupt_length_detected_witness :
  fst (Decode (demo_bad_header ++ [0] ++ frame_bytes demo1 ++ [5])) = inl ErrTornFrameMasksData.
Proof.
  apply (corrupt_length_detected demo_bad_header 2 [0] demo1 [5] demo1_ok); by vm_compute.
Defined.

Lemma replay_durable_witness :
  let log := concat (map frame_bytes [demo1; demo2]) ++ take 37 (frame_bytes demo1) in
  exists r, Replay (S (length log)) (fun acc f => (acc ++ [Payload f], @None unit)) [] (NewReader log) =
    Some ([[1; 2; 3]; [9; 8]], None, r) /\ tail r = 55.
Proof.
  apply (replay_durable (fun acc f => (acc ++ [Payload f], @None unit)) [] [demo1; demo2] demo1 37).
  - done.
  - apply Forall_cons_2; [exact demo1_ok|]. apply Forall_cons_2; [exact demo2_ok|apply Forall_nil_2].
  - exact demo1_ok.
  - vm_compute. lia.
  - by vm_compute.
Defined.

Lemma Frames_terminates_witness :
  is_Some (Frames 4 (fun (n : nat) _ => (S n, true)) 0%nat (NewReader [1; 2; 3])).
Proof. apply Frames_terminates. simpl. lia. Defined.
