(* ===== verification/TxnCodec.v ===== *)
(** * Key and weight codecs of the transaction log

    Model of [store/txn/codec.go] and [store/txn/weight_codec.go]: the codecs that
    turn node keys and edge weights into WAL payload bytes, behind one interface,
    with the [encoding/binary] varints they are built on.  A user type's
    [MarshalBinary] and [UnmarshalBinary] are parameters. *)

From Stdlib Require Import ZArith Lia.
From S2P Require Import Prelude Wire.

Local Open Scope Z_scope.

(** ** Varints *)

Definition MaxVarintLen64 : nat := 10.

(** [binary.AppendUvarint]: the bytes appended.  Ten groups of seven bits hold any
    64-bit value. *)
Fixpoint put_uvarint (fuel : nat) (x : Z) : list Z :=
  match fuel with
  | O => []
  | S fuel =>
      if 0x80 <=? x then Z.lor (u8 x) 0x80 :: put_uvarint fuel (Z.shiftr x 7) else [u8 x]
  end.

Definition AppendUvarint (buf : list Z) (x : Z) : list Z := buf ++ put_uvarint MaxVarintLen64 x.

(** [binary.AppendVarint]: zig-zag, then unsigned. *)
Definition zigzag (x : Z) : Z :=
  let ux := u64 (Z.shiftl (u64 x) 1) in
  if x <? 0 then 2 ^ 64 - 1 - ux else ux.

Definition AppendVarint (buf : list Z) (x : Z) : list Z := AppendUvarint buf (zigzag x).

(** [binary.Uvarint]: the value and the bytes read; [None] is the source's [n <= 0],
    a short buffer or an overflow. *)
Fixpoint uvarint_loop (i : nat) (x s : Z) (buf : list Z) : option (Z * nat) :=
  match buf with
  | [] => None
  | b :: buf =>
      if bool_decide (i = MaxVarintLen64) then None
      else if b <? 0x80 then
        if bool_decide (i = MaxVarintLen64 - 1)%nat && (1 <? b) then None
        else Some (u64 (Z.lor x (Z.shiftl b s)), S i)
      else uvarint_loop (S i) (u64 (Z.lor x (Z.shiftl (Z.land b 0x7F) s))) (s + 7) buf
  end.

Definition Uvarint (buf : list Z) : option (Z * nat) := uvarint_loop 0 0 0 buf.

(** [binary.Varint]. *)
Definition unzigzag (ux : Z) : Z :=
  let x := Z.shiftr ux 1 in if Z.land ux 1 =? 0 then x else - x - 1.

Definition Varint (buf : list Z) : option (Z * nat) :=
  match Uvarint buf with Some (ux, n) => Some (unzigzag ux, n) | None => None end.

(** ** The interface *)

(** [Codec[N]] and [WeightCodec[W]]: [None] is an error, on which both operations
    return their input buffer. *)
Class Codec (A : Type) := mkCodec {
  encode : list Z -> A -> option (list Z);
  decode : list Z -> option (A * list Z)
}.

Definition MaxUint32 : Z := 2 ^ 32 - 1.

(** ** Node-key codecs *)

Definition stringCodec_Encode (buf : list Z) (v : list Z) : option (list Z) :=
  if MaxUint32 <? u64 (Z.of_nat (length v)) then None
  else Some ((buf ++ putLE 4 (u32 (Z.of_nat (length v)))) ++ v).

(** The length prefix and the body it announces. *)
Definition take_prefixed (buf : list Z) : option (list Z * list Z) :=
  match take_bytes 4 buf with
  | None => None
  | Some (p, rest) => take_bytes (Z.to_nat (getLE p)) rest
  end.

Definition stringCodec_Decode (buf : list Z) : option (list Z * list Z) := take_prefixed buf.

Definition intCodec_Encode (buf : list Z) (v : Z) : option (list Z) := Some (AppendVarint buf v).

(** Decode a varint and check it against a range. *)
Definition varint_in (lo hi : Z) (buf : list Z) : option (Z * list Z) :=
  match Varint buf with
  | None => None
  | Some (x, n) => if (hi <? x) || (x <? lo) then None else Some (x, drop n buf)
  end.

Definition intCodec_Decode : list Z -> option (Z * list Z) := varint_in (- 2 ^ 63) (2 ^ 63 - 1).
Definition int32Codec_Encode := intCodec_Encode.
Definition int32Codec_Decode : list Z -> option (Z * list Z) := varint_in (- 2 ^ 31) (2 ^ 31 - 1).
Definition int64Codec_Encode := intCodec_Encode.

Definition int64Codec_Decode (buf : list Z) : option (Z * list Z) :=
  match Varint buf with Some (x, n) => Some (x, drop n buf) | None => None end.

Definition uint64Codec_Encode (buf : list Z) (v : Z) : option (list Z) := Some (AppendUvarint buf v).

Definition uint64Codec_Decode (buf : list Z) : option (Z * list Z) :=
  match Uvarint buf with Some (x, n) => Some (x, drop n buf) | None => None end.

Definition uuidCodec_Encode (buf : list Z) (v : list Z) : option (list Z) := Some (buf ++ v).
Definition uuidCodec_Decode (buf : list Z) : option (list Z * list Z) := take_bytes 16 buf.

(** ** Weight codecs *)

Definition int64WeightCodec_Encode := intCodec_Encode.
Definition int64WeightCodec_Decode := int64Codec_Decode.

Definition float64WeightCodec_Encode (buf : list Z) (bits : Z) : option (list Z) :=
  Some (buf ++ putLE 8 bits).

Definition float64WeightCodec_Decode (buf : list Z) : option (Z * list Z) :=
  match take_bytes 8 buf with Some (p, rest) => Some (getLE p, rest) | None => None end.

(** ** User types *)

Section marshaler.
Context {A : Type}.
Variable MarshalBinary : A -> option (list Z).
Variable UnmarshalBinary : list Z -> option A.

Definition binaryMarshalerCodec_Encode (buf : list Z) (v : A) : option (list Z) :=
  match MarshalBinary v with
  | None => None
  | Some data => stringCodec_Encode buf data
  end.

Definition binaryMarshalerCodec_Decode (buf : list Z) : option (A * list Z) :=
  match take_prefixed buf with
  | None => None
  | Some (body, rest) =>
      match UnmarshalBinary body with Some v => Some (v, rest) | None => None end
  end.

(** The codecs of a key type and of a weight type are the same functions. *)
Definition binaryMarshalerCodec : Codec A :=
  mkCodec A binaryMarshalerCodec_Encode binaryMarshalerCodec_Decode.
End marshaler.

Definition NewStringCodec : Codec (list Z) := mkCodec _ stringCodec_Encode stringCodec_Decode.
Definition NewIntCodec : Codec Z := mkCodec _ intCodec_Encode intCodec_Decode.
Definition NewInt32Codec : Codec Z := mkCodec _ int32Codec_Encode int32Codec_Decode.
Definition NewInt64Codec : Codec Z := mkCodec _ int64Codec_Encode int64Codec_Decode.
Definition NewUint64Codec : Codec Z := mkCodec _ uint64Codec_Encode uint64Codec_Decode.
Definition NewUUIDCodec : Codec (list Z) := mkCodec _ uuidCodec_Encode uuidCodec_Decode.
Definition NewInt64WeightCodec : Codec Z :=
  mkCodec _ int64WeightCodec_Encode int64WeightCodec_Decode.
Definition NewFloat64WeightCodec : Codec Z :=
  mkCodec _ float64WeightCodec_Encode float64WeightCodec_Decode.

(** ** The contract *)

(** Encoding appends a self-delimiting representation: decoding it gives the value
    and exactly what follows, and no strict prefix of it decodes. *)
Class CodecLaws {A} (C : Codec A) (valid : A -> Prop) : Prop := {
  codec_roundtrip v : valid v -> exists bs,
    (forall buf, encode buf v = Some (buf ++ bs)) /\
    (forall rest, decode (bs ++ rest) = Some (v, rest)) /\
    (forall n, (n < length bs)%nat -> decode (take n bs) = None)
}.

(** Records of several values, one after the other, as the transaction log writes
    them, against the interface alone. *)
Section sequence.
Context {A : Type} (C : Codec A).

Fixpoint encode_all (buf : list Z) (vs : list A) : option (list Z) :=
  match vs with
  | [] => Some buf
  | v :: vs => match encode buf v with Some buf' => encode_all buf' vs | None => None end
  end.

Fixpoint decode_all (n : nat) (buf : list Z) : option (list A * list Z) :=
  match n with
  | O => Some ([], buf)
  | S n =>
      match decode buf with
      | None => None
      | Some (v, rest) =>
          match decode_all n rest with Some (vs, r) => Some (v :: vs, r) | None => None end
      end
  end.
End sequence.

(** ** Unsigned varints *)

Lemma group_bits c : 0 <= c < 256 ->
  0x80 <= Z.lor c 0x80 /\ Z.land (Z.lor c 0x80) 0x7F = c mod 128.
Proof.
  apply (small_range (fun c => 0x80 <= Z.lor c 0x80 /\ Z.land (Z.lor c 0x80) 0x7F = c mod 128) 256).
  by vm_compute.
Qed.

Lemma u8_range z : 0 <= u8 z < 256.
Proof. by apply Z.mod_pos_bound. Qed.

Lemma u8_mod128 z : u8 z mod 128 = z mod 128.
Proof.
  unfold u8. rewrite (Z.div_mod z (2 ^ 8)) at 2 by lia.
  replace (2 ^ 8 * (z / 2 ^ 8) + z mod 2 ^ 8) with (z mod 2 ^ 8 + (2 * (z / 2 ^ 8)) * 128) by lia.
  by rewrite Z.mod_add.
Qed.

(** The loop with the groups of [v] in front of it, having accumulated [x] from
    [i] groups: it reads them all, and only them. *)
Lemma uvarint_loop_put fuel : forall i x v rest,
  (i + fuel = MaxVarintLen64)%nat -> 0 <= x < 2 ^ (7 * Z.of_nat i) -> 0 <= v ->
  x + v * 2 ^ (7 * Z.of_nat i) < 2 ^ 64 -> (0 < fuel)%nat ->
  uvarint_loop i x (7 * Z.of_nat i) (put_uvarint fuel v ++ rest) =
    Some (x + v * 2 ^ (7 * Z.of_nat i), (i + length (put_uvarint fuel v))%nat) /\
  (forall n, (n < length (put_uvarint fuel v))%nat ->
    uvarint_loop i x (7 * Z.of_nat i) (take n (put_uvarint fuel v)) = None).
Proof.
  induction fuel as [|fuel IH]; intros i x v rest Hi Hx Hv Hlt Hf; [lia|].
  assert (Hp : 0 < 2 ^ (7 * Z.of_nat i)) by (apply Z.pow_pos_nonneg; lia).
  cbn [put_uvarint]. destruct (Z.leb_spec 128 v) as [Hb|Hb].
  - destruct (group_bits (u8 v) (u8_range v)) as [Hge Hland].
    rewrite u8_mod128 in Hland.
    assert (Hsplit : v = v mod 128 + Z.shiftr v 7 * 128).
    { rewrite Z.shiftr_div_pow2 by lia. pose proof (Z.div_mod v 128). change (2 ^ 7) with 128. lia. }
    assert (Hsh : 0 <= Z.shiftr v 7) by (apply Z.shiftr_nonneg; lia).
    pose proof (Z.mod_pos_bound v 128 ltac:(lia)) as Hm.
    assert (Hpow : 2 ^ (7 * Z.of_nat (S i)) = 128 * 2 ^ (7 * Z.of_nat i)).
    { replace (7 * Z.of_nat (S i)) with (7 + 7 * Z.of_nat i) by lia.
      rewrite Z.pow_add_r by lia. done. }
    set (p := 2 ^ (7 * Z.of_nat i)) in *.
    set (x' := x + v mod 128 * p).
    assert (Hstep : forall l, uvarint_loop i x (7 * Z.of_nat i) (Z.lor (u8 v) 128 :: l) =
      uvarint_loop (S i) x' (7 * Z.of_nat (S i)) l).
    { intros l. cbn [uvarint_loop]. rewrite bool_decide_eq_false_2 by (unfold MaxVarintLen64 in *; lia).
      destruct (Z.ltb_spec (Z.lor (u8 v) 128) 128); [lia|].
      rewrite Hland, lor_shiftl by lia. fold p. unfold x'. rewrite u64_small by nia.
      f_equal. lia. }
    destruct (Nat.eq_dec fuel 0%nat) as [->|Hf0].
    { exfalso. assert (Z.of_nat i = 9) as Ei by (unfold MaxVarintLen64 in *; lia).
      unfold p in Hlt. rewrite Ei in Hlt. change (2 ^ (7 * 9)) with 9223372036854775808 in Hlt. lia. }
    assert (Ex : x' + Z.shiftr v 7 * 2 ^ (7 * Z.of_nat (S i)) = x + v * p)
      by (rewrite Hpow; unfold x'; rewrite Hsplit at 3; ring).
    destruct (IH (S i) x' (Z.shiftr v 7) rest) as [E1 E2]; [lia| |done| |lia|].
    { rewrite Hpow. unfold x'. nia. }
    { rewrite Ex. done. }
    simpl app. rewrite Hstep, E1. split.
    + rewrite Ex. cbn [length]. f_equal. f_equal. lia.
    + intros [|n] Hn; [done|]. cbn [take]. rewrite Hstep. apply E2. cbn [length] in Hn. lia.
  - simpl app. assert (u8 v = v) as -> by (apply Z.mod_small; lia). cbn [length]. split.
    + cbn [uvarint_loop]. rewrite bool_decide_eq_false_2 by (unfold MaxVarintLen64 in *; lia).
      destruct (Z.ltb_spec v 128); [|lia].
      assert (bool_decide (i = MaxVarintLen64 - 1)%nat && (1 <? v) = false) as ->.
      { apply andb_false_iff. destruct (decide (i = MaxVarintLen64 - 1)%nat) as [Ei|Ei];
          [|left; by apply bool_decide_eq_false_2]. right. apply Z.ltb_ge.
        assert (Z.of_nat i = 9) as Ei' by (rewrite Ei; done). rewrite Ei' in Hlt.
        change (2 ^ (7 * 9)) with 9223372036854775808 in Hlt. lia. }
      rewrite lor_shiftl by lia. rewrite u64_small by lia. do 2 f_equal. lia.
    + intros n Hn. by assert (n = 0%nat) as -> by lia.
Qed.

Lemma Uvarint_put v rest : 0 <= v < 2 ^ 64 ->
  Uvarint (put_uvarint MaxVarintLen64 v ++ rest) =
    Some (v, length (put_uvarint MaxVarintLen64 v)) /\
  (forall n, (n < length (put_uvarint MaxVarintLen64 v))%nat ->
    Uvarint (take n (put_uvarint MaxVarintLen64 v)) = None).
Proof.
  intros Hv. destruct (uvarint_loop_put MaxVarintLen64 0%nat 0 v rest) as [E1 E2];
    [done|by change (2 ^ (7 * Z.of_nat 0)) with 1|lia|change (2 ^ (7 * Z.of_nat 0)) with 1; lia
    |unfold MaxVarintLen64; lia|].
  split; [|exact E2]. unfold Uvarint. change (uvarint_loop 0 0 0) with (uvarint_loop 0 0 (7 * Z.of_nat 0)). rewrite E1.
  change (2 ^ (7 * Z.of_nat 0)) with 1. do 2 f_equal. lia.
Qed.

(** ** Zig-zag *)

Lemma zigzag_value x : - 2 ^ 63 <= x < 2 ^ 63 -> zigzag x = if x <? 0 then - 2 * x - 1 else 2 * x.
Proof.
  intros Hx. unfold zigzag. rewrite Z.shiftl_mul_pow2 by lia. change (2 ^ 1) with 2.
  destruct (Z.ltb_spec x 0) as [H|H].
  - assert (u64 x = x + 2 ^ 64) as ->.
    { symmetry. apply (Z.mod_unique_pos x (2 ^ 64) (-1)); lia. }
    assert (u64 ((x + 2 ^ 64) * 2) = 2 * x + 2 ^ 64) as ->; [|lia].
    symmetry. apply (Z.mod_unique_pos _ (2 ^ 64) 1); lia.
  - rewrite (u64_small x) by lia. rewrite u64_small by lia. lia.
Qed.

Lemma zigzag_range x : - 2 ^ 63 <= x < 2 ^ 63 -> 0 <= zigzag x < 2 ^ 64.
Proof. intros Hx. rewrite zigzag_value by done. destruct (Z.ltb_spec x 0); lia. Qed.

Lemma unzigzag_zigzag x : - 2 ^ 63 <= x < 2 ^ 63 -> unzigzag (zigzag x) = x.
Proof.
  intros Hx. rewrite zigzag_value by done. unfold unzigzag.
  change 1 with (Z.ones 1) at 2. rewrite Z.land_ones by lia. change (2 ^ 1) with 2.
  rewrite Z.shiftr_div_pow2 by lia. change (2 ^ 1) with 2.
  destruct (Z.ltb_spec x 0) as [H|H].
  - replace (-2 * x - 1) with (1 + (- x - 1) * 2) by lia.
    rewrite Z.mod_add, Z.div_add by lia. change (1 mod 2) with 1. change (1 / 2) with 0. simpl. lia.
  - rewrite (Z.mul_comm 2), Z.mod_mul, Z.div_mul by lia. done.
Qed.

Lemma Varint_put x rest : - 2 ^ 63 <= x < 2 ^ 63 ->
  let bs := put_uvarint MaxVarintLen64 (zigzag x) in
  Varint (bs ++ rest) = Some (x, length bs) /\
  (forall n, (n < length bs)%nat -> Varint (take n bs) = None).
Proof.
  intros Hx bs. destruct (Uvarint_put (zigzag x) rest (zigzag_range x Hx)) as [E1 E2].
  unfold Varint. fold bs in E1, E2. rewrite E1, unzigzag_zigzag by done.
  split; [done|]. intros n Hn. by rewrite E2.
Qed.

(** ** The laws of every codec *)

(** A length prefix and its body. *)
Lemma take_prefixed_app body rest : Z.of_nat (length body) <= MaxUint32 ->
  let bs := putLE 4 (Z.of_nat (length body)) ++ body in
  take_prefixed (bs ++ rest) = Some (body, rest) /\
  (forall n, (n < length bs)%nat -> take_prefixed (take n bs) = None).
Proof.
  unfold MaxUint32. intros Hl. unfold take_prefixed. cbv zeta. split.
  - rewrite <- app_assoc, take_bytes_app by apply length_putLE.
    rewrite getLE_putLE by (change (width 4) with (2 ^ 32); lia). by rewrite Nat2Z.id, take_bytes_app.
  - intros n Hn. rewrite length_app, length_putLE in Hn.
    destruct (decide (n < 4)%nat).
    + unfold take_bytes. rewrite decide_False; [done|].
      rewrite length_take, length_app, length_putLE. lia.
    + rewrite take_app_ge by (rewrite length_putLE; lia). rewrite length_putLE.
      rewrite take_bytes_app by apply length_putLE.
      rewrite getLE_putLE by (change (width 4) with (2 ^ 32); lia).
      unfold take_bytes. rewrite decide_False; [done|]. rewrite length_take. lia.
Qed.

Lemma string_encode buf v : Z.of_nat (length v) <= MaxUint32 ->
  stringCodec_Encode buf v = Some (buf ++ putLE 4 (Z.of_nat (length v)) ++ v).
Proof.
  unfold stringCodec_Encode, MaxUint32. intros Hl.
  rewrite u64_small, u32_small by lia.
  destruct (Z.ltb_spec (2 ^ 32 - 1) (Z.of_nat (length v))); [lia|]. by rewrite app_assoc.
Qed.

Definition valid_string (v : list Z) : Prop := Z.of_nat (length v) <= MaxUint32.
Definition valid_int (w : Z) (x : Z) : Prop := - 2 ^ (w - 1) <= x < 2 ^ (w - 1).
Definition valid_u64 (x : Z) : Prop := 0 <= x < 2 ^ 64.
Definition valid_uuid (v : list Z) : Prop := length v = 16%nat.

Lemma string_refused buf v : MaxUint32 < Z.of_nat (length v) < 2 ^ 64 -> encode (Codec := NewStringCodec) buf v = None.
Proof.
  intros Hv. change (stringCodec_Encode buf v = None). unfold stringCodec_Encode. unfold MaxUint32 in *.
  rewrite u64_small by lia. by destruct (Z.ltb_spec (2 ^ 32 - 1) (Z.of_nat (length v))); [|lia].
Qed.

#[export] Instance string_laws : CodecLaws NewStringCodec valid_string.
Proof.
  constructor. intros v Hv. exists (putLE 4 (Z.of_nat (length v)) ++ v).
  split; [intros buf; by apply string_encode|].
  split; [intros rest|]; by apply take_prefixed_app.
Qed.

(** The varint codecs: any decoder that accepts the values it is handed. *)
Lemma varint_laws (dec : list Z -> option (Z * list Z)) (valid : Z -> Prop) :
  (forall x, valid x -> - 2 ^ 63 <= x < 2 ^ 63) ->
  (forall buf x n, valid x -> Varint buf = Some (x, n) -> dec buf = Some (x, drop n buf)) ->
  (forall buf, Varint buf = None -> dec buf = None) ->
  CodecLaws (mkCodec _ intCodec_Encode dec) valid.
Proof.
  intros H1 H2 H3. constructor. intros x Hx. specialize (H1 x Hx).
  exists (put_uvarint MaxVarintLen64 (zigzag x)). spl.
  - done.
  - intros rest. destruct (Varint_put x rest H1) as [E _]. cbn [decode]. rewrite (H2 _ _ _ Hx E).
    by rewrite drop_app_length.
  - intros n Hn. apply H3. destruct (Varint_put x [] H1) as [_ E]. by apply E.
Qed.

Lemma varint_in_laws lo hi w : lo = - 2 ^ (w - 1) -> hi = 2 ^ (w - 1) - 1 -> 0 < w <= 64 ->
  CodecLaws (mkCodec _ intCodec_Encode (varint_in lo hi)) (valid_int w).
Proof.
  intros -> -> Hw. apply varint_laws; unfold valid_int, varint_in.
  - intros x Hx. pose proof (Z.pow_le_mono_r 2 (w - 1) 63). lia.
  - intros buf x n Hx ->. destruct (Z.ltb_spec (2 ^ (w - 1) - 1) x), (Z.ltb_spec x (- 2 ^ (w - 1)));
      simpl; done || lia.
  - by intros buf ->.
Qed.

#[export] Instance int_laws : CodecLaws NewIntCodec (valid_int 64).
Proof. by apply varint_in_laws. Qed.

#[export] Instance int32_laws : CodecLaws NewInt32Codec (valid_int 32).
Proof. by apply varint_in_laws. Qed.

#[export] Instance int64_laws : CodecLaws NewInt64Codec (valid_int 64).
Proof.
  apply varint_laws; unfold int64Codec_Decode; [done|by intros ? ? ? ? ->|by intros ? ->].
Qed.

#[export] Instance int64_weight_laws : CodecLaws NewInt64WeightCodec (valid_int 64).
Proof. exact int64_laws. Qed.

#[export] Instance uint64_laws : CodecLaws NewUint64Codec valid_u64.
Proof.
  constructor. intros x Hx. exists (put_uvarint MaxVarintLen64 x). spl.
  - done.
  - intros rest. cbn [decode NewUint64Codec]. unfold uint64Codec_Decode.
    destruct (Uvarint_put x rest Hx) as [-> _]. by rewrite drop_app_length.
  - intros n Hn. cbn [decode NewUint64Codec]. unfold uint64Codec_Decode.
    destruct (Uvarint_put x [] Hx) as [_ E]. by rewrite E.
Qed.

(** The fixed-width codecs. *)
Lemma fixed_short n bs k : length bs = n -> (k < n)%nat -> take_bytes n (take k bs) = None.
Proof. intros <- Hk. unfold take_bytes. rewrite decide_False; [done|]. rewrite length_take. lia. Qed.

#[export] Instance uuid_laws : CodecLaws NewUUIDCodec valid_uuid.
Proof.
  constructor. intros v Hv. exists v. spl; [done|intros rest; by apply take_bytes_app|].
  intros n Hn. apply fixed_short; [done|]. by rewrite <- Hv.
Qed.

#[export] Instance float64_laws : CodecLaws NewFloat64WeightCodec valid_u64.
Proof.
  constructor. intros x Hx. exists (putLE 8 x). cbn [encode decode NewFloat64WeightCodec]. unfold float64WeightCodec_Decode. spl.
  - done.
  - intros rest. rewrite take_bytes_app by apply length_putLE. by rewrite getLE_putLE.
  - intros n Hn. rewrite length_putLE in Hn. by rewrite fixed_short by (rewrite ?length_putLE; done).
Qed.

Section marshaler_laws.
Context {A : Type} (MarshalBinary : A -> option (list Z)) (UnmarshalBinary : list Z -> option A).
Variable valid : A -> Prop.
Hypothesis marshal_ok : forall v, valid v -> exists data, MarshalBinary v = Some data /\
  valid_string data /\ UnmarshalBinary data = Some v.

Lemma marshaler_laws : CodecLaws (binaryMarshalerCodec MarshalBinary UnmarshalBinary) valid.
Proof.
  constructor. intros v Hv. destruct (marshal_ok v Hv) as (data & Em & Hl & Eu).
  exists (putLE 4 (Z.of_nat (length data)) ++ data). cbn [encode decode binaryMarshalerCodec].
  unfold binaryMarshalerCodec_Encode, binaryMarshalerCodec_Decode. rewrite Em. spl.
  - intros buf. by apply string_encode.
  - intros rest. destruct (take_prefixed_app data rest Hl) as [-> _]. by rewrite Eu.
  - intros n Hn. destruct (take_prefixed_app data [] Hl) as [_ E]. by rewrite E.
Qed.
End marshaler_laws.

(** ** The client of the interface *)

Section client.
Context {A : Type} {C : Codec A} {valid : A -> Prop} {laws : CodecLaws C valid}.

(** Whatever the codec, a record of several values decodes to them and leaves what
    follows; a record cut anywhere does not decode. *)
Lemma encode_all_app vs : Forall valid vs -> exists bs,
  (forall buf, encode_all C buf vs = Some (buf ++ bs)) /\
  (forall rest, decode_all C (length vs) (bs ++ rest) = Some (vs, rest)) /\
  (forall n, (n < length bs)%nat -> decode_all C (length vs) (take n bs) = None).
Proof.
  induction 1 as [|v vs Hv _ (bs & E1 & E2 & E3)].
  { exists []. spl; [intros; by rewrite app_nil_r|done|simpl; lia]. }
  destruct (codec_roundtrip v Hv) as (b & F1 & F2 & F3). exists (b ++ bs). cbn [encode_all decode_all length]. spl.
  - intros buf. by rewrite F1, E1, app_assoc.
  - intros rest. by rewrite <- app_assoc, F2, E2.
  - intros n Hn. rewrite length_app in Hn. destruct (decide (n < length b)%nat).
    + rewrite take_app_le by lia. by rewrite F3.
    + rewrite take_app_ge by lia. rewrite F2, E3 by lia. done.
Qed.
End client.

(** ** Properties *)

(** C38: every built-in key and weight codec is faithful and self-delimiting: in the
    sense of [CodecLaws], for the whole range of its type, strings of more than 2^32-1 bytes excepted, encoding then decoding
    gives the value back and exactly what follows, and a truncated encoding is
    refused.  The excepted strings are refused by the encoder, up to the largest length a machine integer counts. *)
Theorem builtin_codecs_lawful :
  CodecLaws NewStringCodec valid_string /\ CodecLaws NewIntCodec (valid_int 64) /\
  CodecLaws NewInt32Codec (valid_int 32) /\ CodecLaws NewInt64Codec (valid_int 64) /\
  CodecLaws NewUint64Codec valid_u64 /\ CodecLaws NewUUIDCodec valid_uuid /\
  CodecLaws NewInt64WeightCodec (valid_int 64) /\ CodecLaws NewFloat64WeightCodec valid_u64 /\
  forall buf v, MaxUint32 < Z.of_nat (length v) < 2 ^ 64 -> encode (Codec := NewStringCodec) buf v = None.
Proof. spl; [apply _..|exact string_refused]. Qed.

(** A short string, and one of 2^32 bytes. *)
Lemma builtin_codecs_lawful_witness :
  (exists bs, encode (Codec := NewStringCodec) [] [65; 66] = Some bs /\ decode (Codec := NewStringCodec) (bs ++ [9]) = Some ([65; 66], [9])) /\
  encode (Codec := NewStringCodec) [] (replicate (Z.to_nat (2 ^ 32)) 0) = None.
Proof.
  split.
  - destruct (codec_roundtrip (CodecLaws := proj1 builtin_codecs_lawful) [65; 66]) as (bs & E1 & E2 & _); [unfold valid_string, MaxUint32; simpl; lia|].
    exists bs. split; [exact (E1 [])|exact (E2 [9])].
  - apply builtin_codecs_lawful. rewrite length_replicate, Z2Nat.id by lia. unfold MaxUint32. lia.
Defined.

(** a user type's codec is lawful as soon as its own [MarshalBinary] and
    [UnmarshalBinary] are inverse on the values stored, and a record of any number
    of such values decodes to them, whole or not at all. *)
Theorem marshaler_records {A} (MarshalBinary : A -> option (list Z))
    (UnmarshalBinary : list Z -> option A) (valid : A -> Prop) vs :
  (forall v, valid v -> exists data, MarshalBinary v = Some data /\ valid_string data /\
    UnmarshalBinary data = Some v) ->
  Forall valid vs ->
  let C := binaryMarshalerCodec MarshalBinary UnmarshalBinary in
  exists bs, (forall buf, encode_all C buf vs = Some (buf ++ bs)) /\
    (forall rest, decode_all C (length vs) (bs ++ rest) = Some (vs, rest)) /\
    (forall n, (n < length bs)%nat -> decode_all C (length vs) (take n bs) = None).
Proof.
  intros Hm Hvs C. apply (@encode_all_app A C valid (marshaler_laws _ _ valid Hm) vs Hvs).
Qed.

(** A user type of small naturals, marshalled as one byte. *)
Lemma marshaler_records_witness :
  let C := binaryMarshalerCodec (fun z => Some [z]) (fun l => match l with [z] => Some z | _ => None end) in
  exists bs, encode_all C [] [5; 7] = Some bs /\ decode_all C 2 (bs ++ [9]) = Some ([5; 7], [9]).
Proof.
  destruct (marshaler_records (fun z => Some [z]) (fun l => match l with [z] => Some z | _ => None end)
    (fun _ => True) [5; 7]) as (bs & E1 & E2 & _).
  - intros v _. exists [v]. split; [done|]. split; [by vm_compute|done].
  - by repeat constructor.
  - exists bs. split; [apply E1|apply E2].
Defined.
