(* ===== verification/BoltProto.v ===== *)
(** * Bolt framing and handshake

    Model of [bolt/proto/chunking.go] -- the reassembly of messages from
    length-prefixed chunks under a per-message cap and a shared memory budget --
    and of [bolt/proto/handshake.go], the version negotiation.  Connections are
    in-memory sources; write errors and deadlines are not modelled. *)

From Stdlib Require Import ZArith Lia Sorted.
From S2P Require Import Prelude Wire Packstream PackstreamProps.

Local Open Scope Z_scope.

(** ** Chunking *)

Definition maxChunkSize : Z := 65535.
Definition DefaultMaxMessageBytes : Z := Z.shiftl 16 20.

Record ChunkedReader := mkCR {
  cr_src : list Z;
  cr_budget : option InboundBudget;
  cr_maxMessageBytes : Z
}.

Inductive chunk_err := CEOF | CReadLength | CReadPayload | CMessageTooLarge | CBudgetExceeded.

Definition NewChunkedReaderWithLimit (r : list Z) (maxMessageBytes : Z) : ChunkedReader :=
  mkCR r None (if maxMessageBytes <=? 0 then DefaultMaxMessageBytes else maxMessageBytes).

Definition NewChunkedReader (r : list Z) : ChunkedReader :=
  NewChunkedReaderWithLimit r DefaultMaxMessageBytes.

Definition CR_SetInboundBudget (b : InboundBudget) (cr : ChunkedReader) : ChunkedReader :=
  mkCR (cr_src cr) (if enabled b then Some b else None) (cr_maxMessageBytes cr).

(** The deferred release of [ReadMessage]. *)
Definition cr_release (charged : Z) (b : option InboundBudget) : option InboundBudget :=
  match b with
  | Some b => if 0 <? charged then Some (release charged b) else Some b
  | None => None
  end.

Definition cr_done {A} (r : A) (src : list Z) (charged : Z) (cr : ChunkedReader)
  : A * ChunkedReader :=
  (r, mkCR src (cr_release charged (cr_budget cr)) (cr_maxMessageBytes cr)).

(** The loop of [ReadMessage]; [msg] is empty while the source's is nil. *)
Fixpoint read_message (fuel : nat) (msg : list Z) (charged : Z) (cr : ChunkedReader)
  : option ((chunk_err + list Z) * ChunkedReader) :=
  match fuel with
  | O => None
  | S fuel =>
      match take_bytes 2 (cr_src cr) with
      | None =>
          Some (cr_done (inl (if bool_decide (msg = []) then CEOF else CReadLength)) [] charged cr)
      | Some (hdr, rest) =>
          let chunkLen := getBE hdr in
          if chunkLen =? 0 then
            if bool_decide (msg = []) then
              read_message fuel msg charged (mkCR rest (cr_budget cr) (cr_maxMessageBytes cr))
            else Some (cr_done (inr msg) rest charged cr)
          else
            let drained := drop (Z.to_nat chunkLen) rest in
            if cr_maxMessageBytes cr <? Z.of_nat (length msg) + chunkLen then
              Some (cr_done (inl CMessageTooLarge) drained charged cr)
            else
              let '(ok, budget, charged') :=
                match cr_budget cr with
                | None => (true, None, charged)
                | Some b =>
                    let '(ok, b') := tryReserve chunkLen b in
                    (ok, Some b', if ok then charged + chunkLen else charged)
                end in
              let cr' := mkCR rest budget (cr_maxMessageBytes cr) in
              if negb ok then Some (cr_done (inl CBudgetExceeded) drained charged' cr')
              else match take_bytes (Z.to_nat chunkLen) rest with
                   | None => Some (cr_done (inl CReadPayload) [] charged' cr')
                   | Some (payload, rest') =>
                       read_message fuel (msg ++ payload) charged'
                         (mkCR rest' budget (cr_maxMessageBytes cr))
                   end
      end
  end.

(** Every iteration consumes a two-byte header. *)
Definition ReadMessage (cr : ChunkedReader) : option ((chunk_err + list Z) * ChunkedReader) :=
  read_message (S (length (cr_src cr))) [] 0 cr.

(** The chunks of a message; [fuel] is its length. *)
Fixpoint write_chunks (fuel : nat) (remaining : list Z) : list Z :=
  match fuel, remaining with
  | S fuel, _ :: _ =>
      let chunk := if maxChunkSize <? Z.of_nat (length remaining)
                   then take (Z.to_nat maxChunkSize) remaining else remaining in
      putBE 2 (u16 (Z.of_nat (length chunk))) ++ chunk ++
      write_chunks fuel (drop (length chunk) remaining)
  | _, _ => []
  end.

Definition WriteMessage (msg : list Z) : list Z := write_chunks (length msg) msg ++ putBE 2 0.

(** ** Handshake *)

Definition bolt_magic : Z := 0x6060B017.

Record VersionPair := mkVer { Major : Z; Minor : Z }.

#[export] Instance VersionPair_eq_dec : EqDecision VersionPair.
Proof. solve_decision. Defined.

Definition SupportedVersions : list VersionPair :=
  [mkVer 5 6; mkVer 5 5; mkVer 5 4; mkVer 5 3; mkVer 5 2; mkVer 5 1; mkVer 5 0; mkVer 4 4].

Record versionOffer := mkOffer { o_major : Z; o_minor : Z; o_minorRange : Z }.

Inductive hs_err := HUnexpectedEOF | HBadMagic | HNoCommonVersion.

(** The [i]-th four-byte slot: padding, range, minor, major. *)
Definition parse_offer (buf : list Z) (i : nat) : option versionOffer :=
  let at_ k := nth (4 + i * 4 + k) buf 0 in
  let major := at_ 3%nat in
  let minor := at_ 2%nat in
  if (major =? 0) && (minor =? 0) then None
  else Some (mkOffer major minor (at_ 1%nat)).

Definition parse_offers (buf : list Z) : list versionOffer := omap (parse_offer buf) (seq 0 4).

(** The acceptance test, with its guard against underflow. *)
Definition matches (o : versionOffer) (sv : VersionPair) : bool :=
  if negb (o_major o =? Major sv) then false
  else
    let minMinor := if o_minorRange o <=? o_minor o then o_minor o - o_minorRange o else 0 in
    (minMinor <=? Minor sv) && (Minor sv <=? o_minor o).

(** [Negotiate]: the outcome and the bytes written back. *)
Definition Negotiate (conn : list Z) : (hs_err + VersionPair) * list Z :=
  match take_bytes 20 conn with
  | None => (inl HUnexpectedEOF, [])
  | Some (buf, _) =>
      if negb (getBE (take 4 buf) =? bolt_magic) then (inl HBadMagic, [])
      else
        let offers := parse_offers buf in
        match find (fun sv => existsb (fun o => matches o sv) offers) SupportedVersions with
        | Some sv => (inr sv, [0; 0; Minor sv; Major sv])
        | None => (inl HNoCommonVersion, [0; 0; 0; 0])
        end
  end.

(** ** Reassembly *)

(** The invariant of the loop: what has been charged is what the pool is short of. *)
Definition cr_ok (cr : ChunkedReader) : Prop :=
  match cr_budget cr with Some b => 0 < limit b /\ 0 <= pool_remaining b | None => True end.

Definition cr_total (charged : Z) (b : option InboundBudget) : option (Z * Z) :=
  match b with Some b => Some (limit b, pool_remaining b + charged) | None => None end.

Lemma cr_release_total charged b : 0 <= charged ->
  match b with Some b => 0 < limit b | None => charged = 0 end ->
  cr_release charged b =
  match cr_total charged b with Some (l, p) => Some (mkPool l p) | None => None end.
Proof.
  unfold cr_release, cr_total. intros Hc Hb. destruct b as [[l p]|]; [|done]. simpl in *.
  unfold release, enabled. simpl.
  destruct (Z.ltb_spec 0 charged), (Z.ltb_spec 0 l), (Z.leb_spec charged 0); simpl;
    try lia; do 2 f_equal; lia.
Qed.

(** What [ReadMessage] guarantees about its result, from any point of the loop. *)
Definition msg_ok (cr : ChunkedReader) (r : chunk_err + list Z) : Prop :=
  forall m, r = inr m -> m <> [] /\ Z.of_nat (length m) <= cr_maxMessageBytes cr /\ bytes m.

Lemma read_message_safe fuel : forall msg charged cr r cr',
  read_message fuel msg charged cr = Some (r, cr') ->
  bytes (cr_src cr) -> bytes msg -> cr_ok cr -> 0 <= charged ->
  (cr_budget cr = None -> charged = 0) ->
  Z.of_nat (length msg) <= cr_maxMessageBytes cr ->
  msg_ok cr r /\
  cr_budget cr' = match cr_total charged (cr_budget cr) with
                  | Some (l, p) => Some (mkPool l p) | None => None end /\
  (exists used, cr_src cr = used ++ cr_src cr') /\
  cr_maxMessageBytes cr' = cr_maxMessageBytes cr.
Proof.
  induction fuel as [|fuel IH]; intros msg charged cr r cr' E Hb Hm Hok Hc Hn Hl; [done|].
  cbn [read_message] in E.
  assert (Hrel : cr_release charged (cr_budget cr) = match cr_total charged (cr_budget cr) with
    | Some (l, p) => Some (mkPool l p) | None => None end).
  { apply cr_release_total; [done|]. unfold cr_ok in Hok. destruct (cr_budget cr); [lia|auto]. }
  destruct (take_bytes 2 (cr_src cr)) as [[hdr rest]|] eqn:Eh.
  2: { injection E as <- <-. simpl. spl; [done|done|exists (cr_src cr); by rewrite app_nil_r|done]. }
  destruct (take_bytes_spec _ _ _ _ Eh) as [Hs Hlh]. rewrite Hs in Hb |- *.
  apply Forall_app in Hb as [Hbh Hbr].
  pose proof (getBE_range hdr Hbh) as Hr. rewrite Hlh in Hr. change (width 2) with 65536 in Hr.
  destruct (Z.eqb_spec (getBE hdr) 0) as [E0|E0].
  { destruct (decide (msg = [])) as [Hmn|Hmn].
    - rewrite bool_decide_eq_true_2 in E by done.
      destruct (IH _ _ _ _ _ E) as (H1 & H2 & [u H3] & H4); auto.
      spl; [exact H1|exact H2| |exact H4]. exists (hdr ++ u). simpl in H3. by rewrite H3, app_assoc.
    - rewrite bool_decide_eq_false_2 in E by done. injection E as <- <-. simpl.
      spl; [|exact Hrel|by exists hdr|done]. intros m [= <-]. done. }
  set (n := getBE hdr) in *.
  destruct (Z.ltb_spec (cr_maxMessageBytes cr) (Z.of_nat (length msg) + n)) as [Hbig|Hbig].
  { injection E as <- <-. simpl. spl; [done|exact Hrel| |done].
    exists (hdr ++ take (Z.to_nat n) rest). by rewrite <- app_assoc, take_drop. }
  destruct (cr_budget cr) as [b|] eqn:Eb.
  - unfold cr_ok in Hok. rewrite Eb in Hok.
    destruct (decide (n <= pool_remaining b)) as [Hle|Hle].
    + rewrite tryReserve_true in E by lia. cbv beta iota zeta in E. cbn [negb] in E.
      destruct (take_bytes (Z.to_nat n) rest) as [[payload rest']|] eqn:Ep.
      * destruct (take_bytes_spec _ _ _ _ Ep) as [Hsp Hlp]. rewrite Hsp in Hbr.
        apply Forall_app in Hbr as [Hbp Hbr'].
        destruct (IH _ _ _ _ _ E) as (H1 & H2 & [u H3] & H4); simpl; auto.
        { by apply Forall_app. } { unfold cr_ok. simpl. lia. } { lia. } { done. }
        { rewrite length_app. lia. }
        simpl in *. spl; [exact H1| | |exact H4].
        -- rewrite H2. do 2 f_equal. lia.
        -- exists (hdr ++ payload ++ u). rewrite Hsp, H3. by rewrite <- !app_assoc.
      * injection E as <- <-. cbn [cr_budget cr_src cr_maxMessageBytes].
        spl; [done| |exists (hdr ++ rest); by rewrite app_nil_r|done].
        etransitivity; [apply (cr_release_total (charged + n)
          (Some (mkPool (limit b) (pool_remaining b - n)))); simpl; lia|].
        simpl. do 2 f_equal. lia.
    + rewrite tryReserve_false in E by lia. simpl in E. injection E as <- <-. simpl.
      spl; [done|exact Hrel| |done].
      exists (hdr ++ take (Z.to_nat n) rest). by rewrite <- app_assoc, take_drop.
  - simpl in E. specialize (Hn eq_refl). subst charged.
    destruct (take_bytes (Z.to_nat n) rest) as [[payload rest']|] eqn:Ep.
    + destruct (take_bytes_spec _ _ _ _ Ep) as [Hsp Hlp]. rewrite Hsp in Hbr.
      apply Forall_app in Hbr as [Hbp Hbr'].
      destruct (IH _ _ _ _ _ E) as (H1 & H2 & [u H3] & H4); simpl; auto.
      { by apply Forall_app. } { exact I. } { rewrite length_app. lia. }
      simpl in *. spl; [exact H1|exact H2| |exact H4].
      exists (hdr ++ payload ++ u). rewrite Hsp, H3. by rewrite <- !app_assoc.
    + injection E as <- <-. simpl. spl; [done|done|exists (hdr ++ rest); by rewrite app_nil_r|done].
Qed.

(** One unit of fuel per byte, and one more, is enough. *)
Lemma read_message_total fuel : forall msg charged cr, (length (cr_src cr) < fuel)%nat ->
  is_Some (read_message fuel msg charged cr).
Proof.
  induction fuel as [|fuel IH]; intros msg charged cr Hf; [lia|]. cbn [read_message].
  destruct (take_bytes 2 (cr_src cr)) as [[hdr rest]|] eqn:Eh; [|eauto].
  destruct (take_bytes_spec _ _ _ _ Eh) as [Hs Hlh]. rewrite Hs, length_app in Hf.
  case_match; [case_match; [apply IH; simpl; lia|eauto]|]. case_match; [eauto|].
  destruct (match cr_budget cr with Some _ => _ | None => _ end) as [[ok bud] ch].
  case_match; [eauto|].
  destruct (take_bytes _ rest) as [[payload rest']|] eqn:Ep; [|eauto].
  destruct (take_bytes_spec _ _ _ _ Ep) as [Hsp _]. rewrite Hsp, length_app in Hf.
  apply IH. simpl. lia.
Qed.

(** ** Framing round trip *)

(** The chunks of [msg], read by a loop that has already collected [acc], append it. *)
Lemma read_chunks n : forall remaining acc charged rest fuel b mx,
  (length remaining <= n)%nat -> bytes remaining ->
  Z.of_nat (length acc + length remaining) <= mx ->
  match b with Some b => 0 < limit b /\ Z.of_nat (length remaining) <= pool_remaining b | None => True end ->
  (length (write_chunks n remaining) <= fuel)%nat ->
  exists fuel' b', (fuel <= fuel' + length (write_chunks n remaining))%nat /\
    cr_total (charged + match b with Some _ => Z.of_nat (length remaining) | None => 0 end) b' =
    cr_total charged b /\ (b = None <-> b' = None) /\
  read_message fuel acc charged (mkCR (write_chunks n remaining ++ rest) b mx) =
  read_message fuel' (acc ++ remaining)
    (charged + match b with Some _ => Z.of_nat (length remaining) | None => 0 end) (mkCR rest b' mx).
Proof.
  induction n as [|n IH]; intros remaining acc charged rest fuel b mx Hl Hb Hmx Hpool Hfuel.
  { destruct remaining; [|simpl in Hl; lia]. exists fuel, b. cbn [length write_chunks app]. rewrite app_nil_r.
    destruct b; cbn; rewrite ?Z.add_0_r; spl; done || lia. }
  destruct remaining as [|x remaining'] eqn:Er.
  { exists fuel, b. cbn [length write_chunks app]. rewrite app_nil_r.
    destruct b; cbn; rewrite ?Z.add_0_r; spl; done || lia. }
  rewrite <- Er in *. assert (Hne : (1 <= length remaining)%nat) by (rewrite Er; simpl; lia).
  set (chunk := if maxChunkSize <? Z.of_nat (length remaining)
                then take (Z.to_nat maxChunkSize) remaining else remaining).
  set (rem' := drop (length chunk) remaining).
  assert (Hch : remaining = chunk ++ rem' /\ (1 <= length chunk)%nat /\ Z.of_nat (length chunk) <= 65535).
  { unfold rem', chunk, maxChunkSize.
    destruct (Z.ltb_spec 65535 (Z.of_nat (length remaining))).
    - rewrite length_take, Nat.min_l by lia. rewrite take_drop. spl; done || lia.
    - rewrite drop_all, app_nil_r. spl; done || lia. }
  destruct Hch as (Hsplit & Hc1 & Hc2).
  assert (Hw : write_chunks (S n) remaining =
    putBE 2 (Z.of_nat (length chunk)) ++ chunk ++ write_chunks n rem').
  { rewrite Er at 1. cbn [write_chunks]. rewrite <- Er. fold chunk. unfold u16.
    rewrite Z.mod_small by lia. reflexivity. }
  rewrite Hw in *. rewrite !length_app, length_putBE in Hfuel.
  destruct fuel as [|fuel]; [lia|].
  assert (Hlen : (length remaining = length chunk + length rem')%nat) by (rewrite Hsplit at 1; apply length_app).
  rewrite Hsplit in Hb. apply Forall_app in Hb as [Hbc Hbr].
  assert (Hstep : exists b1, cr_total (charged + match b with Some _ => Z.of_nat (length chunk) | None => 0 end) b1
      = cr_total charged b /\ (b = None <-> b1 = None) /\
      match b1 with Some b => 0 < limit b /\ Z.of_nat (length rem') <= pool_remaining b | None => True end /\
    read_message (S fuel) acc charged
      (mkCR ((putBE 2 (Z.of_nat (length chunk)) ++ chunk ++ write_chunks n rem') ++ rest) b mx) =
    read_message fuel (acc ++ chunk) (charged + match b with Some _ => Z.of_nat (length chunk) | None => 0 end)
      (mkCR (write_chunks n rem' ++ rest) b1 mx)).
  { cbn [read_message cr_src cr_budget cr_maxMessageBytes].
    rewrite <- app_assoc, take_bytes_app by apply length_putBE. cbv zeta.
    rewrite getBE_putBE by (change (width 2) with 65536; lia).
    destruct (Z.eqb_spec (Z.of_nat (length chunk)) 0); [lia|].
    destruct (Z.ltb_spec mx (Z.of_nat (length acc) + Z.of_nat (length chunk))); [lia|].
    rewrite Nat2Z.id, <- app_assoc.
    destruct b as [b|].
    - rewrite tryReserve_true by lia. cbv beta iota zeta. cbn [negb].
      rewrite take_bytes_app by done. cbv beta iota zeta.
      exists (Some (mkPool (limit b) (pool_remaining b - Z.of_nat (length chunk)))). simpl.
      spl; try done; try lia. do 2 f_equal; lia.
    - cbn [negb]. rewrite take_bytes_app by done. exists None. rewrite Z.add_0_r. by spl. }
  destruct Hstep as (b1 & Ht1 & Hn1 & Hp1 & ->).
  destruct (IH rem' (acc ++ chunk) (charged + match b with Some _ => Z.of_nat (length chunk) | None => 0 end)
    rest fuel b1 mx) as (fuel' & b' & Hf' & Ht' & Hn' & E'); auto; try (rewrite ?length_app; lia).
  exists fuel', b'. assert (Hsum : charged + match b with Some _ => Z.of_nat (length chunk) | None => 0 end +
      match b1 with Some _ => Z.of_nat (length rem') | None => 0 end =
    charged + match b with Some _ => Z.of_nat (length remaining) | None => 0 end).
  { rewrite Hlen. destruct b, b1; try lia; destruct Hn1 as [Hn1 Hn2]; by (discriminate Hn2 || discriminate Hn1 || (specialize (Hn1 eq_refl) || specialize (Hn2 eq_refl))). }
  rewrite Hsum in *. spl.
  - rewrite !length_app. lia.
  - congruence.
  - tauto.
  - rewrite E'. by rewrite Hsplit, app_assoc.
Qed.

(** Keep-alive chunks before a message are skipped. *)
Lemma read_noops k : forall fuel charged rest b mx,
  read_message (k + fuel) [] charged (mkCR (concat (replicate k [0; 0]) ++ rest) b mx) =
  read_message fuel [] charged (mkCR rest b mx).
Proof.
  induction k as [|k IH]; intros fuel charged rest b mx; [done|].
  cbn [replicate concat Nat.add read_message cr_src cr_budget cr_maxMessageBytes].
  rewrite <- app_assoc, take_bytes_app by done.
  change (getBE [0; 0] =? 0) with true. cbn [bool_decide]. exact (IH fuel charged rest b mx).
Qed.

Lemma read_sentinel fuel msg charged rest b mx : msg <> [] ->
  read_message (S fuel) msg charged (mkCR (putBE 2 0 ++ rest) b mx) =
  Some (inr msg, mkCR rest (cr_release charged b) mx).
Proof.
  intros Hm. cbn [read_message cr_src cr_budget cr_maxMessageBytes].
  rewrite take_bytes_app by done. change (getBE (putBE 2 0) =? 0) with true. cbv iota.
  by rewrite bool_decide_eq_false_2.
Qed.

Lemma message_roundtrip_aux k msg rest b mx : msg <> [] -> bytes msg ->
  Z.of_nat (length msg) <= mx ->
  match b with Some b => 0 < limit b /\ Z.of_nat (length msg) <= pool_remaining b | None => True end ->
  ReadMessage (mkCR (concat (replicate k [0; 0]) ++ WriteMessage msg ++ rest) b mx) =
  Some (inr msg, mkCR rest b mx).
Proof.
  intros Hm Hb Hmx Hpool. unfold ReadMessage. cbn [cr_src].
  set (total := length (concat (replicate k [0; 0]) ++ WriteMessage msg ++ rest)).
  assert (Hk : length (concat (replicate k [0; 0])) = (2 * k)%nat)
    by (induction k as [|k IH]; simpl in *; [done|rewrite IH; lia]).
  assert (Hlen : total = (2 * k + length (write_chunks (length msg) msg) + 2 + length rest)%nat).
  { unfold total, WriteMessage. rewrite !length_app, Hk, length_putBE. lia. }
  replace (S total) with (k + (S total - k))%nat by lia. rewrite read_noops.
  unfold WriteMessage. rewrite <- app_assoc.
  destruct (read_chunks (length msg) msg [] 0 (putBE 2 0 ++ rest) (S total - k) b mx)
    as (fuel' & b' & Hf & Ht & Hn & E); auto; try (simpl; lia).
  rewrite E. destruct fuel' as [|fuel']; [lia|]. cbn [app].
  rewrite read_sentinel by done. do 3 f_equal.
  set (c := match b with Some _ => Z.of_nat (length msg) | None => 0 end) in *.
  rewrite cr_release_total.
  - rewrite Ht. unfold cr_total. destruct b as [[l p]|]; [|done]. by rewrite Z.add_0_r.
  - unfold c. destruct b; lia.
  - destruct b as [b|].
    + destruct b' as [b1|]; [|by destruct Hn as [_ Hn]; specialize (Hn eq_refl)].
      unfold cr_total in Ht. injection Ht as Hl _. lia.
    + destruct b'; [by destruct Hn as [Hn _]; specialize (Hn eq_refl)|done].
Qed.

(** ** Version selection *)

(** The client's offers accept version [v]: some offered slot has its major, and
    its minor within the offered range, which is cut at zero. *)
Definition accepts (buf : list Z) (v : VersionPair) : Prop :=
  exists o, o ∈ parse_offers buf /\ o_major o = Major v /\
    Z.max 0 (o_minor o - o_minorRange o) <= Minor v <= o_minor o.

(** The preference order of versions. *)
Definition ver_le (v w : VersionPair) : Prop :=
  Major v < Major w \/ (Major v = Major w /\ Minor v <= Minor w).

Lemma matches_spec o v : 0 <= Minor v -> 0 <= o_minor o -> 0 <= o_minorRange o ->
  matches o v = true <-> o_major o = Major v /\
    Z.max 0 (o_minor o - o_minorRange o) <= Minor v <= o_minor o.
Proof.
  intros Hv Ho Hr. unfold matches. destruct (Z.eqb_spec (o_major o) (Major v)); simpl; [|naive_solver].
  destruct (Z.leb_spec (o_minorRange o) (o_minor o)); rewrite andb_true_iff, !Z.leb_le; lia.
Qed.

Lemma nth_byte l i : bytes l -> 0 <= nth i l 0 < 256.
Proof.
  intros Hl. revert i. induction Hl as [|b l Hb _ IH]; intros [|i]; simpl; try lia; [exact Hb|apply IH].
Qed.

Lemma offers_bytes buf o : bytes buf -> o ∈ parse_offers buf -> 0 <= o_minor o /\ 0 <= o_minorRange o.
Proof.
  intros Hb Ho. apply list_elem_of_omap in Ho as (i & _ & Hi). unfold parse_offer in Hi.
  case_match; [done|]. injection Hi as <-. simpl.
  pose proof (nth_byte buf (4 + i * 4 + 2) Hb). pose proof (nth_byte buf (4 + i * 4 + 1) Hb). simpl in *. lia.
Qed.

Lemma supported_minor v : v ∈ SupportedVersions -> 0 <= Minor v.
Proof.
  assert (H : Forall (fun v => 0 <= Minor v) SupportedVersions)
    by (apply (bool_decide_unpack _); by vm_compute).
  rewrite Forall_forall in H. apply H.
Qed.

(** The list is ordered by preference, highest first. *)
Lemma supported_sorted pre v post : SupportedVersions = pre ++ v :: post ->
  forall w, w ∈ post -> ver_le w v.
Proof.
  assert (H : StronglySorted (fun a b => ver_le b a) SupportedVersions).
  { unfold SupportedVersions, ver_le.
    repeat first [apply SSorted_nil | apply SSorted_cons | apply Forall_cons_2 | apply Forall_nil_2];
      simpl; lia. }
  intros E w Hw. rewrite E in H. clear E. induction pre as [|x pre IH]; inversion H as [|? ? Hs Hf]; subst.
  - rewrite Forall_forall in Hf. by apply Hf.
  - by apply IH.
Qed.

Lemma offers_accept buf v : bytes buf -> v ∈ SupportedVersions ->
  existsb (fun o => matches o v) (parse_offers buf) = true <-> accepts buf v.
Proof.
  intros Hb Hv. rewrite existsb_exists. pose proof (supported_minor v Hv). split.
  - intros (o & Ho & Hm). apply list_elem_of_In in Ho. destruct (offers_bytes buf o Hb Ho).
    exists o. split; [done|]. by apply matches_spec.
  - intros (o & Ho & Hm). destruct (offers_bytes buf o Hb Ho). exists o.
    split; [by apply list_elem_of_In|]. by apply matches_spec.
Qed.

(** [find] returns the first match of the list. *)
Lemma find_first {A} (f : A -> bool) l x : find f l = Some x ->
  exists pre post, l = pre ++ x :: post /\ f x = true /\ Forall (fun y => f y = false) pre.
Proof.
  induction l as [|y l IH]; simpl; [done|]. destruct (f y) eqn:Ey.
  - intros [= ->]. by exists [], l.
  - intros H. destruct (IH H) as (pre & post & -> & Hx & Hf). exists (y :: pre), post.
    split; [done|]. split; [done|by constructor].
Qed.

(** ** Properties *)

(** C39: a Bolt message survives framing.  Any non-empty message within the reader's
    cap and the shared budget is returned exactly as written, whatever its size,
    skipping the keep-alive chunks before it, leaving exactly the bytes behind it,
    and returning every byte it charged to the pool. *)
Theorem message_roundtrip k msg rest b mx : msg <> [] -> bytes msg ->
  Z.of_nat (length msg) <= mx ->
  match b with Some b => 0 < limit b /\ Z.of_nat (length msg) <= pool_remaining b | None => True end ->
  ReadMessage (mkCR (concat (replicate k [0; 0]) ++ WriteMessage msg ++ rest) b mx) =
  Some (inr msg, mkCR rest b mx).
Proof. apply message_roundtrip_aux. Qed.

(** reassembly is safe on arbitrary bytes.  [ReadMessage] always returns; a
    message it returns is non-empty and within the cap; it only consumes its
    source; and on every path, errors included, the shared pool is back to what it
    was. *)
Theorem read_message_bounded cr : bytes (cr_src cr) -> cr_ok cr -> 0 <= cr_maxMessageBytes cr ->
  exists r cr', ReadMessage cr = Some (r, cr') /\
    (forall m, r = inr m -> m <> [] /\ Z.of_nat (length m) <= cr_maxMessageBytes cr) /\
    cr_budget cr' = cr_budget cr /\
    exists used, cr_src cr = used ++ cr_src cr'.
Proof.
  intros Hb Hok Hmx. unfold ReadMessage.
  destruct (read_message_total (S (length (cr_src cr))) [] 0 cr) as [[r cr'] E]; [lia|].
  exists r, cr'. split; [done|].
  destruct (read_message_safe _ _ _ _ _ _ E Hb) as (H1 & H2 & H3 & _); auto; try done; try lia.
  split; [|split; [|done]].
  - intros m Hm. by destruct (H1 m Hm) as (? & ? & _).
  - rewrite H2. unfold cr_total. destruct (cr_budget cr) as [[l p]|]; [|done]. simpl. by rewrite Z.add_0_r.
Qed.

(** the handshake agrees on the best common version.  For any twenty-byte
    request with the right preamble, [Negotiate] answers with the highest version
    the server supports that some offered range accepts, and fails, answering four
    zero bytes, exactly when no supported version is acceptable. *)
Theorem negotiate_best buf rest : length buf = 20%nat -> bytes buf ->
  getBE (take 4 buf) = bolt_magic ->
  match Negotiate (buf ++ rest) with
  | (inr v, reply) => v ∈ SupportedVersions /\ accepts buf v /\ reply = [0; 0; Minor v; Major v] /\
      forall w, w ∈ SupportedVersions -> accepts buf w -> ver_le w v
  | (inl e, reply) => e = HNoCommonVersion /\ reply = [0; 0; 0; 0] /\
      forall w, w ∈ SupportedVersions -> ~ accepts buf w
  end.
Proof.
  intros Hl Hb Hm. unfold Negotiate. rewrite take_bytes_app by done. rewrite Hm, Z.eqb_refl.
  cbn [negb]. cbv zeta. destruct (find _ SupportedVersions) as [v|] eqn:Ef.
  - destruct (find_first _ _ _ Ef) as (pre & post & Es & Hv & Hpre).
    assert (Hin : v ∈ SupportedVersions) by (rewrite Es; apply elem_of_app; right; left).
    split; [done|]. split; [by apply offers_accept|]. split; [done|]. intros w Hw Ha.
    rewrite Es in Hw. apply elem_of_app in Hw as [Hw|[->|Hw]%elem_of_cons].
    + rewrite Forall_forall in Hpre. specialize (Hpre w Hw). apply offers_accept in Ha; [congruence|done|].
      rewrite Es. by apply elem_of_app; left.
    + unfold ver_le. lia.
    + by eapply supported_sorted.
  - split; [done|]. split; [done|]. intros w Hw Ha.
    apply (find_none _ _ Ef) in Hw as Hf || (apply list_elem_of_In in Hw; pose proof (find_none _ _ Ef w Hw) as Hf).
    apply list_elem_of_In in Hw. apply offers_accept in Ha; [congruence|done|done].
Qed.

(** ** Witnesses *)

Lemma message_roundtrip_witness :
  ReadMessage (mkCR ([0; 0; 0; 0] ++ WriteMessage [1; 2; 3] ++ [9]) (Some (mkPool 100 50)) 16) =
  Some (inr [1; 2; 3], mkCR [9] (Some (mkPool 100 50)) 16).
Proof.
  apply (message_roundtrip 2 [1; 2; 3] [9] (Some (mkPool 100 50)) 16); [done| |by vm_compute|split; by vm_compute].
  apply (bool_decide_unpack _). by vm_compute.
Defined.

Lemma read_message_bounded_witness : exists r cr',
  ReadMessage (mkCR [0; 2; 7] (Some (mkPool 100 50)) 16) = Some (r, cr') /\
  cr_budget cr' = Some (mkPool 100 50).
Proof.
  destruct (read_message_bounded (mkCR [0; 2; 7] (Some (mkPool 100 50)) 16)) as (r & cr' & E & _ & Hb & _).
  - apply (bool_decide_unpack _). by vm_compute.
  - split; by vm_compute.
  - by vm_compute.
  - exists r, cr'. split; [exact E|exact Hb].
Defined.

(** A client that offers 5.4 down to 5.2, and 4.4. *)
Definition demo_hello : list Z :=
  putBE 4 bolt_magic ++ [0; 2; 4; 5; 0; 0; 4; 4; 0; 0; 0; 0; 0; 0; 0; 0].

Lemma negotiate_best_witness : fst (Negotiate (demo_hello ++ [])) = inr (mkVer 5 4) /\
  forall w, w ∈ SupportedVersions -> accepts demo_hello w -> ver_le w (mkVer 5 4).
Proof.
  split; [by vm_compute|].
  pose proof (negotiate_best demo_hello []) as H.
  assert (E : Negotiate (demo_hello ++ []) = (inr (mkVer 5 4), [0; 0; 4; 5])) by by vm_compute.
  rewrite E in H. apply H; [by vm_compute| |by vm_compute].
  apply (bool_decide_unpack _). by vm_compute.
Defined.

(** A connection closed in the middle of a chunk header, before any payload, is
    reported as a clean end of input, not as a truncated header. *)
Lemma truncated_header_is_EOF : ReadMessage (NewChunkedReader [0]) =
  Some (inl CEOF, mkCR [] None DefaultMaxMessageBytes).
Proof. reflexivity. Qed.
