(* ===== verification/Ordered.v ===== *)
(** * Ordered keys, binary search and sorted association lists

    The [cmp.Ordered] interface of Go and the total order [cmp.Compare]/[cmp.Less]
    derive from it; the binary-search loop every component of graph/index repeats;
    and the abstract specification of an ordered index, a strictly ascending
    association list, with the operations on it that distribute over
    concatenation. *)

From Stdlib Require Import ZArith Lia.
From stdpp Require Export sorting.
From S2P Require Import Prelude.

Local Open Scope Z_scope.

(** ** The interface [cmp.Ordered] *)

(** The two primitive operators of an ordered type, [<] and [==]. *)
Class Ordered (V : Type) := mkOrdered {
  go_lt : V -> V -> bool;
  go_eq : V -> V -> bool;
}.

Definition isNaN `{Ordered V} (v : V) : bool := negb (go_eq v v).

(** [cmp.Less]. *)
Definition keyLess `{Ordered V} (a b : V) : bool := (isNaN a && negb (isNaN b)) || go_lt a b.

(** [cmp.Compare]. *)
Definition keyCompare `{Ordered V} (a b : V) : comparison :=
  if isNaN a then (if isNaN b then Eq else Lt)
  else if isNaN b then Gt
  else if go_lt a b then Lt else if go_lt b a then Gt else Eq.

Definition equalKeys `{Ordered V} (a b : V) : bool :=
  if isNaN a || isNaN b then isNaN a && isNaN b else go_eq a b.

(** What Go guarantees of the operators: [<] is a strict total order and [==] an
    equality on the values that equal themselves, and the others compare with
    nothing. *)
Class OrderedLaws (V : Type) `{Ordered V} : Prop := {
  go_lt_nan : forall a b, go_lt a b = true -> isNaN a = false /\ isNaN b = false;
  go_lt_irrefl : forall a b, go_eq a b = true -> go_lt a b = false;
  go_lt_trans : forall a b c, go_lt a b = true -> go_lt b c = true -> go_lt a c = true;
  go_lt_total : forall a b, isNaN a = false -> isNaN b = false ->
    go_lt a b = true \/ go_eq a b = true \/ go_lt b a = true;
  go_eq_sym : forall a b, go_eq a b = true -> go_eq b a = true;
  go_eq_trans : forall a b c, go_eq a b = true -> go_eq b c = true -> go_eq a c = true;
}.

Section order.
Context {V : Type} `{OV : Ordered V} {LV : OrderedLaws V}.
Implicit Types a b c : V.

Definition klt a b : Prop := keyLess a b = true.
Definition keq a b : Prop := keyCompare a b = Eq.

#[global] Instance klt_dec a b : Decision (klt a b).
Proof. unfold klt. apply _. Defined.
#[global] Instance keq_dec a b : Decision (keq a b).
Proof. unfold keq. apply _. Defined.

Lemma go_eq_nan a b : go_eq a b = true -> isNaN a = false /\ isNaN b = false.
Proof.
  intros E. pose proof (go_eq_sym _ _ E) as E'. unfold isNaN.
  rewrite (go_eq_trans _ _ _ E E'), (go_eq_trans _ _ _ E' E). done.
Qed.

Lemma go_lt_asym a b : go_lt a b = true -> go_lt b a = false.
Proof.
  intros Hab. destruct (go_lt b a) eqn:Hba; [|done].
  destruct (go_lt_nan _ _ Hab) as [Ha _]. rewrite <- (go_lt_irrefl a a); [symmetry; by eapply go_lt_trans|].
  unfold isNaN in Ha. by apply negb_false_iff.
Qed.

(** The three-way comparison is decided by [cmp.Less]. *)
Lemma keyCompare_spec a b : keyCompare a b =
  if keyLess a b then Lt else if keyLess b a then Gt else Eq.
Proof.
  unfold keyCompare, keyLess. pose proof (go_lt_nan a b). pose proof (go_lt_nan b a).
  destruct (isNaN a), (isNaN b), (go_lt a b), (go_lt b a); simpl; naive_solver.
Qed.

Lemma klt_irrefl a : ~ klt a a.
Proof.
  unfold klt, keyLess. destruct (isNaN a) eqn:E; simpl.
  - destruct (go_lt a a) eqn:E2; [|done]. apply go_lt_nan in E2 as [? ?]. congruence.
  - rewrite go_lt_irrefl; [done|]. by apply negb_false_iff.
Qed.

Lemma klt_trans a b c : klt a b -> klt b c -> klt a c.
Proof.
  unfold klt, keyLess. intros H1 H2. pose proof (go_lt_trans a b c). pose proof (go_lt_nan a b).
  pose proof (go_lt_nan b c). destruct (isNaN a), (isNaN b), (isNaN c), (go_lt a b), (go_lt b c);
    simpl in *; try done; naive_solver.
Qed.

(** The order is weak: a key between [a] and [c] falls on one side of any [b]. *)
Lemma klt_split a b c : klt a c -> klt a b \/ klt b c.
Proof.
  unfold klt, keyLess. intros H1.
  destruct (isNaN a) eqn:Ea, (isNaN b) eqn:Eb, (isNaN c) eqn:Ec; simpl in *; auto.
  all: try (apply go_lt_nan in H1 as [? ?]; congruence).
  destruct (go_lt_total a b Ea Eb) as [?|[Hab|Hba]]; [auto| |right; by eapply go_lt_trans].
  destruct (go_lt_total b c Eb Ec) as [?|[Hbc|Hcb]]; [auto| |].
  - rewrite (go_lt_irrefl a c) in H1; [done|]. by eapply go_eq_trans.
  - assert (go_lt a b = true) by (by eapply go_lt_trans). auto.
Qed.

Lemma keq_spec a b : keq a b <-> ~ klt a b /\ ~ klt b a.
Proof.
  unfold keq, klt. rewrite keyCompare_spec. destruct (keyLess a b), (keyLess b a); naive_solver.
Qed.

#[global] Instance keq_equiv : Equivalence keq.
Proof.
  split.
  - intros a. apply keq_spec. split; apply klt_irrefl.
  - intros a b. rewrite !keq_spec. tauto.
  - intros a b c. rewrite !keq_spec. intros [H1 H2] [H3 H4]. split; intros H.
    + apply (klt_split _ b) in H. tauto.
    + apply (klt_split _ b) in H. tauto.
Qed.

#[global] Instance klt_proper : Proper (keq ==> keq ==> iff) klt.
Proof.
  assert (Hl : forall a a' b b', keq a a' -> keq b b' -> klt a b -> klt a' b').
  { intros a a' b b' Ha Hb H. apply keq_spec in Ha as [? ?], Hb as [? ?].
    destruct (klt_split _ a' _ H) as [?|H']; [done|]. by destruct (klt_split _ b' _ H'). }
  intros a a' Ha b b' Hb. split; apply Hl; auto; by symmetry.
Qed.

Lemma klt_keq a b c : klt a b -> keq b c -> klt a c.
Proof. intros H E. by rewrite <- E. Qed.

Lemma klt_not_keq a b : klt a b -> ~ keq a b.
Proof. rewrite keq_spec. tauto. Qed.

(** [b <= a] and [a < c] give [b < c]. *)
Lemma kle_lt_trans a b c : ~ klt a b -> klt a c -> klt b c.
Proof. intros H1 H2. destruct (klt_split _ b _ H2); [done|done]. Qed.

Lemma klt_le_trans a b c : klt a b -> ~ klt c b -> klt a c.
Proof. intros H1 H2. destruct (klt_split _ c _ H1); [done|done]. Qed.

Lemma kle_trans a b c : ~ klt b a -> ~ klt c b -> ~ klt c a.
Proof. intros H1 H2 H. destruct (klt_split _ b _ H); done. Qed.

Lemma klt_cases a b : klt a b \/ keq a b \/ klt b a.
Proof. rewrite keq_spec. destruct (decide (klt a b)), (decide (klt b a)); tauto. Qed.

(** [equalKeys], which the bulk loaders group by, is the equivalence of the order. *)
Lemma equalKeys_spec a b : equalKeys a b = true <-> keq a b.
Proof.
  unfold equalKeys, keq, keyCompare.
  destruct (isNaN a) eqn:Ea, (isNaN b) eqn:Eb; simpl; try done.
  split.
  - intros E. rewrite (go_lt_irrefl a b E), (go_lt_irrefl b a (go_eq_sym _ _ E)). done.
  - intros E. destruct (go_lt_total a b Ea Eb) as [H|[H|H]]; rewrite H in *; try done.
    by destruct (go_lt a b).
Qed.
End order.

(** ** Ordered types *)

(** The integer kinds. *)
#[export] Instance Z_Ordered : Ordered Z := mkOrdered Z Z.ltb Z.eqb.
#[export] Instance Z_OrderedLaws : OrderedLaws Z.
Proof.
  split; unfold isNaN; simpl; intros; rewrite ?Z.eqb_refl; bool_to_prop; try done; try lia.
Qed.

(** [string]: byte sequences, compared lexicographically. *)
Fixpoint str_lt (a b : list Z) : bool :=
  match a, b with
  | [], [] => false
  | [], _ :: _ => true
  | _ :: _, [] => false
  | x :: a, y :: b => (x <? y) || ((x =? y) && str_lt a b)
  end.

#[export] Instance string_Ordered : Ordered (list Z) :=
  mkOrdered (list Z) str_lt (fun a b => bool_decide (a = b)).

Lemma str_lt_irrefl a : str_lt a a = false.
Proof. induction a as [|x a IH]; [done|]. simpl. by rewrite Z.ltb_irrefl, Z.eqb_refl, IH. Qed.

Lemma str_lt_trans a : forall b c, str_lt a b = true -> str_lt b c = true -> str_lt a c = true.
Proof.
  induction a as [|x a IH]; intros [|y b] [|z c]; simpl; try done.
  rewrite !orb_true_iff, !andb_true_iff, !Z.ltb_lt, !Z.eqb_eq.
  intros [?|[? H1]] [?|[? H2]]; [left; lia|left; lia|left; lia|right; split; [lia|eauto]].
Qed.

Lemma str_lt_total a : forall b, str_lt a b = true \/ a = b \/ str_lt b a = true.
Proof.
  induction a as [|x a IH]; intros [|y b]; simpl; auto.
  rewrite !orb_true_iff, !andb_true_iff, !Z.ltb_lt, !Z.eqb_eq.
  destruct (Z.lt_trichotomy x y) as [?|[->|?]]; [tauto| |tauto].
  destruct (IH b) as [?|[->|?]]; tauto.
Qed.

#[export] Instance string_OrderedLaws : OrderedLaws (list Z).
Proof.
  assert (Hn : forall v : list Z, isNaN v = false) by (intros; unfold isNaN; simpl; by rewrite bool_decide_eq_true_2).
  split; simpl; intros.
  - by rewrite !Hn.
  - apply bool_decide_eq_true in H as ->. apply str_lt_irrefl.
  - by eapply str_lt_trans.
  - rewrite bool_decide_eq_true. apply str_lt_total.
  - apply bool_decide_eq_true in H as ->. by apply bool_decide_eq_true.
  - apply bool_decide_eq_true in H as ->. done.
Qed.

(** [float64], by its bits: NaN when the exponent is all ones and the mantissa is
    not zero, sign and magnitude otherwise, with one zero. *)
Record float64 := mkFloat64 { bits : Z }.

Definition f64_nan (f : float64) : bool := 0x7FF0000000000000 <? bits f mod 2 ^ 63.
Definition f64_key (f : float64) : Z := if bits f <? 2 ^ 63 then bits f else 2 ^ 63 - bits f.

#[export] Instance float64_Ordered : Ordered float64 := mkOrdered float64
  (fun a b => negb (f64_nan a) && negb (f64_nan b) && (f64_key a <? f64_key b))
  (fun a b => negb (f64_nan a) && negb (f64_nan b) && (f64_key a =? f64_key b)).

#[export] Instance float64_OrderedLaws : OrderedLaws float64.
Proof.
  assert (Hn : forall v : float64, isNaN v = f64_nan v).
  { intros. unfold isNaN; simpl. rewrite Z.eqb_refl. by destruct (f64_nan v). }
  split; simpl; intros a b; rewrite ?Hn;
    destruct (f64_nan a), (f64_nan b); simpl; try done; intros; bool_to_prop; try done; try lia.
  - destruct (f64_nan c); simpl in *; [done|]. bool_to_prop. lia.
  - rewrite H0. simpl. apply Z.eqb_eq. lia.
Qed.

(** ** Binary search

    The loop [for lo < hi { mid := (lo+hi)/2; ... }] shared by the searches of
    graph/index: [right mid] tells whether to continue to the right of [mid].
    The midpoint cannot overflow, the bounds being slice indices. *)
Fixpoint bsearch (fuel : nat) (right : nat -> bool) (lo hi : nat) : nat :=
  match fuel with
  | O => lo
  | S fuel =>
      if (lo <? hi)%nat then
        let mid := ((lo + hi) / 2)%nat in
        if right mid then bsearch fuel right (S mid) hi else bsearch fuel right lo mid
      else lo
  end.

(** Over a slice, with one unit of fuel per element. *)
Definition bsearch_list {A} (P : A -> bool) (l : list A) : nat :=
  bsearch (length l) (fun i => match l !! i with Some x => P x | None => false end) 0 (length l).

Lemma bsearch_spec right n : (forall i j, (i <= j < n)%nat -> right j = true -> right i = true) ->
  forall fuel lo hi, (lo <= hi <= n)%nat -> (hi - lo <= fuel)%nat ->
  (forall i, (i < lo)%nat -> right i = true) -> (forall i, (hi <= i < n)%nat -> right i = false) ->
  let r := bsearch fuel right lo hi in
  (lo <= r <= hi)%nat /\ (forall i, (i < r)%nat -> right i = true) /\
  (forall i, (r <= i < n)%nat -> right i = false).
Proof.
  intros Hm fuel. induction fuel as [|fuel IH]; intros lo hi Hb Hf Hl Hh; simpl.
  - split; [lia|]. split; [done|]. intros. apply Hh. lia.
  - destruct (Nat.ltb_spec lo hi) as [Hlt|]; [|split; [lia|]; split; [done|]; intros; apply Hh; lia].
    set (mid := ((lo + hi) / 2)%nat). change (fst (Nat.divmod (lo + hi) 1 0 1)) with mid.
    assert (Hmid : (lo <= mid < hi)%nat).
    { unfold mid. split; [apply Nat.div_le_lower_bound|apply Nat.Div0.div_lt_upper_bound]; lia. }
    destruct (right mid) eqn:E.
    + destruct (IH (S mid) hi) as (H1 & H2 & H3); try lia; auto.
      * intros i Hi. apply (Hm i mid); [lia|done].
      * split; [lia|done].
    + destruct (IH lo mid) as (H1 & H2 & H3); try lia; auto.
      * intros i Hi. destruct (right i) eqn:Ei; [|done]. rewrite (Hm mid i) in E; [done|lia|done].
      * split; [lia|done].
Qed.

(** On a sorted slice, the search splits it into the elements that satisfy the
    predicate and those that do not. *)
Lemma bsearch_list_spec {A} (P : A -> bool) (R : A -> A -> Prop) l :
  StronglySorted R l -> (forall x y, R x y -> P y = true -> P x = true) ->
  exists l1 l2, l = l1 ++ l2 /\ bsearch_list P l = length l1 /\
    Forall (fun x => P x = true) l1 /\ Forall (fun x => P x = false) l2.
Proof.
  intros Hs HR. unfold bsearch_list. 
  set (right := fun i => match l !! i with Some x => P x | None => false end).
  assert (Hnth : forall i x, l !! i = Some x -> right i = P x) by (intros i x E; unfold right; by setoid_rewrite E).
  destruct (bsearch_spec right (length l)) with (fuel := length l) (lo := 0%nat) (hi := length l)
    as (H1 & H2 & H3); try lia.
  - intros i j Hij. destruct (decide (i = j)) as [->|Hne]; [done|].
    destruct (lookup_lt_is_Some_2 l i) as [x Ex]; [lia|].
    destruct (lookup_lt_is_Some_2 l j) as [y Ey]; [lia|].
    rewrite (Hnth _ _ Ex), (Hnth _ _ Ey). apply HR.
    clear -Hs Ex Ey Hij Hne. revert i j Ex Ey Hij Hne. induction Hs as [|z l Hs IH Hz]; [done|].
    intros [|i] [|j] Ex Ey Hij Hne; try lia; simpl in *.
    + simplify_eq. rewrite Forall_lookup in Hz. by eapply Hz.
    + eapply (IH i j); eauto; lia.
  - set (r := bsearch _ _ _ _) in *. exists (take r l), (drop r l). rewrite take_drop, length_take.
    spl; [done|lia| |]; apply Forall_lookup; intros i x Hx.
    + apply lookup_take_Some in Hx as [Hx Hi]. rewrite <- (Hnth _ _ Hx). auto.
    + rewrite lookup_drop in Hx. rewrite <- (Hnth _ _ Hx). apply H3.
      apply lookup_lt_Some in Hx. lia.
Qed.

(** ** Sorted association lists: the specification of an ordered index *)

Lemma sorted_filter {A} (R : A -> A -> Prop) (P : A -> Prop) `{!forall x, Decision (P x)} l :
  StronglySorted R l -> StronglySorted R (filter P l).
Proof.
  induction 1 as [|x l Hs IH Hx]; [constructor|]. rewrite filter_cons. case_decide; [|done].
  constructor; [done|]. apply Forall_forall. intros y Hy. apply list_elem_of_filter in Hy as [_ Hy].
  rewrite Forall_forall in Hx. auto.
Qed.

Section alist.
Context {V E : Type} `{OV : Ordered V} {LV : OrderedLaws V}.
Implicit Types (k : V) (e : E) (l A B C : list (V * E)).

Definition ascending l : Prop := StronglySorted (fun p q => klt p.1 q.1) l.

Definition al_below k l : list (V * E) := filter (fun p => klt p.1 k) l.
Definition al_above k l : list (V * E) := filter (fun p => klt k p.1) l.
Definition al_at k l : list (V * E) := filter (fun p => keq p.1 k) l.

(** The binding of a key, insertion, removal, and the bindings from a key on. *)
Definition al_get k l : option E := snd <$> head (al_at k l).
Definition al_insert k e l : list (V * E) := al_below k l ++ (k, e) :: al_above k l.
Definition al_remove k l : list (V * E) := filter (fun p => ~ keq p.1 k) l.
Definition al_from k l : list (V * E) := filter (fun p => ~ klt p.1 k) l.

(** A list whose keys are all below, or all above, a key. *)
Definition all_below k l : Prop := Forall (fun p => klt p.1 k) l.
Definition all_above k l : Prop := Forall (fun p => klt k p.1) l.
Definition all_from k l : Prop := Forall (fun p => ~ klt p.1 k) l.

Lemma ascending_app A B : ascending (A ++ B) <->
  ascending A /\ ascending B /\ Forall (fun p => all_above p.1 B) A.
Proof.
  unfold ascending, all_above. rewrite StronglySorted_app. rewrite Forall_forall.
  setoid_rewrite Forall_forall. naive_solver.
Qed.

Lemma ascending_filter (P : V * E -> Prop) `{!forall x, Decision (P x)} l : ascending l -> ascending (filter P l).
Proof. apply sorted_filter. Qed.

Lemma below_not_at k l : all_below k l -> Forall (fun p => ~ keq p.1 k) l.
Proof. intros HF. eapply Forall_impl; [exact HF|]. simpl. intros p Hp. by apply klt_not_keq. Qed.

Lemma above_not_at k l : all_above k l -> Forall (fun p => ~ keq p.1 k) l.
Proof. intros HF. eapply Forall_impl; [exact HF|]. simpl. intros p Hp Hq. symmetry in Hq. revert Hq. by apply klt_not_keq. Qed.

Lemma below_not_above k l : all_below k l -> Forall (fun p => ~ klt k p.1) l.
Proof. intros HF. eapply Forall_impl; [exact HF|]. simpl. intros p Hp Hq. by apply (klt_irrefl k), (klt_trans _ _ _ Hq). Qed.

Lemma above_not_below k l : all_above k l -> Forall (fun p => ~ klt p.1 k) l.
Proof. intros HF. eapply Forall_impl; [exact HF|]. simpl. intros p Hp Hq. by apply (klt_irrefl k), (klt_trans _ _ _ Hp). Qed.

Lemma from_above k l : all_from k l -> al_at k l = [] -> all_above k l.
Proof.
  unfold al_at. intros H He. apply Forall_forall. intros p Hp. unfold all_from in H.
  rewrite Forall_forall in H. destruct (klt_cases k p.1) as [?|[Hq|?]]; [done| |].
  - assert (Hin : p ∈ filter (fun p => keq p.1 k) l) by (apply list_elem_of_filter; split; [by symmetry|done]).
    rewrite He in Hin. by apply not_elem_of_nil in Hin.
  - by destruct (H p Hp).
Qed.

(** The operations distribute over a list split around the key. *)
Lemma al_insert_mid k e A B C : all_below k A -> all_above k C ->
  al_insert k e (A ++ B ++ C) = A ++ al_insert k e B ++ C.
Proof.
  intros HA HC. unfold al_insert, al_below, al_above. rewrite !filter_app.
  rewrite (filter_all _ A) by done.
  rewrite (filter_none _ C) by by apply above_not_below.
  rewrite (filter_none _ A) by by apply below_not_above.
  rewrite (filter_all _ C) by done. simpl. by rewrite app_nil_r, <- !app_assoc.
Qed.

Lemma al_insert_here k e A C : all_below k A -> all_above k C ->
  al_insert k e (A ++ C) = A ++ (k, e) :: C.
Proof. intros HA HC. apply (al_insert_mid k e A [] C HA HC). Qed.

Lemma al_remove_mid k A B C : all_below k A -> all_above k C ->
  al_remove k (A ++ B ++ C) = A ++ al_remove k B ++ C.
Proof.
  intros HA HC. unfold al_remove. rewrite !filter_app.
  rewrite (filter_all _ A) by by apply below_not_at. by rewrite (filter_all _ C) by by apply above_not_at.
Qed.

Lemma al_get_mid k A B C : all_below k A -> all_above k C ->
  al_get k (A ++ B ++ C) = al_get k B.
Proof.
  intros HA HC. unfold al_get, al_at. rewrite !filter_app.
  rewrite (filter_none _ A) by by apply below_not_at. rewrite (filter_none _ C) by by apply above_not_at.
  by rewrite app_nil_r.
Qed.

Lemma al_from_app k A B : all_below k A -> al_from k (A ++ B) = al_from k B.
Proof.
  intros HA. unfold al_from. rewrite filter_app, (filter_none _ A); [done|].
  eapply Forall_impl; [done|]. intros p Hp. tauto.
Qed.

Lemma al_from_all k B : all_from k B -> al_from k B = B.
Proof. apply filter_all. Qed.

(** ** The laws of the specification *)

Lemma al_remove_none k l : al_at k l = [] -> al_remove k l = l.
Proof.
  intros H. apply filter_all. apply Forall_forall. intros p Hp Hk.
  assert (Hin : p ∈ al_at k l) by (by apply list_elem_of_filter). rewrite H in Hin. by apply not_elem_of_nil in Hin.
Qed.

Lemma al_get_None k l : al_get k l = None <-> al_at k l = [].
Proof. unfold al_get. destruct (al_at k l); simpl; naive_solver. Qed.

Lemma al_get_Some k e l : al_get k l = Some e -> exists k', keq k' k /\ (k', e) ∈ l.
Proof.
  unfold al_get, al_at. intros H. destruct (filter _ l) as [|[k' e'] r] eqn:El; simplify_eq/=.
  assert (Hin : (k', e) ∈ filter (fun p => keq p.1 k) l) by (rewrite El; left).
  apply list_elem_of_filter in Hin as [? ?]. eauto.
Qed.

Lemma al_get_elem k k' e l : ascending l -> (k', e) ∈ l -> keq k' k -> al_get k l = Some e.
Proof.
  intros Hs Hin Hk. apply list_elem_of_split in Hin as (A & C & ->).
  apply ascending_app in Hs as (_ & Hs & HA). apply StronglySorted_cons in Hs as [HC _].
  change (al_get k (A ++ [(k', e)] ++ C) = Some e). rewrite al_get_mid.
  - unfold al_get, al_at. by rewrite filter_cons_True.
  - eapply Forall_impl; [done|]. intros p Hp. apply Forall_cons in Hp as [Hp _]. by rewrite <- Hk.
  - eapply Forall_impl; [done|]. simpl. intros p Hp. by rewrite <- Hk.
Qed.

Lemma al_get_insert k e l : al_get k (al_insert k e l) = Some e.
Proof.
  unfold al_insert. change (al_get k (al_below k l ++ [(k, e)] ++ al_above k l) = Some e).
  rewrite al_get_mid.
  - unfold al_get, al_at. by rewrite filter_cons_True by reflexivity.
  - apply Forall_forall. intros p Hp. by apply list_elem_of_filter in Hp as [? _].
  - apply Forall_forall. intros p Hp. by apply list_elem_of_filter in Hp as [? _].
Qed.

Lemma al_at_filter k (P : V * E -> Prop) `{!forall x, Decision (P x)} l :
  (forall p, keq p.1 k -> P p) -> al_at k (filter P l) = al_at k l.
Proof.
  intros Hpk. unfold al_at. rewrite list_filter_filter. apply list_filter_iff. naive_solver.
Qed.

Lemma ascending_split k l : ascending l -> l = al_below k l ++ al_at k l ++ al_above k l.
Proof.
  unfold al_below, al_at, al_above. induction 1 as [|p l Hs IH Hp]; [done|].
  rewrite !filter_cons. destruct (klt_cases p.1 k) as [Hc|[Hc|Hc]].
  - rewrite (decide_True (P := klt p.1 k)) by done.
    rewrite (decide_False (P := keq p.1 k)) by by apply klt_not_keq.
    rewrite (decide_False (P := klt k p.1)) by (intros H2; by apply (klt_irrefl k), (klt_trans _ _ _ H2)).
    simpl. by f_equal.
  - assert (HB : all_above k l) by (eapply Forall_impl; [done|]; simpl; intros q Hq; by rewrite <- Hc).
    assert (~ klt p.1 k /\ ~ klt k p.1) as [? ?] by by apply keq_spec.
    rewrite (filter_none _ l) by by apply above_not_below.
    rewrite (filter_none (fun q => keq q.1 k) l) by by apply above_not_at.
    rewrite (decide_False (P := klt p.1 k)), (decide_True (P := keq p.1 k)), (decide_False (P := klt k p.1)) by done.
    simpl. by rewrite (filter_all _ l).
  - assert (HB : all_above k l) by (eapply Forall_impl; [done|]; simpl; intros q; by apply klt_trans).
    rewrite (filter_none _ l) by by apply above_not_below.
    rewrite (filter_none (fun q => keq q.1 k) l) by by apply above_not_at.
    rewrite decide_False by (intros H2; by apply (klt_irrefl k), (klt_trans _ _ _ Hc)).
    rewrite decide_False by (intros H2; symmetry in H2; revert H2; by apply klt_not_keq).
    rewrite decide_True by done. simpl. by rewrite (filter_all _ l).
Qed.

Lemma al_get_insert_ne k k' e l : ascending l -> ~ keq k k' ->
  al_get k' (al_insert k e l) = al_get k' l.
Proof.
  intros Hs Hne. unfold al_get. f_equal. f_equal. rewrite (ascending_split k l Hs) at 2.
  unfold al_insert, al_at. rewrite !filter_app, filter_cons_False by done.
  rewrite (filter_none _ (filter _ l)); [done|].
  apply Forall_forall. intros p Hp. apply list_elem_of_filter in Hp as [Hp _]. intros H2. apply Hne.
  by rewrite <- Hp.
Qed.

Lemma al_get_remove k l : al_get k (al_remove k l) = None.
Proof.
  apply al_get_None. unfold al_at. apply filter_none. apply Forall_forall. intros p Hp.
  by apply list_elem_of_filter in Hp as [? _].
Qed.

Lemma al_get_remove_ne k k' l : ~ keq k k' -> al_get k' (al_remove k l) = al_get k' l.
Proof.
  intros Hne. unfold al_get, al_remove. rewrite al_at_filter; [done|].
  intros p Hp Hk. apply Hne. by rewrite <- Hk.
Qed.

Lemma ascending_insert k e l : ascending l -> ascending (al_insert k e l).
Proof.
  intros Hs. unfold al_insert, al_below, al_above. apply ascending_app. spl.
  - by apply ascending_filter.
  - constructor; [by apply ascending_filter|]. apply Forall_forall. intros p Hp.
    by apply list_elem_of_filter in Hp as [? _].
  - apply Forall_forall. intros p Hp. apply list_elem_of_filter in Hp as [Hp _].
    constructor; [done|]. apply Forall_forall. intros q Hq.
    apply list_elem_of_filter in Hq as [Hq _]. by eapply klt_trans.
Qed.

Lemma length_insert k e l : ascending l -> al_get k l = None ->
  length (al_insert k e l) = S (length l).
Proof.
  intros Hs Hg. apply al_get_None in Hg. rewrite (ascending_split k l Hs) at 2. rewrite Hg.
  unfold al_insert. rewrite !length_app. simpl. lia.
Qed.

Lemma al_at_short k l : ascending l -> (length (al_at k l) <= 1)%nat.
Proof.
  intros Hs. assert (Ha : ascending (al_at k l)) by by apply ascending_filter.
  destruct (al_at k l) as [|p [|q r]] eqn:El; simpl; try lia. exfalso.
  apply StronglySorted_cons in Ha as [Ha _]. apply Forall_cons in Ha as [Hpq _].
  assert (Hp : p ∈ al_at k l) by (rewrite El; left).
  assert (Hq : q ∈ al_at k l) by (rewrite El; right; left).
  apply list_elem_of_filter in Hp as [Hp _], Hq as [Hq _].
  rewrite Hp, Hq in Hpq. by apply klt_irrefl in Hpq.
Qed.

Lemma length_remove k l : ascending l -> is_Some (al_get k l) ->
  length l = S (length (al_remove k l)).
Proof.
  intros Hs [e Hg]. pose proof (al_at_short k l Hs). unfold al_get in Hg.
  assert (Hr : length (al_remove k l) = (length (al_below k l) + length (al_above k l))%nat).
  { rewrite (ascending_split k l Hs) at 1. unfold al_remove. rewrite !filter_app, !length_app.
    rewrite (filter_all _ (al_below k l)), (filter_all _ (al_above k l)), (filter_none _ (al_at k l)); [simpl; lia| | |];
      apply Forall_forall; intros p Hp; apply list_elem_of_filter in Hp as [Hp _].
    - tauto.
    - intros H2. symmetry in H2. revert H2. by apply klt_not_keq.
    - by apply klt_not_keq. }
  rewrite (ascending_split k l Hs) at 1. rewrite !length_app, Hr.
  destruct (al_at k l) as [|p [|q r]]; simplify_eq/=; lia.
Qed.
End alist.
