(* ===== verification/NodeSet.v ===== *)
(** * Tiered node-id sets (src/graph/index/nodeset.go)

    The set of node ids every index keeps per key: a tagged union packed in a
    pointer and a 64-bit word, with an inline singleton, a sorted array of at most
    eight ids, and a roaring bitmap.  The roaring library is the interface
    [Roaring], with its documented behaviour as [RoaringLaws]. *)

From Stdlib Require Import ZArith Lia.
From S2P Require Import Prelude Ordered.

Local Open Scope Z_scope.

(** ** The roaring64 bitmap, a third-party library *)

(** The methods the source calls; a mutating method is the function from the
    bitmap before to the bitmap after. *)
Class Roaring (B : Type) := mkRoaring {
  rb_New : B;
  rb_Add : Z -> B -> B;
  rb_AddMany : list Z -> B -> B;
  rb_Remove : Z -> B -> B;
  rb_AddRange : Z -> Z -> B -> B;
  rb_RemoveRange : Z -> Z -> B -> B;
  rb_Or : B -> B -> B;
  rb_Clone : B -> B;
  rb_Contains : Z -> B -> bool;
  rb_GetCardinality : B -> Z;
  rb_IsEmpty : B -> bool;
  rb_Minimum : B -> Z;
  rb_ToArray : B -> list Z;
  rb_Iterator : B -> list Z;
}.

(** Its documentation: a set of ids, listed in ascending order; ranges are
    half-open. *)
Class RoaringLaws (B : Type) `{Roaring B} : Prop := {
  rb_sorted : forall b, StronglySorted Z.lt (rb_ToArray b);
  rb_New_spec : rb_ToArray rb_New = [];
  rb_Add_spec : forall x y b, y ∈ rb_ToArray (rb_Add x b) <-> y = x \/ y ∈ rb_ToArray b;
  rb_AddMany_spec : forall l y b, y ∈ rb_ToArray (rb_AddMany l b) <-> y ∈ l \/ y ∈ rb_ToArray b;
  rb_Remove_spec : forall x y b, y ∈ rb_ToArray (rb_Remove x b) <-> y <> x /\ y ∈ rb_ToArray b;
  rb_AddRange_spec : forall lo hi y b,
    y ∈ rb_ToArray (rb_AddRange lo hi b) <-> lo <= y < hi \/ y ∈ rb_ToArray b;
  rb_RemoveRange_spec : forall lo hi y b,
    y ∈ rb_ToArray (rb_RemoveRange lo hi b) <-> ~ (lo <= y < hi) /\ y ∈ rb_ToArray b;
  rb_Or_spec : forall src y dst,
    y ∈ rb_ToArray (rb_Or src dst) <-> y ∈ rb_ToArray src \/ y ∈ rb_ToArray dst;
  rb_Clone_spec : forall b, rb_ToArray (rb_Clone b) = rb_ToArray b;
  rb_Contains_spec : forall x b, rb_Contains x b = bool_decide (x ∈ rb_ToArray b);
  rb_GetCardinality_spec : forall b, rb_GetCardinality b = Z.of_nat (length (rb_ToArray b));
  rb_IsEmpty_spec : forall b, rb_IsEmpty b = bool_decide (rb_ToArray b = []);
  rb_Minimum_spec : forall x r b, rb_ToArray b = x :: r -> rb_Minimum b = x;
  rb_Iterator_spec : forall b, rb_Iterator b = rb_ToArray b;
}.

(** ** The representation *)

Definition smallSetMax : nat := 8.
Definition stateEmpty : Z := 0.
Definition stateSingleton : Z := 1.
Definition stateSmall : Z := 2.
Definition stateBitmap : Z := 3.
Definition tagMask : Z := 3.
Definition tagShift : Z := 2.
Definition maxSingletonID : Z := 2 ^ 62 - 1.
Definition MaxUint64 : Z := 2 ^ 64 - 1.

(** The pointer word: nil, a [*[8]uint64] or a bitmap. *)
Inductive ns_pointer (B : Type) := PNil | PSmall (backing : list Z) | PBitmap (bm : B).
Arguments PNil {B}. Arguments PSmall {B} _. Arguments PBitmap {B} _.

Record NodeSet (B : Type) := mkNS { ns_ptr : ns_pointer B; ns_meta : Z }.
Arguments mkNS {B} _ _. Arguments ns_ptr {B} _. Arguments ns_meta {B} _.

Definition lowerBoundU64 (s : list Z) (target : Z) : nat := bsearch_list (fun v => v <? target) s.

Section nodeset.
Context {B : Type} `{RB : Roaring B}.
Implicit Types s : NodeSet B.

(** The zero value. *)
Definition nsZero : NodeSet B := mkNS PNil stateEmpty.

Definition tag s : Z := Z.land (ns_meta s) tagMask.
Definition payload s : Z := Z.shiftr (ns_meta s) tagShift.

Definition smallSlice s : list Z :=
  match ns_ptr s with PSmall backing => take (Z.to_nat (payload s)) backing | _ => [] end.

Definition bitmapRef s : B := match ns_ptr s with PBitmap bm => bm | _ => rb_New end.

(** [new(smallBacking)] is eight zeros, of which [copy] overwrites a prefix. *)
Definition setSmall (ids : list Z) : NodeSet B :=
  let n := Nat.min smallSetMax (length ids) in
  mkNS (PSmall (take n ids ++ replicate (smallSetMax - n) 0))
    (Z.lor (u64 (Z.shiftl (Z.of_nat n) tagShift)) stateSmall).

Definition setSingleton (id : Z) : NodeSet B :=
  if maxSingletonID <? id then setSmall [id]
  else mkNS PNil (Z.lor (u64 (Z.shiftl id tagShift)) stateSingleton).

Definition setBitmap (bm : B) : NodeSet B := mkNS (PBitmap bm) stateBitmap.
Definition setEmpty : NodeSet B := mkNS PNil stateEmpty.

(** A mutating method of the live bitmap. *)
Definition onBitmap (f : B -> B) s : NodeSet B := mkNS (PBitmap (f (bitmapRef s))) (ns_meta s).

(** ** Updates *)

Definition addSmall (node : Z) s : NodeSet B :=
  let cur := smallSlice s in
  let i := lowerBoundU64 cur node in
  if (i <? length cur)%nat && bool_decide (cur !! i = Some node) then s
  else if (smallSetMax <=? length cur)%nat then setBitmap (rb_Add node (rb_AddMany cur rb_New))
  else setSmall (take i cur ++ node :: drop i cur).

(** [wasEmpty] is the second component. *)
Definition Add (node : Z) s : NodeSet B * bool :=
  if tag s =? stateEmpty then (setSingleton node, true)
  else if tag s =? stateSingleton then
    let cur := payload s in
    if node =? cur then (s, false)
    else
      let '(lo, hi) := if node <? cur then (node, cur) else (cur, node) in
      (setSmall [lo; hi], false)
  else if tag s =? stateSmall then (addSmall node s, false)
  else (onBitmap (rb_Add node) s, false).

(** [nowEmpty] is the second component. *)
Definition Remove (node : Z) s : NodeSet B * bool :=
  if tag s =? stateEmpty then (s, false)
  else if tag s =? stateSingleton then
    if negb (payload s =? node) then (s, false) else (setEmpty, true)
  else if tag s =? stateSmall then
    let cur := smallSlice s in
    let i := lowerBoundU64 cur node in
    if (length cur <=? i)%nat || negb (bool_decide (cur !! i = Some node)) then (s, false)
    else if (length cur - 1 =? 1)%nat then
      (setSingleton (if (i =? 0)%nat then nth 1 cur 0 else nth 0 cur 0), false)
    else (setSmall (take i cur ++ drop (S i) cur), false)
  else
    let bm := rb_Remove node (bitmapRef s) in
    (onBitmap (fun _ => bm) s, rb_IsEmpty bm).

Definition addRangeClosed (from to : Z) (bm : B) : B :=
  if to <? from then bm
  else if to =? MaxUint64 then rb_Add to (rb_AddRange from to bm)
  else rb_AddRange from (to + 1) bm.

Definition removeRangeClosed (from to : Z) (bm : B) : B :=
  if to <? from then bm
  else if to =? MaxUint64 then rb_Remove to (rb_RemoveRange from to bm)
  else rb_RemoveRange from (to + 1) bm.

Definition AddRange (from to : Z) s : NodeSet B :=
  if to <? from then s
  else
    let s' :=
      if tag s =? stateBitmap then s
      else if tag s =? stateSingleton then setBitmap (rb_Add (payload s) rb_New)
      else if tag s =? stateSmall then setBitmap (rb_AddMany (smallSlice s) rb_New)
      else setBitmap rb_New in
    onBitmap (addRangeClosed from to) s'.

Definition RemoveRange (from to : Z) s : NodeSet B * bool :=
  if tag s =? stateEmpty then (s, false)
  else if tag s =? stateSingleton then
    let id := payload s in
    if (id <? from) || (to <? id) then (s, false) else (setEmpty, true)
  else if tag s =? stateSmall then
    let kept := List.filter (fun v => (v <? from) || (to <? v)) (smallSlice s) in
    match kept with
    | [] => (setEmpty, true)
    | [v] => (setSingleton v, false)
    | _ => (setSmall kept, false)
    end
  else
    let bm := removeRangeClosed from to (bitmapRef s) in
    (onBitmap (fun _ => bm) s, rb_IsEmpty bm).

(** ** Queries *)

Definition Contains (node : Z) s : bool :=
  if tag s =? stateEmpty then false
  else if tag s =? stateSingleton then payload s =? node
  else if tag s =? stateSmall then
    let cur := smallSlice s in
    let i := lowerBoundU64 cur node in
    (i <? length cur)%nat && bool_decide (cur !! i = Some node)
  else rb_Contains node (bitmapRef s).

Definition Cardinality s : Z :=
  if tag s =? stateEmpty then 0
  else if tag s =? stateSingleton then 1
  else if tag s =? stateSmall then payload s
  else rb_GetCardinality (bitmapRef s).

Definition IsEmpty s : bool :=
  if tag s =? stateEmpty then true
  else if tag s =? stateBitmap then rb_IsEmpty (bitmapRef s)
  else false.

Definition Minimum s : Z :=
  if tag s =? stateEmpty then 0
  else if tag s =? stateSingleton then payload s
  else if tag s =? stateSmall then nth 0 (smallSlice s) 0
  else rb_Minimum (bitmapRef s).

Definition ToArray s : list Z :=
  if tag s =? stateEmpty then []
  else if tag s =? stateSingleton then [payload s]
  else if tag s =? stateSmall then smallSlice s
  else rb_ToArray (bitmapRef s).

Definition OrInto s (dst : B) : B :=
  if tag s =? stateEmpty then dst
  else if tag s =? stateSingleton then rb_Add (payload s) dst
  else if tag s =? stateSmall then rb_AddMany (smallSlice s) dst
  else rb_Or (bitmapRef s) dst.

Definition AppendTo s (dst : list Z) : list Z :=
  if tag s =? stateEmpty then dst
  else if tag s =? stateSingleton then dst ++ [payload s]
  else if tag s =? stateSmall then dst ++ smallSlice s
  else dst ++ rb_Iterator (bitmapRef s).

(** The bitmap, and whether it is the live one. *)
Definition Bitmap s : B * bool :=
  if tag s =? stateBitmap then (bitmapRef s, true)
  else if tag s =? stateSingleton then (rb_Add (payload s) rb_New, false)
  else if tag s =? stateSmall then (rb_AddMany (smallSlice s) rb_New, false)
  else (rb_New, false).

Definition CanonicalBitmap s : B * bool :=
  let '(bm, shared) := Bitmap s in
  if negb shared || (Z.of_nat smallSetMax <? rb_GetCardinality bm) then (bm, shared)
  else (rb_AddMany (rb_ToArray bm) rb_New, false).

(** ** Constructors *)

Definition NodeSetFromSorted (ids : list Z) : NodeSet B :=
  match ids with
  | [] => nsZero
  | [id] => setSingleton id
  | _ => if (length ids <=? smallSetMax)%nat then setSmall ids
         else setBitmap (rb_AddMany ids rb_New)
  end.

Definition NodeSetFromBitmap (bm : B) : NodeSet B :=
  if Z.of_nat smallSetMax <? rb_GetCardinality bm then setBitmap bm
  else NodeSetFromSorted (rb_ToArray bm).
End nodeset.
