(* ===== verification/NodeSetProps.v ===== *)
(** * Node-id sets: refinement of finite sets

    The packed union of NodeSet.v under its invariant [ns_inv], which names the
    ids a well-formed value holds; every operation preserves it and acts on the
    ids as on a set. *)

From Stdlib Require Import ZArith Lia.
From S2P Require Import Prelude Ordered NodeSet.

Local Open Scope Z_scope.

(** ** The packed word *)

Lemma pack_word x t : 0 <= x < 2 ^ 62 -> 0 <= t < 4 ->
  Z.land (Z.lor (u64 (Z.shiftl x tagShift)) t) tagMask = t /\
  Z.shiftr (Z.lor (u64 (Z.shiftl x tagShift)) t) tagShift = x.
Proof.
  intros Hx Ht. assert (Hs : u64 (Z.shiftl x 2) = x * 4).
  { rewrite Z.shiftl_mul_pow2 by lia. unfold u64. rewrite Z.mod_small; lia. }
  unfold tagShift, tagMask in *. rewrite Hs. split.
  - rewrite Z.land_lor_distr_l. change 3 with (Z.ones 2). rewrite !Z.land_ones by lia.
    change (2 ^ 2) with 4. rewrite Z.mod_mul, Z.mod_small by lia. by rewrite Z.lor_0_l.
  - rewrite Z.shiftr_lor, !Z.shiftr_div_pow2 by lia. change (2 ^ 2) with 4.
    rewrite Z.div_mul, Z.div_small by lia. by rewrite Z.lor_0_r.
Qed.

(** ** Sorted id lists *)

Abbreviation sorted := (StronglySorted Z.lt).

Lemma sorted_pair x y : x < y -> sorted [x; y].
Proof. intros. apply SSorted_cons; [repeat constructor|]. by constructor. Qed.

Lemma sorted_mid l1 l2 x : sorted (l1 ++ l2) -> Forall (fun y => y < x) l1 -> Forall (fun y => x < y) l2 ->
  sorted (l1 ++ x :: l2).
Proof.
  intros Hs H1 H2. apply StronglySorted_app in Hs as (Ha & Hs1 & Hs2). apply StronglySorted_app. spl.
  - intros a b Ha1 Hb. rewrite Forall_forall in H1. apply elem_of_cons in Hb as [->|Hb]; auto.
  - done.
  - by constructor.
Qed.

Lemma sorted_del l1 l2 x : sorted (l1 ++ x :: l2) -> sorted (l1 ++ l2).
Proof.
  rewrite !StronglySorted_app. intros (Ha & Hs1 & Hs2). apply StronglySorted_cons in Hs2 as [_ Hs2].
  spl; [|done|done]. intros a b Ha1 Hb. apply Ha; [done|by right].
Qed.

Lemma sorted_lfilter f l : sorted l -> sorted (List.filter f l).
Proof.
  induction 1 as [|x l Hs IH Hx]; simpl; [constructor|]. destruct (f x); [|done].
  constructor; [done|]. apply Forall_forall. intros y Hy.
  apply list_elem_of_In, filter_In in Hy as [Hy _]. rewrite Forall_forall in Hx.
  by apply Hx, list_elem_of_In.
Qed.

(** The position [lowerBoundU64] returns splits the ids below the target from the
    ids from it on, and tells whether the target is there. *)
Lemma lowerBound_spec l x : sorted l -> exists l1 l2,
  l = l1 ++ l2 /\ lowerBoundU64 l x = length l1 /\
  Forall (fun y => y < x) l1 /\ Forall (fun y => x <= y) l2 /\
  (x ∈ l <-> exists l3, l2 = x :: l3).
Proof.
  intros Hs. unfold lowerBoundU64.
  destruct (bsearch_list_spec (fun v => v <? x) Z.lt l Hs) as (l1 & l2 & -> & Hb & H1 & H2).
  - intros a b Hab H. bool_to_prop. apply Z.ltb_lt. lia.
  - exists l1, l2. split; [done|]. split; [done|].
    assert (H1' : Forall (fun y => y < x) l1) by (eapply Forall_impl; [done|]; intros; by apply Z.ltb_lt).
    assert (H2' : Forall (fun y => x <= y) l2) by (eapply Forall_impl; [done|]; intros; by apply Z.ltb_ge).
    spl; [done|done|]. split.
    + intros Hx. apply elem_of_app in Hx as [Hx|Hx].
      * rewrite Forall_forall in H1'. apply H1' in Hx. lia.
      * destruct l2 as [|z l3]; [by apply not_elem_of_nil in Hx|]. exists l3. f_equal.
        apply Forall_cons in H2' as [Hz _]. apply StronglySorted_app in Hs as (_ & _ & Hs).
        apply StronglySorted_cons in Hs as [Hs _]. rewrite Forall_forall in Hs.
        apply elem_of_cons in Hx as [->|Hx]; [done|]. apply Hs in Hx. lia.
    + intros [l3 ->]. apply elem_of_app. right. left.
Qed.

(** ** The invariant *)

Section inv.
Context {B : Type} `{RB : Roaring B} {RL : RoaringLaws B}.
Implicit Types s : NodeSet B.

Definition inline_id (x : Z) : Prop := 0 <= x <= maxSingletonID.

Inductive ns_inv : NodeSet B -> list Z -> Prop :=
  | inv_empty : ns_inv nsZero []
  | inv_single id : inline_id id -> ns_inv (setSingleton id) [id]
  | inv_small ids : sorted ids -> Forall inline_id ids -> (2 <= length ids <= 8)%nat ->
      ns_inv (setSmall ids) ids
  | inv_bitmap bm : ns_inv (setBitmap bm) (rb_ToArray bm).

Lemma single_word id : inline_id id ->
  tag (B := B) (setSingleton id) = stateSingleton /\ payload (B := B) (setSingleton id) = id.
Proof.
  unfold inline_id, maxSingletonID, setSingleton, tag, payload. intros H.
  destruct (Z.ltb_spec maxSingletonID id); [unfold maxSingletonID in *; lia|]. cbn [ns_meta].
  apply pack_word; unfold stateSingleton; lia.
Qed.

Lemma small_word ids : (length ids <= 8)%nat ->
  tag (B := B) (setSmall ids) = stateSmall /\
  payload (B := B) (setSmall ids) = Z.of_nat (length ids) /\
  smallSlice (B := B) (setSmall ids) = ids.
Proof.
  intros H. destruct (pack_word (Z.of_nat (length ids)) stateSmall) as [H1 H2]; [lia|unfold stateSmall; lia|].
  unfold smallSlice, tag, payload, setSmall. cbn [ns_meta ns_ptr].
  rewrite Nat.min_r by done. spl; [done|done|]. rewrite H2, Nat2Z.id.
  rewrite firstn_all, take_app_length'; done.
Qed.

Lemma ns_sorted s l : ns_inv s l -> sorted l.
Proof. destruct 1; [constructor|repeat constructor|done|apply rb_sorted]. Qed.
End inv.

(** Case analysis on the state, with the operation's dispatch evaluated in each. *)
Ltac ns_case H :=
  let id := fresh "id" in let Hid := fresh "Hid" in let ids := fresh "ids" in
  let Hs := fresh "Hs" in let Hi := fresh "Hi" in let Hl := fresh "Hl" in let bm := fresh "bm" in
  let Ht := fresh "Ht" in let Hp := fresh "Hp" in let Hc := fresh "Hc" in
  let B := lazymatch type of H with @ns_inv ?B _ _ _ => B end in
  destruct H as [|id Hid|ids Hs Hi Hl|bm];
  [ pose proof (eq_refl : tag (B := B) nsZero = stateEmpty) as Ht
  | destruct (single_word (B := B) id Hid) as [Ht Hp]
  | destruct (small_word (B := B) ids (proj2 Hl)) as (Ht & Hp & Hc)
  | pose proof (eq_refl : tag (B := B) (setBitmap bm) = stateBitmap) as Ht ].

Ltac ns_eval Op :=
  unfold Op; repeat match goal with H : tag _ = _ |- _ => rewrite !H; clear H end;
  repeat match goal with H : payload _ = _ |- _ => rewrite !H end;
  repeat match goal with H : smallSlice _ = _ |- _ => rewrite !H end;
  cbn [Z.eqb stateEmpty stateSingleton stateSmall stateBitmap Pos.eqb fst snd].

Section ops.
Context {B : Type} `{RB : Roaring B} {RL : RoaringLaws B}.
Implicit Types s : NodeSet B.

(** ** Queries *)

Lemma ToArray_spec s l : ns_inv s l -> ToArray s = l.
Proof. intros H. ns_case H; by ns_eval @ToArray. Qed.

Lemma Contains_spec s l x : ns_inv s l -> Contains x s = bool_decide (x ∈ l).
Proof.
  intros H. ns_case H; ns_eval @Contains.
  - symmetry. by apply bool_decide_eq_false, not_elem_of_nil.
  - destruct (Z.eqb_spec id x) as [->|Hne]; symmetry;
      [apply bool_decide_eq_true; left|apply bool_decide_eq_false; rewrite list_elem_of_singleton; congruence].
  - destruct (lowerBound_spec ids x Hs) as (l1 & l2 & El & -> & H1 & H2 & Hin). apply eq_true_iff_eq.
    rewrite andb_true_iff, Nat.ltb_lt, !bool_decide_eq_true, Hin. rewrite El, lookup_app_r, length_app by done.
    rewrite Nat.sub_diag. destruct l2 as [|y l3]; simpl; [naive_solver lia|].
    split; [intros [_ ?]; simplify_eq; eauto|intros [? ?]; simplify_eq; split; [lia|done]].
  - apply rb_Contains_spec.
Qed.

Lemma Cardinality_spec s l : ns_inv s l -> Cardinality s = Z.of_nat (length l).
Proof. intros H. ns_case H; ns_eval @Cardinality; try done. apply rb_GetCardinality_spec. Qed.

Lemma IsEmpty_spec s l : ns_inv s l -> IsEmpty s = bool_decide (l = []).
Proof.
  intros H. ns_case H; ns_eval @IsEmpty; try done.
  - destruct ids; [simpl in *; lia|done].
  - apply rb_IsEmpty_spec.
Qed.

Lemma Minimum_spec s l x r : ns_inv s l -> l = x :: r -> Minimum s = x.
Proof.
  intros H. ns_case H; ns_eval @Minimum; intros; simplify_eq; try done. by eapply rb_Minimum_spec.
Qed.

Lemma AppendTo_spec s l dst : ns_inv s l -> AppendTo s dst = dst ++ l.
Proof.
  intros H. ns_case H; ns_eval @AppendTo; try done; [by rewrite app_nil_r|].
  change (bitmapRef (setBitmap bm)) with bm. by rewrite rb_Iterator_spec.
Qed.

Lemma OrInto_spec s l dst y : ns_inv s l ->
  (y ∈ rb_ToArray (OrInto s dst) <-> y ∈ l \/ y ∈ rb_ToArray dst).
Proof.
  intros H. ns_case H; ns_eval @OrInto.
  - rewrite elem_of_nil. tauto.
  - rewrite rb_Add_spec, list_elem_of_singleton. done.
  - apply rb_AddMany_spec.
  - apply rb_Or_spec.
Qed.

(** ** Bitmaps rebuilt from lists *)

Lemma fresh_AddMany l y : y ∈ rb_ToArray (rb_AddMany l (rb_New (B := B))) <-> y ∈ l.
Proof. rewrite rb_AddMany_spec, rb_New_spec, elem_of_nil. tauto. Qed.

(** Two ascending lists with the same elements are equal. *)
Lemma sorted_ext l1 : forall l2, sorted l1 -> sorted l2 -> (forall y : Z, y ∈ l1 <-> y ∈ l2) -> l1 = l2.
Proof.
  induction l1 as [|x l1 IH]; intros [|z l2] H1 H2 He.
  - done.
  - exfalso. apply (not_elem_of_nil z), He. left.
  - exfalso. apply (not_elem_of_nil x), He. left.
  - apply StronglySorted_cons in H1 as [Hx H1], H2 as [Hz H2].
    rewrite Forall_forall in Hx, Hz.
    assert (x = z) as ->.
    { assert (Hxz : x ∈ z :: l2) by (apply He; left). assert (Hzx : z ∈ x :: l1) by (apply He; left).
      apply elem_of_cons in Hxz as [?|Hxz]; [done|]. apply elem_of_cons in Hzx as [?|Hzx]; [done|].
      apply Hz in Hxz. apply Hx in Hzx. lia. }
    f_equal. apply IH; auto. intros y. split; intros Hy.
    + assert (H : y ∈ z :: l2) by (apply He; by right). apply elem_of_cons in H as [->|?]; [|done].
      apply Hx in Hy. lia.
    + assert (H : y ∈ z :: l1) by (apply He; by right). apply elem_of_cons in H as [->|?]; [|done].
      apply Hz in Hy. lia.
Qed.

Lemma AddMany_sorted l : sorted l -> rb_ToArray (rb_AddMany l (rb_New (B := B))) = l.
Proof. intros Hs. apply sorted_ext; [apply rb_sorted|done|apply fresh_AddMany]. Qed.

Lemma Bitmap_spec s l : ns_inv s l -> rb_ToArray (Bitmap s).1 = l.
Proof.
  intros H. ns_case H; ns_eval @Bitmap; simpl; [apply rb_New_spec| |by apply AddMany_sorted|done].
  apply sorted_ext; [apply rb_sorted|repeat constructor|]. intros y.
  rewrite rb_Add_spec, rb_New_spec, elem_of_nil, list_elem_of_singleton. tauto.
Qed.

(** ** Updates *)

(** [l'] is [l] with membership changed to [f]. *)
Definition set_after (f : Z -> Prop -> Prop) (l l' : list Z) : Prop :=
  forall y, y ∈ l' <-> f y (y ∈ l).

Lemma inv_sorted_list (l : list Z) : sorted l -> Forall inline_id l -> ns_inv (B := B) (NodeSetFromSorted l) l.
Proof.
  intros Hs Hi. unfold NodeSetFromSorted. destruct l as [|x [|y l]].
  - constructor.
  - constructor. by apply Forall_cons in Hi as [? _].
  - destruct (Nat.leb_spec (length (x :: y :: l)) smallSetMax) as [Hl|Hl].
    + constructor; auto. split; [simpl; lia|apply Hl].
    + rewrite <- (AddMany_sorted (x :: y :: l) Hs) at 2. constructor.
Qed.

Lemma Add_spec x s l : ns_inv s l -> inline_id x -> exists l',
  ns_inv (Add x s).1 l' /\ set_after (fun y p => y = x \/ p) l l'.
Proof.
  unfold set_after. intros H Hx. ns_case H; ns_eval @Add.
  - exists [x]. split; [by constructor|]. intros y. rewrite list_elem_of_singleton, elem_of_nil. tauto.
  - destruct (Z.eqb_spec x id) as [->|Hne]; simpl.
    + exists [id]. split; [by constructor|]. intros y. rewrite list_elem_of_singleton. tauto.
    + destruct (Z.ltb_spec x id); simpl; [exists [x; id]|exists [id; x]];
        (split; [apply inv_small; [apply sorted_pair; lia|rewrite !Forall_cons; auto|simpl; lia]|]);
        intros y; rewrite !elem_of_cons, !elem_of_nil; tauto.
  - unfold addSmall. rewrite Hc.
    destruct (lowerBound_spec ids x Hs) as (l1 & l2 & El & -> & H1 & H2 & Hin).
    destruct (decide (x ∈ ids)) as [Hm|Hm].
    + pose proof (proj1 Hin Hm) as [l3 E3].
      assert (Hlk : bool_decide (ids !! length l1 = Some x) = true).
      { apply bool_decide_eq_true. by rewrite El, E3, lookup_app_r, Nat.sub_diag. }
      assert (Hlt : (length l1 <? length ids)%nat = true).
      { apply Nat.ltb_lt. rewrite El, E3, length_app. simpl. lia. }
      rewrite Hlk, Hlt. simpl.
      exists ids. split; [by apply inv_small|]. intros y. naive_solver.
    + assert (Hlk : bool_decide (ids !! length l1 = Some x) = false).
      { apply bool_decide_eq_false. rewrite El, lookup_app_r, Nat.sub_diag by done.
        destruct l2 as [|z l3]; simpl; [done|]. intros ?; simplify_eq. apply Hm, Hin. eauto. }
      rewrite Hlk, andb_false_r.
      destruct (Nat.leb_spec smallSetMax (length ids)).
      * eexists. split; [constructor|]. intros y. by rewrite rb_Add_spec, fresh_AddMany.
      * exists (l1 ++ x :: l2). rewrite El. rewrite take_app_length, drop_app_length. split.
        -- apply inv_small.
           ++ apply sorted_mid; [by rewrite <- El|done|]. apply Forall_forall. intros y Hy.
              rewrite Forall_forall in H2. apply H2 in Hy as Hy'. assert (y <> x); [|lia].
              intros ->. apply Hm. rewrite El. apply elem_of_app. by right.
           ++ rewrite El in Hi. apply Forall_app in Hi as [? ?]. apply Forall_app. split; [done|by constructor].
           ++ rewrite El in Hl, H. rewrite length_app in *. unfold smallSetMax in *. simpl. lia.
        -- intros y. rewrite !elem_of_app, elem_of_cons. tauto.
  - eexists. split; [apply (inv_bitmap (rb_Add x bm))|]. intros y. apply rb_Add_spec.
Qed.
(** Removal from the two inline tiers reports emptiness exactly; a bitmap reports
    the emptiness of what is left. *)
Lemma Remove_spec x s l : ns_inv s l -> exists l',
  ns_inv (Remove x s).1 l' /\ set_after (fun y p => y <> x /\ p) l l' /\
  (l <> [] -> (Remove x s).2 = bool_decide (l' = [])).
Proof.
  unfold set_after. intros H. ns_case H; ns_eval @Remove.
  - exists []. split; [constructor|]. split; [|done]. intros y. rewrite elem_of_nil. tauto.
  - destruct (Z.eqb_spec id x) as [->|Hne]; simpl.
    + exists []. split; [constructor|]. split; [|done]. intros y. rewrite elem_of_nil, list_elem_of_singleton. tauto.
    + exists [id]. split; [by constructor|]. split; [|done]. intros y. rewrite list_elem_of_singleton.
      split; [intros ->; auto|tauto].
  - destruct (lowerBound_spec ids x Hs) as (l1 & l2 & El & -> & H1 & H2 & Hin).
    destruct (decide (x ∈ ids)) as [Hm|Hm].
    + pose proof (proj1 Hin Hm) as [l3 E3]. subst l2. subst ids.
      rewrite lookup_app_r, Nat.sub_diag, length_app by done. simpl.
      rewrite bool_decide_eq_true_2, orb_false_r by done.
      destruct (Nat.leb_spec (length l1 + S (length l3)) (length l1)); [lia|].
      rewrite length_app in Hl. simpl in Hl. apply Forall_app in Hi as [Hi1 Hi2].
      apply Forall_cons in Hi2 as [_ Hi2]. pose proof (sorted_del _ _ _ Hs) as Hs'.
      exists (l1 ++ l3).
      assert (Hset : forall y, y ∈ l1 ++ l3 <-> y <> x /\ y ∈ l1 ++ x :: l3).
      { intros y. rewrite !elem_of_app, elem_of_cons. split; [|tauto]. intros Hy. split; [|tauto].
        intros ->. apply StronglySorted_app in Hs as (Ha & _ & Hs).
        apply StronglySorted_cons in Hs as [Hs _]. rewrite Forall_forall in Hs, H1.
        destruct Hy as [Hy|Hy]; [apply H1 in Hy|apply Hs in Hy]; lia. }
      assert (Hne : bool_decide (l1 ++ l3 = []) = false).
      { apply bool_decide_eq_false. intros E. apply (f_equal length) in E. rewrite length_app in E. simpl in E. lia. }
      rewrite Hne. destruct (Nat.eqb_spec (length l1 + S (length l3) - 1) 1).
      * split; [|done]. destruct l1 as [|a [|b l1]]; simpl in *; [| |lia].
        -- destruct l3 as [|c [|d l3]]; simpl in *; [lia| |lia]. apply inv_single. by apply Forall_cons in Hi2 as [? _].
        -- destruct l3 as [|c l3]; simpl in *; [|lia]. apply inv_single. by apply Forall_cons in Hi1 as [? _].
      * split; [|done]. rewrite take_app_length.
        rewrite drop_app_ge by lia. replace (S (length l1) - length l1)%nat with 1%nat by lia. simpl.
        rewrite drop_0. apply inv_small; [done|by apply Forall_app|rewrite length_app; lia].
    + assert (Hlk : bool_decide (ids !! length l1 = Some x) = false).
      { apply bool_decide_eq_false. rewrite El, lookup_app_r, Nat.sub_diag by done.
        destruct l2 as [|z l3]; simpl; [done|]. intros ?; simplify_eq. apply Hm, Hin. eauto. }
      rewrite Hlk, orb_true_r. exists ids. split; [by apply inv_small|]. split.
      * intros y. split; [|tauto]. intros Hy. split; [congruence|done].
      * intros _. symmetry. apply bool_decide_eq_false. by destruct ids; [simpl in *; lia|].
  - eexists. split; [apply (inv_bitmap (rb_Remove x bm))|]. split; [intros y; apply rb_Remove_spec|].
    intros _. apply rb_IsEmpty_spec.
Qed.

Lemma addRangeClosed_spec lo hi bm y : y <= MaxUint64 -> hi <= MaxUint64 ->
  (y ∈ rb_ToArray (addRangeClosed lo hi bm) <-> lo <= y <= hi \/ y ∈ rb_ToArray bm).
Proof.
  intros Hy Hh. unfold addRangeClosed. destruct (Z.ltb_spec hi lo); [intuition lia|].
  destruct (Z.eqb_spec hi MaxUint64) as [->|].
  - rewrite rb_Add_spec, rb_AddRange_spec. intuition lia.
  - rewrite rb_AddRange_spec. intuition lia.
Qed.

Lemma removeRangeClosed_spec lo hi bm y :
  (y ∈ rb_ToArray (removeRangeClosed lo hi bm) <-> ~ (lo <= y <= hi) /\ y ∈ rb_ToArray bm).
Proof.
  unfold removeRangeClosed. destruct (Z.ltb_spec hi lo); [intuition lia|].
  destruct (Z.eqb_spec hi MaxUint64) as [->|].
  - rewrite rb_Remove_spec, rb_RemoveRange_spec. intuition lia.
  - rewrite rb_RemoveRange_spec. intuition lia.
Qed.

Lemma AddRange_spec lo hi s l : ns_inv s l -> hi <= MaxUint64 -> exists l',
  ns_inv (AddRange lo hi s) l' /\ forall y, y <= MaxUint64 -> (y ∈ l' <-> lo <= y <= hi \/ y ∈ l).
Proof.
  intros H Hh. unfold AddRange. destruct (Z.ltb_spec hi lo).
  { exists l. split; [done|]. intros y _. intuition lia. }
  assert (Hb : forall bm, rb_ToArray bm = l -> exists l', ns_inv (onBitmap (addRangeClosed lo hi) (setBitmap bm)) l' /\
    forall y, y <= MaxUint64 -> (y ∈ l' <-> lo <= y <= hi \/ y ∈ l)).
  { intros bm Hbm. eexists. split; [apply (inv_bitmap (addRangeClosed lo hi bm))|].
    intros y Hy. by rewrite addRangeClosed_spec, Hbm. }
  pose proof (Bitmap_spec s l H) as HB. revert HB. unfold Bitmap. destruct (tag s =? stateBitmap) eqn:Et.
  - intros _. destruct H as [|id Hid|ids Hs Hi Hl|bm]; [done| | |by apply Hb].
    + by rewrite (proj1 (single_word id Hid)) in Et.
    + by rewrite (proj1 (small_word ids (proj2 Hl))) in Et.
  - destruct (tag s =? stateSingleton); [intros HB; by apply Hb|].
    destruct (tag s =? stateSmall); intros HB; by apply Hb.
Qed.

Lemma RemoveRange_spec lo hi s l : ns_inv s l -> exists l',
  ns_inv (RemoveRange lo hi s).1 l' /\ set_after (fun y p => ~ (lo <= y <= hi) /\ p) l l' /\
  (l <> [] -> (RemoveRange lo hi s).2 = bool_decide (l' = [])).
Proof.
  unfold set_after. intros H. ns_case H; ns_eval @RemoveRange.
  - exists []. split; [constructor|]. split; [|done]. intros y. rewrite elem_of_nil. tauto.
  - destruct ((id <? lo) || (hi <? id)) eqn:E; simpl.
    + exists [id]. split; [by constructor|]. split; [|done]. intros y. rewrite list_elem_of_singleton.
      apply orb_true_iff in E. rewrite !Z.ltb_lt in E. intuition lia.
    + exists []. split; [constructor|]. split; [|done]. intros y. rewrite elem_of_nil, list_elem_of_singleton.
      apply orb_false_iff in E. rewrite !Z.ltb_ge in E. intuition lia.
  - set (f := fun v => (v <? lo) || (hi <? v)).
    assert (Hk : forall y, y ∈ List.filter f ids <-> ~ (lo <= y <= hi) /\ y ∈ ids).
    { intros y. rewrite !list_elem_of_In, filter_In. unfold f. rewrite orb_true_iff, !Z.ltb_lt. intuition lia. }
    assert (Hks : sorted (List.filter f ids)) by by apply sorted_lfilter.
    assert (Hki : Forall inline_id (List.filter f ids)).
    { apply Forall_forall. intros y Hy. apply Hk in Hy as [_ Hy]. rewrite Forall_forall in Hi. auto. }
    assert (Hkl : (length (List.filter f ids) <= 8)%nat) by (pose proof (filter_length_le f ids); lia).
    destruct (List.filter f ids) as [|v [|w r]]; simpl.
    + exists []. split; [constructor|]. split; [done|]. done.
    + exists [v]. split; [constructor; by apply Forall_cons in Hki as [? _]|]. split; [done|]. done.
    + exists (v :: w :: r). split; [apply inv_small; simpl in *; auto; lia|]. done.
  - eexists. split; [apply (inv_bitmap (removeRangeClosed lo hi bm))|].
    split; [intros y; apply removeRangeClosed_spec|]. intros _. apply rb_IsEmpty_spec.
Qed.

Lemma FromBitmap_spec bm : Forall inline_id (rb_ToArray bm) \/ (8 < length (rb_ToArray bm))%nat ->
  ns_inv (NodeSetFromBitmap bm) (rb_ToArray bm).
Proof.
  intros H. unfold NodeSetFromBitmap. rewrite rb_GetCardinality_spec.
  destruct (Z.ltb_spec (Z.of_nat smallSetMax) (Z.of_nat (length (rb_ToArray bm)))); [constructor|].
  apply inv_sorted_list; [apply rb_sorted|]. destruct H as [|H]; [done|]. unfold smallSetMax in *. lia.
Qed.

(** ** Histories *)

Inductive ns_op := OpAdd (x : Z) | OpRemove (x : Z) | OpAddRange (lo hi : Z) | OpRemoveRange (lo hi : Z).

Definition ns_step s (o : ns_op) : NodeSet B :=
  match o with
  | OpAdd x => (Add x s).1
  | OpRemove x => (Remove x s).1
  | OpAddRange lo hi => AddRange lo hi s
  | OpRemoveRange lo hi => (RemoveRange lo hi s).1
  end.

(** Whether an id is a member after an operation, given whether it was before. *)
Definition member_after (y : Z) (m : bool) (o : ns_op) : bool :=
  match o with
  | OpAdd x => m || (y =? x)
  | OpRemove x => m && negb (y =? x)
  | OpAddRange lo hi => m || ((lo <=? y) && (y <=? hi))
  | OpRemoveRange lo hi => m && negb ((lo <=? y) && (y <=? hi))
  end.

(** Node ids are handed out from a counter far below 2^62; range bounds are any
    unsigned 64-bit values. *)
Definition op_ok (o : ns_op) : Prop :=
  match o with
  | OpAdd x => inline_id x
  | OpAddRange lo hi => 0 <= lo /\ hi <= MaxUint64
  | _ => True
  end.

Lemma ns_step_spec s l o : ns_inv s l -> op_ok o -> exists l', ns_inv (ns_step s o) l' /\
  forall y, y <= MaxUint64 -> bool_decide (y ∈ l') = member_after y (bool_decide (y ∈ l)) o.
Proof.
  intros H Ho. destruct o as [x|x|lo hi|lo hi]; simpl in *.
  - destruct (Add_spec x s l H Ho) as (l' & H1 & H2). exists l'. split; [done|]. intros y _.
    apply eq_true_iff_eq. rewrite bool_decide_eq_true, (H2 y), orb_true_iff, bool_decide_eq_true, Z.eqb_eq. tauto.
  - destruct (Remove_spec x s l H) as (l' & H1 & H2 & _). exists l'. split; [done|]. intros y _.
    apply eq_true_iff_eq.
    rewrite bool_decide_eq_true, (H2 y), andb_true_iff, bool_decide_eq_true, negb_true_iff, Z.eqb_neq. tauto.
  - destruct (AddRange_spec lo hi s l H) as (l' & H1 & H2); [tauto|]. exists l'. split; [done|]. intros y Hy.
    apply eq_true_iff_eq.
    rewrite bool_decide_eq_true, (H2 y Hy), orb_true_iff, bool_decide_eq_true, andb_true_iff, !Z.leb_le. tauto.
  - destruct (RemoveRange_spec lo hi s l H) as (l' & H1 & H2 & _). exists l'. split; [done|]. intros y _.
    apply eq_true_iff_eq. rewrite bool_decide_eq_true, (H2 y), andb_true_iff, bool_decide_eq_true.
    rewrite negb_true_iff, andb_false_iff, !Z.leb_gt. intuition lia.
Qed.

Lemma ns_run_spec os : Forall op_ok os -> forall s l, ns_inv s l -> exists l',
  ns_inv (fold_left ns_step os s) l' /\ forall y, y <= MaxUint64 ->
  bool_decide (y ∈ l') = fold_left (member_after y) os (bool_decide (y ∈ l)).
Proof.
  induction 1 as [|o os Ho _ IH]; intros s l H; [by exists l|]. simpl.
  destruct (ns_step_spec s l o H Ho) as (l1 & H1 & H2). destruct (IH _ _ H1) as (l' & H3 & H4).
  exists l'. split; [done|]. intros y Hy. by rewrite H4, H2.
Qed.
End ops.

(** ** A reference bitmap

    A set as an unordered list of its ids, listed by insertion sort: the library's
    documentation is satisfiable. *)

Fixpoint id_insert (x : Z) (l : list Z) : list Z :=
  match l with
  | [] => [x]
  | y :: r => if x <? y then x :: l else if x =? y then l else y :: id_insert x r
  end.

Definition id_sort (l : list Z) : list Z := foldr id_insert [] l.

Lemma elem_of_id_insert x l y : y ∈ id_insert x l <-> y = x \/ y ∈ l.
Proof.
  induction l as [|z l IH]; simpl; [by rewrite list_elem_of_singleton, elem_of_nil; tauto|].
  destruct (Z.ltb_spec x z); [by rewrite elem_of_cons|]. destruct (Z.eqb_spec x z) as [->|].
  - rewrite !elem_of_cons. tauto.
  - rewrite !elem_of_cons, IH. tauto.
Qed.

Lemma id_insert_sorted x l : sorted l -> sorted (id_insert x l).
Proof.
  induction 1 as [|z l Hs IH Hz]; simpl; [repeat constructor|].
  destruct (Z.ltb_spec x z); [|destruct (Z.eqb_spec x z)].
  - constructor; [by constructor|]. constructor; [done|]. eapply Forall_impl; [done|]. simpl. lia.
  - by constructor.
  - constructor; [done|]. apply Forall_forall. intros y Hy. apply elem_of_id_insert in Hy as [->|Hy]; [lia|].
    rewrite Forall_forall in Hz. auto.
Qed.

Lemma elem_of_id_sort l y : y ∈ id_sort l <-> y ∈ l.
Proof. induction l as [|x l IH]; simpl; [done|]. by rewrite elem_of_id_insert, elem_of_cons, IH. Qed.

Lemma id_sort_sorted l : sorted (id_sort l).
Proof. induction l as [|x l IH]; simpl; [constructor|]. by apply id_insert_sorted. Qed.

Definition in_range (lo hi y : Z) : bool := (lo <=? y) && (y <? hi).

#[export] Instance list_Roaring : Roaring (list Z) := mkRoaring (list Z)
  [] (fun x b => x :: b) (fun l b => l ++ b)
  (fun x b => List.filter (fun y => negb (y =? x)) b)
  (fun lo hi b => seqZ lo (hi - lo) ++ b)
  (fun lo hi b => List.filter (fun y => negb (in_range lo hi y)) b)
  (fun src dst => src ++ dst) (fun b => b)
  (fun x b => bool_decide (x ∈ id_sort b))
  (fun b => Z.of_nat (length (id_sort b)))
  (fun b => bool_decide (id_sort b = []))
  (fun b => nth 0 (id_sort b) 0)
  id_sort id_sort.

#[export] Instance list_RoaringLaws : RoaringLaws (list Z).
Proof.
  split; simpl; intros; rewrite ?elem_of_id_sort; try done.
  - apply id_sort_sorted.
  - by rewrite elem_of_id_insert, elem_of_id_sort.
  - apply elem_of_app.
  - rewrite !list_elem_of_In, filter_In, negb_true_iff, Z.eqb_neq. tauto.
  - rewrite elem_of_app, elem_of_seqZ. intuition lia.
  - rewrite !list_elem_of_In, filter_In, negb_true_iff. unfold in_range.
    rewrite andb_false_iff, Z.leb_gt, Z.ltb_ge. intuition lia.
  - apply elem_of_app.
  - by rewrite H.
Qed.

(** ** Properties *)

Section properties.
Context {B : Type} `{RB : Roaring B} {RL : RoaringLaws B}.

(** C32: a node set refines a finite set of ids.  After any history of additions of ids below
    2^62 one at a time, of removals, and of closed-range updates with bounds up to the largest
    64-bit id, from the empty set, whatever tier the set is
    in, listing it gives its members in strictly ascending order, and membership,
    cardinality, emptiness, minimum and the four ways of copying the set out all
    agree with that list, for ids up to the largest 64-bit id.  An id of 2^62 or more added
    alone breaks it: [Remove_oversized_id]. *)
Theorem nodeset_refines os : Forall op_ok os ->
  let s : NodeSet B := fold_left ns_step os nsZero in
  sorted (ToArray s) /\
  (forall y, y <= MaxUint64 -> Contains y s = fold_left (member_after y) os false /\
    (y ∈ ToArray s <-> Contains y s = true)) /\
  Cardinality s = Z.of_nat (length (ToArray s)) /\
  IsEmpty s = bool_decide (ToArray s = []) /\
  (forall x r, ToArray s = x :: r -> Minimum s = x) /\
  (forall dst, AppendTo s dst = dst ++ ToArray s) /\
  rb_ToArray (Bitmap s).1 = ToArray s /\
  forall dst y, y ∈ rb_ToArray (OrInto s dst) <-> y ∈ ToArray s \/ y ∈ rb_ToArray dst.
Proof.
  intros Ho s. destruct (ns_run_spec os Ho nsZero [] inv_empty) as (l & H & Hm). fold s in H.
  rewrite (ToArray_spec s l H). spl.
  - by eapply ns_sorted.
  - intros y Hy. rewrite (Contains_spec s l y H), (Hm y Hy), <- (Hm y Hy), bool_decide_eq_true.
    split; [|done]. by rewrite (Hm y Hy).
  - by apply Cardinality_spec.
  - by apply IsEmpty_spec.
  - intros x r E. by eapply Minimum_spec.
  - intros dst. by apply AppendTo_spec.
  - by apply Bitmap_spec.
  - intros dst y. by apply OrInto_spec.
Qed.

(** what an update reports, and the tiers.  After any history: [Remove] and
    [RemoveRange] report an emptied set exactly when they empty a non-empty one;
    [Add] reports a first member exactly when the set is empty and was never
    promoted; promotion is one-way; and a set that was not promoted holds at most
    eight ids. *)
Theorem nodeset_results os o x lo hi : Forall op_ok os ->
  let s : NodeSet B := fold_left ns_step os nsZero in
  (ToArray s <> [] -> (Remove x s).2 = IsEmpty (Remove x s).1 /\
    (RemoveRange lo hi s).2 = IsEmpty (RemoveRange lo hi s).1) /\
  ((Add x s).2 = true <-> ToArray s = [] /\ tag s <> stateBitmap) /\
  (tag s = stateBitmap -> tag (ns_step s o) = stateBitmap) /\
  (tag s <> stateBitmap -> (length (ToArray s) <= smallSetMax)%nat).
Proof.
  intros Ho s. destruct (ns_run_spec os Ho nsZero [] inv_empty) as (l & H & _). fold s in H.
  clearbody s. rewrite (ToArray_spec s l H). spl.
  - intros Hne. destruct (Remove_spec x s l H) as (l1 & H1 & _ & E1).
    destruct (RemoveRange_spec lo hi s l H) as (l2 & H2 & _ & E2).
    by rewrite E1, E2, (IsEmpty_spec _ _ H1), (IsEmpty_spec _ _ H2).
  - ns_case H; ns_eval @Add; simpl.
    + done.
    + destruct (x =? id), (x <? id); simpl; naive_solver.
    + split; [done|]. intros [-> _]. simpl in *. lia.
    + split; [done|]. by intros [_ ?].
  - destruct H as [|id Hid|ids Hs Hi Hl|bm].
    + done.
    + by rewrite (proj1 (single_word id Hid)).
    + by rewrite (proj1 (small_word ids (proj2 Hl))).
    + intros _. destruct o as [y|y|a b|a b]; simpl; try done. unfold AddRange. by destruct (b <? a).
  - intros Ht. unfold smallSetMax. destruct H; simpl; try lia. done.
Qed.

(** images and reloads.  The canonical bitmap of a set has exactly its ids;
    between two and eight ids it is always the bitmap built from the sorted ids
    alone, never shared, whatever the history; and rebuilding a set from a bitmap
    keeps the ids and takes the inline tiers exactly when they fit. *)
Theorem nodeset_canonical os bm : Forall op_ok os ->
  Forall inline_id (rb_ToArray bm) ->
  let s : NodeSet B := fold_left ns_step os nsZero in
  rb_ToArray (CanonicalBitmap s).1 = ToArray s /\
  ((2 <= length (ToArray s) <= smallSetMax)%nat ->
    CanonicalBitmap s = (rb_AddMany (ToArray s) rb_New, false)) /\
  ToArray (NodeSetFromBitmap bm) = rb_ToArray bm /\
  (tag (NodeSetFromBitmap bm) = stateBitmap <-> (smallSetMax < length (rb_ToArray bm))%nat).
Proof.
  intros Ho Hb s. destruct (ns_run_spec os Ho nsZero [] inv_empty) as (l & H & _). fold s in H.
  clearbody s. rewrite (ToArray_spec s l H).
  assert (HF : ns_inv (NodeSetFromBitmap bm) (rb_ToArray bm)) by (apply FromBitmap_spec; auto).
  rewrite (ToArray_spec _ _ HF). spl; [| |done|].
  - pose proof (Bitmap_spec s l H) as HB. unfold CanonicalBitmap. destruct (Bitmap s) as [b sh]. simpl in HB.
    destruct (negb sh || _); [done|]. simpl. rewrite AddMany_sorted; [done|apply rb_sorted].
  - unfold CanonicalBitmap. intros Hl. ns_case H; ns_eval @Bitmap; simpl in *; try lia; [done|].
    rewrite rb_GetCardinality_spec. change (bitmapRef (setBitmap bm0)) with bm0.
    destruct (Z.ltb_spec (Z.of_nat smallSetMax) (Z.of_nat (length (rb_ToArray bm0)))); [lia|done].
  - unfold NodeSetFromBitmap in *. rewrite rb_GetCardinality_spec in *.
    destruct (Z.ltb_spec (Z.of_nat smallSetMax) (Z.of_nat (length (rb_ToArray bm)))); [split; [lia|done]|].
    split; [|lia]. intros Ht. exfalso. revert Ht. unfold NodeSetFromSorted.
    destruct (rb_ToArray bm) as [|x [|y r]]; [done| |].
    + rewrite (proj1 (single_word x (Forall_inv Hb))). done.
    + destruct (Nat.leb_spec (length (x :: y :: r)) smallSetMax) as [Hl|]; [|lia].
      by rewrite (proj1 (small_word (x :: y :: r) Hl)).
Qed.
End properties.

(** ** Witnesses *)

(** Nine single ids promote the set; a range to the top id and removals follow. *)
Definition demo_ops : list ns_op :=
  map OpAdd [5; 3; 9; 1; 7; 11; 2; 8; 4] ++ [OpRemove 3; OpAddRange (2 ^ 64 - 2) (2 ^ 64 - 1); OpRemoveRange 4 9].

Lemma demo_ops_ok : Forall op_ok demo_ops.
Proof. repeat constructor; unfold maxSingletonID, MaxUint64; lia. Qed.

Lemma nodeset_refines_witness :
  Contains (2 ^ 64 - 1) (fold_left ns_step demo_ops (nsZero (B := list Z))) = true /\
  ToArray (fold_left ns_step demo_ops (nsZero (B := list Z))) = [1; 2; 11; 2 ^ 64 - 2; 2 ^ 64 - 1].
Proof.
  split; [|by vm_compute]. destruct (nodeset_refines (B := list Z) demo_ops demo_ops_ok) as (_ & H & _).
  destruct (H (2 ^ 64 - 1)) as [-> _]; [by vm_compute|]. by vm_compute.
Defined.

Lemma nodeset_results_witness :
  (Remove 7 (fold_left ns_step [OpAdd 7] (nsZero (B := list Z)))).2 = true.
Proof.
  destruct (nodeset_results (B := list Z) [OpAdd 7] (OpAdd 1) 7 0 0) as (H & _).
  - repeat constructor; unfold maxSingletonID; lia.
  - destruct H as [-> _]; [by vm_compute|]. by vm_compute.
Defined.

(** Three ids added one at a time and as a range have one canonical image. *)
Lemma nodeset_canonical_witness :
  CanonicalBitmap (fold_left ns_step [OpAddRange 4 6] (nsZero (B := list Z))) =
  CanonicalBitmap (fold_left ns_step [OpAdd 6; OpAdd 4; OpAdd 5] (nsZero (B := list Z))).
Proof.
  destruct (nodeset_canonical (B := list Z) [OpAddRange 4 6] [1]) as (_ & H1 & _).
  - repeat constructor; unfold MaxUint64; lia.
  - repeat constructor; unfold maxSingletonID; simpl; lia.
  - destruct (nodeset_canonical (B := list Z) [OpAdd 6; OpAdd 4; OpAdd 5] [1]) as (_ & H2 & _).
    + repeat constructor; unfold maxSingletonID; lia.
    + repeat constructor; unfold maxSingletonID; simpl; lia.
    + rewrite H1 by (vm_compute; lia). rewrite H2 by (vm_compute; lia). by vm_compute.
Defined.

(** ** Observations *)

(** Removing the last id of a set in the small state, which holds one id only when
    that id exceeds 62 bits, neither reports nor records emptiness. *)
Lemma Remove_oversized_id :
  let s : NodeSet (list Z) := (Add (2 ^ 62) nsZero).1 in
  (Remove (2 ^ 62) s).2 = false /\ ToArray (Remove (2 ^ 62) s).1 = [] /\ IsEmpty (Remove (2 ^ 62) s).1 = false.
Proof. by vm_compute. Qed.

(** A promoted set that was drained does not report its next id as the first. *)
Lemma Add_after_drain :
  let s : NodeSet (list Z) := (RemoveRange 1 3 (AddRange 1 3 nsZero)).1 in
  IsEmpty s = true /\ (Add 7 s).2 = false.
Proof. by vm_compute. Qed.
