(* ===== verification/Bplus.v ===== *)
(** * The copy-on-write B+ tree (src/graph/index/btree/bplus.go)

    The immutable tree behind the ordered property index: descent, point lookup,
    the forward cursor, path-copying insertion and removal, and bottom-up bulk
    packing, with the payload entries the leaves point to and the arena that
    allocates them.  A node is immutable once published, so trees are values and a
    path copy is a new value; only entries are shared and mutable, and they are
    addressed by location in a heap.  [None] is a Go run-time panic (a failed type
    assertion or an index out of range) or, in a loop, exhausted fuel; the
    theorems show that neither happens on the trees the code builds. *)

From Stdlib Require Import ZArith Lia.
From stdpp Require Import gmap.
From S2P Require Import Prelude Ordered NodeSet.

Definition bplusFanout : nat := 128.
Definition bplusFillNum : nat := 2.
Definition bplusFillDen : nat := 3.
Definition maxCursorDepth : nat := 16.
Definition entrySlabLen : nat := 4.

(** The address of an entry. *)
Definition loc := nat.

(** ** Slices *)

Definition copySlice {T} (s : list T) : list T := s.
Definition copyInsertAt {T} (s : list T) (i : nat) (v : T) : list T := take i s ++ v :: drop i s.
Definition copyRemoveAt {T} (s : list T) (i : nat) : list T := take i s ++ drop (S i) s.

(** ** Entries and their arena *)

Section entries.
Context {B : Type} `{RB : Roaring B}.

Record entry := mkEntry { dead : bool; set : NodeSet B }.

(** The heap of entries, with the next fresh address. *)
Record store := mkStore { heap : gmap loc entry; fresh_loc : loc }.

(** The unhanded tail of the current slab. *)
Definition entryArena := list loc.

Definition zero_entry : entry := mkEntry false nsZero.

(** [make([]entry, entrySlabLen)]. *)
Definition make_slab (st : store) : store * list loc :=
  let slab := seq (fresh_loc st) entrySlabLen in
  (mkStore (foldr (fun l h => <[l := zero_entry]> h) (heap st) slab) (fresh_loc st + entrySlabLen), slab).

Definition alloc (a : entryArena) (st : store) : option (loc * entryArena * store) :=
  let '(st, a) := match a with [] => make_slab st | _ => (st, a) end in
  match a with [] => None | e :: a => Some (e, a, st) end.

(** Write through a pointer. *)
Definition set_entry (l : loc) (e : entry) (st : store) : store :=
  mkStore (<[l := e]> (heap st)) (fresh_loc st).
End entries.
Arguments entry B : clear implicits.
Arguments store B : clear implicits.

(** ** Nodes *)

Section tree.
Context {V : Type} `{OV : Ordered V}.

Record leaf := mkLeaf { l_keys : list V; l_sets : list loc }.

Inductive node := NLeaf (l : leaf) | NInode (i_keys : list V) (i_children : list node).

Definition inode : Type := list V * list node.

Record bplus := mkBplus { root : node; count : nat; height : nat }.

(** The type assertions to a leaf and to an internal node. *)
Definition asLeaf (n : node) : option leaf := match n with NLeaf l => Some l | _ => None end.
Definition asInode (n : node) : option inode :=
  match n with NInode ks cs => Some (ks, cs) | _ => None end.

Definition newBplus : bplus := mkBplus (NLeaf (mkLeaf [] [])) 0 1.

Definition leafSearch (l : leaf) (target : V) : nat :=
  bsearch_list (fun k => keyLess k target) (l_keys l).

Definition inodeChild (ks : list V) (target : V) : nat :=
  bsearch_list (fun k => negb (keyLess target k)) ks.

(** One hop of a descent. *)
Definition child_of (n : inode) (target : V) : option node := n.2 !! inodeChild n.1 target.

Fixpoint findLeaf_hops (hops : nat) (n : inode) (target : V) : option inode :=
  match hops with
  | O => Some n
  | S h => c ← child_of n target; n' ← asInode c; findLeaf_hops h n' target
  end.

Definition findLeaf (t : bplus) (target : V) : option leaf :=
  if (height t =? 1)%nat then asLeaf (root t)
  else
    n ← asInode (root t);
    n ← findLeaf_hops (height t - 2) n target;
    c ← child_of n target;
    asLeaf c.

(** The outer option is the panic, the inner one Go's nil. *)
Definition get (t : bplus) (value : V) : option (option loc) :=
  l ← findLeaf t value;
  let off := leafSearch l value in
  if (off <? length (l_keys l))%nat then
    k ← l_keys l !! off;
    match keyCompare k value with
    | Eq => e ← l_sets l !! off; Some (Some e)
    | _ => Some None
    end
  else Some None.

(** ** The cursor *)

Record cursorFrame := mkFrame { f_n : inode; f_ci : nat }.

(** [c_stack] is the used part of the array of frames, the deepest first, so that
    [depth] is its length. *)
Record cursor := mkCursor {
  c_stack : list cursorFrame;
  c_leaf : option leaf;
  c_off : nat;
  c_height : nat;
}.

(** The descent loop of [seek], [seekFirst] and [nextLeaf]: [levels] internal
    levels from [cur] down, taking the child [pick] chooses and recording a frame,
    whose index must be in the array. *)
Fixpoint descend (pick : list V -> nat) (levels : nat) (cur : node) (stack : list cursorFrame)
  : option (list cursorFrame * leaf) :=
  match levels with
  | O => l ← asLeaf cur; Some (stack, l)
  | S levels =>
      n ← asInode cur;
      let ci := pick n.1 in
      if (length stack <? maxCursorDepth)%nat then
        c ← n.2 !! ci;
        descend pick levels c (mkFrame n ci :: stack)
      else None
  end.

(** The search of [nextLeaf] for the deepest frame with an unvisited sibling. *)
Fixpoint next_frames (height : nat) (stack : list cursorFrame) : option cursor :=
  match stack with
  | [] => Some (mkCursor [] None 0 height)
  | f :: below =>
      if (length (f_n f).2 <=? S (f_ci f))%nat then next_frames height below
      else
        c ← (f_n f).2 !! S (f_ci f);
        '(stack', l) ← descend (fun _ => 0%nat) (height - 1 - S (length below)) c
          (mkFrame (f_n f) (S (f_ci f)) :: below);
        Some (mkCursor stack' (Some l) 0 height)
  end.

Definition nextLeaf (c : cursor) : option cursor := next_frames (c_height c) (c_stack c).

(** The leaves still ahead of a cursor bound the loop of [settle]. *)
Fixpoint leaves (n : node) : nat :=
  match n with NLeaf _ => 1 | NInode _ cs => sum_list_with leaves cs end.

Definition leaves_ahead (c : cursor) : nat :=
  sum_list_with (fun f => sum_list_with leaves (drop (S (f_ci f)) (f_n f).2)) (c_stack c).

Fixpoint settle_loop (fuel : nat) (c : cursor) : option cursor :=
  match fuel with
  | O => None
  | S fuel =>
      match c_leaf c with
      | None => Some c
      | Some l =>
          if (length (l_keys l) <=? c_off c)%nat then c' ← nextLeaf c; settle_loop fuel c'
          else Some c
      end
  end.

Definition settle (c : cursor) : option cursor := settle_loop (S (S (leaves_ahead c))) c.

Definition seek_with (pick : list V -> nat) (off : leaf -> nat) (t : bplus) : option cursor :=
  '(stack, l) ← descend pick (height t - 1) (root t) [];
  settle (mkCursor stack (Some l) (off l) (height t)).

Definition seek (t : bplus) (target : V) : option cursor :=
  seek_with (fun ks => inodeChild ks target) (fun l => leafSearch l target) t.

Definition seekFirst (t : bplus) : option cursor := seek_with (fun _ => 0%nat) (fun _ => 0%nat) t.

Definition valid (c : cursor) : bool := bool_decide (is_Some (c_leaf c)).

Definition c_key (c : cursor) : option V := l ← c_leaf c; l_keys l !! c_off c.
Definition c_entry (c : cursor) : option loc := l ← c_leaf c; l_sets l !! c_off c.

Definition next (c : cursor) : option cursor :=
  settle (mkCursor (c_stack c) (c_leaf c) (S (c_off c)) (c_height c)).

(** ** Insertion *)

(** The promoted separator and right sibling of a split. *)
Definition insertNode : Type := V * node.

Definition splitInode (ks : list V) (cs : list node) : option (node * option insertNode) :=
  let mid := (length ks / 2)%nat in
  promoteKey ← ks !! mid;
  Some (NInode (copySlice (take mid ks)) (copySlice (take (S mid) cs)),
    Some (promoteKey, NInode (copySlice (drop (S mid) ks)) (copySlice (drop (S mid) cs)))).

Definition cloneInsertLeaf (l : leaf) (value : V) (e : loc) : option (node * option insertNode) :=
  let off := leafSearch l value in
  let keys := copyInsertAt (l_keys l) off value in
  let sets := copyInsertAt (l_sets l) off e in
  if (length keys <=? bplusFanout)%nat then Some (NLeaf (mkLeaf keys sets), None)
  else
    let mid := (length keys / 2)%nat in
    let lft := mkLeaf (copySlice (take mid keys)) (copySlice (take mid sets)) in
    let rgt := mkLeaf (copySlice (drop mid keys)) (copySlice (drop mid sets)) in
    k ← head (l_keys rgt);
    Some (NLeaf lft, Some (k, NLeaf rgt)).

Fixpoint cloneInsertInto (level : nat) (cur : node) (value : V) (e : loc)
  : option (node * option insertNode) :=
  match level with
  | O => None
  | S O => l ← asLeaf cur; cloneInsertLeaf l value e
  | S level =>
      '(ks, cs) ← asInode cur;
      let ci := inodeChild ks value in
      c ← cs !! ci;
      '(child, promoted) ← cloneInsertInto level c value e;
      match promoted with
      | None => Some (NInode ks (<[ci := child]> (copySlice cs)), None)
      | Some (k, rgt) =>
          let ks' := copyInsertAt ks ci k in
          let cs' := <[ci := child]> (copyInsertAt cs (S ci) rgt) in
          if (length cs' <=? bplusFanout)%nat then Some (NInode ks' cs', None)
          else splitInode ks' cs'
      end
  end.

(** [cloneInsert] once its entry is allocated. *)
Definition insert_tree (t : bplus) (value : V) (e : loc) : option bplus :=
  '(r, promoted) ← cloneInsertInto (height t) (root t) value e;
  Some match promoted with
       | None => mkBplus r (S (count t)) (height t)
       | Some (k, rgt) => mkBplus (NInode [k] [r; rgt]) (S (count t)) (S (height t))
       end.

(** ** Removal *)

(** The replacement subtree (nil when an internal node lost its last child), and
    the flags [gone] and [removed]. *)
Fixpoint cloneRemoveFrom (level : nat) (cur : node) (value : V)
  : option (option node * bool * bool) :=
  match level with
  | O => None
  | S O =>
      l ← asLeaf cur;
      let off := leafSearch l value in
      let here := match l_keys l !! off with
                  | Some k => bool_decide (keyCompare k value = Eq) | None => false end in
      if (length (l_keys l) <=? off)%nat || negb here then Some (Some cur, false, false)
      else
        let nl := mkLeaf (copyRemoveAt (l_keys l) off) (copyRemoveAt (l_sets l) off) in
        Some (Some (NLeaf nl), (length (l_keys nl) =? 0)%nat, true)
  | S level =>
      '(ks, cs) ← asInode cur;
      let ci := inodeChild ks value in
      c ← cs !! ci;
      '(child, childGone, removed) ← cloneRemoveFrom level c value;
      if negb removed then Some (Some cur, false, false)
      else if negb childGone then
        child ← child;
        Some (Some (NInode ks (<[ci := child]> (copySlice cs))), false, true)
      else
        let children := copyRemoveAt cs ci in
        let keys := if (0 <? length ks)%nat then copyRemoveAt ks (ci - 1) else ks in
        if (length children =? 0)%nat then Some (None, true, true)
        else Some (Some (NInode keys children), false, true)
  end.

(** Collapse the root internal nodes that have one child. *)
Fixpoint collapse (height : nat) (r : node) : node * nat :=
  match height with
  | S (S h as h') =>
      match r with
      | NInode _ [c] => collapse h' c
      | _ => (r, height)
      end
  | _ => (r, height)
  end.

Definition cloneRemove (t : bplus) (value : V) : option bplus :=
  '(r, gone, removed) ← cloneRemoveFrom (height t) (root t) value;
  if negb removed then Some t
  else if (gone : bool) then Some newBplus
  else
    r ← r;
    let '(r, h) := collapse (height t) r in
    Some (mkBplus r (count t - 1) h).

(** ** Bulk packing *)

(** [s] cut in consecutive windows of [n] elements. *)
Fixpoint windows {T} (fuel n : nat) (s : list T) : list (list T) :=
  match fuel, s with
  | S fuel, _ :: _ => take n s :: windows fuel n (drop n s)
  | _, _ => []
  end.

Definition packCap (least : nat) : nat :=
  Nat.max least (bplusFanout * bplusFillNum / bplusFillDen).

(** One window of leaves, and one of nodes with their first keys. *)
Definition pack_leaf (w : list (V * loc)) : node := NLeaf (mkLeaf w.*1 w.*2).

Definition pack_inode (w : list (V * node)) : option (V * node) :=
  match w with
  | [] => None
  | (k, _) :: rest => Some (k, NInode rest.*1 (copySlice w.*2))
  end.

Definition first_key (w : list (V * loc)) : option V := fst <$> head w.

(** The loop over levels: [level] pairs each node with its first key. *)
Fixpoint pack_levels (fuel : nat) (level : list (V * node)) (height : nat) : option (node * nat) :=
  match level with
  | [(_, n)] => Some (n, height)
  | _ =>
      match fuel with
      | O => None
      | S fuel =>
          parents ← mapM pack_inode (windows (length level) (packCap 2) level);
          pack_levels fuel parents (S height)
      end
  end.

Definition bulk_tree (kvs : list (V * loc)) : option bplus :=
  match kvs with
  | [] => Some (mkBplus (NLeaf (mkLeaf [] [])) 0 1)
  | _ =>
      let ws := windows (length kvs) (packCap 1) kvs in
      firsts ← mapM first_key ws;
      '(r, h) ← pack_levels (length ws) (zip firsts (pack_leaf <$> ws)) 1;
      Some (mkBplus r (length kvs) h)
  end.
End tree.
Arguments leaf V : clear implicits.
Arguments node V : clear implicits.
Arguments bplus V : clear implicits.
Arguments cursor V : clear implicits.
Arguments cursorFrame V : clear implicits.

(** ** The operations that allocate *)

Section alloc.
Context {V B : Type} `{OV : Ordered V} {RB : Roaring B}.

Definition cloneInsert (t : bplus V) (value : V) (node_id : Z) (a : entryArena) (st : store B)
  : option (bplus V * entryArena * store B) :=
  '(e, a, st) ← alloc a st;
  en ← heap st !! e;
  let st := set_entry e (mkEntry (dead en) (Add node_id (set en)).1) st in
  t' ← insert_tree t value e;
  Some (t', a, st).

(** The payloads of [bulkPack], from one private arena. *)
Fixpoint alloc_sets (sets : list (NodeSet B)) (a : entryArena) (st : store B)
  : option (list loc * store B) :=
  match sets with
  | [] => Some ([], st)
  | s :: sets =>
      '(e, a, st) ← alloc a st;
      en ← heap st !! e;
      '(ptrs, st) ← alloc_sets sets a (set_entry e (mkEntry (dead en) s) st);
      Some (e :: ptrs, st)
  end.

Definition bulkPack (keys : list V) (sets : list (NodeSet B)) (st : store B)
  : option (bplus V * store B) :=
  '(ptrs, st) ← alloc_sets sets [] st;
  t ← bulk_tree (zip keys ptrs);
  Some (t, st).
End alloc.

(** ** Scans

    The loop [for c.seek(..); c.valid(); c.next() { .. }] with its body: [inl] goes
    on with the next key, [inr] leaves the loop. *)
Section scan.
Context {V A R : Type} `{OV : Ordered V}.

Fixpoint scan (fuel : nat) (body : A -> V -> loc -> option (A + R)) (acc : A) (c : cursor V)
  : option (A + R) :=
  match fuel with
  | O => None
  | S fuel =>
      if valid c then
        k ← c_key c;
        e ← c_entry c;
        r ← body acc k e;
        match r with
        | inl acc => c' ← next c; scan fuel body acc c'
        | inr r => Some (inr r)
        end
      else Some (inl acc)
  end.
End scan.
