(* ===== verification/BplusInv.v ===== *)
(** * The B+ tree invariant

    The in-order bindings of a tree, the well-formedness of nodes between two
    separators, and the lemmas that open a node around the child a search picks and
    close it again after the child changed, split or vanished. *)

From Stdlib Require Import ZArith Lia.
From S2P Require Import Prelude Ordered NodeSet Bplus.

Section inv.
Context {V : Type} `{OV : Ordered V} {LV : OrderedLaws V}.
Implicit Types (k : V) (lo hi : option V) (n : node V).

(** The bindings in key order. *)
Fixpoint kvs n : list (V * loc) :=
  match n with
  | NLeaf l => zip (l_keys l) (l_sets l)
  | NInode _ cs => flat_map kvs cs
  end.

(** ** Bounds: an optional least key, included, and an optional upper, excluded. *)

Definition above_lo lo k : Prop := match lo with None => True | Some a => ~ klt k a end.
Definition below_hi k hi : Prop := match hi with None => True | Some b => klt k b end.
Definition in_bounds lo hi k : Prop := above_lo lo k /\ below_hi k hi.
Definition blt lo hi : Prop := match lo, hi with Some a, Some b => klt a b | _, _ => True end.
Definition all_in lo hi (l : list (V * loc)) : Prop := Forall (fun p => in_bounds lo hi p.1) l.

(** The children of an internal node: each between its neighbouring separators,
    the separators strictly ascending. *)
Fixpoint chain (P : option V -> option V -> node V -> Prop) lo (ks : list V) (cs : list (node V)) hi : Prop :=
  match ks, cs with
  | [], [c] => blt lo hi /\ P lo hi c
  | k :: ks, c :: cs => blt lo (Some k) /\ P lo (Some k) c /\ chain P (Some k) ks cs hi
  | _, _ => False
  end.

Definition leaf_ok lo hi (l : leaf V) : Prop :=
  length (l_sets l) = length (l_keys l) /\ (0 < length (l_keys l) <= bplusFanout)%nat /\
  StronglySorted klt (l_keys l) /\ Forall (in_bounds lo hi) (l_keys l).

Fixpoint node_ok (level : nat) lo hi n {struct level} : Prop :=
  match level with
  | O => False
  | S level =>
      match n with
      | NLeaf l => level = 0%nat /\ leaf_ok lo hi l
      | NInode ks cs => level <> 0%nat /\ (length cs <= bplusFanout)%nat /\ chain (node_ok level) lo ks cs hi
      end
  end.

(** A snapshot: an empty leaf, or a well-formed root at its height. *)
Definition tree_ok (t : bplus V) : Prop :=
  count t = length (kvs (root t)) /\
  ((root t = NLeaf (mkLeaf [] []) /\ height t = 1%nat) \/ node_ok (height t) None None (root t)).

(** ** Bounds *)

Lemma blt_trans lo k hi : blt lo (Some k) -> blt (Some k) hi -> blt lo hi.
Proof. destruct lo, hi; simpl; auto. apply klt_trans. Qed.

Lemma in_bounds_blt lo hi k : in_bounds lo hi k -> blt lo hi.
Proof. intros [Ha Hb]. destruct lo, hi; simpl in *; try done. by eapply kle_lt_trans. Qed.

(** Lowering the lower bound, raising the upper one. *)
Definition wider lo hi lo' hi' : Prop :=
  match lo' with None => True | Some a' => exists a, lo = Some a /\ ~ klt a a' end /\
  match hi' with None => True | Some b' => exists b, hi = Some b /\ ~ klt b' b end.

Lemma wider_bounds lo hi lo' hi' k : wider lo hi lo' hi' -> in_bounds lo hi k -> in_bounds lo' hi' k.
Proof.
  intros [H1 H2] [Ha Hb]. split.
  - destruct lo' as [a'|]; [|done]. destruct H1 as (a & -> & H1). simpl in *. by eapply kle_trans.
  - destruct hi' as [b'|]; [|done]. destruct H2 as (b & -> & H2). simpl in *. by eapply klt_le_trans.
Qed.

Lemma wider_blt lo hi lo' hi' : wider lo hi lo' hi' -> blt lo hi -> blt lo' hi'.
Proof.
  intros [H1 H2] H. destruct lo' as [a'|], hi' as [b'|]; simpl; try done.
  destruct H1 as (a & -> & H1), H2 as (b & -> & H2). simpl in H.
  by eapply klt_le_trans, H2; eapply kle_lt_trans.
Qed.

Lemma wider_lo lo k hi : blt lo (Some k) -> wider (Some k) hi lo hi.
Proof.
  intros H. split.
  - destruct lo as [a|]; [|done]. exists k. split; [done|]. intros Hk.
    by apply (klt_irrefl a), (klt_trans _ k).
  - destruct hi as [b|]; [|done]. exists b. split; [done|]. apply klt_irrefl.
Qed.

Lemma wider_hi lo k hi : blt (Some k) hi -> wider lo (Some k) lo hi.
Proof.
  intros H. split.
  - destruct lo as [a|]; [|done]. exists a. split; [done|]. apply klt_irrefl.
  - destruct hi as [b|]; [|done]. exists k. split; [done|]. intros Hk.
    by apply (klt_irrefl b), (klt_trans _ k).
Qed.

(** The bounds of one separator side. *)
Lemma wider_left lo hi lo' hi' k : wider lo hi lo' hi' -> wider lo (Some k) lo' (Some k).
Proof. intros [H _]. split; [done|]. exists k. split; [done|]. apply klt_irrefl. Qed.

Lemma wider_right lo hi lo' hi' k : wider lo hi lo' hi' -> wider (Some k) hi (Some k) hi'.
Proof. intros [_ H]. split; [|done]. exists k. split; [done|]. apply klt_irrefl. Qed.

(** ** Chains *)

Section chain.
Context (P : option V -> option V -> node V -> Prop).

Lemma chain_length lo ks cs hi : chain P lo ks cs hi -> length cs = S (length ks).
Proof.
  revert lo cs. induction ks as [|k ks IH]; intros lo [|c cs] H; simpl in *; try done.
  - by destruct cs.
  - destruct H as (_ & _ & H). apply IH in H. lia.
Qed.

Lemma chain_blt lo ks cs hi : chain P lo ks cs hi -> blt lo hi.
Proof.
  revert lo cs. induction ks as [|k ks IH]; intros lo [|c cs] H; simpl in *; try done.
  - destruct cs; [by destruct H|done].
  - destruct H as (H1 & _ & H2). apply IH in H2. by eapply blt_trans.
Qed.

(** The left context of a hole: children with the separator that follows each. *)
Fixpoint lchain lo (ks : list V) (cs : list (node V)) lo' : Prop :=
  match ks, cs with
  | [], [] => lo' = lo
  | k :: ks, c :: cs => blt lo (Some k) /\ P lo (Some k) c /\ lchain (Some k) ks cs lo'
  | _, _ => False
  end.

(** The right context: children with the separator that precedes each. *)
Definition rchain hi' (ks : list V) (cs : list (node V)) hi : Prop :=
  match ks with
  | [] => cs = [] /\ hi' = hi
  | k :: ks => hi' = Some k /\ chain P (Some k) ks cs hi
  end.

Lemma chain_hole ks1 : forall lo cs1 c ks2 cs2 hi, length cs1 = length ks1 ->
  chain P lo (ks1 ++ ks2) (cs1 ++ c :: cs2) hi <->
  exists lo' hi', lchain lo ks1 cs1 lo' /\ blt lo' hi' /\ P lo' hi' c /\ rchain hi' ks2 cs2 hi.
Proof.
  induction ks1 as [|k ks1 IH]; intros lo cs1 c ks2 cs2 hi Hl; destruct cs1 as [|d cs1]; simplify_eq/=.
  - destruct ks2 as [|k ks2]; simpl.
    + destruct cs2; [|split; [done|by intros (? & ? & ? & ? & ? & ? & ?)]].
      split; [intros [? ?]; by exists lo, hi|]. by intros (lo' & hi' & -> & ? & ? & _ & ->).
    + split; [intros (? & ? & ?); by exists lo, (Some k)|]. by intros (lo' & hi' & -> & ? & ? & -> & ?).
  - rewrite IH by done. split.
    + intros (? & ? & lo' & hi' & ?). exists lo', hi'. tauto.
    + intros (lo' & hi' & ?). split; [tauto|]. split; [tauto|]. exists lo', hi'. tauto.
Qed.

(** Cutting a chain at a separator. *)
Lemma chain_cut ks1 : forall lo cs1 k ks2 cs2 hi, length cs1 = S (length ks1) ->
  chain P lo (ks1 ++ k :: ks2) (cs1 ++ cs2) hi <->
  chain P lo ks1 cs1 (Some k) /\ chain P (Some k) ks2 cs2 hi.
Proof.
  induction ks1 as [|y ks1 IH]; intros lo cs1 k ks2 cs2 hi Hl; destruct cs1 as [|d cs1]; simplify_eq/=.
  - destruct cs1; [|done]. simpl. tauto.
  - rewrite IH by done. tauto.
Qed.

Lemma chain_rchain hi' ks2 cs2 hi r k : rchain hi' ks2 cs2 hi -> blt (Some k) hi' -> P (Some k) hi' r ->
  rchain (Some k) (k :: ks2) (r :: cs2) hi.
Proof.
  intros H Hb Hr. split; [done|]. apply (chain_hole [] (Some k) [] r ks2 cs2 hi eq_refl).
  exists (Some k), hi'. done.
Qed.

Lemma lchain_snoc ks1 : forall lo cs1 k c lo', length cs1 = length ks1 ->
  lchain lo (ks1 ++ [k]) (cs1 ++ [c]) lo' <->
  lo' = Some k /\ exists lo1, lchain lo ks1 cs1 lo1 /\ blt lo1 (Some k) /\ P lo1 (Some k) c.
Proof.
  induction ks1 as [|x ks1 IH]; intros lo cs1 k c lo' Hl; destruct cs1 as [|d cs1]; simplify_eq/=.
  - split; [intros (? & ? & ->); split; [done|]; by exists lo|]. by intros (-> & lo1 & -> & ? & ?).
  - rewrite IH by done. split.
    + intros (? & ? & ? & lo1 & ?). split; [done|]. exists lo1. tauto.
    + intros (? & lo1 & ?). split; [tauto|]. split; [tauto|]. split; [done|]. exists lo1. tauto.
Qed.

Context (Pw : forall lo hi lo' hi' c, wider lo hi lo' hi' -> P lo hi c -> P lo' hi' c).

Lemma chain_lo lo k ks cs hi : blt lo (Some k) -> chain P (Some k) ks cs hi -> chain P lo ks cs hi.
Proof.
  intros Hb H. destruct ks as [|k' ks], cs as [|c cs]; simpl in *; try done.
  - destruct cs; [|done]. destruct H as [H1 H2]. split; [by eapply blt_trans|].
    eapply Pw; [by apply wider_lo|done].
  - destruct H as (H1 & H2 & H3). split; [by eapply blt_trans|]. split; [|done].
    eapply Pw; [by apply wider_lo|done].
Qed.
End chain.

(** ** Nodes *)

Lemma chain_wider P lo ks cs hi lo' hi' :
  (forall lo hi lo' hi' c, wider lo hi lo' hi' -> P lo hi c -> P lo' hi' c) ->
  wider lo hi lo' hi' -> chain P lo ks cs hi -> chain P lo' ks cs hi'.
Proof.
  intros HP. revert lo lo' cs. induction ks as [|k ks IH]; intros lo lo' [|c cs] Hw H; simpl in *; try done.
  - destruct cs; [|done]. destruct H as [H1 H2]. split; [by eapply wider_blt|by eapply HP].
  - destruct H as (H1 & H2 & H3). split; [eapply wider_blt; [|done]; by eapply wider_left|].
    split; [eapply HP; [|done]; by eapply wider_left|]. eapply IH; [|done]. by eapply wider_right.
Qed.

Lemma node_ok_wider level : forall lo hi lo' hi' n,
  wider lo hi lo' hi' -> node_ok level lo hi n -> node_ok level lo' hi' n.
Proof.
  induction level as [|level IH]; intros lo hi lo' hi' [l|ks cs] Hw H; simpl in *; try done.
  - destruct H as (H0 & H1 & H2 & H3 & H4). split; [done|]. split; [done|]. split; [done|]. split; [done|].
    eapply Forall_impl; [done|]. intros k. by apply wider_bounds.
  - destruct H as (H0 & H1 & H2). spl; [done|done|]. by eapply chain_wider.
Qed.

(** The keys of the bindings, in order and between the bounds. *)
Lemma leaf_kvs lo hi l : leaf_ok lo hi l ->
  ascending (kvs (NLeaf l)) /\ all_in lo hi (kvs (NLeaf l)) /\ kvs (NLeaf l) <> [].
Proof.
  intros (H1 & H2 & H3 & H4). simpl. assert (Hk : (zip (l_keys l) (l_sets l)).*1 = l_keys l)
    by (apply fst_zip; lia).
  assert (Hf : forall (P : V -> Prop), Forall P (l_keys l) -> Forall (fun p => P p.1) (zip (l_keys l) (l_sets l))).
  { intros P HP. change (Forall (P ∘ fst) (zip (l_keys l) (l_sets l))). apply Forall_fmap. by rewrite Hk. }
  split; [|split].
  - unfold ascending. revert H3. clear -H1. destruct l as [ks vs]. simpl in *. revert vs H1.
    induction ks as [|k ks IH]; intros [|v vs] Hl H; simpl in *; try done; [constructor|].
    apply StronglySorted_cons in H as [Hk H]. constructor; [apply IH; [lia|done]|].
    apply Forall_forall. intros [k' v'] Hin. simpl. rewrite Forall_forall in Hk. apply Hk.
    by apply elem_of_zip_l in Hin.
  - by apply Hf.
  - intros E. rewrite E in Hk. simpl in Hk. rewrite <- Hk in H2. simpl in H2. lia.
Qed.

Definition kvs_ok lo hi n : Prop := ascending (kvs n) /\ all_in lo hi (kvs n) /\ kvs n <> [].

Lemma all_in_wider lo hi lo' hi' l : wider lo hi lo' hi' -> all_in lo hi l -> all_in lo' hi' l.
Proof. intros Hw H. eapply Forall_impl; [done|]. intros p. by apply wider_bounds. Qed.

Lemma chain_kvs P lo ks cs hi : (forall lo hi n, P lo hi n -> kvs_ok lo hi n) -> chain P lo ks cs hi ->
  ascending (flat_map kvs cs) /\ all_in lo hi (flat_map kvs cs) /\ flat_map kvs cs <> [].
Proof.
  intros HP. revert lo cs. induction ks as [|k ks IH]; intros lo [|c cs] H; simpl in *; try done.
  - destruct cs; [|done]. destruct H as [_ H]. simpl. rewrite app_nil_r. by apply HP.
  - destruct H as (H1 & H2 & H3). apply HP in H2 as (A1 & A2 & A3).
    pose proof (chain_blt _ _ _ _ _ H3) as Hb. destruct (IH _ _ H3) as (B1 & B2 & B3). spl.
    + apply ascending_app. spl; [done|done|]. eapply Forall_impl; [exact A2|]. intros p [_ Hp].
      eapply Forall_impl; [exact B2|]. intros q [Hq _]. simpl in *. by eapply klt_le_trans.
    + apply Forall_app. split; [eapply all_in_wider; [|done]; by apply wider_hi|].
      eapply all_in_wider; [|done]. by apply wider_lo.
    + intros E. by apply app_eq_nil in E as [? _].
Qed.

Lemma node_kvs level : forall lo hi n, node_ok level lo hi n -> kvs_ok lo hi n.
Proof.
  induction level as [|level IH]; intros lo hi [l|ks cs] H; simpl in H; try done.
  - destruct H as [_ H]. exact (leaf_kvs lo hi l H).
  - destruct H as (_ & _ & H). exact (chain_kvs _ _ _ _ _ (IH) H).
Qed.

(** ** The height of a tree

    A potential that an insertion raises by at most one and that pays for every
    split: a node in excess of its split size holds, per item in excess, the price
    of a new node of its level.  A tree of height [h] cost at least [weight h]. *)

Definition weight (level : nat) : Z := 64 ^ (Z.of_nat level - 1).
Definition excess (m : nat) : Z := Z.max 0 (Z.of_nat m - 65).

Fixpoint potential (level : nat) n : Z :=
  match level with
  | O => 0
  | S level' =>
      match n with
      | NLeaf l => excess (length (l_keys l))
      | NInode _ cs => weight level * excess (length cs) + foldr (fun c s => potential level' c + s) 0 cs
      end
  end%Z.

Abbreviation total level := (foldr (fun c s => potential level c + s)%Z 0%Z).

Definition tree_potential (t : bplus V) : Z := (potential (height t) (root t) + weight (height t))%Z.

Lemma weight_S level : level <> 0%nat -> weight (S level) = (64 * weight level)%Z.
Proof.
  intros H. unfold weight. replace (Z.of_nat (S level) - 1)%Z with (1 + (Z.of_nat level - 1))%Z by lia.
  by rewrite Z.pow_add_r by lia.
Qed.

Lemma weight_pos level : (0 <= weight level)%Z.
Proof. apply Z.pow_nonneg. lia. Qed.

Lemma weight_mono a b : a <> 0%nat -> (a <= b)%nat -> (weight a <= weight b)%Z.
Proof. intros. apply Z.pow_le_mono_r; lia. Qed.

Lemma excess_S m : (excess m <= excess (S m) <= excess m + 1)%Z.
Proof. unfold excess. lia. Qed.

Lemma total_app level cs1 cs2 : total level (cs1 ++ cs2) = (total level cs1 + total level cs2)%Z.
Proof. induction cs1 as [|c cs1 IH]; simpl; lia. Qed.

Lemma potential_nonneg level : forall n, (0 <= potential level n)%Z.
Proof.
  induction level as [|level IH]; intros [l|ks cs]; cbn [potential]; try done.
  - unfold excess. lia.
  - assert (0 <= total level cs)%Z by (induction cs as [|c cs IHc]; simpl; [lia|]; specialize (IH c); lia).
    pose proof (weight_pos (S level)). unfold excess. nia.
Qed.

(** ** Opening a node around a key *)

(** A node with separators [ks] and children [cs] opened around the child the
    descent for [x] takes: the separators and children on both sides, the child
    and its own bounds, which hold [x]. *)
Record hole level lo hi ks cs x ks1 ks2 cs1 c cs2 lo' hi' : Prop := mkHole {
  h_ks : ks = ks1 ++ ks2;
  h_cs : cs = cs1 ++ c :: cs2;
  h_len : length cs1 = length ks1;
  h_ci : inodeChild ks x = length ks1;
  h_left : lchain (node_ok level) lo ks1 cs1 lo';
  h_blt : blt lo' hi';
  h_child : node_ok level lo' hi' c;
  h_right : rchain (node_ok level) hi' ks2 cs2 hi;
  h_bounds : in_bounds lo' hi' x;
  h_below : all_below x (flat_map kvs cs1);
  h_above : all_above x (flat_map kvs cs2);
}.
#[global] Arguments h_ks {_ _ _ _ _ _ _ _ _ _ _ _ _} _.
#[global] Arguments h_cs {_ _ _ _ _ _ _ _ _ _ _ _ _} _.
#[global] Arguments h_len {_ _ _ _ _ _ _ _ _ _ _ _ _} _.
#[global] Arguments h_ci {_ _ _ _ _ _ _ _ _ _ _ _ _} _.
#[global] Arguments h_left {_ _ _ _ _ _ _ _ _ _ _ _ _} _.
#[global] Arguments h_blt {_ _ _ _ _ _ _ _ _ _ _ _ _} _.
#[global] Arguments h_child {_ _ _ _ _ _ _ _ _ _ _ _ _} _.
#[global] Arguments h_right {_ _ _ _ _ _ _ _ _ _ _ _ _} _.
#[global] Arguments h_bounds {_ _ _ _ _ _ _ _ _ _ _ _ _} _.
#[global] Arguments h_below {_ _ _ _ _ _ _ _ _ _ _ _ _} _.
#[global] Arguments h_above {_ _ _ _ _ _ _ _ _ _ _ _ _} _.

Lemma chain_above P a ks cs hi : chain P (Some a) ks cs hi -> Forall (klt a) ks.
Proof.
  revert a cs. induction ks as [|k ks IH]; intros a [|c cs] H; simpl in *; try done.
  destruct H as (H1 & _ & H). constructor; [done|]. apply IH in H.
  eapply Forall_impl; [done|]. intros x. by apply klt_trans.
Qed.

Lemma chain_sorted P lo ks cs hi : chain P lo ks cs hi -> StronglySorted klt ks.
Proof.
  revert lo cs. induction ks as [|k ks IH]; intros lo [|c cs] H; simpl in *; try done; [constructor|].
  destruct H as (_ & _ & H). constructor; [by eapply IH|by eapply chain_above].
Qed.

Lemma lchain_below level x ks1 : forall lo cs1 lo', lchain (node_ok level) lo ks1 cs1 lo' ->
  above_lo lo x -> Forall (fun k => ~ klt x k) ks1 ->
  above_lo lo' x /\ all_below x (flat_map kvs cs1).
Proof.
  induction ks1 as [|k ks1 IH]; intros lo [|c cs1] lo' H Ha Hk; simpl in *; try done.
  - subst. split; [done|constructor].
  - destruct H as (H1 & H2 & H3). apply Forall_cons in Hk as [Hk Hks].
    destruct (IH _ _ _ H3 Hk Hks) as [A1 A2]. split; [done|]. apply Forall_app. split; [|done].
    apply node_kvs in H2 as (_ & H2 & _). eapply Forall_impl; [exact H2|]. intros p [_ Hp].
    simpl in Hp. by eapply klt_le_trans.
Qed.

Lemma rchain_above level x ks2 hi' cs2 hi : rchain (node_ok level) hi' ks2 cs2 hi ->
  below_hi x hi -> Forall (klt x) ks2 -> below_hi x hi' /\ all_above x (flat_map kvs cs2).
Proof.
  destruct ks2 as [|k ks2]; simpl; intros H Hb Hk.
  - destruct H as [-> ->]. split; [done|constructor].
  - destruct H as [-> H]. apply Forall_cons in Hk as [Hk _]. split; [done|].
    apply (chain_kvs _ _ _ _ _ (node_kvs level)) in H as (_ & H & _).
    eapply Forall_impl; [exact H|]. intros p [Hp _]. simpl in Hp. by eapply klt_le_trans.
Qed.

Lemma inodeChild_spec P lo ks cs hi x : chain P lo ks cs hi -> exists ks1 ks2,
  ks = ks1 ++ ks2 /\ inodeChild ks x = length ks1 /\
  Forall (fun k => ~ klt x k) ks1 /\ Forall (klt x) ks2.
Proof.
  intros H. apply chain_sorted in H.
  destruct (bsearch_list_spec (fun k => negb (keyLess x k)) klt ks H) as (ks1 & ks2 & -> & E & H1 & H2).
  - intros a b Hab Hb. apply negb_true_iff in Hb. apply negb_true_iff, not_true_iff_false. intros Ha.
    apply not_true_iff_false in Hb. apply Hb. exact (klt_trans x a b Ha Hab).
  - exists ks1, ks2. split; [done|]. split; [done|]. split; (eapply Forall_impl; [done|]); intros k Hk; simpl in Hk.
    + apply negb_true_iff in Hk. unfold klt. by rewrite Hk.
    + by apply negb_false_iff in Hk.
Qed.

Lemma open_node level lo hi ks cs x : chain (node_ok level) lo ks cs hi -> in_bounds lo hi x ->
  exists ks1 ks2 cs1 c cs2 lo' hi', hole level lo hi ks cs x ks1 ks2 cs1 c cs2 lo' hi'.
Proof.
  intros H [Ha Hb]. pose proof (chain_length _ _ _ _ _ H) as Hl.
  destruct (inodeChild_spec _ _ _ _ _ x H) as (ks1 & ks2 & -> & E & H1 & H2).
  rewrite length_app in Hl.
  assert (exists cs1 c cs2, cs = cs1 ++ c :: cs2 /\ length cs1 = length ks1) as (cs1 & c & cs2 & -> & Hcs).
  { destruct (lookup_lt_is_Some_2 cs (length ks1)) as [c Hc]; [lia|].
    exists (take (length ks1) cs), c, (drop (S (length ks1)) cs). split.
    - symmetry. by apply take_drop_middle.
    - rewrite length_take. lia. }
  apply chain_hole in H as (lo' & hi' & HL & HB & HP & HR); [|done].
  destruct (lchain_below _ _ _ _ _ _ HL Ha H1) as [A1 A2].
  destruct (rchain_above _ _ _ _ _ _ HR Hb H2) as [B1 B2].
  exists ks1, ks2, cs1, c, cs2, lo', hi'. by constructor.
Qed.

Section hole.
Context {level lo hi ks cs x ks1 ks2 cs1 c cs2 lo' hi'}
        (Hh : hole level lo hi ks cs x ks1 ks2 cs1 c cs2 lo' hi').

Lemma hole_child : cs !! inodeChild ks x = Some c.
Proof. rewrite (h_ci Hh), (h_cs Hh), <- (h_len Hh).
  by rewrite lookup_app_r, Nat.sub_diag.
Qed.

Lemma hole_kvs : flat_map kvs cs = flat_map kvs cs1 ++ kvs c ++ flat_map kvs cs2.
Proof. rewrite (h_cs Hh). by rewrite flat_map_app. Qed.

Lemma hole_total : total level cs = (total level cs1 + (potential level c + total level cs2))%Z.
Proof. rewrite (h_cs Hh). by rewrite total_app. Qed.

(** Replacing the child. *)
Lemma hole_replace d : node_ok level lo' hi' d ->
  chain (node_ok level) lo ks (<[inodeChild ks x := d]> cs) hi /\
  flat_map kvs (<[inodeChild ks x := d]> cs) = flat_map kvs cs1 ++ kvs d ++ flat_map kvs cs2 /\
  length (<[inodeChild ks x := d]> cs) = length cs /\
  total level (<[inodeChild ks x := d]> cs) = (total level cs1 + (potential level d + total level cs2))%Z.
Proof.
  destruct Hh as [-> -> Hl Hci HL HB HC HR _ _ _]. intros Hd. rewrite Hci, <- Hl.
  rewrite insert_app_r_alt, Nat.sub_diag by done. simpl. spl.
  - apply chain_hole; [done|]. by exists lo', hi'.
  - by rewrite flat_map_app.
  - by rewrite !length_app.
  - by rewrite total_app.
Qed.

(** Splicing in a split child. *)
Lemma hole_split d k r : blt lo' (Some k) -> blt (Some k) hi' ->
  node_ok level lo' (Some k) d -> node_ok level (Some k) hi' r ->
  let ks' := copyInsertAt ks (inodeChild ks x) k in
  let cs' := <[inodeChild ks x := d]> (copyInsertAt cs (S (inodeChild ks x)) r) in
  chain (node_ok level) lo ks' cs' hi /\
  flat_map kvs cs' = flat_map kvs cs1 ++ (kvs d ++ kvs r) ++ flat_map kvs cs2 /\
  length cs' = S (length cs) /\
  total level cs' = (total level cs1 + (potential level d + (potential level r + total level cs2)))%Z.
Proof.
  destruct Hh as [-> -> Hl Hci HL HB HC HR _ _ _]. intros Hk1 Hk2 Hd Hr. rewrite Hci.
  unfold copyInsertAt. rewrite take_app_length, drop_app_length, <- Hl.
  replace (cs1 ++ c :: cs2) with ((cs1 ++ [c]) ++ cs2) by by rewrite <- app_assoc.
  assert (Hs : length (cs1 ++ [c]) = S (length cs1)) by (rewrite length_app; simpl; lia).
  rewrite <- Hs, take_app_length, drop_app_length, <- app_assoc, insert_app_r_alt, Nat.sub_diag by done.
  simpl. spl.
  - apply (chain_hole (node_ok level) ks1 lo cs1 d (k :: ks2) (r :: cs2) hi Hl).
    exists lo', (Some k). spl; [done|done|done|]. by eapply chain_rchain.
  - rewrite flat_map_app. simpl. by rewrite <- !app_assoc.
  - rewrite !length_app. simpl. lia.
  - by rewrite total_app.
Qed.

(** Dropping the child with the separator that bordered it; what is left of a
    non-empty node is well formed. *)
Lemma hole_remove :
  let ks' := if (0 <? length ks)%nat then copyRemoveAt ks (inodeChild ks x - 1) else ks in
  let cs' := copyRemoveAt cs (inodeChild ks x) in
  flat_map kvs cs' = flat_map kvs cs1 ++ flat_map kvs cs2 /\
  S (length cs') = length cs /\
  total level cs' = (total level cs1 + total level cs2)%Z /\
  (cs' <> [] -> chain (node_ok level) lo ks' cs' hi).
Proof.
  destruct Hh as [-> -> Hl Hci HL HB HC HR _ _ _]. rewrite Hci. unfold copyRemoveAt.
  assert (Hdel : take (length ks1) (cs1 ++ c :: cs2) ++ drop (S (length ks1)) (cs1 ++ c :: cs2) = cs1 ++ cs2).
  { rewrite <- Hl, take_app_length. replace (cs1 ++ c :: cs2) with ((cs1 ++ [c]) ++ cs2) by by rewrite <- app_assoc.
    replace (S (length cs1)) with (length (cs1 ++ [c])) by (rewrite length_app; simpl; lia).
    by rewrite drop_app_length. }
  rewrite Hdel. split; [by rewrite flat_map_app|]. split; [rewrite !length_app; simpl; lia|].
  split; [apply total_app|]. intros Hne.
  destruct ks1 as [|kz ks1' _] using rev_ind.
  - destruct cs1; [|done]. simpl in HL. subst lo'. simpl in *. destruct ks2 as [|k ksr]; simpl in HR.
    + by destruct HR as [-> _].
    + destruct HR as [-> HR]. simpl. eapply chain_lo; [apply node_ok_wider|exact HB|exact HR].
  - destruct cs1 as [|cz cs1' _] using rev_ind; [rewrite length_app in Hl; simpl in Hl; lia|].
    rewrite !length_app in Hl. simpl in Hl. assert (Hl' : length cs1' = length ks1') by lia.
    apply lchain_snoc in HL as (-> & lo1 & HL & Hb1 & Hz); [|done].
    destruct (Nat.ltb_spec 0 (length ((ks1' ++ [kz]) ++ ks2)));
      [|rewrite !length_app in *; simpl in *; lia].
    rewrite length_app. simpl. replace (length ks1' + 1 - 1)%nat with (length ks1') by lia.
    rewrite <- !app_assoc. simpl. rewrite take_app_length, drop_app_ge by lia.
    replace (S (length ks1') - length ks1')%nat with 1%nat by lia. simpl. rewrite drop_0.
    apply chain_hole; [done|]. exists lo1, hi'. spl; [done|by eapply blt_trans| |done].
    eapply node_ok_wider; [by apply wider_hi|done].
Qed.
End hole.

(** ** Leaves *)

Definition leaf_sorted (l : leaf V) : Prop :=
  length (l_sets l) = length (l_keys l) /\ StronglySorted klt (l_keys l).

Lemma zip_below {T} (P : V -> Prop) (ks : list V) (vs : list T) :
  Forall P ks -> Forall (fun p => P p.1) (zip ks vs).
Proof.
  intros H. revert vs. induction H as [|k ks Hk _ IH]; intros [|v vs]; constructor; auto.
Qed.

Lemma leafSearch_spec l x : leaf_sorted l -> exists ks1 ks2 vs1 vs2,
  l_keys l = ks1 ++ ks2 /\ l_sets l = vs1 ++ vs2 /\ length vs1 = length ks1 /\ length vs2 = length ks2 /\
  leafSearch l x = length ks1 /\ Forall (fun k => klt k x) ks1 /\ Forall (fun k => ~ klt k x) ks2.
Proof.
  intros [Hl Hs]. unfold leafSearch.
  destruct (bsearch_list_spec (fun k => keyLess k x) klt _ Hs) as (ks1 & ks2 & E & Eb & H1 & H2).
  - intros a b. apply klt_trans.
  - rewrite E in Hl. rewrite length_app in Hl.
    exists ks1, ks2, (take (length ks1) (l_sets l)), (drop (length ks1) (l_sets l)).
    rewrite take_drop, length_take, length_drop. spl; try done; try lia.
    eapply Forall_impl; [exact H2|]. simpl. intros k Hk. unfold klt. by rewrite Hk.
Qed.

(** What a leaf search finds. *)
Lemma leaf_get lo hi l x : leaf_ok lo hi l \/ (l_keys l = [] /\ l_sets l = []) ->
  (if (leafSearch l x <? length (l_keys l))%nat then
     k ← l_keys l !! leafSearch l x;
     match keyCompare k x with Eq => e ← l_sets l !! leafSearch l x; Some (Some e) | _ => Some None end
   else Some None) = Some (al_get x (kvs (NLeaf l))).
Proof.
  intros Hl. assert (Hs : leaf_sorted l).
  { destruct Hl as [(H1 & H2 & H3 & H4)|[E1 E2]]; [done|]. split; rewrite E1, ?E2; [done|constructor]. }
  clear Hl. destruct (leafSearch_spec l x Hs) as (ks1 & ks2 & vs1 & vs2 & E1 & E2 & L1 & L2 & -> & H1 & H2).
  simpl. rewrite E1, E2, length_app, zip_with_app by done.
  destruct ks2 as [|k ks2], vs2 as [|v vs2]; simplify_eq/=.
  - destruct (Nat.ltb_spec (length ks1) (length ks1 + 0)); [lia|]. f_equal. symmetry.
    apply al_get_None. unfold al_at. apply filter_none. rewrite app_nil_r.
    by apply below_not_at, (zip_below (fun k => klt k x)).
  - destruct (Nat.ltb_spec (length ks1) (length ks1 + S (length ks2))); [|lia].
    rewrite (lookup_app_r ks1), (lookup_app_r vs1), L1, !Nat.sub_diag by lia. simpl.
    assert (Hk2 : all_above k (zip ks2 vs2)).
    { destruct Hs as [_ Hs]. rewrite E1 in Hs. apply StronglySorted_app in Hs as (_ & _ & Hs).
      apply StronglySorted_cons in Hs as [Hs _]. by apply (zip_below (klt k)). }
    assert (Hb1 : all_below x (zip ks1 vs1)) by by apply (zip_below (fun k => klt k x)).
    apply Forall_cons in H2 as [Hk H2]. destruct (keyCompare k x) eqn:Ec.
    + symmetry. f_equal. change ((k, v) :: zip ks2 vs2) with ([(k, v)] ++ zip ks2 vs2).
      rewrite al_get_mid.
      * unfold al_get, al_at. by rewrite filter_cons_True.
      * done.
      * eapply Forall_impl; [exact Hk2|]. intros p Hp. simpl. by rewrite <- (Ec : keq k x).
    + exfalso. apply Hk. unfold klt. rewrite keyCompare_spec in Ec. by destruct (keyLess k x), (keyLess x k).
    + f_equal. symmetry. apply al_get_None. unfold al_at. rewrite filter_app, filter_none by by apply below_not_at.
      apply filter_none. assert (Hxk : klt x k).
      { rewrite keyCompare_spec in Ec. unfold klt. by destruct (keyLess k x), (keyLess x k). }
      apply above_not_at. constructor; [done|]. eapply Forall_impl; [exact Hk2|]. simpl.
      intros p Hp. by eapply klt_trans.
Qed.

End inv.
