(* ===== verification/BplusOps.v ===== *)
(** * Point operations of the B+ tree

    Lookup, path-copying insertion and removal against the sorted association list
    a snapshot stands for. *)

From Stdlib Require Import ZArith Lia.
From S2P Require Import Prelude Ordered NodeSet Bplus BplusInv.

Section ops.
Context {V : Type} `{OV : Ordered V} {LV : OrderedLaws V}.
Implicit Types (k x : V) (lo hi : option V) (n : node V).

Abbreviation total level := (foldr (fun c s => potential level c + s)%Z 0%Z).

(** ** The shape of a node *)

Lemma node_ok_leaf lo hi n : node_ok 1 lo hi n -> exists l, n = NLeaf l /\ leaf_ok lo hi l.
Proof. destruct n as [l|]; simpl; [naive_solver|naive_solver]. Qed.

Lemma node_ok_inode level lo hi n : node_ok (S (S level)) lo hi n -> exists ks cs,
  n = NInode ks cs /\ (length cs <= bplusFanout)%nat /\ chain (node_ok (S level)) lo ks cs hi.
Proof.
  destruct n as [l|ks cs]; [intros [? _]; done|]. intros (_ & H1 & H2). by exists ks, cs.
Qed.

Lemma node_ok_pos level lo hi n : node_ok level lo hi n -> level <> 0%nat.
Proof. by destruct level. Qed.

(** A proof about a node by recursion on its level: leaf, then internal node. *)
Lemma node_level_ind (Q : nat -> option V -> option V -> node V -> Prop) :
  (forall lo hi l, leaf_ok lo hi l -> Q 1%nat lo hi (NLeaf l)) ->
  (forall level lo hi ks cs, (forall lo hi n, node_ok (S level) lo hi n -> Q (S level) lo hi n) ->
    (length cs <= bplusFanout)%nat -> chain (node_ok (S level)) lo ks cs hi ->
    Q (S (S level)) lo hi (NInode ks cs)) ->
  forall level lo hi n, node_ok level lo hi n -> Q level lo hi n.
Proof.
  intros H1 H2 level. induction level as [|[|level] IH]; intros lo hi n H; [done| |].
  - apply node_ok_leaf in H as (l & -> & H). auto.
  - apply node_ok_inode in H as (ks & cs & -> & Hl & H). auto.
Qed.

Lemma in_bounds_top x : in_bounds None None x.
Proof. done. Qed.

(** ** Lookup *)

Lemma findLeaf_hops_spec x hops : forall lo ks cs hi,
  chain (node_ok (S hops)) lo ks cs hi -> in_bounds lo hi x ->
  exists nd l A C lo' hi', findLeaf_hops hops (ks, cs) x = Some nd /\
    child_of nd x = Some (NLeaf l) /\ leaf_ok lo' hi' l /\
    flat_map kvs cs = A ++ kvs (NLeaf l) ++ C /\ all_below x A /\ all_above x C.
Proof.
  induction hops as [|hops IH]; intros lo ks cs hi H Hx;
    destruct (open_node _ _ _ _ _ x H Hx) as (ks1 & ks2 & cs1 & c & cs2 & lo' & hi' & Hh);
    pose proof (hole_child Hh) as Hc; pose proof (h_child Hh) as Hok;
    pose proof (h_below Hh) as HA;
    pose proof (h_above Hh) as HC; rewrite (hole_kvs Hh).
  - apply node_ok_leaf in Hok as (l & -> & Hok). exists (ks, cs), l, (flat_map kvs cs1), (flat_map kvs cs2), lo', hi'.
    unfold child_of. simpl. by rewrite Hc.
  - apply node_ok_inode in Hok as (ks' & cs' & -> & _ & Hok).
    destruct (IH _ _ _ _ Hok (h_bounds Hh))
      as (n & l & A & C & lo1 & hi1 & E & E1 & E2 & E3 & E4 & E5).
    exists n, l, (flat_map kvs cs1 ++ A), (C ++ flat_map kvs cs2), lo1, hi1.
    cbn [findLeaf_hops]. unfold child_of at 1. cbn [fst snd]. rewrite Hc. cbn [mbind option_bind asInode].
    spl; try done.
    + cbn [kvs]. rewrite E3, <- !app_assoc. done.
    + by apply Forall_app.
    + by apply Forall_app.
Qed.

Lemma findLeaf_spec t x : tree_ok t -> exists l A C,
  findLeaf t x = Some l /\ (l = mkLeaf [] [] \/ exists lo hi, leaf_ok lo hi l) /\
  kvs (root t) = A ++ kvs (NLeaf l) ++ C /\ all_below x A /\ all_above x C.
Proof.
  intros [_ [[Hr Hh]|H]]; unfold findLeaf.
  - rewrite Hh, Hr. exists (mkLeaf [] []), [], []. spl; try done; [by left|constructor|constructor].
  - destruct t as [r cnt [|[|h]]]; simpl in *; [done| |].
    + apply node_ok_leaf in H as (l & -> & H). exists l, [], []. simpl.
      rewrite app_nil_r. spl; try done; [right; eauto|constructor|constructor].
    + apply node_ok_inode in H as (ks & cs & -> & _ & H).
      destruct (findLeaf_hops_spec x h _ _ _ _ H) as (n & l & A & C & lo' & hi' & E & E1 & E2 & E3 & E4 & E5);
        [done|]. exists l, A, C. simpl. rewrite Nat.sub_0_r, E. simpl. rewrite E1. simpl.
      spl; try done. right; eauto.
Qed.

(** The lookup never panics and finds the binding. *)
Lemma get_spec t x : tree_ok t -> get t x = Some (al_get x (kvs (root t))).
Proof.
  intros Ht. destruct (findLeaf_spec t x Ht) as (l & A & C & E & Hl & E1 & HA & HC).
  unfold get. rewrite E, E1, al_get_mid by done.
  destruct Hl as [->|(lo & hi & Hl)]; [exact (leaf_get None None (mkLeaf [] []) x (or_intror (conj eq_refl eq_refl)))|].
  exact (leaf_get lo hi _ x (or_introl Hl)).
Qed.

Lemma tree_ascending t : tree_ok t -> ascending (kvs (root t)).
Proof.
  intros [_ [[-> _]|H]]; [constructor|]. by apply node_kvs in H as [? _].
Qed.

(** ** Insertion *)

(** The outcome of an insertion below bounds: a node, or a node, a separator
    strictly inside the bounds and a right sibling, that hold [l] in order, with a
    potential of at most [P] that includes the price of the sibling. *)
Definition ins_ok level lo hi (l : list (V * loc)) (P : Z) (r : node V * option (insertNode (V := V))) : Prop :=
  match r.2 with
  | None => node_ok level lo hi r.1 /\ kvs r.1 = l /\ (potential level r.1 <= P)%Z
  | Some (k, rgt) => blt lo (Some k) /\ blt (Some k) hi /\
      node_ok level lo (Some k) r.1 /\ node_ok level (Some k) hi rgt /\ kvs r.1 ++ kvs rgt = l /\
      (potential level r.1 + potential level rgt + weight (S level) <= P)%Z
  end.

Lemma ins_ok_le level lo hi l P Q r : (P <= Q)%Z -> ins_ok level lo hi l P r -> ins_ok level lo hi l Q r.
Proof.
  intros HPQ. unfold ins_ok. destruct r.2 as [[k rgt]|].
  - intros (? & ? & ? & ? & ? & ?). spl; try done. lia.
  - intros (? & ? & ?). spl; try done. lia.
Qed.

Lemma leaf_cut lo hi ksa ksb k (va vb : list loc) :
  StronglySorted klt (ksa ++ k :: ksb) -> Forall (in_bounds lo hi) (ksa ++ k :: ksb) ->
  length va = length ksa -> length vb = S (length ksb) ->
  (0 < length ksa <= bplusFanout)%nat -> (S (length ksb) <= bplusFanout)%nat ->
  blt lo (Some k) /\ blt (Some k) hi /\
  leaf_ok lo (Some k) (mkLeaf ksa va) /\ leaf_ok (Some k) hi (mkLeaf (k :: ksb) vb).
Proof.
  intros Hs Hb La Lb Ha Hbb. apply StronglySorted_app in Hs as (Hx & Hs1 & Hs2).
  apply Forall_app in Hb as [Hb1 Hb2]. assert (Hlt : Forall (fun y => klt y k) ksa).
  { apply Forall_forall. intros y Hy. apply Hx; [done|left]. }
  pose proof (Forall_inv Hb2) as [Hk1 Hk2]. spl.
  - destruct ksa as [|a ksa]; [simpl in Ha; lia|]. apply Forall_cons in Hb1 as [[Ha1 _] _].
    apply Forall_cons in Hlt as [Hlt _]. destruct lo as [b|]; [|done]. simpl in *. exact (kle_lt_trans a b k Ha1 Hlt).
  - by destruct hi.
  - split; [done|]. split; [done|]. split; [done|]. simpl. apply Forall_forall. intros y Hy.
    rewrite Forall_forall in Hb1, Hlt. split; [by apply Hb1|by apply Hlt].
  - split; [done|]. split; [simpl in *; lia|]. split; [done|].
    apply StronglySorted_cons in Hs2 as [Hk _]. constructor; [split; [apply klt_irrefl|done]|].
    apply Forall_forall. intros y Hy. rewrite Forall_forall in Hk, Hb2. apply Hk in Hy as Hky.
    split; [|apply Hb2; by right]. intros H. by apply (klt_irrefl k), (klt_trans _ y).
Qed.

(** A leaf of merged keys, split in two when it overflows. *)
Lemma leaf_pack lo hi ks (vs : list loc) :
  StronglySorted klt ks -> Forall (in_bounds lo hi) ks -> length vs = length ks ->
  (0 < length ks <= S bplusFanout)%nat ->
  exists r, (if (length ks <=? bplusFanout)%nat then Some (NLeaf (mkLeaf ks vs), None)
    else let mid := (length ks / 2)%nat in
         let lft := mkLeaf (copySlice (take mid ks)) (copySlice (take mid vs)) in
         let rgt := mkLeaf (copySlice (drop mid ks)) (copySlice (drop mid vs)) in
         k ← head (l_keys rgt);
         Some (NLeaf lft, Some (k, NLeaf rgt))) = Some r /\
    ins_ok 1 lo hi (zip ks vs) (excess (length ks)) r.
Proof.
  intros Hs Hb Hl [Hpos Hmax].
  destruct (Nat.leb_spec (length ks) bplusFanout) as [Hf|Hf].
  - eexists. split; [done|]. split; [|done]. split; [done|]. split; [done|]. split; [simpl; lia|done].
  - assert (Hmid : (length ks / 2 = 64)%nat).
    { unfold bplusFanout in *. replace (length ks) with 129%nat by lia. done. }
    rewrite Hmid. unfold copySlice. cbn [l_keys].
    destruct (drop 64 ks) as [|k ksb] eqn:Ed.
    { apply (f_equal length) in Ed. rewrite length_drop in Ed. unfold bplusFanout in *. simpl in Ed. lia. }
    simpl. eexists. split; [done|]. pose proof (take_drop 64 ks) as Htd. rewrite Ed in Htd.
    assert (Lk : length (drop 64 ks) = S (length ksb)) by by rewrite Ed. rewrite length_drop in Lk.
    destruct (leaf_cut lo hi (take 64 ks) ksb k (take 64 vs) (drop 64 vs)) as (B1 & B2 & B3 & B4).
    + by rewrite Htd.
    + by rewrite Htd.
    + rewrite !length_take. lia.
    + rewrite length_drop. lia.
    + rewrite length_take. unfold bplusFanout in *. lia.
    + unfold bplusFanout in *. lia.
    + unfold ins_ok. cbn [fst snd]. spl; try done; cbn [kvs l_keys l_sets].
      * rewrite <- zip_with_app by (rewrite !length_take; lia). by rewrite Htd, take_drop.
      * cbn [potential l_keys]. change (length (k :: ksb)) with (S (length ksb)). rewrite <- Lk, length_take.
        unfold excess, bplusFanout in *. change (weight 2) with 64%Z. lia.
Qed.

Lemma cloneInsertLeaf_spec lo hi l x e : leaf_ok lo hi l \/ l = mkLeaf [] [] ->
  in_bounds lo hi x -> al_get x (kvs (NLeaf l)) = None ->
  exists r, cloneInsertLeaf l x e = Some r /\
    ins_ok 1 lo hi (al_insert x e (kvs (NLeaf l))) (potential 1 (NLeaf l) + 1) r.
Proof.
  intros Hl Hx Hg.
  assert (Hs : leaf_sorted l /\ Forall (in_bounds lo hi) (l_keys l) /\ (length (l_keys l) <= bplusFanout)%nat).
  { destruct Hl as [(H1 & [? H2] & H3 & H4)| ->]; [done|]. simpl. split; [split; [done|constructor]|].
    split; [constructor|]. unfold bplusFanout. lia. }
  clear Hl. destruct Hs as (Hs & Hb & Hf).
  destruct (leafSearch_spec l x Hs) as (ks1 & ks2 & vs1 & vs2 & E1 & E2 & L1 & L2 & E3 & H1 & H2).
  unfold cloneInsertLeaf. rewrite E3. unfold copyInsertAt.
  rewrite E1, E2, take_app_length, drop_app_length. rewrite <- L1, take_app_length, drop_app_length.
  destruct Hs as [Hl Hs]. rewrite E1 in Hs, Hb, Hf, Hl. rewrite E2 in Hl. rewrite !length_app in Hl, Hf.
  cbn [kvs] in *. rewrite E1, E2 in *. rewrite zip_with_app in * by done.
  assert (HA : all_below x (zip ks1 vs1)) by by apply (zip_below (fun k => klt k x)).
  assert (HC : all_above x (zip ks2 vs2)).
  { apply from_above; [by apply (zip_below (fun k => ~ klt k x))|].
    apply al_get_None in Hg. unfold al_at in *. rewrite filter_app in Hg. by apply app_eq_nil in Hg as [_ ?]. }
  rewrite al_insert_here by done.
  assert (HC' : Forall (klt x) ks2).
  { rewrite <- (fst_zip ks2 vs2) by lia. by apply Forall_fmap. }
  assert (Hsx : StronglySorted klt (ks1 ++ x :: ks2)).
  { apply StronglySorted_app in Hs as (Ha & Hs1 & Hs2). apply StronglySorted_app. rewrite Forall_forall in H1.
    spl; [|done|by constructor]. intros a b Ha1 Hb1. apply elem_of_cons in Hb1 as [->|Hb1]; auto. }
  assert (Hbx : Forall (in_bounds lo hi) (ks1 ++ x :: ks2)).
  { apply Forall_app in Hb as [? ?]. apply Forall_app. split; [done|by constructor]. }
  assert (Hz : zip ks1 vs1 ++ (x, e) :: zip ks2 vs2 = zip (ks1 ++ x :: ks2) (vs1 ++ e :: vs2))
    by by rewrite zip_with_app.
  rewrite Hz.
  destruct (leaf_pack lo hi (ks1 ++ x :: ks2) (vs1 ++ e :: vs2)) as (r & E & Hr); auto;
    [rewrite !length_app; simpl; lia..|]. exists r. split; [exact E|].
  eapply ins_ok_le; [|exact Hr]. cbn [potential]. rewrite E1, !length_app. cbn [length].
  rewrite Nat.add_succ_r. pose proof (excess_S (length ks1 + length ks2)). lia.
Qed.

Lemma splitInode_spec level lo hi ks cs : chain (node_ok (S level)) lo ks cs hi ->
  length cs = S bplusFanout ->
  exists r, splitInode ks cs = Some r /\
    ins_ok (S (S level)) lo hi (flat_map kvs cs) (potential (S (S level)) (NInode ks cs)) r.
Proof.
  intros H Hl. pose proof (chain_length _ _ _ _ _ H) as Hk. unfold splitInode.
  assert (Hmid : (length ks / 2 = 64)%nat).
  { unfold bplusFanout in *. replace (length ks) with 128%nat by lia. done. }
  rewrite Hmid. destruct (lookup_lt_is_Some_2 ks 64) as [k Ek]; [unfold bplusFanout in *; lia|].
  rewrite Ek. cbn [mbind option_bind]. eexists. split; [done|].
  rewrite <- (take_drop_middle ks 64 k Ek) in H. rewrite <- (take_drop 65 cs) in H.
  apply chain_cut in H as [H1 H2]; [|rewrite !length_take; unfold bplusFanout in *; lia].
  unfold copySlice. unfold ins_ok. cbn [fst snd]. spl.
  - by eapply chain_blt.
  - by eapply chain_blt.
  - split; [done|]. split; [rewrite length_take; unfold bplusFanout in *; lia|done].
  - split; [done|]. split; [rewrite length_drop; unfold bplusFanout in *; lia|done].
  - cbn [kvs]. by rewrite <- flat_map_app, take_drop.
  - rewrite weight_S by done. 
    assert (Ht : total (S level) cs = (total (S level) (take 65 cs) + total (S level) (drop 65 cs))%Z)
      by by rewrite <- total_app, take_drop.
    change (weight (S (S level)) * excess (length (take 65 cs)) + total (S level) (take 65 cs) +
      (weight (S (S level)) * excess (length (drop 65 cs)) + total (S level) (drop 65 cs)) + 64 * weight (S (S level)) <=
      weight (S (S level)) * excess (length cs) + total (S level) cs)%Z.
    rewrite Ht, length_take, length_drop, Hl. unfold excess, bplusFanout.
    pose proof (weight_pos (S (S level))). nia.
Qed.

(** Insertion copies the path to the leaf, splitting the nodes that overflow. *)
Lemma cloneInsertInto_spec x e level lo hi n : node_ok level lo hi n ->
  in_bounds lo hi x -> al_get x (kvs n) = None ->
  exists r, cloneInsertInto level n x e = Some r /\
      ins_ok level lo hi (al_insert x e (kvs n)) (potential level n + 1) r.
Proof.
  intros Hok. revert level lo hi n Hok. apply (node_level_ind (fun level lo hi n =>
    in_bounds lo hi x -> al_get x (kvs n) = None ->
    exists r, cloneInsertInto level n x e = Some r /\
      ins_ok level lo hi (al_insert x e (kvs n)) (potential level n + 1) r)).
  - intros lo hi l Hl Hx Hg. apply (cloneInsertLeaf_spec lo hi l x e); auto.
  - intros level lo hi ks cs IH Hf H Hx Hg.
    destruct (open_node _ _ _ _ _ x H Hx) as (ks1 & ks2 & cs1 & c & cs2 & lo' & hi' & Hh).
    pose proof (h_below Hh) as HA. pose proof (h_above Hh) as HC.
    cbn [kvs] in *. rewrite (hole_kvs Hh) in *. rewrite al_get_mid in Hg by done.
    rewrite al_insert_mid by done.
    destruct (IH _ _ _ (h_child Hh) (h_bounds Hh) Hg) as ([d p] & E & Hr).
    unfold copySlice. change (cloneInsertInto (S (S level)) (NInode ks cs) x e) with
      (c ← cs !! inodeChild ks x;
       '(child, promoted) ← cloneInsertInto (S level) c x e;
       match promoted with
       | None => Some (NInode ks (<[inodeChild ks x := child]> cs), None)
       | Some (k, rgt) =>
           let ks' := copyInsertAt ks (inodeChild ks x) k in
           let cs' := <[inodeChild ks x := child]> (copyInsertAt cs (S (inodeChild ks x)) rgt) in
           if (length cs' <=? bplusFanout)%nat then Some (NInode ks' cs', None)
           else splitInode ks' cs'
       end).
    rewrite (hole_child Hh). cbn [mbind option_bind]. rewrite E. cbn [mbind option_bind].
    destruct p as [[k rgt]|]; unfold ins_ok in Hr; cbn [fst snd] in Hr.
    + destruct Hr as (B1 & B2 & O1 & O2 & EK & HP). rewrite <- EK.
      destruct (hole_split Hh d k rgt B1 B2 O1 O2) as (H1 & H2 & H3 & H4). cbv zeta in *. rewrite H3.
      set (cs' := <[_ := d]> _) in *. set (ks' := copyInsertAt ks _ k) in *.
      assert (HP' : (potential (S (S level)) (NInode ks' cs') <= potential (S (S level)) (NInode ks cs) + 1)%Z).
      { change (weight (S (S level)) * excess (length cs') + total (S level) cs' <=
          weight (S (S level)) * excess (length cs) + total (S level) cs + 1)%Z.
        rewrite H3, H4, (hole_total Hh). pose proof (excess_S (length cs)).
        pose proof (weight_pos (S (S level))). nia. }
      rewrite <- H2. destruct (Nat.leb_spec (S (length cs)) bplusFanout).
      * eexists. split; [done|]. split; [|by split]. split; [done|]. by rewrite H3.
      * destruct (splitInode_spec level lo hi ks' cs' H1) as (r & Er & Hr); [lia|]. exists r. split; [done|].
        by eapply ins_ok_le.
    + destruct Hr as (O1 & EK & HP). destruct (hole_replace Hh d O1) as (H1 & H2 & H3 & H4).
      eexists. split; [done|]. split; cbn [fst kvs]; [|split; [by rewrite H2, EK|]].
      * split; [done|]. by rewrite H3.
      * set (cs' := <[_ := d]> _) in *.
        change (weight (S (S level)) * excess (length cs') + total (S level) cs' <=
          weight (S (S level)) * excess (length cs) + total (S level) cs + 1)%Z.
        rewrite H3, H4, (hole_total Hh). lia.
Qed.

(** A snapshot with a key more. *)
Lemma insert_tree_spec t x e : tree_ok t -> al_get x (kvs (root t)) = None ->
  exists t', insert_tree t x e = Some t' /\ tree_ok t' /\
    kvs (root t') = al_insert x e (kvs (root t)) /\ (tree_potential t' <= tree_potential t + 1)%Z.
Proof.
  intros Ht Hg. pose proof (tree_ascending t Ht) as Hasc. destruct Ht as [Hc Ht].
  assert (exists r, cloneInsertInto (height t) (root t) x e = Some r /\
    ins_ok (height t) None None (al_insert x e (kvs (root t))) (potential (height t) (root t) + 1) r) as ([d p] & E & Hr).
  { destruct Ht as [[Hr Hh]|Ht]; [|by apply cloneInsertInto_spec].
    rewrite Hr in *. rewrite Hh. apply (cloneInsertLeaf_spec None None); [by right|done|done]. }
  unfold insert_tree. rewrite E. cbn [mbind option_bind]. eexists. split; [done|].
  pose proof (length_insert x e _ Hasc Hg) as HL. rewrite <- Hc in HL.
  assert (Hh0 : height t <> 0%nat).
  { destruct Ht as [[_ ->]|Ht]; [done|]. by eapply node_ok_pos. }
  destruct p as [[k rgt]|]; unfold ins_ok in Hr; cbn [fst snd] in Hr.
  - destruct Hr as (B1 & B2 & O1 & O2 & EK & HP). unfold tree_ok, tree_potential. cbn [count root height].
    assert (Hk : kvs (NInode [k] [d; rgt]) = al_insert x e (kvs (root t))) by (simpl; by rewrite app_nil_r).
    rewrite Hk. spl; [done|right|done|].
    + split; [done|]. split; [simpl; unfold bplusFanout; lia|]. simpl. done.
    + change (weight (S (height t)) * excess 2 + (potential (height t) d + (potential (height t) rgt + 0)) +
        weight (S (height t)) <= potential (height t) (root t) + weight (height t) + 1)%Z.
      change (excess 2) with 0%Z. pose proof (weight_pos (height t)). lia.
  - destruct Hr as (O1 & EK & HP). unfold tree_ok, tree_potential. cbn [count root height]. rewrite EK.
    spl; [done|by right|done|lia].
Qed.

(** ** Removal *)

(** The outcome of a removal: nothing found and the node itself, or a node without
    the key that is well formed unless nothing is left. *)
Definition rem_ok level lo hi n x (r : option (node V) * bool * bool) : Prop :=
  let '(nx, gone, removed) := r in
  if removed : bool then
    is_Some (al_get x (kvs n)) /\
    (if gone : bool then al_remove x (kvs n) = []
     else exists n', nx = Some n' /\ node_ok level lo hi n' /\ kvs n' = al_remove x (kvs n) /\
       (potential level n' <= potential level n)%Z)
  else nx = Some n /\ gone = false /\ al_get x (kvs n) = None.

(** A leaf opened at a key it holds. *)
Lemma leaf_here (ks1 ks2 : list V) (vs1 vs2 : list loc) k v x :
  length vs1 = length ks1 -> StronglySorted klt (ks1 ++ k :: ks2) -> keq k x ->
  al_get x (zip (ks1 ++ k :: ks2) (vs1 ++ v :: vs2)) = Some v /\
  al_remove x (zip (ks1 ++ k :: ks2) (vs1 ++ v :: vs2)) = zip (ks1 ++ ks2) (vs1 ++ vs2).
Proof.
  intros Hl Hs Hk. rewrite !zip_with_app by done. cbn [zip_with].
  apply StronglySorted_app in Hs as (Hx & _ & Hs). apply StronglySorted_cons in Hs as [Hks2 _].
  assert (HA : all_below x (zip ks1 vs1)).
  { apply (zip_below (fun y => klt y x)). apply Forall_forall. intros y Hy. rewrite <- Hk. apply Hx; [done|left]. }
  assert (HC : all_above x (zip ks2 vs2)).
  { apply (zip_below (klt x)). eapply Forall_impl; [exact Hks2|]. intros y Hy. by rewrite <- Hk. }
  change ((k, v) :: zip ks2 vs2) with ([(k, v)] ++ zip ks2 vs2).
  rewrite al_get_mid, al_remove_mid by done. unfold al_get, al_at, al_remove.
  rewrite filter_cons_True, filter_cons_False by (simpl; auto). done.
Qed.

Lemma leaf_remove lo hi l x : leaf_ok lo hi l \/ l = mkLeaf [] [] ->
  exists r, cloneRemoveFrom 1 (NLeaf l) x = Some r /\ rem_ok 1 lo hi (NLeaf l) x r.
Proof.
  intros Hl. pose proof (leaf_get lo hi l x) as Hget. cbn [cloneRemoveFrom asLeaf mbind option_bind] in *.
  assert (Hs : leaf_sorted l).
  { destruct Hl as [(H1 & H2 & H3 & H4)| ->]; [done|]. split; [done|constructor]. }
  assert (Hg : leaf_ok lo hi l \/ l_keys l = [] /\ l_sets l = []) by (destruct Hl as [?| ->]; auto).
  specialize (Hget Hg). clear Hg.
  destruct (leafSearch_spec l x Hs) as (ks1 & ks2 & vs1 & vs2 & E1 & E2 & L1 & L2 & E3 & _ & _).
  rewrite E3 in *. rewrite E1 in Hget |- * . rewrite length_app in Hget |- *.
  destruct ks2 as [|k ks2], vs2 as [|v vs2]; simplify_eq/=.
  - destruct (Nat.leb_spec (length ks1 + 0) (length ks1)); [|lia].
    destruct (Nat.ltb_spec (length ks1) (length ks1 + 0)); [lia|]. simplify_eq.
    eexists. split; [done|]. by split.
  - destruct (Nat.leb_spec (length ks1 + S (length ks2)) (length ks1)); [lia|].
    destruct (Nat.ltb_spec (length ks1) (length ks1 + S (length ks2))); [|lia].
    rewrite (lookup_app_r ks1), Nat.sub_diag in Hget |- * by lia. cbn [lookup list_lookup] in *.
    simpl in Hget |- *. destruct (decide (keq k x)) as [Ek|Ek].
    2: { rewrite bool_decide_eq_false_2 by done.
         destruct (keyCompare k x) eqn:Ec; [done| |]; simplify_eq; (eexists; split; [done|]; by split). }
    rewrite bool_decide_eq_true_2 by done.
    destruct Hs as [Hlen Hs]. rewrite E1 in Hs.
    destruct (leaf_here ks1 ks2 vs1 vs2 k v x L1 Hs Ek) as [Ga Gr].
    eexists. split; [done|]. unfold rem_ok. cbn [kvs]. rewrite E1, E2, Ga, Gr. unfold copyRemoveAt.
    rewrite take_app_length, <- L1, take_app_length, L1.
    assert (Hd : forall {T} (a : list T) y b, length a = length ks1 -> drop (S (length ks1)) (a ++ y :: b) = b).
    { intros T a y b Ha. rewrite drop_app_ge by lia. by replace (S (length ks1) - length a)%nat with 1%nat by lia. }
    rewrite !Hd by done. split; [by eexists|].
    destruct (Nat.eqb_spec (length (ks1 ++ ks2)) 0) as [Hz|Hz].
    + apply length_zero_iff_nil in Hz. by rewrite Hz.
    + eexists. split; [done|]. split; [|split; [done|]].
      2: { cbn [potential l_keys]. rewrite E1, !length_app. cbn [length]. unfold excess. lia. }
      split; [done|].
      destruct Hl as [(H1 & H2 & H3 & H4)| ->]; [|by destruct ks1].
      rewrite E1 in H2, H3, H4. split; [simpl; rewrite !length_app; lia|]. cbn [l_keys].
      split; [rewrite !length_app in *; simpl in *; lia|]. split.
      * apply StronglySorted_app in H3 as (Ha & Hs1 & Hs2). apply StronglySorted_cons in Hs2 as [_ Hs2].
        apply StronglySorted_app. spl; [|done|done]. intros a b Ha1 Hb. apply Ha; [done|by right].
      * apply Forall_app in H4 as [? H4]. apply Forall_cons in H4 as [_ H4]. by apply Forall_app.
Qed.

Lemma cloneRemoveFrom_spec x level lo hi n : node_ok level lo hi n -> in_bounds lo hi x ->
  exists r, cloneRemoveFrom level n x = Some r /\ rem_ok level lo hi n x r.
Proof.
  intros Hok. revert level lo hi n Hok. apply (node_level_ind (fun level lo hi n =>
    in_bounds lo hi x -> exists r, cloneRemoveFrom level n x = Some r /\ rem_ok level lo hi n x r)).
  - intros lo hi l Hl Hx. apply leaf_remove. by left.
  - intros level lo hi ks cs IH Hf H Hx.
    destruct (open_node _ _ _ _ _ x H Hx) as (ks1 & ks2 & cs1 & c & cs2 & lo' & hi' & Hh).
    pose proof (h_below Hh) as HA. pose proof (h_above Hh) as HC.
    destruct (IH _ _ _ (h_child Hh) (h_bounds Hh)) as ([[nx gone] removed] & E & Hr).
    change (cloneRemoveFrom (S (S level)) (NInode ks cs) x) with
      (c ← cs !! inodeChild ks x;
       '(child, childGone, removed) ← cloneRemoveFrom (S level) c x;
       if negb removed then Some (Some (NInode ks cs), false, false)
       else if negb childGone then
         child ← child;
         Some (Some (NInode ks (<[inodeChild ks x := child]> (copySlice cs))), false, true)
       else
         let children := copyRemoveAt cs (inodeChild ks x) in
         let keys := if (0 <? length ks)%nat then copyRemoveAt ks (inodeChild ks x - 1) else ks in
         if (length children =? 0)%nat then Some (None, true, true)
         else Some (Some (NInode keys children), false, true)).
    rewrite (hole_child Hh). cbn [mbind option_bind]. rewrite E. cbn [mbind option_bind].
    assert (HK : kvs (NInode ks cs) = flat_map kvs cs1 ++ kvs c ++ flat_map kvs cs2) by apply (hole_kvs Hh).
    unfold rem_ok in *. rewrite HK, al_get_mid, al_remove_mid by done.
    destruct removed; cbn [negb].
    + destruct Hr as [Hg Hr]. destruct gone; cbn [negb].
      * destruct (hole_remove Hh) as (H1 & H2 & HT & H3). cbv zeta in *. rewrite Hr.
        destruct (Nat.eqb_spec (length (copyRemoveAt cs (inodeChild ks x))) 0) as [H0|H0].
        -- eexists. split; [done|]. split; [done|]. rewrite app_nil_l, <- H1.
           apply length_zero_iff_nil in H0. by rewrite H0.
        -- eexists. split; [done|]. split; [done|]. eexists. split; [done|].
           split; [|split; [by rewrite app_nil_l, <- H1|]].
           ++ split; [done|]. split; [lia|]. apply H3. intros E0. by rewrite E0 in H0.
           ++ change (weight (S (S level)) * excess (length (copyRemoveAt cs (inodeChild ks x))) +
                total (S level) (copyRemoveAt cs (inodeChild ks x)) <=
                weight (S (S level)) * excess (length cs) + total (S level) cs)%Z.
              rewrite HT, (hole_total Hh), <- H2. pose proof (potential_nonneg (S level) c).
              pose proof (excess_S (length (copyRemoveAt cs (inodeChild ks x)))).
              pose proof (weight_pos (S (S level))). nia.
      * destruct Hr as (n' & -> & O1 & EK & HP). cbn [mbind option_bind]. unfold copySlice.
        destruct (hole_replace Hh n' O1) as (H1 & H2 & H3 & H4).
        eexists. split; [done|]. split; [done|]. eexists. split; [done|].
        split; [|split; [cbn [kvs]; by rewrite H2, EK|]].
        -- split; [done|]. by rewrite H3.
        -- set (cs' := <[_ := n']> _) in *.
           change (weight (S (S level)) * excess (length cs') + total (S level) cs' <=
             weight (S (S level)) * excess (length cs) + total (S level) cs)%Z.
           rewrite H3, H4, (hole_total Hh). lia.
    + destruct Hr as (_ & _ & Hg). eexists. split; [done|]. done.
Qed.

Lemma collapse_spec height lo hi n : node_ok height lo hi n ->
  let '(r, h) := collapse height n in
  node_ok h lo hi r /\ kvs r = kvs n /\ (h <= height)%nat /\ (potential h r <= potential height n)%Z.
Proof.
  revert height lo hi n. apply (node_level_ind (fun height lo hi n =>
    let '(r, h) := collapse height n in node_ok h lo hi r /\ kvs r = kvs n /\ (h <= height)%nat /\
      (potential h r <= potential height n)%Z)).
  - intros lo hi l Hl. simpl. done.
  - intros level lo hi ks cs IH Hf H. pose proof (chain_length _ _ _ _ _ H) as Hlen.
    destruct cs as [|c [|d cs]]; [done| |].
    + destruct ks; [|simpl in Hlen; lia]. destruct H as [_ H]. change (collapse (S (S level)) (NInode [] [c])) with (collapse (S level) c).
      specialize (IH _ _ _ H). destruct (collapse (S level) c) as [r h]. destruct IH as (H1 & H2 & H3 & H4).
      spl; [done|simpl; by rewrite app_nil_r|lia|].
      change (potential h r <= weight (S (S level)) * excess 1 + (potential (S level) c + 0))%Z.
      change (excess 1) with 0%Z. lia.
    + cbn [collapse]. spl; [|done|done|done]. split; [done|]. by split.
Qed.

(** A snapshot with a key less; an absent key leaves the snapshot itself. *)
Lemma cloneRemove_spec t x : tree_ok t -> exists t', cloneRemove t x = Some t' /\ tree_ok t' /\
  kvs (root t') = al_remove x (kvs (root t)) /\ (tree_potential t' <= tree_potential t)%Z /\
  (al_get x (kvs (root t)) = None -> t' = t).
Proof.
  intros Ht. pose proof (tree_ascending t Ht) as Hasc. destruct Ht as [Hc Ht].
  assert (exists r, cloneRemoveFrom (height t) (root t) x = Some r /\
    rem_ok (height t) None None (root t) x r) as ([[nx gone] removed] & E & Hr).
  { destruct Ht as [[Hr Hh]|Ht]; [|by apply cloneRemoveFrom_spec].
    rewrite Hr in *. rewrite Hh. apply leaf_remove. by right. }
  unfold cloneRemove. rewrite E. cbn [mbind option_bind]. unfold rem_ok in Hr.
  destruct removed; cbn [negb].
  - destruct Hr as [Hg Hr]. pose proof (length_remove x _ Hasc Hg) as HL. destruct gone.
    + exists newBplus. rewrite Hr. spl; try done.
      * split; [done|by left].
      * unfold tree_potential. change (potential (height newBplus) (root newBplus)) with 0%Z.
        change (weight (height newBplus)) with (weight 1). pose proof (potential_nonneg (height t) (root t)).
        assert (Hh : height t <> 0%nat) by (destruct Ht as [[_ ->]|Ht]; [done|by eapply node_ok_pos]).
        pose proof (weight_mono 1 (height t)). lia.
      * intros Hn. rewrite Hn in Hg. by destruct Hg.
    + destruct Hr as (n' & -> & O1 & EK & HP). cbn [mbind option_bind].
      pose proof (collapse_spec _ _ _ _ O1) as Hcol. destruct (collapse (height t) n') as [r h].
      destruct Hcol as (O2 & EK2 & Hle & HP2). eexists. split; [done|].
      unfold tree_potential. cbn [root height count]. rewrite EK2, EK. spl; [|done| |].
      * split; [cbn [count root]; rewrite EK2, EK; lia|by right].
      * pose proof (weight_mono h (height t) ltac:(by eapply node_ok_pos) Hle). lia.
      * intros Hn. rewrite Hn in Hg. by destruct Hg.
  - destruct Hr as (_ & _ & Hg). exists t. spl; try done. rewrite al_remove_none; [done|].
    by apply al_get_None.
Qed.

(** ** The depth of the cursor is enough *)

Lemma tree_potential_new : tree_potential (V := V) newBplus = 1%Z.
Proof. reflexivity. Qed.

Lemma tree_height_bound t : tree_ok t -> (tree_potential t < 64 ^ 17)%Z -> (height t <= S maxCursorDepth)%nat.
Proof.
  intros [_ Ht] Hp. assert (height t <> 0%nat) by (destruct Ht as [[_ ->]|Ht]; [done|by eapply node_ok_pos]).
  destruct (decide (height t <= S maxCursorDepth)%nat) as [|Hh]; [done|exfalso].
  unfold tree_potential in Hp. pose proof (potential_nonneg (height t) (root t)).
  pose proof (weight_mono 18 (height t) ltac:(done) ltac:(unfold maxCursorDepth in Hh; lia)) as Hw.
  change (weight 18) with (64 ^ 17)%Z in Hw. lia.
Qed.
End ops.
