(* ===== verification/BplusCursor.v ===== *)
(** * The cursor of the B+ tree

    A cursor stands for the bindings still ahead of it.  Seeking a key leaves
    exactly the bindings from that key on, and stepping visits them in order, so
    that a scan loop is a fold over a suffix of the sorted association list. *)

From Stdlib Require Import ZArith Lia.
From S2P Require Import Prelude Ordered NodeSet Bplus BplusInv BplusOps.

Section cursor.
Context {V : Type} `{OV : Ordered V} {LV : OrderedLaws V}.
Implicit Types (k x : V) (n : node V) (l : leaf V) (c : cursor V).

(** The bindings right of the recorded path, and those ahead of a cursor. *)
Definition frame_rest (f : cursorFrame V) : list (V * loc) := flat_map kvs (drop (S (f_ci f)) (f_n f).2).
Definition frames_rest (stack : list (cursorFrame V)) : list (V * loc) := flat_map frame_rest stack.

Definition rest c : list (V * loc) :=
  match c_leaf c with
  | None => []
  | Some l => drop (c_off c) (kvs (NLeaf l)) ++ frames_rest (c_stack c)
  end.

(** The frames lie on a path: the frame of depth [d] is an internal node whose
    children are [h - 1 - d] levels high. *)
Fixpoint frames_ok (h : nat) (stack : list (cursorFrame V)) : Prop :=
  match stack with
  | [] => True
  | f :: below =>
      (exists lo hi, chain (node_ok (h - 1 - length below)) lo (f_n f).1 (f_n f).2 hi) /\
      (length below < h - 1)%nat /\ frames_ok h below
  end.

Definition leaf_shape l : Prop := length (l_sets l) = length (l_keys l).

Record cursor_ok h c : Prop := mkCursorOk {
  co_height : c_height c = h;
  co_depth : (h <= S maxCursorDepth)%nat;
  co_frames : frames_ok h (c_stack c);
  co_leaf : forall l, c_leaf c = Some l -> leaf_shape l;
}.

(** A settled cursor is on a key or exhausted. *)
Definition settled c : Prop :=
  match c_leaf c with None => c_stack c = [] | Some l => (c_off c < length (l_keys l))%nat end.

Lemma leaf_ok_shape lo hi l : leaf_ok lo hi l -> leaf_shape l /\ (0 < length (l_keys l))%nat.
Proof. intros (H1 & [H2 _] & _). done. Qed.

Lemma length_kvs_leaf l : leaf_shape l -> length (kvs (NLeaf l)) = length (l_keys l).
Proof. intros H. simpl. rewrite length_zip_with. unfold leaf_shape in H. lia. Qed.

(** ** Descents *)

(** One level of a descent that takes the child at [ci]. *)
Lemma frames_push h level lo hi ks cs stack ci :
  frames_ok h stack -> S (level + length stack) = h -> level <> 0%nat ->
  chain (node_ok level) lo ks cs hi -> frames_ok h (mkFrame (ks, cs) ci :: stack).
Proof.
  intros Hf Hl H0 H. simpl. spl; [|lia|done]. exists lo, hi.
  replace (h - 1 - length stack)%nat with level by lia. done.
Qed.

Lemma descend_first h level lo hi n : node_ok level lo hi n -> forall stack,
  (h <= S maxCursorDepth)%nat -> (level + length stack = h)%nat -> frames_ok h stack ->
  exists stack' l, descend (fun _ => 0%nat) (level - 1) n stack = Some (stack', l) /\
    leaf_shape l /\ (0 < length (l_keys l))%nat /\ frames_ok h stack' /\
    kvs (NLeaf l) ++ frames_rest stack' = kvs n ++ frames_rest stack.
Proof.
  revert level lo hi n. apply (node_level_ind (fun level lo hi n => forall stack,
    (h <= S maxCursorDepth)%nat -> (level + length stack = h)%nat -> frames_ok h stack ->
    exists stack' l, descend (fun _ => 0%nat) (level - 1) n stack = Some (stack', l) /\
      leaf_shape l /\ (0 < length (l_keys l))%nat /\ frames_ok h stack' /\
      kvs (NLeaf l) ++ frames_rest stack' = kvs n ++ frames_rest stack)).
  - intros lo hi l Hl stack Hd Hh Hf. apply leaf_ok_shape in Hl as [? ?]. exists stack, l. done.
  - intros level lo hi ks cs IH _ H stack Hd Hh Hf. replace (S (S level) - 1)%nat with (S level) by lia.
    cbn [descend asInode mbind option_bind fst snd].
    destruct (Nat.ltb_spec (length stack) maxCursorDepth); [|lia].
    destruct cs as [|c cs]; [by destruct ks|]. cbn [lookup list_lookup mbind option_bind].
    assert (exists lo' hi', node_ok (S level) lo' hi' c) as (lo' & hi' & Hc).
    { destruct ks as [|k ks]; simpl in H; [destruct cs; [|done]; destruct H as [_ H]; eauto|].
      destruct H as (_ & H & _). eauto. }
    destruct (IH _ _ _ Hc (mkFrame (ks, c :: cs) 0 :: stack) Hd) as (stack' & l & E & H1 & H2 & H3 & H4).
    + simpl. lia.
    + eapply frames_push; eauto; lia.
    + replace (S level - 1)%nat with level in E by lia. exists stack', l. spl; try done.
      rewrite H4. unfold frames_rest. cbn [flat_map frame_rest f_ci f_n snd drop kvs].
      by rewrite <- app_assoc.
Qed.

Lemma leaf_from l x : leaf_sorted l -> drop (leafSearch l x) (kvs (NLeaf l)) = al_from x (kvs (NLeaf l)).
Proof.
  intros Hs. destruct (leafSearch_spec l x Hs) as (ks1 & ks2 & vs1 & vs2 & E1 & E2 & L1 & L2 & -> & H1 & H2).
  cbn [kvs]. rewrite E1, E2, zip_with_app by done.
  assert (Hz : length (zip ks1 vs1) = length ks1) by (rewrite length_zip_with; lia).
  rewrite <- Hz, drop_app_length, al_from_app by by apply (zip_below (fun k => klt k x)).
  rewrite al_from_all; [done|]. by apply (zip_below (fun k => ~ klt k x)).
Qed.

Lemma above_from x (l : list (V * loc)) : all_above x l -> all_from x l.
Proof. apply above_not_below. Qed.

Lemma al_from_mid x (A B C : list (V * loc)) : all_below x A -> all_above x C ->
  al_from x (A ++ B ++ C) = al_from x B ++ C.
Proof.
  intros HA HC. rewrite al_from_app by done. unfold al_from. rewrite filter_app. f_equal.
  by apply filter_all, above_from.
Qed.

Lemma descend_seek h x level lo hi n : node_ok level lo hi n -> forall stack,
  (h <= S maxCursorDepth)%nat -> (level + length stack = h)%nat -> frames_ok h stack -> in_bounds lo hi x ->
  exists stack' l, descend (fun ks => inodeChild ks x) (level - 1) n stack = Some (stack', l) /\
    leaf_shape l /\ frames_ok h stack' /\
    drop (leafSearch l x) (kvs (NLeaf l)) ++ frames_rest stack' = al_from x (kvs n) ++ frames_rest stack.
Proof.
  revert level lo hi n. apply (node_level_ind (fun level lo hi n => forall stack,
    (h <= S maxCursorDepth)%nat -> (level + length stack = h)%nat -> frames_ok h stack -> in_bounds lo hi x ->
    exists stack' l, descend (fun ks => inodeChild ks x) (level - 1) n stack = Some (stack', l) /\
      leaf_shape l /\ frames_ok h stack' /\
      drop (leafSearch l x) (kvs (NLeaf l)) ++ frames_rest stack' = al_from x (kvs n) ++ frames_rest stack)).
  - intros lo hi l Hl stack Hd Hh Hf Hx. exists stack, l. pose proof (leaf_ok_shape _ _ _ Hl) as [? _].
    spl; try done. f_equal. apply leaf_from. destruct Hl as (H1 & _ & H2 & _). by split.
  - intros level lo hi ks cs IH _ H stack Hd Hh Hf Hx. replace (S (S level) - 1)%nat with (S level) by lia.
    cbn [descend asInode mbind option_bind fst snd].
    destruct (Nat.ltb_spec (length stack) maxCursorDepth); [|lia].
    destruct (open_node _ _ _ _ _ x H Hx) as (ks1 & ks2 & cs1 & c & cs2 & lo' & hi' & Hh').
    rewrite (hole_child Hh'). cbn [mbind option_bind].
    destruct (IH _ _ _ (h_child Hh') (mkFrame (ks, cs) (inodeChild ks x) :: stack) Hd) as (stack' & l & E & H1 & H3 & H4).
    + simpl. lia.
    + eapply frames_push; eauto; lia.
    + apply (h_bounds Hh').
    + replace (S level - 1)%nat with level in E by lia. exists stack', l. spl; try done.
      rewrite H4. cbn [kvs]. rewrite (hole_kvs Hh'), al_from_mid by (apply (h_below Hh') || apply (h_above Hh')).
      rewrite <- app_assoc. f_equal. unfold frames_rest. cbn [flat_map]. f_equal.
      unfold frame_rest. cbn [f_ci f_n snd]. rewrite (h_ci Hh'), (h_cs Hh'), <- (h_len Hh').
      replace (cs1 ++ c :: cs2) with ((cs1 ++ [c]) ++ cs2) by by rewrite <- app_assoc.
      replace (S (length cs1)) with (length (cs1 ++ [c])) by (rewrite length_app; simpl; lia).
      by rewrite drop_app_length.
Qed.

(** ** Leaf boundaries *)

Lemma chain_nth P lo ks cs hi i n : chain P lo ks cs hi -> cs !! i = Some n -> exists lo' hi', P lo' hi' n.
Proof.
  revert lo cs i. induction ks as [|k ks IH]; intros lo [|d cs] [|i] H Hi; simplify_eq/=; try done.
  - destruct cs; [|done]. destruct H as [_ H]. eauto.
  - by destruct cs.
  - destruct H as (_ & H & _). eauto.
  - destruct H as (_ & _ & H). eauto.
Qed.

Lemma next_frames_spec h stack : (h <= S maxCursorDepth)%nat -> frames_ok h stack ->
  exists c, next_frames h stack = Some c /\ cursor_ok h c /\ settled c /\ rest c = frames_rest stack.
Proof.
  intros Hd. induction stack as [|f below IH]; intros Hf.
  - eexists. split; [done|]. split; [|done]. by constructor.
  - destruct Hf as ((lo & hi & Hch) & Hlt & Hf). cbn [next_frames].
    destruct (Nat.leb_spec (length (f_n f).2) (S (f_ci f))) as [Hge|Hlt2].
    + destruct (IH Hf) as (c & E & H1 & H2 & H3). exists c. spl; try done. rewrite H3.
      unfold frames_rest. cbn [flat_map]. unfold frame_rest at 2. by rewrite drop_ge.
    + destruct (lookup_lt_is_Some_2 (f_n f).2 (S (f_ci f)) Hlt2) as [c Ec]. rewrite Ec.
      cbn [mbind option_bind]. destruct (chain_nth _ _ _ _ _ _ _ Hch Ec) as (lo' & hi' & Hc).
      destruct f as [[ks cs] ci]. cbn [f_n f_ci fst snd] in *.
      destruct (descend_first h _ _ _ _ Hc (mkFrame (ks, cs) (S ci) :: below) Hd) as (stack' & l & E & H1 & H2 & H3 & H4).
      * simpl. lia.
      * simpl. spl; [eauto|lia|done].
      * replace (h - 1 - S (length below))%nat with (h - 1 - length below - 1)%nat by lia.
        rewrite E. cbn [mbind option_bind]. eexists. split; [done|]. spl.
        -- constructor; auto. cbn [c_leaf]. intros l' ?. by simplify_eq.
        -- done.
        -- unfold rest. cbn [c_leaf c_off c_stack]. rewrite drop_0, H4. unfold frames_rest.
           cbn [flat_map]. unfold frame_rest at 1 3. cbn [f_n f_ci snd].
           rewrite (drop_S cs c (S ci) Ec). cbn [flat_map]. by rewrite <- app_assoc.
Qed.

Lemma settle_spec h c : cursor_ok h c -> (c_leaf c = None -> c_stack c = []) ->
  exists c', settle c = Some c' /\ cursor_ok h c' /\ settled c' /\ rest c' = rest c.
Proof.
  intros Hc Hn. unfold settle. cbn [settle_loop]. destruct (c_leaf c) as [l|] eqn:El.
  - pose proof (co_leaf _ _ Hc l El) as Hs.
    destruct (Nat.leb_spec (length (l_keys l)) (c_off c)) as [Hge|Hlt].
    + destruct (next_frames_spec h (c_stack c) (co_depth _ _ Hc) (co_frames _ _ Hc)) as (c' & E & H1 & H2 & H3).
      unfold nextLeaf. rewrite (co_height _ _ Hc), E. cbn [mbind option_bind].
      exists c'. spl; try done.
      * unfold settled in H2. destruct (c_leaf c') as [l'|] eqn:El'; [|done].
        destruct (Nat.leb_spec (length (l_keys l')) (c_off c')); [lia|done].
      * rewrite H3. unfold rest. rewrite El, drop_ge; [done|]. rewrite length_kvs_leaf; done.
    + exists c. spl; try done. unfold settled. by rewrite El.
  - exists c. spl; try done. unfold settled. rewrite El. auto.
Qed.

(** ** The cursor interface *)

Lemma seek_spec t x : tree_ok t -> (height t <= S maxCursorDepth)%nat ->
  exists c, seek t x = Some c /\ cursor_ok (height t) c /\ settled c /\ rest c = al_from x (kvs (root t)).
Proof.
  intros [_ Ht] Hd. unfold seek, seek_with.
  assert (exists stack l, descend (fun ks => inodeChild ks x) (height t - 1) (root t) [] = Some (stack, l) /\
    leaf_shape l /\ frames_ok (height t) stack /\
    drop (leafSearch l x) (kvs (NLeaf l)) ++ frames_rest stack = al_from x (kvs (root t))) as (stack & l & E & H1 & H2 & H3).
  { destruct Ht as [[Hr Hh]|Ht].
    - rewrite Hr, Hh. by exists [], (mkLeaf [] []).
    - destruct (descend_seek (height t) x _ _ _ _ Ht [] Hd) as (stack & l & E & H1 & H2 & H3); try done.
      exists stack, l. rewrite H3. unfold frames_rest. simpl. by rewrite app_nil_r. }
  rewrite E. cbn [mbind option_bind]. destruct (settle_spec (height t) (mkCursor stack (Some l) (leafSearch l x) (height t)))
    as (c & Ec & H4 & H5 & H6).
  - constructor; auto. cbn [c_leaf]. intros l' ?. by simplify_eq.
  - done.
  - exists c. spl; try done. rewrite H6. exact H3.
Qed.

Lemma seekFirst_spec t : tree_ok t -> (height t <= S maxCursorDepth)%nat ->
  exists c, seekFirst t = Some c /\ cursor_ok (height t) c /\ settled c /\ rest c = kvs (root t).
Proof.
  intros [_ Ht] Hd. unfold seekFirst, seek_with.
  assert (exists stack l, descend (fun _ => 0%nat) (height t - 1) (root t) [] = Some (stack, l) /\
    leaf_shape l /\ frames_ok (height t) stack /\
    kvs (NLeaf l) ++ frames_rest stack = kvs (root t)) as (stack & l & E & H1 & H2 & H3).
  { destruct Ht as [[Hr Hh]|Ht].
    - rewrite Hr, Hh. by exists [], (mkLeaf [] []).
    - destruct (descend_first (height t) _ _ _ _ Ht [] Hd) as (stack & l & E & H1 & _ & H2 & H3); try done.
      exists stack, l. rewrite H3. unfold frames_rest. simpl. by rewrite app_nil_r. }
  rewrite E. cbn [mbind option_bind]. destruct (settle_spec (height t) (mkCursor stack (Some l) 0 (height t)))
    as (c & Ec & H4 & H5 & H6).
  - constructor; auto. cbn [c_leaf]. intros l' ?. by simplify_eq.
  - done.
  - exists c. spl; try done. rewrite H6. unfold rest. cbn [c_leaf c_off c_stack]. by rewrite drop_0.
Qed.

(** Reading a settled cursor and stepping it. *)
Lemma cursor_step h c : cursor_ok h c -> settled c ->
  match rest c with
  | [] => valid c = false
  | (k, e) :: r => valid c = true /\ c_key c = Some k /\ c_entry c = Some e /\
      exists c', next c = Some c' /\ cursor_ok h c' /\ settled c' /\ rest c' = r
  end.
Proof.
  intros Hc Hs. unfold settled in Hs. unfold rest, valid, c_key, c_entry, next.
  destruct (c_leaf c) as [l|] eqn:El; [|done]. pose proof (co_leaf _ _ Hc l El) as Hl.
  destruct (lookup_lt_is_Some_2 (l_keys l) (c_off c) Hs) as [k Ek].
  destruct (lookup_lt_is_Some_2 (l_sets l) (c_off c)) as [e Ee]; [unfold leaf_shape in Hl; lia|].
  assert (Ekv : kvs (NLeaf l) !! c_off c = Some (k, e)).
  { cbn [kvs]. apply lookup_zip_with_Some. eauto. }
  rewrite (drop_S _ _ _ Ekv). cbn [mbind option_bind app].
  spl; [done|by rewrite Ek|by rewrite Ee|].
  destruct (settle_spec h (mkCursor (c_stack c) (Some l) (S (c_off c)) (c_height c))) as (c' & E & H1 & H2 & H3).
  - destruct Hc. constructor; auto. cbn [c_leaf]. intros l' ?. by simplify_eq.
  - done.
  - exists c'. spl; try done.
Qed.

(** A scan is a fold over the bindings ahead. *)
Section scan.
Context {A R : Type} (body : A -> V -> loc -> option (A + R)).

Fixpoint list_scan (l : list (V * loc)) (acc : A) : option (A + R) :=
  match l with
  | [] => Some (inl acc)
  | (k, e) :: l =>
      r ← body acc k e;
      match r with inl acc => list_scan l acc | inr r => Some (inr r) end
  end.

Lemma scan_spec h fuel : forall acc c, cursor_ok h c -> settled c -> (length (rest c) < fuel)%nat ->
  scan fuel body acc c = list_scan (rest c) acc.
Proof.
  induction fuel as [|fuel IH]; intros acc c Hc Hs Hf; [lia|].
  pose proof (cursor_step h c Hc Hs) as Hst. cbn [scan]. destruct (rest c) as [|[k e] r] eqn:Er.
  - by rewrite Hst.
  - destruct Hst as (-> & -> & -> & c' & E & H1 & H2 & H3). cbn [mbind option_bind list_scan].
    destruct (body acc k e) as [[acc'|r']|]; cbn [mbind option_bind]; [|done|done].
    rewrite E. cbn [mbind option_bind]. rewrite IH; [by rewrite H3|done|done|].
    rewrite H3. simpl in Hf. lia.
Qed.
End scan.
End cursor.

(** * Bulk packing of the B+ tree

    Bottom-up packing of an ascending list of bindings gives a well-formed tree
    that holds exactly them, of logarithmic height. *)

(** ** Windows *)

Section windows.
Context {T : Type} (n : nat) (Hn : (0 < n)%nat).
Implicit Types s : list T.

(** A list cut in windows, read off one window at a time. *)
Inductive cut : list T -> list (list T) -> Prop :=
  | cut_nil : cut [] []
  | cut_cons w s ws : w <> [] -> (length w <= n)%nat -> (s <> [] -> length w = n) ->
      cut s ws -> cut (w ++ s) (w :: ws).

Lemma windows_cut fuel : forall s, (length s <= fuel)%nat -> cut s (windows fuel n s).
Proof.
  induction fuel as [|fuel IH]; intros s Hf.
  - destruct s; [constructor|simpl in Hf; lia].
  - destruct s as [|x s]; [constructor|]. cbn [windows]. rewrite <- (take_drop n (x :: s)) at 1.
    constructor.
    + destruct n; [lia|done].
    + rewrite length_take. lia.
    + intros H. rewrite length_take. destruct (decide (n <= length (x :: s))%nat); [lia|].
      by rewrite drop_ge in H by lia.
    + apply IH. rewrite length_drop. simpl in *. lia.
Qed.

Lemma cut_length s ws m : cut s ws -> (length s <= n * m)%nat -> (length ws <= m)%nat.
Proof.
  intros H. revert m. induction H as [|w s ws Hne Hl Hfull _ IH]; intros m Hm; simpl; [lia|].
  rewrite length_app in Hm. destruct m as [|m]; [destruct w; [done|simpl in Hm; lia]|].
  assert (length ws <= m)%nat; [|lia]. destruct s as [|x s]; [apply IH; simpl; lia|].
  apply IH. rewrite Hfull in Hm by done. lia.
Qed.

Lemma cut_pos s ws : cut s ws -> s <> [] -> (0 < length ws)%nat.
Proof. by destruct 1; simpl; [|lia]. Qed.

Lemma cut_shrink s ws : (2 <= n)%nat -> cut s ws -> (2 <= length s)%nat -> (length ws < length s)%nat.
Proof.
  intros H2 Hc Hl. assert (length ws <= length s - 1)%nat; [|lia].
  apply (cut_length s ws _ Hc). nia.
Qed.
End windows.

Section bulk.
Context {V : Type} `{OV : Ordered V} {LV : OrderedLaws V}.
Implicit Types (k : V) (lo hi : option V).

(** A level of nodes paired with their first keys. *)
Definition row level lo (ns : list (V * node V)) hi : Prop :=
  chain (node_ok level) lo (tail ns.*1) ns.*2 hi.

Definition row_kvs (ns : list (V * node V)) : list (V * loc) := flat_map kvs ns.*2.

Lemma kvs_pack_leaf (l : list (V * loc)) : kvs (pack_leaf l) = l.
Proof. unfold pack_leaf. cbn [kvs l_keys l_sets]. induction l as [|[a b] l IH]; [done|]. cbn. by rewrite IH. Qed.

(** Leaves packed from ascending bindings form a row. *)
Lemma pack_leaves s ws : cut (packCap 1) s ws -> forall lo hi, s <> [] ->
  ascending s -> all_in lo hi s -> exists firsts, mapM first_key ws = Some firsts /\
  head firsts = fst <$> head s /\ length firsts = length ws /\
  row 1 lo (zip firsts (pack_leaf <$> ws)) hi /\ row_kvs (zip firsts (pack_leaf <$> ws)) = s.
Proof.
  induction 1 as [|w s ws Hw Hl Hfull Hc IH]; intros lo hi Hs Ha Hb; [done|].
  destruct w as [|[k e] w]; [done|]. apply ascending_app in Ha as (Haw & Has & Hws).
  apply Forall_app in Hb as [Hbw Hbs]. cbn [mapM first_key head fmap option_fmap option_map fst mbind option_bind].
  assert (Hleaf : forall hi', (hi' = hi \/ exists k', hi' = Some k' /\ Forall (fun p => klt p.1 k') ((k, e) :: w)) ->
    leaf_ok lo hi' (mkLeaf ((k, e) :: w).*1 ((k, e) :: w).*2)).
  { intros hi' Hh. split; [cbn [l_keys l_sets]; by rewrite !length_fmap|]. split.
    - cbn [l_keys]. rewrite length_fmap. unfold packCap in Hl. simpl in *. unfold bplusFanout. lia.
    - split; cbn [l_keys].
      + clear -Haw. unfold ascending in Haw. induction Haw as [|p q Hq IH Hp]; [constructor|]. cbn [fmap list_fmap].
        constructor; [done|]. by apply Forall_fmap.
      + apply Forall_fmap. destruct Hh as [->|(k' & -> & Hk)]; [done|].
        apply Forall_forall. intros p Hp. rewrite Forall_forall in Hk, Hbw. split; [by apply Hbw|by apply Hk]. }
  destruct s as [|[k' e'] s].
  - inversion Hc; subst; [|by destruct w0]. exists [k]. cbn [mapM mbind option_bind]. spl; try done.
    + cbn. split; [|by split; [|apply Hleaf; left]]. by eapply in_bounds_blt, (Forall_inv Hbw).
    + unfold row_kvs. cbn [zip_with fmap list_fmap flat_map fst snd].
      by rewrite kvs_pack_leaf, !app_nil_r.
  - destruct (IH (Some k') hi) as (firsts & E & Hh & Hlen & Hrow & Hkvs); [done|exact Has| |].
    { apply Forall_forall. intros p Hp. rewrite Forall_forall in Hbs. split; [|by apply Hbs].
      apply StronglySorted_cons in Has as [Hk _]. rewrite Forall_forall in Hk.
      apply elem_of_cons in Hp as [->|Hp]; [apply klt_irrefl|]. intros H. apply (klt_irrefl k').
      eapply klt_trans; [by apply (Hk p)|done]. }
    rewrite E. cbn [mbind option_bind]. destruct firsts as [|k1 firsts]; simplify_eq/=.
    destruct ws as [|w1 ws]; [done|]. exists (k :: k' :: firsts). spl; try done; [simpl in *; lia| |].
    + assert (Hkk : Forall (fun p => klt p.1 k') ((k, e) :: w)).
      { eapply Forall_impl; [exact Hws|]. intros p Hp. by apply Forall_cons in Hp as [Hp _]. }
      unfold row. cbn [fmap list_fmap zip_with tail fst snd chain]. split; [|split; [|exact Hrow]].
      * pose proof (Forall_inv Hbw) as [Hlo _]. pose proof (Forall_inv Hkk) as Hk. destruct lo as [a|]; [|done].
        simpl in *. by eapply kle_lt_trans.
      * split; [done|]. apply Hleaf. right. by exists k'.
    + unfold row_kvs in *. cbn [fmap list_fmap zip_with flat_map fst snd] in *. rewrite Hkvs. by rewrite (kvs_pack_leaf ((k, e) :: w)).
Qed.

(** Packing a row gives the row above. *)
Lemma pack_row level ns ws : cut (packCap 2) ns ws -> level <> 0%nat -> forall lo hi, ns <> [] ->
  row level lo ns hi -> exists ps, mapM pack_inode ws = Some ps /\ length ps = length ws /\
  head ps.*1 = head ns.*1 /\ row (S level) lo ps hi /\ row_kvs ps = row_kvs ns.
Proof.
  intros Hc H0. induction Hc as [|w s ws Hw Hl Hfull Hc IH]; intros lo hi Hs Hr; [done|].
  destruct w as [|[k nd] w]; [done|]. cbn [mapM pack_inode mbind option_bind].
  assert (Hcap : (length ((k, nd) :: w).*2 <= bplusFanout)%nat).
  { rewrite length_fmap. unfold packCap in Hl. simpl in *. unfold bplusFanout. lia. }
  destruct s as [|[k' nd'] s].
  - inversion Hc; subst; [|by destruct w0]. rewrite app_nil_r in *. cbn [mapM mbind option_bind].
    eexists. split; [done|]. spl; try done; [|unfold row_kvs; simpl; by rewrite app_nil_r].
    unfold row in *. cbn [fmap list_fmap tail fst snd chain] in *. split; [by eapply chain_blt|].
    split; [done|]. by split.
  - unfold row in Hr. rewrite !fmap_app in Hr. cbn [fmap list_fmap fst snd tail app] in Hr.
    rewrite app_comm_cons in Hr. apply chain_cut in Hr as [Hr1 Hr2]; [|simpl; by rewrite !length_fmap].
    destruct (IH (Some k') hi) as (ps & E & Hlen & Hh & Hrow & Hkvs); [done|done|].
    rewrite E. cbn [mbind option_bind]. eexists. split; [done|]. destruct ps as [|[k1 p1] ps]; simplify_eq/=.
    spl; try done; [lia| |].
    + unfold row. cbn [fmap list_fmap tail fst snd chain]. split; [by eapply chain_blt|]. split; [|exact Hrow].
      split; [done|]. by split.
    + unfold row_kvs in *. cbn [fmap list_fmap fst snd flat_map kvs] in *. rewrite Hkvs.
      unfold copySlice. rewrite fmap_app, flat_map_app. cbn [fmap list_fmap fst snd flat_map]. by rewrite <- app_assoc.
Qed.

Lemma pack_levels_spec fuel : forall level ns, (length ns <= fuel)%nat -> level <> 0%nat -> ns <> [] ->
  row level None ns None -> exists r h, pack_levels fuel ns level = Some (r, h) /\
  node_ok h None None r /\ kvs r = row_kvs ns /\
  forall m, (length ns <= packCap 2 ^ m)%nat -> (h <= level + m)%nat.
Proof.
  assert (Hcap : packCap 2 = 85%nat) by reflexivity.
  induction fuel as [|fuel IH]; intros level ns Hf H0 Hne Hr; [destruct ns; [done|simpl in Hf; lia]|].
  destruct ns as [|[k nd] [|p2 ns]]; [done| |].
  - exists nd, level. destruct Hr as [_ Hr]. spl; [done|done|unfold row_kvs; simpl; by rewrite app_nil_r|lia].
  - cbn [pack_levels]. set (ns' := (k, nd) :: p2 :: ns) in *.
    pose proof (windows_cut (packCap 2) ltac:(lia) (length ns') ns' ltac:(lia)) as Hcut.
    destruct (pack_row level ns' _ Hcut H0 None None Hne Hr) as (ps & E & Hlen & _ & Hrow & Hkvs).
    assert (Hsh : (length ps < length ns')%nat) by (rewrite Hlen; apply (cut_shrink (packCap 2) ltac:(lia) ns' _ ltac:(lia) Hcut); simpl; lia).
    assert (Hpos : (0 < length ps)%nat) by (rewrite Hlen; exact (cut_pos (packCap 2) ltac:(lia) ns' _ Hcut Hne)).
    rewrite E. cbn [mbind option_bind].
    destruct (IH (S level) ps) as (r & h & Er & H1 & H2 & H3); [lia|lia| |done|].
    { intros ->. simpl in Hpos. lia. }
    exists r, h. spl; [done|done|by rewrite H2|]. intros m Hm. destruct m as [|m]; [simpl in Hm; lia|].
    assert (h <= S level + m)%nat; [|lia]. apply H3. rewrite Hlen. apply (cut_length (packCap 2) ltac:(lia) ns' _ _ Hcut).
    by rewrite <- Nat.pow_succ_r'.
Qed.

(** The packed tree, and its height. *)
Lemma bulk_tree_spec l : ascending l -> exists t, bulk_tree l = Some t /\ tree_ok t /\
  kvs (root t) = l /\ forall m, (length l <= packCap 2 ^ m)%nat -> (height t <= S m)%nat.
Proof.
  intros Ha. destruct l as [|p l].
  - eexists. split; [done|]. split; [split; [done|by left]|]. split; [done|]. simpl. lia.
  - cbn [bulk_tree]. set (l' := p :: l) in *.
    pose proof (windows_cut (packCap 1) ltac:(unfold packCap; lia) (length l') l' ltac:(lia)) as Hcut.
    set (ws := windows (length l') (packCap 1) l') in *.
    destruct (pack_leaves l' ws Hcut None None) as (firsts & E & _ & Hlen & Hrow & Hkvs); [done|done| |].
    { apply Forall_forall. done. }
    rewrite E. cbn [mbind option_bind].
    assert (Hz : length (zip firsts (pack_leaf <$> ws)) = length ws).
    { rewrite length_zip_with, length_fmap. lia. }
    pose proof (cut_pos (packCap 1) ltac:(unfold packCap; lia) _ _ Hcut ltac:(done)) as Hpos.
    destruct (pack_levels_spec (length ws) 1 (zip firsts (pack_leaf <$> ws))) as (r & h & Er & H1 & H2 & H3);
      [lia|done| |done|].
    { intros E0. rewrite E0 in Hz. simpl in Hz. lia. }
    rewrite Er. cbn [mbind option_bind]. eexists. split; [done|]. cbn [root height].
    rewrite H2, Hkvs. split; [split; [cbn [count root]; by rewrite H2, Hkvs|by right]|]. split; [done|].
    intros m Hm. apply H3. rewrite Hz. apply (cut_length (packCap 1) ltac:(unfold packCap; lia) l' ws _ Hcut).
    assert (1 <= packCap 1)%nat by (unfold packCap; lia). nia.
Qed.
End bulk.
