(* ===== verification/BtreeIndex.v ===== *)
(** * The ordered property index (src/graph/index/btree/index.go)

    The index over the copy-on-write tree: point updates, queries, scans and bulk
    loads as one caller runs them, built from the critical sections that
    BtreeConc.v interleaves.  The shared mutable state is the published snapshot,
    the arena and the heap of entries. *)

From Stdlib Require Import ZArith Lia.
From stdpp Require Import gmap.
From S2P Require Import Prelude Ordered NodeSet Bplus.

Section index.
Context {V B : Type} `{OV : Ordered V} {RB : Roaring B}.

Record Index := mkIndex { tree : bplus V; arena : entryArena; mem : store B }.

Definition New : Index := mkIndex newBplus [] (mkStore ∅ 0%nat).

Definition with_mem (i : Index) (st : store B) : Index := mkIndex (tree i) (arena i) st.

(** ** Critical sections *)

(** The body of [Insert] under the entry's lock: [None] in the second component
    when the entry is dead and the insertion must start again. *)
Definition add_to_entry (e : loc) (node_id : Z) (st : store B) : option (store B * bool) :=
  en ← heap st !! e;
  if dead en then Some (st, false)
  else Some (set_entry e (mkEntry false (Add node_id (set en)).1) st, true).

(** [insertStructural], under [mu], after its lookup found nothing. *)
Definition publish_insert (value : V) (node_id : Z) (i : Index) : option Index :=
  '(t', a', st') ← cloneInsert (tree i) value node_id (arena i) (mem i);
  Some (mkIndex t' a' st').

(** ... and after it found an entry, which it takes without looking at [dead]. *)
Definition join_entry (e : loc) (node_id : Z) (st : store B) : option (store B) :=
  en ← heap st !! e;
  Some (set_entry e (mkEntry (dead en) (Add node_id (set en)).1) st).

Definition insertStructural (value : V) (node_id : Z) (i : Index) : option Index :=
  e ← get (tree i) value;
  match e with
  | Some e => st ← join_entry e node_id (mem i); Some (with_mem i st)
  | None => publish_insert value node_id i
  end.

(** The body of [Delete] under the entry's lock, and whether the set emptied. *)
Definition remove_from_entry (e : loc) (node_id : Z) (st : store B) : option (store B * bool) :=
  en ← heap st !! e;
  if dead en then Some (st, false)
  else
    let '(s, now) := Remove node_id (set en) in
    Some (set_entry e (mkEntry false s) st, now && IsEmpty s).

(** The body of [detach] under both locks, and whether the entry is now dead. *)
Definition kill_entry (e : loc) (st : store B) : option (store B * bool) :=
  en ← heap st !! e;
  if dead en || negb (IsEmpty (set en)) then Some (st, false)
  else Some (set_entry e (mkEntry true (set en)) st, true).

Definition publish_remove (value : V) (i : Index) : option Index :=
  t' ← cloneRemove (tree i) value;
  Some (mkIndex t' (arena i) (mem i)).

Definition detach (value : V) (i : Index) : option Index :=
  e ← get (tree i) value;
  match e with
  | None => Some i
  | Some e =>
      '(st, killed) ← kill_entry e (mem i);
      if (killed : bool) then publish_remove value (with_mem i st) else Some (with_mem i st)
  end.

(** ** Updates *)

Definition Insert (value : V) (node_id : Z) (i : Index) : option Index :=
  e ← get (tree i) value;
  match e with
  | Some e =>
      '(st, done) ← add_to_entry e node_id (mem i);
      if (done : bool) then Some (with_mem i st) else insertStructural value node_id (with_mem i st)
  | None => insertStructural value node_id i
  end.

Definition Delete (value : V) (node_id : Z) (i : Index) : option Index :=
  e ← get (tree i) value;
  match e with
  | None => Some i
  | Some e =>
      '(st, nowEmpty) ← remove_from_entry e node_id (mem i);
      if (nowEmpty : bool) then detach value (with_mem i st) else Some (with_mem i st)
  end.

(** ** Point queries *)

Definition entry_set (e : loc) (i : Index) : option (NodeSet B) := set <$> heap (mem i) !! e.

Definition Lookup (value : V) (i : Index) : option B :=
  e ← get (tree i) value;
  match e with
  | None => Some rb_New
  | Some e =>
      s ← entry_set e i;
      let '(bm, shared) := Bitmap s in
      Some (if (shared : bool) then rb_Clone bm else bm)
  end.

Definition LookupAppend (value : V) (dst : list Z) (i : Index) : option (list Z) :=
  e ← get (tree i) value;
  match e with
  | None => Some dst
  | Some e => s ← entry_set e i; Some (AppendTo s dst)
  end.

Definition IndexCardinality (value : V) (i : Index) : option Z :=
  e ← get (tree i) value;
  match e with
  | None => Some 0%Z
  | Some e => s ← entry_set e i; Some (Cardinality s)
  end.

Definition DistinctValues (i : Index) : nat := count (tree i).

(** ** Range queries *)

(** One visit per key. *)
Definition scan_fuel (i : Index) : nat := S (count (tree i)).

(** The result of a loop that is left early or runs out. *)
Definition finish {A} (r : A + A) : A := match r with inl a => a | inr a => a end.

Definition RangeFirst (lo hi : V) (i : Index) : option (option (V * Z)) :=
  if keyLess hi lo then Some None
  else
    c ← seek (tree i) lo;
    r ← scan (scan_fuel i) (fun _ k e =>
      if keyLess hi k then Some (inr None)
      else
        s ← entry_set e i;
        if IsEmpty s then Some (inl None) else Some (inr (Some (k, Minimum s)))) None c;
    Some (finish r).

Definition Range (lo hi : V) (i : Index) : option B :=
  if keyLess hi lo then Some rb_New
  else
    c ← seek (tree i) lo;
    r ← scan (scan_fuel i) (fun out k e =>
      if keyLess hi k then Some (inr out)
      else s ← entry_set e i; Some (inl (OrInto s out))) rb_New c;
    Some (finish r).

Definition RangeFrom (lo : V) (i : Index) : option B :=
  c ← seek (tree i) lo;
  r ← scan (R := B) (scan_fuel i) (fun out _ e => s ← entry_set e i; Some (inl (OrInto s out))) rb_New c;
  Some (finish r).

(** The count and whether it is exact. *)
Definition count_body (i : Index) (budget total : Z) (e : loc) : option (Z + (Z * bool)) :=
  s ← entry_set e i;
  let total := u64 (total + Cardinality s) in
  Some (if (budget <? total)%Z then inr (u64 (budget + 1), false) else inl total).

Definition count_finish (r : Z + (Z * bool)) : Z * bool :=
  match r with inl total => (total, true) | inr r => r end.

Definition RangeCountFrom (lo : V) (budget : Z) (i : Index) : option (Z * bool) :=
  c ← seek (tree i) lo;
  r ← scan (scan_fuel i) (fun total _ e => count_body i budget total e) 0%Z c;
  Some (count_finish r).

Definition RangeCount (lo hi : V) (budget : Z) (i : Index) : option (Z * bool) :=
  if keyLess hi lo then Some (0%Z, true)
  else
    c ← seek (tree i) lo;
    r ← scan (scan_fuel i) (fun total k e =>
      if keyLess hi k then Some (inr (total, true)) else count_body i budget total e) 0%Z c;
    Some (count_finish r).

(** ** Bulk loads *)

Inductive load_err := ErrMismatchedLengths | ErrNotSorted.

(** The grouping loop: the run of pairs whose key equals the first one's becomes one
    key with the union of their nodes. *)
Fixpoint run_while (p : V * Z -> bool) (l : list (V * Z)) : list (V * Z) * list (V * Z) :=
  match l with
  | x :: r => if p x then let '(a, b) := run_while p r in (x :: a, b) else ([], l)
  | [] => ([], [])
  end.

Fixpoint group (fuel : nat) (pairs : list (V * Z)) : option (list (V * NodeSet B)) :=
  match pairs with
  | [] => Some []
  | (v, _) :: _ =>
      match fuel with
      | O => None
      | S fuel =>
          let '(run, rest) := run_while (fun p => equalKeys p.1 v) pairs in
          r ← group fuel rest;
          Some ((v, fold_left (fun s p => (Add p.2 s).1) run nsZero) :: r)
      end
  end.

Definition load_groups (groups : list (V * NodeSet B)) (i : Index) : option Index :=
  '(t, st) ← bulkPack groups.*1 groups.*2 (mem i);
  Some (mkIndex t (arena i) st).

Definition load_pairs (pairs : list (V * Z)) (i : Index) : option Index :=
  gs ← group (length pairs) pairs;
  load_groups gs i.

Fixpoint sorted_scan (values : list V) : bool :=
  match values with
  | a :: (b :: _) as r => negb (keyLess b a) && sorted_scan r
  | _ => true
  end.

Definition BulkLoadSorted (values : list V) (nodes : list Z) (i : Index) : option (load_err + Index) :=
  if negb (length values =? length nodes)%nat then Some (inl ErrMismatchedLengths)
  else if negb (sorted_scan values) then Some (inl ErrNotSorted)
  else i' ← load_pairs (zip values nodes) i; Some (inr i').

(** [sort.Slice] is not stable: any function that orders the pairs. *)
Definition BulkLoad (sort_Slice : list (V * Z) -> list (V * Z))
    (values : list V) (nodes : list Z) (i : Index) : option (load_err + Index) :=
  if negb (length values =? length nodes)%nat then Some (inl ErrMismatchedLengths)
  else i' ← load_pairs (sort_Slice (zip values nodes)) i; Some (inr i').
End index.
Arguments Index V B : clear implicits.
