(* ===== verification/BtreeIndexInv.v ===== *)
(** * The ordered index: invariant and critical sections

    What the published snapshot, the arena and the heap of entries satisfy between
    any two critical sections, and the effect of each section on the ids the index
    holds under every key. *)

From Stdlib Require Import ZArith Lia.
From stdpp Require Import gmap.
From S2P Require Import Prelude Ordered NodeSet NodeSetProps Bplus BplusInv BplusOps BtreeIndex.

(** ** Locations in a sorted association list *)

Section alist_locs.
Context {V : Type} `{OV : Ordered V} {LV : OrderedLaws V}.
Implicit Types (l : list (V * loc)) (v : V).

Lemma locs_insert v e l : ascending l -> al_get v l = None -> (al_insert v e l).*2 ≡ₚ e :: l.*2.
Proof.
  intros Hs Hg. apply al_get_None in Hg. rewrite (ascending_split v l Hs) at 2. rewrite Hg.
  unfold al_insert. rewrite !fmap_app. cbn [fmap list_fmap snd app]. by rewrite Permutation_middle.
Qed.

Lemma locs_remove v l : (al_remove v l).*2 ⊆ l.*2.
Proof.
  intros e He. apply list_elem_of_fmap in He as ((k & e') & -> & He). apply list_elem_of_filter in He as [_ He].
  apply list_elem_of_fmap. by exists (k, e').
Qed.

Lemma locs_remove_nodup v l : NoDup l.*2 -> NoDup (al_remove v l).*2.
Proof.
  unfold al_remove. induction l as [|p l IH]; [done|]. cbn [fmap list_fmap]. intros H.
  apply NoDup_cons in H as [Hp H]. rewrite filter_cons. case_decide; [|auto].
  cbn [fmap list_fmap]. apply NoDup_cons. split; [|auto]. intros Hin. apply Hp. by apply (locs_remove v).
Qed.

Lemma al_get_in v e l : al_get v l = Some e -> e ∈ l.*2.
Proof. intros H. apply al_get_Some in H as (k & _ & H). apply list_elem_of_fmap. by exists (k, e). Qed.

(** An entry belongs to one key. *)
Lemma al_get_key v v' e l : NoDup l.*2 -> al_get v l = Some e -> al_get v' l = Some e -> keq v v'.
Proof.
  intros Hn H1 H2. apply al_get_Some in H1 as (k & E1 & H1), H2 as (k' & E2 & H2).
  assert (k = k') as ->; [|by rewrite <- E1].
  apply list_elem_of_lookup in H1 as [a H1], H2 as [b H2].
  assert (a = b) as ->; [|congruence].
  eapply (NoDup_lookup _ _ _ e Hn); rewrite list_lookup_fmap; [by rewrite H1|by rewrite H2].
Qed.

Lemma al_get_keq v v' l : keq v v' -> al_get v l = al_get v' l.
Proof.
  intros E. unfold al_get, al_at. f_equal. f_equal. apply list_filter_iff. intros p. by rewrite E.
Qed.
End alist_locs.

Section inv.
Context {V B : Type} `{OV : Ordered V} {LV : OrderedLaws V} `{RB : Roaring B} {RL : RoaringLaws B}.
Implicit Types (i : Index V B) (v : V) (e : loc) (st : store B).

(** ** The invariant *)

Definition bindings i : list (V * loc) := kvs (root (tree i)).
Definition locs i : list loc := (bindings i).*2.

(** The ids of an entry and of a key. *)
Definition ids_at st e : list Z :=
  match heap st !! e with Some en => ToArray (set en) | None => [] end.

Definition ids i v : list Z :=
  match al_get v (bindings i) with Some e => ids_at (mem i) e | None => [] end.

(** The keys in order, each with its ids. *)
Definition contents i : list (V * list Z) := (fun p => (p.1, ids_at (mem i) p.2)) <$> bindings i.

(** A heap and the free slots of an arena over it. *)
Record heap_ok (a : entryArena) st : Prop := mkHeapOk {
  ho_nodup : NoDup a;
  ho_zero : forall e, e ∈ a -> heap st !! e = Some zero_entry;
  ho_fresh : forall e, is_Some (heap st !! e) -> (e < fresh_loc st)%nat;
}.

Definition entry_ok st e : Prop := exists en l, heap st !! e = Some en /\ ns_inv (set en) l.

Record store_ok i : Prop := mkStoreOk {
  so_tree : tree_ok (tree i);
  so_entry : forall e, e ∈ locs i -> entry_ok (mem i) e;
  so_nodup : NoDup (locs i);
  so_heap : heap_ok (arena i) (mem i);
  so_apart : forall e, e ∈ arena i -> e ∉ locs i;
}.

(** Between the calls of one caller every entry of the snapshot is live and holds
    at least one id. *)
Definition live_entry st e : Prop :=
  exists en l, heap st !! e = Some en /\ dead en = false /\ ns_inv (set en) l /\ l <> [].

Definition index_ok i : Prop := store_ok i /\ forall e, e ∈ locs i -> live_entry (mem i) e.

(** ** Allocation *)

Lemma slab_lookup st e : heap (make_slab st).1 !! e =
  if decide (fresh_loc st <= e < fresh_loc st + entrySlabLen)%nat then Some zero_entry else heap st !! e.
Proof.
  unfold make_slab. cbn [fst heap]. unfold entrySlabLen. generalize (fresh_loc st) as f. intros f.
  cbn [seq foldr]. repeat (rewrite lookup_insert || (destruct (decide _)));
  repeat match goal with |- context [<[?a := _]> _ !! ?b] => destruct (decide (a = b)) as [<-|];
    [rewrite lookup_insert_eq|rewrite lookup_insert_ne by done] end; try done; lia.
Qed.

(** A slot handed out is a zero entry, new or from the arena, and allocation changes
    nothing that was in the heap. *)
Lemma alloc_spec a st : heap_ok a st -> exists e a' st', alloc a st = Some (e, a', st') /\
  heap_ok a' st' /\ (e ∉ a') /\ heap st' !! e = Some zero_entry /\
  (forall x, is_Some (heap st !! x) -> heap st' !! x = heap st !! x) /\
  (forall x, (x ∈ e :: a') -> (x ∈ a) \/ heap st !! x = None).
Proof.
  intros [Hn Hz Hf]. unfold alloc. destruct a as [|e a].
  - destruct (make_slab st) as [st' slab] eqn:Es.
    assert (Hl : forall x, heap st' !! x =
      if decide (fresh_loc st <= x < fresh_loc st + entrySlabLen)%nat then Some zero_entry else heap st !! x).
    { intros x. rewrite <- slab_lookup. by rewrite Es. }
    assert (Hfl : fresh_loc st' = (fresh_loc st + entrySlabLen)%nat) by (unfold make_slab in Es; by simplify_eq/=).
    assert (Hnone : forall x, (fresh_loc st <= x)%nat -> heap st !! x = None).
    { intros x Hx. destruct (heap st !! x) eqn:E; [|done]. assert (x < fresh_loc st)%nat; [|lia]. apply Hf. eauto. }
    assert (slab = seq (fresh_loc st) 4) as -> by (unfold make_slab in Es; by simplify_eq/=).
    cbn [seq]. eexists _, _, _. split; [done|]. spl.
    + split.
      * apply (NoDup_seq (S (fresh_loc st)) 3).
      * intros x Hx. rewrite Hl. apply (elem_of_seq (S (fresh_loc st)) 3) in Hx.
        rewrite decide_True; [done|]. unfold entrySlabLen. lia.
      * intros x Hx. rewrite Hfl. rewrite Hl in Hx. case_decide; [lia|]. apply Hf in Hx. lia.
    + intros Hx. apply (elem_of_seq (S (fresh_loc st)) 3) in Hx. lia.
    + rewrite Hl, decide_True; [done|]. unfold entrySlabLen. lia.
    + intros x Hx. rewrite Hl, decide_False; [done|]. apply Hf in Hx. lia.
    + intros x Hx. right. apply Hnone. apply (elem_of_seq (fresh_loc st) 4) in Hx. lia.
  - apply NoDup_cons in Hn as [He Hn]. exists e, a, st. spl; try done; auto.
    + split; [done|intros x Hx; apply Hz; by right|done].
    + apply Hz. left.
Qed.

Lemma set_entry_lookup e en st x : heap (set_entry e en st) !! x = if decide (e = x) then Some en else heap st !! x.
Proof.
  unfold set_entry. cbn [heap]. case_decide; subst; [by rewrite lookup_insert_eq|by rewrite lookup_insert_ne].
Qed.

(** Writing to an entry that is not a free slot. *)
Lemma heap_ok_set a e en st : heap_ok a st -> e ∉ a -> is_Some (heap st !! e) -> heap_ok a (set_entry e en st).
Proof.
  intros [Hn Hz Hf] He Hs. split; [done| |].
  - intros x Hx. rewrite set_entry_lookup. case_decide; [by subst|auto].
  - intros x. rewrite set_entry_lookup. case_decide; [subst; intros _; by apply Hf|apply Hf].
Qed.

(** ** Writing to the entry of a key *)

Lemma store_ok_set i e en l : store_ok i -> e ∈ locs i -> ns_inv (set en) l ->
  store_ok (with_mem i (set_entry e en (mem i))).
Proof.
  intros [Ht He Hn Hh Ha] Hin Hl. split; try done.
  - intros x Hx. unfold entry_ok. cbn [mem with_mem]. rewrite set_entry_lookup. case_decide; [by eexists _, _|].
    by apply He.
  - apply heap_ok_set; [done| |].
    + intros Hx. by apply (Ha e).
    + destruct (He e Hin) as (en' & l' & -> & _). eauto.
Qed.

Lemma ids_set i v v' e en l : store_ok i -> al_get v (bindings i) = Some e -> ns_inv (set en) l ->
  ids (with_mem i (set_entry e en (mem i))) v' = if decide (keq v v') then l else ids i v'.
Proof.
  intros Hi Hg Hl. unfold ids, ids_at. cbn [bindings tree with_mem mem].
  change (bindings (with_mem i (set_entry e en (mem i)))) with (bindings i). case_decide as Hk.
  - rewrite <- (al_get_keq v v') by done. rewrite Hg, set_entry_lookup, decide_True by done.
    by apply ToArray_spec.
  - destruct (al_get v' (bindings i)) as [e'|] eqn:Hg'; [|done]. rewrite set_entry_lookup.
    case_decide; [|done]. subst. exfalso. apply Hk. by apply (al_get_key v v' e' (bindings i) (so_nodup i Hi)).
Qed.

Lemma ids_entry i v e en l : al_get v (bindings i) = Some e -> heap (mem i) !! e = Some en ->
  ns_inv (set en) l -> ids i v = l.
Proof. intros Hg He Hl. unfold ids, ids_at. rewrite Hg, He. by apply ToArray_spec. Qed.

(** ** The critical sections *)

(** Membership of a key's ids with one more, or one fewer, id. *)
Definition with_id v (x : Z) i i' : Prop :=
  forall v' y, y ∈ ids i' v' <-> (keq v v' /\ y = x) \/ y ∈ ids i v'.
Definition without_id v (x : Z) i i' : Prop :=
  forall v' y, y ∈ ids i' v' <-> y ∈ ids i v' /\ ~ (keq v v' /\ y = x).
Definition same_ids i i' : Prop := forall v, ids i' v = ids i v.

Lemma add_section i v x e en d : store_ok i -> inline_id x -> al_get v (bindings i) = Some e ->
  heap (mem i) !! e = Some en -> exists l,
  let i' := with_mem i (set_entry e (mkEntry d (Add x (set en)).1) (mem i)) in
  ns_inv (Add x (set en)).1 l /\ l <> [] /\ store_ok i' /\ with_id v x i i'.
Proof.
  intros Hi Hx Hg He. destruct (so_entry i Hi e (al_get_in _ _ _ Hg)) as (en' & l & He' & Hl).
  rewrite He in He'. injection He' as <-.
  destruct (Add_spec x (set en) l Hl Hx) as (l' & H1 & H2). exists l'. cbv zeta. spl; [done| | |].
  - intros ->. apply (not_elem_of_nil x), H2. by left.
  - by apply (store_ok_set i e (mkEntry d _) l'); [done|eapply al_get_in|].
  - intros v' y. rewrite (ids_set i v v' e _ l') by done. case_decide as Hk.
    + rewrite (H2 y), <- (ids_entry i v e en l Hg He Hl). unfold ids. rewrite (al_get_keq v v') by done. tauto.
    + tauto.
Qed.

Lemma remove_section i v x e en : store_ok i -> al_get v (bindings i) = Some e ->
  heap (mem i) !! e = Some en -> exists l,
  let s' := (Remove x (set en)).1 in
  let i' := with_mem i (set_entry e (mkEntry (dead en) s') (mem i)) in
  ns_inv s' l /\ store_ok i' /\ without_id v x i i' /\
  (ids i v <> [] -> (Remove x (set en)).2 && IsEmpty s' = bool_decide (l = [])) /\
  ((Remove x (set en)).2 && IsEmpty s' = true -> l = []).
Proof.
  intros Hi Hg He. destruct (so_entry i Hi e (al_get_in _ _ _ Hg)) as (en' & l & He' & Hl).
  rewrite He in He'. injection He' as <-.
  destruct (Remove_spec x (set en) l Hl) as (l' & H1 & H2 & H3). exists l'. cbv zeta. spl; [done| | | |].
  - by apply (store_ok_set i e (mkEntry (dead en) _) l'); [done|eapply al_get_in|].
  - intros v' y. rewrite (ids_set i v v' e _ l') by done. case_decide as Hk.
    + rewrite (H2 y), <- (ids_entry i v e en l Hg He Hl). unfold ids. rewrite (al_get_keq v v') by done. tauto.
    + tauto.
  - rewrite (ids_entry i v e en l Hg He Hl). intros Hne. rewrite H3, (IsEmpty_spec _ _ H1) by done.
    by rewrite andb_diag.
  - rewrite (IsEmpty_spec _ _ H1). intros H. by apply andb_true_iff in H as [_ H%bool_decide_eq_true].
Qed.

(** Publishing a new key with a fresh entry that holds one id. *)
Lemma publish_insert_section i v x : store_ok i -> inline_id x -> al_get v (bindings i) = None ->
  exists i' e, publish_insert v x i = Some i' /\ store_ok i' /\ with_id v x i i' /\
    bindings i' = al_insert v e (bindings i) /\
    (e ∈ arena i \/ heap (mem i) !! e = None) /\
    heap (mem i') !! e = Some (mkEntry false (setSingleton x)) /\
    (forall y, is_Some (heap (mem i) !! y) -> y <> e -> heap (mem i') !! y = heap (mem i) !! y) /\
    (forall y, y ∈ arena i' -> y ∈ arena i \/ heap (mem i) !! y = None) /\
    (tree_potential (tree i') <= tree_potential (tree i) + 1)%Z.
Proof.
  intros [Ht He Hn Hh Ha] Hx Hg. unfold publish_insert, cloneInsert.
  destruct (alloc_spec _ _ Hh) as (e & a' & st' & Ea & Hh' & Hea & Hez & Hkeep & Hnew).
  rewrite Ea. cbn [mbind option_bind]. rewrite Hez. cbn [mbind option_bind].
  destruct (insert_tree_spec (tree i) v e Ht Hg) as (t' & E & Ht' & Hk & Hpot).
  rewrite E. cbn [mbind option_bind]. exists (mkIndex t' a' (set_entry e (mkEntry false (setSingleton x)) st')), e.
  assert (He0 : e ∉ locs i).
  { intros Hin. destruct (Hnew e ltac:(left)) as [H|H]; [by apply (Ha e)|].
    destruct (He e Hin) as (en & l & Hen & _). congruence. }
  assert (Hheap : forall y, e <> y -> is_Some (heap (mem i) !! y) ->
    heap (set_entry e (mkEntry false (setSingleton x)) st') !! y = heap (mem i) !! y).
  { intros y Hy Hs. rewrite set_entry_lookup, decide_False by done. by apply Hkeep. }
  assert (Hperm : locs (mkIndex t' a' (set_entry e (mkEntry false (setSingleton x)) st')) ≡ₚ e :: locs i).
  { unfold locs, bindings. cbn [tree]. rewrite Hk. apply locs_insert; [by apply tree_ascending|done]. }
  assert (Hsome : forall y, y ∈ locs i -> is_Some (heap (mem i) !! y)).
  { intros y Hy. destruct (He y Hy) as (en & l & -> & _). eauto. }
  cbn [mem]. spl; [done| | |done| |by rewrite set_entry_lookup, decide_True| | |exact Hpot].
  - split; [done| | | |].
    + intros y Hy. rewrite Hperm in Hy. unfold entry_ok. cbn [mem]. apply elem_of_cons in Hy as [->|Hy].
      * exists (mkEntry false (setSingleton x)), [x]. split; [|by constructor].
        by rewrite set_entry_lookup, decide_True.
      * rewrite Hheap; [by apply He|by intros ->|by apply Hsome].
    + rewrite Hperm. by apply NoDup_cons.
    + apply heap_ok_set; [done|done|rewrite Hez; eauto].
    + intros y Hy Hin. rewrite Hperm in Hin. apply elem_of_cons in Hin as [->|Hin]; [done|].
      destruct (Hnew y ltac:(by right)) as [H|H]; [by apply (Ha y)|]. destruct (Hsome y Hin). congruence.
  - intros v' y. unfold ids. change (bindings (mkIndex t' a' (set_entry e (mkEntry false (setSingleton x)) st'))) with (kvs (root t')).
    rewrite Hk. cbn [mem]. destruct (decide (keq v v')) as [Hv|Hv].
    + rewrite <- (al_get_keq v v'), al_get_insert by done. unfold ids_at.
      rewrite set_entry_lookup, decide_True by done. cbn [set].
      rewrite (ToArray_spec _ _ (inv_single x Hx)). change (kvs (root (tree i))) with (bindings i).
      rewrite <- (al_get_keq v v'), Hg by done. rewrite list_elem_of_singleton, elem_of_nil. tauto.
    + rewrite al_get_insert_ne by (try apply tree_ascending; done). change (kvs (root (tree i))) with (bindings i).
      destruct (al_get v' (bindings i)) as [e'|] eqn:Hg'; [|rewrite elem_of_nil; tauto].
      assert (Hin : e' ∈ locs i) by by eapply al_get_in.
      unfold ids_at. rewrite Hheap; [tauto|by intros ->|by apply Hsome].
  - apply Hnew. left.
  - intros y Hy Hne. apply Hheap; [done|done].
  - intros y Hy. apply Hnew. by right.
Qed.

(** Publishing a snapshot without a key, whose entry is left behind. *)
Lemma publish_remove_section i v : store_ok i -> exists i', publish_remove v i = Some i' /\
  store_ok i' /\ bindings i' = al_remove v (bindings i) /\ arena i' = arena i /\ mem i' = mem i /\
  (tree_potential (tree i') <= tree_potential (tree i))%Z /\ (ids i v = [] -> same_ids i i').
Proof.
  intros [Ht He Hn Hh Ha]. unfold publish_remove.
  destruct (cloneRemove_spec (tree i) v Ht) as (t' & E & Ht' & Hk & Hpot & _).
  rewrite E. cbn [mbind option_bind]. eexists. split; [done|].
  assert (Hl : forall e, e ∈ locs (mkIndex t' (arena i) (mem i)) -> e ∈ locs i).
  { intros e. unfold locs, bindings. cbn [tree]. rewrite Hk. apply locs_remove. }
  spl; try done.
  - split; try done.
    + intros e Hin. apply He. by apply Hl.
    + unfold locs, bindings. cbn [tree]. rewrite Hk. by apply locs_remove_nodup.
    + intros e Hin Hx. apply (Ha e Hin). by apply Hl.
  - intros H0 v'. unfold ids in *. change (bindings (mkIndex t' (arena i) (mem i))) with (kvs (root t')). rewrite Hk.
    cbn [mem]. change (kvs (root (tree i))) with (bindings i). destruct (decide (keq v v')) as [Hv|Hv].
    + rewrite <- !(al_get_keq v v') by done. rewrite al_get_remove. by rewrite H0.
    + by rewrite al_get_remove_ne.
Qed.
End inv.
