(* ===== verification/BtreeIndexProps.v ===== *)
(** * The ordered index as one caller sees it

    [Index.Insert] and [Index.Delete] against a map from keys to sets of node ids,
    and every query against the state they leave. *)

From Stdlib Require Import ZArith Lia.
From stdpp Require Import gmap.
From S2P Require Import Prelude Ordered NodeSet NodeSetProps Bplus BplusInv BplusOps BplusCursor BtreeIndex BtreeIndexInv.

Section index.
Context {V B : Type} `{OV : Ordered V} {LV : OrderedLaws V} `{RB : Roaring B} {RL : RoaringLaws B}.
Implicit Types (i : Index V B) (v k : V) (e : loc).

Lemma New_ok : index_ok (New (V := V) (B := B)).
Proof.
  assert (Hn : forall e, e ∉ locs (New (V := V) (B := B))) by (intros e; apply not_elem_of_nil).
  split; [split|].
  - split; [done|by left].
  - intros e He. by destruct (Hn e).
  - constructor.
  - split; [constructor|intros e He; by apply not_elem_of_nil in He|].
    intros e [en He]. simpl in He. by rewrite lookup_empty in He.
  - intros e _. apply Hn.
  - intros e He. by destruct (Hn e).
Qed.

Lemma live_ids i v : index_ok i -> al_get v (bindings i) <> None -> ids i v <> [].
Proof.
  intros [Hi Hl] Hg. destruct (al_get v (bindings i)) as [e|] eqn:E; [|done].
  destruct (Hl e (al_get_in _ _ _ E)) as (en & l & He & _ & Hn & Hne). by rewrite (ids_entry i v e en l).
Qed.

Lemma dead_ids i v : al_get v (bindings i) = None -> ids i v = [].
Proof. unfold ids. by intros ->. Qed.

Lemma get_bindings i v : store_ok i -> get (tree i) v = Some (al_get v (bindings i)).
Proof. intros Hi. apply get_spec, (so_tree i Hi). Qed.

(** The entries other than one keep their state. *)
Lemma live_set i e en : (forall x, x ∈ locs i -> x <> e -> live_entry (mem i) x) ->
  live_entry (set_entry e en (mem i)) e ->
  forall x, x ∈ locs i -> live_entry (set_entry e en (mem i)) x.
Proof.
  intros Ho He x Hx. destruct (decide (x = e)) as [->|Hne]; [done|].
  destruct (Ho x Hx Hne) as (en' & l & H1 & H2). exists en', l. split; [|done].
  by rewrite set_entry_lookup, decide_False.
Qed.

(** ** Updates *)

Lemma publish_insert_ok i v x : index_ok i -> inline_id x -> al_get v (bindings i) = None ->
  exists i', publish_insert v x i = Some i' /\ index_ok i' /\ with_id v x i i' /\
    (tree_potential (tree i') <= tree_potential (tree i) + 1)%Z.
Proof.
  intros [Hi Hl] Hx Hg.
  destruct (publish_insert_section i v x Hi Hx Hg) as (i' & e & E & Hi' & Hw & Hb & Hnew & He & Hkeep & _ & Hp).
  exists i'. spl; [done| |done|done]. split; [done|]. intros y Hy.
  assert (Hperm : locs i' ≡ₚ e :: locs i).
  { unfold locs. rewrite Hb. apply locs_insert; [apply tree_ascending, (so_tree i Hi)|done]. }
  rewrite Hperm in Hy. apply elem_of_cons in Hy as [->|Hy].
  - eexists _, [x]. split; [done|]. spl; [done|by constructor|done].
  - destruct (Hl y Hy) as (en & l & Hen & Hd). exists en, l. split; [|done].
    rewrite Hkeep; [done|by rewrite Hen|]. intros ->. destruct Hnew as [Ha|Hn]; [|congruence].
    by apply (so_apart i Hi e).
Qed.

Lemma Insert_spec i v x : index_ok i -> inline_id x ->
  exists i', Insert v x i = Some i' /\ index_ok i' /\ with_id v x i i' /\
    (tree_potential (tree i') <= tree_potential (tree i) + 1)%Z.
Proof.
  intros Hok Hx. pose proof Hok as [Hi Hl]. unfold Insert. rewrite get_bindings by done. cbn [mbind option_bind].
  destruct (al_get v (bindings i)) as [e|] eqn:Hg.
  - destruct (Hl e (al_get_in _ _ _ Hg)) as (en & l & He & Hd & _).
    unfold add_to_entry. rewrite He. cbn [mbind option_bind]. rewrite Hd. cbn [mbind option_bind].
    destruct (add_section i v x e en false Hi Hx Hg He) as (l' & H1 & H2 & H3 & H4).
    eexists. split; [done|]. spl; [|done|simpl; lia]. split; [done|]. cbn [mem with_mem].
    apply (live_set i e); [intros; by apply Hl|]. eexists _, l'. by rewrite set_entry_lookup, decide_True.
  - unfold insertStructural. rewrite get_bindings by done. cbn [mbind option_bind]. rewrite Hg.
    by apply publish_insert_ok.
Qed.

Lemma Delete_spec i v x : index_ok i ->
  exists i', Delete v x i = Some i' /\ index_ok i' /\ without_id v x i i' /\
    (tree_potential (tree i') <= tree_potential (tree i))%Z.
Proof.
  intros Hok. pose proof Hok as [Hi Hl]. unfold Delete. rewrite get_bindings by done. cbn [mbind option_bind].
  destruct (al_get v (bindings i)) as [e|] eqn:Hg.
  2: { exists i. spl; [done|done| |lia]. intros v' y. split; [|tauto]. intros Hy. split; [done|].
       intros [Hk ->]. unfold ids in Hy. rewrite <- (al_get_keq v v'), Hg in Hy by done. by apply not_elem_of_nil in Hy. }
  destruct (Hl e (al_get_in _ _ _ Hg)) as (en & l & He & Hd & Hn & Hne).
  destruct (remove_section i v x e en Hi Hg He) as (l' & H1 & H2 & H3 & H4 & _). cbv zeta in *. rewrite Hd in *.
  rewrite (ids_entry i v e en l) in H4 by done. specialize (H4 Hne).
  unfold remove_from_entry. rewrite He. cbn [mbind option_bind]. rewrite Hd.
  destruct (Remove x (set en)) as [s now]. cbn [fst snd] in *. cbn [mbind option_bind]. rewrite H4.
  set (i1 := with_mem i (set_entry e (mkEntry false s) (mem i))) in *.
  assert (Hlk : heap (mem i1) !! e = Some (mkEntry false s)).
  { unfold i1. cbn [mem with_mem]. by rewrite set_entry_lookup, decide_True. }
  destruct (bool_decide (l' = [])) eqn:El.
  - apply bool_decide_eq_true in El. subst l'. unfold detach. rewrite get_bindings by done. cbn [mbind option_bind].
    change (bindings i1) with (bindings i). rewrite Hg. unfold kill_entry. rewrite Hlk.
    cbn [mbind option_bind dead set]. rewrite (IsEmpty_spec _ _ H1). cbn [bool_decide decide_rel negb orb].
    rewrite bool_decide_eq_true_2 by done. cbn [negb orb mbind option_bind].
    set (i2 := with_mem i1 (set_entry e (mkEntry true s) (mem i1))).
    assert (Hi2 : store_ok i2) by (apply (store_ok_set i1 e (mkEntry true s) []); [done|by eapply al_get_in|done]).
    assert (Hsame : same_ids i1 i2).
    { intros v'. unfold i2. rewrite (ids_set i1 v v' e (mkEntry true s) []) by done. case_decide as Hk; [|done].
      unfold ids. rewrite <- (al_get_keq v v') by done. change (bindings i1) with (bindings i). rewrite Hg.
      unfold ids_at. rewrite Hlk. cbn [set]. symmetry. by apply ToArray_spec. }
    destruct (publish_remove_section i2 v Hi2) as (i3 & E & Hi3 & Hb & _ & Hm & Hp & Hids).
    assert (ids i2 v = []) as H0.
    { unfold i2. rewrite (ids_set i1 v v e (mkEntry true s) []) by done. by rewrite decide_True by reflexivity. }
    specialize (Hids H0). exists i3. spl; [exact E| | |exact Hp].
    + split; [done|]. intros y Hy.
      assert (Hye : y <> e).
      { intros ->. unfold locs in Hy. rewrite Hb in Hy. change (bindings i2) with (bindings i) in Hy.
        apply list_elem_of_fmap in Hy as ((k1 & e1) & Ee & Hy). simpl in Ee. subst e1.
        apply list_elem_of_filter in Hy as [Hk1 Hy]. apply Hk1. simpl.
        apply (al_get_key k1 v e (bindings i) (so_nodup i Hi)); [|done].
        eapply al_get_elem; [apply tree_ascending, (so_tree i Hi)|exact Hy|reflexivity]. }
      assert (Hyl : y ∈ locs i).
      { unfold locs in *. rewrite Hb in Hy. change (bindings i2) with (bindings i) in Hy. by apply (locs_remove v). }
      destruct (Hl y Hyl) as (en' & l' & Hy1 & Hy2). exists en', l'. split; [|done].
      rewrite Hm. unfold i2, i1. cbn [mem with_mem]. by rewrite !set_entry_lookup, !decide_False by congruence.
    + intros v' y. by rewrite (Hids v'), (Hsame v').
  - exists i1. spl; [done| |done|unfold i1; simpl; lia]. split; [done|].
    unfold i1. cbn [mem with_mem]. apply (live_set i e); [intros; by apply Hl|].
    exists (mkEntry false s), l'. apply bool_decide_eq_false in El. by rewrite set_entry_lookup, decide_True.
Qed.

(** ** Histories *)

Inductive idx_op := OpInsert (v : V) (x : Z) | OpDelete (v : V) (x : Z).

Definition idx_step (o : idx_op) i : option (Index V B) :=
  match o with OpInsert v x => Insert v x i | OpDelete v x => Delete v x i end.

Fixpoint idx_run (os : list idx_op) i : option (Index V B) :=
  match os with [] => Some i | o :: os => i' ← idx_step o i; idx_run os i' end.

(** The abstract index: whether it holds id [y] under key [w] after an operation. *)
Definition holds_after (w : V) (y : Z) (m : bool) (o : idx_op) : bool :=
  match o with
  | OpInsert v x => m || (bool_decide (keq v w) && (y =? x)%Z)
  | OpDelete v x => m && negb (bool_decide (keq v w) && (y =? x)%Z)
  end.

Definition holds (os : list idx_op) (w : V) (y : Z) : bool := fold_left (holds_after w y) os false.

Definition idx_op_ok (o : idx_op) : Prop := match o with OpInsert _ x => inline_id x | _ => True end.

Lemma idx_step_spec o i : index_ok i -> idx_op_ok o -> exists i', idx_step o i = Some i' /\ index_ok i' /\
  (forall w y, bool_decide (y ∈ ids i' w) = holds_after w y (bool_decide (y ∈ ids i w)) o) /\
  (tree_potential (tree i') <= tree_potential (tree i) + 1)%Z.
Proof.
  intros Hi Ho. destruct o as [v x|v x]; cbn [idx_step holds_after].
  - destruct (Insert_spec i v x Hi Ho) as (i' & E & Hi' & Hw & Hp). exists i'. spl; try done. intros w y.
    apply eq_true_iff_eq. rewrite orb_true_iff, andb_true_iff, !bool_decide_eq_true, Z.eqb_eq, (Hw w y). tauto.
  - destruct (Delete_spec i v x Hi) as (i' & E & Hi' & Hw & Hp). exists i'. spl; try done; [|lia]. intros w y.
    apply eq_true_iff_eq.
    rewrite andb_true_iff, negb_true_iff, andb_false_iff, bool_decide_eq_false, !bool_decide_eq_true, Z.eqb_neq, (Hw w y).
    destruct (decide (keq v w)), (decide (y = x)); tauto.
Qed.

Lemma idx_run_spec os : Forall idx_op_ok os -> forall i, index_ok i -> exists i', idx_run os i = Some i' /\
  index_ok i' /\
  (forall w y, bool_decide (y ∈ ids i' w) = fold_left (holds_after w y) os (bool_decide (y ∈ ids i w))) /\
  (tree_potential (tree i') <= tree_potential (tree i) + Z.of_nat (length os))%Z.
Proof.
  induction 1 as [|o os Ho _ IH]; intros i Hi.
  - exists i. spl; try done. simpl. lia.
  - destruct (idx_step_spec o i Hi Ho) as (i1 & E1 & Hi1 & Hw1 & Hp1).
    destruct (IH i1 Hi1) as (i2 & E2 & Hi2 & Hw2 & Hp2). exists i2. cbn [idx_run]. rewrite E1. cbn [mbind option_bind].
    spl; [done|done| |cbn [length]; lia]. intros w y. rewrite Hw2, Hw1. done.
Qed.

(** Fewer updates than any machine can make keep the tree within the cursor's
    sixteen frames. *)
Definition few {A} (os : list A) : Prop := (Z.of_nat (length os) < 2 ^ 101)%Z.

Lemma run_from_new os : Forall idx_op_ok os -> few os -> exists i, idx_run os New = Some i /\ index_ok i /\
  (forall w y, y ∈ ids i w <-> holds os w y = true) /\ (height (tree i) <= S maxCursorDepth)%nat.
Proof.
  intros Ho Hf. destruct (idx_run_spec os Ho New New_ok) as (i & E & Hi & Hw & Hp). exists i. spl; try done.
  - intros w y. unfold holds. rewrite <- (bool_decide_eq_true (y ∈ ids i w)), Hw. done.
  - apply tree_height_bound; [apply (so_tree i (proj1 Hi))|]. change (tree_potential (tree New)) with 1%Z in Hp.
    unfold few in Hf. assert (2 ^ 101 + 1 < 64 ^ 17)%Z by done. lia.
Qed.
End index.

(** * The ordered index: queries

    Point and range queries of a quiescent index, in terms of the ids it holds
    under each key. *)

Section queries.
Context {V B : Type} `{OV : Ordered V} {LV : OrderedLaws V} `{RB : Roaring B} {RL : RoaringLaws B}.
Context (i : Index V B) (Hi : index_ok i).
Implicit Types (v k lo hi : V) (e : loc).

(** ** Point queries *)

Lemma entry_set_spec e : e ∈ locs i -> exists s, entry_set e i = Some s /\ ns_inv s (ids_at (mem i) e) /\
  ids_at (mem i) e <> [].
Proof.
  intros He. destruct (proj2 Hi e He) as (en & l & E & _ & Hl & Hne). exists (set en).
  unfold entry_set, ids_at. rewrite E. cbn [fmap option_fmap option_map]. by rewrite (ToArray_spec _ _ Hl).
Qed.

Lemma point_cases v :
  (al_get v (bindings i) = None /\ get (tree i) v = Some None /\ ids i v = []) \/
  exists e s, get (tree i) v = Some (Some e) /\ entry_set e i = Some s /\ ns_inv s (ids i v).
Proof.
  rewrite (get_bindings i v (proj1 Hi)). destruct (al_get v (bindings i)) as [e|] eqn:Hg.
  - right. destruct (entry_set_spec e (al_get_in _ _ _ Hg)) as (s & E & Hs & _). exists e, s.
    unfold ids. by rewrite Hg.
  - left. by rewrite (dead_ids i v Hg).
Qed.

Lemma Lookup_spec v : exists b, Lookup v i = Some b /\ rb_ToArray b = ids i v.
Proof.
  unfold Lookup. destruct (point_cases v) as [(_ & -> & ->)|(e & s & -> & E & Hs)]; cbn [mbind option_bind].
  - exists rb_New. split; [done|]. apply rb_New_spec.
  - rewrite E. cbn [mbind option_bind]. pose proof (Bitmap_spec s _ Hs) as HB.
    destruct (Bitmap s) as [bm [|]]; eexists; (split; [done|]); [by rewrite rb_Clone_spec|done].
Qed.

Lemma LookupAppend_spec v dst : LookupAppend v dst i = Some (dst ++ ids i v).
Proof.
  unfold LookupAppend. destruct (point_cases v) as [(_ & -> & ->)|(e & s & -> & E & Hs)]; cbn [mbind option_bind].
  - by rewrite app_nil_r.
  - rewrite E. cbn [mbind option_bind]. by rewrite (AppendTo_spec s _ dst Hs).
Qed.

Lemma IndexCardinality_spec v : IndexCardinality v i = Some (Z.of_nat (length (ids i v))).
Proof.
  unfold IndexCardinality. destruct (point_cases v) as [(_ & -> & ->)|(e & s & -> & E & Hs)]; cbn [mbind option_bind].
  - done.
  - rewrite E. cbn [mbind option_bind]. by rewrite (Cardinality_spec s _ Hs).
Qed.

Lemma DistinctValues_spec : DistinctValues i = length (bindings i).
Proof. apply (so_tree i (proj1 Hi)). Qed.

(** ** Ids in an interval of keys *)

Definition in_range lo hi v : Prop := ~ klt v lo /\ ~ klt hi v.

(** The bindings of an interval, and those from a key on. *)
Definition range_bindings lo hi : list (V * loc) := filter (fun p => ~ klt hi p.1) (al_from lo (bindings i)).

Definition total_ids (l : list (V * loc)) : Z :=
  foldr (fun p n => Z.of_nat (length (ids_at (mem i) p.2)) + n)%Z 0%Z l.

Lemma binding_ids k e y : (k, e) ∈ bindings i -> y ∈ ids_at (mem i) e -> y ∈ ids i k.
Proof.
  intros Hin Hy. unfold ids. rewrite (al_get_elem k k e); [done| |done|reflexivity].
  apply tree_ascending, (so_tree i (proj1 Hi)).
Qed.

Lemma ids_binding v y : y ∈ ids i v -> exists k e, (k, e) ∈ bindings i /\ keq k v /\ y ∈ ids_at (mem i) e.
Proof.
  unfold ids. destruct (al_get v (bindings i)) as [e|] eqn:Hg; [|by intros ?%not_elem_of_nil].
  intros Hy. apply al_get_Some in Hg as (k & Hk & Hin). eauto.
Qed.

(** An interval query sees exactly the ids held under the keys of the interval. *)
Lemma range_ids P `{!forall k, Decision (P k)} y : Proper (keq ==> iff) P ->
  (exists k e, (k, e) ∈ filter (fun p => P p.1) (bindings i) /\ y ∈ ids_at (mem i) e) <->
  exists v, P v /\ y ∈ ids i v.
Proof.
  intros HP. split.
  - intros (k & e & Hin & Hy). apply list_elem_of_filter in Hin as [Hk Hin]. exists k. split; [done|].
    by eapply binding_ids.
  - intros (v & Hv & Hy). destruct (ids_binding v y Hy) as (k & e & Hin & Hk & Hye). exists k, e. split; [|done].
    apply list_elem_of_filter. split; [|done]. simpl. by rewrite Hk.
Qed.

Lemma from_locs lo p : p ∈ al_from lo (bindings i) -> p.2 ∈ locs i.
Proof.
  intros Hp. apply list_elem_of_filter in Hp as [_ Hp]. apply list_elem_of_fmap. eauto.
Qed.

Lemma from_ascending lo : ascending (al_from lo (bindings i)).
Proof. apply ascending_filter, tree_ascending, (so_tree i (proj1 Hi)). Qed.

(** Beyond the first key above [hi] every key is. *)
Lemma beyond hi k e (l : list (V * loc)) : ascending ((k, e) :: l) -> klt hi k ->
  filter (fun p => ~ klt hi p.1) ((k, e) :: l) = [].
Proof.
  intros Ha Hk. apply filter_none. apply StronglySorted_cons in Ha as [Ha _]. constructor.
  - intros H. by apply H.
  - eapply Forall_impl; [exact Ha|]. intros p Hp H. apply H. by eapply klt_trans.
Qed.

Section deep.
Context (Hdeep : (height (tree i) <= S maxCursorDepth)%nat).

Lemma seek_scan {A R} (body : A -> V -> loc -> option (A + R)) acc lo : exists c,
  seek (tree i) lo = Some c /\ scan (scan_fuel i) body acc c = list_scan body (al_from lo (bindings i)) acc.
Proof.
  destruct (seek_spec (tree i) lo (so_tree i (proj1 Hi)) Hdeep) as (c & E & H1 & H2 & H3).
  exists c. split; [done|]. rewrite (scan_spec body (height (tree i))); [by rewrite H3|done|done|].
  rewrite H3. unfold scan_fuel. rewrite (proj1 (so_tree i (proj1 Hi))).
  pose proof (length_filter (fun p => ~ klt p.1 lo) (bindings i)). unfold al_from, bindings in *. lia.
Qed.

Lemma RangeFrom_spec lo : exists b, RangeFrom lo i = Some b /\
  forall y, y ∈ rb_ToArray b <-> exists v, ~ klt v lo /\ y ∈ ids i v.
Proof.
  unfold RangeFrom. destruct (seek_scan (A := B) (R := B) (fun out _ e => s ← entry_set e i; Some (inl (OrInto s out))) rb_New lo)
    as (c & E1 & E2). rewrite E1. cbn [mbind option_bind]. rewrite E2. cbn [mbind option_bind].
  assert (Hl : forall l out, (forall p, p ∈ l -> p.2 ∈ locs i) -> exists b,
    list_scan (R := B) (fun out _ e => s ← entry_set e i; Some (inl (OrInto s out))) l out = Some (inl b) /\
    forall y, y ∈ rb_ToArray b <-> (exists k e, (k, e) ∈ l /\ y ∈ ids_at (mem i) e) \/ y ∈ rb_ToArray out).
  { induction l as [|[k e] l IH]; intros out Hlocs.
    - exists out. split; [done|]. intros y. split; [tauto|]. intros [(k & e & Hin & _)|?]; [|done].
      by apply not_elem_of_nil in Hin.
    - cbn [list_scan]. destruct (entry_set_spec e) as (s & -> & Hs & _); [by apply (Hlocs (k, e)); left|].
      cbn [mbind option_bind]. destruct (IH (OrInto s out)) as (b & -> & Hb); [intros p Hp; apply Hlocs; by right|].
      exists b. split; [done|]. intros y. rewrite Hb, (OrInto_spec s _ out y Hs). split.
      + intros [(k' & e' & Hin & Hy)|[Hy|Hy]]; [left; exists k', e'|left; exists k, e|tauto]; (split; [|done]);
          [by right|by left].
      + intros [(k' & e' & Hin & Hy)|Hy]; [|tauto]. apply elem_of_cons in Hin as [Heq|Hin]; [|eauto]. simplify_eq. tauto. }
  destruct (Hl (al_from lo (bindings i)) rb_New) as (b & -> & Hb); [apply from_locs|].
  exists b. split; [done|]. intros y. rewrite Hb, rb_New_spec, elem_of_nil.
  rewrite <- (range_ids (fun v => ~ klt v lo)); [tauto|]. intros a b' Hab. by rewrite Hab.
Qed.

Lemma Range_spec lo hi : exists b, Range lo hi i = Some b /\
  forall y, y ∈ rb_ToArray b <-> exists v, in_range lo hi v /\ y ∈ ids i v.
Proof.
  unfold Range. destruct (keyLess hi lo) eqn:Hhl.
  - exists rb_New. split; [done|]. intros y. rewrite rb_New_spec, elem_of_nil. split; [done|].
    intros (v & [H1 H2] & _). apply H2. by eapply klt_le_trans.
  - set (body := fun out k e => _).
    assert (Hbody : forall out k e, body out k e = if keyLess hi k then Some (inr out)
      else s ← entry_set e i; Some (inl (OrInto s out))) by done.
    clearbody body. destruct (seek_scan (A := B) (R := B) body rb_New lo) as (c & E1 & E2). rewrite E1. cbn [mbind option_bind]. rewrite E2.
    cbn [mbind option_bind].
    assert (Hl : forall l out, (forall p, p ∈ l -> p.2 ∈ locs i) -> ascending l -> exists r,
      list_scan body l out = Some r /\
      forall y, y ∈ rb_ToArray (finish r) <->
        (exists k e, (k, e) ∈ filter (fun p => ~ klt hi p.1) l /\ y ∈ ids_at (mem i) e) \/ y ∈ rb_ToArray out).
    { induction l as [|[k e] l IH]; intros out Hlocs Ha.
      - exists (inl out). split; [done|]. intros y. split; [tauto|]. intros [(k & e & Hin & _)|?]; [|done].
        by apply not_elem_of_nil in Hin.
      - cbn [list_scan]. rewrite Hbody. destruct (keyLess hi k) eqn:Hk.
        + exists (inr out). split; [done|]. intros y. rewrite (beyond hi k e l Ha Hk). cbn [finish].
          split; [tauto|]. intros [(k' & e' & Hin & _)|?]; [|done]. by apply not_elem_of_nil in Hin.
        + destruct (entry_set_spec e) as (s & -> & Hs & _); [by apply (Hlocs (k, e)); left|]. cbn [mbind option_bind].
          pose proof (proj2 (proj1 (StronglySorted_cons _ _ _) Ha)) as Ha'.
          destruct (IH (OrInto s out)) as (r & -> & Hr); [intros p Hp; apply Hlocs; by right|done|].
          exists r. split; [done|]. intros y. rewrite Hr, (OrInto_spec s _ out y Hs).
          rewrite filter_cons_True by (unfold klt; simpl; by rewrite Hk). split.
          * intros [(k' & e' & Hin & Hy)|[Hy|Hy]]; [left; exists k', e'|left; exists k, e|tauto]; (split; [|done]);
              [by right|by left].
          * intros [(k' & e' & Hin & Hy)|Hy]; [|tauto].
            apply elem_of_cons in Hin as [Heq|Hin]; [|eauto]. simplify_eq. tauto. }
    destruct (Hl (al_from lo (bindings i)) rb_New) as (r & -> & Hr); [apply from_locs|apply from_ascending|].
    cbn [mbind option_bind]. eexists. split; [done|]. intros y. rewrite Hr, rb_New_spec, elem_of_nil.
    unfold al_from. rewrite list_filter_filter. rewrite <- (range_ids (in_range lo hi)).
    + unfold in_range. split; [intros [(k & e & Hin & Hy)|?]; [|done]|intros (k & e & Hin & Hy); left];
        exists k, e; (split; [|done]); revert Hin; rewrite !list_elem_of_filter; tauto.
    + intros a b' Hab. unfold in_range. by rewrite Hab.
Qed.

(** Every entry of a quiescent index holds an id, so the first row is the first key
    of the interval and its least id. *)
Lemma RangeFirst_spec lo hi : exists r, RangeFirst lo hi i = Some r /\
  match r with
  | None => forall v, in_range lo hi v -> ids i v = []
  | Some (k, m) => in_range lo hi k /\ head (ids i k) = Some m /\
      forall v, in_range lo hi v -> ids i v <> [] -> ~ klt v k
  end.
Proof.
  unfold RangeFirst. destruct (keyLess hi lo) eqn:Hhl.
  - exists None. split; [done|]. intros v [H1 H2]. exfalso. apply H2. by eapply klt_le_trans.
  - set (body := fun (acc : option (V * Z)) k e => _).
    assert (Hbody : forall acc k e, body acc k e = if keyLess hi k then Some (inr None)
      else s ← entry_set e i; if IsEmpty s then Some (inl None) else Some (inr (Some (k, Minimum s)))) by done.
    clearbody body.
    destruct (seek_scan (A := option (V * Z)) (R := option (V * Z)) body None lo) as (c & E1 & E2). rewrite E1. cbn [mbind option_bind]. rewrite E2. cbn [mbind option_bind].
    assert (Hin : forall v, in_range lo hi v -> ids i v <> [] -> exists p, p ∈ al_from lo (bindings i) /\ keq p.1 v).
    { intros v [Hv _] Hne. destruct (ids i v) as [|y r] eqn:E; [done|].
      destruct (ids_binding v y) as (k & e & Hb & Hk & _); [rewrite E; left|].
      exists (k, e). split; [|done]. apply list_elem_of_filter. split; [|done]. simpl. by rewrite Hk. }
    pose proof (from_ascending lo) as Hasc. pose proof (from_locs lo) as Hlocs.
    assert (Hsub : forall p, p ∈ al_from lo (bindings i) -> p ∈ bindings i /\ ~ klt p.1 lo).
    { intros p Hp. by apply list_elem_of_filter in Hp as [? ?]. }
    destruct (al_from lo (bindings i)) as [|[k e] l].
    + eexists. split; [done|]. intros v Hv. destruct (ids i v) eqn:E; [done|].
      destruct (Hin v Hv) as (p & Hp & _); [by rewrite E|]. by apply not_elem_of_nil in Hp.
    + destruct (Hsub (k, e)) as [Hb Hk]; [by left|]. pose proof (proj1 (proj1 (StronglySorted_cons _ _ _) Hasc)) as Hl.
      assert (Hfirst : forall v, in_range lo hi v -> ids i v <> [] -> ~ klt v k).
      { intros v Hv Hne Hlt. destruct (Hin v Hv Hne) as (p & Hp & Hpk). rewrite <- Hpk in Hlt.
        apply elem_of_cons in Hp as [->|Hp]; [by apply klt_irrefl in Hlt|].
        rewrite Forall_forall in Hl. apply (klt_irrefl k). eapply klt_trans; [by apply (Hl p)|done]. }
      cbn [list_scan]. rewrite Hbody. destruct (keyLess hi k) eqn:Hhk.
      * eexists. split; [done|]. intros v Hv. destruct (ids i v) eqn:E; [done|].
        exfalso. apply (proj2 Hv). eapply klt_le_trans; [exact Hhk|]. apply Hfirst; [done|by rewrite E].
      * destruct (entry_set_spec e) as (s & -> & Hs & Hne); [by apply (Hlocs (k, e)); left|]. cbn [mbind option_bind].
        rewrite (IsEmpty_spec s _ Hs), bool_decide_eq_false_2 by done. cbn [mbind option_bind].
        eexists. split; [done|]. cbn [finish].
        assert (Hids : ids i k = ids_at (mem i) e).
        { unfold ids. rewrite (al_get_elem k k e); [done| |done|reflexivity].
          apply tree_ascending, (so_tree i (proj1 Hi)). }
        spl; [split; [done|unfold klt; by rewrite Hhk]| |done]. rewrite Hids.
        destruct (ids_at (mem i) e) as [|m r] eqn:Em; [done|]. simpl. f_equal. symmetry. by eapply Minimum_spec.
Qed.

(** ** Counting *)

Lemma total_nonneg l : (0 <= total_ids l)%Z.
Proof. induction l; simpl; lia. Qed.

Lemma count_scan (stop : V -> bool) budget body l :
  (forall total k e, body total k e = if stop k then Some (inr (total, true)) else count_body i budget total e) ->
  (0 <= budget)%Z -> (forall p, p ∈ l -> p.2 ∈ locs i) ->
  ascending l -> (forall p q, klt p q -> stop p = true -> stop q = true) -> forall acc,
  (0 <= acc <= budget)%Z -> (acc + total_ids (filter (fun p => stop p.1 = false) l) < 2 ^ 64)%Z ->
  exists r, list_scan body l acc = Some r /\
  let n := (acc + total_ids (filter (fun p => stop p.1 = false) l))%Z in
  count_finish r = if (n <=? budget)%Z then (n, true) else (u64 (budget + 1), false).
Proof.
  intros Hbody Hb. induction l as [|[k e] l IH]; intros Hlocs Ha Hst acc Hacc Hov.
  - eexists. split; [done|]. simpl. rewrite Z.add_0_r. destruct (Z.leb_spec acc budget); [done|lia].
  - apply StronglySorted_cons in Ha as [Hk Ha]. cbn [list_scan]. rewrite Hbody. destruct (stop k) eqn:Es.
    + eexists. split; [done|]. rewrite filter_none; [simpl; rewrite Z.add_0_r; destruct (Z.leb_spec acc budget); [done|lia]|].
      constructor; [simpl; by rewrite Es|]. eapply Forall_impl; [exact Hk|]. intros p Hp.
      by rewrite (Hst _ _ Hp Es).
    + rewrite filter_cons_True in Hov |- * by done. cbn [total_ids foldr snd] in *. fold (total_ids (filter (fun p => stop p.1 = false) l)) in *.
      pose proof (total_nonneg (filter (fun p => stop p.1 = false) l)) as Hpos.
      unfold count_body. destruct (entry_set_spec e) as (s & -> & Hs & _); [by apply (Hlocs (k, e)); left|].
      cbn [mbind option_bind]. rewrite (Cardinality_spec s _ Hs), u64_small by lia.
      set (m := Z.of_nat (length (ids_at (mem i) e))) in *. destruct (Z.ltb_spec budget (acc + m)).
      * cbn [mbind option_bind]. eexists. split; [done|]. cbn [count_finish].
        destruct (Z.leb_spec (acc + (m + total_ids (filter (fun p => stop p.1 = false) l))) budget); [lia|done].
      * cbn [mbind option_bind]. destruct (IH ltac:(intros p Hp; apply Hlocs; by right) Ha Hst (acc + m)%Z) as (r & -> & Hr);
          [lia|lia|]. exists r. split; [done|]. cbv zeta in *. by rewrite Hr, <- Z.add_assoc.
Qed.

Lemma RangeCount_spec lo hi budget : (0 <= budget)%Z ->
  let n := total_ids (range_bindings lo hi) in (n < 2 ^ 64)%Z ->
  RangeCount lo hi budget i = Some (if (n <=? budget)%Z then (n, true) else (u64 (budget + 1), false)).
Proof.
  intros Hb n Hn. unfold RangeCount. destruct (keyLess hi lo) eqn:Hhl.
  - assert (range_bindings lo hi = []) as E.
    { apply filter_none. apply Forall_forall. intros p Hp H. apply list_elem_of_filter in Hp as [Hp _].
      apply H. by eapply klt_le_trans. }
    subst n. rewrite E in *. simpl. by destruct (Z.leb_spec 0 budget); [|lia].
  - set (body := fun total k e => _). destruct (seek_scan (A := Z) (R := Z * bool) body 0%Z lo) as (c & E1 & E2). rewrite E1. cbn [mbind option_bind]. rewrite E2.
    cbn [mbind option_bind].
    assert (HF : filter (fun p => keyLess hi p.1 = false) (al_from lo (bindings i)) = range_bindings lo hi).
    { apply list_filter_iff. intros p. unfold klt. by rewrite not_true_iff_false. }
    destruct (count_scan (fun k => keyLess hi k) budget body (al_from lo (bindings i))) with (acc := 0%Z) as (r & E & Hr);
      [done|done|apply from_locs|apply from_ascending| |lia|rewrite HF; exact Hn|].
    { intros p q Hpq H. exact (klt_trans hi p q H Hpq). }
    rewrite E. cbn [mbind option_bind]. f_equal. cbv zeta in Hr. rewrite HF in Hr. exact Hr.
Qed.

Lemma RangeCountFrom_spec lo budget : (0 <= budget)%Z ->
  let n := total_ids (al_from lo (bindings i)) in (n < 2 ^ 64)%Z ->
  RangeCountFrom lo budget i = Some (if (n <=? budget)%Z then (n, true) else (u64 (budget + 1), false)).
Proof.
  intros Hb n Hn. unfold RangeCountFrom. set (body := fun total (k : V) e => _).
  destruct (seek_scan (A := Z) (R := Z * bool) body 0%Z lo) as (c & E1 & E2). rewrite E1. cbn [mbind option_bind]. rewrite E2. cbn [mbind option_bind].
  assert (HF : filter (fun p : V * loc => (fun _ : V => false) p.1 = false) (al_from lo (bindings i)) = al_from lo (bindings i)).
  { apply filter_all. by apply Forall_forall. }
  destruct (count_scan (fun _ => false) budget body (al_from lo (bindings i))) with (acc := 0%Z) as (r & E & Hr);
    [done|done|apply from_locs|apply from_ascending|done|lia|rewrite HF; exact Hn|].
  rewrite E. cbn [mbind option_bind]. f_equal. cbv zeta in Hr. rewrite HF in Hr. exact Hr.
Qed.
End deep.
End queries.
