(* ===== verification/BtreeLoad.v ===== *)
(** * The ordered index: bulk loads

    Loading sorted groups replaces the index by one that holds exactly them; the
    grouping loops of [BulkLoad] and [BulkLoadSorted] produce such groups. *)

From Stdlib Require Import ZArith Lia.
From stdpp Require Import gmap.
From S2P Require Import Prelude Ordered NodeSet NodeSetProps Bplus BplusInv BplusOps BplusCursor BtreeIndex BtreeIndexInv BtreeIndexProps.

Section load.
Context {V B : Type} `{OV : Ordered V} {LV : OrderedLaws V} `{RB : Roaring B} {RL : RoaringLaws B}.
Implicit Types (i : Index V B) (v k w : V) (e : loc).

(** ** Allocating the payloads *)

Lemma alloc_sets_spec (sets : list (NodeSet B)) : forall a st, heap_ok a st -> exists ptrs st',
  alloc_sets sets a st = Some (ptrs, st') /\
  Forall2 (fun e s => heap st' !! e = Some (mkEntry false s)) ptrs sets /\
  NoDup ptrs /\ (forall e, e ∈ ptrs -> e ∈ a \/ heap st !! e = None) /\
  (forall e, is_Some (heap st !! e) -> e ∉ a -> heap st' !! e = heap st !! e) /\
  (forall e, is_Some (heap st' !! e) -> (e < fresh_loc st')%nat).
Proof.
  induction sets as [|s sets IH]; intros a st Hh; cbn [alloc_sets].
  - eexists _, _. split; [done|]. spl; [constructor|constructor|by intros e ?%not_elem_of_nil|done|apply Hh].
  - destruct (alloc_spec a st Hh) as (e & a' & st1 & -> & Hh1 & He & Hz & Hkeep & Hnew). cbn [mbind option_bind].
    rewrite Hz. cbn [mbind option_bind dead zero_entry].
    set (st2 := set_entry e (mkEntry false s) st1).
    assert (Hh2 : heap_ok a' st2) by (apply heap_ok_set; [done|done|rewrite Hz; eauto]).
    assert (He2 : heap st2 !! e = Some (mkEntry false s)) by (unfold st2; by rewrite set_entry_lookup, decide_True).
    destruct (IH a' st2 Hh2) as (ptrs & st' & -> & HF & Hn & Hin & Hk & Hf). cbn [mbind option_bind].
    assert (Hept : e ∉ ptrs).
    { intros Hp. destruct (Hin e Hp) as [?|Hx]; [done|congruence]. }
    eexists _, _. split; [done|]. spl; [| | | |done].
    + constructor; [|done]. rewrite Hk; [done|rewrite He2; eauto|done].
    + by constructor.
    + assert (Hback : forall x, heap st2 !! x = None -> heap st !! x = None).
      { intros x Hx. destruct (heap st !! x) eqn:E; [|done]. exfalso. revert Hx. unfold st2.
        rewrite set_entry_lookup. case_decide; [done|]. rewrite Hkeep by (rewrite E; eauto). by rewrite E. }
      intros x Hx. apply elem_of_cons in Hx as [->|Hx]; [apply Hnew; left|].
      destruct (Hin x Hx) as [Ha|Hx2]; [apply Hnew; by right|right; by apply Hback].
    + intros x Hx Hxa. assert (Hxe : x <> e).
      { intros ->. destruct (Hnew e ltac:(left)) as [?|Hn0]; [done|]. destruct Hx; congruence. }
      assert (Hx2 : heap st2 !! x = heap st !! x).
      { unfold st2. rewrite set_entry_lookup, decide_False by congruence. by apply Hkeep. }
      rewrite Hk; [done|by rewrite Hx2|]. intros Ha. destruct (Hnew x ltac:(by right)) as [?|Hn0]; [done|].
      destruct Hx; congruence.
Qed.

(** ** Loading groups *)

Definition groups_ok (gs : list (V * NodeSet B)) : Prop :=
  ascending gs /\ Forall (fun p => exists l, ns_inv p.2 l /\ l <> []) gs.

Definition group_ids (gs : list (V * NodeSet B)) w : list Z :=
  match al_get w gs with Some s => ToArray s | None => [] end.

Lemma zip_ascending (ks : list V) {T} (xs : list T) :
  length xs = length ks -> StronglySorted klt ks -> ascending (zip ks xs).
Proof.
  intros Hl Hs. unfold ascending. revert xs Hl. induction Hs as [|k ks Hs IH Hk]; intros [|x xs] Hl;
    simplify_eq/=; constructor; auto.
  by apply (zip_below (klt k)).
Qed.

Lemma al_get_zip {T U} (R : T -> U -> Prop) w (ks : list V) : forall (xs : list T) (ys : list U),
  Forall2 R xs ys -> length ks = length xs ->
  match al_get w (zip ks xs), al_get w (zip ks ys) with
  | Some x, Some y => R x y
  | None, None => True
  | _, _ => False
  end.
Proof.
  unfold al_get, al_at. induction ks as [|k ks IH]; intros xs ys HF Hl; [done|].
  destruct HF as [|x y xs ys Hxy HF]; [done|]. cbn [zip_with]. rewrite !filter_cons. cbn [fst].
  case_decide; [done|]. apply IH; [done|]. simpl in Hl. lia.
Qed.

Lemma snd_zip_eq {T} (ks : list V) (xs : list T) : length ks = length xs -> (zip ks xs).*2 = xs.
Proof. intros H. apply snd_zip. lia. Qed.

(** Packing ascending groups, whatever their sets: a well-formed tree over fresh
    entries that hold the sets in order. *)
Lemma bulkPack_spec (gs : list (V * NodeSet B)) (st : store B) : ascending gs -> heap_ok [] st -> exists t ptrs st',
  bulkPack gs.*1 gs.*2 st = Some (t, st') /\ tree_ok t /\ kvs (root t) = zip gs.*1 ptrs /\
  Forall2 (fun e s => heap st' !! e = Some (mkEntry false s)) ptrs gs.*2 /\
  NoDup ptrs /\ (forall e, e ∈ ptrs -> heap st !! e = None) /\
  (forall e, is_Some (heap st !! e) -> heap st' !! e = heap st !! e) /\
  (forall e, is_Some (heap st' !! e) -> (e < fresh_loc st')%nat) /\
  (forall m, (length gs <= packCap 2 ^ m)%nat -> (height t <= S m)%nat).
Proof.
  intros Ha Hh0. unfold bulkPack.
  destruct (alloc_sets_spec gs.*2 [] st Hh0) as (ptrs & st' & -> & HF & Hn & Hin & Hk & Hf). cbn [mbind option_bind].
  pose proof (Forall2_length _ _ _ HF) as Hlen. rewrite length_fmap in Hlen.
  assert (Hks : StronglySorted klt gs.*1).
  { clear -Ha. unfold ascending in Ha. induction Ha as [|p gs Hs IH Hp]; [constructor|].
    constructor; [done|]. by apply Forall_fmap. }
  destruct (bulk_tree_spec (zip gs.*1 ptrs)) as (t & -> & Ht & Hkv & Hht);
    [apply zip_ascending; [rewrite length_fmap; lia|done]|]. cbn [mbind option_bind].
  exists t, ptrs, st'. spl; try done.
  - intros e He. by destruct (Hin e He) as [?%not_elem_of_nil|?].
  - intros e He. apply Hk; [done|apply not_elem_of_nil].
  - intros m Hm. apply Hht. rewrite length_zip_with, length_fmap. lia.
Qed.

Lemma zip_fst_snd {S T} (l : list (S * T)) : zip l.*1 l.*2 = l.
Proof. induction l as [|[a b] l IH]; [done|]. cbn. by rewrite IH. Qed.

Lemma contents_zip (st : store B) (ks : list V) ptrs (sets : list (NodeSet B)) :
  Forall2 (fun e s => heap st !! e = Some (mkEntry false s)) ptrs sets -> length ks = length sets ->
  (fun p => (p.1, ids_at st p.2)) <$> zip ks ptrs = (fun p => (p.1, ToArray p.2)) <$> zip ks sets.
Proof.
  intros HF. revert ks. induction HF as [|e s ptrs sets He HF IH]; intros [|k ks] Hl; simplify_eq/=; [done|].
  f_equal; [|by apply IH]. unfold ids_at. by rewrite He.
Qed.

(** Loading replaces the index by the groups, whatever it held. *)
Lemma load_groups_spec gs i : groups_ok gs -> store_ok i -> exists i', load_groups gs i = Some i' /\
  index_ok i' /\ (forall w, ids i' w = group_ids gs w) /\
  (forall m, (length gs <= packCap 2 ^ m)%nat -> (height (tree i') <= S m)%nat) /\
  contents i' = (fun p => (p.1, ToArray p.2)) <$> gs.
Proof.
  intros [Ha Hg] Hi. unfold load_groups.
  assert (Hh0 : heap_ok [] (mem i)).
  { split; [constructor|by intros e ?%not_elem_of_nil|apply (so_heap i Hi)]. }
  destruct (bulkPack_spec gs (mem i) Ha Hh0) as (t & ptrs & st' & -> & Ht & Hkv & HF & Hn & Hin & Hk & Hf & Hht).
  cbn [mbind option_bind]. pose proof (Forall2_length _ _ _ HF) as Hlen. rewrite length_fmap in Hlen.
  eexists. split; [done|]. set (i' := mkIndex t (arena i) st').
  assert (Hb : bindings i' = zip gs.*1 ptrs) by done.
  assert (Hl : locs i' = ptrs) by (unfold locs; rewrite Hb; apply snd_zip_eq; rewrite length_fmap; lia).
  assert (Hlive : forall e, e ∈ ptrs -> live_entry st' e).
  { intros e He. apply list_elem_of_lookup in He as [j Hj].
    destruct (Forall2_lookup_l _ _ _ _ _ HF Hj) as (s & Hs & Hes). rewrite list_lookup_fmap in Hs.
    destruct (gs !! j) as [p|] eqn:Ep; [|done]. simplify_eq/=.
    rewrite Forall_lookup in Hg. destruct (Hg j p Ep) as (l & H1 & H2). by exists (mkEntry false p.2), l. }
  assert (Hz := ho_zero _ _ (so_heap i Hi)). spl.
  - split; [|intros e; rewrite Hl; apply Hlive]. split.
    + done.
    + intros e. rewrite Hl. intros He. destruct (Hlive e He) as (en & l & H1 & _ & H2 & _). by exists en, l.
    + by rewrite Hl.
    + split; [apply (so_heap i Hi)| |done]. intros e He. cbn [arena i' mem] in *.
      rewrite Hk; [by apply Hz|rewrite (Hz e He); eauto].
    + intros e He. rewrite Hl. intros Hp. cbn [arena i'] in He. specialize (Hin e Hp). by rewrite (Hz e He) in Hin.
  - intros w. unfold ids, group_ids. rewrite Hb.
    pose proof (al_get_zip _ w gs.*1 _ _ HF ltac:(rewrite length_fmap; lia)) as Hw. rewrite zip_fst_snd in Hw.
    destruct (al_get w (zip gs.*1 ptrs)) as [e|], (al_get w gs) as [s|]; try done.
    unfold ids_at. cbn [mem i']. by rewrite Hw.
  - exact Hht.
  - unfold contents. rewrite Hb. cbn [mem i']. rewrite (contents_zip st' gs.*1 ptrs gs.*2 HF), zip_fst_snd; [done|].
    by rewrite !length_fmap.
Qed.

(** ** Grouping sorted pairs *)

(** Ascending up to equal keys, as [sort.Slice] leaves the pairs. *)
Definition pairs_sorted (l : list (V * Z)) : Prop := StronglySorted (fun p q => ~ klt q.1 p.1) l.

Lemma run_while_spec p (l : list (V * Z)) : exists a b, run_while p l = (a, b) /\ l = a ++ b /\
  Forall (fun x => p x = true) a /\ match b with [] => True | x :: _ => p x = false end.
Proof.
  induction l as [|x l (a & b & E & -> & Ha & Hb)]; cbn [run_while]; [by exists [], []|].
  destruct (p x) eqn:Ep.
  - rewrite E. exists (x :: a), b. spl; try done. by constructor.
  - by exists [], (x :: a ++ b).
Qed.

(** A run from a non-empty list is not empty, so the outer loop advances. *)
Lemma fold_Add (run : list (V * Z)) : Forall (fun p => inline_id p.2) run -> forall (s : NodeSet B) l, ns_inv s l ->
  exists l', ns_inv (fold_left (fun s p => (Add p.2 s).1) run s) l' /\
  forall y, y ∈ l' <-> y ∈ l \/ exists v, (v, y) ∈ run.
Proof.
  induction 1 as [|[v x] run Hx _ IH]; intros s l Hl; cbn [fold_left].
  - exists l. split; [done|]. intros y. split; [tauto|]. intros [?|[v ?%not_elem_of_nil]]; done.
  - destruct (Add_spec x s l Hl Hx) as (l1 & H1 & H2). destruct (IH _ _ H1) as (l' & H3 & H4). exists l'.
    split; [done|]. intros y. rewrite (H4 y), (H2 y). split.
    + intros [[->|?]|[v' Hv]]; [right; exists v; left|by left|right; exists v'; by right].
    + intros [?|[v' Hv]]; [tauto|]. apply elem_of_cons in Hv as [Heq|Hv]; [simplify_eq; tauto|right; eauto].
Qed.

Definition groups_of (pairs : list (V * Z)) (gs : list (V * NodeSet B)) : Prop :=
  groups_ok gs /\
  (forall w y, (exists k s, (k, s) ∈ gs /\ keq k w /\ y ∈ ToArray s) <-> exists v, (v, y) ∈ pairs /\ keq v w) /\
  (length gs <= length pairs)%nat /\ (forall k s, (k, s) ∈ gs -> exists y, (k, y) ∈ pairs).

Lemma group_nil fuel : exists gs, group (B := B) fuel [] = Some gs /\ groups_of [] gs.
Proof.
  exists []. split; [by destruct fuel|]. unfold groups_of. spl; [split; constructor| |done|].
  - intros w y. split; [intros (k & s & Hin & _)|intros (v & Hin & _)]; by apply not_elem_of_nil in Hin.
  - intros k s Hin. by apply not_elem_of_nil in Hin.
Qed.

Lemma group_spec fuel : forall pairs, (length pairs <= fuel)%nat -> pairs_sorted pairs ->
  Forall (fun p => inline_id p.2) pairs -> 
  exists gs, group (B := B) fuel pairs = Some gs /\ groups_of pairs gs.
Proof.
  induction fuel as [|fuel IH]; intros pairs Hf Hs Hid.
  - destruct pairs; [|simpl in Hf; lia]. apply group_nil.
  - destruct pairs as [|[v x] pairs].
    { apply group_nil. }
    cbn [group]. destruct (run_while_spec (fun p => equalKeys p.1 v) ((v, x) :: pairs)) as (run & rest & E & El & Hr & Hb).
    rewrite E. assert (Hvv : equalKeys v v = true) by (apply equalKeys_spec; reflexivity).
    destruct run as [|r0 run].
    { simpl in El. subst rest. simpl in Hb. congruence. }
    rewrite El in Hs, Hid. apply StronglySorted_app in Hs as (Hx & _ & Hs'). apply Forall_app in Hid as [Hid1 Hid2].
    destruct (IH rest) as (gs & Eg & [Hga Hgf] & Hgm & Hgl & Hgk); [|done|done|].
    { apply (f_equal length) in El. rewrite length_app in El. simpl in El, Hf. lia. }
    rewrite Eg. cbn [mbind option_bind].
    destruct (fold_Add (r0 :: run) Hid1 nsZero [] inv_empty) as (l & Hl & Hlm).
    assert (Hr0 : r0 = (v, x)) by (simpl in El; congruence).
    assert (Hrun : forall w y, (w, y) ∈ r0 :: run -> keq w v).
    { intros w y Hin. rewrite Forall_forall in Hr. apply Hr in Hin. by apply equalKeys_spec. }
    assert (Habove : Forall (fun p => klt v p.1) rest).
    { destruct rest as [|[k1 x1] rest]; [constructor|]. assert (Hk1 : klt v k1).
      { destruct (klt_cases v k1) as [?|[Hk|Hk]]; [done| |].
        - symmetry in Hk. apply equalKeys_spec in Hk. simpl in Hb. congruence.
        - exfalso. apply (Hx r0 (k1, x1)); [left|left|]. by rewrite Hr0. }
      apply StronglySorted_cons in Hs' as [Hs1 _]. constructor; [done|].
      eapply Forall_impl; [exact Hs1|]. intros p Hp. simpl in *. by eapply klt_le_trans. }
    eexists. split; [done|]. unfold groups_of. spl.
    + split; [constructor; [done|]|constructor; [|done]].
      * apply Forall_forall. intros [k s] Hin. simpl. destruct (Hgk k s Hin) as [y Hy].
        rewrite Forall_forall in Habove. by apply (Habove (k, y)).
      * exists l. split; [done|]. intros ->. apply (not_elem_of_nil x), Hlm. right. exists v. rewrite Hr0. left.
    + intros w y. rewrite El. setoid_rewrite elem_of_app. split.
      * intros (k & s & Hin & Hk & Hy). apply elem_of_cons in Hin as [Heq|Hin].
        -- simplify_eq. rewrite (ToArray_spec _ _ Hl) in Hy. apply Hlm in Hy as [?%not_elem_of_nil|[v' Hv']]; [done|].
           exists v'. split; [by left|]. rewrite <- Hk. by eapply Hrun.
        -- destruct (proj1 (Hgm w y)) as (v' & ? & ?); [by exists k, s|]. exists v'. auto.
      * intros (v' & [Hin|Hin] & Hk).
        -- eexists v, _. split; [left|]. split; [by rewrite <- (Hrun v' y Hin)|]. rewrite (ToArray_spec _ _ Hl).
           apply Hlm. right. eauto.
        -- destruct (proj2 (Hgm w y)) as (k & s & ? & ?); [by exists v'|]. exists k, s. split; [by right|done].
    + rewrite El, length_app. simpl. lia.
    + intros k s Hin. rewrite El. apply elem_of_cons in Hin as [Heq|Hin].
      * injection Heq as -> _. exists x. apply elem_of_app. left. rewrite Hr0. left.
      * destruct (Hgk k s Hin) as [y Hy]. exists y. apply elem_of_app. by right.
Qed.

(** Loading pairs holds exactly their ids. *)
Lemma load_pairs_spec pairs i : store_ok i -> pairs_sorted pairs -> Forall (fun p => inline_id p.2) pairs ->
  exists i', load_pairs pairs i = Some i' /\ index_ok i' /\
  (forall w y, y ∈ ids i' w <-> exists v, (v, y) ∈ pairs /\ keq v w) /\
  (forall m, (length pairs <= packCap 2 ^ m)%nat -> (height (tree i') <= S m)%nat).
Proof.
  intros Hi Hs Hid. unfold load_pairs.
  destruct (group_spec (length pairs) pairs (le_n _) Hs Hid) as (gs & E0 & Hg & Hm & Hl & _). rewrite E0. cbn [mbind option_bind].
  destruct (load_groups_spec gs i Hg Hi) as (i' & E & Hi' & Hids & Hh & _). exists i'. spl; [done|done| |].
  - intros w y. rewrite Hids, <- Hm. unfold group_ids. destruct (al_get w gs) as [s|] eqn:Ew.
    + pose proof Ew as Ew'. apply al_get_Some in Ew' as (k & Hk & Hin). split; [intros Hy; by exists k, s|].
      intros (k' & s' & Hin' & Hk' & Hy). pose proof (al_get_elem w k' s' gs (proj1 Hg) Hin' Hk'). by simplify_eq.
    + rewrite elem_of_nil. split; [done|]. intros (k' & s' & Hin' & Hk' & _).
      pose proof (al_get_elem w k' s' gs (proj1 Hg) Hin' Hk'). congruence.
  - intros m Hm'. apply Hh. lia.
Qed.

(** The order scan of [BulkLoadSorted] accepts exactly the ascending inputs. *)
Lemma sorted_scan_spec (values : list V) :
  sorted_scan values = true <-> StronglySorted (fun a b => ~ klt b a) values.
Proof.
  induction values as [|a [|b values] IH]; [split; [constructor|done]|split; [repeat constructor|done]|].
  change (sorted_scan (a :: b :: values)) with (negb (keyLess b a) && sorted_scan (b :: values)).
  rewrite andb_true_iff, negb_true_iff, IH. split.
  - intros [Hab Hs]. pose proof Hs as Hs'. apply StronglySorted_cons in Hs' as [Hb _].
    assert (Hba : ~ klt b a) by (unfold klt; by rewrite Hab). constructor; [done|]. constructor; [done|].
    eapply Forall_impl; [exact Hb|]. intros c Hc. by eapply kle_trans.
  - intros Hs. apply StronglySorted_cons in Hs as [Ha Hs]. split; [|done].
    apply Forall_cons in Ha as [Ha _]. apply not_true_iff_false. exact Ha.
Qed.

Lemma zip_sorted (values : list V) (nodes : list Z) :
  StronglySorted (fun a b => ~ klt b a) values -> pairs_sorted (zip values nodes).
Proof.
  intros Hs. unfold pairs_sorted. revert nodes. induction Hs as [|v values Hs IH Hv]; intros [|x nodes]; constructor; auto.
  by apply (zip_below (fun b => ~ klt b v)).
Qed.
End load.

(** * What an index lists

    The keys of an index in order and the ids under each, the number of ids a
    history can leave, the keys a history can leave, and when two indexes answer
    every query alike. *)

Section listing.
Context {V B : Type} `{OV : Ordered V} {LV : OrderedLaws V} `{RB : Roaring B} {RL : RoaringLaws B}.
Implicit Types (i : Index V B) (v w k : V) (os : list (idx_op (V := V))).

(** The keys of an index, in order. *)
Definition keys_of i : list V := (bindings i).*1.

Lemma keys_sorted i : index_ok i -> StronglySorted klt (keys_of i).
Proof.
  intros Hi. pose proof (tree_ascending _ (so_tree i (proj1 Hi))) as Ha. unfold keys_of, bindings.
  induction Ha as [|p l Hs IH Hp]; [constructor|]. cbn [fmap list_fmap]. constructor; [done|].
  by apply Forall_fmap.
Qed.

Lemma keys_ids i w : index_ok i -> (exists k, k ∈ keys_of i /\ keq k w) <-> exists y, y ∈ ids i w.
Proof.
  intros Hi. split.
  - intros (k & Hk & Hkw). apply list_elem_of_fmap in Hk as ((k' & e) & -> & Hin).
    destruct (ids i w) as [|y l] eqn:E; [|exists y; left]. exfalso. apply (live_ids i w Hi); [|done].
    by rewrite (al_get_elem w k' e) by (done || apply tree_ascending, (so_tree i (proj1 Hi))).
  - intros (y & Hy). apply (ids_binding i) in Hy as (k & e & Hin & Hk & _). exists k. split; [|done].
    apply list_elem_of_fmap. by exists (k, e).
Qed.

Lemma ids_sorted i w : index_ok i -> sorted (ids i w).
Proof.
  intros Hi. destruct (point_cases i Hi w) as [(_ & _ & ->)|(e & s & _ & _ & Hs)]; [constructor|].
  by eapply ns_sorted.
Qed.

(** The ids held under each key of an interval, in key order. *)
Definition listing os (P : V -> Prop) (gs : list (V * list Z)) : Prop :=
  StronglySorted klt gs.*1 /\
  (forall k l, (k, l) ∈ gs -> P k /\ sorted l /\ l <> [] /\ forall y, y ∈ l <-> holds os k y = true) /\
  (forall v y, P v -> holds os v y = true -> exists k l, (k, l) ∈ gs /\ keq k v).

Definition listed {T} (gs : list (V * list T)) : Z := foldr (fun p n => Z.of_nat (length p.2) + n)%Z 0%Z gs.

Lemma listing_of os i (P : V -> Prop) (l : list (V * loc)) : index_ok i ->
  (forall w y, y ∈ ids i w <-> holds os w y = true) ->
  ascending l -> (forall p, p ∈ l <-> P p.1 /\ p ∈ bindings i) -> Proper (keq ==> iff) P ->
  let gs := (fun p => (p.1, ids_at (mem i) p.2)) <$> l in listing os P gs /\ listed gs = total_ids i l.
Proof.
  intros Hi Hw Ha Hl HP gs. subst gs.
  assert (Hb : forall k e, (k, e) ∈ bindings i -> ids_at (mem i) e = ids i k).
  { intros k e Hin. unfold ids. by rewrite (al_get_elem k k e) by (done || apply tree_ascending, (so_tree i (proj1 Hi))). }
  split; [split; [|split]|].
  - clear -Ha. induction Ha as [|p l Hs IH Hp]; [constructor|]. cbn [fmap list_fmap fst]. constructor; [done|].
    rewrite <- list_fmap_compose. by apply Forall_fmap.
  - intros k l0 Hin. apply list_elem_of_fmap in Hin as ((k' & e) & [= -> ->] & Hin). apply Hl in Hin as [Hk Hin].
    cbn [fst snd] in *. rewrite (Hb k' e Hin). spl; [done|by apply ids_sorted| |apply Hw].
    apply (live_ids i k' Hi). by rewrite (al_get_elem k' k' e) by (done || apply tree_ascending, (so_tree i (proj1 Hi))).
  - intros v y Hv Hy. apply Hw in Hy. destruct (ids_binding i v y Hy) as (k & e & Hin & Hk & _).
    exists k, (ids_at (mem i) e). split; [|done]. apply list_elem_of_fmap. exists (k, e). split; [done|].
    apply Hl. split; [|done]. simpl. by rewrite Hk.
  - unfold listed, total_ids. clear. induction l as [|p l IH]; [done|]. cbn [fmap list_fmap foldr snd]. by rewrite IH.
Qed.

(** Pairs that determine the elements of a list bound its length. *)
Lemma matched_length {A C} (R : A -> C -> Prop) `{!forall a c, Decision (R a c)} (cs : list C) : forall (l : list A),
  NoDup l -> (forall a, a ∈ l -> exists c, c ∈ cs /\ R a c) ->
  (forall a a' c, a ∈ l -> a' ∈ l -> R a c -> R a' c -> a = a') -> (length l <= length cs)%nat.
Proof.
  induction cs as [|c cs IH]; intros l Hn Hm Hi.
  - destruct l as [|a l]; [done|]. destruct (Hm a) as (c & Hc & _); [left|]. by apply not_elem_of_nil in Hc.
  - pose proof (IH (filter (fun a => ~ R a c) l)) as Hr. assert (Hsub : forall a, a ∈ filter (fun a => ~ R a c) l -> a ∈ l).
    { intros a Ha. by apply list_elem_of_filter in Ha as [_ ?]. }
    assert (Hone : (length l <= S (length (filter (fun a => ~ R a c) l)))%nat).
    { clear IH Hr Hm Hsub. induction l as [|a l IHl]; [simpl; lia|]. apply NoDup_cons in Hn as [Ha Hn].
      rewrite filter_cons. case_decide as Hac.
      - cbn [length]. apply le_n_S, IHl; [done|]. intros x y z Hx Hy. by apply Hi; right.
      - rewrite (filter_all _ l); [done|]. apply Forall_forall. intros a' Ha' Hac'.
        apply Ha. rewrite (Hi a a' c); [done|left|by right|done|done]. }
    cbn [length]. rewrite Hone. apply le_n_S, Hr; [by apply NoDup_filter| |].
    + intros a Ha. apply list_elem_of_filter in Ha as [Hac Ha]. destruct (Hm a Ha) as (c' & Hc' & HR).
      apply elem_of_cons in Hc' as [->|Hc']; [done|eauto].
    + intros a a' c' Ha Ha'. apply Hi; auto.
Qed.

Definition flat {A} (gs : list (V * list A)) : list (V * A) := flat_map (fun p => (fun y => (p.1, y)) <$> p.2) gs.

Lemma elem_of_flat (gs : list (V * list Z)) k y : (k, y) ∈ flat gs <-> exists l, (k, l) ∈ gs /\ y ∈ l.
Proof.
  unfold flat. rewrite list_elem_of_In, in_flat_map. setoid_rewrite <- list_elem_of_In. split.
  - intros ([k' l] & Hin & Hy). apply list_elem_of_fmap in Hy as (y' & [= -> ->] & Hy). eauto.
  - intros (l & Hin & Hy). exists (k, l). split; [done|]. apply list_elem_of_fmap. eauto.
Qed.

Lemma listed_flat {A} (gs : list (V * list A)) : listed gs = Z.of_nat (length (flat gs)).
Proof.
  induction gs as [|[k l] gs IH]; [done|]. unfold flat in *. cbn [listed foldr flat_map fst snd].
  rewrite length_app, length_fmap. fold (listed gs). lia.
Qed.

(** An id is under a key because some operation inserted it there. *)
Lemma holds_inserted os w y : forall b, fold_left (holds_after w y) os b = true ->
  b = true \/ exists v, OpInsert v y ∈ os /\ keq v w.
Proof.
  induction os as [|o os IH]; intros b; cbn [fold_left]; [by left|]. intros H. apply IH in H as [H|(v & Hv & Hk)].
  - destruct o as [v x|v x]; cbn [holds_after] in H.
    + apply orb_true_iff in H as [?|H]; [by left|]. apply andb_true_iff in H as [H1 H2].
      apply bool_decide_eq_true in H1. apply Z.eqb_eq in H2 as ->. right. exists v. split; [left|done].
    + apply andb_true_iff in H as [? _]. by left.
  - right. exists v. split; [by right|done].
Qed.

Lemma listing_keys os P gs k k' l l' : listing os P gs -> (k, l) ∈ gs -> (k', l') ∈ gs -> keq k k' -> k = k'.
Proof.
  intros (Hs & _) H1 H2 Hk. assert (Ha : ascending gs).
  { clear -Hs. unfold ascending. induction gs as [|p gs IH]; [constructor|]. cbn [fmap list_fmap] in Hs.
    apply StronglySorted_cons in Hs as [Hp Hs]. constructor; [by apply IH|]. rewrite Forall_fmap in Hp. exact Hp. }
  apply list_elem_of_split in H1 as (A & C & ->). apply ascending_app in Ha as (_ & Ha & HA).
  apply StronglySorted_cons in Ha as [HC _]. rewrite Forall_forall in HA, HC.
  apply elem_of_app in H2 as [H2|H2]; [|apply elem_of_cons in H2 as [[= -> ->]|H2]; [done|]].
  - specialize (HA _ H2). apply Forall_cons in HA as [HA _]. by apply klt_not_keq in HA.
  - specialize (HC _ H2). by apply klt_not_keq in HC.
Qed.

(** The operation put the id under the key. *)
Definition inserted_by (p : V * Z) (o : idx_op (V := V)) : Prop :=
  match o with OpInsert v x => keq v p.1 /\ x = p.2 | OpDelete _ _ => False end.

#[local] Instance inserted_by_dec p o : Decision (inserted_by p o).
Proof. destruct o; apply _. Defined.

(** A history leaves no more ids than it has operations. *)
Lemma listing_bound os P gs : listing os P gs -> (listed gs <= Z.of_nat (length os))%Z.
Proof.
  intros Hl. rewrite listed_flat. apply inj_le. pose proof Hl as (Hs & Hg & _).
  apply (matched_length inserted_by).
  - clear Hl. induction gs as [|[k l] gs IH]; [constructor|]. unfold flat in *. cbn [flat_map fst snd].
    cbn [fmap list_fmap] in Hs. apply StronglySorted_cons in Hs as [Hk Hs]. apply NoDup_app. spl.
    + apply (NoDup_fmap_2 _). destruct (Hg k l) as (_ & Hsl & _); [left|]. clear -Hsl.
      induction Hsl as [|y l Hs IH Hy]; constructor; [|done]. intros Hin. rewrite Forall_forall in Hy. specialize (Hy y Hin). lia.
    + intros [k1 y1] H1 H2. apply list_elem_of_fmap in H1 as (y' & [= -> ->] & _).
      apply elem_of_flat in H2 as (l' & H2 & _). rewrite Forall_fmap, Forall_forall in Hk. by apply (klt_irrefl k), (Hk (k, l')).
    + apply IH; [done|]. intros k' l' Hin. apply Hg. by right.
  - intros [k y] Hin. apply elem_of_flat in Hin as (l & Hin & Hy). destruct (Hg k l Hin) as (_ & _ & _ & Hh).
    apply Hh, holds_inserted in Hy as [?|(v & Hv & Hk)]; [done|]. by exists (OpInsert v y).
  - intros [k y] [k' y'] [v x|v x] H1 H2; [|done]. unfold inserted_by. cbn [fst snd]. intros [Hk ->] [Hk' <-]. f_equal.
    apply elem_of_flat in H1 as (l & H1 & _), H2 as (l' & H2 & _). eapply (listing_keys os P gs); eauto. by rewrite <- Hk.
Qed.

(** Two ascending lists of keys that hold the same keys up to equality agree place by place. *)
Lemma keys_match (ks : list V) : forall ks', StronglySorted klt ks -> StronglySorted klt ks' ->
  (forall w, (exists k, k ∈ ks /\ keq k w) <-> (exists k, k ∈ ks' /\ keq k w)) -> Forall2 keq ks ks'.
Proof.
  assert (Hno : forall k (ks' : list V), ~ ((exists k', k' ∈ k :: ks' /\ keq k' k) <-> (exists k', k' ∈ [] /\ keq k' k))).
  { intros k l [H _]. destruct H as (x & Hx & _); [exists k; split; [left|done]|]. by apply not_elem_of_nil in Hx. }
  assert (Hle : forall k k' (l l' : list V), Forall (klt k) l ->
    (forall w, (exists x, x ∈ k :: l /\ keq x w) <-> (exists x, x ∈ k' :: l' /\ keq x w)) -> ~ klt k' k).
  { intros k k' l l' Hl H Hk. destruct (proj2 (H k')) as (x & Hx & Hxk); [exists k'; split; [left|done]|].
    apply elem_of_cons in Hx as [->|Hx]; [by apply (klt_not_keq k' k)|].
    rewrite Forall_forall in Hl. pose proof (Hl x Hx) as H1. rewrite Hxk in H1. by apply (klt_irrefl k), (klt_trans _ k'). }
  induction ks as [|k ks IH]; intros [|k' ks'] Hs Hs' H.
  - constructor.
  - exfalso. apply (Hno k' ks'). symmetry. apply H.
  - exfalso. by apply (Hno k ks).
  - apply StronglySorted_cons in Hs as [Hk Hs], Hs' as [Hk' Hs'].
    assert (Hkk : keq k k').
    { apply keq_spec. split; [apply (Hle k' k ks' ks Hk')|apply (Hle k k' ks ks' Hk)]; intros w; by rewrite (H w). }
    constructor; [done|]. apply IH; [done|done|].
    assert (Hgo : forall a b (l l' : list V), keq a b -> Forall (klt a) l ->
      (forall w, (exists x, x ∈ a :: l /\ keq x w) -> (exists x, x ∈ b :: l' /\ keq x w)) ->
      forall w, (exists x, x ∈ l /\ keq x w) -> exists x, x ∈ l' /\ keq x w).
    { intros a b l l' Hab Hl HH w (x & Hx & Hxw). destruct (HH w) as (z & Hz & Hzw); [exists x; split; [by right|done]|].
      apply elem_of_cons in Hz as [->|Hz]; [|eauto]. exfalso. rewrite Forall_forall in Hl.
      apply (klt_not_keq a x (Hl x Hx)). by rewrite Hab, Hzw, Hxw. }
    intros w. split; [apply (Hgo k k')|apply (Hgo k' k)]; try done; intros w'; by rewrite (H w').
Qed.

(** The bindings of two indexes that hold the same ids under every key agree place by place. *)
Definition same_binding i i' (p q : V * loc) : Prop :=
  keq p.1 q.1 /\ p.2 ∈ locs i /\ q.2 ∈ locs i' /\ ids_at (mem i) p.2 = ids_at (mem i') q.2.

Lemma ids_at_key i k w e : index_ok i -> (k, e) ∈ bindings i -> keq k w -> ids i w = ids_at (mem i) e.
Proof. intros Hi Hin Hk. unfold ids. by rewrite (al_get_elem w k e) by (done || apply tree_ascending, (so_tree i (proj1 Hi))). Qed.

Lemma bindings_match i i' : index_ok i -> index_ok i' -> (forall w, ids i w = ids i' w) -> Forall2 (same_binding i i') (bindings i) (bindings i').
Proof.
  intros Hi Hi' He. assert (Forall2 keq (bindings i).*1 (bindings i').*1) as Hk.
  { apply keys_match; [by apply keys_sorted..|]. intros w. rewrite (keys_ids i w Hi), (keys_ids i' w Hi'). by rewrite He. }
  apply Forall2_fmap_1 in Hk. apply Forall2_same_length_lookup. split; [exact (Forall2_length _ _ _ Hk)|]. intros n [k e] [k' e'] H1 H2.
  pose proof (Forall2_lookup_lr _ _ _ _ _ _ Hk H1 H2) as Hkk. cbn in Hkk. apply list_elem_of_lookup_2 in H1, H2. split; [done|].
  split; [by apply (list_elem_of_fmap_2 snd) in H1|]. split; [by apply (list_elem_of_fmap_2 snd) in H2|].
  cbn. rewrite <- (ids_at_key i k k e), He by done. by apply (ids_at_key i' k' k e').
Qed.

Lemma match_from i i' lo : Forall2 (same_binding i i') (bindings i) (bindings i') ->
  Forall2 (same_binding i i') (al_from lo (bindings i)) (al_from lo (bindings i')).
Proof.
  unfold al_from. induction 1 as [|p q l l' Hpq _ IH]; [constructor|]. rewrite !filter_cons. assert (klt p.1 lo <-> klt q.1 lo) by (by rewrite (proj1 Hpq)).
  repeat case_decide; try tauto. by constructor.
Qed.

(** A budgeted count depends on the keys up to equality and on the ids under them only, wrapped or not. *)
Lemma count_match i i' (stop : V -> bool) budget l l' : index_ok i -> index_ok i' -> Forall2 (same_binding i i') l l' ->
  (forall a b, keq a b -> stop a = stop b) -> forall total, exists r,
  list_scan (fun total k e => if stop k then Some (inr (total, true)) else count_body i budget total e) l total = Some r /\
  list_scan (fun total k e => if stop k then Some (inr (total, true)) else count_body i' budget total e) l' total = Some r.
Proof.
  intros Hi Hi' HF Hst. induction HF as [|[k e] [k' e'] l l' (Hk & H1 & H2 & Hids) _ IH]; intros total; [eauto|]. cbn [list_scan fst snd] in *.
  rewrite (Hst k k' Hk). destruct (stop k'); [eauto|]. unfold count_body.
  destruct (entry_set_spec i Hi e H1) as (s & -> & Hs & _), (entry_set_spec i' Hi' e' H2) as (s' & -> & Hs' & _). cbn [mbind option_bind].
  rewrite (Cardinality_spec s _ Hs), (Cardinality_spec s' _ Hs'), Hids. destruct (_ <? _)%Z; [eauto|apply IH].
Qed.

(** Two first rows: the same id under equal keys, or none. *)
Definition same_row (r r' : option (V * Z)) : Prop :=
  match r, r' with Some (k, m), Some (k', m') => keq k k' /\ m = m' | None, None => True | _, _ => False end.

(** Two indexes that answer every query alike. *)
Definition same_answers i i' : Prop :=
  (forall w, exists b b', Lookup w i = Some b /\ Lookup w i' = Some b' /\ rb_ToArray b = rb_ToArray b') /\
  (forall w dst, LookupAppend w dst i = LookupAppend w dst i' /\ IndexCardinality w i = IndexCardinality w i') /\
  DistinctValues i = DistinctValues i' /\
  (forall lo hi, exists b b', Range lo hi i = Some b /\ Range lo hi i' = Some b' /\ rb_ToArray b = rb_ToArray b') /\
  (forall lo, exists b b', RangeFrom lo i = Some b /\ RangeFrom lo i' = Some b' /\ rb_ToArray b = rb_ToArray b') /\
  (forall lo hi, exists r r', RangeFirst lo hi i = Some r /\ RangeFirst lo hi i' = Some r' /\ same_row r r') /\
  forall lo hi budget, exists n m, RangeCount lo hi budget i = Some n /\ RangeCount lo hi budget i' = Some n /\
    RangeCountFrom lo budget i = Some m /\ RangeCountFrom lo budget i' = Some m.

Section alike.
Context (i i' : Index V B) (Hi : index_ok i) (Hi' : index_ok i').
Context (Hd : (height (tree i) <= S maxCursorDepth)%nat) (Hd' : (height (tree i') <= S maxCursorDepth)%nat).
Context (He : forall w, ids i w = ids i' w).

Lemma counts_alike lo hi budget : exists n m, RangeCount lo hi budget i = Some n /\ RangeCount lo hi budget i' = Some n /\
  RangeCountFrom lo budget i = Some m /\ RangeCountFrom lo budget i' = Some m.
Proof using Type*.
  pose proof (match_from i i' lo (bindings_match i i' Hi Hi' He)) as HF.
  assert (Hs : forall a b, keq a b -> keyLess hi a = keyLess hi b).
  { intros a b Hab. apply eq_true_iff_eq. change (klt hi a <-> klt hi b). by rewrite Hab. }
  unfold RangeCount, RangeCountFrom.
  assert (exists m, (c ← seek (tree i) lo; r ← scan (scan_fuel i) (fun total (_ : V) e => count_body i budget total e) 0%Z c; Some (count_finish r)) = Some m /\
    (c ← seek (tree i') lo; r ← scan (scan_fuel i') (fun total (_ : V) e => count_body i' budget total e) 0%Z c; Some (count_finish r)) = Some m) as (m & -> & ->).
  { destruct (seek_scan i Hi Hd (fun total (_ : V) e => count_body i budget total e) 0%Z lo) as (c & -> & E).
    destruct (seek_scan i' Hi' Hd' (fun total (_ : V) e => count_body i' budget total e) 0%Z lo) as (c' & -> & E').
    cbn [mbind option_bind]. rewrite E, E'. destruct (count_match i i' (fun _ => false) budget _ _ Hi Hi' HF ltac:(done) 0%Z) as (r & -> & ->). by eexists. }
  destruct (keyLess hi lo); [by eexists _, m|].
  destruct (seek_scan i Hi Hd (fun total k e => if keyLess hi k then Some (inr (total, true)) else count_body i budget total e) 0%Z lo) as (c & -> & E).
  destruct (seek_scan i' Hi' Hd' (fun total k e => if keyLess hi k then Some (inr (total, true)) else count_body i' budget total e) 0%Z lo) as (c' & -> & E').
  cbn [mbind option_bind]. rewrite E, E'. destruct (count_match i i' (keyLess hi) budget _ _ Hi Hi' HF Hs 0%Z) as (r & -> & ->). by eexists _, m.
Qed.

Lemma ids_keq k k' : keq k k' -> ids i k = ids i k'.
Proof using Type*.
  intros Hk. apply sorted_ext; [by apply ids_sorted..|]. intros y.
  split; intros (x & e & Hb & Hx & Hy)%(ids_binding i); rewrite (ids_at_key i x _ e); try done; by rewrite Hx, Hk.
Qed.

Lemma first_alike lo hi : exists r r', RangeFirst lo hi i = Some r /\ RangeFirst lo hi i' = Some r' /\ same_row r r'.
Proof using Type*.
  destruct (RangeFirst_spec i Hi Hd lo hi) as (r & E & Hr), (RangeFirst_spec i' Hi' Hd' lo hi) as (r' & E' & Hr'). exists r, r'. split; [done|]. split; [done|].
  destruct r as [[k m]|], r' as [[k' m']|]; cbn.
  - destruct Hr as (Hin & Hm & Hmin), Hr' as (Hin' & Hm' & Hmin'). assert (keq k k') as Hk.
    { apply keq_spec. split; [apply Hmin'; [done|]|apply Hmin; [done|]]; [rewrite <- He|rewrite He]; intros En; [rewrite En in Hm|rewrite En in Hm']; done. }
    split; [done|]. rewrite <- He, <- (ids_keq k k' Hk) in Hm'. congruence.
  - destruct Hr as (Hin & Hm & _). by rewrite He, (Hr' k Hin) in Hm.
  - destruct Hr' as (Hin & Hm & _). by rewrite <- He, (Hr k' Hin) in Hm.
  - done.
Qed.
End alike.

Lemma same_answers_ids i i' : index_ok i -> index_ok i' ->
  (height (tree i) <= S maxCursorDepth)%nat -> (height (tree i') <= S maxCursorDepth)%nat ->
  (forall w y, y ∈ ids i w <-> y ∈ ids i' w) -> same_answers i i'.
Proof.
  intros Hi Hi' Hd Hd' Hw.
  assert (He : forall w, ids i w = ids i' w) by (intros w; apply sorted_ext; [by apply ids_sorted..|apply Hw]).
  unfold same_answers. spl.
  - intros w. destruct (Lookup_spec i Hi w) as (b & Eb & Hb), (Lookup_spec i' Hi' w) as (b' & Eb' & Hb').
    exists b, b'. by rewrite Hb, Hb', He.
  - intros w dst. by rewrite !LookupAppend_spec, !IndexCardinality_spec, He.
  - rewrite !DistinctValues_spec by done. exact (Forall2_length _ _ _ (bindings_match i i' Hi Hi' He)).
  - intros lo hi. destruct (Range_spec i Hi Hd lo hi) as (b & Eb & Hb), (Range_spec i' Hi' Hd' lo hi) as (b' & Eb' & Hb').
    exists b, b'. spl; [done|done|]. apply sorted_ext; [apply rb_sorted..|]. intros y. rewrite Hb, Hb'. by setoid_rewrite Hw.
  - intros lo. destruct (RangeFrom_spec i Hi Hd lo) as (b & Eb & Hb), (RangeFrom_spec i' Hi' Hd' lo) as (b' & Eb' & Hb').
    exists b, b'. spl; [done|done|]. apply sorted_ext; [apply rb_sorted..|]. intros y. rewrite Hb, Hb'. by setoid_rewrite Hw.
  - intros lo hi. by apply first_alike.
  - intros lo hi budget. by apply counts_alike.
Qed.

(** ** Where the keys come from *)

(** The tree of an index after an update: unchanged, or one key more or less. *)
Definition tree_after (o : idx_op (V := V)) i i' : Prop :=
  tree i' = tree i \/
  match o with
  | OpInsert v _ => exists e, bindings i' = al_insert v e (bindings i)
  | OpDelete v _ => bindings i' = al_remove v (bindings i)
  end.

Lemma insertStructural_tree i v x i' : tree_ok (tree i) -> insertStructural v x i = Some i' ->
  tree_after (OpInsert v x) i i'.
Proof.
  intros Ht. unfold insertStructural. rewrite get_spec by done. cbn [mbind option_bind].
  destruct (al_get v (kvs (root (tree i)))) as [e|] eqn:Hg.
  - intros (st & _ & [= <-])%bind_Some. by left.
  - unfold publish_insert, cloneInsert. intros ([[t a] st] & H & [= <-])%bind_Some.
    apply bind_Some in H as ([[e a'] st'] & _ & H). apply bind_Some in H as (en & _ & H).
    apply bind_Some in H as (t' & H & [= <- <- <-]). right. exists e.
    destruct (insert_tree_spec (tree i) v e Ht Hg) as (t1 & E & _ & Hk & _). unfold bindings. cbn [tree]. congruence.
Qed.

Lemma idx_step_tree i o i' : index_ok i -> idx_step o i = Some i' -> tree_after o i i'.
Proof.
  intros [Hi _]. pose proof (so_tree i Hi) as Ht. destruct o as [v x|v x]; cbn [idx_step].
  - unfold Insert. rewrite get_spec by done. cbn [mbind option_bind].
    destruct (al_get v (kvs (root (tree i)))) as [e|]; [|by apply insertStructural_tree].
    intros ([st ok] & _ & H)%bind_Some. destruct ok; [simplify_eq; by left|].
    by apply (insertStructural_tree (with_mem i st)).
  - unfold Delete. rewrite get_spec by done. cbn [mbind option_bind].
    destruct (al_get v (kvs (root (tree i)))) as [e|]; [|intros [= <-]; by left].
    intros ([st ok] & _ & H)%bind_Some. destruct ok; [|simplify_eq; by left].
    unfold detach in H. rewrite (get_spec (tree (with_mem i st))) in H by done. cbn [mbind option_bind] in H.
    destruct (al_get v _) as [e'|]; [|simplify_eq; by left].
    apply bind_Some in H as ([st' ok] & _ & H). destruct ok; [|simplify_eq; by left].
    unfold publish_remove in H. apply bind_Some in H as (t' & H & [= <-]).
    destruct (cloneRemove_spec (tree i) v Ht) as (t1 & E & _ & Hk & _). cbn [tree with_mem] in H.
    right. unfold bindings. cbn [tree]. congruence.
Qed.

(** Every key of an index was given to an [Insert]. *)
Lemma keys_inserted (P : V -> Prop) os : Forall idx_op_ok os ->
  Forall (fun o => match o with OpInsert v _ => P v | OpDelete _ _ => True end) os ->
  forall i i', index_ok i -> idx_run os i = Some i' -> Forall P (keys_of i) -> Forall P (keys_of i').
Proof.
  induction 1 as [|o os Ho _ IH]; intros HP i i' Hi E Hk; cbn [idx_run] in E; [by simplify_eq|].
  apply Forall_cons in HP as [Hp HP]. apply bind_Some in E as (i1 & E1 & E).
  destruct (idx_step_spec o i Hi Ho) as (i1' & E1' & Hi1 & _). simplify_eq.
  apply (IH HP i1 i' Hi1 E). unfold keys_of in *. rewrite Forall_fmap, Forall_forall in *.
  destruct (idx_step_tree i o i1 Hi E1) as [Ht|Ht]; [unfold bindings; by rewrite Ht|].
  destruct o as [v x|v x].
  - destruct Ht as [e ->]. unfold al_insert. intros p Hin.
    apply elem_of_app in Hin as [Hin|Hin]; [|apply elem_of_cons in Hin as [->|Hin]; [done|]];
      apply list_elem_of_filter in Hin as [_ Hin]; auto.
  - rewrite Ht. intros p Hin. apply list_elem_of_filter in Hin as [_ Hin]. auto.
Qed.

(** The listing of a history, and what bounds it. *)
Lemma contents_listing os i : index_ok i -> (forall w y, y ∈ ids i w <-> holds os w y = true) ->
  listing os (fun _ => True) (contents i) /\ listed (contents i) = total_ids i (bindings i).
Proof.
  intros Hi Hw. apply listing_of; [done|done|apply tree_ascending, (so_tree i (proj1 Hi))|tauto|done].
Qed.
End listing.
