(* ===== verification/BtreeProps.v ===== *)
(** * Properties of the ordered index

    The tree against a strictly ascending association list, and the index against
    a map from keys to sets of ids: point queries, range queries, budgeted counts,
    bulk loads. *)

From Stdlib Require Import ZArith Lia.
From stdpp Require Import gmap.
From S2P Require Import Prelude Ordered NodeSet NodeSetProps Bplus BplusInv BplusOps BplusCursor BtreeIndex BtreeIndexInv BtreeIndexProps BtreeLoad.

(** ** The tree on its own *)

Section tree.
Context {V : Type} `{OV : Ordered V} {LV : OrderedLaws V}.
Implicit Types (t : bplus V) (l : list (V * loc)).

Inductive tree_op := TPut (k : V) (e : loc) | TDel (k : V).

(** A put looks the key up first, as the index does. *)
Definition tree_step t (o : tree_op) : option (bplus V) :=
  match o with
  | TPut k e => b ← get t k; match b with Some _ => Some t | None => insert_tree t k e end
  | TDel k => cloneRemove t k
  end.

Fixpoint tree_run (os : list tree_op) t : option (bplus V) :=
  match os with [] => Some t | o :: os => t' ← tree_step t o; tree_run os t' end.

Definition al_step l (o : tree_op) : list (V * loc) :=
  match o with
  | TPut k e => match al_get k l with Some _ => l | None => al_insert k e l end
  | TDel k => al_remove k l
  end.

(** Everything a cursor yields. *)
Definition drain t (c : cursor V) : option (list (V * loc) + list (V * loc)) :=
  scan (S (count t)) (fun acc k e => Some (inl (acc ++ [(k, e)]))) [] c.

Lemma list_scan_drain l : forall acc,
  list_scan (R := list (V * loc)) (fun acc k e => Some (inl (acc ++ [(k, e)]))) l acc = Some (inl (acc ++ l)).
Proof.
  induction l as [|[k e] l IH]; intros acc; cbn [list_scan mbind option_bind]; [by rewrite app_nil_r|].
  by rewrite IH, <- app_assoc.
Qed.

Lemma drain_spec t c h : count t = length (kvs (root t)) -> cursor_ok h c -> settled c ->
  (length (rest c) <= count t)%nat -> drain t c = Some (inl (rest c)).
Proof.
  intros Ht Hc Hs Hl. unfold drain. rewrite (scan_spec _ h) by (done || lia). by rewrite list_scan_drain.
Qed.

Lemma tree_step_spec t o : tree_ok t -> exists t', tree_step t o = Some t' /\ tree_ok t' /\
  kvs (root t') = al_step (kvs (root t)) o /\ (tree_potential t' <= tree_potential t + 1)%Z.
Proof.
  intros Ht. destruct o as [k e|k]; cbn [tree_step al_step].
  - rewrite get_spec by done. cbn [mbind option_bind]. destruct (al_get k (kvs (root t))) as [e'|] eqn:Hg.
    + exists t. spl; try done. lia.
    + by apply insert_tree_spec.
  - destruct (cloneRemove_spec t k Ht) as (t' & E & Ht' & Hk & Hp & _). exists t'. spl; try done. lia.
Qed.

Lemma tree_run_spec os : forall t, tree_ok t -> exists t', tree_run os t = Some t' /\ tree_ok t' /\
  kvs (root t') = fold_left al_step os (kvs (root t)) /\
  (tree_potential t' <= tree_potential t + Z.of_nat (length os))%Z.
Proof.
  induction os as [|o os IH]; intros t Ht; cbn [tree_run fold_left].
  - exists t. spl; try done. simpl. lia.
  - destruct (tree_step_spec t o Ht) as (t1 & E1 & Ht1 & Hk1 & Hp1). rewrite E1. cbn [mbind option_bind].
    destruct (IH t1 Ht1) as (t2 & E2 & Ht2 & Hk2 & Hp2). exists t2. rewrite Hk2, Hk1. spl; try done.
    cbn [length]. lia.
Qed.

Lemma newBplus_ok : tree_ok (newBplus (V := V)).
Proof. split; [done|by left]. Qed.

Lemma tree_run_new os : few os -> exists t, tree_run os newBplus = Some t /\ tree_ok t /\
  kvs (root t) = fold_left al_step os [] /\ (height t <= S maxCursorDepth)%nat.
Proof.
  intros Hf. destruct (tree_run_spec os newBplus newBplus_ok) as (t & E & Ht & Hk & Hp). exists t. spl; try done.
  apply tree_height_bound; [done|]. change (tree_potential newBplus) with 1%Z in Hp. unfold few in Hf.
  assert (2 ^ 101 + 1 < 64 ^ 17)%Z by done. lia.
Qed.

(** C31: the copy-on-write tree refines a strictly ascending association list.
    After any history of insertions and removals from the empty tree, no operation
    having panicked, the count is the length of the list, a point lookup is the
    list's, a cursor from the first key yields the list, and a cursor sought to a
    key yields exactly the bindings from that key on. *)
Theorem bplus_refines os : few os -> exists t, tree_run os newBplus = Some t /\
  let l := fold_left al_step os [] in
  ascending l /\ count t = length l /\
  (forall k, get t k = Some (al_get k l)) /\
  (exists c, seekFirst t = Some c /\ drain t c = Some (inl l)) /\
  (forall k, exists c, seek t k = Some c /\ drain t c = Some (inl (al_from k l))).
Proof.
  intros Hf. destruct (tree_run_new os Hf) as (t & E & Ht & Hk & Hh). exists t. split; [done|]. cbv zeta.
  rewrite <- Hk. pose proof (proj1 Ht) as Hc. spl.
  - by apply tree_ascending.
  - done.
  - intros k. by apply get_spec.
  - destruct (seekFirst_spec t Ht Hh) as (c & Ec & H1 & H2 & H3). exists c. split; [done|].
    by rewrite (drain_spec t c (height t)), H3 by (done || rewrite H3; lia).
  - intros k. destruct (seek_spec t k Ht Hh) as (c & Ec & H1 & H2 & H3). exists c. split; [done|].
    rewrite (drain_spec t c (height t)), H3; [done..|]. rewrite H3.
    pose proof (length_filter (fun p => ~ klt p.1 k) (kvs (root t))). unfold al_from. lia.
Qed.

(** C37: the shape of every snapshot the updates can publish.  All leaves are at
    the same depth, no node has more than [bplusFanout] keys or children, no leaf
    of a non-empty tree is empty, separators bound their subtrees, and whatever
    the history the depth stays within the cursor's fixed array of frames, so that
    neither [seek] nor [seekFirst] can index past it. *)
Theorem bplus_shape os : few os -> exists t, tree_run os newBplus = Some t /\
  tree_ok t /\ (height t <= S maxCursorDepth)%nat /\
  (64 ^ (Z.of_nat (height t) - 1) <= Z.of_nat (length os) + 1)%Z.
Proof.
  intros Hf. destruct (tree_run_spec os newBplus newBplus_ok) as (t & E & Ht & Hk & Hp).
  change (tree_potential newBplus) with 1%Z in Hp.
  exists t. spl; [done|done| |].
  - apply tree_height_bound; [done|]. unfold few in Hf. assert (2 ^ 101 + 1 < 64 ^ 17)%Z by done. lia.
  - unfold tree_potential, weight in Hp. pose proof (potential_nonneg (height t) (root t)). lia.
Qed.
End tree.

(** ** The index *)

Section index.
Context {V B : Type} `{OV : Ordered V} {LV : OrderedLaws V} `{RB : Roaring B} {RL : RoaringLaws B}.
Implicit Types (i : Index V B) (v w k : V) (os : list (idx_op (V := V))).


(** range queries.  [Range] and [RangeFrom] return exactly the ids held under
    the keys of the interval, bounds included, and [RangeFirst] the least key of
    the interval that holds an id, with its least id, or nothing when no key does;
    an interval whose bounds are out of order is empty. *)
Theorem index_ranges os lo hi : Forall idx_op_ok os -> few os -> exists i, idx_run os New = Some i /\
  (exists b, Range lo hi i = Some b /\
    forall y, y ∈ rb_ToArray b <-> exists v, in_range lo hi v /\ holds os v y = true) /\
  (exists b, RangeFrom lo i = Some b /\
    forall y, y ∈ rb_ToArray b <-> exists v, ~ klt v lo /\ holds os v y = true) /\
  (exists r, RangeFirst lo hi i = Some r /\
    match r with
    | None => forall v y, in_range lo hi v -> holds os v y = false
    | Some (k, m) => in_range lo hi k /\ holds os k m = true /\
        (forall y, holds os k y = true -> (m <= y)%Z) /\
        forall v y, in_range lo hi v -> holds os v y = true -> ~ klt v k
    end).
Proof.
  intros Ho Hf. destruct (run_from_new (B := B) os Ho Hf) as (i & E & Hi & Hw & Hh). exists i. spl; [done| | |].
  - destruct (Range_spec i Hi Hh lo hi) as (b & Eb & Hb). exists b. split; [done|]. intros y. rewrite Hb.
    by setoid_rewrite Hw.
  - destruct (RangeFrom_spec i Hi Hh lo) as (b & Eb & Hb). exists b. split; [done|]. intros y. rewrite Hb.
    by setoid_rewrite Hw.
  - destruct (RangeFirst_spec i Hi Hh lo hi) as (r & Er & Hr). exists r. split; [done|].
    destruct r as [[k m]|].
    + destruct Hr as (H1 & H2 & H3). pose proof (ids_sorted i k Hi) as Hs.
      destruct (ids i k) as [|m' l] eqn:El; simplify_eq/=. spl; [done| | |].
      * apply Hw. rewrite El. left.
      * intros y Hy. apply Hw in Hy. rewrite El in Hy. apply StronglySorted_cons in Hs as [Hs _].
        apply elem_of_cons in Hy as [->|Hy]; [lia|]. rewrite Forall_forall in Hs. specialize (Hs y Hy). lia.
      * intros v y Hv Hy. apply H3; [done|]. apply Hw in Hy. intros E0. rewrite E0 in Hy. by apply not_elem_of_nil in Hy.
    + intros v y Hv. apply not_true_iff_false. rewrite <- Hw, (Hr v Hv). apply not_elem_of_nil.
Qed.

(** the budgeted counts.  [RangeCount] and [RangeCountFrom] return the number
    of ids held under the keys of the interval when it is at most the budget, and
    otherwise one more than the budget, wrapping at 64 bits, with the exactness
    flag lowered; the accumulated total never wraps. *)
Theorem index_counts os lo hi budget : Forall idx_op_ok os -> (Z.of_nat (length os) < 2 ^ 64)%Z ->
  (0 <= budget < 2 ^ 64)%Z ->
  let answer n := if (n <=? budget)%Z then (n, true) else (u64 (budget + 1), false) in
  exists i gs gs', idx_run os New = Some i /\
  listing os (in_range lo hi) gs /\ listing os (fun v => ~ klt v lo) gs' /\
  RangeCount lo hi budget i = Some (answer (listed gs)) /\
  RangeCountFrom lo budget i = Some (answer (listed gs')).
Proof.
  intros Ho Hf Hb answer. destruct (run_from_new (B := B) os Ho) as (i & E & Hi & Hw & Hh); [unfold few; lia|].
  pose proof (from_ascending i Hi lo) as Ha.
  destruct (listing_of os i (in_range lo hi) (range_bindings i lo hi) Hi Hw) as (Hg & Hn).
  { by apply ascending_filter. }
  { intros p. unfold range_bindings, al_from, in_range. rewrite !list_elem_of_filter. tauto. }
  { unfold in_range. intros a b Hab. by rewrite Hab. }
  destruct (listing_of os i (fun v => ~ klt v lo) (al_from lo (bindings i)) Hi Hw) as (Hg' & Hn').
  { done. }
  { intros p. unfold al_from. by rewrite list_elem_of_filter. }
  { intros a b Hab. by rewrite Hab. }
  pose proof (listing_bound _ _ _ Hg). pose proof (listing_bound _ _ _ Hg').
  eexists i, _, _. split; [exact E|]. split; [exact Hg|]. split; [exact Hg'|]. rewrite Hn, Hn' in *. split.
  - apply RangeCount_spec; [done|done|lia|lia].
  - apply RangeCountFrom_spec; [done|done|lia|lia].
Qed.

(** ** Bulk loads *)

(** Inserting pairs one at a time. *)
Definition inserts (values : list V) (nodes : list Z) : list (idx_op (V := V)) :=
  (fun p => OpInsert p.1 p.2) <$> zip values nodes.

Lemma holds_inserts pairs w y : fold_left (holds_after w y) ((fun p => OpInsert p.1 p.2) <$> pairs) false = true <->
  exists v, (v, y) ∈ pairs /\ keq v w.
Proof.
  assert (H : forall b, fold_left (holds_after w y) ((fun p => OpInsert p.1 p.2) <$> pairs) b = true <->
    b = true \/ exists v, (v, y) ∈ pairs /\ keq v w).
  { induction pairs as [|[v x] pairs IH]; intros b; cbn [fmap list_fmap fold_left].
    - split; [tauto|]. intros [?|(v & Hin & _)]; [done|]. by apply not_elem_of_nil in Hin.
    - rewrite IH. cbn [holds_after fst snd]. rewrite orb_true_iff, andb_true_iff, bool_decide_eq_true, Z.eqb_eq. split.
      + intros [[?|[Hk ->]]|(v' & Hin & Hk)]; [by left|right; exists v; split; [left|done]|right; exists v'; split; [by right|done]].
      + intros [?|(v' & Hin & Hk)]; [tauto|]. apply elem_of_cons in Hin as [[= -> ->]|Hin]; [tauto|right; eauto]. }
  rewrite H. naive_solver.
Qed.

Lemma zip_nodes_ok (values : list V) (nodes : list Z) : Forall inline_id nodes ->
  Forall (fun p => inline_id p.2) (zip values nodes).
Proof.
  intros Hn. revert values. induction Hn as [|x nodes Hx _ IH]; intros [|v values]; cbn [zip_with]; constructor; [done|apply IH].
Qed.

Lemma loaded_like_inserts pairs values nodes i : index_ok i -> Forall inline_id nodes -> few values ->
  pairs ≡ₚ zip values nodes -> pairs_sorted pairs -> exists i1 i2,
  load_pairs pairs i = Some i1 /\ idx_run (inserts values nodes) New = Some i2 /\ same_answers i1 i2.
Proof.
  intros Hi Hn Hf Hp Hs. assert (Hok : Forall (fun p => inline_id p.2) pairs).
  { rewrite Hp. by apply zip_nodes_ok. }
  destruct (load_pairs_spec pairs i (proj1 Hi) Hs Hok) as (i1 & E1 & Hi1 & Hw1 & Hh1).
  assert (Hlen : (length (zip values nodes) <= length values)%nat) by (rewrite length_zip_with; lia).
  destruct (run_from_new (B := B) (inserts values nodes)) as (i2 & E2 & Hi2 & Hw2 & Hh2).
  { unfold inserts. apply Forall_fmap. eapply Forall_impl; [by apply zip_nodes_ok|]. done. }
  { unfold few, inserts in *. rewrite length_fmap. lia. }
  exists i1, i2. spl; [done|done|]. apply same_answers_ids; [done|done| |done|].
  - apply Hh1. rewrite Hp. unfold few in Hf.
    apply Nat2Z.inj_le. rewrite Nat2Z.inj_pow. change (Z.of_nat (packCap 2)) with 85%Z. change (Z.of_nat maxCursorDepth) with 16%Z.
    assert (2 ^ 101 < 85 ^ 16)%Z by done. lia.
  - intros w y. rewrite Hw1, Hw2. unfold holds, inserts. rewrite holds_inserts. by setoid_rewrite Hp.
Qed.

(** bulk loading is inserting one pair at a time.  For pairs in any order,
    whatever the index held before, [BulkLoad] leaves an index that answers every
    query as the index built by inserting the pairs into an empty one, and
    [BulkLoadSorted] does the same for values in ascending order and refuses every
    other input; slices of different lengths are refused by both. *)
Theorem bulk_load_equiv (sort_Slice : list (V * Z) -> list (V * Z)) os values nodes :
  (forall l, sort_Slice l ≡ₚ l /\ pairs_sorted (sort_Slice l)) ->
  Forall idx_op_ok os -> few os -> Forall inline_id nodes -> few values ->
  exists i0, idx_run os New = Some i0 /\
  if (length values =? length nodes)%nat then
    exists i1 i2, idx_run (inserts values nodes) New = Some i2 /\
    BulkLoad sort_Slice values nodes i0 = Some (inr i1) /\ same_answers i1 i2 /\
    (sorted_scan values = true <-> StronglySorted (fun a b => ~ klt b a) values) /\
    if sorted_scan values
    then exists i3, BulkLoadSorted values nodes i0 = Some (inr i3) /\ same_answers i3 i2
    else BulkLoadSorted values nodes i0 = Some (inl ErrNotSorted)
  else BulkLoad sort_Slice values nodes i0 = Some (inl ErrMismatchedLengths) /\
    BulkLoadSorted values nodes i0 = Some (inl ErrMismatchedLengths).
Proof.
  intros Hsort Ho Hf Hn Hfv. destruct (run_from_new (B := B) os Ho Hf) as (i0 & E0 & Hi0 & _). exists i0. split; [done|].
  unfold BulkLoad, BulkLoadSorted. destruct (length values =? length nodes)%nat; cbn [negb]; [|done].
  destruct (Hsort (zip values nodes)) as [Hp Hs].
  destruct (loaded_like_inserts _ values nodes i0 Hi0 Hn Hfv Hp Hs) as (i1 & i2 & E1 & E2 & H12).
  exists i1, i2. rewrite E1. cbn [mbind option_bind]. spl; [done|done|done|apply sorted_scan_spec|].
  destruct (sorted_scan values) eqn:Es; cbn [negb]; [|done].
  destruct (loaded_like_inserts (zip values nodes) values nodes i0 Hi0 Hn Hfv) as (i3 & i2' & E3 & E2' & H32);
    [done|by apply zip_sorted, sorted_scan_spec|].
  exists i3. rewrite E3. cbn [mbind option_bind]. split; [done|]. by simplify_eq.
Qed.
End index.

(** ** The properties at concrete histories *)

(** Three hundred keys inserted out of order, half of them removed: the tree has
    split and has two levels. *)
Definition demo_tree_ops : list (tree_op (V := Z)) :=
  map (fun n => TPut (Z.of_nat n * 7 mod 300)%Z n) (seq 0 300) ++ map (fun n => TDel (Z.of_nat n * 2)%Z) (seq 0 150).

Lemma bplus_refines_witness : exists t, tree_run demo_tree_ops newBplus = Some t /\
  count t = 150%nat /\ get t 7%Z = Some (Some 1%nat) /\ get t 8%Z = Some None.
Proof.
  destruct (bplus_refines demo_tree_ops) as (t & E & _ & Hc & Hg & _); [by vm_compute|].
  exists t. split; [exact E|]. rewrite Hc, !Hg. split; [|split]; vm_compute; reflexivity.
Defined.

Lemma bplus_shape_witness : exists t, tree_run demo_tree_ops newBplus = Some t /\ (height t <= 2)%nat.
Proof.
  destruct (bplus_shape demo_tree_ops) as (t & E & _ & _ & Hh); [by vm_compute|]. exists t. split; [exact E|].
  change (Z.of_nat (length demo_tree_ops)) with 450%Z in Hh.
  destruct (decide (height t <= 2)%nat) as [|H3]; [done|].
  assert (64 ^ 2 <= 64 ^ (Z.of_nat (height t) - 1))%Z by (apply Z.pow_le_mono_r; lia). lia.
Defined.

(** Float keys: two NaN patterns and the two zeros are one key each. *)
Definition demo_nan : float64 := mkFloat64 0x7FF8000000000001.
Definition demo_nan' : float64 := mkFloat64 0xFFF8000000000002.
Definition demo_zero : float64 := mkFloat64 0.
Definition demo_minus_zero : float64 := mkFloat64 (2 ^ 63).
Definition demo_one : float64 := mkFloat64 0x3FF0000000000000.

Definition demo_idx_ops : list (idx_op (V := float64)) :=
  [OpInsert demo_one 4; OpInsert demo_nan 9; OpInsert demo_zero 5; OpInsert demo_nan' 2;
   OpInsert demo_minus_zero 6; OpInsert demo_one 3; OpDelete demo_zero 5; OpDelete demo_nan 9].

Lemma demo_idx_ops_ok : Forall idx_op_ok demo_idx_ops.
Proof. repeat constructor; unfold maxSingletonID; lia. Qed.


Lemma index_ranges_witness : exists (i : Index float64 (list Z)) b, idx_run demo_idx_ops New = Some i /\
  Range demo_minus_zero demo_one i = Some b /\ 6%Z ∈ rb_ToArray b /\ 3%Z ∈ rb_ToArray b.
Proof.
  destruct (index_ranges (B := list Z) demo_idx_ops demo_minus_zero demo_one demo_idx_ops_ok) as (i & E & (b & Eb & Hb) & _);
    [by vm_compute|]. exists i, b. split; [exact E|]. split; [exact Eb|].
  split; apply Hb; [exists demo_zero|exists demo_one]; (split; [split; by vm_compute|by vm_compute]).
Defined.

Lemma index_counts_witness : exists (i : Index float64 (list Z)), idx_run demo_idx_ops New = Some i /\
  exists gs, listing demo_idx_ops (in_range demo_zero demo_one) gs /\
  RangeCount demo_zero demo_one 2 i = Some (if (listed gs <=? 2)%Z then (listed gs, true) else (3%Z, false)) /\
  RangeCount demo_zero demo_one 2 i = Some (3%Z, false).
Proof.
  destruct (index_counts (B := list Z) demo_idx_ops demo_zero demo_one 2 demo_idx_ops_ok) as (i & gs & gs' & E & H1 & _ & H2 & _);
    [by vm_compute|lia|]. exists i. split; [exact E|]. exists gs. split; [exact H1|]. split; [exact H2|].
  vm_compute in E. injection E as <-. vm_compute. reflexivity.
Defined.

(** Sorting by insertion. *)
Fixpoint sort_insert (p : Z * Z) (l : list (Z * Z)) : list (Z * Z) :=
  match l with
  | [] => [p]
  | q :: l' => if keyLess q.1 p.1 then q :: sort_insert p l' else p :: l
  end.

Definition demo_sort (l : list (Z * Z)) : list (Z * Z) := foldr sort_insert [] l.

Lemma demo_sort_ok l : demo_sort l ≡ₚ l /\ pairs_sorted (demo_sort l).
Proof.
  assert (Hp : forall p l, sort_insert p l ≡ₚ p :: l).
  { intros p r. induction r as [|q r IH]; [done|]. cbn [sort_insert]. destruct (keyLess q.1 p.1); [|done].
    rewrite IH. constructor. }
  assert (Hs : forall p l, pairs_sorted l -> pairs_sorted (sort_insert p l)).
  { intros p r. unfold pairs_sorted. induction r as [|q r IH]; intros Hr; cbn [sort_insert]; [repeat constructor|].
    destruct (keyLess q.1 p.1) eqn:E.
    - apply StronglySorted_cons in Hr as [Hq Hr]. constructor; [auto|]. rewrite Hp. constructor; [|done].
      intros H. apply (klt_irrefl (V := Z) q.1). by eapply klt_trans.
    - pose proof Hr as Hr'. apply StronglySorted_cons in Hr' as [Hq _]. constructor; [done|].
      assert (Hqp : ~ klt q.1 p.1) by (unfold klt; by rewrite E). constructor; [done|].
      eapply Forall_impl; [exact Hq|]. intros x Hx. by eapply kle_trans. }
  induction l as [|p l [IH1 IH2]]; [split; [done|constructor]|]. split; [|by apply Hs].
  cbn [demo_sort foldr]. fold (demo_sort l). by rewrite Hp, IH1.
Qed.

Lemma bulk_load_equiv_witness : exists (i0 i1 i2 : Index Z (list Z)),
  idx_run [OpInsert 8%Z 8%Z] New = Some i0 /\ BulkLoad demo_sort [5; 3; 5]%Z [1; 2; 7]%Z i0 = Some (inr i1) /\
  idx_run (inserts [5; 3; 5]%Z [1; 2; 7]%Z) New = Some i2 /\ same_answers i1 i2 /\
  BulkLoadSorted [5; 3; 5]%Z [1; 2; 7]%Z i0 = Some (inl ErrNotSorted).
Proof.
  destruct (bulk_load_equiv (B := list Z) demo_sort [OpInsert 8%Z 8%Z] [5; 3; 5]%Z [1; 2; 7]%Z demo_sort_ok)
    as (i0 & E & i1 & i2 & E2 & E1 & Hs & _ & H3);
    [repeat constructor; unfold maxSingletonID; lia|by vm_compute|
     repeat constructor; unfold maxSingletonID; lia|by vm_compute|].
  exists i0, i1, i2. split; [exact E|]. split; [exact E1|]. split; [exact E2|]. split; [exact Hs|exact H3].
Defined.
