(* ===== verification/BtreeCodec.v ===== *)
(** * The serialised index (src/graph/index/btree/index.go)

    The bytes of an ordered index: the key encodings by Go kind, [Serialize], which
    walks the published snapshot with a cursor, and [Deserialize], which checks a
    payload entry by entry and rebuilds the tree bottom-up. *)

From Stdlib Require Import ZArith Lia.
From stdpp Require Import gmap.
From S2P Require Import Prelude Wire Ordered NodeSet Bplus BtreeIndex.

Local Open Scope Z_scope.

(** ** Kinds of keys *)

(** The cases of the type switches; [KOther] is any other ordered type. *)
Inductive kind := KString | KInt64 | KInt32 | KInt | KUint64 | KUint32 | KUint | KFloat64 | KOther.

(** The values of a kind: bytes, bits, or an integer. *)
Definition kval (k : kind) : Type :=
  match k with KString => list Z | KFloat64 => float64 | _ => Z end.

#[export] Instance kval_Ordered k : Ordered (kval k) :=
  match k with KString => string_Ordered | KFloat64 => float64_Ordered | _ => Z_Ordered end.

#[export] Instance kval_OrderedLaws k : OrderedLaws (kval k).
Proof. destruct k; simpl; apply _. Qed.

Inductive index_err := ErrIndexCorrupted | ErrIndexValueTypeUnsupported | ErrKeyTooLong.

(** [encodeOrdered]; an [int] and a [uint] have 64 bits. *)
Definition encodeOrdered (k : kind) : kval k -> index_err + list Z :=
  match k with
  | KString => fun x => inr x
  | KInt64 | KInt | KUint64 | KUint => fun x => inr (putLE 8 (u64 x))
  | KInt32 | KUint32 => fun x => inr (putLE 4 (u32 x))
  | KFloat64 => fun x => inr (putLE 8 (bits x))
  | KOther => fun _ => inl ErrIndexValueTypeUnsupported
  end.

(** A fixed-width case: the length check, then the integer. *)
Definition fixed {A} (n : nat) (f : Z -> A) (b : list Z) : index_err + A :=
  if negb (length b =? n)%nat then inl ErrIndexCorrupted else inr (f (getLE b)).

Definition decodeOrdered (k : kind) : list Z -> index_err + kval k :=
  match k with
  | KString => fun b => inr b
  | KInt64 | KInt => fixed 8 (signed 64)
  | KInt32 => fixed 4 (signed 32)
  | KUint64 | KUint => fixed 8 id
  | KUint32 => fixed 4 id
  | KFloat64 => fixed 8 mkFloat64
  | KOther => fun _ => inl ErrIndexValueTypeUnsupported
  end.

(** The values Go can hold of a kind. *)
Definition key_ok (k : kind) : kval k -> Prop :=
  match k with
  | KString => fun x => bytes x /\ Z.of_nat (length x) < 2 ^ 32
  | KInt64 | KInt => fun x => - 2 ^ 63 <= x < 2 ^ 63
  | KInt32 => fun x => - 2 ^ 31 <= x < 2 ^ 31
  | KUint64 | KUint => fun x => 0 <= x < 2 ^ 64
  | KUint32 => fun x => 0 <= x < 2 ^ 32
  | KFloat64 => fun x => 0 <= bits x < 2 ^ 64
  | KOther => fun _ => False
  end.

(** ** Writing *)

Definition btreeMagic : Z := 0x52544253.
Definition btreeFormatVersion : Z := 1.

Section codec.
Context {B : Type} `{RB : Roaring B} (kd : kind).
Local Abbreviation V := (kval kd).

(** The body of the loop: the bytes of one entry, or an error. *)
Definition write_entry (key : V) (ids : list Z) : index_err + list Z :=
  match encodeOrdered kd key with
  | inl err => inl err
  | inr key =>
      if 2 ^ 32 - 1 <? Z.of_nat (length key) then inl ErrKeyTooLong
      else inr (putLE 4 (u32 (Z.of_nat (length key))) ++ key ++
                putLE 8 (u64 (Z.of_nat (length ids))) ++ flat_map (putLE 8) ids)
  end.

Definition Serialize (i : Index V B) : option (index_err + list Z) :=
  let t := tree i in
  let header := putLE 4 btreeMagic ++ putLE 4 btreeFormatVersion ++ putLE 8 (u64 (Z.of_nat (count t))) in
  c ← seekFirst t;
  r ← scan (scan_fuel i) (fun tee key e =>
    s ← entry_set e i;
    Some match write_entry key (ToArray s) with inl err => inr err | inr b => inl (tee ++ b) end) header c;
  Some match r with
       | inr err => inl err
       | inl tee => inr (tee ++ putLE 4 (crc_update 0 tee))
       end.

(** ** Reading *)

(** [binary.Read] and [io.ReadFull] of an [n]-byte integer. *)
Definition readLE (n : nat) (br : list Z) : option (Z * list Z) :=
  '(p, br) ← take_bytes n br; Some (getLE p, br).

(** [n] integers of eight bytes. *)
Fixpoint read_ids (n : nat) (br : list Z) : option (list Z * list Z) :=
  match n with
  | O => Some ([], br)
  | S n => '(x, br) ← readLE 8 br; '(xs, br) ← read_ids n br; Some (x :: xs, br)
  end.

(** One pass of the loop: the entry and what is left. *)
Definition read_entry (body_len : Z) (prev : option V) (br : list Z)
  : index_err + (V * NodeSet B * list Z) :=
  match readLE 4 br with
  | None => inl ErrIndexCorrupted
  | Some (keyLen, br) =>
      if body_len <? keyLen then inl ErrIndexCorrupted
      else match take_bytes (Z.to_nat keyLen) br with
      | None => inl ErrIndexCorrupted
      | Some (kbuf, br) =>
          match decodeOrdered kd kbuf with
          | inl err => inl err
          | inr v =>
              let disordered := match prev with
                                | Some p => match keyCompare v p with Gt => false | _ => true end
                                | None => false end in
              if disordered then inl ErrIndexCorrupted
              else match readLE 8 br with
              | None => inl ErrIndexCorrupted
              | Some (idCount, br) =>
                  if body_len / 8 <? idCount then inl ErrIndexCorrupted
                  else match read_ids (Z.to_nat idCount) br with
                  | None => inl ErrIndexCorrupted
                  | Some (ids, br) => inr (v, NodeSetFromSorted ids, br)
                  end
              end
          end
      end
  end.

(** The loop over [entryCount] entries.  Each takes at least twelve bytes, so a
    unit of fuel per byte and one more is enough; [None] is exhausted fuel. *)
Fixpoint read_entries (fuel : nat) (body_len todo : Z) (prev : option V) (br : list Z)
  : option (index_err + list (V * NodeSet B)) :=
  if todo =? 0 then Some (inr [])
  else match fuel with
  | O => None
  | S fuel =>
      match read_entry body_len prev br with
      | inl err => Some (inl err)
      | inr (v, s, br) =>
          r ← read_entries fuel body_len (todo - 1) (Some v) br;
          Some match r with inl err => inl err | inr gs => inr ((v, s) :: gs) end
      end
  end.

(** The header, up to the entry count. *)
Definition read_header (br : list Z) : option (Z * list Z) :=
  '(magic, br) ← readLE 4 br;
  if negb (magic =? btreeMagic) then None
  else
    '(version, br) ← readLE 4 br;
    if negb (version =? btreeFormatVersion) then None
    else
      '(entryCount, br) ← readLE 8 br;
      if 2 ^ 40 <? entryCount then None else Some (entryCount, br).

(** The index is replaced on success and untouched on an error. *)
Definition Deserialize (all : list Z) (i : Index V B) : option (index_err + Index V B) :=
  if (length all <? 4)%nat then Some (inl ErrIndexCorrupted)
  else
    let body := take (length all - 4) all in
    let trailer := getLE (drop (length all - 4) all) in
    if negb (crc_update 0 body =? trailer) then Some (inl ErrIndexCorrupted)
    else match read_header body with
    | None => Some (inl ErrIndexCorrupted)
    | Some (entryCount, br) =>
        r ← read_entries (S (length body)) (Z.of_nat (length body)) entryCount None br;
        match r with
        | inl err => Some (inl err)
        | inr gs => i' ← load_groups gs i; Some (inr i')
        end
    end.
End codec.
