(* ===== verification/BtreeCodecProps.v ===== *)
(** * Properties of the serialised index

    The key encodings invert, what [Serialize] writes is what [Deserialize] reads,
    a changed byte is always detected, and no payload makes [Deserialize] panic. *)

From Stdlib Require Import ZArith Lia.
From stdpp Require Import gmap.
From S2P Require Import Prelude Wire Ordered NodeSet NodeSetProps Bplus BplusInv BplusOps BplusCursor BtreeIndex BtreeIndexInv BtreeIndexProps BtreeLoad BtreeCodec.

Local Open Scope Z_scope.

(** ** Keys *)

Lemma fixed_put {A} n (f : Z -> A) x : 0 <= x < width n -> fixed n f (putLE n x) = inr (f x).
Proof. intros Hx. unfold fixed. by rewrite length_putLE, Nat.eqb_refl, getLE_putLE. Qed.

Lemma width_8 : width 8 = 2 ^ 64. Proof. done. Qed.
Lemma width_4 : width 4 = 2 ^ 32. Proof. done. Qed.

Lemma u64_range x : 0 <= u64 x < width 8.
Proof. rewrite width_8. apply Z.mod_pos_bound. lia. Qed.

Lemma u32_range x : 0 <= u32 x < width 4.
Proof. rewrite width_4. apply Z.mod_pos_bound. lia. Qed.

(** Encoding a key gives bytes, fewer than a key length can count, that decode to
    the key. *)
Lemma encode_decode k v : key_ok k v -> exists b, encodeOrdered k v = inr b /\ decodeOrdered k b = inr v /\
  bytes b /\ Z.of_nat (length b) < 2 ^ 32.
Proof.
  destruct k; cbn [key_ok encodeOrdered decodeOrdered]; intros Hv; try done.
  all: eexists; split; [done|]; rewrite ?fixed_put by (apply u64_range || apply u32_range || done).
  - destruct Hv. by spl.
  - spl; [|apply bytes_putLE|by rewrite length_putLE]. unfold u64. f_equal. apply (signed_wrap 64); [lia|exact Hv].
  - spl; [|apply bytes_putLE|by rewrite length_putLE]. unfold u32. f_equal. apply (signed_wrap 32); [lia|exact Hv].
  - spl; [|apply bytes_putLE|by rewrite length_putLE]. unfold u64. f_equal. apply (signed_wrap 64); [lia|exact Hv].
  - spl; [|apply bytes_putLE|by rewrite length_putLE]. by rewrite u64_small.
  - spl; [|apply bytes_putLE|by rewrite length_putLE]. by rewrite u32_small.
  - spl; [|apply bytes_putLE|by rewrite length_putLE]. by rewrite u64_small.
  - spl; [|apply bytes_putLE|by rewrite length_putLE]. by destruct v.
Qed.

Lemma readLE_put n x rest : 0 <= x < width n -> readLE n (putLE n x ++ rest) = Some (x, rest).
Proof.
  intros Hx. unfold readLE. rewrite take_bytes_app by apply length_putLE. cbn [mbind option_bind].
  by rewrite getLE_putLE.
Qed.

Lemma read_ids_put ids rest : Forall (fun x => 0 <= x < 2 ^ 64) ids ->
  read_ids (length ids) (flat_map (putLE 8) ids ++ rest) = Some (ids, rest).
Proof.
  induction 1 as [|x ids Hx _ IH]; [done|]. cbn [length read_ids flat_map].
  rewrite <- app_assoc, readLE_put by done. cbn [mbind option_bind]. by rewrite IH.
Qed.

Lemma length_ids ids : length (flat_map (putLE 8) ids) = (8 * length ids)%nat.
Proof. induction ids as [|x ids IH]; [done|]. cbn [flat_map length]. rewrite length_app, length_putLE, IH. lia. Qed.

Lemma bytes_app l1 l2 : bytes l1 -> bytes l2 -> bytes (l1 ++ l2).
Proof. intros. by apply Forall_app. Qed.

Lemma bytes_flat_map {A} (f : A -> list Z) l : (forall x, x ∈ l -> bytes (f x)) -> bytes (flat_map f l).
Proof.
  induction l as [|x l IH]; intros H; cbn [flat_map]; [constructor|].
  apply bytes_app; [apply H; left|apply IH; intros; apply H; by right].
Qed.

Section codec.
Context {B : Type} `{RB : Roaring B} {RL : RoaringLaws B} (kd : kind).
Local Abbreviation V := (kval kd).
Implicit Types (i : Index V B) (p : V * list Z) (gs : list (V * list Z)).

(** ** One entry *)

Definition entry_image p : list Z :=
  match write_entry kd p.1 p.2 with inr b => b | inl _ => [] end.

Definition entry_fits p : Prop :=
  key_ok kd p.1 /\ Forall (fun x => 0 <= x < 2 ^ 64) p.2 /\ Z.of_nat (length p.2) < 2 ^ 64.

Lemma entry_image_spec p : entry_fits p -> exists kb, decodeOrdered kd kb = inr p.1 /\
  bytes kb /\ Z.of_nat (length kb) < 2 ^ 32 /\ write_entry kd p.1 p.2 = inr (entry_image p) /\
  entry_image p = putLE 4 (Z.of_nat (length kb)) ++ kb ++ putLE 8 (Z.of_nat (length p.2)) ++ flat_map (putLE 8) p.2.
Proof.
  intros (Hk & _ & Hn). destruct (encode_decode kd p.1 Hk) as (kb & E & D & Hb & Hl).
  exists kb. unfold entry_image, write_entry. rewrite E.
  destruct (Z.ltb_spec (2 ^ 32 - 1) (Z.of_nat (length kb))); [lia|].
  rewrite u32_small, u64_small by lia. by spl.
Qed.

Lemma bytes_entry p : entry_fits p -> bytes (entry_image p).
Proof.
  intros Hp. destruct (entry_image_spec p Hp) as (kb & _ & Hb & _ & _ & ->).
  repeat apply bytes_app; auto using bytes_putLE. apply bytes_flat_map. auto using bytes_putLE.
Qed.

(** What the reader makes of it. *)
Definition loaded p : V * NodeSet B := (p.1, NodeSetFromSorted p.2).

Lemma keyCompare_Gt (a b : V) : keyCompare a b = Gt <-> klt b a.
Proof.
  rewrite keyCompare_spec. fold (klt b a). unfold klt. destruct (keyLess a b) eqn:E; [|by destruct (keyLess b a)].
  split; [done|]. intros H. exfalso. by apply (klt_irrefl a), (klt_trans _ b).
Qed.

Lemma read_entry_image body_len prev p rest : entry_fits p ->
  Z.of_nat (length (entry_image p)) <= body_len -> (forall q, prev = Some q -> klt q p.1) ->
  read_entry (B := B) kd body_len prev (entry_image p ++ rest) = inr (p.1, NodeSetFromSorted p.2, rest).
Proof.
  intros Hp Hb Hq. destruct (entry_image_spec p Hp) as (kb & D & _ & Hl & _ & E). destruct Hp as (_ & Hi & Hn).
  rewrite E in *. rewrite !length_app, !length_putLE, length_ids in Hb. rewrite <- !app_assoc. unfold read_entry.
  rewrite readLE_put by (rewrite width_4; lia).
  destruct (Z.ltb_spec body_len (Z.of_nat (length kb))); [lia|].
  rewrite Nat2Z.id, take_bytes_app by done. rewrite D.
  assert ((match prev with Some q => match keyCompare p.1 q with Gt => false | _ => true end | None => false end) = false) as ->.
  { destruct prev as [q|]; [|done]. by rewrite (proj2 (keyCompare_Gt p.1 q) (Hq q eq_refl)). }
  rewrite readLE_put by (rewrite width_8; lia).
  destruct (Z.ltb_spec (body_len / 8) (Z.of_nat (length p.2))) as [Hd|].
  { exfalso. assert (Z.of_nat (length p.2) <= body_len / 8); [|lia]. apply Z.div_le_lower_bound; lia. }
  by rewrite Nat2Z.id, read_ids_put.
Qed.

(** ** The payload *)

Definition body gs : list Z :=
  putLE 4 btreeMagic ++ putLE 4 btreeFormatVersion ++ putLE 8 (u64 (Z.of_nat (length gs))) ++
  flat_map entry_image gs.

Definition payload gs : list Z := body gs ++ putLE 4 (crc_update 0 (body gs)).

Record fits gs : Prop := mkFits {
  fit_entries : Forall entry_fits gs;
  fit_keys : StronglySorted klt gs.*1;
  fit_count : Z.of_nat (length gs) <= 2 ^ 40;
}.

Lemma bytes_body gs : fits gs -> bytes (body gs).
Proof.
  intros Hf. unfold body. repeat apply bytes_app; auto using bytes_putLE. apply bytes_flat_map.
  intros p Hp. apply bytes_entry. pose proof (fit_entries gs Hf) as H. rewrite Forall_forall in H. auto.
Qed.

Lemma read_entries_image gs : forall fuel body_len prev rest, Forall entry_fits gs -> StronglySorted klt gs.*1 ->
  (forall q, prev = Some q -> Forall (klt q) gs.*1) ->
  Z.of_nat (length (flat_map entry_image gs)) <= body_len -> (length gs <= fuel)%nat ->
  read_entries (B := B) kd fuel body_len (Z.of_nat (length gs)) prev (flat_map entry_image gs ++ rest) =
    Some (inr (loaded <$> gs)).
Proof.
  induction gs as [|p gs IH]; intros fuel body_len prev rest Hp Hs Hq Hb Hf; [by destruct fuel|].
  destruct fuel as [|fuel]; [simpl in Hf; lia|]. cbn [read_entries].
  destruct (Z.eqb_spec (Z.of_nat (length (p :: gs))) 0); [simpl in *; lia|].
  apply Forall_cons in Hp as [Hp Hps]. cbn [fmap list_fmap] in Hs, Hq. apply StronglySorted_cons in Hs as [Hk Hs].
  cbn [flat_map] in *. rewrite length_app in Hb. rewrite <- app_assoc, read_entry_image; [|done|lia|].
  2: { intros q Eq. specialize (Hq q Eq). by apply Forall_cons in Hq as [? _]. }
  replace (Z.of_nat (length (p :: gs)) - 1) with (Z.of_nat (length gs)) by (simpl; lia).
  rewrite IH; [done|done|done| |lia|simpl in Hf; lia]. intros q [= <-]. done.
Qed.

Lemma length_images gs : Forall entry_fits gs -> (length gs <= length (flat_map entry_image gs))%nat.
Proof.
  induction 1 as [|p gs Hp _ IH]; [done|]. cbn [flat_map length]. rewrite length_app.
  destruct (entry_image_spec p Hp) as (kb & _ & _ & _ & _ & ->). rewrite length_app, length_putLE. lia.
Qed.

Lemma Deserialize_payload gs i : fits gs ->
  Deserialize kd (payload gs) i = (i' ← load_groups (loaded <$> gs) i; Some (inr i')).
Proof.
  intros Hf. pose proof (bytes_body gs Hf) as Hbytes. unfold Deserialize, payload.
  set (bd := body gs) in *. set (crc := crc_update 0 bd).
  rewrite !length_app, length_putLE. destruct (Nat.ltb_spec (length bd + 4) 4); [lia|].
  replace (length bd + 4 - 4)%nat with (length bd) by lia.
  rewrite take_app_length, drop_app_length, getLE_putLE by (apply (crc_update_range 0); [done|done]).
  subst crc. rewrite Z.eqb_refl. cbn [negb].
  assert (read_header bd = Some (Z.of_nat (length gs), flat_map entry_image gs)) as ->.
  { pose proof (fit_count gs Hf). unfold read_header, bd, body.
    rewrite readLE_put by done. cbn [mbind option_bind]. rewrite Z.eqb_refl. cbn [negb].
    rewrite readLE_put by done. cbn [mbind option_bind]. rewrite Z.eqb_refl. cbn [negb].
    rewrite readLE_put by apply u64_range. cbn [mbind option_bind]. rewrite u64_small by lia.
    destruct (Z.ltb_spec (2 ^ 40) (Z.of_nat (length gs))); [lia|done]. }
  pose proof (length_images gs (fit_entries gs Hf)).
  assert (length (flat_map entry_image gs) <= length bd)%nat by (unfold bd, body; rewrite !length_app; lia).
  rewrite <- (app_nil_r (flat_map entry_image gs)), read_entries_image; [done|apply Hf|apply Hf|done|lia|lia].
Qed.

(** ** Writing an index *)

Lemma Serialize_spec i : index_ok i -> (height (tree i) <= S maxCursorDepth)%nat -> Forall entry_fits (contents i) ->
  Serialize kd i = Some (inr (payload (contents i))).
Proof.
  intros Hi Hd Hf. unfold Serialize.
  destruct (seekFirst_spec (tree i) (so_tree i (proj1 Hi)) Hd) as (c & -> & H1 & H2 & H3). cbn [mbind option_bind].
  rewrite (scan_spec _ (height (tree i))); [|done|done|].
  2: { rewrite H3. unfold scan_fuel. rewrite (proj1 (so_tree i (proj1 Hi))). lia. }
  rewrite H3. set (tee := putLE 4 btreeMagic ++ _).
  assert (Hl : forall (l : list (V * loc)) tee, (forall x, x ∈ l -> x.2 ∈ locs i) ->
    Forall entry_fits ((fun x => (x.1, ids_at (mem i) x.2)) <$> l) ->
    list_scan (R := index_err) (fun tee key e => s ← entry_set e i;
      Some match write_entry kd key (ToArray s) with inl err => inr err | inr b => inl (tee ++ b) end) l tee =
    Some (inl (tee ++ flat_map entry_image ((fun x => (x.1, ids_at (mem i) x.2)) <$> l)))).
  { clear -Hi RL. induction l as [|[k e] l IH]; intros tee Hlocs Hfits; cbn [list_scan fmap list_fmap flat_map]; [by rewrite app_nil_r|].
    cbn [fmap list_fmap] in Hfits. apply Forall_cons in Hfits as [Hp Hfits].
    destruct (entry_set_spec i Hi e) as (s & -> & Hs & _); [apply (Hlocs (k, e)); left|]. cbn [mbind option_bind].
    rewrite (ToArray_spec _ _ Hs). destruct (entry_image_spec _ Hp) as (_ & _ & _ & _ & Hw & _).
    cbn [fst snd] in *. rewrite Hw. cbn [mbind option_bind]. rewrite IH; [|intros; apply Hlocs; by right|done].
    by rewrite <- app_assoc. }
  rewrite Hl; [|intros x Hx; apply list_elem_of_fmap; eauto|exact Hf]. cbn [mbind option_bind].
  unfold payload, body. unfold contents, bindings. rewrite length_fmap, <- (proj1 (so_tree i (proj1 Hi))).
  subst tee. by rewrite <- !app_assoc.
Qed.

(** ** The indexes that histories build *)

Definition op_key_ok (o : idx_op (V := V)) : Prop :=
  match o with OpInsert v _ => key_ok kd v | OpDelete _ _ => True end.

Definition entry_good p : Prop := sorted p.2 /\ Forall inline_id p.2 /\ p.2 <> [].

Lemma listed_length gs : Forall entry_good gs ->
  Z.of_nat (length gs) <= listed gs /\ forall p, p ∈ gs -> Z.of_nat (length p.2) <= listed gs.
Proof.
  induction 1 as [|p gs (_ & _ & Hne) _ [IH1 IH2]]; cbn [listed foldr length].
  - split; [lia|]. intros p Hp. by apply not_elem_of_nil in Hp.
  - fold (listed gs). split.
    + destruct p as [k [|y l]]; [done|]. cbn [snd length]. lia.
    + intros q Hq. apply elem_of_cons in Hq as [->|Hq]; [lia|]. specialize (IH2 q Hq). lia.
Qed.

Lemma inline_u64 x : inline_id x -> 0 <= x < 2 ^ 64.
Proof. unfold inline_id, maxSingletonID. lia. Qed.

Lemma reachable_fits os : Forall idx_op_ok os -> Forall op_key_ok os -> Z.of_nat (length os) <= 2 ^ 40 ->
  exists i, idx_run os New = Some i /\ index_ok i /\ (height (tree i) <= S maxCursorDepth)%nat /\
  fits (contents i) /\ Forall entry_good (contents i).
Proof.
  intros Ho Hk Hn. destruct (run_from_new (B := B) os Ho) as (i & E & Hi & Hw & Hd); [unfold few; lia|].
  exists i. destruct (contents_listing os i Hi Hw) as [Hl _]. pose proof (listing_bound _ _ _ Hl) as Hb.
  destruct Hl as (Hs & Hg & _).
  assert (Hgood : Forall entry_good (contents i)).
  { apply Forall_forall. intros [k l] Hin. destruct (Hg k l Hin) as (_ & H1 & H2 & H3). split; [done|]. split; [|done].
    apply Forall_forall. intros y Hy. apply H3 in Hy. apply holds_inserted in Hy as [?|(v & Hv & _)]; [done|].
    rewrite Forall_forall in Ho. exact (Ho _ Hv). }
  destruct (listed_length _ Hgood) as [Hlen Hids]. spl; try done. split; [|done|lia].
  assert (Hkeys : Forall (key_ok kd) (keys_of i)).
  { apply (keys_inserted (key_ok kd) os Ho Hk New i); [apply New_ok|done|constructor]. }
  rewrite Forall_forall in Hgood |- *. intros [k l] Hin. destruct (Hgood _ Hin) as (_ & H2 & _). split; [|split].
  - rewrite Forall_forall in Hkeys. apply Hkeys. unfold contents in Hin.
    apply list_elem_of_fmap in Hin as ((k' & e) & [= -> ->] & Hin). apply list_elem_of_fmap. by exists (k', e).
  - eapply Forall_impl; [exact H2|apply inline_u64].
  - specialize (Hids _ Hin). lia.
Qed.

(** Reading back what was written. *)
Lemma load_contents gs i : fits gs -> Forall entry_good gs -> index_ok i ->
  exists i', load_groups (loaded <$> gs) i = Some i' /\ index_ok i' /\ contents i' = gs /\
  (forall w, ids i' w = match al_get w gs with Some l => l | None => [] end) /\
  (height (tree i') <= S maxCursorDepth)%nat.
Proof.
  intros Hf Hg [Hi _]. assert (Hinv : forall p, p ∈ gs -> ns_inv (B := B) (NodeSetFromSorted p.2) p.2).
  { intros p Hp. rewrite Forall_forall in Hg. destruct (Hg p Hp) as (H1 & H2 & _). by apply inv_sorted_list. }
  assert (Hok : groups_ok (loaded <$> gs)).
  { split.
    - unfold ascending. pose proof (fit_keys gs Hf) as Hs. clear -Hs. induction gs as [|p gs IH]; [constructor|].
      rewrite fmap_cons in *. apply StronglySorted_cons in Hs as [Hp Hs]. constructor; [by apply IH|].
      assert (Hp' : Forall (klt p.1) gs.*1) by exact Hp. rewrite Forall_fmap in Hp'. by apply Forall_fmap.
    - apply Forall_fmap, Forall_forall. intros p Hp. exists p.2. split; [by apply Hinv|].
      rewrite Forall_forall in Hg. apply (Hg p Hp). }
  destruct (load_groups_spec _ i Hok Hi) as (i' & E & Hi' & Hids & Hh & Hc). exists i'. spl; [done|done| | |].
  - rewrite Hc, <- list_fmap_compose. rewrite <- (list_fmap_id gs) at 2. apply list_fmap_ext. intros j [k l] Hp.
    apply list_elem_of_lookup_2 in Hp. pose proof (ToArray_spec _ _ (Hinv _ Hp)) as Ht.
    unfold compose, loaded. cbn [fst snd] in *. by rewrite Ht.
  - intros w. rewrite Hids. unfold group_ids. clear -Hinv RL. unfold al_get, al_at.
    induction gs as [|p gs IH]; [done|]. cbn [fmap list_fmap]. rewrite !filter_cons. change (loaded p).1 with p.1.
    case_decide; [|apply IH; intros; apply Hinv; by right]. cbn. apply ToArray_spec, Hinv. left.
  - apply Hh. rewrite length_fmap. pose proof (fit_count gs Hf). apply Nat2Z.inj_le. rewrite Nat2Z.inj_pow.
    change (Z.of_nat (packCap 2)) with 85. change (Z.of_nat maxCursorDepth) with 16.
    assert (2 ^ 40 < 85 ^ 16) by done. lia.
Qed.

Lemma contents_ids i w : index_ok i -> ids i w = match al_get w (contents i) with Some l => l | None => [] end.
Proof.
  intros _. unfold ids, contents, al_get, al_at. induction (bindings i) as [|p l IH]; [done|].
  cbn [fmap list_fmap]. rewrite !filter_cons. cbn [fst]. case_decide; [done|exact IH].
Qed.

(** ** Reading any bytes *)

Lemma readLE_spec n br x br' : readLE n br = Some (x, br') ->
  exists q, br = q ++ br' /\ length q = n /\ x = getLE q.
Proof.
  unfold readLE. intros ([p r] & E & [= <- <-])%bind_Some. apply take_bytes_spec in E as [-> Hl]. by exists p.
Qed.

Lemma readLE_short n br x br' : readLE n br = Some (x, br') -> (length br = n + length br')%nat.
Proof. intros (p & -> & Hl & _)%readLE_spec. by rewrite length_app, Hl. Qed.

(** An accepted header is sixteen bytes, the last eight being the count. *)
Lemma read_header_spec bd n br rest : bytes bd -> read_header bd = Some (n, br) ->
  0 <= n <= 2 ^ 40 /\ (length br <= length bd)%nat /\ n = getLE (take 8 (drop 8 (bd ++ rest))).
Proof.
  intros Hb. unfold read_header.
  intros ([m r1] & (p1 & -> & L1 & _)%readLE_spec & E)%bind_Some. destruct (negb _); [done|].
  apply bind_Some in E as ([v r2] & (p2 & -> & L2 & _)%readLE_spec & E). destruct (negb _); [done|].
  apply bind_Some in E as ([c r3] & (p3 & -> & L3 & ->)%readLE_spec & E). destruct (Z.ltb_spec (2 ^ 40) (getLE p3)); [done|].
  simplify_eq. rewrite !Forall_app in Hb. destruct Hb as (_ & _ & Hb & _). pose proof (getLE_range p3 Hb).
  spl; [lia|lia|rewrite !length_app; lia|]. f_equal.
  replace ((p1 ++ p2 ++ p3 ++ br) ++ rest) with ((p1 ++ p2) ++ p3 ++ br ++ rest) by (by rewrite <- !app_assoc).
  rewrite drop_app_length' by (rewrite length_app; lia). by rewrite take_app_length'.
Qed.

Lemma read_ids_short n : forall br xs br', read_ids n br = Some (xs, br') -> (length br' <= length br)%nat.
Proof.
  induction n as [|n IH]; intros br xs br'; cbn [read_ids]; [intros [= _ <-]; done|].
  intros ([x r] & E & H)%bind_Some. apply bind_Some in H as ([ys r'] & E' & [= _ <-]).
  apply IH in E'. apply readLE_short in E. lia.
Qed.

(** What an accepted entry tells: its key is above the previous one, and bytes were
    read; the kinds of error otherwise. *)
Lemma read_entry_any body_len prev br :
  match read_entry (B := B) kd body_len prev br with
  | inl e => e = ErrIndexCorrupted \/ (e = ErrIndexValueTypeUnsupported /\ kd = KOther)
  | inr (v, s, br') => (length br' < length br)%nat /\ forall q, prev = Some q -> klt q v
  end.
Proof.
  unfold read_entry. destruct (readLE 4 br) as [[n br1]|] eqn:E1; [|by left]. apply readLE_short in E1.
  destruct (body_len <? n); [by left|]. destruct (take_bytes (Z.to_nat n) br1) as [[kb br2]|] eqn:E2; [|by left].
  apply take_bytes_spec in E2 as [-> _]. rewrite length_app in E1.
  destruct (decodeOrdered kd kb) as [err|v] eqn:E3.
  { revert E3. clear. destruct kd; cbn [decodeOrdered]; unfold fixed; try case_match; intros [= <-]; auto. }
  set (dis := match prev with Some _ => _ | None => _ end). destruct dis eqn:Ed; [by left|].
  destruct (readLE 8 br2) as [[m br3]|] eqn:E4; [|by left]. apply readLE_short in E4.
  destruct (body_len / 8 <? m); [by left|]. destruct (read_ids (Z.to_nat m) br3) as [[xs br4]|] eqn:E5; [|by left].
  apply read_ids_short in E5. split; [lia|]. intros q ->. subst dis. apply keyCompare_Gt. by destruct (keyCompare v q).
Qed.

Lemma read_entries_any body_len fuel : forall todo prev br, (length br < fuel)%nat ->
  exists r, read_entries (B := B) kd fuel body_len todo prev br = Some r /\
  match r with
  | inl e => e = ErrIndexCorrupted \/ (e = ErrIndexValueTypeUnsupported /\ kd = KOther)
  | inr ps => (0 <= todo -> Z.of_nat (length ps) = todo) /\ StronglySorted klt ps.*1 /\
      forall q, prev = Some q -> Forall (klt q) ps.*1
  end.
Proof.
  induction fuel as [|fuel IH]; intros todo prev br Hf; [lia|]. cbn [read_entries].
  destruct (Z.eqb_spec todo 0) as [->|Hne].
  { eexists. split; [done|]. split; [done|]. split; [constructor|]. intros q _. constructor. }
  pose proof (read_entry_any body_len prev br) as He. destruct (read_entry kd body_len prev br) as [e|[[v s] br']].
  { by eexists. }
  destruct He as [Hlen Hq]. destruct (IH (todo - 1) (Some v) br' ltac:(lia)) as (r & -> & Hr). cbn [mbind option_bind].
  eexists. split; [done|]. destruct r as [e|ps]; [done|]. destruct Hr as (H1 & H2 & H3). spl.
  - intros H. destruct (decide (todo < 0)); [lia|]. cbn [length]. lia.
  - cbn [fmap list_fmap fst]. constructor; [done|by apply H3].
  - intros q Eq. cbn [fmap list_fmap fst]. constructor; [by apply Hq|].
    eapply Forall_impl; [by apply H3|]. intros k Hk. by eapply klt_trans; [apply Hq|].
Qed.

(** ** Properties *)

(** C33: serialising and reading back.  The index any history of at most 2^40 updates with keys of a supported
    kind and ids below 2^62 builds is written without an error, and reading the bytes into any other
    index such a history builds, whatever it held, replaces it by one that answers every query (lookups,
    cardinalities, closed and open ranges, first rows, budgeted counts) as the
    original, first rows up to the equality of keys, and that is written to the same bytes again. *)
Theorem index_roundtrip os os0 : Forall idx_op_ok os -> Forall op_key_ok os ->
  Z.of_nat (length os) <= 2 ^ 40 -> Forall idx_op_ok os0 -> few os0 ->
  exists i i0 i' b, idx_run os New = Some i /\ idx_run os0 New = Some i0 /\
  Serialize (B := B) kd i = Some (inr b) /\ Deserialize kd b i0 = Some (inr i') /\
  same_answers i i' /\ Serialize kd i' = Some (inr b).
Proof.
  intros Ho Hk Hn Ho0 Hf0. destruct (reachable_fits os Ho Hk Hn) as (i & E & Hi & Hd & Hf & Hg).
  destruct (run_from_new (B := B) os0 Ho0 Hf0) as (i0 & E0 & Hi0 & _).
  destruct (load_contents (contents i) i0 Hf Hg Hi0) as (i' & El & Hi' & Hc & Hids & Hd').
  exists i, i0, i', (payload (contents i)). rewrite Deserialize_payload, El by done. spl; try done.
  - apply Serialize_spec; [done|done|apply Hf].
  - apply same_answers_ids; [done..|]. intros w y. by rewrite Hids, contents_ids.
  - rewrite <- Hc. apply Serialize_spec; [done|done|]. rewrite Hc. apply Hf.
Qed.

(** a changed byte is detected.  Replacing any one byte, of the body or of the
    checksum, of a payload that [Deserialize] accepts makes it refuse the payload
    as corrupted. *)
Theorem corruption_detected pre b b' post i i' : bytes (pre ++ b :: post) -> is_byte b' -> b <> b' ->
  Deserialize (B := B) kd (pre ++ b :: post) i = Some (inr i') ->
  Deserialize (B := B) kd (pre ++ b' :: post) i = Some (inl ErrIndexCorrupted).
Proof.
  intros Hb Hb' Hne. pose proof Hb as Hb2. apply Forall_app in Hb2 as [Hpre Hb2]. apply Forall_cons in Hb2 as [Hbb Hpost].
  unfold Deserialize. rewrite !length_app. cbn [length].
  destruct (Nat.ltb_spec (length pre + S (length post)) 4) as [|Hlen]; [done|].
  set (n := (length pre + S (length post) - 4)%nat).
  destruct (crc_update 0 (take n (pre ++ b :: post)) =? getLE (drop n (pre ++ b :: post))) eqn:E; [|done].
  intros _. apply Z.eqb_eq in E. enough (crc_update 0 (take n (pre ++ b' :: post)) <> getLE (drop n (pre ++ b' :: post))) as Hd.
  { apply Z.eqb_neq in Hd. by rewrite Hd. }
  destruct (decide (length pre < n)%nat) as [Hn|Hn].
  - replace n with (length pre + S (length post - 4))%nat in * by lia.
    rewrite !take_app_add, !drop_app_add in *. cbn [take drop] in *.
    rewrite <- E. intros Ec. symmetry in Ec. revert Ec. apply crc_one_byte; auto; [split; done|by apply Forall_take].
  - rewrite !take_app_le in * by lia. rewrite E. intros Ec. apply Hne.
    rewrite !drop_app_le in Ec by lia.
    assert (Hl : forall x, length (drop n pre ++ x :: post) = 4%nat).
    { intros x. rewrite length_app, length_drop. cbn [length]. lia. }
    assert (Hx : drop n pre ++ b :: post = drop n pre ++ b' :: post).
    { rewrite <- (putLE_getLE (drop n pre ++ b :: post) 4), <- (putLE_getLE (drop n pre ++ b' :: post) 4); [by rewrite Ec| | | |];
        try done; apply Forall_app; (split; [by apply Forall_drop|by constructor]). }
    by simplify_eq.
Qed.

(** no payload makes [Deserialize] panic, run on or build an ill-formed tree.
    On any bytes it either refuses, as corrupted or because the kind has no
    encoding, or leaves a balanced, strictly ordered tree within the cursor's
    depth, with as many keys as the header declares. *)
Theorem deserialize_total all os : bytes all -> Forall idx_op_ok os -> few os ->
  exists i r, idx_run os New = Some i /\ Deserialize (B := B) kd all i = Some r /\
  match r with
  | inl e => e = ErrIndexCorrupted \/ (e = ErrIndexValueTypeUnsupported /\ kd = KOther)
  | inr i' => tree_ok (tree i') /\ (height (tree i') <= S maxCursorDepth)%nat /\
      Z.of_nat (DistinctValues i') = getLE (take 8 (drop 8 all))
  end.
Proof.
  intros Hb Ho Hf. destruct (run_from_new (B := B) os Ho Hf) as (i & E & Hi & _). exists i.
  unfold Deserialize. destruct (Nat.ltb_spec (length all) 4); [by exists (inl ErrIndexCorrupted); split; [exact E|split; [done|left]]|].
  set (bd := take _ all). destruct (crc_update 0 bd =? _); cbn [negb]; [|by exists (inl ErrIndexCorrupted); split; [exact E|split; [done|left]]].
  destruct (read_header bd) as [[n br]|] eqn:Eh; [|by exists (inl ErrIndexCorrupted); split; [exact E|split; [done|left]]].
  destruct (read_header_spec bd n br (drop (length all - 4) all)) as (Hn & Hl & Hc); [by apply Forall_take|done|].
  replace (bd ++ drop (length all - 4) all) with all in Hc by (symmetry; apply take_drop).
  destruct (read_entries_any (Z.of_nat (length bd)) (S (length bd)) n None br) as (r & -> & Hr); [lia|].
  cbn [mbind option_bind]. destruct r as [e|ps]; [by eexists|]. destruct Hr as (Hlen & Hs & _).
  assert (Ha : ascending ps).
  { unfold ascending. clear -Hs. induction ps as [|p ps IH]; [constructor|]. rewrite fmap_cons in Hs.
    apply StronglySorted_cons in Hs as [Hp Hs]. constructor; [by apply IH|].
    assert (Hp' : Forall (klt p.1) ps.*1) by exact Hp. by rewrite Forall_fmap in Hp'. }
  destruct (bulkPack_spec ps (mem i) Ha) as (t & ptrs & st & Eb & Ht & Hk & HF & _ & _ & _ & _ & Hh).
  { split; [constructor|by intros e ?%not_elem_of_nil|apply (so_heap i (proj1 Hi))]. }
  unfold load_groups. rewrite Eb. cbn [mbind option_bind]. exists (inr (mkIndex t (arena i) st)). split; [exact E|]. split; [done|]. split; [done|split].
  - apply Hh. apply Nat2Z.inj_le. rewrite Nat2Z.inj_pow. change (Z.of_nat (packCap 2)) with 85.
    change (Z.of_nat maxCursorDepth) with 16. assert (2 ^ 40 < 85 ^ 16) by done. rewrite Hlen; lia.
  - rewrite <- Hc, <- (Hlen ltac:(lia)). unfold DistinctValues. cbn [tree]. rewrite (proj1 Ht), Hk.
    apply Forall2_length in HF. rewrite length_fmap in HF. by rewrite length_zip_with, length_fmap, HF, Nat.min_id.
Qed.
End codec.

(** ** The properties at concrete histories *)

Definition demo_str : list (idx_op (V := kval KString)) :=
  [OpInsert [98; 97] 4; OpInsert [97] 9; OpInsert [] 5; OpInsert [97] 2; OpDelete [97] 9].

Lemma demo_str_ok : Forall idx_op_ok demo_str /\ Forall (op_key_ok KString) demo_str.
Proof. split; repeat constructor; unfold maxSingletonID, is_byte; simpl; lia. Qed.

Lemma index_roundtrip_witness : exists (i i0 i' : Index (kval KString) (list Z)) b,
  idx_run demo_str New = Some i /\ idx_run [OpInsert [1] 1] New = Some i0 /\
  Serialize KString i = Some (inr b) /\ Deserialize KString b i0 = Some (inr i') /\ LookupAppend [97] [] i' = Some [2].
Proof.
  destruct (index_roundtrip (B := list Z) KString demo_str [OpInsert [1] 1] (proj1 demo_str_ok) (proj2 demo_str_ok))
    as (i & i0 & i' & b & E & E0 & Es & Ed & (_ & Hl & _) & _); [by vm_compute|repeat constructor; unfold maxSingletonID; lia|by vm_compute|].
  exists i, i0, i', b. split; [exact E|]. split; [exact E0|]. split; [exact Es|]. split; [exact Ed|].
  refine (eq_trans (eq_sym (proj1 (Hl [97] []))) _). vm_compute in E. injection E as <-. vm_compute. reflexivity.
Defined.

(** The payload of an index of one signed key, [-2], that holds the id [7]. *)
Definition demo_payload : list Z := Eval vm_compute in
  match (i ← idx_run (B := list Z) [OpInsert (V := kval KInt64) (-2) 7] New; Serialize KInt64 i) with
  | Some (inr b) => b
  | _ => []
  end.

Lemma corruption_detected_witness :
  Deserialize (B := list Z) KInt64 (take 20 demo_payload ++ 255 :: drop 21 demo_payload) New = Some (inl ErrIndexCorrupted).
Proof.
  destruct (Deserialize (B := list Z) KInt64 demo_payload New) as [[e|i']|] eqn:E; [by vm_compute in E| |by vm_compute in E].
  apply (corruption_detected KInt64 (take 20 demo_payload) 254 255 (drop 21 demo_payload) New i').
  - unfold is_byte. repeat constructor; simpl; lia.
  - unfold is_byte. lia.
  - lia.
  - exact E.
Defined.

Lemma deserialize_total_witness : exists (i : Index (kval KInt64) (list Z)) r,
  idx_run [OpInsert 3 1] New = Some i /\ Deserialize KInt64 demo_payload i = Some (inr r) /\ DistinctValues r = 1%nat.
Proof.
  destruct (deserialize_total (B := list Z) KInt64 demo_payload [OpInsert 3 1]) as (i & r & E & Ed & Hr).
  - unfold is_byte. repeat constructor; simpl; lia.
  - repeat constructor; unfold maxSingletonID; lia.
  - by vm_compute.
  - exists i. destruct r as [e|i'].
    + exfalso. vm_compute in E. injection E as <-. vm_compute in Ed. discriminate Ed.
    + exists i'. split; [exact E|]. split; [exact Ed|]. destruct Hr as (_ & _ & Hn).
      change (getLE (take 8 (drop 8 demo_payload))) with 1 in Hn. lia.
Defined.
