(* ===== verification/BtreeConc.v ===== *)
(** * The ordered index shared by threads (src/graph/index/btree/index.go)

    Goroutines that run [Insert], [Delete] and [Lookup] on one index: each thread is
    at a program point between two actions that others can observe -- loading the
    published snapshot, taking and releasing a mutex, and the body of a critical
    section -- and a schedule interleaves their steps.  The critical sections are
    those of BtreeIndex.v. *)

From Stdlib Require Import ZArith Lia.
From stdpp Require Import gmap.
From S2P Require Import Prelude Ordered NodeSet Bplus BtreeIndex.

Section conc.
Context {V B : Type} `{OV : Ordered V} {RB : Roaring B}.

Inductive cop := CInsert (v : V) (x : Z) | CDelete (v : V) (x : Z) | CLookup (v : V).
Inductive res := ROk | RIds (l : list Z).

(** The program points.  [Done] is a thread without a call, with what the last one
    returned; [Start] is before the first load. *)
Inductive pc :=
  | Done (r : res)
  | Start (o : cop)
  (* [Insert] on the key's entry *)
  | ILock (v : V) (x : Z) (e : loc)
  | IAdd (v : V) (x : Z) (e : loc)
  | IUnlock (v : V) (x : Z) (e : loc) (added : bool)
  (* [insertStructural] *)
  | SMu (v : V) (x : Z)
  | SLoad (v : V) (x : Z)
  | SLock (v : V) (x : Z) (e : loc)
  | SJoin (v : V) (x : Z) (e : loc)
  | SUnlock (e : loc)
  | SPublish (v : V) (x : Z) (t : bplus V)
  | SUnmu
  (* [Delete] *)
  | DLock (v : V) (x : Z) (e : loc)
  | DRemove (v : V) (x : Z) (e : loc)
  | DUnlock (v : V) (e : loc) (nowEmpty : bool)
  (* [detach] *)
  | TMu (v : V)
  | TLoad (v : V)
  | TLock (v : V) (t : bplus V) (e : loc)
  | TCheck (v : V) (t : bplus V) (e : loc)
  | TUnlock (v : V) (t : bplus V) (e : loc) (killed : bool)
  | TPublish (v : V) (t : bplus V)
  | TUnmu
  (* [Lookup] *)
  | LLock (v : V) (e : loc)
  | LRead (v : V) (e : loc)
  | LUnlock (e : loc) (l : list Z).

(** The index, [Index.mu], every [entry.mu], and the threads. *)
Record cstate := mkC {
  idx : Index V B;
  mu : option nat;
  emu : loc -> option nat;
  pcs : nat -> pc;
}.

Definition goto (t : nat) (p : pc) (s : cstate) : cstate :=
  mkC (idx s) (mu s) (emu s) (<[t := p]> (pcs s)).
Definition put (i : Index V B) (s : cstate) : cstate := mkC i (mu s) (emu s) (pcs s).

Definition lock_mu (t : nat) (p : pc) (s : cstate) : option cstate :=
  match mu s with
  | None => Some (goto t p (mkC (idx s) (Some t) (emu s) (pcs s)))
  | Some _ => None
  end.
Definition unlock_mu (t : nat) (p : pc) (s : cstate) : cstate :=
  goto t p (mkC (idx s) None (emu s) (pcs s)).
Definition lock_entry (t : nat) (e : loc) (p : pc) (s : cstate) : option cstate :=
  match emu s e with
  | None => Some (goto t p (mkC (idx s) (mu s) (<[e := Some t]> (emu s)) (pcs s)))
  | Some _ => None
  end.
Definition unlock_entry (t : nat) (e : loc) (p : pc) (s : cstate) : cstate :=
  goto t p (mkC (idx s) (mu s) (<[e := None]> (emu s)) (pcs s)).

(** Under the entry's lock, [Lookup] copies the set out. *)
Definition read_entry_ids (e : loc) (st : store B) : option (list Z) :=
  en ← heap st !! e;
  let '(bm, shared) := Bitmap (set en) in
  Some (rb_ToArray (if (shared : bool) then rb_Clone bm else bm)).

(** One action of a thread: [None] when it has no call or waits for a mutex, and
    when the code would panic, which never happens. *)
Definition cstep (t : nat) (s : cstate) : option cstate :=
  let i := idx s in
  match pcs s t with
  | Done _ => None
  | Start (CInsert v x) =>
      r ← get (tree i) v;
      Some (goto t match r with Some e => ILock v x e | None => SMu v x end s)
  | ILock v x e => lock_entry t e (IAdd v x e) s
  | IAdd v x e =>
      '(st, added) ← add_to_entry e x (mem i);
      Some (goto t (IUnlock v x e added) (put (with_mem i st) s))
  | IUnlock v x e added => Some (unlock_entry t e (if (added : bool) then Done ROk else SMu v x) s)
  | SMu v x => lock_mu t (SLoad v x) s
  | SLoad v x =>
      r ← get (tree i) v;
      Some (goto t match r with Some e => SLock v x e | None => SPublish v x (tree i) end s)
  | SLock v x e => lock_entry t e (SJoin v x e) s
  | SJoin v x e =>
      st ← join_entry e x (mem i);
      Some (goto t (SUnlock e) (put (with_mem i st) s))
  | SUnlock e => Some (unlock_entry t e SUnmu s)
  | SPublish v x tr =>
      i' ← publish_insert v x (mkIndex tr (arena i) (mem i));
      Some (goto t SUnmu (put i' s))
  | SUnmu => Some (unlock_mu t (Done ROk) s)
  | Start (CDelete v x) =>
      r ← get (tree i) v;
      Some (goto t match r with Some e => DLock v x e | None => Done ROk end s)
  | DLock v x e => lock_entry t e (DRemove v x e) s
  | DRemove v x e =>
      '(st, nowEmpty) ← remove_from_entry e x (mem i);
      Some (goto t (DUnlock v e nowEmpty) (put (with_mem i st) s))
  | DUnlock v e nowEmpty => Some (unlock_entry t e (if (nowEmpty : bool) then TMu v else Done ROk) s)
  | TMu v => lock_mu t (TLoad v) s
  | TLoad v =>
      r ← get (tree i) v;
      Some (goto t match r with Some e => TLock v (tree i) e | None => TUnmu end s)
  | TLock v tr e => lock_entry t e (TCheck v tr e) s
  | TCheck v tr e =>
      '(st, killed) ← kill_entry e (mem i);
      Some (goto t (TUnlock v tr e killed) (put (with_mem i st) s))
  | TUnlock v tr e killed =>
      Some (unlock_entry t e (if (killed : bool) then TPublish v tr else TUnmu) s)
  | TPublish v tr =>
      i' ← publish_remove v (mkIndex tr (arena i) (mem i));
      Some (goto t TUnmu (put i' s))
  | TUnmu => Some (unlock_mu t (Done ROk) s)
  | Start (CLookup v) =>
      r ← get (tree i) v;
      Some (goto t match r with Some e => LLock v e | None => Done (RIds []) end s)
  | LLock v e => lock_entry t e (LRead v e) s
  | LRead v e =>
      l ← read_entry_ids e (mem i);
      Some (goto t (LUnlock e l) s)
  | LUnlock e l => Some (unlock_entry t e (Done (RIds l)) s)
  end.

(** A schedule calls operations on threads without a call and steps the others. *)
Inductive label := Call (t : nat) (o : cop) | Step (t : nat).

Definition mstep (l : label) (s : cstate) : option cstate :=
  match l with
  | Call t o => match pcs s t with Done _ => Some (goto t (Start o) s) | _ => None end
  | Step t => cstep t s
  end.

Fixpoint exec (ls : list label) (s : cstate) : option cstate :=
  match ls with [] => Some s | l :: ls => s' ← mstep l s; exec ls s' end.

Definition init : cstate := mkC New None (fun _ => None) (fun _ => Done ROk).
End conc.
Arguments cop V : clear implicits.
Arguments pc V : clear implicits.
Arguments label V : clear implicits.
Arguments cstate V B : clear implicits.
