(* ===== verification/BtreeConcInv.v ===== *)
(** * The shared index: effects and invariant

    What one action does to the index, as a relation with few cases; what every
    action keeps true for the threads that did not take it; and the invariant of
    the interleaved machine, mutual exclusion included. *)

From Stdlib Require Import ZArith Lia.
From stdpp Require Import gmap.
From S2P Require Import Prelude Ordered NodeSet NodeSetProps Bplus BplusInv BplusOps BtreeIndex BtreeIndexInv BtreeIndexProps BtreeConc.

Section conc.
Context {V B : Type} `{OV : Ordered V} {LV : OrderedLaws V} `{RB : Roaring B} {RL : RoaringLaws B}.
Implicit Types (i : Index V B) (v : V) (e : loc) (s : cstate V B) (p : pc V).

(** ** Effects on the index *)

Definition bound i v e : Prop := al_get v (bindings i) = Some e.
Definition is_dead i e : Prop := exists en, heap (mem i) !! e = Some en /\ dead en = true.
Definition is_live i e : Prop := exists en, heap (mem i) !! e = Some en /\ dead en = false.

Inductive effect i : Index V B -> option (cop V) -> Prop :=
  | eff_none : effect i i None
  | eff_add v x e en : bound i v e -> heap (mem i) !! e = Some en -> dead en = false -> inline_id x ->
      effect i (with_mem i (set_entry e (mkEntry false (Add x (set en)).1) (mem i))) (Some (CInsert v x))
  | eff_remove v x e en : bound i v e -> heap (mem i) !! e = Some en -> dead en = false ->
      effect i (with_mem i (set_entry e (mkEntry false (Remove x (set en)).1) (mem i))) (Some (CDelete v x))
  | eff_kill v e en : bound i v e -> heap (mem i) !! e = Some en -> dead en = false -> IsEmpty (set en) = true ->
      effect i (with_mem i (set_entry e (mkEntry true (set en)) (mem i))) None
  | eff_publish v x i' : al_get v (bindings i) = None -> inline_id x -> publish_insert v x i = Some i' ->
      effect i i' (Some (CInsert v x))
  | eff_detach v e i' : bound i v e -> is_dead i e -> publish_remove v i = Some i' -> effect i i' None.

(** The store is well formed and dead entries are empty. *)
Definition conc_ok i : Prop :=
  store_ok i /\ forall e en, heap (mem i) !! e = Some en -> dead en = true -> ns_inv (set en) [].

(** What holds across any effect: dead entries keep their state, and a bound entry
    stays bound unless it is dead. *)
Record env i i' : Prop := mkEnv {
  env_dead : forall e, is_dead i e -> is_dead i' e;
  env_bound : forall v e, bound i v e -> bound i' v e \/ is_dead i e;
}.

(** ... and across one that is not structural. *)
Record tame i i' : Prop := mkTame {
  tame_tree : tree i' = tree i;
  tame_live : forall e, is_live i e -> is_live i' e;
  tame_dead : forall e, is_dead i' e -> is_dead i e;
}.

(** The abstract effect. *)
Definition abs_effect (o : option (cop V)) i i' : Prop :=
  match o with
  | None => same_ids i i'
  | Some (CInsert v x) => with_id v x i i'
  | Some (CDelete v x) => without_id v x i i'
  | Some (CLookup _) => False
  end.

Lemma env_refl i : env i i.
Proof. by split; auto. Qed.

Lemma tame_refl i : tame i i.
Proof. by split. Qed.

Lemma is_dead_not_live i e : is_dead i e -> is_live i e -> False.
Proof. intros (en & H1 & H2) (en' & H3 & H4). congruence. Qed.

Lemma bound_in i v e : bound i v e -> e ∈ locs i.
Proof. apply al_get_in. Qed.

Lemma bound_entry i v e : store_ok i -> bound i v e -> exists en l, heap (mem i) !! e = Some en /\ ns_inv (set en) l.
Proof. intros Hi Hb. apply (so_entry i Hi), (bound_in i v e Hb). Qed.

Lemma bound_cases i v e : store_ok i -> bound i v e -> is_live i e \/ is_dead i e.
Proof. intros Hi Hb. destruct (bound_entry i v e Hi Hb) as (en & _ & H & _). destruct (dead en) eqn:E; [right|left]; by exists en. Qed.

Lemma bound_keq i v v' e : store_ok i -> bound i v e -> bound i v' e -> keq v v'.
Proof. intros Hi. apply al_get_key, (so_nodup i Hi). Qed.

(** A dead entry holds nothing. *)
Lemma dead_no_ids i v e : conc_ok i -> bound i v e -> is_dead i e -> ids i v = [].
Proof. intros [Hi Hd] Hb (en & He & Hdead). apply (ids_entry i v e en []); auto. by apply (Hd e en). Qed.

(** Writing an entry that stays bound. *)
Section write.
Variables (i : Index V B) (v : V) (e : loc) (en : entry B) (en' : entry B).
Hypotheses (Hb : bound i v e) (He : heap (mem i) !! e = Some en) (Hlive : dead en = false).
Let i' := with_mem i (set_entry e en' (mem i)).

Lemma write_lookup x : heap (mem i') !! x = if decide (e = x) then Some en' else heap (mem i) !! x.
Proof. apply set_entry_lookup. Qed.

Lemma write_env : env i i'.
Proof.
  split; [|by left]. intros x (enx & H1 & H2). exists enx. split; [|done]. rewrite write_lookup, decide_False; [done|].
  intros ->. congruence.
Qed.

Lemma write_tame : dead en' = false -> tame i i'.
Proof.
  intros Hd. split; [done| |].
  - intros x (enx & H1 & H2). unfold is_live. rewrite write_lookup. case_decide; eauto.
  - intros x (enx & H1 & H2). rewrite write_lookup in H1. case_decide; [congruence|]. by exists enx.
Qed.

Lemma write_ok l : conc_ok i -> ns_inv (set en') l -> (dead en' = true -> l = []) -> conc_ok i'.
Proof.
  intros [Hi Hd] Hl Hde. split; [by apply (store_ok_set i e en' l); [|eapply bound_in|]|].
  intros x enx. rewrite write_lookup. case_decide as Hx; [|apply Hd]. intros [= <-] H. by rewrite <- (Hde H).
Qed.
End write.

(** An entry that publishing adds to the heap is live. *)
Lemma publish_fresh i v x i' y en : publish_insert v x i = Some i' -> heap (mem i) !! y = None ->
  heap (mem i') !! y = Some en -> dead en = false.
Proof.
  unfold publish_insert, cloneInsert. intros ([[t' a'] st'] & H & [= <-])%bind_Some Hn Hy.
  apply bind_Some in H as ([[e a1] st1] & Ha & H). apply bind_Some in H as (en1 & He & H).
  apply bind_Some in H as (t1 & _ & [= <- <- <-]). cbn [mem] in Hy.
  assert (Hnew : forall z en', heap st1 !! z = Some en' -> heap (mem i) !! z = None -> en' = zero_entry).
  { intros z en' Hz Hzn. unfold alloc in Ha. destruct (arena i) as [|l a]; [|by simplify_eq].
    assert (st1 = (make_slab (mem i)).1) as -> by (destruct (make_slab (mem i)) as [st [|? ?]]; by simplify_eq/=).
    rewrite slab_lookup in Hz. case_decide; congruence. }
  rewrite set_entry_lookup in Hy. case_decide as Hey; [|by rewrite (Hnew y en Hy Hn)].
  simplify_eq. cbn [dead]. by rewrite (Hnew y en1 He Hn).
Qed.

Lemma effect_ok i i' o : conc_ok i -> effect i i' o -> conc_ok i' /\ env i i' /\ abs_effect o i i'.
Proof.
  intros Hok He. pose proof Hok as [Hi Hd]. destruct He as [|v x e en Hb He Hlive Hx|v x e en Hb He Hlive|v e en Hb He Hlive Hem|v x i' Hg Hx Hp|v e i' Hb Hdead Hp].
  - spl; [done|apply env_refl|by intros v].
  - destruct (add_section i v x e en false Hi Hx Hb He) as (l & H1 & H2 & H3 & H4). spl.
    + by apply (write_ok i v e _ Hb l).
    + by eapply write_env.
    + exact H4.
  - destruct (remove_section i v x e en Hi Hb He) as (l & H1 & H2 & H3 & _). cbv zeta in *. rewrite Hlive in *. spl.
    + by apply (write_ok i v e _ Hb l).
    + by eapply write_env.
    + exact H3.
  - destruct (bound_entry i v e Hi Hb) as (en' & l & He' & Hl). simplify_eq.
    rewrite (IsEmpty_spec _ _ Hl) in Hem. apply bool_decide_eq_true in Hem as ->. spl.
    + by apply (write_ok i v e _ Hb []).
    + by eapply write_env.
    + intros w. rewrite (ids_set i v w e (mkEntry true (set en)) []) by done. case_decide as Hk; [|done].
      symmetry. apply (ids_entry i w e en []); [|done|done]. by rewrite <- (al_get_keq v w).
  - destruct (publish_insert_section i v x Hi Hx Hg) as (i1 & e & E & H1 & H2 & H3 & H4 & H5 & H6 & H7 & _). simplify_eq.
    assert (Hnew : forall y en, heap (mem i) !! y = Some en -> dead en = true -> y <> e).
    { intros y en Hy Hde ->. destruct H4 as [Ha|Hn]; [|congruence]. rewrite (ho_zero _ _ (so_heap i Hi) e Ha) in Hy. by simplify_eq. }
    spl; [split; [done|]|split|exact H2].
    + intros y en Hy Hde. destruct (decide (y = e)) as [->|Hne]; [by simplify_eq|].
      destruct (heap (mem i) !! y) as [en'|] eqn:Hyi.
      * rewrite H6 in Hy by eauto. simplify_eq. by apply (Hd y).
      * pose proof (publish_fresh i v x _ y en Hp Hyi Hy). congruence.
    + intros y (en & Hy & Hde). exists en. split; [|done]. rewrite H6; eauto.
    + intros w y Hw. left. unfold bound. rewrite H3. unfold bound in Hw. rewrite al_get_insert_ne; [done|apply tree_ascending, (so_tree i Hi)|].
      intros Hk. rewrite <- (al_get_keq v w) in Hw by done. congruence.
  - destruct (publish_remove_section i v Hi) as (i1 & E & H1 & H2 & H3 & H4 & _ & H5). simplify_eq.
    spl; [split; [done|by rewrite H4]|split|apply H5; by eapply dead_no_ids].
    + intros y Hy. unfold is_dead. by rewrite H4.
    + intros w y Hw. destruct (decide (keq v w)) as [Hk|Hk].
      * right. unfold bound in *. rewrite <- (al_get_keq v w) in Hw by done. by simplify_eq.
      * left. unfold bound. rewrite H2. by rewrite al_get_remove_ne.
Qed.

(** ** The invariant of the machine *)

Definition holds_mu p : bool :=
  match p with
  | SLoad _ _ | SLock _ _ _ | SJoin _ _ _ | SUnlock _ | SPublish _ _ _ | SUnmu
  | TLoad _ | TLock _ _ _ | TCheck _ _ _ | TUnlock _ _ _ _ | TPublish _ _ | TUnmu => true
  | _ => false
  end.

Definition holds_entry p : option loc :=
  match p with
  | IAdd _ _ e | IUnlock _ _ e _ | SJoin _ _ e | SUnlock e | DRemove _ _ e | DUnlock _ e _
  | TCheck _ _ e | TUnlock _ _ e _ | LRead _ e | LUnlock e _ => Some e
  | _ => None
  end.

(** Between marking an entry dead and publishing a tree without its key. *)
Definition dooming p v : Prop :=
  match p with
  | TUnlock w _ _ true | TPublish w _ => keq w v
  | _ => False
  end.

(** What a thread knows of an entry it resolved from some snapshot. *)
Definition resolved i v e : Prop := bound i v e \/ is_dead i e.

Definition cop_ok (o : cop V) : Prop := match o with CInsert _ x => inline_id x | _ => True end.

Definition local_ok i p : Prop :=
  match p with
  | Start o => cop_ok o
  | ILock v x e | IAdd v x e => inline_id x /\ resolved i v e
  | IUnlock _ x _ _ | SMu _ x | SLoad _ x => inline_id x
  | SLock v x e | SJoin v x e => inline_id x /\ bound i v e /\ is_live i e
  | SPublish v x tr => inline_id x /\ tr = tree i /\ al_get v (bindings i) = None
  | DLock v _ e | DRemove v _ e | LLock v e | LRead v e => resolved i v e
  | TLock v tr e | TCheck v tr e => tr = tree i /\ bound i v e /\ is_live i e
  | TUnlock v tr e killed => tr = tree i /\ (killed = true -> bound i v e /\ is_dead i e)
  | TPublish v tr => tr = tree i /\ exists e, bound i v e /\ is_dead i e
  | _ => True
  end.

Record CInv s : Prop := mkCInv {
  ci_ok : conc_ok (idx s);
  ci_mu : forall t, mu s = Some t <-> holds_mu (pcs s t) = true;
  ci_emu : forall t e, emu s e = Some t <-> holds_entry (pcs s t) = Some e;
  ci_local : forall t, local_ok (idx s) (pcs s t);
  ci_live : forall v e, bound (idx s) v e -> is_dead (idx s) e -> exists t, dooming (pcs s t) v;
}.

(** ** Where a call takes effect *)

(** The call a thread runs before it took effect, and what it will return after. *)
Definition pending p : option (cop V) :=
  match p with
  | Start o => Some o
  | ILock v x _ | IAdd v x _ | IUnlock v x _ false | SMu v x | SLoad v x | SLock v x _ | SJoin v x _
  | SPublish v x _ => Some (CInsert v x)
  | DLock v x _ | DRemove v x _ => Some (CDelete v x)
  | LLock v _ | LRead v _ => Some (CLookup v)
  | _ => None
  end.

Definition effected p : option res :=
  match p with
  | Done r => Some r
  | IUnlock _ _ _ true | SUnlock _ | SUnmu | DUnlock _ _ _ | TMu _ | TLoad _ | TLock _ _ _ | TCheck _ _ _
  | TUnlock _ _ _ _ | TPublish _ _ | TUnmu => Some ROk
  | LUnlock _ l => Some (RIds l)
  | _ => None
  end.

(** The entry a [Delete] or a [Lookup] resolved and has not locked or read yet. *)
Definition target p : option (V * loc) :=
  match p with
  | DLock v _ e | DRemove v _ e | LLock v e | LRead v e => Some (v, e)
  | _ => None
  end.

(** The sequential meaning of a call that returns [r], from one index to another. *)
Definition op_spec (o : cop V) (r : res) i i' : Prop :=
  match o, r with
  | CInsert v x, ROk => with_id v x i i'
  | CDelete v x, ROk => without_id v x i i'
  | CLookup v, RIds l => same_ids i i' /\ l = ids i v
  | _, _ => False
  end.

(** What a call returns when its key is absent. *)
Definition absent_result (o : cop V) (v : V) (r : res) : Prop :=
  match o, r with
  | CDelete w _, ROk => w = v
  | CLookup w, RIds l => w = v /\ l = []
  | _, _ => False
  end.

Lemma same_refl i : same_ids i i.
Proof. by intros v. Qed.

Lemma absent_spec o v r i : ids i v = [] -> absent_result o v r -> op_spec o r i i.
Proof.
  destruct o as [w x|w x|w], r as [|l]; cbn [absent_result op_spec]; try done.
  - intros H -> u y. split; [|tauto]. intros Hy. split; [done|]. intros [Hk ->].
    unfold ids in Hy, H. rewrite <- (al_get_keq v u) in Hy by done. rewrite H in Hy. by apply not_elem_of_nil in Hy.
  - intros H [-> ->]. split; [apply same_refl|done].
Qed.

(** ** One step of a thread *)

(** How a step of thread [t] from [p] to [p'] changes a lock's holder. *)
Definition lock_step (t : nat) (h h' : option nat) (held held' : bool) : Prop :=
  (h' = h /\ held' = held) \/ (h = None /\ h' = Some t /\ held = false /\ held' = true) \/
  (h' = None /\ held = true /\ held' = false).

Definition holds_at p e : bool := bool_decide (holds_entry p = Some e).

(** The abstract side of a step. *)
Definition lin_step i i' p p' (o : option (cop V)) : Prop :=
  match pending p with
  | None => o = None /\ ((exists r, p = Done r) \/ effected p' = effected p)
  | Some op =>
      (pending p' = Some op /\ o = None /\
        (target p' = target p \/ exists v e, target p' = Some (v, e) /\ target p = None /\ bound i v e)) \/
      exists r, effected p' = Some r /\
        (op_spec op r i i' \/
         (o = None /\ exists v e, target p = Some (v, e) /\ is_dead i e /\ absent_result op v r))
  end.

Record Shape (t : nat) s s' p' (o : option (cop V)) : Prop := mkShape {
  sh_pcs : pcs s' = <[t := p']> (pcs s);
  sh_eff : effect (idx s) (idx s') o;
  sh_tame : holds_mu (pcs s t) = false -> tame (idx s) (idx s');
  sh_mu : lock_step t (mu s) (mu s') (holds_mu (pcs s t)) (holds_mu p');
  sh_emu : forall e, lock_step t (emu s e) (emu s' e) (holds_at (pcs s t) e) (holds_at p' e);
  sh_local : local_ok (idx s') p';
  sh_doom : forall v e, bound (idx s') v e -> is_dead (idx s') e ->
    dooming p' v \/ (bound (idx s) v e /\ is_dead (idx s) e /\ ~ dooming (pcs s t) v);
  sh_lin : lin_step (idx s) (idx s') (pcs s t) p' o;
}.

(** A step that leaves the index alone. *)
Lemma shape_plain t s s' p' : pcs s' = <[t := p']> (pcs s) -> idx s' = idx s ->
  lock_step t (mu s) (mu s') (holds_mu (pcs s t)) (holds_mu p') ->
  (forall e, lock_step t (emu s e) (emu s' e) (holds_at (pcs s t) e) (holds_at p' e)) ->
  local_ok (idx s) p' -> (forall v, dooming (pcs s t) v -> dooming p' v) ->
  lin_step (idx s) (idx s) (pcs s t) p' None -> Shape t s s' p' None.
Proof.
  intros H1 H2 H3 H4 H5 H6 H7. assert (Hd : forall v, Decision (dooming (pcs s t) v)).
  { intros v. unfold dooming. destruct (pcs s t); try apply _. destruct killed; apply _. }
  split; rewrite ?H2; [exact H1|constructor|intros _; apply tame_refl|exact H3|exact H4|exact H5| |exact H7].
  - intros v e Hb Hde. destruct (decide (dooming (pcs s t) v)); auto.
Qed.

Lemma same_lock t h held : lock_step t h h held held.
Proof. by left. Qed.

(** Moving without touching a lock. *)
Lemma emu_same t (f : loc -> option nat) p p' : holds_entry p' = holds_entry p ->
  forall e, lock_step t (f e) (f e) (holds_at p e) (holds_at p' e).
Proof. intros H e. unfold holds_at. rewrite H. apply same_lock. Qed.

Lemma emu_lock t (f : loc -> option nat) p p' e0 : f e0 = None -> holds_entry p = None -> holds_entry p' = Some e0 ->
  forall e, lock_step t (f e) (<[e0 := Some t]> f e) (holds_at p e) (holds_at p' e).
Proof.
  intros H0 H1 H2 e. unfold holds_at. rewrite H1, H2, fn_insert_dec. case_decide as He.
  - subst. right. left. rewrite (bool_decide_eq_true_2 (Some e = Some e)), (bool_decide_eq_false_2 (None = Some e)) by done. done.
  - rewrite (bool_decide_eq_false_2 (Some e0 = Some e)) by congruence.
    rewrite (bool_decide_eq_false_2 (None = Some e)) by done. by left.
Qed.

Lemma emu_unlock t (f : loc -> option nat) p p' e0 : holds_entry p = Some e0 -> holds_entry p' = None ->
  forall e, lock_step t (f e) (<[e0 := None]> f e) (holds_at p e) (holds_at p' e).
Proof.
  intros H1 H2 e. unfold holds_at. rewrite H1, H2, fn_insert_dec. case_decide as He.
  - subst. right. right. rewrite (bool_decide_eq_true_2 (Some e = Some e)), (bool_decide_eq_false_2 (None = Some e)) by done. done.
  - rewrite (bool_decide_eq_false_2 (Some e0 = Some e)) by congruence.
    rewrite (bool_decide_eq_false_2 (None = Some e)) by done. by left.
Qed.
End conc.

(** * The shared index: every step

    The shape of each action of BtreeConc.v -- its effect on the index, on the locks
    and on the thread's own knowledge -- and that the invariant is kept. *)

Section conc.
Context {V B : Type} `{OV : Ordered V} {LV : OrderedLaws V} `{RB : Roaring B} {RL : RoaringLaws B}.
Implicit Types (i : Index V B) (v : V) (e : loc) (s : cstate V B) (p : pc V).

Lemma with_mem_same i : with_mem i (mem i) = i.
Proof. by destruct i. Qed.

Lemma index_eta i : mkIndex (tree i) (arena i) (mem i) = i.
Proof. by destruct i. Qed.

Lemma put_same s : put (idx s) s = s.
Proof. by destruct s. Qed.

Lemma resolved_cases i v e : conc_ok i -> resolved i v e ->
  exists en, heap (mem i) !! e = Some en /\
  ((dead en = true /\ is_dead i e) \/ (dead en = false /\ bound i v e)).
Proof.
  intros [Hi _] [Hb|(en & He & Hd)].
  - destruct (bound_entry i v e Hi Hb) as (en & _ & He & _). exists en. split; [done|].
    destruct (dead en) eqn:E; [left; split; [done|by exists en]|by right].
  - exists en. split; [done|]. left. split; [done|by exists en].
Qed.

(** A thread that holds [mu] and is not retiring a key sees only live entries. *)
Lemma mu_live s t v e : CInv s -> holds_mu (pcs s t) = true -> (forall w, ~ dooming (pcs s t) w) ->
  bound (idx s) v e -> is_live (idx s) e.
Proof.
  intros HI Hm Hn Hb. destruct (bound_cases (idx s) v e (proj1 (ci_ok s HI)) Hb) as [|Hd]; [done|].
  destruct (ci_live s HI v e Hb Hd) as (u & Hu). apply (ci_mu s HI) in Hm.
  assert (Hmu : holds_mu (pcs s u) = true) by (unfold dooming in Hu; by destruct (pcs s u)).
  apply (ci_mu s HI) in Hmu. rewrite Hm in Hmu. injection Hmu as ->. by destruct (Hn v).
Qed.

Lemma lock_entry_some t e p s s' : lock_entry t e p s = Some s' ->
  emu s e = None /\ s' = goto t p (mkC (idx s) (mu s) (<[e := Some t]> (emu s)) (pcs s)).
Proof. unfold lock_entry. destruct (emu s e); [done|]. by intros [= <-]. Qed.

Lemma lock_mu_some t p s s' : lock_mu t p s = Some s' ->
  mu s = None /\ s' = goto t p (mkC (idx s) (Some t) (emu s) (pcs s)).
Proof. unfold lock_mu. destruct (mu s); [done|]. by intros [= <-]. Qed.

(** The three kinds of steps that leave the index alone, by what they do to locks. *)
Section plain.
Variables (t : nat) (s : cstate V B) (p p' : pc V).
Hypotheses (Hp : pcs s t = p) (Hloc : local_ok (idx s) p') (Hdoom : forall v, dooming p v -> dooming p' v)
  (Hlin : lin_step (idx s) (idx s) p p' None).

Lemma shape_move : holds_mu p' = holds_mu p -> holds_entry p' = holds_entry p -> Shape t s (goto t p' s) p' None.
Proof.
  intros H1 H2. apply shape_plain; rewrite ?Hp; try done.
  - rewrite H1. apply same_lock.
  - by apply emu_same.
Qed.

Lemma shape_lock_mu s' : lock_mu t p' s = Some s' -> holds_mu p = false -> holds_mu p' = true ->
  holds_entry p' = holds_entry p -> Shape t s s' p' None.
Proof.
  intros [H0 ->]%lock_mu_some H1 H2 H3. apply shape_plain; rewrite ?Hp; try done.
  - right. left. by rewrite H0.
  - by apply emu_same.
Qed.

Lemma shape_unlock_mu : holds_mu p = true -> holds_mu p' = false ->
  holds_entry p' = holds_entry p -> Shape t s (unlock_mu t p' s) p' None.
Proof.
  intros H1 H2 H3. apply shape_plain; rewrite ?Hp; try done.
  - by right; right.
  - by apply emu_same.
Qed.

Lemma shape_lock_entry e s' : lock_entry t e p' s = Some s' -> holds_mu p' = holds_mu p ->
  holds_entry p = None -> holds_entry p' = Some e -> Shape t s s' p' None.
Proof.
  intros [H0 ->]%lock_entry_some H1 H2 H3. apply shape_plain; rewrite ?Hp; try done.
  - rewrite H1. apply same_lock.
  - by apply emu_lock.
Qed.

Lemma shape_unlock_entry e : holds_mu p' = holds_mu p -> holds_entry p = Some e -> holds_entry p' = None ->
  Shape t s (unlock_entry t e p' s) p' None.
Proof.
  intros H1 H2 H3. apply shape_plain; rewrite ?Hp; try done.
  - rewrite H1. apply same_lock.
  - by apply emu_unlock.
Qed.
End plain.

(** A step that acts on the index without touching a lock. *)
Lemma shape_act t s p p' i' o : pcs s t = p -> holds_mu p' = holds_mu p -> holds_entry p' = holds_entry p ->
  effect (idx s) i' o -> (holds_mu p = false -> tame (idx s) i') -> local_ok i' p' ->
  (forall v e, bound i' v e -> is_dead i' e ->
    dooming p' v \/ (bound (idx s) v e /\ is_dead (idx s) e /\ ~ dooming p v)) ->
  lin_step (idx s) i' p p' o -> Shape t s (goto t p' (put i' s)) p' o.
Proof.
  intros Hp H1 H2 H3 H4 H5 H6 H7. split; rewrite ?Hp; try done.
  - rewrite H1. apply same_lock.
  - by apply emu_same.
Qed.

(** The deaths a tame effect shows were there before. *)
Lemma tame_doom i i' p p' : tame i i' -> (forall v, ~ dooming p v) ->
  forall v e, bound i' v e -> is_dead i' e -> dooming p' v \/ (bound i v e /\ is_dead i e /\ ~ dooming p v).
Proof.
  intros Ht Hn v e Hb Hd. right. spl; [|by apply (tame_dead i i' Ht)|apply Hn].
  unfold bound, bindings in *. by rewrite <- (tame_tree i i' Ht).
Qed.

(** A pending call that stays pending. *)
Lemma lin_pending i p p' op : pending p = Some op -> pending p' = Some op -> target p' = target p ->
  lin_step i i p p' None.
Proof. intros H1 H2 H3. unfold lin_step. rewrite H1. left. auto. Qed.

Lemma lin_resolve i p p' op v e : pending p = Some op -> pending p' = Some op -> target p = None ->
  target p' = Some (v, e) -> bound i v e -> lin_step i i p p' None.
Proof. intros H1 H2 H3 H4 H5. unfold lin_step. rewrite H1. left. spl; eauto 6. Qed.

(** A call that takes effect, and one that already has. *)
Lemma lin_effect i i' p p' op r o : pending p = Some op -> effected p' = Some r -> op_spec op r i i' ->
  lin_step i i' p p' o.
Proof. intros H1 H2 H3. unfold lin_step. rewrite H1. right. eauto. Qed.

Lemma lin_stale i p p' op r v e : pending p = Some op -> effected p' = Some r -> target p = Some (v, e) ->
  is_dead i e -> absent_result op v r -> lin_step i i p p' None.
Proof. intros H1 H2 H3 H4 H5. unfold lin_step. rewrite H1. right. exists r. split; [done|]. right. eauto 6. Qed.

Lemma lin_after i i' p p' : pending p = None -> effected p' = effected p -> lin_step i i' p p' None.
Proof. intros H1 H2. unfold lin_step. rewrite H1. auto. Qed.

Lemma lin_free i i' r p' : lin_step i i' (Done r) p' None.
Proof. unfold lin_step. cbn. eauto. Qed.

(** ** The steps *)

Section steps.
Context (t : nat) (s s' : cstate V B) (HI : CInv s).
Let i := idx s.

Lemma get_i v : get (tree i) v = Some (al_get v (bindings i)).
Proof. apply get_bindings, (ci_ok s HI). Qed.

Lemma local_at p : pcs s t = p -> local_ok i p.
Proof. intros <-. apply (ci_local s HI). Qed.

(** Writing a live bound entry under its lock, as [Insert] does. *)
Lemma shape_add p p' v x e en : pcs s t = p -> bound i v e -> heap (mem i) !! e = Some en -> dead en = false ->
  inline_id x -> pending p = Some (CInsert v x) -> effected p' = Some ROk -> holds_mu p' = holds_mu p ->
  holds_entry p' = holds_entry p -> (forall w, ~ dooming p w) ->
  let i' := with_mem i (set_entry e (mkEntry false (Add x (set en)).1) (mem i)) in
  local_ok i' p' -> Shape t s (goto t p' (put i' s)) p' (Some (CInsert v x)).
Proof.
  intros Hp Hb He Hd Hx H1 H2 H3 H4 H5 i' H6.
  assert (Ht : tame i i') by by apply (write_tame i e en).
  assert (Heff : effect i i' (Some (CInsert v x))) by by apply eff_add.
  apply (shape_act t s p p' i'); auto.
  - by apply tame_doom.
  - apply (lin_effect i i' p p' (CInsert v x) ROk); auto. apply (effect_ok i i' _ (ci_ok s HI) Heff).
Qed.

Lemma step_insert : match pcs s t with
  | Start (CInsert _ _) | ILock _ _ _ | IAdd _ _ _ | IUnlock _ _ _ _ | SMu _ _ => True | _ => False end ->
  cstep t s = Some s' -> exists p' o, Shape t s s' p' o.
Proof.
  unfold cstep. fold i. destruct (pcs s t) as [r|[v x|v x|v]|v x e|v x e|v x e added|v x| | | | | | | | | | | | | | | | | | |] eqn:Hp;
    try done; intros _; pose proof (local_at _ Hp) as Hl; cbn [local_ok cop_ok] in Hl.
  - rewrite get_i. cbn [mbind option_bind]. intros [= <-]. destruct (al_get v (bindings i)) as [e|] eqn:Hg.
    + exists (ILock v x e), None. apply (shape_move t s _ (ILock v x e) Hp); try done; [by split; [|left]|].
      by apply (lin_pending _ _ _ (CInsert v x)).
    + exists (SMu v x), None. apply (shape_move t s _ (SMu v x) Hp); try done. by apply (lin_pending _ _ _ (CInsert v x)).
  - intros Hs. exists (IAdd v x e), None. apply (shape_lock_entry t s _ (IAdd v x e) Hp Hl) with e; try done.
    by apply (lin_pending _ _ _ (CInsert v x)).
  - destruct Hl as [Hx Hr]. destruct (resolved_cases i v e (ci_ok s HI) Hr) as (en & He & Hc).
    unfold add_to_entry. rewrite He. cbn [mbind option_bind]. destruct Hc as [[Hd _]|[Hd Hb]]; rewrite Hd; cbn [mbind option_bind].
    + intros [= <-]. subst i. rewrite with_mem_same, put_same. exists (IUnlock v x e false), None.
      apply (shape_move t s _ (IUnlock v x e false) Hp); try done. by apply (lin_pending _ _ _ (CInsert v x)).
    + intros [= <-]. exists (IUnlock v x e true), (Some (CInsert v x)). apply (shape_add _ _ v x e en Hp); try done. intros w [].
  - intros [= <-]. exists (if added then Done ROk else SMu v x), None.
    destruct added; apply (shape_unlock_entry t s _ _ Hp); try done; [by apply lin_after|].
    by apply (lin_pending _ _ _ (CInsert v x)).
  - intros Hs. exists (SLoad v x), None. apply (shape_lock_mu t s _ (SLoad v x) Hp Hl); try done.
    by apply (lin_pending _ _ _ (CInsert v x)).
Qed.

(** Publishing a new key binds a live entry and revives nothing. *)
Lemma publish_doom v x i' w y : al_get v (bindings i) = None -> inline_id x -> publish_insert v x i = Some i' ->
  bound i' w y -> is_dead i' y -> bound i w y /\ is_dead i y.
Proof.
  intros Hg Hx E Hb (en & Hy & Hd). pose proof (proj1 (ci_ok s HI)) as Hi.
  destruct (publish_insert_section i v x Hi Hx Hg) as (i1 & e & E1 & _ & _ & Hbi & Hnew & He & Hkeep & _).
  rewrite E in E1. injection E1 as <-. split.
  - unfold bound in *. rewrite Hbi in Hb. destruct (decide (keq v w)) as [Hk|Hk].
    + rewrite <- (al_get_keq v w), al_get_insert in Hb by done. by simplify_eq.
    + by rewrite al_get_insert_ne in Hb by (try apply tree_ascending, (so_tree i Hi); done).
  - destruct (decide (y = e)) as [->|Hne]; [rewrite He in Hy; by simplify_eq|].
    destruct (heap (mem i) !! y) as [en'|] eqn:Hyi; [|pose proof (publish_fresh i v x _ y en E Hyi Hy); congruence].
    exists en'. rewrite Hkeep in Hy by eauto. split; [done|]. congruence.
Qed.

Lemma step_structural : match pcs s t with
  | SLoad _ _ | SLock _ _ _ | SJoin _ _ _ | SUnlock _ | SPublish _ _ _ | SUnmu => True | _ => False end ->
  cstep t s = Some s' -> exists p' o, Shape t s s' p' o.
Proof.
  unfold cstep. fold i. destruct (pcs s t) as [| | | | | |v x|v x e|v x e|e|v x tr| | | | | | | | | | | | | |] eqn:Hp;
    try done; intros _; pose proof (local_at _ Hp) as Hl; cbn [local_ok] in Hl.
  - rewrite get_i. cbn [mbind option_bind]. intros [= <-].
    destruct (al_get v (bindings i)) as [e|] eqn:Hg.
    + exists (SLock v x e), None. apply (shape_move t s _ (SLock v x e) Hp); try done; [|by apply (lin_pending _ _ _ (CInsert v x))].
      split; [done|]. split; [done|]. apply (mu_live s t v e HI); rewrite ?Hp; try done. intros w [].
    + exists (SPublish v x (tree i)), None. apply (shape_move t s _ (SPublish v x (tree i)) Hp); try done.
      by apply (lin_pending _ _ _ (CInsert v x)).
  - intros Hs. exists (SJoin v x e), None. apply (shape_lock_entry t s _ (SJoin v x e) Hp Hl) with e; try done.
    by apply (lin_pending _ _ _ (CInsert v x)).
  - destruct Hl as (Hx & Hb & (en & He & Hd)). unfold join_entry. rewrite He. cbn [mbind option_bind]. rewrite Hd.
    intros [= <-]. exists (SUnlock e), (Some (CInsert v x)). apply (shape_add _ _ v x e en Hp); try done. intros w [].
  - intros [= <-]. exists SUnmu, None. apply (shape_unlock_entry t s _ SUnmu Hp); try done; by apply lin_after.
  - destruct Hl as (Hx & -> & Hg). fold i. rewrite index_eta. intros (i' & E & [= <-])%bind_Some.
    assert (Heff : effect i i' (Some (CInsert v x))) by by apply eff_publish.
    exists SUnmu, (Some (CInsert v x)). apply (shape_act t s _ _ i' _ Hp); try done.
    + intros w y Hb Hd. right. destruct (publish_doom v x i' w y Hg Hx E Hb Hd). spl; [done|done|intros []].
    + by apply (lin_effect _ _ _ _ (CInsert v x) ROk); [| |apply (effect_ok i i' _ (ci_ok s HI) Heff)].
  - intros [= <-]. exists (Done ROk), None. apply (shape_unlock_mu t s _ (Done ROk) Hp); try done; by apply lin_after.
Qed.

Lemma lin_absent p p' op v r : pending p = Some op -> effected p' = Some r -> al_get v (bindings i) = None ->
  absent_result op v r -> lin_step i i p p' None.
Proof.
  intros H1 H2 H3 H4. eapply lin_effect; [done|done|]. apply (absent_spec _ v); [by apply dead_ids|done].
Qed.

Lemma step_delete : match pcs s t with
  | Start (CDelete _ _) | DLock _ _ _ | DRemove _ _ _ | DUnlock _ _ _ => True | _ => False end ->
  cstep t s = Some s' -> exists p' o, Shape t s s' p' o.
Proof.
  unfold cstep. fold i. destruct (pcs s t) as [r|[v x|v x|v]| | | | | | | | | | |v x e|v x e|v e ne| | | | | | | | | |] eqn:Hp;
    try done; intros _; pose proof (local_at _ Hp) as Hl; cbn [local_ok cop_ok] in Hl.
  - rewrite get_i. cbn [mbind option_bind]. intros [= <-]. destruct (al_get v (bindings i)) as [e|] eqn:Hg.
    + exists (DLock v x e), None. apply (shape_move t s _ (DLock v x e) Hp); try done; [by left|].
      by apply (lin_resolve _ _ _ (CDelete v x) v e).
    + exists (Done ROk), None. apply (shape_move t s _ (Done ROk) Hp); try done.
      by apply (lin_absent _ _ (CDelete v x) v ROk).
  - intros Hs. exists (DRemove v x e), None. apply (shape_lock_entry t s _ (DRemove v x e) Hp Hl) with e; try done.
    by apply (lin_pending _ _ _ (CDelete v x)).
  - destruct (resolved_cases i v e (ci_ok s HI) Hl) as (en & He & Hc).
    unfold remove_from_entry. rewrite He. cbn [mbind option_bind]. destruct Hc as [[Hd Hde]|[Hd Hb]]; rewrite Hd; cbn [mbind option_bind].
    + intros [= <-]. subst i. rewrite with_mem_same, put_same. exists (DUnlock v e false), None.
      apply (shape_move t s _ (DUnlock v e false) Hp); try done. by apply (lin_stale _ _ _ (CDelete v x) ROk v e).
    + destruct (Remove x (set en)) as [st now] eqn:Er. intros [= <-].
      exists (DUnlock v e (now && IsEmpty st)), (Some (CDelete v x)).
      set (i' := with_mem i _).
      assert (Heff : effect i i' (Some (CDelete v x))).
      { subst i'. replace st with (Remove x (set en)).1 by by rewrite Er. by eapply eff_remove. }
      assert (Ht : tame i i') by by apply (write_tame i e en).
      apply (shape_act t s _ _ i' _ Hp); try done; [by apply tame_doom; [|intros w []]|].
      by apply (lin_effect _ _ _ _ (CDelete v x) ROk); [| |apply (effect_ok i i' _ (ci_ok s HI) Heff)].
  - intros [= <-]. exists (if ne then TMu v else Done ROk), None.
    destruct ne; apply (shape_unlock_entry t s _ _ Hp); try done; by apply lin_after.
Qed.

Lemma step_detach : match pcs s t with
  | TMu _ | TLoad _ | TLock _ _ _ | TCheck _ _ _ | TUnlock _ _ _ _ | TPublish _ _ | TUnmu => True | _ => False end ->
  cstep t s = Some s' -> exists p' o, Shape t s s' p' o.
Proof.
  unfold cstep. fold i. destruct (pcs s t) as [| | | | | | | | | | | | | | |v|v|v tr e|v tr e|v tr e k|v tr| | | |] eqn:Hp;
    try done; intros _; pose proof (local_at _ Hp) as Hl; cbn [local_ok] in Hl.
  - intros Hs. exists (TLoad v), None. apply (shape_lock_mu t s _ (TLoad v) Hp); try done; by apply lin_after.
  - rewrite get_i. cbn [mbind option_bind]. intros [= <-]. destruct (al_get v (bindings i)) as [e|] eqn:Hg.
    + exists (TLock v (tree i) e), None. apply (shape_move t s _ _ Hp); try done; [|by apply lin_after].
      split; [done|]. split; [done|]. apply (mu_live s t v e HI); rewrite ?Hp; try done. intros w [].
    + exists TUnmu, None. apply (shape_move t s _ _ Hp); try done; by apply lin_after.
  - intros Hs. exists (TCheck v tr e), None. apply (shape_lock_entry t s _ (TCheck v tr e) Hp Hl) with e; try done; by apply lin_after.
  - destruct Hl as (-> & Hb & (en & He & Hd)). unfold kill_entry. rewrite He. cbn [mbind option_bind]. rewrite Hd. cbn [orb].
    destruct (IsEmpty (set en)) eqn:Hem; cbn [negb mbind option_bind]; intros [= <-].
    2: { subst i. rewrite with_mem_same, put_same. exists (TUnlock v (tree (idx s)) e false), None.
         apply (shape_move t s _ _ Hp); try done; by apply lin_after. }
    exists (TUnlock v (tree i) e true), None. set (i' := with_mem i _).
    assert (Heff : effect i i' None) by by eapply eff_kill.
    assert (Hlk : heap (mem i') !! e = Some (mkEntry true (set en))) by by (unfold i'; rewrite write_lookup, decide_True).
    apply (shape_act t s _ _ i' _ Hp); try done.
    + split; [done|]. intros _. split; [exact Hb|]. by eexists.
    + intros w y Hbw (en' & Hy & Hd'). destruct (decide (y = e)) as [->|Hne].
      * left. apply (bound_keq i v w e (proj1 (ci_ok s HI)) Hb Hbw).
      * right. spl; [exact Hbw| |intros []]. exists en'. split; [|done]. unfold i' in Hy. by rewrite write_lookup, decide_False in Hy.
    + by apply lin_after.
  - intros [= <-]. exists (if k then TPublish v tr else TUnmu), None. destruct Hl as [-> Hk].
    destruct k; apply (shape_unlock_entry t s _ _ Hp); try done; try (by apply lin_after). split; [done|]. exists e. by apply Hk.
  - destruct Hl as (-> & e & Hb & Hd). fold i. rewrite index_eta. intros (i' & E & [= <-])%bind_Some.
    assert (Heff : effect i i' None) by by eapply eff_detach.
    destruct (publish_remove_section i v (proj1 (ci_ok s HI))) as (i1 & E1 & _ & Hbi & _ & Hm & _).
    rewrite E in E1. injection E1 as <-. exists TUnmu, None. apply (shape_act t s _ _ i' _ Hp); try done; [|by apply lin_after].
    intros w y Hbw Hdw. right. unfold bound, is_dead in *. rewrite Hbi in Hbw. rewrite Hm in Hdw.
    assert (Hk : ~ keq v w) by (intros Hk; rewrite <- (al_get_keq v w), al_get_remove in Hbw by done; done).
    rewrite al_get_remove_ne in Hbw by done. by spl; [| |intros Hk2; apply Hk].
  - intros [= <-]. exists (Done ROk), None. apply (shape_unlock_mu t s _ _ Hp); try done; by apply lin_after.
Qed.

Lemma step_lookup : match pcs s t with
  | Start (CLookup _) | LLock _ _ | LRead _ _ | LUnlock _ _ => True | _ => False end ->
  cstep t s = Some s' -> exists p' o, Shape t s s' p' o.
Proof.
  unfold cstep. fold i. destruct (pcs s t) as [r|[v x|v x|v]| | | | | | | | | | | | | | | | | | | | |v e|v e|e l] eqn:Hp;
    try done; intros _; pose proof (local_at _ Hp) as Hl; cbn [local_ok cop_ok] in Hl.
  - rewrite get_i. cbn [mbind option_bind]. intros [= <-]. destruct (al_get v (bindings i)) as [e|] eqn:Hg.
    + exists (LLock v e), None. apply (shape_move t s _ _ Hp); try done; [by left|].
      by apply (lin_resolve _ _ _ (CLookup v) v e).
    + exists (Done (RIds [])), None. apply (shape_move t s _ _ Hp); try done.
      by apply (lin_absent _ _ (CLookup v) v (RIds [])).
  - intros Hs. exists (LRead v e), None. apply (shape_lock_entry t s _ (LRead v e) Hp Hl) with e; try done.
    by apply (lin_pending _ _ _ (CLookup v)).
  - destruct (resolved_cases i v e (ci_ok s HI) Hl) as (en & He & Hc).
    assert (Hset : forall l, ns_inv (set en) l -> read_entry_ids e (mem i) = Some l).
    { intros l Hs. unfold read_entry_ids. rewrite He. cbn [mbind option_bind]. pose proof (Bitmap_spec _ _ Hs) as Hbm.
      destruct (Bitmap (set en)) as [bm [|]]; cbn [fst] in Hbm; by rewrite ?rb_Clone_spec, Hbm. }
    destruct Hc as [[Hd Hde]|[Hd Hb]].
    + rewrite (Hset [] (proj2 (ci_ok s HI) e en He Hd)). cbn [mbind option_bind]. intros [= <-].
      exists (LUnlock e []), None. apply (shape_move t s _ _ Hp); try done.
      by apply (lin_stale _ _ _ (CLookup v) (RIds []) v e).
    + destruct (bound_entry i v e (proj1 (ci_ok s HI)) Hb) as (en' & l & He' & Hinv). simplify_eq.
      rewrite (Hset l Hinv). cbn [mbind option_bind]. intros [= <-].
      exists (LUnlock e l), None. apply (shape_move t s _ _ Hp); try done.
      apply (lin_effect _ _ _ _ (CLookup v) (RIds l)); [done|done|]. split; [apply same_refl|].
      symmetry. by apply (ids_entry i v e en).
  - intros [= <-]. exists (Done (RIds l)), None. apply (shape_unlock_entry t s _ _ Hp); try done; by apply lin_after.
Qed.

(** Every step has a shape. *)
Lemma step_shape : cstep t s = Some s' -> exists p' o, Shape t s s' p' o.
Proof.
  intros Hs. pose proof step_insert as H1. pose proof step_structural as H2. pose proof step_delete as H3.
  pose proof step_detach as H4. pose proof step_lookup as H5. pose proof Hs as Hs0. unfold cstep in Hs0.
  destruct (pcs s t) as [|[]| | | | | | | | | | | | | | | | | | | | | | |]; first [done|by apply H1|by apply H2|by apply H3|by apply H4|by apply H5].
Qed.
End steps.

(** ** The invariant is kept *)

Lemma resolved_stable i i' v e : env i i' -> resolved i v e -> resolved i' v e.
Proof.
  intros He [Hb|Hd]; [|right; by apply (env_dead i i' He)].
  destruct (env_bound i i' He v e Hb); [by left|right; by apply (env_dead i i' He)].
Qed.

Lemma bound_tame i i' v e : tame i i' -> bound i v e -> bound i' v e.
Proof. intros Ht. unfold bound, bindings. by rewrite (tame_tree i i' Ht). Qed.

Lemma dead_env i i' e : env i i' -> is_dead i e -> is_dead i' e.
Proof. intros He. apply (env_dead i i' He). Qed.

#[local] Hint Resolve resolved_stable bound_tame dead_env : gograph.

(** What a thread knows survives the steps of the others. *)
Lemma local_stable i i' p : env i i' -> (holds_mu p = true -> tame i i') -> local_ok i p -> local_ok i' p.
Proof.
  intros He Ht. destruct p as [|[]| | | | | | | | | | | | | | | | | | | | | | |]; cbn [local_ok holds_mu] in *; try specialize (Ht eq_refl);
    eauto with gograph; try (intros [? ?]; eauto with gograph; fail).
  - intros (Hx & Hb & Hl). spl; [done|eauto with gograph|by apply (tame_live i i' Ht)].
  - intros (Hx & Hb & Hl). spl; [done|eauto with gograph|by apply (tame_live i i' Ht)].
  - intros (Hx & -> & Hg). unfold bindings in *. by rewrite (tame_tree i i' Ht).
  - intros (-> & Hb & Hl). spl; [by rewrite (tame_tree i i' Ht)|eauto with gograph|by apply (tame_live i i' Ht)].
  - intros (-> & Hb & Hl). spl; [by rewrite (tame_tree i i' Ht)|eauto with gograph|by apply (tame_live i i' Ht)].
  - intros (-> & Hk). split; [by rewrite (tame_tree i i' Ht)|]. intros E. destruct (Hk E). eauto with gograph.
  - intros (-> & e & Hb & Hd). split; [by rewrite (tame_tree i i' Ht)|]. eauto with gograph.
Qed.

(** A lock follows its holder. *)
Lemma lock_inv t h h' (held : nat -> bool) b : (forall u, h = Some u <-> held u = true) ->
  lock_step t h h' (held t) b -> forall u, h' = Some u <-> (if decide (t = u) then b else held u) = true.
Proof.
  intros Hh [[-> ->]|[(-> & -> & H1 & ->)|(-> & H1 & ->)]] u; case_decide as Hu; subst.
  - apply Hh.
  - apply Hh.
  - done.
  - rewrite <- Hh. split; congruence.
  - done.
  - rewrite <- Hh. apply Hh in H1. split; congruence.
Qed.

Lemma shape_inv t s s' p' o : CInv s -> Shape t s s' p' o -> CInv s'.
Proof.
  intros HI HS. destruct (effect_ok _ _ _ (ci_ok s HI) (sh_eff _ _ _ _ _ HS)) as (Hok & Henv & _).
  assert (Hpc : forall u, pcs s' u = if decide (t = u) then p' else pcs s u).
  { intros u. rewrite (sh_pcs _ _ _ _ _ HS). apply fn_insert_dec. }
  split; [exact Hok| | | |].
  - intros u. rewrite Hpc, (lock_inv t (mu s) (mu s') (fun u => holds_mu (pcs s u)) (holds_mu p') (ci_mu s HI) (sh_mu _ _ _ _ _ HS) u).
    by case_decide.
  - intros u e. rewrite (lock_inv t (emu s e) (emu s' e) (fun u => holds_at (pcs s u) e) (holds_at p' e)); [| |by apply (sh_emu _ _ _ _ _ HS)].
    + rewrite Hpc. unfold holds_at. case_decide; by rewrite bool_decide_eq_true.
    + intros w. unfold holds_at. rewrite bool_decide_eq_true. apply (ci_emu s HI).
  - intros u. rewrite Hpc. case_decide as Hu; [apply (sh_local _ _ _ _ _ HS)|].
    apply (local_stable (idx s)); [done| |apply (ci_local s HI)]. intros Hm. apply (sh_tame _ _ _ _ _ HS).
    destruct (holds_mu (pcs s t)) eqn:Hmt; [|done]. apply (ci_mu s HI) in Hm, Hmt. congruence.
  - intros v e Hb Hd. destruct (sh_doom _ _ _ _ _ HS v e Hb Hd) as [H|(Hb0 & Hd0 & Hn)].
    + exists t. by rewrite Hpc, decide_True.
    + destruct (ci_live s HI v e Hb0 Hd0) as (u & Hu). exists u. rewrite Hpc, decide_False; [done|]. by intros ->.
Qed.

(** Calls whose ids a set can hold inline. *)
Definition label_ok (l : label V) : Prop := match l with Call _ o => cop_ok o | Step _ => True end.

Lemma call_inv t o s s' : CInv s -> cop_ok o -> mstep (Call t o) s = Some s' ->
  CInv s' /\ pcs s' = <[t := Start o]> (pcs s) /\ idx s' = idx s.
Proof.
  intros HI Ho. cbn [mstep]. destruct (pcs s t) as [r| | | | | | | | | | | | | | | | | | | | | | | |] eqn:Hp; try done. intros [= <-].
  split; [|done]. apply (shape_inv t s _ (Start o) None HI). apply shape_plain; rewrite ?Hp; try done; [apply same_lock| |by apply lin_free].
  by apply (emu_same t (emu s) (Done r)).
Qed.

Lemma mstep_inv l s s' : CInv s -> label_ok l -> mstep l s = Some s' -> CInv s'.
Proof.
  destruct l as [t o|t]; intros HI Hl Hs.
  - by apply (call_inv t o s s' HI Hl).
  - destruct (step_shape t s s' HI Hs) as (p' & o & HS). by eapply shape_inv.
Qed.

Lemma init_inv : CInv (init (V := V) (B := B)).
Proof.
  assert (Hn : forall v e, ~ bound (init (V := V) (B := B)).(idx) v e) by (intros v e Hb; done).
  split.
  - split; [apply New_ok|]. intros e en. simpl. by rewrite lookup_empty.
  - by intros t.
  - by intros t e.
  - by intros t.
  - intros v e Hb. by destruct (Hn v e).
Qed.

(** States that schedules reach. *)
Definition reachable s : Prop := exists ls, Forall label_ok ls /\ exec ls init = Some s.

Lemma exec_inv ls : Forall label_ok ls -> forall s s', CInv s -> exec ls s = Some s' -> CInv s'.
Proof.
  induction 1 as [|l ls Hl _ IH]; intros s s' HI E; cbn [exec] in E; [by simplify_eq|].
  apply bind_Some in E as (s1 & E1 & E). apply (IH s1); [|done]. by eapply mstep_inv.
Qed.

Lemma reachable_inv s : reachable s -> CInv s.
Proof. intros (ls & Hl & E). by apply (exec_inv ls Hl init s init_inv). Qed.
End conc.

#[export] Hint Resolve tame_refl same_lock : gograph.
