(* ===== verification/BtreeConcProps.v ===== *)
(** * The shared index is linearizable and never deadlocks

    Every call on the interleaved machine of BtreeConc.v takes effect, or observes
    what it returns, at one moment of its own interval; and every call finishes in
    a bounded number of its own steps, some thread being always able to step. *)

From Stdlib Require Import ZArith Lia.
From stdpp Require Import gmap.
From S2P Require Import Prelude Ordered NodeSet NodeSetProps Bplus BplusInv BplusOps BtreeIndex BtreeIndexInv BtreeIndexProps BtreeConc BtreeConcInv.

Section conc.
Context {V B : Type} `{OV : Ordered V} {LV : OrderedLaws V} `{RB : Roaring B} {RL : RoaringLaws B}.
Implicit Types (i : Index V B) (v : V) (e : loc) (s : cstate V B) (p : pc V).

(** ** Runs in which a thread keeps the call it has *)

Definition keeps (t : nat) (l : label V) : Prop := label_ok l /\ forall o, l <> Call t o.

(** One step of anyone, thread [t] starting no call. *)
Definition during1 (t : nat) s s' : Prop := exists l, keeps t l /\ mstep l s = Some s'.
Definition during (t : nat) : cstate V B -> cstate V B -> Prop := rtc (during1 t).

(** ... and in which thread [t]'s own steps change the ids of no key. *)
Definition quiet1 (t : nat) s s' : Prop :=
  exists l, keeps t l /\ mstep l s = Some s' /\ (l = Step t -> same_ids (idx s) (idx s')).
Definition quiet (t : nat) : cstate V B -> cstate V B -> Prop := rtc (quiet1 t).

Lemma quiet1_inv t s s' : CInv s -> quiet1 t s s' -> CInv s'.
Proof. intros HI (l & [Hl _] & E & _). by eapply mstep_inv. Qed.

Lemma during1_inv t s s' : CInv s -> during1 t s s' -> CInv s'.
Proof. intros HI (l & [Hl _] & E). by eapply mstep_inv. Qed.

Lemma during_inv t s s' : CInv s -> during t s s' -> CInv s'.
Proof. intros HI H. revert HI. induction H as [|s s1 s' H1 _ IH]; [done|]. intros HI. apply IH. by eapply during1_inv. Qed.

Lemma quiet_inv t s s' : CInv s -> quiet t s s' -> CInv s'.
Proof. intros HI H. revert HI. induction H as [|s s1 s' H1 _ IH]; [done|]. intros HI. apply IH. by eapply quiet1_inv. Qed.

Lemma mstep_env l s s' : CInv s -> label_ok l -> mstep l s = Some s' -> env (idx s) (idx s').
Proof.
  intros HI Hl E. destruct l as [u o|u].
  - destruct (call_inv u o s s' HI Hl E) as (_ & _ & ->). apply env_refl.
  - destruct (step_shape u s s' HI E) as (p' & o & HS). apply (effect_ok _ _ _ (ci_ok s HI) (sh_eff _ _ _ _ _ HS)).
Qed.

(** An entry that was bound to a key and is found dead: in between there was a
    moment at which the key had no ids. *)
Lemma absent_between t s s' v e : quiet t s s' -> CInv s -> bound (idx s) v e -> is_dead (idx s') e ->
  exists s1, quiet t s s1 /\ quiet t s1 s' /\ ids (idx s1) v = [].
Proof.
  induction 1 as [s|s s1 s' H1 Hr IH]; intros HI Hb Hd.
  - exists s. spl; [constructor|constructor|]. by apply (dead_no_ids _ v e (ci_ok s HI)).
  - assert (Hq : quiet t s s') by by eapply rtc_l. pose proof H1 as (l & [Hl _] & E & _).
    destruct (env_bound _ _ (mstep_env l s s1 HI Hl E) v e Hb) as [Hb1|Hd1].
    + destruct (IH (quiet1_inv t s s1 HI H1) Hb1 Hd) as (s2 & Ha & Hc & Hi). exists s2. spl; [by eapply rtc_l|done|done].
    + exists s. spl; [constructor|done|]. by apply (dead_no_ids _ v e (ci_ok s HI)).
Qed.

(** ** Linearization *)

(** The moment at which a call of [t] that returns [r] happened, in a run from [s]. *)
Definition happened (t : nat) (o : cop V) (r : res) s s' : Prop :=
  exists s1 s2, quiet t s s1 /\ (s2 = s1 \/ cstep t s1 = Some s2) /\
  op_spec o r (idx s1) (idx s2) /\ quiet t s2 s'.

(** What holds along a run from the start of a call. *)
Definition progress (t : nat) (o : cop V) s s' : Prop :=
  (pending (pcs s' t) = Some o /\ quiet t s s' /\
    forall v e, target (pcs s' t) = Some (v, e) -> exists s1, quiet t s s1 /\ quiet t s1 s' /\ bound (idx s1) v e) \/
  exists r, effected (pcs s' t) = Some r /\ happened t o r s s'.

Lemma happened_later t o r s s' s'' : happened t o r s s' -> quiet1 t s' s'' -> happened t o r s s''.
Proof. intros (s1 & s2 & H1 & H2 & H3 & H4) Hq. exists s1, s2. spl; try done. by eapply rtc_r. Qed.

(** Steps of other threads. *)
Lemma mstep_other t l s s' : keeps t l -> l <> Step t -> mstep l s = Some s' -> CInv s -> pcs s' t = pcs s t.
Proof.
  intros [Hl Hc] Hs E HI. destruct l as [u o|u].
  - destruct (call_inv u o s s' HI Hl E) as (_ & -> & _). apply fn_lookup_insert_ne. intros ->. by apply (Hc o).
  - destruct (step_shape u s s' HI E) as (p' & o & HS). rewrite (sh_pcs _ _ _ _ _ HS). apply fn_lookup_insert_ne.
    intros ->. by apply Hs.
Qed.

Lemma progress_step t o s s' s'' : CInv s -> CInv s' -> progress t o s s' -> cstep t s' = Some s'' -> progress t o s s''.
Proof.
  intros HI HI' HP E. destruct (step_shape t s' s'' HI' E) as (p' & ev & HS).
  assert (Hp : pcs s'' t = p') by (rewrite (sh_pcs _ _ _ _ _ HS); apply fn_lookup_insert).
  pose proof (sh_lin _ _ _ _ _ HS) as Hlin. destruct (effect_ok _ _ _ (ci_ok s' HI') (sh_eff _ _ _ _ _ HS)) as (_ & _ & Habs).
  assert (Hq : ev = None -> quiet1 t s' s'').
  { intros ->. exists (Step t). spl; [|exact E|intros _; exact Habs]. split; [done|]. by intros o'. }
  unfold progress. rewrite Hp. destruct HP as [(Hpend & Hqs & Htgt)|(r & Heff & Hh)].
  - unfold lin_step in Hlin. rewrite Hpend in Hlin. destruct Hlin as [(H1 & H2 & H3)|(r & H1 & H2)].
    + left. assert (Hqq : quiet t s s'') by (eapply rtc_r; [exact Hqs|by apply Hq]). spl; [done|done|].
      intros v e Ht. destruct H3 as [H3|(v' & e' & H3 & _ & Hb)].
      * rewrite H3 in Ht. destruct (Htgt v e Ht) as (s1 & Ha & Hc & Hb). exists s1. spl; [done| |done].
        eapply rtc_r; [exact Hc|by apply Hq].
      * rewrite H3 in Ht. injection Ht as -> ->. exists s'. spl; [done| |done]. eapply rtc_r; [constructor|by apply Hq].
    + right. exists r. split; [done|]. destruct H2 as [H2|(H2 & v & e & Ht & Hd & Ha)].
      * exists s', s''. spl; [done|by right|done|constructor].
      * destruct (Htgt v e Ht) as (s1 & Hb1 & Hc1 & Hb).
        pose proof (quiet_inv t s s1 HI Hb1) as HI1.
        destruct (absent_between t s1 s' v e Hc1 HI1 Hb Hd) as (s2 & Hq1 & Hq2 & Hi).
        exists s2, s2. spl; [by etrans|by left|by eapply absent_spec|]. eapply rtc_r; [exact Hq2|by apply Hq].
  - right. exists r. assert (Hn : pending (pcs s' t) = None) by (by destruct (pcs s' t) as [| | | |? ? ? []| | | | | | | | | | | | | | | | | | | |]).
    unfold lin_step in Hlin. rewrite Hn in Hlin. destruct Hlin as (-> & [(r' & Hd)|Hd]).
    + unfold cstep in E. by rewrite Hd in E.
    + split; [congruence|]. by eapply happened_later; [|apply Hq].
Qed.

Lemma progress_run t o s s' : CInv s -> pcs s t = Start o -> during t s s' -> progress t o s s'.
Proof.
  intros HI Hs. revert s'. refine (rtc_ind_r (fun s' => progress t o s s') s _ _).
  - left. rewrite Hs. spl; [done|constructor|done].
  - intros s' s'' Hd H1 IH. pose proof (during_inv t s s' HI Hd) as HI'. destruct H1 as (l & Hl & E).
    assert (l = Step t \/ l <> Step t) as [->|Hlt].
    { destruct l as [u o'|u]; [by right|]. destruct (decide (u = t)) as [->|]; [by left|right; congruence]. }
    { by eapply progress_step. }
    assert (Hq : quiet1 t s' s'') by (exists l; split; [done|split; [done|by intros ->]]).
    unfold progress. rewrite (mstep_other t l s' s'' Hl Hlt E HI'). destruct IH as [(H1 & H2 & H3)|(r & H1 & H2)].
    + left. spl; [done|by eapply rtc_r|]. intros v e Ht. destruct (H3 v e Ht) as (s1 & Ha & Hb & Hc). exists s1.
      spl; [done|by eapply rtc_r|done].
    + right. exists r. split; [done|]. by eapply happened_later.
Qed.

(** C3: the shared index is linearizable.  However [Insert]s, [Delete]s and
    [Lookup]s of any number of goroutines interleave, every call that has returned
    took effect at one moment between its start and its return: there the ids of
    all keys changed as the call's sequential meaning says, or, for a [Lookup] or a
    [Delete] that found nothing, were what its result says, and none of the call's
    other steps changed any key's ids.  In particular an [Insert] that raced the
    retirement of its key is never lost. *)
Theorem conc_linearizable s s' t o r : reachable s -> pcs s t = Start o -> during t s s' -> pcs s' t = Done r ->
  happened t o r s s'.
Proof.
  intros Hr Hs Hd Hd'. destruct (progress_run t o s s' (reachable_inv s Hr) Hs Hd) as [(Hp & _)|(r' & He & Hh)].
  - by rewrite Hd' in Hp.
  - rewrite Hd' in He. cbn in He. by simplify_eq.
Qed.

(** ** Progress *)

(** The most steps a call still takes. *)
Definition left p : nat :=
  match p with
  | Done _ => 0
  | SUnmu | TUnmu | LUnlock _ _ => 1
  | SUnlock _ | SPublish _ _ _ | TPublish _ _ | LRead _ _ => 2
  | SJoin _ _ _ | TUnlock _ _ _ _ | LLock _ _ => 3
  | SLock _ _ _ | TCheck _ _ _ => 4
  | SLoad _ _ | TLock _ _ _ => 5
  | SMu _ _ | TLoad _ => 6
  | IUnlock _ _ _ _ | TMu _ => 7
  | IAdd _ _ _ | DUnlock _ _ _ => 8
  | ILock _ _ _ | DRemove _ _ _ => 9
  | DLock _ _ _ => 10
  | Start _ => 11
  end.

Lemma cstep_left t s s' : cstep t s = Some s' ->
  exists p', pcs s' = <[t := p']> (pcs s) /\ (left p' < left (pcs s t))%nat.
Proof.
  unfold cstep, lock_mu, lock_entry. destruct (pcs s t) as [|[]| | | | | | | | | | | | | | | | | | | | | | |];
    intros H; repeat match goal with
    | H : (_ ≫= _) = Some _ |- _ => apply bind_Some in H as (? & _ & H)
    | H : (let '(_, _) := ?x in _) = Some _ |- _ => destruct x
    | H : match ?x with _ => _ end = Some _ |- _ => destruct x; try discriminate H
    end; simplify_eq/=; eexists; (split; [reflexivity|]);
    repeat match goal with |- context [match ?x with _ => _ end] => destruct x end; cbn [left]; lia.
Qed.

(** The mutex a thread is about to take: an entry's, or [Index.mu]. *)
Definition waits p : option (option loc) :=
  match p with
  | ILock _ _ e | SLock _ _ e | DLock _ _ e | TLock _ _ e | LLock _ e => Some (Some e)
  | SMu _ _ | TMu _ => Some None
  | _ => None
  end.

Definition blocked s t : Prop :=
  match waits (pcs s t) with
  | Some (Some e) => exists u, emu s e = Some u
  | Some None => exists u, mu s = Some u
  | None => False
  end.

(** No step panics: a thread with a call steps unless the mutex it takes is held. *)
Lemma can_step s t : CInv s -> cstep t s = None -> (exists r, pcs s t = Done r) \/ blocked s t.
Proof.
  intros HI E. pose proof (ci_local s HI t) as Hl. pose proof (ci_ok s HI) as Hok. pose proof (proj1 Hok) as Hi.
  assert (Hentry : forall v e, resolved (idx s) v e -> exists en, heap (mem (idx s)) !! e = Some en).
  { intros v e Hr. destruct (resolved_cases _ v e Hok Hr) as (en & He & _). eauto. }
  assert (Hbound : forall v e, bound (idx s) v e -> exists en, heap (mem (idx s)) !! e = Some en).
  { intros v e Hb. apply (Hentry v). by left. }
  unfold blocked. unfold cstep, lock_mu, lock_entry in E.
  destruct (pcs s t) as [|[v x|v x|v]|v x e|v x e|v x e a|v x|v x|v x e|v x e|e|v x tr| |v x e|v x e|v e a|v|v|v tr e|v tr e|v tr e k|v tr| |v e|v e|e l];
    cbn [local_ok waits] in *; rewrite ?(get_i s HI) in E; cbn [mbind option_bind] in E; try done; eauto.
  all: try (right; first [destruct (emu s e)|destruct (mu s)]; try discriminate E; eauto; fail).
  - destruct Hl as [_ Hr]. destruct (Hentry v e Hr) as [en He]. unfold add_to_entry in E. rewrite He in E.
    cbn [mbind option_bind] in E. by destruct (dead en).
  - destruct Hl as (_ & Hb & _). destruct (Hbound v e Hb) as [en He]. unfold join_entry in E. by rewrite He in E.
  - destruct Hl as (Hx & -> & Hg). destruct (publish_insert_section _ v x Hi Hx Hg) as (i' & e & E1 & _).
    rewrite index_eta, E1 in E. done.
  - destruct (Hentry v e Hl) as [en He]. unfold remove_from_entry in E. rewrite He in E. cbn [mbind option_bind] in E.
    destruct (dead en); [done|]. by destruct (Remove x (set en)).
  - destruct Hl as (_ & Hb & _). destruct (Hbound v e Hb) as [en He]. unfold kill_entry in E. rewrite He in E.
    cbn [mbind option_bind] in E. by destruct (dead en || negb (IsEmpty (set en))).
  - destruct Hl as (-> & _). destruct (publish_remove_section _ v Hi) as (i' & E1 & _). rewrite index_eta, E1 in E. done.
  - destruct (Hentry v e Hl) as [en He]. unfold read_entry_ids in E. rewrite He in E. cbn [mbind option_bind] in E.
    by destruct (Bitmap (set en)).
Qed.

(** Some thread can always step: the holder of the mutex a blocked thread waits for,
    or the holder of the entry lock that holder waits for; the order of the locks
    goes no further. *)
Lemma some_step s t : CInv s -> (forall r, pcs s t <> Done r) -> exists u s', cstep u s = Some s'.
Proof.
  intros HI Hn. destruct (cstep t s) as [s'|] eqn:E; [eauto|].
  destruct (can_step s t HI E) as [[r Hr]|Hb]; [by destruct (Hn r)|].
  assert (Hent : forall e u, emu s e = Some u -> exists s', cstep u s = Some s').
  { intros e u He. apply (ci_emu s HI) in He. destruct (cstep u s) as [s1|] eqn:Eu; [eauto|].
    exfalso. destruct (can_step s u HI Eu) as [[r Hr]|Hb']; [by rewrite Hr in He|].
    unfold blocked in Hb'. by destruct (pcs s u). }
  unfold blocked in Hb. destruct (waits (pcs s t)) as [[e|]|]; [|destruct Hb as [u Hu]|done].
  { destruct Hb as [u Hu]. exists u. by apply (Hent e). }
  destruct (cstep u s) as [s1|] eqn:Eu; [eauto|].
  apply (ci_mu s HI) in Hu. destruct (can_step s u HI Eu) as [[r Hr]|Hb']; [by rewrite Hr in Hu|].
  unfold blocked in Hb'. destruct (pcs s u); try done; cbn [waits] in Hb'; destruct Hb' as [w Hw]; exists w; by apply (Hent _ _ Hw).
Qed.

Definition total_left (n : nat) s : Z := zsum (fun t => Z.of_nat (left (pcs s t))) n.

(** Calls of the first [n] threads only. *)
Definition only (n : nat) s : Prop := forall t, (n <= t)%nat -> exists r, pcs s t = Done r.

Lemma step_total n t s s' : only n s -> cstep t s = Some s' -> only n s' /\ (total_left n s' < total_left n s)%Z.
Proof.
  intros Hn E. destruct (cstep_left t s s' E) as (p' & Hp & Hlt).
  assert (Ht : (t < n)%nat).
  { destruct (decide (t < n)%nat); [done|]. destruct (Hn t ltac:(lia)) as [r Hr]. unfold cstep in E. by rewrite Hr in E. }
  split.
  - intros u Hu. rewrite Hp, fn_lookup_insert_ne by lia. by apply Hn.
  - unfold total_left. rewrite (zsum_update (fun u => Z.of_nat (left (pcs s u))) _ n t Ht).
    + rewrite Hp, fn_insert_eq. lia.
    + intros u Hu. by rewrite Hp, fn_lookup_insert_ne.
Qed.

Lemma total_bound n s : (total_left n s <= 11 * Z.of_nat n)%Z.
Proof.
  unfold total_left. induction n as [|n IH]; cbn [zsum]; [lia|].
  assert (left (pcs s n) <= 11)%nat by (destruct (pcs s n); simpl; lia). lia.
Qed.

(** C34: no call blocks for ever.  With [n] threads, every run of their steps without
    new calls is at most [11 n] steps long -- a call takes at most eleven, the
    retry after a dead entry included -- and a state in which no thread can step
    is one in which every call has returned: the locks never deadlock, no step
    panics. *)
Theorem conc_progress s n us s' : reachable s -> only n s -> exec (map Step us) s = Some s' ->
  (Z.of_nat (length us) <= 11 * Z.of_nat n)%Z /\
  ((forall u, cstep u s' = None) -> forall t, exists r, pcs s' t = Done r).
Proof.
  intros Hr Ho E. assert (Hlen : forall us s, only n s -> exec (map Step us) s = Some s' ->
    (Z.of_nat (length us) + total_left n s' <= total_left n s)%Z).
  { clear. induction us as [|u us IH]; intros s Ho E; cbn in E; [simplify_eq; simpl; lia|].
    apply bind_Some in E as (s1 & E1 & E). destruct (step_total n u s s1 Ho E1) as [Ho1 Hlt].
    specialize (IH s1 Ho1 E). cbn [length]. lia. }
  split.
  - specialize (Hlen us s Ho E). pose proof (total_bound n s).
    assert (0 <= total_left n s')%Z by (apply zsum_nonneg; intros; lia). lia.
  - intros Hstuck t. assert (HI : CInv s').
    { apply (exec_inv (map Step us) ltac:(apply Forall_map, Forall_forall; done) s); [by apply reachable_inv|done]. }
    destruct (pcs s' t) as [r| | | | | | | | | | | | | | | | | | | | | | | |] eqn:Hp; [eauto|..];
      (destruct (some_step s' t HI) as (u & s2 & E2); [intros r; by rewrite Hp|by rewrite Hstuck in E2]).
Qed.
End conc.

(** ** A race *)

(** One thread inserts a second id under a key while another deletes the first: the
    insertion resolves the entry, the deletion retires it, and the insertion finds
    it dead and starts over. *)
Definition demo_pre : list (label Z) :=
  Call 0 (CInsert 5%Z 7%Z) :: repeat (Step 0) 5 ++ Call 1 (CDelete 5%Z 7%Z) :: repeat (Step 1) 4 ++ [Call 0 (CInsert 5%Z 8%Z)].

Definition demo_race : list nat := 0 :: repeat 1 5 ++ repeat 0 3 ++ repeat 1 2 ++ repeat 0 4.

Lemma demo_pre_ok : Forall label_ok demo_pre.
Proof. repeat constructor; unfold maxSingletonID; lia. Qed.

Lemma exec_during {V B : Type} `{OV : Ordered V} `{RB : Roaring B} t ls : Forall (keeps t) ls ->
  forall s s' : cstate V B, exec ls s = Some s' -> during t s s'.
Proof.
  induction 1 as [|l ls Hl _ IH]; intros s s' E; cbn [exec] in E; [simplify_eq; constructor|].
  apply bind_Some in E as (s1 & E1 & E). eapply rtc_l; [|by apply IH]. by exists l.
Qed.

Lemma demo_race_keeps : Forall (keeps (V := Z) 0) (map Step demo_race).
Proof. apply Forall_map, Forall_forall. intros u _. split; [done|by intros o]. Qed.

Lemma conc_linearizable_witness : exists s s' : cstate Z (list Z),
  exec demo_pre init = Some s /\ exec (map Step demo_race) s = Some s' /\
  happened 0 (CInsert 5%Z 8%Z) ROk s s' /\ LookupAppend 5%Z [] (idx s') = Some [8%Z].
Proof.
  assert (E2 : exists s s' : cstate Z (list Z), exec demo_pre init = Some s /\ exec (map Step demo_race) s = Some s' /\
    pcs s 0 = Start (CInsert 5%Z 8%Z) /\ pcs s' 0 = Done ROk /\ LookupAppend 5%Z [] (idx s') = Some [8%Z]).
  { eexists _, _. split; [vm_compute; reflexivity|]. split; [vm_compute; reflexivity|]. by vm_compute. }
  destruct E2 as (s & s' & E & E' & Hs & Hs' & Hl). exists s, s'. split; [exact E|]. split; [exact E'|]. split; [|exact Hl].
  apply (conc_linearizable s s' 0 (CInsert 5%Z 8%Z) ROk); [|exact Hs| |exact Hs'].
  - exists demo_pre. split; [exact demo_pre_ok|exact E].
  - apply (exec_during 0 (map Step demo_race)); [exact demo_race_keeps|exact E'].
Defined.

Lemma conc_progress_witness : exists s s' : cstate Z (list Z),
  exec demo_pre init = Some s /\ exec (map Step demo_race) s = Some s' /\ (Z.of_nat (length demo_race) <= 22)%Z.
Proof.
  assert (E2 : exists s s' : cstate Z (list Z), exec demo_pre init = Some s /\ exec (map Step demo_race) s = Some s' /\ only 2 s).
  { eexists _, _. split; [vm_compute; reflexivity|]. split; [vm_compute; reflexivity|].
    intros [|[|t]] Ht; [lia|lia|]. eexists. reflexivity. }
  destruct E2 as (s & s' & E & E' & Ho). exists s, s'. split; [exact E|]. split; [exact E'|].
  destruct (conc_progress s 2 demo_race s') as [Hn _]; [|exact Ho|exact E'|exact Hn].
  exists demo_pre. split; [exact demo_pre_ok|exact E].
Defined.
