(* ===== verification/Horizon.v ===== *)
(** * The reader horizon (src/graph/mvcc/horizon.go)

    The registry of active readers a reclaimer computes its watermark from: 1024
    exclusive slots in sixteen occupancy words, readers that claim a slot before they
    read the clock, and scans that take no lock.  Readers and reclaimers are threads
    that interleave at every atomic access; the client side of the protocol is
    [Graph.BeginRead], [Graph.EndRead] and [Graph.ReclaimNow] of src/graph/lpg. *)

From Stdlib Require Import ZArith Lia.
From S2P Require Import Prelude.

Local Open Scope Z_scope.

(** ** [math/bits] *)

Fixpoint ctz_from (fuel : nat) (m : Z) (b : nat) : nat :=
  match fuel with
  | O => b
  | S fuel => if Z.testbit m (Z.of_nat b) then b else ctz_from fuel m (S b)
  end.

Definition TrailingZeros64 (m : Z) : nat := ctz_from 64 m 0.

Definition OnesCount64 (m : Z) : nat :=
  length (filter (fun b => Z.testbit m (Z.of_nat b) = true) (seq 0 64)).

Definition all_ones : Z := 2 ^ 64 - 1.

(** ** State *)

Definition horizonSlots : nat := 1024.
Definition horizonWords : nat := horizonSlots / 64.

(** The value a slot holds between its claim and its publication. *)
Definition holdEverything : Z := 1.

Record Horizon := mkHorizon {
  slots : nat -> Z;
  occ : nat -> Z;
  next : Z;
  unreg : Z;
  staleLeave : Z;
}.

(** A slot number: [None] is [unregistered]. *)
Abbreviation slotno := (option nat).

Definition word_of (k : nat) : nat := k / 64.
Definition bit_of (k : nat) : nat := k mod 64.
Definition mask_of (k : nat) : Z := Z.shiftl 1 (Z.of_nat (bit_of k)).

(** The word a claim looks at in its [i]th round. *)
Definition probe (start i : nat) : nat := (start + i) mod horizonWords.

Definition set_slot (k : nat) (v : Z) (h : Horizon) : Horizon :=
  mkHorizon (<[k := v]> (slots h)) (occ h) (next h) (unreg h) (staleLeave h).
Definition set_word (w : nat) (v : Z) (h : Horizon) : Horizon :=
  mkHorizon (slots h) (<[w := v]> (occ h)) (next h) (unreg h) (staleLeave h).
Definition set_next (v : Z) (h : Horizon) : Horizon :=
  mkHorizon (slots h) (occ h) v (unreg h) (staleLeave h).
Definition set_unreg (v : Z) (h : Horizon) : Horizon :=
  mkHorizon (slots h) (occ h) (next h) v (staleLeave h).
Definition set_stale (v : Z) (h : Horizon) : Horizon :=
  mkHorizon (slots h) (occ h) (next h) (unreg h) v.

Definition StaleLeaves (h : Horizon) : Z := staleLeave h.
Definition Unregistered (h : Horizon) : Z := unreg h.

(** The instant a slot announces, and whether it is occupied. *)
Definition SlotState (slot : slotno) (h : Horizon) : Z * bool :=
  match slot with
  | None => (0, false)
  | Some k =>
      if (horizonSlots <=? k)%nat then (0, false)
      else
        let occupied := negb (Z.land (occ h (word_of k)) (mask_of k) =? 0) in
        let v := slots h k in
        if v =? 0 then (0, occupied) else (v - 1, occupied)
  end.

Definition Active (h : Horizon) : nat :=
  sum_list_with (fun w => OnesCount64 (occ h w)) (seq 0 horizonWords).

(** ** Threads *)

(** How a reader registers: [EnterHolding] and [Publish], or [Enter] with a start
    timestamp it has already. *)
Inductive mode := Hold | At (ts : Z).

Inductive pc :=
  | Idle
  (* [claim] *)
  | CNext (md : mode)
  | CLoad (md : mode) (start i : nat)
  | CCas (md : mode) (start i : nat) (cur : Z)
  | CUnreg (md : mode)
  (* the store that follows it, the clock and [Publish] *)
  | RStamp (md : mode) (k : nat)
  | RClock (slot : slotno)
  | RPublish (slot : slotno) (ts : Z)
  (* a reader at work; [held] when it registered before it read the clock *)
  | RActive (held : bool) (slot : slotno) (ts : Z)
  (* [Leave] *)
  | LUnreg
  | LZero (k : nat) (ts : Z)
  | LClear (k : nat)
  | LStale
  (* a reclaimer: the fallback it samples, then [Oldest] *)
  | OFall
  | OUnreg (fallback : Z)
  | OWord (oldest : Z) (w : nat)
  | OBits (oldest : Z) (w : nat) (m : Z)
  | ORecheck (oldest : Z)
  | ODone (watermark : Z).

(** The registry, the published frontier of the clock, and the threads. *)
Record hstate := mkHS { hz : Horizon; clock : Z; pcs : nat -> pc }.

Definition goto (t : nat) (p : pc) (h : Horizon) (s : hstate) : hstate :=
  mkHS h (clock s) (<[t := p]> (pcs s)).

(** After [claim] returned [unregistered], and after it returned a slot. *)
Definition after_unreg (md : mode) : pc :=
  match md with Hold => RClock None | At ts => RActive false None ts end.
Definition after_stamp (md : mode) (k : nat) : pc :=
  match md with Hold => RClock (Some k) | At ts => RActive false (Some k) ts end.
Definition stamp_value (md : mode) : Z :=
  match md with Hold => holdEverything | At ts => u64 (ts + 1) end.

(** The atomic accesses of [claim]. *)
Definition claim_step (t : nat) (s : hstate) : option hstate :=
  let h := hz s in
  match pcs s t with
  | CNext md =>
      let v := u64 (next h + 1) in
      Some (goto t (CLoad md (Z.to_nat (Z.land v (Z.of_nat horizonWords - 1))) 0) (set_next v h) s)
  | CLoad md start i =>
      Some (goto t (if (i <? horizonWords)%nat
                    then let cur := occ h (probe start i) in
                         if cur =? all_ones then CLoad md start (S i) else CCas md start i cur
                    else CUnreg md) h s)
  | CCas md start i cur =>
      let w := probe start i in
      let b := TrailingZeros64 (Z.lxor cur all_ones) in
      Some (if occ h w =? cur
            then goto t (RStamp md (w * 64 + b)%nat) (set_word w (Z.lor cur (Z.shiftl 1 (Z.of_nat b))) h) s
            else goto t (CLoad md start i) h s)
  | CUnreg md => Some (goto t (after_unreg md) (set_unreg (unreg h + 1) h) s)
  | _ => None
  end.

(** What follows the claim: the store of [Enter] or [EnterHolding]. *)
Definition stamp_step (t : nat) (s : hstate) : option hstate :=
  match pcs s t with
  | RStamp md k => Some (goto t (after_stamp md k) (set_slot k (stamp_value md) (hz s)) s)
  | _ => None
  end.

(** The rest of [Graph.BeginRead]: the read of the clock and [Publish]. *)
Definition publish_step (t : nat) (s : hstate) : option hstate :=
  match pcs s t with
  | RClock slot => Some (goto t (RPublish slot (clock s)) (hz s) s)
  | RPublish slot ts =>
      Some (goto t (RActive true slot ts)
              match slot with Some k => set_slot k (u64 (ts + 1)) (hz s) | None => hz s end s)
  | _ => None
  end.

(** The atomic accesses of [Leave]. *)
Definition leave_step (t : nat) (s : hstate) : option hstate :=
  let h := hz s in
  match pcs s t with
  | LUnreg => Some (goto t Idle (set_unreg (unreg h - 1) h) s)
  | LZero k _ => Some (goto t (LClear k) (set_slot k 0 h) s)
  | LClear k =>
      let old := occ h (word_of k) in
      Some (goto t (if Z.land old (mask_of k) =? 0 then LStale else Idle)
              (set_word (word_of k) (Z.land old (Z.lxor (mask_of k) all_ones)) h) s)
  | LStale => Some (goto t Idle (set_stale (staleLeave h + 1) h) s)
  | _ => None
  end.

(** The loads of [Oldest], after its caller sampled the fallback. *)
Definition oldest_step (t : nat) (s : hstate) : option hstate :=
  let h := hz s in
  match pcs s t with
  | OFall => Some (goto t (OUnreg (clock s)) h s)
  | OUnreg f => Some (goto t (if unreg h =? 0 then OWord f 0 else ODone 0) h s)
  | OWord oldest w =>
      Some (goto t (if (w <? horizonWords)%nat then OBits oldest w (occ h w) else ORecheck oldest) h s)
  | OBits oldest w m =>
      Some (goto t (if m =? 0 then OWord oldest (S w)
                    else
                      let b := TrailingZeros64 m in
                      let v := slots h (w * 64 + b)%nat in
                      if v =? 0 then ODone 0
                      else OBits (if v - 1 <? oldest then v - 1 else oldest) w (Z.land m (m - 1))) h s)
  | ORecheck oldest => Some (goto t (if unreg h =? 0 then ODone oldest else ODone 0) h s)
  | _ => None
  end.

(** One atomic access of a thread. *)
Definition hstep (t : nat) (s : hstate) : option hstate :=
  match pcs s t with
  | Idle | RActive _ _ _ | ODone _ => None
  | CNext _ | CLoad _ _ _ | CCas _ _ _ _ | CUnreg _ => claim_step t s
  | RStamp _ _ => stamp_step t s
  | RClock _ | RPublish _ _ => publish_step t s
  | LUnreg | LZero _ _ | LClear _ | LStale => leave_step t s
  | OFall | OUnreg _ | OWord _ _ | OBits _ _ _ | ORecheck _ => oldest_step t s
  end.

(** What starts and ends a thread's work, and the clock of the engine, which only
    moves forward: [Begin] registers a reader, [End] is its departure, [Scan] a
    reclaimer's pass. *)
Inductive label :=
  | Begin (t : nat) (md : mode)
  | End (t : nat)
  | Scan (t : nat)
  | Step (t : nat)
  | Tick (d : Z).

Definition mstep (l : label) (s : hstate) : option hstate :=
  match l with
  | Begin t md => match pcs s t with Idle => Some (goto t (CNext md) (hz s) s) | _ => None end
  | End t =>
      match pcs s t with
      | RActive _ None _ => Some (goto t LUnreg (hz s) s)
      | RActive _ (Some k) ts => Some (goto t (LZero k ts) (hz s) s)
      | _ => None
      end
  | Scan t =>
      match pcs s t with Idle | ODone _ => Some (goto t OFall (hz s) s) | _ => None end
  | Step t => hstep t s
  | Tick d => Some (mkHS (hz s) (clock s + d) (pcs s))
  end.

Fixpoint exec (ls : list label) (s : hstate) : option hstate :=
  match ls with [] => Some s | l :: ls => s' ← mstep l s; exec ls s' end.

(** The zero value. *)
Definition NewHorizon : Horizon := mkHorizon (fun _ => 0) (fun _ => 0) 0 0 0.

Definition init (now : Z) : hstate := mkHS NewHorizon now (fun _ => Idle).
