(* ===== verification/HorizonInv.v ===== *)
(** * The reader horizon: bits and invariant

    Least set bits of a word, and what holds in every reachable state of the machine
    of Horizon.v: slots are exclusive, a slot's word is its occupant's instant and
    zero otherwise, and a scan never leaves behind a reader it should have seen. *)

From Stdlib Require Import ZArith Lia.
From S2P Require Import Prelude Horizon.

Local Open Scope Z_scope.

(** ** Bits *)

Definition is_word (m : Z) : Prop := 0 <= m < 2 ^ 64.

Lemma word_bit_high m j : is_word m -> (64 <= j)%nat -> Z.testbit m (Z.of_nat j) = false.
Proof.
  intros Hm Hj. unfold is_word in Hm. destruct (decide (m = 0)) as [->|]; [apply Z.testbit_0_l|].
  apply Z.bits_above_log2; [lia|]. assert (Z.log2 m < 64) by (apply Z.log2_lt_pow2; lia). lia.
Qed.

(** A word is determined by its 64 bits. *)
Lemma word_eq m n : is_word m -> is_word n ->
  (forall j, (j < 64)%nat -> Z.testbit m (Z.of_nat j) = Z.testbit n (Z.of_nat j)) -> m = n.
Proof.
  intros Hm Hn H. apply Z.bits_inj'. intros k Hk. rewrite <- (Z2Nat.id k) by done.
  destruct (decide (Z.to_nat k < 64)%nat); [by apply H|]. by rewrite !word_bit_high by (done || lia).
Qed.

Lemma ctz_from_spec m fuel : forall b j, (b <= j < b + fuel)%nat -> Z.testbit m (Z.of_nat j) = true ->
  let c := ctz_from fuel m b in
  (b <= c <= j)%nat /\ Z.testbit m (Z.of_nat c) = true /\
  forall i, (b <= i < c)%nat -> Z.testbit m (Z.of_nat i) = false.
Proof.
  induction fuel as [|fuel IH]; intros b j Hj Hb c; subst c; [lia|]. cbn [ctz_from].
  destruct (Z.testbit m (Z.of_nat b)) eqn:E; [spl; try done; lia|].
  destruct (decide (b = j)) as [->|Hne]; [congruence|].
  destruct (IH (S b) j ltac:(lia) Hb) as (H1 & H2 & H3). spl; try done; try lia.
  intros i Hi. destruct (decide (i = b)) as [->|]; [done|]. apply H3. lia.
Qed.

Lemma some_bit m : is_word m -> m <> 0 -> exists j, (j < 64)%nat /\ Z.testbit m (Z.of_nat j) = true.
Proof.
  intros Hm Hne. unfold is_word in Hm. exists (Z.to_nat (Z.log2 m)).
  assert (Z.log2 m < 64) by (apply Z.log2_lt_pow2; lia). pose proof (Z.log2_nonneg m). split; [lia|].
  rewrite Z2Nat.id by done. apply Z.bit_log2. lia.
Qed.

Lemma ctz_spec m : is_word m -> m <> 0 ->
  (TrailingZeros64 m < 64)%nat /\ Z.testbit m (Z.of_nat (TrailingZeros64 m)) = true /\
  forall i, (i < TrailingZeros64 m)%nat -> Z.testbit m (Z.of_nat i) = false.
Proof.
  intros Hm Hne. unfold TrailingZeros64. destruct (some_bit m Hm Hne) as (j & Hj & Hb).
  destruct (ctz_from_spec m 64 0 j ltac:(lia) Hb) as (H1 & H2 & H3). spl; [lia|done|]. intros i Hi. apply H3. lia.
Qed.

(** [m & (m - 1)] clears the least set bit. *)
Lemma clear_lowest m j : is_word m -> m <> 0 ->
  Z.testbit (Z.land m (m - 1)) (Z.of_nat j) = Z.testbit m (Z.of_nat j) && negb (j =? TrailingZeros64 m)%nat.
Proof.
  intros Hm Hne. destruct (ctz_spec m Hm Hne) as (Hc & Hbit & Hlow). set (c := TrailingZeros64 m) in *.
  assert (Hmod : m mod 2 ^ (Z.of_nat c + 1) = 2 ^ Z.of_nat c).
  { apply Z.bits_inj'. intros k Hk. rewrite Z.pow2_bits_eqb by lia. destruct (decide (k < Z.of_nat c + 1)).
    - rewrite Z.mod_pow2_bits_low by lia. rewrite <- (Z2Nat.id k) by done. destruct (decide (Z.to_nat k = c)) as [->|].
      + by rewrite Hbit, Z.eqb_refl.
      + rewrite Hlow by lia. symmetry. apply Z.eqb_neq. lia.
    - rewrite Z.mod_pow2_bits_high by lia. symmetry. apply Z.eqb_neq. lia. }
  assert (Hpow : 2 ^ (Z.of_nat c + 1) = 2 * 2 ^ Z.of_nat c) by (rewrite Z.pow_add_r by lia; lia).
  pose proof (Z.pow_pos_nonneg 2 (Z.of_nat c) ltac:(lia) ltac:(lia)) as Hp.
  pose proof (Z.div_mod m (2 ^ (Z.of_nat c + 1)) ltac:(lia)) as Hdm. rewrite Hmod in Hdm.
  set (q := m / 2 ^ (Z.of_nat c + 1)) in *.
  assert (Hpre : m - 1 = 2 ^ (Z.of_nat c + 1) * q + (2 ^ Z.of_nat c - 1)) by lia.
  rewrite Z.land_spec. destruct (Nat.eqb_spec j c) as [->|Hj]; cbn [negb].
  - rewrite andb_false_r, <- (Z.mod_pow2_bits_low (m - 1) (Z.of_nat c + 1)) by lia.
    rewrite Hpre, (Z.add_comm (2 ^ (Z.of_nat c + 1) * q)), (Z.mul_comm (2 ^ (Z.of_nat c + 1)) q), Z.mod_add, Z.mod_small by lia.
    rewrite Z.sub_1_r, <- Z.ones_equiv, Z.ones_spec_high by lia. apply andb_false_r.
  - rewrite andb_true_r. destruct (decide (j < c)%nat); [by rewrite Hlow by done|].
    replace (Z.testbit (m - 1) (Z.of_nat j)) with (Z.testbit m (Z.of_nat j)); [apply andb_diag|].
    replace (Z.of_nat j) with (Z.of_nat j - (Z.of_nat c + 1) + (Z.of_nat c + 1)) by lia.
    rewrite <- !Z.div_pow2_bits by lia. f_equal. fold q. symmetry.
    rewrite Hpre, (Z.mul_comm (2 ^ (Z.of_nat c + 1)) q), Z.div_add_l, (Z.div_small (2 ^ Z.of_nat c - 1)) by lia. lia.
Qed.

Lemma land_word m n : is_word m -> is_word (Z.land m n).
Proof.
  intros Hm. assert (Hl : Z.land m n = Z.land (Z.land m n) (Z.ones 64)).
  { rewrite <- Z.land_assoc, (Z.land_comm n), Z.land_assoc. rewrite Z.land_ones by lia. by rewrite Z.mod_small. }
  rewrite Hl, Z.land_ones by lia. apply Z.mod_pos_bound. lia.
Qed.

Lemma lor_word m n : is_word m -> is_word n -> is_word (Z.lor m n).
Proof.
  intros Hm Hn. assert (Hl : Z.lor m n = Z.land (Z.lor m n) (Z.ones 64)).
  { rewrite Z.land_lor_distr_l, !Z.land_ones by lia. by rewrite !Z.mod_small. }
  rewrite Hl, Z.land_ones by lia. apply Z.mod_pos_bound. lia.
Qed.

Lemma bit_word b : (b < 64)%nat -> is_word (Z.shiftl 1 (Z.of_nat b)).
Proof.
  intros Hb. rewrite Z.shiftl_1_l. unfold is_word. split; [apply Z.pow_nonneg; lia|]. apply Z.pow_lt_mono_r; lia.
Qed.

Lemma testbit_set m b j : Z.testbit (Z.lor m (Z.shiftl 1 (Z.of_nat b))) (Z.of_nat j) =
  Z.testbit m (Z.of_nat j) || (j =? b)%nat.
Proof.
  rewrite Z.lor_spec, Z.shiftl_1_l, Z.pow2_bits_eqb by lia. f_equal.
  destruct (Nat.eqb_spec j b) as [->|]; [apply Z.eqb_refl|apply Z.eqb_neq; lia].
Qed.

Lemma testbit_not m j : (j < 64)%nat -> Z.testbit (Z.lxor m all_ones) (Z.of_nat j) = negb (Z.testbit m (Z.of_nat j)).
Proof.
  intros Hj. rewrite Z.lxor_spec. change all_ones with (Z.ones 64). rewrite Z.ones_spec_low by lia.
  by destruct (Z.testbit m (Z.of_nat j)).
Qed.

Lemma testbit_clear m b j : (j < 64)%nat ->
  Z.testbit (Z.land m (Z.lxor (Z.shiftl 1 (Z.of_nat b)) all_ones)) (Z.of_nat j) =
  Z.testbit m (Z.of_nat j) && negb (j =? b)%nat.
Proof.
  intros Hj. rewrite Z.land_spec, testbit_not by done. f_equal. f_equal. rewrite Z.shiftl_1_l, Z.pow2_bits_eqb by lia.
  destruct (Nat.eqb_spec j b) as [->|]; [apply Z.eqb_refl|apply Z.eqb_neq; lia].
Qed.

Lemma land_bit m b : Z.land m (Z.shiftl 1 (Z.of_nat b)) = 0 <-> Z.testbit m (Z.of_nat b) = false.
Proof.
  split.
  - intros H. destruct (Z.testbit m (Z.of_nat b)) eqn:E; [|done].
    assert (Hb : Z.testbit (Z.land m (Z.shiftl 1 (Z.of_nat b))) (Z.of_nat b) = true).
    { rewrite Z.land_spec, E, Z.shiftl_1_l, Z.pow2_bits_true by lia. done. }
    rewrite H, Z.testbit_0_l in Hb. done.
  - intros E. apply Z.bits_inj'. intros k Hk. rewrite Z.land_spec, Z.testbit_0_l, Z.shiftl_1_l, Z.pow2_bits_eqb by lia.
    destruct (Z.eqb_spec (Z.of_nat b) k) as [<-|]; [by rewrite E|apply andb_false_r].
Qed.

(** A word that is not full has a clear bit, which [TrailingZeros64] of its
    complement finds. *)
Lemma free_bit cur : is_word cur -> cur <> all_ones ->
  let b := TrailingZeros64 (Z.lxor cur all_ones) in
  (b < 64)%nat /\ Z.testbit cur (Z.of_nat b) = false.
Proof.
  intros Hc Hne b. assert (Hw : is_word (Z.lxor cur all_ones)).
  { assert (Hl : Z.lxor cur all_ones = Z.land (Z.lxor cur all_ones) (Z.ones 64)).
    { apply Z.bits_inj'. intros k Hk. rewrite Z.land_spec. destruct (decide (k < 64)).
      - by rewrite (Z.ones_spec_low 64), andb_true_r by lia.
      - rewrite (Z.ones_spec_high 64), andb_false_r by lia. rewrite Z.lxor_spec.
        change all_ones with (Z.ones 64). rewrite (Z.ones_spec_high 64) by lia.
        rewrite <- (Z2Nat.id k), word_bit_high by (done || lia). done. }
    rewrite Hl, Z.land_ones by lia. apply Z.mod_pos_bound. lia. }
  assert (Hn0 : Z.lxor cur all_ones <> 0) by (intros H%Z.lxor_eq; done).
  destruct (ctz_spec _ Hw Hn0) as (H1 & H2 & _). split; [done|]. fold b in H1, H2.
  rewrite testbit_not in H2 by done. by apply negb_true_iff.
Qed.

(** Expose the step of a thread. *)
Ltac unfold_steps := unfold hstep, claim_step, stamp_step, publish_step, leave_step, oldest_step.
Tactic Notation "unfold_steps" "in" hyp(H) :=
  unfold hstep, claim_step, stamp_step, publish_step, leave_step, oldest_step in H.

(** ** What a thread holds *)

Definition holds_slot (p : pc) : option nat :=
  match p with
  | RStamp _ k | RClock (Some k) | RPublish (Some k) _ | RActive _ (Some k) _ | LZero k _ | LClear k => Some k
  | _ => None
  end.

(** The word of the slot it holds. *)
Definition slot_value (p : pc) : Z :=
  match p with
  | RClock _ | RPublish _ _ => holdEverything
  | RActive _ _ ts | LZero _ ts => ts + 1
  | _ => 0
  end.

(** A reader that found no slot and is counted. *)
Definition is_unreg (p : pc) : Z :=
  match p with
  | RClock None | RPublish None _ | RActive _ None _ | LUnreg => 1
  | _ => 0
  end.

(** A reader that registered before it read the clock, with the instant it read. *)
Definition reading (p : pc) : option (slotno * Z) :=
  match p with
  | RPublish slot ts | RActive true slot ts => Some (slot, ts)
  | _ => None
  end.

Definition mode_ok (md : mode) : Prop :=
  match md with Hold => True | At ts => 0 <= ts < 2 ^ 63 end.

Section inv.
Context (n : nat).
Implicit Types (s : hstate) (h : Horizon) (p : pc) (ps : nat -> pc).

(** Labels of the first [n] threads; the clock stays among commit timestamps. *)
Definition label_ok (l : label) s : Prop :=
  match l with
  | Begin t md => (t < n)%nat /\ mode_ok md
  | End t | Scan t | Step t => (t < n)%nat
  | Tick d => 0 <= d /\ clock s + d < 2 ^ 63
  end.

Record SlotInv h ps : Prop := mkSlotInv {
  si_words : forall w, is_word (occ h w);
  si_own : forall w b, (w < horizonWords)%nat -> (b < 64)%nat ->
    Z.testbit (occ h w) (Z.of_nat b) = true <-> exists t, holds_slot (ps t) = Some (w * 64 + b)%nat;
  si_range : forall t k, holds_slot (ps t) = Some k -> (k < horizonSlots)%nat;
  si_excl : forall t u k, holds_slot (ps t) = Some k -> holds_slot (ps u) = Some k -> t = u;
  si_value : forall t k, holds_slot (ps t) = Some k -> slots h k = slot_value (ps t);
  si_free : forall k, (forall t, holds_slot (ps t) <> Some k) -> slots h k = 0;
}.

Definition local_ok (now : Z) p : Prop :=
  match p with
  | CNext md | CLoad md _ _ | CUnreg md | RStamp md _ => mode_ok md
  | CCas md _ _ cur => mode_ok md /\ is_word cur /\ cur <> all_ones
  | RPublish _ ts => 0 <= ts <= now
  | RActive held _ ts => 0 <= ts < 2 ^ 63 /\ (held = true -> ts <= now)
  | LZero _ ts => 0 <= ts < 2 ^ 63
  | LStale => False
  | _ => True
  end.

(** The registered readers older than [o] are where [P] says. *)
Definition ahead ps (o : Z) (P : nat -> Prop) : Prop :=
  forall u k ts, reading (ps u) = Some (Some k, ts) -> ts < o -> P k.

Definition scan_ok ps (now : Z) p : Prop :=
  match p with
  | OUnreg f => 0 <= f <= now
  | OWord o w => 0 <= o <= now /\ ahead ps o (fun k => w <= word_of k)%nat
  | OBits o w m => 0 <= o <= now /\ is_word m /\ (w < horizonWords)%nat /\
      ahead ps o (fun k => (w < word_of k)%nat \/ (word_of k = w /\ Z.testbit m (Z.of_nat (bit_of k)) = true))
  | ORecheck o => 0 <= o <= now /\ ahead ps o (fun _ => False)
  | ODone wm => 0 <= wm <= now /\ forall u slot ts, reading (ps u) = Some (slot, ts) -> wm <= ts
  | _ => True
  end.

Record HInv s : Prop := mkHInv {
  hi_slots : SlotInv (hz s) (pcs s);
  hi_unreg : unreg (hz s) = zsum (fun t => is_unreg (pcs s t)) n;
  hi_idle : forall t, (n <= t)%nat -> pcs s t = Idle;
  hi_stale : staleLeave (hz s) = 0;
  hi_clock : 0 <= clock s < 2 ^ 63;
  hi_local : forall t, local_ok (clock s) (pcs s t);
  hi_scan : forall t, scan_ok (pcs s) (clock s) (pcs s t);
}.

(** ** Slots *)

Lemma slot_split k : (word_of k * 64 + bit_of k = k)%nat /\ (bit_of k < 64)%nat.
Proof. unfold word_of, bit_of. pose proof (Nat.div_mod_eq k 64). pose proof (Nat.mod_upper_bound k 64). lia. Qed.

Lemma slot_join w b : (b < 64)%nat -> word_of (w * 64 + b) = w /\ bit_of (w * 64 + b) = b.
Proof.
  intros Hb. unfold word_of, bit_of. split.
  - rewrite Nat.div_add_l by lia. rewrite Nat.div_small; lia.
  - rewrite Nat.add_comm, Nat.Div0.mod_add. by apply Nat.mod_small.
Qed.

Lemma slot_word k : (k < horizonSlots)%nat -> (word_of k < horizonWords)%nat.
Proof. intros Hk. unfold word_of, horizonWords. apply Nat.Div0.div_lt_upper_bound. exact Hk. Qed.

(** A thread moves on with the slot it holds, if any, whose word follows. *)
Lemma slots_keep h ps t p' v : SlotInv h ps -> holds_slot p' = holds_slot (ps t) ->
  (forall k, holds_slot p' = Some k -> v k = slot_value p') ->
  (forall k, holds_slot p' <> Some k -> v k = slots h k) ->
  SlotInv (mkHorizon v (occ h) (next h) (unreg h) (staleLeave h)) (<[t := p']> ps).
Proof.
  intros HI Hh Hv Hk. assert (E : forall u, holds_slot ((<[t := p']> ps) u) = holds_slot (ps u)).
  { intros u. rewrite fn_insert_dec. case_decide; by subst. }
  split; cbn [occ slots]; intros; rewrite ?E in *.
  - apply (si_words h ps HI).
  - setoid_rewrite E. by apply (si_own h ps HI).
  - by eapply (si_range h ps HI).
  - by eapply (si_excl h ps HI).
  - rewrite fn_insert_dec. case_decide as Htu; [subst; apply Hv; congruence|].
    rewrite Hk; [by apply (si_value h ps HI)|]. rewrite Hh. intros Ht. apply Htu. by apply (si_excl h ps HI t t0 k).
  - rewrite Hk; [apply (si_free h ps HI); intros u; rewrite <- E; apply H|]. rewrite Hh. rewrite <- E. apply H.
Qed.

Lemma slots_move h ps t p' x y z : SlotInv h ps -> holds_slot p' = holds_slot (ps t) ->
  (forall k, holds_slot p' = Some k -> slot_value p' = slot_value (ps t)) ->
  SlotInv (mkHorizon (slots h) (occ h) x y z) (<[t := p']> ps).
Proof.
  intros HI Hh Hv. destruct (slots_keep h ps t p' (slots h) HI Hh) as [H1 H2 H3 H4 H5 H6]; [|done|by split].
  intros k Hk. rewrite (Hv k Hk). apply (si_value h ps HI). congruence.
Qed.

(** A claim takes a slot nobody holds. *)
Lemma slots_claim h ps t p' w b : SlotInv h ps -> (w < horizonWords)%nat -> (b < 64)%nat ->
  Z.testbit (occ h w) (Z.of_nat b) = false -> holds_slot (ps t) = None ->
  holds_slot p' = Some (w * 64 + b)%nat -> slot_value p' = 0 ->
  SlotInv (set_word w (Z.lor (occ h w) (Z.shiftl 1 (Z.of_nat b))) h) (<[t := p']> ps).
Proof.
  intros HI Hw Hb Hfree Hn Hp Hv.
  assert (Hno : forall u, holds_slot (ps u) <> Some (w * 64 + b)%nat).
  { intros u Hu. assert (Z.testbit (occ h w) (Z.of_nat b) = true) by (apply (si_own h ps HI); eauto). congruence. }
  split; cbn [occ slots set_word]; intros.
  - rewrite fn_insert_dec. case_decide; [|apply (si_words h ps HI)]. apply lor_word; [apply (si_words h ps HI)|by apply bit_word].
  - rewrite fn_insert_dec. case_decide as Hww; subst.
    + rewrite testbit_set, orb_true_iff, Nat.eqb_eq, (si_own h ps HI w0 b0) by done. split.
      * intros [[u Hu]| ->]; [|exists t; by rewrite fn_insert_eq]. exists u. rewrite fn_insert_dec, decide_False; [done|].
        intros ->. congruence.
      * intros [u Hu]. rewrite fn_insert_dec in Hu. case_decide; [right|left; eauto]. rewrite Hp in Hu. injection Hu. lia.
    + rewrite (si_own h ps HI w0 b0) by done. split; intros [u Hu]; exists u; rewrite fn_insert_dec in *; case_decide as Htu; subst; try done; try congruence.
      exfalso. rewrite Hp in Hu. injection Hu as Hu. apply Hww.
      rewrite <- (proj1 (slot_join w b Hb)), <- (proj1 (slot_join w0 b0 ltac:(done))). f_equal. lia.
  - rewrite fn_insert_dec in H. case_decide; [|by eapply (si_range h ps HI)]. rewrite Hp in H. injection H as <-.
    unfold horizonWords, horizonSlots in *. change (1024 / 64)%nat with 16%nat in Hw. lia.
  - rewrite fn_insert_dec in H, H0. repeat case_decide; subst; try done; try (by eapply (si_excl h ps HI));
      exfalso; [apply (Hno u)|apply (Hno t0)]; congruence.
  - rewrite fn_insert_dec in H. rewrite fn_insert_dec. case_decide; [|by apply (si_value h ps HI)].
    rewrite Hp in H. injection H as <-. rewrite Hv. by apply (si_free h ps HI).
  - apply (si_free h ps HI). intros u Hu. apply (H u). rewrite fn_insert_dec, decide_False; [done|]. intros ->. congruence.
Qed.

(** A release clears the bit of the slot the thread holds, whose word is zero. *)
Lemma slots_release h ps t p' k : SlotInv h ps -> holds_slot (ps t) = Some k -> slot_value (ps t) = 0 ->
  holds_slot p' = None ->
  SlotInv (set_word (word_of k) (Z.land (occ h (word_of k)) (Z.lxor (mask_of k) all_ones)) h) (<[t := p']> ps).
Proof.
  intros HI Hk Hv Hp. destruct (slot_split k) as [Ek Hb].
  split; cbn [occ slots set_word]; intros.
  - rewrite fn_insert_dec. case_decide; [|apply (si_words h ps HI)]. apply land_word, (si_words h ps HI).
  - rewrite fn_insert_dec. case_decide as Hww; subst.
    + unfold mask_of. rewrite testbit_clear, andb_true_iff, negb_true_iff, Nat.eqb_neq, (si_own h ps HI _ b) by done. split.
      * intros [[u Hu] Hne]. exists u. rewrite fn_insert_dec, decide_False; [done|]. intros ->. rewrite Hk in Hu. injection Hu. lia.
      * intros [u Hu]. rewrite fn_insert_dec in Hu. case_decide; [congruence|]. split; [eauto|]. intros ->.
        rewrite Ek in Hu. by assert (t = u) by by eapply (si_excl h ps HI).
    + rewrite (si_own h ps HI w b) by done. split; intros [u Hu]; exists u; rewrite fn_insert_dec in *; case_decide as Htu; subst; try done; try congruence.
      exfalso. rewrite Hk in Hu. injection Hu as Hu. apply Hww. rewrite Hu. by apply slot_join.
  - rewrite fn_insert_dec in H. case_decide; [congruence|]. by eapply (si_range h ps HI).
  - rewrite fn_insert_dec in H, H0. repeat case_decide; subst; try done; try congruence. by eapply (si_excl h ps HI).
  - rewrite fn_insert_dec in H. rewrite fn_insert_dec. case_decide; [congruence|]. by apply (si_value h ps HI).
  - destruct (decide (k0 = k)) as [->|Hne]; [rewrite <- Hv; by apply (si_value h ps HI)|].
    apply (si_free h ps HI). intros u Hu. apply (H u). rewrite fn_insert_dec, decide_False; [done|]. intros ->. congruence.
Qed.
End inv.
