(* ===== verification/HorizonStep.v ===== *)
(** * The reader horizon: every step keeps the invariant

    Preservation of [HInv] (HorizonInv.v) by the labels of the machine of Horizon.v. *)

From Stdlib Require Import ZArith Lia.
From S2P Require Import Prelude Horizon HorizonInv.

Local Open Scope Z_scope.

Section step.
Context (n : nat).
Implicit Types (s : hstate) (h : Horizon) (p : pc) (ps : nat -> pc).

(** ** Scans and the readers they must not miss *)

Lemma reading_inv p slot ts : reading p = Some (slot, ts) -> p = RPublish slot ts \/ p = RActive true slot ts.
Proof. destruct p as [| | | | | | |sl t0|[|] sl t0| | | | | | | | | | ]; cbn; intros; simplify_eq; auto. Qed.

(** What a thread's move may add to the readers: one that just read the clock. *)
Definition reads_on (now : Z) p p' : Prop :=
  reading p' = None \/ reading p' = reading p \/ exists slot, reading p' = Some (slot, now).

Lemma reads_on_old ps now t p' u slot ts : reads_on now (ps t) p' ->
  reading ((<[t := p']> ps) u) = Some (slot, ts) -> reading (ps u) = Some (slot, ts) \/ ts = now.
Proof.
  intros Hr. rewrite fn_insert_dec. case_decide as Htu; [subst|by left].
  destruct Hr as [Hr|[Hr|[sl Hr]]]; rewrite Hr; [done|by left|]. intros [= _ ->]. by right.
Qed.

Lemma ahead_move ps now t p' o (P : nat -> Prop) : o <= now -> reads_on now (ps t) p' ->
  ahead ps o P -> ahead (<[t := p']> ps) o P.
Proof. intros Ho Hr H u k ts Hu Hts. destruct (reads_on_old ps now t p' u (Some k) ts Hr Hu); [eauto|lia]. Qed.

Lemma scan_move ps now t p' q : reads_on now (ps t) p' -> scan_ok ps now q -> scan_ok (<[t := p']> ps) now q.
Proof.
  intros Hr. destruct q; cbn [scan_ok]; try done.
  - intros [H1 H2]. split; [done|]. apply (ahead_move ps now); [lia|done|done].
  - intros (H1 & H2 & H3 & H4). spl; try done; try lia. apply (ahead_move ps now); [lia|done|done].
  - intros [H1 H2]. split; [done|]. apply (ahead_move ps now); [lia|done|done].
  - intros [H1 H2]. split; [done|]. intros u slot ts Hu.
    destruct (reads_on_old ps now t p' u slot ts Hr Hu) as [Ho| ->]; [eauto|lia].
Qed.

(** ** One thread moves *)

Lemma inv_move s t h' p' : HInv n s -> (t < n)%nat ->
  SlotInv h' (<[t := p']> (pcs s)) ->
  unreg h' = unreg (hz s) - is_unreg (pcs s t) + is_unreg p' ->
  staleLeave h' = staleLeave (hz s) ->
  local_ok (clock s) p' -> scan_ok (pcs s) (clock s) p' -> reads_on (clock s) (pcs s t) p' ->
  HInv n (goto t p' h' s).
Proof.
  intros HI Ht Hs Hu Hst Hl Hsc Hr. split; cbn [goto hz clock pcs].
  - done.
  - rewrite Hu, (hi_unreg n s HI). symmetry.
    rewrite (zsum_update (fun u => is_unreg (pcs s u)) _ n t Ht); [by rewrite fn_insert_eq|].
    intros i Hi. rewrite fn_insert_dec, decide_False; [done|]. congruence.
  - intros u Hun. rewrite fn_insert_dec, decide_False by lia. by apply (hi_idle n s HI).
  - rewrite Hst. apply (hi_stale n s HI).
  - apply (hi_clock n s HI).
  - intros u. rewrite fn_insert_dec. case_decide; [done|]. apply (hi_local n s HI).
  - intros u. rewrite fn_insert_dec. case_decide; (apply scan_move; [done|]); [done|]. apply (hi_scan n s HI).
Qed.

(** Most moves change neither a slot nor an occupancy word, nor the slot held. *)
Lemma inv_move_quiet s t p' x y : HInv n s -> (t < n)%nat ->
  holds_slot p' = holds_slot (pcs s t) ->
  (forall k, holds_slot p' = Some k -> slot_value p' = slot_value (pcs s t)) ->
  y = unreg (hz s) - is_unreg (pcs s t) + is_unreg p' ->
  local_ok (clock s) p' -> scan_ok (pcs s) (clock s) p' -> reads_on (clock s) (pcs s t) p' ->
  HInv n (goto t p' (mkHorizon (slots (hz s)) (occ (hz s)) x y (staleLeave (hz s))) s).
Proof. intros HI Ht Hh Hv Hy Hl Hsc Hr. apply inv_move; try done. by apply slots_move; [apply (hi_slots n s HI)| |]. Qed.

Lemma inv_goto s t p' : HInv n s -> (t < n)%nat ->
  holds_slot p' = holds_slot (pcs s t) ->
  (forall k, holds_slot p' = Some k -> slot_value p' = slot_value (pcs s t)) ->
  is_unreg p' = is_unreg (pcs s t) ->
  local_ok (clock s) p' -> scan_ok (pcs s) (clock s) p' -> reads_on (clock s) (pcs s t) p' ->
  HInv n (goto t p' (hz s) s).
Proof.
  intros HI Ht Hh Hv Hu Hl Hsc Hr.
  replace (hz s) with (mkHorizon (slots (hz s)) (occ (hz s)) (next (hz s)) (unreg (hz s)) (staleLeave (hz s))) by by destruct (hz s).
  apply inv_move_quiet; try done. lia.
Qed.

(** The thread stores the word of its slot. *)
Lemma inv_move_slot s t p' k v : HInv n s -> (t < n)%nat ->
  holds_slot (pcs s t) = Some k -> holds_slot p' = Some k -> v = slot_value p' ->
  is_unreg p' = 0 -> is_unreg (pcs s t) = 0 ->
  local_ok (clock s) p' -> scan_ok (pcs s) (clock s) p' -> reads_on (clock s) (pcs s t) p' ->
  HInv n (goto t p' (set_slot k v (hz s)) s).
Proof.
  intros HI Ht Hk Hk' Hv Hu Hu' Hl Hsc Hr. apply inv_move; try done; [|cbn [unreg set_slot]; lia].
  apply slots_keep; [apply (hi_slots n s HI)|congruence| |].
  - intros j Hj. rewrite Hk' in Hj. injection Hj as <-. by rewrite fn_insert_eq.
  - intros j Hj. rewrite fn_insert_dec, decide_False; [done|]. congruence.
Qed.

(** ** The scan of one word *)

(** The bits of a word that is about to be scanned are its slots' holders. *)
Lemma scan_word s t o w : HInv n s -> pcs s t = OWord o w -> (w < horizonWords)%nat ->
  scan_ok (pcs s) (clock s) (OBits o w (occ (hz s) w)).
Proof.
  intros HI Hp Hw. pose proof (hi_scan n s HI t) as Hs. rewrite Hp in Hs. cbn [scan_ok] in *. destruct Hs as [Ho Ha].
  pose proof (hi_slots n s HI) as HS. spl; try done; try lia; [apply (si_words _ _ HS)|].
  intros u k ts Hu Hts. pose proof (Ha u k ts Hu Hts) as Hk. cbn beta in Hk. destruct (decide (word_of k = w)) as [E|]; [right|left; lia].
  split; [done|]. destruct (slot_split k) as [Ek Hb]. apply (si_own _ _ HS); [done|done|]. exists u. subst w. rewrite Ek.
  by destruct (reading_inv _ _ _ Hu) as [E|E]; rewrite E.
Qed.

(** The word of a slot is a word, and that of a registered reader is its instant or
    [holdEverything]. *)
Lemma slot_nonneg s k : HInv n s -> 0 <= slots (hz s) k.
Proof.
  intros HI. pose proof (hi_slots n s HI) as HS.
  destruct (decide (slots (hz s) k = 0)) as [->|Hne]; [lia|].
  destruct (decide (Exists (fun t => holds_slot (pcs s t) = Some k) (seq 0 n))) as [[t [_ Ht]]%Exists_exists|Hno].
  - rewrite (si_value _ _ HS t k Ht). pose proof (hi_local n s HI t) as Hl. unfold holdEverything.
    destruct (pcs s t); cbn [slot_value local_ok] in *; unfold holdEverything; lia.
  - exfalso. apply Hne. apply (si_free _ _ HS). intros t Ht. apply Hno. apply Exists_exists. exists t. split; [|done].
    apply elem_of_seq. destruct (decide (t < n)%nat); [lia|]. rewrite (hi_idle n s HI) in Ht by lia. done.
Qed.

Lemma reading_slot s u k ts : HInv n s -> reading (pcs s u) = Some (Some k, ts) ->
  0 <= ts /\ (slots (hz s) k = holdEverything \/ slots (hz s) k = ts + 1).
Proof.
  intros HI Hu. pose proof (hi_slots n s HI) as HS. pose proof (hi_local n s HI u) as Hl.
  destruct (reading_inv _ _ _ Hu) as [Ep|Ep]; rewrite Ep in Hl;
    cbn [local_ok] in Hl; (split; [lia|]); rewrite (si_value _ _ HS u k) by (by rewrite Ep); rewrite Ep; [by left|by right].
Qed.

Lemma scan_bit s t o w m : HInv n s -> pcs s t = OBits o w m -> m <> 0 ->
  let v := slots (hz s) (w * 64 + TrailingZeros64 m)%nat in v <> 0 ->
  scan_ok (pcs s) (clock s) (OBits (if v - 1 <? o then v - 1 else o) w (Z.land m (m - 1))).
Proof.
  intros HI Hp Hm v Hv. pose proof (hi_scan n s HI t) as Hs. rewrite Hp in Hs. cbn [scan_ok] in *.
  destruct Hs as (Ho & Hw & Hlt & Ha). pose proof (slot_nonneg s (w * 64 + TrailingZeros64 m) HI) as Hnn. fold v in Hnn.
  set (o' := if v - 1 <? o then v - 1 else o). assert (Ho' : 0 <= o' <= o /\ o' <= v - 1).
  { unfold o'. destruct (Z.ltb_spec (v - 1) o); lia. }
  spl; try lia; [by apply land_word|].
  intros u k ts Hu Hts. destruct (Ha u k ts Hu ltac:(lia)) as [|[Hk Hb]]; [by left|]. right. split; [done|].
  rewrite clear_lowest, Hb by done. cbn [andb]. apply negb_true_iff, Nat.eqb_neq. intros E.
  destruct (slot_split k) as [Ek _]. rewrite Hk, E in Ek.
  destruct (reading_slot s u k ts HI Hu) as [Hts0 Hsl]. rewrite <- Ek in Hsl. fold v in Hsl. unfold holdEverything in Hsl. lia.
Qed.

Lemma unreg_holds s u slot ts : HInv n s -> reading (pcs s u) = Some (slot, ts) -> unreg (hz s) = 0 ->
  exists k, slot = Some k.
Proof.
  intros HI Hu H0. destruct slot as [k|]; [by exists k|]. exfalso.
  assert (u < n)%nat. { destruct (decide (u < n)%nat); [done|]. rewrite (hi_idle n s HI) in Hu by lia. done. }
  assert (0 < unreg (hz s)); [|lia]. rewrite (hi_unreg n s HI). apply (zsum_pos _ n u); [|done|].
  - intros i _. by destruct (pcs s i) as [| | | | | | [|]|[|]|? [|]| | | | | | | | | | ].
  - by destruct (reading_inv _ _ _ Hu) as [E|E]; rewrite E.
Qed.

Lemma done_zero s : HInv n s -> scan_ok (pcs s) (clock s) (ODone 0).
Proof.
  intros HI. pose proof (hi_clock n s HI). cbn [scan_ok]. split; [lia|]. intros u slot ts Hu.
  pose proof (hi_local n s HI u) as Hl.
  destruct (reading_inv _ _ _ Hu) as [E|E]; rewrite E in Hl; cbn [local_ok] in Hl; lia.
Qed.

Lemma done_scan s t o : HInv n s -> pcs s t = ORecheck o -> unreg (hz s) = 0 ->
  scan_ok (pcs s) (clock s) (ODone o).
Proof.
  intros HI Hp H0. pose proof (hi_scan n s HI t) as Hs. rewrite Hp in Hs. cbn [scan_ok] in *. destruct Hs as [Ho Ha].
  split; [done|]. intros u slot ts Hu. destruct (unreg_holds s u slot ts HI Hu H0) as [k ->].
  destruct (decide (o <= ts)); [done|]. destruct (Ha u k ts Hu). lia.
Qed.

(** ** Preservation *)

(** A claim that finds its word unchanged takes a free slot of it. *)
Lemma inv_claim s t md start i cur : HInv n s -> (t < n)%nat -> pcs s t = CCas md start i cur ->
  occ (hz s) (probe start i) = cur ->
  let w := probe start i in
  let b := TrailingZeros64 (Z.lxor cur all_ones) in
  HInv n (goto t (RStamp md (w * 64 + b)%nat) (set_word w (Z.lor cur (Z.shiftl 1 (Z.of_nat b))) (hz s)) s).
Proof.
  intros HI Ht Hp Hc w b. pose proof (hi_local n s HI t) as Hl. rewrite Hp in Hl. destruct Hl as (Hm & Hw & Hne).
  destruct (free_bit cur Hw Hne) as [Hb Hfree]. fold b in Hb, Hfree.
  apply inv_move; rewrite ?Hp; try done; [|cbn [is_unreg set_word unreg]; lia|by left].
  rewrite <- Hc. apply slots_claim; rewrite ?Hp, ?Hc; try done; [apply (hi_slots n s HI)|].
  apply Nat.mod_upper_bound. done.
Qed.

(** A departure clears a bit that is set. *)
Lemma inv_release s t k : HInv n s -> (t < n)%nat -> pcs s t = LClear k ->
  let old := occ (hz s) (word_of k) in
  Z.land old (mask_of k) <> 0 /\
  HInv n (goto t Idle (set_word (word_of k) (Z.land old (Z.lxor (mask_of k) all_ones)) (hz s)) s).
Proof.
  intros HI Ht Hp old. pose proof (hi_slots n s HI) as HS. assert (Hk : holds_slot (pcs s t) = Some k) by by rewrite Hp.
  split.
  - unfold old, mask_of. rewrite land_bit. destruct (slot_split k) as [E Hb].
    assert (Z.testbit (occ (hz s) (word_of k)) (Z.of_nat (bit_of k)) = true); [|congruence].
    apply (si_own _ _ HS); [by eapply slot_word, (si_range _ _ HS)|done|]. exists t. by rewrite E.
  - apply inv_move; rewrite ?Hp; try done; [|cbn [is_unreg set_word unreg]; lia|by left].
    apply slots_release; rewrite ?Hp; done.
Qed.

Lemma inv_hstep s t s' : HInv n s -> (t < n)%nat -> hstep t s = Some s' -> HInv n s'.
Proof.
  intros HI Ht Hs. pose proof (hi_local n s HI t) as Hl. pose proof (hi_scan n s HI t) as Hsc.
  pose proof (hi_clock n s HI) as Hcl. unfold_steps in Hs.
  destruct (pcs s t) as [|md|md st i|md st i cur|md|md k|slot|slot ts|held slot ts| |k ts|k| | |f|o w|o w m|o|wm] eqn:Hp;
    try done; injection Hs as <-; cbn [local_ok scan_ok] in Hl, Hsc.
  - (* CNext *) apply inv_move_quiet; rewrite ?Hp; try done; [cbn [is_unreg]; lia|by left].
  - (* CLoad *) destruct (i <? horizonWords)%nat; [destruct (Z.eqb_spec (occ (hz s) (probe st i)) all_ones)|];
      apply inv_goto; rewrite ?Hp; try done; try (by left).
    split; [done|]. split; [|done]. apply (si_words _ _ (hi_slots n s HI)).
  - (* CCas *) destruct (Z.eqb_spec (occ (hz s) (probe st i)) cur); [by apply inv_claim|].
    apply inv_goto; rewrite ?Hp; try done; [apply Hl|by left].
  - (* CUnreg *) apply inv_move_quiet; rewrite ?Hp; try done; destruct md; cbn [is_unreg after_unreg local_ok mode_ok] in *; try done; try lia; by left.
  - (* RStamp *) apply (inv_move_slot s t _ k); rewrite ?Hp; try done; destruct md; cbn [after_stamp holds_slot slot_value local_ok mode_ok stamp_value] in *; try done; try (by left).
    apply u64_small. lia.
  - (* RClock *) apply inv_goto; rewrite ?Hp; try done; [cbn [local_ok]; lia|]. right. right. by exists slot.
  - (* RPublish *) destruct slot as [k|].
    + apply (inv_move_slot s t _ k); rewrite ?Hp; try done; [|cbn [local_ok]; split; [|intros _]; lia|by right; left]. cbn [slot_value]. apply u64_small. lia.
    + apply inv_goto; rewrite ?Hp; try done; [cbn [local_ok]; split; [|intros _]; lia|by right; left].
  - (* LUnreg *) apply inv_move_quiet; rewrite ?Hp; try done; [cbn [is_unreg]; lia|by left].
  - (* LZero *) apply (inv_move_slot s t _ k); rewrite ?Hp; try done. by left.
  - (* LClear *) destruct (inv_release s t k HI Ht Hp) as [Hne HI']. apply Z.eqb_neq in Hne. by rewrite Hne.
  - (* OFall *) apply inv_goto; rewrite ?Hp; try done; [cbn [scan_ok]; lia|by left].
  - (* OUnreg *) destruct (Z.eqb_spec (unreg (hz s)) 0); apply inv_goto; rewrite ?Hp; try done; try (by left); [|by apply (done_zero s)].
    cbn [scan_ok]. split; [done|]. intros u k ts _ _. lia.
  - (* OWord *) destruct (Nat.ltb_spec w horizonWords); apply inv_goto; rewrite ?Hp; try done; try (by left); [by eapply scan_word|].
    destruct Hsc as [Ho Ha]. split; [done|]. intros u k ts Hu Hts. pose proof (Ha u k ts Hu Hts) as Hk. cbn beta in Hk.
    assert (k < horizonSlots)%nat as Hr%slot_word; [|lia]. apply (si_range _ _ (hi_slots n s HI) u).
    by destruct (reading_inv _ _ _ Hu) as [E|E]; rewrite E.
  - (* OBits *) destruct (Z.eqb_spec m 0) as [->|].
    + apply inv_goto; rewrite ?Hp; try done; [|by left]. destruct Hsc as (Ho & _ & _ & Ha). split; [done|].
      intros u k ts Hu Hts. destruct (Ha u k ts Hu Hts) as [|[_ Hb]]; [lia|]. by rewrite Z.testbit_0_l in Hb.
    + destruct (Z.eqb_spec (slots (hz s) (w * 64 + TrailingZeros64 m)%nat) 0);
        apply inv_goto; rewrite ?Hp; try done; try (by left); [by apply (done_zero s)|]. by apply (scan_bit s t o w m).
  - (* ORecheck *) destruct (Z.eqb_spec (unreg (hz s)) 0); apply inv_goto; rewrite ?Hp; try done; try (by left);
      [by eapply done_scan|by apply (done_zero s)].
Qed.

Lemma inv_mstep l s s' : HInv n s -> label_ok n l s -> mstep l s = Some s' -> HInv n s'.
Proof.
  intros HI Hl Hs. destruct l as [t md|t|t|t|d]; cbn [label_ok mstep] in *.
  - destruct Hl as [Ht Hm]. destruct (pcs s t) eqn:Hp; try done. injection Hs as <-.
    apply inv_goto; rewrite ?Hp; try done. by left.
  - pose proof (hi_local n s HI t) as Hlo. destruct (pcs s t) as [| | | | | | | |held [k|] ts| | | | | | | | | | ] eqn:Hp; try done;
      injection Hs as <-; apply inv_goto; rewrite ?Hp; try done; try (by left). apply Hlo.
  - pose proof (hi_local n s HI t) as Hlo. destruct (pcs s t) eqn:Hp; try done; injection Hs as <-;
      apply inv_goto; rewrite ?Hp; try done; by left.
  - by eapply inv_hstep.
  - injection Hs as <-. destruct HI as [H1 H2 H3 H4 H5 H6 H7]. split; cbn [hz clock pcs]; try done; try lia.
    + intros t. specialize (H6 t). destruct (pcs s t); cbn [local_ok] in *; try done; intuition lia.
    + intros t. specialize (H7 t). destruct (pcs s t); cbn [scan_ok] in *; try done; intuition lia.
Qed.

Lemma inv_init now : 0 <= now < 2 ^ 63 -> HInv n (init now).
Proof.
  intros Hn. split; cbn [init hz clock pcs NewHorizon unreg staleLeave]; try done.
  - split; cbn [occ slots NewHorizon holds_slot]; try done. intros w b _ _. rewrite Z.testbit_0_l. by split; [|intros [? ?]].
  - cbn [is_unreg]. clear. induction n as [|m IH]; cbn; lia.
Qed.

(** Runs whose every label is permitted where it is taken. *)
#[global] Instance mode_ok_dec md : Decision (mode_ok md).
Proof. destruct md; cbn; apply _. Defined.

#[global] Instance label_ok_dec l s : Decision (label_ok n l s).
Proof. destruct l; cbn; apply _. Defined.

Fixpoint run (ls : list label) s : option hstate :=
  match ls with
  | [] => Some s
  | l :: ls => if decide (label_ok n l s) then s' ← mstep l s; run ls s' else None
  end.

Lemma run_exec ls : forall s s', run ls s = Some s' -> exec ls s = Some s'.
Proof.
  induction ls as [|l ls IH]; intros s s'; cbn; [done|]. case_decide; [|done].
  destruct (mstep l s); cbn; [apply IH|done].
Qed.

Lemma inv_run ls : forall s s', HInv n s -> run ls s = Some s' -> HInv n s'.
Proof.
  induction ls as [|l ls IH]; intros s s' HI He; cbn in *; [by injection He as <-|].
  case_decide as Hl; [|done]. destruct (mstep l s) as [s1|] eqn:Hs; [|done].
  apply (IH s1); [by eapply inv_mstep|done].
Qed.

Lemma inv_reached now ls s : 0 <= now < 2 ^ 63 -> run ls (init now) = Some s -> HInv n s.
Proof. intros Hn. apply inv_run. by apply inv_init. Qed.
End step.

(** * The reader horizon: counters and scans

    The number of set bits and the number of slot holders, the length of a scan in its
    own steps, and the answer of a scan that nothing interrupts: the least instant of
    the threads that hold a slot, or zero. *)

Local Open Scope Z_scope.

(** ** The counters *)

Definition holders (n : nat) (ps : nat -> pc) : list nat := omap (fun t => holds_slot (ps t)) (seq 0 n).

(** The occupied slots, in order. *)
Definition taken (h : Horizon) (words : nat) : list nat :=
  filter (fun k => Z.testbit (occ h (word_of k)) (Z.of_nat (bit_of k)) = true) (seq 0 (words * 64)).

Lemma taken_word h w :
  length (filter (fun k => Z.testbit (occ h (word_of k)) (Z.of_nat (bit_of k)) = true) (seq (w * 64) 64)) =
  OnesCount64 (occ h w).
Proof.
  unfold OnesCount64. replace (seq (w * 64) 64) with ((fun b => w * 64 + b)%nat <$> seq 0 64).
  - assert (Hs : forall b, b ∈ seq 0 64 -> (b < 64)%nat) by (intros b Hb%elem_of_seq; lia). revert Hs.
    generalize (seq 0 64). intros l Hs. induction l as [|b l IH]; [done|]. cbn [fmap list_fmap].
    destruct (slot_join w b) as [Ew Eb]; [apply Hs; left|]. rewrite !filter_cons, Ew, Eb.
    specialize (IH ltac:(intros; apply Hs; by right)). case_decide; cbn [length]; by rewrite IH.
  - change (fun b => w * 64 + b)%nat with (Nat.add (w * 64)). by rewrite fmap_add_seq, Nat.add_0_r.
Qed.

Lemma taken_length h words : length (taken h words) = sum_list_with (fun w => OnesCount64 (occ h w)) (seq 0 words).
Proof.
  unfold taken. induction words as [|w IH]; [done|].
  replace (S w * 64)%nat with (w * 64 + 64)%nat by lia. rewrite seq_app, filter_app, length_app, IH, Nat.add_0_l, taken_word.
  rewrite seq_S, Nat.add_0_l, sum_list_with_app. cbn [sum_list_with]. lia.
Qed.

Lemma active_taken h : Active h = length (taken h horizonWords).
Proof. symmetry. apply taken_length. Qed.

Section counters.
Context (n : nat) (s : hstate) (HI : HInv n s).

Lemma holders_spec k : k ∈ holders n (pcs s) <-> exists t, holds_slot (pcs s t) = Some k.
Proof.
  unfold holders. rewrite list_elem_of_omap. split; [intros (t & _ & Ht); eauto|].
  intros [t Ht]. exists t. split; [|done]. apply elem_of_seq. destruct (decide (t < n)%nat); [lia|].
  rewrite (hi_idle n s HI) in Ht by lia. done.
Qed.

Lemma holders_NoDup : NoDup (holders n (pcs s)).
Proof.
  unfold holders. pose proof (NoDup_seq 0 n) as Hn. induction (seq 0 n) as [|t l IH]; [constructor|].
  apply NoDup_cons in Hn as [Ht Hn]. cbn. destruct (holds_slot (pcs s t)) as [k|] eqn:Hk; [|by apply IH].
  constructor; [|by apply IH]. rewrite list_elem_of_omap. intros (u & Hu & Huk). apply Ht.
  by rewrite (si_excl _ _ (hi_slots n s HI) t u k Hk Huk).
Qed.

Lemma taken_spec k : k ∈ taken (hz s) horizonWords <-> exists t, holds_slot (pcs s t) = Some k.
Proof.
  pose proof (hi_slots n s HI) as HS. unfold taken. rewrite list_elem_of_filter, elem_of_seq.
  destruct (slot_split k) as [Ek Hb]. change (horizonWords * 64)%nat with horizonSlots. split.
  - intros [H Hr]. apply (si_own _ _ HS) in H as [t Ht]; [|by apply slot_word; lia|done]. exists t. by rewrite <- Ek.
  - intros [t Ht]. pose proof (si_range _ _ HS t k Ht). split; [|lia].
    apply (si_own _ _ HS); [by apply slot_word|done|]. exists t. by rewrite Ek.
Qed.

Lemma active_holders : Active (hz s) = length (holders n (pcs s)).
Proof.
  rewrite active_taken. apply Permutation_length, NoDup_Permutation.
  - apply NoDup_filter, NoDup_seq.
  - apply holders_NoDup.
  - intros k. by rewrite taken_spec, holders_spec.
Qed.

(** What [SlotState] answers for a slot that is held. *)
Lemma slot_state t k : holds_slot (pcs s t) = Some k ->
  SlotState (Some k) (hz s) = ((if slot_value (pcs s t) =? 0 then 0 else slot_value (pcs s t) - 1), true).
Proof.
  intros Hk. pose proof (hi_slots n s HI) as HS. pose proof (si_range _ _ HS t k Hk) as Hr.
  unfold SlotState. rewrite (proj2 (Nat.leb_gt _ _)) by done. rewrite (si_value _ _ HS t k Hk).
  assert (Hb : (Z.land (occ (hz s) (word_of k)) (mask_of k) =? 0) = false).
  { apply Z.eqb_neq. unfold mask_of. rewrite land_bit. destruct (slot_split k) as [E Hb].
    rewrite (proj2 (si_own _ _ HS (word_of k) (bit_of k) ltac:(by apply slot_word) Hb)); [done|]. exists t. by rewrite E. }
  rewrite Hb. cbn [negb]. by destruct (slot_value (pcs s t) =? 0).
Qed.
End counters.

(** ** The length of a scan *)

Definition scan_left (p : pc) : nat :=
  match p with
  | OFall => 1060
  | OUnreg _ => 1059
  | OWord _ w => (horizonWords - w) * 66 + 2
  | OBits _ w m => OnesCount64 m + (horizonWords - w) * 66 - 63
  | ORecheck _ => 1
  | _ => 0
  end%nat.

Definition scanning (p : pc) : Prop :=
  match p with OFall | OUnreg _ | OWord _ _ | OBits _ _ _ | ORecheck _ => True | _ => False end.

Lemma ones_le m : (OnesCount64 m <= 64)%nat.
Proof. unfold OnesCount64. etrans; [apply length_filter|]. by rewrite length_seq. Qed.

(** The positions of the set bits of a word, least first. *)
Definition ones (m : Z) : list nat := filter (fun b => Z.testbit m (Z.of_nat b) = true) (seq 0 64).

Lemma ones_lowest m : is_word m -> m <> 0 -> ones m = TrailingZeros64 m :: ones (Z.land m (m - 1)).
Proof.
  intros Hm Hne. destruct (ctz_spec m Hm Hne) as (Hc & Hb & Hlow). unfold ones.
  assert (Hcl := fun j => clear_lowest m j Hm Hne). set (c := TrailingZeros64 m) in *. set (m' := Z.land m (m - 1)) in *.
  assert (E : seq 0 64 = seq 0 c ++ c :: seq (S c) (63 - c)).
  { replace 64%nat with (c + S (63 - c))%nat by lia. by rewrite seq_app. }
  rewrite E, !filter_app. clear E.
  rewrite filter_cons_True, filter_cons_False by (done || by rewrite Hcl, Nat.eqb_refl, andb_false_r).
  rewrite (filter_none _ (seq 0 c)) by (apply Forall_forall; intros j Hj%elem_of_seq; rewrite Hlow by lia; done).
  rewrite (filter_none _ (seq 0 c)) by (apply Forall_forall; intros j Hj%elem_of_seq; rewrite Hcl, Hlow by lia; done).
  cbn [app]. f_equal. apply filter_same. intros j Hj%elem_of_seq.
  rewrite Hcl, (proj2 (Nat.eqb_neq j c)), andb_true_r by lia. done.
Qed.

Lemma ones_zero : ones 0 = [].
Proof. apply filter_none, Forall_forall. intros j _. by rewrite Z.testbit_0_l. Qed.

Lemma scan_step n s s' t : HInv n s -> scanning (pcs s t) -> hstep t s = Some s' ->
  (scan_left (pcs s' t) < scan_left (pcs s t))%nat /\ (scanning (pcs s' t) \/ exists W, pcs s' t = ODone W).
Proof.
  intros HI Hs He. pose proof (hi_scan n s HI t) as Hsc. unfold_steps in He.
  destruct (pcs s t) as [| | | | | | | | | | | | | |f|o w|o w m|o|wm] eqn:Hp; try done; injection He as <-;
    cbn [goto pcs]; rewrite fn_insert_eq; cbn [scan_left].
  - split; [lia|by left].
  - destruct (unreg (hz s) =? 0); cbn [scan_left]; [|split; [lia|eauto]]. split; [vm_compute; lia|by left].
  - pose proof (ones_le (occ (hz s) w)). destruct (Nat.ltb_spec w horizonWords); cbn [scan_left]; (split; [lia|by left]).
  - destruct Hsc as (_ & Hw & Hlt & _). destruct (Z.eqb_spec m 0) as [->|Hne]; [cbn [scan_left]; split; [lia|by left]|].
    change (OnesCount64 m) with (length (ones m)). rewrite (ones_lowest m Hw Hne). cbn [length].
    destruct (slots (hz s) _ =? 0); cbn [scan_left]; [split; [lia|eauto]|].
    change (OnesCount64 (Z.land m (m - 1))) with (length (ones (Z.land m (m - 1)))). split; [lia|by left].
  - destruct (unreg (hz s) =? 0); cbn [scan_left]; (split; [lia|eauto]).
Qed.

(** ** The result of a scan that runs alone *)

Definition takens (h : Horizon) (w count : nat) : list nat :=
  flat_map (fun w => (fun b => w * 64 + b)%nat <$> ones (occ h w)) (seq w count).

(** The watermark over the slots that remain, starting from the least instant seen. *)
Definition least (h : Horizon) (o : Z) (ks : list nat) : Z :=
  if existsb (fun k => slots h k =? 0) ks then 0
  else foldl (fun o k => Z.min o (slots h k - 1)) o ks.

Fixpoint solo (t fuel : nat) (s : hstate) : option hstate :=
  match fuel with
  | O => Some s
  | S fuel => match pcs s t with ODone _ => Some s | _ => s' ← hstep t s; solo t fuel s' end
  end.

(** What a scan at [p] will answer if nothing else moves. *)
Definition answer (h : Horizon) (now : Z) (p : pc) : Z :=
  let held o ks := if unreg h =? 0 then least h o ks else 0 in
  match p with
  | OFall => held now (takens h 0 horizonWords)
  | OUnreg f => held f (takens h 0 horizonWords)
  | OWord o w => held o (takens h w (horizonWords - w))
  | OBits o w m => held o (((fun b => w * 64 + b)%nat <$> ones m) ++ takens h (S w) (horizonWords - S w))
  | ORecheck o => held o []
  | ODone wm => wm
  | _ => 0
  end.

Lemma least_cons h o k ks : slots h k <> 0 -> least h (Z.min o (slots h k - 1)) ks = least h o (k :: ks).
Proof. intros Hne. apply Z.eqb_neq in Hne. unfold least. cbn [existsb foldl]. by rewrite Hne. Qed.

Lemma answer_step n s s' t : HInv n s -> scanning (pcs s t) -> hstep t s = Some s' ->
  answer (hz s') (clock s') (pcs s' t) = answer (hz s) (clock s) (pcs s t) /\ hz s' = hz s /\ clock s' = clock s /\
  forall u, u <> t -> pcs s' u = pcs s u.
Proof.
  intros HI Hs He. pose proof (hi_scan n s HI t) as Hsc. unfold_steps in He.
  destruct (pcs s t) as [| | | | | | | | | | | | | |f|o w|o w m|o|wm] eqn:Hp; try done; injection He as <-;
    cbn [goto pcs hz clock]; rewrite fn_insert_eq;
    (split; [|spl; try done; intros u Hu; rewrite fn_insert_dec, decide_False; congruence]).
  - done.
  - by destruct (unreg (hz s) =? 0) eqn:E; cbn [answer]; rewrite E, ?Nat.sub_0_r.
  - destruct (Nat.ltb_spec w horizonWords) as [Hw|Hw]; cbn [answer].
    + by replace (horizonWords - w)%nat with (S (horizonWords - S w)) by lia.
    + by replace (horizonWords - w)%nat with 0%nat by lia.
  - destruct Hsc as (_ & Hw & Hlt & _). destruct (Z.eqb_spec m 0) as [->|Hne].
    { cbn [answer]. by rewrite ones_zero. }
    destruct (Z.eqb_spec (slots (hz s) (w * 64 + TrailingZeros64 m)) 0) as [E|E]; cbn [answer];
      rewrite (ones_lowest m Hw Hne); cbn [fmap list_fmap app].
    + unfold least. cbn [existsb]. rewrite E. cbn. by destruct (unreg (hz s) =? 0).
    + rewrite <- least_cons by done. destruct (unreg (hz s) =? 0); [|done]. f_equal.
      destruct (Z.ltb_spec (slots (hz s) (w * 64 + TrailingZeros64 m) - 1) o); lia.
  - by destruct (unreg (hz s) =? 0) eqn:E; cbn [answer]; rewrite E.
Qed.

Lemma solo_answer n t : (t < n)%nat -> forall fuel s, HInv n s -> scanning (pcs s t) -> (scan_left (pcs s t) <= fuel)%nat ->
  exists s', solo t fuel s = Some s' /\ pcs s' t = ODone (answer (hz s) (clock s) (pcs s t)) /\ hz s' = hz s /\
  forall u, u <> t -> pcs s' u = pcs s u.
Proof.
  intros Ht. induction fuel as [|fuel IH]; intros s HI Hs Hf.
  { exfalso. pose proof (hi_scan n s HI t) as Hsc. destruct (pcs s t); cbn [scan_left scanning scan_ok] in *; try done; lia. }
  assert (exists s1, hstep t s = Some s1) as [s1 He] by (unfold_steps; destruct (pcs s t); cbn in Hs; eauto; done).
  assert (E : solo t (S fuel) s = solo t fuel s1) by (cbn [solo]; rewrite He; by destruct (pcs s t)).
  destruct (scan_step n s s1 t HI Hs He) as [Hlt Hnext]. destruct (answer_step n s s1 t HI Hs He) as (Ha & Hh & Hc & Hu).
  rewrite E. destruct Hnext as [Hnext|[W HW]].
  - destruct (IH s1) as (s' & H1 & H2 & H3 & H4); [by eapply inv_hstep|done|lia|]. exists s'.
    spl; [done|by rewrite <- Ha|congruence|]. intros u Hut. by rewrite H4, Hu.
  - exists s1. spl; [destruct fuel; cbn [solo]; by rewrite ?HW| |done|done]. by rewrite <- Ha, HW.
Qed.

(** ** The watermark of a state *)

(** A thread that holds every version back: it has no slot, or its slot has no
    instant yet or any more. *)
Definition blocking (p : pc) : bool :=
  (is_unreg p =? 1) || match holds_slot p with Some _ => slot_value p =? 0 | None => false end.

Definition instant (p : pc) : option Z :=
  match holds_slot p with Some _ => Some (slot_value p - 1) | None => None end.

(** The oldest instant the threads announce, capped by the clock. *)
Definition watermark (n : nat) (s : hstate) : Z :=
  if existsb (fun t => blocking (pcs s t)) (seq 0 n) then 0
  else foldr Z.min (clock s) (omap (fun t => instant (pcs s t)) (seq 0 n)).

(** [w] is the least of [o] and the elements of [l]. *)
Definition min_of (o : Z) (l : list Z) (w : Z) : Prop :=
  w <= o /\ (forall x, x ∈ l -> w <= x) /\ (w = o \/ w ∈ l).

Lemma min_of_unique o l l' w w' : min_of o l w -> min_of o l' w' -> (forall x, x ∈ l <-> x ∈ l') -> w = w'.
Proof.
  intros (A1 & A2 & A3) (B1 & B2 & B3) E.
  assert (w' <= w) by (destruct A3 as [->|A3]; [done|apply B2; by apply E]).
  assert (w <= w') by (destruct B3 as [->|B3]; [done|apply A2; by apply E]). lia.
Qed.

Lemma min_of_foldr o l : min_of o l (foldr Z.min o l).
Proof.
  induction l as [|x l (H1 & H2 & H3)]; cbn [foldr]; [split; [lia|split; [by intros x ?%elem_of_nil|by left]]|].
  split; [lia|]. split.
  - intros y [->|Hy]%elem_of_cons; [lia|]. specialize (H2 y Hy). lia.
  - destruct (Z.min_spec x (foldr Z.min o l)) as [[_ ->]|[_ ->]]; [right; left|].
    destruct H3 as [->|H3]; [by left|right; by right].
Qed.

Lemma min_of_foldl f (ks : list nat) : forall o, min_of o (f <$> ks) (foldl (fun o k => Z.min o (f k)) o ks).
Proof.
  induction ks as [|k ks IH]; intros o; cbn [foldl fmap list_fmap]; [split; [lia|split; [by intros x ?%elem_of_nil|by left]]|].
  destruct (IH (Z.min o (f k))) as (H1 & H2 & H3). split; [lia|]. split.
  - intros y [->|Hy]%elem_of_cons; [lia|]. by apply H2.
  - destruct H3 as [->|H3]; [|by right; right]. destruct (Z.min_spec o (f k)) as [[_ ->]|[_ ->]]; [by left|right; left].
Qed.

Section watermark.
Context (n : nat) (s : hstate) (HI : HInv n s).

Lemma takens_spec k : k ∈ takens (hz s) 0 horizonWords <-> exists t, holds_slot (pcs s t) = Some k.
Proof.
  pose proof (hi_slots n s HI) as HS. unfold takens. rewrite list_elem_of_In, in_flat_map. setoid_rewrite in_seq.
  setoid_rewrite <- list_elem_of_In. setoid_rewrite list_elem_of_fmap. unfold ones. setoid_rewrite list_elem_of_filter.
  setoid_rewrite elem_of_seq. split.
  - intros (w & Hw & b & -> & Hb & Hr). apply (si_own _ _ HS); [lia|lia|done].
  - intros [t Ht]. destruct (slot_split k) as [E Hb]. pose proof (slot_word k (si_range _ _ HS t k Ht)).
    exists (word_of k). split; [lia|]. exists (bit_of k). split; [done|]. split; [|lia].
    apply (si_own _ _ HS); [done|done|]. exists t. by rewrite E.
Qed.

Lemma thread_lt t : pcs s t <> Idle -> (t < n)%nat.
Proof. intros Ht. destruct (decide (t < n)%nat); [done|]. destruct Ht. apply (hi_idle n s HI). lia. Qed.

Lemma unreg_blocks : (unreg (hz s) =? 0) = negb (existsb (fun t => is_unreg (pcs s t) =? 1) (seq 0 n)).
Proof.
  assert (H01 : forall t, is_unreg (pcs s t) = 0 \/ is_unreg (pcs s t) = 1).
  { intros t. by destruct (pcs s t) as [| | | | | | [|]|[|]|? [|]| | | | | | | | | | ]; cbn; auto. }
  rewrite (hi_unreg n s HI). clear HI. induction n as [|m IH]; [done|]. cbn [zsum]. rewrite seq_S, existsb_app. cbn [existsb].
  rewrite orb_false_r, negb_orb, <- IH, Nat.add_0_l. assert (0 <= zsum (fun t => is_unreg (pcs s t)) m).
  { apply zsum_nonneg. intros i _. destruct (H01 i); lia. }
  destruct (H01 m) as [->| ->]; cbn; [by rewrite Z.add_0_r, andb_true_r|]. rewrite andb_false_r. apply Z.eqb_neq. lia.
Qed.

Lemma blocked : existsb (fun t => blocking (pcs s t)) (seq 0 n) =
  existsb (fun t => is_unreg (pcs s t) =? 1) (seq 0 n) ||
  existsb (fun k => slots (hz s) k =? 0) (takens (hz s) 0 horizonWords).
Proof.
  pose proof (hi_slots n s HI) as HS. apply eq_true_iff_eq. rewrite orb_true_iff, !existsb_exists. split.
  - intros (t & Ht & Hb). unfold blocking in Hb. apply orb_true_iff in Hb as [Hb|Hb]; [left; by exists t|right].
    destruct (holds_slot (pcs s t)) as [k|] eqn:Hk; [|done]. exists k. split; [apply list_elem_of_In, takens_spec; eauto|].
    by rewrite (si_value _ _ HS t k Hk).
  - intros [(t & Ht & Hb)|(k & Hk & Hz)]; [exists t; split; [done|]; unfold blocking; by rewrite Hb|].
    apply list_elem_of_In, takens_spec in Hk as [t Ht]. exists t. split.
    + apply in_seq. assert (t < n)%nat; [|lia]. apply thread_lt. intros E. by rewrite E in Ht.
    + unfold blocking. rewrite Ht. rewrite (si_value _ _ HS t k Ht) in Hz. by rewrite Hz, orb_true_r.
Qed.

Lemma watermark_answer : answer (hz s) (clock s) OFall = watermark n s.
Proof.
  pose proof (hi_slots n s HI) as HS. unfold answer, watermark, least. rewrite unreg_blocks, blocked.
  destruct (existsb _ (seq 0 n)); cbn [negb orb]; [done|]. destruct (existsb _ _); [done|].
  apply (min_of_unique (clock s) ((fun k => slots (hz s) k - 1) <$> takens (hz s) 0 horizonWords)
    (omap (fun t => instant (pcs s t)) (seq 0 n))); [apply min_of_foldl|apply min_of_foldr|].
  intros x. rewrite list_elem_of_fmap, list_elem_of_omap. unfold instant. split.
  - intros (k & -> & Hk). apply takens_spec in Hk as [t Ht]. exists t. rewrite Ht, (si_value _ _ HS t k Ht). split; [|done].
    apply elem_of_seq. assert (t < n)%nat; [|lia]. apply thread_lt. intros E. by rewrite E in Ht.
  - intros (t & _ & Hx). destruct (holds_slot (pcs s t)) as [k|] eqn:Hk; [|done]. injection Hx as <-.
    exists k. rewrite takens_spec, (si_value _ _ HS t k Hk). eauto.
Qed.
End watermark.
