(* ===== verification/HorizonProps.v ===== *)
(** * The reader horizon: properties

    A finished scan's watermark is at or below the instant of every reader that
    registered before it read the clock; slots are exclusive and the counters exact; a
    scan is bounded in its own steps whatever the other threads do, and alone it finds
    the oldest instant. *)

From Stdlib Require Import ZArith Lia.
From S2P Require Import Prelude Horizon HorizonInv HorizonStep.

Local Open Scope Z_scope.

(** A reader (thread 0) that claims a slot of a word the scan of thread 1 has passed
    already, and a third one that announces a timestamp it had. *)
Definition steps (t k : nat) : list label := repeat (Step t) k.
Definition run_example : list label :=
  Begin 2 (At 9) :: steps 2 4 ++ [Scan 1] ++ steps 1 9 ++ [Tick 2; Begin 0 Hold] ++ steps 0 6 ++ steps 1 28.
Definition probe_at (t : nat) (o : option hstate) : option pc := (fun s => pcs s t) <$> o.

(** C7: the watermark of a finished scan is at or below the clock and at or below the
    instant of every reader that registered before it read the clock, in the state
    where the scan ends and in every later one, whatever the interleaving. *)
Theorem horizon_safe n now ls s t W u slot ts : 0 <= now < 2 ^ 63 ->
  run n ls (init now) = Some s -> pcs s t = ODone W ->
  pcs s u = RPublish slot ts \/ pcs s u = RActive true slot ts ->
  0 <= W <= clock s /\ W <= ts.
Proof.
  intros Hn Hr Ht Hu. pose proof (inv_reached n now ls s Hn Hr) as HI.
  pose proof (hi_scan n s HI t) as Hs. rewrite Ht in Hs. destruct Hs as [HW Ha]. split; [done|].
  apply (Ha u slot ts). by destruct Hu as [-> | ->].
Qed.

Lemma horizon_safe_witness : exists s,
  run 3 run_example (init 5) = Some s /\ pcs s 1 = ODone 5 /\ 0 <= 5 <= clock s /\ 5 <= 7.
Proof.
  assert (H1 : probe_at 1 (run 3 run_example (init 5)) = Some (ODone 5)) by (vm_compute; reflexivity).
  assert (H0 : probe_at 0 (run 3 run_example (init 5)) = Some (RActive true (Some 128%nat) 7)) by (vm_compute; reflexivity).
  destruct (run 3 run_example (init 5)) as [s|] eqn:E; [|discriminate H1]. injection H1 as H1. injection H0 as H0.
  exists s. split; [reflexivity|]. split; [exact H1|].
  apply (horizon_safe 3 5 run_example s 1 5 0 (Some 128%nat) 7); [lia|exact E|exact H1|right; exact H0].
Defined.

(** no two threads hold the same slot; a reader's slot is occupied and announces
    the reader's own instant for as long as it is active; no release ever finds its bit
    clear; [Unregistered] counts the readers without a slot and [Active] the others. *)
Theorem horizon_slots n now ls s : 0 <= now < 2 ^ 63 -> run n ls (init now) = Some s ->
  StaleLeaves (hz s) = 0 /\
  Unregistered (hz s) = zsum (fun t => is_unreg (pcs s t)) n /\
  Active (hz s) = length (holders n (pcs s)) /\
  (forall t u k, holds_slot (pcs s t) = Some k -> holds_slot (pcs s u) = Some k -> t = u) /\
  forall t held slot ts, pcs s t = RActive held slot ts ->
    SlotState slot (hz s) = match slot with Some k => (ts, true) | None => (0, false) end.
Proof.
  intros Hn Hr. pose proof (inv_reached n now ls s Hn Hr) as HI.
  spl; [apply (hi_stale n s HI)|apply (hi_unreg n s HI)|by apply active_holders|apply (si_excl _ _ (hi_slots n s HI))|].
  intros t held [k|] ts Ht; [|done]. pose proof (hi_local n s HI t) as Hl. rewrite Ht in Hl. cbn [local_ok] in Hl.
  rewrite (slot_state n s HI t k) by (by rewrite Ht). rewrite Ht. cbn [slot_value].
  rewrite (proj2 (Z.eqb_neq _ _)) by lia. f_equal. lia.
Qed.

Lemma horizon_slots_witness : exists s,
  run 3 run_example (init 5) = Some s /\ StaleLeaves (hz s) = 0 /\ SlotState (Some 64%nat) (hz s) = (9, true).
Proof.
  assert (H2 : probe_at 2 (run 3 run_example (init 5)) = Some (RActive false (Some 64%nat) 9)) by (vm_compute; reflexivity).
  destruct (run 3 run_example (init 5)) as [s|] eqn:E; [|discriminate H2]. injection H2 as H2.
  destruct (horizon_slots 3 5 run_example s ltac:(lia) E) as (A & _ & _ & _ & B).
  exists s. split; [reflexivity|]. split; [exact A|exact (B 2%nat false (Some 64%nat) 9 H2)].
Defined.

(** ** The length of a scan among other threads *)

Definition is_step (t : nat) (l : label) : bool := match l with Step u => (u =? t)%nat | _ => false end.
Definition own_steps (t : nat) (ls : list label) : nat := length (filter (fun l => is_step t l = true) ls).

(** The thread a label moves. *)
Definition moves (l : label) : option nat :=
  match l with Begin t _ | End t | Scan t | Step t => Some t | Tick _ => None end.

Lemma moves_other l s s' t : mstep l s = Some s' -> moves l <> Some t -> pcs s' t = pcs s t.
Proof.
  intros Hs Hm. assert (G : forall u p h, u <> t -> pcs (goto u p h s) t = pcs s t).
  { intros u p h Hu. cbn [goto pcs]. by rewrite fn_insert_dec, decide_False. }
  destruct l as [u md|u|u|u|d]; cbn [mstep moves] in *; [..|by injection Hs as <-]; try unfold_steps in Hs;
    repeat case_match; try done; injection Hs as <-; apply G; congruence.
Qed.

Lemma scan_progress n t ls : forall s s', HInv n s -> run n ls s = Some s' -> ~ Scan t ∈ ls ->
  scanning (pcs s t) \/ (exists W, pcs s t = ODone W) ->
  (scan_left (pcs s' t) + own_steps t ls <= scan_left (pcs s t))%nat /\
  (scanning (pcs s' t) \/ exists W, pcs s' t = ODone W).
Proof.
  induction ls as [|l ls IH]; intros s s' HI Hr Hn Hs; cbn [run] in Hr; [injection Hr as <-; cbn; split; [lia|done]|].
  case_decide as Hl; [|done]. destruct (mstep l s) as [s1|] eqn:Hm; [|done]. cbn in Hr.
  assert (HI1 : HInv n s1) by by eapply inv_mstep.
  assert (Hnext : (scan_left (pcs s1 t) + (if is_step t l then 1 else 0) <= scan_left (pcs s t))%nat /\
    (scanning (pcs s1 t) \/ exists W, pcs s1 t = ODone W)).
  { destruct (decide (moves l = Some t)) as [E|E].
    - destruct l as [u md|u|u|u|d]; cbn [moves] in E; simplify_eq; cbn [mstep is_step] in *.
      + exfalso. destruct Hs as [Hs|[W Hs]]; destruct (pcs s t); done.
      + exfalso. destruct Hs as [Hs|[W Hs]]; destruct (pcs s t); done.
      + destruct Hn. left.
      + rewrite Nat.eqb_refl. destruct Hs as [Hs|[W Hs]]; [|unfold_steps in Hm; by rewrite Hs in Hm].
        destruct (scan_step n s s1 t HI Hs Hm). split; [lia|done].
    - rewrite (moves_other l s s1 t Hm E). split; [|done]. destruct l; cbn [is_step moves] in *; try lia.
      rewrite (proj2 (Nat.eqb_neq _ _)) by congruence. lia. }
  destruct Hnext as [H1 H2]. destruct (IH s1 s' HI1 Hr ltac:(intros ?; apply Hn; by right) H2) as [H3 H4].
  split; [|done]. unfold own_steps in *. rewrite filter_cons. destruct (is_step t l) eqn:E; cbn [decide]; case_decide; cbn [length]; try done; lia.
Qed.

(** a scan takes at most 1060 steps of its own whatever the other threads do in
    between, and is never blocked: until its watermark is there it can take its next
    step. *)
Theorem horizon_scan_bounded n now ls s t ls' s' : 0 <= now < 2 ^ 63 ->
  run n ls (init now) = Some s -> pcs s t = OFall -> ~ Scan t ∈ ls' -> run n ls' s = Some s' ->
  (own_steps t ls' <= 1060)%nat /\
  ((exists W, pcs s' t = ODone W) \/
   ((own_steps t ls' < 1060)%nat /\ exists s'', run n [Step t] s' = Some s'')).
Proof.
  intros Hn Hr Ht Hns Hr'. pose proof (inv_reached n now ls s Hn Hr) as HI.
  pose proof (inv_run n ls' s s' HI Hr') as HI'.
  assert (Htn : (t < n)%nat) by (apply (thread_lt n s HI); by rewrite Ht).
  destruct (scan_progress n t ls' s s' HI Hr' Hns) as [Hle Hd]; [left; by rewrite Ht|].
  rewrite Ht in Hle. cbn [scan_left] in Hle. split; [lia|]. destruct Hd as [Hd|Hd]; [right|by left].
  pose proof (hi_scan n s' HI' t) as Hsc. split.
  - destruct (pcs s' t); cbn [scan_left scanning scan_ok] in *; try done; lia.
  - cbn [run]. rewrite decide_True by done. cbn [mstep]. unfold_steps. destruct (pcs s' t); try done; cbn; eauto.
Qed.

Definition before_scan : list label := [Begin 2 (At 9)] ++ steps 2 4 ++ [Scan 1].

Lemma horizon_scan_bounded_witness : exists s s',
  run 3 before_scan (init 5) = Some s /\ run 3 (steps 1 37) s = Some s' /\ (own_steps 1 (steps 1 37) <= 1060)%nat.
Proof.
  assert (H1 : probe_at 1 (run 3 before_scan (init 5)) = Some OFall) by (vm_compute; reflexivity).
  assert (H2 : probe_at 1 (s ← run 3 before_scan (init 5); run 3 (steps 1 37) s) = Some (ODone 5)) by (vm_compute; reflexivity).
  destruct (run 3 before_scan (init 5)) as [s|] eqn:E; [|discriminate H1]. cbn [mbind option_bind] in H2. injection H1 as H1.
  destruct (run 3 (steps 1 37) s) as [s'|] eqn:E'; [|discriminate H2].
  exists s, s'. split; [reflexivity|]. split; [exact E'|].
  apply (horizon_scan_bounded 3 5 before_scan s 1 (steps 1 37) s'); [lia|exact E|exact H1| |exact E'].
  intros H. apply list_elem_of_In, repeat_spec in H. discriminate H.
Defined.

(** a scan that nothing interrupts changes nothing and answers zero when a reader
    has no slot or a slot has no instant, and otherwise the least of the clock and the
    instants of all the slots' holders. *)
Theorem horizon_scan_exact n now ls s t : 0 <= now < 2 ^ 63 ->
  run n ls (init now) = Some s -> pcs s t = OFall ->
  exists s', solo t 1060 s = Some s' /\ pcs s' t = ODone (watermark n s) /\ hz s' = hz s /\
  forall u, u <> t -> pcs s' u = pcs s u.
Proof.
  intros Hn Hr Ht. pose proof (inv_reached n now ls s Hn Hr) as HI.
  assert (Htn : (t < n)%nat) by (apply (thread_lt n s HI); by rewrite Ht).
  destruct (solo_answer n t Htn 1060 s HI) as (s' & H1 & H2 & H3); [by rewrite Ht|by rewrite Ht|].
  exists s'. split; [done|]. split; [|done]. rewrite H2, Ht. f_equal. by apply watermark_answer.
Qed.

Definition two_readers : list label :=
  [Begin 0 Hold] ++ steps 0 6 ++ [Tick 4; Begin 2 Hold] ++ steps 2 6 ++ [Tick 1; Scan 1].

Lemma horizon_scan_exact_witness : exists s s', run 3 two_readers (init 5) = Some s /\
  solo 1 1060 s = Some s' /\ pcs s' 1 = ODone 5.
Proof.
  assert (H1 : probe_at 1 (run 3 two_readers (init 5)) = Some OFall) by (vm_compute; reflexivity).
  assert (HW : watermark 3 <$> run 3 two_readers (init 5) = Some 5) by (vm_compute; reflexivity).
  destruct (run 3 two_readers (init 5)) as [s|] eqn:E; [|discriminate H1]. injection H1 as H1. injection HW as HW.
  destruct (horizon_scan_exact 3 5 two_readers s 1 ltac:(lia) E H1) as (s' & A & B & _).
  exists s, s'. split; [reflexivity|]. split; [exact A|]. rewrite HW in B. exact B.
Defined.
