(* ===== verification/StableSort.v ===== *)
(** * Stable sorting

    Strict weak orders given by a boolean test, what it means for a list to be the
    stable rearrangement of another, that there is only one, and the two steps every
    stable sort is made of: inserting after the equal elements, and merging with the
    left list first. *)

From Stdlib Require Import Sorted Permutation Lia.
From stdpp Require Import sorting.
From S2P Require Import Prelude.

(** The elements at two positions of a sorted list. *)
Lemma sorted_lookup {A} (R : A -> A -> Prop) l i j x y : StronglySorted R l -> (i < j)%nat -> l !! i = Some x -> l !! j = Some y -> R x y.
Proof.
  intros HS. revert i j. induction HS as [|z l HS IH Hz]; intros i j Hij Hi Hj; [done|].
  destruct j as [|j]; [lia|]. destruct i as [|i]; [|by apply (IH i j); [lia|..]].
  injection Hi as ->. rewrite Forall_forall in Hz. apply Hz. by eapply list_elem_of_lookup_2.
Qed.

(** What a comparison has to satisfy: a strict order whose incomparability is
    transitive. *)
Class StrictWeak {A} (lt : A -> A -> bool) : Prop := {
  sw_irrefl : forall a, lt a a = false;
  sw_trans : forall a b c, lt a b = true -> lt b c = true -> lt a c = true;
  sw_ge_trans : forall a b c, lt a b = false -> lt b c = false -> lt a c = false;
}.

Section sorting.
Context {A : Type} (lt : A -> A -> bool) `{SW : !StrictWeak lt}.
Implicit Types (x y z k : A) (l : list A).

(** [x] may stand before [y]. *)
Definition le x y : Prop := lt y x = false.
(** Neither is before the other. *)
Definition same x y : Prop := lt x y = false /\ lt y x = false.

#[export] Instance same_dec x y : Decision (same x y).
Proof. unfold same. apply _. Defined.

Definition ordered : list A -> Prop := StronglySorted le.

(** [l'] is [l] rearranged into order with equal elements as they were. *)
Definition stable_sort_of l l' : Prop :=
  ordered l' /\ forall k, filter (same k) l' = filter (same k) l.

Lemma lt_le x y : lt x y = true -> le x y.
Proof using SW.
  intros H. unfold le. destruct (lt y x) eqn:E; [|done].
  pose proof (sw_trans _ _ _ H E) as Hx. by rewrite sw_irrefl in Hx.
Qed.

Lemma le_trans x y z : le x y -> le y z -> le x z.
Proof using SW. unfold le. intros H1 H2. by eapply sw_ge_trans. Qed.

Lemma le_refl x : le x x.
Proof using SW. apply sw_irrefl. Qed.

Lemma same_class_refl x : same x x.
Proof using SW. split; apply sw_irrefl. Qed.

Lemma in_class k l l' : (forall j, filter (same j) l' = filter (same j) l) -> k ∈ l -> k ∈ l'.
Proof using SW.
  intros H Hk. assert (Hf : k ∈ filter (same k) l') by (rewrite H; apply list_elem_of_filter; split; [apply same_class_refl|done]).
  by apply list_elem_of_filter in Hf as [_ Hf].
Qed.

(** There is one stable rearrangement. *)
Lemma stable_unique l : forall l1 l2, stable_sort_of l l1 -> stable_sort_of l l2 -> l1 = l2.
Proof using SW.
  intros l1 l2 [S1 F1] [S2 F2]. assert (F : forall k, filter (same k) l1 = filter (same k) l2) by (intros; by rewrite F1, F2).
  clear F1 F2. revert l2 S2 F. induction S1 as [|x l1 S1 IH Hx]; intros l2 S2 F.
  - destruct l2 as [|y l2]; [done|]. specialize (F y). rewrite filter_nil, filter_cons_True in F by apply same_class_refl. done.
  - destruct l2 as [|y l2]; [specialize (F x); rewrite filter_nil, filter_cons_True in F by apply same_class_refl; done|].
    inversion S2 as [|? ? S2' Hy]; subst.
    assert (Hyx : le x y). { assert (y ∈ x :: l1) as [->|H]%elem_of_cons by (eapply (in_class y (y :: l2)); [done|left]); [apply le_refl|].
      rewrite Forall_forall in Hx. by apply Hx. }
    assert (Hxy : le y x). { assert (x ∈ y :: l2) as [->|H]%elem_of_cons by (eapply (in_class x (x :: l1)); [done|left]); [apply le_refl|].
      rewrite Forall_forall in Hy. by apply Hy. }
    assert (x = y) as <-. { specialize (F x). rewrite !filter_cons_True in F by (apply same_class_refl || by split). by injection F. }
    f_equal. apply IH; [done|]. intros k. specialize (F k). rewrite !filter_cons in F. case_decide; [by injection F|done].
Qed.

Lemma stable_ordered l : ordered l -> stable_sort_of l l.
Proof. by split. Qed.

Lemma stable_trans l1 l2 l3 : stable_sort_of l1 l2 -> stable_sort_of l2 l3 -> stable_sort_of l1 l3.
Proof. intros [_ H2] [H3 H4]. split; [done|]. intros k. by rewrite H4. Qed.

Lemma stable_app l1 l1' l2 l2' l : stable_sort_of l1 l1' -> stable_sort_of l2 l2' ->
  stable_sort_of (l1' ++ l2') l -> stable_sort_of (l1 ++ l2) l.
Proof. intros [_ H1] [_ H2] [H3 H4]. split; [done|]. intros k. by rewrite H4, !filter_app, H1, H2. Qed.

Lemma stable_length l l' : stable_sort_of l l' -> length l' = length l.
Proof using SW.
  intros [_ F]. revert l' F. induction l as [|x l IH]; intros l' F.
  - destruct l' as [|y l']; [done|]. specialize (F y). rewrite filter_nil, filter_cons_True in F by apply same_class_refl. done.
  - assert (Hx : x ∈ l') by (apply (in_class x (x :: l)); [done|left]).
    assert (exists a b, l' = a ++ x :: b /\ filter (same x) a = []) as (a & b & -> & Ha).
    { pose proof (F x) as Fx. rewrite filter_cons_True in Fx by apply same_class_refl. clear F Hx.
      induction l' as [|y l' IHl]; [done|]. rewrite filter_cons in Fx. case_decide as Hd.
      - injection Fx as -> _. by exists [], l'.
      - destruct (IHl Fx) as (a & b & -> & Ha). exists (y :: a), b. split; [done|]. by rewrite filter_cons_False. }
    rewrite length_app. cbn. rewrite Nat.add_succ_r, <- length_app. f_equal. apply IH. intros k. specialize (F k).
    rewrite filter_app, !filter_cons in F. rewrite filter_app. case_decide as Hk; [|done].
    assert (filter (same k) a = []) as Ek.
    { rewrite <- Ha. apply filter_same. intros z _. unfold same in *. destruct Hk as [K1 K2]. split; intros [Z1 Z2]; split; eauto using sw_ge_trans. }
    rewrite Ek in F |- *. by injection F.
Qed.

(** ** Inserting after the equal elements *)

Fixpoint ins x l : list A :=
  match l with [] => [x] | y :: l' => if lt x y then x :: l else y :: ins x l' end.

Lemma lt_le_trans x y z : lt x y = true -> le y z -> lt x z = true.
Proof using SW.
  intros H1 H2. destruct (lt x z) eqn:E; [done|]. pose proof (sw_ge_trans _ _ _ E H2) as H3. congruence.
Qed.

Lemma below_class k x l : Forall (fun y => lt x y = true) l -> same k x -> filter (same k) l = [].
Proof using SW.
  intros Hl [K1 K2]. apply filter_none. eapply Forall_impl; [exact Hl|]. intros y Hy [Y1 Y2].
  pose proof (sw_ge_trans _ _ _ K2 Y1). congruence.
Qed.

Lemma ins_elem x l y : y ∈ ins x l <-> y = x \/ y ∈ l.
Proof.
  induction l as [|z l IH]; cbn [ins]; [by rewrite list_elem_of_singleton, elem_of_nil; intuition|].
  destruct (lt x z); rewrite !elem_of_cons, ?IH, ?elem_of_cons; intuition.
Qed.

Lemma ins_stable x l : ordered l -> stable_sort_of (l ++ [x]) (ins x l).
Proof using SW.
  induction 1 as [|y l Hl IH Hy]; [apply stable_ordered; repeat constructor|]. cbn [ins app].
  destruct (lt x y) eqn:E.
  - assert (Hx : Forall (fun z => lt x z = true) (y :: l)).
    { constructor; [done|]. eapply Forall_impl; [exact Hy|]. intros z. by apply lt_le_trans. }
    split; [constructor; [by constructor|eapply Forall_impl; [exact Hx|]; intros z; apply lt_le]|].
    intros k. change (y :: l ++ [x]) with ((y :: l) ++ [x]). rewrite filter_app, (filter_cons _ x), (filter_cons _ x []).
    case_decide as Hk; [|by rewrite app_nil_r]. by rewrite (below_class k x (y :: l)) by auto.
  - destruct IH as [IH1 IH2]. split.
    + constructor; [done|]. rewrite Forall_forall in *. intros z [->|Hz]%ins_elem; [done|auto].
    + intros k. rewrite !filter_cons, IH2. done.
Qed.

(** ** Merging *)

Fixpoint merge l1 : list A -> list A :=
  match l1 with
  | [] => fun l2 => l2
  | x :: l1' => fix go l2 :=
      match l2 with
      | [] => l1
      | y :: l2' => if lt y x then y :: go l2' else x :: merge l1' l2
      end
  end.

Lemma merge_nil_r l : merge l [] = l.
Proof. by destruct l. Qed.

Lemma merge_cons x l1 y l2 :
  merge (x :: l1) (y :: l2) = if lt y x then y :: merge (x :: l1) l2 else x :: merge l1 (y :: l2).
Proof. reflexivity. Qed.

Lemma merge_elem l1 : forall l2 z, z ∈ merge l1 l2 <-> z ∈ l1 \/ z ∈ l2.
Proof.
  induction l1 as [|x l1 IH]; intros l2 z; [cbn; rewrite elem_of_nil; intuition|].
  induction l2 as [|y l2 IHl]; [rewrite merge_nil_r, elem_of_nil; intuition|].
  rewrite merge_cons. destruct (lt y x); rewrite elem_of_cons, ?IHl, ?IH, !elem_of_cons; intuition.
Qed.

Lemma merge_stable l1 : forall l2, ordered l1 -> ordered l2 -> stable_sort_of (l1 ++ l2) (merge l1 l2).
Proof using SW.
  induction l1 as [|x l1 IH]; intros l2 S1 S2; [by apply stable_ordered|].
  induction l2 as [|y l2 IHl]; [rewrite merge_nil_r, app_nil_r; by apply stable_ordered|].
  inversion S1 as [|? ? S1' Hx]; inversion S2 as [|? ? S2' Hy]; subst. rewrite merge_cons. destruct (lt y x) eqn:E.
  - destruct (IHl S2') as [M1 M2].
    assert (Hall : Forall (fun z => lt y z = true) (x :: l1)).
    { constructor; [done|]. eapply Forall_impl; [exact Hx|]. intros z. by apply lt_le_trans. }
    split.
    + constructor; [done|]. rewrite Forall_forall in *. intros z [Hz|Hz]%merge_elem; [by apply lt_le, Hall|by apply Hy].
    + intros k. rewrite filter_app, !(filter_cons _ y), M2, filter_app. case_decide as Hk; [|done].
      by rewrite (below_class k y (x :: l1)) by auto.
  - destruct (IH (y :: l2) S1' S2) as [M1 M2]. split.
    + constructor; [done|]. rewrite Forall_forall in *. intros z [Hz|[->|Hz]%elem_of_cons]%merge_elem; [by apply Hx|done|].
      eapply le_trans; [exact E|by apply Hy].
    + intros k. cbn [app]. rewrite !(filter_cons _ x), M2. done.
Qed.

(** The last element of the first list against the first of the second decides
    whether two ordered lists are one. *)
Lemma ordered_app l1 x y l2 : ordered (l1 ++ [x]) -> ordered (y :: l2) -> lt y x = false ->
  ordered ((l1 ++ [x]) ++ y :: l2).
Proof using SW.
  intros S1 S2 E. unfold ordered in *. apply StronglySorted_app_2; [|done|done].
  intros a b Ha Hb. apply StronglySorted_app in S1 as (S3 & S1 & _). inversion S2 as [|? ? _ Hy]; subst. rewrite Forall_forall in Hy.
  assert (le a x) by (apply elem_of_app in Ha as [Ha|Ha%list_elem_of_singleton]; subst; [apply S3; [done|left]|apply le_refl]).
  assert (le y b) by (apply elem_of_cons in Hb as [->|Hb]; [apply le_refl|by apply Hy]).
  eapply le_trans; [done|]. by eapply le_trans.
Qed.
End sorting.
