(* ===== verification/Csr.v ===== *)
(** * Compressed sparse rows (src/graph/csr)

    The read-only adjacency every traversal runs on: offsets, a flat array of
    destinations and its parallel weight and handle columns; the stable ordering of
    each source's run (order.go), the builds from an adjacency and the reverse and
    symmetric views (csr.go, symmetric_build.go), and the checks.  [None] is a
    run-time panic.  A column the code leaves nil is [None] in its record. *)

From Stdlib Require Import ZArith Lia.
From stdpp Require Import list_numbers.
From S2P Require Import Prelude.

Local Open Scope Z_scope.

(** ** Arrays *)

Definition aget {A} (l : list A) (i : Z) : option A := if decide (0 <= i) then l !! Z.to_nat i else None.
Definition aset {A} (l : list A) (i : Z) (x : A) : option (list A) :=
  if decide (0 <= i < Z.of_nat (length l)) then Some (<[Z.to_nat i := x]> l) else None.

(** [l[lo:hi]] *)
Definition slice {A} (lo hi : Z) (l : list A) : list A := take (Z.to_nat (hi - lo)) (drop (Z.to_nat lo) l).
Definition aslice {A} (lo hi : Z) (l : list A) : option (list A) :=
  if decide (0 <= lo <= hi /\ hi <= Z.of_nat (length l)) then Some (slice lo hi l) else None.

(** A loop whose body may panic. *)
Fixpoint loop {A S} (f : S -> A -> option S) (s : S) (l : list A) : option S :=
  match l with [] => Some s | x :: l => s' ← f s x; loop f s' l end.

Section csr.
Context {W : Type}.

(** ** Columns *)

(** The parallel columns of a run: destinations, weights, handles. *)
Record cols := mkCols { cE : list Z; cW : option (list W); cH : option (list Z) }.

(** One slot of them. *)
Abbreviation slot := (Z * option W * option Z)%type.
Definition dst (x : slot) : Z := fst (fst x).
Definition wt (x : slot) : option W := snd (fst x).
Definition hd (x : slot) : option Z := snd x.

Definition column {A} (col : option (list A)) (i : Z) : option (option A) :=
  match col with None => Some None | Some l => Some <$> aget l i end.
Definition set_column {A} (col : option (list A)) (i : Z) (x : option A) : option (option (list A)) :=
  match col, x with
  | None, _ => Some None
  | Some l, Some x => Some <$> aset l i x
  | Some l, None => None
  end.

Definition get_slot (c : cols) (i : Z) : option slot :=
  d ← aget (cE c) i; w ← column (cW c) i; h ← column (cH c) i; Some (d, w, h).
Definition set_slot (c : cols) (i : Z) (x : slot) : option cols :=
  e ← aset (cE c) i (dst x); w ← set_column (cW c) i (wt x); h ← set_column (cH c) i (hd x);
  Some (mkCols e w h).

(** [subSlice] and [subSliceU64]: an absent column stays absent. *)
Definition subSlice {A} (col : option (list A)) (lo hi : Z) : option (option (list A)) :=
  match col with None => Some None | Some l => Some <$> aslice lo hi l end.

Definition sub_cols (lo hi : Z) (c : cols) : option cols :=
  e ← aslice lo hi (cE c); w ← subSlice (cW c) lo hi; h ← subSlice (cH c) lo hi; Some (mkCols e w h).

(** What the whole arrays are after a sub-slice of them was rewritten in place. *)
Definition put {A} (lo : Z) (part l : list A) : list A :=
  take (Z.to_nat lo) l ++ part ++ drop (Z.to_nat lo + length part) l.
Definition put_column {A} (lo : Z) (part col : option (list A)) : option (list A) :=
  match part, col with Some p, Some l => Some (put lo p l) | _, _ => col end.
Definition put_cols (lo : Z) (part c : cols) : cols :=
  mkCols (put lo (cE part) (cE c)) (put_column lo (cW part) (cW c)) (put_column lo (cH part) (cH c)).

(** ** Order of a run (order.go) *)

Definition handleAt (handles : option (list Z)) (i : Z) : option Z :=
  match handles with None => Some 0 | Some h => aget h i end.

Definition lessKey (d1 h1 d2 h2 : Z) : bool := if d1 =? d2 then h1 <? h2 else d1 <? d2.

Definition lessKeyAt (c : cols) (i j : Z) : option bool :=
  di ← aget (cE c) i; dj ← aget (cE c) j;
  if negb (di =? dj) then Some (di <? dj)
  else match cH c with
       | None => Some false
       | Some h => hi ← aget h i; hj ← aget h j; Some (hi <? hj)
       end.

Definition runOrderInsertionCutoff : Z := 32.

(** The inner loop of [insertionSortEdges]; [n] is [j + 1]. *)
Fixpoint shiftEdges (n : nat) (d : Z) (e : list Z) : option (list Z) :=
  match n with
  | O => aset e 0 d
  | S j =>
      y ← aget e (Z.of_nat j);
      if d <? y then e' ← aset e (Z.of_nat (S j)) y; shiftEdges j d e'
      else aset e (Z.of_nat (S j)) d
  end.

Definition insertionSortEdges (e : list Z) : option (list Z) :=
  if (length e =? 2)%nat then
    e0 ← aget e 0; e1 ← aget e 1;
    if e1 <? e0 then e' ← aset e 0 e1; aset e' 1 e0 else Some e
  else
    loop (fun e i => d ← aget e i; shiftEdges (Z.to_nat i) d e) e (seqZ 1 (Z.of_nat (length e) - 1)).

Fixpoint shiftEdgesHandles (n : nat) (d hv : Z) (e h : list Z) : option (list Z * list Z) :=
  match n with
  | O => e' ← aset e 0 d; h' ← aset h 0 hv; Some (e', h')
  | S j =>
      ej ← aget e (Z.of_nat j);
      hj ← aget h (Z.of_nat j);
      if (d <? ej) || ((d =? ej) && (hv <? hj)) then
        e' ← aset e (Z.of_nat (S j)) ej; h' ← aset h (Z.of_nat (S j)) hj; shiftEdgesHandles j d hv e' h'
      else e' ← aset e (Z.of_nat (S j)) d; h' ← aset h (Z.of_nat (S j)) hv; Some (e', h')
  end.

Definition insertionSortEdgesHandles (e h : list Z) : option (list Z * list Z) :=
  if (length e =? 2)%nat then
    e0 ← aget e 0; e1 ← aget e 1; h0 ← aget h 0; h1 ← aget h 1;
    if (e1 <? e0) || ((e1 =? e0) && (h1 <? h0)) then
      e' ← aset e 0 e1; e'' ← aset e' 1 e0; h' ← aset h 0 h1; h'' ← aset h' 1 h0; Some (e'', h'')
    else Some (e, h)
  else
    loop (fun s i => d ← aget (fst s) i; hv ← aget (snd s) i; shiftEdgesHandles (Z.to_nat i) d hv (fst s) (snd s))
      (e, h) (seqZ 1 (Z.of_nat (length e) - 1)).

(** The inner loop of [insertionSortRun]. *)
Fixpoint shiftRun (n : nat) (x : slot) (c : cols) : option cols :=
  match n with
  | O => set_slot c 0 x
  | S j =>
      y ← get_slot c (Z.of_nat j);
      hj ← handleAt (cH c) (Z.of_nat j);
      if lessKey (dst x) (default 0 (hd x)) (dst y) hj
      then c' ← set_slot c (Z.of_nat (S j)) y; shiftRun j x c'
      else set_slot c (Z.of_nat (S j)) x
  end.

Definition insertionSortRun (c : cols) : option cols :=
  loop (fun c i => x ← get_slot c i; shiftRun (Z.to_nat i) x c) c (seqZ 1 (Z.of_nat (length (cE c)) - 1)).

(** [mergeRun] reads the copy [s] it made in the scratch buffers and writes the run;
    a buffer shorter than the run panics. *)
Fixpoint merge_loop (fuel : nat) (s : cols) (mid n i j k : Z) (c : cols) : option cols :=
  match fuel with
  | O => None
  | S fuel =>
      if (i <? mid) && (j <? n) then
        b ← lessKeyAt s j i;
        if (b : bool) then x ← get_slot s j; c' ← set_slot c k x; merge_loop fuel s mid n i (j + 1) (k + 1) c'
        else x ← get_slot s i; c' ← set_slot c k x; merge_loop fuel s mid n (i + 1) j (k + 1) c'
      else if i <? mid then
        x ← get_slot s i; c' ← set_slot c k x; merge_loop fuel s mid n (i + 1) j (k + 1) c'
      else if j <? n then
        x ← get_slot s j; c' ← set_slot c k x; merge_loop fuel s mid n i (j + 1) (k + 1) c'
      else Some c
  end.

Definition mergeRun (scratch : Z) (mid : Z) (c : cols) : option cols :=
  let n := Z.of_nat (length (cE c)) in
  if n <=? scratch then merge_loop (S (length (cE c))) c mid n 0 mid 0 c else None.

Fixpoint mergeSortRun (fuel : nat) (scratch : Z) (c : cols) : option cols :=
  match fuel with
  | O => None
  | S fuel =>
      let n := Z.of_nat (length (cE c)) in
      if n <=? runOrderInsertionCutoff then insertionSortRun c
      else
        let mid := n / 2 in
        l ← sub_cols 0 mid c;
        l' ← mergeSortRun fuel scratch l;
        let c1 := put_cols 0 l' c in
        r ← sub_cols mid n c1;
        r' ← mergeSortRun fuel scratch r;
        let c2 := put_cols mid r' c1 in
        b ← lessKeyAt c2 mid (mid - 1);
        if (b : bool) then mergeRun scratch mid c2 else Some c2
  end.

(** [runOrdered] *)
Fixpoint run_ordered_loop (c : cols) (ks : list Z) : option bool :=
  match ks with
  | [] => Some true
  | i :: ks => b ← lessKeyAt c i (i - 1); if (b : bool) then Some false else run_ordered_loop c ks
  end.
Definition runOrdered (c : cols) : option bool := run_ordered_loop c (seqZ 1 (Z.of_nat (length (cE c)) - 1)).

(** The length of run [i] as [OrderRuns] computes it. *)
Definition run_len (verts : list Z) (i : Z) : option Z :=
  lo ← aget verts i; hi ← aget verts (i + 1); Some (u64 (hi - lo)).
Definition longest_run (verts : list Z) : option Z :=
  loop (fun m i => n ← run_len verts i; Some (if m <? n then n else m)) 0 (seqZ 0 (Z.of_nat (length verts) - 1)).

(** The body of the loop of [OrderRuns] on one run. *)
Definition order_run (scratch : Z) (c : cols) : option cols :=
  if Z.of_nat (length (cE c)) <=? runOrderInsertionCutoff then
    match cW c, cH c with
    | None, None => e ← insertionSortEdges (cE c); Some (mkCols e None None)
    | None, Some h => eh ← insertionSortEdgesHandles (cE c) h; Some (mkCols (fst eh) None (Some (snd eh)))
    | _, _ => insertionSortRun c
    end
  else
    b ← runOrdered c;
    if (b : bool) then Some c else mergeSortRun (length (cE c)) scratch c.

Definition order_at (scratch : Z) (verts : list Z) (c : cols) (i : Z) : option cols :=
  lo ← aget verts i; hi ← aget verts (i + 1);
  if u64 (hi - lo) <? 2 then Some c
  else part ← sub_cols lo hi c; part' ← order_run scratch part; Some (put_cols lo part' c).

Definition OrderRuns (verts : list Z) (c : cols) : option cols :=
  if (length verts <? 2)%nat then Some c
  else
    longest ← longest_run verts;
    if longest <? 2 then Some c
    else
      let scratch := if runOrderInsertionCutoff <? longest then longest else 0 in
      loop (order_at scratch verts) c (seqZ 0 (Z.of_nat (length verts) - 1)).
End csr.
Arguments cols : clear implicits.
