(* ===== verification/CsrRows.v ===== *)
(** * Compressed sparse rows: columns as rows

    The parallel columns of Csr.v stand for a list of slots; every access to the
    columns is the same access to the list. *)

From Stdlib Require Import ZArith Lia Sorted.
From stdpp Require Import list_numbers sorting.
From S2P Require Import Prelude StableSort Csr.

Local Open Scope Z_scope.

(** ** Arrays *)

Lemma aget_Some {A} (l : list A) i x : aget l i = Some x <-> 0 <= i /\ l !! Z.to_nat i = Some x.
Proof. unfold aget. case_decide; [tauto|]. split; [done|intros [? ?]; lia]. Qed.

Lemma aget_nat {A} (l : list A) (n : nat) : aget l (Z.of_nat n) = l !! n.
Proof. unfold aget. rewrite decide_True by lia. by rewrite Nat2Z.id. Qed.

Lemma aget_is_Some {A} (l : list A) i : 0 <= i < Z.of_nat (length l) -> exists x, aget l i = Some x.
Proof.
  intros H. unfold aget. rewrite decide_True by lia.
  destruct (lookup_lt_is_Some_2 l (Z.to_nat i)) as [x Hx]; [lia|]. by exists x.
Qed.

Lemma aget_range {A} (l : list A) i x : aget l i = Some x -> 0 <= i < Z.of_nat (length l).
Proof. rewrite aget_Some. intros [H1 H2%lookup_lt_Some]. lia. Qed.

Lemma aget_fmap {A B} (f : A -> B) l i : aget (f <$> l) i = f <$> aget l i.
Proof. unfold aget. case_decide; [apply list_lookup_fmap|done]. Qed.

Lemma aset_Some {A} (l : list A) i x : 0 <= i < Z.of_nat (length l) -> aset l i x = Some (<[Z.to_nat i := x]> l).
Proof. intros H. unfold aset. by rewrite decide_True. Qed.

Lemma aset_nat {A} (l : list A) (n : nat) x : (n < length l)%nat -> aset l (Z.of_nat n) x = Some (<[n := x]> l).
Proof. intros H. rewrite aset_Some by lia. by rewrite Nat2Z.id. Qed.

Lemma slice_fmap {A B} (f : A -> B) lo hi l : slice lo hi (f <$> l) = f <$> slice lo hi l.
Proof. unfold slice. by rewrite <- fmap_drop, <- fmap_take. Qed.

Lemma put_fmap {A B} (f : A -> B) lo p l : put lo (f <$> p) (f <$> l) = f <$> put lo p l.
Proof. unfold put. by rewrite !fmap_app, fmap_take, fmap_drop, length_fmap. Qed.

Lemma slice_length {A} lo hi (l : list A) : 0 <= lo <= hi -> hi <= Z.of_nat (length l) ->
  Z.of_nat (length (slice lo hi l)) = hi - lo.
Proof. intros H1 H2. unfold slice. rewrite length_take, length_drop. lia. Qed.

Lemma slice_all {A} (l : list A) : slice 0 (Z.of_nat (length l)) l = l.
Proof. unfold slice. change (Z.to_nat 0) with 0%nat. rewrite drop_0, take_ge; [done|lia]. Qed.

Lemma put_length {A} lo (p l : list A) : 0 <= lo -> lo + Z.of_nat (length p) <= Z.of_nat (length l) ->
  length (put lo p l) = length l.
Proof. intros H1 H2. unfold put. rewrite !length_app, length_take, length_drop. lia. Qed.

Lemma aslice_Some {A} lo hi (l : list A) : 0 <= lo <= hi -> hi <= Z.of_nat (length l) -> aslice lo hi l = Some (slice lo hi l).
Proof. intros H1 H2. unfold aslice. by rewrite decide_True by lia. Qed.

Lemma loop_app {A S} (f : S -> A -> option S) l1 l2 s : loop f s (l1 ++ l2) = (s' ← loop f s l1; loop f s' l2).
Proof. revert s. induction l1 as [|x l1 IH]; intros s; cbn; [done|]. by destruct (f s x); cbn. Qed.

(** A loop over consecutive indices that keeps [P i] before index [i]. *)
Lemma loop_seqZ {S} (f : S -> Z -> option S) (P : Z -> S -> Prop) lo n s : 0 <= n -> P lo s ->
  (forall i s, lo <= i < lo + n -> P i s -> exists s', f s i = Some s' /\ P (i + 1) s') ->
  exists s', loop f s (seqZ lo n) = Some s' /\ P (lo + n) s'.
Proof.
  intros Hn. revert s. pattern n. apply natlike_ind; [| |done].
  - intros s HP _. exists s. cbn. by rewrite Z.add_0_r.
  - intros m Hm IH s HP Hf. unfold Z.succ. rewrite seqZ_app, loop_app by lia.
    destruct (IH s HP) as (s1 & E1 & P1); [intros; apply Hf; [lia|done]|]. rewrite E1. cbn [mbind option_bind].
    destruct (Hf (lo + m) s1 ltac:(lia) P1) as (s2 & E2 & P2). exists s2. rewrite seqZ_cons, seqZ_nil by lia. cbn [loop]. rewrite E2. cbn.
    split; [done|]. by rewrite Z.add_assoc.
Qed.

Section rows.
Context {W : Type}.
Implicit Types (c : cols W).

Abbreviation slot := (Z * option W * option Z)%type.
Implicit Types (x : slot).

(** ** The relation *)

Definition present {A} (o : option A) : bool := match o with Some _ => true | None => false end.
Definition shape c : bool * bool := (present (cW c), present (cH c)).

Definition column_is {A} (col : option (list A)) (l : list (option A)) : Prop :=
  match col with None => Forall (fun o => o = None) l | Some w => l = Some <$> w end.

(** [c] holds the slots [l], with the columns [s] says. *)
Record rows (s : bool * bool) (l : list slot) c : Prop := mkRows {
  r_shape : shape c = s;
  r_edges : cE c = dst <$> l;
  r_weights : column_is (cW c) (wt <$> l);
  r_handles : column_is (cH c) (hd <$> l);
}.

Definition fits (s : bool * bool) x : Prop := (present (wt x), present (hd x)) = s.

Lemma column_get {A} (col : option (list A)) (l : list (option A)) i : column_is col l -> 0 <= i < Z.of_nat (length l) ->
  column col i = aget l i.
Proof.
  destruct col as [w|]; cbn; [intros ->; by rewrite aget_fmap|]. intros Hl Hi.
  destruct (aget_is_Some l i Hi) as [x Hx]. rewrite Hx. apply aget_Some in Hx as [_ Hx]. rewrite Forall_lookup in Hl. by rewrite (Hl _ _ Hx).
Qed.

Lemma column_set {A} (col : option (list A)) l i (x : option A) : column_is col l -> 0 <= i < Z.of_nat (length l) ->
  present x = present col -> exists col', set_column col i x = Some col' /\ column_is col' (<[Z.to_nat i := x]> l) /\
  present col' = present col.
Proof.
  destruct col as [w|], x as [x|]; cbn; try done.
  - intros -> Hi _. rewrite length_fmap in Hi. exists (Some (<[Z.to_nat i := x]> w)). rewrite aset_Some by done. split; [done|].
    split; [|done]. cbn. by rewrite list_fmap_insert.
  - intros Hl Hi _. exists None. split; [done|]. split; [|done]. cbn. by apply Forall_insert.
Qed.

Lemma rows_length s l c : rows s l c -> length (cE c) = length l.
Proof. intros H. by rewrite (r_edges _ _ _ H), length_fmap. Qed.

Lemma rows_fits s l c : rows s l c -> Forall (fits s) l.
Proof.
  intros [<- _ Hw Hh]. apply Forall_lookup. intros i x Hx. unfold fits, shape. f_equal.
  - destruct (cW c) as [w|]; cbn in *.
    + assert (H : (wt <$> l) !! i = Some (wt x)) by by rewrite list_lookup_fmap, Hx.
      rewrite Hw, list_lookup_fmap in H. destruct (w !! i); [|done]. injection H as <-. done.
    + rewrite Forall_fmap, Forall_lookup in Hw. by rewrite (Hw _ _ Hx : wt x = None).
  - destruct (cH c) as [w|]; cbn in *.
    + assert (H : (hd <$> l) !! i = Some (hd x)) by by rewrite list_lookup_fmap, Hx.
      rewrite Hh, list_lookup_fmap in H. destruct (w !! i); [|done]. injection H as <-. done.
    + rewrite Forall_fmap, Forall_lookup in Hh. by rewrite (Hh _ _ Hx : hd x = None).
Qed.

Lemma get_rows s l c i : rows s l c -> get_slot c i = aget l i.
Proof.
  intros [_ He Hw Hh]. unfold get_slot. rewrite He, aget_fmap. destruct (aget l i) as [x|] eqn:Hx; cbn; [|done].
  apply aget_range in Hx as Hi. rewrite (column_get _ _ i Hw), (column_get _ _ i Hh) by (by rewrite length_fmap).
  rewrite !aget_fmap, Hx. cbn. by destruct x as [[? ?] ?].
Qed.

Lemma set_rows s l c i x : rows s l c -> fits s x -> 0 <= i < Z.of_nat (length l) ->
  exists c', set_slot c i x = Some c' /\ rows s (<[Z.to_nat i := x]> l) c'.
Proof.
  intros [<- He Hw Hh] Hx Hi. unfold fits, shape in Hx. injection Hx as Hxw Hxh. unfold set_slot.
  rewrite aset_Some by (by rewrite He, length_fmap). cbn.
  destruct (column_set _ _ i (wt x) Hw) as (w' & -> & Hw' & Ew); [by rewrite length_fmap|done|].
  destruct (column_set _ _ i (hd x) Hh) as (h' & -> & Hh' & Eh); [by rewrite length_fmap|done|]. cbn.
  eexists. split; [done|]. split; unfold shape; cbn; [by rewrite Ew, Eh|by rewrite He, list_fmap_insert| |]; by rewrite list_fmap_insert.
Qed.

Lemma column_slice {A} (col : option (list A)) l lo hi : column_is col l -> 0 <= lo <= hi -> hi <= Z.of_nat (length l) ->
  exists col', subSlice col lo hi = Some col' /\ column_is col' (slice lo hi l) /\ present col' = present col.
Proof.
  destruct col as [w|]; cbn; intros Hl H1 H2.
  - subst. rewrite length_fmap in H2. rewrite aslice_Some by done. eexists. split; [done|]. split; [|done]. cbn. by rewrite slice_fmap.
  - exists None. split; [done|]. split; [|done]. cbn. unfold slice. by apply Forall_take, Forall_drop.
Qed.

Lemma sub_rows s l c lo hi : rows s l c -> 0 <= lo <= hi -> hi <= Z.of_nat (length l) ->
  exists p, sub_cols lo hi c = Some p /\ rows s (slice lo hi l) p.
Proof.
  intros [<- He Hw Hh] H1 H2. unfold sub_cols. rewrite He, aslice_Some by (rewrite ?length_fmap; done). cbn.
  destruct (column_slice _ _ lo hi Hw) as (w' & -> & Hw' & Ew); [done|by rewrite length_fmap|].
  destruct (column_slice _ _ lo hi Hh) as (h' & -> & Hh' & Eh); [done|by rewrite length_fmap|]. cbn.
  eexists. split; [done|]. split; unfold shape; cbn; [by rewrite Ew, Eh|by rewrite slice_fmap| |]; by rewrite <- slice_fmap.
Qed.

Lemma column_put {A} (p col : option (list A)) lp l lo : column_is col l -> column_is p lp -> present p = present col ->
  column_is (put_column lo p col) (put lo lp l) /\ present (put_column lo p col) = present col.
Proof.
  destruct p as [p|], col as [w|]; cbn; try done.
  - intros -> -> _. by rewrite put_fmap.
  - intros Hl Hp _. split; [|done]. unfold put. apply Forall_app; split; [by apply Forall_take|].
    apply Forall_app; split; [done|by apply Forall_drop].
Qed.

Lemma put_rows s l c p lp lo : rows s l c -> rows s lp p -> rows s (put lo lp l) (put_cols lo p c).
Proof.
  intros [<- He Hw Hh] [Hs Pe Pw Ph]. unfold shape in Hs. injection Hs as Sw Sh. unfold put_cols.
  destruct (column_put _ _ _ _ lo Hw Pw Sw) as [Hw' Ew]. destruct (column_put _ _ _ _ lo Hh Ph Sh) as [Hh' Eh].
  split; unfold shape; cbn; [by rewrite Ew, Eh|by rewrite He, Pe, put_fmap| |]; by rewrite <- put_fmap.
Qed.

(** ** The order of slots *)

Definition handle_key x : Z := default 0 (hd x).
Definition slot_lt x y : bool := lessKey (dst x) (handle_key x) (dst y) (handle_key y).

Lemma handleAt_rows s l c i x : rows s l c -> aget l i = Some x -> handleAt (cH c) i = Some (handle_key x).
Proof.
  intros H Hx. pose proof (r_handles _ _ _ H) as Hh. apply aget_range in Hx as Hi.
  pose proof (column_get _ _ i Hh) as Hc. rewrite length_fmap, aget_fmap, Hx in Hc. specialize (Hc Hi). unfold handleAt, handle_key.
  destruct (cH c) as [h|]; cbn in Hc |- *.
  - destruct (aget h i); cbn in Hc; [|done]. injection Hc as Hc. by rewrite <- Hc.
  - injection Hc as Hc. by rewrite <- Hc.
Qed.

Lemma lessKeyAt_rows s l c i j x y : rows s l c -> aget l i = Some x -> aget l j = Some y ->
  lessKeyAt c i j = Some (slot_lt x y).
Proof.
  intros H Hx Hy. pose proof (handleAt_rows s l c i x H Hx) as Ix. pose proof (handleAt_rows s l c j y H Hy) as Iy.
  unfold lessKeyAt, slot_lt, lessKey. rewrite (r_edges _ _ _ H), !aget_fmap, Hx, Hy. cbn.
  destruct (dst x =? dst y); cbn; [|done]. unfold handleAt in Ix, Iy. destruct (cH c) as [h|].
  - by rewrite Ix, Iy.
  - injection Ix as <-. injection Iy as <-. done.
Qed.
End rows.

(** * Compressed sparse rows: the order of the runs

    The insertion sorts and the merge sort of src/graph/csr/order.go are stable sorts
    of the slots by destination and handle, whichever columns are there, and
    [OrderRuns] sorts every run of a well-formed offsets array without panicking. *)

Local Open Scope Z_scope.

(** ** Lists *)

Section ins.
Context {A : Type} (lt : A -> A -> bool).

Lemma ins_snoc_lt x (p : list A) z : lt x z = true -> ins lt x (p ++ [z]) = ins lt x p ++ [z].
Proof. intros H. induction p as [|y p IH]; cbn; [by rewrite H|]. destruct (lt x y); [done|]. by rewrite IH. Qed.

Lemma ins_end x (p : list A) : Forall (fun y => lt x y = false) p -> ins lt x p = p ++ [x].
Proof. induction 1 as [|y p Hy _ IH]; cbn; [done|]. by rewrite Hy, IH. Qed.
End ins.

Section order.
Context {W : Type}.
Implicit Types (c : cols W).
Abbreviation slot := (Z * option W * option Z)%type.
Implicit Types (x y z : slot) (p q : list slot).

#[export] Instance slot_lt_weak : StrictWeak (@slot_lt W).
Proof.
  split; unfold slot_lt, lessKey; intros; repeat match goal with
    | H : context [?a =? ?b] |- _ => destruct (Z.eqb_spec a b)
    | |- context [?a =? ?b] => destruct (Z.eqb_spec a b)
    end; bool_to_prop; try lia; rewrite ?Z.ltb_lt, ?Z.ltb_ge; try lia.
Qed.

(** ** The insertion sorts *)

Lemma shiftRun_rows s x : fits s x -> forall p y q c, rows s (p ++ y :: q) c -> ordered slot_lt p ->
  exists c', shiftRun (length p) x c = Some c' /\ rows s (ins slot_lt x p ++ q) c'.
Proof.
  intros Hx p. induction p as [|z p IH] using rev_ind; intros y q c Hc Hp.
  { destruct (set_rows s _ c 0 x Hc Hx) as (c' & E & Hr); [cbn; lia|]. exists c'. by split. }
  rewrite length_app, Nat.add_comm. cbn [length Nat.add shiftRun].
  assert (Hz : aget ((p ++ [z]) ++ y :: q) (Z.of_nat (length p)) = Some z).
  { rewrite aget_nat, lookup_app_l by (rewrite length_app; cbn; lia). by apply list_lookup_middle. }
  rewrite (get_rows s _ _ _ Hc), Hz. cbn [mbind option_bind]. rewrite (handleAt_rows s _ _ _ _ Hc Hz). cbn [mbind option_bind].
  fold (handle_key x). change (lessKey _ _ _ _) with (slot_lt x z). destruct (slot_lt x z) eqn:E.
  - assert (Hfz : fits s z) by (pose proof (rows_fits s _ c Hc) as F; rewrite !Forall_app, Forall_cons in F; tauto).
    destruct (set_rows s _ c (Z.of_nat (S (length p))) z Hc Hfz) as (c' & E' & Hr); [rewrite !length_app; cbn; lia|].
    rewrite E'. cbn [mbind option_bind]. rewrite Nat2Z.id in Hr.
    replace (S (length p)) with (length (p ++ [z]) + 0)%nat in Hr by (rewrite length_app; cbn; lia).
    rewrite insert_app_r in Hr. cbn in Hr. rewrite <- app_assoc in Hr.
    destruct (IH z (z :: q) c' Hr) as (c2 & E2 & H2); [by eapply StronglySorted_app_1_l|].
    exists c2. split; [done|]. by rewrite ins_snoc_lt, <- app_assoc.
  - destruct (set_rows s _ c (Z.of_nat (S (length p))) x Hc Hx) as (c' & E' & Hr); [rewrite !length_app; cbn; lia|].
    exists c'. split; [done|]. rewrite Nat2Z.id in Hr.
    replace (S (length p)) with (length (p ++ [z]) + 0)%nat in Hr by (rewrite length_app; cbn; lia).
    rewrite insert_app_r in Hr. rewrite ins_end; [by rewrite <- app_assoc|].
    apply Forall_forall. intros w Hw. apply elem_of_app in Hw as [Hw|Hw%list_elem_of_singleton]; [|by subst].
    assert (Hwz : le slot_lt w z) by (eapply StronglySorted_app_1_elem_of; [exact Hp|done|by left]).
    by apply (le_trans slot_lt w z x).
Qed.

Lemma insertionSortRun_rows s l c : rows s l c -> exists c' l', insertionSortRun c = Some c' /\
  rows s l' c' /\ stable_sort_of slot_lt l l'.
Proof.
  intros Hc. destruct l as [|x0 l0].
  { exists c, []. unfold insertionSortRun. rewrite (rows_length _ _ _ Hc). split; [done|]. split; [done|]. apply stable_ordered. constructor. }
  set (l := x0 :: l0) in *.
  destruct (loop_seqZ (fun c i => x ← get_slot c i; shiftRun (Z.to_nat i) x c)
    (fun i c => exists l1, rows s (l1 ++ drop (Z.to_nat i) l) c /\ stable_sort_of slot_lt (take (Z.to_nat i) l) l1)
    1 (Z.of_nat (length l) - 1) c) as (c' & E & l1 & H1 & H2).
  - cbn; lia.
  - exists [x0]. split; [done|]. apply stable_ordered. repeat constructor.
  - intros i c1 Hi (l1 & H1 & H2). destruct (lookup_lt_is_Some_2 l (Z.to_nat i)) as [x Hx]; [lia|].
    pose proof (drop_S _ _ _ Hx) as Hd. rewrite Hd in H1.
    assert (Hlen : length l1 = Z.to_nat i) by (rewrite (stable_length slot_lt _ _ H2), length_take; lia).
    assert (Hgx : aget (l1 ++ x :: drop (S (Z.to_nat i)) l) i = Some x).
    { apply aget_Some. split; [lia|]. by apply list_lookup_middle. }
    rewrite (get_rows s _ _ _ H1), Hgx. cbn [mbind option_bind]. rewrite <- Hlen.
    assert (Hfx : fits s x) by (pose proof (rows_fits s _ _ H1) as F; rewrite Forall_app, Forall_cons in F; tauto).
    destruct (shiftRun_rows s x Hfx l1 x _ c1 H1 (proj1 H2)) as (c2 & E2 & H3). exists c2. split; [done|].
    exists (ins slot_lt x l1). replace (Z.to_nat (i + 1)) with (S (Z.to_nat i)) by lia. split; [done|].
    rewrite (take_S_r _ _ _ Hx). apply (stable_app _ _ l1 _ [x]); [done|by apply stable_ordered; repeat constructor|].
    apply ins_stable; [apply _|exact (proj1 H2)].
  - exists c', l1. unfold insertionSortRun. rewrite (rows_length _ _ _ Hc). split; [exact E|].
    replace (Z.to_nat (1 + (Z.of_nat (length l) - 1))) with (length l) in H1, H2 by (cbn; lia).
    rewrite drop_all, app_nil_r in H1. by rewrite take_ge in H2 by lia.
Qed.

(** The specialised sorts are the general one on the columns they carry. *)
Lemma shiftEdges_run n d : forall e,
  shiftRun n ((d, None, None) : slot) (mkCols e None None) = (fun e => mkCols e None None) <$> shiftEdges n d e.
Proof.
  induction n as [|j IH]; intros e; cbn [shiftRun shiftEdges].
  - unfold set_slot. cbn. by destruct (aset e 0 d).
  - unfold get_slot, set_slot. cbn. destruct (aget e (Z.of_nat j)) as [y|]; cbn; [|done].
    unfold lessKey. change (0 <? 0) with false.
    replace (if d =? y then false else d <? y) with (d <? y) by (destruct (Z.eqb_spec d y); lia).
    destruct (d <? y); [destruct (aset e (Z.of_nat (S j)) y)|destruct (aset e (Z.of_nat (S j)) d)]; cbn; done.
Qed.

Lemma shiftEdgesHandles_run n d hv : forall e h,
  shiftRun n ((d, None, Some hv) : slot) (mkCols e None (Some h)) =
  (fun eh => mkCols (fst eh) None (Some (snd eh))) <$> shiftEdgesHandles n d hv e h.
Proof.
  induction n as [|j IH]; intros e h; cbn [shiftRun shiftEdgesHandles].
  - unfold set_slot. cbn. destruct (aset e 0 d); cbn; [|done]. by destruct (aset h 0 hv).
  - unfold get_slot, set_slot. cbn. destruct (aget e (Z.of_nat j)) as [ej|]; cbn; [|done].
    destruct (aget h (Z.of_nat j)) as [hj|]; cbn; [|done]. unfold lessKey.
    replace (if d =? ej then hv <? hj else d <? ej) with ((d <? ej) || ((d =? ej) && (hv <? hj))).
    2:{ destruct (Z.eqb_spec d ej) as [->|]; cbn; [by rewrite Z.ltb_irrefl|by rewrite orb_false_r]. }
    destruct ((d <? ej) || ((d =? ej) && (hv <? hj))).
    + destruct (aset e (Z.of_nat (S j)) ej); cbn; [|done]. destruct (aset h (Z.of_nat (S j)) hj); cbn; done.
    + destruct (aset e (Z.of_nat (S j)) d); cbn; [|done]. destruct (aset h (Z.of_nat (S j)) hv); cbn; done.
Qed.

(** A loop over a state that is one column of another. *)
Lemma loop_map {A S T} (g : S -> T) (f : S -> A -> option S) (f' : T -> A -> option T) l :
  (forall s a, f' (g s) a = g <$> f s a) -> forall s, loop f' (g s) l = g <$> loop f s l.
Proof.
  intros H. induction l as [|a l IH]; intros s; cbn; [done|]. rewrite H. destruct (f s a); cbn; [apply IH|done].
Qed.

Lemma insertionSortEdges_run e :
  insertionSortRun (mkCols e None None : cols W) = (fun e => mkCols e None None) <$> insertionSortEdges e.
Proof.
  unfold insertionSortEdges. destruct (Nat.eqb_spec (length e) 2) as [E|_].
  - destruct e as [|a [|b [|]]]; try done. cbv -[Z.ltb Z.eqb]. change (0 <? 0) with false.
    replace (if b =? a then false else b <? a) with (b <? a) by (destruct (Z.eqb_spec b a); lia). by destruct (b <? a).
  - unfold insertionSortRun. cbn [cE]. apply (loop_map (fun e => mkCols e None None : cols W)). intros e' i.
    unfold get_slot. cbn. destruct (aget e' i); cbn; [|done]. apply shiftEdges_run.
Qed.

Lemma insertionSortEdgesHandles_run e h : length e = length h ->
  insertionSortRun (mkCols e None (Some h) : cols W) =
  (fun eh => mkCols (fst eh) None (Some (snd eh))) <$> insertionSortEdgesHandles e h.
Proof.
  intros Hl. unfold insertionSortEdgesHandles. destruct (Nat.eqb_spec (length e) 2) as [E|_].
  - destruct e as [|a [|b [|]]], h as [|ha [|hb [|]]]; try done. cbv -[Z.ltb Z.eqb].
    destruct (Z.eqb_spec b a) as [->|]; [rewrite Z.ltb_irrefl; by destruct (hb <? ha)|by destruct (b <? a)].
  - unfold insertionSortRun. cbn [cE].
    apply (loop_map (fun eh => mkCols (fst eh) None (Some (snd eh)) : cols W) _ _ _) with (s := (e, h)). intros [e' h'] i.
    unfold get_slot. cbn. destruct (aget e' i); cbn; [|done]. destruct (aget h' i); cbn; [|done]. apply shiftEdgesHandles_run.
Qed.

(** ** The merge sort *)

Lemma set_next s (out rest : list slot) y c x k : rows s (out ++ y :: rest) c -> fits s x -> k = Z.of_nat (length out) ->
  exists c', set_slot c k x = Some c' /\ rows s ((out ++ [x]) ++ rest) c'.
Proof.
  intros Hc Hx ->. destruct (set_rows s _ c (Z.of_nat (length out)) x Hc Hx) as (c' & E & Hr); [rewrite length_app; cbn; lia|].
  exists c'. split; [done|]. rewrite Nat2Z.id in Hr. rewrite <- (Nat.add_0_r (length out)), insert_app_r in Hr.
  by rewrite <- app_assoc.
Qed.

Section merge.
Context (s : bool * bool) (l : list slot) (c0 : cols W) (mid : nat).
Context (Hl : rows s l c0) (Hmid : (mid <= length l)%nat).

(** What is left of the two halves. *)
Abbreviation left i := (drop i (take mid l)).
Abbreviation right j := (drop j l).

Lemma left_cons i : (i < mid)%nat -> exists x, l !! i = Some x /\ left i = x :: left (S i).
Proof.
  intros Hi. destruct (lookup_lt_is_Some_2 l i) as [x Hx]; [lia|]. exists x. split; [done|]. apply drop_S.
  by rewrite lookup_take_lt by done.
Qed.

Lemma right_cons j : (j < length l)%nat -> exists y, l !! j = Some y /\ right j = y :: right (S j).
Proof. intros Hj. destruct (lookup_lt_is_Some_2 l j) as [y Hy]; [lia|]. exists y. split; [done|]. by apply drop_S. Qed.

Lemma fits_at i x : l !! i = Some x -> fits s x.
Proof. intros Hx. pose proof (rows_fits s _ _ Hl) as F. rewrite Forall_lookup in F. by apply F in Hx. Qed.

Lemma merge_loop_rows fuel : forall i j out rest c, (i <= mid)%nat -> (mid <= j <= length l)%nat ->
  rows s (out ++ rest) c -> length rest = (length (left i) + length (right j))%nat -> (length rest < fuel)%nat ->
  exists c', merge_loop fuel c0 (Z.of_nat mid) (Z.of_nat (length l)) (Z.of_nat i) (Z.of_nat j) (Z.of_nat (length out)) c = Some c' /\
  rows s (out ++ merge slot_lt (left i) (right j)) c'.
Proof using Hl Hmid.
  induction fuel as [|fuel IH]; intros i j out rest c Hi Hj Hc Hlen Hf; [lia|]. cbn [merge_loop].
  (* one slot is written and one half advances *)
  assert (Hadv : forall i' j' x m, (i' <= mid)%nat -> (mid <= j' <= length l)%nat -> fits s x ->
    (length (left i) + length (right j) = S (length (left i') + length (right j')))%nat ->
    m = x :: merge slot_lt (left i') (right j') ->
    exists c', (c1 ← set_slot c (Z.of_nat (length out)) x;
      merge_loop fuel c0 (Z.of_nat mid) (Z.of_nat (length l)) (Z.of_nat i') (Z.of_nat j') (Z.of_nat (length out) + 1) c1) = Some c' /\
    rows s (out ++ m) c').
  { intros i' j' x m Hi' Hj' Hx Hcount ->. destruct rest as [|y rest]; [cbn in Hlen; lia|].
    destruct (set_next s out rest y c x _ Hc Hx eq_refl) as (c1 & E1 & H1). rewrite E1. cbn [mbind option_bind].
    replace (Z.of_nat (length out) + 1) with (Z.of_nat (length (out ++ [x]))) by (rewrite length_app; cbn; lia).
    destruct (IH i' j' (out ++ [x]) rest c1 Hi' Hj' H1) as (c' & E & H); [cbn in Hlen; lia|cbn in Hf; lia|].
    exists c'. split; [done|]. by rewrite <- app_assoc in H. }
  destruct (Z.ltb_spec (Z.of_nat i) (Z.of_nat mid)) as [Hlt|Hge]; cbn [andb].
  - destruct (left_cons i ltac:(lia)) as (x & Hx & Ex). assert (Ei : Z.of_nat i + 1 = Z.of_nat (S i)) by lia.
    assert (Hgx : get_slot c0 (Z.of_nat i) = Some x) by by rewrite (get_rows s _ _ _ Hl), aget_nat.
    destruct (Z.ltb_spec (Z.of_nat j) (Z.of_nat (length l))) as [Hjl|Hjl].
    + destruct (right_cons j ltac:(lia)) as (y & Hy & Ey). assert (Ej : Z.of_nat j + 1 = Z.of_nat (S j)) by lia.
      rewrite (lessKeyAt_rows s l c0 _ _ y x Hl) by by rewrite aget_nat. cbn [mbind option_bind].
      rewrite Ex, Ey, merge_cons, <- Ex, <- Ey. destruct (slot_lt y x).
      * rewrite (get_rows s _ _ _ Hl), aget_nat, Hy. cbn [mbind option_bind]. rewrite Ej.
        apply (Hadv i (S j) y); [lia|lia|by eapply fits_at| |done]. rewrite Ey. cbn. lia.
      * rewrite Hgx. cbn [mbind option_bind]. rewrite Ei. apply (Hadv (S i) j x); [lia|lia|by eapply fits_at| |done]. rewrite Ex. cbn. lia.
    + assert (Hr : right j = []) by (apply drop_ge; lia).
      rewrite Hgx. cbn [mbind option_bind]. rewrite Ei. apply (Hadv (S i) j x); [lia|lia|by eapply fits_at| |].
      * rewrite Ex. cbn. lia.
      * by rewrite Hr, !merge_nil_r.
  - assert (Hr : left i = []) by (apply drop_ge; rewrite length_take; lia).
    destruct (Z.ltb_spec (Z.of_nat j) (Z.of_nat (length l))) as [Hjl|Hjl].
    + destruct (right_cons j ltac:(lia)) as (y & Hy & Ey). assert (Ej : Z.of_nat j + 1 = Z.of_nat (S j)) by lia.
      rewrite (get_rows s _ _ _ Hl), aget_nat, Hy. cbn [mbind option_bind]. rewrite Ej.
      apply (Hadv i (S j) y); [lia|lia|by eapply fits_at| |]; [rewrite Ey; cbn; lia|]. by rewrite Hr, Ey.
    + assert (Hr' : right j = []) by (apply drop_ge; lia). exists c. split; [done|]. rewrite Hr, Hr' in *. cbn in Hlen.
      by apply nil_length_inv in Hlen as ->.
Qed.
End merge.

Lemma mergeRun_rows s l c scratch mid : rows s l c -> (mid <= length l)%nat -> Z.of_nat (length l) <= scratch ->
  ordered slot_lt (take mid l) -> ordered slot_lt (drop mid l) ->
  exists c' l', mergeRun scratch (Z.of_nat mid) c = Some c' /\ rows s l' c' /\ stable_sort_of slot_lt l l'.
Proof.
  intros Hc Hm Hs S1 S2. unfold mergeRun. rewrite (rows_length _ _ _ Hc), (proj2 (Z.leb_le _ _)) by done.
  destruct (merge_loop_rows s l c mid Hc Hm (S (length l)) 0 mid [] l c) as (c' & E & H).
  - lia.
  - lia.
  - done.
  - rewrite drop_0, length_take, length_drop. lia.
  - lia.
  - exists c', (merge slot_lt (take mid l) (drop mid l)). cbn [length Z.of_nat] in E. split; [exact E|]. rewrite drop_0 in H. split; [exact H|].
    rewrite <- (take_drop mid l) at 1. by apply merge_stable; [apply _| |].
Qed.

Lemma mergeSortRun_rows s scratch fuel : forall l c, rows s l c -> (length l <= fuel)%nat -> (1 <= fuel)%nat ->
  Z.of_nat (length l) <= scratch ->
  exists c' l', mergeSortRun fuel scratch c = Some c' /\ rows s l' c' /\ stable_sort_of slot_lt l l'.
Proof.
  induction fuel as [|fuel IH]; intros l c Hc Hf H1 Hs; [lia|]. cbn [mergeSortRun]. rewrite (rows_length _ _ _ Hc).
  unfold runOrderInsertionCutoff. destruct (Z.leb_spec (Z.of_nat (length l)) 32) as [Hle|Hgt]; [by apply insertionSortRun_rows|].
  set (n := length l) in *. set (mid := (n / 2)%nat).
  assert (Em : Z.of_nat n / 2 = Z.of_nat mid) by (unfold mid; by rewrite Nat2Z.inj_div). rewrite Em.
  assert (Hmid : (1 <= mid /\ mid < n /\ n - mid < n)%nat).
  { unfold mid. pose proof (Nat.div_mod_eq n 2). pose proof (Nat.mod_upper_bound n 2). lia. }
  destruct (sub_rows s l c 0 (Z.of_nat mid) Hc) as (p & Ep & Hp); [lia|lia|]. rewrite Ep. cbn [mbind option_bind].
  assert (Esl : slice 0 (Z.of_nat mid) l = take mid l) by (unfold slice; rewrite Z.sub_0_r, Nat2Z.id; by rewrite drop_0).
  rewrite Esl in Hp.
  destruct (IH _ p Hp) as (p' & l1 & E1 & H1' & S1); [rewrite length_take; lia|lia|rewrite length_take; lia|].
  rewrite E1. cbn [mbind option_bind].
  assert (L1 : length l1 = mid) by (rewrite (stable_length slot_lt _ _ S1), length_take; lia).
  pose proof (put_rows s l c p' l1 0 Hc H1') as Hc1. change (put 0 l1 l) with (l1 ++ drop (0 + length l1) l) in Hc1. cbn [Nat.add] in Hc1. rewrite L1 in Hc1.
  destruct (sub_rows s _ _ (Z.of_nat mid) (Z.of_nat n) Hc1) as (r & Er & Hr); [lia|rewrite length_app, length_drop; lia|].
  rewrite Er. cbn [mbind option_bind].
  assert (Esr : slice (Z.of_nat mid) (Z.of_nat n) (l1 ++ drop mid l) = drop mid l).
  { unfold slice. rewrite Nat2Z.id, drop_app_length' by done. apply take_ge. rewrite length_drop. lia. }
  rewrite Esr in Hr.
  destruct (IH _ r Hr) as (r' & l2 & E2 & H2' & S2); [rewrite length_drop; lia|lia|rewrite length_drop; lia|].
  rewrite E2. cbn [mbind option_bind].
  assert (L2 : length l2 = (n - mid)%nat) by (by rewrite (stable_length slot_lt _ _ S2), length_drop).
  pose proof (put_rows s _ _ r' l2 (Z.of_nat mid) Hc1 H2') as Hc2.
  assert (Ep2 : put (Z.of_nat mid) l2 (l1 ++ drop mid l) = l1 ++ l2).
  { unfold put. rewrite Nat2Z.id, take_app_length', drop_ge by (rewrite ?length_app, ?length_drop; lia). by rewrite app_nil_r. }
  rewrite Ep2 in Hc2. set (c2 := put_cols (Z.of_nat mid) _ _) in *.
  assert (Hstable : forall l', stable_sort_of slot_lt (l1 ++ l2) l' -> stable_sort_of slot_lt l l').
  { intros l' Hl'. rewrite <- (take_drop mid l). by apply (stable_app _ _ l1 _ l2). }
  assert (Htake : take mid (l1 ++ l2) = l1) by by apply take_app_length'.
  assert (Hdrop : drop mid (l1 ++ l2) = l2) by by apply drop_app_length'.
  destruct l2 as [|y l2]; [cbn [length] in L2; lia|]. destruct l1 as [|x l1 _] using rev_ind; [cbn [length] in L1; lia|].
  rewrite (lessKeyAt_rows s _ c2 _ _ y x Hc2).
  2:{ rewrite aget_nat, <- L1. rewrite lookup_app_r by lia. by rewrite Nat.sub_diag. }
  2:{ replace (Z.of_nat mid - 1) with (Z.of_nat (length l1)) by (rewrite length_app in L1; cbn [length] in L1; lia).
      rewrite aget_nat, lookup_app_l by (rewrite length_app; cbn; lia). by apply list_lookup_middle. }
  cbn [mbind option_bind]. destruct (slot_lt y x) eqn:E.
  - destruct (mergeRun_rows s _ c2 scratch mid Hc2) as (c' & l' & E' & Hr' & S');
      [rewrite length_app; lia|rewrite length_app, L1, L2; lia|rewrite Htake; apply S1|rewrite Hdrop; apply S2|].
    exists c', l'. auto.
  - exists c2, ((l1 ++ [x]) ++ y :: l2). split; [done|]. split; [done|]. apply Hstable, stable_ordered.
    apply ordered_app; [apply _|apply S1|apply S2|done].
Qed.

(** ** One run, and all of them *)

Lemma run_ordered_loop_rows s l c : rows s l c -> forall m i, (1 <= i)%nat -> (i + m = length l)%nat -> ordered slot_lt (take i l) ->
  exists b, run_ordered_loop c (seqZ (Z.of_nat i) (Z.of_nat m)) = Some b /\ (b = true -> ordered slot_lt l).
Proof.
  intros Hc m. induction m as [|m IH]; intros i Hi Hm Ho.
  { exists true. split; [done|]. intros _. by rewrite take_ge in Ho by lia. }
  rewrite seqZ_cons by lia. cbn [run_ordered_loop].
  destruct (lookup_lt_is_Some_2 l i) as [y Hy]; [lia|]. destruct (lookup_lt_is_Some_2 l (i - 1)) as [x Hx]; [lia|].
  rewrite (lessKeyAt_rows s l c _ _ y x Hc); [|by rewrite aget_nat|replace (Z.of_nat i - 1) with (Z.of_nat (i - 1)) by lia; by rewrite aget_nat].
  cbn [mbind option_bind]. destruct (slot_lt y x) eqn:E; [by exists false|].
  replace (Z.succ (Z.of_nat i)) with (Z.of_nat (S i)) by lia. replace (Z.pred (Z.of_nat (S m))) with (Z.of_nat m) by lia.
  apply IH; [lia|lia|]. rewrite (take_S_r _ _ _ Hy). destruct i as [|i]; [lia|]. replace (S i - 1)%nat with i in Hx by lia.
  rewrite (take_S_r _ _ _ Hx) in *. apply ordered_app; [apply _|done|by repeat constructor|done].
Qed.

Lemma order_run_rows s scratch l c : rows s l c -> (Z.of_nat (length l) <= 32 \/ Z.of_nat (length l) <= scratch) ->
  exists c' l', order_run scratch c = Some c' /\ rows s l' c' /\ stable_sort_of slot_lt l l'.
Proof.
  intros Hc Hs. unfold order_run, runOrderInsertionCutoff. rewrite (rows_length _ _ _ Hc).
  destruct (Z.leb_spec (Z.of_nat (length l)) 32) as [Hle|Hgt].
  - destruct (insertionSortRun_rows s l c Hc) as (c' & l' & E & H1 & H2). exists c', l'. split; [|done].
    destruct c as [e [w|] [h|]]; cbn [cW cH cE]; try done.
    + rewrite insertionSortEdgesHandles_run in E; [by destruct (insertionSortEdgesHandles e h)|].
      pose proof (rows_length _ _ _ Hc) as He. pose proof (r_handles _ _ _ Hc) as Hh. cbn in Hh, He.
      by rewrite <- (length_fmap Some h), <- Hh, length_fmap.
    + rewrite insertionSortEdges_run in E. by destruct (insertionSortEdges e).
  - destruct (run_ordered_loop_rows s l c Hc (length l - 1) 1) as (b & Eb & Hb); [lia|lia| |].
    { destruct l; [cbn in Hgt; lia|]. repeat constructor. }
    unfold runOrdered. rewrite (rows_length _ _ _ Hc). replace (Z.of_nat (length l) - 1) with (Z.of_nat (length l - 1)) by lia.
    change 1 with (Z.of_nat 1). rewrite Eb. cbn [mbind option_bind]. destruct b.
    + exists c, l. split; [done|]. split; [done|]. apply stable_ordered. by apply Hb.
    + apply (mergeSortRun_rows s); [done|lia|lia|lia].
Qed.

(** ** Offsets *)

Definition vert (verts : list Z) (i : Z) : Z := default 0 (aget verts i).

(** The slots of source [i]. *)
Definition run {A} (verts : list Z) (i : Z) (l : list A) : list A := slice (vert verts i) (vert verts (i + 1)) l.

Record offsets (verts : list Z) (total : Z) : Prop := {
  o_nonempty : 1 <= Z.of_nat (length verts);
  o_first : 0 <= vert verts 0;
  o_mono : forall i, 0 <= i < Z.of_nat (length verts) - 1 -> vert verts i <= vert verts (i + 1);
  o_last : vert verts (Z.of_nat (length verts) - 1) <= total;
  o_total : total < 2 ^ 64;
}.

Lemma vert_get verts i : 0 <= i < Z.of_nat (length verts) -> aget verts i = Some (vert verts i).
Proof. intros Hi. destruct (aget_is_Some verts i Hi) as [x Hx]. unfold vert. by rewrite Hx. Qed.

Lemma vert_le verts total i j : offsets verts total -> 0 <= i <= j -> j < Z.of_nat (length verts) -> vert verts i <= vert verts j.
Proof.
  intros HO Hi Hj. replace j with (i + (j - i)) in * by lia. assert (Hk : 0 <= j - i) by lia. revert Hj.
  pattern (j - i). apply natlike_ind; [rewrite Z.add_0_r; lia| |done].
  intros k Hk' IH Hj. etrans; [apply IH; lia|]. unfold Z.succ. rewrite Z.add_assoc. apply (o_mono _ _ HO). lia.
Qed.

Lemma vert_bounds verts total i : offsets verts total -> 0 <= i < Z.of_nat (length verts) -> 0 <= vert verts i <= total.
Proof.
  intros HO Hi. pose proof (vert_le verts total 0 i HO) as H0. pose proof (vert_le verts total i (Z.of_nat (length verts) - 1) HO) as H1.
  pose proof (o_first _ _ HO). pose proof (o_last _ _ HO). lia.
Qed.

Lemma run_len_val verts total i : offsets verts total -> 0 <= i < Z.of_nat (length verts) - 1 ->
  run_len verts i = Some (vert verts (i + 1) - vert verts i).
Proof.
  intros HO Hi. unfold run_len. rewrite !vert_get by lia. cbn. f_equal. apply u64_small.
  pose proof (vert_bounds verts total i HO). pose proof (vert_bounds verts total (i + 1) HO).
  pose proof (o_mono _ _ HO i Hi). pose proof (o_total _ _ HO). lia.
Qed.

Lemma longest_run_val verts total : offsets verts total ->
  exists m, longest_run verts = Some m /\
  forall i, 0 <= i < Z.of_nat (length verts) - 1 -> vert verts (i + 1) - vert verts i <= m.
Proof.
  intros HO. unfold longest_run.
  destruct (loop_seqZ (fun m i => n ← run_len verts i; Some (if m <? n then n else m))
    (fun i m => forall j, 0 <= j < i -> vert verts (j + 1) - vert verts j <= m) 0 (Z.of_nat (length verts) - 1) 0)
    as (m & E & Hm).
  - pose proof (o_nonempty _ _ HO). lia.
  - lia.
  - intros i m Hi Hm. rewrite (run_len_val verts total i HO) by lia. cbn. eexists. split; [done|].
    intros j Hj. destruct (Z.ltb_spec m (vert verts (i + 1) - vert verts i)); (destruct (decide (j = i)) as [->|]; [lia|specialize (Hm j ltac:(lia)); lia]).
  - exists m. split; [exact E|]. intros i Hi. apply Hm. lia.
Qed.

(** ** Slices of a list that was rewritten in the middle *)

Lemma slice_put_same {A} lo (p l : list A) : 0 <= lo -> lo + Z.of_nat (length p) <= Z.of_nat (length l) ->
  slice lo (lo + Z.of_nat (length p)) (put lo p l) = p.
Proof.
  intros H1 H2. unfold slice, put. rewrite drop_app_length' by (rewrite length_take; lia).
  replace (Z.to_nat (lo + Z.of_nat (length p) - lo)) with (length p) by lia. by rewrite take_app_length.
Qed.

Lemma slice_put_before {A} a b lo (p l : list A) : 0 <= a <= b -> b <= lo -> lo <= Z.of_nat (length l) ->
  slice a b (put lo p l) = slice a b l.
Proof.
  intros H1 H2 H3. unfold slice, put. rewrite <- (take_drop (Z.to_nat lo) l) at 3.
  rewrite !drop_app_le, !take_app_le by (rewrite ?length_drop, ?length_take; lia). done.
Qed.

Lemma drop_put {A} lo (p l : list A) : 0 <= lo -> lo + Z.of_nat (length p) <= Z.of_nat (length l) ->
  drop (Z.to_nat (lo + Z.of_nat (length p))) (put lo p l) = drop (Z.to_nat (lo + Z.of_nat (length p))) l.
Proof.
  intros H1 H2. unfold put. rewrite app_assoc, drop_app_length'; [|rewrite length_app, length_take; lia]. f_equal. lia.
Qed.

Lemma slice_drop_eq {A} lo hi (l l' : list A) : drop (Z.to_nat lo) l = drop (Z.to_nat lo) l' -> slice lo hi l = slice lo hi l'.
Proof. unfold slice. by intros ->. Qed.

Lemma short_ordered {A} (lt : A -> A -> bool) (l : list A) : (length l < 2)%nat -> ordered lt l.
Proof. destruct l as [|x [|]]; cbn; try lia; intros _; repeat constructor. Qed.

(** ** All the runs *)

(** What the loop of [OrderRuns] has done before source [i]. *)
Definition ordered_upto verts (l : list slot) (i : Z) (l' : list slot) : Prop :=
  length l' = length l /\ drop (Z.to_nat (vert verts i)) l' = drop (Z.to_nat (vert verts i)) l /\
  take (Z.to_nat (vert verts 0)) l' = take (Z.to_nat (vert verts 0)) l /\
  forall j, 0 <= j < i -> stable_sort_of slot_lt (run verts j l) (run verts j l').

Lemma order_at_rows s verts l c l' scratch i : offsets verts (Z.of_nat (length l)) -> 0 <= i < Z.of_nat (length verts) - 1 ->
  (vert verts (i + 1) - vert verts i <= 32 \/ vert verts (i + 1) - vert verts i <= scratch) ->
  rows s l' c -> ordered_upto verts l i l' ->
  exists c' l2, order_at scratch verts c i = Some c' /\ rows s l2 c' /\ ordered_upto verts l (i + 1) l2.
Proof.
  intros HO Hi Hscr Hc (Hlen & Hdrop & Htake & Hrun). unfold order_at. rewrite !vert_get by lia. cbn [mbind option_bind].
  pose proof (run_len_val _ _ i HO Hi) as Hrl. unfold run_len in Hrl. rewrite !vert_get in Hrl by lia. cbn in Hrl. injection Hrl as Hrl. rewrite Hrl.
  pose proof (vert_bounds _ _ i HO ltac:(lia)) as Hlo. pose proof (vert_bounds _ _ (i + 1) HO ltac:(lia)) as Hhi.
  pose proof (o_mono _ _ HO i Hi) as Hm. pose proof (vert_le _ _ 0 i HO ltac:(lia) ltac:(lia)) as H0.
  assert (Hnext : forall l2, length l2 = length l -> drop (Z.to_nat (vert verts (i + 1))) l2 = drop (Z.to_nat (vert verts (i + 1))) l' ->
    take (Z.to_nat (vert verts 0)) l2 = take (Z.to_nat (vert verts 0)) l' ->
    (forall j, 0 <= j < i -> run verts j l2 = run verts j l') -> stable_sort_of slot_lt (run verts i l') (run verts i l2) ->
    ordered_upto verts l (i + 1) l2).
  { intros l2 N1 N2 N3 N4 N5. split; [done|]. split; [|split; [by rewrite N3|]].
    - rewrite N2. replace (Z.to_nat (vert verts (i + 1))) with (Z.to_nat (vert verts i) + Z.to_nat (vert verts (i + 1) - vert verts i))%nat by lia.
      by rewrite <- !drop_drop, Hdrop.
    - intros j Hj. destruct (decide (j = i)) as [->|Hne]; [|rewrite N4 by lia; apply Hrun; lia].
      assert (run verts i l = run verts i l') as -> by by symmetry; apply slice_drop_eq. done. }
  destruct (Z.ltb_spec (vert verts (i + 1) - vert verts i) 2) as [Hlt|Hge].
  - exists c, l'. split; [done|]. split; [done|]. apply Hnext; try done. apply stable_ordered, short_ordered.
    pose proof (slice_length (vert verts i) (vert verts (i + 1)) l'). unfold run. lia.
  - destruct (sub_rows s l' c (vert verts i) (vert verts (i + 1)) Hc) as (p & Ep & Hp); [lia|lia|]. rewrite Ep. cbn [mbind option_bind].
    pose proof (slice_length (vert verts i) (vert verts (i + 1)) l' ltac:(lia) ltac:(lia)) as Hsl.
    destruct (order_run_rows s scratch _ p Hp) as (p' & lp & E' & Hp' & Sp); [lia|]. rewrite E'. cbn [mbind option_bind].
    pose proof (stable_length slot_lt _ _ Sp) as Lp. assert (Ehi : vert verts (i + 1) = vert verts i + Z.of_nat (length lp)) by lia.
    exists (put_cols (vert verts i) p' c), (put (vert verts i) lp l'). split; [done|]. split; [by apply put_rows|].
    apply Hnext.
    + rewrite put_length; lia.
    + rewrite Ehi. apply drop_put; lia.
    + unfold put. rewrite take_app_le, take_take by (rewrite length_take; lia). f_equal. lia.
    + intros j Hj. apply slice_put_before; [|apply (vert_le _ _ (j + 1) i HO); lia|lia].
      pose proof (vert_bounds _ _ j HO). pose proof (o_mono _ _ HO j). lia.
    + unfold run. rewrite Ehi at 2. rewrite slice_put_same by lia. exact Sp.
Qed.

Lemma OrderRuns_rows s verts l c : offsets verts (Z.of_nat (length l)) -> rows s l c ->
  exists c' l', OrderRuns verts c = Some c' /\ rows s l' c' /\ ordered_upto verts l (Z.of_nat (length verts) - 1) l'.
Proof.
  intros HO Hc. pose proof (o_nonempty _ _ HO) as Hne. unfold OrderRuns. destruct (Nat.ltb_spec (length verts) 2) as [Hlt|Hge].
  { exists c, l. split; [done|]. split; [done|]. split; [done|]. split; [done|]. split; [done|]. lia. }
  destruct (longest_run_val verts _ HO) as (m & Em & Hm). rewrite Em. cbn [mbind option_bind].
  destruct (Z.ltb_spec m 2) as [Hm2|Hm2].
  { exists c, l. split; [done|]. split; [done|]. split; [done|]. split; [done|]. split; [done|]. intros j Hj.
    apply stable_ordered, short_ordered. specialize (Hm j Hj).
    pose proof (slice_length (vert verts j) (vert verts (j + 1)) l) as Hsl.
    pose proof (vert_bounds _ _ j HO ltac:(lia)). pose proof (vert_bounds _ _ (j + 1) HO ltac:(lia)). pose proof (o_mono _ _ HO j Hj).
    unfold run. lia. }
  unfold runOrderInsertionCutoff. set (scratch := if 32 <? m then m else 0).
  destruct (loop_seqZ (order_at scratch verts) (fun i c => exists l', rows s l' c /\ ordered_upto verts l i l')
    0 (Z.of_nat (length verts) - 1) c) as (c' & E & l' & Hr & Ho).
  - lia.
  - exists l. split; [done|]. split; [done|]. split; [done|]. split; [done|]. lia.
  - intros i c1 Hi (l1 & H1 & H2). specialize (Hm i ltac:(lia)).
    destruct (order_at_rows s verts l c1 l1 scratch i HO ltac:(lia)) as (c2 & l2 & E2 & R2 & O2); [|done|done|by exists c2; eauto].
    unfold scratch. destruct (Z.ltb_spec 32 m); lia.
  - exists c', l'. split; [exact E|]. by split.
Qed.
End order.
