(* ===== verification/CsrGraph.v ===== *)
(** * Compressed sparse rows: snapshots (src/graph/csr/csr.go, symmetric_build.go)

    The snapshot itself: assembling and checking one, building it from an adjacency
    in two passes, its reverse and its symmetric projection, and what readers ask it.
    The adjacency is seen through what the builds call of it; the two passes may see
    two different states of it. *)

From Stdlib Require Import ZArith Lia.
From stdpp Require Import list_numbers.
From S2P Require Import Prelude Csr.

Local Open Scope Z_scope.

Section csr.
Context {W : Type} (zeroW : W) (hasWeights : bool).

Record CSR := mkCSR {
  vertices : list Z;
  arcs : cols W;
  order : Z;
  size : Z;
  symmetric : bool;
}.

Definition edges (c : CSR) : list Z := cE (arcs c).
Definition weights (c : CSR) : option (list W) := cW (arcs c).
Definition handles (c : CSR) : option (list Z) := cH (arcs c).

Definition FromArrays (verts : list Z) (es : list Z) (ws : option (list W)) (ord sz : Z) : CSR :=
  mkCSR verts (mkCols es ws None) ord sz false.

(** The violations [Validate] reports, the first one found. *)
Inductive malformed :=
  | NoOffsets
  | LastOffset (v n : Z)
  | NotMonotone (i : Z)
  | WeightsLength (n m : Z)
  | OutOfRange (k d : Z).

Fixpoint check_monotone (i prev : Z) (vs : list Z) : option malformed :=
  match vs with
  | [] => None
  | v :: vs => if v <? prev then Some (NotMonotone i) else check_monotone (i + 1) v vs
  end.
Fixpoint check_range (k maxNode : Z) (es : list Z) : option malformed :=
  match es with
  | [] => None
  | d :: es => if maxNode <=? d then Some (OutOfRange k d) else check_range (k + 1) maxNode es
  end.

Definition Validate (c : CSR) : option malformed :=
  match vertices c with
  | [] => Some NoOffsets
  | v0 :: vs =>
      let n := Z.of_nat (length (edges c)) in
      let last := List.last (vertices c) 0 in
      if negb (n =? last) then Some (LastOffset last n)
      else match check_monotone 1 v0 vs with
      | Some m => Some m
      | None =>
          let rest := check_range 0 (Z.of_nat (length vs)) (edges c) in
          match weights c with
          | Some w => if negb (length w =? length (edges c))%nat then Some (WeightsLength (Z.of_nat (length w)) n) else rest
          | None => rest
          end
      end
  end.

Definition MaxNodeID (c : CSR) : Z := Z.of_nat (length (vertices c) - 1).

(** The pairs the iterator yields to a consumer that does not stop. *)
Definition NeighboursByID (src : Z) (c : CSR) : option (list (Z * W)) :=
  if Z.of_nat (length (vertices c)) <=? u64 (src + 1) then Some []
  else
    start ← aget (vertices c) src;
    end_ ← aget (vertices c) (u64 (src + 1));
    mapM (fun i => w ← match weights c with None => Some zeroW | Some ws => aget ws i end;
                   e ← aget (edges c) i; Some (e, w)) (seqZ start (end_ - start)).

Record Range := mkRange { rEdges : list Z; Start : Z; End_ : Z }.

Definition NeighbourRange (src : Z) (c : CSR) : option (option Range) :=
  if Z.of_nat (length (vertices c)) <=? u64 (src + 1) then Some None
  else
    start ← aget (vertices c) src;
    end_ ← aget (vertices c) (u64 (src + 1));
    Some (Some (mkRange (edges c) start end_)).

(** The loops over every source and its arcs. *)
Definition for_arcs {S} (c : CSR) (f : S -> Z -> Z -> option S) (s : S) : option S :=
  loop (fun s u => lo ← aget (vertices c) u; hi ← aget (vertices c) (u + 1);
                   loop (fun s k => f s u k) s (seqZ lo (hi - lo)))
    s (seqZ 0 (Z.of_nat (length (vertices c)) - 1)).

Definition LiveMask (c : CSR) : option (list bool) :=
  let maxID := MaxNodeID c in
  loop (fun mask from =>
    start ← aget (vertices c) from; end_ ← aget (vertices c) (from + 1);
    if start <? end_ then
      m ← aset mask from true;
      loop (fun m k => e ← aget (edges c) k; aset m e true) m (seqZ start (end_ - start))
    else Some mask) (replicate (Z.to_nat maxID) false) (seqZ 0 maxID).

Definition LiveNodes (c : CSR) : option (list Z) :=
  mask ← LiveMask c; Some (filter (fun i => aget mask i = Some true) (seqZ 0 (Z.of_nat (length mask)))).

Definition LiveCount (c : CSR) : option Z :=
  mask ← LiveMask c; Some (Z.of_nat (length (filter (fun b : bool => b = true) mask))).

Fixpoint RunsOrdered_loop (c : CSR) (sources : list Z) : option bool :=
  match sources with
  | [] => Some true
  | i :: rest =>
      lo ← aget (vertices c) i; hi ← aget (vertices c) (i + 1);
      if (hi <? lo) || (Z.of_nat (length (edges c)) <? hi) then Some false
      else
        e ← aslice lo hi (edges c); h ← subSlice (handles c) lo hi;
        b ← runOrdered (mkCols e None h : cols W);
        if (b : bool) then RunsOrdered_loop c rest else Some false
  end.
Definition RunsOrdered (c : CSR) : option bool :=
  RunsOrdered_loop c (seqZ 0 (Z.of_nat (length (vertices c)) - 1)).

(** ** Arrays of zeros, counters *)

Definition zeros (n : Z) : list Z := replicate (Z.to_nat n) 0.
Definition zero_cols (n : Z) (ws hs : bool) : cols W :=
  mkCols (zeros n) (if ws then Some (replicate (Z.to_nat n) zeroW) else None) (if hs then Some (zeros n) else None).
Definition is_nil {A} (o : option A) : bool := match o with None => true | Some _ => false end.

Definition incr (l : list Z) (i : Z) : option (list Z) := x ← aget l i; aset l i (u64 (x + 1)).
Definition add_at (l : list Z) (i d : Z) : option (list Z) := x ← aget l i; aset l i (u64 (x + d)).

(** ** The reverse *)

Definition rev_counts (maxID : Z) (c : CSR) : option (list Z) :=
  for_arcs c (fun d _ k => v ← aget (edges c) k; incr d (u64 (v + 1))) (zeros (maxID + 1)).
Definition rev_offsets (maxID : Z) (inDeg : list Z) : option (list Z) :=
  loop (fun r i => a ← aget r (i - 1); b ← aget inDeg i; aset r i (u64 (a + b))) (zeros (maxID + 1)) (seqZ 1 maxID).
Definition rev_scatter (revVerts : list Z) (c : CSR) (st : cols W * list Z) (u k : Z) : option (cols W * list Z) :=
  v ← aget (edges c) k; base ← aget revVerts v; cu ← aget (snd st) v;
  x ← get_slot (arcs c) k;
  rev' ← set_slot (fst st) (u64 (base + cu)) (u, wt x, hd x);
  cursor' ← incr (snd st) v;
  Some (rev', cursor').

Definition BuildReverse (c : CSR) : option CSR :=
  if symmetric c then Some c
  else
    let maxID := MaxNodeID c in
    if maxID =? 0 then Some (mkCSR [0] (mkCols [] None None) 0 0 false)
    else
      inDeg ← rev_counts maxID c;
      revVerts ← rev_offsets maxID inDeg;
      total ← aget revVerts maxID;
      st ← for_arcs c (rev_scatter revVerts c)
             (zero_cols total (negb (is_nil (weights c))) (negb (is_nil (handles c))), zeros maxID);
      Some (mkCSR revVerts (fst st) (order c) (size c) false).

(** ** The symmetric projection *)

Definition sym_counts (maxID : Z) (c : CSR) : option (list Z) :=
  for_arcs c (fun d u k =>
    d' ← incr d u;
    v ← aget (edges c) k;
    if v =? u then Some d' else incr d' v) (zeros (maxID + 1)).
Definition sym_ends (maxID : Z) (counts : list Z) : option (list Z) :=
  loop (fun r x => p ← aget r (x - 1); add_at r x p) counts (seqZ 1 (maxID - 1)).

(** [emit]: the cursor of [src] moves down and the arc is stored there. *)
Definition sym_emit (c : CSR) (src dst_ k : Z) (st : list Z * cols W) : option (list Z * cols W) :=
  p ← aget (fst st) src;
  let pos := u64 (p - 1) in
  verts' ← aset (fst st) src pos;
  x ← get_slot (arcs c) k;
  out ← set_slot (snd st) pos (dst_, wt x, hd x);
  Some (verts', out).
Definition sym_scatter (c : CSR) (st : list Z * cols W) (u : Z) : option (list Z * cols W) :=
  hi ← aget (vertices c) u; lo ← aget (vertices c) (u - 1);
  loop (fun st k =>
    d ← aget (edges c) k;
    st1 ← (if d =? u - 1 then Some st else sym_emit c d (u - 1) k st);
    sym_emit c (u - 1) d k st1) st (reverse (seqZ lo (hi - lo))).

Definition BuildSymmetric (c : CSR) : option CSR :=
  if (length (vertices c) <? 2)%nat then Some (mkCSR [0] (mkCols [] None None) (order c) 0 true)
  else
    let maxID := MaxNodeID c in
    counts ← sym_counts maxID c;
    ends ← sym_ends maxID counts;
    total ← aget ends (maxID - 1);
    verts ← aset ends maxID total;
    st ← loop (sym_scatter c) (verts, zero_cols total (negb (is_nil (weights c))) (negb (is_nil (handles c))))
           (reverse (seqZ 1 maxID));
    out ← OrderRuns (fst st) (snd st);
    Some (mkCSR (fst st) out (order c) total true).

Definition KnownSymmetric (c : CSR) : bool := symmetric c.

(** The pairs of the hash set, in any order. *)
Definition arc_pairs (c : CSR) : option (list (Z * Z)) :=
  for_arcs c (fun s u k => v ← aget (edges c) k; Some (s ++ [(u, v)])) [].
Definition IsSymmetric (c : CSR) : option bool :=
  if symmetric c then Some true
  else s ← arc_pairs c; Some (forallb (fun p => bool_decide ((snd p, fst p) ∈ s)) s).

(** ** Builds from an adjacency *)

(** One node's entry: destinations, weights, and handles when it carries them. *)
Record entry := mkEntry { nbs : list Z; ews : list W; ehs : option (list Z) }.

(** What the builds read of an adjacency in one state. *)
Record adjacency := mkAdj {
  adjMaxNodeID : Z;
  adjOrder : Z;
  Weightless : bool;
  LoadEntryH : Z -> entry;
  EntryViewAsOf : Z -> Z -> Z -> entry;
}.

(** [adjlist.At]: the present, or the instant and transaction of a reader. *)
Definition entry_of (a : adjacency) (instant : option (Z * Z)) (id : Z) : entry :=
  match instant with None => LoadEntryH a id | Some (startTS, txID) => EntryViewAsOf a id startTS txID end.

(** [copy(dst[start:], src)] *)
Definition copy_at {A} (start : Z) (src dst_ : list A) : option (list A) :=
  if decide (0 <= start <= Z.of_nat (length dst_))
  then Some (put start (take (length dst_ - Z.to_nat start) src) dst_) else None.
Definition copy_column {A} (start : Z) (src : list A) (col : option (list A)) : option (option (list A)) :=
  match col with None => Some None | Some l => Some <$> copy_at start src l end.

(** The count of pass one: offsets, total, and whether any entry has handles. *)
Definition raw_count (get : Z -> entry) (st : list Z * Z * bool) (id : Z) : option (list Z * Z * bool) :=
  let '(verts, total, anyH) := st in
  verts' ← aset verts id total;
  Some (verts', u64 (total + Z.of_nat (length (nbs (get id)))), anyH || negb (is_nil (ehs (get id)))).

Definition raw_write (get : Z -> entry) (verts : list Z) (c : cols W) (id : Z) : option (cols W) :=
  let e := get id in
  if (length (nbs e) =? 0)%nat then Some c
  else
    start ← aget verts id;
    es ← copy_at start (nbs e) (cE c);
    ws ← copy_column start (ews e) (cW c);
    hs ← copy_column start (default [] (ehs e)) (cH c);
    Some (mkCols es ws hs).

Definition buildFromAdjListRaw (a1 a2 : adjacency) (instant : option (Z * Z)) : option CSR :=
  let maxID := adjMaxNodeID a1 in
  if maxID =? 0 then Some (mkCSR [0] (mkCols [] None None) 0 0 false)
  else
    st ← loop (raw_count (entry_of a1 instant)) (zeros (maxID + 1), 0, false) (seqZ 0 maxID);
    let '(verts0, total, anyH) := st in
    verts ← aset verts0 maxID total;
    c ← loop (raw_write (entry_of a2 instant) verts)
          (zero_cols total (hasWeights && negb (Weightless a1)) anyH) (seqZ 0 maxID);
    out ← OrderRuns verts c;
    Some (mkCSR verts out (adjOrder a2) total false).

Definition live_count (live : Z -> bool) (get : Z -> entry) (st : list Z * Z * bool) (id : Z) : option (list Z * Z * bool) :=
  let '(verts, total, anyH) := st in
  verts' ← aset verts id total;
  if negb (live id) then Some (verts', total, anyH)
  else Some (verts', fold_left (fun t d => if live d then u64 (t + 1) else t) (nbs (get id)) total,
             anyH || negb (is_nil (ehs (get id)))).

(** The arcs of one source; [true] when the build stops because the adjacency grew. *)
Fixpoint live_arcs (live : Z -> bool) (id : Z) (e : entry) (total : Z) (j : Z) (nb : list Z) (pos : Z) (c : cols W)
  : option (bool * cols W) :=
  match nb with
  | [] => Some (false, c)
  | d :: nb =>
      if negb (live id && live d) then live_arcs live id e total (j + 1) nb pos c
      else if total <=? pos then Some (true, c)
      else
        es ← aset (cE c) pos d;
        ws ← match cW c with None => Some None | Some l => w ← aget (ews e) j; Some <$> aset l pos w end;
        hs ← match cH c, ehs e with Some l, Some h => x ← aget h j; Some <$> aset l pos x | col, _ => Some col end;
        live_arcs live id e total (j + 1) nb (pos + 1) (mkCols es ws hs)
  end.
Definition live_write (live : Z -> bool) (get : Z -> entry) (verts : list Z) (total : Z) (st : bool * cols W) (id : Z)
  : option (bool * cols W) :=
  if fst st then Some st
  else if negb (live id) then Some st
  else start ← aget verts id; live_arcs live id (get id) total 0 (nbs (get id)) start (snd st).

Definition buildFromAdjList (a1 a2 : adjacency) (live : option (Z -> bool)) (instant : option (Z * Z)) : option CSR :=
  match live with
  | None => buildFromAdjListRaw a1 a2 instant
  | Some live =>
      let maxID := adjMaxNodeID a1 in
      if maxID =? 0 then Some (mkCSR [0] (mkCols [] None None) 0 0 false)
      else
        st ← loop (live_count live (entry_of a1 instant)) (zeros (maxID + 1), 0, false) (seqZ 0 maxID);
        let '(verts0, total, anyH) := st in
        verts ← aset verts0 maxID total;
        w ← loop (live_write live (entry_of a2 instant) verts total)
              (false, zero_cols total (hasWeights && negb (Weightless a1)) anyH) (seqZ 0 maxID);
        out ← OrderRuns verts (snd w);
        Some (mkCSR verts out (adjOrder a2) total false)
  end.

Definition BuildFromAdjList (a1 a2 : adjacency) : option CSR := buildFromAdjList a1 a2 None None.
Definition BuildFromAdjListLive (a1 a2 : adjacency) (live : option (Z -> bool)) : option CSR :=
  buildFromAdjList a1 a2 live None.
Definition BuildFromAdjListAsOf (a1 a2 : adjacency) (live : option (Z -> bool)) (startTS txID : Z) : option CSR :=
  buildFromAdjList a1 a2 live (Some (startTS, txID)).

(** ** The symmetric projection of an adjacency, in one pass over it *)

Definition adj_counts (a : adjacency) (st : list Z * bool) (id : Z) : option (list Z * bool) :=
  let e := LoadEntryH a id in
  v1 ← add_at (fst st) (id + 1) (Z.of_nat (length (nbs e)));
  v2 ← loop (fun v d => if d =? id then Some v else incr v (u64 (d + 1))) v1 (nbs e);
  Some (v2, snd st || negb (is_nil (ehs e))).
Definition adj_offsets (maxID : Z) (verts : list Z) : option (list Z) :=
  loop (fun r x => p ← aget r (x - 1); add_at r x p) verts (seqZ 1 maxID).

Definition adj_emit (verts : list Z) (src d : Z) (w : W) (h : Z) (st : list Z * cols W) : option (list Z * cols W) :=
  pos ← aget (fst st) src;
  limit ← aget verts (u64 (src + 1));
  if limit <=? pos then Some st
  else
    cursor ← aset (fst st) src (u64 (pos + 1));
    out ← set_slot (snd st) pos (d, Some w, Some h);
    Some (cursor, out).

Fixpoint adj_arcs (verts : list Z) (id : Z) (e : entry) (j : Z) (nb : list Z) (st : list Z * cols W)
  : option (list Z * cols W) :=
  match nb with
  | [] => Some st
  | d :: nb =>
      let w := match cW (snd st) with Some _ => default zeroW (aget (ews e) j) | None => zeroW end in
      let h := default 0 (aget (default [] (ehs e)) j) in
      st1 ← adj_emit verts id d w h st;
      st2 ← (if d =? id then Some st1 else adj_emit verts d id w h st1);
      adj_arcs verts id e (j + 1) nb st2
  end.

Definition BuildSymmetricFromAdjList (a1 a2 : adjacency) : option CSR :=
  let maxID := adjMaxNodeID a1 in
  if maxID =? 0 then Some (mkCSR [0] (mkCols [] None None) 0 0 true)
  else
    st ← loop (adj_counts a1) (zeros (maxID + 1), false) (seqZ 0 maxID);
    verts ← adj_offsets maxID (fst st);
    total ← aget verts maxID;
    w ← loop (fun s id => adj_arcs verts id (LoadEntryH a2 id) 0 (nbs (LoadEntryH a2 id)) s)
          (take (Z.to_nat maxID) verts, zero_cols total (hasWeights && negb (Weightless a1)) (snd st)) (seqZ 0 maxID);
    out ← OrderRuns verts (snd w);
    Some (mkCSR verts out (adjOrder a2) total true).
End csr.
