(* ===== verification/CsrScatter.v ===== *)
(** * Compressed sparse rows: counting and scattering

    A build counts the arcs of each bucket, turns the counts into offsets, and stores
    every arc at its bucket's cursor.  Scattered forwards with rising cursors or
    backwards with falling ones, each bucket ends up holding its arcs in the order
    they were emitted. *)

From Stdlib Require Import ZArith Lia.
From stdpp Require Import list_numbers.
From S2P Require Import Prelude Csr CsrRows CsrGraph.

Local Open Scope Z_scope.

(** ** Loops *)

Lemma loop_ext {A S} (f g : S -> A -> option S) l : (forall s a, a ∈ l -> f s a = g s a) -> forall s, loop f s l = loop g s l.
Proof.
  induction l as [|a l IH]; intros H s; cbn; [done|]. rewrite (H s a) by left. destruct (g s a); cbn; [|done].
  apply IH. intros s' b Hb. apply H. by right.
Qed.

Lemma loop_flat_map {A B S} (g : S -> B -> option S) (h : A -> list B) l : forall s,
  loop g s (flat_map h l) = loop (fun s a => loop g s (h a)) s l.
Proof. induction l as [|a l IH]; intros s; cbn; [done|]. rewrite loop_app. destruct (loop g s (h a)); cbn; [apply IH|done]. Qed.

(** A loop that keeps [P] of the elements it has processed. *)
Lemma loop_prefix {A S} (f : S -> A -> option S) (P : list A -> S -> Prop) l s : P [] s ->
  (forall pre a suf s, l = pre ++ a :: suf -> P pre s -> exists s', f s a = Some s' /\ P (pre ++ [a]) s') ->
  exists s', loop f s l = Some s' /\ P l s'.
Proof.
  intros H0 Hstep. enough (G : forall suf pre s, l = pre ++ suf -> P pre s -> exists s', loop f s suf = Some s' /\ P l s').
  { by apply (G l []). }
  induction suf as [|a suf IH]; intros pre s1 -> HP; cbn; [exists s1; by rewrite app_nil_r|].
  destruct (Hstep pre a suf s1 eq_refl HP) as (s2 & E & HP2). rewrite E. cbn. apply (IH (pre ++ [a])); [by rewrite <- app_assoc|done].
Qed.

(** The same from the last element to the first. *)
Lemma loop_suffix {A S} (f : S -> A -> option S) (P : list A -> S -> Prop) l s : P [] s ->
  (forall pre a suf s, l = pre ++ a :: suf -> P suf s -> exists s', f s a = Some s' /\ P (a :: suf) s') ->
  exists s', loop f s (reverse l) = Some s' /\ P l s'.
Proof.
  intros H0 Hstep. destruct (loop_prefix f (fun pre s => P (reverse pre) s) (reverse l) s) as (s' & E & HP).
  - done.
  - intros pre a suf s1 El HP. apply (f_equal reverse) in El. rewrite reverse_involutive, reverse_app, reverse_cons, <- app_assoc in El.
    destruct (Hstep _ a (reverse pre) s1 El HP) as (s2 & E2 & HP2). exists s2. split; [done|]. by rewrite reverse_snoc.
  - exists s'. split; [done|]. by rewrite reverse_involutive in HP.
Qed.

(** ** Tables *)

Definition tab {A} (n : Z) (f : Z -> A) : list A := f <$> seqZ 0 n.

Lemma tab_length {A} n (f : Z -> A) : length (tab n f) = Z.to_nat n.
Proof. unfold tab. by rewrite length_fmap, length_seqZ. Qed.

Lemma tab_get {A} n (f : Z -> A) i : 0 <= i < n -> aget (tab n f) i = Some (f i).
Proof.
  intros Hi. unfold tab. rewrite aget_fmap. unfold aget. rewrite decide_True by lia. rewrite lookup_seqZ_lt by lia. cbn. do 2 f_equal. lia.
Qed.

Lemma tab_ext {A} n (f g : Z -> A) : (forall i, 0 <= i < n -> f i = g i) -> tab n f = tab n g.
Proof. intros H. unfold tab. apply list_fmap_ext. intros i x Hx. apply lookup_seqZ in Hx. apply H. lia. Qed.

Lemma tab_set {A} n (f : Z -> A) i v : 0 <= i < n -> aset (tab n f) i v = Some (tab n (fun j => if j =? i then v else f j)).
Proof.
  intros Hi. rewrite aset_Some by (rewrite tab_length; lia). f_equal. apply list_eq. intros k. unfold tab.
  destruct (decide (k = Z.to_nat i)) as [->|Hk].
  - rewrite list_lookup_insert_eq by (rewrite length_fmap, length_seqZ; lia). rewrite list_lookup_fmap, lookup_seqZ_lt by lia.
    cbn. f_equal. rewrite (proj2 (Z.eqb_eq _ _)) by lia. done.
  - rewrite list_lookup_insert_ne by done. rewrite !list_lookup_fmap. destruct (seqZ 0 n !! k) as [x|] eqn:Hx; cbn; [|done].
    apply lookup_seqZ in Hx. f_equal. rewrite (proj2 (Z.eqb_neq _ _)) by lia. done.
Qed.

Lemma zeros_tab n : zeros n = tab n (fun _ => 0).
Proof.
  unfold zeros, tab. apply list_eq. intros k. rewrite list_lookup_fmap.
  destruct (decide (k < Z.to_nat n)%nat).
  - rewrite lookup_replicate_2 by done. by rewrite lookup_seqZ_lt by lia.
  - rewrite lookup_ge_None_2 by (rewrite length_replicate; lia). by rewrite lookup_seqZ_ge by lia.
Qed.

Lemma tab_unique {A} n (l : list A) (f : Z -> A) : length l = Z.to_nat n -> (forall i, 0 <= i < n -> aget l i = Some (f i)) -> l = tab n f.
Proof.
  intros Hl H. apply list_eq. intros k. destruct (decide (k < Z.to_nat n)%nat) as [Hk|Hk].
  - specialize (H (Z.of_nat k) ltac:(lia)). rewrite aget_nat in H. rewrite H.
    pose proof (tab_get n f (Z.of_nat k) ltac:(lia)) as Ht. by rewrite aget_nat in Ht.
  - rewrite !lookup_ge_None_2; [done|rewrite tab_length; lia|lia].
Qed.

Lemma incr_tab n f i : 0 <= i < n -> 0 <= f i < 2 ^ 64 - 1 -> incr (tab n f) i = Some (tab n (fun j => if j =? i then f j + 1 else f j)).
Proof.
  intros Hi Hf. unfold incr. rewrite tab_get by done. cbn. rewrite u64_small by lia. rewrite tab_set by done.
  f_equal. apply tab_ext. intros j _. by destruct (Z.eqb_spec j i) as [->|].
Qed.

Lemma add_at_tab n f i d : 0 <= i < n -> 0 <= f i + d < 2 ^ 64 -> add_at (tab n f) i d = Some (tab n (fun j => if j =? i then f j + d else f j)).
Proof.
  intros Hi Hf. unfold add_at. rewrite tab_get by done. cbn. rewrite u64_small by lia. rewrite tab_set by done.
  f_equal. apply tab_ext. intros j _. by destruct (Z.eqb_spec j i) as [->|].
Qed.

(** ** Buckets *)

Section buckets.
Context {A : Type}.
Implicit Types (E : list (Z * A)).

Definition bucket (x : Z) E : list A := (filter (fun e => fst e = x) E).*2.
Definition cnt (x : Z) E : Z := Z.of_nat (length (bucket x E)).
(** The number of arcs of the buckets before [x]. *)
Definition start (x : Z) E : Z := Z.of_nat (length (filter (fun e => fst e < x) E)).

Lemma bucket_app x E1 E2 : bucket x (E1 ++ E2) = bucket x E1 ++ bucket x E2.
Proof. unfold bucket. by rewrite filter_app, fmap_app. Qed.

Lemma bucket_cons x e E : bucket x (e :: E) = if decide (fst e = x) then snd e :: bucket x E else bucket x E.
Proof. unfold bucket. rewrite filter_cons. by case_decide. Qed.

Lemma cnt_app x E1 E2 : cnt x (E1 ++ E2) = cnt x E1 + cnt x E2.
Proof. unfold cnt. rewrite bucket_app, length_app. lia. Qed.

Lemma cnt_cons x e E : cnt x (e :: E) = (if x =? fst e then 1 else 0) + cnt x E.
Proof. unfold cnt. rewrite bucket_cons. case_decide as H; destruct (Z.eqb_spec x (fst e)); cbn [length]; try lia; congruence. Qed.

Lemma cnt_nonneg x E : 0 <= cnt x E.
Proof. unfold cnt. lia. Qed.

Lemma cnt_le x E : cnt x E <= Z.of_nat (length E).
Proof. unfold cnt, bucket. rewrite length_fmap. pose proof (length_filter (fun e : Z * A => fst e = x) E). lia. Qed.

Lemma start_cons x e E : start x (e :: E) = (if fst e <? x then 1 else 0) + start x E.
Proof. unfold start. rewrite filter_cons. case_decide; destruct (Z.ltb_spec (fst e) x); cbn [length]; lia. Qed.

Lemma start_succ x E : start (x + 1) E = start x E + cnt x E.
Proof.
  induction E as [|e E IH]; [done|]. rewrite !start_cons, cnt_cons, IH.
  destruct (Z.ltb_spec (fst e) (x + 1)), (Z.ltb_spec (fst e) x), (Z.eqb_spec x (fst e)); lia.
Qed.

Lemma start_le x y E : x <= y -> start x E <= start y E.
Proof.
  intros H. induction E as [|e E IH]; [done|]. rewrite !start_cons.
  destruct (Z.ltb_spec (fst e) x), (Z.ltb_spec (fst e) y); lia.
Qed.

Lemma start_nonneg x E : 0 <= start x E.
Proof. unfold start. lia. Qed.

Lemma start_zero E : (forall e, e ∈ E -> 0 <= fst e) -> start 0 E = 0.
Proof.
  intros H. unfold start. rewrite filter_none; [done|]. apply Forall_forall. intros e He. specialize (H e He). lia.
Qed.

Lemma start_all n E : (forall e, e ∈ E -> fst e < n) -> start n E = Z.of_nat (length E).
Proof.
  intros H. induction E as [|e E IH]; [done|]. rewrite start_cons, IH by (intros; apply H; by right).
  specialize (H e ltac:(left)). destruct (Z.ltb_spec (fst e) n); cbn [length]; lia.
Qed.

Lemma start_total x E : start x E <= Z.of_nat (length E).
Proof. unfold start. pose proof (length_filter (fun e : Z * A => fst e < x) E). lia. Qed.

(** ** Scattering *)

Lemma slice_insert_out (l : list A) p lo hi v : 0 <= lo -> (p < lo \/ hi <= p) -> 0 <= p ->
  slice lo hi (<[Z.to_nat p := v]> l) = slice lo hi l.
Proof.
  intros H1 H2 H3. unfold slice. apply list_eq. intros k. destruct (decide (k < Z.to_nat (hi - lo))%nat) as [Hk|Hk].
  - rewrite !lookup_take_lt by done. rewrite !lookup_drop. rewrite list_lookup_insert_ne by lia. done.
  - rewrite !lookup_take_ge by lia. done.
Qed.

Lemma slice_insert_end (l : list A) lo p v : 0 <= lo <= p -> p < Z.of_nat (length l) ->
  slice lo (p + 1) (<[Z.to_nat p := v]> l) = slice lo p l ++ [v].
Proof.
  intros H1 H2. unfold slice. replace (Z.to_nat (p + 1 - lo)) with (S (Z.to_nat (p - lo))) by lia.
  assert (Hv : drop (Z.to_nat lo) (<[Z.to_nat p := v]> l) !! Z.to_nat (p - lo) = Some v).
  { rewrite lookup_drop. replace (Z.to_nat lo + Z.to_nat (p - lo))%nat with (Z.to_nat p) by lia. apply list_lookup_insert_eq. lia. }
  rewrite (take_S_r _ _ _ Hv). f_equal. pose proof (slice_insert_out l p lo p v) as H. unfold slice in H. apply H; lia.
Qed.

Lemma slice_insert_start (l : list A) hi p v : 0 <= p < hi -> hi <= Z.of_nat (length l) ->
  slice p hi (<[Z.to_nat p := v]> l) = v :: slice (p + 1) hi l.
Proof.
  intros H1 H2. assert (Hv : <[Z.to_nat p := v]> l !! Z.to_nat p = Some v) by (apply list_lookup_insert_eq; lia).
  rewrite <- (slice_insert_out l p (p + 1) hi v) by lia. unfold slice.
  rewrite (drop_S _ _ _ Hv). replace (Z.to_nat (hi - p)) with (S (Z.to_nat (hi - (p + 1)))) by lia. cbn [take].
  by replace (Z.to_nat (p + 1)) with (S (Z.to_nat p)) by lia.
Qed.

(** The buckets of [E] after the arcs [pre] were stored with rising cursors. *)
Definition placed E pre (l : list A) : Prop :=
  length l = length E /\ forall x, slice (start x E) (start x E + cnt x pre) l = bucket x pre.

Lemma placed_nil E (l : list A) : length l = length E -> placed E [] l.
Proof. intros H. split; [done|]. intros x. unfold slice, cnt. cbn. by rewrite Z.add_0_r, Z.sub_diag. Qed.

Lemma placed_step E pre y v suf l : E = pre ++ (y, v) :: suf -> placed E pre l ->
  0 <= start y E + cnt y pre < Z.of_nat (length E) /\
  placed E (pre ++ [(y, v)]) (<[Z.to_nat (start y E + cnt y pre) := v]> l).
Proof.
  intros HE [Hl HP]. set (p := start y E + cnt y pre).
  assert (Hp : p < start (y + 1) E).
  { assert (Hc : cnt y E = cnt y pre + (1 + cnt y suf)) by (rewrite HE at 1; rewrite cnt_app, cnt_cons; cbn [fst]; by rewrite Z.eqb_refl).
    rewrite start_succ. pose proof (cnt_nonneg y suf). unfold p. lia. }
  assert (Hin : 0 <= p < Z.of_nat (length E)).
  { pose proof (start_total (y + 1) E). pose proof (start_nonneg y E). pose proof (cnt_nonneg y pre). unfold p in *. lia. }
  split; [done|]. split; [by rewrite length_insert|]. intros x. rewrite bucket_app, cnt_app, cnt_cons. cbn [fst].
  unfold bucket at 2. rewrite filter_cons. cbn [fst]. case_decide as Hx.
  - subst x. rewrite Z.eqb_refl. change (cnt y []) with 0. cbn [filter list_filter fmap list_fmap snd].
    replace (start y E + (cnt y pre + (1 + 0))) with (p + 1) by (unfold p; lia).
    rewrite slice_insert_end; [|pose proof (start_nonneg y E); pose proof (cnt_nonneg y pre); unfold p; lia|lia]. by rewrite <- HP.
  - rewrite (proj2 (Z.eqb_neq x y)) by congruence. change (cnt x []) with 0. cbn [filter list_filter fmap list_fmap]. rewrite app_nil_r.
    rewrite slice_insert_out; [by rewrite Z.add_0_l, Z.add_0_r|apply start_nonneg| |lia].
    assert (Hcx : cnt x pre <= cnt x E) by (rewrite HE, cnt_app; pose proof (cnt_nonneg x ((y, v) :: suf)); lia).
    pose proof (start_succ x E) as Hs. destruct (decide (x < y)) as [Hlt|Hge].
    + right. pose proof (start_le (x + 1) y E ltac:(lia)). pose proof (cnt_nonneg y pre). unfold p. lia.
    + left. pose proof (start_le (y + 1) x E ltac:(lia)). lia.
Qed.

(** And after [suf] was stored from the last arc to the first with falling cursors. *)
Definition placed_down E suf (l : list A) : Prop :=
  length l = length E /\ forall x, slice (start (x + 1) E - cnt x suf) (start (x + 1) E) l = bucket x suf.

Lemma placed_down_nil E (l : list A) : length l = length E -> placed_down E [] l.
Proof. intros H. split; [done|]. intros x. unfold slice, cnt. cbn. by rewrite Z.sub_0_r, Z.sub_diag. Qed.

Lemma placed_down_step E pre y v suf l : E = pre ++ (y, v) :: suf -> placed_down E suf l ->
  0 <= start (y + 1) E - cnt y suf - 1 < Z.of_nat (length E) /\
  placed_down E ((y, v) :: suf) (<[Z.to_nat (start (y + 1) E - cnt y suf - 1) := v]> l).
Proof.
  intros HE [Hl HP]. set (p := start (y + 1) E - cnt y suf - 1).
  assert (Hp : start y E <= p).
  { pose proof (start_succ y E) as Hs. assert (Hc : cnt y E = cnt y pre + (1 + cnt y suf)).
    { rewrite HE at 1. rewrite cnt_app, cnt_cons. cbn [fst]. by rewrite Z.eqb_refl. }
    pose proof (cnt_nonneg y pre). unfold p. lia. }
  pose proof (cnt_nonneg y suf) as Hcs. pose proof (start_total (y + 1) E). pose proof (start_nonneg y E).
  split; [unfold p; lia|]. split; [by rewrite length_insert|]. intros x. rewrite cnt_cons, bucket_cons. cbn [fst snd].
  case_decide as Hx.
  - subst x. rewrite Z.eqb_refl. replace (start (y + 1) E - (1 + cnt y suf)) with p by (unfold p; lia).
    rewrite slice_insert_start by (unfold p; lia). f_equal. rewrite <- (HP y). f_equal. unfold p. lia.
  - rewrite (proj2 (Z.eqb_neq x y)) by congruence. rewrite Z.add_0_l.
    assert (Hcx : cnt x suf <= cnt x E). { rewrite HE, cnt_app, cnt_cons. pose proof (cnt_nonneg x pre). destruct (x =? fst (y, v)); lia. }
    pose proof (start_succ x E) as Hs. pose proof (start_nonneg x E).
    rewrite slice_insert_out; [apply HP|lia| |lia]. destruct (decide (x < y)) as [Hlt|Hge].
    + right. pose proof (start_le (x + 1) y E ltac:(lia)). lia.
    + left. pose proof (start_le (y + 1) x E ltac:(lia)). unfold p. lia.
Qed.
End buckets.
