(* ===== verification/CsrViews.v ===== *)
(** * Compressed sparse rows: well-formed snapshots and the reverse

    A well-formed snapshot as a function from sources to runs of slots, the loops over
    its arcs, and what [BuildReverse] makes of it. *)

From Stdlib Require Import ZArith Lia Sorted.
From stdpp Require Import list_numbers sorting.
From S2P Require Import Prelude StableSort Csr CsrRows CsrGraph CsrScatter.

Local Open Scope Z_scope.

Section views.
Context {W : Type} (zeroW : W).
Implicit Types (c : @CSR W).
Abbreviation slot := (Z * option W * option Z)%type.
Implicit Types (x y : slot).

(** [c] is a well-formed snapshot of the slots [l]. *)
Record wf (s : bool * bool) (l : list slot) c : Prop := {
  wf_rows : rows s l (arcs c);
  wf_offsets : offsets (vertices c) (Z.of_nat (length l));
  wf_first : vert (vertices c) 0 = 0;
  wf_end : vert (vertices c) (MaxNodeID c) = Z.of_nat (length l);
  wf_range : forall x, x ∈ l -> 0 <= dst x < MaxNodeID c;
  wf_ids : MaxNodeID c + 1 < 2 ^ 64;
}.

(** The sources with their slots, in the order of the arrays. *)
Definition arc_list c (l : list slot) : list (Z * slot) :=
  flat_map (fun u => pair u <$> run (vertices c) u l) (seqZ 0 (MaxNodeID c)).

Lemma max_length c s l : wf s l c -> Z.of_nat (length (vertices c)) = MaxNodeID c + 1.
Proof. intros H. pose proof (o_nonempty _ _ (wf_offsets _ _ _ H)). unfold MaxNodeID. lia. Qed.

Lemma run_split_slice {A} (verts : list Z) lo n (l : list A) : offsets verts (Z.of_nat (length l)) -> 0 <= lo -> 0 <= n ->
  lo + n < Z.of_nat (length verts) ->
  flat_map (fun u => run verts u l) (seqZ lo n) = slice (vert verts lo) (vert verts (lo + n)) l.
Proof.
  intros HO Hlo Hn. pattern n. apply natlike_ind; [| |done].
  - intros _. cbn. unfold slice. by rewrite Z.add_0_r, Z.sub_diag.
  - intros m Hm IH Hlt. unfold Z.succ. rewrite seqZ_app, flat_map_app, IH by lia.
    rewrite seqZ_cons, seqZ_nil by lia. cbn [flat_map]. rewrite app_nil_r. unfold run, slice.
    pose proof (vert_le verts _ lo (lo + m) HO ltac:(lia) ltac:(lia)) as H1.
    pose proof (o_mono _ _ HO (lo + m) ltac:(lia)) as H2. pose proof (vert_bounds verts _ lo HO ltac:(lia)) as H3.
    rewrite Z.add_assoc. replace (Z.to_nat (vert verts (lo + m + 1) - vert verts lo)) with
      (Z.to_nat (vert verts (lo + m) - vert verts lo) + Z.to_nat (vert verts (lo + m + 1) - vert verts (lo + m)))%nat by lia.
    rewrite <- take_take_drop, drop_drop. do 3 f_equal. lia.
Qed.

Lemma flat_map_snd {A B} (h : A -> list B) us : (flat_map (fun u => pair u <$> h u) us).*2 = flat_map h us.
Proof.
  induction us as [|u us IH]; cbn; [done|]. rewrite fmap_app, IH. f_equal. rewrite <- list_fmap_compose. apply list_fmap_id.
Qed.

Lemma arc_list_snd s l c : wf s l c -> (arc_list c l).*2 = l.
Proof.
  intros H. unfold arc_list. rewrite flat_map_snd. pose proof (max_length c s l H). pose proof (o_nonempty _ _ (wf_offsets _ _ _ H)).
  rewrite run_split_slice by (try apply (wf_offsets _ _ _ H); lia).
  rewrite Z.add_0_l, (wf_first _ _ _ H), (wf_end _ _ _ H). apply slice_all.
Qed.

Lemma run_in {A} (verts : list Z) u (l : list A) a : a ∈ run verts u l -> a ∈ l.
Proof. unfold run, slice. intros H. by eapply subseteq_drop, subseteq_take. Qed.

Lemma arc_list_in s l c e : wf s l c -> e ∈ arc_list c l -> 0 <= fst e < MaxNodeID c /\ snd e ∈ run (vertices c) (fst e) l.
Proof.
  intros H He. apply list_elem_of_In, in_flat_map in He as (u & Hu & He). apply list_elem_of_In in Hu, He.
  apply elem_of_seqZ in Hu. apply list_elem_of_fmap in He as (x & -> & Hx). cbn. split; [lia|done].
Qed.

(** ** Loops over the arcs *)

Lemma loop_slots {S} (f : S -> Z -> option S) (g : S -> slot -> option S) (l : list slot) lo n s :
  0 <= lo -> lo + n <= Z.of_nat (length l) ->
  (forall s k x, aget l k = Some x -> f s k = g s x) -> loop f s (seqZ lo n) = loop g s (slice lo (lo + n) l).
Proof.
  intros Hlo Hhi H. unfold slice. replace (lo + n - lo) with n by lia. destruct (decide (0 <= n)) as [Hn|Hn].
  2:{ rewrite seqZ_nil by lia. by replace (Z.to_nat n) with 0%nat by lia. }
  revert lo s Hlo Hhi. pattern n. apply natlike_ind; [done| |done]. intros m Hm IH lo s Hlo Hhi.
  destruct (aget_is_Some l lo ltac:(lia)) as [x Hx]. rewrite seqZ_cons by lia. cbn [loop].
  assert (Hl : l !! Z.to_nat lo = Some x) by by apply aget_Some in Hx as [_ Hx].
  rewrite (drop_S _ _ _ Hl). replace (Z.to_nat (Z.succ m)) with (Datatypes.S (Z.to_nat m)) by lia. cbn [take loop].
  rewrite (H _ _ _ Hx). destruct (g s x) as [s'|]; cbn; [|done].
  replace (Z.pred (Z.succ m)) with m by lia. rewrite IH by lia. by replace (Z.to_nat (Z.succ lo)) with (Datatypes.S (Z.to_nat lo)) by lia.
Qed.

Lemma for_arcs_list {S} s l c (f : S -> Z -> Z -> option S) (g : S -> Z * slot -> option S) st : wf s l c ->
  (forall st u k x, 0 <= u < MaxNodeID c -> aget l k = Some x -> f st u k = g st (u, x)) ->
  for_arcs c f st = loop g st (arc_list c l).
Proof.
  intros H Hfg. unfold for_arcs, arc_list. rewrite loop_flat_map. pose proof (max_length c s l H) as Hmax.
  replace (Z.of_nat (length (vertices c)) - 1) with (MaxNodeID c) by lia. apply loop_ext. intros st' u Hu. apply elem_of_seqZ in Hu.
  rewrite !vert_get by lia. cbn [mbind option_bind].
  pose proof (wf_offsets _ _ _ H) as HO. pose proof (vert_bounds _ _ u HO ltac:(lia)). pose proof (vert_bounds _ _ (u + 1) HO ltac:(lia)).
  rewrite (loop_slots _ (fun s x => g s (u, x)) l) by first [lia|intros; apply Hfg; [lia|done]].
  unfold run. replace (vert (vertices c) u + (vert (vertices c) (u + 1) - vert (vertices c) u)) with (vert (vertices c) (u + 1)) by lia.
  set (r := slice _ _ l). clearbody r. revert st'. induction r as [|x r IH]; intros st'; cbn; [done|]. by destruct (g st' (u, x)); cbn.
Qed.

Lemma edge_get s l c k x : wf s l c -> aget l k = Some x -> aget (edges c) k = Some (dst x).
Proof. intros H Hx. unfold edges. by rewrite (r_edges _ _ _ (wf_rows _ _ _ H)), aget_fmap, Hx. Qed.

Lemma slot_get s l c k x : wf s l c -> aget l k = Some x -> get_slot (arcs c) k = Some x.
Proof. intros H Hx. by rewrite (get_rows s l _ _ (wf_rows _ _ _ H)). Qed.

(** ** Zeroed columns *)

Lemma zero_rows n ws hs : rows (ws, hs) (replicate (Z.to_nat n) (0, if ws then Some zeroW else None, if hs then Some 0 else None) : list slot)
  (zero_cols zeroW n ws hs).
Proof.
  split; unfold shape, zero_cols, zeros; cbn; [by destruct ws, hs|by rewrite fmap_replicate| |].
  - destruct ws; cbn; [by rewrite !fmap_replicate|]. rewrite fmap_replicate. by apply Forall_replicate.
  - destruct hs; cbn; [by rewrite !fmap_replicate|]. rewrite fmap_replicate. by apply Forall_replicate.
Qed.

Lemma present_nil {A} (o : option A) : negb (is_nil o) = present o.
Proof. by destruct o. Qed.

(** A snapshot whose runs are the buckets of emitted arcs. *)
Lemma wf_of_placed s (E : list (Z * slot)) (out : list slot) (cs : cols W) n ord sz sym :
  0 <= n -> n + 1 < 2 ^ 64 -> Z.of_nat (length E) < 2 ^ 64 -> (forall e, e ∈ E -> 0 <= fst e < n) -> (forall e, e ∈ E -> 0 <= dst (snd e) < n) ->
  rows s out cs -> placed E E out ->
  wf s out (mkCSR (tab (n + 1) (fun i => start i E)) cs ord sz sym) /\
  forall v, 0 <= v < n -> run (tab (n + 1) (fun i => start i E)) v out = bucket v E.
Proof.
  intros Hn Hids Hbig Hsrc Hdst Hr [Hlen Hp]. set (c := mkCSR _ _ _ _ _).
  assert (Hmax : MaxNodeID c = n) by (unfold MaxNodeID, c; cbn; rewrite tab_length; lia).
  assert (Hv : forall i, 0 <= i <= n -> vert (vertices c) i = start i E).
  { intros i Hi. unfold vert, c. cbn [vertices]. by rewrite tab_get by lia. }
  assert (Hrun : forall v, 0 <= v < n -> run (vertices c) v out = bucket v E).
  { intros v Hv'. unfold run. rewrite !Hv, start_succ by lia. apply Hp. }
  assert (Hend : start n E = Z.of_nat (length E)) by (apply start_all; intros e He; specialize (Hsrc e He); lia).
  assert (Hlv : Z.of_nat (length (vertices c)) = n + 1) by (unfold c; cbn [vertices]; rewrite tab_length; lia).
  assert (H0 : start 0 E = 0) by (apply start_zero; intros e He; specialize (Hsrc e He); lia).
  assert (HO : offsets (vertices c) (Z.of_nat (length out))).
  { split; rewrite ?Hlv; [lia|rewrite Hv by lia; lia| | |lia].
    - intros i Hi. rewrite !Hv by lia. apply start_le. lia.
    - replace (n + 1 - 1) with n by lia. rewrite Hv by lia. lia. }
  split; [|exact Hrun]. split; [done|exact HO|by rewrite Hv by lia|rewrite Hmax, Hv by lia; by rewrite Hend, Hlen| |by rewrite Hmax].
  intros x Hx. rewrite Hmax. rewrite <- (slice_all out) in Hx.
  assert (Hfm : flat_map (fun u => run (vertices c) u out) (seqZ 0 n) = slice 0 (Z.of_nat (length out)) out).
  { rewrite run_split_slice by (try done; lia). rewrite Z.add_0_l, !Hv, H0, Hend, <- Hlen by lia. done. }
  rewrite <- Hfm in Hx. apply list_elem_of_In, in_flat_map in Hx as (u & Hu & Hx). apply list_elem_of_In in Hu, Hx.
  apply elem_of_seqZ in Hu. rewrite Hrun in Hx by lia. unfold bucket in Hx. apply list_elem_of_fmap in Hx as (e & -> & He).
  apply list_elem_of_filter in He as [_ He]. by apply Hdst.
Qed.

(** ** A snapshot is determined by its runs *)

Lemma flat_map_same {A B} (f g : A -> list B) us : (forall u, u ∈ us -> f u = g u) -> flat_map f us = flat_map g us.
Proof.
  induction us as [|u us IH]; intros Hfg; cbn; [done|]. rewrite Hfg by left. f_equal. apply IH. intros v Hv. apply Hfg. by right.
Qed.

Lemma column_inj {A} (p q : option (list A)) l : column_is p l -> column_is q l -> present p = present q -> p = q.
Proof.
  destruct p as [p|], q as [q|]; cbn; try done. intros -> E _. f_equal. by apply (inj (fmap Some)) in E.
Qed.

Lemma rows_inj s l (a b : cols W) : rows s l a -> rows s l b -> a = b.
Proof.
  intros [S1 E1 W1 H1] [S2 E2 W2 H2]. unfold shape in *. rewrite <- S1 in S2. injection S2 as P1 P2.
  destruct a as [ea wa ha], b as [eb wb hb]; cbn in *. f_equal; [congruence|by eapply column_inj|by eapply column_inj].
Qed.

Lemma run_lengths s l c i : wf s l c -> 0 <= i < MaxNodeID c ->
  vert (vertices c) (i + 1) = vert (vertices c) i + Z.of_nat (length (run (vertices c) i l)).
Proof.
  intros H Hi. pose proof (max_length c s l H) as Hm. pose proof (wf_offsets _ _ _ H) as HO.
  pose proof (vert_bounds _ _ i HO ltac:(lia)). pose proof (vert_bounds _ _ (i + 1) HO ltac:(lia)). pose proof (o_mono _ _ HO i ltac:(lia)).
  pose proof (slice_length (vert (vertices c) i) (vert (vertices c) (i + 1)) l ltac:(lia) ltac:(lia)). unfold run. lia.
Qed.

Lemma slots_ext s l l' c c' : wf s l c -> wf s l' c' -> MaxNodeID c = MaxNodeID c' ->
  (forall u, 0 <= u < MaxNodeID c -> run (vertices c) u l = run (vertices c') u l') -> l = l'.
Proof.
  intros H H' Hn Hr. rewrite <- (arc_list_snd s l c H), <- (arc_list_snd s l' c' H'). unfold arc_list. rewrite !flat_map_snd, <- Hn.
  apply flat_map_same. intros u Hu%elem_of_seqZ. apply Hr. lia.
Qed.

Lemma wf_ext s l l' c c' : wf s l c -> wf s l' c' -> MaxNodeID c = MaxNodeID c' -> order c = order c' -> size c = size c' ->
  symmetric c = symmetric c' -> (forall u, 0 <= u < MaxNodeID c -> run (vertices c) u l = run (vertices c') u l') -> c = c'.
Proof.
  intros H H' Hn Ho Hz Hsy Hr. pose proof (max_length c s l H) as Hm. pose proof (max_length c' s l' H') as Hm'.
  assert (Hv : forall i, 0 <= i -> i <= MaxNodeID c -> vert (vertices c) i = vert (vertices c') i).
  { intros i Hi. pattern i. apply natlike_ind; [| |done].
    - intros _. by rewrite (wf_first _ _ _ H), (wf_first _ _ _ H').
    - intros k Hk IH Hle. unfold Z.succ. rewrite (run_lengths s l c k H), (run_lengths s l' c' k H'), IH, Hr by lia. done. }
  assert (Hverts : vertices c = vertices c').
  { rewrite (tab_unique (MaxNodeID c + 1) (vertices c) (vert (vertices c))); [|lia|intros; apply vert_get; lia].
    rewrite (tab_unique (MaxNodeID c + 1) (vertices c') (vert (vertices c'))); [|lia|intros; apply vert_get; lia].
    apply tab_ext. intros; apply Hv; lia. }
  pose proof (slots_ext s l l' c c' H H' Hn Hr) as Hl.
  subst l'. destruct c, c'; cbn in *. f_equal; try done. eapply rows_inj; [apply (wf_rows _ _ _ H)|apply (wf_rows _ _ _ H')].
Qed.

(** ** Ordering a well-formed snapshot *)

Lemma in_some_run s l c x : wf s l c -> x ∈ l -> exists u, 0 <= u < MaxNodeID c /\ x ∈ run (vertices c) u l.
Proof.
  intros H Hx. rewrite <- (arc_list_snd s l c H) in Hx. unfold arc_list in Hx. rewrite flat_map_snd in Hx.
  apply list_elem_of_In, in_flat_map in Hx as (u & Hu & Hx). apply list_elem_of_In in Hu, Hx. apply elem_of_seqZ in Hu.
  exists u. split; [lia|done].
Qed.

Lemma order_wf s l c sym : wf s l c -> exists out l', OrderRuns (vertices c) (arcs c) = Some out /\
  wf s l' (mkCSR (vertices c) out (order c) (size c) sym) /\
  forall v, 0 <= v < MaxNodeID c -> stable_sort_of slot_lt (run (vertices c) v l) (run (vertices c) v l').
Proof.
  intros H. pose proof (max_length c s l H) as Hm.
  destruct (OrderRuns_rows s (vertices c) l (arcs c) (wf_offsets _ _ _ H) (wf_rows _ _ _ H)) as (out & l' & E1 & Hr & Hlen & _ & _ & Hsort).
  replace (Z.of_nat (length (vertices c)) - 1) with (MaxNodeID c) in Hsort by lia.
  exists out, l'. split; [done|]. split; [|exact Hsort]. set (r := mkCSR _ _ _ _ _).
  assert (Hfull : (forall x, x ∈ l' -> exists u, 0 <= u < MaxNodeID c /\ x ∈ run (vertices c) u l')).
  { intros x Hx. assert (HO : offsets (vertices c) (Z.of_nat (length l'))) by (rewrite Hlen; apply (wf_offsets _ _ _ H)).
    assert (Hfm : flat_map (fun u => run (vertices c) u l') (seqZ 0 (MaxNodeID c)) = l').
    { rewrite run_split_slice by (try done; unfold MaxNodeID in *; lia).
      rewrite Z.add_0_l, (wf_first _ _ _ H), (wf_end _ _ _ H), <- Hlen. apply slice_all. }
    rewrite <- Hfm in Hx. apply list_elem_of_In, in_flat_map in Hx as (u & Hu & Hx). apply list_elem_of_In in Hu, Hx.
    apply elem_of_seqZ in Hu. exists u. split; [lia|done]. }
  split; cbn [r arcs vertices]; unfold MaxNodeID in *; cbn [r vertices]; rewrite ?Hlen; try apply H; [done|].
  intros x Hx. destruct (Hfull x Hx) as (u & Hu & Hxu). apply (wf_range _ _ _ H).
  destruct (Hsort u Hu) as [_ F]. eapply run_in, (in_class slot_lt); [|exact Hxu]. intros j. symmetry. apply F.
Qed.
End views.

(** * Compressed sparse rows: the reverse snapshot

    [BuildReverse] puts every arc, weight and handle included, in the run of its
    destination, sources ascending; ordered runs stay ordered, and reversing twice
    gives an ordered snapshot back. *)

Local Open Scope Z_scope.

Section reverse.
Context {W : Type} (zeroW : W).
Implicit Types (c : @CSR W).
Abbreviation slot := (Z * option W * option Z)%type.
Implicit Types (x y : slot).

(** The slot of the reverse of an arc, with its bucket. *)
Definition flip (e : Z * slot) : Z * slot := (dst (snd e), (fst e, wt (snd e), hd (snd e))).

Definition rev_list c (l : list slot) : list (Z * slot) := flip <$> arc_list c l.

Section build.
Context (s : bool * bool) (l : list slot) (c : @CSR W) (H : wf s l c).
Abbreviation n := (MaxNodeID c).
Abbreviation E := (rev_list c l).

Lemma rev_list_length : length E = length l.
Proof using H. unfold rev_list. rewrite length_fmap, <- (length_fmap snd). by rewrite (arc_list_snd s l c H). Qed.

Lemma rev_list_in e : e ∈ E -> 0 <= fst e < n /\ 0 <= dst (snd e) < n.
Proof using H.
  intros He. apply list_elem_of_fmap in He as (a & -> & Ha). apply (arc_list_in s l c a H) in Ha as [H1 H2].
  unfold flip. cbn. split; [|done]. apply (wf_range _ _ _ H). by eapply run_in.
Qed.

Lemma rev_big : Z.of_nat (length E) < 2 ^ 64.
Proof using H. rewrite rev_list_length. apply (o_total _ _ (wf_offsets _ _ _ H)). Qed.

Lemma arc_range pre e suf : arc_list c l = pre ++ e :: suf -> 0 <= fst e < n /\ 0 <= dst (snd e) < n /\ fits s (snd e).
Proof using H.
  intros Ha. assert (He : e ∈ arc_list c l) by (rewrite Ha, elem_of_app; right; left).
  apply (arc_list_in s l c e H) in He as [H1 H2]. apply run_in in H2. split; [done|]. split; [by apply (wf_range _ _ _ H)|].
  pose proof (rows_fits s l _ (wf_rows _ _ _ H)) as F. rewrite Forall_forall in F. by apply F.
Qed.

Lemma rev_prefix pre e suf : arc_list c l = pre ++ e :: suf -> E = (flip <$> pre) ++ flip e :: (flip <$> suf).
Proof. intros Ha. unfold rev_list. by rewrite Ha, fmap_app. Qed.

Lemma prefix_cnt pre e suf v : arc_list c l = pre ++ e :: suf -> 0 <= cnt v (flip <$> pre) < 2 ^ 64 - 1.
Proof using H.
  intros Ha. pose proof (cnt_le v (flip <$> pre)) as H1. pose proof (cnt_nonneg v (flip <$> pre)). pose proof rev_big as H2.
  rewrite (rev_prefix pre e suf Ha), length_app in H2. cbn [length] in H2. lia.
Qed.

Lemma rev_counts_val : rev_counts n c = Some (tab (n + 1) (fun i => cnt (i - 1) E)).
Proof using H.
  unfold rev_counts. rewrite (for_arcs_list s l c _ (fun d e => incr d (u64 (dst (snd e) + 1))) _ H).
  2:{ intros st u k x _ Hx. by rewrite (edge_get s l c k x H Hx). }
  destruct (loop_prefix (fun d e => incr d (u64 (dst (snd e) + 1)))
    (fun pre d => d = tab (n + 1) (fun i => cnt (i - 1) (flip <$> pre))) (arc_list c l) (zeros (n + 1))) as (d & E1 & ->).
  - apply zeros_tab.
  - intros pre e suf d Ha ->. destruct (arc_range pre e suf Ha) as (H1 & H2 & _).
    pose proof (wf_ids _ _ _ H). pose proof (prefix_cnt pre e suf (dst (snd e)) Ha).
    rewrite u64_small by lia. eexists. split; [apply incr_tab; [lia|]|].
    + replace (dst (snd e) + 1 - 1) with (dst (snd e)) by lia. lia.
    + apply tab_ext. intros i Hi. rewrite fmap_app, cnt_app. cbn [fmap list_fmap]. rewrite cnt_cons. cbn [fst flip].
      change (cnt _ []) with 0. destruct (Z.eqb_spec i (dst (snd e) + 1)), (Z.eqb_spec (i - 1) (dst (snd e))); lia.
  - by rewrite E1.
Qed.

Lemma rev_offsets_val : rev_offsets n (tab (n + 1) (fun i => cnt (i - 1) E)) = Some (tab (n + 1) (fun i => start i E)).
Proof using H.
  pose proof rev_big as Hbig. assert (Hn : 0 <= n) by (unfold MaxNodeID; lia). unfold rev_offsets.
  destruct (loop_seqZ (fun r i => a ← aget r (i - 1); b ← aget (tab (n + 1) (fun i => cnt (i - 1) E)) i; aset r i (u64 (a + b)))
    (fun i r => r = tab (n + 1) (fun j => if j <? i then start j E else 0)) 1 n (zeros (n + 1))) as (r & E1 & ->).
  - done.
  - rewrite zeros_tab. apply tab_ext. intros i Hi. destruct (Z.ltb_spec i 1); [|done]. replace i with 0 by lia.
    symmetry. apply start_zero. intros e He. by apply rev_list_in.
  - intros i r Hi ->. rewrite !tab_get by lia. cbn [mbind option_bind]. rewrite (proj2 (Z.ltb_lt _ _)) by lia.
    eexists. split; [apply tab_set; lia|]. apply tab_ext. intros j Hj.
    pose proof (start_succ (i - 1) E) as Hs. replace (i - 1 + 1) with i in Hs by lia.
    pose proof (start_total i E). pose proof (start_nonneg i E). rewrite u64_small by lia.
    destruct (Z.eqb_spec j i) as [->|]; [rewrite (proj2 (Z.ltb_lt _ _)) by lia; lia|].
    destruct (Z.ltb_spec j i), (Z.ltb_spec j (i + 1)); try lia; done.
  - rewrite E1. f_equal. apply tab_ext. intros i Hi. by rewrite (proj2 (Z.ltb_lt _ _)) by lia.
Qed.

Lemma rev_scatter_val out0 cs0 : rows s out0 cs0 -> length out0 = length E ->
  exists cs out, for_arcs c (rev_scatter (tab (n + 1) (fun i => start i E)) c) (cs0, zeros n) =
    Some (cs, tab n (fun v => cnt v E)) /\ rows s out cs /\ placed E E out.
Proof using H.
  intros Hr0 Hl0. rewrite (for_arcs_list s l c _ (fun st e =>
    base ← aget (tab (n + 1) (fun i => start i E)) (dst (snd e)); cu ← aget (snd st) (dst (snd e));
    rev' ← set_slot (fst st) (u64 (base + cu)) (snd (flip e)); cursor' ← incr (snd st) (dst (snd e)); Some (rev', cursor')) _ H).
  2:{ intros st u k x _ Hx. unfold rev_scatter. rewrite (edge_get s l c k x H Hx), (slot_get s l c k x H Hx). cbn. done. }
  destruct (loop_prefix (fun st e =>
    base ← aget (tab (n + 1) (fun i => start i E)) (dst (snd e)); cu ← aget (snd st) (dst (snd e));
    rev' ← set_slot (fst st) (u64 (base + cu)) (snd (flip e)); cursor' ← incr (snd st) (dst (snd e)); Some (rev', cursor'))
    (fun pre st => exists out, rows s out (fst st) /\ placed E (flip <$> pre) out /\ snd st = tab n (fun v => cnt v (flip <$> pre)))
    (arc_list c l) (cs0, zeros n)) as ([cs cur] & E1 & out & Hr & Hp & Hcur).
  - exists out0. split; [done|]. split; [by apply placed_nil|]. apply zeros_tab.
  - intros pre e suf [cs cur] Ha (out & Hr & Hp & Hcur). cbn [fst snd] in *. subst cur.
    destruct (arc_range pre e suf Ha) as (H1 & H2 & H3). pose proof (prefix_cnt pre e suf (dst (snd e)) Ha) as Hc.
    rewrite !tab_get by lia. cbn [mbind option_bind].
    assert (HE : E = (flip <$> pre) ++ (dst (snd e), snd (flip e)) :: (flip <$> suf)) by by apply rev_prefix.
    destruct (placed_step E _ _ _ _ out HE Hp) as [Hin Hp']. pose proof rev_big. rewrite u64_small by lia.
    destruct (set_rows s out cs (start (dst (snd e)) E + cnt (dst (snd e)) (flip <$> pre)) (snd (flip e)) Hr) as (cs' & Es & Hr');
      [exact H3|by rewrite (proj1 Hp)|]. rewrite Es. cbn [mbind option_bind]. rewrite incr_tab by lia. cbn [mbind option_bind].
    eexists. split; [done|]. cbn [fst snd]. eexists. split; [exact Hr'|]. rewrite fmap_app. split; [exact Hp'|].
    apply tab_ext. intros v Hv. rewrite cnt_app. cbn [fmap list_fmap]. rewrite cnt_cons. change (cnt v []) with 0. cbn [fst flip].
    destruct (v =? dst (snd e)); lia.
  - cbn [fst snd] in *. subst cur. exists cs, out. split; [exact E1|]. by split.
Qed.

(** What [BuildReverse] returns. *)
Lemma BuildReverse_val : symmetric c = false -> 0 < n ->
  exists r out, BuildReverse zeroW c = Some r /\ wf s out r /\ MaxNodeID r = n /\ symmetric r = false /\
    order r = order c /\ size r = size c /\ (forall i, 0 <= i <= n -> vert (vertices r) i = start i E) /\
    forall v, 0 <= v < n -> run (vertices r) v out = bucket v E.
Proof using H.
  intros Hs Hn. unfold BuildReverse. rewrite Hs, (proj2 (Z.eqb_neq n 0)) by lia.
  rewrite rev_counts_val. cbn [mbind option_bind]. rewrite rev_offsets_val. cbn [mbind option_bind]. rewrite tab_get by lia. cbn [mbind option_bind].
  assert (Hend : start n E = Z.of_nat (length E)) by (apply start_all; intros e He; apply rev_list_in in He; lia).
  rewrite !present_nil. assert (Hshape : (present (weights c), present (handles c)) = s) by apply (wf_rows _ _ _ H).
  pose proof (zero_rows zeroW (start n E) (present (weights c)) (present (handles c))) as Hz. rewrite Hshape in Hz.
  destruct (rev_scatter_val _ _ Hz) as (cs & out & Es & Hr & Hp); [rewrite length_replicate; lia|].
  rewrite Es. cbn [mbind option_bind fst].
  destruct (wf_of_placed s E out cs n (order c) (size c) false) as [Hwf Hrun]; try done.
  - lia.
  - apply (wf_ids _ _ _ H).
  - apply rev_big.
  - intros e He. by apply rev_list_in.
  - intros e He. by apply rev_list_in.
  - eexists _, out. split; [done|]. split; [exact Hwf|]. split; [unfold MaxNodeID; cbn [vertices]; rewrite tab_length; unfold MaxNodeID; lia|].
    split; [done|]. split; [done|]. split; [done|]. split; [|exact Hrun].
    intros i Hi. unfold vert. cbn [vertices]. by rewrite tab_get by lia.
Qed.
End build.

(** ** The runs of the reverse *)

(** The arcs into [v], by ascending source. *)
Definition into (verts : list Z) (n v : Z) (l : list slot) : list slot :=
  flat_map (fun u => (fun x => (u, wt x, hd x)) <$> filter (fun x => dst x = v) (run verts u l)) (seqZ 0 n).

Lemma bucket_flip v (r : Z -> list slot) us :
  bucket v (flip <$> flat_map (fun u => pair u <$> r u) us) =
  flat_map (fun u => (fun x => (u, wt x, hd x)) <$> filter (fun x => dst x = v) (r u)) us.
Proof.
  induction us as [|u us IH]; [done|]. cbn [flat_map]. rewrite fmap_app, bucket_app, IH. f_equal. clear IH.
  induction (r u) as [|x R IHr]; [done|]. rewrite !fmap_cons, bucket_cons, filter_cons, IHr. cbn [flip fst snd].
  repeat case_decide; done.
Qed.

Lemma reverse_runs s l c : wf s l c -> symmetric c = false -> 0 < MaxNodeID c ->
  exists r out, BuildReverse zeroW c = Some r /\ wf s out r /\ MaxNodeID r = MaxNodeID c /\ symmetric r = false /\
    order r = order c /\ size r = size c /\
    forall v, 0 <= v < MaxNodeID c -> run (vertices r) v out = into (vertices c) (MaxNodeID c) v l.
Proof.
  intros H Hs Hn. destruct (BuildReverse_val s l c H Hs Hn) as (r & out & H1 & H2 & H3 & H4 & H5 & H6 & _ & H7).
  exists r, out. repeat (split; [done|]). intros v Hv. rewrite H7 by done. apply bucket_flip.
Qed.

(** ** Order *)

Definition runs_ordered (verts : list Z) (n : Z) (l : list slot) : Prop :=
  forall u, 0 <= u < n -> ordered slot_lt (run verts u l).

Lemma ordered_filter {A} (lt : A -> A -> bool) (P : A -> Prop) `{forall a, Decision (P a)} (R : list A) :
  ordered lt R -> ordered lt (filter P R).
Proof.
  induction 1 as [|x R Hs IH Hx]; [constructor|]. rewrite filter_cons. case_decide; [|done]. constructor; [done|].
  rewrite Forall_forall in *. intros y Hy. apply list_elem_of_filter in Hy as [_ Hy]. by apply Hx.
Qed.

Lemma slot_le_dst x y : le slot_lt x y -> dst x <= dst y.
Proof. unfold le, slot_lt, lessKey. destruct (Z.eqb_spec (dst y) (dst x)); [lia|]. rewrite Z.ltb_ge. lia. Qed.

Lemma ordered_from (v u : Z) (R : list slot) : ordered slot_lt R ->
  ordered slot_lt ((fun x => (u, wt x, hd x)) <$> filter (fun x => dst x = v) R).
Proof.
  induction 1 as [|x R HR IH Hx]; [constructor|]. rewrite filter_cons. case_decide as Hd; [|done]. rewrite fmap_cons.
  constructor; [done|]. rewrite Forall_forall in *. intros y Hy. apply list_elem_of_fmap in Hy as (z & -> & Hz).
  apply list_elem_of_filter in Hz as [Hzd Hz]. specialize (Hx z Hz). unfold le, slot_lt, lessKey in *. cbn. rewrite Z.eqb_refl.
  by rewrite Hzd, Hd, Z.eqb_refl in Hx.
Qed.

Lemma into_ordered verts n v l : runs_ordered verts n l -> ordered slot_lt (into verts n v l).
Proof.
  intros HR. unfold into. destruct (decide (0 <= n)) as [Hn|]; [|by rewrite seqZ_nil by lia; constructor].
  enough (G : forall m, 0 <= m -> m <= n ->
    ordered slot_lt (flat_map (fun u => (fun x => (u, wt x, hd x)) <$> filter (fun x => dst x = v) (run verts u l)) (seqZ 0 m))).
  { by apply G. }
  intros m Hm. pattern m. apply natlike_ind; [intros _; constructor| |done].
  intros k Hk IH Hkn. unfold Z.succ. rewrite seqZ_app, flat_map_app by lia. rewrite (seqZ_cons (0 + k) 1), (seqZ_nil (Z.succ (0 + k))) by lia.
  cbn [flat_map]. rewrite app_nil_r. apply StronglySorted_app_2; [|apply IH; lia|apply ordered_from, HR; lia].
  intros x y Hx Hy. apply list_elem_of_In, in_flat_map in Hx as (u & Hu & Hx). apply list_elem_of_In in Hu, Hx. apply elem_of_seqZ in Hu.
  apply list_elem_of_fmap in Hx as (x' & -> & _). apply list_elem_of_fmap in Hy as (y' & -> & _).
  unfold le, slot_lt, lessKey. cbn [dst fst]. destruct (Z.eqb_spec (0 + k) u); [lia|apply Z.ltb_ge; lia].
Qed.

(** ** Reversing twice *)

Lemma by_destination (n : Z) (R : list slot) : ordered slot_lt R -> (forall x, x ∈ R -> 0 <= dst x < n) ->
  flat_map (fun v => filter (fun x => dst x = v) R) (seqZ 0 n) = R.
Proof.
  intros HR Hd. destruct (decide (0 <= n)) as [Hn|].
  2:{ rewrite seqZ_nil by lia. destruct R as [|x R]; [done|]. specialize (Hd x ltac:(left)). lia. }
  assert (G : flat_map (fun v => filter (fun x => dst x = v) R) (seqZ 0 n) = filter (fun x => dst x < n) R).
  { pattern n. apply natlike_ind; [| |done].
    - cbn. symmetry. apply filter_none, Forall_forall. intros x Hx. specialize (Hd x Hx). lia.
    - intros m Hm IH. unfold Z.succ. rewrite seqZ_app, flat_map_app, IH by lia. rewrite seqZ_cons, seqZ_nil by lia.
      cbn [flat_map]. rewrite app_nil_r, Z.add_0_l. clear IH Hd. induction HR as [|x R HR IH Hx]; [done|]. rewrite !filter_cons.
      rewrite Forall_forall in Hx. assert (Hge : forall y, y ∈ R -> dst x <= dst y) by (intros; apply slot_le_dst; auto).
      repeat case_decide; try lia; cbn [app]; try by rewrite IH.
      rewrite (filter_none (fun y => dst y < m)) by (apply Forall_forall; intros y Hy; specialize (Hge y Hy); lia).
      rewrite (filter_none (fun y => dst y < m)) in IH by (apply Forall_forall; intros y Hy; specialize (Hge y Hy); lia).
      cbn [app] in *. by rewrite IH. }
  rewrite G. apply filter_all, Forall_forall. intros x Hx. by apply Hd.
Qed.

Lemma filter_one {A B} (P : B -> Prop) `{forall b, Decision (P b)} (g : A -> list B) us (u : A) : NoDup us -> u ∈ us ->
  (forall v b, b ∈ g v -> P b <-> v = u) -> filter P (flat_map g us) = g u.
Proof.
  intros Hn Hu HP. induction Hn as [|v us Hv Hn IH]; [by apply elem_of_nil in Hu|]. cbn [flat_map]. rewrite filter_app.
  assert (Hnone : forall w, w <> u -> filter P (g w) = []).
  { intros w Hw. apply filter_none, Forall_forall. intros b Hb. by rewrite (HP w b Hb). }
  apply elem_of_cons in Hu as [->|Hu].
  - rewrite filter_all by (apply Forall_forall; intros b Hb; by apply (HP v b Hb)).
    rewrite (filter_none P (flat_map g us)), app_nil_r; [done|]. apply Forall_forall. intros b Hb Hpb.
    apply list_elem_of_In, in_flat_map in Hb as (w & Hw & Hb). apply list_elem_of_In in Hw, Hb. apply (HP w b Hb) in Hpb. congruence.
  - rewrite Hnone by congruence. by apply IH.
Qed.

Lemma slot_eta x : (dst x, wt x, hd x) = x.
Proof. by destruct x as [[? ?] ?]. Qed.

Lemma into_twice verts n (l : list slot) (g : Z -> list slot) u : 0 <= u < n -> ordered slot_lt (run verts u l) ->
  (forall x, x ∈ run verts u l -> 0 <= dst x < n) -> (forall v, 0 <= v < n -> g v = into verts n v l) ->
  flat_map (fun v => (fun y => (v, wt y, hd y)) <$> filter (fun y => dst y = u) (g v)) (seqZ 0 n) = run verts u l.
Proof.
  intros Hu Ho Hd Hg. rewrite <- (by_destination n (run verts u l) Ho Hd) at 1. apply flat_map_same. intros v Hv%elem_of_seqZ.
  rewrite Hg by lia. unfold into. rewrite (filter_one (fun y : slot => dst y = u) _ _ u).
  - rewrite <- list_fmap_compose. pose proof (list_elem_of_filter (fun x : slot => dst x = v) (run verts u l)) as Hf.
    assert (Hfd : forall x, x ∈ filter (fun x => dst x = v) (run verts u l) -> dst x = v) by (intros x [Hx _]%list_elem_of_filter; done).
    revert Hfd. generalize (filter (fun x => dst x = v) (run verts u l)). intros R HR. clear Hf.
    induction R as [|x R IH]; [done|]. rewrite fmap_cons, IH by (intros; apply HR; by right). f_equal.
    cbn. rewrite <- (HR x) by left. apply slot_eta.
  - apply NoDup_seqZ.
  - apply elem_of_seqZ. lia.
  - intros w b Hb. apply list_elem_of_fmap in Hb as (x & -> & _). done.
Qed.

Lemma reverse_twice s l c : wf s l c -> symmetric c = false -> 0 < MaxNodeID c -> runs_ordered (vertices c) (MaxNodeID c) l ->
  exists r, BuildReverse zeroW c = Some r /\ BuildReverse zeroW r = Some c.
Proof.
  intros H Hs Hn Ho. destruct (reverse_runs s l c H Hs Hn) as (r & out & H1 & H2 & H3 & H4 & H5 & H6 & H7).
  destruct (reverse_runs s out r H2 H4 ltac:(lia)) as (r2 & out2 & K1 & K2 & K3 & K4 & K5 & K6 & K7).
  exists r. split; [done|]. rewrite K1. f_equal. symmetry. apply (wf_ext s l out2 c r2 H K2); try congruence.
  intros u Hu. rewrite K7 by lia. rewrite H3. unfold into at 1. symmetry.
  apply into_twice; [done|by apply Ho| |by intros; apply H7]. intros x Hx. apply (wf_range _ _ _ H). by eapply run_in.
Qed.
End reverse.
