(* ===== verification/CsrBuild.v ===== *)
(** * Compressed sparse rows: the builds from an adjacency

    Over an adjacency that does not change between the two passes, [buildFromAdjList]
    returns a well-formed snapshot whose run of every node is the stable rearrangement
    of the node's live entry by destination and handle, with or without the filter. *)

From Stdlib Require Import ZArith Lia Sorted.
From stdpp Require Import list_numbers sorting.
From S2P Require Import Prelude StableSort Csr CsrRows CsrGraph CsrScatter CsrViews.

Local Open Scope Z_scope.

Section build.
Context {W : Type} (zeroW : W) (hasWeights : bool).
Abbreviation slot := (Z * option W * option Z)%type.
Implicit Types (x y : slot) (e : entry (W := W)) (a : adjacency (W := W)).

(** ** What an entry stands for *)

(** The columns of an entry agree. *)
Definition entry_ok (ws : bool) e : Prop :=
  (ws = true -> length (ews e) = length (nbs e)) /\ (forall h, ehs e = Some h -> length h = length (nbs e)).

Definition slot_at (ws hs : bool) e (j : nat) (d : Z) : slot :=
  (d, if ws then Some (default zeroW (ews e !! j)) else None,
   if hs then Some (default 0 (default [] (ehs e) !! j)) else None).

Definition entry_slots (ws hs : bool) e : list slot := imap (slot_at ws hs e) (nbs e).

(** The slots of node [id] that survive the filter. *)
Definition node_slots (live : Z -> bool) (ws hs : bool) (id : Z) e : list slot :=
  filter (fun x => live id && live (dst x) = true) (entry_slots ws hs e).

Definition zero_slot (ws hs : bool) : slot := (0, if ws then Some zeroW else None, if hs then Some 0 else None).

(** The nodes' slots, one after the other. *)
Definition all_slots (live : Z -> bool) (ws hs : bool) (get : Z -> entry) (n : Z) : list (Z * slot) :=
  flat_map (fun id => pair id <$> node_slots live ws hs id (get id)) (seqZ 0 n).

Definition any_handles (live : Z -> bool) (get : Z -> entry (W := W)) (n : Z) : bool :=
  existsb (fun id => live id && negb (is_nil (ehs (get id)))) (seqZ 0 n).

Lemma bucket_nodes (r : Z -> list slot) us v : NoDup us ->
  bucket v (flat_map (fun u => pair u <$> r u) us) = if decide (v ∈ us) then r v else [].
Proof.
  assert (Hone : forall u, bucket v (pair u <$> r u) = if decide (u = v) then r v else []).
  { intros u. case_decide as Hu; [subst|]; (induction (r _) as [|x R IH]; [done|]); rewrite fmap_cons, bucket_cons; cbn [fst snd].
    - rewrite decide_True by done. by rewrite IH.
    - by rewrite decide_False. }
  induction 1 as [|u us Hu Hn IH]; [by rewrite decide_False by apply not_elem_of_nil|]. cbn [flat_map].
  rewrite bucket_app, IH, Hone. destruct (decide (u = v)) as [->|Hne].
  - rewrite (decide_False (P := v ∈ us)), (decide_True (P := v ∈ v :: us)) by (done || by left). apply app_nil_r.
  - cbn [app]. destruct (decide (v ∈ us)) as [H1|H1], (decide (v ∈ u :: us)) as [H2|H2]; try done; exfalso; set_solver.
Qed.

Lemma copy_fits {A} (lo : nat) (src l : list A) : (lo + length src <= length l)%nat ->
  copy_at (Z.of_nat lo) src l = Some (put (Z.of_nat lo) src l).
Proof. intros H. unfold copy_at. rewrite decide_True by lia. rewrite take_ge by lia. done. Qed.

Lemma put_replicate {A} (lo : nat) (l : list A) (v : A) m : (forall i, (lo <= i < lo + m)%nat -> l !! i = Some v) ->
  put (Z.of_nat lo) (replicate m v) l = l.
Proof.
  intros H. unfold put. rewrite Nat2Z.id, length_replicate. rewrite <- (take_drop lo l) at 3. f_equal.
  rewrite <- (take_drop m (drop lo l)) at 1. rewrite drop_drop, Nat.add_comm. f_equal.
  apply list_eq. intros i. destruct (decide (i < m)%nat).
  - rewrite lookup_replicate_2 by done. rewrite lookup_take_lt, lookup_drop by done. by rewrite H by lia.
  - rewrite lookup_take_ge by lia. by rewrite lookup_ge_None_2 by (rewrite length_replicate; lia).
Qed.

Section quiescent.
Context (live : Z -> bool) (ws hs : bool) (get : Z -> @entry W) (n : Z).
Context (Hn : 0 <= n) (Hok : forall id, 0 <= id < n -> entry_ok ws (get id)).
Abbreviation E := (all_slots live ws hs get n).
Context (Hbig : Z.of_nat (length E) < 2 ^ 64).

Lemma all_bucket v : 0 <= v < n -> bucket v E = node_slots live ws hs v (get v).
Proof.
  intros Hv. unfold all_slots. rewrite (bucket_nodes (fun u => node_slots live ws hs u (get u)) (seqZ 0 n) v) by apply NoDup_seqZ.
  rewrite decide_True; [done|]. apply elem_of_seqZ. lia.
Qed.

Lemma all_in p : p ∈ E -> 0 <= fst p < n /\ snd p ∈ node_slots live ws hs (fst p) (get (fst p)).
Proof.
  intros Hp. apply list_elem_of_In, in_flat_map in Hp as (u & Hu & Hp). apply list_elem_of_In in Hu, Hp. apply elem_of_seqZ in Hu.
  apply list_elem_of_fmap in Hp as (x & -> & Hx). cbn. split; [lia|done].
Qed.

(** The first nodes' slots are a prefix. *)
Lemma all_prefix m : 0 <= m <= n -> take (Z.to_nat (start m E)) E.*2 = (all_slots live ws hs get m).*2.
Proof.
  intros Hm. assert (HE : E = all_slots live ws hs get m ++ flat_map (fun id => pair id <$> node_slots live ws hs id (get id)) (seqZ m (n - m))).
  { unfold all_slots. rewrite <- flat_map_app. f_equal. replace n with (m + (n - m)) at 1 by lia. rewrite seqZ_app by lia. done. }
  assert (Hs : Z.to_nat (start m E) = length (all_slots live ws hs get m)).
  { unfold start. rewrite HE, filter_app, Nat2Z.id. rewrite filter_all.
    - rewrite filter_none, app_nil_r; [done|]. apply Forall_forall. intros p Hp.
      apply list_elem_of_In, in_flat_map in Hp as (u & Hu & Hp). apply list_elem_of_In in Hu, Hp. apply elem_of_seqZ in Hu.
      apply list_elem_of_fmap in Hp as (x & -> & Hx). cbn. lia.
    - apply Forall_forall. intros p Hp.
      apply list_elem_of_In, in_flat_map in Hp as (u & Hu & Hp). apply list_elem_of_In in Hu, Hp. apply elem_of_seqZ in Hu.
      apply list_elem_of_fmap in Hp as (x & -> & Hx). cbn. lia. }
  rewrite Hs, HE, fmap_app. apply take_app_length'. by rewrite length_fmap.
Qed.

Lemma all_step m : 0 <= m < n -> (all_slots live ws hs get (m + 1)).*2 =
  (all_slots live ws hs get m).*2 ++ node_slots live ws hs m (get m).
Proof.
  intros Hm. unfold all_slots. rewrite seqZ_app, flat_map_app, fmap_app by lia. f_equal.
  rewrite seqZ_cons, seqZ_nil by lia. cbn [flat_map]. rewrite app_nil_r. rewrite <- list_fmap_compose. apply list_fmap_id.
Qed.

Lemma all_length m : 0 <= m <= n -> Z.of_nat (length (all_slots live ws hs get m).*2) = start m E.
Proof. intros Hm. rewrite <- all_prefix by done. rewrite length_take, length_fmap. pose proof (start_total m E). pose proof (start_nonneg m E). lia. Qed.

Lemma cnt_nodes v : 0 <= v < n -> cnt v E = Z.of_nat (length (node_slots live ws hs v (get v))).
Proof. intros Hv. unfold cnt. by rewrite all_bucket. Qed.

Lemma placed_all : placed E E (E.*2).
Proof.
  split; [by rewrite length_fmap|]. intros v. destruct (decide (0 <= v < n)) as [Hv|Hv].
  - rewrite <- start_succ. rewrite all_bucket by done.
    rewrite <- (take_drop (Z.to_nat (start (v + 1) E)) (E.*2)), all_prefix, all_step by lia. unfold slice.
    pose proof (all_length v ltac:(lia)) as H1. pose proof (all_length (v + 1) ltac:(lia)) as H2.
    rewrite all_step, length_app in H2 by done. pose proof (start_nonneg v E).
    rewrite <- app_assoc, drop_app_length' by lia. apply take_app_length'. lia.
  - assert (Hc : bucket v E = []).
    { unfold bucket. rewrite filter_none; [done|]. apply Forall_forall. intros p Hp. apply all_in in Hp as [Hp _]. lia. }
    unfold cnt. rewrite Hc. unfold slice. by rewrite Z.add_0_r, Z.sub_diag.
Qed.

(** ** Pass one *)

Lemma any_handles_step m : 0 <= m < n ->
  any_handles live get (m + 1) = any_handles live get m || (live m && negb (is_nil (ehs (get m)))).
Proof.
  intros Hm. unfold any_handles. rewrite seqZ_app, existsb_app by lia. f_equal.
  rewrite seqZ_cons, seqZ_nil by lia. cbn. apply orb_false_r.
Qed.

Lemma count_pass (f : list Z * Z * bool -> Z -> option (list Z * Z * bool)) :
  (forall verts m, 0 <= m < n -> f (verts, start m E, any_handles live get m) m =
    verts' ← aset verts m (start m E);
    Some (verts', start (m + 1) E, any_handles live get m || (live m && negb (is_nil (ehs (get m)))))) ->
  exists verts0, loop f (zeros (n + 1), 0, false) (seqZ 0 n) = Some (verts0, start n E, any_handles live get n) /\
  aset verts0 n (start n E) = Some (tab (n + 1) (fun j => start j E)).
Proof.
  intros Hf. destruct (loop_seqZ f (fun m st => st = (tab (n + 1) (fun j => if j <? m then start j E else 0), start m E, any_handles live get m))
    0 n (zeros (n + 1), 0, false)) as (st & E1 & ->).
  - done.
  - rewrite start_zero by (intros p Hp; apply all_in in Hp as [Hp _]; lia). rewrite zeros_tab. do 2 f_equal.
    apply tab_ext. intros j Hj. destruct (Z.ltb_spec j 0); [lia|done].
  - intros m st Hm ->. rewrite Hf, tab_set by lia. cbn. eexists. split; [done|]. rewrite any_handles_step by lia. f_equal. f_equal.
    apply tab_ext. intros j Hj. destruct (Z.eqb_spec j m) as [->|]; [by rewrite (proj2 (Z.ltb_lt _ _)) by lia|].
    destruct (Z.ltb_spec j m), (Z.ltb_spec j (m + 1)); try lia; done.
  - eexists. split; [exact E1|]. rewrite tab_set by lia. f_equal. apply tab_ext. intros j Hj.
    destruct (Z.eqb_spec j (0 + n)), (Z.eqb_spec j n) as [->|]; try lia; try done. by rewrite (proj2 (Z.ltb_lt _ _)) by lia.
Qed.

Lemma entry_slots_length e : length (entry_slots ws hs e) = length (nbs e).
Proof. apply length_imap. Qed.

Lemma entry_slots_dst e : dst <$> entry_slots ws hs e = nbs e.
Proof. unfold entry_slots. rewrite fmap_imap. apply list_eq. intros j. rewrite list_lookup_imap. by destruct (nbs e !! j). Qed.

Lemma node_length id e : Z.of_nat (length (node_slots live ws hs id e)) =
  if live id then Z.of_nat (length (filter (fun d => live d = true) (nbs e))) else 0.
Proof.
  unfold node_slots. destruct (live id) eqn:El; cbn [andb].
  - rewrite <- (entry_slots_dst e). f_equal. induction (entry_slots ws hs e) as [|x R IH]; [done|].
    rewrite fmap_cons, !filter_cons. case_decide; cbn [length]; by rewrite IH.
  - rewrite filter_none; [done|]. by apply Forall_forall.
Qed.

Lemma fold_count l t : 0 <= t -> t + Z.of_nat (length (filter (fun d => live d = true) l)) < 2 ^ 64 ->
  fold_left (fun t d => if live d then u64 (t + 1) else t) l t = t + Z.of_nat (length (filter (fun d => live d = true) l)).
Proof.
  revert t. induction l as [|d l IH]; intros t Ht Hb; cbn [fold_left]; [cbn; lia|]. rewrite filter_cons in *.
  destruct (live d); case_decide; try done; cbn [length] in *; [|by apply IH]. rewrite u64_small by lia. rewrite IH by lia. lia.
Qed.

Lemma start_node m : 0 <= m < n -> start (m + 1) E = start m E + Z.of_nat (length (node_slots live ws hs m (get m))).
Proof. intros Hm. by rewrite start_succ, cnt_nodes. Qed.

Lemma live_count_step verts m : 0 <= m < n -> live_count live get (verts, start m E, any_handles live get m) m =
  verts' ← aset verts m (start m E);
  Some (verts', start (m + 1) E, any_handles live get m || (live m && negb (is_nil (ehs (get m))))).
Proof.
  intros Hm. pose proof (start_node m Hm) as Hs. rewrite node_length in Hs. pose proof (start_total (m + 1) E). pose proof (start_nonneg m E).
  unfold live_count. destruct (aset verts m (start m E)); cbn; [|done]. destruct (live m); cbn [negb andb].
  - rewrite fold_count by lia. by rewrite <- Hs.
  - rewrite orb_false_r. do 2 f_equal. f_equal. lia.
Qed.

(** ** Pass two *)

Lemma zero_fits : rows (ws, hs) (replicate (Z.to_nat (Z.of_nat (length E))) (zero_slot ws hs)) (zero_cols zeroW (Z.of_nat (length E)) ws hs).
Proof. apply zero_rows. Qed.

(** [c] holds the slots [out] and zeros behind them. *)
Definition filled (out : list slot) (k : nat) (c : cols W) : Prop := rows (ws, hs) (out ++ replicate k (zero_slot ws hs)) c.

Lemma slot_at_fits e j d : fits (ws, hs) (slot_at ws hs e j d).
Proof. unfold fits, slot_at. cbn. by destruct ws, hs. Qed.

Lemma write_one e j d out k c : entry_ok ws e -> nbs e !! j = Some d -> filled out (S k) c ->
  exists c', (es ← aset (cE c) (Z.of_nat (length out)) d;
    ws0 ← match cW c with None => Some None | Some l => w ← aget (ews e) (Z.of_nat j); Some <$> aset l (Z.of_nat (length out)) w end;
    hs0 ← match cH c, ehs e with Some l, Some h => x ← aget h (Z.of_nat j); Some <$> aset l (Z.of_nat (length out)) x | col, _ => Some col end;
    Some (mkCols es ws0 hs0)) = Some c' /\ filled (out ++ [slot_at ws hs e j d]) k c'.
Proof.
  intros [Hew Heh] Hj Hc. unfold filled in *. cbn [replicate] in Hc. set (p := Z.of_nat (length out)).
  destruct (set_next _ out _ _ c (slot_at ws hs e j d) p Hc (slot_at_fits e j d) eq_refl) as (c' & E1 & H1).
  exists c'. split; [|done]. rewrite <- E1. unfold set_slot. cbn [slot_at dst wt hd fst snd].
  destruct (aset (cE c) p d) as [es|]; cbn [mbind option_bind]; [|done].
  pose proof (lookup_lt_Some _ _ _ Hj) as Hlt. pose proof (r_shape _ _ _ Hc) as Hshape. unfold shape in Hshape. injection Hshape as Sw Sh.
  assert (EW : match cW c with None => Some None | Some l => w ← aget (ews e) (Z.of_nat j); Some <$> aset l p w end =
    set_column (cW c) p (if ws then Some (default zeroW (ews e !! j)) else None)).
  { destruct (cW c) as [l|], ws; cbn in *; try done. rewrite aget_nat. destruct (lookup_lt_is_Some_2 (ews e) j) as [w Hw]; [by rewrite Hew|].
    by rewrite Hw. }
  assert (EH : match cH c, ehs e with Some l, Some h => x ← aget h (Z.of_nat j); Some <$> aset l p x | col, _ => Some col end =
    set_column (cH c) p (if hs then Some (default 0 (default [] (ehs e) !! j)) else None)).
  { destruct (cH c) as [l|] eqn:EcH, hs; cbn in *; try done. destruct (ehs e) as [h|]; cbn.
    - rewrite aget_nat. destruct (lookup_lt_is_Some_2 h j) as [x Hx]; [by rewrite (Heh h)|]. by rewrite Hx.
    - pose proof (r_handles _ _ _ Hc) as Hh. rewrite EcH in Hh. cbn in Hh.
      assert (Hlp : l !! length out = Some 0).
      { assert (Hm : (hd <$> (out ++ zero_slot ws true :: replicate k (zero_slot ws true))) !! length out = Some (Some 0)).
        { rewrite list_lookup_fmap, list_lookup_middle by done. done. }
        rewrite Hh, list_lookup_fmap in Hm. destruct (l !! length out) as [v|]; [|done]. by injection Hm as ->. }
      unfold p. rewrite aset_nat by (by eapply lookup_lt_Some). cbn. by rewrite list_insert_id. }
  rewrite EW, EH. done.
Qed.

Abbreviation keep R := (filter (fun x => live (dst x) = true) R).

(** The filtered pass over one entry, columns written one by one. *)
Lemma live_arcs_filled id e : entry_ok ws e -> live id = true ->
  forall nb j out k c total, nb = drop j (nbs e) -> filled out k c ->
  total = Z.of_nat (length out + k) -> (length (keep (drop j (entry_slots ws hs e))) <= k)%nat ->
  exists c', live_arcs live id e total (Z.of_nat j) nb (Z.of_nat (length out)) c = Some (false, c') /\
  filled (out ++ keep (drop j (entry_slots ws hs e))) (k - length (keep (drop j (entry_slots ws hs e)))) c'.
Proof.
  intros He Hlive nb. induction nb as [|d nb IH]; intros j out k c total Hnb Hc Ht Hk.
  - assert (Hd : drop j (entry_slots ws hs e) = []).
    { apply drop_ge. rewrite entry_slots_length. assert (length (drop j (nbs e)) = 0%nat) by by rewrite <- Hnb. rewrite length_drop in H. lia. }
    rewrite Hd. exists c. split; [done|]. cbn. by rewrite app_nil_r, Nat.sub_0_r.
  - assert (Hj : nbs e !! j = Some d) by (rewrite <- (Nat.add_0_r j), <- lookup_drop, <- Hnb; done).
    assert (Hsj : entry_slots ws hs e !! j = Some (slot_at ws hs e j d)) by (unfold entry_slots; by rewrite list_lookup_imap, Hj).
    assert (Hnb' : nb = drop (S j) (nbs e)) by (rewrite (drop_S _ _ _ Hj) in Hnb; by injection Hnb).
    rewrite (drop_S _ _ _ Hsj) in Hk |- *. rewrite filter_cons in Hk |- *. cbn [live_arcs].
    rewrite Hlive. cbn [andb]. change (dst (slot_at ws hs e j d)) with d in *.
    replace (Z.of_nat j + 1) with (Z.of_nat (S j)) by lia. destruct (live d) eqn:El; cbn [negb]; case_decide as Hd; try done.
    + cbn [length] in Hk |- *. rewrite (proj2 (Z.leb_gt _ _)) by lia. destruct k as [|k]; [lia|].
      destruct (write_one e j d out k c He Hj Hc) as (c1 & E1 & H1).
      destruct (aset (cE c) _ d) as [es|]; cbn [mbind option_bind] in *; [|done].
      destruct (match cW c with None => _ | Some _ => _ end) as [ws0|]; cbn [mbind option_bind] in *; [|done].
      destruct (match cH c with None => _ | Some _ => _ end) as [hs0|]; cbn [mbind option_bind] in *; [|done].
      injection E1 as ->. replace (Z.of_nat (length out) + 1) with (Z.of_nat (length (out ++ [slot_at ws hs e j d]))) by (rewrite length_app; cbn; lia).
      destruct (IH (S j) _ k c1 total Hnb' H1) as (c' & E' & H'); [rewrite length_app; cbn; lia|lia|].
      exists c'. split; [exact E'|]. rewrite Nat.sub_succ. by rewrite <- app_assoc in H'.
    + destruct (IH (S j) out k c total Hnb' Hc Ht Hk) as (c' & E1 & H1). by exists c'.
Qed.

Lemma node_keep id e : node_slots live ws hs id e = if live id then keep (entry_slots ws hs e) else [].
Proof.
  unfold node_slots. destruct (live id); cbn [andb]; [done|]. by apply filter_none, Forall_forall.
Qed.

(** The second pass, whatever it calls per node. *)
Lemma write_pass {S} (f : S -> Z -> option S) (cs : S -> cols W) (ok : S -> Prop) s0 :
  cs s0 = zero_cols zeroW (Z.of_nat (length E)) ws hs -> ok s0 ->
  (forall m st out k, 0 <= m < n -> ok st -> filled out k (cs st) -> (length out + k = length E)%nat -> Z.of_nat (length out) = start m E ->
    (length (node_slots live ws hs m (get m)) <= k)%nat ->
    exists st', f st m = Some st' /\ ok st' /\ filled (out ++ node_slots live ws hs m (get m)) (k - length (node_slots live ws hs m (get m))) (cs st')) ->
  exists st', loop f s0 (seqZ 0 n) = Some st' /\ ok st' /\ rows (ws, hs) (E.*2) (cs st').
Proof.
  intros H0 Hok0 Hf.
  destruct (loop_seqZ f (fun m st => ok st /\ filled (all_slots live ws hs get m).*2 (length E - length (all_slots live ws hs get m).*2) (cs st))
    0 n s0) as (st & E1 & Hst & H1).
  - done.
  - split; [done|]. rewrite H0. unfold all_slots at 1 2. rewrite seqZ_nil by lia. cbn. rewrite Nat.sub_0_r.
    pose proof zero_fits as Hz. by rewrite Nat2Z.id in Hz.
  - intros m st Hm [Hst Hfl]. pose proof (all_length m ltac:(lia)) as L1. pose proof (all_length (m + 1) ltac:(lia)) as L2.
    pose proof (start_total (m + 1) E) as L3. rewrite all_step, length_app in L2 by lia.
    destruct (Hf m st _ _ ltac:(lia) Hst Hfl) as (st' & E' & Hst' & H'); [lia|lia|lia|].
    exists st'. split; [done|]. split; [done|]. rewrite all_step by lia. rewrite length_app.
    by replace (length E - (length (all_slots live ws hs get m).*2 + length (node_slots live ws hs m (get m))))%nat
      with (length E - length (all_slots live ws hs get m).*2 - length (node_slots live ws hs m (get m)))%nat by lia.
  - exists st. split; [done|]. split; [done|]. rewrite Z.add_0_l, length_fmap, Nat.sub_diag in H1. unfold filled in H1. cbn [replicate] in H1. by rewrite app_nil_r in H1.
Qed.

Lemma live_pass verts : (forall m, 0 <= m < n -> aget verts m = Some (start m E)) ->
  exists c', loop (live_write live get verts (Z.of_nat (length E))) (false, zero_cols zeroW (Z.of_nat (length E)) ws hs) (seqZ 0 n) = Some (false, c')
  /\ rows (ws, hs) (E.*2) c'.
Proof.
  intros Hv. destruct (write_pass (live_write live get verts (Z.of_nat (length E))) snd (fun st => fst st = false)
    (false, zero_cols zeroW (Z.of_nat (length E)) ws hs)) as ([b c'] & H1 & H2 & H3); try done.
  - intros m [b c] out k Hm Hb Hfl Hlen Hst Hk. cbn [fst snd] in *. subst b. unfold live_write. cbn [fst snd].
    rewrite node_keep in *. destruct (live m) eqn:El; cbn [negb].
    + rewrite Hv by done. cbn [mbind option_bind]. rewrite <- Hst.
      destruct (live_arcs_filled m (get m) (Hok m Hm) El (nbs (get m)) 0 out k c (Z.of_nat (length E))) as (c' & E1 & H1); try done.
      { by rewrite <- Hlen. }
      exists (false, c'). done.
    + exists (false, c). cbn [length]. by rewrite app_nil_r, Nat.sub_0_r.
  - cbn [fst snd] in *. subst b. by exists c'.
Qed.

(** ** The unfiltered pass *)

Definition entry_cols e : cols W :=
  mkCols (nbs e) (if ws then Some (ews e) else None)
    (if hs then Some (default (replicate (length (nbs e)) 0) (ehs e)) else None).

Lemma entry_rows e : entry_ok ws e -> rows (ws, hs) (entry_slots ws hs e) (entry_cols e).
Proof.
  intros [Hew Heh]. split; unfold shape, entry_cols; cbn; [by destruct ws, hs|by rewrite entry_slots_dst| |].
  - unfold entry_slots. rewrite fmap_imap. destruct ws; cbn.
    + apply list_eq. intros j. rewrite list_lookup_imap, list_lookup_fmap. specialize (Hew eq_refl).
      destruct (nbs e !! j) as [d|] eqn:Hd; cbn.
      * apply lookup_lt_Some in Hd. destruct (lookup_lt_is_Some_2 (ews e) j) as [w Hw]; [lia|]. by rewrite Hw.
      * apply lookup_ge_None in Hd. by rewrite lookup_ge_None_2 by lia.
    + apply Forall_lookup. intros j x Hx. rewrite list_lookup_imap in Hx. by destruct (nbs e !! j); simplify_eq/=.
  - unfold entry_slots. rewrite fmap_imap. destruct hs; cbn.
    + apply list_eq. intros j. rewrite list_lookup_imap, list_lookup_fmap.
      destruct (nbs e !! j) as [d|] eqn:Hd; cbn.
      * apply lookup_lt_Some in Hd. destruct (ehs e) as [h|] eqn:Eh; cbn; [|by rewrite lookup_replicate_2 by done].
        specialize (Heh h eq_refl). destruct (lookup_lt_is_Some_2 h j) as [w Hw]; [lia|]. by rewrite Hw.
      * apply lookup_ge_None in Hd. destruct (ehs e) as [h|] eqn:Eh; cbn.
        -- specialize (Heh h eq_refl). by rewrite lookup_ge_None_2 by lia.
        -- by rewrite lookup_ge_None_2 by (rewrite length_replicate; lia).
    + apply Forall_lookup. intros j x Hx. rewrite list_lookup_imap in Hx. by destruct (nbs e !! j); simplify_eq/=.
Qed.

Lemma raw_step verts m out k c : entry_ok ws (get m) -> filled out k c -> (length (nbs (get m)) <= k)%nat ->
  aget verts m = Some (Z.of_nat (length out)) ->
  exists c', raw_write get verts c m = Some c' /\ filled (out ++ entry_slots ws hs (get m)) (k - length (nbs (get m))) c'.
Proof.
  intros He Hc Hk Hv. unfold raw_write. set (e := get m) in *. destruct (Nat.eqb_spec (length (nbs e)) 0) as [E0|E0].
  { exists c. split; [done|]. rewrite E0, Nat.sub_0_r. assert (Hn0 : entry_slots ws hs e = []).
    { apply nil_length_inv. by rewrite entry_slots_length. } by rewrite Hn0, app_nil_r. }
  rewrite Hv. cbn [mbind option_bind]. unfold filled in Hc.
  set (l := out ++ replicate k (zero_slot ws hs)) in *. assert (Hl : length l = (length out + k)%nat) by (unfold l; by rewrite length_app, length_replicate).
  pose proof (rows_length _ _ _ Hc) as HlE. rewrite copy_fits by lia. cbn [mbind option_bind].
  pose proof (r_shape _ _ _ Hc) as Hshape. unfold shape in Hshape. injection Hshape as Sw Sh. destruct He as [Hew Heh].
  assert (EW : copy_column (Z.of_nat (length out)) (ews e) (cW c) = Some (put_column (Z.of_nat (length out)) (cW (entry_cols e)) (cW c))).
  { pose proof (r_weights _ _ _ Hc) as Hw. unfold entry_cols, copy_column. destruct (cW c) as [w|]; cbn in *; [|by destruct ws].
    subst ws. cbn. assert (Hlw : length w = length l) by (rewrite <- (length_fmap wt l), Hw; by rewrite length_fmap).
    rewrite copy_fits; [done|]. rewrite Hew by done. lia. }
  assert (EH : copy_column (Z.of_nat (length out)) (default [] (ehs e)) (cH c) = Some (put_column (Z.of_nat (length out)) (cH (entry_cols e)) (cH c))).
  { pose proof (r_handles _ _ _ Hc) as Hh. unfold entry_cols, copy_column. destruct (cH c) as [h|] eqn:EcH; cbn in *; [|by destruct hs].
    subst hs. cbn. assert (Hlh : length h = length l) by (rewrite <- (length_fmap hd l), Hh; by rewrite length_fmap).
    destruct (ehs e) as [eh|] eqn:Eeh; cbn.
    - rewrite copy_fits; [done|]. rewrite (Heh eh) by done. lia.
    - rewrite copy_fits by (cbn; lia). cbn. f_equal. f_equal. rewrite put_replicate.
      + unfold put. cbn. rewrite Nat2Z.id, Nat.add_0_r. apply take_drop.
      + intros i Hi. assert (Hm : (hd <$> l) !! i = Some (Some 0)).
        { rewrite list_lookup_fmap. unfold l. rewrite lookup_app_r by lia. rewrite lookup_replicate_2 by lia. done. }
        rewrite Hh, list_lookup_fmap in Hm. destruct (h !! i) as [v|]; [|done]. by injection Hm as ->. }
  rewrite EW. cbn [mbind option_bind]. rewrite EH. cbn [mbind option_bind]. eexists. split; [done|]. unfold filled.
  pose proof (put_rows (ws, hs) l c (entry_cols e) (entry_slots ws hs e) (Z.of_nat (length out)) Hc (entry_rows e ltac:(by split))) as Hp.
  assert (Epl : put (Z.of_nat (length out)) (entry_slots ws hs e) l = (out ++ entry_slots ws hs e) ++ replicate (k - length (nbs e)) (zero_slot ws hs)).
  { unfold put, l. rewrite Nat2Z.id, take_app_length, entry_slots_length, <- app_assoc. do 2 f_equal.
    rewrite <- drop_drop, drop_app_length. apply drop_replicate. }
  rewrite Epl in Hp. exact Hp.
Qed.

Lemma raw_pass verts : (forall i, live i = true) -> (forall m, 0 <= m < n -> aget verts m = Some (start m E)) ->
  exists c', loop (raw_write get verts) (zero_cols zeroW (Z.of_nat (length E)) ws hs) (seqZ 0 n) = Some c' /\ rows (ws, hs) (E.*2) c'.
Proof.
  intros Hlive Hv. destruct (write_pass (raw_write get verts) (fun c => c) (fun _ => True) (zero_cols zeroW (Z.of_nat (length E)) ws hs)) as (c' & H1 & _ & H2); try done.
  - intros m c out k Hm _ Hfl Hlen Hst Hk. assert (Hns : node_slots live ws hs m (get m) = entry_slots ws hs (get m)).
    { rewrite node_keep, Hlive. apply filter_all, Forall_forall. intros x _. apply Hlive. }
    rewrite Hns in *. rewrite entry_slots_length in *.
    destruct (raw_step verts m out k c (Hok m Hm) Hfl Hk) as (c' & E1 & H1); [by rewrite Hst, Hv|]. by exists c'.
  - by exists c'.
Qed.

Lemma raw_count_step verts m : (forall i, live i = true) -> 0 <= m < n -> raw_count get (verts, start m E, any_handles live get m) m =
  verts' ← aset verts m (start m E);
  Some (verts', start (m + 1) E, any_handles live get m || (live m && negb (is_nil (ehs (get m))))).
Proof.
  intros Hlive Hm. pose proof (start_node m Hm) as Hs. pose proof (start_total (m + 1) E). pose proof (start_nonneg m E).
  assert (Hns : length (node_slots live ws hs m (get m)) = length (nbs (get m))).
  { rewrite node_keep, Hlive, filter_all by (apply Forall_forall; intros x _; apply Hlive). apply entry_slots_length. }
  rewrite Hns in Hs. unfold raw_count. rewrite Hlive. cbn [andb]. destruct (aset verts m (start m E)); cbn; [|done].
  rewrite u64_small by lia. by rewrite Hs.
Qed.

(** ** Ordering what was laid out *)

Lemma order_pass (c : cols W) ord : rows (ws, hs) (E.*2) c -> n + 1 < 2 ^ 64 -> (forall p, p ∈ E -> 0 <= dst (snd p) < n) ->
  exists out l', OrderRuns (tab (n + 1) (fun j => start j E)) c = Some out /\
    let r := mkCSR (tab (n + 1) (fun j => start j E)) out ord (Z.of_nat (length E)) false in
    wf (ws, hs) l' r /\ MaxNodeID r = n /\
    forall v, 0 <= v < n -> stable_sort_of slot_lt (node_slots live ws hs v (get v)) (run (vertices r) v l').
Proof.
  intros Hc Hids Hdst. pose proof placed_all as Hp.
  destruct (wf_of_placed (ws, hs) E (E.*2) c n ord (Z.of_nat (length E)) false) as [Hwf Hrun]; try done; try lia.
  { intros p Hpin. by apply all_in in Hpin as [? _]. }
  set (verts := tab (n + 1) (fun j => start j E)) in *.
  destruct (order_wf (ws, hs) _ _ false Hwf) as (out & l' & E1 & Hwf' & Hsort). cbn [vertices arcs order size] in *.
  assert (Hmax : forall (o : cols W) sz sy, MaxNodeID (mkCSR verts o ord sz sy) = n) by (intros; unfold MaxNodeID; cbn [vertices]; unfold verts; rewrite tab_length; lia).
  exists out, l'. split; [done|]. cbn zeta. split; [exact Hwf'|]. split; [apply Hmax|].
  intros v Hv. rewrite <- all_bucket by done. rewrite <- Hrun by done. apply Hsort. by rewrite Hmax.
Qed.
End quiescent.

(** ** The builds *)

(** An adjacency whose entries are consistent, seen at an instant. *)
Record adjacency_ok (a : adjacency) (instant : option (Z * Z)) (live : Z -> bool) : Prop := {
  ao_max : 0 <= adjMaxNodeID a;
  ao_ids : adjMaxNodeID a + 1 < 2 ^ 64;
  ao_entries : forall id, 0 <= id < adjMaxNodeID a -> entry_ok (hasWeights && negb (Weightless a)) (entry_of a instant id);
  ao_range : forall id d, 0 <= id < adjMaxNodeID a -> d ∈ nbs (entry_of a instant id) -> 0 <= d < adjMaxNodeID a;
  ao_total : forall ws hs, Z.of_nat (length (all_slots live ws hs (entry_of a instant) (adjMaxNodeID a))) < 2 ^ 64;
}.

(** The columns of the snapshot, and a node's slots in it. *)
Definition weighted (a : adjacency (W := W)) : bool := hasWeights && negb (Weightless a).
Definition handled (a : adjacency (W := W)) (instant : option (Z * Z)) (live : Z -> bool) : bool :=
  any_handles live (entry_of a instant) (adjMaxNodeID a).
Definition out_slots (a : adjacency) (instant : option (Z * Z)) (live : Z -> bool) (u : Z) : list slot :=
  node_slots live (weighted a) (handled a instant live) u (entry_of a instant u).

Definition filter_of (live : option (Z -> bool)) : Z -> bool := default (fun _ => true) live.

Lemma build_correct a instant live : 0 < adjMaxNodeID a -> adjacency_ok a instant (filter_of live) ->
  exists r l, buildFromAdjList zeroW hasWeights a a live instant = Some r /\
    wf (weighted a, handled a instant (filter_of live)) l r /\ MaxNodeID r = adjMaxNodeID a /\
    order r = adjOrder a /\ size r = Z.of_nat (length l) /\ size r = Z.of_nat (length (all_slots (filter_of live) (weighted a) (handled a instant (filter_of live)) (entry_of a instant) (adjMaxNodeID a))) /\
    symmetric r = false /\
    forall u, 0 <= u < adjMaxNodeID a -> stable_sort_of slot_lt (out_slots a instant (filter_of live) u) (run (vertices r) u l).
Proof.
  intros Hn HA. destruct HA as [A1 A2 A3 A4 A5]. set (n := adjMaxNodeID a) in *. set (get := entry_of a instant) in *.
  set (f := filter_of live) in *. set (ws := weighted a). set (hs := handled a instant f).
  set (E := all_slots f ws hs get n). pose proof (A5 ws hs) as Hbig. fold E in Hbig.
  assert (Htot : start n E = Z.of_nat (length E)) by (apply start_all; intros p Hp; apply all_in in Hp as [? _]; lia).
  assert (Hverts : forall m, 0 <= m < n -> aget (tab (n + 1) (fun j => start j E)) m = Some (start m E)) by (intros; apply (tab_get (n + 1) (fun j => start j E)); lia).
  assert (Hdst : forall p, p ∈ E -> 0 <= dst (snd p) < n).
  { intros p Hp. apply all_in in Hp as [Hp1 Hp2]. apply (A4 (fst p)); [done|]. fold get. rewrite <- (entry_slots_dst ws hs).
    unfold node_slots in Hp2. apply list_elem_of_filter in Hp2 as [_ Hp2]. by apply list_elem_of_fmap_2. }
  assert (Hfin : forall c, rows (ws, hs) (E.*2) c -> exists r l, (out ← OrderRuns (tab (n + 1) (fun j => start j E)) c;
      Some (mkCSR (tab (n + 1) (fun j => start j E)) out (adjOrder a) (Z.of_nat (length E)) false)) = Some r /\
    wf (ws, hs) l r /\ MaxNodeID r = n /\ order r = adjOrder a /\ size r = Z.of_nat (length l) /\ size r = Z.of_nat (length E) /\ symmetric r = false /\
    forall u, 0 <= u < n -> stable_sort_of slot_lt (node_slots f ws hs u (get u)) (run (vertices r) u l)).
  { intros c Hc. destruct (order_pass f ws hs get n A1 Hbig c (adjOrder a) Hc A2 Hdst) as (out & l' & E1 & Hwf & Hmax & Hsort).
    fold E in E1, Hwf, Hmax, Hsort. cbn zeta in *. rewrite E1. cbn [mbind option_bind]. eexists _, l'. split; [done|]. repeat (split; [done|]).
    split; [|by split]. cbn [size]. rewrite <- (wf_end _ _ _ Hwf), Hmax. unfold vert. cbn [vertices]. rewrite tab_get by lia. cbn. by rewrite Htot. }
  unfold buildFromAdjList. destruct live as [live|].
  - fold n. rewrite (proj2 (Z.eqb_neq n 0)) by lia. fold get. change f with live in *.
    destruct (count_pass live ws hs get n A1 (live_count live get)) as (v0 & E1 & E2).
    { intros. by apply live_count_step. }
    fold E in E1, E2. rewrite E1. cbn [mbind option_bind]. fold n. rewrite E2. cbn [mbind option_bind].
    destruct (live_pass live ws hs get n A1 A3 Hbig (tab (n + 1) (fun j => start j E)) Hverts) as (c & E3 & Hc).
    fold E in E3, Hc. rewrite Htot. fold (weighted a). fold ws. fold (handled a instant live). change (any_handles live get n) with hs.
    rewrite E3. cbn [mbind option_bind snd]. exact (Hfin c Hc).
  - unfold buildFromAdjListRaw. fold n. rewrite (proj2 (Z.eqb_neq n 0)) by lia. fold get.
    destruct (count_pass f ws hs get n A1 (raw_count get)) as (v0 & E1 & E2).
    { intros. by apply raw_count_step. }
    fold E in E1, E2. rewrite E1. cbn [mbind option_bind]. fold n. rewrite E2. cbn [mbind option_bind].
    destruct (raw_pass f ws hs get n A1 A3 Hbig (tab (n + 1) (fun j => start j E))) as (c & E3 & Hc); [done|exact Hverts|].
    fold E in E3, Hc. rewrite Htot. fold (weighted a). fold ws. change (any_handles f get n) with hs.
    rewrite E3. cbn [mbind option_bind]. exact (Hfin c Hc).
Qed.
End build.
