(* ===== verification/CsrSymmetric.v ===== *)
(** * Compressed sparse rows: the symmetric projection

    [BuildSymmetric] stores every arc at its source and, unless it is a loop, its
    mirror at its destination, and orders each run stably. *)

From Stdlib Require Import ZArith Lia Sorted.
From stdpp Require Import list_numbers sorting.
From S2P Require Import Prelude StableSort Csr CsrRows CsrGraph CsrScatter CsrViews CsrBuild.

Local Open Scope Z_scope.

Section symmetric.
Context {W : Type} (zeroW : W).
Implicit Types (c : @CSR W).
Abbreviation slot := (Z * option W * option Z)%type.
Implicit Types (x y : slot) (e : Z * slot).

(** ** What an arc emits *)

Definition mirror e : list (Z * slot) := if dst (snd e) =? fst e then [] else [flip e].
Definition emits e : list (Z * slot) := e :: mirror e.
Definition sym_list (A : list (Z * slot)) : list (Z * slot) := flat_map emits A.

Lemma sym_list_app A B : sym_list (A ++ B) = sym_list A ++ sym_list B.
Proof. apply flat_map_app. Qed.

Lemma sym_list_snoc A e : sym_list (A ++ [e]) = sym_list A ++ emits e.
Proof. rewrite sym_list_app. unfold sym_list at 2. cbn [flat_map]. by rewrite app_nil_r. Qed.

Lemma sym_in (n : Z) (A : list (Z * slot)) p : (forall e, e ∈ A -> 0 <= fst e < n /\ 0 <= dst (snd e) < n) ->
  p ∈ sym_list A -> 0 <= fst p < n /\ 0 <= dst (snd p) < n.
Proof.
  intros HA Hp. apply list_elem_of_In, in_flat_map in Hp as (e & He & Hp). apply list_elem_of_In in He, Hp.
  specialize (HA e He). unfold emits, mirror in Hp. apply elem_of_cons in Hp as [->|Hp]; [done|].
  destruct (dst (snd e) =? fst e); [by apply elem_of_nil in Hp|]. apply list_elem_of_singleton in Hp as ->. unfold flip. cbn. lia.
Qed.

Section build.
Context (s : bool * bool) (l : list slot) (c : @CSR W) (H : wf s l c) (Hn : 0 < MaxNodeID c).
Abbreviation n := (MaxNodeID c).
Abbreviation E := (sym_list (arc_list c l)).
Context (Hbig : Z.of_nat (length E) < 2 ^ 64).

Lemma arcs_in e : e ∈ arc_list c l -> 0 <= fst e < n /\ 0 <= dst (snd e) < n /\ fits s (snd e).
Proof.
  intros He. apply (arc_list_in s l c e H) in He as [H1 H2]. apply run_in in H2. split; [done|]. split; [by apply (wf_range _ _ _ H)|].
  pose proof (rows_fits s l _ (wf_rows _ _ _ H)) as F. rewrite Forall_forall in F. by apply F.
Qed.

Lemma sym_range p : p ∈ E -> 0 <= fst p < n /\ 0 <= dst (snd p) < n.
Proof. apply (sym_in n). intros e He. apply arcs_in in He. tauto. Qed.

Lemma sym_cnt_bound A B v : E = A ++ B -> 0 <= cnt v A <= Z.of_nat (length E).
Proof. intros ->. rewrite length_app. pose proof (cnt_nonneg v A). pose proof (cnt_le v A). lia. Qed.

Lemma sym_counts_val : sym_counts n c = Some (tab (n + 1) (fun i => cnt i E)).
Proof.
  unfold sym_counts. rewrite (for_arcs_list s l c _ (fun d e => d' ← incr d (fst e); if dst (snd e) =? fst e then Some d' else incr d' (dst (snd e))) _ H).
  2:{ intros st u k x _ Hx. by rewrite (edge_get s l c k x H Hx). }
  destruct (loop_prefix (fun d e => d' ← incr d (fst e); if dst (snd e) =? fst e then Some d' else incr d' (dst (snd e)))
    (fun pre d => d = tab (n + 1) (fun i => cnt i (sym_list pre))) (arc_list c l) (zeros (n + 1))) as (d & E1 & ->).
  - apply zeros_tab.
  - intros pre e suf d Ha ->. assert (He : e ∈ arc_list c l) by (rewrite Ha, elem_of_app; right; left).
    apply arcs_in in He as (H1 & H2 & _).
    assert (HE : E = sym_list pre ++ emits e ++ sym_list suf) by (rewrite Ha, sym_list_app; done).
    assert (Hlen : Z.of_nat (length (sym_list pre)) + Z.of_nat (length (emits e)) < 2 ^ 64) by (rewrite HE, !length_app in Hbig; lia).
    pose proof (cnt_le (fst e) (sym_list pre)). pose proof (cnt_nonneg (fst e) (sym_list pre)).
    pose proof (cnt_le (dst (snd e)) (sym_list pre)). pose proof (cnt_nonneg (dst (snd e)) (sym_list pre)).
    unfold emits, mirror in *. rewrite incr_tab; [|lia|destruct (_ =? _); cbn [length] in Hlen; lia]. cbn [mbind option_bind].
    rewrite sym_list_snoc. unfold emits, mirror.
    destruct (Z.eqb_spec (dst (snd e)) (fst e)) as [Eq|Ne]; cbn [length] in Hlen.
    + eexists. split; [done|]. apply tab_ext. intros i Hi. rewrite cnt_app, cnt_cons. change (cnt i []) with 0. destruct (i =? fst e); lia.
    + eexists. split; [apply incr_tab; [lia|]|].
      * rewrite (proj2 (Z.eqb_neq (dst (snd e)) (fst e))) by done. lia.
      * apply tab_ext. intros i Hi. rewrite cnt_app, !cnt_cons. change (cnt i []) with 0. cbn [flip fst].
        destruct (i =? fst e), (i =? dst (snd e)); lia.
  - by rewrite E1.
Qed.

Lemma sym_ends_val : sym_ends n (tab (n + 1) (fun i => cnt i E)) = Some (tab (n + 1) (fun j => if j <? n then start (j + 1) E else cnt j E)).
Proof.
  unfold sym_ends. destruct (loop_seqZ (fun r i => p ← aget r (i - 1); add_at r i p)
    (fun i r => r = tab (n + 1) (fun j => if j <? i then start (j + 1) E else cnt j E)) 1 (n - 1) (tab (n + 1) (fun i => cnt i E))) as (r & E1 & ->).
  - lia.
  - apply tab_ext. intros i Hi. destruct (Z.ltb_spec i 1); [|done]. replace i with 0 by lia. rewrite start_succ.
    rewrite start_zero; [done|]. intros e He. apply sym_range in He. lia.
  - intros i r Hi ->. rewrite tab_get by lia. cbn [mbind option_bind]. rewrite (proj2 (Z.ltb_lt _ _)) by lia.
    pose proof (start_total (i + 1) E). pose proof (start_succ i E). pose proof (start_nonneg i E). pose proof (cnt_nonneg i E).
    replace (i - 1 + 1) with i by lia. rewrite add_at_tab; [|lia|rewrite (proj2 (Z.ltb_ge i i)) by lia; lia]. eexists. split; [done|].
    apply tab_ext. intros j Hj. destruct (Z.eqb_spec j i) as [->|]; [rewrite (proj2 (Z.ltb_ge i i)), (proj2 (Z.ltb_lt i (i + 1))) by lia; lia|].
    destruct (Z.ltb_spec j i), (Z.ltb_spec j (i + 1)); try lia; done.
  - rewrite E1. f_equal. apply tab_ext. intros j Hj. by replace (1 + (n - 1)) with n by lia.
Qed.

(** The cursors after the arcs [suf] were emitted. *)
Definition falling (suf : list (Z * slot)) : list Z :=
  tab (n + 1) (fun j => if j <? n then start (j + 1) E - cnt j suf else start n E).

(** One store of the scatter. *)
Definition sym_put (st : list Z * cols W) (p : Z * slot) : option (list Z * cols W) :=
  a ← aget (fst st) (fst p); v ← aset (fst st) (fst p) (u64 (a - 1)); out ← set_slot (snd st) (u64 (a - 1)) (snd p); Some (v, out).

Lemma sym_emit_put src d k x st : aget l k = Some x -> sym_emit c src d k st = sym_put st (src, (d, wt x, hd x)).
Proof. intros Hk. unfold sym_emit, sym_put. by rewrite (slot_get s l c k x H Hk). Qed.

Lemma sym_put_val pre src x suf out cs : E = pre ++ (src, x) :: suf -> placed_down E suf out -> rows s out cs -> fits s x ->
  0 <= src < n -> exists out' cs', sym_put (falling suf, cs) (src, x) = Some (falling ((src, x) :: suf), cs') /\
  rows s out' cs' /\ placed_down E ((src, x) :: suf) out'.
Proof.
  intros HE Hp Hr Hx Hsrc. destruct (placed_down_step E pre src _ suf out HE Hp) as [Hin Hp'].
  unfold sym_put. cbn [fst snd]. assert (Hf : falling suf = tab (n + 1) (fun j => if j <? n then start (j + 1) E - cnt j suf else start n E)) by done.
  rewrite Hf, tab_get by lia. cbn [mbind option_bind].
  rewrite (proj2 (Z.ltb_lt src n)) by lia. rewrite u64_small by lia. rewrite tab_set by lia. cbn [mbind option_bind].
  destruct (set_rows s out cs (start (src + 1) E - cnt src suf - 1) x Hr Hx) as (cs' & Es & Hr'); [by rewrite (proj1 Hp)|].
  rewrite Es. cbn [mbind option_bind]. eexists _, cs'. split; [|by split]. f_equal. f_equal. unfold falling. apply tab_ext. intros j Hj.
  rewrite cnt_cons. cbn [fst]. destruct (Z.eqb_spec j src) as [->|]; [rewrite (proj2 (Z.ltb_lt src n)) by lia; lia|]. by rewrite Z.add_0_l.
Qed.

(** What the scatter does with one arc. *)
Definition sym_step (st : list Z * cols W) e : option (list Z * cols W) :=
  st1 ← (if dst (snd e) =? fst e then Some st else sym_put st (flip e)); sym_put st1 e.

Lemma loop_indices {S} (f : S -> Z -> option S) (g : S -> slot -> option S) ks xs st :
  Forall2 (fun k x => aget l k = Some x) ks xs -> (forall st k x, aget l k = Some x -> f st k = g st x) ->
  loop f st ks = loop g st xs.
Proof.
  intros HF Hfg. revert st. induction HF as [|k x ks xs Hk HF IH]; intros st; [done|]. cbn. rewrite (Hfg _ _ _ Hk). by destruct (g st x); cbn.
Qed.

Lemma indices_slice lo m : 0 <= lo -> 0 <= m -> lo + m <= Z.of_nat (length l) ->
  Forall2 (fun k x => aget l k = Some x) (seqZ lo m) (slice lo (lo + m) l).
Proof.
  intros Hlo Hm Hle. apply Forall2_same_length_lookup_2.
  - rewrite length_seqZ. unfold slice. rewrite length_take, length_drop. lia.
  - intros i k x Hk Hx. apply lookup_seqZ in Hk as [-> Hi]. unfold slice in Hx. rewrite lookup_take_lt, lookup_drop in Hx by lia.
    apply aget_Some. split; [lia|]. rewrite <- Hx. f_equal. lia.
Qed.

Lemma reverse_flat_map {A B} (h : A -> list B) us : reverse (flat_map h us) = flat_map (fun u => reverse (h u)) (reverse us).
Proof.
  induction us as [|u us IH]; [done|]. cbn [flat_map]. rewrite reverse_app, IH, reverse_cons, flat_map_app. cbn [flat_map]. by rewrite app_nil_r.
Qed.

Lemma loop_fmap {A B S} (h : A -> B) (f : S -> B -> option S) us : forall st, loop f st (h <$> us) = loop (fun st u => f st (h u)) st us.
Proof. induction us as [|u us IH]; intros st; [done|]. rewrite fmap_cons. cbn [loop]. destruct (f st (h u)); cbn; [apply IH|done]. Qed.

Lemma sym_scatter_loop st : loop (sym_scatter c) st (reverse (seqZ 1 n)) = loop sym_step st (reverse (arc_list c l)).
Proof.
  unfold arc_list. rewrite reverse_flat_map, loop_flat_map. pose proof (max_length c s l H) as Hmax. pose proof (wf_offsets _ _ _ H) as HO.
  replace (seqZ 1 n) with (Z.add 1 <$> seqZ 0 n) by apply fmap_add_seqZ. rewrite <- fmap_reverse, loop_fmap. apply loop_ext. intros st' u Hu. rewrite elem_of_reverse in Hu. apply elem_of_seqZ in Hu.
  unfold sym_scatter. replace (1 + u - 1) with u by lia. rewrite !vert_get by lia. cbn [mbind option_bind]. rewrite (Z.add_comm 1 u).
  pose proof (vert_bounds _ _ u HO ltac:(lia)). pose proof (vert_bounds _ _ (u + 1) HO ltac:(lia)). pose proof (o_mono _ _ HO u ltac:(lia)).
  rewrite <- fmap_reverse, loop_fmap. unfold run.
  pose proof (indices_slice (vert (vertices c) u) (vert (vertices c) (u + 1) - vert (vertices c) u) ltac:(lia) ltac:(lia) ltac:(lia)) as HF.
  replace (vert (vertices c) u + (vert (vertices c) (u + 1) - vert (vertices c) u)) with (vert (vertices c) (u + 1)) in HF by lia.
  apply loop_indices; [by apply Forall2_reverse|]. intros st1 k x Hk. rewrite (edge_get s l c k x H Hk). cbn [mbind option_bind].
  unfold sym_step. cbn [fst snd]. destruct (dst x =? u).
  - cbn [mbind option_bind]. rewrite (sym_emit_put _ _ k x) by done. by rewrite slot_eta.
  - rewrite (sym_emit_put _ _ k x) by done. unfold flip. cbn [fst snd]. destruct (sym_put st1 _); cbn; [|done].
    rewrite (sym_emit_put _ _ k x) by done. by rewrite slot_eta.
Qed.

Lemma sym_scatter_val out0 cs0 : rows s out0 cs0 -> length out0 = length E ->
  exists out cs, loop sym_step (falling [], cs0) (reverse (arc_list c l)) = Some (falling E, cs) /\ rows s out cs /\ placed_down E E out.
Proof.
  intros Hr0 Hl0. destruct (loop_suffix sym_step (fun suf st => exists out cs, st = (falling (sym_list suf), cs) /\ rows s out cs /\ placed_down E (sym_list suf) out)
    (arc_list c l) (falling [], cs0)) as (st & E1 & out & cs & -> & Hr & Hp).
  - exists out0, cs0. split; [done|]. split; [done|]. by apply placed_down_nil.
  - intros pre e suf st Ha (out & cs & -> & Hr & Hp). assert (He : e ∈ arc_list c l) by (rewrite Ha, elem_of_app; right; left).
    apply arcs_in in He as (H1 & H2 & H3). destruct e as [u x]. cbn [fst snd] in *.
    assert (HE : E = sym_list pre ++ (u, x) :: mirror (u, x) ++ sym_list suf) by (rewrite Ha, sym_list_app; done).
    assert (Hmid : exists out1 cs1, (if dst x =? u then Some (falling (sym_list suf), cs) else sym_put (falling (sym_list suf), cs) (flip (u, x))) =
      Some (falling (mirror (u, x) ++ sym_list suf), cs1) /\ rows s out1 cs1 /\ placed_down E (mirror (u, x) ++ sym_list suf) out1).
    { unfold mirror in *. cbn [fst snd] in *. destruct (dst x =? u); [by exists out, cs|]. cbn [app] in *.
      apply (sym_put_val (sym_list pre ++ [(u, x)]) (dst x) (u, wt x, hd x) (sym_list suf) out cs); [by rewrite <- app_assoc|done|done|exact H3|done]. }
    destruct Hmid as (out1 & cs1 & E1 & Hr1 & Hp1). unfold sym_step. cbn [fst snd]. rewrite E1. cbn [mbind option_bind].
    destruct (sym_put_val (sym_list pre) u x _ out1 cs1 HE Hp1 Hr1 H3 H1) as (out2 & cs2 & E2 & Hr2 & Hp2).
    eexists. split; [exact E2|]. by exists out2, cs2.
  - by exists out, cs.
Qed.

Lemma placed_down_all out : placed_down E E out -> placed E E out.
Proof. intros [Hl Hp]. split; [done|]. intros v. rewrite <- start_succ, <- Hp. f_equal. rewrite start_succ. lia. Qed.

(** What [BuildSymmetric] returns. *)
Lemma BuildSymmetric_val : exists r out, BuildSymmetric zeroW c = Some r /\ wf s out r /\ MaxNodeID r = n /\ symmetric r = true /\
  order r = order c /\ size r = Z.of_nat (length E) /\ size r = Z.of_nat (length out) /\
  forall v, 0 <= v < n -> stable_sort_of slot_lt (bucket v E) (run (vertices r) v out).
Proof.
  pose proof (max_length c s l H) as Hmax. unfold BuildSymmetric. rewrite (proj2 (Nat.ltb_ge _ _)) by lia.
  rewrite sym_counts_val. cbn [mbind option_bind]. rewrite sym_ends_val. cbn [mbind option_bind]. rewrite tab_get by lia. cbn [mbind option_bind].
  rewrite (proj2 (Z.ltb_lt (n - 1) n)) by lia. replace (n - 1 + 1) with n by lia. rewrite tab_set by lia. cbn [mbind option_bind].
  assert (Hend : start n E = Z.of_nat (length E)) by (apply start_all; intros e He; apply sym_range in He; lia).
  assert (Hf0 : tab (n + 1) (fun j => if j =? n then start n E else if j <? n then start (j + 1) E else cnt j E) = falling []).
  { apply tab_ext. intros j Hj. change (cnt j []) with 0. destruct (Z.eqb_spec j n) as [?E1|?E1], (Z.ltb_spec j n) as [?E2|?E2]; subst; lia. }
  rewrite Hf0, sym_scatter_loop, !present_nil. assert (Hshape : (present (weights c), present (handles c)) = s) by apply (wf_rows _ _ _ H).
  pose proof (zero_rows zeroW (start n E) (present (weights c)) (present (handles c))) as Hz. rewrite Hshape in Hz.
  destruct (sym_scatter_val _ _ Hz) as (out & cs & Es & Hr & Hp); [rewrite length_replicate; lia|]. rewrite Es. cbn [mbind option_bind fst snd].
  assert (Hf1 : falling E = tab (n + 1) (fun j => start j E)).
  { apply tab_ext. intros j Hj. pose proof (start_succ j E). destruct (Z.ltb_spec j n) as [?E1|?E1]; [lia|]. f_equal. lia. }
  rewrite Hf1. apply placed_down_all in Hp.
  destruct (wf_of_placed s E out cs n (order c) (start n E) false) as [Hwf Hrun]; try done.
  - lia.
  - apply (wf_ids _ _ _ H).
  - intros e He. by apply sym_range.
  - intros e He. by apply sym_range.
  - destruct (order_wf s _ _ true Hwf) as (o & l' & E1 & Hwf' & Hsort). cbn [vertices arcs order size] in *.
    rewrite E1. cbn [mbind option_bind]. assert (Hm : forall (o : cols W) sz sy, MaxNodeID (mkCSR (tab (n + 1) (fun j => start j E)) o (order c) sz sy) = n).
    { intros. unfold MaxNodeID. cbn [vertices]. rewrite tab_length. unfold MaxNodeID. lia. }
    eexists _, l'. split; [done|]. split; [exact Hwf'|]. split; [apply Hm|]. split; [done|]. split; [done|]. split; [exact Hend|]. split.
    { rewrite <- (wf_end _ _ _ Hwf'), Hm. unfold vert. cbn [vertices size]. rewrite tab_get by lia. done. }
    intros v Hv. cbn [vertices]. rewrite <- Hrun by done. apply Hsort. by rewrite Hm.
Qed.
End build.

(** ** Stable rearrangements of the arcs between two nodes *)

Definition from (u : Z) x : slot := (u, wt x, hd x).

Lemma same_slot x y : same slot_lt x y <-> dst x = dst y /\ handle_key x = handle_key y.
Proof.
  unfold same, slot_lt, lessKey. rewrite (Z.eqb_sym (dst y)). destruct (Z.eqb_spec (dst x) (dst y)); rewrite !Z.ltb_ge; lia.
Qed.

Lemma filter_comm {A} (P Q : A -> Prop) `{forall a, Decision (P a)} `{forall a, Decision (Q a)} (R : list A) :
  filter P (filter Q R) = filter Q (filter P R).
Proof. rewrite !list_filter_filter. apply filter_same. intros a _. tauto. Qed.

Lemma stable_filter (P : slot -> Prop) `{forall x, Decision (P x)} (R R' : list slot) : stable_sort_of slot_lt R R' ->
  stable_sort_of slot_lt (filter P R) (filter P R').
Proof.
  intros [HS HF]. split; [by apply ordered_filter|]. intros k. by rewrite !(filter_comm (same slot_lt k)), HF.
Qed.

Lemma filter_map {A B} (P : B -> Prop) `{forall b, Decision (P b)} (Q : A -> Prop) `{forall a, Decision (Q a)} (g : A -> B) (R : list A) :
  (forall a, a ∈ R -> P (g a) <-> Q a) -> filter P (g <$> R) = g <$> filter Q R.
Proof.
  induction R as [|a R IH]; intros HPQ; [done|]. pose proof (HPQ a ltac:(left)). rewrite fmap_cons, !filter_cons.
  rewrite IH by (intros; apply HPQ; by right). repeat case_decide; try tauto; done.
Qed.

Lemma stable_from u v (R R' : list slot) : stable_sort_of slot_lt R R' ->
  stable_sort_of slot_lt (from u <$> filter (fun x => dst x = v) R) (from u <$> filter (fun x => dst x = v) R').
Proof.
  intros [HS HF]. split; [by apply ordered_from|]. intros k.
  rewrite !(filter_map (same slot_lt k) (fun x => dst k = u /\ same slot_lt (v, None, Some (handle_key k)) x)).
  - f_equal. destruct (decide (dst k = u)) as [Hk|Hk].
    + rewrite !(filter_same (fun x : slot => dst k = u /\ same slot_lt (v, None, Some (handle_key k)) x) (same slot_lt (v, None, Some (handle_key k)))) by (intros; tauto).
      by rewrite !(filter_comm (same slot_lt _)), HF.
    + rewrite !filter_none; [done| |]; apply Forall_forall; tauto.
  - intros x [Hx _]%list_elem_of_filter. rewrite !same_slot. cbn. unfold handle_key. cbn. rewrite Hx. tauto.
  - intros x [Hx _]%list_elem_of_filter. rewrite !same_slot. cbn. unfold handle_key. cbn. rewrite Hx. tauto.
Qed.

(** The two sides of every relationship are emitted together. *)
Lemma sym_sides u v (A : list (Z * slot)) :
  from u <$> filter (fun x => dst x = v) (bucket u (sym_list A)) = filter (fun x => dst x = u) (bucket v (sym_list A)).
Proof.
  induction A as [|[a x] A IH]; [done|]. cbn [sym_list flat_map]. fold (sym_list A). rewrite !bucket_app, !filter_app, fmap_app, IH. f_equal.
  unfold emits, mirror. cbn [fst snd]. assert (Hx : forall w, dst x = w -> from w x = x) by (intros w <-; apply slot_eta).
  assert (Hb : forall w, bucket w ((a, x) :: (if dst x =? a then [] else [flip (a, x)])) =
    (if decide (a = w) then [x] else []) ++ (if decide (dst x <> a /\ dst x = w) then [from a x] else [])).
  { intros w. rewrite bucket_cons. cbn [fst snd]. destruct (Z.eqb_spec (dst x) a) as [Ha|Ha].
    - rewrite (decide_False (P := dst x <> a /\ _)) by tauto. by case_decide.
    - rewrite bucket_cons. cbn [fst snd flip]. case_decide; case_decide as Hw; repeat case_decide; try tauto; done. }
  rewrite !Hb. clear Hb IH. destruct (decide (a = u)) as [Hau|Hau], (decide (dst x <> a /\ dst x = u)) as [Hxu|Hxu],
    (decide (a = v)) as [Hav|Hav], (decide (dst x <> a /\ dst x = v)) as [Hxv|Hxv]; try (exfalso; clear Hx; lia);
    cbn [app]; rewrite ?filter_cons, ?filter_nil; cbn [dst from fst]; repeat case_decide; try (exfalso; clear Hx; lia); cbn; rewrite ?Hx by lia; try done.
  - congruence.
  - change (from u (from a x)) with (from u x). by rewrite Hx by lia.
Qed.

Lemma sides_equal s l c s' out r : wf s l c -> wf s' out r -> (forall v, 0 <= v < MaxNodeID c ->
    stable_sort_of slot_lt (bucket v (sym_list (arc_list c l))) (run (vertices r) v out)) ->
  forall u v, 0 <= u < MaxNodeID c -> 0 <= v < MaxNodeID c ->
  from u <$> filter (fun x => dst x = v) (run (vertices r) u out) = filter (fun x => dst x = u) (run (vertices r) v out).
Proof.
  intros H H' Hs u v Hu Hv. apply (stable_unique slot_lt (filter (fun x => dst x = u) (bucket v (sym_list (arc_list c l))))).
  - rewrite <- sym_sides. by apply stable_from, Hs.
  - by apply stable_filter, Hs.
Qed.

(** ** A symmetric snapshot is its own reverse *)

(** The same arrays without the mark. *)
Definition unmark c : CSR := mkCSR (vertices c) (arcs c) (order c) (size c) false.

Lemma unmark_wf s l c : wf s l c -> wf s l (unmark c).
Proof. intros [H1 H2 H3 H4 H5 H6]. by split. Qed.

Lemma symmetric_self_reverse s l c r : wf s l c -> 0 < MaxNodeID c -> Z.of_nat (length (sym_list (arc_list c l))) < 2 ^ 64 ->
  BuildSymmetric zeroW c = Some r -> BuildReverse zeroW (unmark r) = Some (unmark r) /\ IsSymmetric (unmark r) = Some true.
Proof.
  intros H Hn Hb Hr. destruct (BuildSymmetric_val s l c H Hn Hb) as (r' & out & E1 & Hwf & Hmax & _ & _ & _ & _ & Hsort).
  rewrite Hr in E1. injection E1 as <-. pose proof (unmark_wf _ _ _ Hwf) as Hwf'.
  pose proof (sides_equal s l c s out r H Hwf Hsort) as Hsides. split.
  - destruct (reverse_runs zeroW s out (unmark r) Hwf' eq_refl) as (r2 & out2 & K1 & K2 & K3 & K4 & K5 & K6 & K7).
    { change (MaxNodeID (unmark r)) with (MaxNodeID r). lia. }
    change (MaxNodeID (unmark r)) with (MaxNodeID r) in *. rewrite K1. f_equal. symmetry. apply (wf_ext s out out2 (unmark r) r2 Hwf' K2); try done.
    intros v Hv. change (vertices (unmark r)) with (vertices r) in *. change (MaxNodeID (unmark r)) with (MaxNodeID r) in *. rewrite K7 by done.
    rewrite <- (by_destination (MaxNodeID r) (run (vertices r) v out)) at 1.
    + unfold into. apply flat_map_same. intros u Hu%elem_of_seqZ. symmetry. apply Hsides; lia.
    + apply Hsort. lia.
    + intros x Hx. apply (wf_range _ _ _ Hwf). by eapply run_in.
  - unfold IsSymmetric. cbn [unmark symmetric]. unfold arc_pairs.
    rewrite (for_arcs_list s out (unmark r) _ (fun t e => Some (t ++ [(fst e, dst (snd e))])) _ Hwf').
    2:{ intros st u k x _ Hx. by rewrite (edge_get s out (unmark r) k x Hwf' Hx). }
    assert (Hloop : forall (A : list (Z * slot)) t, loop (fun t e => Some (t ++ [(fst e, dst (snd e))])) t A = Some (t ++ ((fun e => (fst e, dst (snd e))) <$> A))).
    { induction A as [|e A IH]; intros t; cbn [loop]; [by rewrite app_nil_r|]. cbn [mbind option_bind]. by rewrite IH, <- app_assoc. }
    rewrite Hloop. cbn [mbind option_bind app]. f_equal. apply forallb_forall. intros p Hp. apply list_elem_of_In, list_elem_of_fmap in Hp as ([u x] & -> & Hp).
    cbn [fst snd]. apply bool_decide_eq_true. apply (arc_list_in s out (unmark r) _ Hwf') in Hp as [Hu Hx]. cbn [fst snd] in *.
    change (MaxNodeID (unmark r)) with (MaxNodeID r) in *. change (vertices (unmark r)) with (vertices r) in *.
    pose proof (wf_range _ _ _ Hwf x ltac:(by eapply run_in)) as Hd.
    assert (Hy : from u x ∈ filter (fun y => dst y = u) (run (vertices r) (dst x) out)).
    { rewrite <- Hsides by lia. apply list_elem_of_fmap. exists x. split; [done|]. apply list_elem_of_filter. by split. }
    apply list_elem_of_filter in Hy as [_ Hy]. apply list_elem_of_fmap. exists (dst x, from u x). split; [done|].
    unfold arc_list. apply list_elem_of_In, in_flat_map. exists (dst x). split; [apply list_elem_of_In, elem_of_seqZ; change (MaxNodeID (unmark r)) with (MaxNodeID r); lia|].
    apply list_elem_of_In. apply list_elem_of_fmap. by exists (from u x).
Qed.
End symmetric.

(** * Compressed sparse rows: the one-pass symmetric build

    [BuildSymmetricFromAdjList] returns, column by column, what building the directed
    snapshot and projecting it returns. *)

Local Open Scope Z_scope.

Section symadj.
Context {W : Type} (zeroW : W) (hasWeights : bool).
Abbreviation slot := (Z * option W * option Z)%type.
Implicit Types (x y : slot) (e : entry (W := W)) (a : adjacency (W := W)).

(** ** Buckets of one source *)

Lemma sym_one u v (R : list slot) :
  bucket v (sym_list (pair u <$> R)) = if decide (v = u) then R else from u <$> filter (fun x => dst x = v) R.
Proof.
  induction R as [|x R IH]; [by case_decide|]. rewrite fmap_cons. cbn [sym_list flat_map]. fold (sym_list (pair u <$> R)).
  rewrite bucket_app, IH. unfold emits, mirror. cbn [fst snd]. rewrite bucket_cons. cbn [fst snd].
  destruct (Z.eqb_spec (dst x) u) as [Hd|Hd].
  - destruct (decide (v = u)) as [->|Hv]; [by rewrite decide_True|]. rewrite decide_False, filter_cons, decide_False by congruence. done.
  - rewrite bucket_cons. cbn [fst snd flip]. destruct (decide (v = u)) as [->|Hv].
    + rewrite decide_True, decide_False by done. done.
    + rewrite (decide_False (P := u = v)), filter_cons by congruence. by case_decide.
Qed.

Lemma sym_flat (v : Z) (R : Z -> list slot) us : bucket v (sym_list (flat_map (fun u => pair u <$> R u) us)) =
  flat_map (fun u => if decide (v = u) then R u else from u <$> filter (fun x => dst x = v) (R u)) us.
Proof.
  induction us as [|u us IH]; [done|]. cbn [flat_map]. by rewrite sym_list_app, bucket_app, IH, sym_one.
Qed.

(** The order within the entries does not matter to the stable order of the runs. *)
Lemma sym_stable (v : Z) (R R' : Z -> list slot) us l : (forall u, u ∈ us -> stable_sort_of slot_lt (R u) (R' u)) ->
  stable_sort_of slot_lt (bucket v (sym_list (flat_map (fun u => pair u <$> R' u) us))) l ->
  stable_sort_of slot_lt (bucket v (sym_list (flat_map (fun u => pair u <$> R u) us))) l.
Proof.
  intros HR [HS HF]. split; [done|]. intros k. rewrite HF, !sym_flat. clear HS HF. induction us as [|u us IH]; [done|].
  cbn [flat_map]. rewrite !filter_app, IH by (intros; apply HR; by right). f_equal.
  destruct (HR u ltac:(left)) as [_ Hu]. case_decide; [apply Hu|]. apply (stable_from u v (R u) (R' u)). by apply HR; left.
Qed.

Lemma sym_length (A : list (Z * slot)) : (length (sym_list A) <= 2 * length A)%nat.
Proof.
  induction A as [|p A IH]; [done|]. cbn [sym_list flat_map]. fold (sym_list A). rewrite length_app. unfold emits, mirror.
  destruct (dst (snd p) =? fst p); cbn [length]; lia.
Qed.

Section build.
Context (ws hs : bool) (a : adjacency (W := W)) (n : Z).
Abbreviation get := (LoadEntryH a).
Abbreviation A m := (all_slots zeroW (fun _ => true) ws hs get m).
Abbreviation E := (sym_list (A n)).
Context (Hn : 0 <= n) (Hids : n + 1 < 2 ^ 64).
Context (Hok : forall id, 0 <= id < n -> entry_ok ws (get id)).
Context (Hrange : forall id d, 0 <= id < n -> d ∈ nbs (get id) -> 0 <= d < n).
Context (Hbig : Z.of_nat (length E) < 2 ^ 64).

Lemma node_all id e : node_slots zeroW (fun _ => true) ws hs id e = entry_slots zeroW ws hs e.
Proof. unfold node_slots. by apply filter_all, Forall_forall. Qed.

Lemma all_next m : 0 <= m -> A (m + 1) = A m ++ (pair m <$> entry_slots zeroW ws hs (get m)).
Proof.
  intros Hm. unfold all_slots. rewrite seqZ_app, flat_map_app by lia. f_equal. rewrite seqZ_cons, seqZ_nil by lia.
  cbn [flat_map]. by rewrite app_nil_r, node_all.
Qed.

Lemma all_split m : 0 <= m < n -> exists rest, E = sym_list (A m) ++ sym_list (pair m <$> entry_slots zeroW ws hs (get m)) ++ rest.
Proof.
  intros Hm. assert (HE : A n = A (m + 1) ++ flat_map (fun id => pair id <$> node_slots zeroW (fun _ => true) ws hs id (get id)) (seqZ (m + 1) (n - (m + 1)))).
  { unfold all_slots. rewrite <- flat_map_app. f_equal. replace n with ((m + 1) + (n - (m + 1))) at 1 by lia. rewrite seqZ_app by lia. done. }
  eexists. rewrite HE, all_next, !sym_list_app, <- app_assoc by lia. done.
Qed.

Lemma E_range p : p ∈ E -> 0 <= fst p < n /\ 0 <= dst (snd p) < n.
Proof.
  apply (sym_in n). intros q Hq. apply all_in in Hq as [H1 H2]. rewrite node_all in H2. split; [done|].
  apply (Hrange (fst q)); [done|]. rewrite <- (entry_slots_dst zeroW ws hs). by apply list_elem_of_fmap_2.
Qed.

(** ** Counting *)

(** The mirrors of one entry at [v]. *)
Definition mirrors (m v : Z) (ds : list Z) : Z := Z.of_nat (length (filter (fun d => d <> m /\ d = v) ds)).

Lemma cnt_entry m v e : cnt v (sym_list (pair m <$> entry_slots zeroW ws hs e)) =
  (if v =? m then Z.of_nat (length (nbs e)) else 0) + mirrors m v (nbs e).
Proof.
  unfold cnt, mirrors. rewrite sym_one. destruct (Z.eqb_spec v m) as [->|Hv].
  - rewrite decide_True, entry_slots_length by done. rewrite filter_none; [cbn; lia|]. apply Forall_forall. lia.
  - rewrite decide_False by done. rewrite length_fmap, <- (entry_slots_dst zeroW ws hs e). cbn [Z.add].
    rewrite (filter_map (fun d => d <> m /\ d = v) (fun x => dst x = v)); [by rewrite length_fmap|]. intros x _. split; [tauto|]. intros <-. lia.
Qed.

Lemma mirrors_snoc m v ds d : mirrors m v (ds ++ [d]) = mirrors m v ds + (if (negb (d =? m)) && (v =? d) then 1 else 0).
Proof.
  unfold mirrors. rewrite filter_app, length_app, filter_cons, filter_nil.
  destruct (Z.eqb_spec d m), (Z.eqb_spec v d); cbn; case_decide; cbn [length]; try lia.
Qed.

Lemma mirrors_nonneg m v ds : 0 <= mirrors m v ds.
Proof. unfold mirrors. lia. Qed.

Lemma mirrors_app m v d1 d2 : mirrors m v (d1 ++ d2) = mirrors m v d1 + mirrors m v d2.
Proof. unfold mirrors. rewrite filter_app, length_app. lia. Qed.

Lemma adj_counts_step m any : 0 <= m < n ->
  adj_counts a (tab (n + 1) (fun i => cnt (i - 1) (sym_list (A m))), any) m =
  Some (tab (n + 1) (fun i => cnt (i - 1) (sym_list (A (m + 1)))), any || negb (is_nil (ehs (get m)))).
Proof.
  intros Hm. destruct (all_split m Hm) as [rest HE]. set (e := get m) in *.
  assert (Hfin : forall v, cnt v (sym_list (A m)) + ((if v =? m then Z.of_nat (length (nbs e)) else 0) + mirrors m v (nbs e)) < 2 ^ 64).
  { intros v. rewrite <- cnt_entry. pose proof (cnt_le v E) as Hle. rewrite HE, !cnt_app in Hle. pose proof (cnt_nonneg v rest).
    rewrite <- HE in Hle. lia. }
  assert (Hnext : forall v, cnt v (sym_list (A (m + 1))) = cnt v (sym_list (A m)) + ((if v =? m then Z.of_nat (length (nbs e)) else 0) + mirrors m v (nbs e))).
  { intros v. rewrite all_next, sym_list_app, cnt_app, cnt_entry by lia. done. }
  unfold adj_counts. cbn [fst snd]. fold e.
  pose proof (Hfin m) as Hfm. rewrite Z.eqb_refl in Hfm. pose proof (mirrors_nonneg m m (nbs e)). pose proof (cnt_nonneg m (sym_list (A m))).
  rewrite add_at_tab; [|lia|replace (m + 1 - 1) with m by lia; lia]. cbn [mbind option_bind].
  destruct (loop_prefix (fun v d => if d =? m then Some v else incr v (u64 (d + 1)))
    (fun pre v => v = tab (n + 1) (fun i => cnt (i - 1) (sym_list (A m)) + ((if i - 1 =? m then Z.of_nat (length (nbs e)) else 0) + mirrors m (i - 1) pre)))
    (nbs e) (tab (n + 1) (fun j => if j =? m + 1 then cnt (j - 1) (sym_list (A m)) + Z.of_nat (length (nbs e)) else cnt (j - 1) (sym_list (A m)))))
    as (v & E1 & ->).
  - apply tab_ext. intros i Hi. change (mirrors m (i - 1) []) with 0. destruct (Z.eqb_spec i (m + 1)), (Z.eqb_spec (i - 1) m); lia.
  - intros pre d suf v Hd ->. assert (Hdr : 0 <= d < n) by (apply (Hrange m); [done|]; unfold e in Hd; rewrite Hd, elem_of_app; right; left).
    destruct (Z.eqb_spec d m) as [->|Hne].
    + eexists. split; [done|]. apply tab_ext. intros i Hi. rewrite mirrors_snoc, Z.eqb_refl. cbn. lia.
    + rewrite u64_small by lia. eexists. split; [apply incr_tab; [lia|]|].
      * replace (d + 1 - 1) with d by lia. rewrite (proj2 (Z.eqb_neq d m)) by done. pose proof (Hfin d) as Hf. rewrite (proj2 (Z.eqb_neq d m)) in Hf by done.
        rewrite Hd, mirrors_app in Hf. assert (H1 : mirrors m d (d :: suf) = 1 + mirrors m d suf).
        { unfold mirrors. rewrite filter_cons, decide_True by done. cbn [length]. lia. }
        pose proof (mirrors_nonneg m d suf). pose proof (mirrors_nonneg m d pre). pose proof (cnt_nonneg d (sym_list (A m))). lia.
      * apply tab_ext. intros i Hi. rewrite mirrors_snoc, (proj2 (Z.eqb_neq d m)) by done. cbn [negb andb].
        destruct (Z.eqb_spec i (d + 1)), (Z.eqb_spec (i - 1) d); lia.
  - rewrite E1. cbn [mbind option_bind]. f_equal. f_equal. apply tab_ext. intros i Hi. by rewrite Hnext.
Qed.

Lemma any_next m : 0 <= m -> any_handles (fun _ => true) get (m + 1) = any_handles (fun _ => true) get m || negb (is_nil (ehs (get m))).
Proof. intros Hm. unfold any_handles. rewrite seqZ_app, existsb_app by lia. f_equal. rewrite seqZ_cons, seqZ_nil by lia. cbn. apply orb_false_r. Qed.

Lemma adj_counts_val : loop (adj_counts a) (zeros (n + 1), false) (seqZ 0 n) =
  Some (tab (n + 1) (fun i => cnt (i - 1) E), any_handles (fun _ => true) get n).
Proof.
  destruct (loop_seqZ (adj_counts a) (fun m st => st = (tab (n + 1) (fun i => cnt (i - 1) (sym_list (A m))), any_handles (fun _ => true) get m))
    0 n (zeros (n + 1), false)) as (st & E1 & ->); [done|by rewrite zeros_tab| |exact E1].
  intros m st Hm ->. eexists. split; [apply adj_counts_step; lia|]. by rewrite any_next by lia.
Qed.

Lemma adj_offsets_val : adj_offsets n (tab (n + 1) (fun i => cnt (i - 1) E)) = Some (tab (n + 1) (fun i => start i E)).
Proof.
  unfold adj_offsets. destruct (loop_seqZ (fun r i => p ← aget r (i - 1); add_at r i p)
    (fun i r => r = tab (n + 1) (fun j => if j <? i then start j E else cnt (j - 1) E)) 1 n (tab (n + 1) (fun i => cnt (i - 1) E))) as (r & E1 & ->).
  - done.
  - apply tab_ext. intros i Hi. destruct (Z.ltb_spec i 1); [|done]. replace i with 0 by lia.
    pose proof (start_succ (-1) E) as Hs. change (-1 + 1) with 0 in Hs. change (0 - 1) with (-1).
    assert (H0 : start 0 E = 0) by (apply start_zero; intros p Hp; apply E_range in Hp; lia).
    pose proof (start_nonneg (-1) E). pose proof (cnt_nonneg (-1) E). lia.
  - intros i r Hi ->. rewrite tab_get by lia. cbn [mbind option_bind]. rewrite (proj2 (Z.ltb_lt (i - 1) i)) by lia.
    pose proof (start_succ (i - 1) E) as Hs. replace (i - 1 + 1) with i in Hs by lia.
    pose proof (start_total i E). pose proof (start_nonneg i E).
    rewrite add_at_tab; [|lia|rewrite (proj2 (Z.ltb_ge i i)) by lia; lia]. eexists. split; [done|]. apply tab_ext. intros j Hj.
    destruct (Z.eqb_spec j i) as [->|Hji]; [rewrite (proj2 (Z.ltb_ge i i)), (proj2 (Z.ltb_lt i (i + 1))) by lia; lia|].
    destruct (Z.ltb_spec j i), (Z.ltb_spec j (i + 1)); try lia; done.
  - rewrite E1. f_equal. apply tab_ext. intros j Hj. by rewrite (proj2 (Z.ltb_lt _ _)) by lia.
Qed.

Lemma take_tab {B} m k (f : Z -> B) : 0 <= m <= k -> take (Z.to_nat m) (tab k f) = tab m f.
Proof.
  intros Hm. apply tab_unique; [rewrite length_take, tab_length; lia|]. intros i Hi.
  pose proof (tab_get k f i ltac:(lia)) as Hg. apply aget_Some in Hg as [_ Hg]. apply aget_Some. split; [lia|].
  by rewrite lookup_take_lt by lia.
Qed.

(** ** Scattering *)

Abbreviation verts := (tab (n + 1) (fun i => start i E)).

(** The state after the arcs [pre] were emitted. *)
Definition emitted (pre : list (Z * slot)) (st : list Z * cols W) : Prop :=
  exists out, rows (ws, hs) out (snd st) /\ placed E pre out /\ fst st = tab n (fun v => start v E + cnt v pre).

Lemma set_slot_norm (c : cols W) i d w h : set_slot c i (d, Some w, Some h) =
  set_slot c i (d, if present (cW c) then Some w else None, if present (cH c) then Some h else None).
Proof. unfold set_slot. destruct c as [ce [cw|] [ch|]]; done. Qed.

Lemma adj_emit_val pre suf src d w h st : E = pre ++ (src, (d, if ws then Some w else None, if hs then Some h else None)) :: suf ->
  0 <= src < n -> emitted pre st ->
  exists st', adj_emit verts src d w h st = Some st' /\
  emitted (pre ++ [(src, (d, if ws then Some w else None, if hs then Some h else None))]) st'.
Proof.
  intros HE Hsrc (out & Hr & Hp & Hcur). set (x := (d, if ws then Some w else None, if hs then Some h else None)) in *.
  destruct (placed_step E pre src x suf out HE Hp) as [Hin Hp']. destruct st as [cur cs]. cbn [fst snd] in *. subst cur.
  assert (Hc : cnt src E = cnt src pre + (1 + cnt src suf)) by (rewrite HE at 1; rewrite cnt_app, cnt_cons; cbn [fst]; by rewrite Z.eqb_refl).
  pose proof (start_succ src E) as Hs. pose proof (cnt_nonneg src suf). pose proof (start_total (src + 1) E).
  unfold adj_emit. cbn [fst snd]. rewrite (tab_get n (fun v => start v E + cnt v pre) src) by lia. cbn [mbind option_bind]. rewrite (u64_small (src + 1)) by lia.
  rewrite (tab_get (n + 1) (fun i => start i E)) by lia. cbn [mbind option_bind]. rewrite (proj2 (Z.leb_gt _ _)) by lia.
  rewrite u64_small by lia. rewrite tab_set by lia. cbn [mbind option_bind]. rewrite set_slot_norm.
  pose proof (r_shape _ _ _ Hr) as Hshape. unfold shape in Hshape. injection Hshape as -> ->. fold x.
  assert (Hx : fits (ws, hs) x) by (unfold fits, x; cbn; by destruct ws, hs).
  destruct (set_rows (ws, hs) out cs (start src E + cnt src pre) x Hr Hx) as (cs' & Es & Hr'); [by rewrite (proj1 Hp)|].
  rewrite Es. cbn [mbind option_bind]. eexists. split; [done|]. eexists. cbn [fst snd]. split; [exact Hr'|]. split; [exact Hp'|].
  apply tab_ext. intros v Hv. rewrite cnt_app, cnt_cons. cbn [fst]. change (cnt v []) with 0. destruct (Z.eqb_spec v src) as [->|]; lia.
Qed.

Lemma adj_arcs_val m : 0 <= m < n -> forall nb j pre suf st, nb = drop j (nbs (get m)) ->
  E = pre ++ sym_list (pair m <$> drop j (entry_slots zeroW ws hs (get m))) ++ suf -> emitted pre st ->
  exists st', adj_arcs zeroW verts m (get m) (Z.of_nat j) nb st = Some st' /\
  emitted (pre ++ sym_list (pair m <$> drop j (entry_slots zeroW ws hs (get m)))) st'.
Proof.
  intros Hm nb. set (e := get m) in *. induction nb as [|d nb IH]; intros j pre suf st Hnb HE Hst.
  - assert (Hd : drop j (entry_slots zeroW ws hs e) = []).
    { apply drop_ge. rewrite entry_slots_length. assert (Hl : length (drop j (nbs e)) = 0%nat) by by rewrite <- Hnb. rewrite length_drop in Hl. lia. }
    rewrite Hd. exists st. split; [done|]. by rewrite app_nil_r.
  - assert (Hj : nbs e !! j = Some d) by (rewrite <- (Nat.add_0_r j), <- lookup_drop, <- Hnb; done).
    assert (Hdr : 0 <= d < n) by (apply (Hrange m); [done|]; by eapply list_elem_of_lookup_2).
    assert (Hsj : entry_slots zeroW ws hs e !! j = Some (slot_at zeroW ws hs e j d)) by (unfold entry_slots; by rewrite list_lookup_imap, Hj).
    assert (Hnb' : nb = drop (S j) (nbs e)) by (rewrite (drop_S _ _ _ Hj) in Hnb; by injection Hnb).
    rewrite (drop_S _ _ _ Hsj), fmap_cons in HE |- *. cbn [sym_list flat_map] in HE |- *. fold (sym_list (pair m <$> drop (S j) (entry_slots zeroW ws hs e))) in *.
    cbn [adj_arcs]. assert (Hw : (match cW (snd st) with Some _ => default zeroW (aget (ews e) (Z.of_nat j)) | None => zeroW end) =
      if ws then default zeroW (ews e !! j) else zeroW).
    { destruct Hst as (out & Hr & _). pose proof (r_shape _ _ _ Hr) as Hshape. unfold shape in Hshape. injection Hshape as Sw _.
      rewrite aget_nat. by destruct (cW (snd st)), ws. }
    rewrite Hw, aget_nat. set (w := if ws then default zeroW (ews e !! j) else zeroW). set (h := default 0 (default [] (ehs e) !! j)).
    assert (Hx : slot_at zeroW ws hs e j d = (d, if ws then Some w else None, if hs then Some h else None)) by (unfold slot_at, w; by destruct ws).
    rewrite Hx in *. unfold emits, mirror in *. cbn [fst snd dst] in *. rewrite <- !app_assoc in HE. cbn [app] in HE.
    destruct (adj_emit_val pre _ m d w h st HE Hm Hst) as (st1 & E1 & H1). rewrite E1. cbn [mbind option_bind].
    set (x := (d, if ws then Some w else None, if hs then Some h else None)) in *.
    assert (Hmid : exists st2, (if d =? m then Some st1 else adj_emit verts d m w h st1) = Some st2 /\
      emitted (pre ++ (m, x) :: (if d =? m then [] else [flip (m, x)])) st2).
    { destruct (Z.eqb_spec d m) as [->|Hne]; [by exists st1|]. cbn [app] in HE.
      destruct (adj_emit_val (pre ++ [(m, x)]) (sym_list (pair m <$> drop (S j) (entry_slots zeroW ws hs e)) ++ suf) d m w h st1) as (st2 & E2 & H2);
        [by rewrite <- app_assoc|done|done|]. exists st2. split; [done|]. by rewrite <- app_assoc in H2. }
    destruct Hmid as (st2 & E2 & H2). rewrite E2. cbn [mbind option_bind]. replace (Z.of_nat j + 1) with (Z.of_nat (S j)) by lia.
    destruct (IH (S j) (pre ++ (m, x) :: (if d =? m then [] else [flip (m, x)])) suf st2 Hnb') as (st3 & E3 & H3); [by rewrite <- app_assoc|done|].
    exists st3. split; [done|]. rewrite <- app_assoc in H3. exact H3.
Qed.

Lemma adj_scatter_val out0 cs0 : rows (ws, hs) out0 cs0 -> length out0 = length E ->
  exists cur cs out, loop (fun s id => adj_arcs zeroW verts id (get id) 0 (nbs (get id)) s) (tab n (fun v => start v E), cs0) (seqZ 0 n) = Some (cur, cs) /\
  rows (ws, hs) out cs /\ placed E E out.
Proof.
  intros Hr0 Hl0. destruct (loop_seqZ (fun s id => adj_arcs zeroW verts id (get id) 0 (nbs (get id)) s)
    (fun m st => emitted (sym_list (A m)) st) 0 n (tab n (fun v => start v E), cs0)) as ([cur cs] & E1 & out & Hr & Hp & _).
  - done.
  - assert (HA : A 0 = []) by (unfold all_slots; by rewrite seqZ_nil by lia). rewrite HA.
    exists out0. split; [done|]. split; [by apply placed_nil|]. cbn [fst]. apply tab_ext. intros v _. change (cnt v (sym_list [])) with 0. lia.
  - intros m st Hm Hst. destruct (all_split m ltac:(lia)) as [rest HE].
    destruct (adj_arcs_val m ltac:(lia) (nbs (get m)) 0 _ rest st eq_refl HE Hst) as (st' & E' & H').
    exists st'. split; [exact E'|]. rewrite drop_0 in H'. by rewrite all_next, sym_list_app by lia.
  - exists cur, cs, out. by split.
Qed.

(** What the one-pass build returns. *)
Lemma BuildSymmetricFromAdjList_val : 0 < n -> adjMaxNodeID a = n -> ws = weighted hasWeights a -> hs = any_handles (fun _ => true) get n ->
  exists r out, BuildSymmetricFromAdjList zeroW hasWeights a a = Some r /\ wf (ws, hs) out r /\ MaxNodeID r = n /\ symmetric r = true /\
    order r = adjOrder a /\ size r = Z.of_nat (length out) /\
    forall v, 0 <= v < n -> stable_sort_of slot_lt (bucket v E) (run (vertices r) v out).
Proof.
  intros Hpos Hmax Hws Hhs. unfold BuildSymmetricFromAdjList. rewrite Hmax, (proj2 (Z.eqb_neq n 0)) by lia.
  rewrite adj_counts_val. cbn [mbind option_bind fst snd]. rewrite adj_offsets_val. cbn [mbind option_bind].
  rewrite tab_get by lia. cbn [mbind option_bind]. rewrite take_tab by lia.
  assert (Hend : start n E = Z.of_nat (length E)) by (apply start_all; intros p Hp; apply E_range in Hp; lia).
  destruct (adj_scatter_val _ _ (zero_rows zeroW (start n E) ws hs)) as (cur & cs & out & E1 & Hr & Hp); [rewrite length_replicate; lia|].
  fold (weighted hasWeights a). rewrite <- Hws, <- Hhs, E1. cbn [mbind option_bind snd].
  destruct (wf_of_placed (ws, hs) E out cs n (adjOrder a) (start n E) false) as [Hwf Hrun]; try done; try (intros p Hp'; by apply E_range).
  destruct (order_wf (ws, hs) _ _ true Hwf) as (o & l' & E2 & Hwf' & Hsort). cbn [vertices arcs order size] in *.
  rewrite E2. cbn [mbind option_bind].
  assert (Hm : forall (o : cols W) sz sy, MaxNodeID (mkCSR (tab (n + 1) (fun j => start j E)) o (adjOrder a) sz sy) = n).
  { intros. unfold MaxNodeID. cbn [vertices]. rewrite tab_length. lia. }
  eexists _, l'. split; [done|]. split; [exact Hwf'|]. split; [apply Hm|]. split; [done|]. split; [done|]. split.
  { rewrite <- (wf_end _ _ _ Hwf'), Hm. unfold vert. cbn [vertices size]. rewrite tab_get by lia. done. }
  intros v Hv. cbn [vertices]. rewrite <- Hrun by done. apply Hsort. by rewrite Hm.
Qed.
End build.

(** The one-pass build is the directed build followed by the projection. *)
Lemma one_pass a : 0 < adjMaxNodeID a -> adjacency_ok zeroW hasWeights a None (fun _ => true) ->
  (forall ws hs, 2 * Z.of_nat (length (all_slots zeroW (fun _ => true) ws hs (LoadEntryH a) (adjMaxNodeID a))) < 2 ^ 64) ->
  exists c r, BuildFromAdjList zeroW hasWeights a a = Some c /\ BuildSymmetric zeroW c = Some r /\
    BuildSymmetricFromAdjList zeroW hasWeights a a = Some r.
Proof.
  intros Hpos HA Hbig. set (n := adjMaxNodeID a) in *.
  destruct (build_correct zeroW hasWeights a None None Hpos HA) as (c & l & E1 & Hc & Hm & Ho & Hsz & Hsz' & _ & Hruns).
  cbn [filter_of default] in *. set (hs := handled a None (fun _ => true)) in *. set (ws := weighted hasWeights a) in *.
  change (entry_of a None) with (LoadEntryH a) in *. fold n in Hm, Hsz', Hruns.
  set (A := all_slots zeroW (fun _ => true) ws hs (LoadEntryH a) n) in *.
  assert (Hlen : length (arc_list c l) = length A).
  { rewrite <- (length_fmap snd), (arc_list_snd _ _ _ Hc). lia. }
  pose proof (sym_length (arc_list c l)) as Hl1. pose proof (sym_length A) as Hl2. specialize (Hbig ws hs). fold A in Hbig.
  destruct (BuildSymmetric_val zeroW (ws, hs) l c Hc ltac:(lia) ltac:(lia)) as (r & out & E2 & Hr & Hrm & Hrs & Hro & _ & Hrz & Hrr).
  destruct (BuildSymmetricFromAdjList_val ws hs a n) as (r' & out' & E3 & Hr' & Hrm' & Hrs' & Hro' & Hrz' & Hrr'); try done; try (destruct HA; lia); try (by destruct HA).
  { fold A. lia. }
  exists c, r. split; [exact E1|]. split; [exact E2|]. rewrite E3. f_equal.
  assert (Hruns' : forall v, 0 <= v < n -> run (vertices r') v out' = run (vertices r) v out).
  { intros v Hv. eapply (stable_unique slot_lt); [by apply Hrr'|].
    assert (HA' : all_slots zeroW (fun _ => true) ws hs (LoadEntryH a) n = flat_map (fun u => pair u <$> entry_slots zeroW ws hs (LoadEntryH a u)) (seqZ 0 n)).
    { apply flat_map_same. intros u _. by rewrite node_all. }
    rewrite HA'. apply (sym_stable v _ (fun u => run (vertices c) u l)).
    - intros u Hu%elem_of_seqZ. rewrite <- (node_all ws hs u). apply Hruns. lia.
    - specialize (Hrr v ltac:(lia)). unfold arc_list in Hrr. by rewrite Hm in Hrr. }
  pose proof (slots_ext _ _ _ _ _ Hr' Hr ltac:(congruence) ltac:(by rewrite Hrm')) as Hout.
  apply (wf_ext (ws, hs) out' out r' r Hr' Hr); try congruence. by rewrite Hrm'.
Qed.
End symadj.
