(* ===== verification/CsrChecks.v ===== *)
(** * Compressed sparse rows: the checks and the readers

    What [Validate] accepts, and what [RunsOrdered], [NeighboursByID] and
    [NeighbourRange] answer on it. *)

From Stdlib Require Import ZArith Lia Sorted.
From stdpp Require Import list_numbers sorting.
From S2P Require Import Prelude StableSort Csr CsrRows CsrGraph CsrScatter CsrViews.

Local Open Scope Z_scope.

(** ** The two scans of [Validate] *)

Lemma check_monotone_None vs : forall i prev, check_monotone i prev vs = None <-> Sorted Z.le (prev :: vs).
Proof.
  induction vs as [|v vs IH]; intros i prev; cbn [check_monotone].
  { split; [|done]. intros _. by repeat constructor. }
  destruct (Z.ltb_spec v prev) as [Hlt|Hge].
  - split; [done|]. intros HS. apply Sorted_inv in HS as [_ HS]. apply HdRel_inv in HS. lia.
  - rewrite IH. split; [intros HS; constructor; [done|constructor; lia]|]. intros HS. by apply Sorted_inv in HS as [? _].
Qed.

Lemma check_range_None n es : forall k, check_range k n es = None <-> Forall (fun d => d < n) es.
Proof.
  induction es as [|d es IH]; intros k; cbn [check_range]; [done|]. rewrite Forall_cons. destruct (Z.leb_spec n d).
  - split; [done|]. lia.
  - rewrite IH. split; [by split|by intros [_ ?]].
Qed.

Lemma last_vert verts : verts <> [] -> List.last verts 0 = vert verts (Z.of_nat (length verts) - 1).
Proof.
  intros Hne. destruct (exists_last Hne) as (l & x & ->). rewrite last_last. unfold vert.
  rewrite length_app. cbn [length]. replace (Z.of_nat (length l + 1) - 1) with (Z.of_nat (length l)) by lia.
  rewrite aget_nat, lookup_app_r, Nat.sub_diag by done. done.
Qed.

Lemma sorted_verts verts : Sorted Z.le verts <-> (forall i, 0 <= i < Z.of_nat (length verts) - 1 -> vert verts i <= vert verts (i + 1)).
Proof.
  induction verts as [|v vs IH]; [split; [cbn; lia|constructor]|]. assert (Htl : forall i, 0 <= i -> vert (v :: vs) (i + 1) = vert vs i).
  { intros i Hi. unfold vert, aget. rewrite !decide_True by lia. replace (Z.to_nat (i + 1)) with (S (Z.to_nat i)) by lia. done. }
  split.
  - intros HS i Hi. apply Sorted_inv in HS as [HS Hh]. destruct (decide (i = 0)) as [->|Hne].
    + rewrite Htl by lia. destruct vs as [|w vs]; [cbn in Hi; lia|]. by apply HdRel_inv in Hh.
    + rewrite Htl by lia. replace i with ((i - 1) + 1) by lia. rewrite Htl by lia. apply IH; [done|cbn [length] in Hi; lia].
  - intros H. constructor.
    + apply IH. intros i Hi. rewrite <- !Htl by lia. apply H. cbn [length]. lia.
    + destruct vs as [|w vs]; constructor. specialize (H 0 ltac:(cbn [length]; lia)). by rewrite Htl in H by lia.
Qed.

Section checks.
Context {W : Type} (zeroW : W).
Implicit Types (c : @CSR W).
Abbreviation slot := (Z * option W * option Z)%type.
Implicit Types (x y : slot).

(** The fields of a snapshot as machine words. *)
Record machine c : Prop := {
  m_first : 0 <= vert (vertices c) 0;
  m_edges : Forall (fun d => 0 <= d) (edges c);
  m_edges_len : Z.of_nat (length (edges c)) < 2 ^ 64;
  m_verts_len : Z.of_nat (length (vertices c)) < 2 ^ 64;
}.

Lemma Validate_offsets c : machine c -> Validate c = None ->
  offsets (vertices c) (Z.of_nat (length (edges c))) /\ Forall (fun d => 0 <= d < MaxNodeID c) (edges c) /\
  (forall w, weights c = Some w -> length w = length (edges c)).
Proof.
  intros HM HV. destruct HM as [M1 M2 M3 M4]. unfold Validate in HV. destruct (vertices c) as [|v0 vs] eqn:Ev; [done|].
  rewrite <- Ev in *. assert (Hne : vertices c <> []) by (by rewrite Ev).
  destruct (Z.eqb_spec (Z.of_nat (length (edges c))) (List.last (vertices c) 0)) as [Hl|]; [|done]. cbn [negb] in HV.
  destruct (check_monotone 1 v0 vs) eqn:Em; [done|]. apply check_monotone_None in Em. rewrite <- Ev in Em.
  assert (HR : check_range 0 (Z.of_nat (length vs)) (edges c) = None /\ (forall w, weights c = Some w -> length w = length (edges c))).
  { destruct (weights c) as [w|]; [|by split]. destruct (Nat.eqb_spec (length w) (length (edges c))); [|done]. split; [done|]. by intros ? [= <-]. }
  clear HV. destruct HR as [HR HW]. apply check_range_None in HR. split; [|split; [|done]].
  - split; [rewrite Ev; cbn; lia|done|by apply sorted_verts| |lia]. rewrite Hl. by rewrite last_vert.
  - apply Forall_forall. intros d Hd. rewrite Forall_forall in HR, M2. specialize (HR d Hd). specialize (M2 d Hd).
    unfold MaxNodeID. rewrite Ev. cbn [length]. lia.
Qed.

(** ** One node's arcs *)

Lemma mapM_seqZ {A} (f : Z -> option A) (g : Z -> A) lo n : (forall i, lo <= i < lo + n -> f i = Some (g i)) ->
  mapM f (seqZ lo n) = Some (g <$> seqZ lo n).
Proof.
  intros H. apply mapM_Some. apply Forall2_fmap_r, Forall_Forall2_diag, Forall_forall. intros i Hi%elem_of_seqZ. by apply H.
Qed.

Lemma neighbours_total c src : 0 <= src < 2 ^ 64 - 1 -> machine c -> Validate c = None ->
  exists l, NeighboursByID zeroW src c = Some l /\ (forall d w, (d, w) ∈ l -> 0 <= d < MaxNodeID c) /\
    (MaxNodeID c <= src -> l = []).
Proof.
  intros Hs HM HV. destruct (Validate_offsets c HM HV) as (HO & HE & HW). pose proof (o_nonempty _ _ HO) as Hne.
  unfold NeighboursByID. rewrite u64_small by lia. destruct (Z.leb_spec (Z.of_nat (length (vertices c))) (src + 1)) as [Hle|Hgt].
  { exists []. split; [done|]. split; [intros d w Hd; by apply not_elem_of_nil in Hd|done]. }
  rewrite !vert_get by lia. cbn [mbind option_bind].
  pose proof (vert_bounds _ _ src HO ltac:(lia)) as Hb1. pose proof (vert_bounds _ _ (src + 1) HO ltac:(lia)) as Hb2.
  rewrite (mapM_seqZ _ (fun i => (default 0 (aget (edges c) i), match weights c with None => zeroW | Some ws => default zeroW (aget ws i) end))).
  - eexists. split; [done|]. split; [|unfold MaxNodeID; lia]. intros d w (i & [= -> ->] & Hi)%list_elem_of_fmap.
    apply elem_of_seqZ in Hi. destruct (aget_is_Some (edges c) i ltac:(lia)) as [x Hx]. rewrite Hx. cbn.
    rewrite Forall_forall in HE. apply HE. apply aget_Some in Hx as [_ Hx]. by eapply list_elem_of_lookup_2.
  - intros i Hi. destruct (aget_is_Some (edges c) i ltac:(lia)) as [x Hx]. destruct (weights c) as [ws|]; cbn [mbind option_bind].
    + destruct (aget_is_Some ws i) as [w Hw]; [rewrite (HW ws) by done; lia|]. rewrite Hw. cbn [mbind option_bind]. by rewrite Hx.
    + by rewrite Hx.
Qed.

(** The largest id passes the range check and indexes past the offsets. *)
Lemma neighbours_wrap c : vertices c <> [] -> Z.of_nat (length (vertices c)) < 2 ^ 64 -> NeighboursByID zeroW (2 ^ 64 - 1) c = None.
Proof.
  intros Hne Hl. unfold NeighboursByID. change (u64 (2 ^ 64 - 1 + 1)) with 0. destruct (vertices c) as [|v vs] eqn:Ev; [done|]. rewrite <- Ev in *.
  rewrite (proj2 (Z.leb_gt _ _)) by (rewrite Ev; cbn [length]; lia).
  destruct (aget (vertices c) (2 ^ 64 - 1)) eqn:E; [|done]. apply aget_range in E. lia.
Qed.

(** ** Well-formed snapshots pass *)

Lemma wf_Validate s l c : wf s l c -> Validate c = None.
Proof.
  intros H. pose proof (wf_rows _ _ _ H) as Hr. pose proof (rows_length _ _ _ Hr) as Hlen. pose proof (wf_offsets _ _ _ H) as HO.
  unfold Validate. pose proof (o_nonempty _ _ HO) as Hne. destruct (vertices c) as [|v0 vs] eqn:Ev; [cbn in Hne; lia|]. rewrite <- Ev in *.
  rewrite last_vert by (by rewrite Ev). pose proof (wf_end _ _ _ H) as Hlast. rewrite <- (Z.add_simpl_r (MaxNodeID c) 1) in Hlast. rewrite <- (max_length c s l H) in Hlast. rewrite Hlast. unfold edges. rewrite Hlen, Z.eqb_refl. cbn [negb].
  assert (Hm : check_monotone 1 v0 vs = None) by (apply check_monotone_None; rewrite <- Ev; apply sorted_verts, (o_mono _ _ HO)). rewrite Hm.
  assert (HR : check_range 0 (Z.of_nat (length vs)) (cE (arcs c)) = None).
  { apply check_range_None. rewrite (r_edges _ _ _ Hr). apply Forall_fmap, Forall_forall. intros x Hx. cbn.
    pose proof (wf_range _ _ _ H x Hx) as Hd. unfold MaxNodeID in Hd. rewrite Ev in Hd. cbn [length] in Hd. lia. }
  rewrite HR. destruct (weights c) as [w|] eqn:Ew; [|done]. pose proof (r_weights _ _ _ Hr) as Hc. unfold weights in Ew. rewrite Ew in Hc. cbn in Hc.
  rewrite <- (length_fmap Some w), <- Hc, length_fmap, Nat.eqb_refl. done.
Qed.

(** A run in order is found in order. *)
Lemma ordered_true s l (c : cols W) : rows s l c -> ordered slot_lt l -> forall ks, Forall (fun k => 1 <= k < Z.of_nat (length l)) ks ->
  run_ordered_loop c ks = Some true.
Proof.
  intros Hc Ho. induction 1 as [|k ks Hk _ IH]; [done|]. cbn [run_ordered_loop].
  destruct (aget_is_Some l k ltac:(lia)) as [y Hy]. destruct (aget_is_Some l (k - 1) ltac:(lia)) as [x Hx].
  rewrite (lessKeyAt_rows s l c _ _ y x Hc Hy Hx). cbn [mbind option_bind].
  assert (Hle : le slot_lt x y).
  { apply aget_Some in Hx as [_ Hx], Hy as [_ Hy]. apply (sorted_lookup _ l (Z.to_nat (k - 1)) (Z.to_nat k)); [done|lia|done..]. }
  unfold le in Hle. by rewrite Hle.
Qed.

Lemma run_in_order s l (c : cols W) : rows s l c -> runOrdered c = Some true -> ordered slot_lt l.
Proof.
  intros Hc HR. unfold runOrdered in HR. rewrite (rows_length _ _ _ Hc) in HR. destruct l as [|x l]; [constructor|].
  destruct (run_ordered_loop_rows s (x :: l) c Hc (length l) 1) as (b & E & Hb); [done|done|apply short_ordered; rewrite length_take; lia|].
  cbn [length] in HR. replace (Z.of_nat (S (length l)) - 1) with (Z.of_nat (length l)) in HR by lia. change (Z.of_nat 1) with 1 in E. apply Hb. congruence.
Qed.

Lemma sub_edges_handles s l (c : cols W) lo hi : rows s l c -> 0 <= lo <= hi -> hi <= Z.of_nat (length l) ->
  exists e h, aslice lo hi (cE c) = Some e /\ subSlice (cH c) lo hi = Some h /\
    exists s', rows s' ((fun x => (dst x, None, hd x)) <$> slice lo hi l) (mkCols e None h : cols W).
Proof.
  intros Hc H1 H2. destruct (sub_rows s l c lo hi Hc H1 H2) as (part & E & Hp). unfold sub_cols in E.
  destruct (aslice lo hi (cE c)) as [e|]; [|done]. cbn [mbind option_bind] in E.
  destruct (subSlice (cW c) lo hi) as [w|]; [|done]. cbn [mbind option_bind] in E.
  destruct (subSlice (cH c) lo hi) as [h|]; [|done]. cbn [mbind option_bind] in E. injection E as <-.
  exists e, h. split; [done|]. split; [done|]. exists (false, present h). destruct Hp as [S1 S2 S3 S4]. cbn in *.
  split; cbn [cE cW cH]; [done| | |].
  - by rewrite S2, <- list_fmap_compose.
  - rewrite <- list_fmap_compose. cbn. apply Forall_fmap, Forall_forall. done.
  - by rewrite <- list_fmap_compose.
Qed.

Lemma wf_RunsOrdered s l c : wf s l c -> runs_ordered (vertices c) (MaxNodeID c) l -> RunsOrdered c = Some true.
Proof.
  intros H Ho. pose proof (max_length c s l H) as Hm. pose proof (wf_offsets _ _ _ H) as HO. unfold RunsOrdered.
  assert (Hall : Forall (fun i => 0 <= i < MaxNodeID c) (seqZ 0 (Z.of_nat (length (vertices c)) - 1))).
  { apply Forall_forall. intros i Hi%elem_of_seqZ. lia. }
  induction Hall as [|i ks Hi _ IH]; [done|]. cbn [RunsOrdered_loop]. rewrite !vert_get by lia. cbn [mbind option_bind].
  pose proof (vert_bounds _ _ i HO ltac:(lia)). pose proof (vert_bounds _ _ (i + 1) HO ltac:(lia)). pose proof (o_mono _ _ HO i ltac:(lia)).
  pose proof (rows_length _ _ _ (wf_rows _ _ _ H)) as Hlen. unfold edges.
  rewrite (proj2 (Z.ltb_ge _ _)) by lia. rewrite (proj2 (Z.ltb_ge _ _)) by lia. cbn [orb].
  destruct (sub_edges_handles s l (arcs c) (vert (vertices c) i) (vert (vertices c) (i + 1)) (wf_rows _ _ _ H)) as (e & h & E1 & E2 & s' & Hp); [lia|lia|].
  unfold handles. rewrite E1. cbn [mbind option_bind]. rewrite E2. cbn [mbind option_bind]. unfold runOrdered.
  rewrite (ordered_true s' _ _ Hp); [done| |].
  - specialize (Ho i Hi). unfold run in Ho. revert Ho. generalize (slice (vert (vertices c) i) (vert (vertices c) (i + 1)) l).
    induction 1 as [|x r Hr IHr Hx]; [constructor|]. rewrite fmap_cons. constructor; [done|]. by apply Forall_fmap.
  - apply Forall_forall. intros k Hk%elem_of_seqZ. rewrite (rows_length _ _ _ Hp) in Hk. lia.
Qed.

(** What a reader gets of node [u]. *)
Definition arcs_of c (u : Z) : list (Z * W) := default [] (NeighboursByID zeroW u c).
Definition arc_of x : Z * W := (dst x, default zeroW (wt x)).

Lemma wf_neighbours s l c u : wf s l c -> 0 <= u < MaxNodeID c ->
  NeighboursByID zeroW u c = Some (arc_of <$> run (vertices c) u l).
Proof.
  intros H Hu. pose proof (max_length c s l H) as Hm. pose proof (wf_offsets _ _ _ H) as HO. pose proof (wf_ids _ _ _ H).
  pose proof (vert_bounds _ _ u HO ltac:(lia)). pose proof (vert_bounds _ _ (u + 1) HO ltac:(lia)). pose proof (o_mono _ _ HO u ltac:(lia)).
  unfold NeighboursByID. rewrite u64_small by lia. rewrite (proj2 (Z.leb_gt _ _)) by lia. rewrite !vert_get by lia. cbn [mbind option_bind].
  rewrite (mapM_seqZ _ (fun i => default (0, zeroW) (arc_of <$> aget l i))).
  - f_equal. apply list_eq. intros k. rewrite !list_lookup_fmap. unfold run, slice.
    destruct (decide (k < Z.to_nat (vert (vertices c) (u + 1) - vert (vertices c) u))%nat).
    + rewrite lookup_seqZ_lt by lia. rewrite lookup_take_lt, lookup_drop by done. cbn.
      destruct (aget_is_Some l (vert (vertices c) u + Z.of_nat k) ltac:(lia)) as [x Hx]. rewrite Hx. cbn.
      apply aget_Some in Hx as [_ Hx]. replace (Z.to_nat (vert (vertices c) u) + k)%nat with (Z.to_nat (vert (vertices c) u + Z.of_nat k)) by lia. by rewrite Hx.
    + rewrite lookup_seqZ_ge by lia. by rewrite lookup_take_ge by lia.
  - intros i Hi. destruct (aget_is_Some l i ltac:(lia)) as [x Hx]. rewrite (edge_get s l c i x H Hx), Hx. cbn.
    pose proof (r_weights _ _ _ (wf_rows _ _ _ H)) as Hw. unfold weights, arc_of. destruct (cW (arcs c)) as [ws|] eqn:Ew; cbn in Hw.
    + assert (HwS : aget (Some <$> ws) i = Some (wt x)) by (by rewrite <- Hw, aget_fmap, Hx). rewrite aget_fmap in HwS.
      destruct (aget ws i) as [w|]; cbn in *; [|done]. injection HwS as <-. done.
    + cbn. rewrite Forall_forall in Hw. rewrite (Hw (wt x)); [done|]. apply list_elem_of_fmap_2. apply aget_Some in Hx as [_ Hx]. by eapply list_elem_of_lookup_2.
Qed.

(** And the columns behind it. *)
Lemma wf_range_cols s l c u : wf s l c -> 0 <= u < MaxNodeID c -> exists lo hi part,
  NeighbourRange u c = Some (Some (mkRange (edges c) lo hi)) /\ 0 <= lo <= hi /\ hi <= Z.of_nat (length (edges c)) /\
  slice lo hi (edges c) = dst <$> run (vertices c) u l /\ sub_cols lo hi (arcs c) = Some part /\ rows s (run (vertices c) u l) part.
Proof.
  intros H Hu. pose proof (max_length c s l H) as Hm. pose proof (wf_offsets _ _ _ H) as HO. pose proof (wf_ids _ _ _ H).
  pose proof (vert_bounds _ _ u HO ltac:(lia)). pose proof (vert_bounds _ _ (u + 1) HO ltac:(lia)). pose proof (o_mono _ _ HO u ltac:(lia)).
  pose proof (rows_length _ _ _ (wf_rows _ _ _ H)) as Hlen.
  destruct (sub_rows s l (arcs c) (vert (vertices c) u) (vert (vertices c) (u + 1)) (wf_rows _ _ _ H)) as (part & E & Hp); [lia|lia|].
  exists (vert (vertices c) u), (vert (vertices c) (u + 1)), part. split.
  { unfold NeighbourRange. rewrite u64_small by lia. rewrite (proj2 (Z.leb_gt _ _)) by lia. by rewrite !vert_get by lia. }
  split; [lia|]. split; [unfold edges; lia|]. split; [|by split]. unfold edges. by rewrite (r_edges _ _ _ (wf_rows _ _ _ H)), slice_fmap.
Qed.

(** ** From the checks to well-formedness *)

(** A snapshot the checks accept, with the parts of it they do not look at. *)
Record checked c : Prop := {
  ck_machine : machine c;
  ck_valid : Validate c = None;
  ck_first : vert (vertices c) 0 = 0;
  ck_handles : forall h, handles c = Some h -> length h = length (edges c);
}.

Definition nth_of {A} (col : option (list A)) (i : nat) : option A := col ≫= fun l => l !! i.
Definition slots_of (c : cols W) : list slot := imap (fun i d => (d, nth_of (cW c) i, nth_of (cH c) i)) (cE c).

Lemma column_of {A} (col : option (list A)) (f : slot -> option A) (l : list slot) :
  (forall w, col = Some w -> length w = length l) -> (forall i x, l !! i = Some x -> f x = nth_of col i) -> column_is col (f <$> l).
Proof.
  intros Hl Hf. destruct col as [w|]; cbn.
  - specialize (Hl w eq_refl). apply list_eq. intros i. rewrite !list_lookup_fmap. destruct (l !! i) as [x|] eqn:Ex; cbn.
    + rewrite (Hf i x Ex). cbn. destruct (lookup_lt_is_Some_2 w i) as [y Hy]; [rewrite Hl; by eapply lookup_lt_Some|]. by rewrite Hy.
    + by rewrite (lookup_ge_None_2 w) by (apply lookup_ge_None in Ex; lia).
  - apply Forall_fmap, Forall_forall. intros x (i & Hi)%list_elem_of_lookup. cbn. by rewrite (Hf i x Hi).
Qed.

Lemma slots_of_length (c : cols W) : length (slots_of c) = length (cE c).
Proof. apply length_imap. Qed.

Lemma slots_of_at (c : cols W) i x : slots_of c !! i = Some x -> wt x = nth_of (cW c) i /\ hd x = nth_of (cH c) i.
Proof. unfold slots_of. rewrite list_lookup_imap. intros (d & _ & ->)%fmap_Some. done. Qed.

Lemma checked_wf c : checked c -> wf (shape (arcs c)) (slots_of (arcs c)) c.
Proof.
  intros [HM HV H0 HH]. destruct (Validate_offsets c HM HV) as (HO & HE & HW). pose proof (o_nonempty _ _ HO) as Hne.
  assert (Hdst : cE (arcs c) = dst <$> slots_of (arcs c)).
  { unfold slots_of. rewrite fmap_imap. apply list_eq. intros i. rewrite list_lookup_imap. by destruct (cE (arcs c) !! i). }
  assert (Hend : vert (vertices c) (MaxNodeID c) = Z.of_nat (length (edges c))).
  { unfold Validate in HV. unfold MaxNodeID. destruct (vertices c) as [|v vs] eqn:Ev; [done|]. rewrite <- Ev in *.
    replace (Z.of_nat (length (vertices c) - 1)) with (Z.of_nat (length (vertices c)) - 1) by lia. rewrite <- last_vert by (by rewrite Ev).
    by destruct (Z.eqb_spec (Z.of_nat (length (edges c))) (List.last (vertices c) 0)). }
  split; rewrite ?slots_of_length; [|done|done|done| |].
  - split; [done|done| |].
    + apply column_of; [intros w Hw; rewrite slots_of_length; by apply HW|]. intros i x Hx. by apply slots_of_at in Hx as [? _].
    + apply column_of; [intros h Hh; rewrite slots_of_length; by apply HH|]. intros i x Hx. by apply slots_of_at in Hx as [_ ?].
  - intros x Hx. rewrite Forall_forall in HE. apply HE. unfold edges. rewrite Hdst. by apply list_elem_of_fmap_2.
  - pose proof (m_verts_len _ HM). unfold MaxNodeID. lia.
Qed.

Lemma RunsOrdered_runs s l c : wf s l c -> RunsOrdered c = Some true -> runs_ordered (vertices c) (MaxNodeID c) l.
Proof.
  intros H. pose proof (max_length c s l H) as Hm. pose proof (wf_offsets _ _ _ H) as HO. unfold RunsOrdered, runs_ordered.
  replace (Z.of_nat (length (vertices c)) - 1) with (MaxNodeID c) by lia. intros HR u Hu.
  assert (Hin : u ∈ seqZ 0 (MaxNodeID c)) by (apply elem_of_seqZ; lia).
  assert (Hall : Forall (fun i => 0 <= i < MaxNodeID c) (seqZ 0 (MaxNodeID c))) by (apply Forall_forall; intros i Hi%elem_of_seqZ; lia).
  revert HR Hin. induction Hall as [|i ks Hi _ IH]; [by intros _ ?%not_elem_of_nil|]. cbn [RunsOrdered_loop]. rewrite !vert_get by lia. cbn [mbind option_bind].
  pose proof (vert_bounds _ _ i HO ltac:(lia)). pose proof (vert_bounds _ _ (i + 1) HO ltac:(lia)). pose proof (o_mono _ _ HO i ltac:(lia)).
  pose proof (rows_length _ _ _ (wf_rows _ _ _ H)) as Hlen. unfold edges.
  rewrite (proj2 (Z.ltb_ge _ _)) by lia. rewrite (proj2 (Z.ltb_ge _ _)) by lia. cbn [orb].
  destruct (sub_edges_handles s l (arcs c) (vert (vertices c) i) (vert (vertices c) (i + 1)) (wf_rows _ _ _ H)) as (e & h & E1 & E2 & s' & Hp); [lia|lia|].
  unfold handles. rewrite E1. cbn [mbind option_bind]. rewrite E2. cbn [mbind option_bind].
  destruct (runOrdered (mkCols e None h)) as [b|] eqn:E3; [|done]. cbn [mbind option_bind]. destruct b; [|done].
  intros HR [->|Hin]%elem_of_cons; [|by apply IH]. change (slice _ _ l) with (run (vertices c) i l) in Hp.
  apply (run_in_order _ _ _ Hp) in E3. revert E3. generalize (run (vertices c) i l).
  induction l0 as [|x r IHr]; intros E3; [constructor|]. rewrite fmap_cons in E3. apply StronglySorted_inv in E3 as [E3 Ex].
  constructor; [by apply IHr|]. rewrite Forall_fmap in Ex. exact Ex.
Qed.

Lemma wf_checked s l c : wf s l c -> checked c.
Proof.
  intros H. pose proof (wf_rows _ _ _ H) as Hr. pose proof (rows_length _ _ _ Hr) as Hlen. pose proof (max_length c s l H) as Hm.
  split; [split|by eapply wf_Validate|apply H|].
  - rewrite (wf_first _ _ _ H). lia.
  - unfold edges. rewrite (r_edges _ _ _ Hr). apply Forall_fmap, Forall_forall. intros x Hx. cbn. apply (wf_range _ _ _ H) in Hx. lia.
  - unfold edges. rewrite Hlen. apply (o_total _ _ (wf_offsets _ _ _ H)).
  - rewrite Hm. apply H.
  - intros h Hh. pose proof (r_handles _ _ _ Hr) as Hc. unfold handles in Hh. rewrite Hh in Hc. cbn in Hc.
    unfold edges. by rewrite Hlen, <- (length_fmap Some h), <- Hc, length_fmap.
Qed.
End checks.
