(* ===== verification/CsrProps.v ===== *)
(** * Compressed sparse rows: the properties

    What the orderings, the builds, the two views and the checks of src/graph/csr
    promise, on snapshots the checks accept. *)

From Stdlib Require Import ZArith Lia Sorted.
From stdpp Require Import list_numbers sorting.
From S2P Require Import Prelude StableSort Csr CsrRows CsrGraph CsrScatter CsrViews CsrBuild CsrSymmetric CsrChecks.

Local Open Scope Z_scope.

Lemma fmap_flat_map {A B C} (g : B -> C) (f : A -> list B) us : g <$> flat_map f us = flat_map (fun u => g <$> f u) us.
Proof. induction us as [|u us IH]; [done|]. cbn [flat_map]. by rewrite fmap_app, IH. Qed.

Section props.
Context {W : Type} (zeroW : W) (hasWeights : bool).
Implicit Types (c : @CSR W) (a : adjacency (W := W)).
Abbreviation slot := (Z * option W * option Z)%type.

(** The arcs that enter a node, as the iterator lists them. *)
Definition arcs_into c (v : Z) : list (Z * W) :=
  flat_map (fun u => (fun p => (u, snd p)) <$> filter (fun p => fst p = v) (arcs_of zeroW c u)) (seqZ 0 (MaxNodeID c)).

(** ** Ordering *)

(** On any offsets the flat arrays can hold, [OrderRuns] does not panic and leaves in
    every run the stable rearrangement of that run by destination and handle, the
    weights and handles permuted with the destinations. *)
Theorem order_runs_stable s verts (l : list slot) (cs : cols W) : offsets verts (Z.of_nat (length l)) -> rows s l cs ->
  exists cs' l', OrderRuns verts cs = Some cs' /\ rows s l' cs' /\ length l' = length l /\
    forall u, 0 <= u < Z.of_nat (length verts) - 1 -> stable_sort_of slot_lt (run verts u l) (run verts u l').
Proof.
  intros HO Hc. destruct (OrderRuns_rows s verts l cs HO Hc) as (cs' & l' & E & Hr & Hl & _ & _ & Hs).
  exists cs', l'. by repeat (split; [done|]).
Qed.

(** ** Building *)

(** C28: Over an adjacency that holds still, every build (raw, filtered, at an instant)
    returns a snapshot that passes [Validate], with ordered runs and as many arcs as
    survive the filter; each node's run is the stable rearrangement of its surviving
    entry, with the weight and the handle of every arc beside it. *)
Theorem build_snapshot a instant live : 0 < adjMaxNodeID a -> adjacency_ok zeroW hasWeights a instant (filter_of live) ->
  exists c, buildFromAdjList zeroW hasWeights a a live instant = Some c /\ checked c /\ RunsOrdered c = Some true /\
    MaxNodeID c = adjMaxNodeID a /\ order c = adjOrder a /\ size c = Z.of_nat (length (edges c)) /\ symmetric c = false /\
    forall u, 0 <= u < adjMaxNodeID a -> exists xs lo hi part,
      stable_sort_of slot_lt (out_slots zeroW hasWeights a instant (filter_of live) u) xs /\
      NeighboursByID zeroW u c = Some (arc_of zeroW <$> xs) /\
      NeighbourRange u c = Some (Some (mkRange (edges c) lo hi)) /\ slice lo hi (edges c) = dst <$> xs /\
      sub_cols lo hi (arcs c) = Some part /\ rows (weighted hasWeights a, handled a instant (filter_of live)) xs part.
Proof.
  intros Hn HA. destruct (build_correct zeroW hasWeights a instant live Hn HA) as (c & l & E & Hc & Hm & Ho & Hz & _ & Hs & Hr).
  exists c. split; [done|]. split; [by eapply wf_checked|]. split.
  { eapply wf_RunsOrdered; [done|]. intros u Hu. destruct (Hr u) as [H _]; [lia|done]. }
  split; [done|]. split; [done|]. split.
  { unfold edges. by rewrite (rows_length _ _ _ (wf_rows _ _ _ Hc)). }
  split; [done|]. intros u Hu. destruct (wf_range_cols _ l c u Hc) as (lo & hi & part & H1 & _ & _ & H2 & H3 & H4); [lia|].
  exists (run (vertices c) u l), lo, hi, part. split; [by apply Hr|]. split; [apply (wf_neighbours zeroW _ l c u Hc); lia|]. by repeat (split; [done|]).
Qed.

(** C29: The ways of building agree: a filter that keeps every node changes nothing, and the
    one-pass symmetric build returns, array by array, the projection of the directed build. *)
Theorem builds_agree a : 0 < adjMaxNodeID a -> adjacency_ok zeroW hasWeights a None (fun _ => true) ->
  (forall ws hs, 2 * Z.of_nat (length (all_slots zeroW (fun _ => true) ws hs (LoadEntryH a) (adjMaxNodeID a))) < 2 ^ 64) ->
  exists c r, BuildFromAdjList zeroW hasWeights a a = Some c /\
    BuildFromAdjListLive zeroW hasWeights a a (Some (fun _ => true)) = Some c /\
    BuildSymmetric zeroW c = Some r /\ BuildSymmetricFromAdjList zeroW hasWeights a a = Some r.
Proof.
  intros Hn HA Hbig. destruct (one_pass zeroW hasWeights a Hn HA Hbig) as (c & r & E1 & E2 & E3).
  exists c, r. split; [done|]. split; [|done].
  destruct (build_correct zeroW hasWeights a None None Hn HA) as (c1 & l1 & F1 & Hc1 & Hm1 & Ho1 & Hz1 & Hn1 & Hs1 & Hr1).
  destruct (build_correct zeroW hasWeights a None (Some (fun _ => true)) Hn HA) as (c2 & l2 & F2 & Hc2 & Hm2 & Ho2 & Hz2 & Hn2 & Hs2 & Hr2).
  cbn [filter_of default] in *. unfold BuildFromAdjList, BuildFromAdjListLive, id in *. rewrite F1 in E1. injection E1 as ->. rewrite F2. f_equal.
  eapply (wf_ext _ l2 l1 c2 c Hc2 Hc1); try congruence.
  intros u Hu. eapply (stable_unique slot_lt); [apply Hr2; lia|]. apply Hr1. lia.
Qed.

(** ** The views *)

(** The reverse of a snapshot that passes the checks passes them, holds for every node
    exactly the arcs that enter it, sources ascending, keeps runs in order, and
    reversing it again gives back the snapshot. *)
Theorem reverse_snapshot c : checked c -> symmetric c = false -> 0 < MaxNodeID c ->
  exists r, BuildReverse zeroW c = Some r /\ checked r /\ symmetric r = false /\
    MaxNodeID r = MaxNodeID c /\ order r = order c /\ size r = size c /\
    (forall v, 0 <= v < MaxNodeID c -> NeighboursByID zeroW v r = Some (arcs_into c v)) /\
    (RunsOrdered c = Some true -> RunsOrdered r = Some true /\ BuildReverse zeroW r = Some c).
Proof.
  intros Hck Hs Hn. pose proof (checked_wf c Hck) as Hc. set (l := slots_of (arcs c)) in *.
  destruct (reverse_runs zeroW _ l c Hc Hs Hn) as (r & out & E & Hr & Hm & Hsr & Hor & Hzr & Hrun).
  exists r. split; [done|]. split; [by eapply wf_checked|]. do 4 (split; [done|]). split.
  - intros v Hv. rewrite (wf_neighbours zeroW _ out r v Hr) by lia. f_equal. rewrite Hrun by done. unfold arcs_into, into.
    rewrite fmap_flat_map. apply flat_map_same. intros u Hu%elem_of_seqZ. unfold arcs_of.
    rewrite (wf_neighbours zeroW _ l c u Hc) by lia. cbn [default]. unfold id.
    generalize (run (vertices c) u l). intros R. induction R as [|x R IH]; [done|]. rewrite fmap_cons, !filter_cons.
    change (fst (arc_of zeroW x)) with (dst x). case_decide; [|exact IH]. rewrite !fmap_cons, IH. done.
  - intros HR. apply (RunsOrdered_runs _ l c Hc) in HR. split.
    + eapply wf_RunsOrdered; [done|]. intros v Hv. rewrite Hrun by lia. by apply into_ordered.
    + destruct (reverse_twice zeroW _ l c Hc Hs Hn HR) as (r' & E1 & E2). congruence.
Qed.

(** The symmetric projection passes the checks with ordered runs, holds at every node its
    own arcs and the mirrors of the arcs that enter it, a self-loop once, and its mark is
    true: computed without it, its reverse is itself and [IsSymmetric] answers yes. *)
Theorem symmetric_snapshot c : checked c -> 0 < MaxNodeID c -> 2 * Z.of_nat (length (edges c)) < 2 ^ 64 ->
  exists r, BuildSymmetric zeroW c = Some r /\ checked r /\ RunsOrdered r = Some true /\ KnownSymmetric r = true /\
    MaxNodeID r = MaxNodeID c /\ order r = order c /\ size r = Z.of_nat (length (edges r)) /\
    (forall v, 0 <= v < MaxNodeID c -> exists xs, NeighboursByID zeroW v r = Some (arc_of zeroW <$> xs) /\
      stable_sort_of slot_lt (bucket v (sym_list (arc_list c (slots_of (arcs c))))) xs) /\
    BuildReverse zeroW (unmark r) = Some (unmark r) /\ IsSymmetric (unmark r) = Some true.
Proof.
  intros Hck Hn Hbig. pose proof (checked_wf c Hck) as Hc. set (l := slots_of (arcs c)) in *.
  assert (Hb : Z.of_nat (length (sym_list (arc_list c l))) < 2 ^ 64).
  { pose proof (sym_length (arc_list c l)) as Hl. rewrite <- (length_fmap snd (arc_list c l)), (arc_list_snd _ _ _ Hc) in Hl.
    unfold l in Hl at 2. rewrite slots_of_length in Hl. unfold edges in Hbig. lia. }
  destruct (BuildSymmetric_val zeroW _ l c Hc Hn Hb) as (r & out & E & Hr & Hm & Hs & Ho & _ & Hz & Hrun).
  destruct (symmetric_self_reverse zeroW _ l c r Hc Hn Hb E) as [HR HI].
  exists r. split; [done|]. split; [by eapply wf_checked|]. split.
  { eapply wf_RunsOrdered; [done|]. intros v Hv. destruct (Hrun v) as [H _]; [lia|done]. }
  do 3 (split; [done|]). split; [unfold edges; by rewrite (rows_length _ _ _ (wf_rows _ _ _ Hr))|]. split; [|done].
  intros v Hv. exists (run (vertices r) v out). split; [apply (wf_neighbours zeroW _ out r v Hr); lia|]. by apply Hrun.
Qed.

(** ** The checks *)

(** C36: On a snapshot [Validate] accepts, listing the neighbours of any id but the largest
    never panics and yields ids of the snapshot only, none for an id outside it; the
    largest 64-bit id wraps past the range check and panics. *)
Theorem validate_protects c : machine c -> Validate c = None ->
  (forall src, 0 <= src < 2 ^ 64 - 1 -> exists l, NeighboursByID zeroW src c = Some l /\
    (forall d w, (d, w) ∈ l -> 0 <= d < MaxNodeID c) /\ (MaxNodeID c <= src -> l = [])) /\
  NeighboursByID zeroW (2 ^ 64 - 1) c = None.
Proof.
  intros HM HV. split; [intros; by apply neighbours_total|]. apply neighbours_wrap; [|apply HM].
  unfold Validate in HV. by destruct (vertices c).
Qed.
End props.

(** ** Witnesses *)

Section witnesses.

(** Node 0 has two parallel arcs to node 1 whose handles are out of order, and one to
    node 2; node 1 has a self-loop and an arc without handles. *)
Definition wit_entry (id : Z) : entry (W := Z) :=
  if id =? 0 then mkEntry [2; 1; 1] [20; 11; 12] (Some [7; 9; 8])
  else if id =? 1 then mkEntry [1; 0] [5; 6] None
  else mkEntry [] [] None.
Definition wit_adj : adjacency := mkAdj 3 3 false wit_entry (fun id startTS _ => if startTS <? 10 then mkEntry [] [] None else wit_entry id).
Definition wit_live (id : Z) : bool := negb (id =? 2).

Lemma wit_ids id : 0 <= id < 3 -> id = 0 \/ id = 1 \/ id = 2.
Proof. lia. Qed.

Lemma wit_ok instant live : instant = None \/ instant = Some (10, 1) ->
  (forall ws hs, Z.of_nat (length (all_slots 0 live ws hs wit_entry 3)) < 2 ^ 64) -> adjacency_ok 0 true wit_adj instant live.
Proof.
  intros Hi Hb. assert (He : entry_of wit_adj instant = wit_entry) by (by destruct Hi as [->| ->]).
  split; rewrite ?He; [done..| | |exact Hb].
  - intros id [-> | [-> | ->]]%wit_ids; split; try done; by intros h [= <-].
  - intros id d Hid. revert d. apply Forall_forall. destruct (wit_ids id Hid) as [-> | [-> | ->]]; by repeat constructor.
Qed.

Lemma order_runs_stable_witness : exists cs' l',
  OrderRuns [0; 3; 4] (mkCols [2; 1; 1; 0] (Some [20; 11; 12; 5]) (Some [7; 9; 8; 1])) = Some cs' /\ rows (true, true) l' cs' /\ length l' = 4%nat /\
  forall u, 0 <= u < 2 -> stable_sort_of slot_lt (run [0; 3; 4] u [(2, Some 20, Some 7); (1, Some 11, Some 9); (1, Some 12, Some 8); (0, Some 5, Some 1)]) (run [0; 3; 4] u l').
Proof.
  apply (order_runs_stable (true, true) [0; 3; 4] [(2, Some 20, Some 7); (1, Some 11, Some 9); (1, Some 12, Some 8); (0, Some 5, Some 1)]
    (mkCols [2; 1; 1; 0] (Some [20; 11; 12; 5]) (Some [7; 9; 8; 1]))); [|by split].
  split; cbn; try done. intros i Hi. assert (i = 0 \/ i = 1) as [-> | ->] by lia; done.
Defined.

Lemma build_snapshot_witness : exists c, buildFromAdjList 0 true wit_adj wit_adj (Some wit_live) (Some (10, 1)) = Some c /\ checked c /\
  RunsOrdered c = Some true /\ size c = 4 /\ NeighboursByID 0 0 c = Some [(1, 12); (1, 11)] /\ NeighboursByID 0 1 c = Some [(0, 6); (1, 5)].
Proof.
  destruct (build_snapshot 0 true wit_adj (Some (10, 1)) (Some wit_live)) as (c & E & H1 & H2 & _ & _ & _ & _ & _); [done|apply wit_ok; [by right|by intros [] []]|].
  exists c. split; [exact E|]. split; [exact H1|]. split; [exact H2|].
  vm_compute in E. injection E as <-. repeat split.
Defined.

Lemma builds_agree_witness : exists c r, BuildFromAdjList 0 true wit_adj wit_adj = Some c /\
  BuildFromAdjListLive 0 true wit_adj wit_adj (Some (fun _ => true)) = Some c /\
  BuildSymmetric 0 c = Some r /\ BuildSymmetricFromAdjList 0 true wit_adj wit_adj = Some r.
Proof. apply (builds_agree 0 true wit_adj); [done|apply wit_ok; [by left|by intros [] []]|by intros [] []]. Defined.

(** Three nodes, ordered runs, one pair of parallel arcs and a self-loop. *)
Definition wit_csr : CSR := mkCSR [0; 3; 5; 5] (mkCols [1; 1; 2; 0; 1] (Some [12; 11; 20; 6; 5]) (Some [8; 9; 7; 0; 0])) 3 5 false.

Lemma wit_checked : checked wit_csr.
Proof. split; [split|..]; [done|by repeat constructor|done..|by intros h [= <-]]. Qed.

Lemma reverse_snapshot_witness : exists r, BuildReverse 0 wit_csr = Some r /\ checked r /\ BuildReverse 0 r = Some wit_csr /\
  NeighboursByID 0 1 r = Some [(0, 12); (0, 11); (1, 5)].
Proof.
  destruct (reverse_snapshot 0 wit_csr wit_checked eq_refl) as (r & E & H1 & _ & _ & _ & _ & H2 & H3); [done|].
  exists r. split; [exact E|]. split; [exact H1|]. split; [by apply H3|]. by rewrite H2.
Defined.

Lemma symmetric_snapshot_witness : exists r, BuildSymmetric 0 wit_csr = Some r /\ RunsOrdered r = Some true /\
  BuildReverse 0 (unmark r) = Some (unmark r) /\ IsSymmetric (unmark r) = Some true /\ size r = 9.
Proof.
  destruct (symmetric_snapshot 0 wit_csr wit_checked) as (r & E & _ & H1 & _ & _ & _ & _ & _ & H2 & H3); [done..|].
  exists r. split; [exact E|]. split; [exact H1|]. split; [exact H2|]. split; [exact H3|]. vm_compute in E. by injection E as <-.
Defined.

Lemma validate_protects_witness : Validate wit_csr = None /\ NeighboursByID 0 (2 ^ 64 - 1) wit_csr = None /\
  exists l, NeighboursByID 0 77 wit_csr = Some l /\ l = [].
Proof.
  destruct (validate_protects 0 wit_csr (ck_machine _ wit_checked) eq_refl) as [H1 H2]. split; [done|]. split; [exact H2|].
  destruct (H1 77) as (l & E & _ & Hl); [done|]. exists l. split; [exact E|by apply Hl].
Defined.
End witnesses.
