(* ===== verification/Intersect.v ===== *)
(** * Intersection of sorted neighbour ranges (src/graph/csr/intersect.go)

    The leapfrog intersection: cursors over windows of destinations, the shortest
    first, the one furthest behind sought forward by doubling strides and a binary
    search.  The three parallel arrays of an [Intersector] are one list of cursors, of
    which the code uses the first [n]; [None] is a panic. *)

From Stdlib Require Import ZArith Lia.
From stdpp Require Import list_numbers.
From S2P Require Import Prelude Csr CsrGraph.

Local Open Scope Z_scope.

Definition MaxIntersectWays : Z := 8.

Definition Len (r : Range) : Z := if End_ r <=? Start r then 0 else u64 (End_ r - Start r).

Record cursor := mkCursor { cEdges : list Z; pos : Z; end_ : Z }.
Record Intersector := mkIntersector { cursors : list cursor; done_ : bool }.

Definition cursor_of (r : Range) : cursor := mkCursor (rEdges r) (Start r) (End_ r).
Definition move (c : cursor) (p : Z) : cursor := mkCursor (cEdges c) p (end_ c).

(** The destinations a cursor has before it. *)
Definition window (c : cursor) : list Z := slice (pos c) (end_ c) (cEdges c).
Definition window_of (r : Range) : list Z := slice (Start r) (End_ r) (rEdges r).

(** ** [Init] *)

Definition key (c : cursor) : Z := u64 (end_ c - pos c).

(** The inner loop of [sortByLenAsc]; [n] is [j + 1]. *)
Fixpoint shift_cursor (n : nat) (x : cursor) (cs : list cursor) : option (list cursor) :=
  match n with
  | O => aset cs 0 x
  | S j =>
      y ← aget cs (Z.of_nat j);
      if key x <? key y then cs' ← aset cs (Z.of_nat (S j)) y; shift_cursor j x cs'
      else aset cs (Z.of_nat (S j)) x
  end.
Definition sortByLenAsc (cs : list cursor) : option (list cursor) :=
  loop (fun cs i => x ← aget cs i; shift_cursor (Z.to_nat i) x cs) cs (seqZ 1 (Z.of_nat (length cs) - 1)).

Definition Init (ranges : list Range) : option (Intersector * bool) :=
  if (length ranges =? 0)%nat || (MaxIntersectWays <? Z.of_nat (length ranges)) then Some (mkIntersector [] true, false)
  else if existsb (fun r => Len r =? 0) ranges then Some (mkIntersector [] true, false)
  else cs ← sortByLenAsc (cursor_of <$> ranges); Some (mkIntersector cs false, true).

(** ** [seek] *)

(** The doubling loop: the last probe below the target, and the stride it stopped at. *)
Fixpoint gallop (fuel : nat) (c : cursor) (target lo stride : Z) : option (Z * Z) :=
  match fuel with
  | O => None
  | S fuel =>
      let probe := u64 (lo + stride) in
      if end_ c <=? probe then Some (lo, stride)
      else
        e ← aget (cEdges c) probe;
        if target <=? e then Some (lo, stride) else gallop fuel c target probe (u64 (stride * 2))
  end.

Fixpoint bisect (fuel : nat) (c : cursor) (target lo hi : Z) : option Z :=
  match fuel with
  | O => None
  | S fuel =>
      if lo <? hi then
        let mid := u64 (lo + u64 (hi - lo) / 2) in
        e ← aget (cEdges c) mid;
        if e <? target then bisect fuel c target (u64 (mid + 1)) hi else bisect fuel c target lo mid
      else Some lo
  end.

Definition seek (c : cursor) (target : Z) : option (cursor * option Z) :=
  if end_ c <=? pos c then Some (c, None)
  else
    e ← aget (cEdges c) (pos c);
    if target <=? e then Some (c, Some e)
    else
      ls ← gallop (Z.to_nat (end_ c - pos c)) c target (pos c) 1;
      let hi0 := u64 (fst ls + snd ls) in
      let hi := if end_ c <? hi0 then end_ c else hi0 in
      lo ← bisect (S (Z.to_nat (hi - fst ls))) c target (fst ls) hi;
      if end_ c <=? lo then Some (move c lo, None)
      else v ← aget (cEdges c) lo; Some (move c lo, Some v).

(** ** [Next] *)

(** The loop on [agreed]: the cursors it leaves, and the destination they agree on. *)
Fixpoint agree (fuel : nat) (cs : list cursor) (cand agreed i : Z) : option (list cursor * option Z) :=
  match fuel with
  | O => None
  | S fuel =>
      if agreed <? Z.of_nat (length cs) then
        let i := if Z.of_nat (length cs) <=? i then 0 else i in
        c ← aget cs i;
        r ← seek c cand;
        cs' ← aset cs i (fst r);
        match snd r with
        | None => Some (cs', None)
        | Some v => if v =? cand then agree fuel cs' cand (agreed + 1) (i + 1) else agree fuel cs' v 1 (i + 1)
        end
      else Some (cs, Some cand)
  end.

(** Every turn of it counts one more cursor or raises the candidate to a later slot. *)
Definition agree_fuel (cs : list cursor) : nat := length cs * S (length (mjoin (window <$> cs))).

Fixpoint advancePast (fuel : nat) (c : cursor) (v : Z) : option cursor :=
  match fuel with
  | O => None
  | S fuel =>
      if pos c <? end_ c then
        e ← aget (cEdges c) (pos c);
        if e =? v then advancePast fuel (move c (u64 (pos c + 1))) v else Some c
      else Some c
  end.

Definition Next (it : Intersector) : option (Intersector * option Z) :=
  if done_ it then Some (it, None)
  else
    c0 ← aget (cursors it) 0;
    cand ← aget (cEdges c0) (pos c0);
    r ← agree (agree_fuel (cursors it)) (cursors it) cand 1 1;
    match snd r with
    | None => Some (mkIntersector (fst r) true, None)
    | Some v =>
        c ← aget (fst r) 0;
        c' ← advancePast (S (length (window c))) c v;
        cs ← aset (fst r) 0 c';
        Some (mkIntersector cs (end_ c' <=? pos c'), Some v)
    end.

(** What a caller that calls [Next] until it answers no collects. *)
Fixpoint drain (fuel : nat) (it : Intersector) : option (list Z) :=
  match fuel with
  | O => None
  | S fuel =>
      r ← Next it;
      match snd r with
      | None => Some []
      | Some v => l ← drain fuel (fst r); Some (v :: l)
      end
  end.
Definition collect (it : Intersector) : option (list Z) := drain (S (length (mjoin (window <$> cursors it)))) it.

Example wit_intersect : (r ← Init [mkRange [1; 3; 3; 5; 8; 9] 1 6; mkRange [0; 3; 4; 8; 8; 9; 11; 12] 0 8; mkRange [2; 3; 8; 9; 9] 0 4]; collect (fst r)) = Some [3; 8; 9].
Proof. reflexivity. Qed.
