(* ===== verification/IntersectSeek.v ===== *)
(** * Intersection of sorted neighbour ranges: one cursor

    What sorting the cursors, seeking one and advancing it past a destination do to
    the windows. *)

From Stdlib Require Import ZArith Lia Sorted.
From stdpp Require Import list_numbers sorting.
From S2P Require Import Prelude StableSort Csr CsrRows CsrGraph CsrScatter CsrViews Intersect.

Local Open Scope Z_scope.

(** ** Windows *)

(** A cursor inside its array, over ascending destinations. *)
Record cursor_ok (c : cursor) : Prop := {
  co_pos : 0 <= pos c <= end_ c;
  co_end : end_ c <= Z.of_nat (length (cEdges c));
  co_len : Z.of_nat (length (cEdges c)) < 2 ^ 63;
  co_sorted : StronglySorted Z.le (window c);
}.

Definition at_ (c : cursor) (i : Z) : Z := default 0 (aget (cEdges c) i).

Lemma at_get c i : cursor_ok c -> pos c <= i < end_ c -> aget (cEdges c) i = Some (at_ c i).
Proof. intros [H1 H2 H3 _] Hi. unfold at_. destruct (aget_is_Some (cEdges c) i ltac:(lia)) as [x ->]. done. Qed.

Lemma slice_lookup {A} lo hi (l : list A) k : (k < Z.to_nat (hi - lo))%nat -> slice lo hi l !! k = l !! (Z.to_nat lo + k)%nat.
Proof. intros Hk. unfold slice. by rewrite lookup_take_lt, lookup_drop by done. Qed.

Lemma slice_split {A} lo mid hi (l : list A) : 0 <= lo <= mid -> mid <= hi -> slice lo hi l = slice lo mid l ++ slice mid hi l.
Proof.
  intros H1 H2. unfold slice. replace (Z.to_nat (hi - lo)) with (Z.to_nat (mid - lo) + Z.to_nat (hi - mid))%nat by lia.
  rewrite <- take_take_drop, drop_drop. do 3 f_equal. lia.
Qed.

Lemma slice_forall (P : Z -> Prop) c lo hi : 0 <= lo -> hi <= Z.of_nat (length (cEdges c)) ->
  (forall i, lo <= i < hi -> P (at_ c i)) -> Forall P (slice lo hi (cEdges c)).
Proof.
  intros Hlo Hhi H. apply Forall_forall. intros x (k & Hk)%list_elem_of_lookup.
  destruct (decide (k < Z.to_nat (hi - lo))%nat) as [Hlt|Hge]; [|unfold slice in Hk; by rewrite lookup_take_ge in Hk by lia].
  rewrite slice_lookup in Hk by done. specialize (H (lo + Z.of_nat k) ltac:(lia)). unfold at_, aget in H.
  rewrite decide_True in H by lia. replace (Z.to_nat (lo + Z.of_nat k)) with (Z.to_nat lo + k)%nat in H by lia. by rewrite Hk in H.
Qed.

Lemma at_mono c i j : cursor_ok c -> pos c <= i <= j -> j < end_ c -> at_ c i <= at_ c j.
Proof.
  intros H Hi Hj. destruct (decide (i = j)) as [->|Hne]; [lia|]. pose proof (co_pos _ H) as Hp.
  pose proof (at_get c i H ltac:(lia)) as Gi. pose proof (at_get c j H ltac:(lia)) as Gj. apply aget_Some in Gi as [_ Gi], Gj as [_ Gj].
  apply (sorted_lookup Z.le (window c) (Z.to_nat (i - pos c)) (Z.to_nat (j - pos c))); [apply H|lia|unfold window..].
  - rewrite slice_lookup by lia. rewrite <- Gi. f_equal. lia.
  - rewrite slice_lookup by lia. rewrite <- Gj. f_equal. lia.
Qed.

Lemma move_ok c p : cursor_ok c -> pos c <= p <= end_ c -> cursor_ok (move c p).
Proof.
  intros [H1 H2 H3 H4] Hp. split; cbn; [lia|done|done|]. unfold window in *. cbn.
  rewrite (slice_split (pos c) p) in H4 by lia. by apply StronglySorted_app_1_r in H4.
Qed.

(** The window past the destinations below [t]. *)
Lemma move_window (P : Z -> Prop) `{forall z, Decision (P z)} c p : cursor_ok c -> pos c <= p <= end_ c ->
  (forall i, pos c <= i < p -> ~ P (at_ c i)) -> (forall i, p <= i < end_ c -> P (at_ c i)) ->
  window (move c p) = filter P (window c).
Proof.
  intros [H1 H2 H3 H4] Hp Hlo Hhi. unfold window. cbn. rewrite (slice_split (pos c) p (end_ c)) by lia.
  rewrite filter_app, filter_none, filter_all; [done| |]; apply slice_forall; try lia; done.
Qed.

Lemma window_head c : cursor_ok c -> pos c < end_ c -> head (window c) = Some (at_ c (pos c)).
Proof.
  intros H Hlt. pose proof (co_pos _ H). pose proof (at_get c (pos c) H ltac:(lia)) as G. apply aget_Some in G as [_ G].
  rewrite head_lookup. unfold window. rewrite slice_lookup by lia. by rewrite Nat.add_0_r.
Qed.

Lemma window_empty c : end_ c <= pos c -> window c = [].
Proof. intros H. unfold window, slice. by replace (Z.to_nat (end_ c - pos c)) with 0%nat by lia. Qed.

Lemma window_length c : cursor_ok c -> Z.of_nat (length (window c)) = end_ c - pos c.
Proof. intros [H1 H2 H3 _]. pose proof (slice_length (pos c) (end_ c) (cEdges c)). unfold window. lia. Qed.

Lemma window_none c : cursor_ok c -> window c = [] -> end_ c <= pos c.
Proof. intros H Hw. pose proof (window_length c H) as Hl. rewrite Hw in Hl. cbn in Hl. lia. Qed.

(** ** [seek] *)

Section seek.
Context (c : cursor) (H : cursor_ok c) (t : Z).

Lemma gallop_spec fuel : forall lo stride, pos c <= lo < end_ c -> at_ c lo < t -> stride = lo - pos c + 1 -> end_ c - lo <= Z.of_nat fuel ->
  exists lo' stride', gallop fuel c t lo stride = Some (lo', stride') /\ lo <= lo' < end_ c /\ at_ c lo' < t /\
    0 < stride' /\ lo' + stride' < 2 ^ 64 /\ (lo' + stride' < end_ c -> t <= at_ c (lo' + stride')).
Proof using H.
  pose proof (co_pos _ H) as H1. pose proof (co_end _ H) as H2. pose proof (co_len _ H) as H3.
  induction fuel as [|fuel IH]; intros lo stride Hlo Ht Hs Hf; [lia|]. cbn [gallop]. rewrite u64_small by lia.
  destruct (Z.leb_spec (end_ c) (lo + stride)) as [Hle|Hgt].
  { exists lo, stride. split; [done|]. lia. }
  rewrite (at_get c (lo + stride) H) by lia. cbn [mbind option_bind]. destruct (Z.leb_spec t (at_ c (lo + stride))) as [Hle|Hgt'].
  { exists lo, stride. split; [done|]. lia. }
  rewrite u64_small by lia. destruct (IH (lo + stride) (stride * 2)) as (lo' & stride' & E & G); [lia..|]. exists lo', stride'. split; [done|]. lia.
Qed.

Lemma bisect_spec fuel : forall lo hi, pos c <= lo -> lo <= hi <= end_ c -> hi - lo < Z.of_nat fuel ->
  (forall i, pos c <= i < lo -> at_ c i < t) -> (forall i, hi <= i < end_ c -> t <= at_ c i) ->
  exists m, bisect fuel c t lo hi = Some m /\ lo <= m <= hi /\
    (forall i, pos c <= i < m -> at_ c i < t) /\ (forall i, m <= i < end_ c -> t <= at_ c i).
Proof using H.
  pose proof (co_pos _ H) as H1. pose proof (co_end _ H) as H2. pose proof (co_len _ H) as H3.
  induction fuel as [|fuel IH]; intros lo hi Hlo Hhi Hf Hb Ha; [lia|]. cbn [bisect].
  destruct (Z.ltb_spec lo hi) as [Hlt|Hge]; [|exists lo; split; [done|]; split; [lia|]; split; [done|]; intros i Hi; apply Ha; lia].
  rewrite (u64_small (hi - lo)) by lia.
  assert (Hd : 0 <= (hi - lo) / 2 < hi - lo) by (split; [apply Z.div_pos|apply Z.div_lt]; lia).
  set (d := (hi - lo) / 2) in *. rewrite (u64_small (lo + d)) by lia. rewrite (at_get c (lo + d) H) by lia. cbn [mbind option_bind].
  destruct (Z.ltb_spec (at_ c (lo + d)) t) as [Ht|Ht].
  - rewrite u64_small by lia. destruct (IH (lo + d + 1) hi) as (m & E & Hm & G); [lia..| |done|exists m; split; [done|]; split; [lia|done]].
    intros i Hi. pose proof (at_mono c i (lo + d) H ltac:(lia) ltac:(lia)). lia.
  - destruct (IH lo (lo + d)) as (m & E & Hm & G); [lia..|done| |exists m; split; [done|]; split; [lia|done]].
    intros i Hi. pose proof (at_mono c (lo + d) i H ltac:(lia) ltac:(lia)). lia.
Qed.

Lemma cursor_seek_spec : exists c', seek c t = Some (c', head (window c')) /\ cursor_ok c' /\ window c' = filter (fun d => t <= d) (window c).
Proof using H.
  pose proof (co_pos _ H) as H1. pose proof (co_end _ H) as H2. pose proof (co_len _ H) as H3.
  unfold seek. destruct (Z.leb_spec (end_ c) (pos c)) as [Hle|Hgt].
  { exists c. rewrite window_empty by done. done. }
  rewrite (at_get c (pos c) H) by lia. cbn [mbind option_bind]. destruct (Z.leb_spec t (at_ c (pos c))) as [Ht|Ht].
  { exists c. rewrite window_head by (done || lia). split; [done|]. split; [done|]. symmetry. apply filter_all.
    apply slice_forall; [lia..|]. intros i Hi. pose proof (at_mono c (pos c) i H ltac:(lia) ltac:(lia)). lia. }
  destruct (gallop_spec (Z.to_nat (end_ c - pos c)) (pos c) 1) as (lo & stride & E & G1 & G2 & G3 & G4 & G5); [lia..|].
  rewrite E. cbn [mbind option_bind fst snd]. rewrite u64_small by lia. set (hi := if end_ c <? lo + stride then end_ c else lo + stride).
  assert (Hhi : lo <= hi <= end_ c /\ forall i, hi <= i < end_ c -> t <= at_ c i).
  { unfold hi. destruct (Z.ltb_spec (end_ c) (lo + stride)); split; try lia. intros i Hi.
    pose proof (at_mono c (lo + stride) i H ltac:(lia) ltac:(lia)). pose proof (G5 ltac:(lia)). lia. }
  destruct Hhi as [Hhi Ha]. destruct (bisect_spec (S (Z.to_nat (hi - lo))) lo hi) as (m & E' & Hm & B1 & B2); [lia..| |done|].
  { intros i Hi. pose proof (at_mono c i lo H ltac:(lia) ltac:(lia)). lia. }
  rewrite E'. cbn [mbind option_bind]. pose proof (move_ok c m H ltac:(lia)) as Hok.
  assert (Hw : window (move c m) = filter (fun d => t <= d) (window c)).
  { apply move_window; [done|lia| |done]. intros i Hi. pose proof (B1 i Hi). lia. }
  exists (move c m). split; [|by split]. destruct (Z.leb_spec (end_ c) m) as [Hle|Hlt].
  - by rewrite window_empty by (cbn; lia).
  - rewrite (at_get c m H) by lia. cbn [mbind option_bind]. rewrite window_head by (done || (cbn; lia)). done.
Qed.
End seek.

(** ** [advancePast] *)

Lemma advancePast_spec v fuel : forall c, cursor_ok c -> (length (window c) < fuel)%nat -> (forall d, d ∈ window c -> v <= d) ->
  exists c', advancePast fuel c v = Some c' /\ cursor_ok c' /\ window c' = filter (fun d => v < d) (window c).
Proof.
  induction fuel as [|fuel IH]; intros c H Hf Hv; [lia|]. pose proof (co_pos _ H) as H1. pose proof (co_end _ H) as H2. pose proof (co_len _ H) as H3.
  cbn [advancePast]. destruct (Z.ltb_spec (pos c) (end_ c)) as [Hlt|Hge]; [|exists c; by rewrite window_empty by done].
  rewrite (at_get c (pos c) H) by lia. cbn [mbind option_bind].
  assert (Hmem : forall i, pos c <= i < end_ c -> v <= at_ c i).
  { intros i Hi. apply Hv. unfold window. apply (list_elem_of_lookup_2 _ (Z.to_nat (i - pos c))). rewrite slice_lookup by lia.
    pose proof (at_get c i H ltac:(lia)) as G. apply aget_Some in G as [_ G]. rewrite <- G. f_equal. lia. }
  destruct (Z.eqb_spec (at_ c (pos c)) v) as [Heq|Hne].
  - rewrite u64_small by lia. assert (Hw : window c = at_ c (pos c) :: window (move c (pos c + 1))).
    { unfold window. cbn. rewrite (slice_split (pos c) (pos c + 1)) by lia. unfold slice at 1. replace (Z.to_nat (pos c + 1 - pos c)) with 1%nat by lia.
      pose proof (at_get c (pos c) H ltac:(lia)) as G. apply aget_Some in G as [_ G]. by rewrite (drop_S _ _ _ G). }
    rewrite Hw in Hf, Hv. destruct (IH (move c (pos c + 1))) as (c' & E & Hok & Hw'); [apply move_ok; [done|lia]|cbn in Hf; lia|intros d Hd; apply Hv; by right|].
    exists c'. split; [done|]. split; [done|]. rewrite Hw, filter_cons, decide_False by lia. done.
  - exists c. split; [done|]. split; [done|]. symmetry. apply filter_all. apply slice_forall; [lia..|]. intros i Hi.
    pose proof (at_mono c (pos c) i H ltac:(lia) ltac:(lia)). pose proof (Hmem (pos c) ltac:(lia)). lia.
Qed.

(** ** [sortByLenAsc] *)

Definition shorter (x y : cursor) : bool := key x <? key y.

#[export] Instance shorter_weak : StrictWeak shorter.
Proof. split; unfold shorter; intros; rewrite ?Z.ltb_lt, ?Z.ltb_ge in *; lia. Qed.

Lemma shift_cursor_ins x p : forall y q, ordered shorter p -> shift_cursor (length p) x (p ++ y :: q) = Some (ins shorter x p ++ q).
Proof.
  induction p as [|z p IH] using rev_ind; intros y q Hp; [cbn; by rewrite aset_Some by (cbn; lia)|].
  rewrite length_app, Nat.add_comm. cbn [length Nat.add shift_cursor].
  assert (Hz : aget ((p ++ [z]) ++ y :: q) (Z.of_nat (length p)) = Some z).
  { rewrite aget_nat, lookup_app_l by (rewrite length_app; cbn; lia). by apply list_lookup_middle. }
  rewrite Hz. cbn [mbind option_bind]. fold (shorter x z).
  assert (Hset : forall w, aset ((p ++ [z]) ++ y :: q) (Z.of_nat (S (length p))) w = Some ((p ++ [z]) ++ w :: q)).
  { intros w. rewrite aset_nat by (rewrite !length_app; cbn; lia). f_equal.
    replace (S (length p)) with (length (p ++ [z]) + 0)%nat by (rewrite length_app; cbn; lia). by rewrite insert_app_r. }
  rewrite !Hset. cbn [mbind option_bind]. destruct (shorter x z) eqn:E.
  - rewrite <- app_assoc. cbn [app]. rewrite IH by (by eapply StronglySorted_app_1_l). by rewrite ins_snoc_lt, <- app_assoc.
  - rewrite ins_end; [by rewrite <- (app_assoc (p ++ [z]))|]. apply Forall_forall. intros w Hw. apply elem_of_app in Hw as [Hw|Hw%list_elem_of_singleton]; [|by subst].
    assert (Hwz : le shorter w z) by (eapply StronglySorted_app_1_elem_of; [exact Hp|done|by left]). by apply (le_trans shorter w z x).
Qed.

Lemma sortByLenAsc_spec cs : exists cs', sortByLenAsc cs = Some cs' /\ stable_sort_of shorter cs cs'.
Proof.
  destruct cs as [|x0 l0]; [exists []; split; [done|]; apply stable_ordered; constructor|]. set (l := x0 :: l0) in *.
  destruct (loop_seqZ (fun cs i => x ← aget cs i; shift_cursor (Z.to_nat i) x cs)
    (fun i cs => exists l1, cs = l1 ++ drop (Z.to_nat i) l /\ stable_sort_of shorter (take (Z.to_nat i) l) l1) 1 (Z.of_nat (length l) - 1) l) as (cs' & E & l1 & -> & H2).
  - cbn; lia.
  - exists [x0]. split; [done|]. apply stable_ordered. repeat constructor.
  - intros i cs Hi (l1 & -> & H2). destruct (lookup_lt_is_Some_2 l (Z.to_nat i)) as [x Hx]; [lia|]. rewrite (drop_S _ _ _ Hx).
    assert (Hlen : length l1 = Z.to_nat i) by (rewrite (stable_length shorter _ _ H2), length_take; lia).
    assert (Hgx : aget (l1 ++ x :: drop (S (Z.to_nat i)) l) i = Some x) by (apply aget_Some; split; [lia|]; by apply list_lookup_middle).
    rewrite Hgx. cbn [mbind option_bind]. assert (Hshift : shift_cursor (Z.to_nat i) x (l1 ++ x :: drop (S (Z.to_nat i)) l) = Some (ins shorter x l1 ++ drop (S (Z.to_nat i)) l)).
    { rewrite <- Hlen. apply shift_cursor_ins, H2. }
    rewrite Hshift. eexists. split; [done|].
    exists (ins shorter x l1). replace (Z.to_nat (i + 1)) with (S (Z.to_nat i)) by lia. split; [done|].
    rewrite (take_S_r _ _ _ Hx). apply (stable_app _ _ l1 _ [x]); [done|by apply stable_ordered; repeat constructor|].
    apply ins_stable; [apply _|apply H2].
  - exists (l1 ++ drop (Z.to_nat (1 + (Z.of_nat (length l) - 1))) l). split; [exact E|].
    replace (Z.to_nat (1 + (Z.of_nat (length l) - 1))) with (length l) in * by (cbn; lia). rewrite drop_all, app_nil_r. by rewrite take_ge in H2 by lia.
Qed.
