(* ===== verification/IntersectProps.v ===== *)
(** * Intersection of sorted neighbour ranges: the properties

    The leapfrog loop agrees on the least common destination, [Next] yields them one
    by one, and over the runs of an ordered snapshot that is the set of common
    neighbours. *)

From Stdlib Require Import ZArith Lia Sorted.
From stdpp Require Import list_numbers sorting.
From S2P Require Import Prelude StableSort Csr CsrRows CsrGraph CsrScatter CsrViews CsrChecks Intersect IntersectSeek.

Local Open Scope Z_scope.

(** The destinations every cursor still has before it. *)
Definition common (cs : list cursor) (v : Z) : Prop := Forall (fun c => v ∈ window c) cs.

Lemma sorted_head (l : list Z) v w : StronglySorted Z.le l -> head l = Some v -> w ∈ l -> v <= w.
Proof.
  destruct l as [|x l]; intros HS [= <-] Hw. apply StronglySorted_inv in HS as [_ HS]. rewrite Forall_forall in HS.
  apply elem_of_cons in Hw as [->|Hw]; [lia|by apply HS].
Qed.

Lemma aget_first {A} (l : list A) : aget l 0 = l !! 0%nat.
Proof. exact (aget_nat l 0). Qed.

Lemma aset_first {A} (l : list A) x : (0 < length l)%nat -> aset l 0 x = Some (<[0%nat := x]> l).
Proof. exact (aset_nat l 0 x). Qed.

Lemma head_in {A} (l : list A) x : head l = Some x -> x ∈ l.
Proof. destruct l; intros [= <-]. by left. Qed.

Lemma filter_shorter (L : list Z) v w : v < w -> w ∈ L -> (length (filter (fun d => (w < d)%Z) L) < length (filter (fun d => (v < d)%Z) L))%nat.
Proof.
  intros Hlt Hw. induction L as [|x L IH]; [by apply not_elem_of_nil in Hw|]. rewrite !filter_cons.
  assert (Hle : (length (filter (fun d => (w < d)%Z) L) <= length (filter (fun d => (v < d)%Z) L))%nat).
  { clear -Hlt. induction L as [|y L IH]; [done|]. rewrite !filter_cons. repeat case_decide; cbn [length]; lia. }
  apply elem_of_cons in Hw as [->|Hw].
  - rewrite decide_False, decide_True by lia. cbn [length]. lia.
  - specialize (IH Hw). repeat case_decide; cbn [length]; lia.
Qed.

(** ** The loop on the candidate *)

Section agree.
Context (n : Z) (L : list Z).

(** [agreed] cursors before [i], going round, have the candidate at their head. *)
Record leaping (cs : list cursor) (cand agreed i : Z) : Prop := {
  lp_len : Z.of_nat (length cs) = n;
  lp_ok : Forall cursor_ok cs;
  lp_in : forall c, c ∈ cs -> forall d, d ∈ window c -> d ∈ L;
  lp_least : forall w, common cs w -> cand <= w;
  lp_cand : cand ∈ L;
  lp_i : 0 <= i <= n;
  lp_agreed : 1 <= agreed <= n;
  lp_heads : forall k, 0 <= k < agreed -> exists c, aget cs ((i - 1 - k) mod n) = Some c /\ head (window c) = Some cand;
}.

Definition leaps (cand agreed : Z) : Z := n * Z.of_nat (length (filter (fun d => cand < d) L)) + (n - agreed).

Lemma common_lookup cs w i c : aget cs i = Some c -> common cs w -> w ∈ window c.
Proof. intros Hc Hw. apply aget_Some in Hc as [_ Hc]. unfold common in Hw. rewrite Forall_lookup in Hw. by eapply Hw. Qed.

(** Seeking one cursor to a bound below every common destination keeps them. *)
Lemma common_seek cs i c c' t : aget cs i = Some c -> window c' = filter (fun d => t <= d) (window c) ->
  (forall w, common cs w -> t <= w) -> forall w, common (<[Z.to_nat i := c']> cs) w <-> common cs w.
Proof.
  intros Hc Hw Ht w. pose proof (aget_range _ _ _ Hc) as Hi. pose proof (proj2 (proj1 (aget_Some _ _ _) Hc)) as Hc'. unfold common. rewrite !Forall_lookup. split.
  - intros H j d Hj. destruct (decide (j = Z.to_nat i)) as [->|Hne].
    + rewrite Hc' in Hj. injection Hj as <-. assert (Hin : w ∈ window c') by (apply (H (Z.to_nat i)), list_lookup_insert_eq; lia).
      rewrite Hw in Hin. by apply list_elem_of_filter in Hin as [_ ?].
    + apply (H j). by rewrite list_lookup_insert_ne.
  - intros H j d Hj. assert (HC : common cs w) by (unfold common; by rewrite Forall_lookup). destruct (decide (j = Z.to_nat i)) as [->|Hne].
    + rewrite list_lookup_insert_eq in Hj by lia. injection Hj as <-. rewrite Hw. apply list_elem_of_filter. split; [by apply Ht|]. by apply (H (Z.to_nat i)).
    + rewrite list_lookup_insert_ne in Hj by done. by apply (H j).
Qed.

Lemma insert_mem {A} (l : list A) i x y : y ∈ <[i := x]> l -> y = x \/ y ∈ l.
Proof.
  intros (j & Hj)%list_elem_of_lookup. apply list_lookup_insert_Some in Hj as [(_ & -> & _)|[_ Hj]]; [by left|right]. by eapply list_elem_of_lookup_2.
Qed.

(** One seek of the loop. *)
Lemma leap_step cs cand agreed i : 0 < n -> leaping cs cand agreed i -> agreed < n ->
  let i' := if n <=? i then 0 else i in exists c c', aget cs i' = Some c /\ seek c cand = Some (c', head (window c')) /\
    aset cs i' c' = Some (<[Z.to_nat i' := c']> cs) /\ (forall w, common (<[Z.to_nat i' := c']> cs) w <-> common cs w) /\
    match head (window c') with
    | None => forall w, ~ common cs w
    | Some v => let a := if v =? cand then agreed + 1 else 1 in leaping (<[Z.to_nat i' := c']> cs) v a (i' + 1) /\ leaps v a < leaps cand agreed
    end.
Proof using n L.
  intros Hn HL Ha i'. destruct HL as [L1 L2 L3 L4 L5 L6 L7 L8].
  assert (Hi : 0 <= i' < n) by (unfold i'; destruct (Z.leb_spec n i); lia).
  assert (Hmod : forall k, (i - 1 - k) mod n = (i' - 1 - k) mod n).
  { intros k. unfold i'. destruct (Z.leb_spec n i); [|done]. replace (i - 1 - k) with (0 - 1 - k + 1 * n) by lia. by rewrite Z.mod_add by lia. }
  destruct (aget_is_Some cs i' ltac:(lia)) as [c Hc]. assert (Hok : cursor_ok c).
  { apply aget_Some in Hc as [_ Hc]. rewrite Forall_lookup in L2. by eapply L2. }
  destruct (cursor_seek_spec c Hok cand) as (c' & E & Hok' & Hw). exists c, c'. split; [done|]. split; [done|]. split; [apply aset_Some; lia|].
  pose proof (common_seek cs i' c c' cand Hc Hw L4) as Hcom. split; [done|]. set (cs' := <[Z.to_nat i' := c']> cs) in *.
  assert (Hnew : aget cs' i' = Some c') by (apply aget_Some; split; [lia|]; apply list_lookup_insert_eq; lia).
  destruct (head (window c')) as [v|] eqn:Eh.
  2:{ intros w Hw'. apply Hcom in Hw'. apply (common_lookup _ _ _ _ Hnew) in Hw'. destruct (window c'); [by apply not_elem_of_nil in Hw'|done]. }
  assert (Hge : cand <= v /\ v ∈ window c). { apply head_in in Eh. rewrite Hw in Eh. by apply list_elem_of_filter in Eh. }
  assert (HvL : v ∈ L). { apply (L3 c); [|apply Hge]. apply aget_Some in Hc as [_ Hc]. by eapply list_elem_of_lookup_2. }
  assert (Hleast : forall w, common cs' w -> v <= w).
  { intros w Hw'. apply (sorted_head (window c') v w); [apply Hok'|done|]. by eapply common_lookup. }
  set (a := if v =? cand then agreed + 1 else 1). split.
  - split; [unfold cs'; by rewrite length_insert|by apply Forall_insert| |done|done|lia|unfold a; destruct (v =? cand); lia|].
    + intros d Hd e He. apply insert_mem in Hd as [->|Hd]; [|by apply (L3 d)]. rewrite Hw in He. apply list_elem_of_filter in He as [_ He].
      apply (L3 c); [|done]. apply aget_Some in Hc as [_ Hc]. by eapply list_elem_of_lookup_2.
    + intros k Hk. destruct (decide (k = 0)) as [->|Hk0].
      { exists c'. replace (i' + 1 - 1 - 0) with i' by lia. rewrite Z.mod_small by lia. done. }
      unfold a in Hk. destruct (Z.eqb_spec v cand) as [->|]; [|lia]. destruct (L8 (k - 1) ltac:(lia)) as (d & Hd & Hhd).
      rewrite Hmod in Hd. replace (i' + 1 - 1 - k) with (i' - 1 - (k - 1)) by lia. destruct (decide ((i' - 1 - (k - 1)) mod n = i')) as [Heq|Hne].
      * rewrite Heq. by exists c'.
      * exists d. split; [|done]. apply aget_Some in Hd as [Hd0 Hd]. apply aget_Some. split; [done|]. unfold cs'. rewrite list_lookup_insert_ne by lia. done.
  - unfold leaps, a. destruct (Z.eqb_spec v cand) as [->|Hne]; [lia|]. pose proof (filter_shorter L cand v ltac:(lia) HvL). nia.
Qed.

Lemma agree_spec fuel : forall cs cand agreed i, 0 < n -> leaping cs cand agreed i -> leaps cand agreed < Z.of_nat fuel ->
  exists cs' o, agree fuel cs cand agreed i = Some (cs', o) /\ length cs' = length cs /\ (forall w, common cs' w <-> common cs w) /\
    match o with
    | None => forall w, ~ common cs w
    | Some v => Forall cursor_ok cs' /\ Forall (fun c => head (window c) = Some v) cs'
    end.
Proof using n L.
  induction fuel as [|fuel IH]; intros cs cand agreed i Hn HL Hf.
  { unfold leaps in Hf. pose proof (lp_agreed _ _ _ _ HL). nia. }
  cbn [agree]. rewrite (lp_len _ _ _ _ HL). destruct (Z.ltb_spec agreed n) as [Hlt|Hge].
  - destruct (leap_step cs cand agreed i Hn HL Hlt) as (c & c' & E1 & E2 & E3 & Hcom & Hout).
    rewrite E1. cbn [mbind option_bind]. rewrite E2. cbn [mbind option_bind fst snd]. rewrite E3. cbn [mbind option_bind].
    destruct (head (window c')) as [v|].
    + cbn zeta in Hout. destruct Hout as [HL' Hd]. set (j := if n <=? i then 0 else i) in *.
      assert (HI : exists cs' o, agree fuel (<[Z.to_nat j := c']> cs) v (if v =? cand then agreed + 1 else 1) (j + 1) = Some (cs', o) /\ length cs' = length cs /\
        (forall w, common cs' w <-> common cs w) /\ match o with None => forall w, ~ common cs w | Some v => Forall cursor_ok cs' /\ Forall (fun c => head (window c) = Some v) cs' end).
      { destruct (IH _ _ _ _ Hn HL' ltac:(lia)) as (cs' & o & E & Hl & Hc & Ho). exists cs', o. split; [done|]. split; [by rewrite Hl, length_insert|].
        split; [intros w; by rewrite Hc|]. destruct o; [done|]. intros w Hw. by apply (Ho w), Hcom. }
      destruct (Z.eqb_spec v cand) as [->|]; exact HI.
    + eexists _, None. split; [done|]. split; [by rewrite length_insert|]. by split.
  - exists cs, (Some cand). split; [done|]. split; [done|]. split; [done|]. split; [apply HL|].
    apply Forall_lookup. intros j c Hj. pose proof (lookup_lt_Some _ _ _ Hj) as Hlt. pose proof (lp_len _ _ _ _ HL) as Hlen.
    destruct (lp_heads _ _ _ _ HL ((i - 1 - Z.of_nat j) mod n)) as (d & Hd & Hh); [pose proof (Z.mod_pos_bound (i - 1 - Z.of_nat j) n Hn); lia|].
    assert (Hk : (i - 1 - (i - 1 - Z.of_nat j) mod n) mod n = Z.of_nat j).
    { rewrite Zminus_mod_idemp_r. replace (i - 1 - (i - 1 - Z.of_nat j)) with (Z.of_nat j) by lia. apply Z.mod_small. lia. }
    rewrite Hk, aget_nat, Hj in Hd. by injection Hd as <-.
Qed.
End agree.

(** ** [Next] *)

(** The cursors of an [Intersector] between calls. *)
Record ready (cs : list cursor) : Prop := {
  rd_ok : Forall cursor_ok cs;
  rd_first : exists c, cs !! 0%nat = Some c /\ pos c < end_ c;
}.

Lemma leaping_start cs c : Forall cursor_ok cs -> cs !! 0%nat = Some c -> pos c < end_ c ->
  leaping (Z.of_nat (length cs)) (mjoin (window <$> cs)) cs (at_ c (pos c)) 1 1.
Proof.
  intros Hok Hc Hp. assert (Hcok : cursor_ok c) by (rewrite Forall_lookup in Hok; by eapply Hok). pose proof (window_head c Hcok Hp) as Hh.
  pose proof (lookup_lt_Some _ _ _ Hc) as Hlt. assert (Hin : forall d, d ∈ cs -> forall x, x ∈ window d -> x ∈ mjoin (window <$> cs)).
  { intros d Hd x Hx. apply list_elem_of_join. exists (window d). split; [done|]. by apply list_elem_of_fmap_2. }
  split; try done; try lia.
  - intros w Hw. apply (sorted_head (window c)); [apply Hcok|done|]. unfold common in Hw. rewrite Forall_lookup in Hw. by eapply Hw.
  - apply (Hin c); [by eapply list_elem_of_lookup_2|by apply head_in].
  - intros k Hk. assert (k = 0) as -> by lia. exists c. change (1 - 1 - 0) with 0. rewrite Z.mod_0_l by lia. done.
Qed.

Lemma advance_common cs v c c' : cs !! 0%nat = Some c -> window c' = filter (fun d => v < d) (window c) -> Forall (fun c => head (window c) = Some v) cs ->
  Forall cursor_ok cs -> forall w, common (<[0%nat := c']> cs) w <-> common cs w /\ v < w.
Proof.
  intros Hc Hw Hh Hok w. pose proof (lookup_lt_Some _ _ _ Hc) as Hlt. destruct cs as [|c1 cs]; [done|]. injection Hc as ->. cbn [insert list_insert].
  unfold common. rewrite !Forall_cons, Hw, list_elem_of_filter. tauto.
Qed.

Lemma Next_spec cs : ready cs -> exists it o, Next (mkIntersector cs false) = Some (it, o) /\
  match o with
  | None => done_ it = true /\ forall w, ~ common cs w
  | Some v => common cs v /\ (forall w, common cs w -> v <= w) /\
      (done_ it = true -> forall w, common cs w -> w = v) /\
      (done_ it = false -> ready (cursors it) /\ forall w, common (cursors it) w <-> common cs w /\ v < w)
  end.
Proof.
  intros [Hok (c & Hc & Hp)]. unfold Next. cbn [done_ cursors].
  assert (Hcok : cursor_ok c) by (rewrite Forall_lookup in Hok; by eapply Hok). pose proof (co_pos _ Hcok) as Hpos.
  rewrite aget_first, Hc. cbn [mbind option_bind]. rewrite (at_get c (pos c) Hcok) by lia. cbn [mbind option_bind].
  pose proof (leaping_start cs c Hok Hc Hp) as HL. pose proof (lookup_lt_Some _ _ _ Hc) as Hlt.
  set (L := mjoin (window <$> cs)) in *.
  destruct (agree_spec (Z.of_nat (length cs)) L (agree_fuel cs) cs (at_ c (pos c)) 1 1) as (cs' & o & E & Hlen & Hcom & Ho); [lia|done| |].
  { unfold leaps, agree_fuel. fold L. pose proof (lp_cand _ _ _ _ _ _ HL) as Hin.
    assert (Hlt' : (length (filter (fun d => (at_ c (pos c) < d)%Z) L) < length L)%nat).
    { apply (Nat.lt_le_trans _ (length (filter (fun d => (at_ c (pos c) - 1 < d)%Z) L))); [apply filter_shorter; [lia|done]|apply length_filter]. }
    nia. }
  rewrite E. cbn [mbind option_bind fst snd]. destruct o as [v|]; [|by eexists _, None].
  destruct Ho as [Hok' Hheads]. destruct (lookup_lt_is_Some_2 cs' 0) as [c1 Hc1]; [lia|]. rewrite aget_first, Hc1. cbn [mbind option_bind].
  assert (Hc1ok : cursor_ok c1) by (rewrite Forall_lookup in Hok'; by eapply Hok').
  assert (Hhead : forall d, d ∈ cs' -> head (window d) = Some v) by by apply Forall_forall.
  assert (Hv1 : head (window c1) = Some v) by (apply Hhead; by eapply list_elem_of_lookup_2).
  assert (Hle1 : forall d, d ∈ window c1 -> v <= d) by (intros d Hd; by apply (sorted_head (window c1)); [apply Hc1ok|..]).
  destruct (advancePast_spec v (S (length (window c1))) c1 Hc1ok ltac:(lia) Hle1) as (c2 & E2 & Hc2ok & Hw2).
  rewrite E2. cbn [mbind option_bind]. rewrite aset_first by lia. cbn [mbind option_bind].
  pose proof (advance_common cs' v c1 c2 Hc1 Hw2 Hheads Hok') as Hadv.
  assert (Hvc : common cs v). { apply Hcom. unfold common. apply Forall_forall. intros d Hd. apply head_in. by apply Hhead. }
  assert (Hleast : forall w, common cs w -> v <= w).
  { intros w Hw. apply Hle1. apply Hcom in Hw. unfold common in Hw. rewrite Forall_lookup in Hw. by eapply Hw. }
  eexists _, (Some v). split; [done|]. split; [done|]. split; [done|]. cbn [done_ cursors]. split.
  - intros Hd%Z.leb_le w Hw. destruct (decide (v < w)) as [Hvw|]; [|pose proof (Hleast w Hw); lia].
    assert (Hin : common (<[0%nat := c2]> cs') w) by (apply Hadv; split; [by apply Hcom|done]).
    unfold common in Hin. rewrite Forall_lookup in Hin. specialize (Hin 0%nat c2 ltac:(apply list_lookup_insert_eq; lia)).
    rewrite window_empty in Hin by done. by apply not_elem_of_nil in Hin.
  - intros Hd%Z.leb_gt. split.
    + split; [by apply Forall_insert|]. exists c2. split; [apply list_lookup_insert_eq; lia|done].
    + intros w. rewrite Hadv. by rewrite Hcom.
Qed.

(** ** Every destination, once, in order *)

Definition remaining (it : Intersector) (v : Z) : Prop := done_ it = false /\ common (cursors it) v.

Lemma collect_drain fuel : forall it L, (done_ it = false -> ready (cursors it)) -> (forall w, remaining it w -> w ∈ L) -> (length L < fuel)%nat ->
  exists l, drain fuel it = Some l /\ StronglySorted Z.lt l /\ forall w, w ∈ l <-> remaining it w.
Proof.
  induction fuel as [|fuel IH]; intros it L Hr HL Hf; [lia|]. cbn [drain]. destruct it as [cs [|]]; cbn [done_ cursors] in *.
  { exists []. split; [done|]. split; [constructor|]. intros w. rewrite elem_of_nil. unfold remaining. cbn. naive_solver. }
  destruct (Next_spec cs (Hr eq_refl)) as (it' & o & E & Ho). rewrite E. cbn [mbind option_bind fst snd]. destruct o as [v|].
  2:{ destruct Ho as [_ Ho]. exists []. split; [done|]. split; [constructor|]. intros w. rewrite elem_of_nil. unfold remaining. cbn. naive_solver. }
  destruct Ho as (H1 & H2 & H3 & H4).
  assert (Hrem : forall w, remaining it' w <-> common cs w /\ v < w).
  { intros w. unfold remaining. destruct (done_ it') eqn:Ed.
    - split; [by intros [? _]|]. intros [Hw Hlt]. pose proof (H3 eq_refl w Hw). lia.
    - destruct (H4 eq_refl) as [_ H5]. rewrite H5. tauto. }
  destruct (IH it' (filter (fun d => v < d) L)) as (l & El & Hs & Hl).
  - intros Hd. by apply H4.
  - intros w [Hw Hvw]%Hrem. apply list_elem_of_filter. split; [done|]. apply HL. by split.
  - assert (HvL : v ∈ L) by (apply HL; by split). pose proof (filter_shorter L (v - 1) v ltac:(lia) HvL). pose proof (length_filter (fun d => (v - 1 < d)%Z) L). lia.
  - exists (v :: l). rewrite El. split; [done|]. split.
    + constructor; [done|]. apply Forall_forall. intros w Hw%Hl%Hrem. lia.
    + intros w. rewrite elem_of_cons, Hl, Hrem. unfold remaining. cbn. split; [intros [->|[Hw _]]; (split; [reflexivity|assumption])|].
      intros [_ Hw]. pose proof (H2 w Hw). destruct (decide (w = v)); [by left|right]. split; [done|lia].
Qed.

(** ** Ranges *)

(** A window inside its array, over ascending destinations; it may be empty. *)
Record range_ok (r : Range) : Prop := {
  ro_start : 0 <= Start r;
  ro_end : End_ r <= Z.of_nat (length (rEdges r));
  ro_len : Z.of_nat (length (rEdges r)) < 2 ^ 63;
  ro_sorted : StronglySorted Z.le (window_of r);
}.

Lemma Len_zero r : range_ok r -> (Len r =? 0) = true -> window_of r = [].
Proof.
  intros [H1 H2 H3 _]. unfold Len. destruct (Z.leb_spec (End_ r) (Start r)) as [Hle|Hgt].
  - intros _. unfold window_of, slice. by replace (Z.to_nat (End_ r - Start r)) with 0%nat by lia.
  - rewrite u64_small by lia. intros E%Z.eqb_eq. lia.
Qed.

Lemma cursor_of_ok r : range_ok r -> (Len r =? 0) = false -> cursor_ok (cursor_of r) /\ Start r < End_ r.
Proof.
  intros [H1 H2 H3 H4]. unfold Len. destruct (Z.leb_spec (End_ r) (Start r)) as [Hle|Hgt]; [done|]. intros _.
  split; [|done]. split; cbn; [lia|lia|done|exact H4].
Qed.

Lemma sort_mem cs cs' c : stable_sort_of shorter cs cs' -> c ∈ cs' <-> c ∈ cs.
Proof. intros [_ H]. split; apply (in_class shorter c); intros k; by rewrite H. Qed.

Lemma intersect_init ranges : Forall range_ok ranges -> Z.of_nat (length ranges) <= MaxIntersectWays ->
  exists it b l, Init ranges = Some (it, b) /\ collect it = Some l /\ StronglySorted Z.lt l /\
    (forall v, v ∈ l <-> ranges <> [] /\ forall r, r ∈ ranges -> v ∈ window_of r) /\
    (b = false -> l = []) /\ ordered shorter (cursors it).
Proof.
  intros HR Hn. unfold Init. rewrite (proj2 (Z.ltb_ge _ _)) by done. rewrite orb_false_r. destruct (Nat.eqb_spec (length ranges) 0) as [H0|H0].
  { apply length_zero_iff_nil in H0 as ->. exists (mkIntersector [] true), false, []. split; [done|]. split; [done|]. split; [constructor|].
    split; [|by split; [|constructor]]. intros v. rewrite elem_of_nil. naive_solver. }
  assert (Hne : ranges <> []) by (by intros ->). destruct (existsb _ ranges) eqn:Eex.
  { apply existsb_exists in Eex as (r & Hr%list_elem_of_In & Hz). rewrite Forall_forall in HR. apply (Len_zero r (HR r Hr)) in Hz.
    exists (mkIntersector [] true), false, []. split; [done|]. split; [done|]. split; [constructor|]. split; [|by split; [|constructor]].
    intros v. rewrite elem_of_nil. split; [done|]. intros [_ H]. specialize (H r Hr). rewrite Hz in H. by apply not_elem_of_nil in H. }
  assert (Hok : forall r, r ∈ ranges -> cursor_ok (cursor_of r) /\ Start r < End_ r).
  { intros r Hr. rewrite Forall_forall in HR. apply cursor_of_ok; [by apply HR|]. destruct (Len r =? 0) eqn:Ez; [|done].
    assert (existsb (fun r => Len r =? 0) ranges = true) by (apply existsb_exists; exists r; split; [by apply list_elem_of_In|done]). congruence. }
  destruct (sortByLenAsc_spec (cursor_of <$> ranges)) as (cs & E & Hs). rewrite E. cbn [mbind option_bind].
  assert (Hmem : forall c, c ∈ cs <-> exists r, c = cursor_of r /\ r ∈ ranges) by (intros c; by rewrite (sort_mem _ _ c Hs), list_elem_of_fmap).
  destruct (collect_drain (S (length (mjoin (window <$> cs)))) (mkIntersector cs false) (mjoin (window <$> cs))) as (l & El & Hl & Hv).
  - intros _. cbn. split.
    + apply Forall_forall. intros c (r & -> & Hr)%Hmem. by apply Hok.
    + pose proof (stable_length shorter _ _ Hs) as Hlen. rewrite length_fmap in Hlen. destruct (lookup_lt_is_Some_2 cs 0) as [c Hc]; [lia|].
      exists c. split; [done|]. apply list_elem_of_lookup_2 in Hc. apply Hmem in Hc as (r & -> & Hr). by apply Hok.
  - intros w [_ Hw]. cbn in Hw. pose proof (stable_length shorter _ _ Hs) as Hlen. rewrite length_fmap in Hlen. destruct (lookup_lt_is_Some_2 cs 0) as [c Hc]; [lia|].
    apply list_elem_of_join. exists (window c). apply list_elem_of_lookup_2 in Hc. split; [|by apply list_elem_of_fmap_2].
    unfold common in Hw. rewrite Forall_forall in Hw. by apply Hw.
  - lia.
  - exists (mkIntersector cs false), true, l. split; [done|]. split; [exact El|]. split; [done|]. split; [|by split; [|apply Hs]].
    intros v. rewrite Hv. unfold remaining, common. cbn. rewrite Forall_forall. split.
    + intros [_ H]. split; [done|]. intros r Hr. apply (H (cursor_of r)), Hmem. by exists r.
    + intros [_ H]. split; [done|]. intros c (r & -> & Hr)%Hmem. by apply H.
Qed.

(** C30: [Init] and [Next] intersect up to eight sorted windows exactly: no call panics, the
    calls of [Next] end, and they yield every destination all windows share, once, in
    ascending order, the cursors standing shortest first; a [false] from [Init] means
    there is none. *)
Theorem intersect_exact ranges : Forall range_ok ranges -> Z.of_nat (length ranges) <= MaxIntersectWays ->
  exists it b l, Init ranges = Some (it, b) /\ collect it = Some l /\ StronglySorted Z.lt l /\
    (forall v, v ∈ l <-> ranges <> [] /\ forall r, r ∈ ranges -> v ∈ window_of r) /\
    (b = false -> l = []) /\ ordered shorter (cursors it).
Proof. apply intersect_init. Qed.

(** ** Common neighbours *)

Section snapshots.
Context {W : Type} (zeroW : W).
Implicit Types (c : @CSR W).

(** The ranges of some nodes of a snapshot; [None] when a node is outside it. *)
Definition ranges_of c (us : list Z) : option (list Range) := mapM (fun u => mjoin (NeighbourRange u c)) us.

Lemma range_of_run c u : checked c -> RunsOrdered c = Some true -> Z.of_nat (length (edges c)) < 2 ^ 63 -> 0 <= u < MaxNodeID c ->
  exists r, mjoin (NeighbourRange u c) = Some r /\ range_ok r /\ window_of r = (arcs_of zeroW c u).*1.
Proof.
  intros Hck HR Hbig Hu. pose proof (checked_wf c Hck) as Hc. pose proof (RunsOrdered_runs _ _ c Hc HR u Hu) as Ho.
  destruct (wf_range_cols _ _ c u Hc Hu) as (lo & hi & part & E & H1 & H2 & H3 & _ & _).
  exists (mkRange (edges c) lo hi). rewrite E. split; [done|]. unfold arcs_of. rewrite (wf_neighbours zeroW _ _ c u Hc Hu). cbn [default]. unfold id.
  assert (Hw : window_of (mkRange (edges c) lo hi) = dst <$> run (vertices c) u (slots_of (arcs c))) by exact H3.
  split; [split; cbn; [lia|done|done|]|].
  - rewrite Hw. revert Ho. generalize (run (vertices c) u (slots_of (arcs c))). induction 1 as [|x l Hl IH Hx]; [constructor|]. rewrite fmap_cons. constructor; [done|].
    apply Forall_fmap. eapply Forall_impl; [exact Hx|]. intros y. apply slot_le_dst.
  - rewrite Hw, <- list_fmap_compose. by apply list_fmap_ext.
Qed.

(** On a checked snapshot with ordered runs, intersecting the ranges of up to eight nodes
    yields their common neighbours, each once, in ascending order. *)
Theorem common_neighbours c us : checked c -> RunsOrdered c = Some true -> Z.of_nat (length (edges c)) < 2 ^ 63 ->
  us <> [] -> Z.of_nat (length us) <= MaxIntersectWays -> (forall u, u ∈ us -> 0 <= u < MaxNodeID c) ->
  exists rs it b l, ranges_of c us = Some rs /\ Init rs = Some (it, b) /\ collect it = Some l /\ StronglySorted Z.lt l /\
    forall v, v ∈ l <-> forall u, u ∈ us -> v ∈ (arcs_of zeroW c u).*1.
Proof.
  intros Hck HR Hbig Hne Hn Hus.
  assert (Hrs : exists rs, Forall2 (fun u r => mjoin (NeighbourRange u c) = Some r /\ range_ok r /\ window_of r = (arcs_of zeroW c u).*1) us rs).
  { clear Hne Hn. induction us as [|u us IH]; [by exists []|]. destruct IH as [rs Hrs]; [intros; apply Hus; by right|].
    destruct (range_of_run c u Hck HR Hbig) as (r & Hr); [apply Hus; by left|]. exists (r :: rs). by constructor. }
  destruct Hrs as [rs Hrs]. assert (Hm : ranges_of c us = Some rs).
  { apply mapM_Some. eapply Forall2_impl; [exact Hrs|]. by intros u r [? _]. }
  assert (Hok : Forall range_ok rs). { apply Forall_forall. intros r Hr. apply list_elem_of_lookup in Hr as [i Hi]. destruct (Forall2_lookup_r _ _ _ _ _ Hrs Hi) as (u & _ & _ & H & _). done. }
  destruct (intersect_init rs Hok) as (it & b & l & E1 & E2 & E3 & E4 & _); [by rewrite <- (Forall2_length _ _ _ Hrs)|].
  exists rs, it, b, l. do 4 (split; [done|]). intros v. rewrite E4. split.
  - intros [_ H] u [i Hi]%list_elem_of_lookup. destruct (Forall2_lookup_l _ _ _ _ _ Hrs Hi) as (r & Hr & _ & _ & <-). apply H. by eapply list_elem_of_lookup_2.
  - intros H. split; [intros ->; by apply Forall2_nil_inv_r in Hrs|]. intros r [i Hi]%list_elem_of_lookup. destruct (Forall2_lookup_r _ _ _ _ _ Hrs Hi) as (u & Hu & _ & _ & ->).
    apply H. by eapply list_elem_of_lookup_2.
Qed.
End snapshots.

(** ** Witnesses *)

Definition wit_ranges : list Range := [mkRange [1; 3; 3; 5; 8; 9] 1 6; mkRange [0; 3; 4; 8; 8; 9; 11; 12] 0 8; mkRange [2; 3; 8; 9; 9] 0 4].

Lemma wit_sorted l : Sorted Z.le l -> StronglySorted Z.le l.
Proof. apply Sorted_StronglySorted. intros x y z. lia. Qed.

Lemma intersect_exact_witness : exists it b l, Init wit_ranges = Some (it, b) /\ collect it = Some l /\ l = [3; 8; 9] /\
  (forall v, v ∈ l <-> wit_ranges <> [] /\ forall r, r ∈ wit_ranges -> v ∈ window_of r).
Proof.
  destruct (intersect_exact wit_ranges) as (it & b & l & E1 & E2 & _ & E4 & _); [|done|].
  - repeat constructor; try done; apply wit_sorted; vm_compute; repeat constructor; done.
  - exists it, b, l. split; [exact E1|]. split; [exact E2|]. split; [|exact E4].
    vm_compute in E1. injection E1 as <- <-. vm_compute in E2. by injection E2 as <-.
Defined.

(** Nodes 0 and 2 have the neighbours 1 and 3 in common. *)
Definition wit_snapshot : CSR := mkCSR [0; 3; 4; 7; 7] (mkCols [1; 2; 3; 0; 1; 1; 3] (None : option (list Z)) None) 4 7 false.

Lemma common_neighbours_witness : exists rs it b l, ranges_of wit_snapshot [0; 2] = Some rs /\ Init rs = Some (it, b) /\ collect it = Some l /\ l = [1; 3].
Proof.
  destruct (common_neighbours 0 wit_snapshot [0; 2]) as (rs & it & b & l & E0 & E1 & E2 & _); [|done..| |].
  - split; [split|..]; [done|by repeat constructor|done..].
  - apply Forall_forall. by repeat constructor.
  - exists rs, it, b, l. split; [exact E0|]. split; [exact E1|]. split; [exact E2|].
    vm_compute in E0. injection E0 as <-. vm_compute in E1. injection E1 as <- <-. vm_compute in E2. by injection E2 as <-.
Defined.
