(* ===== verification/WriteStamp.v ===== *)
(** * The stamping state of a write transaction (graph/mvcc/stamp.go, tx.go)

    A transaction's versions share one commit record, allocated by the first of them.
    [txn] holds the recycled [TxState]s and the commit records, both addressed by
    their position, with the one slot of the [WriteStamp] that names the bracket a
    write without a transaction runs under.  A record is its timestamp: the id of its
    transaction while that is in flight, then its commit timestamp or [AbortedTS]. *)

From Stdlib Require Import ZArith Lia.
From stdpp Require Import list.
From S2P Require Import Prelude Clock.

Local Open Scope Z_scope.

(** The three states of the [info] word: no window, armed, a record. *)
Inductive infoWord := NoWindow | ArmedPending | HasRecord (r : nat).

Record SideWrite := mkSide { sw_A : Z; sw_B : Z; sw_C : Z; sw_Store : Z }.

#[export] Instance SideWrite_eq_dec : EqDecision SideWrite.
Proof. solve_decision. Defined.

Record TxState := mkTx {
  st_info : infoWord;
  st_count : Z;
  st_txID : Z;
  st_adj : list Z;
  st_side : list SideWrite;
  st_touched : Z;
}.

Record txn := mkTxn {
  recs : list Z;
  states : list TxState;
  cur : option nat;
  clocked : bool;
  untracked : Z;
  ambient : Z;
}.

Definition with_recs v (x : txn) := mkTxn v (states x) (cur x) (clocked x) (untracked x) (ambient x).
Definition with_states v (x : txn) := mkTxn (recs x) v (cur x) (clocked x) (untracked x) (ambient x).
Definition with_cur v (x : txn) := mkTxn (recs x) (states x) v (clocked x) (untracked x) (ambient x).
Definition with_untracked v (x : txn) := mkTxn (recs x) (states x) (cur x) (clocked x) v (ambient x).
Definition with_ambient v (x : txn) := mkTxn (recs x) (states x) (cur x) (clocked x) (untracked x) v.
Definition with_state (i : nat) (f : TxState -> TxState) (x : txn) := with_states (alter f i (states x)) x.

Definition set_info w (t : TxState) := mkTx w (st_count t) (st_txID t) (st_adj t) (st_side t) (st_touched t).
Definition set_count c (t : TxState) := mkTx (st_info t) c (st_txID t) (st_adj t) (st_side t) (st_touched t).
Definition set_adj l (t : TxState) := mkTx (st_info t) (st_count t) (st_txID t) l (st_side t) (st_touched t).
Definition set_side l (t : TxState) := mkTx (st_info t) (st_count t) (st_txID t) (st_adj t) l (st_touched t).
Definition set_touched b (t : TxState) := mkTx (st_info t) (st_count t) (st_txID t) (st_adj t) (st_side t) b.

(** ** One transaction *)

Definition TouchedAmbient : Z := Z.shiftl 1 31.

Definition Touch (bits : Z) (t : TxState) : TxState :=
  if Z.land (st_touched t) bits =? bits then t else set_touched (Z.lor (st_touched t) bits) t.
Definition Touched (t : TxState) : Z := st_touched t.

Definition NoteAdjacency (id : Z) (t : TxState) : TxState := set_adj (st_adj t ++ [id]) t.
Definition AdjacencyWrites (t : TxState) : list Z := st_adj t.

(** A write equal to the last one noted is not noted again. *)
Definition NoteSide (w : SideWrite) (t : TxState) : TxState :=
  if decide (last (st_side t) = Some w) then t else set_side (st_side t ++ [w]) t.
Definition SideWrites (t : TxState) : list SideWrite := st_side t.

(** Arming an open state is refused; otherwise everything of the last transaction
    is cleared. *)
Definition Arm (txID : Z) (t : TxState) : TxState * bool :=
  match st_info t with
  | NoWindow => (mkTx ArmedPending 0 txID [] [] 0, true)
  | _ => (t, false)
  end.

Definition TxID (t : TxState) : Z := st_txID t.
Definition Versions (t : TxState) : Z := st_count t.
Definition Reusable (t : TxState) : bool := match st_info t with NoWindow => true | _ => false end.

Definition Retract (t : TxState) : TxState * option nat * Z :=
  match st_info t with
  | HasRecord r => (set_count 0 (set_info NoWindow t), Some r, st_count t)
  | _ => (set_info NoWindow t, None, 0)
  end.

Definition OpenRecord (t : TxState) : option nat :=
  match st_info t with HasRecord r => Some r | _ => None end.

(** The record the version created now points at: the first version of a
    transaction allocates it with the transaction's id for its timestamp. *)
Definition Ensure (i : nat) (x : txn) : option nat * txn :=
  match states x !! i with
  | None => (None, x)
  | Some t =>
      match st_info t with
      | NoWindow => (None, x)
      | HasRecord r => (Some r, with_state i (fun t => set_count (st_count t + 1) t) x)
      | ArmedPending =>
          let r := length (recs x) in
          (Some r, with_state i (fun t => set_count (st_count t + 1) (set_info (HasRecord r) t))
                     (with_recs (recs x ++ [st_txID t]) x))
      end
  end.

(** ** The write stamp *)

Definition Publish (i : nat) (x : txn) : txn := with_cur (Some i) x.

Definition EndFor (i : nat) (x : txn) : txn * option nat * Z :=
  match states x !! i with
  | None => (x, None, 0)
  | Some t =>
      let '(t', info, n) := Retract t in
      let x := with_state i (fun _ => t') x in
      (if decide (cur x = Some i) then with_cur None x else x, info, n)
  end.

Definition End (x : txn) : txn * option nat * Z :=
  match cur x with
  | None => (x, None, 0)
  | Some i =>
      let x := with_cur None x in
      match states x !! i with
      | None => (x, None, 0)
      | Some t => let '(t', info, n) := Retract t in (with_state i (fun _ => t') x, info, n)
      end
  end.

(** A fresh commit timestamp [ts] of the clock, already published; none without one. *)
Definition UntransactedStamp (ts : Z) (x : txn) : option nat * Z * txn :=
  if clocked x then (None, ts, with_untracked (untracked x + 1) x) else (None, 0, x).

Definition Stamp (ts : Z) (x : txn) : option nat * Z * txn :=
  match cur x with
  | Some i =>
      match Ensure i x with
      | (Some r, x) => (Some r, 0, with_state i (Touch TouchedAmbient) (with_ambient (ambient x + 1) x))
      | (None, _) => UntransactedStamp ts x
      end
  | None => UntransactedStamp ts x
  end.

Definition tx_state (x : txn) (tx : option nat) : option TxState :=
  match tx with None => None | Some i => states x !! i end.

Definition OpenTxID (x : txn) : Z := from_option st_txID 0 (tx_state x (cur x)).
Definition OpenInfo (x : txn) : option nat := tx_state x (cur x) ≫= OpenRecord.
Definition Armed (x : txn) : bool := bool_decide (is_Some (cur x)).
Definition Info (x : txn) : option nat * txn :=
  match cur x with None => (None, x) | Some i => Ensure i x end.
Definition TakeUntracked (x : txn) : Z * txn := (untracked x, with_untracked 0 x).
Definition TakeAmbient (x : txn) : Z * txn := (ambient x, with_ambient 0 x).

(** ** The transaction a write carries: the address of its state, or none *)


Definition Tx_Valid (tx : option nat) : bool := bool_decide (is_Some tx).
Definition Tx_ID (x : txn) (tx : option nat) : Z := from_option st_txID 0 (tx_state x tx).
Definition Tx_Implicit (x : txn) (tx : option nat) : bool := IsImplicitTx (Tx_ID x tx).
Definition Tx_NoteAdjacency (id : Z) (tx : option nat) (x : txn) : txn :=
  match tx with None => x | Some i => with_state i (NoteAdjacency id) x end.
Definition Tx_Record (tx : option nat) (x : txn) : option nat * txn :=
  match tx with None => (None, x) | Some i => Ensure i x end.

(** ** Records *)

(** [CommitInfo.TS]; the address of a record is always in range. *)
Definition rec_ts (x : txn) (r : nat) : Z := default 0 (recs x !! r).

(** The publication of a commit timestamp, or the abort, of a record. *)
Definition set_ts (r : nat) (ts : Z) (x : txn) : txn := with_recs (<[r:=ts]> (recs x)) x.
Definition abort_rec (r : nat) (x : txn) : txn := set_ts r AbortedTS x.
