(* ===== verification/AdjHeap.v ===== *)
(** * The memory behind adjacency entries (graph/adjlist/adjlist.go)

    Go slices over backing arrays that several entries share, the immutable entries
    with their one mutable pointer, the version, and the version records.  An operation
    that Go's run time would stop with a panic returns [None].  [append]'s shape here is
    the code's own: write past the length of the current slice when its array has room,
    else copy into a new array; an excised column is always a new array. *)

From Stdlib Require Import ZArith Lia.
From stdpp Require Import list.
From S2P Require Import Prelude.

(** A slice: its array, length and capacity; a nil slice is [None]. *)
Record slice := mkSlice { s_arr : nat; s_len : nat; s_cap : nat }.

#[export] Instance slice_eq_dec : EqDecision slice.
Proof. solve_decision. Defined.

Definition slen (s : option slice) : nat := from_option s_len O s.
Definition scap (s : option slice) : nat := from_option s_cap O s.
Definition not_nil (s : option slice) : bool := match s with Some _ => true | None => false end.

(** [growCap]: the next capacity of an array of [n] elements. *)
Definition growCap (n : nat) : nat := if (n <? 4)%nat then 4%nat else (n * 2)%nat.

(** The arrays, addressed by position. *)
Abbreviation mem T := (list (list T)).

Section slices.
Context {T : Type} (zero : T).

(** What a reader of the slice iterates over. *)
Definition contents (m : mem T) (s : option slice) : list T :=
  match s with None => [] | Some s => take (s_len s) (default [] (m !! s_arr s)) end.

(** [make([]T, n, c)] *)
Definition make (n c : nat) (m : mem T) : option (slice * mem T) :=
  if (n <=? c)%nat then Some (mkSlice (length m) n c, m ++ [replicate c zero]) else None.

(** [s[:n]] *)
Definition reslice (n : nat) (s : option slice) : option (option slice) :=
  match s with
  | None => if (n =? 0)%nat then Some None else None
  | Some s => if (n <=? s_cap s)%nat then Some (Some (mkSlice (s_arr s) n (s_cap s))) else None
  end.

(** [s[i] = v] *)
Definition sset (i : nat) (v : T) (s : option slice) (m : mem T) : option (mem T) :=
  match s with
  | Some s => if (i <? s_len s)%nat then Some (alter (fun l => <[i:=v]> l) (s_arr s) m) else None
  | None => None
  end.

(** [copy(s[off:], src)] for a source read beforehand *)
Definition scopy (off : nat) (src : list T) (s : slice) (m : mem T) : mem T :=
  alter (fun l => take off l ++ take (s_len s - off) src ++ drop (off + (s_len s - off) `min` length src) l) (s_arr s) m.

(** The tail written in place: [c := cur[:n+1]; c[n] = v]. *)
Definition push_col (n : nat) (v : T) (s : option slice) (m : mem T) : option (option slice * mem T) :=
  s' ← reslice (S n) s; m' ← sset n v s' m; Some (s', m').

(** A new array of capacity [c] with the old contents and the new element. *)
Definition fresh_col (n c : nat) (v : T) (s : option slice) (m : mem T) : option (option slice * mem T) :=
  '(s', m1) ← make (S n) c m;
  m2 ← sset n v (Some s') (scopy 0 (contents m s) s' m1);
  Some (Some s', m2).

(** An optional column of the path that reuses the neighbour array. *)
Definition push_opt (has : bool) (n : nat) (v : T) (s : option slice) (m : mem T) : option (option slice * mem T) :=
  if has || not_nil s then
    if not_nil s && (S n <=? scap s)%nat then push_col n v s m else fresh_col n (growCap n) v s m
  else Some (None, m).

(** An optional column of the path that allocates. *)
Definition grow_opt (has : bool) (n c : nat) (v : T) (s : option slice) (m : mem T) : option (option slice * mem T) :=
  if has || not_nil s then fresh_col n c v s m else Some (None, m).

(** The column of a first entry: one element, capacity [c]. *)
Definition first_col (has : bool) (c : nat) (v : T) (m : mem T) : option (option slice * mem T) :=
  if has then '(s, m1) ← make 1 c m; m2 ← sset 0 v (Some s) m1; Some (Some s, m2) else Some (None, m).

(** The column without position [idx], in a new array of exactly its length. *)
Definition drop_col (idx : nat) (s : option slice) (m : mem T) : option (option slice * mem T) :=
  match s with
  | None => Some (None, m)
  | Some _ =>
      '(s', m1) ← make (slen s - 1) (slen s - 1) m;
      Some (Some s', scopy idx (drop (S idx) (contents m s)) s' (scopy 0 (take idx (contents m s)) s' m1))
  end.

(** A copy of length [n] in an array of exactly that length; of an optional column, the
    copy only when there is one. *)
Definition exact_col (n : nat) (s : option slice) (m : mem T) : option (option slice * mem T) :=
  '(s', m1) ← make n n m; Some (Some s', scopy 0 (contents m s) s' m1).
Definition trim_col (n : nat) (s : option slice) (m : mem T) : option (option slice * mem T) :=
  if not_nil s then exact_col n s m else Some (None, m).

(** [s[:len(s):len(s)]] *)
Definition clip_col (s : option slice) : option slice :=
  match s with None => None | Some s => Some (mkSlice (s_arr s) (s_len s) (s_len s)) end.

Definition full_col (s : option slice) : bool := (scap s =? slen s)%nat.
End slices.

(** ** The opaque per-slot column of the layer above *)

Class AuxColumn (A P : Type) := {
  GrowSlot : nat -> A -> A;
  GrowSlotWithValue : nat -> P -> A -> A;
  CompactSlot : nat -> A -> A;
  (** [None] for the receiver itself. *)
  AuxCompact : A -> option A;
  (** What the column means, one optional value per slot; used by the laws alone. *)
  aux_slots : A -> list (option P);
}.

(** What the interface promises of a column as long as the neighbours. *)
Class AuxLaws (A P : Type) `{!AuxColumn A P} := {
  GrowSlot_spec : forall a n, length (aux_slots a) = n -> aux_slots (GrowSlot n a) = aux_slots a ++ [None];
  GrowSlotWithValue_spec : forall a n p, length (aux_slots a) = n ->
    aux_slots (GrowSlotWithValue n p a) = aux_slots a ++ [Some p];
  CompactSlot_spec : forall a i, i < length (aux_slots a) ->
    aux_slots (CompactSlot i a) = take i (aux_slots a) ++ drop (S i) (aux_slots a);
  AuxCompact_spec : forall a a', AuxCompact a = Some a' -> aux_slots a' = aux_slots a;
}.

(** The reference column: the list of its slots. *)
#[export] Instance list_aux {P} : AuxColumn (list (option P)) P := {|
  GrowSlot n a := a ++ [None];
  GrowSlotWithValue n p a := a ++ [Some p];
  CompactSlot i a := take i a ++ drop (S i) a;
  AuxCompact a := None;
  aux_slots a := a;
|}.

#[export] Instance list_aux_laws {P} : AuxLaws (list (option P)) P.
Proof. by split. Qed.

(** ** Entries and versions *)

Section entries.
Context {W A : Type}.

Record adjEntry := mkEntry {
  aux : option A;
  ver : option nat;
  neighbours : option slice;
  weights : option slice;
  handles : option slice;
  labels : option slice;
}.

(** [v_prev] the entry replaced, none when the node had none; [v_info] the commit
    record; [v_ts] the timestamp without one, the pre-image mark with one. *)
Record adjVersion := mkVersion { v_prev : option nat; v_info : option nat; v_ts : Z }.

Record heap := mkHeap {
  zmem : mem Z;
  wmem : mem W;
  ents : list adjEntry;
  vers : list adjVersion;
}.

Definition empty_entry : adjEntry := mkEntry None None None None None None.

Definition set_ver v (e : adjEntry) := mkEntry (aux e) v (neighbours e) (weights e) (handles e) (labels e).
Definition with_zmem m (h : heap) := mkHeap m (wmem h) (ents h) (vers h).
Definition with_wmem m (h : heap) := mkHeap (zmem h) m (ents h) (vers h).
Definition with_ents l (h : heap) := mkHeap (zmem h) (wmem h) l (vers h).
Definition with_vers l (h : heap) := mkHeap (zmem h) (wmem h) (ents h) l.

(** The allocation of an entry, and the store into its version word. *)
Definition new_entry (e : adjEntry) (h : heap) : nat * heap := (length (ents h), with_ents (ents h ++ [e]) h).
Definition store_ver (e : nat) (v : option nat) (h : heap) : heap := with_ents (alter (set_ver v) e (ents h)) h.
Definition load_ver (h : heap) (e : nat) : option nat := ents h !! e ≫= ver.
Definition new_version (v : adjVersion) (h : heap) : nat * heap := (length (vers h), with_vers (vers h ++ [v]) h).

(** A column operation lifted to the heap. *)
Definition on_z (f : mem Z -> option (option slice * mem Z)) (h : heap) : option (option slice * heap) :=
  '(s, m) ← f (zmem h); Some (s, with_zmem m h).
Definition on_w (f : mem W -> option (option slice * mem W)) (h : heap) : option (option slice * heap) :=
  '(s, m) ← f (wmem h); Some (s, with_wmem m h).

(** The columns of an entry as a reader sees them. *)
Record EntryView := mkView {
  Neighbours : list Z; Weights : list W; Handles : option (list Z); Labels : option (list Z); Aux : option A
}.

Definition opt_contents (m : mem Z) (s : option slice) : option (list Z) :=
  match s with None => None | Some s => Some (contents m (Some s)) end.

Definition zero_view : EntryView := mkView [] [] None None None.

Definition entry_view (h : heap) (e : adjEntry) : EntryView :=
  mkView (contents (zmem h) (neighbours e)) (contents (wmem h) (weights e))
    (opt_contents (zmem h) (handles e)) (opt_contents (zmem h) (labels e)) (aux e).

(** [viewOf]: the zero view when there is no entry. *)
Definition viewOf (h : heap) (oe : option nat) : EntryView :=
  from_option (entry_view h) zero_view (oe ≫= fun e => ents h !! e).
End entries.
Arguments adjEntry : clear implicits.
Arguments heap : clear implicits.
Arguments EntryView : clear implicits.
