(* ===== verification/AdjReverse.v ===== *)
(** * The live in-edge index (graph/adjlist/reverse.go)

    Per shard, the sources of every destination with their multiplicity, and the ghosts
    versioned removals leave for readers of older snapshots.  [revIndex] maps a shard
    number to its two structures; a shard never written has neither. *)

From Stdlib Require Import ZArith Lia.
From stdpp Require Import list gmap sorting.
From S2P Require Import Prelude Clock WriteStamp.

Local Open Scope Z_scope.

Definition shardCount : Z := 256.
Definition shardMask : Z := shardCount - 1.
Definition shardBits : Z := 8.

Definition shard_no (id : Z) : Z := Z.land id shardMask.
Definition intra_no (id : Z) : nat := Z.to_nat (Z.shiftr id shardBits).

(** The removing record, or the timestamp of a removal without one. *)
Record revGhost := mkGhost { g_info : option nat; g_ts : Z; g_src : Z }.

Record revShard := mkRev { srcs : list (list Z); ghosts : gmap nat (list revGhost) }.
Abbreviation revIndex := (gmap Z revShard).

Definition rev_shard (r : revIndex) (si : Z) : revShard := default (mkRev [] ∅) (r !! si).

(** [revGhost.at]; a version's [supersededAt] is the same pair read the same way. *)
Definition stamp_at (x : txn) (info : option nat) (ts : Z) : Z :=
  match info with Some r => rec_ts x r | None => ts end.

(** ** Maintenance *)

(** The array grown geometrically so that [i] is an index of it. *)
Definition grow_srcs (i : nat) (l : list (list Z)) : list (list Z) :=
  if (length l <=? i)%nat then l ++ replicate ((i + 1) `max` (2 * length l) - length l) [] else l.

Definition rev_add (dst src : Z) (r : revIndex) : revIndex :=
  let sh := rev_shard r (shard_no dst) in
  <[shard_no dst := mkRev (alter (fun l => l ++ [src]) (intra_no dst) (grow_srcs (intra_no dst) (srcs sh))) (ghosts sh)]> r.

(** The position a removal excises receives the last element. *)
Definition swap_remove (i : nat) (l : list Z) : list Z :=
  take (length l - 1) (<[i := default 0 (last l)]> l).

Definition add_ghost (i : nat) (g : revGhost) (gs : gmap nat (list revGhost)) : gmap nat (list revGhost) :=
  <[i := default [] (gs !! i) ++ [g]]> gs.

Definition rev_remove (dst src : Z) (info : option nat) (ts : Z) (r : revIndex) : revIndex :=
  let sh := rev_shard r (shard_no dst) in
  let i := intra_no dst in
  match srcs sh !! i with
  | None => r
  | Some l =>
      match list_find (fun y => y = src) l with
      | None => r
      | Some (k, _) =>
          let gs := if bool_decide (is_Some info) || negb (ts =? 0) then add_ghost i (mkGhost info ts src) (ghosts sh) else ghosts sh in
          <[shard_no dst := mkRev (<[i := swap_remove k l]> (srcs sh)) gs]> r
      end
  end.

(** ** Queries *)

(** What the lists hold for a destination. *)
Definition live_srcs (r : revIndex) (dst : Z) : list Z :=
  default [] (srcs (rev_shard r (shard_no dst)) !! intra_no dst).
Definition ghosts_of (r : revIndex) (dst : Z) : list revGhost :=
  default [] (ghosts (rev_shard r (shard_no dst)) !! intra_no dst).

(** The order of [graph.Mapper.Walk]: shard, then index in the shard. *)
Definition walkOrder (x y : Z) : Z :=
  if negb (shard_no x =? shard_no y) then shard_no x - shard_no y
  else if Z.shiftr x shardBits <? Z.shiftr y shardBits then -1
  else if Z.shiftr y shardBits <? Z.shiftr x shardBits then 1 else 0.

Definition walk_le (x y : Z) : Prop := walkOrder x y <= 0.
#[export] Instance walk_le_dec : RelDecision walk_le.
Proof. unfold RelDecision, walk_le. intros. apply _. Defined.

(** [slices.CompactFunc]: of each run of equal neighbours, the first. *)
Fixpoint compact_after {A} (eqb : A -> A -> bool) (p : A) (l : list A) : list A :=
  match l with [] => [] | x :: l' => if eqb x p then compact_after eqb x l' else x :: compact_after eqb x l' end.
Definition compact_by {A} (eqb : A -> A -> bool) (l : list A) : list A :=
  match l with [] => [] | x :: l' => x :: compact_after eqb x l' end.

(** [slices.IndexFunc] and [slices.Delete]: without the first element that satisfies [f]. *)
Definition delete_first {A} (f : A -> bool) (l : list A) : list A :=
  match list_find (fun x => f x = true) l with Some (i, _) => delete i l | None => l end.

Definition sources (r : revIndex) (dst : Z) : list Z :=
  delete_first (Z.eqb dst) (compact_by Z.eqb (merge_sort walk_le (live_srcs r dst))).

(** A candidate source, and whether the live list holds it. *)
Definition revCandidate := (Z * bool)%type.

Definition cand_le (x y : revCandidate) : Prop :=
  let c := walkOrder (fst x) (fst y) in c < 0 \/ c = 0 /\ (snd x = true \/ snd y = false).
#[export] Instance cand_le_dec : RelDecision cand_le.
Proof. unfold RelDecision, cand_le. intros. apply _. Defined.

(** A source both live and removed is reported once, as live. *)
Definition candidates (r : revIndex) (dst : Z) : list revCandidate :=
  delete_first (fun c => fst c =? dst) (compact_by (fun x y => fst x =? fst y)
    (merge_sort cand_le (((fun s => (s, true)) <$> live_srcs r dst) ++ ((fun g => (g_src g, false)) <$> ghosts_of r dst)))).

(** ** Reclamation *)

(** A ghost no reader needs: at or below the watermark, or aborted. *)
Definition ghost_done (x : txn) (watermark : Z) (g : revGhost) : bool :=
  let at_ := stamp_at x (g_info g) (g_ts g) in
  (at_ =? AbortedTS) || (negb (watermark =? 0) && (at_ <=? watermark)).

(** What a sweep keeps of one list; an emptied list leaves the map. *)
Definition keep_ghosts (x : txn) (watermark : Z) (l : list revGhost) : option (list revGhost) :=
  match filter (fun g => ghost_done x watermark g = false) l with [] => None | l' => Some l' end.

Definition sweep_shard (x : txn) (watermark : Z) (sh : revShard) : revShard :=
  mkRev (srcs sh) (omap (keep_ghosts x watermark) (ghosts sh)).

Definition sweepGhosts (x : txn) (watermark : Z) (r : revIndex) : revIndex := sweep_shard x watermark <$> r.

(** ** Counters for tests and diagnostics *)

Definition shard_nos : list Z := Z.of_nat <$> seq 0 (Z.to_nat shardCount).
Definition RecordedInEdges (r : revIndex) : Z :=
  foldr (fun si n => foldr (fun l n => Z.of_nat (length l) + n) n (srcs (rev_shard r si))) 0 shard_nos.
Definition RecordedInEdgeGhosts (r : revIndex) : Z :=
  foldr (fun si n => map_fold (fun _ l n => Z.of_nat (length l) + n) n (ghosts (rev_shard r si))) 0 shard_nos.
