(* ===== verification/AdjList.v ===== *)
(** * The versioned adjacency (graph/adjlist/adjlist.go, mvcc_adj.go, direct_conflict.go)

    The state of an [AdjList] and its operations on node ids.  Everything a Go function
    does while it holds one shard's lock is one function of the state here; what follows
    after the lock is released (the edge counter, the in-edges of a bulk removal, the
    version counter of a sweep) is a function of its own, so that AdjSystem can interleave
    them.  [None] is a run-time panic.  A write that takes an untransacted timestamp gets
    it as an argument: the clock allocates and publishes it. *)

From Stdlib Require Import ZArith Lia.
From stdpp Require Import list gmap.
From S2P Require Import Prelude Clock WriteStamp AdjHeap AdjReverse.

Local Open Scope Z_scope.

Definition initialShardCap : nat := 16.

(** A published slot array; [frozen] once a snapshot has pinned it.  (The third state,
    a store in progress, is held for one store by a writer and is waited out.) *)
Record shardSlots := mkSlots { slots : list (option nat); frozen : bool }.

Record adjShard := mkShard {
  slotsRef : option nat;
  versioned : gset nat;
  buildingOwner : Z;
  building : option nat;
}.

Inductive adjErr := ErrShardFull | Conflict (head own : Z).

Section adjlist.
Context {W A P : Type} (zeroW : W) `{!AuxColumn A P}.
Abbreviation adjEntry := (adjEntry A).
Abbreviation heap := (heap W A).

Record Config := mkConfig {
  MaxShardCapacity : Z;
  Weightless : bool;
  versioning : bool;
  has_stamp : bool;
  auxFactory : option (nat -> P -> A);
}.

Record AdjList := mkAdj {
  hp : heap;
  arrs : list shardSlots;
  shards : gmap Z adjShard;
  rv : revIndex;
  mv : txn;
  size : Z;
  versionActive : Z;
  handleSeq : Z;
  bulkOwner : Z;
  bulkDepth : Z;
  exclusiveBuild : bool;
  nestedServingWindows : Z;
  bulkSeq : Z;
}.

Context (cfg : Config).
Implicit Types (a : AdjList) (h : heap).

Definition with_hp v a := mkAdj v (arrs a) (shards a) (rv a) (mv a) (size a) (versionActive a) (handleSeq a)
  (bulkOwner a) (bulkDepth a) (exclusiveBuild a) (nestedServingWindows a) (bulkSeq a).
Definition with_arrs v a := mkAdj (hp a) v (shards a) (rv a) (mv a) (size a) (versionActive a) (handleSeq a)
  (bulkOwner a) (bulkDepth a) (exclusiveBuild a) (nestedServingWindows a) (bulkSeq a).
Definition with_shards v a := mkAdj (hp a) (arrs a) v (rv a) (mv a) (size a) (versionActive a) (handleSeq a)
  (bulkOwner a) (bulkDepth a) (exclusiveBuild a) (nestedServingWindows a) (bulkSeq a).
Definition with_rv v a := mkAdj (hp a) (arrs a) (shards a) v (mv a) (size a) (versionActive a) (handleSeq a)
  (bulkOwner a) (bulkDepth a) (exclusiveBuild a) (nestedServingWindows a) (bulkSeq a).
Definition with_mv v a := mkAdj (hp a) (arrs a) (shards a) (rv a) v (size a) (versionActive a) (handleSeq a)
  (bulkOwner a) (bulkDepth a) (exclusiveBuild a) (nestedServingWindows a) (bulkSeq a).
Definition with_counts s v hs a := mkAdj (hp a) (arrs a) (shards a) (rv a) (mv a) s v hs
  (bulkOwner a) (bulkDepth a) (exclusiveBuild a) (nestedServingWindows a) (bulkSeq a).
Definition with_window o d x n q a := mkAdj (hp a) (arrs a) (shards a) (rv a) (mv a) (size a) (versionActive a)
  (handleSeq a) o d x n q.

Definition add_size (n : Z) a := with_counts (u64 (size a + n)) (versionActive a) (handleSeq a) a.
Definition add_versions (n : Z) a := with_counts (size a) (versionActive a + n) (handleSeq a) a.

Definition New (clocked : bool) : AdjList :=
  mkAdj (mkHeap [] [] [] []) [] ∅ ∅ (mkTxn [] [] None clocked 0 0) 0 0 0 0 0 false 0 0.

Definition shard_at a (si : Z) : adjShard := default (mkShard None ∅ 0 None) (shards a !! si).
Definition set_shard (si : Z) (s : adjShard) a := with_shards (<[si := s]> (shards a)) a.
Definition arr_at a (r : nat) : shardSlots := default (mkSlots [] false) (arrs a !! r).
Definition new_arr (l : list (option nat)) a : nat * AdjList := (length (arrs a), with_arrs (arrs a ++ [mkSlots l false]) a).
Definition store_slot (r i : nat) (oe : option nat) a :=
  with_arrs (alter (fun s => mkSlots (<[i := oe]> (slots s)) (frozen s)) r (arrs a)) a.
Definition alloc_entry (e : adjEntry) a : nat * AdjList :=
  let '(p, h) := new_entry e (hp a) in (p, with_hp h a).

(** ** Reading a slot *)

Definition slot_at a (ref : option nat) (i : nat) : option nat :=
  match ref with None => None | Some r => default None (slots (arr_at a r) !! i) end.

Definition loadEntry a (id : Z) : option nat := slot_at a (slotsRef (shard_at a (shard_no id))) (intra_no id).

Definition get_version a (v : nat) : adjVersion := default (mkVersion None None 0) (vers (hp a) !! v).
Definition supersededAt a (v : adjVersion) : Z := stamp_at (mv a) (v_info v) (v_ts v).
Definition entry_at a (e : nat) : adjEntry := default empty_entry (ents (hp a) !! e).

(** One turn more than there are versions covers every chain. *)
Definition fuel_of a : nat := S (length (vers (hp a))).

(** ** Conflicts *)

Definition directConflictLocked (tx : option nat) (id : Z) a : option adjErr :=
  if negb (versioning cfg && has_stamp cfg) then None else
  match loadEntry a id with
  | None => None
  | Some e =>
      match load_ver (hp a) e with
      | None => None
      | Some v =>
          let head := supersededAt a (get_version a v) in
          if (head <? TxIDBase) || (head =? AbortedTS) then None else
          let own := Tx_ID (mv a) tx in
          if negb (own =? 0) && (head =? own) then None else Some (Conflict head own)
      end
  end.

(** ** Versions *)

Definition versionStamp (tx : option nat) (ts : Z) a : option nat * Z * AdjList :=
  if negb (has_stamp cfg) then (None, 0, a) else
  let '(info, x) := if Tx_Valid tx then Tx_Record tx (mv a) else (None, mv a) in
  match info with
  | Some r => (Some r, 0, with_mv x a)
  | None => let '(i, t, x) := UntransactedStamp ts x in (i, t, with_mv x a)
  end.

Definition adjOverPreImage : Z := 1.

Fixpoint overPreImage_loop (fuel : nat) a (oe : option nat) : bool :=
  match fuel, oe with
  | S fuel, Some e =>
      match load_ver (hp a) e with
      | None => true
      | Some v =>
          let at_ := supersededAt a (get_version a v) in
          if negb (at_ =? AbortedTS) then at_ <? TxIDBase else overPreImage_loop fuel a (v_prev (get_version a v))
      end
  | _, _ => true
  end.
Definition overPreImage a (oe : option nat) : bool := overPreImage_loop (fuel_of a) a oe.

(** A replacement by the transaction that made [prev] keeps [prev]'s version. *)
Definition same_record a (prev : option nat) (info : option nat) : option nat :=
  match info, prev with
  | Some r, Some p =>
      match load_ver (hp a) p with
      | Some pv => if decide (v_info (get_version a pv) = Some r) then Some pv else None
      | None => None
      end
  | _, _ => None
  end.

Definition linkVersion (next : nat) (prev info : option nat) (ts : Z) a : bool * AdjList :=
  match same_record a prev info with
  | Some pv => (false, with_hp (store_ver next (Some pv) (hp a)) a)
  | None =>
      let ts := match info with Some _ => if overPreImage a prev then adjOverPreImage else 0 | None => ts end in
      let '(v, h) := new_version (mkVersion prev info ts) (hp a) in
      (bool_decide (is_Some info), add_versions 1 (with_hp (store_ver next (Some v) h) a))
  end.

(** ** Publishing an entry *)

Definition builderOwner a : Z :=
  let id := if has_stamp cfg then OpenTxID (mv a) else 0 in
  if negb (id =? 0) then id else bulkOwner a.

(** The identity a write presents to a builder: its transaction's, or the ambient one. *)
Definition owner_of (tx : option nat) a : Z :=
  let own := Tx_ID (mv a) tx in
  if (own =? 0) || Tx_Implicit (mv a) tx then builderOwner a else own.

(** Another owner's builder is released. *)
Definition release (owner : Z) (s : adjShard) : adjShard :=
  match building s with
  | Some _ => if negb (buildingOwner s =? owner) then mkShard (slotsRef s) (versioned s) 0 None else s
  | None => s
  end.

(** The array a write goes into, and whether it is the window's first on the shard. *)
Definition base_of (owner : Z) (s : adjShard) : option nat * bool :=
  match building s with Some b => (Some b, false) | None => (slotsRef s, negb (owner =? 0)) end.

Definition id_of_slot (si : Z) (i : nat) : Z := Z.lor (Z.shiftl (Z.of_nat i) shardBits) si.

Definition add_versioned (id : Z) a : AdjList :=
  let s := shard_at a (shard_no id) in
  set_shard (shard_no id) (mkShard (slotsRef s) ({[ intra_no id ]} ∪ versioned s) (buildingOwner s) (building s)) a.

(** The version record of a write: a delete publishes an empty entry that carries it. *)
Definition link_entry (id : Z) (base oe tx : option nat) (ts : Z) a : option nat * AdjList :=
  if negb (versioning cfg) then (oe, a) else
  let prev := slot_at a base (intra_no id) in
  if decide (prev = oe) then (oe, a) else
  let '(e, a) := match oe with Some e => (e, a) | None => alloc_entry empty_entry a end in
  let '(info, stamp, a) := versionStamp tx ts a in
  let '(linked, a) := linkVersion e prev info stamp a in
  let a := if linked && Tx_Valid tx
           then with_mv (Tx_NoteAdjacency (id_of_slot (shard_no id) (intra_no id)) tx (mv a)) a else a in
  (Some e, add_versioned id a).

Fixpoint double_to (fuel minLen n : nat) : nat :=
  match fuel with O => n | S fuel => if (n <? minLen)%nat then double_to fuel minLen (n * 2) else n end.

(** The larger array of [growShardLocked], or [None] for [ErrShardFull]. *)
Definition growShardLocked (minLen : nat) (cur : list (option nat)) : option (list (option nat)) :=
  let maxCap := MaxShardCapacity cfg in
  if (0 <? maxCap) && (maxCap <? Z.of_nat minLen) then None else
  let n := double_to minLen minLen (length cur `max` initialShardCap) in
  let n := if (0 <? maxCap) && (maxCap <? Z.of_nat n) then Z.to_nat maxCap else n in
  Some (cur ++ replicate (n - length cur) None).

(** The publication of a new array; in a window it becomes the shard's builder. *)
Definition publish_arr (si owner : Z) (l : list (option nat)) a : AdjList :=
  let '(r, a) := new_arr l a in
  let s := shard_at a si in
  if negb (owner =? 0) then set_shard si (mkShard (Some r) (versioned s) owner (Some r)) a
  else set_shard si (mkShard (Some r) (versioned s) (buildingOwner s) (building s)) a.

(** The store of [oe] into slot [id]: into a larger array, into the builder, into the
    published array when no snapshot froze it, or into a clone of it. *)
Definition put_entry (id owner : Z) (base : option nat) (first : bool) (oe : option nat) a : option adjErr * AdjList :=
  let i := intra_no id in
  let l := match base with None => [] | Some b => slots (arr_at a b) end in
  let publish l' := publish_arr (shard_no id) owner (<[i := oe]> l') a in
  let grow := match growShardLocked (S i) l with None => (Some ErrShardFull, a) | Some l' => (None, publish l') end in
  match base with
  | Some b =>
      if negb (i <? length l)%nat then grow
      else if negb (owner =? 0) && negb first then (None, store_slot b i oe a)
      else if (owner =? 0) && negb (frozen (arr_at a b)) then (None, store_slot b i oe a)
      else (None, publish l)
  | None => grow
  end.

Definition storeEntry (id : Z) (oe tx : option nat) (ts : Z) a : option adjErr * AdjList :=
  match directConflictLocked tx id a with
  | Some e => (Some e, a)
  | None =>
      let owner := owner_of tx a in
      let s := release owner (shard_at a (shard_no id)) in
      let a := set_shard (shard_no id) s a in
      let '(base, first) := base_of owner s in
      let '(oe, a) := link_entry id base oe tx ts a in
      put_entry id owner base first oe a
  end.

Definition removalStamp (id : Z) a : option nat * Z :=
  if negb (versioning cfg) then (None, 0) else
  match loadEntry a id ≫= load_ver (hp a) with
  | None => (None, 0)
  | Some v => (v_info (get_version a v), v_ts (get_version a v))
  end.
End adjlist.
Arguments Config : clear implicits.
Arguments AdjList : clear implicits.
