(* ===== verification/AdjOps.v ===== *)
(** * Edge writes, entry maintenance and rollback of the adjacency (graph/adjlist)

    The insertions, removals, label and side-column setters, compaction, reclamation,
    withdrawal and commit windows, each from the code under its shard's lock. *)

From Stdlib Require Import ZArith Lia.
From stdpp Require Import list gmap.
From S2P Require Import Prelude Clock WriteStamp AdjHeap AdjReverse AdjList.

Local Open Scope Z_scope.

Section ops.
Context {W A P : Type} (zeroW : W) `{!AuxColumn A P} (cfg : Config A P).
Abbreviation adjEntry := (adjEntry A).
Abbreviation heap := (heap W A).
Abbreviation AdjList := (AdjList W A).
Implicit Types (a : AdjList) (h : heap).

(** What a critical section returns: its error or its value, and the state. *)
Abbreviation outcome R := (option ((adjErr + R) * AdjList)) (only parsing).
Definition done {R} (r : R) a : outcome R := Some (inr r, a).
Definition refuse {R} (e : adjErr) a : outcome R := Some (inl e, a).

(** The store of a freshly built entry. *)
Definition store_new (id : Z) (e : adjEntry) (h : heap) (tx : option nat) (ts : Z) a : option adjErr * AdjList :=
  let '(p, a) := alloc_entry e (with_hp h a) in storeEntry cfg id (Some p) tx ts a.

(** A result unless the store was refused. *)
Definition if_stored {R} (st : option adjErr * AdjList) (k : AdjList -> outcome R) : outcome R :=
  match st with (Some err, a) => refuse err a | (None, a) => k a end.

(** Every write tests for a conflict before anything else. *)
Definition guarded {R} (tx : option nat) (id : Z) a (k : outcome R) : outcome R :=
  match directConflictLocked cfg tx id a with Some err => refuse err a | None => k end.

Definition nbs_of a (e : adjEntry) : list Z := contents (zmem (hp a)) (neighbours e).

(** ** Insertion *)

(** [edgeExtra]: the optional handle, label and payload of the new slot. *)
Record edgeExtra := mkExtra {
  auxPayload : option P; handle : Z; label : Z; hasHandle : bool; hasLabel : bool
}.

Definition growAuxEx (cur : option A) (oldLen : nat) (ex : edgeExtra) : option A :=
  match auxPayload ex, cur with
  | Some p, Some c => Some (GrowSlotWithValue oldLen p c)
  | Some p, None => (fun f => f (S oldLen) p) <$> auxFactory cfg
  | None, Some c => Some (GrowSlot oldLen c)
  | None, None => None
  end.

Definition first_entry (dst : Z) (w : W) (ex : edgeExtra) (h : heap) : option (adjEntry * heap) :=
  let c := growCap 0 in
  '(nb, h) ← on_z (first_col 0 true c dst) h;
  '(ws, h) ← on_w (first_col zeroW (negb (Weightless cfg)) c w) h;
  '(hs, h) ← on_z (first_col 0 (hasHandle ex) c (handle ex)) h;
  '(ls, h) ← on_z (first_col 0 (hasLabel ex) c (label ex)) h;
  Some (mkEntry (growAuxEx None 0 ex) None nb ws hs ls, h).

Definition fast_entry (cur : adjEntry) (dst : Z) (w : W) (ex : edgeExtra) (h : heap) : option (adjEntry * heap) :=
  let oldLen := slen (neighbours cur) in
  '(nb, h) ← on_z (push_col oldLen dst (neighbours cur)) h;
  '(ws, h) ← (if Weightless cfg then Some (None, h) else on_w (push_col oldLen w (weights cur)) h);
  '(hs, h) ← on_z (push_opt 0 (hasHandle ex) oldLen (handle ex) (handles cur)) h;
  '(ls, h) ← on_z (push_opt 0 (hasLabel ex) oldLen (label ex) (labels cur)) h;
  Some (mkEntry (growAuxEx (aux cur) oldLen ex) None nb ws hs ls, h).

Definition slow_entry (cur : adjEntry) (dst : Z) (w : W) (ex : edgeExtra) (h : heap) : option (adjEntry * heap) :=
  let oldLen := slen (neighbours cur) in
  let newCap := growCap oldLen in
  '(nb, h) ← on_z (fresh_col 0 oldLen newCap dst (neighbours cur)) h;
  '(ws, h) ← (if Weightless cfg then Some (None, h) else on_w (fresh_col zeroW oldLen newCap w (weights cur)) h);
  '(hs, h) ← on_z (grow_opt 0 (hasHandle ex) oldLen newCap (handle ex) (handles cur)) h;
  '(ls, h) ← on_z (grow_opt 0 (hasLabel ex) oldLen newCap (label ex) (labels cur)) h;
  Some (mkEntry (growAuxEx (aux cur) oldLen ex) None nb ws hs ls, h).

(** The entry that holds the new slot last: reusing the arrays that have room for it. *)
Definition appended (src dst : Z) (w : W) (ex : edgeExtra) a : option (adjEntry * heap) :=
  match loadEntry a src with
  | None => first_entry dst w ex (hp a)
  | Some p =>
      let cur := entry_at a p in
      if (S (slen (neighbours cur)) <=? scap (neighbours cur))%nat
      then fast_entry cur dst w ex (hp a) else slow_entry cur dst w ex (hp a)
  end.

Definition upsertEdgeSlotLocked (src dst : Z) (w : W) (ex : edgeExtra) (tx : option nat) (ts : Z) a : outcome unit :=
  guarded tx src a (
    '(e, h) ← appended src dst w ex a;
    if_stored (store_new src e h tx ts a) (done ())).

(** With the reverse index, maintained under the same lock. *)
Definition upsertEdgeLocked (src dst : Z) (w : W) (ex : edgeExtra) (tx : option nat) (ts : Z) a : outcome unit :=
  '(r, a) ← upsertEdgeSlotLocked src dst w ex tx ts a;
  match r with inl err => refuse err a | inr _ => done () (with_rv (rev_add dst src (rv a)) a) end.

Definition NextHandle a : Z * AdjList :=
  let n := u64 (handleSeq a + 1) in (n, with_counts (size a) (versionActive a) n a).

Definition SeedHandleSeq (highWater : Z) a : AdjList :=
  if highWater <=? handleSeq a then a else with_counts (size a) (versionActive a) highWater a.

(** [addEdge] on interned endpoints. *)
Definition addEdge (src dst : Z) (w : W) (ex : edgeExtra) (tx : option nat) (ts : Z) a : outcome unit :=
  let '(ex, a) := if hasHandle ex then (ex, a) else
    let '(n, a) := NextHandle a in (mkExtra (auxPayload ex) n (label ex) true (hasLabel ex), a) in
  '(r, a) ← upsertEdgeLocked src dst w ex tx ts a;
  match r with inl err => refuse err a | inr _ => done () (add_size 1 a) end.

(** ** Removal *)

(** The entry without slot [idx]; every other slot keeps its handle, label and value. *)
Definition compactEntry (cur : adjEntry) (idx : nat) (h : heap) : option (adjEntry * heap) :=
  '(nb, h) ← on_z (drop_col 0 idx (neighbours cur)) h;
  '(ws, h) ← on_w (drop_col zeroW idx (weights cur)) h;
  '(hs, h) ← on_z (drop_col 0 idx (handles cur)) h;
  '(ls, h) ← on_z (drop_col 0 idx (labels cur)) h;
  Some (mkEntry (CompactSlot idx <$> aux cur) None nb ws hs ls, h).

(** The publication of the entry without one slot, or of nil for its last, and the
    retirement of the in-edge with the removal's stamp. *)
Definition retireSlotLocked (src dst : Z) (cur : adjEntry) (idx : nat) (tx : option nat) (ts : Z) a : outcome unit :=
  st ← (if (1 <? slen (neighbours cur))%nat
        then '(e, h) ← compactEntry cur idx (hp a); Some (store_new src e h tx ts a)
        else Some (storeEntry cfg src None tx ts a));
  if_stored st (fun a =>
    let '(info, t) := removalStamp cfg src a in done () (with_rv (rev_remove dst src info t (rv a)) a)).

Definition find_slot (dst : Z) (l : list Z) : option nat := fst <$> list_find (fun n => n = dst) l.

(** The first occurrence; the value is whether a slot went, and its handle. *)
Definition removeOneEdgeWithHandleLocked (src dst : Z) (tx : option nat) (ts : Z) a : outcome (bool * Z) :=
  guarded tx src a (
    match loadEntry a src with
    | None => done (false, 0) a
    | Some p =>
        let cur := entry_at a p in
        match find_slot dst (nbs_of a cur) with
        | None => done (false, 0) a
        | Some idx =>
            hd ← (if not_nil (handles cur) then contents (zmem (hp a)) (handles cur) !! idx else Some 0);
            '(r, a) ← retireSlotLocked src dst cur idx tx ts a;
            match r with inl err => refuse err a | inr _ => done (true, hd) a end
        end
    end).

(** The fallback for an entry without handles. *)
Definition removeOneEdgeFallback (src dst : Z) (cur : option nat) (tx : option nat) (ts : Z) a : outcome bool :=
  match cur with
  | None => done false a
  | Some p =>
      let cur := entry_at a p in
      match find_slot dst (nbs_of a cur) with
      | None => done false a
      | Some idx =>
          '(r, a) ← retireSlotLocked src dst cur idx tx ts a;
          match r with inl err => refuse err a | inr _ => done true a end
      end
  end.

(** The scan for a neighbour and a handle; indexing past the handles panics. *)
Fixpoint find_handle (dst target : Z) (nbs hs : list Z) : option (option nat) :=
  match nbs with
  | [] => Some None
  | n :: nbs' =>
      if n =? dst then
        match hs with
        | [] => None
        | hd :: hs' => if hd =? target then Some (Some O) else r ← find_handle dst target nbs' hs'; Some (option_map S r)
        end
      else r ← find_handle dst target nbs' (tail hs); Some (option_map S r)
  end.

Definition removeOneEdgeByHandleLocked (src dst target : Z) (tx : option nat) (ts : Z) a : outcome bool :=
  guarded tx src a (
    match loadEntry a src with
    | Some p =>
        let cur := entry_at a p in
        if not_nil (handles cur) then
          found ← find_handle dst target (nbs_of a cur) (contents (zmem (hp a)) (handles cur));
          match found with
          | None => done false a
          | Some idx =>
              '(r, a) ← retireSlotLocked src dst cur idx tx ts a;
              match r with inl err => refuse err a | inr _ => done true a end
          end
        else removeOneEdgeFallback src dst (Some p) tx ts a
    | None => removeOneEdgeFallback src dst None tx ts a
    end).

(** The destinations of the emptied entry with the removal's stamp; their in-edges and
    the edge count follow after the lock is released. *)
Definition removeAllEdgesLocked (src : Z) (tx : option nat) (ts : Z) a : outcome (list Z * (option nat * Z)) :=
  guarded tx src a (
    match loadEntry a src with
    | None => done ([], (None, 0)) a
    | Some p =>
        let old := nbs_of a (entry_at a p) in
        if (length old =? 0)%nat then done ([], (None, 0)) a
        else if_stored (storeEntry cfg src None tx ts a) (fun a => done (old, removalStamp cfg src a) a)
    end).

Definition removeEdgeTx (src dst : Z) (tx : option nat) (ts : Z) a : outcome unit :=
  '(r, a) ← removeOneEdgeWithHandleLocked src dst tx ts a;
  match r with
  | inl err => refuse err a
  | inr (removed, _) => done () (if (removed : bool) then add_size (u64 (-1)) a else a)
  end.

Definition removeEdgeByHandleTx (src dst target : Z) (tx : option nat) (ts : Z) a : outcome bool :=
  '(r, a) ← removeOneEdgeByHandleLocked src dst target tx ts a;
  match r with
  | inl err => refuse err a
  | inr removed => done removed (if (removed : bool) then add_size (u64 (-1)) a else a)
  end.

Definition retire_arcs (src : Z) (dsts : list Z) (info : option nat) (ts : Z) a : AdjList :=
  foldl (fun a dst => with_rv (rev_remove dst src info ts (rv a)) a) a dsts.

Definition removeAllEdgesFromTx (src : Z) (tx : option nat) (ts : Z) a : outcome unit :=
  '(r, a) ← removeAllEdgesLocked src tx ts a;
  match r with
  | inl err => refuse err a
  | inr (dsts, (info, t)) =>
      if (length dsts =? 0)%nat then done () a
      else done () (add_size (u64 (- Z.of_nat (length dsts))) (retire_arcs src dsts info t a))
  end.
End ops.
Arguments edgeExtra : clear implicits.
