(* ===== verification/AdjMaint.v ===== *)
(** * Labels, side columns, compaction, reclamation, withdrawal, windows and pins
    (graph/adjlist/adjlist.go, mvcc_adj.go) *)

From Stdlib Require Import ZArith Lia.
From stdpp Require Import list gmap sorting.
From S2P Require Import Prelude Clock WriteStamp AdjHeap AdjReverse AdjList AdjOps.

Local Open Scope Z_scope.

Section maint.
Context {W A P : Type} (zeroW : W) `{!AuxColumn A P} (cfg : Config A P).
Abbreviation adjEntry := (adjEntry A).
Abbreviation heap := (heap W A).
Abbreviation AdjList := (AdjList W A).
Abbreviation outcome R := (option ((adjErr + R) * AdjList)) (only parsing).
Implicit Types (a : AdjList) (h : heap).

(** ** Label slots and the side column *)

(** The columns of [cur] republished with new labels, or with a new side column. *)
Definition relabelled {R} (src : Z) (cur : adjEntry) (newL : list Z) (r : R) (tx : option nat) (ts : Z) a : outcome R :=
  let h := hp a in
  let s := mkSlice (length (zmem h)) (length newL) (length newL) in
  if_stored (store_new cfg src (mkEntry (aux cur) None (neighbours cur) (weights cur) (handles cur) (Some s))
    (with_zmem (zmem h ++ [newL]) h) tx ts a) (done r).

(** [newL := make([]uint32, n); copy(newL, labels)] *)
Definition padded (n : nat) (l : list Z) : list Z := take n l ++ replicate (n - length l) 0.

Definition labels_of a (e : adjEntry) : list Z := contents (zmem (hp a)) (labels e).

Definition setEdgeLabelSlotTx (src dst v : Z) (tx : option nat) (ts : Z) a : outcome bool :=
  guarded cfg tx src a (
    match loadEntry a src with
    | None => done false a
    | Some p =>
        let cur := entry_at a p in
        match find_slot dst (nbs_of a cur) with
        | None => done false a
        | Some idx => relabelled src cur (<[idx := v]> (padded (slen (neighbours cur)) (labels_of a cur))) true tx ts a
        end
    end).

Definition find_labelled (dst v : Z) (nbs ls : list Z) : option nat :=
  fst <$> list_find (fun x => x = (dst, v)) (zip nbs ls).

Definition clearEdgeLabelSlotValueTx (src dst v : Z) (tx : option nat) (ts : Z) a : outcome bool :=
  if v =? 0 then done false a else
  guarded cfg tx src a (
    match loadEntry a src with
    | None => done false a
    | Some p =>
        let cur := entry_at a p in
        if negb (not_nil (labels cur)) then done false a else
        match find_labelled dst v (nbs_of a cur) (labels_of a cur) with
        | None => done false a
        | Some idx => relabelled src cur (<[idx := 0]> (labels_of a cur)) true tx ts a
        end
    end).

(** One index of the batch: the column so far, none before the first write. *)
Definition label_at (dst v : Z) (nbs ls : list Z) (st : option (list Z) * Z) (idx : Z) : option (list Z) * Z :=
  if (idx <? 0) || (Z.of_nat (length nbs) <=? idx) || negb (bool_decide (nbs !! Z.to_nat idx = Some dst)) then st
  else let newL := match fst st with Some l => l | None => padded (length nbs) ls end in
       (Some (<[Z.to_nat idx := v]> newL), snd st + 1).

Definition setEdgeLabelSlotsAtTx (src dst : Z) (idxs : list Z) (v : Z) (tx : option nat) (ts : Z) a : outcome Z :=
  if (length idxs =? 0)%nat then done 0 a else
  guarded cfg tx src a (
    match loadEntry a src with
    | None => done 0 a
    | Some p =>
        let cur := entry_at a p in
        match foldl (label_at dst v (nbs_of a cur) (labels_of a cur)) (None, 0) idxs with
        | (None, _) => done 0 a
        | (Some newL, written) => relabelled src cur newL written tx ts a
        end
    end).

(** The labels with every slot of [dst] that satisfies [f] cleared, and their count. *)
Definition clear_slots (dst : Z) (f : Z -> bool) (nbs ls : list Z) : list Z * Z :=
  (imap (fun i l => if bool_decide (nbs !! i = Some dst) && f l then 0 else l) ls,
   Z.of_nat (length (filter (fun x => fst x = dst /\ f (snd x) = true) (zip nbs ls)))).

Definition clear_labels (src dst : Z) (f : Z -> bool) (tx : option nat) (ts : Z) a : outcome Z :=
  guarded cfg tx src a (
    match loadEntry a src with
    | None => done 0 a
    | Some p =>
        let cur := entry_at a p in
        if negb (not_nil (labels cur)) then done 0 a else
        let '(newL, cleared) := clear_slots dst f (nbs_of a cur) (labels_of a cur) in
        if cleared =? 0 then done 0 a else relabelled src cur newL cleared tx ts a
    end).

Definition clearEdgeLabelSlotsValueTx (src dst v : Z) (tx : option nat) (ts : Z) a : outcome Z :=
  if v =? 0 then done 0 a else clear_labels src dst (Z.eqb v) tx ts a.

Definition clearEdgeLabelSlotsTx (src dst : Z) (tx : option nat) (ts : Z) a : outcome Z :=
  clear_labels src dst (fun l => negb (l =? 0)) tx ts a.

(** The first slot of each key, until every key of the batch is done. *)
Fixpoint label_firsts (updates : gmap Z Z) (ls : list Z) (all : nat) (i : nat) (nbs : list Z)
    (st : option (list Z) * gset Z) : option (list Z) * gset Z :=
  match nbs with
  | [] => st
  | n :: nbs' =>
      match updates !! n with
      | None => label_firsts updates ls all (S i) nbs' st
      | Some v =>
          if decide (n ∈ snd st) then label_firsts updates ls all (S i) nbs' st
          else let newL := match fst st with Some l => l | None => padded all ls end in
               let st' := (Some (<[i := v]> newL), {[ n ]} ∪ snd st) in
               if decide (base.size (snd st') = base.size updates) then st'
               else label_firsts updates ls all (S i) nbs' st'
      end
  end.

Definition setEdgeLabelSlotsTx (src : Z) (updates : gmap Z Z) (tx : option nat) (ts : Z) a : outcome Z :=
  if (base.size updates =? 0)%nat then done 0 a else
  guarded cfg tx src a (
    match loadEntry a src with
    | None => done 0 a
    | Some p =>
        let cur := entry_at a p in
        match label_firsts updates (labels_of a cur) (slen (neighbours cur)) 0 (nbs_of a cur) (None, ∅) with
        | (None, _) => done 0 a
        | (Some newL, seen) => relabelled src cur newL (Z.of_nat (base.size seen)) tx ts a
        end
    end).

(** [fn] gives the new side column, or says there is nothing to change. *)
Definition updateEntryAuxTx (src : Z) (fn : option A -> list Z -> option A * bool) (tx : option nat) (ts : Z) a : outcome bool :=
  guarded cfg tx src a (
    match loadEntry a src with
    | None => done false a
    | Some p =>
        let cur := entry_at a p in
        let '(newAux, changed) := fn (aux cur) (nbs_of a cur) in
        if negb changed then done false a else
        if_stored (store_new cfg src (mkEntry newAux None (neighbours cur) (weights cur) (handles cur) (labels cur))
          (hp a) tx ts a) (done true)
    end).

(** ** Compaction of slack *)

(** The entry in exactly sized arrays with its version, or [None] without slack. *)
Definition trimEntry (e : adjEntry) (h : heap) : option (option adjEntry * heap) :=
  let auxTrimmed := aux e ≫= AuxCompact in
  if full_col (neighbours e) && full_col (weights e) && full_col (handles e) && full_col (labels e)
     && negb (bool_decide (is_Some auxTrimmed)) then Some (None, h) else
  let n := slen (neighbours e) in
  '(nb, h) ← on_z (exact_col 0 n (neighbours e)) h;
  '(ws, h) ← on_w (trim_col zeroW n (weights e)) h;
  '(hs, h) ← on_z (trim_col 0 (slen (handles e)) (handles e)) h;
  '(ls, h) ← on_z (trim_col 0 (slen (labels e)) (labels e)) h;
  Some (Some (mkEntry (match auxTrimmed with Some x => Some x | None => aux e end) (ver e) nb ws hs ls), h).

(** One slot of the pass: the clone so far, none before the first slack. *)
Definition trim_slot (l : list (option nat)) (st : option (list (option nat)) * AdjList) (idx : nat)
    : option (option (list (option nat)) * AdjList) :=
  let '(next, a) := st in
  match default None (l !! idx) with
  | None => Some (next, a)
  | Some p =>
      '(t, h) ← trimEntry (entry_at a p) (hp a);
      match t with
      | None => Some (next, a)
      | Some e => let '(q, a) := alloc_entry e (with_hp h a) in
                  Some (Some (<[idx := Some q]> (default l next)), a)
      end
  end.

Fixpoint trim_slots (l : list (option nat)) (idxs : list nat) (st : option (list (option nat)) * AdjList)
    : option (option (list (option nat)) * AdjList) :=
  match idxs with [] => Some st | i :: idxs => st ← trim_slot l st i; trim_slots l idxs st end.

Definition compactShard (si : Z) a : option AdjList :=
  let s := shard_at a si in
  let a := set_shard si (mkShard (slotsRef s) (versioned s) 0 None) a in
  match slotsRef s with
  | None => Some a
  | Some r =>
      let l := slots (arr_at a r) in
      '(next, a) ← trim_slots l (seq 0 (length l)) (None, a);
      match next with
      | None => Some a
      | Some l' => let '(q, a) := new_arr l' a in Some (set_shard si (mkShard (Some q) (versioned s) 0 None) a)
      end
  end.

(** Shard by shard; [cancelled si] says whether the context has ended before shard [si]. *)
Fixpoint compact_shards (cancelled : Z -> bool) (sis : list Z) a : option AdjList :=
  match sis with
  | [] => Some a
  | si :: sis => if cancelled si then Some a else a ← compactShard si a; compact_shards cancelled sis a
  end.
Definition Compact (cancelled : Z -> bool) a : option AdjList := compact_shards cancelled shard_nos a.

(** ** Reclamation *)

(** The records from [v] on. *)
Fixpoint chain_len (fuel : nat) a (v : nat) : Z :=
  match fuel with
  | O => 0
  | S fuel => match v_prev (get_version a v) ≫= load_ver (hp a) with None => 1 | Some w => 1 + chain_len fuel a w end
  end.

(** The records released and retained, with the first record at or below the
    watermark cut off. *)
Fixpoint sever_loop (fuel : nat) (watermark retained : Z) a (oe : option nat) : Z * Z * AdjList :=
  match fuel, oe with
  | S fuel, Some cur =>
      match load_ver (hp a) cur with
      | None => (0, retained, a)
      | Some v =>
          if supersededAt a (get_version a v) <=? watermark
          then let a := with_hp (store_ver cur None (hp a)) a in (chain_len (fuel_of a) a v, retained, a)
          else sever_loop fuel watermark (retained + 1) a (v_prev (get_version a v))
      end
  | _, _ => (0, retained, a)
  end.
Definition severChain (e : nat) (watermark : Z) a : Z * Z * bool * AdjList :=
  let '(freed, retained, a) := sever_loop (fuel_of a) watermark 0 a (Some e) in
  (freed, retained, bool_decide (is_Some (load_ver (hp a) e)), a).

Definition drop_versioned (si : Z) (i : nat) a : AdjList :=
  let s := shard_at a si in
  set_shard si (mkShard (slotsRef s) (versioned s ∖ {[ i ]}) (buildingOwner s) (building s)) a.

Definition reclaim_slot (watermark si : Z) (i : nat) (st : Z * AdjList) : Z * AdjList :=
  let '(freed, a) := st in
  match slot_at a (slotsRef (shard_at a si)) i with
  | None => (freed, drop_versioned si i a)
  | Some e =>
      let '(n, _, still, a) := severChain e watermark a in
      (freed + n, if (still : bool) then a else drop_versioned si i a)
  end.

(** One shard of the sweep, and the records it released. *)
Definition reclaim_shard (watermark si : Z) a : Z * AdjList :=
  foldr (reclaim_slot watermark si) (0, a) (elements (versioned (shard_at a si))).

Definition Reclaim (watermark : Z) a : Z * AdjList :=
  let a := if versioning cfg then with_rv (sweepGhosts (mv a) watermark (rv a)) a else a in
  if (watermark =? 0) || (versionActive a =? 0) then (0, a) else
  let '(freed, a) := foldl (fun st si => let '(n, a) := reclaim_shard watermark si (snd st) in (fst st + n, a)) (0, a) shard_nos in
  (freed, if 0 <? freed then add_versions (- freed) a else a).

(** ** Withdrawal of an aborting transaction *)

Definition clip_entry (e : adjEntry) : adjEntry :=
  mkEntry (aux e) (ver e) (clip_col (neighbours e)) (clip_col (weights e)) (clip_col (handles e)) (clip_col (labels e)).

Definition clipEntry (oe : option nat) a : option nat * AdjList :=
  match oe with None => (None, a) | Some e => let '(p, a) := alloc_entry (clip_entry (entry_at a e)) a in (Some p, a) end.

(** The pre-image behind aborted records, and how many records were passed. *)
Fixpoint skip_aborted (fuel : nat) a (oe : option nat) (n : Z) : option nat * Z :=
  match fuel, oe with
  | S fuel, Some e =>
      match load_ver (hp a) e with
      | None => (oe, n)
      | Some pv => if negb (supersededAt a (get_version a pv) =? AbortedTS) then (oe, n)
                   else skip_aborted fuel a (v_prev (get_version a pv)) (n + 1)
      end
  | _, _ => (oe, n)
  end.

(** The difference of the two entries' neighbours, one in-edge per slot.  The map's
    iteration order does not matter: each key touches its own destination alone. *)
Definition entry_nbs a (oe : option nat) : list Z := from_option (fun e => nbs_of a (entry_at a e)) [] oe.

Definition reindex_key (src : Z) (pre cur : list Z) (st : Z * revIndex) (nb : Z) : Z * revIndex :=
  let d := Z.of_nat (length (filter (.= nb) pre)) - Z.of_nat (length (filter (.= nb) cur)) in
  (fst st + d,
   if 0 <? d then Nat.iter (Z.to_nat d) (rev_add nb src) (snd st)
   else Nat.iter (Z.to_nat (- d)) (rev_remove nb src None 0) (snd st)).

Definition reindexWithdrawnLocked (src : Z) (cur pre : option nat) a : Z * AdjList :=
  let '(n, r) := foldl (reindex_key src (entry_nbs a pre) (entry_nbs a cur)) (0, rv a)
                   (remove_dups (entry_nbs a pre ++ entry_nbs a cur)) in
  (n, with_rv r a).

Definition restoreSlotLocked (id : Z) (oe : option nat) a : AdjList :=
  let s := shard_at a (shard_no id) in
  match slotsRef s with
  | None => a
  | Some b =>
      if negb (frozen (arr_at a b)) then store_slot b (intra_no id) oe a
      else let '(q, a) := new_arr (<[intra_no id := oe]> (slots (arr_at a b))) a in
           set_shard (shard_no id) (mkShard (Some q) (versioned s) 0 None) a
  end.

(** One entry of the write set, under its shard's lock: the records released and the
    change of the edge count. *)
Definition withdraw_slot (info : nat) (id : Z) a : Z * Z * AdjList :=
  let cur := loadEntry a id in
  match cur ≫= load_ver (hp a) with
  | None => (0, 0, a)
  | Some v =>
      let vr := get_version a v in
      if negb (bool_decide (v_info vr = Some info)) || negb (v_ts vr =? adjOverPreImage) then (0, 0, a) else
      let '(pre, n) := skip_aborted (fuel_of a) a (v_prev vr) 1 in
      let '(d, a) := reindexWithdrawnLocked id cur pre a in
      let '(clipped, a) := clipEntry pre a in
      let a := restoreSlotLocked id clipped a in
      (n, d, if bool_decide (is_Some (pre ≫= load_ver (hp a))) then a else drop_versioned (shard_no id) (intra_no id) a)
  end.

Definition WithdrawTx (info : option nat) (ids : list Z) a : Z * AdjList :=
  match info with
  | None => (0, a)
  | Some r =>
      if (length ids =? 0)%nat || negb (versioning cfg) then (0, a) else
      let '(freed, d, a) := foldl (fun st id => let '(n, d, a) := withdraw_slot r id (snd st) in
                                                (fst (fst st) + n, snd (fst st) + d, a)) (0, 0, a) ids in
      let a := if 0 <? freed then add_versions (- freed) a else a in
      (freed, if negb (d =? 0) then add_size (u64 d) a else a)
  end.

(** ** Windows *)

(** [fresh] is the id the clock's next transaction would get. *)
Definition mintBulkOwner (fresh : Z) a : Z * AdjList :=
  if has_stamp cfg && clocked (mv a) then (fresh, a)
  else (u64 (bulkSeq a + 1), with_window (bulkOwner a) (bulkDepth a) (exclusiveBuild a) (nestedServingWindows a) (u64 (bulkSeq a + 1)) a).

Definition open_window (excl : bool) (nested fresh : Z) a : AdjList :=
  let a := with_window (bulkOwner a) (bulkDepth a + 1) excl nested (bulkSeq a) a in
  if bulkOwner a =? 0 then
    let '(o, a) := mintBulkOwner fresh a in
    with_window o (bulkDepth a) (exclusiveBuild a) (nestedServingWindows a) (bulkSeq a) a
  else a.

Definition BeginCommit (fresh : Z) a : AdjList :=
  open_window (exclusiveBuild a) (if exclusiveBuild a then u64 (nestedServingWindows a + 1) else nestedServingWindows a) fresh a.

(** A rebuild inside a serving window panics. *)
Definition BeginExclusiveBuild (fresh : Z) a : option AdjList :=
  if (0 <? bulkDepth a) && negb (exclusiveBuild a) then None
  else Some (open_window true (nestedServingWindows a) fresh a).

Definition EndCommit a : AdjList :=
  if bulkDepth a =? 0 then a
  else if 0 <? bulkDepth a - 1 then with_window (bulkOwner a) (bulkDepth a - 1) (exclusiveBuild a) (nestedServingWindows a) (bulkSeq a) a
  else with_window 0 (bulkDepth a - 1) (exclusiveBuild a) (nestedServingWindows a) (bulkSeq a) a.

Definition release_builder (si : Z) a : AdjList :=
  let s := shard_at a si in
  match building s with None => a | Some _ => set_shard si (mkShard (slotsRef s) (versioned s) 0 None) a end.
Definition releaseBuilders a : AdjList := foldl (fun a si => release_builder si a) a shard_nos.

Definition EndExclusiveBuild a : AdjList :=
  if bulkDepth a =? 0 then a
  else if 0 <? bulkDepth a - 1 then with_window (bulkOwner a) (bulkDepth a - 1) (exclusiveBuild a) (nestedServingWindows a) (bulkSeq a) a
  else releaseBuilders (with_window 0 (bulkDepth a - 1) false (nestedServingWindows a) (bulkSeq a) a).

(** ** Pins *)

(** The version of each shard a snapshot captured. *)
Definition Snapshot := list (option nat).

Definition freezeCurrent (si : Z) a : option nat * AdjList :=
  match slotsRef (shard_at a si) with
  | None => (None, a)
  | Some r => (Some r, with_arrs (alter (fun s => mkSlots (slots s) true) r (arrs a)) a)
  end.

Definition PinSnapshot a : Snapshot * AdjList :=
  foldl (fun st si => let '(r, a) := freezeCurrent si (snd st) in (fst st ++ [r], a)) ([], a) shard_nos.

Definition loadEntryPinned (s : Snapshot) a (id : Z) : option nat :=
  slot_at a (default None (s !! Z.to_nat (shard_no id))) (intra_no id).
End maint.

(** * Reads of the versioned adjacency (graph/adjlist/mvcc_view.go, mvcc_adj.go, reverse.go)

    Each read as the code computes it in one state; AdjSnapshot shows that a reader of a
    pinned snapshot gets the same answer when the loads of its walk are interleaved with
    other threads' writes. *)

Local Open Scope Z_scope.

Section views.
Context {W A P : Type} (cfg : Config A P).
Abbreviation AdjList := (AdjList W A).
Implicit Types (a : AdjList).

(** ** Resolution through the version chain *)

(** The pinned verdict of a reader on a record, or on a timestamp without one. *)
Definition verdict := option nat -> Z -> bool.

Fixpoint resolve (fuel : nat) (visible : verdict) a (oe : option nat) : option nat :=
  match fuel, oe with
  | S fuel, Some e =>
      match load_ver (hp a) e with
      | None => oe
      | Some v =>
          let vr := get_version a v in
          if visible (v_info vr) (v_ts vr) then oe else resolve fuel visible a (v_prev vr)
      end
  | _, _ => oe
  end.

Definition entryAsOfLoadedVisible (visible : verdict) a (oe : option nat) : option nat :=
  resolve (fuel_of a) visible a oe.

Definition EntryViewAsOfVisible (id : Z) (visible : verdict) a : EntryView W A :=
  viewOf (hp a) (entryAsOfLoadedVisible visible a (loadEntry a id)).

(** The verdict of a reader running as [txID] at [startTS]. *)
Definition visible_at a (startTS txID : Z) : verdict := fun info ts => Visible (stamp_at (mv a) info ts) startTS txID.

(** The gate on the global counter, then the walk. *)
Definition entryAsOfLoaded (startTS txID : Z) a (oe : option nat) : option nat :=
  if versionActive a =? 0 then oe else resolve (fuel_of a) (visible_at a startTS txID) a oe.

Definition entryAsOf (id startTS txID : Z) a : option nat := entryAsOfLoaded startTS txID a (loadEntry a id).

Definition entry_neighbours a (oe : option nat) : list Z := Neighbours (viewOf (hp a) oe).

Definition EntryNeighboursAsOf (id startTS txID : Z) a : list Z := entry_neighbours a (entryAsOf id startTS txID a).
Definition EntryViewAsOf (id startTS txID : Z) a : EntryView W A := viewOf (hp a) (entryAsOf id startTS txID a).
Definition LoadEntryView (id : Z) a : EntryView W A := viewOf (hp a) (loadEntry a id).
Definition NeighboursAsOf := EntryNeighboursAsOf.
Definition HasEdgeAsOf (src dst startTS txID : Z) a : bool :=
  bool_decide (dst ∈ entry_neighbours a (entryAsOf src startTS txID a)).
Definition OutDegreeAsOf (id startTS txID : Z) a : nat := length (entry_neighbours a (entryAsOf id startTS txID a)).

(** Neighbours, weights and handles, of the current entry. *)
Definition three_cols (v : EntryView W A) : list Z * list W * option (list Z) := (Neighbours v, Weights v, Handles v).
Definition LoadEntry (id : Z) a : list Z * list W := let v := LoadEntryView id a in (Neighbours v, Weights v).
Definition LoadEntryH (id : Z) a := three_cols (LoadEntryView id a).
Definition LoadEntryLabels (id : Z) a : option (list Z) := Labels (LoadEntryView id a).
Definition LoadEntryAux (id : Z) a : option A := Aux (LoadEntryView id a).
Definition LoadEntrySlotLabels (id : Z) a := let v := LoadEntryView id a in (Neighbours v, Labels v).
Definition EntrySlotLabelsAsOf (id startTS txID : Z) a := let v := EntryViewAsOf id startTS txID a in (Neighbours v, Labels v).

(** [At]: the current entry, or a reader's instant and transaction. *)
Definition LoadEntryHAt (id : Z) (at_ : option (Z * Z)) a :=
  match at_ with
  | None => LoadEntryH id a
  | Some (startTS, txID) => three_cols (EntryViewAsOf id startTS txID a)
  end.

(** ** The readers of a pinned snapshot *)

Definition pinned_view (snap : Snapshot) (id : Z) a : EntryView W A := viewOf (hp a) (loadEntryPinned snap a id).
Definition Snapshot_LoadEntry (snap : Snapshot) (id : Z) a : list Z * list W := let v := pinned_view snap id a in (Neighbours v, Weights v).
Definition Snapshot_LoadEntryH (snap : Snapshot) (id : Z) a := three_cols (pinned_view snap id a).
Definition Snapshot_LoadEntryLabels (snap : Snapshot) (id : Z) a : option (list Z) := Labels (pinned_view snap id a).
Definition Snapshot_LoadEntryAux (snap : Snapshot) (id : Z) a : option A := Aux (pinned_view snap id a).
(** On interned endpoints. *)
Definition Snapshot_HasEdge (snap : Snapshot) (src dst : Z) a : bool := bool_decide (dst ∈ Neighbours (pinned_view snap src a)).

(** ** The readers of the newest committed state *)

Definition committedStartTS : Z := TxIDBase - 1.

(** A record found in flight is held so for the rest of the walk. *)
Fixpoint committed_loop (fuel : nat) (held : option nat) a (oe : option nat) : option nat :=
  match fuel, oe with
  | S fuel, Some e =>
      match load_ver (hp a) e with
      | None => oe
      | Some v =>
          let vr := get_version a v in
          if bool_decide (v_info vr = None) || negb (bool_decide (v_info vr = held)) then
            if Visible (supersededAt a vr) committedStartTS 0 then oe
            else committed_loop fuel (v_info vr) a (v_prev vr)
          else committed_loop fuel held a (v_prev vr)
      end
  | _, _ => None
  end.
Definition committedEntry (id : Z) a : option nat :=
  if negb (versioning cfg) then loadEntry a id else committed_loop (fuel_of a) None a (loadEntry a id).

Definition HasEdge (src dst : Z) a : bool := bool_decide (dst ∈ entry_neighbours a (committedEntry src a)).
Definition OutDegreeByID (src : Z) a : nat := length (entry_neighbours a (committedEntry src a)).

(** The slots of the committed entry with their labels, 0 without a label column. *)
Definition labelled_slots a (oe : option nat) : list (Z * Z) :=
  let v := viewOf (hp a) oe in
  imap (fun i d => (d, default 0 (default [] (Labels v) !! i))) (Neighbours v).

Definition OutDegreeByType (src relType : Z) a : Z :=
  Z.of_nat (length (filter (fun l => l = relType) (default [] (Labels (viewOf (hp a) (committedEntry src a)))))).
Definition OutDegreeFunc (src : Z) (keep : Z -> Z -> bool) a : Z :=
  Z.of_nat (length (filter (fun x => keep (fst x) (snd x) = true) (labelled_slots a (committedEntry src a)))).

(** The count of [OutDegreeFunc], stopping at the limit. *)
Fixpoint count_bounded (limit n : Z) (keep : Z -> Z -> bool) (l : list (Z * Z)) : Z :=
  match l with
  | [] => n
  | (d, lbl) :: l' =>
      if keep d lbl then if limit <=? n + 1 then n + 1 else count_bounded limit (n + 1) keep l'
      else count_bounded limit n keep l'
  end.
Definition OutDegreeFuncBoundedByID (src limit : Z) (keep : Z -> Z -> bool) a : Z :=
  if limit <=? 0 then 0 else count_bounded limit 0 keep (labelled_slots a (committedEntry src a)).

(** ** In-neighbours *)

Definition committedVisible a : verdict := visible_at a committedStartTS 0.

(** A live candidate whose entry resolves to itself needs no scan. *)
Definition arcVisible (visible : verdict) (dst : Z) a (c : revCandidate) : bool :=
  let cur := loadEntry a (fst c) in
  match entryAsOfLoadedVisible visible a cur with
  | None => false
  | Some e => (snd c && bool_decide (cur = Some e)) || bool_decide (dst ∈ entry_neighbours a (Some e))
  end.

Definition inNeighbourIDsVisible (dst : Z) (visible : verdict) (first : bool) a : list Z :=
  if (size a =? 0) && (versionActive a =? 0) then [] else
  let l := fst <$> filter (fun c => arcVisible visible dst a c = true) (candidates (rv a) dst) in
  if first then take 1 l else l.

Definition InNeighbourIDsVisible (dst : Z) (visible : verdict) a : list Z := inNeighbourIDsVisible dst visible false a.
Definition HasInNeighbourVisible (dst : Z) (visible : verdict) a : bool :=
  negb (length (inNeighbourIDsVisible dst visible true a) =? 0)%nat.

Definition InNeighbourIDs (dst : Z) a : list Z :=
  if versioning cfg && negb (versionActive a =? 0) then inNeighbourIDsVisible dst (committedVisible a) false a
  else if size a =? 0 then [] else sources (rv a) dst.

Definition InNeighbourIDsStored (dst : Z) a : list Z := if size a =? 0 then [] else sources (rv a) dst.

(** ** The consistency check *)

(** The slots of a shard, with the ids they hold. *)
Definition shard_ids a (si : Z) : list Z :=
  match slotsRef (shard_at a si) with
  | None => []
  | Some r => (fun i => id_of_slot si i) <$> seq 0 (length (slots (arr_at a r)))
  end.

(** The arcs of the forward entries and of the reverse lists. *)
Definition forward_arcs a : list (Z * Z) :=
  flat_map (fun si => flat_map (fun id => pair id <$> entry_neighbours a (loadEntry a id)) (shard_ids a si)) shard_nos.
Definition reverse_arcs a : list (Z * Z) :=
  flat_map (fun si => flat_map (fun x => (fun src => (src, id_of_slot si (fst x))) <$> snd x)
                        (imap pair (srcs (rev_shard (rv a) si)))) shard_nos.

(** [true] for no disagreement; the text of the report is not modelled. *)
Definition CheckInvariants a : bool :=
  let count (k : Z * Z) (l : list (Z * Z)) := length (filter (.= k) l) in
  forallb (fun k => (count k (forward_arcs a) =? count k (reverse_arcs a))%nat) (forward_arcs a)
  && forallb (fun k => negb (count k (forward_arcs a) =? 0)%nat) (reverse_arcs a)
  && (size a =? u64 (Z.of_nat (length (forward_arcs a)))).
End views.
