(* ===== verification/AdjHeapFacts.v ===== *)
(** * Columns: what each construction does to the arrays it shares

    A ghost gives every array the length below which it is settled and the column of the
    node it belongs to.  A construction only extends: it allocates, or writes at the first
    unsettled position of the one column it works for, so every slice in use keeps its
    contents. *)

From Stdlib Require Import ZArith Lia.
From stdpp Require Import list gmap.
From S2P Require Import Prelude Clock WriteStamp AdjHeap AdjReverse AdjList AdjOps AdjMaint.

(** Case analysis on an optional slice in a hypothesis [s = Some _]. *)
Ltac is_slice := match goal with H : ?s = Some _ |- _ => is_var s; subst s end.

Lemma growCap_gt n : n < growCap n.
Proof. unfold growCap. destruct (Nat.ltb_spec n 4); lia. Qed.

Section columns.
Context {T : Type} (zero : T).
Implicit Types (m : mem T) (s : option slice).

Definition valid m s : Prop :=
  match s with
  | None => True
  | Some sl => s_len sl <= s_cap sl /\ exists l, m !! s_arr sl = Some l /\ s_cap sl <= length l
  end.

Lemma contents_length m s : valid m s -> length (contents m s) = slen s.
Proof. destruct s as [sl|]; [|done]. intros (H1 & l & Hl & H2). cbn. rewrite Hl. cbn. rewrite length_take. lia. Qed.

Lemma slen_le_cap m s : valid m s -> slen s <= scap s.
Proof. destruct s as [sl|]; [|done]. by intros [? _]. Qed.

(** ** The constructions, as one relation *)

(** From the column [s] over [m] to the column [s'] over [m']. *)
Inductive col_step : mem T -> option slice -> mem T -> option slice -> Prop :=
  | CSnil m s : col_step m s m None
  | CSsame m s : col_step m s m s
  | CSfresh m s l n c : n <= c -> c <= length l -> col_step m s (m ++ [l]) (Some (mkSlice (length m) n c))
  | CSpush m sl v : s_len sl < s_cap sl ->
      col_step m (Some sl) (alter (fun l => <[s_len sl := v]> l) (s_arr sl) m)
        (Some (mkSlice (s_arr sl) (S (s_len sl)) (s_cap sl))).

(** What a construction of a column with contents [cont] promises. *)
Record built m s m' s' (cont : list T) (cp : nat) : Prop := {
  b_step : col_step m s m' s';
  b_contents : contents m' s' = cont;
  b_len : slen s' = length cont;
  b_cap : scap s' = cp;
  b_some : is_Some s';
}.

Lemma push_col_spec n v s m : valid m s -> slen s = n -> n < scap s ->
  exists m' s', push_col n v s m = Some (s', m') /\ built m s m' s' (contents m s ++ [v]) (scap s).
Proof.
  destruct s as [sl|]; [|cbn; lia]. intros (H1 & l & Hl & H2) <- Hn. cbn [slen scap from_option] in *. unfold push_col, reslice.
  rewrite (proj2 (Nat.leb_le _ _)) by lia. cbn [mbind option_bind]. unfold sset. cbn [s_len s_arr].
  rewrite (proj2 (Nat.ltb_lt _ _)) by lia. cbn [mbind option_bind]. eexists _, _. split; [done|].
  assert (Hc : take (S (s_len sl)) (<[s_len sl:=v]> l) = take (s_len sl) l ++ [v]).
  { rewrite (take_S_r _ _ v) by (apply list_lookup_insert_eq; lia). by rewrite take_insert_ge by lia. }
  split; [by apply CSpush|..]; unfold contents; cbn [s_arr s_len slen scap from_option]; rewrite ?list_lookup_alter_eq, ?Hl; try done.
  - cbn [default from_option]. rewrite length_app, length_take. cbn. lia.
Qed.

Lemma scopy_new off src n c m x : off + length src <= n -> n <= c -> length x = c ->
  scopy off src (mkSlice (length m) n c) (m ++ [x]) = m ++ [take off x ++ src ++ drop (off + length src) x].
Proof.
  intros H1 H2 H3. unfold scopy. cbn [s_arr s_len]. rewrite take_ge by lia. rewrite Nat.min_r by lia.
  by rewrite alter_last.
Qed.

Lemma sset_new i v n c m x : i < n -> sset i v (Some (mkSlice (length m) n c)) (m ++ [x]) = Some (m ++ [<[i:=v]> x]).
Proof.
  intros H. unfold sset. cbn [s_len s_arr]. rewrite (proj2 (Nat.ltb_lt _ _)) by lia. by rewrite alter_last.
Qed.

Lemma contents_new m x n c : contents (m ++ [x]) (Some (mkSlice (length m) n c)) = take n x.
Proof. cbn. by rewrite list_lookup_middle. Qed.

Lemma fresh_col_spec n c v s m : valid m s -> slen s <= n -> n < c ->
  exists m' s', fresh_col zero n c v s m = Some (s', m') /\
    built m s m' s' (contents m s ++ replicate (n - slen s) zero ++ [v]) c.
Proof.
  intros Hv H1 H2. pose proof (contents_length m s Hv) as Hc. unfold fresh_col, make.
  rewrite (proj2 (Nat.leb_le _ _)) by lia. cbn [mbind option_bind]. rewrite scopy_new by (rewrite ?length_replicate; lia).
  rewrite sset_new by lia. cbn [mbind option_bind]. eexists _, _. split; [done|].
  rewrite take_0, drop_replicate; cbn [app]. cbn [Nat.add].
  assert (Hx : take (S n) (<[n:=v]> (contents m s ++ replicate (c - length (contents m s)) zero))
               = contents m s ++ replicate (n - slen s) zero ++ [v]).
  { rewrite (take_S_r _ _ v) by (apply list_lookup_insert_eq; rewrite length_app, length_replicate; lia).
    rewrite take_insert_ge by lia. rewrite take_app_ge by lia. rewrite take_replicate, Hc, Nat.min_l by lia. by rewrite <- app_assoc. }
  split.
  - apply CSfresh; [lia|]. rewrite length_insert, length_app, length_replicate. lia.
  - by rewrite contents_new.
  - cbn. rewrite !length_app, length_replicate. cbn. lia.
  - done.
  - done.
Qed.

Lemma push_opt_spec has n v s m : valid m s -> (is_Some s -> slen s = n) ->
  exists m' s', push_opt zero has n v s m = Some (s', m') /\ col_step m s m' s' /\
    (if has || not_nil s
     then exists cp, built m s m' s' ((if not_nil s then contents m s else replicate n zero) ++ [v]) cp
     else s' = None /\ m' = m).
Proof.
  intros Hv Hs. unfold push_opt. destruct (has || not_nil s) eqn:Ho; [|eexists _, _; split; [done|]; split; [apply CSnil|done]].
  destruct s as [sl|].
  - cbn [not_nil andb]. specialize (Hs (mk_is_Some _ _ eq_refl)). destruct (Nat.leb_spec (S n) (scap (Some sl))).
    + destruct (push_col_spec n v (Some sl) m) as (m' & s' & He & Hb); [done..|]. rewrite He. eexists _, _. split; [done|]. split; [apply Hb|by eexists].
    + destruct (fresh_col_spec n (growCap n) v (Some sl) m) as (m' & s' & He & Hb); [done|lia|apply growCap_gt|].
      rewrite Hs, Nat.sub_diag in Hb. rewrite He. eexists _, _. split; [done|]. split; [apply Hb|by eexists].
  - cbn [not_nil andb]. destruct (fresh_col_spec n (growCap n) v None m) as (m' & s' & He & Hb); [done|cbn; lia|apply growCap_gt|].
    cbn in Hb. rewrite Nat.sub_0_r in Hb. rewrite He. eexists _, _. split; [done|]. split; [apply Hb|by eexists].
Qed.

Lemma grow_opt_spec has n c v s m : valid m s -> (is_Some s -> slen s = n) -> n < c ->
  exists m' s', grow_opt zero has n c v s m = Some (s', m') /\ col_step m s m' s' /\
    (if has || not_nil s
     then exists cp, built m s m' s' ((if not_nil s then contents m s else replicate n zero) ++ [v]) cp
     else s' = None /\ m' = m).
Proof.
  intros Hv Hs Hc. unfold grow_opt. destruct (has || not_nil s) eqn:Ho; [|eexists _, _; split; [done|]; split; [apply CSnil|done]].
  destruct (fresh_col_spec n c v s m) as (m' & s' & He & Hb); [done| |done|].
  { destruct s; [rewrite Hs by done; lia|cbn; lia]. }
  rewrite He. eexists _, _. split; [done|]. split; [apply Hb|]. exists c.
  destruct s; [by rewrite Hs, Nat.sub_diag in Hb by done|cbn in Hb; by rewrite Nat.sub_0_r in Hb].
Qed.

Lemma first_col_spec has c v m : 0 < c ->
  exists m' s', first_col zero has c v m = Some (s', m') /\ col_step m None m' s' /\
    (if has then built m None m' s' [v] c else s' = None /\ m' = m).
Proof.
  intros Hc. unfold first_col. destruct has; [|eexists _, _; split; [done|]; split; [apply CSnil|done]].
  unfold make. rewrite (proj2 (Nat.leb_le _ _)) by lia. cbn [mbind option_bind]. rewrite sset_new by lia. cbn [mbind option_bind].
  eexists _, _. split; [done|]. assert (Hs : col_step m None (m ++ [<[0:=v]> (replicate c zero)]) (Some (mkSlice (length m) 1 c))).
  { apply CSfresh; [lia|]. rewrite length_insert, length_replicate. lia. }
  split; [done|]. destruct c as [|c]; [lia|]. split; [done| |done..]. rewrite contents_new. cbn. by rewrite take_0.
Qed.

Lemma drop_col_spec idx s m : valid m s -> (is_Some s -> idx < slen s) ->
  exists m' s', drop_col zero idx s m = Some (s', m') /\ col_step m s m' s' /\
    (if not_nil s then built m s m' s' (delete idx (contents m s)) (slen s - 1) else s' = None /\ m' = m).
Proof.
  intros Hv Hi. unfold drop_col. destruct s as [sl|]; [|eexists _, _; split; [done|]; split; [apply CSnil|done]].
  specialize (Hi (mk_is_Some _ _ eq_refl)). pose proof (contents_length m (Some sl) Hv) as Hc.
  unfold make. rewrite Nat.leb_refl. cbn [mbind option_bind].
  rewrite scopy_new by (rewrite ?length_take, ?length_replicate; lia). rewrite take_0, drop_replicate; cbn [app]. cbn [Nat.add].
  rewrite scopy_new by (rewrite ?length_app, ?length_take, ?length_drop, ?length_replicate; lia).
  assert (Ht : length (take idx (contents m (Some sl))) = idx) by (rewrite length_take; lia).
  rewrite Ht. rewrite take_app_le by lia. rewrite (take_ge (take _ _)) by lia.
  rewrite (drop_ge _ (idx + length (drop (S idx) (contents m (Some sl))))) by (rewrite length_app, length_replicate, length_drop, Ht; lia).
  rewrite app_nil_r, <- delete_take_drop. eexists _, _. split; [done|].
  assert (Hl : length (delete idx (contents m (Some sl))) = slen (Some sl) - 1) by (rewrite length_delete; [lia|apply lookup_lt_is_Some_2; lia]).
  assert (Hs : col_step m (Some sl) (m ++ [delete idx (contents m (Some sl))]) (Some (mkSlice (length m) (slen (Some sl) - 1) (slen (Some sl) - 1))))
    by (apply CSfresh; [done|by rewrite Hl]).
  split; [done|]. split; [done| |by rewrite Hl|done|done]. rewrite contents_new. apply take_ge. by rewrite Hl.
Qed.

Lemma exact_col_spec n s m : valid m s -> slen s <= n ->
  exists m' s', exact_col zero n s m = Some (s', m') /\ built m s m' s' (contents m s ++ replicate (n - slen s) zero) n.
Proof.
  intros Hv Hi. unfold exact_col. pose proof (contents_length m s Hv) as Hc. unfold make. rewrite Nat.leb_refl. cbn [mbind option_bind].
  rewrite scopy_new by (rewrite ?length_replicate; lia). rewrite take_0, drop_replicate; cbn [app]. cbn [Nat.add]. rewrite Hc.
  assert (Hl : length (contents m s ++ replicate (n - slen s) zero) = n) by (rewrite length_app, length_replicate; lia).
  eexists _, _. split; [done|]. split; [apply CSfresh; lia| |by rewrite Hl|done|done]. rewrite contents_new. apply take_ge. lia.
Qed.

(** ** Settled lengths and owners *)

(** A column of a node. *)
Inductive kind := KN | KH | KL | KW.
Record gmem := mkG { gB : nat -> nat; gO : nat -> Z * kind }.
Implicit Types (g : gmem) (key : Z * kind).

Definition fits g key m s : Prop :=
  valid m s /\ forall sl, s = Some sl -> s_len sl <= gB g (s_arr sl) /\ gO g (s_arr sl) = key.

(** A slice with room ends where its array is settled. *)
Definition tight g s : Prop := forall sl, s = Some sl -> s_len sl < s_cap sl -> s_len sl = gB g (s_arr sl).

(** Only arrays of the keys [Q] settle further; nothing settled changes. *)
Definition extends (Q : Z * kind -> Prop) m g m' g' : Prop :=
  length m <= length m' /\ forall r l, m !! r = Some l ->
    gO g' r = gO g r /\ gB g r <= gB g' r /\ (~ Q (gO g r) -> gB g' r = gB g r) /\
    exists l', m' !! r = Some l' /\ length l' = length l /\ take (gB g r) l' = take (gB g r) l.

Lemma extends_refl Q m g : extends Q m g m g.
Proof. split; [done|]. eauto 8. Qed.

Lemma extends_trans Q1 Q2 (Q : Z * kind -> Prop) m g m1 g1 m2 g2 : extends Q1 m g m1 g1 -> extends Q2 m1 g1 m2 g2 ->
  (forall k, Q1 k \/ Q2 k -> Q k) -> extends Q m g m2 g2.
Proof.
  intros [Hl H1] [Hl2 H2] HQ. split; [lia|]. intros r l Hr.
  destruct (H1 r l Hr) as (Ho & Hb & Hq & l1 & Hr1 & Hn1 & Ht1).
  destruct (H2 r l1 Hr1) as (Ho2 & Hb2 & Hq2 & l2 & Hr2 & Hn2 & Ht2).
  split; [congruence|]. split; [lia|]. split.
  - intros Hn. rewrite Hq2, Hq; [done|..]; intros Hx; apply Hn, HQ; [by left|right; by rewrite <- Ho].
  - exists l2. split; [done|]. split; [lia|]. rewrite <- Ht1. rewrite <- (Nat.min_l (gB g r) (gB g1 r)) by lia.
    rewrite <- !take_take, Ht2. done.
Qed.

Lemma extends_fits Q m g m' g' key s : extends Q m g m' g' -> fits g key m s ->
  fits g' key m' s /\ contents m' s = contents m s.
Proof.
  intros [Hl He] [Hv Hs]. destruct s as [sl|]; [|done]. destruct Hv as (H1 & l & Hr & H2).
  destruct (Hs sl eq_refl) as [Hb Ho]. destruct (He _ _ Hr) as (Ho' & Hb' & _ & l' & Hr' & Hn & Ht). split.
  - split; [split; [done|exists l'; split; [done|lia]]|]. intros ? [= <-]. split; [lia|congruence].
  - cbn. rewrite Hr, Hr'. cbn. rewrite <- (Nat.min_l (s_len sl) (gB g (s_arr sl))) by lia. by rewrite <- !take_take, Ht.
Qed.

Lemma extends_tight Q m g m' g' key s : extends Q m g m' g' -> fits g key m s -> ~ Q key -> tight g s -> tight g' s.
Proof.
  intros [_ He] [Hv Hs] HQ Ht sl ? Hlt. is_slice. destruct Hv as (_ & l & Hr & _).
  destruct (He _ _ Hr) as (_ & _ & Hq & _). destruct (Hs sl eq_refl) as [_ Ho]. rewrite Hq by (by rewrite Ho). by apply Ht.
Qed.

(** A construction on a column that ends where its array is settled. *)
Lemma col_step_extends g key m s m' s' : col_step m s m' s' -> fits g key m s -> tight g s ->
  exists g', extends (eq key) m g m' g' /\ fits g' key m' s' /\ tight g' s'.
Proof.
  intros Hst Hf Ht. destruct Hst as [m s|m s|m s l n c H1 H2|m sl v Hlt].
  - exists g. split; [apply extends_refl|]. by split.
  - exists g. split; [apply extends_refl|]. by split.
  - exists (mkG (fun r => if decide (r = length m) then n else gB g r) (fun r => if decide (r = length m) then key else gO g r)).
    split; [|split].
    + split; [rewrite length_app; lia|]. intros r l' Hr. pose proof (lookup_lt_Some _ _ _ Hr). cbn.
      rewrite !decide_False by lia. repeat split; try lia. exists l'. by rewrite lookup_app_l by lia.
    + split; [split; [done|]|].
      * exists l. cbn. by rewrite list_lookup_middle.
      * intros ? [= <-]. cbn. by rewrite !decide_True.
    + intros ? [= <-] _. cbn. by rewrite decide_True.
  - destruct Hf as [(Hle & l & Hr & Hc) Hs]. destruct (Hs sl eq_refl) as [Hb Ho]. pose proof (Ht sl eq_refl Hlt) as HB.
    exists (mkG (<[s_arr sl := S (s_len sl)]> (gB g)) (gO g)). split; [|split].
    + split; [by rewrite length_alter|]. intros r l' Hr'. cbn. split; [done|]. rewrite fn_insert_dec. case_decide as Hd.
      * subst r. split; [lia|]. split; [intros []; done|]. rewrite Hr in Hr'. injection Hr' as <-.
        eexists. split; [by rewrite list_lookup_alter_eq, Hr|]. split; [by rewrite length_insert|]. rewrite <- HB. by rewrite take_insert_ge by lia.
      * split; [done|]. split; [done|]. exists l'. by rewrite list_lookup_alter_ne by done.
    + split; [split; [cbn; lia|]|].
      * eexists. cbn. split; [by rewrite list_lookup_alter_eq, Hr|]. by rewrite length_insert.
      * intros ? [= <-]. cbn. by rewrite fn_insert_eq.
    + intros ? [= <-] _. cbn. by rewrite fn_insert_eq.
Qed.

Lemma clip_fits g key m s : fits g key m s -> fits g key m (clip_col s) /\ tight g (clip_col s) /\ contents m (clip_col s) = contents m s.
Proof.
  intros [Hv Hs]. destruct s as [sl|]; [|by repeat split]. destruct Hv as (H1 & l & Hr & H2). split; [|split; [|done]].
  - split; [split; [cbn; lia|]|]. { exists l. split; [done|]. cbn. lia. } intros ? [= <-]. by apply (Hs sl).
  - intros ? [= <-]. cbn. lia.
Qed.
End columns.

(** * The slot arrays: a map from node ids to entries

    Whatever branch a publication takes (a larger array, the window's builder, in place,
    a clone), it changes the entry of one node and no other, keeps every array a snapshot
    has frozen, and fails only on a shard whose capacity is exhausted. *)

Local Open Scope Z_scope.

(** ** Node ids and their slots *)

Lemma shard_no_mod id : shard_no id = id mod 256.
Proof. unfold shard_no. change shardMask with (Z.ones 8). by rewrite Z.land_ones by lia. Qed.

Lemma shard_no_range id : 0 <= shard_no id < shardCount.
Proof. rewrite shard_no_mod. apply Z.mod_pos_bound. done. Qed.

Lemma id_split id : 0 <= id -> id = Z.of_nat (intra_no id) * 256 + shard_no id.
Proof.
  intros H. rewrite shard_no_mod. unfold intra_no, shardBits. rewrite Z.shiftr_div_pow2 by lia. change (2 ^ 8) with 256.
  rewrite Z2Nat.id by (apply Z.div_pos; lia). rewrite Z.mul_comm. by apply Z.div_mod.
Qed.

Lemma slot_inj id id' : 0 <= id -> 0 <= id' -> shard_no id = shard_no id' -> intra_no id = intra_no id' -> id = id'.
Proof. intros H H' Hs Hi. rewrite (id_split id), (id_split id') by done. congruence. Qed.

Lemma id_of_slot_mul si i : 0 <= si < shardCount -> id_of_slot si i = Z.of_nat i * 256 + si.
Proof.
  intros H. unfold id_of_slot, shardBits. rewrite Z.lor_comm, lor_shiftl by (unfold shardCount in H; lia). change (2 ^ 8) with 256. lia.
Qed.

Lemma id_of_slot_id id : 0 <= id -> id_of_slot (shard_no id) (intra_no id) = id.
Proof. intros H. rewrite id_of_slot_mul by apply shard_no_range. symmetry. by apply id_split. Qed.

Lemma slot_of_id si i : 0 <= si < shardCount -> 0 <= id_of_slot si i /\ shard_no (id_of_slot si i) = si /\ intra_no (id_of_slot si i) = i.
Proof.
  intros H. rewrite id_of_slot_mul by done. unfold shardCount in H. rewrite shard_no_mod. unfold intra_no, shardBits.
  rewrite Z.shiftr_div_pow2 by lia. change (2 ^ 8) with 256. rewrite Z.add_comm. split; [lia|].
  rewrite Z.mod_add, Z.div_add, Z.mod_small, Z.div_small by lia. split; [done|]. by rewrite Z.add_0_l, Nat2Z.id.
Qed.

(** ** Publication *)

Section store.
Context {W A P : Type} `{!AuxColumn A P} (cfg : Config A P).
Abbreviation AdjList := (AdjList W A).
Implicit Types (a : AdjList).

(** Nothing but slot arrays and shards differ, and no versioned set does. *)
Record store_only a a' : Prop := {
  so_hp : hp a' = hp a;
  so_rv : rv a' = rv a;
  so_mv : mv a' = mv a;
  so_size : size a' = size a;
  so_va : versionActive a' = versionActive a;
  so_hs : handleSeq a' = handleSeq a;
  so_bo : bulkOwner a' = bulkOwner a;
  so_versioned si : versioned (shard_at a' si) = versioned (shard_at a si);
}.

(** The published arrays belong to one shard each, a builder is the published array of
    its shard, and every slot points at an entry. *)
Record sinv a : Prop := {
  si_ref si r : slotsRef (shard_at a si) = Some r -> (r < length (arrs a))%nat;
  si_inj si sj r : slotsRef (shard_at a si) = Some r -> slotsRef (shard_at a sj) = Some r -> si = sj;
  si_bld si b : building (shard_at a si) = Some b -> slotsRef (shard_at a si) = Some b;
  si_own si b : building (shard_at a si) = Some b -> buildingOwner (shard_at a si) <> 0;
  si_ptr r l i e : arrs a !! r = Some l -> slots l !! i = Some (Some e) -> (e < length (ents (hp a)))%nat;
}.

(** No builder is an array a snapshot has pinned. *)
Definition builders_free a : Prop := forall si b, building (shard_at a si) = Some b -> frozen (arr_at a b) = false.

(** The pinned arrays keep their slots. *)
Definition keeps_frozen a a' : Prop := forall r, (r < length (arrs a))%nat -> frozen (arr_at a r) = true ->
  (r < length (arrs a'))%nat /\ arr_at a' r = arr_at a r.

Lemma store_only_refl a : store_only a a.
Proof. by split. Qed.

Lemma store_only_trans a1 a2 a3 : store_only a1 a2 -> store_only a2 a3 -> store_only a1 a3.
Proof. intros [] []. split; intros; etrans; eauto. Qed.

Lemma keeps_frozen_refl a : keeps_frozen a a.
Proof. done. Qed.

Lemma keeps_frozen_trans a1 a2 a3 : keeps_frozen a1 a2 -> keeps_frozen a2 a3 -> keeps_frozen a1 a3.
Proof. intros H1 H2 r Hr Hf. destruct (H1 r Hr Hf) as [Hr2 He]. destruct (H2 r Hr2) as [? ->]; [by rewrite He|done]. Qed.

Lemma shard_set si s a sj : shard_at (set_shard si s a) sj = if decide (si = sj) then s else shard_at a sj.
Proof. unfold shard_at, set_shard. cbn. case_decide; [subst; by rewrite lookup_insert_eq|by rewrite lookup_insert_ne]. Qed.

Lemma arr_at_lookup a r l : arrs a !! r = Some l -> arr_at a r = l.
Proof. unfold arr_at. by intros ->. Qed.

Lemma loadEntry_Some a id e : loadEntry a id = Some e ->
  exists r l, slotsRef (shard_at a (shard_no id)) = Some r /\ arrs a !! r = Some l /\ slots l !! intra_no id = Some (Some e).
Proof.
  unfold loadEntry, slot_at. destruct (slotsRef _) as [r|]; [|done]. unfold arr_at.
  destruct (arrs a !! r) as [l|] eqn:Hr; [|done]. cbn. destruct (slots l !! _) as [[]|] eqn:Hs; [|done..]. cbn. intros [= ->]. eauto 8.
Qed.

Lemma load_valid a id e : sinv a -> loadEntry a id = Some e -> (e < length (ents (hp a)))%nat.
Proof. intros Hs (r & l & _ & Hl & Hi)%loadEntry_Some. by eapply si_ptr. Qed.

(** A store in place. *)
Lemma store_slot_at b i oe a r : arr_at (store_slot b i oe a) r =
  if decide (b = r) then mkSlots (<[i:=oe]> (slots (arr_at a r))) (frozen (arr_at a r)) else arr_at a r.
Proof.
  unfold arr_at, store_slot. cbn. rewrite list_lookup_alter. case_decide; [subst|done]. by destruct (arrs a !! r).
Qed.

Lemma store_slot_spec id oe a b : sinv a -> slotsRef (shard_at a (shard_no id)) = Some b ->
  (intra_no id < length (slots (arr_at a b)))%nat -> (forall e, oe = Some e -> (e < length (ents (hp a)))%nat) -> 0 <= id ->
  let a' := store_slot b (intra_no id) oe a in
  sinv a' /\ store_only a a' /\ (forall id', 0 <= id' -> loadEntry a' id' = if decide (id' = id) then oe else loadEntry a id').
Proof.
  intros Hs Hb Hi He H0. cbn. split; [split|split; [done|]].
  - intros si r. cbn. rewrite length_alter. apply (si_ref _ Hs).
  - apply (si_inj _ Hs).
  - apply (si_bld _ Hs).
  - apply (si_own _ Hs).
  - intros r l i e. cbn. rewrite list_lookup_alter. case_decide; [subst|apply (si_ptr _ Hs)].
    destruct (arrs a !! r) as [l0|] eqn:Hr; [|done]. intros [= <-]. cbn. rewrite list_lookup_insert. case_decide; [|by apply (si_ptr _ Hs r)].
    intros [= Hoe]. by apply He.
  - intros id' H'. unfold loadEntry, slot_at. change (shard_at (store_slot b (intra_no id) oe a)) with (shard_at a).
    case_decide as Hd; [subst id'; rewrite Hb, store_slot_at, decide_True by done; cbn; by rewrite list_lookup_insert_eq|].
    destruct (slotsRef (shard_at a (shard_no id'))) as [r|] eqn:Hr; [|done]. rewrite store_slot_at. case_decide; [subst r|done].
    cbn. rewrite list_lookup_insert_ne; [done|]. intros Hii. apply Hd. apply slot_inj; [done..|by eapply (si_inj _ Hs)|done].
Qed.

(** A shard with the same array and at most the same builder. *)
Lemma reshard_spec si s a : sinv a -> slotsRef s = slotsRef (shard_at a si) ->
  (forall b, building s = Some b -> building (shard_at a si) = Some b /\ buildingOwner s = buildingOwner (shard_at a si)) ->
  let a1 := set_shard si s a in
  sinv a1 /\ (forall id, loadEntry a1 id = loadEntry a id) /\ (builders_free a -> keeps_frozen a a1 /\ builders_free a1) /\
  (forall sj, slotsRef (shard_at a1 sj) = slotsRef (shard_at a sj)).
Proof.
  intros Hs Hr Hb a1.
  assert (Hat : forall sj, shard_at a1 sj = if decide (si = sj) then s else shard_at a sj) by (intros sj; subst a1; by rewrite shard_set).
  assert (Href : forall sj, slotsRef (shard_at a1 sj) = slotsRef (shard_at a sj)) by (intros sj; rewrite Hat; case_decide; by subst).
  assert (Hbl : forall sj b, building (shard_at a1 sj) = Some b -> building (shard_at a sj) = Some b /\ buildingOwner (shard_at a1 sj) = buildingOwner (shard_at a sj)).
  { intros sj b. rewrite Hat. case_decide; [subst sj; apply Hb|done]. }
  split; [|split; [|split]]; [|intros id; unfold loadEntry; by rewrite Href| |done].
  - split; [intros sj r|intros s1 s2 r|intros sj b|intros sj b|apply (si_ptr _ Hs)]; rewrite ?Href.
    + apply (si_ref _ Hs).
    + apply (si_inj _ Hs).
    + intros [Hx _]%Hbl. by apply (si_bld _ Hs).
    + intros [Hx ->]%Hbl. by eapply (si_own _ Hs).
  - intros Hf. split; [by intros r Hr' Hfr|]. intros sj b [Hx _]%Hbl. change (arr_at a1 b) with (arr_at a b). by apply (Hf sj).
Qed.

(** The publication of a new array. *)
Lemma publish_list_spec si owner l a : sinv a -> 0 <= si < shardCount ->
  (forall i e, l !! i = Some (Some e) -> (e < length (ents (hp a)))%nat) -> (owner = 0 -> building (shard_at a si) = None) ->
  let a' := publish_arr si owner l a in
  sinv a' /\ store_only a a' /\
  (forall id', loadEntry a' id' = if decide (shard_no id' = si) then default None (l !! intra_no id') else loadEntry a id').
Proof.
  intros Hs H0 He Ho. cbn. unfold publish_arr. cbn -[shard_at set_shard]. set (a1 := with_arrs (arrs a ++ [mkSlots l false]) a).
  set (s' := if negb (owner =? 0) then _ else _).
  assert (Hsh : exists s, slotsRef s = Some (length (arrs a)) /\ versioned s = versioned (shard_at a si) /\
     (forall b, building s = Some b -> b = length (arrs a) /\ buildingOwner s <> 0) /\ s' = set_shard si s a1).
  { subst s'. destruct (Z.eqb_spec owner 0); cbn -[set_shard shard_at]; eexists; (split; [|split; [|split; [|done]]]); try done.
    - intros b. cbn -[shard_at]. change (shard_at a1) with (shard_at a). by rewrite Ho.
    - intros b [= <-]. done. }
  clearbody s'. destruct Hsh as (s & Hr & Hv & Hb & ->).
  assert (Hat : forall sj, shard_at (set_shard si s a1) sj = if decide (si = sj) then s else shard_at a sj)
    by (intros sj; by rewrite shard_set).
  assert (Harr : forall r, (r < length (arrs a))%nat -> arr_at (set_shard si s a1) r = arr_at a r)
    by (intros r Hlt; unfold arr_at; cbn; by rewrite lookup_app_l by done).
  split; [split|split].
  - intros sj r. rewrite Hat. cbn. rewrite length_app. case_decide; [rewrite Hr; intros [= <-]; cbn; lia|].
    intros Hx%(si_ref _ Hs). lia.
  - intros sj sk r. rewrite !Hat. repeat case_decide; subst; rewrite ?Hr; try done.
    + intros [= <-] Hx%(si_ref _ Hs). lia.
    + intros Hx%(si_ref _ Hs) [= <-]. lia.
    + apply (si_inj _ Hs).
  - intros sj b. rewrite Hat. case_decide; [rewrite Hr; by intros [-> _]%Hb|apply (si_bld _ Hs)].
  - intros sj b. rewrite Hat. case_decide; [by intros [_ ?]%Hb|apply (si_own _ Hs)].
  - intros r l0 i e. cbn. intros [Hx|[Hx Hy]]%lookup_app_Some; [by apply (si_ptr _ Hs r)|].
    apply list_lookup_singleton_Some in Hy as [_ <-]. cbn. apply He.
  - split; try done. intros sj. rewrite Hat. case_decide; [by subst|done].
  - intros id'. unfold loadEntry at 1. rewrite Hat. case_decide as Hd.
    + rewrite Hr, decide_True by done. cbn [slot_at]. unfold arr_at. cbn. by rewrite list_lookup_middle by done.
    + rewrite decide_False by congruence. unfold loadEntry. destruct (slotsRef (shard_at a (shard_no id'))) as [r|] eqn:Hrr; [|done].
      cbn [slot_at]. rewrite Harr; [done|]. by eapply si_ref.
Qed.

(** The entries a listing of a shard's slots holds. *)
Lemma slot_ptr a ref i e : sinv a -> slot_at a ref i = Some e -> (e < length (ents (hp a)))%nat.
Proof.
  intros Hs. unfold slot_at, arr_at. destruct ref as [r|]; [|done]. destruct (arrs a !! r) as [l|] eqn:Hr; [|done].
  cbn. destruct (slots l !! i) as [[]|] eqn:Hsl; [|done..]. cbn. intros [= ->]. by eapply (si_ptr _ Hs).
Qed.

(** The publication of a new array that differs in one slot. *)
Lemma publish_spec id owner l oe a : sinv a -> 0 <= id -> (intra_no id < length l)%nat ->
  (forall e, oe = Some e -> (e < length (ents (hp a)))%nat) ->
  (forall i, default None (l !! i) = slot_at a (slotsRef (shard_at a (shard_no id))) i) ->
  (owner = 0 -> building (shard_at a (shard_no id)) = None) ->
  let a' := publish_arr (shard_no id) owner (<[intra_no id := oe]> l) a in
  sinv a' /\ store_only a a' /\ (forall id', 0 <= id' -> loadEntry a' id' = if decide (id' = id) then oe else loadEntry a id').
Proof.
  intros Hs H0 Hi He Hl Ho. destruct (publish_list_spec (shard_no id) owner (<[intra_no id := oe]> l) a) as (H1 & H2 & H3); [done|apply shard_no_range| |done|].
  { intros i e. rewrite list_lookup_insert. case_decide; [intros [= Hoe]; by apply He|]. intros Hli. pose proof (Hl i) as Hx. rewrite Hli in Hx.
    cbn in Hx. symmetry in Hx. by eapply slot_ptr. }
  split; [done|]. split; [done|]. intros id' H'. rewrite H3. case_decide as Hd.
  - rewrite list_lookup_insert. case_decide as Hii; [destruct Hii as [Hii _]|].
    + rewrite decide_True; [done|]. by apply slot_inj.
    + destruct (decide (id' = id)) as [->|Hne]; [by destruct Hii|]. rewrite Hl. unfold loadEntry. by rewrite Hd.
  - rewrite decide_False by congruence. done.
Qed.

Lemma double_to_spec fuel minLen n : (1 <= n)%nat -> (minLen <= n + fuel)%nat ->
  (minLen <= double_to fuel minLen n)%nat /\ (n <= double_to fuel minLen n)%nat.
Proof.
  revert n. induction fuel as [|fuel IH]; intros n H1 H2; cbn [double_to]; [lia|].
  destruct (Nat.ltb_spec n minLen); [|lia]. destruct (IH (n * 2)%nat); lia.
Qed.

Lemma grow_spec minLen l : (length l < minLen)%nat ->
  match growShardLocked cfg minLen l with
  | None => 0 < MaxShardCapacity cfg < Z.of_nat minLen
  | Some l' => (minLen <= length l')%nat /\ forall i, default None (l' !! i) = default None (l !! i)
  end.
Proof.
  intros Hl. unfold growShardLocked.
  destruct (double_to_spec minLen minLen (length l `max` initialShardCap)%nat) as [H1 _]; [unfold initialShardCap; lia|lia|].
  set (d := double_to _ _ _) in *.
  assert (Hpad : forall n, (minLen <= n)%nat -> (minLen <= length (l ++ replicate (n - length l) None))%nat /\
    forall i, default None ((l ++ replicate (n - length l) None) !! i) = default None (l !! i)).
  { intros n Hn. split; [rewrite length_app, length_replicate; lia|]. intros i. destruct (decide (i < length l)%nat) as [Hi|Hi].
    - by rewrite lookup_app_l.
    - rewrite lookup_app_r, (lookup_ge_None_2 l) by lia. destruct (replicate _ _ !! _) as [?|] eqn:Hr; [|done]. by apply lookup_replicate in Hr as [-> _]. }
  destruct (Z.ltb_spec 0 (MaxShardCapacity cfg)) as [Hm|Hm]; cbn [andb]; [|by apply Hpad].
  destruct (Z.ltb_spec (MaxShardCapacity cfg) (Z.of_nat minLen)); [lia|].
  destruct (Z.ltb_spec (MaxShardCapacity cfg) (Z.of_nat d)); apply Hpad; lia.
Qed.

Lemma publish_frozen si owner l a : sinv a -> builders_free a ->
  keeps_frozen a (publish_arr si owner l a) /\ builders_free (publish_arr si owner l a).
Proof.
  intros Hs Hf. unfold publish_arr. cbn -[shard_at set_shard]. set (a1 := with_arrs _ a).
  assert (Harr : forall s r, (r < length (arrs a))%nat -> arr_at (set_shard si s a1) r = arr_at a r)
    by (intros s r Hlt; unfold arr_at; cbn; by rewrite lookup_app_l by done).
  assert (Hlen : forall s, length (arrs (set_shard si s a1)) = S (length (arrs a)))
    by (intros s; cbn; rewrite length_app; cbn; lia).
  assert (Hnew : forall s, frozen (arr_at (set_shard si s a1) (length (arrs a))) = false)
    by (intros s; unfold arr_at; cbn; by rewrite list_lookup_middle).
  destruct (negb (owner =? 0)); (split; [intros r Hr _; rewrite Hlen, Harr by done; split; [lia|done]|]); intros sj b; rewrite shard_set;
    case_decide; cbn [building].
  - intros [= <-]. apply Hnew.
  - intros Hb. rewrite Harr; [by eapply Hf|]. by eapply si_ref, si_bld.
  - intros Hb. subst. change (shard_at a1) with (shard_at a) in Hb. rewrite Harr; [by eapply Hf|]. by eapply si_ref, si_bld.
  - intros Hb. rewrite Harr; [by eapply Hf|]. by eapply si_ref, si_bld.
Qed.

Lemma store_slot_frozen b i oe a : frozen (arr_at a b) = false -> builders_free a ->
  keeps_frozen a (store_slot b i oe a) /\ builders_free (store_slot b i oe a).
Proof.
  intros Hb Hf. split.
  - intros r Hr Hfr. split; [cbn; by rewrite length_alter|]. rewrite store_slot_at. case_decide; [subst; congruence|done].
  - intros si b' Hx. rewrite store_slot_at. case_decide; cbn; by eapply Hf.
Qed.

(** The whole publication of [storeEntry] into its shard's current array. *)
Lemma put_entry_spec id owner first oe a r a' : sinv a -> 0 <= id ->
  (forall e, oe = Some e -> (e < length (ents (hp a)))%nat) ->
  (owner = 0 -> building (shard_at a (shard_no id)) = None) ->
  (first = false -> owner <> 0 -> is_Some (building (shard_at a (shard_no id)))) ->
  put_entry cfg id owner (slotsRef (shard_at a (shard_no id))) first oe a = (r, a') ->
  (r = None /\ sinv a' /\ store_only a a' /\ (builders_free a -> keeps_frozen a a' /\ builders_free a') /\
    forall id', 0 <= id' -> loadEntry a' id' = if decide (id' = id) then oe else loadEntry a id') \/
  (r = Some ErrShardFull /\ a' = a /\ loadEntry a id = None /\ 0 < MaxShardCapacity cfg <= Z.of_nat (intra_no id)).
Proof.
  intros Hs H0 He Ho Hfirst Hput. unfold put_entry in Hput. set (ref := slotsRef _) in *.
  set (l := match ref with None => [] | Some b => slots (arr_at a b) end) in *.
  assert (Hl : forall i, default None (l !! i) = slot_at a ref i) by (intros i; subst l; by destruct ref).
  assert (Hpub : forall l', (intra_no id < length l')%nat -> (forall i, default None (l' !! i) = default None (l !! i)) ->
     let a' := publish_arr (shard_no id) owner (<[intra_no id := oe]> l') a in
     sinv a' /\ store_only a a' /\ (builders_free a -> keeps_frozen a a' /\ builders_free a') /\
     forall id', 0 <= id' -> loadEntry a' id' = if decide (id' = id) then oe else loadEntry a id').
  { intros l' Hlt Hl'. destruct (publish_spec id owner l' oe a) as (? & ? & ?); [done..|intros i; by rewrite Hl'|done|].
    split; [done|]. split; [done|]. split; [|done]. intros Hf. by apply publish_frozen. }
  assert (Hgrow : (length l <= intra_no id)%nat ->
    (match growShardLocked cfg (S (intra_no id)) l with
     | None => (Some ErrShardFull, a)
     | Some l' => (None, publish_arr (shard_no id) owner (<[intra_no id := oe]> l') a) end) = (r, a') ->
    (r = None /\ sinv a' /\ store_only a a' /\ (builders_free a -> keeps_frozen a a' /\ builders_free a') /\
      forall id', 0 <= id' -> loadEntry a' id' = if decide (id' = id) then oe else loadEntry a id') \/
    (r = Some ErrShardFull /\ a' = a /\ loadEntry a id = None /\ 0 < MaxShardCapacity cfg <= Z.of_nat (intra_no id))).
  { intros Hlt. pose proof (grow_spec (S (intra_no id)) l ltac:(lia)) as Hg. destruct (growShardLocked cfg _ _) as [l'|]; intros [= <- <-].
    - left. split; [done|]. apply Hpub; [lia|apply Hg].
    - right. split; [done|]. split; [done|]. split; [|lia]. unfold loadEntry. fold ref. rewrite <- Hl. by rewrite lookup_ge_None_2 by lia. }
  destruct ref as [b|] eqn:Href; [|apply Hgrow; [subst l; cbn; lia|done]].
  destruct (Nat.ltb_spec (intra_no id) (length l)) as [Hi|Hi]; cbn [negb] in Hput; [|by apply Hgrow].
  destruct (Z.eqb_spec owner 0) as [H00|H00]; cbn [negb andb] in Hput.
  - destruct (frozen (arr_at a b)) eqn:Hfr; cbn [negb] in Hput; injection Hput as <- <-; left; (split; [done|]); [by apply Hpub|].
    destruct (store_slot_spec id oe a b) as (? & ? & ?); [done..|]. split; [done|]. split; [done|]. split; [|done]. intros. by apply store_slot_frozen.
  - destruct first; cbn [negb] in Hput; injection Hput as <- <-; left; (split; [done|]); [by apply Hpub|].
    destruct (store_slot_spec id oe a b) as (? & ? & ?); [done..|]. split; [done|]. split; [done|]. split; [|done]. intros Hbf.
    apply store_slot_frozen; [|done]. destruct (Hfirst eq_refl H00) as [b' Hb']. pose proof (si_bld _ Hs _ _ Hb') as Hx. fold ref in Hx.
    rewrite Href in Hx. injection Hx as ->. by eapply Hbf.
Qed.
End store.
