(* ===== verification/AdjHeapInv.v ===== *)
(** * The heap invariant of the adjacency

    Pointers in range, columns as long as the neighbours, weight columns in step with
    them, version chains that end, and the aliasing discipline: an array belongs to one
    column of one node, every entry's slice ends inside its settled part, and the current
    entry's slices with room end exactly where it does, so that an append writes where no
    entry, current or superseded, can read. *)

From Stdlib Require Import ZArith Lia.
From stdpp Require Import list gmap.
From S2P Require Import Prelude Clock WriteStamp AdjHeap AdjHeapFacts AdjReverse AdjList AdjOps AdjMaint.

Section inv.
Context {W A P : Type} (zeroW : W) `{!AuxColumn A P} (cfg : Config A P).
Abbreviation adjEntry := (adjEntry A).
Abbreviation heap := (heap W A).
Abbreviation AdjList := (AdjList W A).
Implicit Types (h : heap) (e : adjEntry) (hd : Z -> option nat).

(** The settled lengths of the arrays, and the node of an entry and of a version. *)
Record ghost := mkGhosts { gz : gmem; gw : gmem; eO : nat -> Z; vO : nat -> Z }.
Implicit Types (G : ghost).

Record entry_ok e : Prop := {
  eo_ws : if Weightless cfg then weights e = None
          else slen (weights e) = slen (neighbours e) /\ scap (weights e) = scap (neighbours e);
  eo_hs : is_Some (handles e) -> slen (handles e) = slen (neighbours e);
  eo_ls : is_Some (labels e) -> slen (labels e) = slen (neighbours e);
  eo_aux x : aux e = Some x -> length (aux_slots x) = slen (neighbours e);
}.

Record entry_fits G h (id : Z) e : Prop := {
  ef_nb : fits (gz G) (id, KN) (zmem h) (neighbours e);
  ef_hs : fits (gz G) (id, KH) (zmem h) (handles e);
  ef_ls : fits (gz G) (id, KL) (zmem h) (labels e);
  ef_ws : fits (gw G) (id, KW) (wmem h) (weights e);
}.

Record entry_tight G e : Prop := {
  et_nb : tight (gz G) (neighbours e);
  et_hs : tight (gz G) (handles e);
  et_ls : tight (gz G) (labels e);
  et_ws : tight (gw G) (weights e);
}.

Record hinv G h hd (nrecs : nat) : Prop := {
  hi_ok i e : ents h !! i = Some e -> entry_ok e /\ entry_fits G h (eO G i) e;
  hi_head id i : (0 <= id)%Z -> hd id = Some i -> eO G i = id /\ exists e, ents h !! i = Some e /\ entry_tight G e;
  hi_ver i v : load_ver h i = Some v -> v < length (vers h) /\ vO G v = eO G i;
  hi_prev v vr p : vers h !! v = Some vr -> v_prev vr = Some p ->
    p < length (ents h) /\ eO G p = vO G v /\ forall pv, load_ver h p = Some pv -> pv < v;
  hi_info v vr r : vers h !! v = Some vr -> v_info vr = Some r -> r < nrecs;
}.

Lemma hinv_heads G h hd hd' n : hinv G h hd n -> (forall id i, (0 <= id)%Z -> hd' id = Some i -> hd id = Some i) -> hinv G h hd' n.
Proof. intros [] H. split; eauto. Qed.

Lemma hinv_recs G h hd n n' : hinv G h hd n -> n <= n' -> hinv G h hd n'.
Proof. intros [H1 H2 H3 H4 H5] H. split; [done..|]. intros v vr r Hv Hr. eapply Nat.lt_le_trans; [by eapply H5|done]. Qed.

Lemma load_ver_at h i e : ents h !! i = Some e -> load_ver h i = ver e.
Proof. unfold load_ver. by intros ->. Qed.

Lemma load_ver_lt h i v : load_ver h i = Some v -> i < length (ents h).
Proof. unfold load_ver. destruct (ents h !! i) eqn:H; [|done]. intros _. by eapply lookup_lt_Some. Qed.

(** ** The extension of the heap by one entry *)

(** The arrays of node [id] alone settle further; the entries gain [e]. *)
Record heap_ext (id : Z) G h G' h' e : Prop := {
  he_z : extends (fun k => fst k = id) (zmem h) (gz G) (zmem h') (gz G');
  he_w : extends (fun k => fst k = id) (wmem h) (gw G) (wmem h') (gw G');
  he_ents : ents h' = ents h ++ [e];
  he_vers : vers h' = vers h;
  he_eO : eO G' = <[length (ents h) := id]> (eO G);
  he_vO : vO G' = vO G;
}.

(** Every entry reads as before. *)
Definition same_views h h' : Prop := forall i e, ents h !! i = Some e ->
  exists e', ents h' !! i = Some e' /\ entry_view h' e' = entry_view h e.

Lemma same_views_refl h : same_views h h.
Proof. intros i e He. eauto. Qed.

Lemma same_views_trans h1 h2 h3 : same_views h1 h2 -> same_views h2 h3 -> same_views h1 h3.
Proof. intros H1 H2 i e He. destruct (H1 i e He) as (e2 & He2 & Hv). destruct (H2 i e2 He2) as (e3 & ? & ?). exists e3. split; [done|congruence]. Qed.

Lemma same_views_viewOf h h' (oe : option nat) : same_views h h' -> (forall p, oe = Some p -> p < length (ents h)) -> viewOf h' oe = viewOf h oe.
Proof.
  intros Hs Hl. destruct oe as [i|]; [|done]. destruct (lookup_lt_is_Some_2 (ents h) i) as [e He]; [by apply Hl|].
  destruct (Hs i e He) as (e' & He' & Hv). unfold viewOf. cbn. by rewrite He, He'.
Qed.

Lemma entry_fits_ext Q G h G' h' id e :
  extends Q (zmem h) (gz G) (zmem h') (gz G') -> extends Q (wmem h) (gw G) (wmem h') (gw G') ->
  entry_fits G h id e -> entry_fits G' h' id e /\ entry_view h' e = entry_view h e.
Proof.
  intros Hz Hw []. edestruct (extends_fits Q (zmem h) (gz G)) as [Hn1 Hn2]; [exact Hz|exact ef_nb0|].
  edestruct (extends_fits Q (zmem h) (gz G)) as [Hh1 Hh2]; [exact Hz|exact ef_hs0|].
  edestruct (extends_fits Q (zmem h) (gz G)) as [Hl1 Hl2]; [exact Hz|exact ef_ls0|].
  edestruct (extends_fits Q (wmem h) (gw G)) as [Hw1 Hw2]; [exact Hw|exact ef_ws0|].
  split; [by split|]. unfold entry_view. rewrite Hn2, Hw2. f_equal.
  - destruct (handles e); [|done]. cbn [opt_contents]. by rewrite Hh2.
  - destruct (labels e); [|done]. cbn [opt_contents]. by rewrite Hl2.
Qed.

Lemma entry_tight_ext (Q : Z * kind -> Prop) G h G' h' id e :
  extends Q (zmem h) (gz G) (zmem h') (gz G') -> extends Q (wmem h) (gw G) (wmem h') (gw G') -> (forall k, ~ Q (id, k)) ->
  entry_fits G h id e -> entry_tight G e -> entry_tight G' e.
Proof. intros Hz Hw HQ [] []. split; eapply extends_tight; eauto. Qed.

(** No version leads to the entry. *)
Definition unlinked h (p : nat) : Prop := forall v vr, vers h !! v = Some vr -> v_prev vr <> Some p.

(** Without the head of [id]. *)
Definition drop_head (id : Z) hd : Z -> option nat := fun i => if decide (i = id) then None else hd i.

Lemma alloc_inv id G h hd n G' h' e : hinv G h hd n -> heap_ext id G h G' h' e ->
  entry_ok e -> entry_fits G' h' id e ->
  (forall v, ver e = Some v -> exists p, load_ver h p = Some v /\ eO G p = id) ->
  hinv G' h' (drop_head id hd) n /\ same_views h h' /\ unlinked h' (length (ents h)).
Proof.
  intros Hi [Hz Hw He Hv HeO HvO] Hok Hfits Hver.
  assert (Hold : forall i e0, ents h !! i = Some e0 -> entry_fits G' h' (eO G i) e0 /\ entry_view h' e0 = entry_view h e0)
    by (intros i e0 H0; eapply entry_fits_ext; [done..|by apply Hi]).
  assert (Hlk : forall i e0, ents h' !! i = Some e0 -> (ents h !! i = Some e0 /\ eO G' i = eO G i) \/ (i = length (ents h) /\ e0 = e /\ eO G' i = id)).
  { intros i e0. rewrite He, HeO. intros [H0|[H0 Hs]]%lookup_app_Some.
    - left. split; [done|]. apply lookup_lt_Some in H0. by rewrite fn_insert_dec, decide_False by lia.
    - right. apply list_lookup_singleton_Some in Hs as [Hs <-]. assert (i = length (ents h)) as -> by lia. by rewrite fn_insert_eq. }
  assert (HeO' : forall i, i < length (ents h) -> eO G' i = eO G i) by (intros i Hlt; rewrite HeO, fn_insert_dec, decide_False; [done|lia]).
  assert (Hlv : forall i v, load_ver h' i = Some v -> exists p, load_ver h p = Some v /\ eO G p = eO G' i /\ (i < length (ents h) -> p = i)).
  { intros i v. unfold load_ver at 1. destruct (ents h' !! i) as [e0|] eqn:H0; [|done]. cbn. intros Hv0.
    destruct (Hlk _ _ H0) as [[H1 H2]|(-> & -> & H2)].
    - exists i. by rewrite (load_ver_at _ _ _ H1).
    - destruct (Hver v Hv0) as (p & Hp & Ho). exists p. split; [done|]. split; [congruence|lia]. }
  split; [split|split].
  - intros i e0 H0. destruct (Hlk _ _ H0) as [[H1 ->]|(-> & -> & ->)]; [|done]. split; [by apply Hi in H1 as [? _]|by apply Hold].
  - unfold drop_head. intros id' i Hid. case_decide as Hd; [done|]. intros Hh.
    destruct (hi_head _ _ _ _ Hi _ _ Hid Hh) as (HO & e0 & H0 & Ht). rewrite HeO' by (by eapply lookup_lt_Some). split; [done|].
    exists e0. split; [rewrite He; by apply lookup_app_l_Some|].
    eapply (entry_tight_ext _ G h G' h' id'); [exact Hz|exact Hw|cbn; congruence| |done]. rewrite <- HO. by apply Hi.
  - intros i v Hlv'. destruct (Hlv _ _ Hlv') as (p & Hp & HO & _). rewrite Hv, HvO, <- HO. by eapply hi_ver.
  - intros v vr p. rewrite Hv. intros Hvr Hp. destruct (hi_prev _ _ _ _ Hi _ _ _ Hvr Hp) as (Hlt & HO & Hpv).
    rewrite He, length_app, HvO, HeO' by done. split; [lia|]. split; [done|]. intros pv Hx. destruct (Hlv _ _ Hx) as (q & Hq & _ & Hqp).
    rewrite Hqp in Hq by done. by apply Hpv.
  - intros v vr r. rewrite Hv. by apply Hi.
  - intros i e0 H0. exists e0. split; [rewrite He; by apply lookup_app_l_Some|by apply (Hold i)].
  - intros v vr Hvr Hp. rewrite Hv in Hvr. destruct (hi_prev _ _ _ _ Hi _ _ _ Hvr Hp). lia.
Qed.

(** ** Linking, publishing, severing *)

Lemma store_ver_ents p v h i : ents (store_ver p v h) !! i = (if decide (p = i) then set_ver v <$> ents h !! i else ents h !! i).
Proof. unfold store_ver. cbn. by rewrite list_lookup_alter; case_decide; subst. Qed.

Lemma store_ver_load p v h i : load_ver (store_ver p v h) i = if decide (p = i /\ i < length (ents h)) then v else load_ver h i.
Proof.
  unfold load_ver. rewrite store_ver_ents. destruct (decide (p = i)) as [->|].
  - destruct (ents h !! i) as [e|] eqn:H; cbn; [rewrite decide_True; [done|]; split; [done|by eapply lookup_lt_Some]|].
    rewrite decide_False; [done|]. intros [_ Hlt]. apply lookup_ge_None in H. lia.
  - by rewrite decide_False by tauto.
Qed.

Lemma same_views_ver p v h : same_views h (store_ver p v h).
Proof. intros i e He. rewrite store_ver_ents, He. case_decide; eexists; (split; [done|]); done. Qed.

Lemma store_ver_fields G p v h hd n : hinv G h hd n ->
  (forall i e, ents (store_ver p v h) !! i = Some e -> entry_ok e /\ entry_fits G (store_ver p v h) (eO G i) e) /\
  (forall id i, (0 <= id)%Z -> hd id = Some i -> eO G i = id /\ exists e, ents (store_ver p v h) !! i = Some e /\ entry_tight G e).
Proof.
  intros Hi. split.
  - intros i e. rewrite store_ver_ents. destruct (ents h !! i) as [e0|] eqn:H0; [|by case_decide].
    destruct (hi_ok _ _ _ _ Hi _ _ H0) as [[] []]. case_decide; intros [= <-]; (split; by split).
  - intros id i Hid Hh. destruct (hi_head _ _ _ _ Hi _ _ Hid Hh) as (HO & e0 & H0 & []). split; [done|]. rewrite store_ver_ents, H0.
    case_decide; eexists; (split; [done|]); by split.
Qed.

Lemma store_ver_length p v h : length (ents (store_ver p v h)) = length (ents h).
Proof. unfold store_ver. cbn. apply length_alter. Qed.

(** A version that some entry of the node already carries. *)
Lemma relink_inv G h hd n p q pv : hinv G h hd n -> unlinked h p -> load_ver h q = Some pv -> eO G q = eO G p ->
  hinv G (store_ver p (Some pv) h) hd n.
Proof.
  intros Hi Hu Hq HO. destruct (store_ver_fields G p (Some pv) h hd n Hi) as [H1 H2]. split; [exact H1|exact H2| | |apply (hi_info _ _ _ _ Hi)].
  - intros i v. rewrite store_ver_load. case_decide as Hd; [|apply (hi_ver _ _ _ _ Hi)]. intros [= <-]. destruct Hd as [<- _].
    rewrite <- HO. by eapply (hi_ver _ _ _ _ Hi).
  - intros v vr p' Hvr Hp'. rewrite store_ver_length. destruct (hi_prev _ _ _ _ Hi _ _ _ Hvr Hp') as (Hlt & HO' & Hpv).
    split; [done|]. split; [done|]. intros pv'. rewrite store_ver_load. case_decide as Hd; [|by apply Hpv].
    destruct Hd as [-> _]. by destruct (Hu _ _ Hvr).
Qed.

(** A new version over the current entry. *)
Lemma link_inv G h hd n p prev info ts : hinv G h hd n -> unlinked h p -> p < length (ents h) ->
  (forall q, prev = Some q -> q < length (ents h) /\ eO G q = eO G p /\ q <> p) -> (forall r, info = Some r -> r < n) ->
  hinv (mkGhosts (gz G) (gw G) (eO G) (<[length (vers h) := eO G p]> (vO G)))
    (store_ver p (Some (length (vers h))) (with_vers (vers h ++ [mkVersion prev info ts]) h)) hd n.
Proof.
  intros Hi Hu Hp Hprev Hinfo. set (h1 := with_vers _ h). set (G1 := mkGhosts _ _ _ _).
  assert (Hvo : forall v, v < length (vers h) -> vO G1 v = vO G v) by (intros v Hv; cbn; rewrite fn_insert_dec, decide_False; [done|lia]).
  destruct (store_ver_fields G p (Some (length (vers h))) h hd n Hi) as [H1 H2].
  split; [intros i e He; by destruct (H1 i e He) as [? []]|intros id i Hid Hh; destruct (H2 id i Hid Hh) as (? & e & ? & []); split; [done|by eexists]|..].
  - intros i v. rewrite store_ver_load. change (load_ver h1 i) with (load_ver h i). change (ents h1) with (ents h).
    unfold h1 at 1. cbn [vers store_ver with_ents with_vers]. rewrite length_app. cbn [length].
    case_decide as Hd; [intros [= <-]; destruct Hd as [-> _]; cbn; rewrite fn_insert_eq; split; [lia|done]|].
    intros Hv. destruct (hi_ver _ _ _ _ Hi _ _ Hv). rewrite Hvo by done. split; [lia|done].
  - intros v vr q Hvr Hq. rewrite store_ver_length. change (ents h1) with (ents h).
    change (vers (store_ver p (Some (length (vers h))) h1)) with (vers h ++ [mkVersion prev info ts]) in Hvr.
    apply lookup_app_Some in Hvr as [Hvr|[Hge Hvr]].
    + destruct (hi_prev _ _ _ _ Hi _ _ _ Hvr Hq) as (Hlt & HO & Hpv). rewrite Hvo by (by eapply lookup_lt_Some). split; [done|]. split; [done|].
      intros pv. rewrite store_ver_load. case_decide as Hd; [|by apply Hpv]. destruct Hd as [-> _]. by destruct (Hu _ _ Hvr).
    + apply list_lookup_singleton_Some in Hvr as [Hv0 <-]. assert (v = length (vers h)) as -> by lia. cbn in Hq.
      destruct (Hprev _ Hq) as (Hlt & HO & Hne). split; [done|]. cbn. rewrite fn_insert_eq. split; [done|].
      intros pv. rewrite store_ver_load. rewrite decide_False by (intros [? _]; congruence). intros Hpv. by eapply hi_ver.
  - intros v vr r Hvr. change (vers (store_ver p (Some (length (vers h))) h1)) with (vers h ++ [mkVersion prev info ts]) in Hvr.
    apply lookup_app_Some in Hvr as [Hvr|[Hge Hvr]]; [by eapply hi_info|].
    apply list_lookup_singleton_Some in Hvr as [_ <-]. cbn. apply Hinfo.
Qed.

Lemma publish_inv G h hd n id p e : hinv G h (drop_head id hd) n -> ents h !! p = Some e -> eO G p = id -> entry_tight G e ->
  hinv G h (<[id := Some p]> hd) n.
Proof.
  intros Hi He HO Ht. destruct Hi. split; try done. intros id' i Hid. rewrite fn_insert_dec. case_decide as Hd.
  - intros [= <-]. subst. eauto.
  - intros Hh. apply hi_head0; [done|]. unfold drop_head. by rewrite decide_False by congruence.
Qed.

Lemma sever_inv G h hd n q : hinv G h hd n -> hinv G (store_ver q None h) hd n.
Proof.
  intros Hi. destruct (store_ver_fields G q None h hd n Hi) as [H1 H2]. split; [exact H1|exact H2| | |apply (hi_info _ _ _ _ Hi)].
  - intros i v. rewrite store_ver_load. case_decide; [done|apply (hi_ver _ _ _ _ Hi)].
  - intros v vr p Hvr Hp. rewrite store_ver_length. destruct (hi_prev _ _ _ _ Hi _ _ _ Hvr Hp) as (Hlt & HO & Hpv).
    split; [done|]. split; [done|]. intros pv. rewrite store_ver_load. case_decide; [done|apply Hpv].
Qed.
End inv.
Arguments hinv {W A P _}.
