(* ===== verification/AdjBuild.v ===== *)
(** * Building entries from columns

    Every entry the adjacency publishes is built by one operation per column.  Each of
    those operations is a [col_fun]; [build_entry] composes four of them over the shared
    heap into an extension that keeps what every existing entry reads. *)

From Stdlib Require Import ZArith Lia.
From stdpp Require Import list gmap.
From S2P Require Import Prelude Clock WriteStamp AdjHeap AdjReverse AdjList AdjOps AdjMaint AdjHeapFacts AdjHeapInv.

(** ** Column operations *)

Section col_fun.
Context {T : Type} (zero : T).

(** On the column [s]: the result is there iff [b], holds [out] of the contents, and has
    capacity [cp] when one is stated. *)
Definition col_fun (f : mem T -> option (option slice * mem T)) (s : option slice) (b : bool)
    (out : list T -> list T) (cp : option nat) : Prop :=
  forall m, valid m s -> exists m' s', f m = Some (s', m') /\ col_step m s m' s' /\
    not_nil s' = b /\ contents m' s' = out (contents m s) /\ (forall c, cp = Some c -> scap s' = c).

Lemma built_fun f s out c :
  (forall m, valid m s -> exists m' s', f m = Some (s', m') /\ built m s m' s' (out (contents m s)) c) ->
  col_fun f s true out (Some c).
Proof.
  intros H m Hv. destruct (H m Hv) as (m' & s' & Hf & [Hst Hc Hl Hcp [sl ->]]). eexists _, _. split; [done|]. split; [done|]. split; [done|].
  split; [done|]. intros ? [= <-]. done.
Qed.

Lemma col_same s : col_fun (fun m => Some (s, m)) s (not_nil s) (fun c => c) (Some (scap s)).
Proof. intros m Hv. eexists _, _. split; [done|]. split; [apply CSsame|]. split; [done|]. split; [done|]. by intros ? [= <-]. Qed.

Lemma col_none s : col_fun (fun m => Some (None, m)) s false (fun _ => []) (Some 0).
Proof. intros m Hv. eexists _, _. split; [done|]. split; [apply CSnil|]. split; [done|]. split; [done|]. by intros ? [= <-]. Qed.

Lemma col_alloc (l : list T) s :
  col_fun (fun m => Some (Some (mkSlice (length m) (length l) (length l)), m ++ [l])) s true (fun _ => l) (Some (length l)).
Proof.
  intros m Hv. eexists _, _. split; [done|]. split; [by apply CSfresh|]. split; [done|]. rewrite contents_new, take_ge by done.
  split; [done|]. by intros ? [= <-].
Qed.

Lemma col_push n v s : slen s = n -> n < scap s -> col_fun (push_col n v s) s true (fun c => c ++ [v]) (Some (scap s)).
Proof. intros H1 H2. apply built_fun. intros m Hv. destruct (push_col_spec n v s m) as (m' & s' & ? & ?); eauto. Qed.

Lemma col_fresh n c v s : slen s <= n -> n < c ->
  col_fun (fresh_col zero n c v s) s true (fun x => x ++ replicate (n - slen s) zero ++ [v]) (Some c).
Proof. intros H1 H2. apply built_fun. intros m Hv. destruct (fresh_col_spec zero n c v s m) as (m' & s' & ? & ?); eauto. Qed.

(** The contents of an optional column after an append. *)
Definition opt_out (has : bool) (n : nat) (v : T) (s : option slice) (x : list T) : list T :=
  if has || not_nil s then (if not_nil s then x else replicate n zero) ++ [v] else [].

Lemma opt_fun f has n v s :
  (forall m, valid m s -> exists m' s', f m = Some (s', m') /\ col_step m s m' s' /\
    (if has || not_nil s then exists cp, built m s m' s' ((if not_nil s then contents m s else replicate n zero) ++ [v]) cp
     else s' = None /\ m' = m)) ->
  col_fun f s (has || not_nil s) (opt_out has n v s) None.
Proof.
  intros H m Hv. destruct (H m Hv) as (m' & s' & Hf & Hst & Hb). eexists _, _. split; [done|]. split; [done|]. unfold opt_out.
  destruct (has || not_nil s).
  - destruct Hb as (cp & [_ Hc _ _ [sl ->]]). done.
  - by destruct Hb as [-> ->].
Qed.

Lemma col_push_opt has n v s : (is_Some s -> slen s = n) ->
  col_fun (push_opt zero has n v s) s (has || not_nil s) (opt_out has n v s) None.
Proof. intros H. apply opt_fun. intros m Hv. by apply push_opt_spec. Qed.

Lemma col_grow_opt has n c v s : (is_Some s -> slen s = n) -> n < c ->
  col_fun (grow_opt zero has n c v s) s (has || not_nil s) (opt_out has n v s) None.
Proof. intros H Hc. apply opt_fun. intros m Hv. by apply grow_opt_spec. Qed.

Lemma col_first has c v : 0 < c ->
  col_fun (first_col zero has c v) None has (fun _ => if has then [v] else []) (Some (if has then c else 0)).
Proof.
  intros Hc m Hv. destruct (first_col_spec zero has c v m Hc) as (m' & s' & Hf & Hst & Hb). eexists _, _. split; [done|]. split; [done|].
  destruct has.
  - destruct Hb as [_ ? _ ? [sl ->]]. split; [done|]. split; [done|]. by intros ? [= <-].
  - destruct Hb as [-> ->]. split; [done|]. split; [done|]. by intros ? [= <-].
Qed.

Lemma col_drop idx s : (is_Some s -> idx < slen s) ->
  col_fun (drop_col zero idx s) s (not_nil s) (fun c => delete idx c) (Some (slen s - 1)).
Proof.
  intros Hi m Hv. destruct (drop_col_spec zero idx s m Hv Hi) as (m' & s' & Hf & Hst & Hb). eexists _, _. split; [done|]. split; [done|].
  destruct s as [sl|]; cbn [not_nil] in *.
  - destruct Hb as [_ ? _ ? [sl' ->]]. split; [done|]. split; [done|]. by intros ? [= <-].
  - destruct Hb as [-> ->]. split; [done|]. split; [done|]. by intros ? [= <-].
Qed.

Lemma col_exact s : col_fun (exact_col zero (slen s) s) s true (fun c => c) (Some (slen s)).
Proof.
  apply built_fun. intros m Hv. destruct (exact_col_spec zero (slen s) s m) as (m' & s' & ? & Hb); [done..|].
  rewrite Nat.sub_diag, app_nil_r in Hb. eauto.
Qed.

Lemma col_trim n s : (is_Some s -> slen s = n) ->
  col_fun (trim_col zero n s) s (not_nil s) (fun c => c) (Some (if not_nil s then n else 0)).
Proof.
  intros H. unfold trim_col. destruct s as [sl|]; cbn [not_nil]; [|apply col_none]. rewrite <- H by done. apply col_exact.
Qed.
End col_fun.

(** ** Composition *)

Section build.
Context {W A P : Type} (zeroW : W) `{!AuxColumn A P} (cfg : Config A P).
Abbreviation adjEntry := (adjEntry A).
Abbreviation heap := (heap W A).
Implicit Types (h : heap) (e : adjEntry).

(** One stage: a column operation after arrays of other keys changed. *)
Lemma stage {T} (Q : Z * kind -> Prop) (f : mem T -> option (option slice * mem T)) s b out cp key
    (m0 : mem T) g0 m g : col_fun f s b out cp -> fits g0 key m0 s -> tight g0 s ->
  extends Q m0 g0 m g -> ~ Q key ->
  exists m' s' g', f m = Some (s', m') /\ extends (fun k => Q k \/ k = key) m0 g0 m' g' /\ extends (eq key) m g m' g' /\
    fits g' key m' s' /\ tight g' s' /\ not_nil s' = b /\ contents m' s' = out (contents m0 s) /\ (forall c, cp = Some c -> scap s' = c).
Proof.
  intros Hf Hfit Ht Hext HQ. destruct (extends_fits _ _ _ _ _ _ _ Hext Hfit) as [Hfit' Hc].
  pose proof (extends_tight _ _ _ _ _ _ _ Hext Hfit HQ Ht) as Ht'. destruct (Hf m) as (m' & s' & Hfm & Hst & Hb & Hout & Hcp); [apply Hfit'|].
  destruct (col_step_extends g key m s m' s') as (g' & He & Hf' & Htt); [done..|]. exists m', s', g'. split; [done|].
  split; [eapply extends_trans; [exact Hext|exact He|]; cbn; intros k [?|<-]; auto|]. split; [done|]. split; [done|]. split; [done|]. split; [done|].
  split; [by rewrite Hout, Hc|done].
Qed.

Lemma stage_keep {T} (m g m' g' : _) key key' s : extends (T := T) (eq key) m g m' g' -> key' <> key ->
  fits g key' m s -> tight g s -> fits g' key' m' s /\ tight g' s /\ contents m' s = contents m s.
Proof.
  intros He Hne Hf Ht. destruct (extends_fits _ _ _ _ _ _ _ He Hf) as [Hf' Hc]. split; [done|]. split; [|done].
  eapply extends_tight; [done..|congruence|done].
Qed.

(** What the four operations make of the entry [e0]. *)
Record build_out h e0 h' e bn (on : list Z -> list Z) (cn : option nat) bw (ow : list W -> list W) cw bh (oh : list Z -> list Z) bl ol : Prop := {
  bo_nb : not_nil (neighbours e) = bn /\ contents (zmem h') (neighbours e) = on (contents (zmem h) (neighbours e0)) /\ (forall c, cn = Some c -> scap (neighbours e) = c);
  bo_ws : not_nil (weights e) = bw /\ contents (wmem h') (weights e) = ow (contents (wmem h) (weights e0)) /\ (forall c, cw = Some c -> scap (weights e) = c);
  bo_hs : not_nil (handles e) = bh /\ contents (zmem h') (handles e) = oh (contents (zmem h) (handles e0));
  bo_ls : not_nil (labels e) = bl /\ contents (zmem h') (labels e) = ol (contents (zmem h) (labels e0));
}.

Definition built_entry (fnb : mem Z -> option (option slice * mem Z)) (fws : mem W -> option (option slice * mem W))
    (fhs fls : mem Z -> option (option slice * mem Z)) (ax : option A) (vr : option nat) h : option (adjEntry * heap) :=
  '(nb, h) ← on_z fnb h; '(ws, h) ← on_w fws h; '(hs, h) ← on_z fhs h; '(ls, h) ← on_z fls h;
  Some (mkEntry ax vr nb ws hs ls, h).

Lemma on_z_eq (f : mem Z -> option (option slice * mem Z)) h s m : f (zmem h) = Some (s, m) -> on_z f h = Some (s, with_zmem m h).
Proof. unfold on_z. by intros ->. Qed.
Lemma on_w_eq (f : mem W -> option (option slice * mem W)) h s m : f (wmem h) = Some (s, m) -> on_w f h = Some (s, with_wmem m h).
Proof. unfold on_w. by intros ->. Qed.

Lemma build_entry id G h e0 fnb fws fhs fls bn on cn bw ow cw bh oh ch bl ol cl ax vr :
  entry_fits G h id e0 -> entry_tight G e0 ->
  col_fun fnb (neighbours e0) bn on cn -> col_fun fws (weights e0) bw ow cw ->
  col_fun fhs (handles e0) bh oh ch -> col_fun fls (labels e0) bl ol cl ->
  exists e h' G', built_entry fnb fws fhs fls ax vr h = Some (e, h') /\ aux e = ax /\ ver e = vr /\
    build_out h e0 h' e bn on cn bw ow cw bh oh bl ol /\
    heap_ext id G h G' (with_ents (ents h' ++ [e]) h') e /\
    entry_fits G' (with_ents (ents h' ++ [e]) h') id e /\ entry_tight G' e.
Proof.
  intros [] [] Hnb Hws Hhs Hls.
  destruct (stage (fun _ => False) _ _ _ _ _ (id, KN) (zmem h) (gz G) (zmem h) (gz G) Hnb) as (m1 & nb & g1 & E1 & X1 & _ & F1 & T1 & B1 & C1 & P1);
    [done|done|apply extends_refl|tauto|].
  destruct (stage (fun _ => False) _ _ _ _ _ (id, KW) (wmem h) (gw G) (wmem h) (gw G) Hws) as (mw & ws & gw' & E2 & X2 & _ & F2 & T2 & B2 & C2 & P2);
    [done|done|apply extends_refl|tauto|].
  destruct (stage (fun k => False \/ k = (id, KN)) _ _ _ _ _ (id, KH) (zmem h) (gz G) m1 g1 Hhs) as (m2 & hs & g2 & E3 & X3 & S3 & F3 & T3 & B3 & C3 & P3);
    [done|done|exact X1|cbn; intros [[]|]; done|].
  destruct (stage (fun k => (False \/ k = (id, KN)) \/ k = (id, KH)) _ _ _ _ _ (id, KL) (zmem h) (gz G) m2 g2 Hls) as (m3 & ls & g3 & E4 & X4 & S4 & F4 & T4 & B4 & C4 & P4);
    [done|done|exact X3|cbn; intros [[[]|]|]; done|].
  destruct (stage_keep _ _ _ _ _ (id, KN) nb S3) as (F1' & T1' & C1'); [done..|].
  destruct (stage_keep _ _ _ _ _ (id, KN) nb S4) as (F1'' & T1'' & C1''); [done..|].
  destruct (stage_keep _ _ _ _ _ (id, KH) hs S4) as (F3' & T3' & C3'); [done..|].
  set (e := mkEntry ax vr nb ws hs ls). set (h' := with_zmem m3 (with_zmem m2 (with_wmem mw (with_zmem m1 h)))).
  exists e, h', (mkGhosts g3 gw' (<[length (ents h) := id]> (eO G)) (vO G)). split.
  { unfold built_entry. rewrite (on_z_eq _ _ _ _ E1). cbn [mbind option_bind]. rewrite (on_w_eq fws (with_zmem m1 h) _ _ E2). cbn [mbind option_bind].
    rewrite (on_z_eq fhs (with_wmem mw (with_zmem m1 h)) _ _ E3). cbn [mbind option_bind].
    by rewrite (on_z_eq fls (with_zmem m2 (with_wmem mw (with_zmem m1 h))) _ _ E4). }
  split; [done|]. split; [done|]. split; [|split; [|split]].
  - split; cbn.
    + split; [done|]. split; [by rewrite C1'', C1', C1|done].
    + done.
    + split; [done|]. by rewrite C3', C3.
    + done.
  - split; try done; (eapply extends_trans; [eassumption|apply extends_refl|]); cbn; instantiate (1 := fun _ => False); cbn; intros k; naive_solver.
  - by split.
  - by split.
Qed.
End build.

(** * Version chains as lists

    The walks of the code (resolution, the pre-image test, the skip of aborted records,
    severing) all follow the same chain.  [chain] is that chain as a list of entries with
    their versions and the entry it ends at; the invariant makes it finite, and each walk
    a search in the list. *)

Section chain.
Context {W A P : Type} `{!AuxColumn A P} (cfg : Config A P).
Abbreviation heap := (heap W A).
Abbreviation AdjList := (AdjList W A).
Implicit Types (h : heap) (a : AdjList) (G : ghost) (oe : option nat).

(** A version record of the heap. *)
Definition ver_at h (v : nat) : adjVersion := default (mkVersion None None 0) (vers h !! v).

Fixpoint chain (fuel : nat) h oe : list (nat * adjVersion) * option nat :=
  match fuel, oe with
  | S fuel, Some e =>
      match load_ver h e with
      | None => ([], oe)
      | Some v => let '(l, last) := chain fuel h (v_prev (ver_at h v)) in ((e, ver_at h v) :: l, last)
      end
  | _, _ => ([], oe)
  end.

Definition ch a oe : list (nat * adjVersion) * option nat := chain (fuel_of a) (hp a) oe.

(** ** Fuel *)

(** A chain from [oe] is shorter than [n]: what the invariant gives for the first version. *)
Definition bounded h (n : nat) oe : Prop := forall e v, oe = Some e -> load_ver h e = Some v -> v < n.

Lemma bounded_prev G h hd n e v : hinv cfg G h hd n -> load_ver h e = Some v -> bounded h v (v_prev (ver_at h v)).
Proof.
  intros Hi Hl p pv Hp Hpv. destruct (hi_ver _ _ _ _ _ Hi _ _ Hl) as [Hv _]. destruct (lookup_lt_is_Some_2 _ _ Hv) as [vr Hvr].
  unfold ver_at in Hp. rewrite Hvr in Hp. cbn in Hp. destruct (hi_prev _ _ _ _ _ Hi _ _ _ Hvr Hp) as (_ & _ & H). by apply H.
Qed.

Lemma bounded_all G h hd n oe : hinv cfg G h hd n -> bounded h (length (vers h)) oe.
Proof. intros Hi e v _ Hl. by eapply (hi_ver _ _ _ _ _ Hi). Qed.

(** Heaps that agree on the old entries and versions have the same chains. *)
Lemma chain_frame G h h' hd n b f f' oe : hinv cfg G h hd n ->
  (forall i, i < length (ents h) -> load_ver h' i = load_ver h i) ->
  (forall v, v < length (vers h) -> vers h' !! v = vers h !! v) ->
  bounded h b oe -> b < f -> b < f' -> (forall e, oe = Some e -> e < length (ents h)) ->
  chain f' h' oe = chain f h oe.
Proof.
  intros Hi He Hv. revert f f' oe. induction (lt_wf b) as [b _ IH]. intros f f' oe Hb Hf Hf' Hoe.
  destruct f as [|f], f' as [|f']; [lia..|]. destruct oe as [e|]; [|done]. cbn [chain]. rewrite He by auto.
  destruct (load_ver h e) as [v|] eqn:Hl; [|done]. pose proof (Hb _ _ eq_refl Hl) as Hvb.
  destruct (hi_ver _ _ _ _ _ Hi _ _ Hl) as [Hlt _]. unfold ver_at. rewrite Hv by done. fold (ver_at h v).
  rewrite (IH v Hvb f f'); [done|by eapply bounded_prev|lia|lia|]. intros p Hp.
  destruct (lookup_lt_is_Some_2 _ _ Hlt) as [vr Hvr]. unfold ver_at in Hp. rewrite Hvr in Hp. by destruct (hi_prev _ _ _ _ _ Hi _ _ _ Hvr Hp).
Qed.

Lemma ch_frame G a a' hd n oe : hinv cfg G (hp a) hd n ->
  (forall i, i < length (ents (hp a)) -> load_ver (hp a') i = load_ver (hp a) i) ->
  (forall v, v < length (vers (hp a)) -> vers (hp a') !! v = vers (hp a) !! v) -> length (vers (hp a)) <= length (vers (hp a')) ->
  (forall e, oe = Some e -> e < length (ents (hp a))) -> ch a' oe = ch a oe.
Proof. intros Hi He Hv Hn Ho. unfold ch, fuel_of. eapply chain_frame; [done..|by eapply bounded_all|lia|lia|done]. Qed.

Lemma ch_none a : ch a None = ([], None).
Proof. done. Qed.

Lemma load_ver_ents h e v : load_ver h e = Some v -> e < length (ents h).
Proof. unfold load_ver. destruct (ents h !! e) eqn:H; [|done]. intros _. by eapply lookup_lt_Some. Qed.

(** The chain, one link at a time. *)
Lemma ch_some G a hd n e : hinv cfg G (hp a) hd n ->
  ch a (Some e) = match load_ver (hp a) e with
                  | None => ([], Some e)
                  | Some v => ((e, get_version a v) :: (ch a (v_prev (get_version a v))).1, (ch a (v_prev (get_version a v))).2)
                  end.
Proof.
  intros Hi. unfold ch at 1, fuel_of. cbn [chain]. destruct (load_ver (hp a) e) as [v|] eqn:Hl; [|done].
  change (get_version a v) with (ver_at (hp a) v). unfold ch.
  erewrite (chain_frame G (hp a) (hp a) hd n v (fuel_of a) (length (vers (hp a)))); [by destruct (chain _ _ _)|done..| | | |].
  - by eapply bounded_prev.
  - destruct (hi_ver _ _ _ _ _ Hi _ _ Hl). unfold fuel_of. lia.
  - by eapply (hi_ver _ _ _ _ _ Hi).
  - intros p Hp. destruct (hi_ver _ _ _ _ _ Hi _ _ Hl) as [Hlt _]. destruct (lookup_lt_is_Some_2 _ _ Hlt) as [vr Hvr].
    unfold ver_at in Hp. rewrite Hvr in Hp. by destruct (hi_prev _ _ _ _ _ Hi _ _ _ Hvr Hp).
Qed.

(** Everything on a chain is an entry or a version of the heap, of the same node. *)
Record link_ok G h (n : nat) (id : Z) (x : nat * adjVersion) : Prop := {
  lo_ent : x.1 < length (ents h);
  lo_own : eO G x.1 = id;
  lo_info r : v_info x.2 = Some r -> r < n;
  lo_ver : exists v, load_ver h x.1 = Some v /\ vers h !! v = Some x.2;
}.

Lemma chain_ok G h hd n f oe id : hinv cfg G h hd n -> (forall e, oe = Some e -> e < length (ents h) /\ eO G e = id) ->
  Forall (link_ok G h n id) (chain f h oe).1 /\ (forall e, (chain f h oe).2 = Some e -> e < length (ents h) /\ eO G e = id).
Proof.
  intros Hi. revert oe. induction f as [|f IH]; intros oe Ho; [done|]. destruct oe as [e|]; [|done]. cbn [chain].
  destruct (Ho e eq_refl) as [Hlt HO]. destruct (load_ver h e) as [v|] eqn:Hl; [|done].
  destruct (hi_ver _ _ _ _ _ Hi _ _ Hl) as [Hv HvO]. destruct (lookup_lt_is_Some_2 _ _ Hv) as [vr Hvr].
  assert (Hva : ver_at h v = vr) by (unfold ver_at; by rewrite Hvr).
  destruct (IH (v_prev (ver_at h v))) as [H1 H2].
  { intros p Hp. rewrite Hva in Hp. destruct (hi_prev _ _ _ _ _ Hi _ _ _ Hvr Hp) as (? & ? & _). split; [done|congruence]. }
  destruct (chain f h _) as [l la]. cbn in *. split; [|done]. constructor; [|done]. split; cbn; [done|done| |by exists v; rewrite Hva].
  intros r Hr. rewrite Hva in Hr. by eapply (hi_info _ _ _ _ _ Hi).
Qed.

(** ** The walks, as searches *)

Definition first_such (f : adjVersion -> bool) (c : list (nat * adjVersion) * option nat) : option nat :=
  match list_find (fun x => f x.2 = true) c.1 with Some (_, x) => Some x.1 | None => c.2 end.

Lemma first_such_cons f x l la : first_such f (x :: l, la) = if f x.2 then Some x.1 else first_such f (l, la).
Proof.
  unfold first_such. cbn [list_find fst]. case_decide as Hd; [by rewrite Hd|]. apply not_true_is_false in Hd. rewrite Hd.
  cbn. by destruct (list_find _ l) as [[]|].
Qed.

Lemma resolve_chain fuel vis a oe :
  resolve fuel vis a oe = first_such (fun vr => vis (v_info vr) (v_ts vr)) (chain fuel (hp a) oe).
Proof.
  revert oe. induction fuel as [|fuel IH]; intros oe; [done|]. destruct oe as [e|]; [|done]. cbn [resolve chain].
  destruct (load_ver (hp a) e) as [v|]; [|done]. change (get_version a v) with (ver_at (hp a) v). rewrite IH.
  destruct (chain fuel (hp a) _) as [l la] eqn:Hc. by rewrite first_such_cons.
Qed.

Lemma resolve_ch vis a oe : entryAsOfLoadedVisible vis a oe = first_such (fun vr => vis (v_info vr) (v_ts vr)) (ch a oe).
Proof. apply resolve_chain. Qed.

(** The first version that is not aborted. *)
Definition not_aborted a (vr : adjVersion) : bool := negb (supersededAt a vr =? AbortedTS)%Z.

Lemma overPreImage_chain fuel a oe :
  overPreImage_loop fuel a oe =
    match list_find (fun x => not_aborted a x.2 = true) (chain fuel (hp a) oe).1 with
    | Some (_, x) => (supersededAt a x.2 <? TxIDBase)%Z
    | None => true
    end.
Proof.
  revert oe. induction fuel as [|fuel IH]; intros oe; [done|]. destruct oe as [e|]; [|done]. cbn [overPreImage_loop chain].
  destruct (load_ver (hp a) e) as [v|]; [|done]. change (get_version a v) with (ver_at (hp a) v). rewrite IH.
  destruct (chain fuel (hp a) _) as [l la] eqn:Hc. cbn [fst list_find snd]. fold (not_aborted a (ver_at (hp a) v)).
  destruct (not_aborted a (ver_at (hp a) v)) eqn:Hn.
  - by rewrite decide_True.
  - rewrite decide_False by done. cbn. by destruct (list_find _ l) as [[]|].
Qed.

Lemma skip_aborted_chain fuel a oe n :
  (skip_aborted fuel a oe n).1 = first_such (not_aborted a) (chain fuel (hp a) oe).
Proof.
  revert oe n. induction fuel as [|fuel IH]; intros oe n; [done|]. destruct oe as [e|]; [|done]. cbn [skip_aborted chain].
  destruct (load_ver (hp a) e) as [v|]; [|done]. change (get_version a v) with (ver_at (hp a) v).
  destruct (chain fuel (hp a) _) as [l la] eqn:Hc. rewrite first_such_cons. unfold not_aborted at 1. cbn [snd].
  destruct (supersededAt a (ver_at (hp a) v) =? AbortedTS)%Z; cbn [negb]; [|done]. by rewrite IH, Hc.
Qed.

(** Searches agree when the verdicts agree on the chain. *)
Lemma find_ext {B} (f f' : adjVersion -> bool) (k k' : nat * adjVersion -> B) d l :
  Forall (fun x => f' x.2 = f x.2 /\ k' x = k x) l ->
  match list_find (fun x => f' x.2 = true) l with Some (_, x) => k' x | None => d end =
  match list_find (fun x => f x.2 = true) l with Some (_, x) => k x | None => d end.
Proof.
  induction 1 as [|x l [Hf Hk] _ IH]; [done|]. cbn [list_find]. rewrite Hf. case_decide; [done|].
  by destruct (list_find (fun x => f' x.2 = true) l) as [[]|], (list_find (fun x => f x.2 = true) l) as [[]|].
Qed.

Lemma first_such_ext f g c : Forall (fun x => f x.2 = g x.2) c.1 -> first_such f c = first_such g c.
Proof.
  destruct c as [l la]. cbn. induction 1 as [|x l Hx _ IH]; [done|]. rewrite !first_such_cons, Hx, IH. done.
Qed.
End chain.
