(* ===== verification/AdjStoreEntry.v ===== *)
(** * storeEntry: link, then publish

    One write publishes one entry for one node.  With versioning the entry carries a
    version that leads to the entry it replaced: a new one, or the one its own transaction
    already made for this node.  Everything any reader could see before reads the same. *)

From Stdlib Require Import ZArith Lia.
From stdpp Require Import list gmap.
From S2P Require Import Prelude Clock WriteStamp AdjHeap AdjHeapFacts AdjReverse AdjList AdjOps AdjMaint AdjHeapInv AdjBuild.

Section store.
Context {W A P : Type} `{!AuxColumn A P} (cfg : Config A P).
Abbreviation adjEntry := (adjEntry A).
Abbreviation heap := (heap W A).
Abbreviation AdjList := (AdjList W A).
Implicit Types (h : heap) (a : AdjList) (G : ghost).

(** ** Stamps *)

(** The records keep their timestamps; at most new ones follow. *)
Definition recs_ext (x x' : txn) : Prop := clocked x' = clocked x /\ exists l, recs x' = recs x ++ l.

Lemma recs_ext_refl x : recs_ext x x.
Proof. split; [done|]. exists []. by rewrite app_nil_r. Qed.

Lemma recs_ext_trans x y z : recs_ext x y -> recs_ext y z -> recs_ext x z.
Proof. intros [Cy [l Hy]] [Cz [l' Hz]]. split; [congruence|]. exists (l ++ l'). by rewrite Hz, Hy, app_assoc. Qed.

Lemma recs_ext_len x x' : recs_ext x x' -> length (recs x) <= length (recs x').
Proof. intros [_ [l Hl]]. rewrite Hl, length_app. lia. Qed.

Lemma recs_ext_ts x x' r : recs_ext x x' -> r < length (recs x) -> rec_ts x' r = rec_ts x r.
Proof. intros [_ [l Hl]] Hr. unfold rec_ts. by rewrite Hl, lookup_app_l. Qed.

(** An open transaction state: armed, with or without a record. *)
Definition is_open (t : TxState) : Prop := st_info t <> NoWindow.

(** Every open state has an id of its own, and the record of that id is the state's. *)
Record recs_ok (x : txn) : Prop := {
  ro_rec i t r : states x !! i = Some t -> st_info t = HasRecord r -> r < length (recs x) /\ rec_ts x r = st_txID t;
  ro_own i t r : states x !! i = Some t -> is_open t -> r < length (recs x) -> rec_ts x r = st_txID t -> st_info t = HasRecord r;
  ro_ids i j t u : states x !! i = Some t -> states x !! j = Some u -> is_open t -> is_open u -> st_txID t = st_txID u -> i = j;
  ro_range i t : states x !! i = Some t -> is_open t -> (TxIDBase <= st_txID t < AbortedTS)%Z;
}.

(** A change to one state that leaves its window and its id alone. *)
Lemma with_state_ok i f x : (forall t, st_info (f t) = st_info t /\ st_txID (f t) = st_txID t) -> recs_ok x -> recs_ok (with_state i f x).
Proof.
  intros Hf [H1 H2 H3 H4].
  assert (Hl : forall j t, states (with_state i f x) !! j = Some t -> exists u, states x !! j = Some u /\ st_info t = st_info u /\ st_txID t = st_txID u).
  { intros j t. cbn. rewrite list_lookup_alter. case_decide; [|by exists t]. subst. destruct (states x !! j) as [u|]; [|done]. intros [= <-]. exists u. split; [done|]. by apply Hf. }
  unfold is_open in *. split; unfold is_open.
  - intros j t r (u & Hu & E1 & E2)%Hl. rewrite E1, E2. by apply (H1 j u).
  - intros j t r (u & Hu & E1 & E2)%Hl. rewrite E1, E2. by apply (H2 j u).
  - intros j k t t' (u & Hu & E1 & E2)%Hl (u' & Hu' & E3 & E4)%Hl. rewrite E1, E2, E3, E4. by apply (H3 j k u u').
  - intros j t (u & Hu & E1 & E2)%Hl. rewrite E1, E2. by apply (H4 j u).
Qed.

Lemma Ensure_spec i x o x' : Ensure i x = (o, x') -> recs_ok x ->
  recs_ext x x' /\ recs_ok x' /\ (forall r, o = Some r -> r < length (recs x')).
Proof.
  unfold Ensure. destruct (states x !! i) as [t|] eqn:Ht; [|intros [= <- <-] Hok; split; [apply recs_ext_refl|done]].
  destruct (st_info t) as [| |r] eqn:Hi; intros [= <- <-] Hok.
  - split; [apply recs_ext_refl|done].
  - set (f := fun t => _). assert (Hl : length (recs x ++ [st_txID t]) = S (length (recs x))) by (rewrite length_app; cbn; lia).
    split; [split; [done|by eexists]|]. split; [|intros r [= <-]; cbn; lia]. destruct Hok as [H1 H2 H3 H4].
    assert (Hlk : forall j u, states (with_state i f (with_recs (recs x ++ [st_txID t]) x)) !! j = Some u ->
      (j = i /\ st_info u = HasRecord (length (recs x)) /\ st_txID u = st_txID t) \/ (j <> i /\ states x !! j = Some u)).
    { intros j u. cbn. rewrite list_lookup_alter. case_decide; [|by right]. subst. rewrite Ht. intros [= <-]. by left. }
    assert (Hop : is_open t) by (unfold is_open; by rewrite Hi).
    assert (Hts : forall r, r < S (length (recs x)) -> rec_ts (with_state i f (with_recs (recs x ++ [st_txID t]) x)) r =
      if decide (r = length (recs x)) then st_txID t else rec_ts x r).
    { intros r Hr. unfold rec_ts. cbn. case_decide; [subst; by rewrite list_lookup_middle|]. by rewrite lookup_app_l by lia. }
    split.
    + intros j u r Hu Hr. cbn [recs with_state with_states with_recs]. rewrite Hl. destruct (Hlk j u Hu) as [(-> & Hr' & Hid)|[Hne Hu']].
      * rewrite Hr in Hr'. injection Hr' as ->. split; [lia|]. by rewrite Hts, decide_True by lia.
      * destruct (H1 j u r Hu' Hr) as [Hlt Heq]. split; [lia|]. rewrite Hts, decide_False by lia. done.
    + intros j u r Hu Hopu. cbn [recs with_state with_states with_recs]. rewrite Hl. intros Hr. rewrite Hts by done.
      destruct (Hlk j u Hu) as [(-> & Hr' & Hid)|[Hne Hu']]; case_decide as Hd.
      * by subst.
      * intros Heq. exfalso. assert (st_info t = HasRecord r) by (apply (H2 i); [done..|lia|congruence]). congruence.
      * intros Heq. exfalso. apply Hne. apply (H3 j i u t); done.
      * intros Heq. apply (H2 j); [done..|lia|done].
    + intros j k u u' [(-> & Hr & Hid)|[Hne Hu]]%Hlk [(-> & Hr' & Hid')|[Hne' Hu']]%Hlk; intros Ho Ho' Heq.
      * done.
      * exfalso. apply Hne'. apply (H3 k i u' t); [done..|congruence].
      * exfalso. apply Hne. apply (H3 j i u t); [done..|congruence].
      * by apply (H3 j k u u').
    + intros j u [(-> & Hr & Hid)|[Hne Hu]]%Hlk; [rewrite Hid; intros _; by apply (H4 i)|by apply (H4 j)].
  - split; [apply (recs_ext_refl x)|]. split; [by apply with_state_ok|]. intros r' [= <-]. by destruct (ro_rec _ Hok i t r Ht Hi).
Qed.

Lemma versionStamp_spec tx ts a info st a' : versionStamp cfg tx ts a = (info, st, a') -> recs_ok (mv a) ->
  a' = with_mv (mv a') a /\ recs_ext (mv a) (mv a') /\ recs_ok (mv a') /\ (forall r, info = Some r -> r < length (recs (mv a'))).
Proof.
  intros H Hok. unfold versionStamp in H. destruct (has_stamp cfg); cbn [negb] in H.
  2: { injection H as <- <- <-. split; [by destruct a|]. split; [apply recs_ext_refl|]. done. }
  destruct (if Tx_Valid tx then Tx_Record tx (mv a) else (None, mv a)) as [o x] eqn:Hx.
  assert (Hspec : recs_ext (mv a) x /\ recs_ok x /\ (forall r, o = Some r -> r < length (recs x))).
  { destruct tx as [i|]; cbn in Hx; [by eapply Ensure_spec|]. injection Hx as <- <-. split; [apply recs_ext_refl|done]. }
  destruct Hspec as (He & Hok' & Hr). destruct o as [r|].
  - injection H as <- <- <-. cbn. split; [done|]. split; [done|]. by split.
  - unfold UntransactedStamp in H. destruct (clocked x); injection H as <- <- <-; cbn; (split; [done|]; split; [done|]; split; [by destruct Hok'|done]).
Qed.

(** Only the stamping state matters. *)
Lemma versionStamp_frame tx ts a a0 info st a1 : mv a0 = mv a -> versionStamp cfg tx ts a0 = (info, st, a1) ->
  versionStamp cfg tx ts a = (info, st, with_mv (mv a1) a).
Proof.
  intros Hm Hst. unfold versionStamp in Hst |- *. rewrite <- Hm. destruct (negb (has_stamp cfg)); [injection Hst as <- <- <-; rewrite Hm; by destruct a|].
  destruct (if Tx_Valid tx then _ else _) as [[r|] x]; [by injection Hst as <- <- <-|].
  destruct (UntransactedStamp ts x) as [[? ?] ?]. by injection Hst as <- <- <-.
Qed.

(** ** Linking *)

Lemma same_record_spec a prev info pv : same_record a prev info = Some pv ->
  exists p r, prev = Some p /\ info = Some r /\ load_ver (hp a) p = Some pv /\ v_info (get_version a pv) = Some r.
Proof.
  unfold same_record. destruct info as [r|]; [|done]. destruct prev as [p|]; [|done].
  destruct (load_ver (hp a) p) as [v|] eqn:Hl; [|done]. case_decide; [|done]. intros [= ->]. eauto 8.
Qed.

(** The version of the entry [q] that goes over [prev]. *)
Record linked (tx : option nat) (ts : Z) (prev : option nat) (q : nat) a a' : Prop := {
  lk_info : exists info st a1 v vr, versionStamp cfg tx ts a = (info, st, a1) /\ load_ver (hp a') q = Some v /\
    vers (hp a') !! v = Some vr /\ v_info vr = info /\
    ((same_record a prev info = Some v /\ vers (hp a') = vers (hp a) /\ versionActive a' = versionActive a /\ mv a' = mv a1) \/
     (same_record a prev info = None /\ v = length (vers (hp a)) /\ vers (hp a') = vers (hp a) ++ [vr] /\
      v_prev vr = prev /\ versionActive a' = (versionActive a + 1)%Z /\
      v_ts vr = match info with Some _ => if overPreImage a prev then adjOverPreImage else 0%Z | None => st end));
  lk_old i : i < length (ents (hp a)) -> i <> q -> load_ver (hp a') i = load_ver (hp a) i;
  lk_recs info st a1 : versionStamp cfg tx ts a = (info, st, a1) -> recs (mv a') = recs (mv a1);
}.

(** The frame of a write up to its publication. *)
Record framed a a' : Prop := {
  fr_arrs : arrs a' = arrs a;
  fr_ref si : slotsRef (shard_at a' si) = slotsRef (shard_at a si);
  fr_bld si : building (shard_at a' si) = building (shard_at a si);
  fr_own si : buildingOwner (shard_at a' si) = buildingOwner (shard_at a si);
  fr_rv : rv a' = rv a;
  fr_size : size a' = size a;
  fr_hs : handleSeq a' = handleSeq a;
  fr_bo : bulkOwner a' = bulkOwner a;
  fr_len : length (ents (hp a)) <= length (ents (hp a'));
}.

Lemma framed_sinv a a' : framed a a' -> sinv a -> sinv a'.
Proof.
  intros [] []. split.
  - intros si r. rewrite fr_ref0, fr_arrs0. apply si_ref.
  - intros si sj r. rewrite !fr_ref0. apply si_inj.
  - intros si b. rewrite fr_ref0, fr_bld0. apply si_bld.
  - intros si b. rewrite fr_own0, fr_bld0. apply si_own.
  - intros r l i e. rewrite fr_arrs0. intros Hr He. eapply Nat.lt_le_trans; [by eapply si_ptr|done].
Qed.

Lemma framed_load a a' id : framed a a' -> loadEntry a' id = loadEntry a id.
Proof. intros []. unfold loadEntry, slot_at. rewrite fr_ref0. destruct (slotsRef _); [|done]. unfold arr_at. by rewrite fr_arrs0. Qed.

Lemma add_versioned_shard id a si :
  slotsRef (shard_at (add_versioned id a) si) = slotsRef (shard_at a si) /\ building (shard_at (add_versioned id a) si) = building (shard_at a si) /\
  buildingOwner (shard_at (add_versioned id a) si) = buildingOwner (shard_at a si) /\
  versioned (shard_at (add_versioned id a) si) = (if decide (shard_no id = si) then {[intra_no id]} ∪ versioned (shard_at a si) else versioned (shard_at a si)).
Proof. unfold add_versioned. rewrite shard_set. case_decide; by subst. Qed.

Lemma linkVersion_spec q prev info st a b a' G hd n : linkVersion q prev info st a = (b, a') ->
  hinv cfg G (hp a) hd n -> q < length (ents (hp a)) -> unlinked (hp a) q ->
  (forall p, prev = Some p -> p < length (ents (hp a)) /\ eO G p = eO G q /\ p <> q) -> (forall r, info = Some r -> r < n) ->
  exists G', hinv cfg G' (hp a') hd n /\ gz G' = gz G /\ gw G' = gw G /\ eO G' = eO G /\
    a' = add_versions (versionActive a' - versionActive a) (with_hp (hp a') a) /\
    length (ents (hp a')) = length (ents (hp a)) /\ same_views (hp a) (hp a') /\ (b = true -> is_Some info) /\
    (forall i, i < length (ents (hp a)) -> i <> q -> load_ver (hp a') i = load_ver (hp a) i) /\
    exists v vr, load_ver (hp a') q = Some v /\ vers (hp a') !! v = Some vr /\ v_info vr = info /\
      (forall i, ents (hp a') !! i = if decide (q = i) then set_ver (Some v) <$> ents (hp a) !! i else ents (hp a) !! i) /\
      ((same_record a prev info = Some v /\ vers (hp a') = vers (hp a) /\ versionActive a' = versionActive a) \/
       (same_record a prev info = None /\ v = length (vers (hp a)) /\ vers (hp a') = vers (hp a) ++ [vr] /\
        v_prev vr = prev /\ versionActive a' = (versionActive a + 1)%Z /\
        v_ts vr = match info with Some _ => if overPreImage a prev then adjOverPreImage else 0%Z | None => st end)).
Proof.
  intros H Hi Hq Hu Hp Hinfo. unfold linkVersion in H. destruct (same_record a prev info) as [pv|] eqn:Hs.
  - injection H as <- <-. destruct (same_record_spec _ _ _ _ Hs) as (p & r & -> & -> & Hl & Hvi). destruct (Hp p eq_refl) as (Hlt & HO & Hne).
    exists G. split; [by eapply relink_inv|]. do 3 (split; [done|]). split; [cbn; by rewrite Z.sub_diag; destruct a; unfold add_versions, with_counts; cbn; rewrite Z.add_0_r|].
    split; [apply store_ver_length|]. split; [apply same_views_ver|]. split; [done|].
    split; [intros i _ Hne'; cbn; rewrite store_ver_load, decide_False; [done|by intros [? _]]|].
    destruct (hi_ver _ _ _ _ _ Hi _ _ Hl) as [Hv _]. destruct (lookup_lt_is_Some_2 _ _ Hv) as [vr Hvr]. exists pv, vr.
    split; [cbn; rewrite store_ver_load, decide_True; done|]. split; [done|]. split; [unfold get_version in Hvi; by rewrite Hvr in Hvi|].
    split; [intros i; apply store_ver_ents|by left].
  - set (st' := match info with Some _ => _ | None => _ end) in H. injection H as <- <-.
    eexists. split; [by apply (link_inv cfg G (hp a) hd n q prev info st')|]. do 3 (split; [done|]).
    split; [cbn; unfold add_versions, with_counts; cbn; by rewrite Z.add_simpl_l|].
    split; [cbn; by rewrite length_alter|]. split; [|split; [intros Hb; by apply bool_decide_eq_true in Hb|split]].
    + eapply same_views_trans; [|apply same_views_ver]. intros i e He. by exists e.
    + intros i _ Hne'. cbn. rewrite store_ver_load, decide_False; [done|by intros [? _]].
    + exists (length (vers (hp a))), (mkVersion prev info st'). split; [cbn; rewrite store_ver_load, decide_True; done|].
      split; [cbn; by rewrite list_lookup_middle|]. split; [done|].
      split; [intros i; apply (store_ver_ents q _ (with_vers (vers (hp a) ++ [mkVersion prev info st']) (hp a)))|]. right. by repeat split.
Qed.

(** ** Old chains *)

Lemma get_version_old a a' v : vers (hp a') !! v = vers (hp a) !! v -> get_version a' v = get_version a v.
Proof. unfold get_version. by intros ->. Qed.

Lemma superseded_ext a a' vr : recs_ext (mv a) (mv a') -> (forall r, v_info vr = Some r -> r < length (recs (mv a))) ->
  supersededAt a' vr = supersededAt a vr.
Proof. intros He Hr. unfold supersededAt, stamp_at. destruct (v_info vr) as [r|]; [|done]. apply recs_ext_ts; auto. Qed.

Lemma overPreImage_ext G a a' hd oe : hinv cfg G (hp a) hd (length (recs (mv a))) ->
  (forall i, i < length (ents (hp a)) -> load_ver (hp a') i = load_ver (hp a) i) -> vers (hp a') = vers (hp a) ->
  recs_ext (mv a) (mv a') -> (forall e, oe = Some e -> e < length (ents (hp a))) -> overPreImage a' oe = overPreImage a oe.
Proof.
  intros Hi Hl Hv He Ho. unfold overPreImage. rewrite !overPreImage_chain. fold (ch a' oe). fold (ch a oe).
  rewrite (ch_frame cfg G a a' hd (length (recs (mv a))) oe) by (done || by rewrite Hv).
  destruct (chain_ok cfg G (hp a) hd (length (recs (mv a))) (fuel_of a) oe (from_option (eO G) 0%Z oe) Hi) as [Hc _].
  { intros e ->. split; [by apply Ho|done]. }
  fold (ch a oe) in Hc. apply find_ext. eapply Forall_impl; [exact Hc|]. intros x Hx.
  assert (Hs : supersededAt a' x.2 = supersededAt a x.2) by (apply superseded_ext; [done|apply Hx]).
  unfold not_aborted. by rewrite Hs.
Qed.

Lemma same_record_ext a a' prev info : (forall p, prev = Some p -> load_ver (hp a') p = load_ver (hp a) p) -> vers (hp a') = vers (hp a) ->
  same_record a' prev info = same_record a prev info.
Proof.
  intros Hl Hv. unfold same_record. destruct info; [|done]. destruct prev as [p|]; [|done]. rewrite Hl by done.
  destruct (load_ver (hp a) p); [|done]. unfold get_version. by rewrite Hv.
Qed.

(** ** The entry with its version *)

Lemma alloc_entry_eq (e : adjEntry) a : alloc_entry e a = (length (ents (hp a)), with_hp (with_ents (ents (hp a) ++ [e]) (hp a)) a).
Proof. done. Qed.

Lemma empty_ok : entry_ok cfg (empty_entry (A := A)).
Proof. split; cbn; [by destruct (Weightless cfg)|by intros []..|done]. Qed.

(** What the write found as the current entry of [id]. *)
Definition prev_ok G h (id : Z) prev oe : Prop := forall p, prev = Some p -> p < length (ents h) /\ eO G p = id /\ oe <> Some p.

(** A built entry that nothing leads to yet. *)
Definition fresh_entry G h (id : Z) oe : Prop := forall q, oe = Some q ->
  eO G q = id /\ unlinked h q /\ exists e, ents h !! q = Some e /\ entry_tight G e /\ ver e = None.

Lemma link_entry_spec G id base oe tx ts a q a' : versioning cfg = true ->
  link_entry cfg id base oe tx ts a = (q, a') ->
  hinv cfg G (hp a) (drop_head id (loadEntry a)) (length (recs (mv a))) -> recs_ok (mv a) ->
  slot_at a base (intra_no id) = loadEntry a id -> prev_ok G (hp a) id (loadEntry a id) oe -> fresh_entry G (hp a) id oe ->
  (oe = None -> loadEntry a id <> None) ->
  exists p G', q = Some p /\ hinv cfg G' (hp a') (drop_head id (loadEntry a)) (length (recs (mv a'))) /\ recs_ok (mv a') /\
    recs_ext (mv a) (mv a') /\ eO G' p = id /\ (exists e, ents (hp a') !! p = Some e /\ entry_tight G' e) /\
    framed a a' /\ same_views (hp a) (hp a') /\ viewOf (hp a') (Some p) = viewOf (hp a) oe /\
    linked tx ts (loadEntry a id) p a a' /\ (oe = None -> p = length (ents (hp a))) /\ (oe <> None -> oe = Some p) /\
    (forall si, versioned (shard_at a' si) = if decide (shard_no id = si) then {[intra_no id]} ∪ versioned (shard_at a si) else versioned (shard_at a si)).
Proof.
  intros Hver H Hi Hok Hbase Hprev Hfresh Hne. unfold link_entry in H. rewrite Hver in H. cbn [negb] in H. rewrite Hbase in H.
  rewrite decide_False in H.
  2: { intros Heq. destruct oe as [q0|]; [by destruct (Hprev q0 Heq) as (_ & _ & [])|by apply Hne]. }
  set (al := match oe with Some e => (e, a) | None => _ end) in H.
  (* the entry, old or new, over a heap with the same chains *)
  assert (Hal : exists p G1 a1, al = (p, a1) /\ hinv cfg G1 (hp a1) (drop_head id (loadEntry a)) (length (recs (mv a))) /\
     a1 = with_hp (hp a1) a /\ eO G1 p = id /\ unlinked (hp a1) p /\ (exists e, ents (hp a1) !! p = Some e /\ entry_tight G1 e /\ ver e = None) /\
     length (ents (hp a)) <= length (ents (hp a1)) /\ same_views (hp a) (hp a1) /\ viewOf (hp a1) (Some p) = viewOf (hp a) oe /\
     prev_ok G1 (hp a1) id (loadEntry a id) (Some p) /\ (forall i, i < length (ents (hp a)) -> load_ver (hp a1) i = load_ver (hp a) i) /\
     vers (hp a1) = vers (hp a) /\ (oe = None -> p = length (ents (hp a))) /\ (oe <> None -> oe = Some p)).
  { subst al. destruct oe as [p|].
    - destruct (Hfresh p eq_refl) as (HO & Hu & e & He & Ht & Hv). exists p, G, a. split; [done|]. split; [done|]. split; [by destruct a|].
      split; [done|]. split; [done|]. split; [by exists e|]. split; [done|]. split; [apply same_views_refl|].
      split; [done|]. split; [exact Hprev|]. done.
    - rewrite alloc_entry_eq. set (h1 := with_ents _ _). set (G1 := mkGhosts (gz G) (gw G) (<[length (ents (hp a)) := id]> (eO G)) (vO G)).
      destruct (alloc_inv cfg id G (hp a) (drop_head id (loadEntry a)) (length (recs (mv a))) G1 h1 empty_entry) as (H1 & H2 & H3).
      + done.
      + split; try done; apply extends_refl.
      + apply empty_ok.
      + by split.
      + done.
      + exists (length (ents (hp a))), G1, (with_hp h1 a). split; [done|].
        split; [eapply hinv_heads; [exact H1|]; unfold drop_head; intros id' i _; by case_decide|].
        split; [done|]. split; [cbn; by rewrite fn_insert_eq|]. split; [done|]. assert (He : ents h1 !! length (ents (hp a)) = Some empty_entry) by (cbn; by rewrite list_lookup_middle).
        split; [exists empty_entry; split; [done|]; split; [by split|done]|]. split; [cbn; rewrite length_app; lia|].
        split; [done|]. split; [unfold viewOf; cbn [mbind option_bind hp with_hp]; by rewrite He|].
        split. { intros p Hp. destruct (Hprev p Hp) as (? & ? & _). split; [cbn; rewrite length_app; lia|]. cbn. rewrite fn_insert_dec, decide_False by lia. split; [done|intros [= Hx]; lia]. }
        split; [intros i Hlt; unfold load_ver; cbn; by rewrite lookup_app_l|]. split; [done|]. split; [done|]. done. }
  clearbody al. destruct Hal as (p & G1 & a1 & -> & Hi1 & Ha1 & HO & Hu & (e & He & Ht & Hve) & Hlen & Hsv & Hview & Hprev1 & Hld & Hvs & Hn1 & Hn2).
  assert (Hmv1 : mv a1 = mv a) by (by rewrite Ha1).
  destruct (versionStamp cfg tx ts a1) as [[info st] a2] eqn:Hst.
  destruct (versionStamp_spec tx ts a1 info st a2 Hst) as (Ha2 & He2 & Hok2 & Hinfo); [by rewrite Hmv1|]. rewrite Hmv1 in He2.
  pose proof (versionStamp_frame tx ts a _ info st a2 ltac:(done) Hst) as Hst'.
  assert (Hhp2 : hp a2 = hp a1) by (by rewrite Ha2).
  destruct (linkVersion p (loadEntry a id) info st a2) as [b a3] eqn:Hlv.
  destruct (linkVersion_spec p (loadEntry a id) info st a2 b a3 G1 (drop_head id (loadEntry a)) (length (recs (mv a2))) Hlv)
    as (G' & Hi3 & Hgz & Hgw & HeO & Ha3 & Hlen3 & Hsv3 & Hb & Hold3 & v & vr & Hlp & Hvr & Hvi & Hents & Hcase).
  { rewrite Hhp2. eapply hinv_recs; [exact Hi1|]. by apply recs_ext_len. }
  { rewrite Hhp2. by eapply lookup_lt_Some. }
  { by rewrite Hhp2. }
  { rewrite Hhp2. intros p0 Hp0. destruct (Hprev1 p0 Hp0) as (? & ? & Hx). split; [done|]. split; [congruence|]. intros ->. by apply Hx. }
  { done. }
  rewrite Hhp2 in *. clear Hhp2.
  assert (Hmv3 : mv a3 = mv a2) by (by rewrite Ha3).
  set (a4 := if b && Tx_Valid tx then _ else a3) in H. injection H as <- <-.
  assert (Ha4 : hp a4 = hp a3 /\ arrs a4 = arrs a3 /\ shards a4 = shards a3 /\ rv a4 = rv a3 /\ size a4 = size a3 /\ versionActive a4 = versionActive a3 /\
    handleSeq a4 = handleSeq a3 /\ bulkOwner a4 = bulkOwner a3 /\ recs (mv a4) = recs (mv a3) /\ clocked (mv a4) = clocked (mv a3) /\ recs_ok (mv a4) /\ (b = false -> mv a4 = mv a3)).
  { subst a4. destruct (b && Tx_Valid tx) eqn:Hbt; [|split_and!; try done; by rewrite Hmv3]. apply andb_true_iff in Hbt as [-> Htx].
    destruct tx as [i|]; [|done]. cbn. split_and!; try done; rewrite ?Hmv3; first [done|by apply with_state_ok]. }
  clearbody a4. destruct Ha4 as (Hh4 & Harr4 & Hsh4 & Hrv4 & Hsz4 & Hva4 & Hhs4 & Hbo4 & Hr4 & Hcl4 & Hok4 & Hmv4).
  exists p, G'. split; [done|]. change (hp (add_versioned id a4)) with (hp a4). change (mv (add_versioned id a4)) with (mv a4).
  rewrite Hh4, Hr4, Hmv3. split; [done|]. split; [done|]. split; [destruct He2 as [Hc2 [l Hl]]; split; [congruence|]; exists l; by rewrite Hr4, Hmv3|]. split; [congruence|].
  assert (He3 : ents (hp a3) !! p = Some (set_ver (Some v) e)) by (rewrite Hents, decide_True by done; by rewrite He).
  split; [exists (set_ver (Some v) e); split; [done|]; destruct Ht; split; rewrite ?Hgz, ?Hgw; assumption|].
  assert (Hsh : shards a4 = shards a) by (rewrite Hsh4, Ha3, Ha2, Ha1; done).
  assert (Hsat : forall si, shard_at a4 si = shard_at a si) by (intros si; unfold shard_at; by rewrite Hsh).
  split.
  { split; try (intros si; destruct (add_versioned_shard id a4 si) as (E1 & E2 & E3 & _); rewrite ?E1, ?E2, ?E3; by rewrite Hsat).
    - change (arrs (add_versioned id a4)) with (arrs a4). rewrite Harr4, Ha3, Ha2, Ha1. done.
    - change (rv (add_versioned id a4)) with (rv a4). rewrite Hrv4, Ha3, Ha2, Ha1. done.
    - change (size (add_versioned id a4)) with (size a4). rewrite Hsz4, Ha3, Ha2, Ha1. done.
    - change (handleSeq (add_versioned id a4)) with (handleSeq a4). rewrite Hhs4, Ha3, Ha2, Ha1. done.
    - change (bulkOwner (add_versioned id a4)) with (bulkOwner a4). rewrite Hbo4, Ha3, Ha2, Ha1. done.
    - change (hp (add_versioned id a4)) with (hp a4). rewrite Hh4, Hlen3. done. }
  split; [by eapply same_views_trans|].
  split. { rewrite <- Hview. apply same_views_viewOf; [done|]. intros ? [= <-]. by eapply lookup_lt_Some. }
  split.
  { split.
    - exists info, st, (with_mv (mv a2) a), v, vr. change (hp (add_versioned id a4)) with (hp a4). change (mv (add_versioned id a4)) with (mv a4).
      change (versionActive (add_versioned id a4)) with (versionActive a4). rewrite Hh4, Hva4. split; [done|]. split; [done|]. split; [done|]. split; [done|].
      assert (Hva : versionActive a2 = versionActive a) by (by rewrite Ha2, Ha1).
      assert (Hsr : same_record a2 (loadEntry a id) info = same_record a (loadEntry a id) info).
      { apply same_record_ext; [|by rewrite Ha2]. intros p0 Hp0. rewrite Ha2. cbn. apply Hld. by destruct (Hprev p0 Hp0). }
      assert (Hop : overPreImage a2 (loadEntry a id) = overPreImage a (loadEntry a id)).
      { eapply (overPreImage_ext G a a2); [exact Hi|..].
        - intros i Hlt. rewrite Ha2. by apply Hld.
        - by rewrite Ha2.
        - done.
        - intros p0 Hp0. by destruct (Hprev p0 Hp0). }
      rewrite <- Hsr, <- Hop, <- Hva, <- Hvs. cbn [mv with_mv]. rewrite <- Hmv3.
      destruct Hcase as [(? & ? & ?)|(? & ? & ? & ? & ? & ?)]; [left|right; by repeat split].
      split; [done|]. split; [done|]. split; [done|]. apply Hmv4. destruct b; [|done]. exfalso.
      unfold linkVersion in Hlv. by rewrite H in Hlv.
    - intros i Hlt Hne'. change (hp (add_versioned id a4)) with (hp a4). rewrite Hh4, Hold3; [by apply Hld|lia|done].
    - intros i0 s0 a5 H5. rewrite Hst' in H5. injection H5 as <- <- <-. change (mv (add_versioned id a4)) with (mv a4). cbn. congruence. }
  split; [done|]. split; [done|]. intros si. destruct (add_versioned_shard id a4 si) as (_ & _ & _ & ->). by rewrite Hsat.
Qed.

(** ** The whole write *)

(** The invariant of a state: of the heap with the current entries as heads, of the slot
    arrays, and of the records' addresses. *)
Record ainv G a : Prop := {
  ai_heap : hinv cfg G (hp a) (loadEntry a) (length (recs (mv a)));
  ai_store : sinv a;
  ai_recs : recs_ok (mv a);
}.

(** What changes in no write. *)
Record same_rest a a' : Prop := {
  sr_rv : rv a' = rv a;
  sr_size : size a' = size a;
  sr_hs : handleSeq a' = handleSeq a;
  sr_bo : bulkOwner a' = bulkOwner a;
  sr_frozen : builders_free a -> keeps_frozen a a' /\ builders_free a';
}.

(** A published write: node [id] now reads [oe], everything else as before. *)
Record wrote (id : Z) oe tx ts a q a' : Prop := {
  wr_load id' : (0 <= id')%Z -> loadEntry a' id' = if decide (id' = id) then q else loadEntry a id';
  wr_views : same_views (hp a) (hp a');
  wr_view : viewOf (hp a') q = viewOf (hp a) oe;
  wr_recs : recs_ext (mv a) (mv a');
  wr_rest : same_rest a a';
  wr_link : if versioning cfg
            then exists p, q = Some p /\ linked tx ts (loadEntry a id) p a a' /\ (oe = None -> p = length (ents (hp a))) /\ (oe <> None -> oe = Some p)
            else q = oe /\ hp a' = hp a /\ mv a' = mv a /\ versionActive a' = versionActive a;
  wr_versioned si : versioned (shard_at a' si) =
    if versioning cfg && bool_decide (shard_no id = si) then {[intra_no id]} ∪ versioned (shard_at a si) else versioned (shard_at a si);
}.

Lemma release_spec owner si a : sinv a ->
  let a1 := set_shard si (release owner (shard_at a si)) a in
  sinv a1 /\ store_only a a1 /\ (forall id, loadEntry a1 id = loadEntry a id) /\ (builders_free a -> keeps_frozen a a1 /\ builders_free a1) /\
  exists first, base_of owner (release owner (shard_at a si)) = (slotsRef (shard_at a1 si), first) /\
    (first = false -> owner <> 0%Z -> is_Some (building (shard_at a1 si))) /\ (owner = 0%Z -> building (shard_at a1 si) = None).
Proof.
  intros Hs a1. set (s := release owner (shard_at a si)) in *.
  assert (Hr : slotsRef s = slotsRef (shard_at a si) /\ versioned s = versioned (shard_at a si) /\
    (forall b, building s = Some b -> building (shard_at a si) = Some b /\ buildingOwner s = buildingOwner (shard_at a si) /\ buildingOwner s = owner)).
  { subst s. unfold release. destruct (building (shard_at a si)) as [b|] eqn:Hb; [|by rewrite Hb].
    destruct (Z.eqb_spec (buildingOwner (shard_at a si)) owner); cbn; [|done]. rewrite Hb. by repeat split. }
  destruct Hr as (Hr & Hv & Hb).
  destruct (reshard_spec si s a Hs Hr) as (H1 & H2 & H3 & _); [intros b Hx; by destruct (Hb b Hx) as (? & ? & _)|].
  assert (Hat : forall sj, shard_at a1 sj = if decide (si = sj) then s else shard_at a sj) by (intros sj; subst a1; by rewrite shard_set).
  split; [done|]. split; [|split; [done|split; [done|]]].
  - split; try done. intros sj. rewrite Hat. case_decide; [by subst|done].
  - assert (Hs1 : shard_at a1 si = s) by (rewrite Hat; by rewrite decide_True). rewrite Hs1. unfold base_of.
    destruct (building s) as [b|] eqn:Hbs.
    + destruct (Hb b eq_refl) as (Hb1 & Hb2 & Hb3). exists false. rewrite Hr, (si_bld _ Hs _ _ Hb1). split; [done|]. split; [done|].
      intros ->. exfalso. eapply (si_own _ Hs); [exact Hb1|congruence].
    + eexists. split; [done|]. split; [|done]. intros Hx Hne. apply Z.eqb_neq in Hne. by rewrite Hne in Hx.
Qed.

Lemma linked_frame tx ts prev q a a' a'' : linked tx ts prev q a a' -> hp a'' = hp a' -> mv a'' = mv a' -> versionActive a'' = versionActive a' ->
  linked tx ts prev q a a''.
Proof. intros [H1 H2 H3] Hh Hm Hv. split; rewrite ?Hh, ?Hm, ?Hv; done. Qed.

Lemma linked_frame_l tx ts prev q a a0 a' : linked tx ts prev q a0 a' -> hp a0 = hp a -> mv a0 = mv a -> versionActive a0 = versionActive a ->
  linked tx ts prev q a a'.
Proof.
  intros [(info & st & a1 & v & vr & Hst & Hl & Hvr & Hvi & Hc) Hold Hrec] Hh Hm Hv.
  assert (Hsr : same_record a prev info = same_record a0 prev info)
    by (apply same_record_ext; [intros; by rewrite Hh|by rewrite Hh]).
  assert (Hop : forall f oe, overPreImage_loop f a oe = overPreImage_loop f a0 oe).
  { intros f. induction f as [|f IH]; intros oe; [done|]. destruct oe as [e|]; [|done]. cbn [overPreImage_loop].
    unfold get_version, supersededAt. rewrite Hh, Hm. destruct (load_ver (hp a) e); [|done]. by rewrite IH. }
  pose proof (versionStamp_frame tx ts a _ info st a1 ltac:(done) Hst) as Hst'.
  split; [|by rewrite <- Hh|intros i0 s0 a3 H3; by apply (versionStamp_frame tx ts a0 a), Hrec in H3]. exists info, st, (with_mv (mv a1) a), v, vr. rewrite <- Hh, <- Hv, Hsr. split; [done|]. split; [done|]. split; [done|]. split; [done|].
  destruct Hc as [(? & ? & ? & ?)|(? & ? & ? & ? & ? & Ht)]; [left|right]; repeat split; try done.
  rewrite Ht. unfold overPreImage, fuel_of. by rewrite Hop, Hh.
Qed.

Lemma framed_frozen a a' : framed a a' -> (builders_free a -> keeps_frozen a a' /\ builders_free a').
Proof.
  intros Hf Hb. assert (Harr : forall r, arr_at a' r = arr_at a r) by (intros r; unfold arr_at; by rewrite (fr_arrs _ _ Hf)).
  split; [intros r Hr _; by rewrite (fr_arrs _ _ Hf), Harr|]. intros si b. rewrite (fr_bld _ _ Hf), Harr. apply Hb.
Qed.

Lemma store_framed a a' : store_only a a' -> rv a' = rv a /\ size a' = size a /\ handleSeq a' = handleSeq a /\ bulkOwner a' = bulkOwner a.
Proof. by intros []. Qed.

Lemma frozen_trans a1 a2 a3 : (builders_free a1 -> keeps_frozen a1 a2 /\ builders_free a2) ->
  (builders_free a2 -> keeps_frozen a2 a3 /\ builders_free a3) -> (builders_free a1 -> keeps_frozen a1 a3 /\ builders_free a3).
Proof. intros H1 H2 Hb. destruct (H1 Hb) as [? Hb2]. destruct (H2 Hb2). split; [by eapply keeps_frozen_trans|done]. Qed.

(** The write of a built entry, or of nil over the current one: published, or refused for
    want of capacity where the node had no entry. *)
Lemma storeEntry_spec G id oe tx ts a r a' : (0 <= id)%Z -> storeEntry cfg id oe tx ts a = (r, a') ->
  directConflictLocked cfg tx id a = None ->
  hinv cfg G (hp a) (drop_head id (loadEntry a)) (length (recs (mv a))) -> sinv a -> recs_ok (mv a) ->
  prev_ok G (hp a) id (loadEntry a id) oe -> fresh_entry G (hp a) id oe -> (oe = None -> loadEntry a id <> None) ->
  exists G' q, ainv G' a' /\
    ((r = None /\ wrote id oe tx ts a q a') \/
     (r = Some ErrShardFull /\ loadEntry a id = None /\ (0 < MaxShardCapacity cfg <= Z.of_nat (intra_no id))%Z /\
      (forall id', loadEntry a' id' = loadEntry a id') /\ same_views (hp a) (hp a') /\ recs_ext (mv a) (mv a') /\ same_rest a a' /\
      (if versioning cfg then exists p, oe = Some p /\ linked tx ts (loadEntry a id) p a a'
       else hp a' = hp a /\ versionActive a' = versionActive a))).
Proof.
  intros Hid H Hc Hi Hs Hok Hprev Hfresh Hne. unfold storeEntry in H. rewrite Hc in H. set (owner := owner_of cfg tx a) in H.
  destruct (release_spec owner (shard_no id) a Hs) as (Hs1 & Hso1 & Hl1 & Hf1 & first & Hbase & Hfst & Hown).
  set (a1 := set_shard (shard_no id) (release owner (shard_at a (shard_no id))) a) in *. rewrite Hbase in H.
  destruct (link_entry cfg id (slotsRef (shard_at a1 (shard_no id))) oe tx ts a1) as [q a2] eqn:Hlk.
  assert (Hslot : slot_at a1 (slotsRef (shard_at a1 (shard_no id))) (intra_no id) = loadEntry a1 id) by done.
  assert (Hmid : exists G2, hinv cfg G2 (hp a2) (drop_head id (loadEntry a)) (length (recs (mv a2))) /\ recs_ok (mv a2) /\ recs_ext (mv a) (mv a2) /\
    framed a1 a2 /\ same_views (hp a) (hp a2) /\ viewOf (hp a2) q = viewOf (hp a) oe /\
    (forall p, q = Some p -> eO G2 p = id /\ exists e, ents (hp a2) !! p = Some e /\ entry_tight G2 e) /\
    (if versioning cfg
     then exists p, q = Some p /\ linked tx ts (loadEntry a id) p a a2 /\ (oe = None -> p = length (ents (hp a))) /\ (oe <> None -> oe = Some p)
     else q = oe /\ hp a2 = hp a /\ mv a2 = mv a /\ versionActive a2 = versionActive a) /\
    (forall si, versioned (shard_at a2 si) =
      if versioning cfg && bool_decide (shard_no id = si) then {[intra_no id]} ∪ versioned (shard_at a si) else versioned (shard_at a si))).
  { destruct (versioning cfg) eqn:Hver.
    - destruct (link_entry_spec G id _ oe tx ts a1 q a2 Hver Hlk) as (p & G2 & -> & Hi2 & Hok2 & He2 & HO2 & Hp2 & Hf2 & Hsv2 & Hv2 & Hln2 & Hn1 & Hn2 & Hvd2); try done.
      { eapply hinv_heads; [exact Hi|]. intros id' i _. unfold drop_head. by rewrite Hl1. }
      { by rewrite Hl1. }
      { by rewrite Hl1. }
      rewrite Hl1 in Hln2. exists G2. split; [eapply hinv_heads; [exact Hi2|]; intros id' i _; unfold drop_head; by rewrite Hl1|].
      do 5 (split; [done|]). split; [intros ? [= <-]; done|]. split; [exists p; split; [done|]; split; [by eapply linked_frame_l|done]|].
      intros si. rewrite Hvd2, (so_versioned _ _ Hso1). cbn [andb]. by repeat case_decide; case_bool_decide.
    - unfold link_entry in Hlk. rewrite Hver in Hlk. injection Hlk as <- <-. exists G. split; [done|]. split; [done|]. split; [apply recs_ext_refl|].
      split; [by split|]. split; [apply same_views_refl|]. split; [done|].
      split; [intros p Hp; destruct (Hfresh p Hp) as (? & _ & e & ? & ? & _); eauto|]. split; [done|]. intros si. apply Hso1. }
  destruct Hmid as (G2 & Hi2 & Hok2 & He2 & Hf2 & Hsv2 & Hv2 & Hq2 & Hln2 & Hvd2).
  pose proof (framed_sinv _ _ Hf2 Hs1) as Hs2.
  rewrite <- (fr_ref _ _ Hf2) in H.
  destruct (put_entry_spec cfg id owner first q a2 r a') as [(-> & Hs3 & Hso3 & Hfr3 & Hl3)|(-> & -> & Hl3 & Hcap)]; try done.
  { intros p Hp. destruct (Hq2 p Hp) as (_ & e & He & _). by eapply lookup_lt_Some. }
  { intros H0. rewrite (fr_bld _ _ Hf2). by apply Hown. }
  { intros H0 H1. rewrite (fr_bld _ _ Hf2). by apply Hfst. }
  - exists G2, q. assert (Hl2 : forall id', loadEntry a2 id' = loadEntry a id') by (intros id'; by rewrite (framed_load _ _ _ Hf2), Hl1).
    split.
    + split; [|done|by rewrite (so_mv _ _ Hso3)]. rewrite (so_hp _ _ Hso3), (so_mv _ _ Hso3). destruct q as [p|].
      * destruct (Hq2 p eq_refl) as (HO & e & He & Ht). eapply hinv_heads; [eapply publish_inv; [exact Hi2|done..]|].
        intros id' i Hid'. rewrite Hl3 by done. rewrite fn_insert_dec, Hl2. by repeat case_decide.
      * eapply hinv_heads; [exact Hi2|]. intros id' i Hid'. rewrite Hl3 by done. unfold drop_head. rewrite Hl2. by case_decide.
    + left. split; [done|]. split.
      * intros id' Hid'. rewrite Hl3 by done. by rewrite Hl2.
      * by rewrite (so_hp _ _ Hso3).
      * by rewrite (so_hp _ _ Hso3).
      * by rewrite (so_mv _ _ Hso3).
      * destruct (store_framed _ _ Hso1) as (E1 & E2 & E3 & E4), (store_framed _ _ Hso3) as (F1 & F2 & F3 & F4). destruct Hf2.
        split; try congruence. apply (frozen_trans a a1); [done|]. apply (frozen_trans a1 a2); [by apply framed_frozen|done].
      * destruct (versioning cfg).
        -- destruct Hln2 as (p & ? & ? & ? & ?). exists p. split; [done|]. split; [|done]. eapply linked_frame; [done|apply Hso3..].
        -- destruct Hso3. destruct Hln2 as (? & ? & ? & ?). repeat split; congruence.
      * intros si. by rewrite (so_versioned _ _ Hso3).
  - exists G2, None. assert (Hl2 : forall id', loadEntry a2 id' = loadEntry a id') by (intros id'; by rewrite (framed_load _ _ _ Hf2), Hl1).
    rewrite Hl2 in Hl3. split.
    + split; [|done..]. eapply hinv_heads; [exact Hi2|]. intros id' i Hid'. rewrite Hl2. unfold drop_head. case_decide; [subst; by rewrite Hl3|done].
    + right. do 6 (split; [done|]). split.
      { destruct (store_framed _ _ Hso1) as (E1 & E2 & E3 & E4). destruct Hf2. split; try congruence.
        apply (frozen_trans a a1); [done|by apply framed_frozen]. }
      destruct (versioning cfg).
      * destruct Hln2 as (p & _ & Hlk2 & _ & Hp2). exists p. split; [|done]. apply Hp2. intros ->. by apply Hne.
      * by destruct Hln2 as (_ & ? & _ & ?).
Qed.
End store.
