(* ===== verification/AdjWrite.v ===== *)
(** * A write, as its effect on what readers see

    [write id v]: node [id] now reads [v]; every entry reads as before, every other node's
    current entry is the same, and with versioning the new entry leads to the old one. *)

From Stdlib Require Import ZArith Lia.
From stdpp Require Import list gmap.
From S2P Require Import Prelude Clock WriteStamp AdjHeap AdjReverse AdjList AdjOps AdjMaint AdjHeapFacts AdjHeapInv AdjBuild AdjStoreEntry.

Section write.
Context {W A P : Type} `{!AuxColumn A P} (cfg : Config A P).
Abbreviation adjEntry := (adjEntry A).
Abbreviation heap := (heap W A).
Abbreviation AdjList := (AdjList W A).
Implicit Types (h : heap) (a : AdjList) (G : ghost) (v : EntryView W A).

(** What node [id] reads as now. *)
Definition view_of a (id : Z) : EntryView W A := viewOf (hp a) (loadEntry a id).

Record write (id : Z) v (tx : option nat) (ts : Z) a (q : option nat) a' : Prop := {
  w_load id' : (0 <= id')%Z -> loadEntry a' id' = if decide (id' = id) then q else loadEntry a id';
  w_views : same_views (hp a) (hp a');
  w_view : viewOf (hp a') q = v;
  w_recs : recs_ext (mv a) (mv a');
  w_rest : same_rest a a';
  w_link : if versioning cfg
           then exists p, q = Some p /\ length (ents (hp a)) <= p /\ linked cfg tx ts (loadEntry a id) p a a'
           else vers (hp a') = vers (hp a) /\ mv a' = mv a /\ versionActive a' = versionActive a /\
                (forall i, i < length (ents (hp a)) -> load_ver (hp a') i = load_ver (hp a) i) /\ (forall p, q = Some p -> load_ver (hp a') p = None);
  w_versioned si : versioned (shard_at a' si) =
    if versioning cfg && bool_decide (shard_no id = si) then {[intra_no id]} ∪ versioned (shard_at a si) else versioned (shard_at a si);
}.

(** A refusal for want of capacity: the node had no entry, and nothing reads differently. *)
Record full (id : Z) (tx : option nat) (ts : Z) a a' : Prop := {
  fu_load id' : loadEntry a' id' = loadEntry a id';
  fu_none : loadEntry a id = None;
  fu_cap : (0 < MaxShardCapacity cfg <= Z.of_nat (intra_no id))%Z;
  fu_views : same_views (hp a) (hp a');
  fu_recs : recs_ext (mv a) (mv a');
  fu_rest : same_rest a a';
  fu_link : if versioning cfg then exists p, length (ents (hp a)) <= p /\ linked cfg tx ts None p a a'
            else vers (hp a') = vers (hp a) /\ versionActive a' = versionActive a /\
                 (forall i, i < length (ents (hp a)) -> load_ver (hp a') i = load_ver (hp a) i);
}.

Lemma full_old id tx ts a a' i : full id tx ts a a' -> i < length (ents (hp a)) -> load_ver (hp a') i = load_ver (hp a) i.
Proof.
  intros Hf Hi. pose proof (fu_link _ _ _ _ _ Hf) as H. destruct (versioning cfg); [|by apply H].
  destruct H as (p & Hp & Hlk). apply (lk_old _ _ _ _ _ _ _ Hlk); [done|lia].
Qed.

Lemma linked_vers tx ts prev p a a' : linked cfg tx ts prev p a a' -> exists l, vers (hp a') = vers (hp a) ++ l.
Proof.
  intros [(info & st & a3 & v & vr & _ & _ & _ & _ & Hcs) _ _]. destruct Hcs as [(_ & -> & _)|(_ & _ & -> & _)]; [exists []; by rewrite app_nil_r|by eexists].
Qed.

Lemma full_vers id tx ts a a' : full id tx ts a a' -> exists l, vers (hp a') = vers (hp a) ++ l.
Proof.
  intros Hf. pose proof (fu_link _ _ _ _ _ Hf) as H. destruct (versioning cfg); [|destruct H as [-> _]; exists []; by rewrite app_nil_r].
  destruct H as (p & _ & Hlk). by eapply linked_vers.
Qed.

Lemma view_of_length G a id : ainv cfg G a -> (0 <= id)%Z -> forall e, loadEntry a id = Some e -> e < length (ents (hp a)).
Proof. intros [Hi _ _] Hid e He. destruct (hi_head _ _ _ _ _ Hi _ _ Hid He) as (_ & e0 & H & _). by eapply lookup_lt_Some. Qed.

(** The views of every node after a write. *)
Lemma write_view G id v tx ts a q a' id' : ainv cfg G a -> write id v tx ts a q a' -> (0 <= id')%Z ->
  view_of a' id' = if decide (id' = id) then v else view_of a id'.
Proof.
  intros Hi Hw Hid. unfold view_of at 1. rewrite (w_load _ _ _ _ _ _ _ Hw) by done. case_decide; [apply (w_view _ _ _ _ _ _ _ Hw)|].
  apply same_views_viewOf; [apply (w_views _ _ _ _ _ _ _ Hw)|by eapply view_of_length].
Qed.

Lemma full_view G id tx ts a a' id' : ainv cfg G a -> full id tx ts a a' -> (0 <= id')%Z -> view_of a' id' = view_of a id'.
Proof.
  intros Hi Hf Hid. unfold view_of. rewrite (fu_load _ _ _ _ _ Hf). apply same_views_viewOf; [apply Hf|by eapply view_of_length].
Qed.

Lemma head_prev G a id oe : ainv cfg G a -> (0 <= id)%Z -> (forall p, oe = Some p -> length (ents (hp a)) <= p) ->
  prev_ok G (hp a) id (loadEntry a id) oe.
Proof.
  intros Hi Hid Ho p Hp. destruct (hi_head _ _ _ _ _ (ai_heap _ _ _ Hi) _ _ Hid Hp) as (HO & e & He & _).
  split; [by eapply lookup_lt_Some|]. split; [done|]. intros Hx. apply Ho in Hx. apply lookup_lt_Some in He. lia.
Qed.

(** A link over an extended heap is a link over the heap. *)
Lemma linked_ext G tx ts prev p a a1 a' : ainv cfg G a -> linked cfg tx ts prev p a1 a' ->
  (forall q, prev = Some q -> q < length (ents (hp a))) ->
  (forall i, i < length (ents (hp a)) -> load_ver (hp a1) i = load_ver (hp a) i) -> vers (hp a1) = vers (hp a) -> mv a1 = mv a ->
  versionActive a1 = versionActive a -> length (ents (hp a)) <= length (ents (hp a1)) -> linked cfg tx ts prev p a a'.
Proof.
  intros Hi [(info & st & a2 & v & vr & Hst & Hl & Hvr & Hvi & Hc) Hold Hrec] Hp Hlv Hv Hm Hva Hlen.
  assert (Hsr : same_record a1 prev info = same_record a prev info) by (apply same_record_ext; auto).
  assert (Hop : overPreImage a1 prev = overPreImage a prev).
  { eapply overPreImage_ext; [apply Hi|done..| |done]. rewrite Hm. apply recs_ext_refl. }
  pose proof (versionStamp_frame cfg tx ts a a1 info st a2 Hm Hst) as Hst'.
  split; [|intros i Hlt Hne; rewrite Hold by (done || lia); by apply Hlv|intros i0 s0 a3 H3; by apply (versionStamp_frame cfg tx ts a1 a), Hrec in H3].
  exists info, st, (with_mv (mv a2) a), v, vr. rewrite <- Hsr, <- Hop, <- Hv, <- Hva. by repeat split.
Qed.

(** ** A built entry *)

Lemma store_new_spec G id a e h' G' tx ts : ainv cfg G a -> (0 <= id)%Z -> directConflictLocked cfg tx id a = None ->
  heap_ext id G (hp a) G' (with_ents (ents h' ++ [e]) h') e -> entry_ok cfg e ->
  entry_fits G' (with_ents (ents h' ++ [e]) h') id e -> entry_tight G' e -> ver e = None ->
  exists r a' G2, store_new cfg id e h' tx ts a = (r, a') /\ ainv cfg G2 a' /\
    ((r = None /\ exists q, write id (entry_view h' e) tx ts a q a') \/ (r = Some ErrShardFull /\ full id tx ts a a')).
Proof.
  intros Hi Hid Hc Hext Hok Hfit Ht Hv. set (h2 := with_ents (ents h' ++ [e]) h') in *. set (n := length (ents (hp a))).
  assert (Hl2 : length (ents h') = n).
  { assert (HL : length (ents h2) = length (ents (hp a) ++ [e])) by (by rewrite (he_ents _ _ _ _ _ _ Hext)). subst h2. cbn in HL. rewrite !length_app in HL. cbn in HL. lia. }
  destruct (alloc_inv cfg id G (hp a) (loadEntry a) (length (recs (mv a))) G' h2 e) as (Hi2 & Hsv & Hu); [apply Hi|done..|by rewrite Hv|].
  fold n in Hu. unfold store_new. rewrite alloc_entry_eq. cbn [hp with_hp]. fold h2. rewrite Hl2. change (with_hp h2 (with_hp h' a)) with (with_hp h2 a).
  set (a1 := with_hp h2 a). destruct (storeEntry cfg id (Some n) tx ts a1) as [r a'] eqn:Hst.
  assert (Hlv : forall i, i < length (ents (hp a)) -> load_ver (hp a1) i = load_ver (hp a) i).
  { intros i Hlt. unfold load_ver. change (ents (hp a1)) with (ents h2). rewrite (he_ents _ _ _ _ _ _ Hext). by rewrite lookup_app_l. }
  assert (Hlen : length (ents (hp a1)) = S n) by (change (hp a1) with h2; rewrite (he_ents _ _ _ _ _ _ Hext), length_app; cbn; lia).
  assert (Hen : ents h2 !! n = Some e) by (rewrite (he_ents _ _ _ _ _ _ Hext); unfold n; by rewrite list_lookup_middle).
  assert (Hvs : vers (hp a1) = vers (hp a)) by apply (he_vers _ _ _ _ _ _ Hext).
  assert (HeO : forall i, i < n -> eO G' i = eO G i) by (intros i Hlt; rewrite (he_eO _ _ _ _ _ _ Hext), fn_insert_dec, decide_False; [done|unfold n in *; lia]).
  destruct (storeEntry_spec cfg G' id (Some n) tx ts a1 r a' Hid Hst) as (G2 & q & Hi' & Hcase).
  - unfold directConflictLocked in Hc |- *. destruct (negb (versioning cfg && has_stamp cfg)); [done|]. change (loadEntry a1 id) with (loadEntry a id).
    destruct (loadEntry a id) as [e0|] eqn:He0; [|done]. rewrite Hlv by (by eapply view_of_length). unfold get_version. by rewrite Hvs.
  - done.
  - destruct (ai_store _ _ _ Hi). split; try done. intros r0 l i e0 Hr Hs. rewrite Hlen. eapply Nat.lt_lt_succ_r. by eapply si_ptr.
  - apply Hi.
  - intros p Hp. destruct (head_prev G a id None Hi Hid ltac:(done) p Hp) as (H1 & H2 & _). split; [rewrite Hlen; unfold n; lia|].
    split; [by rewrite HeO|]. intros [= Hx]. unfold n in Hx. lia.
  - intros p [= <-]. split; [by rewrite (he_eO _ _ _ _ _ _ Hext), fn_insert_eq|]. split; [done|]. by exists e.
  - done.
  - exists r, a', G2. split; [done|]. split; [done|]. destruct Hcase as [(-> & Hw)|(-> & Hn & Hcap & Hld & Hv' & Hr & Hrest & Hlnk)].
    + left. split; [done|]. exists q. destruct Hw. split; try done.
      * by eapply same_views_trans.
      * rewrite wr_view. unfold viewOf. cbn [mbind option_bind]. change (hp a1) with h2. by rewrite Hen.
      * by destruct wr_rest.
      * destruct (versioning cfg).
        -- destruct wr_link as (p & -> & Hlk & _ & Hp). specialize (Hp ltac:(done)). injection Hp as <-. exists n. split; [done|]. split; [done|].
           eapply (linked_ext G tx ts _ _ a a1); [done|done| |done|done|done|done|lia]. by eapply view_of_length.
        -- destruct wr_link as (-> & E1 & E2 & E3). rewrite E1. split; [done|]. split; [done|]. split; [done|]. split; [done|].
           intros p [= <-]. change (hp a1) with h2. by rewrite (load_ver_at _ _ _ Hen).
    + right. split; [done|]. split; try done.
      * by eapply same_views_trans.
      * by destruct Hrest.
      * destruct (versioning cfg).
        -- destruct Hlnk as (p & [= <-] & Hlk). exists n. split; [done|]. rewrite Hn in Hlk.
           eapply (linked_ext G tx ts _ _ a a1); [done|done|done|done|done|done|done|lia].
        -- destruct Hlnk as [E1 E2]. rewrite E1, E2. done.
Qed.

(** ** Nil over the current entry *)

Lemma store_nil_spec G id a tx ts : ainv cfg G a -> (0 <= id)%Z -> directConflictLocked cfg tx id a = None -> loadEntry a id <> None ->
  exists a' G2 q, storeEntry cfg id None tx ts a = (None, a') /\ ainv cfg G2 a' /\ write id zero_view tx ts a q a'.
Proof.
  intros Hi Hid Hc Hne. destruct (storeEntry cfg id None tx ts a) as [r a'] eqn:Hst.
  destruct (storeEntry_spec cfg G id None tx ts a r a' Hid Hst) as (G2 & q & Hi' & Hcase); try done.
  - eapply hinv_heads; [apply Hi|]. unfold drop_head. intros id' i _. by case_decide.
  - apply Hi.
  - apply Hi.
  - by apply (head_prev G a id None Hi Hid).
  - destruct Hcase as [(-> & Hw)|(-> & Hn & _)]; [|done]. exists a', G2, q. split; [done|]. split; [done|]. destruct Hw. split; try done.
    destruct (versioning cfg).
    + destruct wr_link as (p & -> & Hlk & Hp & _). exists p. split; [done|]. split; [by rewrite Hp|done].
    + destruct wr_link as (-> & E1 & E2 & E3). by rewrite E1.
Qed.
End write.

(** * What the built entries read as

    The append, the excision, the relabelled and the trimmed entry, each a built entry
    whose view is a function of the current one's; no construction panics. *)

Section entries.
Context {W A P : Type} (zeroW : W) `{!AuxColumn A P} `{!AuxLaws A P} (cfg : Config A P).
Abbreviation adjEntry := (adjEntry A).
Abbreviation heap := (heap W A).
Abbreviation AdjList := (AdjList W A).
Implicit Types (h : heap) (a : AdjList) (e : adjEntry) (G : ghost) (v : EntryView W A).

(** What the registered constructor promises: a column whose last slot alone is present. *)
Definition factory_ok : Prop := forall f n p, auxFactory cfg = Some f -> aux_slots (f (S n) p) = replicate n None ++ [Some p].
Context (Hfac : factory_ok).

(** ** The views *)

Definition append_opt (has : bool) (x : Z) (n : nat) (o : option (list Z)) : option (list Z) :=
  if has || bool_decide (is_Some o) then Some (default (replicate n 0%Z) o ++ [x]) else None.

Definition append_view v (dst : Z) (w : W) (ex : edgeExtra P) : EntryView W A :=
  mkView (Neighbours v ++ [dst]) (if Weightless cfg then [] else Weights v ++ [w])
    (append_opt (hasHandle ex) (handle ex) (length (Neighbours v)) (Handles v))
    (append_opt (hasLabel ex) (label ex) (length (Neighbours v)) (Labels v))
    (growAuxEx cfg (Aux v) (length (Neighbours v)) ex).

Definition remove_view (idx : nat) v : EntryView W A :=
  mkView (delete idx (Neighbours v)) (delete idx (Weights v)) (option_map (delete idx) (Handles v)) (option_map (delete idx) (Labels v))
    (CompactSlot idx <$> Aux v).

Definition label_view (newL : list Z) v : EntryView W A := mkView (Neighbours v) (Weights v) (Handles v) (Some newL) (Aux v).
Definition aux_view (newAux : option A) v : EntryView W A := mkView (Neighbours v) (Weights v) (Handles v) (Labels v) newAux.

(** Columns in step: what every view of a reachable state satisfies. *)
Record view_ok v : Prop := {
  vo_ws : length (Weights v) = if Weightless cfg then 0 else length (Neighbours v);
  vo_hs l : Handles v = Some l -> length l = length (Neighbours v);
  vo_ls l : Labels v = Some l -> length l = length (Neighbours v);
  vo_aux x : Aux v = Some x -> length (aux_slots x) = length (Neighbours v);
}.

Lemma opt_contents_eq (m : mem Z) s : opt_contents m s = if not_nil s then Some (contents m s) else None.
Proof. by destruct s. Qed.

Lemma fits_len {T} g key (m : mem T) s : fits g key m s -> slen s = length (contents m s).
Proof. intros [Hv _]. symmetry. by apply contents_length. Qed.

Lemma entry_view_ok G h id e : entry_ok cfg e -> entry_fits G h id e -> view_ok (entry_view h e).
Proof.
  intros [Hw Hh Hl Ha] [F1 F2 F3 F4]. apply fits_len in F1, F2, F3, F4. split; cbn.
  - destruct (Weightless cfg); [by rewrite Hw|]. destruct Hw as [Hw _]. congruence.
  - intros l. rewrite opt_contents_eq. destruct (not_nil (handles e)) eqn:He; [|done]. intros [= <-]. rewrite <- F1, <- F2. apply Hh. by destruct (handles e).
  - intros l. rewrite opt_contents_eq. destruct (not_nil (labels e)) eqn:He; [|done]. intros [= <-]. rewrite <- F1, <- F3. apply Hl. by destruct (labels e).
  - intros x Hx. rewrite <- F1. by apply Ha.
Qed.

Lemma zero_view_ok : view_ok zero_view.
Proof. split; try done. cbn. by destruct (Weightless cfg). Qed.

(** ** The current entry *)

Lemma head_entry G a id p : ainv cfg G a -> (0 <= id)%Z -> loadEntry a id = Some p ->
  ents (hp a) !! p = Some (entry_at a p) /\ entry_ok cfg (entry_at a p) /\ entry_fits G (hp a) id (entry_at a p) /\
  entry_tight G (entry_at a p) /\ view_of a id = entry_view (hp a) (entry_at a p).
Proof.
  intros [Hi _ _] Hid Hp. destruct (hi_head _ _ _ _ _ Hi _ _ Hid Hp) as (HO & e & He & Ht). unfold entry_at. rewrite He. cbn.
  split; [done|]. destruct (hi_ok _ _ _ _ _ Hi _ _ He) as [Hok Hf]. rewrite HO in Hf. split; [done|]. split; [done|]. split; [done|].
  unfold view_of, viewOf. rewrite Hp. cbn. by rewrite He.
Qed.

Lemma view_of_ok G a id : ainv cfg G a -> (0 <= id)%Z -> view_ok (view_of a id).
Proof.
  intros Hi Hid. destruct (loadEntry a id) as [p|] eqn:Hp; [|unfold view_of; rewrite Hp; apply zero_view_ok].
  destruct (head_entry _ _ _ _ Hi Hid Hp) as (_ & Hok & Hf & _ & ->). by eapply entry_view_ok.
Qed.

(** ** Composition of the columns *)

Lemma build_view h e0 h' e bn on cn bw ow cw bh oh bl ol : build_out h e0 h' e bn on cn bw ow cw bh oh bl ol ->
  entry_view h' e = mkView (on (contents (zmem h) (neighbours e0))) (ow (contents (wmem h) (weights e0)))
    (if bh then Some (oh (contents (zmem h) (handles e0))) else None)
    (if bl then Some (ol (contents (zmem h) (labels e0))) else None) (aux e).
Proof.
  intros [(_ & Hn & _) (_ & Hw & _) [Hbh Hh] [Hbl Hl]]. unfold entry_view. rewrite !opt_contents_eq, Hn, Hw, Hh, Hl, Hbh, Hbl. done.
Qed.

Lemma build_ok G h e0 h' e id bn on cn bw ow cw bh oh bl ol : build_out h e0 h' e bn on cn bw ow cw bh oh bl ol ->
  entry_fits G h' id e ->
  (if Weightless cfg then bw = false
   else length (ow (contents (wmem h) (weights e0))) = length (on (contents (zmem h) (neighbours e0))) /\ cw = cn /\ is_Some cn) ->
  (bh = true -> length (oh (contents (zmem h) (handles e0))) = length (on (contents (zmem h) (neighbours e0)))) ->
  (bl = true -> length (ol (contents (zmem h) (labels e0))) = length (on (contents (zmem h) (neighbours e0)))) ->
  (forall x, aux e = Some x -> length (aux_slots x) = length (on (contents (zmem h) (neighbours e0)))) -> entry_ok cfg e.
Proof.
  intros [(_ & Hn & Hcn) (Hbw & Hw & Hcw) [Hbh Hh] [Hbl Hl]] [F1 F2 F3 F4] Hws Hhs Hls Hax. apply fits_len in F1, F2, F3, F4. split.
  - destruct (Weightless cfg); [destruct (weights e); [cbn in Hbw; congruence|done]|]. destruct Hws as (H1 & -> & [c ->]).
    split; [congruence|]. by rewrite (Hcn c), (Hcw c).
  - intros Hs. rewrite F1, F2, Hn, Hh. apply Hhs. rewrite <- Hbh. by destruct (handles e); [|destruct Hs].
  - intros Hs. rewrite F1, F3, Hn, Hl. apply Hls. rewrite <- Hbl. by destruct (labels e); [|destruct Hs].
  - intros x Hx. rewrite F1, Hn. by apply Hax.
Qed.

(** What a construction of an entry with version [vr] for node [id] hands to the store. *)
Record constructs G id h (v : EntryView W A) (vr : option nat) (b : option (adjEntry * heap)) : Prop := {
  cs_ok : exists e h' G', b = Some (e, h') /\ heap_ext id G h G' (with_ents (ents h' ++ [e]) h') e /\ entry_ok cfg e /\
    entry_fits G' (with_ents (ents h' ++ [e]) h') id e /\ entry_tight G' e /\ ver e = vr /\ entry_view h' e = v;
}.

Lemma grow_aux_length cur n ex x : (forall c, cur = Some c -> length (aux_slots c) = n) ->
  growAuxEx cfg cur n ex = Some x -> length (aux_slots x) = S n.
Proof.
  intros Hc. unfold growAuxEx. destruct (auxPayload ex) as [p|], cur as [c|].
  - intros [= <-]. rewrite GrowSlotWithValue_spec by auto. rewrite length_app, Hc by done. cbn. lia.
  - destruct (auxFactory cfg) as [f|] eqn:Hf; [|done]. intros [= <-]. rewrite (Hfac f n p Hf), length_app, length_replicate. cbn. lia.
  - intros [= <-]. rewrite GrowSlot_spec by auto. rewrite length_app, Hc by done. cbn. lia.
  - done.
Qed.

Lemma on_w_none h : (fun h : heap => Some (None (A := slice), h)) h = on_w (fun m => Some (None, m)) h.
Proof. by destruct h. Qed.

Lemma on_w_if (b : bool) f h : (if b then Some (None (A := slice), h) else on_w f h) = on_w (if b then fun m => Some (None, m) else f) h.
Proof. destruct b; [|done]. by destruct h. Qed.

Lemma mbind_ext {B C} (x : option B) (f g : B -> option C) : (forall y, f y = g y) -> (x ≫= f) = (x ≫= g).
Proof. intros H. destruct x; [apply H|done]. Qed.

Lemma append_opt_out has x n o (m : mem Z) s : o = opt_contents m s -> (if has || not_nil s then Some (opt_out 0%Z has n x s (contents m s)) else None)
  = append_opt has x n o.
Proof.
  intros ->. unfold append_opt, opt_out. rewrite opt_contents_eq. destruct s as [sl|]; cbn [not_nil].
  - rewrite bool_decide_eq_true_2 by done. by rewrite orb_true_r.
  - rewrite bool_decide_eq_false_2 by (by intros []). by destruct has.
Qed.

(** ** Append *)

Lemma append_constructs G id a e0 dst w ex fnb fws fhs fls cn :
  entry_ok cfg e0 -> entry_fits G (hp a) id e0 -> entry_tight G e0 -> let n := slen (neighbours e0) in
  col_fun fnb (neighbours e0) true (fun c => c ++ [dst]) (Some cn) ->
  col_fun fws (weights e0) (negb (Weightless cfg)) (fun c => if Weightless cfg then [] else c ++ [w]) (Some (if Weightless cfg then 0 else cn)) ->
  col_fun fhs (handles e0) (hasHandle ex || not_nil (handles e0)) (opt_out 0%Z (hasHandle ex) n (handle ex) (handles e0)) None ->
  col_fun fls (labels e0) (hasLabel ex || not_nil (labels e0)) (opt_out 0%Z (hasLabel ex) n (label ex) (labels e0)) None ->
  constructs G id (hp a) (append_view (entry_view (hp a) e0) dst w ex) None (built_entry fnb fws fhs fls (growAuxEx cfg (aux e0) n ex) None (hp a)).
Proof.
  intros Hok Hf Ht n Hnb Hws Hhs Hls. pose proof (fits_len _ _ _ _ (ef_nb _ _ _ _ Hf)) as Hn. fold n in Hn.
  destruct (build_entry id G (hp a) e0 fnb fws fhs fls _ _ _ _ _ _ _ _ _ _ _ _ (growAuxEx cfg (aux e0) n ex) None Hf Ht Hnb Hws Hhs Hls)
    as (e & h' & G' & Hb & Hax & Hv & Ho & Hext & Hfe & Hte).
  assert (Hopt : forall has x s, (is_Some s -> slen s = n) -> fits (gz G) (id, KH) (zmem (hp a)) s \/ fits (gz G) (id, KL) (zmem (hp a)) s ->
    has || not_nil s = true -> length (opt_out 0%Z has n x s (contents (zmem (hp a)) s)) = S n).
  { intros has x s Hs Hfs Hb1. assert (Hlh : slen s = length (contents (zmem (hp a)) s)) by (by destruct Hfs as [Hx|Hx]; apply fits_len in Hx).
    unfold opt_out. rewrite Hb1, length_app. destruct s as [sl|]; cbn [not_nil]; [rewrite <- Hlh, Hs by done|rewrite length_replicate]; cbn; lia. }
  split. exists e, h', G'. split; [done|]. split; [done|]. split.
  { eapply (build_ok G' (hp a) e0 h' e id); [exact Ho|by destruct Hfe| | | |]; cbv beta; rewrite ?length_app, <- ?Hn; cbn [length].
    - destruct Hok as [Hw' _ _ _]. pose proof (fits_len _ _ _ _ (ef_ws _ _ _ _ Hf)) as Hlw. destruct (Weightless cfg); [done|].
      rewrite length_app. split; [cbn; lia|]. by split.
    - intros Hb1. rewrite Hopt; [lia|apply Hok|left; apply Hf|done].
    - intros Hb1. rewrite Hopt; [lia|apply Hok|right; apply Hf|done].
    - rewrite Hax. intros x Hx. rewrite (grow_aux_length (aux e0) n ex x); [lia|by apply Hok|done]. }
  split; [done|]. split; [done|]. split; [done|]. rewrite (build_view _ _ _ _ _ _ _ _ _ _ _ _ _ _ Ho), Hax.
  unfold append_view. cbn [Neighbours Weights Handles Labels Aux entry_view]. rewrite <- Hn. f_equal; by apply append_opt_out.
Qed.

Lemma col_fun_out {T} (f : mem T -> option (option slice * mem T)) s b out out' cp :
  col_fun f s b out cp -> (forall m, valid m s -> out (contents m s) = out' (contents m s)) -> col_fun f s b out' cp.
Proof. intros H Ho m Hv. destruct (H m Hv) as (m' & s' & ? & ? & ? & Hc & ?). exists m', s'. by rewrite <- Ho. Qed.

Lemma fresh_out {T} (zero : T) n c (y : T) s : slen s = n -> n < c -> col_fun (fresh_col zero n c y s) s true (fun x => x ++ [y]) (Some c).
Proof. intros <- Hc. eapply col_fun_out; [by apply col_fresh|]. intros m _. by rewrite Nat.sub_diag. Qed.

Lemma appended_spec G id a dst w ex : ainv cfg G a -> (0 <= id)%Z ->
  constructs G id (hp a) (append_view (view_of a id) dst w ex) None (appended zeroW cfg id dst w ex a).
Proof.
  intros Hi Hid. unfold appended. destruct (loadEntry a id) as [p|] eqn:Hp.
  - destruct (head_entry _ _ _ _ Hi Hid Hp) as (_ & Hok & Hf & Ht & ->). set (e0 := entry_at a p) in *. set (n := slen (neighbours e0)) in *.
    pose proof (eo_ws _ _ Hok) as Hw. destruct (Nat.leb_spec (S n) (scap (neighbours e0))) as [Hcap|Hcap].
    + assert (Hb : fast_entry cfg e0 dst w ex (hp a) = built_entry (push_col n dst (neighbours e0))
        (if Weightless cfg then fun m => Some (None, m) else push_col n w (weights e0))
        (push_opt 0%Z (hasHandle ex) n (handle ex) (handles e0)) (push_opt 0%Z (hasLabel ex) n (label ex) (labels e0)) (growAuxEx cfg (aux e0) n ex) None (hp a)).
      { unfold fast_entry, built_entry. fold n. apply mbind_ext. intros [nb h1]. by rewrite on_w_if. }
      rewrite Hb. eapply append_constructs; [done..|by apply col_push| |apply col_push_opt; apply Hok|apply col_push_opt; apply Hok].
      destruct (Weightless cfg); [apply col_none|]. destruct Hw as [H1 H2]. rewrite <- H2. apply col_push; [done|lia].
    + assert (Hb : slow_entry zeroW cfg e0 dst w ex (hp a) = built_entry (fresh_col 0%Z n (growCap n) dst (neighbours e0))
        (if Weightless cfg then fun m => Some (None, m) else fresh_col zeroW n (growCap n) w (weights e0))
        (grow_opt 0%Z (hasHandle ex) n (growCap n) (handle ex) (handles e0)) (grow_opt 0%Z (hasLabel ex) n (growCap n) (label ex) (labels e0)) (growAuxEx cfg (aux e0) n ex) None (hp a)).
      { unfold slow_entry, built_entry. fold n. apply mbind_ext. intros [nb h1]. by rewrite on_w_if. }
      rewrite Hb. pose proof (growCap_gt n). eapply append_constructs; [done..|by apply fresh_out| |apply col_grow_opt; [apply Hok|done]|apply col_grow_opt; [apply Hok|done]].
      destruct (Weightless cfg); [apply col_none|]. destruct Hw as [H1 H2]. by apply fresh_out.
  - unfold view_of. rewrite Hp. cbn [viewOf mbind option_bind from_option].
    assert (Hb : first_entry zeroW cfg dst w ex (hp a) = built_entry (first_col 0%Z true 4 dst) (first_col zeroW (negb (Weightless cfg)) 4 w)
      (first_col 0%Z (hasHandle ex) 4 (handle ex)) (first_col 0%Z (hasLabel ex) 4 (label ex)) (growAuxEx cfg None 0 ex) None (hp a)) by done.
    rewrite Hb. change zero_view with (entry_view (hp a) (empty_entry (A := A))).
    assert (Hz : forall has x, col_fun (first_col 0%Z has 4 x) None (has || not_nil None) (opt_out 0%Z has 0 x None) None).
    { intros has x. cbn [not_nil]. rewrite orb_false_r. intros m Hv. destruct (col_first 0%Z has 4 x ltac:(lia) m Hv) as (m' & s' & ? & ? & ? & Hc & _).
      exists m', s'. split; [done|]. split; [done|]. split; [done|]. split; [|done]. rewrite Hc. unfold opt_out. cbn. by destruct has. }
    apply (append_constructs G id a empty_entry) with (cn := 4).
    + apply empty_ok.
    + by split.
    + by split.
    + eapply col_fun_out; [apply (col_first 0%Z true 4 dst); lia|done].
    + destruct (Weightless cfg);
        [eapply col_fun_out; [apply (col_first zeroW false 4 w); lia|done]|eapply col_fun_out; [apply (col_first zeroW true 4 w); lia|done]].
    + apply Hz.
    + apply Hz.
Qed.

(** ** Excision, new labels, new side column *)

(** The four columns of an entry rebuilt in step. *)
Lemma rebuild G id h e0 fnb fws fhs fls bn on ow oh ol cn bl ax vr : entry_ok cfg e0 -> entry_fits G h id e0 -> entry_tight G e0 ->
  col_fun fnb (neighbours e0) bn on (Some cn) -> col_fun fws (weights e0) (not_nil (weights e0)) ow (Some (if Weightless cfg then 0 else cn)) ->
  col_fun fhs (handles e0) (not_nil (handles e0)) oh None -> col_fun fls (labels e0) bl ol None ->
  (Weightless cfg = false -> length (ow (contents (wmem h) (weights e0))) = length (on (contents (zmem h) (neighbours e0)))) ->
  (not_nil (handles e0) = true -> length (oh (contents (zmem h) (handles e0))) = length (on (contents (zmem h) (neighbours e0)))) ->
  (bl = true -> length (ol (contents (zmem h) (labels e0))) = length (on (contents (zmem h) (neighbours e0)))) ->
  (forall x, ax = Some x -> length (aux_slots x) = length (on (contents (zmem h) (neighbours e0)))) ->
  constructs G id h (mkView (on (contents (zmem h) (neighbours e0))) (ow (contents (wmem h) (weights e0)))
    (option_map oh (opt_contents (zmem h) (handles e0))) (if bl then Some (ol (contents (zmem h) (labels e0))) else None) ax) vr
    (built_entry fnb fws fhs fls ax vr h).
Proof.
  intros Hok Hf Ht Hnb Hws Hhs Hls Lw Lh Ll La.
  destruct (build_entry id G h e0 fnb fws fhs fls _ _ _ _ _ _ _ _ _ _ _ _ ax vr Hf Ht Hnb Hws Hhs Hls)
    as (e & h' & G' & Hb & Hax & Hv & Ho & Hext & Hfe & Hte).
  split. exists e, h', G'. split; [done|]. split; [done|]. split.
  { eapply (build_ok G' h e0 h' e id); [exact Ho|by destruct Hfe| | | |]; [|done|done|by rewrite Hax].
    pose proof (eo_ws _ _ Hok) as Hw. destruct (Weightless cfg); [by rewrite Hw|]. split; [by apply Lw|]. by split. }
  split; [done|]. split; [done|]. split; [done|]. rewrite (build_view _ _ _ _ _ _ _ _ _ _ _ _ _ _ Ho), Hax, opt_contents_eq.
  by destruct (handles e0).
Qed.

Lemma col_fun_any {T} (f : mem T -> option (option slice * mem T)) s b out cp : col_fun f s b out cp -> col_fun f s b out None.
Proof. intros H m Hv. destruct (H m Hv) as (m' & s' & ? & ? & ? & ? & _). exists m', s'. by repeat split. Qed.

Lemma weights_cap e : entry_ok cfg e -> scap (weights e) = if Weightless cfg then 0 else scap (neighbours e).
Proof. intros Hok. pose proof (eo_ws _ _ Hok) as Hw. destruct (Weightless cfg); [by rewrite Hw|by destruct Hw]. Qed.

Lemma weights_len e : entry_ok cfg e -> slen (weights e) = if Weightless cfg then 0 else slen (neighbours e).
Proof. intros Hok. pose proof (eo_ws _ _ Hok) as Hw. destruct (Weightless cfg); [by rewrite Hw|by destruct Hw]. Qed.

Lemma entry_lens G h id e : entry_fits G h id e ->
  slen (neighbours e) = length (contents (zmem h) (neighbours e)) /\ slen (handles e) = length (contents (zmem h) (handles e)) /\
  slen (labels e) = length (contents (zmem h) (labels e)) /\ slen (weights e) = length (contents (wmem h) (weights e)).
Proof. intros [F1 F2 F3 F4]. by apply fits_len in F1, F2, F3, F4. Qed.

Lemma length_delete_eq {T} (l : list T) i : i < length l -> length (delete i l) = length l - 1.
Proof. intros H. apply length_delete. by apply lookup_lt_is_Some_2. Qed.

Lemma compactEntry_spec G id a p idx : ainv cfg G a -> (0 <= id)%Z -> loadEntry a id = Some p -> idx < length (Neighbours (view_of a id)) ->
  constructs G id (hp a) (remove_view idx (view_of a id)) None (compactEntry zeroW (entry_at a p) idx (hp a)).
Proof.
  intros Hi Hid Hp. destruct (head_entry _ _ _ _ Hi Hid Hp) as (_ & Hok & Hf & Ht & ->). set (e0 := entry_at a p) in *. cbn [Neighbours entry_view]. intros Hidx.
  destruct (entry_lens _ _ _ _ Hf) as (L1 & L2 & L3 & L4). pose proof (weights_len _ Hok) as Lw.
  change (compactEntry zeroW e0 idx (hp a)) with (built_entry (drop_col 0%Z idx (neighbours e0)) (drop_col zeroW idx (weights e0)) (drop_col 0%Z idx (handles e0))
    (drop_col 0%Z idx (labels e0)) (CompactSlot idx <$> aux e0) None (hp a)).
  pose proof (rebuild G id (hp a) e0 (drop_col 0%Z idx (neighbours e0)) (drop_col zeroW idx (weights e0)) (drop_col 0%Z idx (handles e0))
    (drop_col 0%Z idx (labels e0)) (not_nil (neighbours e0)) (fun c => delete idx c) (fun c => delete idx c) (fun c => delete idx c) (fun c => delete idx c) (slen (neighbours e0) - 1)
    (not_nil (labels e0)) (CompactSlot idx <$> aux e0) None Hok Hf Ht) as Hr.
  assert (Heq : remove_view idx (entry_view (hp a) e0) = mkView (delete idx (contents (zmem (hp a)) (neighbours e0))) (delete idx (contents (wmem (hp a)) (weights e0)))
    (option_map (fun c => delete idx c) (opt_contents (zmem (hp a)) (handles e0))) (if not_nil (labels e0) then Some (delete idx (contents (zmem (hp a)) (labels e0))) else None)
    (CompactSlot idx <$> aux e0)).
  { unfold remove_view. cbn. f_equal. rewrite opt_contents_eq. by destruct (labels e0). }
  rewrite Heq. apply Hr.
  - apply col_drop. intros _. by rewrite L1.
  - pose proof (eo_ws _ _ Hok) as Hw. destruct (Weightless cfg); [rewrite Hw; apply (col_drop zeroW idx None); by intros []|].
    destruct Hw as [Hw _]. rewrite <- Hw. apply col_drop. intros _. rewrite Hw. by rewrite L1.
  - eapply col_fun_any, col_drop. intros Hs. rewrite (eo_hs _ _ Hok Hs). by rewrite L1.
  - eapply col_fun_any, col_drop. intros Hs. rewrite (eo_ls _ _ Hok Hs). by rewrite L1.
  - intros Hw. rewrite Hw in Lw. rewrite !length_delete_eq by lia. lia.
  - intros Hs. pose proof (eo_hs _ _ Hok ltac:(by destruct (handles e0))). rewrite !length_delete_eq by lia. lia.
  - intros Hs. pose proof (eo_ls _ _ Hok ltac:(by destruct (labels e0))). rewrite !length_delete_eq by lia. lia.
  - intros x. destruct (aux e0) as [c|] eqn:Hc; [|done]. intros [= <-]. pose proof (eo_aux _ _ Hok _ Hc) as La.
    rewrite CompactSlot_spec by lia. rewrite <- delete_take_drop, !length_delete_eq by lia. lia.
Qed.

Lemma relabel_spec G id a p newL : ainv cfg G a -> (0 <= id)%Z -> loadEntry a id = Some p -> length newL = length (Neighbours (view_of a id)) ->
  let s := mkSlice (length (zmem (hp a))) (length newL) (length newL) in
  let cur := entry_at a p in
  constructs G id (hp a) (label_view newL (view_of a id)) None
    (Some (mkEntry (aux cur) None (neighbours cur) (weights cur) (handles cur) (Some s), with_zmem (zmem (hp a) ++ [newL]) (hp a))).
Proof.
  intros Hi Hid Hp. destruct (head_entry _ _ _ _ Hi Hid Hp) as (_ & Hok & Hf & Ht & ->). set (e0 := entry_at a p) in *. cbn [Neighbours entry_view].
  intros Hl. set (s := mkSlice _ _ _). destruct (entry_lens _ _ _ _ Hf) as (L1 & L2 & L3 & L4). pose proof (weights_len _ Hok) as Lw.
  pose proof (rebuild G id (hp a) e0 (fun m => Some (neighbours e0, m)) (fun m => Some (weights e0, m)) (fun m => Some (handles e0, m))
    (fun m => Some (Some (mkSlice (length m) (length newL) (length newL)), m ++ [newL])) (not_nil (neighbours e0)) (fun c => c) (fun c => c) (fun c => c) (fun _ => newL)
    (scap (neighbours e0)) true (aux e0) None Hok Hf Ht) as Hr.
  replace (label_view newL (entry_view (hp a) e0)) with (mkView (contents (zmem (hp a)) (neighbours e0)) (contents (wmem (hp a)) (weights e0))
    (option_map (fun c => c) (opt_contents (zmem (hp a)) (handles e0))) (Some newL) (aux e0))
    by (unfold label_view; cbn; by destruct (opt_contents (zmem (hp a)) (handles e0))).
  assert (Hb : built_entry (fun m => Some (neighbours e0, m)) (fun m => Some (weights e0, m)) (fun m => Some (handles e0, m))
    (fun m => Some (Some (mkSlice (length m) (length newL) (length newL)), m ++ [newL])) (aux e0) None (hp a) =
    Some (mkEntry (aux e0) None (neighbours e0) (weights e0) (handles e0) (Some s), with_zmem (zmem (hp a) ++ [newL]) (hp a))) by done.
  rewrite <- Hb. apply Hr.
  - apply col_same.
  - rewrite <- weights_cap by done. apply col_same.
  - eapply col_fun_any, col_same.
  - eapply col_fun_any, col_alloc.
  - intros Hw. rewrite Hw in Lw. lia.
  - intros Hs. pose proof (eo_hs _ _ Hok ltac:(by destruct (handles e0))). lia.
  - intros _. lia.
  - intros x Hx. rewrite (eo_aux _ _ Hok _ Hx). lia.
Qed.

Lemma reaux_spec G id a p newAux : ainv cfg G a -> (0 <= id)%Z -> loadEntry a id = Some p ->
  (forall x, newAux = Some x -> length (aux_slots x) = length (Neighbours (view_of a id))) ->
  let cur := entry_at a p in
  constructs G id (hp a) (aux_view newAux (view_of a id)) None
    (Some (mkEntry newAux None (neighbours cur) (weights cur) (handles cur) (labels cur), hp a)).
Proof.
  intros Hi Hid Hp. destruct (head_entry _ _ _ _ Hi Hid Hp) as (_ & Hok & Hf & Ht & ->). set (e0 := entry_at a p) in *. cbn [Neighbours entry_view].
  intros Hl. destruct (entry_lens _ _ _ _ Hf) as (L1 & L2 & L3 & L4). pose proof (weights_len _ Hok) as Lw.
  pose proof (rebuild G id (hp a) e0 (fun m => Some (neighbours e0, m)) (fun m => Some (weights e0, m)) (fun m => Some (handles e0, m))
    (fun m => Some (labels e0, m)) (not_nil (neighbours e0)) (fun c => c) (fun c => c) (fun c => c) (fun c => c) (scap (neighbours e0)) (not_nil (labels e0)) newAux None Hok Hf Ht) as Hr.
  replace (aux_view newAux (entry_view (hp a) e0)) with (mkView (contents (zmem (hp a)) (neighbours e0)) (contents (wmem (hp a)) (weights e0))
    (option_map (fun c => c) (opt_contents (zmem (hp a)) (handles e0))) (if not_nil (labels e0) then Some (contents (zmem (hp a)) (labels e0)) else None) newAux)
    by (unfold aux_view; cbn; rewrite <- opt_contents_eq; by destruct (opt_contents (zmem (hp a)) (handles e0))).
  assert (Hb : built_entry (fun m => Some (neighbours e0, m)) (fun m => Some (weights e0, m)) (fun m => Some (handles e0, m))
    (fun m => Some (labels e0, m)) newAux None (hp a) = Some (mkEntry newAux None (neighbours e0) (weights e0) (handles e0) (labels e0), hp a))
    by (unfold built_entry, on_z, on_w; cbn; by destruct (hp a)).
  rewrite <- Hb. apply Hr.
  - apply col_same.
  - rewrite <- weights_cap by done. apply col_same.
  - eapply col_fun_any, col_same.
  - eapply col_fun_any, col_same.
  - intros Hw. rewrite Hw in Lw. lia.
  - intros Hs. pose proof (eo_hs _ _ Hok ltac:(by destruct (handles e0))). lia.
  - intros Hs. pose proof (eo_ls _ _ Hok ltac:(by destruct (labels e0))). lia.
  - done.
Qed.
End entries.
