(* ===== verification/AdjWrites.v ===== *)
(** * Every write operation, as a write of one view

    No operation panics; each is refused without effect by a conflict, or for want of
    capacity where the node had no entry, or publishes the view that its definition in
    terms of slots prescribes, or finds nothing to change. *)

From Stdlib Require Import ZArith Lia.
From stdpp Require Import list gmap.
From S2P Require Import Prelude Clock WriteStamp AdjHeap AdjHeapFacts AdjReverse AdjList AdjOps AdjMaint AdjHeapInv AdjBuild AdjStoreEntry AdjWrite.

Section writes.
Context {W A P : Type} (zeroW : W) `{!AuxColumn A P} `{!AuxLaws A P} (cfg : Config A P).
Abbreviation heap := (heap W A).
Abbreviation AdjList := (AdjList W A).
Implicit Types (h : heap) (a : AdjList) (G : ghost) (v : EntryView W A).
Context (Hfac : factory_ok cfg).

(** A critical section returns [r] and leaves [a']. *)
Definition returns {R} (o : option ((adjErr + R) * AdjList)) (r : adjErr + R) a' : Prop := o = Some (r, a').

(** A write by [id] of the view [v], with what the caller gets and what is left to do. *)
Definition writes {R} (o : option ((adjErr + R) * AdjList)) (id : Z) v (tx : option nat) (ts : Z) a (r : R) (post : AdjList -> AdjList) : Prop :=
  exists G' a1, ainv cfg G' a1 /\
    ((returns o (inr r) (post a1) /\ exists q, write cfg id v tx ts a q a1) \/ (returns o (inl ErrShardFull) a1 /\ full cfg id tx ts a a1)).

(** Refused by a conflict, and otherwise [Q]. *)
Definition unless_conflict {R} (o : option ((adjErr + R) * AdjList)) (tx : option nat) (id : Z) a (Q : Prop) : Prop :=
  match directConflictLocked cfg tx id a with Some err => returns o (inl err) a | None => Q end.

Lemma guarded_spec {R} tx id a (k : option ((adjErr + R) * AdjList)) (Q : Prop) :
  (directConflictLocked cfg tx id a = None -> Q) -> (Q -> unless_conflict (guarded cfg tx id a k) tx id a Q).
Proof. unfold unless_conflict, guarded. intros _ HQ. by destruct (directConflictLocked cfg tx id a). Qed.

Lemma guarded_none {R} tx id a (k : option ((adjErr + R) * AdjList)) : directConflictLocked cfg tx id a = None -> guarded cfg tx id a k = k.
Proof. unfold guarded. by intros ->. Qed.

Lemma stored_spec {R} G id a e h v tx ts (r : R) (post : AdjList -> AdjList) : ainv cfg G a -> (0 <= id)%Z -> directConflictLocked cfg tx id a = None ->
  constructs cfg G id (hp a) v None (Some (e, h)) ->
  writes (if_stored (store_new cfg id e h tx ts a) (fun a => Some (inr r, post a))) id v tx ts a r post.
Proof.
  intros Hi Hid Hc [(e' & h' & G' & [= <- <-] & Hext & Hok & Hf & Ht & Hv & Hview)].
  destruct (store_new_spec cfg G id a e h G' tx ts) as (o & a' & G2 & Hst & Hi' & Hcase); [done..|].
  exists G2, a'. split; [done|]. rewrite Hst. destruct Hcase as [(-> & q & Hw)|(-> & Hfu)]; [left|right; done].
  split; [done|]. exists q. by rewrite <- Hview.
Qed.

(** ** Insertion *)

Theorem upsert_slot_spec G src dst w ex tx ts a : ainv cfg G a -> (0 <= src)%Z ->
  unless_conflict (upsertEdgeSlotLocked zeroW cfg src dst w ex tx ts a) tx src a
    (writes (upsertEdgeSlotLocked zeroW cfg src dst w ex tx ts a) src (append_view cfg (view_of a src) dst w ex) tx ts a tt (fun a => a)).
Proof.
  intros Hi Hid. unfold unless_conflict. destruct (directConflictLocked cfg tx src a) eqn:Hc; [unfold returns, upsertEdgeSlotLocked, guarded; by rewrite Hc|].
  unfold upsertEdgeSlotLocked. rewrite guarded_none by done.
  pose proof (appended_spec zeroW cfg Hfac G src a dst w ex Hi Hid) as Hb.
  destruct (appended zeroW cfg src dst w ex a) as [[e h]|] eqn:Ha; [|by destruct Hb as [(? & ? & ? & ? & _)]].
  cbn [mbind option_bind]. by eapply stored_spec.
Qed.

Theorem upsert_spec G src dst w ex tx ts a : ainv cfg G a -> (0 <= src)%Z ->
  unless_conflict (upsertEdgeLocked zeroW cfg src dst w ex tx ts a) tx src a
    (writes (upsertEdgeLocked zeroW cfg src dst w ex tx ts a) src (append_view cfg (view_of a src) dst w ex) tx ts a tt
       (fun a => with_rv (rev_add dst src (rv a)) a)).
Proof.
  intros Hi Hid. pose proof (upsert_slot_spec G src dst w ex tx ts a Hi Hid) as H. unfold unless_conflict in *. unfold upsertEdgeLocked.
  destruct (directConflictLocked cfg tx src a); [unfold returns in *; by rewrite H|].
  destruct H as (G' & a1 & Hi1 & [[Hr Hw]|[Hr Hf]]); unfold returns in *; rewrite Hr; exists G', a1; (split; [done|]); [by left|by right].
Qed.

(** ** Removal *)

(** Without slot [idx]; the last slot leaves no entry. *)
Definition retire_view (idx : nat) v : EntryView W A := if (1 <? length (Neighbours v))%nat then remove_view idx v else zero_view.

Lemma retire_spec G src dst p idx tx ts a : ainv cfg G a -> (0 <= src)%Z -> directConflictLocked cfg tx src a = None ->
  loadEntry a src = Some p -> idx < length (Neighbours (view_of a src)) ->
  writes (retireSlotLocked zeroW cfg src dst (entry_at a p) idx tx ts a) src (retire_view idx (view_of a src)) tx ts a tt
    (fun a => with_rv (rev_remove dst src (removalStamp cfg src a).1 (removalStamp cfg src a).2 (rv a)) a).
Proof.
  intros Hi Hid Hc Hp Hidx. destruct (head_entry _ _ _ _ _ Hi Hid Hp) as (_ & Hok & Hf & _ & Hv).
  destruct (entry_lens _ _ _ _ Hf) as (L1 & _). unfold retireSlotLocked, retire_view. rewrite L1.
  assert (Hlen : length (Neighbours (view_of a src)) = length (contents (zmem (hp a)) (neighbours (entry_at a p)))) by (by rewrite Hv).
  rewrite Hlen. destruct (Nat.ltb_spec 1 (length (contents (zmem (hp a)) (neighbours (entry_at a p))))).
  - pose proof (compactEntry_spec zeroW cfg G src a p idx Hi Hid Hp Hidx) as Hb.
    destruct (compactEntry zeroW (entry_at a p) idx (hp a)) as [[e h]|]; [|by destruct Hb as [(? & ? & ? & ? & _)]]. cbn [mbind option_bind].
    pose proof (stored_spec G src a e h _ tx ts tt (fun a => with_rv (rev_remove dst src (removalStamp cfg src a).1 (removalStamp cfg src a).2 (rv a)) a) Hi Hid Hc Hb) as Hs.
    unfold done. destruct (store_new cfg src e h tx ts a) as [[err|] a']; [done|]. cbn [if_stored] in *. by destruct (removalStamp cfg src a').
  - destruct (store_nil_spec cfg G src a tx ts Hi Hid Hc) as (a' & G2 & q & Hst & Hi' & Hw); [congruence|]. cbn [mbind option_bind].
    rewrite Hst. cbn [if_stored]. exists G2, a'. split; [done|]. left. unfold returns, done. destruct (removalStamp cfg src a'). split; [done|by exists q].
Qed.

Lemma find_slot_Some dst l idx : find_slot dst l = Some idx -> idx < length l /\ l !! idx = Some dst.
Proof.
  unfold find_slot. destruct (list_find _ l) as [[i x]|] eqn:Hf; [|done]. intros [= <-].
  apply list_find_Some in Hf as (Hi & -> & _). split; [by eapply lookup_lt_Some|done].
Qed.

(** The retirement of the in-edge with the removal's stamp. *)
Definition retired (src dst : Z) a : AdjList := with_rv (rev_remove dst src (removalStamp cfg src a).1 (removalStamp cfg src a).2 (rv a)) a.

Definition handle_at (idx : nat) v : Z := default 0%Z (Handles v ≫= fun l => l !! idx).

(** The first occurrence goes, or there is none and nothing changes. *)
Theorem remove_one_spec G src dst tx ts a : ainv cfg G a -> (0 <= src)%Z ->
  let o := removeOneEdgeWithHandleLocked zeroW cfg src dst tx ts a in
  unless_conflict o tx src a
    (match find_slot dst (Neighbours (view_of a src)) with
     | None => returns o (inr (false, 0%Z)) a
     | Some idx => writes o src (retire_view idx (view_of a src)) tx ts a (true, handle_at idx (view_of a src)) (retired src dst)
     end).
Proof.
  intros Hi Hid o. unfold unless_conflict. subst o.
  destruct (directConflictLocked cfg tx src a) eqn:Hc; [unfold returns, removeOneEdgeWithHandleLocked, guarded; by rewrite Hc|].
  unfold removeOneEdgeWithHandleLocked. rewrite guarded_none by done.
  destruct (loadEntry a src) as [p|] eqn:Hp; [|unfold view_of; rewrite Hp; done].
  destruct (head_entry _ _ _ _ _ Hi Hid Hp) as (_ & Hok & Hf & _ & Hv). destruct (entry_lens _ _ _ _ Hf) as (L1 & L2 & _).
  assert (Hn : nbs_of a (entry_at a p) = Neighbours (view_of a src)) by (by rewrite Hv). rewrite Hn.
  destruct (find_slot dst (Neighbours (view_of a src))) as [idx|] eqn:Hfs; [|done]. destruct (find_slot_Some _ _ _ Hfs) as [Hlt _].
  pose proof (retire_spec G src dst p idx tx ts a Hi Hid Hc Hp Hlt) as Hr.
  assert (Hh : (if not_nil (handles (entry_at a p)) then contents (zmem (hp a)) (handles (entry_at a p)) !! idx else Some 0%Z) = Some (handle_at idx (view_of a src))).
  { unfold handle_at. rewrite Hv. cbn [Handles entry_view]. rewrite opt_contents_eq. destruct (not_nil (handles (entry_at a p))) eqn:Hnn; [|done]. cbn [mbind option_bind].
    destruct (lookup_lt_is_Some_2 (contents (zmem (hp a)) (handles (entry_at a p))) idx) as [hd Hhd]; [|by rewrite Hhd].
    rewrite <- L2, (eo_hs _ _ Hok) by (by destruct (handles (entry_at a p))). rewrite L1. rewrite Hv in Hlt. exact Hlt. }
  rewrite Hh. cbn [mbind option_bind]. destruct Hr as (G' & a1 & Hi1 & Hcase). exists G', a1. split; [done|].
  unfold returns in *. destruct Hcase as [[-> Hw]|[-> Hw]]; [left|right]; done.
Qed.

(** The scan for a handle. *)
Lemma find_handle_spec dst target nbs hs : length hs = length nbs ->
  exists r, find_handle dst target nbs hs = Some r /\
    match r with
    | Some i => nbs !! i = Some dst /\ hs !! i = Some target
    | None => forall i, nbs !! i = Some dst -> hs !! i <> Some target
    end.
Proof.
  revert hs. induction nbs as [|n nbs IH]; intros hs Hl; [by exists None|]. destruct hs as [|hd hs]; [done|]. cbn [find_handle tail].
  destruct (IH hs) as (r & Hr & Hs); [cbn in Hl; lia|]. rewrite Hr. cbn [mbind option_bind].
  destruct (Z.eqb_spec n dst) as [->|Hne]; [destruct (Z.eqb_spec hd target) as [->|Hne]|].
  - exists (Some 0). by repeat split.
  - eexists. split; [done|]. destruct r as [i|]; [done|]. intros [|i]; cbn; [intros _ [= ?]; done|apply Hs].
  - eexists. split; [done|]. destruct r as [i|]; [done|]. intros [|i]; cbn; [intros [= ?]; done|apply Hs].
Qed.

(** The slot a removal by handle takes: of an entry without handles, the first one. *)
Definition slot_by_handle (dst target : Z) v : option nat :=
  match Handles v with Some hs => default None (find_handle dst target (Neighbours v) hs) | None => find_slot dst (Neighbours v) end.

Lemma slot_by_handle_spec dst target v : view_ok cfg v ->
  match slot_by_handle dst target v with
  | Some idx => Neighbours v !! idx = Some dst /\ forall hs, Handles v = Some hs -> hs !! idx = Some target
  | None => forall idx hs, Handles v = Some hs -> Neighbours v !! idx = Some dst -> hs !! idx <> Some target
  end.
Proof.
  intros Hok. unfold slot_by_handle. destruct (Handles v) as [hs|] eqn:Hh.
  - destruct (find_handle_spec dst target (Neighbours v) hs) as (r & -> & Hs); [by apply (vo_hs _ _ Hok)|]. cbn. destruct r as [i|].
    + destruct Hs. split; [done|]. by intros ? [= <-].
    + intros i ? [= <-]. apply Hs.
  - destruct (find_slot dst (Neighbours v)) as [i|] eqn:Hf; [|done]. by destruct (find_slot_Some _ _ _ Hf).
Qed.

(** The slot the instance was bound to goes, or nothing carries the handle. *)
Theorem remove_handle_spec G src dst target tx ts a : ainv cfg G a -> (0 <= src)%Z ->
  let o := removeOneEdgeByHandleLocked zeroW cfg src dst target tx ts a in
  unless_conflict o tx src a
    (match slot_by_handle dst target (view_of a src) with
     | None => returns o (inr false) a
     | Some idx => writes o src (retire_view idx (view_of a src)) tx ts a true (retired src dst)
     end).
Proof.
  intros Hi Hid o. unfold unless_conflict. subst o.
  destruct (directConflictLocked cfg tx src a) eqn:Hc; [unfold returns, removeOneEdgeByHandleLocked, guarded; by rewrite Hc|].
  unfold removeOneEdgeByHandleLocked. rewrite guarded_none by done.
  destruct (loadEntry a src) as [p|] eqn:Hp; [|unfold view_of; rewrite Hp; done].
  pose proof (slot_by_handle_spec dst target (view_of a src) (view_of_ok _ _ _ _ Hi Hid)) as Hsl.
  destruct (head_entry _ _ _ _ _ Hi Hid Hp) as (_ & Hok & Hf & _ & Hv). destruct (entry_lens _ _ _ _ Hf) as (L1 & L2 & _).
  assert (Hn : nbs_of a (entry_at a p) = Neighbours (view_of a src)) by (by rewrite Hv). unfold slot_by_handle in *.
  assert (Hh : Handles (view_of a src) = if not_nil (handles (entry_at a p)) then Some (contents (zmem (hp a)) (handles (entry_at a p))) else None)
    by (rewrite Hv; apply opt_contents_eq).
  assert (Hret : forall idx, Neighbours (view_of a src) !! idx = Some dst -> exists G' a1, ainv cfg G' a1 /\
    ((retireSlotLocked zeroW cfg src dst (entry_at a p) idx tx ts a = Some (inr tt, retired src dst a1) /\ exists q, write cfg src (retire_view idx (view_of a src)) tx ts a q a1) \/
     (retireSlotLocked zeroW cfg src dst (entry_at a p) idx tx ts a = Some (inl ErrShardFull, a1) /\ full cfg src tx ts a a1))).
  { intros idx Hidx. by apply (retire_spec G src dst p idx tx ts a Hi Hid Hc Hp), (lookup_lt_Some _ _ _ Hidx). }
  rewrite Hh in *. destruct (not_nil (handles (entry_at a p))) eqn:Hnn.
  - rewrite Hn. destruct (find_handle dst target _ _) as [r|] eqn:Hr.
    2: { destruct (find_handle_spec dst target (Neighbours (view_of a src)) (contents (zmem (hp a)) (handles (entry_at a p)))) as (r & Hx & _); [|congruence].
         rewrite <- L2, (eo_hs _ _ Hok) by (by destruct (handles (entry_at a p))). rewrite L1. by rewrite Hv. }
    cbn [mbind option_bind default from_option Datatypes.id] in *. destruct r as [idx|]; [|done]. destruct Hsl as [Hs1 _].
    destruct (Hret idx Hs1) as (G' & a1 & Hi1 & Hcase). exists G', a1. split; [done|]. unfold returns in *. destruct Hcase as [[-> Hw]|[-> Hw]]; [left|right]; done.
  - unfold removeOneEdgeFallback. rewrite Hn. destruct (find_slot dst (Neighbours (view_of a src))) as [idx|]; [|done]. destruct Hsl as [Hs1 _].
    destruct (Hret idx Hs1) as (G' & a1 & Hi1 & Hcase). exists G', a1. split; [done|]. unfold returns in *. destruct Hcase as [[-> Hw]|[-> Hw]]; [left|right]; done.
Qed.

(** Every slot goes at once; the destinations come back with the removal's stamp. *)
Theorem remove_all_spec G src tx ts a : ainv cfg G a -> (0 <= src)%Z ->
  let o := removeAllEdgesLocked cfg src tx ts a in
  unless_conflict o tx src a
    ((Neighbours (view_of a src) = [] /\ returns o (inr ([], (None, 0%Z))) a) \/
     Neighbours (view_of a src) <> [] /\ exists G' a1 q, ainv cfg G' a1 /\ returns o (inr (Neighbours (view_of a src), removalStamp cfg src a1)) a1 /\ write cfg src zero_view tx ts a q a1).
Proof.
  intros Hi Hid o. unfold unless_conflict. subst o.
  destruct (directConflictLocked cfg tx src a) eqn:Hc; [unfold returns, removeAllEdgesLocked, guarded; by rewrite Hc|].
  unfold removeAllEdgesLocked. rewrite guarded_none by done.
  destruct (loadEntry a src) as [p|] eqn:Hp; [|left; unfold view_of; rewrite Hp; done].
  destruct (head_entry _ _ _ _ _ Hi Hid Hp) as (_ & Hok & Hf & _ & Hv).
  assert (Hn : nbs_of a (entry_at a p) = Neighbours (view_of a src)) by (by rewrite Hv). rewrite Hn.
  destruct (Neighbours (view_of a src)) as [|n l] eqn:Hnb; [by left|]. right. split; [done|].
  destruct (store_nil_spec cfg G src a tx ts Hi Hid Hc) as (a' & G2 & q & Hst & Hi' & Hw); [congruence|].
  exists G2, a', q. split; [done|]. cbn [length Nat.eqb]. rewrite Hst. done.
Qed.

(** ** Labels and the side column *)

Lemma relabelled_spec {R} G src p newL (r : R) tx ts a : ainv cfg G a -> (0 <= src)%Z -> directConflictLocked cfg tx src a = None ->
  loadEntry a src = Some p -> length newL = length (Neighbours (view_of a src)) ->
  writes (relabelled cfg src (entry_at a p) newL r tx ts a) src (label_view newL (view_of a src)) tx ts a r (fun a => a).
Proof.
  intros Hi Hid Hc Hp Hl. unfold relabelled. eapply (stored_spec G src a _ _ _ tx ts r (fun a => a)); [done..|]. by apply relabel_spec.
Qed.

Lemma padded_length n l : length (padded n l) = n.
Proof. unfold padded. rewrite length_app, length_take, length_replicate. lia. Qed.

(** A label write publishes the column its definition gives, or finds nothing to change. *)
Definition relabels {R} (o : option ((adjErr + R) * AdjList)) (x : option (list Z) * R) src tx ts a : Prop :=
  unless_conflict o tx src a (match x.1 with
    | None => returns o (inr x.2) a
    | Some newL => length newL = length (Neighbours (view_of a src)) /\ writes o src (label_view newL (view_of a src)) tx ts a x.2 (fun a => a)
    end).

Definition labels_in v : list Z := default [] (Labels v).

Lemma label_op {R} G src tx ts a (f : EntryView W A -> option (list Z) * R) (none : R) (k : nat -> option ((adjErr + R) * AdjList)) :
  ainv cfg G a -> (0 <= src)%Z -> f zero_view = (None, none) ->
  (forall p, loadEntry a src = Some p -> directConflictLocked cfg tx src a = None ->
     match (f (view_of a src)).1 with
     | None => k p = Some (inr (f (view_of a src)).2, a)
     | Some newL => length newL = length (Neighbours (view_of a src)) /\ k p = relabelled cfg src (entry_at a p) newL (f (view_of a src)).2 tx ts a
     end) ->
  relabels (guarded cfg tx src a (match loadEntry a src with None => Some (inr none, a) | Some p => k p end)) (f (view_of a src)) src tx ts a.
Proof.
  intros Hi Hid Hz Hk. unfold relabels, unless_conflict. destruct (directConflictLocked cfg tx src a) eqn:Hc; [unfold returns, guarded; by rewrite Hc|].
  rewrite guarded_none by done. destruct (loadEntry a src) as [p|] eqn:Hp.
  - specialize (Hk p eq_refl eq_refl). destruct (f (view_of a src)).1 as [newL|]; [|done]. destruct Hk as [Hl ->]. split; [done|].
    by eapply relabelled_spec.
  - assert (Hv : view_of a src = zero_view) by (unfold view_of; by rewrite Hp). by rewrite Hv, Hz.
Qed.

Lemma cur_nbs G a src p : ainv cfg G a -> (0 <= src)%Z -> loadEntry a src = Some p ->
  nbs_of a (entry_at a p) = Neighbours (view_of a src) /\ slen (neighbours (entry_at a p)) = length (Neighbours (view_of a src)) /\
  Labels (view_of a src) = (if not_nil (labels (entry_at a p)) then Some (labels_of a (entry_at a p)) else None) /\
  labels_of a (entry_at a p) = labels_in (view_of a src) /\
  (forall l, Labels (view_of a src) = Some l -> length l = length (Neighbours (view_of a src))).
Proof.
  intros Hi Hid Hp. destruct (head_entry _ _ _ _ _ Hi Hid Hp) as (_ & Hok & Hf & _ & Hv). destruct (entry_lens _ _ _ _ Hf) as (L1 & _ & L3 & _).
  split; [by rewrite Hv|]. split; [by rewrite Hv|]. split; [rewrite Hv; apply opt_contents_eq|].
  split; [unfold labels_in; rewrite Hv; cbn; unfold labels_of; by destruct (labels (entry_at a p))|]. apply (vo_ls _ _ (view_of_ok _ _ _ _ Hi Hid)).
Qed.

Definition set_label (dst l : Z) v : option (list Z) * bool :=
  match find_slot dst (Neighbours v) with
  | Some idx => (Some (<[idx := l]> (padded (length (Neighbours v)) (labels_in v))), true)
  | None => (None, false)
  end.

Theorem set_label_spec G src dst l tx ts a : ainv cfg G a -> (0 <= src)%Z ->
  relabels (setEdgeLabelSlotTx cfg src dst l tx ts a) (set_label dst l (view_of a src)) src tx ts a.
Proof.
  intros Hi Hid. eapply label_op; [done..|]. intros p Hp _. destruct (cur_nbs _ _ _ _ Hi Hid Hp) as (Hn & Hs & _ & Hls & _). unfold set_label. rewrite Hn, Hs, Hls.
  destruct (find_slot dst _) as [idx|]; cbn [fst snd]; [|done]. split; [|done]. by rewrite length_insert, padded_length.
Qed.

Definition clear_label (dst l : Z) v : option (list Z) * bool :=
  match Labels v with
  | None => (None, false)
  | Some ls => match find_labelled dst l (Neighbours v) ls with Some idx => (Some (<[idx := 0%Z]> ls), true) | None => (None, false) end
  end.

Theorem clear_label_spec G src dst l tx ts a : ainv cfg G a -> (0 <= src)%Z -> l <> 0%Z ->
  relabels (clearEdgeLabelSlotValueTx cfg src dst l tx ts a) (clear_label dst l (view_of a src)) src tx ts a.
Proof.
  intros Hi Hid Hl. unfold clearEdgeLabelSlotValueTx. apply Z.eqb_neq in Hl as ->. eapply label_op; [done..|]. intros p Hp _.
  destruct (cur_nbs _ _ _ _ Hi Hid Hp) as (Hn & Hs & HL & Hls & Hlen). unfold clear_label. rewrite Hn, HL.
  destruct (not_nil _); cbn [negb]; [|done]. rewrite Hls in *. destruct (find_labelled _ _ _ _); cbn [fst snd]; [|done]. split; [|done].
  rewrite length_insert. by apply Hlen.
Qed.

Lemma label_at_length dst l nbs ls st idx : (forall x, st.1 = Some x -> length x = length nbs) ->
  forall x, (label_at dst l nbs ls st idx).1 = Some x -> length x = length nbs.
Proof.
  intros H x. unfold label_at. destruct (_ || _); [apply H|]. cbn. intros [= <-]. rewrite length_insert. destruct (st.1) as [y|]; [by apply H|apply padded_length].
Qed.

Lemma label_at_fold dst l nbs ls idxs st : (forall x, st.1 = Some x -> length x = length nbs) ->
  forall x, (foldl (label_at dst l nbs ls) st idxs).1 = Some x -> length x = length nbs.
Proof. revert st. induction idxs as [|i idxs IH]; intros st H; [done|]. cbn. apply IH. by apply label_at_length. Qed.

Definition set_labels_at (dst : Z) (idxs : list Z) (l : Z) v : option (list Z) * Z :=
  match foldl (label_at dst l (Neighbours v) (labels_in v)) (None, 0%Z) idxs with
  | (None, _) => (None, 0%Z)
  | (Some newL, written) => (Some newL, written)
  end.

Lemma label_at_none dst l ls idxs : foldl (label_at dst l [] ls) (None, 0%Z) idxs = (None, 0%Z).
Proof.
  induction idxs as [|i idxs IH]; [done|]. cbn [foldl]. unfold label_at at 2. cbn [length]. rewrite (bool_decide_eq_false_2 ([] !! Z.to_nat i = Some dst)) by done.
  cbn [negb]. by rewrite orb_true_r.
Qed.

Theorem set_labels_at_spec G src dst idxs l tx ts a : ainv cfg G a -> (0 <= src)%Z -> idxs <> [] ->
  relabels (setEdgeLabelSlotsAtTx cfg src dst idxs l tx ts a) (set_labels_at dst idxs l (view_of a src)) src tx ts a.
Proof.
  intros Hi Hid Hne. unfold setEdgeLabelSlotsAtTx. destruct idxs as [|i idxs]; [done|]. cbn [length Nat.eqb].
  eapply label_op; [done..|unfold set_labels_at; cbn [Neighbours zero_view]; by rewrite label_at_none|]. intros p Hp _.
  destruct (cur_nbs _ _ _ _ Hi Hid Hp) as (Hn & Hs & _ & Hls & _). unfold set_labels_at. rewrite Hn, Hls.
  pose proof (label_at_fold dst l (Neighbours (view_of a src)) (labels_in (view_of a src)) (i :: idxs) (None, 0%Z) ltac:(done)) as Hx.
  destruct (foldl _ _ _) as [[newL|] n]; cbn [fst snd]; [|done]. split; [|done]. by apply Hx.
Qed.

Definition clear_labels_of (dst : Z) (f : Z -> bool) v : option (list Z) * Z :=
  match Labels v with
  | None => (None, 0%Z)
  | Some ls => let '(newL, cleared) := clear_slots dst f (Neighbours v) ls in if (cleared =? 0)%Z then (None, 0%Z) else (Some newL, cleared)
  end.

Theorem clear_labels_spec G src dst f tx ts a : ainv cfg G a -> (0 <= src)%Z ->
  relabels (clear_labels cfg src dst f tx ts a) (clear_labels_of dst f (view_of a src)) src tx ts a.
Proof.
  intros Hi Hid. eapply label_op; [done..|]. intros p Hp _. destruct (cur_nbs _ _ _ _ Hi Hid Hp) as (Hn & Hs & HL & Hls & Hlen).
  unfold clear_labels_of. rewrite HL. destruct (not_nil _); cbn [negb]; [|done]. rewrite Hls in *. rewrite Hn. unfold clear_slots.
  destruct (Z.eqb _ 0); cbn [fst snd]; [done|]. split; [|done]. rewrite length_imap. by apply Hlen.
Qed.

Lemma label_firsts_length updates ls all i nbs st : (forall x, st.1 = Some x -> length x = all) ->
  forall x, (label_firsts updates ls all i nbs st).1 = Some x -> length x = all.
Proof.
  revert i st. induction nbs as [|n nbs IH]; intros i st H; [done|]. cbn [label_firsts]. destruct (updates !! n) as [l|]; [|by apply IH].
  case_decide; [by apply IH|]. assert (H' : forall x, Some (<[i:=l]> (match st.1 with Some l => l | None => padded all ls end)) = Some x -> length x = all).
  { intros x [= <-]. rewrite length_insert. destruct (st.1) as [y|]; [by apply H|apply padded_length]. }
  case_decide; [exact H'|]. by apply IH.
Qed.

Definition set_labels (updates : gmap Z Z) v : option (list Z) * Z :=
  match label_firsts updates (labels_in v) (length (Neighbours v)) 0 (Neighbours v) (None, ∅) with
  | (None, _) => (None, 0%Z)
  | (Some newL, seen) => (Some newL, Z.of_nat (base.size seen))
  end.

Theorem set_labels_spec G src updates tx ts a : ainv cfg G a -> (0 <= src)%Z -> updates <> ∅ ->
  relabels (setEdgeLabelSlotsTx cfg src updates tx ts a) (set_labels updates (view_of a src)) src tx ts a.
Proof.
  intros Hi Hid Hne. unfold setEdgeLabelSlotsTx. destruct (Nat.eqb_spec (base.size updates) 0) as [H0|_]; [by apply map_size_empty_iff in H0|].
  eapply label_op; [done..|]. intros p Hp _. destruct (cur_nbs _ _ _ _ Hi Hid Hp) as (Hn & Hs & _ & Hls & _). unfold set_labels. rewrite Hn, Hs, Hls.
  pose proof (label_firsts_length updates (labels_in (view_of a src)) (length (Neighbours (view_of a src))) 0 (Neighbours (view_of a src)) (None, ∅) ltac:(done)) as Hx.
  destruct (label_firsts _ _ _ _ _ _) as [[newL|] seen]; cbn [fst snd]; [|done]. split; [|done]. by apply Hx.
Qed.

Theorem update_aux_spec G src fn tx ts a : ainv cfg G a -> (0 <= src)%Z ->
  let v := view_of a src in
  (forall x, (fn (Aux v) (Neighbours v)).1 = Some x -> length (aux_slots x) = length (Neighbours v)) -> (fn None []).2 = false ->
  let o := updateEntryAuxTx cfg src fn tx ts a in
  unless_conflict o tx src a (if (fn (Aux v) (Neighbours v)).2 then writes o src (aux_view (fn (Aux v) (Neighbours v)).1 v) tx ts a true (fun a => a)
                              else returns o (inr false) a).
Proof.
  intros Hi Hid v Hfn Hnil o. unfold unless_conflict. subst o v.
  destruct (directConflictLocked cfg tx src a) eqn:Hc; [unfold returns, updateEntryAuxTx, guarded; by rewrite Hc|].
  unfold updateEntryAuxTx. rewrite guarded_none by done. destruct (loadEntry a src) as [p|] eqn:Hp.
  2: { assert (Hv : view_of a src = zero_view) by (unfold view_of; by rewrite Hp). rewrite Hv. cbn [Aux Neighbours zero_view]. by rewrite Hnil. }
  destruct (head_entry _ _ _ _ _ Hi Hid Hp) as (_ & Hok & Hf & _ & Hv).
  assert (Hfe : fn (aux (entry_at a p)) (nbs_of a (entry_at a p)) = fn (Aux (view_of a src)) (Neighbours (view_of a src))) by (by rewrite Hv).
  rewrite Hfe. destruct (fn _ _) as [newAux changed]. cbn [fst snd] in *. destruct changed; cbn [negb]; [|done].
  eapply (stored_spec G src a _ _ _ tx ts true (fun a => a)); [done..|]. by apply reaux_spec.
Qed.
End writes.
