(* ===== verification/AdjRevFacts.v ===== *)
(** * The in-edge index as multisets

    What an addition and a removal do to the sources of each destination and to the
    ghosts, and sums over the nodes of a graph that do not depend on how they are listed. *)

From Stdlib Require Import ZArith Lia.
From stdpp Require Import list gmap sorting.
From S2P Require Import Prelude Clock WriteStamp AdjHeap AdjReverse AdjList AdjOps AdjMaint AdjHeapFacts AdjHeapInv.

(** ** Sums over listings *)

Section sums.
Context {K : Type} `{!EqDecision K} (f : K -> nat).

Lemma sum_filter l : sum_list_with f (filter (fun x => f x <> 0) l) = sum_list_with f l.
Proof. induction l as [|x l IH]; [done|]. rewrite filter_cons. case_decide; cbn; lia. Qed.

Lemma sum_perm l l' : l ≡ₚ l' -> sum_list_with f l = sum_list_with f l'.
Proof. induction 1; cbn; lia. Qed.

(** Two listings without repetition that cover what counts. *)
Lemma sum_cover l l' : NoDup l -> NoDup l' -> (forall x, f x <> 0 -> x ∈ l) -> (forall x, f x <> 0 -> x ∈ l') ->
  sum_list_with f l = sum_list_with f l'.
Proof.
  intros Hn Hn' Hc Hc'. rewrite <- (sum_filter l), <- (sum_filter l'). apply sum_perm. apply NoDup_Permutation; [by apply NoDup_filter..|].
  intros x. rewrite !list_elem_of_filter. naive_solver.
Qed.
End sums.

Lemma sum_update {K} `{!EqDecision K} (f g : K -> nat) x l : NoDup l -> x ∈ l -> (forall y, y <> x -> g y = f y) ->
  sum_list_with g l + f x = sum_list_with f l + g x.
Proof.
  intros Hn Hx He. induction Hn as [|y l Hy Hn IH]; [by apply not_elem_of_nil in Hx|]. cbn. apply elem_of_cons in Hx as [->|Hx].
  - assert (Hs : sum_list_with g l = sum_list_with f l); [|lia]. clear IH Hn. induction l as [|z l IH]; [done|]. cbn.
    apply not_elem_of_cons in Hy as [Hz Hy]. rewrite IH by done. by rewrite He.
  - rewrite (He y) by (by intros ->). specialize (IH Hx). lia.
Qed.

(** How often [x] occurs. *)
Definition cnt (x : Z) (l : list Z) : nat := length (filter (.= x) l).

Lemma cnt_concat x l l' : cnt x (l ++ l') = cnt x l + cnt x l'.
Proof. unfold cnt. by rewrite filter_app, length_app. Qed.

Lemma cnt_one x y : cnt x [y] = if decide (y = x) then 1 else 0.
Proof. unfold cnt. rewrite filter_cons, filter_nil. by case_decide. Qed.

Lemma cnt_perm x l l' : l ≡ₚ l' -> cnt x l = cnt x l'.
Proof. intros H. unfold cnt. by rewrite H. Qed.

Lemma cnt_pos x l : 0 < cnt x l <-> x ∈ l.
Proof.
  unfold cnt. induction l as [|y l IH]; [split; [cbn; lia|by intros ?%not_elem_of_nil]|].
  rewrite filter_cons, elem_of_cons. case_decide; cbn; [subst; split; [by left|lia]|]. rewrite IH. naive_solver.
Qed.

Lemma cnt_delete x l i y : l !! i = Some y -> cnt x (delete i l) + (if decide (y = x) then 1 else 0) = cnt x l.
Proof. intros H. rewrite (cnt_perm x l (y :: delete i l)) by (by apply delete_Permutation). change (y :: delete i l) with ([y] ++ delete i l). rewrite cnt_concat, cnt_one. lia. Qed.

Local Open Scope Z_scope.

(** ** The index *)

Lemma rev_shard_insert si sh r sj : rev_shard (<[si := sh]> r) sj = if decide (si = sj) then sh else rev_shard r sj.
Proof. unfold rev_shard. case_decide; [subst; by rewrite lookup_insert_eq|by rewrite lookup_insert_ne]. Qed.

Lemma grow_srcs_lookup i l j : default [] (grow_srcs i l !! j) = default [] (l !! j) /\ (i < length (grow_srcs i l))%nat.
Proof.
  unfold grow_srcs. destruct (Nat.leb_spec (length l) i) as [Hl|Hl]; [|done]. split; [|rewrite length_app, length_replicate; lia].
  destruct (decide (j < length l)%nat) as [Hj|Hj]; [by rewrite lookup_app_l|]. rewrite lookup_app_r, (lookup_ge_None_2 l) by lia.
  destruct (replicate _ _ !! _) as [?|] eqn:Hr; [|done]. by apply lookup_replicate in Hr as [-> _].
Qed.

Lemma rev_add_live dst src r d : 0 <= dst -> 0 <= d ->
  live_srcs (rev_add dst src r) d = if decide (d = dst) then live_srcs r dst ++ [src] else live_srcs r d.
Proof.
  intros H1 H2. unfold live_srcs, rev_add. rewrite rev_shard_insert. destruct (grow_srcs_lookup (intra_no dst) (srcs (rev_shard r (shard_no dst))) (intra_no d)) as [Hg Hlt].
  destruct (decide (shard_no dst = shard_no d)) as [Hs|Hs]; [|by rewrite decide_False by congruence]. cbn [srcs]. rewrite list_lookup_alter.
  destruct (decide (intra_no dst = intra_no d)) as [Hi|Hi].
  - rewrite decide_True by (symmetry; by apply slot_inj). rewrite <- Hi in Hg. destruct (lookup_lt_is_Some_2 _ _ Hlt) as [l Hl].
    rewrite Hl in Hg |- *. cbn in *. by rewrite Hg.
  - rewrite Hg, decide_False by congruence. by rewrite Hs.
Qed.

Lemma rev_add_ghosts dst src r d : ghosts_of (rev_add dst src r) d = ghosts_of r d.
Proof. unfold ghosts_of, rev_add. rewrite rev_shard_insert. case_decide as H; [by rewrite H|done]. Qed.

Lemma swap_remove_perm l k x : l !! k = Some x -> l ≡ₚ x :: swap_remove k l.
Proof.
  intros Hk. destruct (last l) as [z|] eqn:Hz; [|apply last_None in Hz; by subst]. apply last_Some in Hz as [l' ->].
  unfold swap_remove. rewrite last_snoc, length_app. cbn [length default from_option]. rewrite Nat.add_sub.
  destruct (decide (k < length l')%nat) as [Hlt|Hlt].
  - rewrite lookup_app_l in Hk by done. rewrite insert_app_l by done. rewrite take_app_le by (by rewrite length_insert). rewrite take_ge by (by rewrite length_insert).
    rewrite Permutation_app_comm. cbn.
    rewrite <- (take_drop_middle l' k x Hk) at 1. rewrite insert_take_drop by done. rewrite <- !Permutation_middle. apply Permutation_swap.
  - rewrite lookup_app_r in Hk by lia. apply list_lookup_singleton_Some in Hk as [Hk ->].
    rewrite insert_app_r_alt by lia. rewrite take_app_le by lia. rewrite take_ge by lia. by rewrite Permutation_app_comm.
Qed.

(** A removal takes one source out, and leaves a ghost when it is stamped. *)
Lemma rev_remove_spec dst src info ts r : 0 <= dst -> src ∈ live_srcs r dst ->
  let r' := rev_remove dst src info ts r in
  live_srcs r dst ≡ₚ src :: live_srcs r' dst /\
  (forall d, 0 <= d -> d <> dst -> live_srcs r' d = live_srcs r d) /\
  (forall d, 0 <= d -> ghosts_of r' d =
     if decide (d = dst /\ (is_Some info \/ ts <> 0)) then ghosts_of r d ++ [mkGhost info ts src] else ghosts_of r d).
Proof.
  intros H0 Hin r'. unfold live_srcs in Hin. subst r'. unfold rev_remove.
  destruct (srcs (rev_shard r (shard_no dst)) !! intra_no dst) as [l|] eqn:Hl; [|by apply not_elem_of_nil in Hin]. cbn in Hin.
  destruct (list_find (fun y => y = src) l) as [[k y]|] eqn:Hf.
  2: { apply list_find_None in Hf. rewrite Forall_forall in Hf. exfalso. by eapply Hf. }
  apply list_find_Some in Hf as (Hk & -> & _). set (gs := if bool_decide (is_Some info) || negb (ts =? 0) then add_ghost (intra_no dst) (mkGhost info ts src) (ghosts (rev_shard r (shard_no dst))) else _). set (sh := mkRev _ gs).
  assert (Hlt : (intra_no dst < length (srcs (rev_shard r (shard_no dst))))%nat) by (by eapply lookup_lt_Some).
  split; [|split].
  - unfold live_srcs. rewrite rev_shard_insert, decide_True by done. cbn [srcs sh]. rewrite Hl, list_lookup_insert_eq by done. cbn. by apply swap_remove_perm.
  - intros d Hd Hne. unfold live_srcs. rewrite rev_shard_insert. case_decide as Hs; [|done]. cbn [srcs sh].
    rewrite list_lookup_insert_ne; [by rewrite Hs|]. intros Hi. apply Hne. by apply slot_inj.
  - intros d Hd. unfold ghosts_of. rewrite rev_shard_insert. destruct (decide (shard_no dst = shard_no d)) as [Hs|Hs]; [|by rewrite decide_False by (intros [-> _]; done)].
    cbn [ghosts sh]. subst gs. destruct (bool_decide (is_Some info) || negb (ts =? 0)) eqn:Hb.
    + assert (Hst : is_Some info \/ ts <> 0).
      { apply orb_true_iff in Hb as [Hb|Hb]; [left; by apply bool_decide_eq_true in Hb|right]. apply negb_true_iff, Z.eqb_neq in Hb. done. }
      unfold add_ghost. destruct (decide (intra_no dst = intra_no d)) as [Hi|Hi].
      * rewrite decide_True by (split; [by apply slot_inj|done]). rewrite Hi, lookup_insert_eq. cbn. by rewrite Hs.
      * rewrite decide_False by (intros [-> _]; done). rewrite lookup_insert_ne by done. by rewrite Hs.
    + rewrite decide_False; [by rewrite Hs|]. intros [_ [Hx|Hx]]; apply orb_false_iff in Hb as [Hb1 Hb2].
      * by rewrite bool_decide_eq_true_2 in Hb1.
      * apply negb_false_iff, Z.eqb_eq in Hb2. done.
Qed.

Lemma sweep_live x w r d : live_srcs (sweepGhosts x w r) d = live_srcs r d.
Proof.
  unfold live_srcs, sweepGhosts, rev_shard. rewrite lookup_fmap. by destruct (r !! shard_no d).
Qed.

Local Close Scope Z_scope.

(** * The in-edge index is the transpose, and the edge counter counts arcs

    With what is still owed counted in: an arc of a forward entry, or one a bulk removal
    has yet to retire, is a source of its destination, and the other way round; and the
    counter plus what is owed to it is the number of forward arcs. *)

(** ** Multiplicities in the index *)

Definition arcs_in (r : revIndex) (s d : Z) : nat := cnt s (live_srcs r d).
Definition one_if (P : Prop) `{!Decision P} : nat := if decide P then 1 else 0.

Lemma arcs_in_add s0 d0 r s d : (0 <= d0)%Z -> (0 <= d)%Z -> arcs_in (rev_add d0 s0 r) s d = arcs_in r s d + one_if (s = s0 /\ d = d0).
Proof.
  intros H0 Hd. unfold arcs_in, one_if. rewrite rev_add_live by done. destruct (decide (d = d0)) as [->|Hne].
  - rewrite cnt_concat, cnt_one. repeat case_decide; naive_solver lia.
  - rewrite decide_False by naive_solver. lia.
Qed.

Lemma arcs_in_remove s0 d0 info ts r s d : (0 <= d0)%Z -> (0 <= d)%Z -> 0 < arcs_in r s0 d0 ->
  arcs_in (rev_remove d0 s0 info ts r) s d + one_if (s = s0 /\ d = d0) = arcs_in r s d.
Proof.
  intros H0 Hd Hp%cnt_pos. destruct (rev_remove_spec d0 s0 info ts r H0 Hp) as (Hperm & Hoth & _). unfold arcs_in, one_if.
  destruct (decide (d = d0)) as [->|Hne].
  - rewrite (cnt_perm s _ _ Hperm). change (s0 :: ?l) with ([s0] ++ l). rewrite cnt_concat, cnt_one. repeat case_decide; naive_solver lia.
  - rewrite Hoth by done. rewrite decide_False by naive_solver. lia.
Qed.

(** Sources are node ids. *)
Definition srcs_ok (r : revIndex) : Prop := forall d x, (0 <= d)%Z -> x ∈ live_srcs r d -> (0 <= x)%Z.

Lemma srcs_ok_add d s r : (0 <= d)%Z -> (0 <= s)%Z -> srcs_ok r -> srcs_ok (rev_add d s r).
Proof.
  intros Hd Hs Hr d' x Hd'. rewrite rev_add_live by done. case_decide; [|by apply Hr]. intros [Hx|Hx%list_elem_of_singleton]%elem_of_app; [by eapply (Hr d)|by subst].
Qed.

Lemma srcs_ok_remove d s info ts r : (0 <= d)%Z -> 0 < arcs_in r s d -> srcs_ok r -> srcs_ok (rev_remove d s info ts r).
Proof.
  intros Hd Hp%cnt_pos Hr d' x Hd' Hx. destruct (rev_remove_spec d s info ts r Hd Hp) as (Hperm & Hoth & _). destruct (decide (d' = d)) as [->|Hne].
  - apply (Hr d); [done|]. rewrite Hperm. by right.
  - apply (Hr d'); [done|]. by rewrite <- Hoth.
Qed.

(** ** The difference of two entries *)

Lemma iter_succ {T} n (f : T -> T) x : Nat.iter (S n) f x = f (Nat.iter n f x).
Proof. done. Qed.

Lemma iter_add n s0 d0 r s d : (0 <= d0)%Z -> (0 <= d)%Z ->
  arcs_in (Nat.iter n (rev_add d0 s0) r) s d = arcs_in r s d + n * one_if (s = s0 /\ d = d0).
Proof. intros H0 Hd. induction n as [|n IH]; [cbn; lia|]. rewrite iter_succ, arcs_in_add, IH, Nat.mul_succ_l by done. lia. Qed.

Lemma iter_remove n s0 d0 r s d : (0 <= d0)%Z -> (0 <= d)%Z -> n <= arcs_in r s0 d0 ->
  arcs_in (Nat.iter n (rev_remove d0 s0 None 0) r) s d + n * one_if (s = s0 /\ d = d0) = arcs_in r s d.
Proof.
  intros H0. revert s d. induction n as [|n IH]; intros s d Hd Hn; [cbn; lia|]. rewrite iter_succ.
  assert (Hp : 0 < arcs_in (Nat.iter n (rev_remove d0 s0 None 0) r) s0 d0).
  { pose proof (IH s0 d0 H0 ltac:(lia)) as H. unfold one_if in H. rewrite decide_True in H by done. lia. }
  pose proof (arcs_in_remove s0 d0 None 0 _ s d H0 Hd Hp). pose proof (IH s d Hd ltac:(lia)). rewrite Nat.mul_succ_l. lia.
Qed.

Lemma iter_srcs_ok n s0 d0 r : (0 <= d0)%Z -> n <= arcs_in r s0 d0 -> srcs_ok r -> srcs_ok (Nat.iter n (rev_remove d0 s0 None 0) r).
Proof.
  intros H0 Hn Hr. induction n as [|n IH]; [done|]. rewrite iter_succ. apply srcs_ok_remove; [done| |apply IH; lia].
  pose proof (iter_remove n s0 d0 r s0 d0 H0 H0 ltac:(lia)) as H. unfold one_if in H. rewrite decide_True in H by done. lia.
Qed.

Lemma iter_add_srcs_ok n s0 d0 r : (0 <= d0)%Z -> (0 <= s0)%Z -> srcs_ok r -> srcs_ok (Nat.iter n (rev_add d0 s0) r).
Proof. intros H0 Hs Hr. induction n as [|n IH]; [done|]. rewrite iter_succ. by apply srcs_ok_add. Qed.

Section reindex.
Context (src : Z) (pre cur : list Z) (Hsrc : (0 <= src)%Z).

Definition diff (k : Z) : Z := (Z.of_nat (cnt k pre) - Z.of_nat (cnt k cur))%Z.

Lemma reindex_key_spec n r k : (0 <= k)%Z -> cnt k cur <= arcs_in r src k -> srcs_ok r ->
  let r' := (reindex_key src pre cur (n, r) k).2 in
  (reindex_key src pre cur (n, r) k).1 = (n + diff k)%Z /\ srcs_ok r' /\
  forall s d, (0 <= d)%Z -> Z.of_nat (arcs_in r' s d) = (Z.of_nat (arcs_in r s d) + if decide (s = src /\ d = k) then diff k else 0)%Z.
Proof.
  intros Hk Hc Hr. unfold reindex_key. cbn [fst snd]. change (length (filter (.= k) pre)) with (cnt k pre). change (length (filter (.= k) cur)) with (cnt k cur).
  fold (diff k). split; [done|]. unfold diff in *. destruct (Z.ltb_spec 0 (Z.of_nat (cnt k pre) - Z.of_nat (cnt k cur))) as [Hd|Hd].
  - split; [by apply iter_add_srcs_ok|]. intros s d Hd'. rewrite iter_add by done. unfold one_if. case_decide; lia.
  - assert (Hle : Z.to_nat (- (Z.of_nat (cnt k pre) - Z.of_nat (cnt k cur))) <= arcs_in r src k) by lia.
    split; [by apply iter_srcs_ok|]. intros s d Hd'. pose proof (iter_remove _ src k r s d Hk Hd' Hle) as H. unfold one_if in H.
    case_decide; lia.
Qed.

Lemma reindex_fold ks n r : NoDup ks -> (forall k, k ∈ ks -> (0 <= k)%Z /\ cnt k cur <= arcs_in r src k) -> srcs_ok r ->
  let st := foldl (reindex_key src pre cur) (n, r) ks in
  st.1 = (n + foldr Z.add 0 (diff <$> ks))%Z /\ srcs_ok st.2 /\
  forall s d, (0 <= d)%Z -> Z.of_nat (arcs_in st.2 s d) = (Z.of_nat (arcs_in r s d) + if decide (s = src /\ d ∈ ks) then diff d else 0)%Z.
Proof.
  intros Hn. revert n r. induction Hn as [|k ks Hk Hn IH]; intros n r Hks Hr; cbn [foldl fmap list_fmap foldr fst snd].
  - split; [cbn; lia|]. split; [done|]. intros s d Hd. rewrite decide_False; [lia|]. intros [_ H]. by apply not_elem_of_nil in H.
  - destruct (Hks k ltac:(by left)) as [Hk0 Hkc]. destruct (reindex_key_spec n r k Hk0 Hkc Hr) as (H1 & H2 & H3).
    destruct (reindex_key src pre cur (n, r) k) as [n1 r1]. cbn [fst snd] in *.
    destruct (IH n1 r1) as (F1 & F2 & F3); [|done|].
    { intros j Hj. destruct (Hks j ltac:(by right)) as [Hj0 Hjc]. split; [done|]. pose proof (H3 src j Hj0) as Hx. rewrite decide_False in Hx; [lia|]. intros [_ ->]. done. }
    split; [rewrite F1, H1; lia|]. split; [done|]. intros s d Hd. rewrite F3, H3 by done.
    destruct (decide (s = src /\ d = k)) as [[-> ->]|Hne].
    + rewrite decide_False by naive_solver. rewrite decide_True by (split; [done|by left]). lia.
    + destruct (decide (s = src /\ d ∈ ks)) as [[-> Hin]|Hni]; [rewrite decide_True by (split; [done|by right]); lia|].
      rewrite decide_False; [lia|]. intros [-> [->|Hin]%elem_of_cons]; naive_solver.
Qed.
End reindex.

Lemma sum_cnt (ks l : list Z) : NoDup ks -> (forall x, x ∈ l -> x ∈ ks) -> sum_list_with (fun k => cnt k l) ks = length l.
Proof.
  intros Hn. induction l as [|x l IH]; intros Hl.
  - clear. induction ks as [|k ks IH]; [done|]. cbn [sum_list_with]. rewrite IH. done.
  - assert (Hx : x ∈ ks) by (apply Hl; by left). pose proof (sum_update (fun k => cnt k l) (fun k => cnt k (x :: l)) x ks Hn Hx) as H.
    assert (Hc : forall k, cnt k (x :: l) = one_if (x = k) + cnt k l).
    { intros k. change (x :: l) with ([x] ++ l). by rewrite cnt_concat, cnt_one. }
    cbv beta in H. rewrite (Hc x) in H. unfold one_if in H. rewrite decide_True in H by done. rewrite IH in H by (intros y Hy; apply Hl; by right). cbn [length].
    assert (H' := H ltac:(intros y Hy; rewrite Hc; unfold one_if; by rewrite decide_False by congruence)). lia.
Qed.

Lemma sum_diff pre cur : foldr Z.add 0%Z (diff pre cur <$> remove_dups (pre ++ cur)) = (Z.of_nat (length pre) - Z.of_nat (length cur))%Z.
Proof.
  assert (H : forall ks, foldr Z.add 0%Z (diff pre cur <$> ks) = (Z.of_nat (sum_list_with (fun k => cnt k pre) ks) - Z.of_nat (sum_list_with (fun k => cnt k cur) ks))%Z).
  { intros ks. induction ks as [|k ks IH]; [done|]. cbn [fmap list_fmap foldr sum_list_with]. rewrite IH. unfold diff. lia. }
  rewrite H, !sum_cnt; [done|apply NoDup_remove_dups| |apply NoDup_remove_dups|]; intros x Hx; apply elem_of_remove_dups, elem_of_app; auto.
Qed.
