(* ===== verification/AdjUpkeep.v ===== *)
(** * Compaction, reclamation, withdrawal and pins keep the invariant

    None of them panics, none changes what any entry reads as, and each changes the
    current entries and the chains in one way only: compaction to twins with the same
    version, reclamation by cutting a chain at a version at or below the watermark,
    withdrawal to a twin of the pre-image behind the aborting record. *)

From Stdlib Require Import ZArith Lia.
From stdpp Require Import list gmap.
From S2P Require Import Prelude Clock WriteStamp AdjHeap AdjReverse AdjList AdjOps AdjMaint AdjHeapFacts AdjHeapInv AdjBuild AdjStoreEntry AdjWrite.

Section upkeep.
Context {W A P : Type} (zeroW : W) `{!AuxColumn A P} `{!AuxLaws A P} (cfg : Config A P).
Abbreviation adjEntry := (adjEntry A).
Abbreviation heap := (heap W A).
Abbreviation AdjList := (AdjList W A).
Implicit Types (h : heap) (a : AdjList) (e : adjEntry) (G : ghost).

(** ** What a view means *)

(** The columns with the side column as the list of its slots: two columns that differ
    only in their representation read the same. *)
Definition reading (v : EntryView W A) : EntryView W (list (option P)) := mkView (Neighbours v) (Weights v) (Handles v) (Labels v) (aux_slots <$> Aux v).

(** Entries that read the same and carry the same version. *)
Definition twin h h' (o o' : option nat) : Prop :=
  reading (viewOf h' o') = reading (viewOf h o) /\ (o' ≫= load_ver h') = (o ≫= load_ver h) /\ (is_Some o <-> is_Some o').

Lemma twin_refl h o : twin h h o o.
Proof. done. Qed.

Lemma twin_trans h1 h2 h3 o1 o2 o3 : twin h1 h2 o1 o2 -> twin h2 h3 o2 o3 -> twin h1 h3 o1 o3.
Proof. intros (E1 & E2 & E3) (F1 & F2 & F3). split; [congruence|]. split; [congruence|tauto]. Qed.

(** A heap over which nothing but new entries appeared. *)
Record grown h h' : Prop := {
  gr_views : same_views h h';
  gr_vers : vers h' = vers h;
  gr_old i : i < length (ents h) -> load_ver h' i = load_ver h i;
  gr_len : length (ents h) <= length (ents h');
}.

Lemma grown_refl h : grown h h.
Proof. split; [apply same_views_refl|done..]. Qed.

Lemma grown_trans h1 h2 h3 : grown h1 h2 -> grown h2 h3 -> grown h1 h3.
Proof.
  intros [] []. split; [by eapply same_views_trans|congruence| |lia]. intros i Hi. rewrite gr_old1 by lia. by apply gr_old0.
Qed.

Lemma twin_grown h h' o : grown h h' -> (forall p, o = Some p -> p < length (ents h)) -> twin h h' o o.
Proof.
  intros [] Ho. split; [f_equal; by apply same_views_viewOf|]. split; [|done]. destruct o as [p|]; [|done]. cbn. by apply gr_old0, Ho.
Qed.

(** ** An entry adopted as the current one *)

Lemma adopt G id h hd n (v : EntryView W A) vr e h' : hinv cfg G h hd n -> (0 <= id)%Z -> constructs cfg G id h v vr (Some (e, h')) ->
  (forall w, vr = Some w -> exists p, load_ver h p = Some w /\ eO G p = id) ->
  let h2 := with_ents (ents h' ++ [e]) h' in
  exists G', hinv cfg G' h2 (<[id := Some (length (ents h))]> hd) n /\ grown h h2 /\ length (ents h') = length (ents h) /\
    length (ents h2) = S (length (ents h)) /\ viewOf h2 (Some (length (ents h))) = v /\ load_ver h2 (length (ents h)) = vr.
Proof.
  intros Hi Hid [(e' & h'' & G' & [= <- <-] & Hext & Hok & Hf & Ht & Hv & Hview)] Hver h2. exists G'.
  destruct (alloc_inv cfg id G h hd n G' h2 e) as (Hi2 & Hsv & _); [done..|by rewrite Hv|].
  assert (He : ents h2 = ents h ++ [e]) by apply (he_ents _ _ _ _ _ _ Hext).
  assert (Hlen : length (ents h2) = S (length (ents h))) by (rewrite He, length_app; cbn; lia).
  assert (Hen : ents h2 !! length (ents h) = Some e) by (by rewrite He, list_lookup_middle).
  split. { eapply publish_inv; [done|exact Hen| |done]. by rewrite (he_eO _ _ _ _ _ _ Hext), fn_insert_eq. }
  split. { split; [done|apply (he_vers _ _ _ _ _ _ Hext)| |lia]. intros i Hlt. unfold load_ver. by rewrite He, lookup_app_l. }
  split; [unfold h2 in Hlen; cbn in Hlen; rewrite length_app in Hlen; cbn in Hlen; lia|]. split; [done|].
  split; [unfold viewOf; cbn [mbind option_bind]; rewrite Hen; done|]. by rewrite (load_ver_at _ _ _ Hen).
Qed.

(** The head of a node, its entry and what holds of it. *)
Lemma head_of G h hd n id p : hinv cfg G h hd n -> (0 <= id)%Z -> hd id = Some p ->
  exists e, ents h !! p = Some e /\ entry_ok cfg e /\ entry_fits G h id e /\ entry_tight G e /\ eO G p = id /\ p < length (ents h).
Proof.
  intros Hi Hid Hp. destruct (hi_head _ _ _ _ _ Hi _ _ Hid Hp) as (HO & e & He & Ht). destruct (hi_ok _ _ _ _ _ Hi _ _ He) as [Hok Hf].
  rewrite HO in Hf. exists e. split_and!; try done. by eapply lookup_lt_Some.
Qed.

(** ** Trimmed entries *)

Lemma trim_constructs G id h e : entry_ok cfg e -> entry_fits G h id e -> entry_tight G e ->
  trimEntry zeroW e h = Some (None, h) \/
  exists e' h' v, trimEntry zeroW e h = Some (Some e', h') /\ constructs cfg G id h v (ver e) (Some (e', h')) /\ reading v = reading (entry_view h e).
Proof.
  intros Hok Hf Ht. unfold trimEntry. set (at_ := aux e ≫= AuxCompact). destruct (_ && _); [by left|right].
  set (ax := match at_ with Some x => Some x | None => aux e end).
  assert (Hax : aux_slots <$> ax = aux_slots <$> aux e).
  { subst ax at_. destruct (aux e) as [x|]; [|done]. cbn. destruct (AuxCompact x) as [y|] eqn:Hy; [|done]. cbn. by rewrite (AuxCompact_spec _ _ Hy). }
  destruct (entry_lens _ _ _ _ Hf) as (L1 & L2 & L3 & L4). pose proof (weights_len _ _ Hok) as Lw.
  pose proof (rebuild cfg G id h e (exact_col 0%Z (slen (neighbours e)) (neighbours e)) (trim_col zeroW (slen (neighbours e)) (weights e))
    (trim_col 0%Z (slen (handles e)) (handles e)) (trim_col 0%Z (slen (labels e)) (labels e)) true (fun c => c) (fun c => c) (fun c => c) (fun c => c)
    (slen (neighbours e)) (not_nil (labels e)) ax (ver e) Hok Hf Ht) as Hr.
  assert (Hb : constructs cfg G id h (mkView (contents (zmem h) (neighbours e)) (contents (wmem h) (weights e)) (option_map (fun c => c) (opt_contents (zmem h) (handles e)))
      (if not_nil (labels e) then Some (contents (zmem h) (labels e)) else None) ax) (ver e)
    (built_entry (exact_col 0%Z (slen (neighbours e)) (neighbours e)) (trim_col zeroW (slen (neighbours e)) (weights e))
    (trim_col 0%Z (slen (handles e)) (handles e)) (trim_col 0%Z (slen (labels e)) (labels e)) ax (ver e) h)).
  { apply Hr.
    - apply col_exact.
    - pose proof (col_trim zeroW (slen (neighbours e)) (weights e)) as Hc. pose proof (eo_ws _ _ Hok) as Hw. destruct (Weightless cfg).
      + rewrite Hw in Hc |- *. by apply Hc.
      + destruct Hw as [Hw _]. specialize (Hc ltac:(done)). destruct (weights e); [done|]. cbn [not_nil slen from_option] in *. by rewrite <- Hw in *.
    - eapply col_fun_any, col_trim; done.
    - eapply col_fun_any, col_trim; done.
    - intros Hw. rewrite Hw in Lw. lia.
    - intros Hs. pose proof (eo_hs _ _ Hok ltac:(by destruct (handles e))). lia.
    - intros Hs. pose proof (eo_ls _ _ Hok ltac:(by destruct (labels e))). lia.
    - intros x Hx. rewrite Hx in Hax. destruct (aux e) as [y|] eqn:Hy; [|done]. cbn in Hax. injection Hax as ->. rewrite (eo_aux _ _ Hok _ Hy). lia. }
  destruct (built_entry _ _ _ _ ax (ver e) h) as [[e' h']|] eqn:Hbe; [|by destruct Hb as [(? & ? & ? & ? & _)]].
  eexists e', h', _. split; [|split; [exact Hb|]].
  - unfold built_entry in Hbe. change (match at_ with Some x => Some x | None => aux e end) with ax.
    destruct (on_z _ h) as [[nb h1]|]; [|done]. cbn [mbind option_bind] in *. destruct (on_w _ h1) as [[ws h2]|]; [|done]. cbn [mbind option_bind] in *.
    destruct (on_z _ h2) as [[hs h3]|]; [|done]. cbn [mbind option_bind] in *. destruct (on_z _ h3) as [[ls h4]|]; [|done]. cbn [mbind option_bind] in *.
    by injection Hbe as -> ->.
  - unfold reading. cbn. rewrite Hax, !opt_contents_eq. by destruct (not_nil (handles e)).
Qed.

(** ** The pass over a shard *)

Definition slot_of (l : list (option nat)) (next : option (list (option nat))) (i : nat) : option nat := default None (default l next !! i).

(** The current entries once the pass publishes [next] for shard [si]. *)
Definition pass_heads (si : Z) (l : list (option nat)) (next : option (list (option nat))) (hd : Z -> option nat) : Z -> option nat :=
  fun id => if decide (shard_no id = si) then slot_of l next (intra_no id) else hd id.

Lemma slot_of_insert l next i q j : length (default l next) = length l -> i < length l ->
  slot_of l (Some (<[i := Some q]> (default l next))) j = if decide (j = i) then Some q else slot_of l next j.
Proof.
  intros Hl Hi. unfold slot_of. cbn [default from_option id]. rewrite list_lookup_insert. case_decide as Hd.
  - destruct Hd as [-> _]. by rewrite decide_True.
  - rewrite decide_False; [done|]. intros ->. apply Hd. split; [done|]. by rewrite Hl.
Qed.

Lemma trim_slot_spec G si l hd n k next a : (0 <= si < shardCount)%Z -> hinv cfg G (hp a) (pass_heads si l next hd) n ->
  length (default l next) = length l -> k < length l -> default l next !! k = l !! k ->
  exists next' a' G', trim_slot zeroW l (next, a) k = Some (next', a') /\ hinv cfg G' (hp a') (pass_heads si l next' hd) n /\
    a' = with_hp (hp a') a /\ grown (hp a) (hp a') /\ length (default l next') = length l /\
    (forall j, j <> k -> default l next' !! j = default l next !! j) /\
    (forall j, twin (hp a) (hp a') (slot_of l next j) (slot_of l next' j)).
Proof.
  intros Hsi Hi Hlen Hk Heq. unfold trim_slot.
  assert (Hsame : exists next' a' G', Some (next, a) = Some (next', a') /\ hinv cfg G' (hp a') (pass_heads si l next' hd) n /\
    a' = with_hp (hp a') a /\ grown (hp a) (hp a') /\ length (default l next') = length l /\
    (forall j, j <> k -> default l next' !! j = default l next !! j) /\ (forall j, twin (hp a) (hp a') (slot_of l next j) (slot_of l next' j))).
  { exists next, a, G. split; [done|]. split; [done|]. split; [by destruct a|]. split; [apply grown_refl|]. done. }
  destruct (default None (l !! k)) as [p|] eqn:Hp; [|exact Hsame].
  destruct (slot_of_id si k Hsi) as (Hid & Hsn & Hin). set (id := id_of_slot si k) in *.
  assert (Hhd : pass_heads si l next hd id = Some p) by (unfold pass_heads; rewrite decide_True by done; unfold slot_of; by rewrite Hin, Heq).
  destruct (head_of _ _ _ _ _ _ Hi Hid Hhd) as (e & He & Hok & Hf & Ht & HO & Hlt).
  assert (Hea : entry_at a p = e) by (unfold entry_at; by rewrite He). rewrite Hea.
  destruct (trim_constructs G id (hp a) e Hok Hf Ht) as [->|(e' & h' & v & -> & Hc & Hv)]; [exact Hsame|]. cbn [mbind option_bind].
  destruct (adopt G id (hp a) (pass_heads si l next hd) n v (ver e) e' h' Hi Hid Hc) as (G' & Hi' & Hg & Hl1 & Hl2 & Hview & Hver).
  { intros w Hw. exists p. by rewrite (load_ver_at _ _ _ He). }
  rewrite alloc_entry_eq. cbn [hp with_hp]. rewrite Hl1. set (h2 := with_ents _ h') in *. set (q := length (ents (hp a))) in *.
  exists (Some (<[k := Some q]> (default l next))), (with_hp h2 a), G'. split; [done|]. cbn [hp with_hp].
  split.
  { eapply hinv_heads; [exact Hi'|]. intros id' i Hid'. unfold pass_heads. rewrite fn_insert_dec. destruct (decide (shard_no id' = si)) as [Hs|Hs].
    - rewrite slot_of_insert by done. destruct (decide (intra_no id' = k)) as [Hik|Hik].
      + rewrite decide_True; [done|]. apply slot_inj; congruence.
      + rewrite decide_False; [done|]. intros <-. by apply Hik.
    - rewrite decide_False; [done|]. by intros <-. }
  split; [done|]. split; [done|]. cbn [default from_option Datatypes.id]. split; [by rewrite length_insert|].
  split; [intros j Hj; by rewrite list_lookup_insert_ne by done|]. intros j. rewrite slot_of_insert by done. case_decide as Hj.
  - subst j. unfold slot_of. rewrite Heq, Hp. split; [|split; [|done]].
    + rewrite Hview, Hv. unfold viewOf. cbn [mbind option_bind]. by rewrite He.
    + cbn [mbind option_bind]. by rewrite Hver, (load_ver_at _ _ _ He).
  - apply twin_grown; [done|]. intros p' Hp'. destruct (slot_of_id si j Hsi) as (Hid' & Hsn' & Hin').
    destruct (head_of _ _ _ _ (id_of_slot si j) p' Hi Hid') as (? & ? & ? & ? & ? & ? & Hx); [|exact Hx].
    unfold pass_heads. rewrite decide_True by done. by rewrite Hin'.
Qed.

Lemma trim_slots_spec G si l hd n m k next a : (0 <= si < shardCount)%Z -> hinv cfg G (hp a) (pass_heads si l next hd) n ->
  length (default l next) = length l -> k + m = length l -> (forall j, k <= j -> default l next !! j = l !! j) ->
  exists next' a' G', trim_slots zeroW l (seq k m) (next, a) = Some (next', a') /\ hinv cfg G' (hp a') (pass_heads si l next' hd) n /\
    a' = with_hp (hp a') a /\ grown (hp a) (hp a') /\ length (default l next') = length l /\
    (forall j, twin (hp a) (hp a') (slot_of l next j) (slot_of l next' j)).
Proof.
  intros Hsi. revert k next a G. induction m as [|m IH]; intros k next a G Hi Hlen Hk Heq; cbn [seq trim_slots].
  - exists next, a, G. split; [done|]. split; [done|]. split; [by destruct a|]. split; [apply grown_refl|]. done.
  - destruct (trim_slot_spec G si l hd n k next a) as (next1 & a1 & G1 & -> & Hi1 & Ha1 & Hg1 & Hl1 & Hne1 & Ht1); [done..|lia|by apply Heq|].
    cbn [mbind option_bind]. destruct (IH (S k) next1 a1 G1) as (next2 & a2 & G2 & -> & Hi2 & Ha2 & Hg2 & Hl2 & Ht2); [done..|lia| |].
    { intros j Hj. rewrite Hne1 by lia. apply Heq. lia. }
    exists next2, a2, G2. split; [done|]. split; [done|]. split; [rewrite Ha2; by rewrite Ha1|]. split; [by eapply grown_trans|]. split; [done|].
    intros j. by eapply twin_trans.
Qed.

(** ** compactShard *)

Lemma sinv_grown h a : sinv a -> length (ents (hp a)) <= length (ents h) -> sinv (with_hp h a).
Proof. intros [] Hl. split; try done. intros r l i e Hr Hs. eapply Nat.lt_le_trans; [by eapply si_ptr|done]. Qed.

(** What maintenance leaves alone. *)
Record kept a a' : Prop := {
  kp_mv : mv a' = mv a;
  kp_va : versionActive a' = versionActive a;
  kp_size : size a' = size a;
  kp_hs : handleSeq a' = handleSeq a;
  kp_bo : bulkOwner a' = bulkOwner a;
  kp_frozen : builders_free a -> keeps_frozen a a' /\ builders_free a';
}.

Lemma kept_refl a : kept a a.
Proof. split; try done. Qed.

Lemma kept_trans a1 a2 a3 : kept a1 a2 -> kept a2 a3 -> kept a1 a3.
Proof. intros [] []. split; try congruence. by eapply frozen_trans. Qed.

Definition unbuilt (si : Z) a : AdjList := set_shard si (mkShard (slotsRef (shard_at a si)) (versioned (shard_at a si)) 0 None) a.

Lemma unbuilt_spec si a : sinv a ->
  sinv (unbuilt si a) /\ kept a (unbuilt si a) /\ (forall id, loadEntry (unbuilt si a) id = loadEntry a id) /\
  (forall sj, versioned (shard_at (unbuilt si a) sj) = versioned (shard_at a sj)).
Proof.
  intros Hs. destruct (reshard_spec si (mkShard (slotsRef (shard_at a si)) (versioned (shard_at a si)) 0 None) a Hs) as (H1 & H2 & H3 & H4); [done..|].
  split; [done|]. split; [by split|]. split; [done|]. intros sj. unfold unbuilt. rewrite shard_set. case_decide; [by subst|done].
Qed.

(** The publication of a whole array where there is no builder. *)
Lemma republish_spec si l a : sinv a -> (0 <= si < shardCount)%Z -> building (shard_at a si) = None -> buildingOwner (shard_at a si) = 0%Z ->
  (forall i p, l !! i = Some (Some p) -> p < length (ents (hp a))) ->
  let a' := set_shard si (mkShard (Some (length (arrs a))) (versioned (shard_at a si)) 0 None) (with_arrs (arrs a ++ [mkSlots l false]) a) in
  sinv a' /\ kept a a' /\ hp a' = hp a /\ rv a' = rv a /\ (forall sj, versioned (shard_at a' sj) = versioned (shard_at a sj)) /\
  (forall id, loadEntry a' id = if decide (shard_no id = si) then default None (l !! intra_no id) else loadEntry a id).
Proof.
  intros Hs Hsi Hb Ho Hl a'.
  assert (Ha : a' = publish_arr si 0 l a).
  { unfold a', publish_arr, new_arr. cbn -[shard_at set_shard]. change (shard_at (with_arrs _ a)) with (shard_at a). by rewrite Hb, Ho. }
  destruct (publish_list_spec si 0 l a Hs Hsi Hl (fun _ => Hb)) as (H1 & H2 & H3). rewrite Ha. split; [done|]. destruct H2.
  split; [split; try done; intros; by apply publish_frozen|]. done.
Qed.

Theorem compactShard_spec G si a : ainv cfg G a -> (0 <= si < shardCount)%Z ->
  exists a' G', compactShard zeroW si a = Some a' /\ ainv cfg G' a' /\ grown (hp a) (hp a') /\ kept a a' /\ rv a' = rv a /\
    (forall sj, versioned (shard_at a' sj) = versioned (shard_at a sj)) /\
    (forall id, (0 <= id)%Z -> twin (hp a) (hp a') (loadEntry a id) (loadEntry a' id)).
Proof.
  intros Hi Hsi. unfold compactShard. fold (unbuilt si a). destruct (unbuilt_spec si a) as (Hs1 & Hk1 & Hl1 & Hv1); [apply Hi|].
  set (a1 := unbuilt si a) in *. assert (Hh1 : hp a1 = hp a) by done. assert (Hrv1 : rv a1 = rv a) by done.
  assert (Hat : shard_at a1 si = mkShard (slotsRef (shard_at a si)) (versioned (shard_at a si)) 0 None) by (unfold a1, unbuilt; by rewrite shard_set, decide_True).
  assert (Hi1 : hinv cfg G (hp a1) (loadEntry a) (length (recs (mv a1)))) by apply Hi.
  clearbody a1. destruct (slotsRef (shard_at a si)) as [r|] eqn:Hr.
  2: { exists a1, G. split; [done|]. split; [split; [|done|rewrite (kp_mv _ _ Hk1); apply Hi]|].
       - eapply hinv_heads; [exact Hi1|]. intros id i _. by rewrite Hl1.
       - rewrite Hh1. split; [apply grown_refl|]. split; [done|]. split; [done|]. split; [done|]. intros id _. by rewrite Hl1. }
  set (l := slots (arr_at a1 r)). assert (Hld : forall id, shard_no id = si -> loadEntry a id = default None (l !! intra_no id)).
  { intros id Hs. rewrite <- Hl1. unfold loadEntry. by rewrite Hs, Hat. }
  destruct (trim_slots_spec G si l (loadEntry a) (length (recs (mv a1))) (length l) 0 None a1 Hsi) as (next & a2 & G' & Heq & Hi2 & Ha2 & Hg & Hlen & Htw); [|done..|].
  { eapply hinv_heads; [exact Hi1|]. intros id i _. unfold pass_heads. case_decide as Hs; [|done]. unfold slot_of. cbn [default from_option]. by rewrite (Hld id Hs). }
  rewrite Heq. cbn [mbind option_bind].
  assert (Hs2 : sinv a2) by (rewrite Ha2; apply sinv_grown; [done|apply Hg]).
  assert (Hk2 : kept a a2) by (eapply kept_trans; [exact Hk1|]; rewrite Ha2; by split).
  assert (Hl2 : forall id, loadEntry a2 id = loadEntry a id) by (intros id; rewrite Ha2; by rewrite <- Hl1).
  assert (Hat2 : shard_at a2 = shard_at a1) by (by rewrite Ha2).
  assert (Hrv2 : rv a2 = rv a) by (by rewrite Ha2). rewrite Hh1 in Hg, Htw. clear Ha2.
  assert (Hmv2 : mv a2 = mv a1) by (rewrite (kp_mv _ _ Hk2); by rewrite (kp_mv _ _ Hk1)).
  assert (Hoth : forall id, (0 <= id)%Z -> twin (hp a) (hp a2) (loadEntry a id) (loadEntry a id)).
  { intros id Hid. apply twin_grown; [done|]. intros p Hp. by destruct (head_of _ _ _ _ _ _ (ai_heap _ _ _ Hi) Hid Hp) as (? & ? & ? & ? & ? & ? & ?). }
  assert (Htw' : forall id, (0 <= id)%Z -> shard_no id = si -> twin (hp a) (hp a2) (loadEntry a id) (slot_of l next (intra_no id))).
  { intros id Hid Hs. rewrite (Hld id Hs). apply (Htw (intra_no id)). }
  destruct next as [l'|].
  - cbn [default from_option] in Hlen. destruct (republish_spec si l' a2 Hs2 Hsi) as (Hs3 & Hk3 & Hh3 & Hrv3 & Hv3 & Hl3); [by rewrite Hat2, Hat..| |].
    { intros i p He. destruct (slot_of_id si i Hsi) as (Hid & Hsn & Hin).
      destruct (head_of _ _ _ _ (id_of_slot si i) p Hi2 Hid) as (? & ? & ? & ? & ? & ? & Hx); [|exact Hx].
      unfold pass_heads. rewrite decide_True by done. unfold slot_of. rewrite Hin. cbn. by rewrite He. }
    cbn [new_arr]. unfold new_arr. rewrite Hat2, Hat in Hs3, Hk3, Hh3, Hrv3, Hv3, Hl3. set (a3 := set_shard _ _ _) in *. clearbody a3.
    exists a3, G'. split; [done|]. split; [|split; [by rewrite Hh3|split; [by eapply kept_trans|split; [congruence|split]]]].
    + split; [|done|rewrite (kp_mv _ _ Hk3), (kp_mv _ _ Hk2); apply Hi]. rewrite Hh3, (kp_mv _ _ Hk3), Hmv2. eapply hinv_heads; [exact Hi2|].
      intros id i _. rewrite Hl3. unfold pass_heads. case_decide; [done|]. by rewrite Hl2.
    + intros sj. rewrite Hv3. apply Hv1.
    + intros id Hid. rewrite Hl3, Hh3. case_decide as Hs; [by apply Htw'|]. rewrite Hl2. by apply Hoth.
  - exists a2, G'. split; [done|]. split; [|split; [done|split; [done|split; [done|split]]]].
    + split; [|done|rewrite (kp_mv _ _ Hk2); apply Hi]. rewrite Hmv2. eapply hinv_heads; [exact Hi2|]. intros id i _. rewrite Hl2.
      unfold pass_heads. case_decide as Hs; [|done]. unfold slot_of. cbn [default from_option]. by rewrite (Hld id Hs).
    + intros sj. rewrite Hat2. apply Hv1.
    + intros id Hid. rewrite Hl2. by apply Hoth.
Qed.

(** ** Reclamation *)

(** Chains cut at versions at or below the watermark, and nothing else. *)
Record severed (w : Z) a a' : Prop := {
  sv_views : same_views (hp a) (hp a');
  sv_vers : vers (hp a') = vers (hp a);
  sv_len : length (ents (hp a')) = length (ents (hp a));
  sv_cut i : load_ver (hp a') i = load_ver (hp a) i \/
    load_ver (hp a') i = None /\ exists v, load_ver (hp a) i = Some v /\ (supersededAt a (get_version a v) <= w)%Z;
  sv_kept : kept a a';
  sv_rv : rv a' = rv a;
  sv_load id : loadEntry a' id = loadEntry a id;
  sv_versioned si : versioned (shard_at a' si) ⊆ versioned (shard_at a si);
}.

Lemma severed_refl w a : severed w a a.
Proof. split; try done; [apply same_views_refl|by left]. Qed.

Lemma severed_trans w a1 a2 a3 : severed w a1 a2 -> severed w a2 a3 -> severed w a1 a3.
Proof.
  intros H1 H2. split; [eapply same_views_trans; [apply H1|apply H2]|rewrite (sv_vers _ _ _ H2); apply H1|rewrite (sv_len _ _ _ H2); apply H1| |
    eapply kept_trans; [apply H1|apply H2]|rewrite (sv_rv _ _ _ H2); apply H1|intros id; rewrite (sv_load _ _ _ H2); apply H1|
    intros si; etrans; [apply (sv_versioned _ _ _ H2)|apply (sv_versioned _ _ _ H1)]].
  intros i. destruct (sv_cut _ _ _ H1 i) as [H|H], (sv_cut _ _ _ H2 i) as [H'|(H' & v & Hv & Hw)].
  - left. congruence.
  - right. split; [done|]. exists v. rewrite <- H. split; [done|]. unfold get_version, supersededAt in *.
    by rewrite (sv_vers _ _ _ H1), (kp_mv _ _ (sv_kept _ _ _ H1)) in Hw.
  - right. destruct H. split; [congruence|done].
  - right. split; [done|]. apply H.
Qed.

Lemma sever_loop_spec G hd n fuel w k a oe : hinv cfg G (hp a) hd n ->
  let a' := (sever_loop fuel w k a oe).2 in
  a' = with_hp (hp a') a /\ hinv cfg G (hp a') hd n /\
  (hp a' = hp a \/ exists q v, load_ver (hp a) q = Some v /\ (supersededAt a (get_version a v) <= w)%Z /\ hp a' = store_ver q None (hp a)).
Proof.
  intros Hi. revert k oe. induction fuel as [|fuel IH]; intros k oe; cbn [sever_loop]; [split; [by destruct a|]; split; [done|by left]|].
  assert (Hn : a = with_hp (hp a) a) by by destruct a.
  destruct oe as [cur|]; [|split; [done|]; split; [done|by left]]. destruct (load_ver (hp a) cur) as [v|] eqn:Hv; [|split; [done|]; split; [done|by left]].
  destruct (Z.leb_spec (supersededAt a (get_version a v)) w); [|apply IH]. cbn [snd]. split; [done|]. split; [by apply sever_inv|].
  right. exists cur, v. done.
Qed.

Lemma drop_versioned_spec si i a : sinv a ->
  sinv (drop_versioned si i a) /\ kept a (drop_versioned si i a) /\ (forall id, loadEntry (drop_versioned si i a) id = loadEntry a id) /\
  (forall sj, versioned (shard_at (drop_versioned si i a) sj) ⊆ versioned (shard_at a sj)).
Proof.
  intros Hs. unfold drop_versioned.
  destruct (reshard_spec si (mkShard (slotsRef (shard_at a si)) (versioned (shard_at a si) ∖ {[i]}) (buildingOwner (shard_at a si)) (building (shard_at a si))) a Hs)
    as (H1 & H2 & H3 & H4); [done..|].
  split; [done|]. split; [by split|]. split; [done|]. intros sj. rewrite shard_set. case_decide; [subst; cbn; set_solver|done].
Qed.

Lemma drop_severed w si i a : sinv a -> severed w a (drop_versioned si i a).
Proof.
  intros Hs. destruct (drop_versioned_spec si i a Hs) as (H1 & H2 & H3 & H4). split; try done; [apply same_views_refl|by left].
Qed.

Lemma reclaim_slot_spec G w si i n a : ainv cfg G a ->
  let a' := (reclaim_slot w si i (n, a)).2 in ainv cfg G a' /\ severed w a a'.
Proof.
  intros Hi. cbn [reclaim_slot]. destruct (slot_at a (slotsRef (shard_at a si)) i) as [e|].
  2: { cbn [snd]. destruct (drop_versioned_spec si i a) as (H1 & H2 & H3 & H4); [apply Hi|]. split; [|apply drop_severed, Hi].
       split; [|done|rewrite (kp_mv _ _ H2); apply Hi]. rewrite (kp_mv _ _ H2). eapply hinv_heads; [apply Hi|]. intros id j _. by rewrite H3. }
  unfold severChain. pose proof (sever_loop_spec G (loadEntry a) (length (recs (mv a))) (fuel_of a) w 0 a (Some e) (ai_heap _ _ _ Hi)) as Hsv.
  destruct (sever_loop (fuel_of a) w 0 a (Some e)) as [[m k] a1]. cbn [snd] in Hsv. destruct Hsv as (Ha1 & Hi1 & Hc).
  assert (Hlen : length (ents (hp a1)) = length (ents (hp a))) by (destruct Hc as [->|(q & v & _ & _ & ->)]; [done|apply store_ver_length]).
  assert (Hs1 : sinv a1) by (rewrite Ha1; apply sinv_grown; [apply Hi|lia]).
  assert (Hl1 : forall id, loadEntry a1 id = loadEntry a id) by (intros id; by rewrite Ha1).
  assert (Hmv1 : mv a1 = mv a) by (by rewrite Ha1).
  assert (Hi1' : ainv cfg G a1).
  { split; [|done|rewrite Hmv1; apply Hi]. rewrite Hmv1. eapply hinv_heads; [exact Hi1|]. intros id j _. by rewrite Hl1. }
  assert (Hsev : severed w a a1).
  { split; try done.
    - destruct Hc as [->|(q & v & _ & _ & ->)]; [apply same_views_refl|apply same_views_ver].
    - by destruct Hc as [->|(q & v & _ & _ & ->)].
    - intros j. destruct Hc as [->|(q & v & Hv & Hw & ->)]; [by left|]. rewrite store_ver_load. case_decide as Hd; [|by left].
      destruct Hd as [<- _]. right. split; [done|]. by exists v.
    - rewrite Ha1. by split.
    - by rewrite Ha1.
    - intros sj. by rewrite Ha1. }
  destruct (bool_decide _); cbn [snd]; [done|]. destruct (drop_versioned_spec si i a1 Hs1) as (H1 & H2 & H3 & H4).
  split; [|eapply severed_trans; [done|by apply drop_severed]].
  split; [|done|rewrite (kp_mv _ _ H2); apply Hi1']. rewrite (kp_mv _ _ H2). eapply hinv_heads; [apply Hi1'|]. intros id j _. by rewrite H3.
Qed.

Theorem reclaim_shard_spec G w si a : ainv cfg G a -> let a' := (reclaim_shard w si a).2 in ainv cfg G a' /\ severed w a a'.
Proof.
  intros Hi. unfold reclaim_shard. induction (elements _) as [|i l IH]; cbn [foldr]; [split; [done|apply severed_refl]|].
  destruct (foldr (reclaim_slot w si) (0%Z, a) l) as [n a1]. destruct IH as [IH1 IH2]. cbn [snd] in IH1, IH2.
  destruct (reclaim_slot_spec G w si i n a1 IH1) as [H1 H2]. split; [done|]. by eapply severed_trans.
Qed.
End upkeep.

(** * Withdrawal of an aborting transaction's entries

    A node whose newest version is the aborting record's gets a twin of the pre-image
    behind it as its current entry, in arrays that cannot grow in place; the in-edges
    move by the difference of the two. *)

Section withdraw.
Context {W A P : Type} (zeroW : W) `{!AuxColumn A P} `{!AuxLaws A P} (cfg : Config A P).
Abbreviation adjEntry := (adjEntry A).
Abbreviation heap := (heap W A).
Abbreviation AdjList := (AdjList W A).
Implicit Types (h : heap) (a : AdjList) (e : adjEntry) (G : ghost).

Lemma clip_constructs G id h e : entry_ok cfg e -> entry_fits G h id e ->
  constructs cfg G id h (entry_view h e) (ver e) (Some (clip_entry e, h)).
Proof.
  intros Hok Hf. split. exists (clip_entry e), h, (mkGhosts (gz G) (gw G) (<[length (ents h) := id]> (eO G)) (vO G)). split; [done|].
  split; [split; try done; apply extends_refl|]. destruct Hf as [F1 F2 F3 F4].
  destruct (clip_fits _ _ _ _ F1) as (C1 & T1 & V1), (clip_fits _ _ _ _ F2) as (C2 & T2 & V2), (clip_fits _ _ _ _ F3) as (C3 & T3 & V3), (clip_fits _ _ _ _ F4) as (C4 & T4 & V4).
  assert (Hsl : forall s, slen (clip_col s) = slen s) by (by intros []).
  split; [|split; [by split|split; [by split|split; [done|]]]].
  - destruct Hok as [Hw Hh Hl Ha]. split; cbn [weights neighbours handles labels aux clip_entry]; rewrite ?Hsl.
    + destruct (Weightless cfg); [by rewrite Hw|]. split; [apply Hw|]. destruct Hw as [Hw _]. destruct (weights e), (neighbours e); done.
    + intros Hs. apply Hh. destruct (handles e); [done|by destruct Hs].
    + intros Hs. apply Hl. destruct (labels e); [done|by destruct Hs].
    + apply Ha.
  - unfold entry_view. cbn [weights neighbours handles labels aux clip_entry]. rewrite V1, V4. f_equal.
    + rewrite !opt_contents_eq, V2. by destruct (handles e).
    + rewrite !opt_contents_eq, V3. by destruct (labels e).
Qed.

(** The current entry of one node replaced in place or in a copy of a frozen array. *)
Lemma restore_spec id oe a : sinv a -> (0 <= id)%Z -> is_Some (loadEntry a id) -> (forall q, oe = Some q -> q < length (ents (hp a))) ->
  let a' := restoreSlotLocked id oe a in
  sinv a' /\ kept a a' /\ hp a' = hp a /\ rv a' = rv a /\ (forall sj, versioned (shard_at a' sj) = versioned (shard_at a sj)) /\
  (forall id', (0 <= id')%Z -> loadEntry a' id' = if decide (id' = id) then oe else loadEntry a id').
Proof.
  intros Hs Hid [p Hp] Ho. unfold restoreSlotLocked. destruct (loadEntry_Some _ _ _ Hp) as (b & l & Hb & Hl & Hli). rewrite Hb.
  assert (Hat : arr_at a b = l) by (unfold arr_at; by rewrite Hl). destruct (frozen (arr_at a b)) eqn:Hfr; cbn [negb].
  - unfold new_arr. destruct (unbuilt_spec (shard_no id) a Hs) as (Hs1 & Hk1 & Hl1 & Hv1).
    set (a1 := unbuilt (shard_no id) a) in *. assert (Hsh : shard_at a1 (shard_no id) = mkShard (slotsRef (shard_at a (shard_no id))) (versioned (shard_at a (shard_no id))) 0 None)
      by (unfold a1, unbuilt; by rewrite shard_set, decide_True).
    destruct (republish_spec (shard_no id) (<[intra_no id := oe]> (slots (arr_at a b))) a1 Hs1 (shard_no_range id)) as (Hs2 & Hk2 & Hh2 & Hr2 & Hv2 & Hl2); [by rewrite Hsh..| |].
    { intros i q. rewrite list_lookup_insert. case_decide; [intros [= Hx]; by apply Ho|]. rewrite Hat. intros Hq. by eapply (si_ptr _ Hs). }
    rewrite Hsh in *. cbn [versioned] in *.
    replace (set_shard (shard_no id) (mkShard (Some (length (arrs a))) (versioned (shard_at a (shard_no id))) 0 None) (with_arrs (arrs a ++ [mkSlots (<[intra_no id:=oe]> (slots (arr_at a b))) false]) a))
      with (set_shard (shard_no id) (mkShard (Some (length (arrs a1))) (versioned (shard_at a (shard_no id))) 0 None) (with_arrs (arrs a1 ++ [mkSlots (<[intra_no id:=oe]> (slots (arr_at a b))) false]) a1)).
    2: { unfold a1, unbuilt, set_shard, with_shards, with_arrs. cbn. by rewrite insert_insert_eq. }
    set (a2 := set_shard _ _ _) in *. clearbody a2. split; [done|]. split; [by eapply kept_trans|]. split; [done|]. split; [done|].
    split; [intros sj; rewrite Hv2; apply Hv1|]. intros id' Hid'. rewrite Hl2. destruct (decide (shard_no id' = shard_no id)) as [Hsn|Hsn].
    + rewrite list_lookup_insert. destruct (decide (id' = id)) as [->|Hne].
      * rewrite decide_True; [done|]. split; [done|]. rewrite Hat. by eapply lookup_lt_Some.
      * rewrite decide_False; [|intros [Hin _]; by apply Hne, slot_inj]. unfold loadEntry, slot_at. by rewrite Hsn, Hb.
    + rewrite decide_False by congruence. apply Hl1.
  - destruct (store_slot_spec id oe a b Hs Hb) as (H1 & H2 & H3); [rewrite Hat; by eapply lookup_lt_Some|done..|].
    split; [done|]. destruct H2. split; [split; try done; intros; by apply store_slot_frozen|]. done.
Qed.

(** What a withdrawal does to a node that it does not leave alone. *)
Record withdrew (r : nat) (id : Z) a p v (pre : option nat) (d : Z) a' : Prop := {
  wd_head : loadEntry a id = Some p;
  wd_ver : load_ver (hp a) p = Some v;
  wd_info : v_info (get_version a v) = Some r;
  wd_over : v_ts (get_version a v) = adjOverPreImage;
  wd_pre : pre = first_such (not_aborted a) (ch a (v_prev (get_version a v)));
  wd_rv : reindexWithdrawnLocked id (Some p) pre a = (d, with_rv (rv a') a);
  wd_grown : grown (hp a) (hp a');
  wd_kept : kept a a';
  wd_versioned si : versioned (shard_at a' si) ⊆ versioned (shard_at a si);
  wd_others id' : (0 <= id')%Z -> id' <> id -> loadEntry a' id' = loadEntry a id';
  wd_twin : twin (hp a) (hp a') pre (loadEntry a' id);
}.

Lemma pre_owned G id a p v : ainv cfg G a -> (0 <= id)%Z -> loadEntry a id = Some p -> load_ver (hp a) p = Some v ->
  forall q, first_such (not_aborted a) (ch a (v_prev (get_version a v))) = Some q -> q < length (ents (hp a)) /\ eO G q = id.
Proof.
  intros Hi Hid Hp Hv q. destruct (hi_head _ _ _ _ _ (ai_heap _ _ _ Hi) _ _ Hid Hp) as (HO & _).
  destruct (hi_ver _ _ _ _ _ (ai_heap _ _ _ Hi) _ _ Hv) as [Hlt HvO]. destruct (lookup_lt_is_Some_2 _ _ Hlt) as [vr Hvr].
  destruct (chain_ok cfg G (hp a) (loadEntry a) (length (recs (mv a))) (fuel_of a) (v_prev (get_version a v)) id) as [Hc Hl]; [apply Hi| |].
  { intros x Hx. unfold get_version in Hx. rewrite Hvr in Hx. cbn in Hx. destruct (hi_prev _ _ _ _ _ (ai_heap _ _ _ Hi) _ _ _ Hvr Hx) as (? & ? & _). split; [done|congruence]. }
  unfold first_such, ch. destruct (list_find _ _) as [[i x]|] eqn:Hf; [|apply Hl]. apply list_find_Some in Hf as (Hf & _ & _).
  intros [= <-]. rewrite Forall_lookup in Hc. destruct (Hc _ _ Hf) as [H1 H2 _ _]. done.
Qed.

Lemma reindex_eq src cur pre a : exists d r, reindexWithdrawnLocked src cur pre a = (d, with_rv r a).
Proof. unfold reindexWithdrawnLocked. destruct (foldl _ _ _) as [d r]. by exists d, r. Qed.

Theorem withdraw_slot_spec G r id a : ainv cfg G a -> (0 <= id)%Z ->
  (withdraw_slot r id a = (0%Z, 0%Z, a) /\
   forall p v, loadEntry a id = Some p -> load_ver (hp a) p = Some v -> v_info (get_version a v) = Some r -> v_ts (get_version a v) <> adjOverPreImage) \/
  exists p v pre n d a' G', withdraw_slot r id a = (n, d, a') /\ withdrew r id a p v pre d a' /\ ainv cfg G' a'.
Proof.
  intros Hi Hid. unfold withdraw_slot. destruct (loadEntry a id) as [p|] eqn:Hp; [|by left]. cbn [mbind option_bind].
  destruct (load_ver (hp a) p) as [v|] eqn:Hv; [|left; split; [done|]; intros ? ? [= <-]; congruence]. destruct (negb _ || negb _) eqn:Hg.
  { left. split; [done|]. intros q w [= <-] Hw H1 H2. rewrite Hv in Hw. injection Hw as <-. apply orb_true_iff in Hg as [Hg|Hg]; apply negb_true_iff in Hg.
    - by apply bool_decide_eq_false in Hg.
    - by apply Z.eqb_neq in Hg. }
  apply orb_false_iff in Hg as [Hg1 Hg2]. apply negb_false_iff, bool_decide_eq_true in Hg1. apply negb_false_iff, Z.eqb_eq in Hg2.
  right. pose proof (pre_owned G id a p v Hi Hid Hp Hv) as Hown.
  pose proof (skip_aborted_chain (fuel_of a) a (v_prev (get_version a v)) 1) as Hsk. fold (ch a (v_prev (get_version a v))) in Hsk.
  destruct (skip_aborted (fuel_of a) a (v_prev (get_version a v)) 1) as [pre n]. cbn [fst] in Hsk. rewrite <- Hsk in Hown.
  destruct (reindex_eq id (Some p) pre a) as (d & rv' & Hri). rewrite Hri. set (a1 := with_rv rv' a).
  (* the clipped pre-image *)
  assert (Hclip : exists oe h2 G', clipEntry pre a1 = (oe, with_hp h2 a1) /\ hinv cfg G' h2 (<[id := oe]> (loadEntry a)) (length (recs (mv a))) /\
     grown (hp a) h2 /\ twin (hp a) h2 pre oe /\ (forall q, oe = Some q -> q < length (ents h2))).
  { destruct pre as [q|]; cbn [clipEntry].
    - destruct (Hown q eq_refl) as [Hq HO]. destruct (lookup_lt_is_Some_2 _ _ Hq) as [e He].
      destruct (hi_ok _ _ _ _ _ (ai_heap _ _ _ Hi) _ _ He) as [Hok Hf]. rewrite HO in Hf.
      assert (Hea : entry_at a1 q = e) by (unfold entry_at, a1; cbn; by rewrite He). rewrite Hea, alloc_entry_eq.
      destruct (adopt cfg G id (hp a) (loadEntry a) (length (recs (mv a))) _ _ (clip_entry e) (hp a) (ai_heap _ _ _ Hi) Hid (clip_constructs G id (hp a) e Hok Hf))
        as (G' & Hi' & Hgr & _ & Hlen & Hview & Hver).
      { intros w Hw. exists q. by rewrite (load_ver_at _ _ _ He). }
      change (hp a1) with (hp a). set (h2 := with_ents _ (hp a)) in *. exists (Some (length (ents (hp a)))), h2, G'.
      split; [done|]. split; [done|]. split; [done|]. split; [|intros ? [= <-]; lia].
      split; [|split; [|done]].
      + rewrite Hview. unfold viewOf. cbn [mbind option_bind]. by rewrite He.
      + cbn [mbind option_bind]. by rewrite Hver, (load_ver_at _ _ _ He).
    - exists None, (hp a), G. split; [done|]. split.
      + eapply hinv_heads; [apply Hi|]. intros id' i _. rewrite fn_insert_dec. by case_decide.
      + split; [apply grown_refl|]. done. }
  destruct Hclip as (oe & h2 & G' & -> & Hi2 & Hgr & Htw & Hoe). set (a2 := with_hp h2 a1).
  assert (Hs2 : sinv a2) by (apply (sinv_grown h2 a1); [by destruct (ai_store _ _ _ Hi)|apply Hgr]).
  assert (Hl2 : loadEntry a2 = loadEntry a) by done.
  destruct (restore_spec id oe a2 Hs2 Hid) as (Hs3 & Hk3 & Hh3 & Hr3 & Hv3 & Hl3); [by rewrite Hl2, Hp|done|].
  set (a3 := restoreSlotLocked id oe a2) in *. clearbody a3.
  assert (Hk : kept a a3) by (eapply kept_trans; [|exact Hk3]; by split).
  set (a4 := if bool_decide _ then a3 else _).
  assert (Ha4 : sinv a4 /\ kept a a4 /\ hp a4 = hp a3 /\ rv a4 = rv a3 /\ (forall id', loadEntry a4 id' = loadEntry a3 id') /\
    forall sj, versioned (shard_at a4 sj) ⊆ versioned (shard_at a3 sj)).
  { subst a4. destruct (bool_decide _); [done|]. destruct (drop_versioned_spec (shard_no id) (intra_no id) a3 Hs3) as (D1 & D2 & D3 & D4).
    split; [done|]. split; [by eapply kept_trans|]. done. }
  clearbody a4. destruct Ha4 as (Hs4 & Hk4 & Hh4 & Hr4 & Hl4 & Hv4).
  exists p, v, pre, n, d, a4, G'. split; [done|]. split.
  - split; try done.
    + rewrite Hr4, Hr3. exact Hri.
    + by rewrite Hh4, Hh3.
    + intros si. etrans; [apply Hv4|]. by rewrite Hv3.
    + intros id' Hid' Hne. rewrite Hl4, Hl3 by done. by rewrite decide_False.
    + rewrite Hl4, Hl3, decide_True, Hh4, Hh3 by done. exact Htw.
  - split; [|done|rewrite (kp_mv _ _ Hk4); apply Hi]. rewrite Hh4, Hh3, (kp_mv _ _ Hk4). eapply hinv_heads; [exact Hi2|].
    intros id' i Hid'. rewrite Hl4, Hl3 by done. rewrite fn_insert_dec, Hl2. repeat case_decide; congruence.
Qed.

(** ** Pins *)

Lemma freeze_spec si a : sinv a ->
  let a' := (freezeCurrent si a).2 in
  sinv a' /\ hp a' = hp a /\ rv a' = rv a /\ mv a' = mv a /\ size a' = size a /\ versionActive a' = versionActive a /\ handleSeq a' = handleSeq a /\
  bulkOwner a' = bulkOwner a /\ (forall id, loadEntry a' id = loadEntry a id) /\ keeps_frozen a a' /\ (forall sj, versioned (shard_at a' sj) = versioned (shard_at a sj)) /\
  (forall r, (freezeCurrent si a).1 = Some r -> r < length (arrs a') /\ frozen (arr_at a' r) = true /\ slots (arr_at a' r) = slots (arr_at a r)) /\
  (building (shard_at a si) = None -> builders_free a -> builders_free a').
Proof.
  intros Hs. unfold freezeCurrent. destruct (slotsRef (shard_at a si)) as [b|] eqn:Hb; cbn [fst snd]; [|split_and!; done].
  set (a' := with_arrs _ a). pose proof (si_ref _ Hs _ _ Hb) as Hlt.
  assert (Hat : forall r, arr_at a' r = if decide (b = r) then mkSlots (slots (arr_at a r)) (bool_decide (r < length (arrs a)) || frozen (arr_at a r)) else arr_at a r).
  { intros r. unfold arr_at, a'. cbn. rewrite list_lookup_alter. case_decide; [subst|done]. destruct (arrs a !! r) as [x|] eqn:Hx; cbn.
    - rewrite bool_decide_eq_true_2 by (by eapply lookup_lt_Some). done.
    - apply lookup_ge_None in Hx. rewrite bool_decide_eq_false_2 by lia. done. }
  assert (Hsl : forall r, slots (arr_at a' r) = slots (arr_at a r)) by (intros r; rewrite Hat; by case_decide).
  split_and!; try done.
  - split.
    + intros sj r. cbn. rewrite length_alter. apply (si_ref _ Hs).
    + apply (si_inj _ Hs).
    + apply (si_bld _ Hs).
    + apply (si_own _ Hs).
    + intros r l i e. cbn. rewrite list_lookup_alter. case_decide; [subst|apply (si_ptr _ Hs)].
      destruct (arrs a !! r) as [l0|] eqn:Hr; [|done]. intros [= <-]. cbn. by apply (si_ptr _ Hs r).
  - intros id. unfold loadEntry, slot_at. change (shard_at a') with (shard_at a). destruct (slotsRef (shard_at a (shard_no id))); [|done]. by rewrite Hsl.
  - intros r Hr Hfr. split; [cbn; by rewrite length_alter|]. rewrite Hat. case_decide; [|done]. subst. rewrite Hfr, orb_true_r. by destruct (arr_at a r); cbn in *; subst.
  - intros r [= <-]. rewrite Hat, decide_True by done. cbn. rewrite length_alter, bool_decide_eq_true_2 by done. done.
  - intros Hn Hf sj b' Hb'. change (shard_at a') with (shard_at a) in Hb'. rewrite Hat, decide_False; [by eapply Hf|].
    intros ->. pose proof (si_bld _ Hs _ _ Hb') as Hx. rewrite (si_inj _ Hs _ _ _ Hx Hb) in Hb'. congruence.
Qed.
End withdraw.
