(* ===== verification/AdjSystem.v ===== *)
(** * The adjacency as a system of critical sections

    Writers, the compactor, the reclaimer, aborting transactions and snapshots interleave
    at the granularity of the shard locks: an [action] is what one of them does while it
    holds a lock, or one atomic update outside.  What a critical section leaves to be done
    after its lock is released (the edge counter, the in-edges of a bulk removal, the
    version counter) is owed, and settled by later actions in any order. *)

From Stdlib Require Import ZArith Lia.
From stdpp Require Import list gmap.
From S2P Require Import Prelude Clock WriteStamp AdjHeap AdjReverse AdjList AdjOps AdjMaint.

Local Open Scope Z_scope.

Section system.
Context {W A P : Type} (zeroW : W) `{!AuxColumn A P} (cfg : Config A P).
Abbreviation AdjList := (AdjList W A).
Abbreviation outcome R := (option ((adjErr + R) * AdjList)) (only parsing).
Implicit Types (a : AdjList).

(** ** The writes of one shard *)

Inductive write_op :=
  | Upsert (src dst : Z) (w : W) (ex : edgeExtra P)
  | RemoveOne (src dst : Z)
  | RemoveHandle (src dst target : Z)
  | RemoveAll (src : Z)
  | SetLabel (src dst l : Z)
  | ClearLabel (src dst l : Z)
  | SetLabelsAt (src dst : Z) (idxs : list Z) (l : Z)
  | ClearLabels (src dst : Z) (f : Z -> bool)
  | SetLabels (src : Z) (updates : gmap Z Z)
  | UpdateAux (src : Z) (fn : option A -> list Z -> option A * bool).

Inductive answer :=
  | Done
  | Flag (b : bool)
  | Removed (b : bool) (handle : Z)
  | Count (n : Z)
  | Dests (dsts : list Z) (info : option nat) (ts : Z).

Definition tag {R} (f : R -> answer) (o : outcome R) : outcome answer :=
  '(r, a) ← o; Some (match r with inl err => inl err | inr x => inr (f x) end, a).

Definition exec_write (o : write_op) (tx : option nat) (ts : Z) a : outcome answer :=
  match o with
  | Upsert src dst w ex => tag (fun _ => Done) (upsertEdgeLocked zeroW cfg src dst w ex tx ts a)
  | RemoveOne src dst => tag (fun x => Removed x.1 x.2) (removeOneEdgeWithHandleLocked zeroW cfg src dst tx ts a)
  | RemoveHandle src dst target => tag Flag (removeOneEdgeByHandleLocked zeroW cfg src dst target tx ts a)
  | RemoveAll src => tag (fun x => Dests x.1 x.2.1 x.2.2) (removeAllEdgesLocked cfg src tx ts a)
  | SetLabel src dst l => tag Flag (setEdgeLabelSlotTx cfg src dst l tx ts a)
  | ClearLabel src dst l => tag Flag (clearEdgeLabelSlotValueTx cfg src dst l tx ts a)
  | SetLabelsAt src dst idxs l => tag Count (setEdgeLabelSlotsAtTx cfg src dst idxs l tx ts a)
  | ClearLabels src dst f => tag Count (clear_labels cfg src dst f tx ts a)
  | SetLabels src updates => tag Count (setEdgeLabelSlotsTx cfg src updates tx ts a)
  | UpdateAux src fn => tag Flag (updateEntryAuxTx cfg src fn tx ts a)
  end.

Definition op_src (o : write_op) : Z :=
  match o with
  | Upsert src _ _ _ | RemoveOne src _ | RemoveHandle src _ _ | RemoveAll src | SetLabel src _ _ | ClearLabel src _ _
  | SetLabelsAt src _ _ _ | ClearLabels src _ _ | SetLabels src _ | UpdateAux src _ => src
  end.

(** ** The system *)

Record owedArc := mkOwed { ow_src : Z; ow_dst : Z; ow_info : option nat; ow_ts : Z }.

Record system := mkSys { adj : AdjList; owed_size : list Z; owed_vers : list Z; owed_arcs : list owedArc }.
Implicit Types (s : system).

Definition with_adj a s := mkSys a (owed_size s) (owed_vers s) (owed_arcs s).
Definition owe_size n s := mkSys (adj s) (owed_size s ++ [n]) (owed_vers s) (owed_arcs s).
Definition owe_vers n s := mkSys (adj s) (owed_size s) (owed_vers s ++ [n]) (owed_arcs s).
Definition owe_arcs l s := mkSys (adj s) (owed_size s) (owed_vers s) (owed_arcs s ++ l).

(** What the caller of a write does next. *)
Definition owe (o : write_op) (x : answer) s : system :=
  match o, x with
  | Upsert _ _ _ _, _ => owe_size 1 s
  | RemoveOne _ _, Removed true _ | RemoveHandle _ _ _, Flag true => owe_size (u64 (-1)) s
  | RemoveAll src, Dests dsts info ts =>
      if (length dsts =? 0)%nat then s
      else owe_arcs ((fun dst => mkOwed src dst info ts) <$> dsts) (owe_size (u64 (- Z.of_nat (length dsts))) s)
  | _, _ => s
  end.

Inductive action :=
  | Write (o : write_op) (tx : option nat) (ts : Z)
  | SettleSize (i : nat)
  | SettleVers (i : nat)
  | SettleArc (i : nat)
  | TakeHandle
  | SeedHandle (highWater : Z)
  | Compact (si : Z)
  | Sweep (watermark : Z)
  | ReclaimShard (watermark si : Z)
  | WithdrawSlot (r : nat) (id : Z)
  | Freeze (si : Z)
  | OpenCommit (fresh : Z)
  | CloseCommit
  | OpenBuild (fresh : Z)
  | CloseBuild
  | NewTx
  | ArmTx (i : nat) (id : Z)
  | PublishTx (i : nat)
  | EndTx (i : nat)
  | EndOpenTx
  | CommitRec (r : nat) (ts : Z)
  | AbortRec (r : nat).

(** The next state of the system, the outcome of a write included; [None] is a panic.
    Settling what is not owed does nothing. *)
Definition run (act : action) s : option system :=
  let a := adj s in
  match act with
  | Write o tx ts =>
      '(r, a) ← exec_write o tx ts a;
      Some (match r with inl _ => with_adj a s | inr x => owe o x (with_adj a s) end)
  | SettleSize i =>
      Some (match owed_size s !! i with
            | Some n => mkSys (add_size n a) (delete i (owed_size s)) (owed_vers s) (owed_arcs s)
            | None => s end)
  | SettleVers i =>
      Some (match owed_vers s !! i with
            | Some n => mkSys (add_versions n a) (owed_size s) (delete i (owed_vers s)) (owed_arcs s)
            | None => s end)
  | SettleArc i =>
      Some (match owed_arcs s !! i with
            | Some o => mkSys (with_rv (rev_remove (ow_dst o) (ow_src o) (ow_info o) (ow_ts o) (rv a)) a)
                          (owed_size s) (owed_vers s) (delete i (owed_arcs s))
            | None => s end)
  | TakeHandle => Some (with_adj (NextHandle a).2 s)
  | SeedHandle n => Some (with_adj (SeedHandleSeq n a) s)
  | Compact si => a ← compactShard zeroW si a; Some (with_adj a s)
  | Sweep w => Some (with_adj (if versioning cfg then with_rv (sweepGhosts (mv a) w (rv a)) a else a) s)
  | ReclaimShard w si => let '(n, a) := reclaim_shard w si a in Some (owe_vers (- n) (with_adj a s))
  | WithdrawSlot r id => let '(n, d, a) := withdraw_slot r id a in Some (owe_size (u64 d) (owe_vers (- n) (with_adj a s)))
  | Freeze si => Some (with_adj (freezeCurrent si a).2 s)
  | OpenCommit fresh => Some (with_adj (BeginCommit cfg fresh a) s)
  | CloseCommit => Some (with_adj (EndCommit a) s)
  | OpenBuild fresh => a ← BeginExclusiveBuild cfg fresh a; Some (with_adj a s)
  | CloseBuild => Some (with_adj (EndExclusiveBuild a) s)
  | NewTx => Some (with_adj (with_mv (with_states (states (mv a) ++ [mkTx NoWindow 0 0 [] [] 0]) (mv a)) a) s)
  | ArmTx i id => Some (with_adj (with_mv (with_state i (fun t => (Arm id t).1) (mv a)) a) s)
  | PublishTx i => Some (with_adj (with_mv (Publish i (mv a)) a) s)
  | EndTx i => Some (with_adj (with_mv (EndFor i (mv a)).1.1 a) s)
  | EndOpenTx => Some (with_adj (with_mv (End (mv a)).1.1 a) s)
  | CommitRec r ts => Some (with_adj (with_mv (set_ts r ts (mv a)) a) s)
  | AbortRec r => Some (with_adj (with_mv (abort_rec r (mv a)) a) s)
  end.

(** ** What callers respect *)

(** A new side column is as long as the neighbours whenever the old one is, and a node
    without slots has nothing to change. *)
Definition callback_ok (fn : option A -> list Z -> option A * bool) : Prop :=
  (forall cur nbs, (forall x, cur = Some x -> length (aux_slots x) = length nbs) ->
     forall x, (fn cur nbs).1 = Some x -> length (aux_slots x) = length nbs) /\
  forall cur, (fn cur []).2 = false.

Definition op_ok (o : write_op) : Prop :=
  0 <= op_src o /\
  match o with Upsert _ dst _ _ => 0 <= dst | UpdateAux _ fn => callback_ok fn | _ => True end.

(** A record whose transaction has ended without an outcome yet. *)
Definition pending (x : txn) (r : nat) : Prop :=
  (r < length (recs x))%nat /\ in_flight (rec_ts x r) = true /\ forall i t, states x !! i = Some t -> st_info t <> HasRecord r.

(** An id no other transaction, open or in flight, has. *)
Definition fresh_id (x : txn) (id : Z) : Prop :=
  TxIDBase <= id < AbortedTS /\ (forall i t, states x !! i = Some t -> st_info t <> NoWindow -> st_txID t <> id) /\
  forall r, (r < length (recs x))%nat -> rec_ts x r <> id.

Definition enabled (act : action) s : Prop :=
  let x := mv (adj s) in
  match act with
  | Write o tx ts => op_ok o /\ 0 < ts < TxIDBase /\
      forall i, tx = Some i -> exists t, states x !! i = Some t /\ st_info t <> NoWindow
  | Compact si | Freeze si => 0 <= si < shardCount
  | ReclaimShard w si => 0 <= si < shardCount /\ 0 < w < TxIDBase
  | Sweep w => 0 <= w < TxIDBase
  | WithdrawSlot r id => 0 <= id /\ pending x r
  | OpenBuild _ => 0 < bulkDepth (adj s) -> exclusiveBuild (adj s) = true
  | ArmTx _ id => fresh_id x id
  | CommitRec r ts => pending x r /\ 0 < ts < TxIDBase
  | AbortRec r => pending x r
  | _ => True
  end.

(** Runs whose every action satisfies [ok] where it is taken. *)
Inductive runs (ok : action -> system -> Prop) : system -> system -> Prop :=
  | runs_nil s : runs ok s s
  | runs_cons s1 act s2 s3 : ok act s1 -> run act s1 = Some s2 -> runs ok s2 s3 -> runs ok s1 s3.

Definition initial (clock : bool) : system := mkSys (New clock) [] [] [].
Definition reachable (clock : bool) s : Prop := runs enabled (initial clock) s.

Lemma runs_weaken (ok ok' : action -> system -> Prop) s s' : (forall act s, ok act s -> ok' act s) -> runs ok s s' -> runs ok' s s'.
Proof. intros H. induction 1; [apply runs_nil|eapply runs_cons; eauto]. Qed.

Lemma runs_trans ok s1 s2 s3 : runs ok s1 s2 -> runs ok s2 s3 -> runs ok s1 s3.
Proof. induction 1; [done|]. intros. eapply runs_cons; eauto. Qed.

Lemma runs_snoc ok s1 s2 act s3 : runs ok s1 s2 -> ok act s2 -> run act s2 = Some s3 -> runs ok s1 s3.
Proof. intros H1 H2 H3. eapply runs_trans; [done|]. eapply runs_cons; [done..|apply runs_nil]. Qed.

(** An invariant of the runs. *)
Lemma runs_inv ok (I : system -> Prop) s s' : (forall act s1 s2, I s1 -> ok act s1 -> run act s1 = Some s2 -> I s2) -> I s -> runs ok s s' -> I s'.
Proof. intros HI H0 Hr. induction Hr; [done|]. eauto. Qed.
End system.
Arguments system : clear implicits.
Arguments write_op : clear implicits.
Arguments action : clear implicits.
