(* ===== verification/AdjSpec.v ===== *)
(** * The writes against their specification on slots

    A node is a list of slots (neighbour, weight, handle, label, side value).  [view_op]
    says what a write does to the node it names; [exec_write_spec] that the code does
    exactly that, or is refused without effect. *)

From Stdlib Require Import ZArith Lia.
From stdpp Require Import list gmap.
From S2P Require Import Prelude Clock WriteStamp AdjHeap AdjReverse AdjList AdjOps AdjMaint AdjHeapFacts AdjHeapInv AdjBuild AdjStoreEntry AdjWrite AdjWrites AdjUpkeep AdjSystem.

Section spec.
Context {W A P : Type} (zeroW : W) `{!AuxColumn A P} `{!AuxLaws A P} (cfg : Config A P).
Abbreviation AdjList := (AdjList W A).
Abbreviation write_op := (write_op W A P).
Abbreviation outcome R := (option ((adjErr + R) * AdjList)) (only parsing).
Implicit Types (a : AdjList) (G : ghost) (o : write_op) (v : EntryView W A).
Context (Hfac : factory_ok cfg).

(** ** The specification *)

Definition relabel {R} (f : R -> answer) (x : option (list Z) * R) v : option (EntryView W A) * answer :=
  ((fun l => label_view l v) <$> x.1, f x.2).

(** The new slots of the node, none for nothing to change, and the answer; the stamp that
    a bulk removal also answers with is not a matter of slots. *)
Definition view_op o v : option (EntryView W A) * answer :=
  match o with
  | Upsert _ dst w ex => (Some (append_view cfg v dst w ex), Done)
  | RemoveOne _ dst =>
      match find_slot dst (Neighbours v) with
      | Some idx => (Some (retire_view idx v), Removed true (handle_at idx v))
      | None => (None, Removed false 0)
      end
  | RemoveHandle _ dst target =>
      match slot_by_handle dst target v with
      | Some idx => (Some (retire_view idx v), Flag true)
      | None => (None, Flag false)
      end
  | RemoveAll _ => (if (length (Neighbours v) =? 0)%nat then None else Some zero_view, Dests (Neighbours v) None 0)
  | SetLabel _ dst l => relabel Flag (set_label dst l v) v
  | ClearLabel _ dst l => if (l =? 0)%Z then (None, Flag false) else relabel Flag (clear_label dst l v) v
  | SetLabelsAt _ dst idxs l => relabel Count (set_labels_at dst idxs l v) v
  | ClearLabels _ dst f => relabel Count (clear_labels_of dst f v) v
  | SetLabels _ updates => relabel Count (set_labels updates v) v
  | UpdateAux _ fn =>
      let '(newAux, changed) := fn (Aux v) (Neighbours v) in
      (if (changed : bool) then Some (aux_view newAux v) else None, Flag changed)
  end.

Definition slots_answer (x : answer) : answer := match x with Dests l _ _ => Dests l None 0 | _ => x end.

(** The three writes that return before they look for a conflict. *)
Definition unguarded o : bool :=
  match o with
  | ClearLabel _ _ l => (l =? 0)%Z
  | SetLabelsAt _ _ idxs _ => (length idxs =? 0)%nat
  | SetLabels _ updates => (base.size updates =? 0)%nat
  | _ => false
  end.

(** The in-edges after the write is stored; only a write that was answered "removed"
    retires one. *)
Definition rv_op o (x : answer) a : revIndex :=
  match o, x with
  | Upsert src dst _ _, _ => rev_add dst src (rv a)
  | RemoveOne src dst, Removed true _ | RemoveHandle src dst _, Flag true => rv (retired cfg src dst a)
  | _, _ => rv a
  end.

Definition writes_as o tx ts a (out : outcome answer) : Prop :=
  let spec := view_op o (view_of a (op_src o)) in
  if unguarded o then out = Some (inr spec.2, a) else
  match directConflictLocked cfg tx (op_src o) a with
  | Some err => out = Some (inl err, a)
  | None =>
      match spec.1 with
      | None => out = Some (inr spec.2, a)
      | Some v => exists G a1, ainv cfg G a1 /\
          ((exists q y, out = Some (inr y, with_rv (rv_op o y a1) a1) /\ slots_answer y = spec.2 /\ write cfg (op_src o) v tx ts a q a1) \/
           (out = Some (inl ErrShardFull, a1) /\ full cfg (op_src o) tx ts a a1))
      end
  end.

(** ** The code *)

Lemma tag_conflict {R} (f : R -> answer) (out : outcome R) o tx a (Q : Prop) :
  unless_conflict cfg out tx (op_src o) a Q ->
  match directConflictLocked cfg tx (op_src o) a with Some err => tag f out = Some (inl err, a) | None => Q end.
Proof. unfold unless_conflict, returns. destruct (directConflictLocked _ _ _ _); [|done]. by intros ->. Qed.

Lemma tag_writes {R} (f : R -> answer) (out : outcome R) o tx ts a v r (post : AdjList -> AdjList) (x : answer) :
  writes cfg out (op_src o) v tx ts a r post -> slots_answer (f r) = x -> (forall b, post b = with_rv (rv_op o (f r) b) b) ->
  exists G a1, ainv cfg G a1 /\
    ((exists q y, tag f out = Some (inr y, with_rv (rv_op o y a1) a1) /\ slots_answer y = x /\ write cfg (op_src o) v tx ts a q a1) \/
     (tag f out = Some (inl ErrShardFull, a1) /\ full cfg (op_src o) tx ts a a1)).
Proof.
  intros (G' & a1 & Hi & [[Hr [q Hw]]|[Hr Hf]]) Hx Hp; unfold returns in Hr; rewrite Hr; exists G', a1; (split; [done|]); [left|by right].
  exists q, (f r). split; [|done]. cbn. by rewrite Hp.
Qed.

Lemma with_rv_same a : with_rv (rv a) a = a.
Proof. by destruct a. Qed.

Lemma relabels_spec {R} (f : R -> answer) (out : outcome R) x o tx ts a : relabels cfg out x (op_src o) tx ts a ->
  view_op o (view_of a (op_src o)) = relabel f x (view_of a (op_src o)) -> (forall r, slots_answer (f r) = f r) -> (forall y b, rv_op o (f y) b = rv b) ->
  unguarded o = false -> writes_as o tx ts a (tag f out).
Proof.
  intros Hr Hv Hs Hrv Hu. unfold writes_as. rewrite Hu, Hv. unfold relabels in Hr. apply (tag_conflict f) in Hr.
  destruct (directConflictLocked cfg tx (op_src o) a); [done|]. cbn [relabel fst snd]. destruct x as [[newL|] r]; cbn [fst snd fmap option_fmap option_map] in *.
  - destruct Hr as [_ Hw]. eapply tag_writes; [exact Hw|apply Hs|]. intros b. by rewrite Hrv, with_rv_same.
  - unfold returns in Hr. by rewrite Hr.
Qed.

Lemma set_labels_none v : set_labels ∅ v = (None, 0%Z).
Proof.
  unfold set_labels. assert (H : forall nbs i, label_firsts ∅ (labels_in v) (length (Neighbours v)) i nbs (None, ∅) = (None, ∅)); [|by rewrite H].
  intros nbs. induction nbs as [|n nbs IH]; intros i; [done|]. cbn [label_firsts]. rewrite lookup_empty. apply IH.
Qed.

Theorem exec_write_spec G o tx ts a : ainv cfg G a -> op_ok o -> writes_as o tx ts a (exec_write zeroW cfg o tx ts a).
Proof.
  intros Hi [Hid Hok]. destruct o; cbn [op_src] in Hid; cbn [exec_write].
  - pose proof (upsert_spec zeroW cfg Hfac G src dst w ex tx ts a Hi Hid) as H. apply (tag_conflict (fun _ => Done) _ (Upsert src dst w ex)) in H.
    unfold writes_as. cbn [unguarded view_op fst snd op_src] in *. destruct (directConflictLocked cfg tx src a); [done|].
    by eapply (tag_writes _ _ (Upsert src dst w ex)); [exact H|..].
  - pose proof (remove_one_spec zeroW cfg G src dst tx ts a Hi Hid) as H. apply (tag_conflict (fun x => Removed x.1 x.2) _ (RemoveOne src dst)) in H.
    unfold writes_as. cbn [unguarded view_op op_src] in *. destruct (directConflictLocked cfg tx src a); [done|]. destruct (find_slot _ _) as [idx|]; cbn [fst snd].
    + by eapply (tag_writes _ _ (RemoveOne src dst)); [exact H|..].
    + unfold returns in H. by rewrite H.
  - pose proof (remove_handle_spec zeroW cfg G src dst target tx ts a Hi Hid) as H. apply (tag_conflict Flag _ (RemoveHandle src dst target)) in H.
    unfold writes_as. cbn [unguarded view_op op_src] in *. destruct (directConflictLocked cfg tx src a); [done|]. destruct (slot_by_handle _ _ _) as [idx|]; cbn [fst snd].
    + by eapply (tag_writes _ _ (RemoveHandle src dst target)); [exact H|..].
    + unfold returns in H. by rewrite H.
  - pose proof (remove_all_spec cfg G src tx ts a Hi Hid) as H. apply (tag_conflict (fun x => Dests x.1 x.2.1 x.2.2) _ (RemoveAll src)) in H.
    unfold writes_as. cbn [unguarded view_op op_src fst snd] in *. destruct (directConflictLocked cfg tx src a); [done|].
    destruct H as [[Hn Hr]|(Hn & G' & a1 & q & Hi1 & Hr & Hw)]; unfold returns in Hr; rewrite Hr; cbn [tag mbind option_bind].
    + by rewrite Hn.
    + destruct (Neighbours (view_of a src)) as [|n l]; [done|]. cbn [length Nat.eqb]. exists G', a1. split; [done|]. left.
      eexists q, _. split; [cbn; by rewrite with_rv_same|done].
  - eapply (relabels_spec Flag _ _ (SetLabel src dst l)); [by eapply set_label_spec|done..].
  - destruct (Z.eqb_spec l 0) as [->|Hl]; [done|]. eapply (relabels_spec Flag _ _ (ClearLabel src dst l)); [by eapply clear_label_spec|cbn|done..|by apply Z.eqb_neq].
    by rewrite (proj2 (Z.eqb_neq _ _) Hl).
  - destruct idxs as [|i idxs]; [done|]. eapply (relabels_spec Count _ _ (SetLabelsAt src dst (i :: idxs) l)); [by eapply set_labels_at_spec|done..].
  - eapply (relabels_spec Count _ _ (ClearLabels src dst f)); [by eapply clear_labels_spec|done..].
  - destruct (decide (updates = ∅)) as [->|Hu]; [unfold writes_as; cbn; by rewrite set_labels_none|].
    eapply (relabels_spec Count _ _ (SetLabels src updates)); [by eapply set_labels_spec|done..|]. apply Nat.eqb_neq. intros H. by apply map_size_empty_iff in H.
  - destruct Hok as [Hlen Hnil]. assert (Hl := Hlen (Aux (view_of a src)) (Neighbours (view_of a src)) (vo_aux _ _ (view_of_ok _ _ _ _ Hi Hid))).
    pose proof (update_aux_spec cfg G src fn tx ts a Hi Hid Hl (Hnil None)) as H. apply (tag_conflict Flag _ (UpdateAux src fn)) in H.
    unfold writes_as. cbn [unguarded view_op op_src] in *. destruct (directConflictLocked cfg tx src a); [done|].
    destruct (fn _ _) as [newAux changed]. cbn [fst snd] in *. destruct changed.
    + eapply (tag_writes _ _ (UpdateAux src fn)); [exact H|done|]. intros b. cbn. by rewrite with_rv_same.
    + unfold returns in H. by rewrite H.
Qed.
End spec.

(** * One action of the adjacency: no panic, the invariant, and its effect

    Every action an enabled caller takes returns, keeps the invariant, and is one of a few
    effects on entries, versions and records. *)

Section steps.
Context {W A P : Type} (zeroW : W) `{!AuxColumn A P} `{!AuxLaws A P} (cfg : Config A P).
Abbreviation heap := (heap W A).
Abbreviation AdjList := (AdjList W A).
Abbreviation action := (action W A P).
Abbreviation write_op := (write_op W A P).
Abbreviation outcome R := (option ((adjErr + R) * AdjList)) (only parsing).
Implicit Types (h : heap) (a : AdjList) (G : ghost) (s : system W A) (act : action) (o : write_op).
Context (Hfac : factory_ok cfg).

(** ** The effects *)

(** The entries, the records and the current entries are the same. *)
Record unmoved a a' : Prop := {
  um_hp : hp a' = hp a;
  um_mv : recs (mv a') = recs (mv a) /\ clocked (mv a') = clocked (mv a);
  um_load id : loadEntry a' id = loadEntry a id;
  um_frozen : builders_free a -> keeps_frozen a a' /\ builders_free a';
}.

Inductive effect : action -> AdjList -> AdjList -> Prop :=
  | EWrite o tx ts v q a a1 r : directConflictLocked cfg tx (op_src o) a = None -> write cfg (op_src o) v tx ts a q a1 ->
      effect (Write o tx ts) a (with_rv r a1)
  | EFull o tx ts a a' : directConflictLocked cfg tx (op_src o) a = None -> full cfg (op_src o) tx ts a a' -> effect (Write o tx ts) a a'
  | ESame act a a' : unmoved a a' -> effect act a a'
  | EFreeze si a a' : hp a' = hp a -> mv a' = mv a -> (forall id, loadEntry a' id = loadEntry a id) -> keeps_frozen a a' ->
      (building (shard_at a si) = None -> builders_free a -> builders_free a') -> effect (Freeze si) a a'
  | ETwins si a a' : grown (hp a) (hp a') -> kept a a' -> (forall id, (0 <= id)%Z -> twin (hp a) (hp a') (loadEntry a id) (loadEntry a' id)) ->
      effect (Compact si) a a'
  | ESever w si a a' : severed w a a' -> effect (ReclaimShard w si) a a'
  | EWithdraw r id p v pre d a a' : withdrew r id a p v pre d a' -> effect (WithdrawSlot r id) a a'
  | EOutcome act r ts a : (act = CommitRec r ts \/ act = AbortRec r /\ ts = AbortedTS) -> effect act a (with_mv (set_ts r ts (mv a)) a).

Lemma unmoved_refl a : unmoved a a.
Proof. by split. Qed.

Lemma unmoved_trans a1 a2 a3 : unmoved a1 a2 -> unmoved a2 a3 -> unmoved a1 a3.
Proof. intros [? [] ? ?] [? [] ? ?]. split; [congruence|split; congruence|intros; congruence|by eapply frozen_trans]. Qed.

Lemma unmoved_ainv G a a' : ainv cfg G a -> hp a' = hp a -> recs (mv a') = recs (mv a) -> (forall id, loadEntry a' id = loadEntry a id) ->
  sinv a' -> recs_ok (mv a') -> ainv cfg G a'.
Proof.
  intros Hi H1 H2 H3 Hs Hr. split; [|done..]. rewrite H1, H2. eapply hinv_heads; [apply Hi|]. intros id i _. by rewrite H3.
Qed.

(** ** Writes *)

Definition write_effect o tx ts a (out : outcome answer) : Prop :=
  exists r a' G', out = Some (r, a') /\ ainv cfg G' a' /\ effect (Write o tx ts) a a'.

Lemma exec_write_effect G o tx ts a : ainv cfg G a -> op_ok o -> write_effect o tx ts a (exec_write zeroW cfg o tx ts a).
Proof.
  intros Hi Hok. pose proof (exec_write_spec zeroW cfg Hfac G o tx ts a Hi Hok) as H. unfold writes_as in H.
  assert (Hid : forall r, write_effect o tx ts a (Some (r, a))) by (intros r; exists r, a, G; split; [done|]; split; [done|]; apply ESame, unmoved_refl).
  destruct (unguarded o); [rewrite H; apply Hid|]. destruct (directConflictLocked cfg tx (op_src o) a) as [err|] eqn:Hc; [rewrite H; apply Hid|].
  destruct (view_op cfg o (view_of a (op_src o))) as [[v|] x]; [|rewrite H; apply Hid]. cbn [fst snd] in H.
  destruct H as (G' & a1 & Hi1 & [(q & y & Hr & _ & Hw)|[Hr Hf]]); rewrite Hr.
  - exists (inr y), (with_rv (rv_op cfg o y a1) a1), G'. split; [done|]. split; [by destruct Hi1 as [? []]|]. by eapply EWrite.
  - exists (inl ErrShardFull), a1, G'. split; [done|]. split; [done|]. by apply EFull.
Qed.

Lemma with_rv_ainv G r a : ainv cfg G a -> ainv cfg G (with_rv r a).
Proof. intros [? []]. by split. Qed.

Lemma with_rv_id a : with_rv (rv a) a = a.
Proof. by destruct a. Qed.

(** ** Transactions *)

Lemma recs_ok_states x l : recs_ok x ->
  (forall j t, l !! j = Some t -> is_open t -> exists u, states x !! j = Some u /\ st_info t = st_info u /\ st_txID t = st_txID u) ->
  recs_ok (with_states l x).
Proof.
  intros [H1 H2 H3 H4] Hl. split.
  - intros j t r Ht Hr. destruct (Hl j t Ht) as (u & Hu & E1 & E2); [unfold is_open; congruence|]. rewrite E2. apply (H1 j); [done|congruence].
  - intros j t r Ht Ho. destruct (Hl j t Ht Ho) as (u & Hu & E1 & E2). rewrite E1, E2. apply (H2 j); [done|unfold is_open in *; congruence].
  - intros j k t t' Ht Ht' Ho Ho'. destruct (Hl j t Ht Ho) as (u & Hu & E1 & E2), (Hl k t' Ht' Ho') as (u' & Hu' & E3 & E4). rewrite E2, E4.
    apply (H3 j k u u'); [done..|unfold is_open in *; congruence|unfold is_open in *; congruence].
  - intros j t Ht Ho. destruct (Hl j t Ht Ho) as (u & Hu & E1 & E2). rewrite E2. apply (H4 j); [done|unfold is_open in *; congruence].
Qed.

Lemma recs_ok_new x : recs_ok x -> recs_ok (with_states (states x ++ [mkTx NoWindow 0 0 [] [] 0]) x).
Proof.
  intros Hx. apply recs_ok_states; [done|]. intros j t [Hj|[_ Hj]]%lookup_app_Some Ho; [by exists t|].
  apply list_lookup_singleton_Some in Hj as [_ <-]. by destruct Ho.
Qed.

(** A state that ends: closed, whatever it was. *)
Lemma recs_ok_closed x i t : recs_ok x -> states x !! i = Some t -> recs_ok (with_state i (fun _ => (Retract t).1.1) x).
Proof.
  intros Hx Ht. apply recs_ok_states; [done|]. intros j u. rewrite list_lookup_alter. case_decide; [|by exists u]. subst. rewrite Ht. cbn [fmap option_fmap option_map].
  intros [= <-] Ho. exfalso. apply Ho. unfold Retract. destruct (st_info t); done.
Qed.

Lemma recs_ok_same x x' : recs_ok x -> recs x' = recs x -> states x' = states x -> recs_ok x'.
Proof. intros [] Hr Hs. split; unfold rec_ts in *; rewrite ?Hr, Hs; done. Qed.

Lemma EndFor_ok x i : recs_ok x -> recs_ok (EndFor i x).1.1 /\ recs (EndFor i x).1.1 = recs x /\ clocked (EndFor i x).1.1 = clocked x.
Proof.
  intros Hx. unfold EndFor. destruct (states x !! i) as [t|] eqn:Ht; [|done]. pose proof (recs_ok_closed x i t Hx Ht) as H.
  destruct (Retract t) as [[t' info] n]. cbn [fst] in *. case_decide; [|done]. split; [by eapply recs_ok_same|done].
Qed.

Lemma End_ok x : recs_ok x -> recs_ok (End x).1.1 /\ recs (End x).1.1 = recs x /\ clocked (End x).1.1 = clocked x.
Proof.
  intros Hx. unfold End. destruct (cur x) as [i|]; [|done]. cbn [states with_cur]. destruct (states x !! i) as [t|] eqn:Ht; [|split; [by eapply recs_ok_same|done]].
  pose proof (recs_ok_closed x i t Hx Ht) as H. destruct (Retract t) as [[t' info] n]. cbn [fst] in *. split; [by eapply recs_ok_same|done].
Qed.

Lemma in_flight_range z : in_flight z = true <-> (TxIDBase <= z /\ z <> AbortedTS)%Z.
Proof. unfold in_flight. rewrite andb_true_iff, negb_true_iff, Z.leb_le, Z.eqb_neq. done. Qed.

Lemma Arm_ok x i id : recs_ok x -> fresh_id x id -> recs_ok (with_state i (fun t => (Arm id t).1) x).
Proof.
  intros Hx (Hf & Hids & Hrecs).
  assert (Hl : forall j t, states (with_state i (fun t => (Arm id t).1) x) !! j = Some t -> is_open t ->
    (states x !! j = Some t) \/ (j = i /\ st_info t = ArmedPending /\ st_txID t = id)).
  { intros j t. cbn. rewrite list_lookup_alter. case_decide; [|by left]. subst. destruct (states x !! j) as [u|] eqn:Hu; [|done]. cbn. unfold Arm.
    destruct (st_info u) eqn:Hi; intros [= <-] Ho; [by right|by left..]. }
  destruct Hx as [H1 H2 H3 H4]. split.
  - intros j t r Ht Hr. destruct (Hl j t Ht) as [Hj|(-> & Hi & _)]; [unfold is_open; congruence|by apply (H1 j)|congruence].
  - intros j t r Ht Ho Hlt Hr. destruct (Hl j t Ht Ho) as [Hj|(-> & Hi & Hid)]; [by apply (H2 j)|]. exfalso. rewrite Hid in Hr. by eapply (Hrecs r).
  - intros j k t t' Ht Ht' Ho Ho' Heq. destruct (Hl j t Ht Ho) as [Hj|(-> & _ & Hid)], (Hl k t' Ht' Ho') as [Hk|(-> & _ & Hid')].
    + by apply (H3 j k t t').
    + exfalso. eapply (Hids j t); [done..|congruence].
    + exfalso. eapply (Hids k t'); [done..|congruence].
    + done.
  - intros j t Ht Ho. destruct (Hl j t Ht Ho) as [Hj|(-> & _ & ->)]; [by apply (H4 j)|done].
Qed.

Lemma rec_ts_set r ts x q : r < length (recs x) -> rec_ts (set_ts r ts x) q = if decide (q = r) then ts else rec_ts x q.
Proof.
  intros Hr. unfold rec_ts. cbn. case_decide; [subst; by rewrite list_lookup_insert_eq|]. by rewrite list_lookup_insert_ne.
Qed.

(** The outcome of a record that no open transaction holds. *)
Lemma outcome_ok x r ts : recs_ok x -> pending x r -> (ts < TxIDBase \/ ts = AbortedTS)%Z -> recs_ok (set_ts r ts x).
Proof.
  intros [H1 H2 H3 H4] (Hr & _ & Hno) Hts. split; [..|done|done].
  - intros i t q Ht Hi. destruct (H1 i t q Ht Hi) as [Hlt Hq]. split; [cbn; by rewrite length_insert|]. rewrite rec_ts_set by done.
    case_decide; [subst; by destruct (Hno _ _ Ht)|done].
  - intros i t q Ht Ho. cbn [recs set_ts with_recs]. rewrite length_insert, rec_ts_set by done. intros Hlt. case_decide; [|by apply (H2 i)].
    intros Hx. exfalso. pose proof (H4 i t Ht Ho). unfold AbortedTS in *. lia.
Qed.

(** ** Windows *)

Definition same_store a a' : Prop := hp a' = hp a /\ mv a' = mv a /\ arrs a' = arrs a /\ shards a' = shards a /\ rv a' = rv a.

Lemma same_store_ainv G a a' : same_store a a' -> ainv cfg G a -> ainv cfg G a' /\ unmoved a a'.
Proof.
  intros (H1 & H2 & H3 & H4 & _) Hi.
  assert (Hsh : forall si, shard_at a' si = shard_at a si) by (intros si; unfold shard_at; by rewrite H4).
  assert (Hld : forall id, loadEntry a' id = loadEntry a id) by (intros id; unfold loadEntry, slot_at, arr_at; by rewrite Hsh, H3).
  assert (Ha : forall r, arr_at a' r = arr_at a r) by (intros r; unfold arr_at; by rewrite H3).
  assert (Hu : unmoved a a').
  { split; [done|by rewrite H2|done|]. intros Hb. split; [intros r Hr _; by rewrite H3, Ha|]. intros si b. rewrite Hsh, Ha. apply Hb. }
  split; [|done]. eapply unmoved_ainv; [done|done|by rewrite H2|done| |rewrite H2; apply Hi].
  destruct (ai_store _ _ _ Hi) as [S1 S2 S3 S4 S5].
  split; [intros si r|intros si sj r|intros si b|intros si b|intros r l i e]; rewrite ?Hsh, ?H1, ?H3; [apply S1|apply S2|apply S3|apply S4|apply S5].
Qed.

Lemma same_store_trans a1 a2 a3 : same_store a1 a2 -> same_store a2 a3 -> same_store a1 a3.
Proof. intros (?&?&?&?&?) (?&?&?&?&?). split_and!; congruence. Qed.

Lemma open_window_store excl nested fresh a : same_store a (open_window cfg excl nested fresh a).
Proof.
  unfold open_window, mintBulkOwner. destruct (_ =? 0)%Z; [|done]. by destruct (_ && _).
Qed.

Lemma EndCommit_store a : same_store a (EndCommit a).
Proof. unfold EndCommit. destruct (_ =? 0)%Z; [done|]. by destruct (_ <? _)%Z. Qed.

Lemma release_builder_spec G si a : ainv cfg G a -> ainv cfg G (release_builder si a) /\ unmoved a (release_builder si a) /\ kept a (release_builder si a) /\
  rv (release_builder si a) = rv a.
Proof.
  intros Hi. unfold release_builder. destruct (building (shard_at a si)) as [b|]; [|split_and!; [done|apply unmoved_refl|apply kept_refl|done]].
  destruct (unbuilt_spec si a) as (H1 & H2 & H3 & _); [apply Hi|]. fold (unbuilt si a).
  assert (Hu : unmoved a (unbuilt si a)) by (split; [done|by rewrite (kp_mv _ _ H2)|done|apply H2]).
  split; [|done]. eapply unmoved_ainv; [done..|]. rewrite (kp_mv _ _ H2). apply Hi.
Qed.

Lemma releaseBuilders_spec G a : ainv cfg G a -> ainv cfg G (releaseBuilders a) /\ unmoved a (releaseBuilders a) /\ kept a (releaseBuilders a) /\
  rv (releaseBuilders a) = rv a.
Proof.
  unfold releaseBuilders. generalize shard_nos. intros l. revert a. induction l as [|si l IH]; intros a Hi; cbn [foldl].
  - split; [done|]. split; [apply unmoved_refl|]. split; [apply kept_refl|done].
  - destruct (release_builder_spec G si a Hi) as (H1 & H2 & H3 & H4). destruct (IH _ H1) as (F1 & F2 & F3 & F4).
    split; [done|]. split; [by eapply unmoved_trans|]. split; [by eapply kept_trans|congruence].
Qed.

Lemma EndExclusiveBuild_spec G a : ainv cfg G a -> ainv cfg G (EndExclusiveBuild a) /\ unmoved a (EndExclusiveBuild a) /\ rv (EndExclusiveBuild a) = rv a.
Proof.
  intros Hi. unfold EndExclusiveBuild. destruct (_ =? 0)%Z; [split_and!; [done|apply unmoved_refl|done]|]. destruct (_ <? _)%Z.
  - by destruct (same_store_ainv G a (with_window (bulkOwner a) (bulkDepth a - 1) (exclusiveBuild a) (nestedServingWindows a) (bulkSeq a) a)).
  - set (a1 := with_window _ _ _ _ _ a). destruct (same_store_ainv G a a1) as [H1 H2]; [done..|].
    destruct (releaseBuilders_spec G a1 H1) as (F1 & F2 & _ & F4). split; [done|]. split; [by eapply unmoved_trans|done].
Qed.

(** ** Every action *)

Lemma owe_adj o x s : adj (owe o x s) = adj s.
Proof. destruct o, x; cbn; try done; [by destruct b..|by case_match]. Qed.

Definition action_effect act s : Prop :=
  exists s' G', run zeroW cfg act s = Some s' /\ ainv cfg G' (adj s') /\ effect act (adj s) (adj s').

Lemma same_effect G act s s' : ainv cfg G (adj s) -> run zeroW cfg act s = Some s' -> same_store (adj s) (adj s') -> action_effect act s.
Proof.
  intros Hi Hr Hs. destruct (same_store_ainv G _ _ Hs Hi). exists s', G. split; [done|]. split; [done|]. by apply ESame.
Qed.

Lemma arc_effect G act s s' : ainv cfg G (adj s) -> run zeroW cfg act s = Some s' -> adj s' = with_rv (rv (adj s')) (adj s) -> action_effect act s.
Proof.
  intros Hi Hr Hs. exists s', G. split; [done|]. rewrite Hs. split; [by apply with_rv_ainv|]. by apply ESame.
Qed.

Lemma txn_effect G act s x : ainv cfg G (adj s) -> run zeroW cfg act s = Some (with_adj (with_mv x (adj s)) s) ->
  recs x = recs (mv (adj s)) -> clocked x = clocked (mv (adj s)) -> recs_ok x -> action_effect act s.
Proof.
  intros Hi Hr Hx Hcl Hok. assert (Hu : unmoved (adj s) (with_mv x (adj s))) by by split.
  eexists _, G. split; [exact Hr|]. split; [|by apply ESame]. eapply unmoved_ainv; [done..| |done]. by destruct (ai_store _ _ _ Hi).
Qed.

Lemma outcome_effect G act s r ts : ainv cfg G (adj s) -> run zeroW cfg act s = Some (with_adj (with_mv (set_ts r ts (mv (adj s))) (adj s)) s) ->
  (act = CommitRec r ts \/ act = AbortRec r /\ ts = AbortedTS) -> pending (mv (adj s)) r -> (ts < TxIDBase \/ ts = AbortedTS)%Z -> action_effect act s.
Proof.
  intros Hi Hr Ha Hp Hts. eexists _, G. split; [exact Hr|]. split; [|by eapply EOutcome]. destruct Hi as [Hh Hs Hok]. split.
  - cbn -[loadEntry]. rewrite length_insert. exact Hh.
  - by destruct Hs.
  - by apply outcome_ok.
Qed.

Theorem run_effect G act s : ainv cfg G (adj s) -> enabled act s -> action_effect act s.
Proof.
  intros Hi He. pose proof (ai_recs _ _ _ Hi) as Hro. destruct act; cbn [enabled] in He.
  - destruct He as (Hok & _). destruct (exec_write_effect G o tx ts (adj s) Hi Hok) as (r & a' & G' & Hr & Hi' & Hef).
    eexists _, G'. split; [cbn [run]; by rewrite Hr|]. destruct r; cbn [adj with_adj]; rewrite ?owe_adj; done.
  - eapply same_effect; [done..|]. by destruct (owed_size s !! i).
  - eapply same_effect; [done..|]. by destruct (owed_vers s !! i).
  - eapply arc_effect; [done..|]. destruct (owed_arcs s !! i); [done|]. by rewrite with_rv_id.
  - by eapply same_effect.
  - eapply same_effect; [done..|]. cbn. unfold SeedHandleSeq. by destruct (_ <=? _)%Z.
  - destruct (compactShard_spec zeroW cfg G si (adj s) Hi He) as (a' & G' & Hr & Hi' & Hg & Hk & _ & _ & Ht). eexists _, G'. cbn [run]. rewrite Hr.
    split; [done|]. split; [done|]. by apply ETwins.
  - eapply arc_effect; [done..|]. cbn. destruct (versioning cfg); [done|]. by rewrite with_rv_id.
  - destruct (reclaim_shard_spec cfg G watermark si (adj s) Hi) as [Hi' Hs]. cbn [run]. unfold action_effect. cbn [run].
    destruct (reclaim_shard watermark si (adj s)) as [n a']. eexists _, G. split; [done|]. split; [done|]. by apply ESever.
  - destruct He as [Hid Hp]. unfold action_effect. cbn [run]. destruct (withdraw_slot_spec cfg G r id (adj s) Hi Hid) as [[Hr _]|(p & v & pre & n & d & a' & G' & Hr & Hw & Hi')]; rewrite Hr.
    + eexists _, G. split; [done|]. split; [done|]. apply ESame, unmoved_refl.
    + eexists _, G'. split; [done|]. split; [done|]. by eapply EWithdraw.
  - destruct (freeze_spec si (adj s)) as (F1 & F2 & F3 & F4 & _ & _ & _ & _ & F9 & F10); [apply Hi|]. eexists _, G. split; [done|]. cbn [adj with_adj].
    destruct F10 as (K & _ & _ & B). split; [|by apply EFreeze]. eapply unmoved_ainv; [done|done|by rewrite F4|done..|]. rewrite F4. apply Hi.
  - eapply same_effect; [done..|]. apply open_window_store.
  - eapply same_effect; [done..|]. apply EndCommit_store.
  - assert (Hb : BeginExclusiveBuild cfg fresh (adj s) = Some (open_window cfg true (nestedServingWindows (adj s)) fresh (adj s))).
    { unfold BeginExclusiveBuild. destruct (Z.ltb_spec 0 (bulkDepth (adj s))); [|done]. by rewrite He. }
    eapply same_effect; [done|cbn [run]; by rewrite Hb|]. apply open_window_store.
  - destruct (EndExclusiveBuild_spec G (adj s) Hi) as (H1 & H2 & _). eexists _, G. split; [done|]. split; [done|]. by apply ESame.
  - eapply txn_effect; [done..|]. by apply recs_ok_new.
  - eapply txn_effect; [done..|]. by apply Arm_ok.
  - eapply txn_effect; [done..|]. by eapply recs_ok_same.
  - destruct (EndFor_ok (mv (adj s)) i Hro) as (? & ? & ?). by eapply txn_effect.
  - destruct (End_ok (mv (adj s)) Hro) as (? & ? & ?). by eapply txn_effect.
  - destruct He as [Hp Hts]. eapply outcome_effect; [done..|by left|done|lia].
  - eapply outcome_effect; [done..|by right|done|by right].
Qed.
End steps.
