(* ===== verification/AdjSnapshot.v ===== *)
(** * A reader's snapshot is stable

    A reader resolves entries at its instant and as its transaction.  Writes and commits
    of other transactions at later instants, aborts with their withdrawals, compaction and
    the reclamation of versions at or below its instant change neither what an entry it
    has loaded resolves to nor what any node resolves to. *)

From Stdlib Require Import ZArith Lia.
From stdpp Require Import list gmap.
From S2P Require Import Prelude Clock WriteStamp AdjHeap AdjReverse AdjList AdjOps AdjMaint AdjHeapFacts AdjHeapInv AdjBuild AdjStoreEntry AdjWrite AdjWrites AdjUpkeep AdjSystem AdjSpec.

Section snapshot.
Context {W A P : Type} (zeroW : W) `{!AuxColumn A P} `{!AuxLaws A P} (cfg : Config A P).
Abbreviation heap := (heap W A).
Abbreviation AdjList := (AdjList W A).
Abbreviation action := (action W A P).
Implicit Types (h : heap) (a : AdjList) (G : ghost) (s : system W A) (act : action).
Context (start own : Z).

(** What the reader at [start] running as [own] resolves an entry to. *)
Definition sees a (oe : option nat) : option nat := entryAsOfLoadedVisible (visible_at a start own) a oe.

Definition shows a (vr : adjVersion) : bool := visible_at a start own (v_info vr) (v_ts vr).

Lemma shows_at a vr : shows a vr = Visible (supersededAt a vr) start own.
Proof. done. Qed.

Lemma sees_none a : sees a None = None.
Proof. unfold sees. by rewrite resolve_ch, ch_none. Qed.

(** One link of the walk. *)
Lemma sees_some G a hd n e : hinv cfg G (hp a) hd n ->
  sees a (Some e) = match load_ver (hp a) e with
                    | None => Some e
                    | Some v => if shows a (get_version a v) then Some e else sees a (v_prev (get_version a v))
                    end.
Proof.
  intros Hi. unfold sees. rewrite resolve_ch, (ch_some cfg G a hd n e Hi). destruct (load_ver (hp a) e) as [v|]; [|done].
  rewrite first_such_cons. cbn [snd fst]. rewrite resolve_ch. fold (shows a (get_version a v)). by destruct (ch a _).
Qed.

Lemma prev_lt G a hd n e v : hinv cfg G (hp a) hd n -> load_ver (hp a) e = Some v -> forall p, v_prev (get_version a v) = Some p ->
  p < length (ents (hp a)) /\ (forall w, load_ver (hp a) p = Some w -> w < v) /\ eO G p = eO G e.
Proof.
  intros Hi Hv p Hp. destruct (hi_ver _ _ _ _ _ Hi _ _ Hv) as [Hlt HO]. destruct (lookup_lt_is_Some_2 _ _ Hlt) as [vr Hvr].
  unfold get_version in Hp. rewrite Hvr in Hp. destruct (hi_prev _ _ _ _ _ Hi _ _ _ Hvr Hp) as (H1 & H2 & H3). split; [done|]. split; [done|congruence].
Qed.

(** Induction along the chain of an entry. *)
Lemma chain_ind G a hd n (Q : nat -> Prop) : hinv cfg G (hp a) hd n ->
  (forall e, e < length (ents (hp a)) -> (forall v p, load_ver (hp a) e = Some v -> v_prev (get_version a v) = Some p -> Q p) -> Q e) ->
  forall e, e < length (ents (hp a)) -> Q e.
Proof.
  intros Hi Hstep.
  assert (H : forall b e, (forall v, load_ver (hp a) e = Some v -> v < b) -> e < length (ents (hp a)) -> Q e).
  { intros b. induction (lt_wf b) as [b _ IH]. intros e Hb He. apply Hstep; [done|]. intros v p Hv Hp.
    destruct (prev_lt G a hd n e v Hi Hv p Hp) as (Hlt & Hw & _). apply (IH v); auto. }
  intros e. apply (H (length (vers (hp a)))). intros v Hv. by apply (hi_ver _ _ _ _ _ Hi) in Hv as [? _].
Qed.

Lemma sees_valid G a hd n e : hinv cfg G (hp a) hd n -> e < length (ents (hp a)) -> forall q, sees a (Some e) = Some q -> q < length (ents (hp a)).
Proof.
  intros Hi. revert e. refine (chain_ind G a hd n _ Hi _). intros e He IH q. rewrite (sees_some G a hd n e Hi).
  destruct (load_ver (hp a) e) as [v|] eqn:Hv; [|by intros [= <-]]. destruct (shows a (get_version a v)); [by intros [= <-]|].
  destruct (v_prev (get_version a v)) as [p|] eqn:Hp; [|by rewrite sees_none]. by eapply IH.
Qed.

(** ** Stability *)

Record stable a a' : Prop := {
  st_len : length (ents (hp a)) <= length (ents (hp a'));
  st_ptr p : p < length (ents (hp a)) -> sees a' (Some p) = sees a (Some p);
  st_head id : (0 <= id)%Z -> reading (viewOf (hp a') (sees a' (loadEntry a' id))) = reading (viewOf (hp a) (sees a (loadEntry a id)));
}.

Lemma stable_refl a : stable a a.
Proof. done. Qed.

Lemma stable_then a1 a2 a3 : stable a1 a2 -> stable a2 a3 -> stable a1 a3.
Proof.
  intros H1 H2. pose proof (st_len _ _ H1). pose proof (st_len _ _ H2). split; [lia| |].
  - intros p Hp. rewrite (st_ptr _ _ H2) by lia. by apply (st_ptr _ _ H1).
  - intros id Hid. rewrite (st_head _ _ H2) by done. by apply (st_head _ _ H1).
Qed.

(** A loaded entry that is current, and what it resolves to. *)
Lemma same_head G a a' oe : ainv cfg G a -> same_views (hp a) (hp a') -> (forall p, oe = Some p -> p < length (ents (hp a))) ->
  sees a' oe = sees a oe -> viewOf (hp a') (sees a' oe) = viewOf (hp a) (sees a oe).
Proof.
  intros Hi Hv Ho He. rewrite He. apply same_views_viewOf; [done|]. intros q Hq. destruct oe as [p|]; [|by rewrite sees_none in Hq].
  eapply sees_valid; [apply Hi|by apply Ho|done].
Qed.

Lemma views_len h h' : same_views h h' -> length (ents h) <= length (ents h').
Proof.
  intros Hv. destruct (length (ents h)) as [|n] eqn:Hn; [lia|]. destruct (lookup_lt_is_Some_2 (ents h) n) as [e He]; [lia|].
  destruct (Hv n e He) as (e' & He' & _). by apply lookup_lt_Some in He'.
Qed.

(** The chains of the old entries extended at no place: the walks from them agree. *)
Lemma frame_sees G a a' p : ainv cfg G a -> (forall i, i < length (ents (hp a)) -> load_ver (hp a') i = load_ver (hp a) i) ->
  (exists l, vers (hp a') = vers (hp a) ++ l) -> recs_ext (mv a) (mv a') -> p < length (ents (hp a)) -> sees a' (Some p) = sees a (Some p).
Proof.
  intros Hi Hl [l Hv] Hr Hp. unfold sees. rewrite !resolve_ch. rewrite (ch_frame cfg G a a' (loadEntry a) (length (recs (mv a))) (Some p)); [|apply Hi|done|..].
  - apply first_such_ext. destruct (chain_ok cfg G (hp a) (loadEntry a) (length (recs (mv a))) (fuel_of a) (Some p) (eO G p)) as [Hc _]; [apply Hi|by intros ? [= <-]|].
    fold (ch a (Some p)) in Hc. eapply Forall_impl; [exact Hc|]. intros x Hx. cbn. fold (shows a' x.2) (shows a x.2). rewrite !shows_at.
    by rewrite (superseded_ext a a' x.2 Hr (lo_info _ _ _ _ _ Hx)).
  - intros v Hlt. by rewrite Hv, lookup_app_l.
  - rewrite Hv, length_app. lia.
  - by intros ? [= <-].
Qed.

(** Twins resolve to entries that read the same. *)
Lemma twin_sees G G' a a' o o' : ainv cfg G a -> ainv cfg G' a' -> twin (hp a) (hp a') o o' -> recs_ext (mv a) (mv a') ->
  same_views (hp a) (hp a') -> vers (hp a') = vers (hp a) ->
  (forall p, p < length (ents (hp a)) -> sees a' (Some p) = sees a (Some p)) ->
  reading (viewOf (hp a') (sees a' o')) = reading (viewOf (hp a) (sees a o)).
Proof.
  intros Hi Hi' (Hr & Hv & Ho) He Hsv Hvs Hp. destruct o as [p|], o' as [p'|]; [|by destruct Ho as [Ho _]; destruct Ho|by destruct Ho as [_ Ho]; destruct Ho|by rewrite !sees_none].
  cbn [mbind option_bind] in Hv. rewrite (sees_some G a _ _ p (ai_heap _ _ _ Hi)), (sees_some G' a' _ _ p' (ai_heap _ _ _ Hi')), Hv.
  destruct (load_ver (hp a) p) as [v|] eqn:Hpv; [|done]. assert (Hg : get_version a' v = get_version a v) by (unfold get_version; by rewrite Hvs).
  destruct (hi_ver _ _ _ _ _ (ai_heap _ _ _ Hi) _ _ Hpv) as [Hlt _]. destruct (lookup_lt_is_Some_2 _ _ Hlt) as [vr Hvr].
  assert (Hs : shows a' (get_version a' v) = shows a (get_version a v)).
  { rewrite Hg, !shows_at. f_equal. apply superseded_ext; [done|]. intros r. unfold get_version. rewrite Hvr. cbn. by eapply (hi_info _ _ _ _ _ (ai_heap _ _ _ Hi)). }
  rewrite Hs, Hg. destruct (shows a _); [done|]. f_equal. destruct (v_prev (get_version a v)) as [q|] eqn:Hq; [|by rewrite !sees_none].
  destruct (prev_lt _ _ _ _ _ _ (ai_heap _ _ _ Hi) Hpv q Hq) as (Hql & _). apply (same_head G); [done..| |by apply Hp]. by intros ? [= <-].
Qed.

(** ** The other threads *)

Context (Hversioning : versioning cfg = true) (Hstamp : has_stamp cfg = true) (Hown : own = 0%Z \/ in_flight own = true).

(** What other threads may do while the reader runs: write as another transaction and
    commit after its instant, abort, and reclaim no later than its instant. *)
Definition others (act : action) s : Prop :=
  let x := mv (adj s) in
  match act with
  | Write _ tx ts => (start < ts)%Z /\ forall i t, tx = Some i -> states x !! i = Some t -> st_txID t <> own
  | CommitRec r ts => (start < ts)%Z /\ rec_ts x r <> own
  | AbortRec r | WithdrawSlot r _ => rec_ts x r <> own
  | ReclaimShard w _ => (w <= start)%Z
  | _ => True
  end.

Lemma own_hidden ts : in_flight ts = true -> ts <> own -> Visible ts start own = false.
Proof.
  intros [H1 H2]%in_flight_range Hne. unfold Visible. rewrite (proj2 (Z.eqb_neq _ _) Hne). by rewrite (proj2 (Z.ltb_ge _ _) H1).
Qed.

Lemma later_hidden ts : (0 < ts < TxIDBase)%Z -> (start < ts)%Z -> Visible ts start own = false.
Proof.
  intros H1 H2. unfold Visible. destruct (Z.eqb_spec ts own) as [->|Hne].
  - destruct Hown as [H|H]; [lia|]. apply in_flight_range in H. lia.
  - rewrite (proj2 (Z.ltb_lt _ _)) by lia. apply Z.leb_gt. lia.
Qed.

Lemma aborted_hidden : Visible AbortedTS start own = false.
Proof.
  unfold Visible. destruct (Z.eqb_spec AbortedTS own) as [He|Hne].
  - destruct Hown as [H|H]; [by rewrite H in He|]. apply in_flight_range in H as [_ []]. done.
  - done.
Qed.

Lemma early_shown ts : (ts <= start)%Z -> (ts < TxIDBase)%Z -> Visible ts start own = true.
Proof. intros H1 H2. unfold Visible. destruct (ts =? own)%Z; [done|]. rewrite (proj2 (Z.ltb_lt _ _)) by lia. by apply Z.leb_le. Qed.

(** The stamp of a write: the record of its open transaction, or its own timestamp. *)
Lemma stamp_hidden tx ts a info st a1 : recs_ok (mv a) -> clocked (mv a) = true -> (0 < ts < TxIDBase)%Z -> (start < ts)%Z ->
  (forall i, tx = Some i -> exists t, states (mv a) !! i = Some t /\ is_open t) ->
  (forall i t, tx = Some i -> states (mv a) !! i = Some t -> st_txID t <> own) ->
  versionStamp cfg tx ts a = (info, st, a1) ->
  match info with Some r => r < length (recs (mv a1)) /\ Visible (rec_ts (mv a1) r) start own = false | None => Visible st start own = false end.
Proof.
  intros Hok Hcl Hts Hst Hop Hid. unfold versionStamp. rewrite Hstamp. cbn [negb]. destruct tx as [i|].
  - cbn. destruct (Hop i eq_refl) as (t & Ht & Ho). pose proof (Hid i t eq_refl Ht) as Hne. pose proof (ro_range _ Hok i t Ht Ho) as Hrg.
    assert (Hfl : Visible (st_txID t) start own = false) by (apply own_hidden; [apply in_flight_range; lia|done]).
    unfold Ensure. rewrite Ht. destruct (st_info t) as [| |r] eqn:Hi; [by destruct Ho|intros [= <- <- <-]..].
    + cbn. rewrite length_app. split; [cbn; lia|]. unfold rec_ts. cbn. by rewrite list_lookup_middle.
    + destruct (ro_rec _ Hok i t r Ht Hi) as [Hlt Hr]. split; [done|]. cbn. unfold rec_ts in *. cbn. by rewrite Hr.
  - cbn. unfold UntransactedStamp. rewrite Hcl. intros [= <- <- <-]. by apply later_hidden.
Qed.

Lemma linked_hidden G tx ts prev q a a' : ainv cfg G a -> linked cfg tx ts prev q a a' -> clocked (mv a) = true -> (0 < ts < TxIDBase)%Z -> (start < ts)%Z ->
  (forall i, tx = Some i -> exists t, states (mv a) !! i = Some t /\ is_open t) ->
  (forall i t, tx = Some i -> states (mv a) !! i = Some t -> st_txID t <> own) ->
  exists v, load_ver (hp a') q = Some v /\ shows a' (get_version a' v) = false /\
    ((v_prev (get_version a' v) = prev /\ exists vr, vers (hp a') = vers (hp a) ++ [vr]) \/
     (vers (hp a') = vers (hp a) /\ exists p, prev = Some p /\ load_ver (hp a) p = Some v)).
Proof.
  intros Hi [(info & st & a1 & v & vr & Hs & Hl & Hvr & Hvi & Hc) _ Hrec] Hcl Hts Hst Hop Hid.
  pose proof (stamp_hidden tx ts a info st a1 (ai_recs _ _ _ Hi) Hcl Hts Hst Hop Hid Hs) as Hh. pose proof (Hrec _ _ _ Hs) as Hr.
  assert (Hg : get_version a' v = vr) by (unfold get_version; by rewrite Hvr). exists v. split; [done|]. rewrite Hg. split.
  - rewrite shows_at. unfold supersededAt. rewrite Hvi. destruct info as [r|]; cbn [stamp_at].
    + unfold rec_ts. rewrite Hr. by destruct Hh.
    + destruct Hc as [(Hx & _)|(_ & _ & _ & _ & _ & Ht)]; [unfold same_record in Hx; done|]. by rewrite Ht.
  - destruct Hc as [(Hx & Hvs & _)|(_ & Hv & Hvs & Hp & _)]; [right|left; split; [done|by exists vr]]. split; [done|].
    destruct (same_record_spec _ _ _ _ Hx) as (p & r & -> & _ & Hlp & _). by exists p.
Qed.

(** ** Each effect *)

Lemma write_stable G G' id v tx ts a q a' : ainv cfg G a -> ainv cfg G' a' -> (0 <= id)%Z -> write cfg id v tx ts a q a' -> clocked (mv a) = true ->
  (0 < ts < TxIDBase)%Z -> (start < ts)%Z -> (forall i, tx = Some i -> exists t, states (mv a) !! i = Some t /\ is_open t) ->
  (forall i t, tx = Some i -> states (mv a) !! i = Some t -> st_txID t <> own) -> stable a a'.
Proof.
  intros Hi Hi' Hid Hw Hcl Hts Hst Hop Hne. pose proof (w_link _ _ _ _ _ _ _ _ Hw) as Hlk. rewrite Hversioning in Hlk. destruct Hlk as (p & Hqp & Hge & Hlk).
  destruct (linked_hidden G tx ts (loadEntry a id) p a a' Hi Hlk Hcl Hts Hst Hop Hne) as (w & Hpw & Hhid & Hcase).
  assert (Hvers : exists l, vers (hp a') = vers (hp a) ++ l) by (destruct Hcase as [(_ & vr & ->)|(-> & _)]; [by exists [vr]|exists []; by rewrite app_nil_r]).
  assert (Hptr : forall e, e < length (ents (hp a)) -> sees a' (Some e) = sees a (Some e)).
  { intros e He. eapply (frame_sees G); [done| |done|apply Hw|done]. intros i Hlt. apply (lk_old _ _ _ _ _ _ _ Hlk); [done|lia]. }
  pose proof (w_views _ _ _ _ _ _ _ _ Hw) as Hsv. split; [by apply views_len|done|]. intros id' Hid'. rewrite (w_load _ _ _ _ _ _ _ _ Hw) by done.
  assert (Hpl : forall x e, (0 <= x)%Z -> loadEntry a x = Some e -> e < length (ents (hp a))) by (intros x e Hx; by eapply view_of_length).
  case_decide as Hd.
  - subst id'. rewrite Hqp, (sees_some G' a' _ _ p (ai_heap _ _ _ Hi')), Hpw, Hhid. f_equal. destruct Hcase as [(-> & _)|(Hvs & e & Hle & Hew)].
    + apply (same_head G); [done..|intros e; by apply Hpl|]. destruct (loadEntry a id) as [e|] eqn:He; [apply Hptr; by eapply Hpl|by rewrite !sees_none].
    + rewrite Hle, (sees_some G a _ _ e (ai_heap _ _ _ Hi)), Hew. assert (Hg : get_version a' w = get_version a w) by (unfold get_version; by rewrite Hvs).
      destruct (hi_ver _ _ _ _ _ (ai_heap _ _ _ Hi) _ _ Hew) as [Hlt _]. destruct (lookup_lt_is_Some_2 _ _ Hlt) as [vr Hvr].
      assert (Hs : shows a (get_version a w) = false).
      { rewrite <- Hhid, Hg, !shows_at. f_equal. symmetry. apply superseded_ext; [apply Hw|]. intros r. unfold get_version. rewrite Hvr. cbn. by eapply (hi_info _ _ _ _ _ (ai_heap _ _ _ Hi)). }
      rewrite Hs, Hg. destruct (v_prev (get_version a w)) as [x|] eqn:Hx; [|by rewrite !sees_none].
      destruct (prev_lt _ _ _ _ _ _ (ai_heap _ _ _ Hi) Hew x Hx) as (Hxl & _). apply (same_head G); [done..|by intros ? [= <-]|by apply Hptr].
  - f_equal. apply (same_head G); [done..|intros e; by apply Hpl|]. destruct (loadEntry a id') as [e|] eqn:He; [apply Hptr; by eapply Hpl|by rewrite !sees_none].
Qed.

(** Nothing but what the walks of the old entries read is needed when no head moves. *)
Lemma heads_stable G a a' : ainv cfg G a -> same_views (hp a) (hp a') -> (forall id, (0 <= id)%Z -> loadEntry a' id = loadEntry a id) ->
  (forall p, p < length (ents (hp a)) -> sees a' (Some p) = sees a (Some p)) -> stable a a'.
Proof.
  intros Hi Hsv Hl Hp. split; [by apply views_len|done|]. intros id Hid. rewrite Hl by done. f_equal. apply (same_head G); [done..|by eapply view_of_length|].
  destruct (loadEntry a id) as [e|] eqn:He; [|by rewrite !sees_none]. apply Hp. by eapply view_of_length.
Qed.

Lemma sever_stable G G' w a a' hd n : ainv cfg G a -> hinv cfg G' (hp a') hd n -> severed w a a' -> (w <= start)%Z -> (w < TxIDBase)%Z -> stable a a'.
Proof.
  intros Hi Hi' Hs Hw Hb. apply (heads_stable G); [done|apply Hs|intros; apply Hs|].
  refine (chain_ind G a _ _ _ (ai_heap _ _ _ Hi) _). intros e He IH.
  rewrite (sees_some G a _ _ e (ai_heap _ _ _ Hi)), (sees_some G' a' _ _ e Hi').
  assert (Hg : forall v, get_version a' v = get_version a v) by (intros v; unfold get_version; by rewrite (sv_vers _ _ _ Hs)).
  assert (Hsh : forall vr, supersededAt a' vr = supersededAt a vr) by (intros vr; unfold supersededAt; by rewrite (kp_mv _ _ (sv_kept _ _ _ Hs))).
  destruct (sv_cut _ _ _ Hs e) as [->|(-> & v & -> & Hle)].
  - destruct (load_ver (hp a) e) as [v|] eqn:Hv; [|done]. rewrite Hg, !shows_at, Hsh. destruct (Visible _ _ _); [done|].
    destruct (v_prev (get_version a v)) as [p|] eqn:Hp; [|by rewrite !sees_none]. by eapply IH.
  - rewrite shows_at, early_shown by lia. done.
Qed.

(** Aborted versions hide nothing from the walk. *)
Lemma sees_skips G a hd n e : hinv cfg G (hp a) hd n -> e < length (ents (hp a)) ->
  sees a (first_such (not_aborted a) (ch a (Some e))) = sees a (Some e).
Proof.
  intros Hi. revert e. refine (chain_ind G a hd n _ Hi _). intros e He IH. rewrite (ch_some cfg G a hd n e Hi), (sees_some G a hd n e Hi).
  destruct (load_ver (hp a) e) as [v|] eqn:Hv; [|unfold first_such; cbn [fst snd list_find]; by rewrite (sees_some G a hd n e Hi), Hv]. rewrite first_such_cons. cbn [snd fst].
  destruct (not_aborted a (get_version a v)) eqn:Hn; [by rewrite (sees_some G a hd n e Hi), Hv|]. unfold not_aborted in Hn. apply negb_false_iff, Z.eqb_eq in Hn.
  rewrite shows_at, Hn, aborted_hidden. destruct (v_prev (get_version a v)) as [p|] eqn:Hp; [|by rewrite ch_none, !sees_none].
  rewrite <- (IH v p eq_refl Hp). by destruct (ch a (Some p)).
Qed.

Lemma withdraw_stable G G' r id a p v pre d a' : ainv cfg G a -> ainv cfg G' a' -> (0 <= id)%Z -> withdrew r id a p v pre d a' ->
  in_flight (rec_ts (mv a) r) = true -> rec_ts (mv a) r <> own -> stable a a'.
Proof.
  intros Hi Hi' Hid [Hhd Hv Hinfo _ Hpre _ Hg Hk _ Hoth Htw] Hfl Hne.
  assert (Hrx : recs_ext (mv a) (mv a')) by (rewrite (kp_mv _ _ Hk); apply recs_ext_refl).
  assert (Hptr : forall e, e < length (ents (hp a)) -> sees a' (Some e) = sees a (Some e)).
  { intros e He. eapply (frame_sees G); [done|apply Hg| |done|done]. exists []. by rewrite app_nil_r, (gr_vers _ _ Hg). }
  split; [apply Hg|done|]. intros id' Hid'. destruct (decide (id' = id)) as [->|Hd].
  - rewrite (twin_sees G G' a a' pre (loadEntry a' id)); [|done..|apply Hg|apply Hg|done]. do 2 f_equal.
    rewrite Hhd, (sees_some G a _ _ p (ai_heap _ _ _ Hi)), Hv, shows_at. unfold supersededAt. rewrite Hinfo. cbn [stamp_at]. rewrite own_hidden by done.
    rewrite Hpre. destruct (v_prev (get_version a v)) as [q|] eqn:Hq; [|by rewrite ch_none, !sees_none].
    eapply sees_skips; [apply Hi|]. by destruct (prev_lt _ _ _ _ _ _ (ai_heap _ _ _ Hi) Hv q Hq).
  - rewrite Hoth by done. f_equal. apply (same_head G); [done|apply Hg|by eapply view_of_length|].
    destruct (loadEntry a id') as [e|] eqn:He; [|by rewrite !sees_none]. apply Hptr. by eapply view_of_length.
Qed.

Lemma outcome_stable G a r ts : ainv cfg G a -> pending (mv a) r -> rec_ts (mv a) r <> own -> Visible ts start own = false ->
  stable a (with_mv (set_ts r ts (mv a)) a).
Proof.
  intros Hi (Hlt & Hfl & _) Hne Hts. apply (heads_stable G); [done|apply same_views_refl|done|]. intros p Hp. unfold sees. rewrite !resolve_ch.
  change (ch (with_mv (set_ts r ts (mv a)) a) (Some p)) with (ch a (Some p)). apply first_such_ext. rewrite Forall_forall. intros x _.
  fold (shows (with_mv (set_ts r ts (mv a)) a) x.2) (shows a x.2). rewrite !shows_at. unfold supersededAt. cbn [mv with_mv].
  destruct (v_info x.2) as [q|]; [|done]. cbn [stamp_at]. rewrite rec_ts_set by done. case_decide; [subst|done]. by rewrite Hts, own_hidden.
Qed.

Lemma same_heap_stable G a a' : ainv cfg G a -> hp a' = hp a -> recs_ext (mv a) (mv a') -> (forall id, loadEntry a' id = loadEntry a id) -> stable a a'.
Proof.
  intros Hi Hh Hr Hl. apply (heads_stable G); [done|rewrite Hh; apply same_views_refl|done|]. intros p Hp. eapply (frame_sees G); [done| | |done|done]; rewrite Hh; [done|].
  exists []. by rewrite app_nil_r.
Qed.

(** ** Runs *)

Context (Hfac : factory_ok cfg).

Lemma effect_recs act a a' : effect cfg act a a' -> clocked (mv a') = clocked (mv a).
Proof.
  intros [o tx ts v q b b1 r _ Hw|o tx ts b b' _ Hf|ac b b' Hu|si b b' _ Hm|si b b' _ Hk|w si b b' Hs|r id p v pre d b b' Hw|ac r ts b _]; cbn.
  - apply (w_recs _ _ _ _ _ _ _ _ Hw).
  - apply (fu_recs _ _ _ _ _ _ Hf).
  - apply Hu.
  - by rewrite Hm.
  - by rewrite (kp_mv _ _ Hk).
  - by rewrite (kp_mv _ _ (sv_kept _ _ _ Hs)).
  - by rewrite (kp_mv _ _ (wd_kept _ _ _ _ _ _ _ _ Hw)).
  - done.
Qed.

Lemma rv_stable a a' r : stable a a' -> stable a (with_rv r a').
Proof.
  assert (Hs : forall oe, sees (with_rv r a') oe = sees a' oe) by (intros oe; unfold sees; by rewrite !resolve_ch).
  intros [H1 H2 H3]. split; [done|..]; intros; rewrite Hs; [by apply H2|by apply H3].
Qed.

Lemma effect_stable G G' act s a' : ainv cfg G (adj s) -> ainv cfg G' a' -> effect cfg act (adj s) a' -> enabled act s -> others act s ->
  clocked (mv (adj s)) = true -> stable (adj s) a'.
Proof.
  intros Hi Hi' He Hen Hot Hcl. remember (adj s) as a eqn:Ha.
  destruct He as [o tx ts v q b b1 r _ Hw|o tx ts b b' _ Hf|ac b b' Hu|si b b' Hh Hm Hl _ _|si b b' Hg Hk Ht|w si b b' Hs|r id p v pre d b b' Hw|ac r ts b Hac]; subst b.
  - destruct Hen as ([Hid _] & Hts & Hop), Hot as [Hst Hne]. assert (Hb : ainv cfg G' b1) by by destruct Hi' as [? []].
    apply rv_stable. exact (write_stable G G' (op_src o) v tx ts (adj s) q b1 Hi Hb Hid Hw Hcl Hts Hst Hop Hne).
  - apply (heads_stable G); [done|apply Hf|intros; apply Hf|]. intros p Hp. eapply (frame_sees G); [done| |by eapply full_vers|apply Hf|done]. intros i. by eapply full_old.
  - destruct Hu as [H1 [H2 H3] H4 _]. apply (same_heap_stable G); [done|done| |done]. split; [done|]. exists []. by rewrite app_nil_r.
  - apply (same_heap_stable G); [done|done|rewrite Hm; apply recs_ext_refl|done].
  - assert (Hrx : recs_ext (mv (adj s)) (mv b')) by (rewrite (kp_mv _ _ Hk); apply recs_ext_refl).
    assert (Hptr : forall e, e < length (ents (hp (adj s))) -> sees b' (Some e) = sees (adj s) (Some e)).
    { intros e Hlt. eapply (frame_sees G); [done|apply Hg| |done|done]. exists []. by rewrite app_nil_r, (gr_vers _ _ Hg). }
    split; [apply Hg|done|]. intros id Hid. apply (twin_sees G G'); [done..|by apply Ht|done|apply Hg|apply Hg|done].
  - destruct Hen as [_ Hw]. eapply (sever_stable G G'); [done|apply (ai_heap _ _ _ Hi')|done|done|]. lia.
  - destruct Hen as [Hid Hp]. eapply (withdraw_stable G G'); [done..|apply Hp|done].
  - destruct Hac as [->|[-> ->]]; cbn [enabled others] in Hen, Hot.
    + destruct Hen as [Hp Hts], Hot as [Hst Hne]. apply (outcome_stable G); [done..|]. by apply later_hidden.
    + apply (outcome_stable G); [done..|]. apply aborted_hidden.
Qed.

Definition beside (act : action) s : Prop := enabled act s /\ others act s.

Lemma runs_stable G s s' : ainv cfg G (adj s) -> clocked (mv (adj s)) = true -> runs zeroW cfg beside s s' ->
  stable (adj s) (adj s') /\ exists G', ainv cfg G' (adj s').
Proof.
  intros Hi Hcl Hr. revert G Hi Hcl. induction Hr as [s|s1 act s2 s3 [Hen Hot] Hrun _ IH]; intros G Hi Hcl; [split; [apply stable_refl|by exists G]|].
  destruct (run_effect zeroW cfg Hfac G act s1 Hi Hen) as (s2' & G2 & Hrun' & Hi2 & He). rewrite Hrun in Hrun'. injection Hrun' as <-.
  destruct (IH G2 Hi2) as [H1 H2]; [by rewrite (effect_recs _ _ _ He)|]. split; [|done].
  eapply stable_then; [|exact H1]. by eapply effect_stable.
Qed.

Lemma runs_clocked G s s' : ainv cfg G (adj s) -> runs zeroW cfg beside s s' -> clocked (mv (adj s')) = clocked (mv (adj s)).
Proof.
  intros Hi Hr. revert G Hi. induction Hr as [s|s1 act s2 s3 [Hen _] Hrun _ IH]; intros G Hi; [done|].
  destruct (run_effect zeroW cfg Hfac G act s1 Hi Hen) as (s2' & G2 & Hrun' & Hi2 & He). rewrite Hrun in Hrun'. injection Hrun' as <-.
  rewrite (IH G2 Hi2). by eapply effect_recs.
Qed.

(** A walk whose every step reads a later state of the system: the version of the entry
    it has reached and the timestamp of that version's record. *)
Inductive walk : system W A -> option nat -> system W A -> option nat -> Prop :=
  | walk_end s : walk s None s None
  | walk_plain s e : load_ver (hp (adj s)) e = None -> walk s (Some e) s (Some e)
  | walk_shown s e v : load_ver (hp (adj s)) e = Some v -> shows (adj s) (get_version (adj s) v) = true -> walk s (Some e) s (Some e)
  | walk_next s s' s'' e v r : load_ver (hp (adj s)) e = Some v -> shows (adj s) (get_version (adj s) v) = false ->
      runs zeroW cfg beside s s' -> walk s' (v_prev (get_version (adj s) v)) s'' r -> walk s (Some e) s'' r.

Lemma walk_sees G s e s' r : ainv cfg G (adj s) -> clocked (mv (adj s)) = true -> walk s e s' r ->
  (forall p, e = Some p -> p < length (ents (hp (adj s)))) -> r = sees (adj s) e.
Proof.
  intros Hi Hcl Hw. revert G Hi Hcl. induction Hw as [s|s e Hv|s e v Hv Hs|s s1 s2 e v r Hv Hs Hr _ IH]; intros G Hi Hcl Hlt.
  - by rewrite sees_none.
  - by rewrite (sees_some G _ _ _ e (ai_heap _ _ _ Hi)), Hv.
  - by rewrite (sees_some G _ _ _ e (ai_heap _ _ _ Hi)), Hv, Hs.
  - destruct (runs_stable G s s1 Hi Hcl Hr) as [Hst [G1 Hi1]]. rewrite (sees_some G _ _ _ e (ai_heap _ _ _ Hi)), Hv, Hs.
    pose proof (runs_clocked G s s1 Hi Hr) as Hcl1. rewrite Hcl in Hcl1.
    destruct (v_prev (get_version (adj s) v)) as [p|] eqn:Hp.
    + destruct (prev_lt _ _ _ _ _ _ (ai_heap _ _ _ Hi) Hv p Hp) as (Hpl & _). rewrite (IH G1 Hi1 Hcl1); [by apply Hst|].
      intros ? [= <-]. pose proof (st_len _ _ Hst). lia.
    + rewrite (IH G1 Hi1 Hcl1) by done. by rewrite !sees_none.
Qed.
End snapshot.

(** * No uncommitted change under another, and what an abort restores

    First-updater-wins keeps the records of transactions in flight on current entries
    alone: behind any version there is only what was committed, aborted or never stamped.
    So every record is made over its pre-image, the mark that lets an abort withdraw it,
    and a withdrawal leaves the node at its newest committed state. *)

Section rollback.
Context {W A P : Type} (zeroW : W) `{!AuxColumn A P} `{!AuxLaws A P} (cfg : Config A P).
Abbreviation heap := (heap W A).
Abbreviation AdjList := (AdjList W A).
Abbreviation action := (action W A P).
Implicit Types (h : heap) (a : AdjList) (G : ghost) (s : system W A) (act : action).
Context (Hversioning : versioning cfg = true) (Hstamp : has_stamp cfg = true) (Hfac : factory_ok cfg).

(** The version of entry [e], if any, is not in flight. *)
Definition settled a (e : nat) : Prop := forall w, load_ver (hp a) e = Some w -> in_flight (supersededAt a (get_version a w)) = false.

Record solo a : Prop := {
  sl_ts v vr : vers (hp a) !! v = Some vr -> v_info vr = None -> (v_ts vr < TxIDBase)%Z;
  sl_mark v vr r : vers (hp a) !! v = Some vr -> v_info vr = Some r -> v_ts vr = adjOverPreImage;
  sl_prev v vr p : vers (hp a) !! v = Some vr -> v_prev vr = Some p -> settled a p;
}.

Lemma not_flying ts : (ts < TxIDBase \/ ts = AbortedTS)%Z -> in_flight ts = false.
Proof. intros H. apply not_true_is_false. intros [H1 H2]%in_flight_range. lia. Qed.

Lemma get_version_at a v vr : vers (hp a) !! v = Some vr -> get_version a v = vr.
Proof. unfold get_version. by intros ->. Qed.

(** ** Preservation where no version is made *)

Lemma frame_solo G a a' : ainv cfg G a -> solo a -> vers (hp a') = vers (hp a) ->
  (forall i w, i < length (ents (hp a)) -> load_ver (hp a') i = Some w -> load_ver (hp a) i = Some w) ->
  (forall vr, in_flight (supersededAt a vr) = false -> (forall r, v_info vr = Some r -> r < length (recs (mv a))) -> in_flight (supersededAt a' vr) = false) -> solo a'.
Proof.
  intros Hi [H1 H2 H3] Hv Hl Hf. split; rewrite Hv; [done..|]. intros v vr p Hvr Hp w Hw.
  destruct (hi_prev _ _ _ _ _ (ai_heap _ _ _ Hi) _ _ _ Hvr Hp) as (Hlt & _). pose proof (Hl _ _ Hlt Hw) as Hw'.
  destruct (hi_ver _ _ _ _ _ (ai_heap _ _ _ Hi) _ _ Hw') as [Hwl _]. destruct (lookup_lt_is_Some_2 _ _ Hwl) as [wr Hwr].
  rewrite (get_version_at a' w wr) by (by rewrite Hv). apply Hf; [|intros r; by eapply (hi_info _ _ _ _ _ (ai_heap _ _ _ Hi))].
  rewrite <- (get_version_at a w wr Hwr). exact (H3 v vr p Hvr Hp w Hw').
Qed.

Lemma superseded_mv a a' vr : mv a' = mv a -> supersededAt a' vr = supersededAt a vr.
Proof. unfold supersededAt. by intros ->. Qed.

(** ** Along a chain *)

Lemma chain_settled G a e : ainv cfg G a -> solo a -> e < length (ents (hp a)) -> settled a e ->
  Forall (fun x => in_flight (supersededAt a x.2) = false) (ch a (Some e)).1.
Proof.
  intros Hi Hs. revert e. refine (chain_ind cfg G a _ _ _ (ai_heap _ _ _ Hi) _). intros e He IH Hst.
  rewrite (ch_some cfg G a _ _ e (ai_heap _ _ _ Hi)). destruct (load_ver (hp a) e) as [v|] eqn:Hv; [|constructor]. cbn [fst].
  constructor; [by apply Hst|]. destruct (v_prev (get_version a v)) as [p|] eqn:Hp; [|constructor]. eapply IH; [done..|].
  destruct (hi_ver _ _ _ _ _ (ai_heap _ _ _ Hi) _ _ Hv) as [Hlt _]. destruct (lookup_lt_is_Some_2 _ _ Hlt) as [vr Hvr].
  rewrite (get_version_at _ _ _ Hvr) in Hp. by eapply (sl_prev _ Hs).
Qed.

Lemma over_pre_image G a e : ainv cfg G a -> solo a -> e < length (ents (hp a)) -> settled a e -> overPreImage a (Some e) = true.
Proof.
  intros Hi Hs He Hst. unfold overPreImage. rewrite overPreImage_chain. fold (ch a (Some e)).
  pose proof (chain_settled G a e Hi Hs He Hst) as Hc. destruct (list_find _ _) as [[i x]|] eqn:Hf; [|done].
  apply list_find_Some in Hf as (Hx & Hna & _). rewrite Forall_lookup in Hc. pose proof (Hc _ _ Hx) as Hfl. cbn in Hfl.
  unfold not_aborted in Hna. apply negb_true_iff, Z.eqb_neq in Hna. apply Z.ltb_lt. destruct (Z.lt_ge_cases (supersededAt a x.2) TxIDBase) as [|Hge]; [done|].
  rewrite (proj2 (in_flight_range _)) in Hfl; done.
Qed.

(** ** A write *)

(** A write that makes a version of its own found the current entry settled. *)
Lemma fresh_settled G a tx ts id p info st a1 : ainv cfg G a -> solo a -> directConflictLocked cfg tx id a = None ->
  (forall i, tx = Some i -> exists t, states (mv a) !! i = Some t /\ is_open t) ->
  loadEntry a id = Some p -> versionStamp cfg tx ts a = (info, st, a1) -> same_record a (Some p) info = None -> settled a p.
Proof.
  intros Hi Hs Hc Hop Hp Hst Hsr w Hw. apply not_true_is_false. intros Hfl. pose proof (proj1 (in_flight_range _) Hfl) as [Hge Hna].
  unfold directConflictLocked in Hc. rewrite Hversioning, Hstamp, Hp, Hw in Hc. cbn [negb andb] in Hc.
  rewrite (proj2 (Z.ltb_ge _ _) Hge), (proj2 (Z.eqb_neq _ _) Hna) in Hc. cbn [orb] in Hc.
  destruct (negb (Tx_ID (mv a) tx =? 0)%Z && (supersededAt a (get_version a w) =? Tx_ID (mv a) tx)%Z) eqn:Hb; [|done].
  apply andb_true_iff in Hb as [_ Hb]. apply Z.eqb_eq in Hb.
  destruct (hi_ver _ _ _ _ _ (ai_heap _ _ _ Hi) _ _ Hw) as [Hlt _]. destruct (lookup_lt_is_Some_2 _ _ Hlt) as [wr Hwr]. rewrite (get_version_at _ _ _ Hwr) in *.
  destruct (v_info wr) as [r|] eqn:Hinfo.
  2: { pose proof (sl_ts _ Hs _ _ Hwr Hinfo). unfold supersededAt in Hge. rewrite Hinfo in Hge. cbn in Hge. lia. }
  unfold supersededAt in Hb. rewrite Hinfo in Hb. cbn [stamp_at] in Hb.
  destruct tx as [i|]; [|unfold Tx_ID in Hb; cbn in Hb; unfold supersededAt in Hge; rewrite Hinfo in Hge; cbn in Hge; rewrite Hb in Hge; done].
  destruct (Hop i eq_refl) as (t & Ht & Ho). unfold Tx_ID in Hb. cbn [tx_state] in Hb. rewrite Ht in Hb. cbn in Hb.
  pose proof (hi_info _ _ _ _ _ (ai_heap _ _ _ Hi) _ _ _ Hwr Hinfo) as Hr.
  pose proof (ro_own _ (ai_recs _ _ _ Hi) i t r Ht Ho Hr Hb) as Hrec.
  unfold versionStamp in Hst. rewrite Hstamp in Hst. cbn in Hst. unfold Ensure in Hst. rewrite Ht, Hrec in Hst. injection Hst as <- _ _.
  unfold same_record in Hsr. rewrite Hw, (get_version_at _ _ _ Hwr), Hinfo in Hsr. by rewrite decide_True in Hsr.
Qed.

(** The timestamp of a write without a transaction. *)
Lemma stamp_ts tx ts a st a1 : (0 < ts < TxIDBase)%Z -> versionStamp cfg tx ts a = (None, st, a1) -> (st < TxIDBase)%Z.
Proof.
  intros Hts. unfold versionStamp. rewrite Hstamp. cbn [negb]. destruct (if Tx_Valid tx then _ else _) as [[r|] x]; [done|].
  unfold UntransactedStamp. destruct (clocked x); intros [= <- _]; [lia|done].
Qed.

Lemma linked_solo G a a' tx ts id p prev : ainv cfg G a -> solo a -> directConflictLocked cfg tx id a = None -> (0 < ts < TxIDBase)%Z ->
  (forall i, tx = Some i -> exists t, states (mv a) !! i = Some t /\ is_open t) -> (forall q, prev = Some q -> (0 <= id)%Z /\ loadEntry a id = Some q) ->
  length (ents (hp a)) <= p -> recs_ext (mv a) (mv a') -> linked cfg tx ts prev p a a' -> solo a'.
Proof.
  intros Hi Hs Hc Hts Hop Hprev Hp Hrx [(info & st & a1 & v & vr & Hst & Hl & Hvr & Hvi & Hcase) Hold _].
  assert (Hsup : forall w wr, vers (hp a) !! w = Some wr -> supersededAt a' wr = supersededAt a wr).
  { intros w wr Hwr. apply superseded_ext; [done|]. intros r. by eapply (hi_info _ _ _ _ _ (ai_heap _ _ _ Hi)). }
  assert (Hkeep : forall e, (exists l, vers (hp a') = vers (hp a) ++ l) -> e < length (ents (hp a)) -> settled a e -> settled a' e).
  { intros e [l Hvs] He Hse w. rewrite Hold by lia. intros Hw. pose proof (Hse w Hw) as Hx.
    destruct (hi_ver _ _ _ _ _ (ai_heap _ _ _ Hi) _ _ Hw) as [Hlt _]. destruct (lookup_lt_is_Some_2 _ _ Hlt) as [wr Hwr].
    rewrite (get_version_at _ _ _ Hwr) in Hx. rewrite (get_version_at a' w wr) by (rewrite Hvs; by apply lookup_app_l_Some). by rewrite (Hsup w). }
  destruct Hcase as [(_ & Hvs & _)|(Hsr & Hv & Hvs & Hpv & _ & Hvt)].
  - destruct Hs as [H1 H2 H3]. split; rewrite Hvs; [done..|]. intros w wr q Hwr Hq. apply Hkeep; [exists []; by rewrite app_nil_r| |by eapply H3].
    by destruct (hi_prev _ _ _ _ _ (ai_heap _ _ _ Hi) _ _ _ Hwr Hq).
  - assert (Hset : forall q, prev = Some q -> settled a q /\ q < length (ents (hp a))).
    { intros q Hq. destruct (Hprev q Hq) as [Hid Hld]. subst prev. rewrite Hq in Hsr. split; [by eapply fresh_settled|by eapply view_of_length]. }
    assert (Hcases : forall w wr, vers (hp a') !! w = Some wr -> vers (hp a) !! w = Some wr \/ wr = vr).
    { intros w wr. rewrite Hvs. intros [Hw|[_ Hw]]%lookup_app_Some; [by left|]. apply list_lookup_singleton_Some in Hw as [_ <-]. by right. }
    split.
    + intros w wr [Hw| ->]%Hcases; [by apply (sl_ts _ Hs w)|]. rewrite Hvi, Hvt. intros ->. by eapply stamp_ts.
    + intros w wr r [Hw| ->]%Hcases; [by apply (sl_mark _ Hs w)|]. rewrite Hvi, Hvt. intros ->. destruct prev as [q|]; [|done].
      destruct (Hset q eq_refl). by rewrite (over_pre_image G a q).
    + intros w wr q [Hw| ->]%Hcases Hq.
      * apply Hkeep; [by exists [vr]| |by eapply (sl_prev _ Hs)]. by destruct (hi_prev _ _ _ _ _ (ai_heap _ _ _ Hi) _ _ _ Hw Hq).
      * rewrite Hpv in Hq. destruct (Hset q Hq). apply Hkeep; [by exists [vr]|done|done].
Qed.

(** ** Every action *)

Lemma effect_solo G act s a' : ainv cfg G (adj s) -> effect cfg act (adj s) a' -> enabled act s -> solo (adj s) -> solo a'.
Proof.
  intros Hi He Hen Hs. remember (adj s) as a eqn:Ha.
  assert (Hsame : forall b : AdjList, mv b = mv a -> forall vr, in_flight (supersededAt a vr) = false -> (forall r, v_info vr = Some r -> r < length (recs (mv a))) -> in_flight (supersededAt b vr) = false)
    by (intros b Hb vr Hf _; by rewrite (superseded_mv a b)).
  destruct He as [o tx ts v q b b1 r Hc Hw|o tx ts b b' Hc Hf|ac b b' Hu|si b b' Hh Hm Hl _ _|si b b' Hg Hk Ht|w si b b' Hsv|r id p v pre d b b' Hw|ac r ts b Hac]; subst b.
  - destruct Hen as ([Hid _] & Hts & Hop). pose proof (w_link _ _ _ _ _ _ _ _ Hw) as Hlk. rewrite Hversioning in Hlk. destruct Hlk as (p & _ & Hge & Hlk).
    assert (Hx : solo b1); [|by destruct Hx]. eapply linked_solo; [done..| |exact Hge|apply Hw|exact Hlk]. done.
  - destruct Hen as (_ & Hts & Hop). pose proof (fu_link _ _ _ _ _ _ Hf) as Hlk. rewrite Hversioning in Hlk. destruct Hlk as (p & Hge & Hlk).
    eapply linked_solo; [done..| |exact Hge|apply Hf|exact Hlk]. done.
  - destruct Hu as [H1 [H2 H3] H4 _]. eapply (frame_solo G (adj s)); [done|done|by rewrite H1|by rewrite H1|]. intros vr Hx _. unfold supersededAt, stamp_at, rec_ts in *. by rewrite H2.
  - eapply (frame_solo G (adj s)); [done|done|by rewrite Hh|by rewrite Hh|by apply Hsame].
  - eapply (frame_solo G (adj s)); [done|done|apply Hg| |apply Hsame; apply Hk]. intros i w Hlt. by rewrite (gr_old _ _ Hg).
  - eapply (frame_solo G (adj s)); [done|done|apply Hsv| |apply Hsame, Hsv]. intros i x _. destruct (sv_cut _ _ _ Hsv i) as [->|[-> _]]; done.
  - eapply (frame_solo G (adj s)); [done|done|apply Hw| |apply Hsame, Hw]. intros i x Hlt. by rewrite (gr_old _ _ (wd_grown _ _ _ _ _ _ _ _ Hw)).
  - assert (Hp : pending (mv (adj s)) r /\ (ts < TxIDBase \/ ts = AbortedTS)%Z).
    { destruct Hac as [->|[-> ->]]; cbn [enabled] in Hen; [destruct Hen; split; [done|lia]|split; [done|by right]]. }
    destruct Hp as ((Hr & _) & Hts). eapply (frame_solo G (adj s)); [done|done|done|done|]. intros vr Hx Hlt. unfold supersededAt. cbn [mv with_mv].
    destruct (v_info vr) as [q|] eqn:Hq; cbn [stamp_at]; [|unfold supersededAt in Hx; by rewrite Hq in Hx]. rewrite rec_ts_set by done.
    case_decide; [by apply not_flying|]. unfold supersededAt in Hx. by rewrite Hq in Hx.
Qed.

(** ** The committed state *)

Lemma committed_loop_sees G a : ainv cfg G a -> forall b f held e, (forall v, load_ver (hp a) e = Some v -> v < b) -> b < f ->
  (forall r, held = Some r -> Visible (rec_ts (mv a) r) committedStartTS 0 = false) ->
  committed_loop f held a (Some e) = sees committedStartTS 0 a (Some e).
Proof.
  intros Hi b. induction (lt_wf b) as [b _ IH]. intros f held e Hb Hf Hh. destruct f as [|f]; [lia|]. cbn [committed_loop].
  rewrite (sees_some cfg _ _ G a _ _ e (ai_heap _ _ _ Hi)). destruct (load_ver (hp a) e) as [v|] eqn:Hv; [|done]. pose proof (Hb v eq_refl) as Hvb.
  rewrite shows_at. set (vr := get_version a v).
  assert (Hnext : forall held', (forall r, held' = Some r -> Visible (rec_ts (mv a) r) committedStartTS 0 = false) ->
    committed_loop f held' a (v_prev vr) = sees committedStartTS 0 a (v_prev vr)).
  { intros held' Hh'. destruct (v_prev vr) as [p|] eqn:Hp; [|rewrite sees_none; by destruct f]. apply (IH v Hvb); [|lia|done].
    intros w Hw. destruct (prev_lt cfg _ _ _ _ _ _ (ai_heap _ _ _ Hi) Hv p Hp) as (_ & Hx & _). by apply Hx. }
  destruct (bool_decide (v_info vr = None) || negb (bool_decide (v_info vr = held))) eqn:Ho.
  - destruct (Visible (supersededAt a vr) committedStartTS 0) eqn:Hvis; [done|]. apply Hnext. intros r Hr. unfold supersededAt in Hvis. by rewrite Hr in Hvis.
  - apply orb_false_iff in Ho as [H1 H2]. apply bool_decide_eq_false in H1. apply negb_false_iff, bool_decide_eq_true in H2.
    destruct (v_info vr) as [r|] eqn:Hr; [|done]. unfold supersededAt. rewrite Hr. cbn [stamp_at]. rewrite (Hh r) by done. by apply Hnext.
Qed.

Lemma committed_sees G a id : ainv cfg G a -> committedEntry cfg id a = sees committedStartTS 0 a (loadEntry a id).
Proof.
  intros Hi. unfold committedEntry. rewrite Hversioning. cbn [negb]. destruct (loadEntry a id) as [e|] eqn:He; [|by rewrite sees_none].
  apply (committed_loop_sees G a Hi (length (vers (hp a)))); [|unfold fuel_of; lia|done]. intros v Hv. by apply (hi_ver _ _ _ _ _ (ai_heap _ _ _ Hi)) in Hv as [? _].
Qed.

(** Nothing in flight on the chain: its first version not aborted is committed. *)
Lemma first_committed G a e : ainv cfg G a -> solo a -> e < length (ents (hp a)) -> settled a e ->
  sees committedStartTS 0 a (Some e) = first_such (not_aborted a) (ch a (Some e)).
Proof.
  intros Hi Hs He Hst. unfold sees. rewrite resolve_ch. apply first_such_ext. pose proof (chain_settled G a e Hi Hs He Hst) as Hc.
  eapply Forall_impl; [exact Hc|]. intros x Hx. cbv beta in Hx |- *. change (visible_at a committedStartTS 0 (v_info x.2) (v_ts x.2)) with (Visible (supersededAt a x.2) committedStartTS 0).
  unfold not_aborted. destruct (Z.eqb_spec (supersededAt a x.2) AbortedTS) as [->|Hna]; [done|]. apply early_shown; [|].
  all: destruct (Z.lt_ge_cases (supersededAt a x.2) TxIDBase) as [Hlt|Hge]; [|by rewrite (proj2 (in_flight_range _)) in Hx].
  - unfold committedStartTS. lia.
  - done.
Qed.

Lemma withdraw_restored G G' r id a p v pre d a' : ainv cfg G a -> solo a -> ainv cfg G' a' -> (0 <= id)%Z -> withdrew r id a p v pre d a' ->
  in_flight (rec_ts (mv a) r) = true ->
  reading (view_of a' id) = reading (viewOf (hp a) (committedEntry cfg id a)).
Proof.
  intros Hi Hs Hi' Hid Hw Hfl. destruct Hw as [Hhd Hv Hinfo _ Hpre _ Hg Hk _ _ Htw]. unfold view_of. destruct Htw as [-> _].
  rewrite (committed_sees G) by done. rewrite Hhd, (sees_some cfg _ _ G a _ _ p (ai_heap _ _ _ Hi)), Hv, shows_at. unfold supersededAt. rewrite Hinfo. cbn [stamp_at].
  rewrite own_hidden; [|done|intros H0; by rewrite H0 in Hfl]. rewrite Hpre.
  destruct (v_prev (get_version a v)) as [q|] eqn:Hq; [|by rewrite ch_none, sees_none]. f_equal. f_equal.
  destruct (hi_ver _ _ _ _ _ (ai_heap _ _ _ Hi) _ _ Hv) as [Hlt _]. destruct (lookup_lt_is_Some_2 _ _ Hlt) as [vr Hvr].
  rewrite (get_version_at _ _ _ Hvr) in Hq. symmetry. eapply first_committed; [done|done| |by eapply (sl_prev _ Hs)].
  by destruct (hi_prev _ _ _ _ _ (ai_heap _ _ _ Hi) _ _ _ Hvr Hq).
Qed.
End rollback.
