(* ===== verification/AdjMirror.v ===== *)
(** * The transpose and the edge count, along every run *)

From Stdlib Require Import ZArith Lia.
From stdpp Require Import list gmap.
From S2P Require Import Prelude Clock WriteStamp AdjHeap AdjReverse AdjList AdjOps AdjMaint AdjHeapFacts AdjHeapInv AdjBuild AdjStoreEntry AdjWrite AdjWrites AdjRevFacts AdjUpkeep AdjSystem AdjSpec AdjSnapshot.

Section mirror.
Context {W A P : Type} (zeroW : W) `{!AuxColumn A P} `{!AuxLaws A P} (cfg : Config A P).
Abbreviation AdjList := (AdjList W A).
Abbreviation action := (action W A P).
Abbreviation write_op := (write_op W A P).
Implicit Types (a : AdjList) (G : ghost) (s : system W A) (act : action) (o : write_op).
Context (Hfac : factory_ok cfg).

Definition nbs a (id : Z) : list Z := Neighbours (view_of a id).

(** ** The number of arcs *)

Definition all_ids a : list Z := flat_map (shard_ids a) shard_nos.
Definition deg a (id : Z) : nat := if decide (0 <= id)%Z then length (nbs a id) else 0.
Definition arcs_total a : nat := sum_list_with (deg a) (all_ids a).

Lemma shard_ids_spec a si id : (0 <= si < shardCount)%Z -> id ∈ shard_ids a si ->
  (0 <= id)%Z /\ shard_no id = si.
Proof.
  intros Hsi. unfold shard_ids. destruct (slotsRef _); [|by intros ?%not_elem_of_nil]. intros (i & -> & _)%list_elem_of_fmap.
  by destruct (slot_of_id si i Hsi) as (? & ? & _).
Qed.

Lemma elem_shard_nos si : si ∈ shard_nos <-> (0 <= si < shardCount)%Z.
Proof.
  unfold shard_nos. rewrite list_elem_of_fmap. split.
  - intros (k & -> & [_ Hk]%elem_of_seq). lia.
  - intros Hsi. exists (Z.to_nat si). split; [lia|]. apply elem_of_seq. lia.
Qed.

Lemma elem_flat_map {X Y} (f : X -> list Y) l y : y ∈ flat_map f l <-> exists x, x ∈ l /\ y ∈ f x.
Proof.
  rewrite list_elem_of_In, in_flat_map. split; intros (x & H1 & H2); exists x; [by rewrite !list_elem_of_In|by rewrite <- !list_elem_of_In].
Qed.

Lemma NoDup_flat_map {X Y} (f : X -> list Y) l : NoDup l -> (forall x, x ∈ l -> NoDup (f x)) ->
  (forall x y z, x ∈ l -> y ∈ l -> z ∈ f x -> z ∈ f y -> x = y) -> NoDup (flat_map f l).
Proof.
  intros Hn Hf Hd. induction Hn as [|x l Hx Hn IH]; cbn [flat_map]; [constructor|]. apply NoDup_app. split; [apply Hf; by left|]. split.
  - intros z Hz (y & Hy & Hzy)%elem_flat_map. assert (x = y) by (apply (Hd x y z); [by left|by right|done|done]). by subst.
  - apply IH; [intros y Hy; apply Hf; by right|]. intros y1 y2 z H1 H2. apply Hd; by right.
Qed.

Lemma all_ids_pos a id : id ∈ all_ids a -> (0 <= id)%Z.
Proof. intros (si & Hsi%elem_shard_nos & Hid)%elem_flat_map. by destruct (shard_ids_spec a si id Hsi Hid). Qed.

Lemma all_ids_NoDup a : NoDup (all_ids a).
Proof.
  apply NoDup_flat_map.
  - unfold shard_nos. apply NoDup_fmap_2; [intros x y; lia|apply NoDup_seq].
  - intros si Hsi%elem_shard_nos. unfold shard_ids. destruct (slotsRef _); [|constructor]. apply NoDup_fmap_2_strong; [|apply NoDup_seq].
    intros i j _ _ Hij. destruct (slot_of_id si i Hsi) as (_ & _ & Hi), (slot_of_id si j Hsi) as (_ & _ & Hj). by rewrite <- Hi, Hij.
  - intros si sj id Hsi%elem_shard_nos Hsj%elem_shard_nos H1 H2. destruct (shard_ids_spec a si id Hsi H1), (shard_ids_spec a sj id Hsj H2). congruence.
Qed.

Lemma in_all_ids a id e : (0 <= id)%Z -> loadEntry a id = Some e -> id ∈ all_ids a.
Proof.
  intros Hid (r & l & Hr & Hl & Hi)%loadEntry_Some. apply elem_flat_map. exists (shard_no id). split; [apply elem_shard_nos, shard_no_range|].
  unfold shard_ids. rewrite Hr. apply list_elem_of_fmap. exists (intra_no id). split; [symmetry; by apply id_of_slot_id|].
  apply elem_of_seq. apply lookup_lt_Some in Hi. unfold arr_at. rewrite Hl. cbn. lia.
Qed.

Lemma deg_all a id : deg a id <> 0 -> id ∈ all_ids a.
Proof.
  unfold deg, nbs, view_of. case_decide as Hid; [|done]. destruct (loadEntry a id) as [e|] eqn:He; [|done]. intros _. by eapply in_all_ids.
Qed.

Lemma forward_arcs_length a : length (forward_arcs a) = arcs_total a.
Proof.
  unfold forward_arcs, arcs_total, all_ids. assert (H : forall l, (forall si, si ∈ l -> si ∈ shard_nos) ->
    length (flat_map (fun si => flat_map (fun id => pair id <$> entry_neighbours a (loadEntry a id)) (shard_ids a si)) l) = sum_list_with (deg a) (flat_map (shard_ids a) l)).
  { induction l as [|si l IH]; intros Hl; [done|]. cbn [flat_map]. rewrite length_app, sum_list_with_app. f_equal; [|apply IH; intros x Hx; apply Hl; by right].
    assert (Hp : forall id, id ∈ shard_ids a si -> (0 <= id)%Z) by (intros id Hid; by destruct (shard_ids_spec a si id (proj1 (elem_shard_nos si) (Hl si ltac:(by left))) Hid)).
    induction (shard_ids a si) as [|id ids IH']; [done|]. cbn [flat_map sum_list_with]. rewrite length_app, length_fmap. f_equal; [|apply IH'; intros x Hx; apply Hp; by right].
    unfold deg. rewrite decide_True by (apply Hp; by left). done. }
  by apply H.
Qed.

(** The total moves with the one node that changes. *)
Lemma total_update a a' id : (0 <= id)%Z -> (forall x, (0 <= x)%Z -> x <> id -> nbs a' x = nbs a x) ->
  (arcs_total a' + length (nbs a id) = arcs_total a + length (nbs a' id))%nat.
Proof.
  intros Hid Hx. set (L := remove_dups (id :: all_ids a ++ all_ids a')).
  assert (HL : NoDup L) by apply NoDup_remove_dups.
  assert (Hin : forall x, x ∈ id :: all_ids a ++ all_ids a' -> x ∈ L) by (intros x; by apply elem_of_remove_dups).
  assert (H1 : arcs_total a = sum_list_with (deg a) L).
  { apply sum_cover; [apply all_ids_NoDup|done|apply deg_all|]. intros x H%deg_all. apply Hin. right. apply elem_of_app. by left. }
  assert (H2 : arcs_total a' = sum_list_with (deg a') L).
  { apply sum_cover; [apply all_ids_NoDup|done|apply deg_all|]. intros x H%deg_all. apply Hin. right. apply elem_of_app. by right. }
  pose proof (sum_update (deg a) (deg a') id L HL ltac:(apply Hin; by left)) as Hs. rewrite H1, H2.
  assert (Hd : forall b, deg b id = length (nbs b id)) by (intros b; unfold deg; by rewrite decide_True).
  rewrite <- !Hd. rewrite Hs; [lia|]. intros y Hy. unfold deg. case_decide; [|done]. by rewrite Hx.
Qed.

(** ** Neighbours are node ids *)

Definition good a (p : nat) : Prop := Forall (Z.le 0) (Neighbours (viewOf (hp a) (Some p))).

Record goods a : Prop := {
  gd_head id p : (0 <= id)%Z -> loadEntry a id = Some p -> good a p;
  gd_prev v vr p : vers (hp a) !! v = Some vr -> v_prev vr = Some p -> good a p;
}.

Lemma good_views a a' p : same_views (hp a) (hp a') -> p < length (ents (hp a)) -> good a p -> good a' p.
Proof. intros Hsv Hp. unfold good. rewrite (same_views_viewOf (hp a) (hp a') (Some p)); [done|done|]. by intros ? [= <-]. Qed.

Lemma goods_nbs a id : goods a -> (0 <= id)%Z -> Forall (Z.le 0) (nbs a id).
Proof.
  intros Hg Hid. unfold nbs, view_of. destruct (loadEntry a id) as [p|] eqn:Hp; [|constructor]. by eapply (gd_head _ Hg).
Qed.

Lemma goods_frame G a a' : ainv cfg G a -> goods a -> same_views (hp a) (hp a') ->
  (exists l, vers (hp a') = vers (hp a) ++ l /\ forall vr p, vr ∈ l -> v_prev vr = Some p -> exists id, (0 <= id)%Z /\ loadEntry a id = Some p) ->
  (forall id, (0 <= id)%Z -> Forall (Z.le 0) (nbs a' id)) -> goods a'.
Proof.
  intros Hi [H1 H2] Hsv (l & Hv & Hl) Hn. split.
  - intros id p Hid Hp. pose proof (Hn id Hid) as H. unfold nbs, view_of in H. by rewrite Hp in H.
  - intros v vr p. rewrite Hv. intros [Hvr|[_ Hvr]]%lookup_app_Some Hp.
    + apply (good_views a); [done| |by eapply H2]. by destruct (hi_prev _ _ _ _ _ (ai_heap _ _ _ Hi) _ _ _ Hvr Hp).
    + destruct (Hl vr p) as (id & Hid & Hld); [by eapply list_elem_of_lookup_2|done|]. apply (good_views a); [done| |by eapply H1]. by eapply view_of_length.
Qed.

Lemma linked_prev tx ts prev q a a' : linked cfg tx ts prev q a a' ->
  exists l, vers (hp a') = vers (hp a) ++ l /\ forall vr p, vr ∈ l -> v_prev vr = Some p -> prev = Some p.
Proof.
  intros [(info & st & a1 & v & vr & _ & _ & _ & _ & Hc) _ _]. destruct Hc as [(_ & -> & _)|(_ & _ & -> & Hp & _)].
  - exists []. split; [by rewrite app_nil_r|]. by intros ? ? ?%not_elem_of_nil.
  - exists [vr]. split; [done|]. intros vr' p ->%list_elem_of_singleton. congruence.
Qed.

Lemma write_goods G id v tx ts a q a' : ainv cfg G a -> goods a -> (0 <= id)%Z -> write cfg id v tx ts a q a' -> Forall (Z.le 0) (Neighbours v) -> goods a'.
Proof.
  intros Hi Hg Hid Hw Hv. eapply goods_frame; [done..|apply Hw| |].
  - pose proof (w_link _ _ _ _ _ _ _ _ Hw) as Hlk. destruct (versioning cfg).
    + destruct Hlk as (p & _ & _ & Hlk). destruct (linked_prev _ _ _ _ _ _ Hlk) as (l & Hl & Hp). exists l. split; [done|]. intros vr x Hvr Hx. exists id. split; [done|]. by eapply Hp.
    + destruct Hlk as [-> _]. exists []. split; [by rewrite app_nil_r|]. by intros ? ? ?%not_elem_of_nil.
  - intros x Hx. unfold nbs. rewrite (write_view cfg G id v tx ts a q a' x) by done. case_decide; [done|]. by apply goods_nbs.
Qed.

Lemma full_goods G id tx ts a a' : ainv cfg G a -> goods a -> full cfg id tx ts a a' -> goods a'.
Proof.
  intros Hi Hg Hf. eapply goods_frame; [done..|apply Hf| |].
  - pose proof (fu_link _ _ _ _ _ _ Hf) as Hlk. destruct (versioning cfg).
    + destruct Hlk as (p & _ & Hlk). destruct (linked_prev _ _ _ _ _ _ Hlk) as (l & Hl & Hp). exists l. split; [done|]. intros vr x Hvr Hx. by pose proof (Hp vr x Hvr Hx).
    + destruct Hlk as [-> _]. exists []. split; [by rewrite app_nil_r|]. by intros ? ? ?%not_elem_of_nil.
  - intros x Hx. unfold nbs. rewrite (full_view cfg G id tx ts a a' x) by done. by apply goods_nbs.
Qed.

(** ** The invariant *)

Definition sum (l : list Z) : Z := foldr Z.add 0%Z l.
Definition owed_arc (x d : Z) (l : list owedArc) : nat := length (filter (fun w => ow_src w = x /\ ow_dst w = d) l).

Lemma owed_app x d l l' : owed_arc x d (l ++ l') = owed_arc x d l + owed_arc x d l'.
Proof. unfold owed_arc. by rewrite filter_app, length_app. Qed.

(** What a bulk removal owes. *)
Lemma owed_bulk id info ts l x d : owed_arc x d ((fun dst => mkOwed id dst info ts) <$> l) = if decide (x = id) then cnt d l else 0.
Proof.
  unfold owed_arc, cnt. induction l as [|n l IH]; [by case_decide|]. rewrite fmap_cons, !filter_cons. cbn [ow_src ow_dst].
  destruct (decide (id = x /\ n = d)) as [[-> ->]|Hne].
  - rewrite !decide_True in * by done. cbn [length]. by rewrite IH.
  - rewrite IH. destruct (decide (x = id)) as [->|]; [|done]. rewrite decide_False; [done|]. intros ->. by apply Hne.
Qed.

Record mirrored s : Prop := {
  mi_goods : goods (adj s);
  mi_srcs : srcs_ok (rv (adj s));
  mi_owed : Forall (fun w => 0 <= ow_src w /\ 0 <= ow_dst w)%Z (owed_arcs s);
  mi_arcs x d : (0 <= x)%Z -> (0 <= d)%Z -> arcs_in (rv (adj s)) x d = cnt d (nbs (adj s) x) + owed_arc x d (owed_arcs s);
  mi_size : u64 (size (adj s) + sum (owed_size s)) = u64 (Z.of_nat (arcs_total (adj s)));
  mi_range : (0 <= size (adj s) < 2 ^ 64)%Z;
}.

Lemma sum_cons x l : sum (x :: l) = (x + sum l)%Z.
Proof. done. Qed.

Lemma sum_app l l' : sum (l ++ l') = (sum l + sum l')%Z.
Proof. induction l as [|x l IH]; [done|]. cbn [app]. rewrite !sum_cons, IH. lia. Qed.

Lemma sum_snoc l n : sum (l ++ [n]) = (sum l + n)%Z.
Proof. rewrite sum_app, sum_cons. change (sum []) with 0%Z. lia. Qed.

Lemma sum_delete l i n : l !! i = Some n -> (sum (delete i l) + n = sum l)%Z.
Proof.
  revert i. induction l as [|x l IH]; intros [|i] H; try done.
  - injection H as ->. change (delete 0 (n :: l)) with l. rewrite sum_cons. lia.
  - change (delete (S i) (x :: l)) with (x :: delete i l). rewrite !sum_cons. specialize (IH i H). lia.
Qed.

Lemma u64_add_r x y : u64 (x + u64 y) = u64 (x + y).
Proof. unfold u64. by rewrite Z.add_mod_idemp_r. Qed.

Lemma u64_bounds z : (0 <= u64 z < 2 ^ 64)%Z.
Proof. unfold u64. by apply Z.mod_pos_bound. Qed.

(** One node changes its neighbours to [l]. *)
Lemma mirrored_change s s' id l : mirrored s -> (0 <= id)%Z -> goods (adj s') -> srcs_ok (rv (adj s')) ->
  Forall (fun w => 0 <= ow_src w /\ 0 <= ow_dst w)%Z (owed_arcs s') ->
  (forall x, (0 <= x)%Z -> nbs (adj s') x = if decide (x = id) then l else nbs (adj s) x) ->
  (forall d, (0 <= d)%Z -> arcs_in (rv (adj s')) id d = cnt d l + owed_arc id d (owed_arcs s')) ->
  (forall x d, (0 <= x)%Z -> (0 <= d)%Z -> x <> id -> arcs_in (rv (adj s')) x d = arcs_in (rv (adj s)) x d /\ owed_arc x d (owed_arcs s') = owed_arc x d (owed_arcs s)) ->
  size (adj s') = size (adj s) -> u64 (sum (owed_size s')) = u64 (sum (owed_size s) + (Z.of_nat (length l) - Z.of_nat (length (nbs (adj s) id)))) -> mirrored s'.
Proof.
  intros [M1 M2 M3 M4 M5 M6] Hid Hg Hs Ho Hn Ha Hoth Hsz Hsum. split; try done.
  - intros x d Hx Hd. rewrite Hn by done. destruct (decide (x = id)) as [->|Hne]; [by apply Ha|]. destruct (Hoth x d Hx Hd Hne) as [-> ->]. by apply M4.
  - rewrite Hsz, <- u64_add_r, Hsum, u64_add_r. pose proof (total_update (adj s) (adj s') id Hid) as Ht.
    rewrite (Hn id Hid), decide_True in Ht by done. assert (Heq := Ht ltac:(intros x Hx Hne; rewrite Hn by done; by rewrite decide_False)).
    replace (size (adj s) + (sum (owed_size s) + (Z.of_nat (length l) - Z.of_nat (length (nbs (adj s) id)))))%Z
      with ((Z.of_nat (length l) - Z.of_nat (length (nbs (adj s) id))) + (size (adj s) + sum (owed_size s)))%Z by lia.
    rewrite <- u64_add_r, M5, u64_add_r. f_equal. lia.
  - by rewrite Hsz.
Qed.

(** No node changes its neighbours, and nothing is owed or paid. *)
Lemma mirrored_still s s' : mirrored s -> goods (adj s') -> (forall x, (0 <= x)%Z -> nbs (adj s') x = nbs (adj s) x) ->
  (forall d, live_srcs (rv (adj s')) d = live_srcs (rv (adj s)) d) -> size (adj s') = size (adj s) ->
  owed_size s' = owed_size s -> owed_arcs s' = owed_arcs s -> mirrored s'.
Proof.
  intros Hm Hg Hn Hr Hsz Ho Ha. assert (Harc : forall x d, arcs_in (rv (adj s')) x d = arcs_in (rv (adj s)) x d) by (intros x d; unfold arcs_in; by rewrite Hr).
  apply (mirrored_change s s' 0 (nbs (adj s) 0) Hm); rewrite ?Ho, ?Ha; try done.
  - intros d x Hd. rewrite Hr. by apply (mi_srcs _ Hm).
  - apply (mi_owed _ Hm).
  - intros x Hx. rewrite Hn by done. case_decide; [by subst|done].
  - intros d Hd. rewrite Harc. by apply (mi_arcs _ Hm).
  - by rewrite Z.sub_diag, Z.add_0_r.
Qed.

(** ** Writes *)

Lemma retire_nbs idx (v : EntryView W A) : idx < length (Neighbours v) -> Neighbours (retire_view idx v) = delete idx (Neighbours v).
Proof.
  intros H. unfold retire_view. destruct (Nat.ltb_spec 1 (length (Neighbours v))); [done|]. cbn.
  destruct (Neighbours v) as [|x [|y l]]; cbn in *; [lia| |lia]. by destruct idx; [|lia].
Qed.

(** What a write that changes something owes, and does to the index. *)
Lemma write_mirrored G G' o tx ts s q y a1 v : mirrored s -> ainv cfg G (adj s) -> ainv cfg G' a1 -> op_ok o ->
  (view_op cfg o (view_of (adj s) (op_src o))).1 = Some v -> slots_answer y = (view_op cfg o (view_of (adj s) (op_src o))).2 ->
  write cfg (op_src o) v tx ts (adj s) q a1 ->
  mirrored (owe o y (with_adj (with_rv (rv_op cfg o y a1) a1) s)).
Proof.
  intros Hm Hi Hi1 [Hid Hok] Hv Hy Hw. set (a := adj s) in *. set (id := op_src o) in *.
  assert (Hma : forall x d, (0 <= x)%Z -> (0 <= d)%Z -> arcs_in (rv a) x d = cnt d (nbs a x) + owed_arc x d (owed_arcs s)) by exact (mi_arcs _ Hm).
  assert (Hrv : rv a1 = rv a) by apply (w_rest _ _ _ _ _ _ _ _ Hw). assert (Hsz : size a1 = size a) by apply (w_rest _ _ _ _ _ _ _ _ Hw).
  assert (Hnb : forall x r, (0 <= x)%Z -> nbs (with_rv r a1) x = if decide (x = id) then Neighbours v else nbs a x).
  { intros x r Hx. change (nbs (with_rv r a1) x) with (nbs a1 x). unfold nbs. rewrite (write_view cfg G id v tx ts a q a1 x) by done. by case_decide. }
  assert (Hgd : Forall (Z.le 0) (Neighbours v) -> forall r, goods (with_rv r a1)).
  { intros Hf r. assert (Hg : goods a1) by (eapply (write_goods G); [done|apply Hm|done..]). by destruct Hg. }
  pose proof (goods_nbs a id (mi_goods _ Hm) Hid) as Hpos.
  assert (Hkeep : Neighbours v = nbs a id -> forall s', adj s' = with_rv (rv a1) a1 -> owed_size s' = owed_size s -> owed_arcs s' = owed_arcs s -> mirrored s').
  { intros Hsame s' Ha Hos Hoa. apply (mirrored_still s); rewrite ?Ha, ?Hos, ?Hoa; try done.
    - apply Hgd. by rewrite Hsame.
    - intros x Hx. rewrite Hnb by done. case_decide; [by subst|done].
    - intros d. cbn. by rewrite Hrv. }
  assert (Hret : forall dst idx info ts' n s', (0 <= dst)%Z -> Neighbours (view_of a id) !! idx = Some dst -> v = retire_view idx (view_of a id) ->
     adj s' = with_rv (rev_remove dst id info ts' (rv a1)) a1 -> owed_size s' = owed_size s ++ [n] -> n = u64 (-1) -> owed_arcs s' = owed_arcs s -> mirrored s').
  { intros dst idx info ts' n s' Hdst Hat -> Ha Hos -> Hoa. pose proof (lookup_lt_Some _ _ _ Hat) as Hlt. rewrite retire_nbs in Hnb by done. fold (nbs a id) in *.
    assert (Hp : 0 < arcs_in (rv a) id dst).
    { rewrite Hma by done. enough (0 < cnt dst (nbs a id)) by lia. apply cnt_pos. by eapply list_elem_of_lookup_2. }
    assert (Harc : forall x d, (0 <= d)%Z -> arcs_in (rev_remove dst id info ts' (rv a)) x d + one_if (x = id /\ d = dst) = arcs_in (rv a) x d) by (intros; by apply arcs_in_remove).
    apply (mirrored_change s s' id (delete idx (nbs a id)) Hm Hid); rewrite ?Ha, ?Hos, ?Hoa.
    - apply Hgd. rewrite retire_nbs by done. fold (nbs a id). rewrite delete_take_drop. apply Forall_app. split; [by apply Forall_take|by apply Forall_drop].
    - cbn [rv with_rv]. rewrite Hrv. apply srcs_ok_remove; [done|done|apply Hm].
    - apply Hm.
    - intros x Hx. by apply Hnb.
    - intros d Hd. cbn [rv with_rv]. rewrite Hrv. pose proof (Harc id d Hd) as H. rewrite Hma in H by done. pose proof (cnt_delete d (nbs a id) idx dst Hat) as Hc.
      unfold one_if in H. repeat case_decide; naive_solver lia.
    - intros x d Hx Hd Hne. change (adj s) with a. cbn [rv with_rv]. rewrite Hrv. pose proof (Harc x d Hd) as H. unfold one_if in H. rewrite decide_False in H by naive_solver. split; [lia|done].
    - done.
    - change (adj s) with a. rewrite sum_snoc, u64_add_r, length_delete_eq by done. f_equal. lia. }
  destruct o; cbn [view_op op_src] in *.
  - (* Upsert *) injection Hv as <-. cbn in Hy. destruct y; try done. clear Hy Hkeep Hret. cbn [rv_op owe] in *. cbn [Neighbours append_view] in *. fold (nbs a id) in *.
    apply (mirrored_change s _ id (nbs a id ++ [dst]) Hm Hid); cbn [adj owe_size with_adj owed_arcs owed_size].
    + apply Hgd. apply Forall_app. split; [done|]. by constructor.
    + cbn [rv with_rv]. rewrite Hrv. apply srcs_ok_add; [done|done|apply Hm].
    + apply Hm.
    + intros x Hx. by apply Hnb.
    + intros d Hd. cbn [rv with_rv]. rewrite Hrv, arcs_in_add, Hma, cnt_concat, cnt_one by done. unfold one_if. repeat case_decide; first [lia|naive_solver].
    + intros x d Hx Hd Hne. change (adj s) with a. cbn [rv with_rv]. rewrite Hrv, arcs_in_add by done. unfold one_if. rewrite decide_False by naive_solver. split; [lia|done].
    + done.
    + change (adj s) with a. rewrite sum_snoc, length_app. f_equal. cbn [length]. lia.
  - (* RemoveOne *) destruct (find_slot dst _) as [idx|] eqn:Hf; [|done]. injection Hv as <-. cbn [snd] in Hy. destruct y; try done. cbn in Hy. injection Hy as -> ->.
    destruct (find_slot_Some _ _ _ Hf) as [_ Hat]. eapply (Hret dst idx _ _ (u64 (-1))); [|exact Hat|reflexivity..]. rewrite Forall_forall in Hpos. apply Hpos. by eapply list_elem_of_lookup_2.
  - (* RemoveHandle *) pose proof (slot_by_handle_spec cfg dst target (view_of a id) (view_of_ok _ _ _ _ Hi Hid)) as Hsl.
    destruct (slot_by_handle dst target _) as [idx|]; [|done]. injection Hv as <-. cbn [snd] in Hy. destruct y; try done. cbn in Hy. injection Hy as ->.
    destruct Hsl as [Hat _]. eapply (Hret dst idx _ _ (u64 (-1))); [|exact Hat|reflexivity..]. rewrite Forall_forall in Hpos. apply Hpos. by eapply list_elem_of_lookup_2.
  - (* RemoveAll *) destruct (Nat.eqb_spec (length (Neighbours (view_of a id))) 0) as [|Hlen]; [done|]. injection Hv as <-. cbn [snd] in Hy. destruct y as [| | | |dsts info ts']; try done.
    cbn in Hy. injection Hy as ->. clear Hkeep Hret. cbn [rv_op owe]. fold (nbs a id) in *. rewrite (proj2 (Nat.eqb_neq _ _) Hlen). cbn [Neighbours zero_view] in *.
    apply (mirrored_change s _ id [] Hm Hid); cbn [adj owe_size owe_arcs with_adj owed_arcs owed_size].
    + by apply Hgd.
    + cbn [rv with_rv]. rewrite Hrv. apply Hm.
    + apply Forall_app. split; [apply Hm|]. apply Forall_fmap. eapply Forall_impl; [exact Hpos|]. done.
    + intros x Hx. by apply Hnb.
    + intros d Hd. cbn [rv with_rv]. rewrite Hrv, Hma, owed_app, owed_bulk by done. rewrite decide_True by done. change (cnt d []) with 0. cbn [owed_arcs owe_size with_adj]. lia.
    + intros x d Hx Hd Hne. change (adj s) with a. cbn [rv with_rv]. rewrite Hrv, owed_app, owed_bulk, decide_False by done. split; [done|lia].
    + done.
    + change (adj s) with a. rewrite sum_snoc, u64_add_r. done.
  - unfold relabel in Hv. destruct (set_label dst l (view_of a id)) as [[nl|] b]; [|done]. injection Hv as <-. destruct y; by apply Hkeep.
  - destruct (l =? 0)%Z; [done|]. unfold relabel in Hv. destruct (clear_label dst l (view_of a id)) as [[nl|] b]; [|done]. injection Hv as <-. destruct y; by apply Hkeep.
  - unfold relabel in Hv. destruct (set_labels_at dst idxs l (view_of a id)) as [[nl|] b]; [|done]. injection Hv as <-. destruct y; by apply Hkeep.
  - unfold relabel in Hv. destruct (clear_labels_of dst f (view_of a id)) as [[nl|] b]; [|done]. injection Hv as <-. destruct y; by apply Hkeep.
  - unfold relabel in Hv. destruct (set_labels updates (view_of a id)) as [[nl|] b]; [|done]. injection Hv as <-. destruct y; by apply Hkeep.
  - destruct (fn _ _) as [nx ch]. destruct ch; [|done]. injection Hv as <-. destruct y; by apply Hkeep.
Qed.

(** ** The other actions *)

Lemma goods_keep G a a' : ainv cfg G a -> goods a -> same_views (hp a) (hp a') -> vers (hp a') = vers (hp a) ->
  (forall id, (0 <= id)%Z -> nbs a' id = nbs a id) -> goods a'.
Proof.
  intros Hi Hg Hsv Hv Hn. eapply goods_frame; [done..| |].
  - exists []. rewrite app_nil_r. split; [done|]. by intros ? ? ?%not_elem_of_nil.
  - intros id Hid. rewrite Hn by done. by apply goods_nbs.
Qed.

Lemma still_mirrored G s s' : mirrored s -> ainv cfg G (adj s) -> same_views (hp (adj s)) (hp (adj s')) -> vers (hp (adj s')) = vers (hp (adj s)) ->
  (forall id, (0 <= id)%Z -> nbs (adj s') id = nbs (adj s) id) -> (forall d, live_srcs (rv (adj s')) d = live_srcs (rv (adj s)) d) ->
  size (adj s') = size (adj s) -> owed_size s' = owed_size s -> owed_arcs s' = owed_arcs s -> mirrored s'.
Proof. intros Hm Hi Hsv Hv Hn. apply mirrored_still; [done| |done]. eapply goods_keep; [done|apply Hm|done..]. Qed.

Lemma unmoved_mirrored G s s' : mirrored s -> ainv cfg G (adj s) -> hp (adj s') = hp (adj s) -> (forall id, loadEntry (adj s') id = loadEntry (adj s) id) ->
  (forall d, live_srcs (rv (adj s')) d = live_srcs (rv (adj s)) d) -> size (adj s') = size (adj s) -> owed_size s' = owed_size s -> owed_arcs s' = owed_arcs s -> mirrored s'.
Proof.
  intros Hm Hi Hh Hl. eapply still_mirrored; [done..|rewrite Hh; apply same_views_refl|by rewrite Hh|]. intros id _. unfold nbs, view_of. by rewrite Hh, Hl.
Qed.

Lemma store_mirrored G s a' : mirrored s -> ainv cfg G (adj s) -> same_store (adj s) a' -> size a' = size (adj s) -> mirrored (with_adj a' s).
Proof.
  intros Hm Hi Hs Hsz. destruct (same_store_ainv cfg G _ _ Hs Hi) as [_ Hu]. destruct Hs as (_ & _ & _ & _ & Hr).
  eapply unmoved_mirrored; [done|done|apply Hu|apply Hu| |done..]. intros d. cbn. by rewrite Hr.
Qed.

Lemma twin_nbs h h' (o o' : option nat) : twin (W := W) h h' o o' -> Neighbours (viewOf h' o') = Neighbours (viewOf h o).
Proof. intros [H _]. by apply (f_equal Neighbours) in H. Qed.

Lemma entry_nbs_view a oe : entry_nbs a oe = Neighbours (viewOf (hp a) oe).
Proof. destruct oe as [q|]; [|done]. unfold entry_nbs, nbs_of, entry_at, viewOf. cbn [from_option mbind option_bind]. by destruct (ents (hp a) !! q). Qed.

Lemma prev_good G a e v p : ainv cfg G a -> goods a -> load_ver (hp a) e = Some v -> v_prev (get_version a v) = Some p -> good a p /\ p < length (ents (hp a)).
Proof.
  intros Hi Hg Hv Hp. split; [|by destruct (prev_lt cfg _ _ _ _ _ _ (ai_heap _ _ _ Hi) Hv p Hp)].
  destruct (hi_ver _ _ _ _ _ (ai_heap _ _ _ Hi) _ _ Hv) as [Hlt _]. destruct (lookup_lt_is_Some_2 _ _ Hlt) as [vr Hvr].
  unfold get_version in Hp. rewrite Hvr in Hp. by eapply (gd_prev _ Hg).
Qed.

(** Every search along a chain finds an entry whose neighbours are node ids. *)
Lemma first_such_good G a f e q : ainv cfg G a -> goods a -> e < length (ents (hp a)) -> good a e -> first_such f (ch a (Some e)) = Some q -> good a q.
Proof.
  intros Hi Hg He. revert e He. refine (chain_ind cfg G a _ _ (fun e => good a e -> first_such f (ch a (Some e)) = Some q -> good a q) (ai_heap _ _ _ Hi) _).
  intros e He IH Hge. rewrite (ch_some cfg G a _ _ e (ai_heap _ _ _ Hi)). destruct (load_ver (hp a) e) as [x|] eqn:Hx; [|by intros [= ->]].
  rewrite first_such_cons. cbn [fst snd]. destruct (f _); [by intros [= ->]|]. destruct (v_prev (get_version a x)) as [y|] eqn:Hy; [|by rewrite ch_none].
  intros Hq. destruct (prev_good G a e x y Hi Hg Hx Hy). apply (IH x y); [done..|]. by destruct (ch a (Some y)).
Qed.

Lemma withdraw_nbs G r id a p v pre d a' : ainv cfg G a -> goods a -> (0 <= id)%Z -> withdrew r id a p v pre d a' ->
  entry_nbs a (Some p) = nbs a id /\ entry_nbs a pre = nbs a' id /\ Forall (Z.le 0) (nbs a' id) /\
  (forall x, (0 <= x)%Z -> x <> id -> nbs a' x = nbs a x).
Proof.
  intros Hi Hg Hid [Hhd Hv _ _ Hpre _ Hgr _ _ Hoth Htw]. rewrite !entry_nbs_view. split; [unfold nbs, view_of; by rewrite Hhd|].
  assert (Hn : nbs a' id = Neighbours (viewOf (hp a) pre)) by (apply (twin_nbs _ _ _ _ Htw)). split; [done|]. split.
  - rewrite Hn. destruct pre as [q|]; [|constructor]. destruct (v_prev (get_version a v)) as [w|] eqn:Hw; [|by rewrite ch_none in Hpre].
    destruct (prev_good G a p v w Hi Hg Hv Hw). by eapply (first_such_good G).
  - intros x Hx Hne. unfold nbs, view_of. rewrite Hoth by done. f_equal. apply same_views_viewOf; [apply Hgr|by eapply view_of_length].
Qed.

Lemma cnt_none k (l : list Z) : k ∉ l -> cnt k l = 0.
Proof. intros Hl. destruct (cnt k l) eqn:Hc; [done|]. exfalso. apply Hl, cnt_pos. lia. Qed.

Lemma withdraw_mirrored G s r id p v pre n d a' : mirrored s -> ainv cfg G (adj s) -> (0 <= id)%Z -> withdrew r id (adj s) p v pre d a' ->
  mirrored (owe_size (u64 d) (owe_vers n (with_adj a' s))).
Proof.
  intros Hm Hi Hid Hw. destruct (withdraw_nbs G r id (adj s) p v pre d a' Hi (mi_goods _ Hm) Hid Hw) as (Hcur & Hpre & Hgood & Hother).
  pose proof (goods_nbs (adj s) id (mi_goods _ Hm) Hid) as Hpos. destruct Hw as [_ _ _ _ _ Hri Hg Hkp _ _ _].
  unfold reindexWithdrawnLocked in Hri. rewrite Hcur, Hpre in Hri. set (ks := remove_dups (nbs a' id ++ nbs (adj s) id)) in *.
  assert (Hks : forall k, k ∈ ks <-> k ∈ nbs a' id \/ k ∈ nbs (adj s) id) by (intros k; unfold ks; by rewrite elem_of_remove_dups, elem_of_app).
  destruct (reindex_fold id (nbs a' id) (nbs (adj s) id) Hid ks 0 (rv (adj s))) as (R1 & R2 & R3).
  { apply NoDup_remove_dups. }
  { intros k Hk%Hks. rewrite Forall_forall in Hgood, Hpos. assert (Hk0 : (0 <= k)%Z) by (destruct Hk; auto). split; [done|]. rewrite (mi_arcs _ Hm) by done. lia. }
  { apply Hm. }
  destruct (foldl _ _ _) as [d' r']. cbn [fst snd] in *. injection Hri as <- Hr. unfold ks in R1. rewrite sum_diff in R1.
  apply (mirrored_change s _ id (nbs a' id) Hm Hid); cbn [adj owe_size owe_vers with_adj owed_arcs owed_size].
  - eapply goods_frame; [exact Hi|apply Hm|apply Hg| |].
    + exists []. rewrite app_nil_r. split; [apply Hg|]. by intros ? ? ?%not_elem_of_nil.
    + intros x Hx. destruct (decide (x = id)) as [->|Hne]; [done|]. rewrite Hother by done. apply goods_nbs; [apply Hm|done].
  - by rewrite <- Hr.
  - apply Hm.
  - intros x Hx. destruct (decide (x = id)) as [->|Hne]; [done|by apply Hother].
  - intros k Hk. rewrite <- Hr. pose proof (R3 id k Hk) as H. rewrite (mi_arcs _ Hm) in H by done. unfold diff in H.
    destruct (decide (k ∈ ks)) as [Hin|Hni]; [rewrite decide_True in H by done; lia|]. rewrite decide_False in H by naive_solver.
    rewrite Hks in Hni. rewrite (cnt_none k (nbs a' id)), (cnt_none k (nbs (adj s) id)) in * by tauto. lia.
  - intros x k Hx Hk Hne. rewrite <- Hr. pose proof (R3 x k Hk) as H. rewrite decide_False in H by naive_solver. split; [lia|done].
  - apply (kp_size _ _ Hkp).
  - rewrite sum_snoc, u64_add_r, R1. f_equal.
Qed.
End mirror.

(** * Every action keeps the transpose and the edge count *)

Section mirrored.
Context {W A P : Type} (zeroW : W) `{!AuxColumn A P} `{!AuxLaws A P} (cfg : Config A P).
Abbreviation AdjList := (AdjList W A).
Abbreviation action := (action W A P).
Implicit Types (a : AdjList) (G : ghost) (s : system W A) (act : action).
Context (Hfac : factory_ok cfg).

(** ** What is owed is settled *)

Lemma settle_size_mirrored s i n : mirrored s -> owed_size s !! i = Some n ->
  mirrored (mkSys (add_size n (adj s)) (delete i (owed_size s)) (owed_vers s) (owed_arcs s)).
Proof.
  intros [M1 M2 M3 M4 M5 M6] Hn. pose proof (sum_delete _ _ _ Hn) as Hs. split; cbn [adj owed_size owed_arcs]; try done.
  - by destruct M1.
  - change (arcs_total (add_size n (adj s))) with (arcs_total (adj s)). change (size (add_size n (adj s))) with (u64 (size (adj s) + n)).
    rewrite Z.add_comm, u64_add_r, <- M5. f_equal. lia.
  - apply u64_bounds.
Qed.

Lemma owed_delete x d l i w : l !! i = Some w ->
  (owed_arc x d (delete i l) + one_if (x = ow_src w /\ d = ow_dst w) = owed_arc x d l)%nat.
Proof.
  intros Hw. unfold owed_arc, one_if. rewrite (delete_Permutation l i w Hw) at 2. rewrite filter_cons. repeat case_decide; cbn [length]; naive_solver lia.
Qed.

Lemma settle_arc_mirrored s i w : mirrored s -> owed_arcs s !! i = Some w ->
  mirrored (mkSys (with_rv (rev_remove (ow_dst w) (ow_src w) (ow_info w) (ow_ts w) (rv (adj s))) (adj s)) (owed_size s) (owed_vers s) (delete i (owed_arcs s))).
Proof.
  intros [M1 M2 M3 M4 M5 M6] Hw. destruct (Forall_lookup_1 _ _ _ _ M3 Hw) as [Hs Hd].
  assert (Hp : (0 < arcs_in (rv (adj s)) (ow_src w) (ow_dst w))%nat).
  { rewrite M4 by done. pose proof (owed_delete (ow_src w) (ow_dst w) _ _ _ Hw) as H. unfold one_if in H. rewrite decide_True in H by done. lia. }
  split; cbn [adj owed_size owed_arcs]; try done.
  - by destruct M1.
  - by apply srcs_ok_remove.
  - rewrite delete_take_drop. apply Forall_app. split; [by apply Forall_take|by apply Forall_drop].
  - intros x d Hx Hd'. pose proof (arcs_in_remove _ _ (ow_info w) (ow_ts w) _ x d Hd Hd' Hp) as H1. pose proof (owed_delete x d _ _ _ Hw) as H2.
    rewrite M4 in H1 by done. cbn [rv with_rv] in *. change (nbs (with_rv ?r (adj s)) x) with (nbs (adj s) x). lia.
Qed.

(** ** Writes *)

Lemma writes_mirrored G o tx ts s r a' : mirrored s -> ainv cfg G (adj s) -> op_ok o -> exec_write zeroW cfg o tx ts (adj s) = Some (r, a') ->
  mirrored (match r with inl _ => with_adj a' s | inr x => owe o x (with_adj a' s) end).
Proof.
  intros Hm Hi Hok Hr. pose proof (exec_write_spec zeroW cfg Hfac G o tx ts (adj s) Hi Hok) as H. unfold writes_as in H. rewrite Hr in H.
  assert (Hsame : with_adj (adj s) s = s) by by destruct s.
  assert (Hno : forall y, (view_op cfg o (view_of (adj s) (op_src o))).1 = None -> y = (view_op cfg o (view_of (adj s) (op_src o))).2 -> owe o y s = s).
  { clear. intros y H1 ->. destruct o; cbn [view_op op_src] in *; try done.
    - by destruct (find_slot _ _).
    - by destruct (slot_by_handle _ _ _).
    - destruct (Nat.eqb_spec (length (Neighbours (view_of (adj s) src))) 0) as [Hn|]; [|done]. cbn. by rewrite Hn. }
  destruct (unguarded o) eqn:Hun.
  { injection H as -> ->. rewrite Hsame. rewrite (Hno _); [done| |done]. clear -Hun. destruct o; cbn in *; try done.
    - by rewrite Hun.
    - by destruct idxs.
    - apply Nat.eqb_eq, map_size_empty_iff in Hun. subst. by rewrite set_labels_none. }
  destruct (directConflictLocked _ _ _ _); [injection H as -> ->; by rewrite Hsame|].
  destruct (view_op cfg o (view_of (adj s) (op_src o))) as [[v|] x] eqn:Hv; cbn [fst snd] in *; [|injection H as -> ->; rewrite Hsame, (Hno _); done].
  destruct H as (G' & a1 & Hi1 & [(q & y & [= -> ->] & Hy & Hw)|[[= -> ->] Hf]]).
  - eapply (write_mirrored cfg G G'); [done..|by rewrite Hv|by rewrite Hv|done].
  - apply (mirrored_still s); cbn [adj with_adj]; [done|by eapply (full_goods cfg G), Hf; [|apply Hm]| | | |done..].
    + intros id Hid. unfold nbs. by rewrite (full_view cfg G (op_src o) tx ts (adj s) a1).
    + intros d. by rewrite (sr_rv _ _ (fu_rest _ _ _ _ _ _ Hf)).
    + apply (sr_size _ _ (fu_rest _ _ _ _ _ _ Hf)).
Qed.

(** ** Every action *)

Lemma EndExclusiveBuild_size G a : ainv cfg G a -> size (EndExclusiveBuild a) = size a.
Proof.
  intros Hi. unfold EndExclusiveBuild. destruct (_ =? 0)%Z; [done|]. destruct (_ <? _)%Z; [done|]. set (a1 := with_window _ _ _ _ _ a).
  destruct (same_store_ainv cfg G a a1) as [H1 _]; [done..|]. destruct (releaseBuilders_spec cfg G a1 H1) as (_ & _ & Hk & _). apply Hk.
Qed.

Lemma open_window_size excl nested fresh a : size (open_window cfg excl nested fresh a) = size a.
Proof. unfold open_window, mintBulkOwner. destruct (_ =? 0)%Z; [|done]. by destruct (_ && _). Qed.

Lemma txn_mirrored G s x : mirrored s -> ainv cfg G (adj s) -> mirrored (with_adj (with_mv x (adj s)) s).
Proof. intros Hm Hi. by eapply (unmoved_mirrored cfg G s). Qed.

Lemma rv_mirrored G s r : mirrored s -> ainv cfg G (adj s) -> (forall d, live_srcs r d = live_srcs (rv (adj s)) d) -> mirrored (with_adj (with_rv r (adj s)) s).
Proof. intros Hm Hi Hr. by eapply (unmoved_mirrored cfg G s). Qed.

Lemma twins_mirrored G s a' : mirrored s -> ainv cfg G (adj s) -> grown (hp (adj s)) (hp a') -> kept (adj s) a' -> rv a' = rv (adj s) ->
  (forall id, (0 <= id)%Z -> twin (hp (adj s)) (hp a') (loadEntry (adj s) id) (loadEntry a' id)) -> mirrored (with_adj a' s).
Proof.
  intros Hm Hi Hg Hk Hr Ht. apply (still_mirrored cfg G s); cbn [adj with_adj]; [done|done|apply Hg|apply Hg| | |apply Hk|done..].
  - intros id Hid. unfold nbs, view_of. by apply twin_nbs, Ht.
  - intros d. by rewrite Hr.
Qed.

Lemma severed_mirrored G w s a' : mirrored s -> ainv cfg G (adj s) -> severed w (adj s) a' -> mirrored (with_adj a' s).
Proof.
  intros Hm Hi Hs. apply (still_mirrored cfg G s); cbn [adj with_adj]; [done|done|apply Hs|apply Hs| | |apply (sv_kept _ _ _ Hs)|done..].
  - intros id Hid. unfold nbs, view_of. rewrite (sv_load _ _ _ Hs). f_equal. apply same_views_viewOf; [apply Hs|by eapply view_of_length].
  - intros d. by rewrite (sv_rv _ _ _ Hs).
Qed.

Lemma owe_vers_mirrored n s : mirrored s -> mirrored (owe_vers n s).
Proof. by intros []. Qed.

Theorem action_mirrored G act s s' : ainv cfg G (adj s) -> mirrored s -> enabled act s -> run zeroW cfg act s = Some s' -> mirrored s'.
Proof.
  intros Hi Hm He Hr. assert (Hid : with_adj (adj s) s = s) by by destruct s.
  destruct act; cbn [enabled run] in He, Hr; try (injection Hr as <-).
  - destruct (exec_write zeroW cfg o tx ts (adj s)) as [[r a']|] eqn:Hx; [|done]. injection Hr as <-. destruct He as [Hok _].
    by eapply writes_mirrored in Hx.
  - destruct (owed_size s !! i) eqn:Hn; [by apply settle_size_mirrored|done].
  - destruct (owed_vers s !! i); [|done]. by destruct Hm as [[] ? ? ? ? ?].
  - destruct (owed_arcs s !! i) eqn:Hn; [by apply settle_arc_mirrored|done].
  - by eapply (store_mirrored cfg G).
  - eapply (store_mirrored cfg G); [done|done|..]; unfold SeedHandleSeq; by destruct (_ <=? _)%Z.
  - destruct (compactShard_spec zeroW cfg G si (adj s) Hi He) as (a' & G' & Hc & _ & Hg & Hk & Hrv & _ & Ht). rewrite Hc in Hr. injection Hr as <-.
    by eapply twins_mirrored.
  - destruct (versioning cfg); [|by rewrite Hid]. eapply rv_mirrored; [done..|]. intros d. apply sweep_live.
  - destruct (reclaim_shard_spec cfg G watermark si (adj s) Hi) as [_ Hs]. destruct (reclaim_shard watermark si (adj s)) as [n a']. injection Hr as <-.
    apply owe_vers_mirrored. by eapply severed_mirrored.
  - destruct He as [Hid0 _]. destruct (withdraw_slot_spec cfg G r id (adj s) Hi Hid0) as [[Hw _]|(p & v & pre & n & d & a' & G' & Hw & Hwd & _)]; rewrite Hw in Hr; injection Hr as <-.
    + rewrite Hid. destruct Hm as [? ? ? ? M5 ?]. split; try done. cbn [owe_size owe_vers adj owed_size]. rewrite sum_snoc. change (u64 0) with 0%Z. by rewrite Z.add_0_r.
    + by eapply (withdraw_mirrored cfg G).
  - destruct (freeze_spec si (adj s)) as (F1 & F2 & F3 & F4 & F5 & _ & _ & _ & F9 & _); [apply Hi|].
    eapply (unmoved_mirrored cfg G s); cbn [adj with_adj]; try done. intros d. by rewrite F3.
  - eapply (store_mirrored cfg G); [done|done|apply open_window_store|apply open_window_size].
  - eapply (store_mirrored cfg G); [done|done|apply EndCommit_store|]. unfold EndCommit. destruct (_ =? 0)%Z; [done|]. by destruct (_ <? _)%Z.
  - unfold BeginExclusiveBuild in Hr. destruct (_ && _); [done|]. injection Hr as <-.
    eapply (store_mirrored cfg G); [done|done|apply open_window_store|apply open_window_size].
  - destruct (EndExclusiveBuild_spec cfg G (adj s) Hi) as (_ & Hu & Hrv). eapply (unmoved_mirrored cfg G s); cbn [adj with_adj]; [done|done|apply Hu|apply Hu| | |done..].
    + intros d. by rewrite Hrv.
    + by eapply EndExclusiveBuild_size.
  - by eapply txn_mirrored.
  - by eapply txn_mirrored.
  - by eapply txn_mirrored.
  - by eapply txn_mirrored.
  - by eapply txn_mirrored.
  - by eapply txn_mirrored.
  - by eapply txn_mirrored.
Qed.
End mirrored.
