(* ===== verification/AdjQuiet.v ===== *)
(** * With nothing owed, the index is the transpose and the check passes

    The listings of both directions, arc by arc, and the sorted sources of a node. *)

From Stdlib Require Import ZArith Lia.
From stdpp Require Import list gmap sorting.
From S2P Require Import Prelude Clock WriteStamp AdjHeap AdjReverse AdjList AdjOps AdjMaint AdjHeapFacts AdjHeapInv AdjBuild AdjStoreEntry AdjWrite AdjWrites AdjRevFacts AdjUpkeep AdjSystem AdjSpec AdjSnapshot AdjMirror.

(** ** Listings of slots *)

Lemma filter_flat_map {X Y} (Q : Y -> Prop) `{!forall y, Decision (Q y)} (f : X -> list Y) l :
  length (filter Q (flat_map f l)) = sum_list_with (fun x => length (filter Q (f x))) l.
Proof. induction l as [|x l IH]; [done|]. cbn [flat_map sum_list_with]. by rewrite filter_app, length_app, IH. Qed.

Lemma sum_flat_map {X Y} (f : Y -> nat) (g : X -> list Y) l : sum_list_with f (flat_map g l) = sum_list_with (fun x => sum_list_with f (g x)) l.
Proof. induction l as [|x l IH]; [done|]. cbn [flat_map sum_list_with]. by rewrite sum_list_with_app, IH. Qed.

Lemma sum_ext {X} (f g : X -> nat) l : (forall x, x ∈ l -> f x = g x) -> sum_list_with f l = sum_list_with g l.
Proof. intros H. induction l as [|x l IH]; [done|]. cbn [sum_list_with]. rewrite H by (by left). rewrite IH; [done|]. intros y Hy. apply H. by right. Qed.

Lemma sum_spike (x : Z) n l : NoDup l -> sum_list_with (fun y => if decide (y = x) then n else 0) l = if decide (x ∈ l) then n else 0.
Proof.
  induction 1 as [|y l Hy Hn IH]; cbn [sum_list_with]; [rewrite decide_False; [done|by apply not_elem_of_nil]|]. rewrite IH.
  destruct (decide (y = x)) as [->|Hne]; [rewrite (decide_False (P := x ∈ l)), decide_True by (done || by left); lia|].
  destruct (decide (x ∈ l)) as [Hx|Hx]; [by rewrite decide_True by (by right)|]. rewrite decide_False; [done|]. intros [->|]%elem_of_cons; done.
Qed.

(** How often [x] has [y] in a listing of the nodes' lists, and in its transpose. *)
Lemma count_pairs (f : Z -> list Z) (l : list Z) x y : NoDup l ->
  length (filter (.= (x, y)) (flat_map (fun i => pair i <$> f i) l)) = if decide (x ∈ l) then cnt y (f x) else 0.
Proof.
  intros Hn. rewrite filter_flat_map, <- (sum_spike x _ l Hn). apply sum_ext. intros i _. unfold cnt. case_decide as Hi.
  - subst i. induction (f x) as [|z fx IH]; [done|]. rewrite fmap_cons, !filter_cons. repeat case_decide; cbn [length]; congruence.
  - induction (f i) as [|z fx IH]; [done|]. rewrite fmap_cons, filter_cons, decide_False by congruence. done.
Qed.

Lemma count_riaps (f : Z -> list Z) (l : list Z) x y : NoDup l ->
  length (filter (.= (x, y)) (flat_map (fun i => (fun s => (s, i)) <$> f i) l)) = if decide (y ∈ l) then cnt x (f y) else 0.
Proof.
  intros Hn. rewrite filter_flat_map, <- (sum_spike y _ l Hn). apply sum_ext. intros i _. unfold cnt. case_decide as Hi.
  - subst i. induction (f y) as [|z fx IH]; [done|]. rewrite fmap_cons, !filter_cons. repeat case_decide; cbn [length]; congruence.
  - induction (f i) as [|z fx IH]; [done|]. rewrite fmap_cons, filter_cons, decide_False by congruence. done.
Qed.

Section quiet.
Context {W A P : Type} (zeroW : W) `{!AuxColumn A P} `{!AuxLaws A P} (cfg : Config A P).
Abbreviation AdjList := (AdjList W A).
Implicit Types (a : AdjList) (s : system W A) (r : revIndex).

(** ** Both directions *)

Lemma forward_listing a : forward_arcs a = flat_map (fun id => pair id <$> nbs a id) (all_ids a).
Proof.
  unfold forward_arcs, all_ids. induction shard_nos as [|si l IH]; [done|]. cbn [flat_map]. rewrite IH, flat_map_app. done.
Qed.

Lemma forward_count a x d : (0 <= x)%Z -> length (filter (.= (x, d)) (forward_arcs a)) = cnt d (nbs a x).
Proof.
  intros Hx. rewrite forward_listing, count_pairs by apply all_ids_NoDup. case_decide as Hin; [done|].
  unfold nbs, view_of. destruct (loadEntry a x) as [e|] eqn:He; [|done]. destruct Hin. by eapply in_all_ids.
Qed.

Definition dst_ids r : list Z := flat_map (fun si => id_of_slot si <$> seq 0 (length (srcs (rev_shard r si)))) shard_nos.

Lemma elem_dst_ids r d : d ∈ dst_ids r <-> (0 <= d)%Z /\ intra_no d < length (srcs (rev_shard r (shard_no d))).
Proof.
  unfold dst_ids. rewrite elem_flat_map. split.
  - intros (si & Hsi%elem_shard_nos & (i & -> & [_ Hi]%elem_of_seq)%list_elem_of_fmap). destruct (slot_of_id si i Hsi) as (? & -> & ->). by split; [|lia].
  - intros [Hd Hi]. exists (shard_no d). split; [apply elem_shard_nos, shard_no_range|]. apply list_elem_of_fmap. exists (intra_no d).
    split; [symmetry; by apply id_of_slot_id|]. apply elem_of_seq. lia.
Qed.

Lemma dst_ids_NoDup r : NoDup (dst_ids r).
Proof.
  apply NoDup_flat_map.
  - unfold shard_nos. apply NoDup_fmap_2; [intros x y; lia|apply NoDup_seq].
  - intros si Hsi%elem_shard_nos. apply NoDup_fmap_2_strong; [|apply NoDup_seq].
    intros i j _ _ Hij. destruct (slot_of_id si i Hsi) as (_ & _ & Hi), (slot_of_id si j Hsi) as (_ & _ & Hj). by rewrite <- Hi, Hij.
  - intros si sj d Hsi%elem_shard_nos Hsj%elem_shard_nos (i & -> & _)%list_elem_of_fmap (j & Hj & _)%list_elem_of_fmap.
    destruct (slot_of_id si i Hsi) as (_ & H1 & _), (slot_of_id sj j Hsj) as (_ & H2 & _). congruence.
Qed.

Lemma reverse_listing a : reverse_arcs a = flat_map (fun d => (fun x => (x, d)) <$> live_srcs (rv a) d) (dst_ids (rv a)).
Proof.
  unfold reverse_arcs, dst_ids. assert (H : forall l, (forall si, si ∈ l -> (0 <= si < shardCount)%Z) ->
    flat_map (fun si => flat_map (fun x => (fun src => (src, id_of_slot si (fst x))) <$> snd x) (imap pair (srcs (rev_shard (rv a) si)))) l =
    flat_map (fun d => (fun x => (x, d)) <$> live_srcs (rv a) d) (flat_map (fun si => id_of_slot si <$> seq 0 (length (srcs (rev_shard (rv a) si)))) l)).
  2: { apply H. intros si. apply elem_shard_nos. }
  induction l as [|si l IH]; intros Hl; [done|]. cbn [flat_map]. rewrite flat_map_app, <- IH by (intros x Hx; apply Hl; by right). f_equal.
  assert (Hsi := Hl si ltac:(by left)).
  assert (Hg : forall (f : nat -> Z -> Z * Z) (g : Z -> list (Z * Z)) (ls : list (list Z)), (forall i x, ls !! i = Some x -> g (id_of_slot si i) = f i <$> x) ->
    flat_map (fun x : nat * list Z => f (fst x) <$> snd x) (imap pair ls) = flat_map g (id_of_slot si <$> seq 0 (length ls))).
  { intros f g ls. induction ls as [|x ls IHls] using rev_ind; intros Hf; [done|]. rewrite imap_app, length_app, seq_app, fmap_app, !flat_map_app, IHls.
    - f_equal. cbn [imap fmap list_fmap seq length flat_map fst snd Nat.add]. rewrite !app_nil_r, Nat.add_0_r. symmetry. apply Hf. by rewrite list_lookup_middle.
    - intros i y Hy. apply Hf. by apply lookup_app_l_Some. }
  apply (Hg (fun i src => (src, id_of_slot si i))). intros i x Hx. f_equal. unfold live_srcs. destruct (slot_of_id si i Hsi) as (_ & -> & ->). by rewrite Hx.
Qed.

Lemma reverse_count a x d : (0 <= d)%Z -> length (filter (.= (x, d)) (reverse_arcs a)) = arcs_in (rv a) x d.
Proof.
  intros Hd. rewrite reverse_listing, count_riaps by apply dst_ids_NoDup. case_decide as Hin; [done|]. unfold arcs_in, live_srcs.
  rewrite elem_dst_ids in Hin. rewrite lookup_ge_None_2; [done|]. destruct (decide (intra_no d < length (srcs (rev_shard (rv a) (shard_no d))))); [tauto|lia].
Qed.

(** ** Quiescence *)

Definition quiet s : Prop := owed_size s = [] /\ owed_arcs s = [].

Lemma quiet_size s : mirrored s -> quiet s -> size (adj s) = u64 (Z.of_nat (arcs_total (adj s))).
Proof.
  intros Hm [H1 _]. rewrite <- (mi_size _ Hm), H1. change (sum []) with 0%Z. rewrite Z.add_0_r. symmetry. apply Z.mod_small, Hm.
Qed.

Lemma quiet_arcs s x d : mirrored s -> quiet s -> (0 <= x)%Z -> (0 <= d)%Z -> arcs_in (rv (adj s)) x d = cnt d (nbs (adj s) x).
Proof. intros Hm [_ H2] Hx Hd. rewrite (mi_arcs _ Hm) by done. rewrite H2. cbn. lia. Qed.

Lemma quiet_check s : mirrored s -> quiet s -> CheckInvariants (adj s) = true.
Proof.
  intros Hm Hq. unfold CheckInvariants. rewrite !andb_true_iff, !forallb_forall. split; [split|].
  - intros [x d] Hk. rewrite <- list_elem_of_In, forward_listing in Hk. apply elem_flat_map in Hk as (id & Hid & (d' & [= -> ->] & Hd)%list_elem_of_fmap).
    apply all_ids_pos in Hid. assert (Hd0 : (0 <= d')%Z) by (pose proof (goods_nbs _ id (mi_goods _ Hm) Hid) as H; rewrite Forall_forall in H; by apply H).
    rewrite forward_count, reverse_count, quiet_arcs by done. apply Nat.eqb_refl.
  - intros [x d] Hk. rewrite <- list_elem_of_In, reverse_listing in Hk. apply elem_flat_map in Hk as (id & Hid & (x' & [= -> ->] & Hx)%list_elem_of_fmap).
    apply elem_dst_ids in Hid as [Hd _]. assert (Hx0 : (0 <= x')%Z) by (by eapply (mi_srcs _ Hm)).
    rewrite forward_count, <- quiet_arcs by done. apply cnt_pos in Hx. fold (arcs_in (rv (adj s)) x' id) in Hx. destruct (Nat.eqb_spec (arcs_in (rv (adj s)) x' id) 0); [lia|done].
  - rewrite forward_arcs_length, <- quiet_size by done. apply Z.eqb_refl.
Qed.
End quiet.

(** * The sources of a node, in walk order

    Sorting, compaction and the removal of the node itself give each source once, in the
    order of the node table. *)

Local Open Scope Z_scope.

(** ** The order *)

Definition walk_lt (x y : Z) : Prop := walkOrder x y < 0.

Lemma walkOrder_cases x y : walkOrder x y =
  if decide (shard_no x = shard_no y) then Z.sgn (Z.shiftr x shardBits - Z.shiftr y shardBits) else shard_no x - shard_no y.
Proof.
  unfold walkOrder. case_decide as H.
  - rewrite H, Z.eqb_refl. cbn [negb]. destruct (Z.ltb_spec (Z.shiftr x shardBits) (Z.shiftr y shardBits)); [rewrite Z.sgn_neg by lia; done|].
    destruct (Z.ltb_spec (Z.shiftr y shardBits) (Z.shiftr x shardBits)); [rewrite Z.sgn_pos by lia; done|].
    replace (_ - _) with 0 by lia. done.
  - rewrite (proj2 (Z.eqb_neq _ _) H). done.
Qed.

(** Shard and index determine the id. *)
Lemma walk_key x y : shard_no x = shard_no y -> Z.shiftr x shardBits = Z.shiftr y shardBits -> x = y.
Proof.
  assert (Hm : forall z, shard_no z = z mod 256) by (intros z; unfold shard_no, shardMask, shardCount; apply (Z.land_ones z 8); lia).
  rewrite !Hm. unfold shardBits. rewrite !Z.shiftr_div_pow2 by lia. change (2 ^ 8) with 256. intros H1 H2.
  rewrite (Z.div_mod x 256), (Z.div_mod y 256) by lia. congruence.
Qed.

Lemma walk_zero x y : walkOrder x y = 0 <-> x = y.
Proof.
  rewrite walkOrder_cases. split.
  - case_decide as H; [|lia]. intros Hs%Z.sgn_null_iff. apply walk_key; [done|lia].
  - intros ->. rewrite decide_True by done. by rewrite Z.sub_diag.
Qed.

Ltac walk := rewrite ?walkOrder_cases in *; repeat case_decide; try congruence; repeat (match goal with |- context [Z.sgn ?z] => destruct (Z.sgn_spec z) as [[? ->]|[[? ->]|[? ->]]] | H : context [Z.sgn ?z] |- _ => destruct (Z.sgn_spec z) as [[? ?]|[[? ?]|[? ?]]] end); try lia.

#[export] Instance walk_le_trans : Transitive walk_le.
Proof. intros x y z. unfold walk_le. walk. Qed.
#[export] Instance walk_le_total : Total walk_le.
Proof. intros x y. unfold walk_le. walk. Qed.
#[export] Instance walk_lt_trans : Transitive walk_lt.
Proof. intros x y z. unfold walk_lt. walk. Qed.

Lemma walk_lt_ne x y : walk_lt x y -> x <> y.
Proof. unfold walk_lt. intros H ->. rewrite (proj2 (walk_zero y y)) in H by done. lia. Qed.

Lemma walk_le_lt x y : walk_le x y -> x <> y -> walk_lt x y.
Proof. unfold walk_le, walk_lt. intros H Hne. destruct (Z.eq_dec (walkOrder x y) 0) as [H0|]; [by destruct Hne; apply walk_zero|lia]. Qed.

(** ** Compaction *)

Lemma compact_after_subset {A} (eqb : A -> A -> bool) p l x : x ∈ compact_after eqb p l -> x ∈ l.
Proof.
  revert p. induction l as [|y l IH]; intros p; cbn [compact_after]; [done|]. destruct (eqb y p).
  - intros Hx. right. by eapply IH.
  - intros [->|Hx]%elem_of_cons; [by left|]. right. by eapply IH.
Qed.

(** Each element dropped is the one before it. *)
Lemma compact_after_cover p l x : x ∈ l -> x = p \/ x ∈ compact_after Z.eqb p l.
Proof.
  revert p. induction l as [|z l IH]; intros p; [by intros ?%not_elem_of_nil|]. cbn [compact_after]. intros [->|Hx]%elem_of_cons.
  - destruct (Z.eqb_spec z p) as [->|]; [by left|right; by left].
  - destruct (Z.eqb_spec z p) as [->|]; [by apply IH|]. destruct (IH z Hx) as [->|]; right; apply elem_of_cons; auto.
Qed.

Lemma compact_sorted l p : Sorted walk_le (p :: l) -> StronglySorted walk_lt (p :: compact_after Z.eqb p l).
Proof.
  intros Hs. apply Sorted_StronglySorted in Hs; [|apply _]. revert p Hs. induction l as [|x l IH]; intros p Hs; [by repeat constructor|].
  apply StronglySorted_inv in Hs as [Hs Hp]. apply Forall_cons in Hp as [Hpx Hpl]. cbn [compact_after]. destruct (Z.eqb_spec x p) as [->|Hne].
  - by apply IH.
  - specialize (IH x Hs). constructor; [done|]. constructor; [by apply walk_le_lt|]. apply StronglySorted_inv in IH as [_ IH].
    eapply Forall_impl; [exact IH|]. intros y Hy. transitivity x; [by apply walk_le_lt|done].
Qed.

Lemma compact_by_sorted l : Sorted walk_le l -> StronglySorted walk_lt (compact_by Z.eqb l).
Proof. destruct l as [|p l]; [constructor|]. apply compact_sorted. Qed.

Lemma elem_compact_by l x : x ∈ compact_by Z.eqb l <-> x ∈ l.
Proof.
  destruct l as [|p l]; [done|]. cbn [compact_by]. rewrite !elem_of_cons. split.
  - intros [->|Hx%compact_after_subset]; auto.
  - intros [->|Hx]; [by left|]. by apply compact_after_cover.
Qed.

(** ** The removal of the node itself *)

Lemma delete_first_sorted d l : StronglySorted walk_lt l ->
  StronglySorted walk_lt (delete_first (Z.eqb d) l) /\ forall x, x ∈ delete_first (Z.eqb d) l <-> x ∈ l /\ x <> d.
Proof.
  intros Hs. unfold delete_first. assert (He : forall x, (d =? x)%Z = true <-> x = d) by (intros x; rewrite Z.eqb_eq; naive_solver).
  destruct (list_find (fun x => (d =? x)%Z = true) l) as [[i y]|] eqn:Hf.
  - apply list_find_Some in Hf as (Hi & Hy%He & Hbefore). subst y. pose proof (take_drop_middle l i d Hi) as Hl. rewrite delete_take_drop.
    set (l1 := take i l) in *. set (l2 := drop (S i) l) in *. clearbody l1 l2. subst l. clear Hi Hbefore.
    apply StronglySorted_app in Hs as (Hlt & Hs1 & [Hs2 Hd2]%StronglySorted_inv). rewrite Forall_forall in Hd2.
    assert (Hn : forall x, x ∈ l1 \/ x ∈ l2 -> x <> d).
    { intros x [Hx|Hx] ->; apply (walk_lt_ne d d); try done; [apply Hlt; [done|by left]|by apply Hd2]. }
    split.
    + apply StronglySorted_app. split_and!; [|done..]. intros x1 x2 H1 H2. apply Hlt; [done|by right].
    + intros x. rewrite !elem_of_app, elem_of_cons. naive_solver.
  - apply list_find_None in Hf. rewrite Forall_forall in Hf. split; [done|]. intros x. split; [|by intros [? _]]. intros Hx. split; [done|].
    intros ->. by apply (Hf d Hx), He.
Qed.

Lemma sources_spec r d : StronglySorted walk_lt (sources r d) /\ forall x, x ∈ sources r d <-> x ∈ live_srcs r d /\ x <> d.
Proof.
  unfold sources. destruct (delete_first_sorted d (compact_by Z.eqb (merge_sort walk_le (live_srcs r d)))) as [H1 H2].
  - apply compact_by_sorted. apply Sorted_merge_sort, _.
  - split; [done|]. intros x. rewrite H2, elem_compact_by. by rewrite (merge_sort_Permutation walk_le (live_srcs r d)).
Qed.

Lemma walk_sorted_NoDup l : StronglySorted walk_lt l -> NoDup l.
Proof.
  induction 1 as [|x l Hs IH Hx]; constructor; [|done]. intros Hin. rewrite Forall_forall in Hx. by apply (walk_lt_ne x x); [apply Hx|].
Qed.
