(* ===== verification/AdjReach.v ===== *)
(** * The reachable states of the adjacency *)

From Stdlib Require Import ZArith Lia.
From stdpp Require Import list gmap sorting.
From S2P Require Import Prelude Clock WriteStamp AdjHeap AdjReverse AdjList AdjOps AdjMaint AdjHeapFacts AdjHeapInv AdjBuild AdjStoreEntry AdjWrite AdjWrites AdjRevFacts AdjUpkeep AdjSystem AdjSpec AdjSnapshot AdjMirror AdjQuiet.

Section reach.
Context {W A P : Type} (zeroW : W) `{!AuxColumn A P} `{!AuxLaws A P} (cfg : Config A P).
Abbreviation AdjList := (AdjList W A).
Abbreviation action := (action W A P).
Implicit Types (a : AdjList) (G : ghost) (s : system W A) (act : action).
Context (Hfac : factory_ok cfg).

(** ** The start *)

Lemma shard_at_New clock si : shard_at (New clock : AdjList) si = mkShard None ∅ 0 None.
Proof. done. Qed.

Lemma New_ainv clock G : ainv cfg G (New clock : AdjList).
Proof.
  split.
  - by split.
  - by split.
  - split; cbn; intros; by rewrite lookup_nil in *.
Qed.

Lemma New_solo clock : solo (New clock : AdjList).
Proof. by split. Qed.

Lemma initial_mirrored clock : mirrored (initial clock : system W A).
Proof.
  split; try done.
  - intros d x _ H. cbn in H. unfold live_srcs, rev_shard in H. rewrite lookup_empty in H. cbn in H. by apply not_elem_of_nil in H.
Qed.

(** ** Every reachable state *)

Definition well_formed s : Prop :=
  exists G, ainv cfg G (adj s) /\ mirrored s /\ (versioning cfg = true -> has_stamp cfg = true -> solo (adj s)).

Lemma well_formed_step act s s' : well_formed s -> enabled act s -> run zeroW cfg act s = Some s' -> well_formed s'.
Proof.
  intros (G & Hi & Hm & Hs) He Hr. destruct (run_effect zeroW cfg Hfac G act s Hi He) as (s2 & G' & Hr' & Hi' & Hef).
  rewrite Hr in Hr'. injection Hr' as <-. exists G'. split; [done|]. split; [by apply (action_mirrored zeroW cfg Hfac G act s s')|].
  intros H1 H2. apply (effect_solo cfg H1 H2 G act s); eauto.
Qed.

Lemma runs_well_formed s s' : well_formed s -> runs zeroW cfg enabled s s' -> well_formed s'.
Proof. intros H0. apply (runs_inv zeroW cfg enabled well_formed); [|done]. intros act s1 s2. apply well_formed_step. Qed.

Lemma reachable_well_formed clock s : reachable zeroW cfg clock s -> well_formed s.
Proof.
  apply runs_well_formed. set (g := mkG (fun _ => 0) (fun _ => (0%Z, KN))). exists (mkGhosts g g (fun _ => 0%Z) (fun _ => 0%Z)). split; [apply New_ainv|]. split; [apply initial_mirrored|].
  intros _ _. apply New_solo.
Qed.

Lemma reachable_clocked clock s : reachable zeroW cfg clock s -> clocked (mv (adj s)) = clock.
Proof.
  intros Hr. assert (H : well_formed s /\ clocked (mv (adj s)) = clock); [|by apply H]. revert Hr.
  apply (runs_inv zeroW cfg enabled (fun s => well_formed s /\ clocked (mv (adj s)) = clock)).
  - intros act s1 s2 [Hw Hc] He Hr. split; [by eapply well_formed_step|]. destruct Hw as (G & Hi & _).
    destruct (run_effect zeroW cfg Hfac G act s1 Hi He) as (s3 & G' & Hr' & _ & Hef). rewrite Hr in Hr'. injection Hr' as <-.
    by rewrite (effect_recs _ _ _ _ Hef).
  - split; [|done]. by apply reachable_well_formed with clock, runs_nil.
Qed.

(** ** Published entries and pinned arrays never change *)

Lemma effect_views act a a' : effect cfg act a a' -> same_views (hp a) (hp a').
Proof.
  intros [o tx ts v q b b1 r _ Hw|o tx ts b b' _ Hf|ac b b' Hu|si b b' Hh|si b b' Hg|w si b b' Hs|r id p v pre d b b' Hw|ac r ts b _].
  - apply (w_views _ _ _ _ _ _ _ _ Hw).
  - apply Hf.
  - rewrite (um_hp _ _ Hu). apply same_views_refl.
  - rewrite Hh. apply same_views_refl.
  - apply Hg.
  - apply Hs.
  - apply Hw.
  - apply same_views_refl.
Qed.

Lemma same_views_keep h h' p : same_views (W := W) (A := A) h h' -> p < length (ents h) -> viewOf h' (Some p) = viewOf h (Some p) /\ p < length (ents h').
Proof.
  intros Hv Hp. split; [apply same_views_viewOf; [done|by intros ? [= <-]]|]. pose proof (views_len _ _ Hv). lia.
Qed.

Lemma runs_views ok s s' : (forall act s, ok act s -> enabled act s) -> well_formed s -> runs zeroW cfg ok s s' ->
  forall p, p < length (ents (hp (adj s))) -> viewOf (hp (adj s')) (Some p) = viewOf (hp (adj s)) (Some p) /\ p < length (ents (hp (adj s'))).
Proof.
  intros Hok Hw Hr p Hp. assert (H : well_formed s' /\ (viewOf (hp (adj s')) (Some p) = viewOf (hp (adj s)) (Some p) /\ p < length (ents (hp (adj s'))))); [|by apply H].
  revert Hr. apply (runs_inv zeroW cfg ok (fun s' => well_formed s' /\ viewOf (hp (adj s')) (Some p) = viewOf (hp (adj s)) (Some p) /\ p < length (ents (hp (adj s'))))); [|done].
  intros act s1 s2 (Hw1 & Hv & Hl) He%Hok Hr. split; [by eapply well_formed_step|]. destruct Hw1 as (G & Hi & _).
  destruct (run_effect zeroW cfg Hfac G act s1 Hi He) as (s3 & G' & Hr' & _ & Hef). rewrite Hr in Hr'. injection Hr' as <-.
  destruct (same_views_keep _ _ p (effect_views _ _ _ Hef) Hl) as [-> ?]. done.
Qed.

(** A pin outside the commit window: the array it freezes is no builder. *)
Definition pin_outside_window act s : Prop :=
  enabled act s /\ forall si, act = Freeze si -> building (shard_at (adj s) si) = None.

Lemma effect_frozen act s a' : effect cfg act (adj s) a' -> pin_outside_window act s -> builders_free (adj s) ->
  keeps_frozen (adj s) a' /\ builders_free a'.
Proof.
  intros He [_ Hp]. remember (adj s) as a eqn:Ha. revert Hp. destruct He as [o tx ts v q b b1 r _ Hw|o tx ts b b' _ Hf|ac b b' Hu|si b b' Hh Hm Hl Hkf Hb|si b b' Hg Hk Ht|w si b b' Hs|r id p v pre d b b' Hw|ac r ts b _]; intros Hp H0; subst b.
  - apply (sr_frozen _ _ (w_rest _ _ _ _ _ _ _ _ Hw)) in H0. by destruct H0.
  - by apply (sr_frozen _ _ (fu_rest _ _ _ _ _ _ Hf)).
  - by apply Hu.
  - split; [done|]. apply Hb; [|done]. by apply Hp.
  - by apply (kp_frozen _ _ Hk).
  - by apply (kp_frozen _ _ (sv_kept _ _ _ Hs)).
  - by apply (kp_frozen _ _ (wd_kept _ _ _ _ _ _ _ _ Hw)).
  - done.
Qed.

Lemma runs_frozen s s' : well_formed s -> builders_free (adj s) -> runs zeroW cfg pin_outside_window s s' ->
  keeps_frozen (adj s) (adj s') /\ builders_free (adj s').
Proof.
  intros Hw Hb Hr. assert (H : well_formed s' /\ (keeps_frozen (adj s) (adj s') /\ builders_free (adj s'))); [|by apply H].
  revert Hr. apply (runs_inv zeroW cfg pin_outside_window (fun s' => well_formed s' /\ (keeps_frozen (adj s) (adj s') /\ builders_free (adj s')))); [|done].
  intros act s1 s2 (Hw1 & Hk & Hb1) He Hr. split; [eapply well_formed_step; [done|apply He|done]|]. destruct Hw1 as (G & Hi & _).
  destruct (run_effect zeroW cfg Hfac G act s1 Hi (proj1 He)) as (s3 & G' & Hr' & _ & Hef). rewrite Hr in Hr'. injection Hr' as <-.
  destruct (effect_frozen act s1 (adj s2) Hef He Hb1) as [? ?]. split; [by eapply keeps_frozen_trans|done].
Qed.
End reach.

(** * The public operations as runs of critical sections

    A public call run alone is a sequence of the system's actions that leaves nothing of
    its own owed, so everything proved of the reachable states holds after it. *)

Local Open Scope Z_scope.

Section compose.
Context {W A P : Type} (zeroW : W) `{!AuxColumn A P} `{!AuxLaws A P} (cfg : Config A P).
Abbreviation AdjList := (AdjList W A).
Abbreviation runs_to := (runs zeroW cfg enabled).
Implicit Types (a : AdjList) (s : system W A).

(** ** Settling *)

Lemma one_run act s s' : enabled act s -> run zeroW cfg act s = Some s' -> runs_to s s'.
Proof. intros He Hr. eapply runs_cons; [done..|apply runs_nil]. Qed.

Lemma settle_size_run n s : runs_to (owe_size n s) (with_adj (add_size n (adj s)) s).
Proof.
  apply (one_run (SettleSize (length (owed_size s)))); [done|]. cbn [run owe_size owed_size]. rewrite list_lookup_middle by done.
  by rewrite delete_middle, app_nil_r.
Qed.

Lemma settle_arcs_run l s : runs_to (owe_arcs l s)
  (with_adj (foldl (fun a o => with_rv (rev_remove (ow_dst o) (ow_src o) (ow_info o) (ow_ts o) (rv a)) a) (adj s) l) s).
Proof.
  revert s. induction l as [|o l IH]; intros s; cbn [foldl].
  - unfold owe_arcs, with_adj. rewrite app_nil_r. apply runs_nil.
  - eapply runs_cons; [| |apply (IH (with_adj (with_rv (rev_remove (ow_dst o) (ow_src o) (ow_info o) (ow_ts o) (rv (adj s))) (adj s)) s))].
    + by instantiate (1 := SettleArc (length (owed_arcs s))).
    + cbn [run owe_arcs owed_arcs]. rewrite list_lookup_middle by done. by rewrite delete_middle.
Qed.

Definition total (l : list Z) : Z := foldr Z.add 0 l.

Lemma settle_vers_run l s : runs_to (mkSys (adj s) (owed_size s) (owed_vers s ++ l) (owed_arcs s)) (with_adj (add_versions (total l) (adj s)) s).
Proof.
  revert s. induction l as [|n l IH]; intros s.
  - rewrite app_nil_r. assert (He : add_versions (total []) (adj s) = adj s) by (unfold add_versions, with_counts; cbn; rewrite Z.add_0_r; by destruct (adj s)).
    rewrite He. destruct s. apply runs_nil.
  - eapply runs_cons; [by instantiate (1 := SettleVers (length (owed_vers s)))| |].
    + cbn [run owed_vers]. rewrite list_lookup_middle by done. by rewrite delete_middle.
    + cbn [adj owed_size owed_arcs]. specialize (IH (with_adj (add_versions n (adj s)) s)).
      assert (He : add_versions (total l) (add_versions n (adj s)) = add_versions (total (n :: l)) (adj s)).
      { change (total (n :: l)) with (n + total l). unfold add_versions, with_counts. cbn -[total]. f_equal. lia. }
      cbn [adj with_adj owed_size owed_vers owed_arcs] in IH. rewrite He in IH. exact IH.
Qed.

Lemma settle_sizes_run l s : l <> [] -> runs_to (mkSys (adj s) (owed_size s ++ l) (owed_vers s) (owed_arcs s)) (with_adj (add_size (total l) (adj s)) s).
Proof.
  revert s. induction l as [|n l IH]; intros s Hl; [done|].
  eapply runs_cons; [by instantiate (1 := SettleSize (length (owed_size s)))| |].
  - cbn [run owed_size]. rewrite list_lookup_middle by done. by rewrite delete_middle.
  - cbn [adj owed_vers owed_arcs]. destruct l as [|m l].
    + rewrite app_nil_r. assert (Ht : total [n] = n) by (cbn; apply Z.add_0_r). rewrite Ht. apply runs_nil.
    + specialize (IH (with_adj (add_size n (adj s)) s) ltac:(done)).
      assert (He : add_size (total (m :: l)) (add_size n (adj s)) = add_size (total (n :: m :: l)) (adj s)).
      { change (total (n :: m :: l)) with (n + total (m :: l)). unfold add_size, with_counts. cbn -[u64 total]. f_equal. unfold u64. rewrite Z.add_mod_idemp_l by lia. f_equal. lia. }
      cbn [adj with_adj owed_size owed_vers owed_arcs] in IH. rewrite He in IH. exact IH.
Qed.

(** ** Writes *)

Definition writer_ok (tx : option nat) (ts : Z) s : Prop :=
  0 < ts < TxIDBase /\ forall i, tx = Some i -> exists t, states (mv (adj s)) !! i = Some t /\ st_info t <> NoWindow.

(** A write and the settling of its count. *)
Lemma write_run o tx ts s r a' : op_ok o -> writer_ok tx ts s -> exec_write zeroW cfg o tx ts (adj s) = Some (r, a') ->
  runs_to s (match r with inl _ => with_adj a' s | inr x => owe o x (with_adj a' s) end).
Proof. intros Ho [H1 H2] Hx. apply (one_run (Write o tx ts)); [by split|]. cbn [run]. by rewrite Hx. Qed.

Lemma tagged {R} (f : R -> answer) (out : option ((adjErr + R) * AdjList)) r a' : out = Some (r, a') ->
  tag f out = Some (match r with inl err => inl err | inr x => inr (f x) end, a').
Proof. by intros ->. Qed.

Lemma addEdge_run src dst w ex tx ts s r a' : 0 <= src -> 0 <= dst -> writer_ok tx ts s ->
  addEdge zeroW cfg src dst w ex tx ts (adj s) = Some (r, a') -> runs_to s (with_adj a' s).
Proof.
  intros Hs Hd Hw. unfold addEdge.
  assert (Hmain : forall ex s, writer_ok tx ts s ->
    ('(r, a) ← upsertEdgeLocked zeroW cfg src dst w ex tx ts (adj s); match r with inl err => refuse err a | inr _ => done () (add_size 1 a) end) = Some (r, a') -> runs_to s (with_adj a' s)).
  { clear s ex Hw. intros ex s Hw H. destruct (upsertEdgeLocked zeroW cfg src dst w ex tx ts (adj s)) as [[r1 a1]|] eqn:Hu; [|done]. cbn [mbind option_bind] in H.
    pose proof (write_run (Upsert src dst w ex) tx ts s (match r1 with inl err => inl err | inr _ => inr Done end) a1 ltac:(by split) Hw) as Hrun.
    specialize (Hrun (tagged (fun _ => Done) _ _ _ Hu)). destruct r1 as [err|u]; injection H as _ <-; [done|]. cbn [owe] in Hrun. eapply runs_trans; [exact Hrun|].
    apply (settle_size_run 1 (with_adj a1 s)). }
  destruct (hasHandle ex); [by apply Hmain|]. cbn [NextHandle]. intros H. eapply runs_trans; [apply (one_run TakeHandle); done|].
  by apply (Hmain _ (with_adj (NextHandle (adj s)).2 s)) in H.
Qed.

Lemma removeEdge_run src dst tx ts s r a' : 0 <= src -> writer_ok tx ts s -> removeEdgeTx zeroW cfg src dst tx ts (adj s) = Some (r, a') -> runs_to s (with_adj a' s).
Proof.
  intros Hs Hw. unfold removeEdgeTx. destruct (removeOneEdgeWithHandleLocked zeroW cfg src dst tx ts (adj s)) as [[r1 a1]|] eqn:Hu; [|done]. cbn [mbind option_bind].
  intros H. pose proof (write_run (RemoveOne src dst) tx ts s _ a1 ltac:(by split) Hw (tagged (fun x => Removed x.1 x.2) _ _ _ Hu)) as Hrun.
  destruct r1 as [err|[[] hd]]; cbn [fst snd owe] in Hrun; injection H as _ <-; [done| |done].
  eapply runs_trans; [exact Hrun|]. apply (settle_size_run (u64 (-1)) (with_adj a1 s)).
Qed.

Lemma removeEdgeByHandle_run src dst target tx ts s r a' : 0 <= src -> writer_ok tx ts s ->
  removeEdgeByHandleTx zeroW cfg src dst target tx ts (adj s) = Some (r, a') -> runs_to s (with_adj a' s).
Proof.
  intros Hs Hw. unfold removeEdgeByHandleTx. destruct (removeOneEdgeByHandleLocked zeroW cfg src dst target tx ts (adj s)) as [[r1 a1]|] eqn:Hu; [|done]. cbn [mbind option_bind].
  intros H. pose proof (write_run (RemoveHandle src dst target) tx ts s _ a1 ltac:(by split) Hw (tagged Flag _ _ _ Hu)) as Hrun.
  destruct r1 as [err|[]]; cbn [owe] in Hrun; injection H as _ <-; [done| |done].
  eapply runs_trans; [exact Hrun|]. apply (settle_size_run (u64 (-1)) (with_adj a1 s)).
Qed.

Lemma retire_arcs_owed src dsts info ts a :
  foldl (fun a o => with_rv (rev_remove (ow_dst o) (ow_src o) (ow_info o) (ow_ts o) (rv a)) a) a ((fun d => mkOwed src d info ts) <$> dsts) = retire_arcs src dsts info ts a.
Proof. revert a. induction dsts as [|d dsts IH]; intros a; [done|]. cbn. apply IH. Qed.

Lemma removeAllEdges_run src tx ts s r a' : 0 <= src -> writer_ok tx ts s -> removeAllEdgesFromTx cfg src tx ts (adj s) = Some (r, a') -> runs_to s (with_adj a' s).
Proof.
  intros Hs Hw. unfold removeAllEdgesFromTx. destruct (removeAllEdgesLocked cfg src tx ts (adj s)) as [[r1 a1]|] eqn:Hu; [|done]. cbn [mbind option_bind].
  intros H. pose proof (write_run (RemoveAll src) tx ts s _ a1 ltac:(by split) Hw (tagged (fun x => Dests x.1 x.2.1 x.2.2) _ _ _ Hu)) as Hrun.
  destruct r1 as [err|[dsts [info t]]]; cbn [owe fst snd] in Hrun; [by injection H as _ <-|]. destruct (length dsts =? 0)%nat; [by injection H as _ <-|]. injection H as _ <-.
  eapply runs_trans; [exact Hrun|]. eapply runs_trans; [apply settle_arcs_run|]. cbn [adj owe_size with_adj]. rewrite retire_arcs_owed.
  apply (settle_size_run _ (with_adj (retire_arcs src dsts info t a1) s)).
Qed.

(** ** Upkeep *)

Lemma compact_run cancelled l s a' : (forall si, si ∈ l -> 0 <= si < shardCount) -> compact_shards zeroW cancelled l (adj s) = Some a' -> runs_to s (with_adj a' s).
Proof.
  revert s. induction l as [|si l IH]; intros s Hl; cbn [compact_shards].
  - intros [= <-]. destruct s. apply runs_nil.
  - destruct (cancelled si); [intros [= <-]; destruct s; apply runs_nil|]. destruct (compactShard zeroW si (adj s)) as [a1|] eqn:Hc; [|done]. cbn [mbind option_bind].
    intros H. eapply runs_trans; [apply (one_run (Compact si)); [apply Hl; by left|cbn [run]; by rewrite Hc]|].
    apply (IH (with_adj a1 s)); [intros sj Hj; apply Hl; by right|done].
Qed.

Lemma pin_run l s st : (forall si, si ∈ l -> 0 <= si < shardCount) ->
  let st' := foldl (fun st si => let '(r, a) := freezeCurrent si (snd st) in (fst st ++ [r], a)) st l in
  snd st = adj s -> runs_to s (with_adj (snd st') s).
Proof.
  revert s st. induction l as [|si l IH]; intros s st Hl; cbn [foldl]; [intros ->; destruct s; apply runs_nil|].
  intros Hst. destruct (freezeCurrent si (snd st)) as [r a1] eqn:Hf. eapply runs_trans.
  - apply (one_run (Freeze si)); [apply Hl; by left|done].
  - apply (IH (with_adj (freezeCurrent si (adj s)).2 s) (fst st ++ [r], a1)); [intros sj Hj; apply Hl; by right|]. cbn. by rewrite <- Hst, Hf.
Qed.

Lemma PinSnapshot_run s : runs_to s (with_adj (PinSnapshot (adj s)).2 s).
Proof. apply (pin_run shard_nos s ([], adj s)); [|done]. unfold shard_nos. intros si (k & -> & [_ Hk]%elem_of_seq)%list_elem_of_fmap. lia. Qed.

(** Nothing is released less than none of. *)
Lemma chain_len_pos f a v : 0 <= chain_len f a v.
Proof. revert v. induction f as [|f IH]; intros v; cbn [chain_len]; [lia|]. destruct (_ ≫= _); [|lia]. specialize (IH n). lia. Qed.

Lemma sever_loop_pos f w k a oe : 0 <= (sever_loop f w k a oe).1.1.
Proof.
  revert k oe. induction f as [|f IH]; intros k oe; cbn [sever_loop]; [cbn; lia|]. destruct oe as [e|]; [|cbn; lia].
  destruct (load_ver (hp a) e); [|cbn; lia]. destruct (_ <=? _); [apply chain_len_pos|apply IH].
Qed.

Lemma reclaim_pos w si l (st : Z * AdjList) : 0 <= st.1 -> 0 <= (foldr (reclaim_slot w si) st l).1.
Proof.
  intros H. induction l as [|i l IH]; [done|]. cbn [foldr]. destruct (foldr (reclaim_slot w si) st l) as [n a]. cbn [fst] in IH. cbn [reclaim_slot].
  destruct (slot_at a _ _) as [e|]; [|done]. unfold severChain. pose proof (sever_loop_pos (fuel_of a) w 0 a (Some e)) as Hp.
  destruct (sever_loop _ _ _ _ _) as [[m k] a1]. cbn [fst] in *. lia.
Qed.

Lemma reclaim_fold_run w l s f a ms : (forall si, si ∈ l -> 0 <= si < shardCount) -> 0 < w < TxIDBase ->
  let st := foldl (fun st si => let '(n, a) := reclaim_shard w si (snd st) in (fst st + n, a)) (f, a) l in
  exists ns, total ns = f - st.1 /\ f <= st.1 /\
    runs_to (mkSys a (owed_size s) (owed_vers s ++ ms) (owed_arcs s)) (mkSys st.2 (owed_size s) (owed_vers s ++ ms ++ ns) (owed_arcs s)).
Proof.
  intros Hl Hw. revert f a ms. induction l as [|si l IH]; intros f a ms; cbn [foldl].
  - exists []. rewrite app_nil_r. split; [cbn; lia|]. split; [cbn; lia|]. apply runs_nil.
  - cbn [snd]. destruct (reclaim_shard w si a) as [n a1] eqn:Hr. cbn [fst].
    destruct (IH ltac:(intros sj Hj; apply Hl; by right) (f + n) a1 (ms ++ [- n])) as (ns & H1 & H2 & H3).
    assert (Hn : 0 <= n) by (pose proof (reclaim_pos w si (elements (versioned (shard_at a si))) (0, a) ltac:(done)) as H; unfold reclaim_shard in Hr; by rewrite Hr in H).
    exists (- n :: ns). split; [change (total (- n :: ns)) with (- n + total ns); lia|]. split; [lia|]. eapply runs_cons; [| |rewrite <- !app_assoc in H3; exact H3].
    + instantiate (1 := ReclaimShard w si). split; [apply Hl; by left|done].
    + cbn [run adj]. rewrite Hr. unfold owe_vers, with_adj. cbn. by rewrite <- app_assoc.
Qed.

Lemma add_versions_zero a : add_versions 0 a = a.
Proof. unfold add_versions, with_counts. rewrite Z.add_0_r. by destruct a. Qed.

Lemma Reclaim_run w s : 0 <= w < TxIDBase -> runs_to s (with_adj (Reclaim cfg w (adj s)).2 s).
Proof.
  intros Hw. unfold Reclaim. set (a1 := if versioning cfg then _ else _). eapply runs_trans; [apply (one_run (Sweep w) s (with_adj a1 s)); done|].
  destruct (Z.eqb_spec w 0) as [->|Hw0]; [apply runs_nil|]. destruct (versionActive a1 =? 0)%Z; [apply runs_nil|]. cbn [orb].
  destruct (reclaim_fold_run w shard_nos (with_adj a1 s) 0 a1 []) as (ns & H1 & H2 & H3).
  { unfold shard_nos. intros si (k & -> & [_ Hk]%elem_of_seq)%list_elem_of_fmap. lia. }
  { lia. }
  destruct (foldl _ _ _) as [freed a2]. cbn [fst snd] in *. rewrite app_nil_r in H3. change (mkSys a1 (owed_size (with_adj a1 s)) (owed_vers (with_adj a1 s)) (owed_arcs (with_adj a1 s))) with (with_adj a1 s) in H3.
  eapply runs_trans; [exact H3|]. pose proof (settle_vers_run ns (with_adj a2 s)) as H4. cbn [adj with_adj owed_size owed_vers owed_arcs] in *. rewrite H1 in H4. cbn [app].
  destruct (Z.ltb_spec 0 freed) as [Hf|Hf]; [by rewrite Z.sub_0_l in H4|]. replace (0 - freed) with 0 in H4 by lia. by rewrite add_versions_zero in H4.
Qed.

(** ** Withdrawal *)

Lemma withdraw_slot_mv r id a : mv (withdraw_slot r id a).2 = mv a.
Proof.
  unfold withdraw_slot. destruct (loadEntry a id ≫= load_ver (hp a)) as [v|]; [|done]. destruct (_ || _); [done|]. destruct (skip_aborted _ _ _ _) as [pre n].
  unfold reindexWithdrawnLocked. destruct (foldl _ _ _) as [d rv']. set (a1 := with_rv rv' a).
  assert (H1 : mv (clipEntry pre a1).2 = mv a) by (by destruct pre). destruct (clipEntry pre a1) as [c a2]. cbn [snd] in *.
  assert (H2 : mv (restoreSlotLocked id c a2) = mv a). { unfold restoreSlotLocked. destruct (slotsRef _); [|done]. by destruct (negb _). }
  by destruct (bool_decide _).
Qed.

Lemma skip_aborted_pos f a oe n : n <= (skip_aborted f a oe n).2.
Proof.
  revert oe n. induction f as [|f IH]; intros oe n; cbn [skip_aborted]; [cbn; lia|]. destruct oe as [e|]; [|cbn; lia]. destruct (load_ver (hp a) e) as [v|]; [|cbn; lia].
  destruct (negb _); [cbn; lia|]. specialize (IH (v_prev (get_version a v)) (n + 1)). lia.
Qed.

Lemma withdraw_slot_pos r id a : 0 <= (withdraw_slot r id a).1.1.
Proof.
  unfold withdraw_slot. destruct (loadEntry a id ≫= load_ver (hp a)) as [v|]; [|done]. destruct (_ || _); [done|].
  pose proof (skip_aborted_pos (fuel_of a) a (v_prev (get_version a v)) 1) as Hn. destruct (skip_aborted _ _ _ _) as [pre n]. cbn [snd] in Hn.
  destruct (reindexWithdrawnLocked _ _ _ _) as [d a1]. destruct (clipEntry pre a1) as [c a2]. cbn [fst]. lia.
Qed.

Definition withdraw_fold (r : nat) := fun (st : Z * Z * AdjList) id => let '(n, d, a) := withdraw_slot r id (snd st) in (fst (fst st) + n, snd (fst st) + d, a).

Lemma withdraw_fold_run r ids s a f d ns ms : (forall id, id ∈ ids -> 0 <= id) -> pending (mv a) r ->
  let st := foldl (withdraw_fold r) (f, d, a) ids in
  exists vs zs, total vs = f - st.1.1 /\ f <= st.1.1 /\ u64 (total zs) = u64 (st.1.2 - d) /\ length zs = length ids /\
    runs_to (mkSys a (owed_size s ++ ms) (owed_vers s ++ ns) (owed_arcs s)) (mkSys st.2 (owed_size s ++ ms ++ zs) (owed_vers s ++ ns ++ vs) (owed_arcs s)).
Proof.
  revert a f d ns ms. induction ids as [|id ids IH]; intros a f d ns ms Hids Hp; cbn [foldl].
  - exists [], []. rewrite !app_nil_r. cbn [fst snd]. split; [cbn; lia|]. split; [lia|]. split; [by rewrite Z.sub_diag|]. split; [done|]. apply runs_nil.
  - assert (Hstep : withdraw_fold r (f, d, a) id = (f + (withdraw_slot r id a).1.1, d + (withdraw_slot r id a).1.2, (withdraw_slot r id a).2))
      by (unfold withdraw_fold; cbn [fst snd]; by destruct (withdraw_slot r id a) as [[n e] a1]).
    rewrite Hstep. pose proof (withdraw_slot_mv r id a) as Hmv. pose proof (withdraw_slot_pos r id a) as Hn.
    destruct (withdraw_slot r id a) as [[n e] a1] eqn:Hw. cbn [fst snd] in *.
    destruct (IH a1 (f + n) (d + e) (ns ++ [- n]) (ms ++ [u64 e])) as (vs & zs & H1 & H2 & H3 & H4 & H5); [intros x Hx; apply Hids; by right|by rewrite Hmv|].
    exists (- n :: vs), (u64 e :: zs). change (total (- n :: vs)) with (- n + total vs). change (total (u64 e :: zs)) with (u64 e + total zs).
    split; [lia|]. split; [lia|]. split; [|split; [by cbn [length]; rewrite H4|]].
    + unfold u64 in *. rewrite Z.add_mod_idemp_l by lia. rewrite <- Z.add_mod_idemp_r, H3, Z.add_mod_idemp_r by lia. f_equal. lia.
    + rewrite <- !app_assoc in H5. eapply runs_cons; [| |exact H5].
      * instantiate (1 := WithdrawSlot r id). split; [apply Hids; by left|done].
      * cbn [run adj]. rewrite Hw. unfold owe_vers, owe_size, with_adj. cbn -[u64]. by rewrite <- !app_assoc.
Qed.

Lemma add_size_zero z a : 0 <= size a < 2 ^ 64 -> u64 z = 0 -> add_size z a = a.
Proof.
  intros Hr Hz. unfold add_size, with_counts, u64 in *. rewrite <- Z.add_mod_idemp_r, Hz, Z.add_0_r, Z.mod_small by lia. by destruct a.
Qed.

Lemma add_size_mod z z' a : u64 z = u64 z' -> add_size z a = add_size z' a.
Proof. intros Hz. unfold add_size, with_counts, u64 in *. rewrite <- (Z.add_mod_idemp_r _ z), Hz, Z.add_mod_idemp_r by lia. done. Qed.

Lemma withdraw_size r id a : size (withdraw_slot r id a).2 = size a.
Proof.
  unfold withdraw_slot. destruct (loadEntry a id ≫= load_ver (hp a)) as [v|]; [|done]. destruct (_ || _); [done|]. destruct (skip_aborted _ _ _ _) as [pre n].
  unfold reindexWithdrawnLocked. destruct (foldl _ _ _) as [d rv']. set (a1 := with_rv rv' a).
  assert (H1 : size (clipEntry pre a1).2 = size a) by (by destruct pre). destruct (clipEntry pre a1) as [c a2]. cbn [snd] in *.
  assert (H2 : size (restoreSlotLocked id c a2) = size a). { unfold restoreSlotLocked. destruct (slotsRef _); [|done]. by destruct (negb _). }
  by destruct (bool_decide _).
Qed.

Lemma withdraw_fold_size r ids st : size (foldl (withdraw_fold r) st ids).2 = size st.2.
Proof.
  revert st. induction ids as [|id ids IH]; intros st; [done|]. cbn [foldl]. rewrite IH. unfold withdraw_fold. pose proof (withdraw_size r id st.2) as H.
  by destruct (withdraw_slot r id st.2) as [[n e] a1].
Qed.

Lemma WithdrawTx_run info ids s : (forall id, id ∈ ids -> 0 <= id) -> (forall r, info = Some r -> pending (mv (adj s)) r) -> 0 <= size (adj s) < 2 ^ 64 ->
  runs_to s (with_adj (WithdrawTx cfg info ids (adj s)).2 s).
Proof.
  intros Hids Hp Hsz. assert (Hs : with_adj (adj s) s = s) by (by destruct s). unfold WithdrawTx. destruct info as [r|]; [|cbn [snd]; rewrite Hs; apply runs_nil].
  destruct ((length ids =? 0)%nat || negb (versioning cfg)) eqn:Hg; [cbn [snd]; rewrite Hs; apply runs_nil|]. apply orb_false_iff in Hg as [Hl _]. apply Nat.eqb_neq in Hl.
  destruct (withdraw_fold_run r ids s (adj s) 0 0 [] [] Hids (Hp r eq_refl)) as (vs & zs & H1 & H2 & H3 & H4 & H5).
  pose proof (withdraw_fold_size r ids (0, 0, adj s)) as Hsf. fold (withdraw_fold r). destruct (foldl (withdraw_fold r) _ _) as [[freed d] a2]. cbn [fst snd] in *.
  rewrite !app_nil_r in H5. cbn [app] in H5. assert (Hs0 : mkSys (adj s) (owed_size s) (owed_vers s) (owed_arcs s) = s) by (by destruct s). rewrite Hs0 in H5.
  eapply runs_trans; [exact H5|]. eapply runs_trans; [apply (settle_sizes_run zs (mkSys a2 (owed_size s) (owed_vers s ++ vs) (owed_arcs s))); intros ->; cbn in H4; lia|].
  cbn [adj with_adj owed_size owed_vers owed_arcs]. pose proof (settle_vers_run vs (with_adj (add_size (total zs) a2) s)) as H6. cbn [adj with_adj owed_size owed_vers owed_arcs] in H6.
  enough (He : add_versions (total vs) (add_size (total zs) a2) = (if negb (d =? 0) then add_size (u64 d) (if 0 <? freed then add_versions (- freed) a2 else a2) else if 0 <? freed then add_versions (- freed) a2 else a2)) by (by rewrite He in H6).
  rewrite H1, Z.sub_0_l. rewrite Z.sub_0_r in H3.
  assert (Hv : (if 0 <? freed then add_versions (- freed) a2 else a2) = add_versions (- freed) a2).
  { destruct (Z.ltb_spec 0 freed); [done|]. replace (- freed) with 0 by lia. by rewrite add_versions_zero. }
  rewrite Hv. destruct (Z.eqb_spec d 0) as [->|]; cbn [negb].
  - rewrite (add_size_zero (total zs)); [done|by rewrite Hsf|done].
  - rewrite (add_size_mod (total zs) (u64 d)); [done|]. rewrite H3. unfold u64. by rewrite Z.mod_mod by lia.
Qed.
End compose.
