(* ===== verification/AdjProps.v ===== *)
(** * What the adjacency promises

    Typed states and no panic, immutable publications, the transpose and the counter,
    stable snapshots, the refinement of the writes, first-updater-wins and what an abort
    restores, immutable pins, and the readers of the committed state; each over every
    reachable interleaving of critical sections. *)

From Stdlib Require Import ZArith Lia.
From stdpp Require Import list gmap sorting.
From S2P Require Import Prelude Clock WriteStamp AdjHeap AdjHeapFacts AdjReverse AdjList AdjOps AdjMaint AdjHeapInv AdjBuild AdjStoreEntry AdjWrite AdjWrites AdjRevFacts AdjUpkeep AdjSystem AdjSpec AdjSnapshot AdjMirror AdjQuiet AdjReach.

Local Open Scope Z_scope.

(** ** Helpers *)

Section helpers.
Context {W A P : Type} (zeroW : W) `{!AuxColumn A P} `{!AuxLaws A P} (cfg : Config A P).
Implicit Types (a : AdjList W A) (s : system W A).
Context (Hfac : factory_ok cfg).

(** What the outcome of a write is, read off the columns of every node. *)
Definition refines (o : write_op W A P) (tx : option nat) a (out : option ((adjErr + answer) * AdjList W A)) : Prop :=
  let spec := view_op cfg o (LoadEntryView (op_src o) a) in
  if unguarded o then out = Some (inr spec.2, a) else
  match directConflictLocked cfg tx (op_src o) a with
  | Some err => out = Some (inl err, a)
  | None =>
      match spec.1 with
      | None => out = Some (inr spec.2, a)
      | Some v => exists r a', out = Some (r, a') /\
          match r with
          | inr y => slots_answer y = spec.2 /\
              forall id, 0 <= id -> LoadEntryView id a' = if decide (id = op_src o) then v else LoadEntryView id a
          | inl err => err = ErrShardFull /\ loadEntry a (op_src o) = None /\ 0 < MaxShardCapacity cfg <= Z.of_nat (intra_no (op_src o)) /\
              forall id, 0 <= id -> LoadEntryView id a' = LoadEntryView id a
          end
      end
  end.

Lemma exec_refines G o tx ts a : ainv cfg G a -> op_ok o -> refines o tx a (exec_write zeroW cfg o tx ts a).
Proof.
  intros Hi Hok. pose proof (exec_write_spec zeroW cfg Hfac G o tx ts a Hi Hok) as H. unfold writes_as, refines in *.
  change (view_of a (op_src o)) with (LoadEntryView (op_src o) a) in H. destruct (unguarded o); [done|]. destruct (directConflictLocked _ _ _ _); [done|].
  destruct (view_op cfg o (LoadEntryView (op_src o) a)) as [[v|] x]; [|done]. cbn [fst snd] in *.
  destruct H as (G' & a1 & _ & [(q & y & -> & Hy & Hw)|[-> Hf]]).
  - eexists (inr y), _. split; [done|]. split; [done|]. intros id Hid.
    change (view_of a1 id = if decide (id = op_src o) then v else view_of a id). by eapply write_view.
  - eexists (inl ErrShardFull), _. split; [done|]. split; [done|]. split; [apply Hf|]. split; [apply Hf|]. intros id Hid. by eapply (full_view cfg G (op_src o)).
Qed.

Lemma walk_runs start own s e s' r : walk zeroW cfg start own s e s' r -> runs zeroW cfg (beside start own) s s'.
Proof.
  induction 1 as [s|s e Hv|s e v Hv Hs|s s1 s2 e v r Hv Hs Hr _ IH]; [apply runs_nil..|]. by eapply runs_trans.
Qed.

Lemma loadEntry_lt G a id p : ainv cfg G a -> 0 <= id -> loadEntry a id = Some p -> (p < length (ents (hp a)))%nat.
Proof. intros Hi Hid Hp. by eapply view_of_length. Qed.

(** A public write returns, and is a run. *)
Definition runs_alone {R} s (out : option ((adjErr + R) * AdjList W A)) : Prop :=
  exists r a', out = Some (r, a') /\ runs zeroW cfg enabled s (with_adj a' s).

Lemma tag_some {R} (f : R -> answer) (out : option ((adjErr + R) * AdjList W A)) : is_Some (tag f out) -> is_Some out.
Proof. destruct out as [[r a]|]; [by eexists|]. by intros [? ?]. Qed.

Lemma exec_some G o tx ts s : ainv cfg G (adj s) -> op_ok o -> is_Some (exec_write zeroW cfg o tx ts (adj s)).
Proof. intros Hi Ho. destruct (exec_write_effect zeroW cfg Hfac G o tx ts (adj s) Hi Ho) as (r & a' & _ & -> & _). by eexists. Qed.

Lemma upsert_some G s src dst w ex tx ts : ainv cfg G (adj s) -> 0 <= src -> 0 <= dst -> is_Some (upsertEdgeLocked zeroW cfg src dst w ex tx ts (adj s)).
Proof. intros Hi Hs Hd. eapply (tag_some (fun _ => Done)), (exec_some G (Upsert src dst w ex)); [done|by split]. Qed.

Lemma public_writes G s tx ts : ainv cfg G (adj s) -> writer_ok tx ts s -> forall src dst w ex target, 0 <= src -> 0 <= dst ->
  runs_alone s (addEdge zeroW cfg src dst w ex tx ts (adj s)) /\ runs_alone s (removeEdgeTx zeroW cfg src dst tx ts (adj s)) /\
  runs_alone s (removeEdgeByHandleTx zeroW cfg src dst target tx ts (adj s)) /\ runs_alone s (removeAllEdgesFromTx cfg src tx ts (adj s)).
Proof.
  intros Hi Hw src dst w ex target Hs Hd.
  assert (Ht : forall n, ainv cfg G (adj (with_adj (with_counts (size (adj s)) (versionActive (adj s)) n (adj s)) s))) by (intros n; by destruct Hi as [? []]).
  split_and!.
  - assert (Hsome : is_Some (addEdge zeroW cfg src dst w ex tx ts (adj s))).
    { unfold addEdge. destruct (hasHandle ex); cbn [NextHandle].
      - destruct (upsert_some G s src dst w ex tx ts Hi Hs Hd) as [[[] a'] ->]; by eexists.
      - destruct (upsert_some G _ src dst w (mkExtra (auxPayload ex) (u64 (handleSeq (adj s) + 1)) (label ex) true (hasLabel ex)) tx ts (Ht (u64 (handleSeq (adj s) + 1))) Hs Hd) as [[[] a'] Hu]; cbn [adj with_adj] in Hu; rewrite Hu; by eexists. }
    destruct Hsome as [[r a'] He]. exists r, a'. split; [done|]. exact (addEdge_run zeroW cfg src dst w ex tx ts s r a' Hs Hd Hw He).
  - destruct (exec_some G (RemoveOne src dst) tx ts s Hi ltac:(by split)) as [? Hx]. cbn [exec_write] in Hx. destruct (tag_some _ _ (mk_is_Some _ _ Hx)) as [[r a'] Hu].
    assert (Hsome : is_Some (removeEdgeTx zeroW cfg src dst tx ts (adj s))) by (unfold removeEdgeTx; rewrite Hu; destruct r as [?|[? ?]]; by eexists).
    destruct Hsome as [[r1 a1] He]. exists r1, a1. split; [done|]. exact (removeEdge_run zeroW cfg src dst tx ts s r1 a1 Hs Hw He).
  - destruct (exec_some G (RemoveHandle src dst target) tx ts s Hi ltac:(by split)) as [? Hx]. cbn [exec_write] in Hx. destruct (tag_some _ _ (mk_is_Some _ _ Hx)) as [[r a'] Hu].
    assert (Hsome : is_Some (removeEdgeByHandleTx zeroW cfg src dst target tx ts (adj s))) by (unfold removeEdgeByHandleTx; rewrite Hu; destruct r; by eexists).
    destruct Hsome as [[r1 a1] He]. exists r1, a1. split; [done|]. exact (removeEdgeByHandle_run zeroW cfg src dst target tx ts s r1 a1 Hs Hw He).
  - destruct (exec_some G (RemoveAll src) tx ts s Hi ltac:(by split)) as [? Hx]. cbn [exec_write] in Hx. destruct (tag_some _ _ (mk_is_Some _ _ Hx)) as [[r a'] Hu].
    assert (Hsome : is_Some (removeAllEdgesFromTx cfg src tx ts (adj s))).
    { unfold removeAllEdgesFromTx. rewrite Hu. destruct r as [?|[dsts [info t]]]; cbn [mbind option_bind]; [by eexists|]. destruct (_ =? _)%nat; by eexists. }
    destruct Hsome as [[r1 a1] He]. exists r1, a1. split; [done|]. exact (removeAllEdges_run zeroW cfg src tx ts s r1 a1 Hs Hw He).
Qed.

(** A write without a transaction. *)
Lemma direct_enabled o ts s : op_ok o -> 0 < ts < TxIDBase -> enabled (Write o None ts) s.
Proof. intros Ho Ht. split; [done|]. split; [done|]. intros i H. discriminate H. Qed.

Lemma direct_beside start own o ts s : op_ok o -> 0 < ts < TxIDBase -> start < ts -> beside start own (Write o None ts) s.
Proof. intros Ho Ht Hs. split; [by apply direct_enabled|]. split; [done|]. intros i t H. discriminate H. Qed.

(** A small system: one arc written, committed and counted. *)
Definition next act s : system W A := default s (run zeroW cfg act s).

Lemma reach_next clock act s : reachable zeroW cfg clock s -> enabled act s -> is_Some (run zeroW cfg act s) -> reachable zeroW cfg clock (next act s).
Proof. intros Hr He [s' Hs]. eapply runs_snoc; [done..|]. unfold next. by rewrite Hs. Qed.

Lemma runs_next ok act s : ok act s -> is_Some (run zeroW cfg act s) -> runs zeroW cfg ok s (next act s).
Proof. intros He [s' Hs]. eapply runs_cons; [done| |apply runs_nil]. unfold next. by rewrite Hs. Qed.
End helpers.

(** ** The instance of the witnesses *)

Definition demo_cfg : Config (list (option Z)) Z := mkConfig 0 false true true None.
Abbreviation demo_next := (next 0 demo_cfg).
Abbreviation demo_reach := (reachable 0 demo_cfg true).

Definition demo_extra : edgeExtra Z := mkExtra None 0 7 false true.
Definition demo_write : action Z (list (option Z)) Z := Write (Upsert 1 2 5 demo_extra) None 3.

(** An arc from 1 to 2, counted. *)
Definition demo1 : system Z (list (option Z)) := demo_next (SettleSize 0) (demo_next demo_write (initial true)).
(** Then a transaction that adds a second arc, and has ended without an outcome. *)
Definition demo2 : system Z (list (option Z)) :=
  demo_next (EndTx 0) (demo_next (Write (Upsert 1 4 6 demo_extra) (Some 0%nat) 9) (demo_next (ArmTx 0 (TxIDBase + 1)) (demo_next NewTx demo1))).

Lemma demo_factory : factory_ok demo_cfg.
Proof. by intros f n p H. Qed.

Lemma demo1_reach : demo_reach demo1.
Proof.
  apply reach_next; [apply reach_next; [apply runs_nil| |by eexists; vm_compute]|done|by eexists; vm_compute].
  by apply direct_enabled.
Qed.

Lemma demo2_reach : demo_reach demo2.
Proof.
  apply reach_next; [|done|by eexists; vm_compute]. apply reach_next; [| |by eexists; vm_compute].
  - apply reach_next; [apply reach_next; [apply demo1_reach|done|by eexists; vm_compute]| |by eexists; vm_compute].
    split; [done|]. split; [|intros r Hr; vm_compute in Hr; lia]. intros i t Ht Ho. vm_compute in Ht. by destruct i as [|[|i]]; [injection Ht as <-| |].
  - split; [done|]. split; [done|]. intros i [= <-]. eexists. by vm_compute.
Qed.

Lemma demo2_pending : pending (mv (adj demo2)) 0.
Proof.
  split; [vm_compute; lia|]. split; [by vm_compute|]. intros i t Ht. vm_compute in Ht. by destruct i as [|[|i]]; [injection Ht as <-| |].
Qed.

Example demo1_slots : Neighbours (LoadEntryView 1 (adj demo1)) = [2] /\ size (adj demo1) = 1 /\ quiet demo1.
Proof. by vm_compute. Qed.
Example demo2_slots : Neighbours (LoadEntryView 1 (adj demo2)) = [2; 4] /\ Neighbours (EntryViewAsOf 1 8 0 (adj demo2)) = [2].
Proof. by vm_compute. Qed.

(** ** Types and totality *)

(** C14: in every reachable interleaving, the columns of every node are as long as its
    neighbours (no weights for a weightless graph), and no action its caller is allowed
    to take panics. *)
Theorem adjacency_typed {W A P : Type} (zeroW : W) `{!AuxColumn A P} `{!AuxLaws A P} (cfg : Config A P) clock s :
  factory_ok cfg -> reachable zeroW cfg clock s ->
  (forall id, 0 <= id -> view_ok cfg (LoadEntryView id (adj s))) /\ (forall act, enabled act s -> is_Some (run zeroW cfg act s)).
Proof.
  intros Hf Hr. destruct (reachable_well_formed zeroW cfg Hf clock s Hr) as (G & Hi & _). split.
  - intros id Hid. by apply (view_of_ok cfg G).
  - intros act He. destruct (run_effect zeroW cfg Hf G act s Hi He) as (s' & _ & -> & _). by eexists.
Qed.

Lemma adjacency_typed_witness : view_ok demo_cfg (LoadEntryView 1 (adj demo2)).
Proof. apply (adjacency_typed 0 demo_cfg true demo2 demo_factory demo2_reach). done. Defined.

(** ** Immutability *)

(** an entry once published keeps its neighbours, weights, handles, labels and side
    column under every later action, whoever still holds its pointer. *)
Theorem published_immutable {W A P : Type} (zeroW : W) `{!AuxColumn A P} `{!AuxLaws A P} (cfg : Config A P) clock s s' p :
  factory_ok cfg -> reachable zeroW cfg clock s -> runs zeroW cfg enabled s s' -> (p < length (ents (hp (adj s))))%nat ->
  viewOf (hp (adj s')) (Some p) = viewOf (hp (adj s)) (Some p).
Proof.
  intros Hf Hr Hrun Hp. by apply (runs_views zeroW cfg Hf enabled s s'); [done|by eapply reachable_well_formed|..].
Qed.

Definition demo3 := demo_next (Write (RemoveAll 1) None 12) demo1.

Lemma demo3_runs : runs 0 demo_cfg enabled demo1 demo3.
Proof. apply runs_next; [by apply direct_enabled|by eexists; vm_compute]. Qed.

Lemma published_immutable_witness : viewOf (hp (adj demo3)) (Some 0%nat) = viewOf (hp (adj demo1)) (Some 0%nat).
Proof. apply (published_immutable 0 demo_cfg true demo1 demo3 0 demo_factory demo1_reach demo3_runs). vm_compute. lia. Defined.

(** C90: an array pinned by a snapshot outside the commit window keeps every slot, so each
    pinned node reads as it did when its shard was frozen. *)
Theorem pins_immutable {W A P : Type} (zeroW : W) `{!AuxColumn A P} `{!AuxLaws A P} (cfg : Config A P) clock s0 s1 s2 (snap : Snapshot) id :
  factory_ok cfg -> 0 <= id -> runs zeroW cfg pin_outside_window (initial clock) s0 ->
  pin_outside_window (Freeze (shard_no id)) s0 -> run zeroW cfg (Freeze (shard_no id)) s0 = Some s1 ->
  runs zeroW cfg pin_outside_window s1 s2 -> snap !! Z.to_nat (shard_no id) = Some (slotsRef (shard_at (adj s0) (shard_no id))) ->
  loadEntryPinned snap (adj s2) id = loadEntry (adj s0) id /\
  viewOf (hp (adj s2)) (loadEntryPinned snap (adj s2) id) = LoadEntryView id (adj s0).
Proof.
  intros Hf Hid H0 Hp H1 H2 Hsnap.
  assert (Hw0 : well_formed cfg s0).
  { apply (reachable_well_formed zeroW cfg Hf clock). eapply runs_weaken; [|exact H0]. by intros ? ? []. }
  destruct (runs_frozen zeroW cfg Hf (initial clock) s0) as [_ Hb0]; [|done|done|].
  { apply (reachable_well_formed zeroW cfg Hf clock), runs_nil. }
  assert (Hw1 : well_formed cfg s1) by (eapply well_formed_step; [done..|apply Hp|done]).
  destruct (runs_frozen zeroW cfg Hf s0 s1 Hw0 Hb0) as [_ Hb1]; [by eapply runs_cons; [..|apply runs_nil]|].
  destruct (runs_frozen zeroW cfg Hf s1 s2 Hw1 Hb1 H2) as [Hk _].
  destruct Hw0 as (G & Hi & _). cbn [run] in H1. injection H1 as <-. destruct (freeze_spec (shard_no id) (adj s0)) as (_ & Hh & _ & _ & _ & _ & _ & _ & _ & _ & _ & Hfz & _); [apply Hi|].
  assert (Hld : loadEntryPinned snap (adj s2) id = loadEntry (adj s0) id).
  { unfold loadEntryPinned, loadEntry. rewrite Hsnap. cbn [default from_option Datatypes.id]. unfold slot_at. destruct (slotsRef (shard_at (adj s0) (shard_no id))) as [r|] eqn:Hsr; [|done].
    destruct (Hfz r) as (Hlt & Hfr & Hsl); [unfold freezeCurrent; by rewrite Hsr|]. destruct (Hk r Hlt Hfr) as [_ Har]. cbn [adj with_adj] in Har. by rewrite Har, Hsl. }
  split; [done|]. rewrite Hld. unfold LoadEntryView. destruct (loadEntry (adj s0) id) as [p|] eqn:Hle; [|done].
  assert (Hpl : (p < length (ents (hp (adj s0))))%nat) by (by eapply loadEntry_lt).
  rewrite <- Hh. refine (proj1 (runs_views zeroW cfg Hf pin_outside_window _ s2 _ Hw1 H2 p _)); [by intros ? ? []|]. cbn [adj with_adj]. by rewrite Hh.
Qed.

Definition demo_pin := demo_next (Freeze 1) demo1.
Definition demo_pinned := demo_next (Write (RemoveAll 1) None 12) demo_pin.

Lemma demo_unpinned act s : enabled act s -> (forall si, act <> Freeze si) -> pin_outside_window (W := Z) (A := list (option Z)) (P := Z) act s.
Proof. intros He Hn. split; [done|]. intros si ->. by destruct (Hn si). Qed.

Lemma demo1_runs : runs 0 demo_cfg pin_outside_window (initial true) demo1.
Proof.
  eapply runs_trans; apply runs_next; try (by eexists; vm_compute); apply demo_unpinned; try done.
Qed.

Lemma pins_immutable_witness :
  viewOf (hp (adj demo_pinned)) (loadEntryPinned ((fun si => slotsRef (shard_at (adj demo1) si)) <$> shard_nos) (adj demo_pinned) 1) = LoadEntryView 1 (adj demo1).
Proof.
  apply (pins_immutable 0 demo_cfg true demo1 demo_pin demo_pinned _ 1 demo_factory ltac:(done) demo1_runs).
  - split; [by vm_compute|]. intros si [= <-]. by vm_compute.
  - by vm_compute.
  - apply runs_next; [|by eexists; vm_compute]. apply demo_unpinned; [by apply direct_enabled|done].
  - by vm_compute.
Defined.

(** ** The transpose and the counter *)

(** C4: once the sizes and the in-edges of the writes made so far are settled, the
    in-edge lists are exactly the transpose of the forward entries, multiplicities
    included, the edge counter is the number of arcs modulo 2^64, and the consistency
    check finds nothing. *)
Theorem quiet_consistent {W A P : Type} (zeroW : W) `{!AuxColumn A P} `{!AuxLaws A P} (cfg : Config A P) clock s :
  factory_ok cfg -> reachable zeroW cfg clock s -> quiet s ->
  CheckInvariants (adj s) = true /\ size (adj s) = u64 (Z.of_nat (length (forward_arcs (adj s)))) /\
  (forall x d, 0 <= x -> 0 <= d -> cnt x (live_srcs (rv (adj s)) d) = cnt d (Neighbours (LoadEntryView x (adj s)))).
Proof.
  intros Hf Hr Hq. destruct (reachable_well_formed zeroW cfg Hf clock s Hr) as (G & _ & Hm & _). split_and!.
  - by apply quiet_check.
  - rewrite forward_arcs_length. by apply quiet_size.
  - intros x d Hx Hd. by apply quiet_arcs.
Qed.

Lemma demo1_quiet : quiet demo1.
Proof. by vm_compute. Qed.

Lemma quiet_consistent_witness : CheckInvariants (adj demo1) = true.
Proof. apply (quiet_consistent 0 demo_cfg true demo1 demo_factory demo1_reach demo1_quiet). Defined.

(** with nothing owed and no version alive, the in-neighbours of a node are the other
    nodes that have it as a neighbour, each once, in the order of the node table. *)
Theorem in_neighbours_transpose {W A P : Type} (zeroW : W) `{!AuxColumn A P} `{!AuxLaws A P} (cfg : Config A P) clock s d :
  factory_ok cfg -> reachable zeroW cfg clock s -> quiet s -> versioning cfg = false \/ versionActive (adj s) = 0 ->
  Z.of_nat (length (forward_arcs (adj s))) < 2 ^ 64 -> 0 <= d ->
  StronglySorted walk_lt (InNeighbourIDs cfg d (adj s)) /\
  forall x, 0 <= x -> x ∈ InNeighbourIDs cfg d (adj s) <-> x <> d /\ d ∈ Neighbours (LoadEntryView x (adj s)).
Proof.
  intros Hf Hr Hq Hv Hlt Hd. destruct (reachable_well_formed zeroW cfg Hf clock s Hr) as (G & _ & Hm & _).
  assert (He : InNeighbourIDs cfg d (adj s) = if size (adj s) =? 0 then [] else sources (rv (adj s)) d).
  { unfold InNeighbourIDs. destruct Hv as [->| ->]; [done|]. by rewrite andb_false_r. }
  rewrite He. destruct (sources_spec (rv (adj s)) d) as [H1 H2].
  assert (Harc : forall x, 0 <= x -> x ∈ live_srcs (rv (adj s)) d <-> d ∈ Neighbours (LoadEntryView x (adj s))).
  { intros x Hx. rewrite <- !cnt_pos. change (cnt x (live_srcs (rv (adj s)) d)) with (arcs_in (rv (adj s)) x d). by rewrite (quiet_arcs s x d Hm Hq Hx Hd). }
  destruct (Z.eqb_spec (size (adj s)) 0) as [H0|H0].
  - split; [constructor|]. intros x Hx. split; [by intros ?%not_elem_of_nil|]. intros [_ Hin]. exfalso.
    rewrite forward_arcs_length in Hlt. pose proof (quiet_size s Hm Hq) as Hs. rewrite H0 in Hs. unfold u64 in Hs. rewrite Z.mod_small in Hs by lia.
    rewrite <- forward_arcs_length in Hs. pose proof (forward_count (adj s) x d Hx) as Hc. change (nbs (adj s) x) with (Neighbours (LoadEntryView x (adj s))) in Hc.
    apply cnt_pos in Hin. rewrite <- Hc in Hin. pose proof (length_filter (.= (x, d)) (forward_arcs (adj s))). lia.
  - split; [done|]. intros x Hx. rewrite H2, Harc by done. tauto.
Qed.


Definition demo_flat : Config (list (option Z)) Z := mkConfig 0 false false false None.
Definition demo_flat1 : system Z (list (option Z)) := next 0 demo_flat (SettleSize 0) (next 0 demo_flat demo_write (initial false)).

Lemma demo_flat_factory : factory_ok demo_flat.
Proof. by intros f n p H. Qed.

Lemma demo_flat1_reach : reachable 0 demo_flat false demo_flat1.
Proof.
  apply reach_next; [apply reach_next; [apply runs_nil| |by eexists; vm_compute]|done|by eexists; vm_compute].
  by apply direct_enabled.
Qed.

Lemma in_neighbours_transpose_witness : 1 ∈ InNeighbourIDs demo_flat 2 (adj demo_flat1).
Proof.
  apply (in_neighbours_transpose 0 demo_flat false demo_flat1 2 demo_flat_factory demo_flat1_reach); [by vm_compute|by left|by vm_compute|done|done|].
  split; [done|]. vm_compute. by left.
Defined.

(** ** Snapshots *)

(** C2: with a clock, what a reader pinned at an instant resolves any node to is the same
    after any run of the other threads: writes of other transactions, commits and direct
    writes at later instants, aborts with their withdrawals, compaction, and reclamation
    no later than its instant. *)
Theorem node_snapshot_stable {W A P : Type} (zeroW : W) `{!AuxColumn A P} `{!AuxLaws A P} (cfg : Config A P) start own s s' id :
  factory_ok cfg -> versioning cfg = true -> has_stamp cfg = true -> own = 0 \/ in_flight own = true ->
  reachable zeroW cfg true s -> runs zeroW cfg (beside start own) s s' -> 0 <= id ->
  reading (EntryViewAsOfVisible id (visible_at (adj s') start own) (adj s')) = reading (EntryViewAsOfVisible id (visible_at (adj s) start own) (adj s)).
Proof.
  intros Hf Hv Hst Ho Hr Hrun Hid. destruct (reachable_well_formed zeroW cfg Hf true s Hr) as (G & Hi & _).
  pose proof (reachable_clocked zeroW cfg Hf true s Hr) as Hc.
  destruct (runs_stable zeroW cfg start own Hv Hst Ho Hf G s s' Hi Hc Hrun) as [Hs _]. by apply (st_head _ _ _ _ Hs).
Qed.

(** A removal by a later direct write, beside a reader at instant 5. *)
Lemma demo3_beside : runs 0 demo_cfg (beside 5 0) demo1 demo3.
Proof. apply runs_next; [by apply direct_beside|by eexists; vm_compute]. Qed.

Lemma node_snapshot_stable_witness :
  reading (EntryViewAsOfVisible 1 (visible_at (adj demo3) 5 0) (adj demo3)) = reading (EntryViewAsOfVisible 1 (visible_at (adj demo1) 5 0) (adj demo1)).
Proof. apply (node_snapshot_stable 0 demo_cfg 5 0 demo1 demo3 1 demo_factory eq_refl eq_refl ltac:(by left) demo1_reach demo3_beside). done. Defined.

Example demo3_old : Neighbours (EntryViewAsOfVisible 1 (visible_at (adj demo3) 5 0) (adj demo3)) = [2] /\ Neighbours (LoadEntryView 1 (adj demo3)) = [].
Proof. by vm_compute. Qed.

(** the walk of a version chain whose every step reads a later state of the system
    than the one before ends on the entry the walk in one state would, and that entry
    reads the same. *)
Theorem interleaved_walk {W A P : Type} (zeroW : W) `{!AuxColumn A P} `{!AuxLaws A P} (cfg : Config A P) start own s s' id r :
  factory_ok cfg -> versioning cfg = true -> has_stamp cfg = true -> own = 0 \/ in_flight own = true ->
  reachable zeroW cfg true s -> 0 <= id -> walk zeroW cfg start own s (loadEntry (adj s) id) s' r ->
  r = entryAsOfLoadedVisible (visible_at (adj s) start own) (adj s) (loadEntry (adj s) id) /\
  viewOf (hp (adj s')) r = EntryViewAsOfVisible id (visible_at (adj s) start own) (adj s).
Proof.
  intros Hf Hv Hst Ho Hr Hid Hw. pose proof (reachable_well_formed zeroW cfg Hf true s Hr) as Hwf. pose proof (reachable_clocked zeroW cfg Hf true s Hr) as Hc.
  pose proof (walk_runs zeroW cfg start own _ _ _ _ Hw) as Hrun. assert (G := Hwf). destruct G as (G & Hi & _).
  assert (He : r = sees start own (adj s) (loadEntry (adj s) id)).
  { eapply (walk_sees zeroW cfg); [done..|]. intros p Hp. by eapply loadEntry_lt. }
  split; [done|]. unfold EntryViewAsOfVisible. fold (sees start own (adj s) (loadEntry (adj s) id)). rewrite <- He. destruct r as [q|]; [|done].
  refine (proj1 (runs_views zeroW cfg Hf (beside start own) s s' _ Hwf Hrun q _)); [by intros ? ? []|].
  symmetry in He. destruct (loadEntry (adj s) id) as [p|] eqn:Hp; [|by rewrite sees_none in He]. eapply (sees_valid cfg); [apply Hi|by eapply loadEntry_lt|done].
Qed.

(** The reader of [demo3] steps to the superseded entry while a third write runs. *)
Definition demo4 := demo_next (Write (Upsert 1 4 6 demo_extra) None 15) demo3.

Lemma demo4_runs : runs 0 demo_cfg (beside 5 0) demo3 demo4.
Proof. apply runs_next; [by apply direct_beside|by eexists; vm_compute]. Qed.

Lemma demo4_walk : walk 0 demo_cfg 5 0 demo3 (loadEntry (adj demo3) 1) demo4 (loadEntry (adj demo1) 1).
Proof.
  replace (loadEntry (adj demo3) 1) with (Some 1%nat) by by vm_compute. replace (loadEntry (adj demo1) 1) with (Some 0%nat) by by vm_compute.
  apply (walk_next 0 demo_cfg 5 0 demo3 demo4 demo4 1 1); [by vm_compute|by vm_compute|apply demo4_runs|].
  replace (v_prev (get_version (adj demo3) 1)) with (Some 0%nat) by by vm_compute. apply (walk_shown 0 demo_cfg 5 0 demo4 0 0); by vm_compute.
Qed.

Lemma demo3_reach : demo_reach demo3.
Proof. eapply runs_trans; [apply demo1_reach|apply demo3_runs]. Qed.

Lemma interleaved_walk_witness : viewOf (hp (adj demo4)) (loadEntry (adj demo1) 1) = EntryViewAsOfVisible 1 (visible_at (adj demo3) 5 0) (adj demo3).
Proof.
  apply (interleaved_walk 0 demo_cfg 5 0 demo3 demo4 1 (loadEntry (adj demo1) 1) demo_factory eq_refl eq_refl ltac:(by left) demo3_reach); [done|exact demo4_walk].
Defined.

(** ** Writes *)

(** C6: each write of a reachable state does to the columns of its node exactly what its
    specification on slots says and nothing to any other node, or is refused: for a
    conflict with the state unchanged, for want of capacity with every node as it was. *)
Theorem writes_refine {W A P : Type} (zeroW : W) `{!AuxColumn A P} `{!AuxLaws A P} (cfg : Config A P) clock s o tx ts :
  factory_ok cfg -> reachable zeroW cfg clock s -> op_ok o -> refines cfg o tx (adj s) (exec_write zeroW cfg o tx ts (adj s)).
Proof. intros Hf Hr Ho. destruct (reachable_well_formed zeroW cfg Hf clock s Hr) as (G & Hi & _). by eapply exec_refines. Qed.

Lemma writes_refine_witness :
  refines demo_cfg (RemoveOne 1 2) None (adj demo1) (exec_write 0 demo_cfg (RemoveOne 1 2) None 8 (adj demo1)) /\
  view_op demo_cfg (RemoveOne 1 2) (LoadEntryView 1 (adj demo1)) = (Some zero_view, Removed true 0).
Proof. split; [apply (writes_refine 0 demo_cfg true demo1 (RemoveOne 1 2) None 8 demo_factory demo1_reach); done|by vm_compute]. Defined.

(** ** First updater wins *)

(** C12: behind a version there is never the change of a transaction in flight: nobody
    stacks a version on one that may still be withdrawn. *)
Theorem no_dirty_stacking {W A P : Type} (zeroW : W) `{!AuxColumn A P} `{!AuxLaws A P} (cfg : Config A P) clock s v vr p w :
  factory_ok cfg -> versioning cfg = true -> has_stamp cfg = true -> reachable zeroW cfg clock s ->
  vers (hp (adj s)) !! v = Some vr -> v_prev vr = Some p -> load_ver (hp (adj s)) p = Some w ->
  in_flight (supersededAt (adj s) (get_version (adj s) w)) = false.
Proof.
  intros Hf Hv Hst Hr Hvr Hp Hw. destruct (reachable_well_formed zeroW cfg Hf clock s Hr) as (G & _ & _ & Hs).
  by apply (sl_prev _ (Hs Hv Hst) v vr p).
Qed.

Lemma no_dirty_stacking_witness : in_flight (supersededAt (adj demo2) (get_version (adj demo2) 0)) = false.
Proof.
  apply (no_dirty_stacking 0 demo_cfg true demo2 1 (mkVersion (Some 0%nat) (Some 0%nat) adjOverPreImage) 0 0 demo_factory eq_refl eq_refl demo2_reach); by vm_compute.
Defined.

(** C8: withdrawing the change of an aborting transaction from a node leaves the node
    reading as its newest committed state, and every other node as it was. *)
Theorem withdraw_restores {W A P : Type} (zeroW : W) `{!AuxColumn A P} `{!AuxLaws A P} (cfg : Config A P) clock s s' r id p v :
  factory_ok cfg -> versioning cfg = true -> has_stamp cfg = true -> reachable zeroW cfg clock s -> enabled (WithdrawSlot r id) s ->
  loadEntry (adj s) id = Some p -> load_ver (hp (adj s)) p = Some v -> v_info (get_version (adj s) v) = Some r ->
  run zeroW cfg (WithdrawSlot r id) s = Some s' ->
  reading (LoadEntryView id (adj s')) = reading (viewOf (hp (adj s)) (committedEntry cfg id (adj s))) /\
  forall x, 0 <= x -> x <> id -> LoadEntryView x (adj s') = LoadEntryView x (adj s).
Proof.
  intros Hf Hvg Hst Hr [Hid Hpend] Hp Hv Hinfo Hrun. destruct (reachable_well_formed zeroW cfg Hf clock s Hr) as (G & Hi & _ & Hs). specialize (Hs Hvg Hst).
  destruct (withdraw_slot_spec cfg G r id (adj s) Hi Hid) as [[_ Hno]|(p' & v' & pre & n & d & a' & G' & Hw & Hwd & Hi')].
  - destruct (hi_ver _ _ _ _ _ (ai_heap _ _ _ Hi) _ _ Hv) as [Hlt _]. destruct (lookup_lt_is_Some_2 _ _ Hlt) as [vr Hvr].
    pose proof (get_version_at _ _ _ Hvr) as Hg. exfalso. apply (Hno p v Hp Hv Hinfo). rewrite Hg in Hinfo |- *. by apply (sl_mark _ Hs v vr r).
  - cbn [run] in Hrun. rewrite Hw in Hrun. injection Hrun as <-. cbn [adj owe_size owe_vers with_adj]. split.
    + by eapply (withdraw_restored cfg Hvg G G' r id (adj s) p' v' pre d a'); [..|apply Hpend].
    + intros x Hx Hne. unfold LoadEntryView. rewrite (wd_others _ _ _ _ _ _ _ _ Hwd) by done.
      apply same_views_viewOf; [apply Hwd|]. intros q Hq. by eapply loadEntry_lt.
Qed.

Lemma withdraw_restores_witness :
  reading (LoadEntryView 1 (adj (demo_next (WithdrawSlot 0 1) demo2))) = reading (viewOf (hp (adj demo2)) (committedEntry demo_cfg 1 (adj demo2))).
Proof.
  apply (withdraw_restores 0 demo_cfg true demo2 (demo_next (WithdrawSlot 0 1) demo2) 0 1 1 1 demo_factory eq_refl eq_refl demo2_reach); try by vm_compute.
  split; [done|apply demo2_pending].
Defined.

(** ** The committed readers *)

(** C90: the loop that finds the newest committed entry while holding the verdict on one
    record ends on the entry the plain walk at the latest instant does. *)
Theorem committed_entry_walk {W A P : Type} (zeroW : W) `{!AuxColumn A P} `{!AuxLaws A P} (cfg : Config A P) clock s id :
  factory_ok cfg -> versioning cfg = true -> reachable zeroW cfg clock s ->
  committedEntry cfg id (adj s) = entryAsOfLoadedVisible (committedVisible (adj s)) (adj s) (loadEntry (adj s) id).
Proof. intros Hf Hv Hr. destruct (reachable_well_formed zeroW cfg Hf clock s Hr) as (G & Hi & _). by apply (committed_sees cfg Hv G). Qed.

Lemma committed_entry_walk_witness : committedEntry demo_cfg 1 (adj demo2) = entryAsOfLoadedVisible (committedVisible (adj demo2)) (adj demo2) (loadEntry (adj demo2) 1).
Proof. apply (committed_entry_walk 0 demo_cfg true demo2 1 demo_factory eq_refl demo2_reach). Defined.

Lemma count_bounded_min limit n keep l : 0 <= n < limit ->
  count_bounded limit n keep l = Z.min limit (n + Z.of_nat (length (filter (fun x => keep (fst x) (snd x) = true) l))).
Proof.
  revert n. induction l as [|[d lbl] l IH]; intros n Hn; cbn [count_bounded]; [cbn; lia|]. rewrite filter_cons. cbn [fst snd].
  destruct (keep d lbl); [rewrite decide_True by done|by rewrite decide_False by done; apply IH]. cbn [length].
  destruct (Z.leb_spec limit (n + 1)); [lia|]. rewrite IH by lia. lia.
Qed.

(** C90: the degree with a limit is the smaller of the limit and the full filtered degree. *)
Theorem bounded_degree_min {W A P : Type} `{!AuxColumn A P} (cfg : Config A P) src limit keep (a : AdjList W A) :
  OutDegreeFuncBoundedByID cfg src limit keep a = if limit <=? 0 then 0 else Z.min limit (OutDegreeFunc cfg src keep a).
Proof.
  unfold OutDegreeFuncBoundedByID, OutDegreeFunc. destruct (Z.leb_spec limit 0); [done|]. rewrite count_bounded_min by lia. done.
Qed.

(** ** Public operations *)

(** C15: the public operations return in every reachable state, and each is a run of the
    system that leaves nothing of its own owed: adding an edge, the three removals,
    reclamation, the withdrawal of an ended transaction and the pin of a snapshot. *)
Theorem public_operations_run {W A P : Type} (zeroW : W) `{!AuxColumn A P} `{!AuxLaws A P} (cfg : Config A P) clock s :
  factory_ok cfg -> reachable zeroW cfg clock s ->
  (forall tx ts src dst w ex target, writer_ok tx ts s -> 0 <= src -> 0 <= dst ->
     runs_alone zeroW cfg s (addEdge zeroW cfg src dst w ex tx ts (adj s)) /\ runs_alone zeroW cfg s (removeEdgeTx zeroW cfg src dst tx ts (adj s)) /\
     runs_alone zeroW cfg s (removeEdgeByHandleTx zeroW cfg src dst target tx ts (adj s)) /\ runs_alone zeroW cfg s (removeAllEdgesFromTx cfg src tx ts (adj s))) /\
  (forall w, 0 <= w < TxIDBase -> runs zeroW cfg enabled s (with_adj (Reclaim cfg w (adj s)).2 s)) /\
  (forall r ids, Forall (Z.le 0) ids -> pending (mv (adj s)) r -> runs zeroW cfg enabled s (with_adj (WithdrawTx cfg (Some r) ids (adj s)).2 s)) /\
  runs zeroW cfg enabled s (with_adj (PinSnapshot (adj s)).2 s).
Proof.
  intros Hf Hr. destruct (reachable_well_formed zeroW cfg Hf clock s Hr) as (G & Hi & Hm & _). split_and!.
  - intros tx ts src dst w ex target Hw Hs Hd. by eapply public_writes.
  - intros w Hw. by apply Reclaim_run.
  - intros r ids Hids Hp. rewrite Forall_forall in Hids. apply WithdrawTx_run; [done|by intros ? [= <-]|apply (mi_range _ Hm)].
  - apply PinSnapshot_run.
Qed.

Lemma public_operations_run_witness : runs 0 demo_cfg enabled demo2 (with_adj (WithdrawTx demo_cfg (Some 0%nat) [1] (adj demo2)).2 demo2).
Proof. apply (public_operations_run 0 demo_cfg true demo2 demo_factory demo2_reach); [by repeat constructor|apply demo2_pending]. Defined.

(** ** Where the code and its comments part *)

(** A write refused for capacity has counted a version that nothing ever releases. *)
Definition demo_capped : Config (list (option Z)) Z := mkConfig 1 false true true None.
Definition demo_full : system Z (list (option Z)) := next 0 demo_capped (Write (Upsert 256 2 5 demo_extra) None 3) (initial true).

Example refused_write_counts : (fst <$> exec_write 0 demo_capped (Upsert 256 2 5 demo_extra) None 3 (New true)) = Some (inl ErrShardFull) /\
  versionActive (adj demo_full) = 1 /\ versioned (shard_at (adj demo_full) 0) = {[ 1%nat ]} /\
  versionActive (Reclaim demo_capped 100 (adj demo_full)).2 = 1.
Proof. by vm_compute. Qed.

(** A reader that loaded the entry of a transaction, was overtaken by the transaction's
    withdrawal, and only then reads the version counter, returns the withdrawn entry. *)
Definition demo_swept : system Z (list (option Z)) := demo_next (SettleVers 0) (demo_next (ReclaimShard 5 1) demo1).
Definition demo_inflight : system Z (list (option Z)) :=
  demo_next (EndTx 0) (demo_next (Write (Upsert 1 4 6 demo_extra) (Some 0%nat) 9) (demo_next (ArmTx 0 (TxIDBase + 1)) (demo_next NewTx demo_swept))).
Definition demo_withdrawn : system Z (list (option Z)) := demo_next (SettleVers 0) (demo_next (WithdrawSlot 0 1) demo_inflight).

Example gate_returns_withdrawn :
  let e := loadEntry (adj demo_inflight) 1 in
  entry_neighbours (adj demo_inflight) (entryAsOfLoaded 8 0 (adj demo_inflight) e) = [2] /\
  entry_neighbours (adj demo_withdrawn) (entryAsOfLoaded 8 0 (adj demo_withdrawn) e) = [2; 4] /\
  entry_neighbours (adj demo_withdrawn) (entryAsOfLoadedVisible (visible_at (adj demo_withdrawn) 8 0) (adj demo_withdrawn) e) = [2].
Proof. by vm_compute. Qed.

(** A direct write commits at an instant the clock has published before its entry is:
    a reader pinned at that instant sees the node change. *)
Example direct_write_at_instant :
  (let a := New true : AdjList Z (list (option Z)) in Neighbours (EntryViewAsOfVisible 1 (visible_at a 3 0) a)) = [] /\
  Neighbours (EntryViewAsOfVisible 1 (visible_at (adj demo1) 3 0) (adj demo1)) = [2].
Proof. by vm_compute. Qed.

(** A pin taken inside a commit window captures a builder that the window's later writes
    still store into. *)
Definition demo_window : system Z (list (option Z)) := next 0 demo_flat (Freeze 1) (next 0 demo_flat demo_write (next 0 demo_flat (OpenCommit 77) (initial false))).
Definition demo_window_pins : Snapshot := (fun si => slotsRef (shard_at (adj demo_window) si)) <$> shard_nos.

Example pinned_builder_changes :
  let s := next 0 demo_flat (Write (Upsert 1 4 6 demo_extra) None 9) demo_window in
  Snapshot_LoadEntry demo_window_pins 1 (adj demo_window) = ([2], [5]) /\ Snapshot_LoadEntry demo_window_pins 1 (adj s) = ([2; 4], [5; 6]).
Proof. by vm_compute. Qed.
