(* ===== verification/UnionFind.v ===== *)
(** * Disjoint sets (src/ds/unionfind.go)

    Both structures of the file: [Sets.UnionFind], kept in two maps and growing as
    elements are mentioned, and [Slices.UnionFindSlice], kept in two slices over the
    elements [0 .. n-1] with one-byte ranks.

    The loops that climb to the root and that compress the path have fuel one more
    than the number of elements; [None] is a loop that runs out of it, or in the
    slices an index out of range. *)

From Stdlib Require Import ZArith Lia.
From stdpp Require Import gmap list_numbers.
From S2P Require Import Prelude Csr.

Local Open Scope Z_scope.

(** Go's [int] on a 64-bit target. *)
Definition int64 (z : Z) : Z := signed 64 (u64 z).

Module Sets.
Section sets.
Context {K : Type} `{Countable K} (zero : K).

Record UnionFind := mkUnionFind { parent : gmap K K; rank : gmap K Z }.

Definition New : UnionFind := mkUnionFind ∅ ∅.

Definition MakeSet (x : K) (u : UnionFind) : UnionFind :=
  match parent u !! x with
  | Some _ => u
  | None => mkUnionFind (<[x:=x]> (parent u)) (<[x:=0]> (rank u))
  end.

(** Reading a missing key gives the zero value of its type. *)
Definition parent_of (m : gmap K K) (x : K) : K := default zero (m !! x).
Definition rank_of (m : gmap K Z) (x : K) : Z := default 0 (m !! x).

Fixpoint climb (fuel : nat) (m : gmap K K) (root : K) : option K :=
  match fuel with
  | O => None
  | S fuel => if decide (parent_of m root = root) then Some root else climb fuel m (parent_of m root)
  end.

Fixpoint compress (fuel : nat) (m : gmap K K) (x root : K) : option (gmap K K) :=
  match fuel with
  | O => None
  | S fuel => if decide (parent_of m x = root) then Some m else compress fuel (<[x:=root]> m) (parent_of m x) root
  end.

Definition Find (x : K) (u : UnionFind) : option (K * UnionFind) :=
  match parent u !! x with
  | None => Some (x, MakeSet x u)
  | Some _ =>
      root ← climb (S (size (parent u))) (parent u) x;
      m ← compress (S (size (parent u))) (parent u) x root;
      Some (root, mkUnionFind m (rank u))
  end.

Definition Union (a b : K) (u : UnionFind) : option (bool * UnionFind) :=
  '(ra, u) ← Find a u;
  '(rb, u) ← Find b u;
  if decide (ra = rb) then Some (false, u)
  else
    let ka := rank_of (rank u) ra in
    let kb := rank_of (rank u) rb in
    Some (true,
      if ka <? kb then mkUnionFind (<[ra:=rb]> (parent u)) (rank u)
      else if kb <? ka then mkUnionFind (<[rb:=ra]> (parent u)) (rank u)
      else mkUnionFind (<[rb:=ra]> (parent u)) (<[ra:=int64 (ka + 1)]> (rank u))).

Definition Connected (a b : K) (u : UnionFind) : option (bool * UnionFind) :=
  '(ra, u) ← Find a u;
  '(rb, u) ← Find b u;
  Some (bool_decide (ra = rb), u).

Definition Len (u : UnionFind) : Z := Z.of_nat (size (parent u)).

Definition Reset (u : UnionFind) : UnionFind := mkUnionFind ∅ ∅.

(** A client's calls, one after the other. *)
Inductive call := CMakeSet (x : K) | CFind (x : K) | CUnion (a b : K) | CConnected (a b : K) | CReset.

Definition exec (u : UnionFind) (o : call) : option UnionFind :=
  match o with
  | CMakeSet x => Some (MakeSet x u)
  | CFind x => snd <$> Find x u
  | CUnion a b => snd <$> Union a b u
  | CConnected a b => snd <$> Connected a b u
  | CReset => Some (Reset u)
  end.
End sets.

Arguments UnionFind K {_ _}.
Arguments call : clear implicits.
End Sets.

Module Slices.

Record UnionFindSlice := mkUnionFindSlice { parent : list Z; rank : list Z }.

(** [for i := range u.parent { u.parent[i] = i }] *)
Definition singletons (l : list Z) : list Z := imap (fun i _ => Z.of_nat i) l.

Definition NewSlice (n : Z) : option UnionFindSlice :=
  if n <? 0 then None
  else Some (mkUnionFindSlice (singletons (replicate (Z.to_nat n) 0)) (replicate (Z.to_nat n) 0)).

Fixpoint climb (fuel : nat) (l : list Z) (root : Z) : option Z :=
  match fuel with
  | O => None
  | S fuel => p ← aget l root; if p =? root then Some root else climb fuel l p
  end.

Fixpoint compress (fuel : nat) (l : list Z) (cur root : Z) : option (list Z) :=
  match fuel with
  | O => None
  | S fuel => next ← aget l cur; if next =? root then Some l else l' ← aset l cur root; compress fuel l' next root
  end.

Definition Find (x : Z) (u : UnionFindSlice) : option (Z * UnionFindSlice) :=
  root ← climb (S (length (parent u))) (parent u) x;
  l ← compress (S (length (parent u))) (parent u) x root;
  Some (root, mkUnionFindSlice l (rank u)).

Definition Union (a b : Z) (u : UnionFindSlice) : option (bool * UnionFindSlice) :=
  '(ra, u) ← Find a u;
  '(rb, u) ← Find b u;
  if ra =? rb then Some (false, u)
  else
    ka ← aget (rank u) ra;
    kb ← aget (rank u) rb;
    if ka <? kb then l ← aset (parent u) ra rb; Some (true, mkUnionFindSlice l (rank u))
    else if kb <? ka then l ← aset (parent u) rb ra; Some (true, mkUnionFindSlice l (rank u))
    else
      l ← aset (parent u) rb ra;
      r ← aset (rank u) ra (u8 (ka + 1));
      Some (true, mkUnionFindSlice l r).

Definition Connected (a b : Z) (u : UnionFindSlice) : option (bool * UnionFindSlice) :=
  '(ra, u) ← Find a u;
  '(rb, u) ← Find b u;
  Some (ra =? rb, u).

Definition Len (u : UnionFindSlice) : Z := Z.of_nat (length (parent u)).

Definition Reset (u : UnionFindSlice) : UnionFindSlice :=
  mkUnionFindSlice (singletons (parent u)) (replicate (length (rank u)) 0).

(** A client's calls, one after the other. *)
Inductive call := CFind (x : Z) | CUnion (a b : Z) | CConnected (a b : Z) | CReset.

Definition exec (u : UnionFindSlice) (o : call) : option UnionFindSlice :=
  match o with
  | CFind x => snd <$> Find x u
  | CUnion a b => snd <$> Union a b u
  | CConnected a b => snd <$> Connected a b u
  | CReset => Some (Reset u)
  end.
End Slices.
