(* ===== verification/UnionFindProps.v ===== *)
(** * Disjoint sets: the partition

    The invariant of both structures, what each operation does to the partition, and
    the slices as a refinement of the maps. *)

From Stdlib Require Import ZArith Lia.
From stdpp Require Import gmap list_numbers relations.
From S2P Require Import Prelude Csr CsrRows UnionFind.

Local Open Scope Z_scope.

Section forest.
Context {K : Type} `{Countable K}.
Implicit Types (m : gmap K K) (rk : K -> Z) (x y p r : K).

(** [r] is the representative of [x]: the root its parents lead to. *)
Inductive rep m : K -> K -> Prop :=
  | rep_root x : m !! x = Some x -> rep m x x
  | rep_step x p r : m !! x = Some p -> p <> x -> rep m p r -> rep m x r.

(** Parents are elements, and ranks increase towards the root. *)
Record ordered m rk : Prop := {
  o_closed : forall x p, m !! x = Some p -> is_Some (m !! p);
  o_up : forall x p, m !! x = Some p -> x <> p -> rk x < rk p;
}.

Lemma rep_known m x r : rep m x r -> is_Some (m !! x).
Proof. by destruct 1; eexists. Qed.

Lemma rep_is_root m x r : rep m x r -> m !! r = Some r.
Proof. by induction 1. Qed.

Lemma rep_self m r : m !! r = Some r -> rep m r r.
Proof. apply rep_root. Qed.

Lemma rep_det m x r r' : rep m x r -> rep m x r' -> r = r'.
Proof.
  intros Hr. revert r'. induction Hr as [x Hx|x p r Hx Hp _ IH]; intros r' Hr'; destruct Hr' as [x Hx'|x p' r' Hx' Hp' Hr']; simplify_eq; [done..|].
  by apply IH.
Qed.

Lemma rep_of_root m r r' : m !! r = Some r -> rep m r r' -> r' = r.
Proof. intros Hr Hr'. apply (rep_det m r); [done|]. by apply rep_root. Qed.

Lemma rep_rank m rk x r : ordered m rk -> rep m x r -> x = r \/ rk x < rk r.
Proof.
  intros HO. induction 1 as [x|x p r Hx Hp _ IH]; [by left|right].
  pose proof (o_up _ _ HO _ _ Hx (not_eq_sym Hp)). destruct IH as [->|?]; lia.
Qed.

(** The elements above [x], which bound the climb from it. *)
Definition above m rk x : gset K := filter (fun y => rk x < rk y) (dom m).

Lemma above_lt m rk x p : ordered m rk -> m !! x = Some p -> x <> p -> (size (above m rk p) < size (above m rk x))%nat.
Proof.
  intros HO Hx Hp. pose proof (o_up _ _ HO _ _ Hx Hp) as Hlt. destruct (o_closed _ _ HO _ _ Hx) as [q Hq].
  apply subset_size, strict_spec_alt. unfold above. split; [set_solver by lia|]. intros Heq.
  assert (Hin : p ∈ filter (fun y => rk x < rk y) (dom m)) by (apply elem_of_filter; split; [done|by apply elem_of_dom_2 in Hq]).
  rewrite <- Heq in Hin. apply elem_of_filter in Hin. lia.
Qed.

Lemma above_size m rk x : (size (above m rk x) <= size m)%nat.
Proof. rewrite <- (size_dom (D:=gset K) m). apply subseteq_size. unfold above. set_solver. Qed.

Lemma rep_total m rk x : ordered m rk -> is_Some (m !! x) -> exists r, rep m x r.
Proof.
  intros HO. remember (size (above m rk x)) as n eqn:Hn. revert x Hn.
  induction n as [n IH] using lt_wf_ind. intros x -> [p Hp]. destruct (decide (p = x)) as [->|Hne].
  - exists x. by constructor.
  - destruct (IH _ (above_lt m rk x p HO Hp (not_eq_sym Hne)) p eq_refl (o_closed _ _ HO _ _ Hp)) as [r Hr].
    exists r. by econstructor.
Qed.

(** ** Redirecting an element to a root *)

Section redirect.
Context m rk (HO : ordered m rk).

Lemma redirect_ordered c p : m !! p = Some p -> rk c < rk p -> ordered (<[c:=p]> m) rk.
Proof.
  intros Hp Hlt. split; intros x q Hx; destruct (decide (x = c)) as [->|Hne].
  - rewrite lookup_insert_eq in Hx. simplify_eq. apply lookup_insert_is_Some'. right. by eexists.
  - rewrite lookup_insert_ne in Hx by done. apply lookup_insert_is_Some'. right. by apply (o_closed _ _ HO x).
  - rewrite lookup_insert_eq in Hx. by simplify_eq.
  - rewrite lookup_insert_ne in Hx by done. by apply (o_up _ _ HO).
Qed.

Lemma redirect_dom c (p : K) : is_Some (m !! c) -> dom (<[c:=p]> m) = dom m.
Proof. clear rk HO. intros Hc. apply elem_of_dom in Hc. rewrite dom_insert_L. set_solver. Qed.

(** What holds of every known element one way holds both ways. *)
Lemma rep_mapped m' (f : K -> K) : dom m' = dom m -> (forall x r, rep m x r -> rep m' x (f r)) ->
  forall x r', rep m' x r' <-> exists r, rep m x r /\ r' = f r.
Proof.
  intros Hdom Hf x r'. split.
  - intros Hr. assert (Hx : is_Some (m !! x)) by (apply elem_of_dom; rewrite <- Hdom; apply elem_of_dom; by eapply rep_known).
    destruct (rep_total m rk x HO Hx) as [r Hr0]. exists r. split; [done|]. eapply rep_det; [done|]. by apply Hf.
  - intros (r & Hr & ->). by apply Hf.
Qed.

(** Pointing an element at its own root keeps every representative. *)
Lemma redirect_compress c p : rep m c p -> c <> p -> forall x r, rep (<[c:=p]> m) x r <-> rep m x r.
Proof.
  intros Hc Hne x r. rewrite (rep_mapped (<[c:=p]> m) id).
  - split; [by intros (? & ? & ->)|by exists r].
  - by eapply redirect_dom, rep_known.
  - clear x r. intros x r Hr. unfold id. assert (Hp : <[c:=p]> m !! p = Some p) by (rewrite lookup_insert_ne by done; by eapply rep_is_root).
    destruct (decide (x = c)) as [->|Hxc].
    { rewrite (rep_det m c r p Hr Hc). by eapply rep_step; [apply lookup_insert_eq|done|apply rep_root]. }
    induction Hr as [x Hx|x q r Hx Hq Hr IH]; [apply rep_root; by rewrite lookup_insert_ne|].
    eapply rep_step; [by rewrite lookup_insert_ne|done|]. destruct (decide (q = c)) as [->|Hqc]; [|by apply IH].
    rewrite (rep_det m c r p Hr Hc). by eapply rep_step; [apply lookup_insert_eq|done|apply rep_root].
Qed.

(** Pointing a root at another root moves its elements there. *)
Lemma redirect_link c p : m !! c = Some c -> m !! p = Some p -> c <> p ->
  forall x r', rep (<[c:=p]> m) x r' <-> exists r, rep m x r /\ r' = if decide (r = c) then p else r.
Proof.
  intros Hc Hp Hne. apply rep_mapped; [by apply redirect_dom|]. intros x r Hr.
  assert (Hp' : <[c:=p]> m !! p = Some p) by (by rewrite lookup_insert_ne).
  induction Hr as [x Hx|x q r Hx Hq Hr IH].
  - case_decide as Hxc; subst.
    + by eapply rep_step; [apply lookup_insert_eq|done|apply rep_root].
    + apply rep_root. by rewrite lookup_insert_ne.
  - eapply rep_step; [|done|done]. rewrite lookup_insert_ne; [done|]. by intros <-; simplify_eq.
Qed.
End redirect.

(** ** The loops *)

Section loops.
Context (zero : K) m rk (HO : ordered m rk).

Lemma parent_some x p : m !! x = Some p -> Sets.parent_of zero m x = p.
Proof. unfold Sets.parent_of. by intros ->. Qed.

Lemma climb_finds fuel x : is_Some (m !! x) -> (size (above m rk x) < fuel)%nat -> exists r, Sets.climb zero fuel m x = Some r /\ rep m x r.
Proof.
  revert x. induction fuel as [|fuel IH]; intros x [p Hp] Hf; [lia|]. cbn [Sets.climb]. rewrite (parent_some x p Hp). case_decide as Hd.
  - subst. exists x. split; [done|by constructor].
  - pose proof (above_lt m rk x p HO Hp (not_eq_sym Hd)). destruct (IH p) as (r & Hr & Hrep); [by apply (o_closed _ _ HO x)|lia|].
    exists r. split; [done|by econstructor].
Qed.
End loops.

Lemma above_dom m m' rk x : dom m' = dom m -> above m' rk x = above m rk x.
Proof. unfold above. by intros ->. Qed.

Lemma compress_keeps zero fuel m rk x root : ordered m rk -> rep m x root -> (size (above m rk x) < fuel)%nat ->
  exists m', Sets.compress zero fuel m x root = Some m' /\ ordered m' rk /\ dom m' = dom m /\ forall y r, rep m' y r <-> rep m y r.
Proof.
  revert m x. induction fuel as [|fuel IH]; intros m x HO Hx Hf; [lia|]. cbn [Sets.compress].
  destruct (rep_known _ _ _ Hx) as [p Hp]. rewrite (parent_some zero m x p Hp). case_decide as Hd; [by exists m|].
  assert (Hroot : m !! root = Some root) by (by eapply rep_is_root).
  assert (Hxr : x <> root) by (intros ->; simplify_eq).
  assert (Hpx : p <> x) by (intros ->; apply Hxr; symmetry; by apply (rep_of_root m)).
  assert (Hrk : rk x < rk root) by (by destruct (rep_rank m rk x root HO Hx)).
  assert (Hpr : rep m p root).
  { destruct (rep_total m rk p HO) as [r Hr]; [by apply (o_closed _ _ HO x)|].
    by rewrite (rep_det m x root r Hx (rep_step m x p r Hp Hpx Hr)). }
  pose proof (redirect_compress m rk HO x root Hx Hxr) as Hsame. pose proof (redirect_ordered m rk HO x root Hroot Hrk) as HO'.
  assert (Hdom : dom (<[x:=root]> m) = dom m) by (apply redirect_dom; exists p; done).
  destruct (IH (<[x:=root]> m) p HO') as (m' & Hm' & HO2 & Hdom2 & Hrep2); [by apply Hsame| |].
  { rewrite (above_dom m) by done. pose proof (above_lt m rk x p HO Hp (not_eq_sym Hpx)). lia. }
  exists m'. split; [done|]. split; [done|]. split; [by rewrite Hdom2|]. intros y r. by rewrite Hrep2.
Qed.
End forest.

(** ** The maps *)

Section sets.
Context {K : Type} `{Countable K} (zero : K).
Implicit Types (u : Sets.UnionFind K) (x y r a b c p : K).

Abbreviation ranks u := (Sets.rank_of (Sets.rank u)).
Abbreviation links u := (Sets.parent u).

(** A root of rank [k] represents at least [2^k] elements. *)
Record sound u : Prop := {
  wf_ordered : ordered (links u) (ranks u);
  wf_nonneg : forall x, 0 <= ranks u x;
  wf_count : forall r, links u !! r = Some r ->
    exists X : gset K, (forall x, x ∈ X <-> rep (links u) x r) /\ 2 ^ ranks u r <= Z.of_nat (size X);
}.

(** Elements not known yet are singletons. *)
Definition same u x y : Prop := x = y \/ exists r, rep (links u) x r /\ rep (links u) y r.

Lemma wf_rank_log u r : sound u -> links u !! r = Some r -> 2 ^ ranks u r <= Z.of_nat (size (links u)).
Proof.
  intros Hwf Hr. destruct (wf_count _ Hwf r Hr) as (X & HX & Hle). etrans; [done|].
  rewrite <- (size_dom (D:=gset K) (links u)). apply Nat2Z.inj_le, subseteq_size. intros x Hx. apply elem_of_dom. by eapply rep_known, HX.
Qed.

Lemma rank_small u r k : sound u -> links u !! r = Some r -> 0 <= k -> Z.of_nat (size (links u)) < 2 ^ k -> 0 <= ranks u r < k.
Proof.
  intros Hwf Hr Hk Hs. split; [by apply wf_nonneg|]. apply (Z.pow_lt_mono_r_iff 2); [lia|lia|]. eapply Z.le_lt_trans; [|done]. by apply wf_rank_log.
Qed.

(** What mentioning [x] leaves behind. *)
Record found x u u' : Prop := {
  f_wf : sound u';
  f_dom : dom (links u') = dom (links u) ∪ {[x]};
  f_rep : forall y r, rep (links u') y r <-> rep (links u) y r \/ (links u !! x = None /\ y = x /\ r = x);
}.

Lemma rep_fresh u x y r : sound u -> links u !! x = None -> rep (<[x:=x]> (links u)) y r <-> rep (links u) y r \/ (y = x /\ r = x).
Proof.
  intros Hwf Hx. split.
  - induction 1 as [y Hy|y p r Hy Hp Hr IH].
    + destruct (decide (y = x)) as [->|Hne]; [by right|]. left. apply rep_root. by rewrite lookup_insert_ne in Hy.
    + destruct (decide (y = x)) as [->|Hne]; [rewrite lookup_insert_eq in Hy; simplify_eq|]. rewrite lookup_insert_ne in Hy by done.
      destruct IH as [IH|[-> ->]]; [left; by econstructor|].
      destruct (o_closed _ _ (wf_ordered _ Hwf) _ _ Hy). simplify_eq.
  - intros [Hr|[-> ->]]; [|apply rep_root, lookup_insert_eq]. induction Hr as [y Hy|y p r Hy Hp Hr IH].
    + apply rep_root. rewrite lookup_insert_ne; [done|]. intros ->. simplify_eq.
    + eapply rep_step; [|done|done]. rewrite lookup_insert_ne; [done|]. intros ->. simplify_eq.
Qed.

Lemma MakeSet_found x u : sound u -> found x u (Sets.MakeSet x u).
Proof.
  intros Hwf. unfold Sets.MakeSet. destruct (links u !! x) as [p|] eqn:Hx.
  { split; [done| |intros y r; naive_solver]. apply elem_of_dom_2 in Hx. set_solver. }
  assert (Hrk : forall y, Sets.rank_of (<[x:=0]> (Sets.rank u)) y = if decide (y = x) then 0 else ranks u y).
  { intros y. unfold Sets.rank_of. case_decide; [subst; by rewrite lookup_insert_eq|by rewrite lookup_insert_ne]. }
  split; cbn [Sets.parent Sets.rank].
  - split; cbn [Sets.parent Sets.rank].
    + split; intros y q Hy; (destruct (decide (y = x)) as [->|Hne]; [rewrite lookup_insert_eq in Hy; simplify_eq|rewrite lookup_insert_ne in Hy by done]).
      * rewrite lookup_insert_eq. by eexists.
      * apply lookup_insert_is_Some'. right. by apply (o_closed _ _ (wf_ordered _ Hwf) y).
      * done.
      * intros Hq. assert (Hqx : q <> x) by (intros ->; destruct (o_closed _ _ (wf_ordered _ Hwf) _ _ Hy); simplify_eq).
        rewrite !Hrk. do 2 (case_decide; [done|]). by apply (o_up _ _ (wf_ordered _ Hwf)).
    + intros y. rewrite Hrk. case_decide; [lia|by apply wf_nonneg].
    + intros r Hr. destruct (decide (r = x)) as [->|Hne].
      * exists {[x]}. split; [|rewrite Hrk, decide_True by done; by rewrite size_singleton].
        intros y. rewrite (rep_fresh u x y x Hwf Hx), elem_of_singleton. split; [naive_solver|]. intros [Hy|?]; [|tauto].
        apply rep_is_root in Hy. simplify_eq.
      * rewrite lookup_insert_ne in Hr by done. destruct (wf_count _ Hwf r Hr) as (X & HX & Hle). exists X.
        split; [|rewrite Hrk, decide_False by done; done]. intros y. rewrite (rep_fresh u x y r Hwf Hx), HX. naive_solver.
  - rewrite dom_insert_L. set_solver.
  - intros y r. rewrite (rep_fresh u x y r Hwf Hx). naive_solver.
Qed.

Lemma wf_rep_same u u' : sound u -> ordered (links u') (ranks u') -> (forall x, ranks u' x = ranks u x) ->
  (forall y r, rep (links u') y r <-> rep (links u) y r) -> sound u'.
Proof.
  intros Hwf HO Hrk Hrep. split; [done|intros x; rewrite Hrk; by apply wf_nonneg|]. intros r Hr.
  assert (Hr' : links u !! r = Some r) by (by eapply rep_is_root, Hrep, rep_root).
  destruct (wf_count _ Hwf r Hr') as (X & HX & Hle). exists X. split; [|by rewrite Hrk]. intros x. by rewrite HX, Hrep.
Qed.

Lemma Find_spec x u : sound u -> exists r u', Sets.Find zero x u = Some (r, u') /\ found x u u' /\ rep (links u') x r.
Proof.
  intros Hwf. unfold Sets.Find. destruct (links u !! x) as [p|] eqn:Hx.
  2:{ eexists x, _. split; [done|]. pose proof (MakeSet_found x u Hwf) as HF. split; [done|]. apply HF. by right. }
  pose proof (wf_ordered _ Hwf) as HO. pose proof (above_size (links u) (ranks u) x) as Hab.
  destruct (climb_finds zero (links u) (ranks u) HO (S (size (links u))) x) as (r & Hr & Hrep); [by eexists|lia|].
  rewrite Hr. cbn [mbind option_bind].
  destruct (compress_keeps zero (S (size (links u))) (links u) (ranks u) x r HO Hrep) as (m' & Hm' & HO' & Hdom & Hsame); [lia|].
  rewrite Hm'. cbn [mbind option_bind]. exists r, (Sets.mkUnionFind m' (Sets.rank u)). split; [done|]. split; [|by apply Hsame].
  split; cbn [Sets.parent Sets.rank].
  - by apply (wf_rep_same u).
  - rewrite Hdom. apply elem_of_dom_2 in Hx. set_solver.
  - intros y q. rewrite Hsame. naive_solver.
Qed.

Lemma found_same x u u' a b : sound u -> found x u u' -> same u' a b <-> same u a b.
Proof.
  intros Hwf [_ _ Hrep]. unfold same. split; intros Hs; (destruct Hs as [Hab|(r & Ha & Hb)]; [by left|]).
  - apply Hrep in Ha, Hb.
    assert (Hno : forall c, links u !! x = None -> rep (links u) c x -> False) by (intros c Hx Hc; apply rep_is_root in Hc; simplify_eq).
    destruct Ha as [Ha|(Hx & Ha & Hr)], Hb as [Hb|(Hx' & Hb & Hr')]; subst; [right; by exists r|by destruct (Hno a)|by destruct (Hno b)|by left].
  - right. exists r. split; apply Hrep; by left.
Qed.

Lemma found_keeps_rep x u u' y r : found x u u' -> rep (links u) y r -> rep (links u') y r.
Proof. intros [_ _ Hrep] Hy. apply Hrep. by left. Qed.

(** With both representatives at hand, being in one set is having one representative. *)
Lemma same_iff_rep u a b ra rb : rep (links u) a ra -> rep (links u) b rb -> same u a b <-> ra = rb.
Proof.
  intros Ha Hb. split; [|intros <-; right; by exists ra].
  intros [->|(r & Ha' & Hb')]; [by eapply rep_det|]. by rewrite (rep_det _ _ _ _ Ha Ha'), (rep_det _ _ _ _ Hb Hb').
Qed.

(** ** Linking two roots *)

Section link.
Context u (Hwf : sound u) c p (Hc : links u !! c = Some c) (Hp : links u !! p = Some p) (Hne : c <> p).
Context (rk' : gmap K Z) (k : Z) (Hrk : forall y, Sets.rank_of rk' y = if decide (y = p) then k else ranks u y).
Context (Hlow : ranks u c < k) (Hup : ranks u p <= k) (Hk : 2 ^ k <= 2 ^ ranks u c + 2 ^ ranks u p).
Abbreviation u' := (Sets.mkUnionFind (<[c:=p]> (links u)) rk').

Lemma link_raised : ordered (links u) (Sets.rank_of rk').
Proof.
  split; [apply (o_closed _ _ (wf_ordered _ Hwf))|]. intros x q Hx Hxq. rewrite !Hrk.
  rewrite (decide_False (P:=x = p)) by (intros ->; simplify_eq). pose proof (o_up _ _ (wf_ordered _ Hwf) _ _ Hx Hxq). case_decide; subst; lia.
Qed.

Lemma link_reps x r' : rep (links u') x r' <-> exists r, rep (links u) x r /\ r' = if decide (r = c) then p else r.
Proof. clear Hlow Hup Hk Hrk k. by apply (redirect_link (links u) (ranks u) (wf_ordered _ Hwf)). Qed.

Lemma link_wf : sound u'.
Proof.
  split; cbn [Sets.parent Sets.rank].
  - apply redirect_ordered; [apply link_raised|done|]. rewrite !Hrk. by repeat case_decide.
  - intros x. rewrite Hrk. pose proof (wf_nonneg _ Hwf p). case_decide; [lia|by apply wf_nonneg].
  - intros r Hr. rewrite Hrk. destruct (decide (r = c)) as [->|Hrc]; [rewrite lookup_insert_eq in Hr; simplify_eq|].
    rewrite lookup_insert_ne in Hr by done. destruct (wf_count _ Hwf r Hr) as (X & HX & HXs). case_decide as Hrp; [subst r|].
    + destruct (wf_count _ Hwf c Hc) as (Y & HY & HYs). exists (X ∪ Y). split.
      * intros x. rewrite elem_of_union, HX, HY. rewrite link_reps. split.
        { intros [Hx|Hx]; eexists; (split; [done|]); [by rewrite decide_False|by rewrite decide_True]. }
        { intros (r & Hx & Heq). case_decide; subst; tauto. }
      * rewrite size_union by (intros x; rewrite HX, HY; intros H1 H2; by destruct Hne; eapply rep_det). lia.
    + exists X. split; [|done]. intros x. rewrite HX, link_reps. split.
      * intros Hx. exists r. split; [done|]. by rewrite decide_False.
      * intros (q & Hx & Heq). case_decide; by subst.
Qed.

Lemma link_dom : dom (links u') = dom (links u).
Proof. cbn [Sets.parent]. apply redirect_dom; by eexists. Qed.

Lemma link_same x y : same u' x y <-> same u x y \/ (same u x c /\ same u y p) \/ (same u x p /\ same u y c).
Proof.
  clear Hlow Hup Hk Hrk k. assert (Hself : rep (links u) c c /\ rep (links u) p p) by (split; by apply rep_root). destruct Hself as [Hcc Hpp].
  assert (Hone : forall z r, links u !! r = Some r -> same u z r <-> rep (links u) z r).
  { intros z r Hr. split; [intros [->|(q & Hz & Hq)]; [by apply rep_root|]|intros Hz; right; exists r; split; [done|by apply rep_root]].
    by rewrite <- (rep_of_root _ r q Hr Hq). }
  rewrite !(fun z => Hone z c Hc), !(fun z => Hone z p Hp). split.
  - intros [->|(r & Hx & Hy)]; [left; by left|]. apply link_reps in Hx as (q & Hx & ->), Hy as (q' & Hy & Heq).
    repeat case_decide; subst; try (left; right; by eexists); tauto.
  - intros [[->|(r & Hx & Hy)]|[[Hx Hy]|[Hx Hy]]]; [by left|right; eexists; split; apply link_reps; by exists r|right; exists p..].
    all: split; apply link_reps; eexists; (split; [done|]); by case_decide.
Qed.
End link.

(** ** Joining two sets *)

(** What [Union a b] makes of the partition. *)
Definition joins u a b x y : Prop := same u x y \/ (same u x a /\ same u y b) \/ (same u x b /\ same u y a).

Lemma same_sym u x y : same u x y -> same u y x.
Proof. intros [->|(r & Hx & Hy)]; [by left|right; by exists r]. Qed.

Lemma same_trans u x y z : same u x y -> same u y z -> same u x z.
Proof.
  intros [->|(r & Hx & Hy)] [->|(q & Hy' & Hz)]; [by left|right; by exists q|right; by exists r|].
  right. exists r. split; [done|]. by rewrite (rep_det _ _ _ _ Hy Hy').
Qed.

Lemma same_rep u x r : rep (links u) x r -> same u x r.
Proof. intros Hx. right. exists r. split; [done|]. apply rep_root. by eapply rep_is_root. Qed.

(** Joining representatives is joining what they represent. *)
Lemma joins_reps u a b ra rb x y : same u a ra -> same u b rb -> joins u ra rb x y <-> joins u a b x y.
Proof.
  intros Ha Hb. assert (Hcut : forall z c rc, same u c rc -> same u z rc <-> same u z c).
  { intros z c rc Hc. split; intros Hz; eapply same_trans; [done| |done|done]. by apply same_sym. }
  unfold joins. by rewrite !(fun z => Hcut z a ra Ha), !(fun z => Hcut z b rb Hb).
Qed.

Lemma joins_comm u a b x y : joins u a b x y <-> joins u b a x y.
Proof. unfold joins. tauto. Qed.

Lemma joins_same u a b x y : same u a b -> joins u a b x y <-> same u x y.
Proof.
  intros Hab. unfold joins. split; [|tauto]. intros [?|[[Hx Hy]|[Hx Hy]]]; [done|..];
    (eapply same_trans; [done|]); (eapply same_trans; [|by apply same_sym]); [done|by apply same_sym].
Qed.

(** Both endpoints looked up. *)
Lemma Find_both a b u : sound u -> exists ra u1 rb u2, Sets.Find zero a u = Some (ra, u1) /\ Sets.Find zero b u1 = Some (rb, u2) /\ sound u2 /\
  dom (links u2) = dom (links u) ∪ {[a]} ∪ {[b]} /\ rep (links u2) a ra /\ rep (links u2) b rb /\ (forall x y, same u2 x y <-> same u x y) /\
  (ra = rb <-> same u a b).
Proof.
  intros Hwf. destruct (Find_spec a u Hwf) as (ra & u1 & Ha & HF1 & Hra). destruct (Find_spec b u1 (f_wf _ _ _ HF1)) as (rb & u2 & Hb & HF2 & Hrb).
  exists ra, u1, rb, u2. split; [done|]. split; [done|]. split; [apply HF2|]. split; [by rewrite (f_dom _ _ _ HF2), (f_dom _ _ _ HF1)|].
  pose proof (found_keeps_rep _ _ _ _ _ HF2 Hra) as Hra2. split; [done|]. split; [done|].
  assert (Hs : forall x y, same u2 x y <-> same u x y).
  { intros x y. by rewrite (found_same b u1 u2 _ _ (f_wf _ _ _ HF1) HF2), (found_same a u u1 _ _ Hwf HF1). }
  split; [done|]. by rewrite <- Hs, (same_iff_rep u2 a b ra rb).
Qed.

Lemma int64_small z : 0 <= z < 2 ^ 63 -> int64 z = z.
Proof. intros Hz. unfold int64, signed. rewrite u64_small by lia. by rewrite decide_True by lia. Qed.

Lemma Union_spec a b u : sound u -> Z.of_nat (size (dom (links u) ∪ {[a]} ∪ {[b]})) < 2 ^ 63 -> exists v u', Sets.Union zero a b u = Some (v, u') /\ sound u' /\
  dom (links u') = dom (links u) ∪ {[a]} ∪ {[b]} /\ (v = true <-> ~ same u a b) /\ forall x y, same u' x y <-> joins u a b x y.
Proof.
  intros Hwf Hsize. destruct (Find_both a b u Hwf) as (ra & u1 & rb & u2 & Ha & Hb & Hwf2 & Hdom & Hra & Hrb & Hsame & Heq).
  unfold Sets.Union. rewrite Ha. cbn [mbind option_bind]. rewrite Hb. cbn [mbind option_bind]. setoid_rewrite <- Heq. case_decide as Hd.
  { exists false, u2. spl; [done|done|done|naive_solver|]. intros x y. rewrite Hsame, joins_same; [done|by apply Heq]. }
  assert (Hjoin : forall x y, joins u2 ra rb x y <-> joins u a b x y).
  { intros x y. rewrite (joins_reps u2 a b) by (by apply same_rep). unfold joins. by rewrite !Hsame. }
  assert (Hroots : links u2 !! ra = Some ra /\ links u2 !! rb = Some rb) by (split; by eapply rep_is_root). destruct Hroots as [Hra' Hrb'].
  assert (Hsz : Z.of_nat (size (links u2)) < 2 ^ 63) by (rewrite <- (size_dom (D:=gset K)), Hdom; done).
  pose proof (rank_small u2 ra 63 Hwf2 Hra' ltac:(lia) Hsz) as Hka. pose proof (rank_small u2 rb 63 Hwf2 Hrb' ltac:(lia) Hsz) as Hkb.
  assert (Hsame_rank : forall p y, ranks u2 y = if decide (y = p) then ranks u2 p else ranks u2 y) by (intros p y; case_decide; by subst).
  pose proof (Z.pow_pos_nonneg 2 (ranks u2 ra) ltac:(lia) ltac:(lia)). pose proof (Z.pow_pos_nonneg 2 (ranks u2 rb) ltac:(lia) ltac:(lia)).
  eexists true, _. split; [done|]. split_and!; [| |by split|].
  - destruct (Z.ltb_spec (ranks u2 ra) (ranks u2 rb)); [|destruct (Z.ltb_spec (ranks u2 rb) (ranks u2 ra))].
    + eapply (link_wf u2 Hwf2 ra rb Hra' Hrb' Hd _ _ (Hsame_rank rb)); lia.
    + eapply (link_wf u2 Hwf2 rb ra Hrb' Hra' (not_eq_sym Hd) _ _ (Hsame_rank ra)); lia.
    + eapply (link_wf u2 Hwf2 rb ra Hrb' Hra' (not_eq_sym Hd) _ (ranks u2 ra + 1)); [|lia|lia|].
      * intros y. unfold Sets.rank_of at 1. rewrite int64_small by lia. case_decide; [subst; by rewrite lookup_insert_eq|by rewrite lookup_insert_ne].
      * replace (ranks u2 rb) with (ranks u2 ra) by lia. rewrite Z.pow_add_r by lia. lia.
  - rewrite <- Hdom. repeat case_match; by apply link_dom.
  - intros x y. rewrite <- Hjoin. repeat case_match; [by apply (link_same u2 Hwf2)|rewrite joins_comm; by apply (link_same u2 Hwf2)..].
Qed.

Lemma Connected_spec a b u : sound u -> exists v u', Sets.Connected zero a b u = Some (v, u') /\ sound u' /\
  dom (links u') = dom (links u) ∪ {[a]} ∪ {[b]} /\ (v = true <-> same u a b) /\ forall x y, same u' x y <-> same u x y.
Proof.
  intros Hwf. destruct (Find_both a b u Hwf) as (ra & u1 & rb & u2 & Ha & Hb & Hwf2 & Hdom & _ & _ & Hsame & Heq).
  unfold Sets.Connected. rewrite Ha. cbn [mbind option_bind]. rewrite Hb. cbn [mbind option_bind].
  exists (bool_decide (ra = rb)), u2. spl; [done|done|done|by rewrite bool_decide_eq_true|done].
Qed.

(** ** A client's calls *)

(** The calls since the last [Reset]. *)
Definition live_calls (ops : list (Sets.call K)) : list (Sets.call K) :=
  foldl (fun l o => match o with Sets.CReset => [] | _ => l ++ [o] end) [] ops.

Definition elements_of (o : Sets.call K) : gset K :=
  match o with
  | Sets.CMakeSet x | Sets.CFind x => {[x]}
  | Sets.CUnion a b | Sets.CConnected a b => {[a]} ∪ {[b]}
  | Sets.CReset => ∅
  end.
Definition mentioned (l : list (Sets.call K)) : gset K := ⋃ (elements_of <$> l).

(** The pairs that were joined. *)
Definition joined (l : list (Sets.call K)) (a b : K) : Prop := Sets.CUnion a b ∈ l.

Lemma mentioned_snoc l o : mentioned (l ++ [o]) = mentioned l ∪ elements_of o.
Proof. unfold mentioned. rewrite fmap_app, union_list_app_L. cbn. set_solver. Qed.

Lemma joined_other l o : (forall a b, o <> Sets.CUnion a b) -> forall x y, rtsc (joined (l ++ [o])) x y <-> rtsc (joined l) x y.
Proof.
  intros Ho x y. assert (HR : forall a b, joined (l ++ [o]) a b <-> joined l a b).
  { intros a b. unfold joined. rewrite elem_of_app, list_elem_of_singleton. split; [|tauto]. intros [?|Heq]; [done|by destruct (Ho a b)]. }
  split; (apply (rtsc_congruence id); intros a b; by rewrite HR).
Qed.

(** Joining one more pair. *)
Lemma joined_union l a b x y : rtsc (joined (l ++ [Sets.CUnion a b])) x y <->
  rtsc (joined l) x y \/ (rtsc (joined l) x a /\ rtsc (joined l) y b) \/ (rtsc (joined l) x b /\ rtsc (joined l) y a).
Proof.
  set (R := rtsc (joined l)). assert (HE : Equivalence R) by apply _.
  assert (Hin : forall c d, R c d -> rtsc (joined (l ++ [Sets.CUnion a b])) c d).
  { intros c d. apply (rtsc_congruence id). clear c d. intros c d Hcd. unfold joined. apply elem_of_app. by left. }
  assert (Hab : rtsc (joined (l ++ [Sets.CUnion a b])) a b) by (apply rtsc_lr; unfold joined; set_solver).
  split.
  - induction 1 as [x|x y z Hxy _ IH]; [left; reflexivity|].
    assert (Hstep : R x y \/ (x = a /\ y = b) \/ (x = b /\ y = a)).
    { destruct Hxy as [Hj|Hj]; unfold joined in Hj; apply elem_of_app in Hj as [Hj|Hj].
      1: left; by apply rtsc_lr. 2: left; by apply rtsc_rl. all: apply list_elem_of_singleton in Hj; simplify_eq; tauto. }
    destruct Hstep as [Hs|[[-> ->]|[-> ->]]].
    + destruct IH as [IH|[[IH1 IH2]|[IH1 IH2]]]; [left|right; left|right; right]; try split; try done; by etransitivity.
    + destruct IH as [IH|[[IH1 IH2]|[IH1 IH2]]]; [right; left|right; left|left]; try split; try reflexivity; by symmetry.
    + destruct IH as [IH|[[IH1 IH2]|[IH1 IH2]]]; [right; right|left|right; right]; try split; try reflexivity; by symmetry.
  - intros [Hxy|[[Hx Hy]|[Hx Hy]]]; [by apply Hin|..]; apply Hin in Hx, Hy; (etransitivity; [exact Hx|]); (etransitivity; [|symmetry; exact Hy]); [done|by symmetry].
Qed.

(** The state after the calls [l] made since the structure was empty. *)
Record tracks (l : list (Sets.call K)) u : Prop := {
  t_wf : sound u;
  t_dom : dom (links u) = mentioned l;
  t_same : forall x y, same u x y <-> rtsc (joined l) x y;
}.

Lemma tracks_new : tracks [] Sets.New.
Proof.
  split; [split; cbn; [split; intros; simplify_map_eq|done|intros; simplify_map_eq]|cbn; unfold mentioned; set_solver|].
  intros x y. split.
  - intros [->|(r & Hx & _)]; [done|]. apply rep_known in Hx as [p Hp]. cbn in Hp. simplify_map_eq.
  - intros Hxy. left. induction Hxy as [|x y z [Hj|Hj] _ IH]; [done|unfold joined in Hj; set_solver..].
Qed.

Lemma mentioned_size l : Z.of_nat (size (mentioned l)) <= 2 * Z.of_nat (length l).
Proof.
  induction l as [|o l IH] using rev_ind; [done|]. rewrite mentioned_snoc, length_app. cbn.
  pose proof (size_union_alt (mentioned l) (elements_of o)) as E. pose proof (subseteq_size (elements_of o ∖ mentioned l) (elements_of o) ltac:(set_solver)) as E2.
  assert (size (elements_of o) <= 2)%nat; [|lia]. destruct o as [x|x|a b|a b|]; cbn; rewrite ?size_singleton; try lia; [..|by rewrite size_empty; lia].
  all: pose proof (size_union_alt {[a]} ({[b]} : gset K)) as E3; pose proof (subseteq_size ({[b]} ∖ {[a]}) ({[b]} : gset K) ltac:(set_solver)) as E4;
    rewrite !size_singleton in *; lia.
Qed.

Lemma tracks_size l u a b : tracks l u -> Z.of_nat (size (dom (links u) ∪ {[a]} ∪ {[b]})) <= 2 * Z.of_nat (length l) + 2.
Proof.
  intros HT. rewrite (t_dom _ _ HT). pose proof (mentioned_size (l ++ [Sets.CUnion a b])) as Hm. rewrite mentioned_snoc, length_app in Hm.
  cbn [elements_of length] in Hm. rewrite (assoc_L (∪)) in Hm. lia.
Qed.

Lemma tracks_exec l u o : tracks l u -> 2 * Z.of_nat (length l) + 2 < 2 ^ 63 ->
  exists u', Sets.exec zero u o = Some u' /\ tracks (match o with Sets.CReset => [] | _ => l ++ [o] end) u'.
Proof.
  intros HT Hs. pose proof (t_wf _ _ HT) as Hwf. destruct o as [x|x|a b|a b|]; cbn [Sets.exec].
  - exists (Sets.MakeSet x u). split; [done|]. pose proof (MakeSet_found x u Hwf) as HF. split; [apply HF|by rewrite (f_dom _ _ _ HF), (t_dom _ _ HT), mentioned_snoc|].
    intros y z. rewrite (found_same x u _ _ _ Hwf HF), (t_same _ _ HT). by rewrite joined_other.
  - destruct (Find_spec x u Hwf) as (r & u' & -> & HF & _). exists u'. split; [done|]. split; [apply HF|by rewrite (f_dom _ _ _ HF), (t_dom _ _ HT), mentioned_snoc|].
    intros y z. rewrite (found_same x u _ _ _ Hwf HF), (t_same _ _ HT). by rewrite joined_other.
  - destruct (Union_spec a b u Hwf) as (v & u' & -> & Hwf' & Hdom & _ & Hj); [pose proof (tracks_size l u a b HT); lia|]. exists u'. split; [done|].
    split; [done|rewrite Hdom, (t_dom _ _ HT), mentioned_snoc; cbn [elements_of]; by rewrite (assoc_L (∪))|]. intros x y. rewrite Hj, joined_union. unfold joins. by rewrite !(t_same _ _ HT).
  - destruct (Connected_spec a b u Hwf) as (v & u' & -> & Hwf' & Hdom & _ & Hs'). exists u'. split; [done|].
    split; [done|rewrite Hdom, (t_dom _ _ HT), mentioned_snoc; cbn [elements_of]; by rewrite (assoc_L (∪))|]. intros x y. by rewrite Hs', (t_same _ _ HT), joined_other.
  - exists Sets.New. split; [done|apply tracks_new].
Qed.

Lemma live_calls_snoc l o : live_calls (l ++ [o]) = match o with Sets.CReset => [] | _ => live_calls l ++ [o] end.
Proof. unfold live_calls. by rewrite foldl_app. Qed.

Lemma live_calls_length l : (length (live_calls l) <= length l)%nat.
Proof. induction l as [|o l IH] using rev_ind; [done|]. rewrite live_calls_snoc, length_app. destruct o; cbn; rewrite ?length_app; cbn; lia. Qed.

Lemma run_tracks ops : 2 * Z.of_nat (length ops) < 2 ^ 63 -> exists u, loop (Sets.exec zero) Sets.New ops = Some u /\ tracks (live_calls ops) u.
Proof.
  induction ops as [|o ops IH] using rev_ind; intros Hs; [exists Sets.New; split; [done|apply tracks_new]|].
  rewrite length_app in Hs. cbn in Hs. destruct IH as (u & Hu & HT); [lia|]. pose proof (live_calls_length ops).
  destruct (tracks_exec _ _ o HT) as (u' & Hu' & HT'); [lia|]. exists u'.
  rewrite loop_app, Hu, live_calls_snoc. cbn. rewrite Hu'. by split.
Qed.
End sets.

(** ** The slices *)

Section slices.
Implicit Types (l : list Z) (s : Slices.UnionFindSlice) (x y a b n : Z).

Lemma aget_seqZ {A} (l : list A) x : map_seqZ (M:=gmap Z A) 0 l !! x = aget l x.
Proof. rewrite lookup_map_seqZ, Z.sub_0_r. unfold aget. by repeat case_decide || case_guard. Qed.

Lemma size_map_seqZ {A} (l : list A) : size (map_seqZ (M:=gmap Z A) 0 l) = length l.
Proof.
  induction l as [|x l IH] using rev_ind; [done|]. rewrite map_seqZ_snoc, map_size_insert_None, IH, length_app by apply map_seqZ_snoc_disjoint.
  cbn. lia.
Qed.

Lemma insert_map_seqZ {A} (l : list A) x (v : A) : 0 <= x < Z.of_nat (length l) ->
  <[x:=v]> (map_seqZ (M:=gmap Z A) 0 l) = map_seqZ 0 (<[Z.to_nat x:=v]> l).
Proof.
  intros Hx. apply map_eq. intros i. rewrite aget_seqZ. unfold aget. destruct (decide (i = x)) as [->|Hne].
  - by rewrite lookup_insert_eq, decide_True, list_lookup_insert_eq by lia.
  - rewrite lookup_insert_ne, aget_seqZ by done. unfold aget. case_decide; [|done]. by rewrite list_lookup_insert_ne by lia.
Qed.

(** The maps a pair of slices stands for. *)
Definition abs s : Sets.UnionFind Z := Sets.mkUnionFind (map_seqZ 0 (Slices.parent s)) (map_seqZ 0 (Slices.rank s)).

Record valid n s : Prop := {
  v_parent : Z.of_nat (length (Slices.parent s)) = n;
  v_rank : Z.of_nat (length (Slices.rank s)) = n;
  v_wf : sound (abs s);
}.

Definition in_range n x : Prop := 0 <= x < n.

Lemma valid_known n s x : valid n s -> is_Some (Sets.parent (abs s) !! x) <-> in_range n x.
Proof. intros HV. cbn. rewrite lookup_map_seqZ_is_Some, (v_parent _ _ HV). unfold in_range. lia. Qed.

Definition closed l : Prop := forall x p, aget l x = Some p -> 0 <= p < Z.of_nat (length l).

Lemma valid_closed n s : valid n s -> closed (Slices.parent s).
Proof.
  intros HV x p Hx. rewrite <- aget_seqZ in Hx. apply (o_closed _ _ (wf_ordered _ (v_wf _ _ HV))) in Hx.
  apply (valid_known n) in Hx; [|done]. by rewrite (v_parent _ _ HV).
Qed.

Lemma climb_abs fuel l x : closed l -> 0 <= x < Z.of_nat (length l) -> Slices.climb fuel l x = Sets.climb 0 fuel (map_seqZ 0 l) x.
Proof.
  intros HC. revert x. induction fuel as [|fuel IH]; intros x Hx; [done|]. cbn [Slices.climb Sets.climb].
  destruct (aget_is_Some l x Hx) as [p Hp]. rewrite Hp, (parent_some 0 (map_seqZ 0 l) x p) by (by rewrite aget_seqZ). cbn [mbind option_bind]. destruct (Z.eqb_spec p x), (decide (p = x)); try done.
  apply IH. by apply (HC x).
Qed.

Lemma compress_abs fuel l x root : closed l -> 0 <= x < Z.of_nat (length l) -> 0 <= root < Z.of_nat (length l) ->
  Sets.compress 0 fuel (map_seqZ 0 l) x root = map_seqZ 0 <$> Slices.compress fuel l x root.
Proof.
  revert l x. induction fuel as [|fuel IH]; intros l x HC Hx Hr; [done|]. cbn [Slices.compress Sets.compress].
  destruct (aget_is_Some l x Hx) as [p Hp]. rewrite Hp, (parent_some 0 (map_seqZ 0 l) x p) by (by rewrite aget_seqZ). cbn [mbind option_bind]. destruct (Z.eqb_spec p root), (decide (p = root)); try done.
  rewrite aset_Some by done. cbn [mbind option_bind]. rewrite <- IH, insert_map_seqZ; rewrite ?length_insert; try done; [|by apply (HC x)].
  intros i q Hi. rewrite length_insert. unfold aget in Hi. case_decide; [|done]. apply list_lookup_insert_Some in Hi as [(_ & -> & _)|[_ Hi]]; [done|].
  apply (HC i). unfold aget. by rewrite decide_True.
Qed.

Lemma compress_length fuel l x root l' : Slices.compress fuel l x root = Some l' -> length l' = length l.
Proof.
  revert l x. induction fuel as [|fuel IH]; intros l x; [done|]. cbn [Slices.compress]. destruct (aget l x) as [p|]; [|done]. cbn [mbind option_bind].
  case_match; [by intros [= ->]|]. unfold aset. case_decide; [|done]. cbn [mbind option_bind]. intros Hl. apply IH in Hl. by rewrite length_insert in Hl.
Qed.

Lemma Find_abs n s x : valid n s -> in_range n x -> exists r s' , Slices.Find x s = Some (r, s') /\ valid n s' /\
  Sets.Find 0 x (abs s) = Some (r, abs s').
Proof.
  intros HV Hx. pose proof (v_wf _ _ HV) as Hwf. destruct (Find_spec 0 x (abs s) Hwf) as (r & u' & HF & Hfound & Hrep).
  pose proof HF as HF'. unfold Sets.Find in HF. destruct (proj2 (valid_known n s x HV) Hx) as [p Hp]. rewrite Hp in HF.
  unfold in_range in Hx. rewrite <- (v_parent _ _ HV) in Hx. cbn [abs Sets.parent] in HF. rewrite size_map_seqZ, <- climb_abs in HF by first [done|by eapply valid_closed].
  unfold Slices.Find. destruct (Slices.climb _ _ x) as [q|]; [|done]. cbn [mbind option_bind] in HF |- *.
  assert (Hq : 0 <= q < Z.of_nat (length (Slices.parent s))).
  { destruct (Sets.compress _ _ _ x q); [|done]. cbn in HF. simplify_eq. rewrite (v_parent _ _ HV). apply (valid_known n s r HV).
    apply rep_is_root, elem_of_dom_2 in Hrep. rewrite (f_dom _ _ _ Hfound) in Hrep. apply elem_of_dom. apply elem_of_union in Hrep as [?|Hr]; [done|].
    apply elem_of_singleton in Hr as ->. by apply elem_of_dom_2 in Hp. }
  rewrite compress_abs in HF by first [done|by eapply valid_closed]. destruct (Slices.compress _ _ x q) as [l'|] eqn:Hl; [|done]. cbn in HF |- *. simplify_eq.
  eexists _, _. split; [done|]. split; [|by rewrite HF']. split; cbn; [by rewrite (compress_length _ _ _ _ _ Hl), (v_parent _ _ HV)|by rewrite (v_rank _ _ HV)|apply Hfound].
Qed.

Lemma valid_root n s x r : valid n s -> rep (Sets.parent (abs s)) x r -> in_range n r.
Proof. intros HV Hr. apply (valid_known n s r HV). exists r. by eapply rep_is_root. Qed.

Lemma valid_dom n s a b : valid n s -> in_range n a -> in_range n b ->
  dom (Sets.parent (abs s)) ∪ {[a]} ∪ {[b]} = dom (Sets.parent (abs s)).
Proof.
  intros HV Ha Hb. pose proof (proj2 (valid_known n s a HV) Ha) as Ha'. pose proof (proj2 (valid_known n s b HV) Hb) as Hb'.
  apply elem_of_dom in Ha', Hb'. set_solver.
Qed.

(** Both endpoints looked up in the slices. *)
Lemma Find_both_abs n s a b : valid n s -> in_range n a -> in_range n b -> exists ra s1 rb s2,
  Slices.Find a s = Some (ra, s1) /\ Slices.Find b s1 = Some (rb, s2) /\ Sets.Find 0 a (abs s) = Some (ra, abs s1) /\
  Sets.Find 0 b (abs s1) = Some (rb, abs s2) /\ valid n s2 /\ rep (Sets.parent (abs s2)) a ra /\ rep (Sets.parent (abs s2)) b rb.
Proof.
  intros HV Ha Hb. destruct (Find_abs n s a HV Ha) as (ra & s1 & H1 & HV1 & E1). destruct (Find_abs n s1 b HV1 Hb) as (rb & s2 & H2 & HV2 & E2).
  exists ra, s1, rb, s2. destruct (Find_both 0 a b (abs s) (v_wf _ _ HV)) as (ra' & u1 & rb' & u2 & E1' & E2' & _ & _ & Hra & Hrb & _).
  rewrite E1 in E1'. simplify_eq. by spl.
Qed.

Lemma Connected_abs n s a b : valid n s -> in_range n a -> in_range n b -> exists v s', Slices.Connected a b s = Some (v, s') /\ valid n s' /\
  Sets.Connected 0 a b (abs s) = Some (v, abs s').
Proof.
  intros HV Ha Hb. destruct (Find_both_abs n s a b HV Ha Hb) as (ra & s1 & rb & s2 & H1 & H2 & E1 & E2 & HV2 & _ & _).
  exists (ra =? rb), s2. unfold Slices.Connected, Sets.Connected. rewrite H1, E1. cbn [mbind option_bind]. rewrite H2, E2. cbn [mbind option_bind].
  spl; [done|done|]. do 2 f_equal. apply eq_true_iff_eq. by rewrite bool_decide_eq_true, Z.eqb_eq.
Qed.

Lemma rank_abs n s r : valid n s -> in_range n r -> aget (Slices.rank s) r = Some (Sets.rank_of (Sets.rank (abs s)) r).
Proof.
  intros HV Hr. unfold in_range in Hr. rewrite <- (v_rank _ _ HV) in Hr. destruct (aget_is_Some _ _ Hr) as [k Hk].
  unfold Sets.rank_of. cbn. by rewrite aget_seqZ, Hk.
Qed.

Lemma aset_parent n s r p : valid n s -> in_range n r -> aset (Slices.parent s) r p = Some (<[Z.to_nat r:=p]> (Slices.parent s)) /\
  <[r:=p]> (Sets.parent (abs s)) = map_seqZ 0 (<[Z.to_nat r:=p]> (Slices.parent s)).
Proof. intros HV Hr. unfold in_range in Hr. rewrite <- (v_parent _ _ HV) in Hr. split; [by apply aset_Some|by apply insert_map_seqZ]. Qed.

Lemma aset_rank n s r k : valid n s -> in_range n r -> aset (Slices.rank s) r k = Some (<[Z.to_nat r:=k]> (Slices.rank s)) /\
  <[r:=k]> (Sets.rank (abs s)) = map_seqZ 0 (<[Z.to_nat r:=k]> (Slices.rank s)).
Proof. intros HV Hr. unfold in_range in Hr. rewrite <- (v_rank _ _ HV) in Hr. split; [by apply aset_Some|by apply insert_map_seqZ]. Qed.

(** The rank of a root is far below what a byte holds. *)
Lemma valid_rank n s x r : n < 2 ^ 63 -> valid n s -> rep (Sets.parent (abs s)) x r -> 0 <= Sets.rank_of (Sets.rank (abs s)) r < 63.
Proof.
  intros Hn HV Hr. apply (rank_small (abs s)); [apply HV|by eapply rep_is_root|lia|]. cbn. rewrite size_map_seqZ. by rewrite (v_parent _ _ HV).
Qed.

Lemma Union_abs n s a b : n < 2 ^ 63 -> valid n s -> in_range n a -> in_range n b -> exists v s', Slices.Union a b s = Some (v, s') /\ valid n s' /\
  Sets.Union 0 a b (abs s) = Some (v, abs s').
Proof.
  intros Hn HV Ha Hb. destruct (Find_both_abs n s a b HV Ha Hb) as (ra & s1 & rb & s2 & H1 & H2 & E1 & E2 & HV2 & Hra & Hrb).
  pose proof (valid_root n s2 a ra HV2 Hra) as Ra. pose proof (valid_root n s2 b rb HV2 Hrb) as Rb.
  pose proof (valid_rank n s2 a ra Hn HV2 Hra) as Ka.
  destruct (Union_spec 0 a b (abs s) (v_wf _ _ HV)) as (v & u' & HU & Hwf & _).
  { rewrite (valid_dom n), size_dom by done. cbn. by rewrite size_map_seqZ, (v_parent _ _ HV). }
  assert (Hgoal : exists s', Slices.Union a b s = Some (v, s') /\ Z.of_nat (length (Slices.parent s')) = n /\ Z.of_nat (length (Slices.rank s')) = n /\ u' = abs s').
  2:{ destruct Hgoal as (s' & ? & ? & ? & ->). exists v, s'. by split_and!. }
  unfold Slices.Union, Sets.Union in *. rewrite H1. rewrite E1 in HU. cbn [mbind option_bind] in *. rewrite H2. rewrite E2 in HU. cbn [mbind option_bind] in *.
  rewrite !(rank_abs n s2) by done. cbn [mbind option_bind]. destruct (Z.eqb_spec ra rb), (decide (ra = rb)); try done.
  { simplify_eq. exists s2. split; [done|]. by rewrite (v_parent _ _ HV2), (v_rank _ _ HV2). }
  destruct (aset_parent n s2 ra rb HV2 Ra) as [A1 B1]. destruct (aset_parent n s2 rb ra HV2 Rb) as [A2 B2].
  set (ka := Sets.rank_of _ ra) in *. set (kb := Sets.rank_of _ rb) in *. destruct (aset_rank n s2 ra (ka + 1) HV2 Ra) as [A3 B3].
  destruct (ka <? kb); [|destruct (kb <? ka)]; simplify_eq.
  - rewrite A1. cbn. eexists. split; [done|]. cbn. rewrite length_insert, (v_parent _ _ HV2), (v_rank _ _ HV2). cbn in B1. by rewrite B1.
  - rewrite A2. cbn. eexists. split; [done|]. cbn. rewrite length_insert, (v_parent _ _ HV2), (v_rank _ _ HV2). cbn in B2. by rewrite B2.
  - rewrite int64_small by lia. replace (u8 (ka + 1)) with (ka + 1) by (unfold u8; rewrite Z.mod_small; lia).
    rewrite A2, A3. cbn [mbind option_bind]. eexists. split; [done|]. cbn. rewrite !length_insert, (v_parent _ _ HV2), (v_rank _ _ HV2).
    cbn in B2, B3. by rewrite B2, B3.
Qed.

(** *** Fresh slices *)

Lemma singletons_seqZ l : Slices.singletons l = seqZ 0 (Z.of_nat (length l)).
Proof.
  apply list_eq. intros i. unfold Slices.singletons. rewrite list_lookup_imap. destruct (decide (i < length l)%nat) as [Hi|Hi].
  - destruct (lookup_lt_is_Some_2 l i Hi) as [x ->]. cbn. symmetry. apply lookup_seqZ. lia.
  - rewrite (lookup_ge_None_2 l) by lia. cbn. symmetry. apply lookup_seqZ_ge. lia.
Qed.

Definition fresh n : Slices.UnionFindSlice := Slices.mkUnionFindSlice (seqZ 0 n) (replicate (Z.to_nat n) 0).

Lemma NewSlice_fresh n : 0 <= n -> Slices.NewSlice n = Some (fresh n).
Proof. intros Hn. unfold Slices.NewSlice. case_match; [lia|]. unfold fresh. by rewrite singletons_seqZ, length_replicate, Z2Nat.id. Qed.

Lemma Reset_fresh n s : valid n s -> Slices.Reset s = fresh n.
Proof. intros HV. unfold Slices.Reset, fresh. rewrite singletons_seqZ, (v_parent _ _ HV). by rewrite <- (v_rank _ _ HV), Nat2Z.id. Qed.

(** The fresh slices are what making every element a set gives. *)
Lemma makes_fresh n : 0 <= n -> loop (Sets.exec 0) Sets.New (Sets.CMakeSet <$> seqZ 0 n) = Some (abs (fresh n)).
Proof.
  intros Hn. pattern n. apply natlike_ind; [done| |done]. clear n Hn. intros n Hn IH.
  replace (Z.succ n) with (n + 1) by lia. rewrite seqZ_app, fmap_app, loop_app, IH by lia. cbn [mbind option_bind].
  rewrite seqZ_cons, seqZ_nil by lia. cbn [fmap list_fmap loop Sets.exec mbind option_bind]. unfold Sets.MakeSet, abs, fresh. cbn [Slices.parent Slices.rank Sets.parent Sets.rank].
  assert (Hl : length (seqZ 0 n) = Z.to_nat n) by apply length_seqZ.
  assert (Hnone : map_seqZ (M:=gmap Z Z) 0 (seqZ 0 n) !! (0 + n) = None) by (apply lookup_map_seqZ_None; lia).
  rewrite Hnone. replace (Z.to_nat (n + 1)) with (Z.to_nat n + 1)%nat by lia. rewrite seqZ_app, replicate_add by lia.
  change (seqZ (0 + n) 1) with [0 + n]. cbn [replicate]. rewrite !map_seqZ_snoc, Hl, length_replicate. by rewrite Z2Nat.id by lia.
Qed.

Lemma fresh_tracks n : 0 <= n < 2 ^ 62 -> valid n (fresh n) /\ forall x y, same (abs (fresh n)) x y <-> x = y.
Proof.
  intros Hn. destruct (run_tracks 0 (Sets.CMakeSet <$> seqZ 0 n)) as (u & Hu & HT); [rewrite length_fmap, length_seqZ; lia|].
  rewrite makes_fresh in Hu by lia. simplify_eq. split.
  - split; [cbn; rewrite length_seqZ; lia|cbn; rewrite length_replicate; lia|apply HT].
  - intros x y. rewrite (t_same _ _ HT). split; [|by intros ->]. induction 1 as [|x y z Hj _ IH]; [done|].
    assert (Hno : forall l a b, joined (live_calls (Sets.CMakeSet <$> l)) a b -> False); [|by destruct Hj as [Hj|Hj]; apply Hno in Hj].
    clear. intros l a b. induction l as [|c l IH] using rev_ind; [unfold joined; cbn; set_solver|]. rewrite fmap_app. cbn [fmap list_fmap].
    rewrite live_calls_snoc. unfold joined. rewrite elem_of_app, list_elem_of_singleton. by intros [?|?].
Qed.

(** *** A client's calls on the slices *)

Definition call_in n (o : Slices.call) : Prop :=
  match o with
  | Slices.CFind x => in_range n x
  | Slices.CUnion a b | Slices.CConnected a b => in_range n a /\ in_range n b
  | Slices.CReset => True
  end.

(** The call of the maps a call of the slices is, and the calls it stands for: the
    slices hold every element from the start, so that resetting them makes the
    elements again. *)
Definition call_of (o : Slices.call) : Sets.call Z :=
  match o with
  | Slices.CFind x => Sets.CFind x
  | Slices.CUnion a b => Sets.CUnion a b
  | Slices.CConnected a b => Sets.CConnected a b
  | Slices.CReset => Sets.CReset
  end.
Definition makes n : list (Sets.call Z) := Sets.CMakeSet <$> seqZ 0 n.
Definition image n (o : Slices.call) : list (Sets.call Z) :=
  match o with Slices.CReset => Sets.CReset :: makes n | _ => [call_of o] end.

Definition stracks n (l : list (Sets.call Z)) s : Prop := valid n s /\ forall x y, same (abs s) x y <-> rtsc (joined l) x y.

Lemma stracks_fresh n : 0 <= n < 2 ^ 62 -> stracks n [] (fresh n).
Proof.
  intros Hn. destruct (fresh_tracks n Hn) as [HV Hs]. split; [done|]. intros x y. rewrite Hs. split; [by intros ->|].
  induction 1 as [|x y z [Hj|Hj] _ _]; [done|unfold joined in Hj; set_solver..].
Qed.

Lemma stracks_exec n (l : list (Sets.call Z)) s o : 0 <= n < 2 ^ 62 -> stracks n l s -> call_in n o -> exists s', Slices.exec s o = Some s' /\
  stracks n (match call_of o with Sets.CReset => [] | c => l ++ [c] end) s' /\ loop (Sets.exec 0) (abs s) (image n o) = Some (abs s').
Proof.
  intros Hn [HV Hs] Ho. pose proof (v_wf _ _ HV) as Hwf. destruct o as [x|a b|a b|]; cbn [Slices.exec call_of image loop Sets.exec mbind option_bind] in *.
  - destruct (Find_abs n s x HV Ho) as (r & s' & -> & HV' & E). rewrite E. exists s'. split; [done|]. split; [|done]. split; [done|].
    destruct (Find_spec 0 x (abs s) Hwf) as (r' & u' & E' & HF & _). rewrite E in E'. simplify_eq. intros y z.
    by rewrite (found_same x (abs s) _ _ _ Hwf HF), Hs, joined_other.
  - destruct Ho as [Ha Hb]. destruct (Union_abs n s a b ltac:(lia) HV Ha Hb) as (v & s' & -> & HV' & E). rewrite E. exists s'. split; [done|]. split; [|done]. split; [done|].
    destruct (Union_spec 0 a b (abs s) Hwf) as (v' & u' & E' & _ & _ & _ & Hj).
    { rewrite (valid_dom n), size_dom by done. cbn [abs Sets.parent]. rewrite size_map_seqZ, (v_parent _ _ HV). lia. }
    rewrite E in E'. simplify_eq. intros y z. rewrite Hj, joined_union. unfold joins. by rewrite !Hs.
  - destruct Ho as [Ha Hb]. destruct (Connected_abs n s a b HV Ha Hb) as (v & s' & -> & HV' & E). rewrite E. exists s'. split; [done|]. split; [|done]. split; [done|].
    destruct (Connected_spec 0 a b (abs s) Hwf) as (v' & u' & E' & _ & _ & _ & Hj). rewrite E in E'. simplify_eq. intros y z. by rewrite Hj, Hs, joined_other.
  - rewrite (Reset_fresh n s HV). exists (fresh n). split; [done|]. split; [by apply stracks_fresh|]. apply makes_fresh. lia.
Qed.

Lemma run_stracks n ops : 0 <= n < 2 ^ 62 -> Forall (call_in n) ops -> exists s,
  (s0 ← Slices.NewSlice n; loop Slices.exec s0 ops) = Some s /\ stracks n (live_calls (call_of <$> ops)) s /\
  loop (Sets.exec 0) Sets.New (makes n ++ flat_map (image n) ops) = Some (abs s).
Proof.
  intros Hn. rewrite NewSlice_fresh by lia. cbn [mbind option_bind]. induction ops as [|o ops IH] using rev_ind; intros Hops.
  - exists (fresh n). split; [done|]. split; [by apply stracks_fresh|]. cbn [flat_map]. rewrite app_nil_r. apply makes_fresh. lia.
  - apply Forall_app in Hops as [Hops Ho]. rewrite Forall_singleton in Ho. destruct (IH Hops) as (s & Hs & HT & HM).
    destruct (stracks_exec n _ s o Hn HT Ho) as (s' & Hs' & HT' & HM'). exists s'.
    rewrite loop_app, Hs. cbn [loop mbind option_bind]. rewrite Hs'. split; [done|]. rewrite fmap_app. cbn [fmap list_fmap]. rewrite live_calls_snoc.
    split; [by destruct o|]. rewrite flat_map_app. cbn [flat_map]. by rewrite app_nil_r, app_assoc, loop_app, HM.
Qed.

Lemma valid_ranks n s : n < 2 ^ 63 -> valid n s -> Forall (fun k => 0 <= k < 63) (Slices.rank s).
Proof.
  intros Hn HV. apply Forall_lookup. intros i k Hk. assert (Hi : in_range n (Z.of_nat i)).
  { apply lookup_lt_Some in Hk. unfold in_range. rewrite <- (v_rank _ _ HV). lia. }
  pose proof (rank_abs n s _ HV Hi) as Hr. rewrite aget_nat, Hk in Hr. injection Hr as ->.
  destruct (rep_total _ _ (Z.of_nat i) (wf_ordered _ (v_wf _ _ HV))) as [r Hr]; [by apply (valid_known n)|].
  pose proof (valid_rank n s _ r Hn HV Hr). pose proof (wf_nonneg _ (v_wf _ _ HV) (Z.of_nat i)).
  destruct (rep_rank _ _ _ _ (wf_ordered _ (v_wf _ _ HV)) Hr) as [Heq|?]; [rewrite Heq; done|]. cbn [abs Sets.rank] in *. lia.
Qed.

(** What [Connected] and [Union] answer on tracked slices. *)
Lemma stracks_answers n (l : list (Sets.call Z)) s a b : 0 <= n < 2 ^ 62 -> stracks n l s -> in_range n a -> in_range n b ->
  (exists v s', Slices.Connected a b s = Some (v, s') /\ (v = true <-> rtsc (joined l) a b)) /\
  (exists v s', Slices.Union a b s = Some (v, s') /\ stracks n (l ++ [Sets.CUnion a b]) s' /\ (v = true <-> ~ rtsc (joined l) a b)).
Proof.
  intros Hn [HV Hs] Ha Hb. pose proof (v_wf _ _ HV) as Hwf. split.
  - destruct (Connected_abs n s a b HV Ha Hb) as (v & s' & -> & HV' & E). exists v, s'. split; [done|].
    destruct (Connected_spec 0 a b (abs s) Hwf) as (v' & u' & E' & _ & _ & Hv & _). rewrite E in E'. simplify_eq. by rewrite Hv, Hs.
  - destruct (Union_abs n s a b ltac:(lia) HV Ha Hb) as (v & s' & HU & HV' & E). exists v, s'. split; [done|].
    destruct (stracks_exec n l s (Slices.CUnion a b) Hn (conj HV Hs) (conj Ha Hb)) as (s'' & Hs'' & HT & _). cbn [Slices.exec] in Hs''. rewrite HU in Hs''. cbn [fmap option_fmap option_map snd] in Hs''.
    injection Hs'' as <-. split; [done|]. destruct (Union_spec 0 a b (abs s) Hwf) as (v' & u' & E' & _ & _ & Hv & _).
    { rewrite (valid_dom n), size_dom by done. cbn [abs Sets.parent]. rewrite size_map_seqZ, (v_parent _ _ HV). lia. }
    rewrite E in E'. simplify_eq. by rewrite Hv, Hs.
Qed.
End slices.

(** ** Properties *)

(** after any sequence of calls on a new [UnionFind], none of whose loops runs
    forever, two elements are connected exactly when the equivalence generated by the
    pairs united since the last [Reset] relates them; [Union] says it merged two sets
    exactly when they were not, [Find] returns a member of its argument's set, and
    [Len] counts the elements mentioned since the last [Reset]. *)
Theorem sets_partition {K : Type} `{Countable K} (zero : K) (ops : list (Sets.call K)) : 2 * Z.of_nat (length ops) + 2 < 2 ^ 63 ->
  exists u, loop (Sets.exec zero) Sets.New ops = Some u /\ Sets.Len u = Z.of_nat (size (mentioned (live_calls ops))) /\
  forall a b, (exists v u', Sets.Connected zero a b u = Some (v, u') /\ (v = true <-> rtsc (joined (live_calls ops)) a b)) /\
    (exists v u', Sets.Union zero a b u = Some (v, u') /\ (v = true <-> ~ rtsc (joined (live_calls ops)) a b)) /\
    (exists r u', Sets.Find zero a u = Some (r, u') /\ rtsc (joined (live_calls ops)) a r).
Proof.
  intros Hs. destruct (run_tracks zero ops) as (u & Hu & HT); [lia|]. exists u. split; [done|]. pose proof (t_wf _ _ HT) as Hwf.
  split; [by rewrite <- (t_dom _ _ HT), size_dom|]. intros a b. split_and!.
  - destruct (Connected_spec zero a b u Hwf) as (v & u' & HC & _ & _ & Hv & _). exists v, u'. split; [done|]. by rewrite Hv, (t_same _ _ HT).
  - destruct (Union_spec zero a b u Hwf) as (v & u' & HU & _ & _ & Hv & _).
    { pose proof (tracks_size _ u a b HT). pose proof (live_calls_length ops). lia. }
    exists v, u'. split; [done|]. by rewrite Hv, (t_same _ _ HT).
  - destruct (Find_spec zero a u Hwf) as (r & u' & HF & Hfound & Hr). exists r, u'. split; [done|]. rewrite <- (t_same _ _ HT).
    apply (found_same a u u' _ _ Hwf Hfound). by apply same_rep.
Qed.

(** C19: a slice-backed union-find over [0 .. n-1] refines the map-backed one in which
    those elements were made first: calls within range never fail, the slices always
    stand for the maps the same calls give (with every element made again after a
    [Reset]), no one-byte rank ever reaches 63 and so none wraps, and [Connected] and
    [Union] answer by the equivalence the united pairs generate. *)
Theorem slices_refine_sets n ops : 0 <= n < 2 ^ 62 -> Forall (call_in n) ops -> exists s,
  (s0 ← Slices.NewSlice n; loop Slices.exec s0 ops) = Some s /\ Slices.Len s = n /\ Forall (fun k => 0 <= k < 63) (Slices.rank s) /\
  loop (Sets.exec 0) Sets.New (makes n ++ flat_map (image n) ops) = Some (abs s) /\
  forall a b, in_range n a -> in_range n b ->
    (exists v s', Slices.Connected a b s = Some (v, s') /\ (v = true <-> rtsc (joined (live_calls (call_of <$> ops))) a b)) /\
    (exists v s', Slices.Union a b s = Some (v, s') /\ (v = true <-> ~ rtsc (joined (live_calls (call_of <$> ops))) a b)).
Proof.
  intros Hn Hops. destruct (run_stracks n ops Hn Hops) as (s & Hs & HT & HM). exists s. split; [done|].
  split; [apply HT|]. split; [apply (valid_ranks n); [lia|apply HT]|]. split; [done|]. intros a b Ha Hb.
  destruct (stracks_answers n _ s a b Hn HT Ha Hb) as [HC (v & s' & HU & _ & Hv)]. split; [done|by exists v, s'].
Qed.

(** *** Witnesses *)

Lemma sets_partition_witness : exists u, loop (Sets.exec 0) Sets.New [Sets.CUnion 1 2; Sets.CReset; Sets.CUnion 3 4; Sets.CUnion 4 5; Sets.CFind 7] = Some u /\
  Sets.Len u = 4 /\ Sets.Connected 0 3 5 u = Some (true, u).
Proof.
  destruct (sets_partition 0 [Sets.CUnion 1 2; Sets.CReset; Sets.CUnion 3 4; Sets.CUnion 4 5; Sets.CFind 7]) as (u & Hu & HL & _); [cbn; lia|].
  exists u. split; [exact Hu|]. split; [rewrite HL; by vm_compute|]. vm_compute in Hu. injection Hu as <-. by vm_compute.
Defined.

Lemma slices_refine_sets_witness : exists s, (s0 ← Slices.NewSlice 5; loop Slices.exec s0 [Slices.CUnion 0 1; Slices.CUnion 2 3; Slices.CUnion 1 3]) = Some s /\
  Slices.Len s = 5 /\ fst <$> Slices.Connected 0 2 s = Some true /\ fst <$> Slices.Connected 0 4 s = Some false.
Proof.
  destruct (slices_refine_sets 5 [Slices.CUnion 0 1; Slices.CUnion 2 3; Slices.CUnion 1 3]) as (s & Hs & HL & _); [lia|repeat constructor; unfold in_range; lia|].
  exists s. split; [exact Hs|]. split; [exact HL|]. vm_compute in Hs. injection Hs as <-. by vm_compute.
Defined.
