(* ===== verification/Components.v ===== *)
(** * Connected components and spanning forests (src/search/wcc.go, wcc_parallel.go, kruskal.go)

    The algorithms that run a slice-backed union-find over a snapshot: the serial and
    the parallel weakly connected components, and Kruskal's minimum spanning forest.

    [None] is a run-time panic or a loop that runs out of fuel.  [ctx k] is what the
    [k]-th call of [ctx.Err()] returns.  The parallel workers share nothing but what
    none of them writes, so that each private forest is a value of its own. *)

From Stdlib Require Import ZArith Lia.
From stdpp Require Import gmap list_numbers.
From S2P Require Import Prelude Csr CsrGraph UnionFind.

Local Open Scope Z_scope.

(** [sort.Search(n, f)]: the smallest index in [i .. j) at which [f] holds, or [j]. *)
Fixpoint Search_loop (fuel : nat) (f : Z -> option bool) (i j : Z) : option Z :=
  match fuel with
  | O => None
  | S fuel =>
      if i <? j then
        let h := (i + j) / 2 in
        b ← f h;
        if (b : bool) then Search_loop fuel f i h else Search_loop fuel f (h + 1) j
      else Some i
  end.
Definition Search (n : Z) (f : Z -> option bool) : option Z := Search_loop (S (Z.to_nat n)) f 0 n.

Section components.
Context {W E : Type}.
Implicit Types (c : @CSR W) (uf : Slices.UnionFindSlice).

Definition wccBuildDense c (maxID : Z) : option (list Z * Z) :=
  mask ← LiveMask c;
  loop (fun '(dense, live) i =>
    m ← aget mask i;
    if (m : bool) then d ← aset dense i live; Some (d, live + 1)
    else d ← aset dense i (-1); Some (d, live))
    (replicate (Z.to_nat maxID) 0, 0) (seqZ 0 maxID).

Definition wccGhostComponent (maxID : Z) : list Z := replicate (Z.to_nat maxID) (-1).

(** The union of one arc's endpoints, [du] the dense index of its source. *)
Definition wcc_arc c (dense : list Z) (du : Z) uf (k : Z) : option Slices.UnionFindSlice :=
  e ← aget (edges c) k;
  dv ← aget dense e;
  if dv <? 0 then Some uf else snd <$> Slices.Union du dv uf.

Definition wcc_sweep c (dense : list Z) (maxID : Z) uf : option Slices.UnionFindSlice :=
  loop (fun uf u =>
    du ← aget dense u;
    if du <? 0 then Some uf
    else
      lo ← aget (vertices c) u; hi ← aget (vertices c) (u + 1);
      loop (wcc_arc c dense du) uf (seqZ lo (hi - lo)))
    uf (seqZ 0 maxID).

Definition relabel_step (dense : list Z) (st : list Z * gmap Z Z * Z * Slices.UnionFindSlice) (i : Z) :
    option (list Z * gmap Z Z * Z * Slices.UnionFindSlice) :=
  let '(component, rootRemap, next, uf) := st in
  di ← aget dense i;
  if di <? 0 then Some (component, rootRemap, next, uf)
  else
    '(r, uf) ← Slices.Find di uf;
    match rootRemap !! r with
    | Some id => component ← aset component i id; Some (component, rootRemap, next, uf)
    | None => component ← aset component i next; Some (component, <[r:=next]> rootRemap, next + 1, uf)
    end.
Definition wccRelabel uf (dense : list Z) (maxID : Z) : option (list Z * Z) :=
  '(component, _, next, _) ←
    loop (relabel_step dense) (wccGhostComponent maxID, ∅, 0, uf) (seqZ 0 maxID);
  Some (component, next).

Definition WCCCtx (ctx : nat -> option E) c : option (E + list Z * Z) :=
  match ctx 0%nat with
  | Some e => Some (inl e)
  | None =>
      let maxID := MaxNodeID c in
      if maxID =? 0 then Some (inr ([], 0))
      else
        '(dense, live) ← wccBuildDense c maxID;
        if live =? 0 then Some (inr (wccGhostComponent maxID, 0))
        else
          uf ← Slices.NewSlice live;
          uf ← wcc_sweep c dense maxID uf;
          match ctx 1%nat with
          | Some e => Some (inl e)
          | None => r ← wccRelabel uf dense maxID; Some (inr r)
          end
  end.

(** ** The parallel sweep *)

Definition wccParallelMinEdges : Z := Z.shiftl 1 16.

(** The inner loop that moves [u] to the source that owns edge [k]. *)
Fixpoint row_of (fuel : nat) (verts : list Z) (k u : Z) : option Z :=
  match fuel with
  | O => None
  | S fuel => v ← aget verts (u + 1); if v <=? k then row_of fuel verts k (u + 1) else Some u
  end.

Definition wccUnionEdgeRange uf (dense : list Z) c (elo ehi maxID : Z) : option Slices.UnionFindSlice :=
  if ehi <=? elo then Some uf
  else
    u ← Search maxID (fun i => v ← aget (vertices c) (i + 1); Some (elo <? v));
    '(uf, _) ← loop (fun '(uf, u) k =>
      u ← row_of (S (length (vertices c))) (vertices c) k u;
      e ← aget (edges c) k;
      dv ← aget dense e;
      if dv <? 0 then Some (uf, u)
      else du ← aget dense u; '(_, uf) ← Slices.Union du dv uf; Some (uf, u))
      (uf, u) (seqZ elo (ehi - elo));
    Some uf.

Fixpoint optimal_loop (fuel : nat) (ratio w : Z) : option Z :=
  match fuel with
  | O => None
  | S fuel => if (w + 1) * (w + 1) <=? ratio then optimal_loop fuel ratio (w + 1) else Some w
  end.
Definition wccMergeOptimalWorkers (numEdges live : Z) : option Z :=
  if live <=? 0 then Some 1
  else let ratio := Z.quot numEdges live in optimal_loop (S (Z.to_nat ratio)) ratio 1.

Definition wccMergeInto (global local : Slices.UnionFindSlice) (live : Z) : option Slices.UnionFindSlice :=
  '(global, _) ← loop (fun '(global, local) n =>
    '(r, local) ← Slices.Find n local;
    if r =? n then Some (global, local) else '(_, global) ← Slices.Union n r global; Some (global, local))
    (global, local) (seqZ 0 live);
  Some global.

(** [procs] is what [runtime.GOMAXPROCS(0)] returns. *)
Definition parallel_workers (procs numEdges live numWorkers : Z) : option Z :=
  let numWorkers := if numWorkers <=? 0 then procs else numWorkers in
  let numWorkers := if numEdges <? numWorkers then numEdges else numWorkers in
  opt ← wccMergeOptimalWorkers numEdges live;
  Some (if opt <? numWorkers then opt else numWorkers).

Definition parallel_forest c (dense : list Z) (live maxID numWorkers : Z) : option Slices.UnionFindSlice :=
  let numEdges := Z.of_nat (length (edges c)) in
  if (numWorkers <=? 1) || (numEdges <? wccParallelMinEdges) then
    global ← Slices.NewSlice live;
    wccUnionEdgeRange global dense c 0 numEdges maxID
  else
    locals ← mapM (fun w =>
      let elo := Z.quot (int64 (w * numEdges)) numWorkers in
      let ehi := Z.quot (int64 ((w + 1) * numEdges)) numWorkers in
      uf ← Slices.NewSlice live;
      wccUnionEdgeRange uf dense c elo ehi maxID) (seqZ 0 numWorkers);
    global ← Slices.NewSlice live;
    loop (fun global local => wccMergeInto global local live) global locals.

Definition WCCParallelCtx (procs : Z) (ctx : nat -> option E) c (numWorkers : Z) : option (E + list Z * Z) :=
  match ctx 0%nat with
  | Some e => Some (inl e)
  | None =>
      let maxID := MaxNodeID c in
      if maxID =? 0 then Some (inr ([], 0))
      else
        '(dense, live) ← wccBuildDense c maxID;
        if live =? 0 then Some (inr (wccGhostComponent maxID, 0))
        else
          numWorkers ← parallel_workers procs (Z.of_nat (length (edges c))) live numWorkers;
          global ← parallel_forest c dense live maxID numWorkers;
          match ctx 1%nat with
          | Some e => Some (inl e)
          | None => r ← wccRelabel global dense maxID; Some (inr r)
          end
  end.
End components.

(** ** Kruskal's minimum spanning forest *)

(** What the algorithm uses of a weight type: its zero value, comparison and sum, and
    the test for the floating-point values that have no place in the order. *)
Class Weight (W : Type) := {
  w_zero : W;
  w_lt : W -> W -> bool;
  w_add : W -> W -> W;
  floatInvalid : W -> bool;
}.

Section kruskal.
Context {W E : Type} `{!Weight W}.
Implicit Types (c : @CSR W).

Record MSTEdge := mkMSTEdge { Weight_ : W; From : Z; To : Z }.

(** [sort.Slice(cand, ...)] with the algorithm's comparison. *)
Context (sortByWeight : list MSTEdge -> list MSTEdge).

Inductive mst_error := ErrInvalidInput | Cancelled (e : E).

Definition anyFloatInvalid (ws : option (list W)) : bool :=
  match ws with Some ws => existsb floatInvalid ws | None => false end.

Definition kruskal_candidates c (dense : list Z) (maxID : Z) : option (list MSTEdge) :=
  loop (fun cand u =>
    du ← aget dense u;
    if du <? 0 then Some cand
    else
      lo ← aget (vertices c) u; hi ← aget (vertices c) (u + 1);
      loop (fun cand k =>
        v ← aget (edges c) k;
        if v <? u then Some cand
        else
          w ← match weights c with None => Some w_zero | Some ws => aget ws k end;
          Some (cand ++ [mkMSTEdge w u v])) cand (seqZ lo (hi - lo)))
    [] (seqZ 0 maxID).

(** The scan of the sorted candidates; [i] is the index of the next one and [calls]
    the number of calls of [ctx.Err()] made before. *)
Fixpoint kruskal_scan (ctx : nat -> option E) (dense : list Z) (live : Z) (i calls : nat) (uf : Slices.UnionFindSlice)
    (out : list MSTEdge) (total : W) (cand : list MSTEdge) : option (mst_error * W + list MSTEdge * W) :=
  match cand with
  | [] => Some (inr (out, total))
  | e :: rest =>
      let checks := Z.land (Z.of_nat i) 4095 =? 0 in
      match (if checks then ctx calls else None) with
      | Some err => Some (inl (Cancelled err, total))
      | None =>
          let calls := (if checks then S calls else calls) in
          a ← aget dense (From e); b ← aget dense (To e);
          '(merged, uf) ← Slices.Union a b uf;
          if (merged : bool) then
            let out := out ++ [e] in
            let total := w_add total (Weight_ e) in
            if Z.of_nat (length out) =? live - 1 then Some (inr (out, total))
            else kruskal_scan ctx dense live (S i) calls uf out total rest
          else kruskal_scan ctx dense live (S i) calls uf out total rest
      end
  end.

Definition KruskalMSTCtx (ctx : nat -> option E) c : option (mst_error * W + list MSTEdge * W) :=
  match ctx 0%nat with
  | Some e => Some (inl (Cancelled e, w_zero))
  | None =>
      let maxID := MaxNodeID c in
      if maxID <=? 1 then Some (inr ([], w_zero))
      else if anyFloatInvalid (weights c) then Some (inl (ErrInvalidInput, w_zero))
      else
        '(dense, live) ← wccBuildDense c maxID;
        if live <=? 1 then Some (inr ([], w_zero))
        else
          cand ← kruskal_candidates c dense maxID;
          uf ← Slices.NewSlice live;
          kruskal_scan ctx dense live 0 1 uf [] w_zero (sortByWeight cand)
  end.
End kruskal.
