(* ===== verification/ComponentsFacts.v ===== *)
(** * Connected components: the facts

    The nodes an arc touches and their dense indices, the sweeps as sequences of unions
    over the arcs, and the labels a settled union-find gives. *)

From Stdlib Require Import ZArith Lia.
From stdpp Require Import gmap list_numbers relations.
From S2P Require Import Prelude Csr CsrRows CsrGraph CsrScatter CsrViews CsrSymmetric UnionFind UnionFindProps Components.

Local Open Scope Z_scope.

Lemma rtsc_iff {A} (R R' : relation A) (x y : A) : (forall a b : A, R a b <-> R' a b) -> rtsc R x y <-> rtsc R' x y.
Proof. intros HR. split; apply (rtsc_congruence id); intros a b Hab; by apply HR. Qed.

(** ** Union-finds over lists of pairs *)

Section pairs.
Implicit Types (ps : list (Z * Z)) (s : Slices.UnionFindSlice) (x y a b n : Z).

Definition linked ps a b : Prop := (a, b) ∈ ps.

(** The slices of the elements [0 .. n-1] in which the pairs [ps] were united. *)
Definition parts n ps s : Prop := valid n s /\ forall x y, same (abs s) x y <-> rtsc (linked ps) x y.

Lemma joined_pairs ps a b : joined ((fun p => Sets.CUnion p.1 p.2) <$> ps) a b <-> linked ps a b.
Proof. unfold joined, linked. rewrite list_elem_of_fmap. split; [intros ([u v] & [= -> ->] & Hin); done|intros Hin; by exists (a, b)]. Qed.

Lemma parts_stracks n ps s : parts n ps s <-> stracks n ((fun p => Sets.CUnion p.1 p.2) <$> ps) s.
Proof.
  unfold parts, stracks. split; intros [HV Hs]; (split; [done|]); intros x y; rewrite Hs; apply rtsc_iff; intros a b; by rewrite joined_pairs.
Qed.

Lemma parts_new n : 0 <= n < 2 ^ 62 -> exists s, Slices.NewSlice n = Some s /\ parts n [] s.
Proof. intros Hn. exists (fresh n). split; [apply NewSlice_fresh; lia|]. apply parts_stracks. by apply stracks_fresh. Qed.

Lemma parts_union n ps s a b : 0 <= n < 2 ^ 62 -> parts n ps s -> in_range n a -> in_range n b -> exists v s', Slices.Union a b s = Some (v, s') /\
  parts n (ps ++ [(a, b)]) s' /\ (v = true <-> ~ rtsc (linked ps) a b).
Proof.
  intros Hn HP Ha Hb. pose proof (proj1 (parts_stracks n ps s) HP) as HT. destruct (stracks_answers n _ s a b Hn HT Ha Hb) as [_ (v & s' & HU & HT' & Hv)].
  exists v, s'. split; [done|]. split; [apply parts_stracks; by rewrite fmap_app|]. rewrite Hv.
  by rewrite (rtsc_iff (joined _) (linked ps)) by (intros; apply joined_pairs).
Qed.

Lemma parts_unions n ps qs s : 0 <= n < 2 ^ 62 -> parts n ps s -> Forall (fun p => in_range n p.1 /\ in_range n p.2) qs ->
  exists s', loop (fun s p => snd <$> Slices.Union p.1 p.2 s) s qs = Some s' /\ parts n (ps ++ qs) s'.
Proof.
  intros Hn HP Hqs. revert ps s HP. induction Hqs as [|[a b] qs [Ha Hb] _ IH]; intros ps s HP; [exists s; by rewrite app_nil_r|].
  destruct (parts_union n ps s a b Hn HP Ha Hb) as (v & s1 & HU & HP1 & _). destruct (IH _ _ HP1) as (s' & Hs' & HP').
  exists s'. cbn [loop]. cbn [fst snd]. rewrite HU. cbn. split; [done|]. by rewrite <- app_assoc in HP'.
Qed.

Lemma parts_ext n ps qs s : (forall x y, rtsc (linked ps) x y <-> rtsc (linked qs) x y) -> parts n ps s -> parts n qs s.
Proof. intros He [HV Hs]. split; [done|]. intros x y. by rewrite Hs, He. Qed.

(** Renaming the elements injectively renames the classes. *)
Lemma linked_rename (f : Z -> Z) (P : Z -> Prop) ps i j : (forall i j, P i -> P j -> f i = f j -> i = j) -> Forall (fun p => P p.1 /\ P p.2) ps ->
  P i -> P j -> rtsc (linked ((fun p => (f p.1, f p.2)) <$> ps)) (f i) (f j) <-> rtsc (linked ps) i j.
Proof.
  intros Hinj HP Hi Hj. rewrite Forall_forall in HP. split.
  - intros Hp. enough (Hgen : forall y, rtsc (linked ((fun p => (f p.1, f p.2)) <$> ps)) (f i) y -> exists k, P k /\ y = f k /\ rtsc (linked ps) i k).
    { destruct (Hgen _ Hp) as (k & Hk & Hjk & Hik). by rewrite (Hinj j k). }
    clear Hp. apply rtc_ind_r; [by exists i|]. intros y z _ Hyz (k & Hk & -> & Hik).
    assert (Hstep : exists a b, (a, b) ∈ ps /\ ((f k = f a /\ z = f b) \/ (f k = f b /\ z = f a))).
    { destruct Hyz as [Hyz|Hyz]; unfold linked in Hyz; apply list_elem_of_fmap in Hyz as ([a b] & [= -> ->] & He); exists a, b; auto. }
    destruct Hstep as (a & b & He & Hcase). destruct (HP _ He) as [Pa Pb]. cbn in Pa, Pb.
    destruct Hcase as [[Hk' ->]|[Hk' ->]]; apply Hinj in Hk'; try done; subst k.
    + exists b. split; [done|]. split; [done|]. etrans; [done|]. by apply rtsc_lr.
    + exists a. split; [done|]. split; [done|]. etrans; [done|]. by apply rtsc_rl.
  - apply (rtsc_congruence f). intros a b Hab. unfold linked. apply list_elem_of_fmap. by exists (a, b).
Qed.

(** A lookup keeps every representative. *)
Lemma find_keeps n s x : valid n s -> in_range n x -> exists r s', Slices.Find x s = Some (r, s') /\ valid n s' /\ in_range n r /\
  rep (Sets.parent (abs s)) x r /\ forall y q, rep (Sets.parent (abs s')) y q <-> rep (Sets.parent (abs s)) y q.
Proof.
  intros HV Hx. destruct (Find_abs n s x HV Hx) as (r & s' & HF & HV' & E). exists r, s'. split; [done|]. split; [done|].
  destruct (Find_spec 0 x (abs s) (v_wf _ _ HV)) as (r' & u' & E' & Hf & Hr). rewrite E in E'. simplify_eq.
  assert (Hk : forall y q, rep (Sets.parent (abs s')) y q <-> rep (Sets.parent (abs s)) y q).
  { intros y q. rewrite (f_rep _ _ _ Hf). split; [|by left]. intros [?|(Hnone & _)]; [done|].
    destruct (proj2 (valid_known n s x HV) Hx) as [p Hp]. simplify_eq. }
  split; [by eapply valid_root|]. split; [by apply Hk|done].
Qed.
End pairs.

(** ** Dense indices *)

Section dense.
Implicit Types (dense : list Z) (i j k : Z).

(** The entry of node [i]. *)
Definition didx dense i : Z := default (-1) (aget dense i).

(** Below [upto], the nodes of [P] are numbered from 0 in ascending order. *)
Record dense_ok (P : Z -> Prop) (upto : Z) dense (live : Z) : Prop := {
  dn_bound : 0 <= live <= upto;
  dn_live : forall i, 0 <= i < upto -> P i -> 0 <= didx dense i < live;
  dn_ghost : forall i, 0 <= i < upto -> ~ P i -> didx dense i = -1;
  dn_mono : forall i j, 0 <= i < j -> j < upto -> P i -> P j -> didx dense i < didx dense j;
  dn_onto : forall d, 0 <= d < live -> exists i, 0 <= i < upto /\ P i /\ didx dense i = d;
}.

Lemma didx_set dense i d dense' : aset dense i d = Some dense' -> forall j, didx dense' j = if decide (j = i) then d else didx dense j.
Proof.
  unfold aset. case_decide as Hi; [|done]. intros [= <-] j. unfold didx, aget. destruct (decide (j = i)) as [->|Hne].
  - by rewrite decide_True, list_lookup_insert_eq by lia.
  - destruct (decide (0 <= j)); [|done]. by rewrite list_lookup_insert_ne by lia.
Qed.

Lemma didx_get dense i : 0 <= i < Z.of_nat (length dense) -> aget dense i = Some (didx dense i).
Proof. intros Hi. unfold didx. by destruct (aget_is_Some dense i Hi) as [d ->]. Qed.

Lemma dense_inj P n dense live i j : dense_ok P n dense live -> 0 <= i < n -> 0 <= j < n -> P i -> P j -> didx dense i = didx dense j -> i = j.
Proof.
  intros HD Hi Hj Pi Pj He. destruct (Z.lt_trichotomy i j) as [Hlt|[?|Hlt]]; [|done|].
  - pose proof (dn_mono _ _ _ _ HD i j ltac:(lia) ltac:(lia) Pi Pj). lia.
  - pose proof (dn_mono _ _ _ _ HD j i ltac:(lia) ltac:(lia) Pj Pi). lia.
Qed.

(** One more node of [P], or of the others. *)
Lemma dense_live P i dense live dense' : dense_ok P i dense live -> 0 <= i -> P i ->
  (forall j, didx dense' j = if decide (j = i) then live else didx dense j) -> dense_ok P (i + 1) dense' (live + 1).
Proof.
  intros HD Hi Pi Hd. pose proof (dn_bound _ _ _ _ HD). split; [lia|..].
  - intros j Hj Pj. rewrite Hd. case_decide; [lia|]. pose proof (dn_live _ _ _ _ HD j ltac:(lia) Pj). lia.
  - intros j Hj Pj. rewrite Hd. case_decide; [by subst|]. apply (dn_ghost _ _ _ _ HD); [lia|done].
  - intros j k Hj Hk Pj Pk. rewrite !Hd. rewrite (decide_False (P:=j = i)) by lia. case_decide.
    + pose proof (dn_live _ _ _ _ HD j ltac:(lia) Pj). lia.
    + apply (dn_mono _ _ _ _ HD); [lia|lia|done|done].
  - intros d Hdl. destruct (decide (d = live)) as [->|].
    + exists i. rewrite Hd, decide_True by done. split; [lia|done].
    + destruct (dn_onto _ _ _ _ HD d ltac:(lia)) as (j & Hj & Pj & Hdj). exists j. rewrite Hd, decide_False by lia. split; [lia|done].
Qed.

Lemma dense_ghost P i dense live dense' : dense_ok P i dense live -> 0 <= i -> ~ P i ->
  (forall j, didx dense' j = if decide (j = i) then -1 else didx dense j) -> dense_ok P (i + 1) dense' live.
Proof.
  intros HD Hi Pi Hd. pose proof (dn_bound _ _ _ _ HD). split; [lia|..].
  - intros j Hj Pj. rewrite Hd. case_decide; [by subst|]. apply (dn_live _ _ _ _ HD); [lia|done].
  - intros j Hj Pj. rewrite Hd. case_decide; [done|]. apply (dn_ghost _ _ _ _ HD); [lia|done].
  - intros j k Hj Hk Pj Pk. rewrite !Hd. rewrite (decide_False (P:=j = i)) by lia. case_decide; [by subst|].
    apply (dn_mono _ _ _ _ HD); [lia|lia|done|done].
  - intros d Hdl. destruct (dn_onto _ _ _ _ HD d Hdl) as (j & Hj & Pj & Hdj). exists j. rewrite Hd, decide_False by lia. split; [lia|done].
Qed.

Lemma aset_length {B} (xs : list B) i x xs' : aset xs i x = Some xs' -> length xs' = length xs.
Proof. unfold aset. case_decide; [|done]. intros [= <-]. apply length_insert. Qed.
End dense.

(** ** The nodes an arc touches *)

Section live.
Context {W : Type}.
Implicit Types (c : @CSR W) (m : list bool).
Abbreviation slot := (Z * option W * option Z)%type.

Section marks.
Context (n : Z).

(** [m] marks exactly the nodes of [P]. *)
Definition marks m (P : Z -> Prop) : Prop :=
  Z.of_nat (length m) = n /\ forall i, 0 <= i < n -> exists b, aget m i = Some b /\ (b = true <-> P i).

Lemma marks_ext m P Q : (forall i, 0 <= i < n -> P i <-> Q i) -> marks m P -> marks m Q.
Proof. intros HPQ [Hl HM]. split; [done|]. intros i Hi. destruct (HM i Hi) as (b & Hb & HP). exists b. by rewrite <- HPQ. Qed.

Lemma marks_set m P i : marks m P -> 0 <= i < n -> exists m', aset m i true = Some m' /\ marks m' (fun j => P j \/ j = i).
Proof.
  intros [Hl HM] Hi. exists (<[Z.to_nat i:=true]> m). split; [apply aset_Some; lia|]. split; [by rewrite length_insert|].
  intros j Hj. destruct (HM j Hj) as (b & Hb & HP). unfold aget in *. rewrite decide_True in * by lia. destruct (decide (j = i)) as [->|Hne].
  - exists true. rewrite list_lookup_insert_eq by lia. split; [done|tauto].
  - exists b. rewrite list_lookup_insert_ne by lia. split; [done|]. rewrite HP. tauto.
Qed.

Lemma marks_sets (xs : list slot) m P : marks m P -> (forall x, x ∈ xs -> 0 <= dst x < n) ->
  exists m', loop (fun m x => aset m (dst x) true) m xs = Some m' /\ marks m' (fun j => P j \/ exists x, x ∈ xs /\ j = dst x).
Proof.
  revert m P. induction xs as [|x xs IH]; intros m P HM Hx.
  { exists m. split; [done|]. eapply marks_ext; [|done]. intros i _. set_solver. }
  destruct (marks_set m P (dst x) HM ltac:(apply Hx; set_solver)) as (m1 & E1 & HM1).
  destruct (IH m1 _ HM1) as (m' & E' & HM'); [set_solver|]. exists m'. cbn [loop]. rewrite E1. cbn. split; [done|].
  eapply marks_ext; [|done]. intros i _. cbn. set_solver.
Qed.
End marks.

Section snapshot.
Context (s : bool * bool) (l : list slot) (c : @CSR W) (H : wf s l c).
Abbreviation n := (MaxNodeID c).
Abbreviation A := (arc_list c l).

Lemma arc_list_iff e : e ∈ A <-> 0 <= fst e < n /\ snd e ∈ run (vertices c) (fst e) l.
Proof.
  split; [by apply (arc_list_in s)|]. destruct e as [u x]. cbn. intros [Hu Hx]. unfold arc_list. apply list_elem_of_In, in_flat_map.
  exists u. split; [apply list_elem_of_In, elem_of_seqZ; lia|]. apply list_elem_of_In, list_elem_of_fmap. by exists x.
Qed.

Lemma arc_dst e : e ∈ A -> 0 <= fst e < n /\ 0 <= dst (snd e) < n.
Proof. intros He. apply arc_list_iff in He as [Hu Hx]. split; [done|]. apply (wf_range _ _ _ H). by eapply run_in. Qed.

(** [i] is an end of an arc. *)
Definition incident (i : Z) : Prop := exists e, e ∈ A /\ (i = fst e \/ i = dst (snd e)).

Lemma incident_range i : incident i -> 0 <= i < n.
Proof. intros (e & He & [->| ->]); apply arc_dst in He; tauto. Qed.

Lemma run_bounds u : 0 <= u < n -> exists lo hi, aget (vertices c) u = Some lo /\ aget (vertices c) (u + 1) = Some hi /\
  0 <= lo <= hi /\ hi <= Z.of_nat (length l) /\ run (vertices c) u l = slice lo hi l.
Proof.
  intros Hu. pose proof (max_length c s l H) as Hm. pose proof (wf_offsets _ _ _ H) as HO. exists (vert (vertices c) u), (vert (vertices c) (u + 1)).
  rewrite !vert_get by lia. split; [done|]. split; [done|]. pose proof (vert_bounds _ _ u HO ltac:(lia)). pose proof (vert_bounds _ _ (u + 1) HO ltac:(lia)).
  pose proof (o_mono _ _ HO u ltac:(lia)). split; [lia|]. split; [lia|done].
Qed.

Lemma slice_empty {B} lo hi (xs : list B) : 0 <= lo <= hi -> hi <= Z.of_nat (length xs) -> slice lo hi xs = [] <-> lo = hi.
Proof.
  intros Hlo Hhi. unfold slice. split; [|intros ->; by rewrite Z.sub_diag].
  intros He%(f_equal length). rewrite length_take, length_drop in He. cbn in He. lia.
Qed.

Lemma LiveMask_marks : exists m, LiveMask c = Some m /\ marks n m incident.
Proof.
  pose proof (max_length c s l H) as Hm. assert (Hn : 0 <= n) by (unfold MaxNodeID; lia).
  unfold LiveMask. set (P := fun from m => marks n m (fun j => exists e, e ∈ A /\ fst e < from /\ (j = fst e \/ j = dst (snd e)))).
  destruct (loop_seqZ (fun mask from => start ← aget (vertices c) from; end_ ← aget (vertices c) (from + 1);
    if start <? end_ then m ← aset mask from true; loop (fun m k => e ← aget (edges c) k; aset m e true) m (seqZ start (end_ - start)) else Some mask)
    P 0 n (replicate (Z.to_nat n) false)) as (m & E & HP).
  - done.
  - split; [rewrite length_replicate; lia|]. intros i Hi. exists false. unfold aget. rewrite decide_True, lookup_replicate_2 by lia.
    split; [done|]. split; [done|]. intros (e & He & Hlt & _). apply arc_dst in He. lia.
  - intros u m Hu HP. destruct (run_bounds u Hu) as (lo & hi & -> & -> & Hlo & Hhi & Hrun). cbn [mbind option_bind].
    assert (Hsplit : forall j, (exists e, e ∈ A /\ fst e < u + 1 /\ (j = fst e \/ j = dst (snd e))) <->
      (exists e, e ∈ A /\ fst e < u /\ (j = fst e \/ j = dst (snd e))) \/ (exists x, x ∈ slice lo hi l /\ (j = u \/ j = dst x))).
    { intros j. rewrite <- Hrun. split.
      - intros ([v x] & He & Hlt & Hj). cbn in *. destruct (decide (v = u)) as [->|]; [right; exists x; apply arc_list_iff in He; tauto|].
        left. exists (v, x). cbn. split; [done|]. split; [lia|done].
      - intros [(e & He & Hlt & Hj)|(x & Hx & Hj)]; [exists e; split; [done|]; split; [lia|done]|].
        exists (u, x). rewrite arc_list_iff. cbn. split; [done|]. split; [lia|done]. }
    destruct (Z.ltb_spec lo hi) as [Hlt|Hge].
    + destruct (marks_set n m _ u HP Hu) as (m1 & E1 & HM1). rewrite E1. cbn [mbind option_bind].
      rewrite (loop_slots _ (fun m x => aset m (dst x) true) l) by first [lia|intros st k x Hx; by rewrite (edge_get s l c k x H Hx)].
      replace (lo + (hi - lo)) with hi by lia.
      destruct (marks_sets n (slice lo hi l) m1 _ HM1) as (m' & E' & HM').
      { intros x Hx. apply (wf_range _ _ _ H). rewrite <- Hrun in Hx. by eapply run_in. }
      exists m'. split; [done|]. eapply marks_ext; [|done]. intros j _. cbn. rewrite Hsplit.
      assert (Hne : exists x, x ∈ slice lo hi l).
      { destruct (slice lo hi l) as [|x xs] eqn:Es; [apply slice_empty in Es; lia|]. exists x. set_solver. }
      destruct Hne as [x0 Hx0]. split; [|naive_solver]. intros [[?|?]|(x & Hx & ?)]; [by left|right; by exists x0; auto|right; exists x; auto].
    + exists m. split; [done|]. eapply marks_ext; [|done]. intros j _. rewrite Hsplit. split; [by left|]. intros [?|(x & Hx & _)]; [done|].
      assert (Es : slice lo hi l = []) by (apply slice_empty; lia). rewrite Es in Hx. by apply elem_of_nil in Hx.
  - exists m. split; [done|]. eapply marks_ext; [|done]. intros i _. split; [intros (e & He & _ & Hi); by exists e|].
    intros (e & He & Hi). exists e. split; [done|]. split; [apply arc_dst in He; lia|done].
Qed.

Lemma incident_dec i : incident i \/ ~ incident i.
Proof.
  destruct (decide (0 <= i < n)) as [Hi|Hi]; [|right; intros Hx; apply Hi; by apply incident_range].
  destruct LiveMask_marks as (m & _ & _ & HM). destruct (HM i Hi) as ([] & _ & Hb); [left; by apply Hb|right; by rewrite <- Hb].
Qed.

(** ** The dense numbering and the sweep *)

Lemma dense_built : exists dense live, wccBuildDense c n = Some (dense, live) /\ Z.of_nat (length dense) = n /\ dense_ok incident n dense live.
Proof.
  assert (Hn : 0 <= n) by (unfold MaxNodeID; lia). destruct LiveMask_marks as (m & E & Hl & HM). unfold wccBuildDense. rewrite E. cbn [mbind option_bind].
  destruct (loop_seqZ (fun '(dense, live) i => m ← aget m i; if (m : bool) then d ← aset dense i live; Some (d, live + 1) else d ← aset dense i (-1); Some (d, live))
    (fun i st => Z.of_nat (length st.1) = n /\ dense_ok incident i st.1 st.2) 0 n (replicate (Z.to_nat n) 0, 0)) as ([dense live] & Eq & HL & HD).
  - done.
  - cbn [fst snd]. split; [rewrite length_replicate; lia|]. split; intros; lia.
  - intros i [dense live] Hi [HL HD]. cbn [fst snd] in *. destruct (HM i ltac:(lia)) as (b & -> & Hb). cbn [mbind option_bind].
    assert (Hset : forall d, exists dense', aset dense i d = Some dense') by (intros d; eexists; apply aset_Some; lia).
    destruct b.
    + destruct (Hset live) as [dense' Es]. rewrite Es. cbn. exists (dense', live + 1). split; [done|]. cbn. split; [by rewrite (aset_length _ _ _ _ Es)|].
      apply (dense_live _ _ dense); [done|lia|by apply Hb|by apply didx_set].
    + destruct (Hset (-1)) as [dense' Es]. rewrite Es. cbn. exists (dense', live). split; [done|]. cbn. split; [by rewrite (aset_length _ _ _ _ Es)|].
      apply (dense_ghost _ _ dense); [done|lia|by rewrite <- Hb|by apply didx_set].
  - exists dense, live. done.
Qed.

(** The endpoints of the arcs, as dense indices. *)
Definition dense_pairs (dense : list Z) : list (Z * Z) := (fun e => (didx dense (fst e), didx dense (dst (snd e)))) <$> A.

Section sweep.
Context (dense : list Z) (live : Z) (HL : Z.of_nat (length dense) = n) (HD : dense_ok incident n dense live).

Lemma arc_live e : e ∈ A -> 0 <= didx dense (fst e) < live /\ 0 <= didx dense (dst (snd e)) < live.
Proof. intros He. pose proof (arc_dst e He). split; apply (dn_live _ _ _ _ HD); try tauto; exists e; auto. Qed.

Lemma dense_pairs_in : Forall (fun p => in_range live p.1 /\ in_range live p.2) (dense_pairs dense).
Proof. apply Forall_fmap, Forall_forall. intros e He. by apply arc_live. Qed.

(** A node with arcs of its own has a dense index. *)
Lemma sources_live u : 0 <= u < n -> didx dense u < 0 -> run (vertices c) u l = [].
Proof.
  intros Hu Hd. destruct (run (vertices c) u l) as [|x xs] eqn:Er; [done|]. assert (He : (u, x) ∈ A) by (apply arc_list_iff; cbn; rewrite Er; set_solver).
  apply arc_live in He. cbn in He. lia.
Qed.

(** A loop over the live sources and their arcs is a loop over the arcs. *)
Lemma live_loop {S} (f : S -> Z -> Z -> option S) (g : S -> Z * slot -> option S) st :
  (forall st u k x, 0 <= u < n -> aget l k = Some x -> f st u k = g st (u, x)) ->
  loop (fun st u => du ← aget dense u; if du <? 0 then Some st else lo ← aget (vertices c) u; hi ← aget (vertices c) (u + 1);
    loop (fun st k => f st u k) st (seqZ lo (hi - lo))) st (seqZ 0 n) = loop g st A.
Proof.
  intros Hfg. rewrite <- (for_arcs_list s l c f g st H Hfg). unfold for_arcs. pose proof (max_length c s l H) as Hm.
  replace (Z.of_nat (length (vertices c)) - 1) with n by lia. apply loop_ext. intros st' u Hu. apply elem_of_seqZ in Hu.
  rewrite (didx_get dense u) by lia. cbn [mbind option_bind]. destruct (Z.ltb_spec (didx dense u) 0) as [Hd|]; [|done].
  destruct (run_bounds u ltac:(lia)) as (lo & hi & -> & -> & Hlo & Hhi & Hrun). cbn [mbind option_bind]. rewrite (sources_live u) in Hrun by lia.
  symmetry in Hrun. apply slice_empty in Hrun; [|done|done]. subst. by rewrite Z.sub_diag.
Qed.

Lemma wcc_sweep_pairs uf : wcc_sweep c dense n uf = loop (fun uf p => snd <$> Slices.Union p.1 p.2 uf) uf (dense_pairs dense).
Proof.
  unfold dense_pairs. rewrite loop_fmap. unfold wcc_sweep.
  assert (Hs : forall k x, aget l k = Some x -> x ∈ l) by (intros k x Hx; apply aget_Some in Hx as [_ Hx]; by eapply list_elem_of_lookup_2).
  etrans; [|apply (live_loop (fun uf u k => wcc_arc c dense (didx dense u) uf k))].
  - apply loop_ext. intros st u Hu. apply elem_of_seqZ in Hu. by rewrite (didx_get dense u) by lia.
  - intros st u k x Hu Hx. unfold wcc_arc. rewrite (edge_get s l c k x H Hx). cbn [mbind option_bind fst snd].
    assert (Hd : 0 <= dst x < n) by (eapply wf_range, Hs; done). rewrite (didx_get dense) by lia. cbn [mbind option_bind].
    destruct (in_some_run s l c x H (Hs k x Hx)) as (v & Hv & Hvx).
    assert (He : (v, x) ∈ A) by (by apply arc_list_iff). apply arc_live in He. cbn in He.
    destruct (Z.ltb_spec (didx dense (dst x)) 0); [lia|done].
Qed.

Lemma swept uf0 ps : 0 <= live < 2 ^ 62 -> parts live ps uf0 -> exists uf, wcc_sweep c dense n uf0 = Some uf /\ parts live (ps ++ dense_pairs dense) uf.
Proof. intros Hb HP. rewrite wcc_sweep_pairs. apply parts_unions; [done|done|apply dense_pairs_in]. Qed.
End sweep.
End snapshot.
End live.

(** ** Labels in order of first occurrence *)

Section labels.
Context (P : Z -> Prop) (eqv : Z -> Z -> Prop).
Context (eqv_sym : forall i j, eqv i j -> eqv j i) (eqv_trans : forall i j k, eqv i j -> eqv j k -> eqv i k).
Implicit Types (comp : list Z) (i j k d K : Z).

(** Below [upto], the nodes of [P] are labelled by their class, and the labels are
    numbered in the order in which they first occur. *)
Record labelled (upto : Z) comp K : Prop := {
  lb_count : 0 <= K;
  lb_live : forall i, 0 <= i < upto -> P i -> 0 <= didx comp i < K;
  lb_ghost : forall i, 0 <= i < upto -> ~ P i -> didx comp i = -1;
  lb_same : forall i j, 0 <= i < upto -> 0 <= j < upto -> P i -> P j -> didx comp i = didx comp j <-> eqv i j;
  lb_first : forall i d, 0 <= i < upto -> P i -> 0 <= d < didx comp i -> exists j, 0 <= j < i /\ P j /\ didx comp j = d;
  lb_onto : forall d, 0 <= d < K -> exists i, 0 <= i < upto /\ P i /\ didx comp i = d;
}.

Section extend.
Context (i : Z) comp comp' K (HB : labelled i comp K) (Hi : 0 <= i).

Lemma label_ghost : ~ P i -> (forall j, didx comp' j = if decide (j = i) then -1 else didx comp j) -> labelled (i + 1) comp' K.
Proof.
  intros Pi Hd. split; [apply HB|..].
  - intros j Hj Pj. rewrite Hd. case_decide; [by subst|]. apply (lb_live _ _ _ HB); [lia|done].
  - intros j Hj Pj. rewrite Hd. case_decide; [done|]. apply (lb_ghost _ _ _ HB); [lia|done].
  - intros j k Hj Hk Pj Pk. rewrite !Hd. case_decide; [by subst|]. case_decide; [by subst|]. apply (lb_same _ _ _ HB); [lia|lia|done|done].
  - intros j d Hj Pj. rewrite Hd. case_decide; [by subst|]. intros Hdj. destruct (lb_first _ _ _ HB j d ltac:(lia) Pj Hdj) as (k & Hk & Pk & Hdk).
    exists k. rewrite Hd, decide_False by lia. done.
  - intros d Hdk. destruct (lb_onto _ _ _ HB d Hdk) as (j & Hj & Pj & Hdj). exists j. rewrite Hd, decide_False by lia. split; [lia|done].
Qed.

Lemma label_old j0 : P i -> 0 <= j0 < i -> P j0 -> eqv i j0 -> (forall j, didx comp' j = if decide (j = i) then didx comp j0 else didx comp j) ->
  labelled (i + 1) comp' K.
Proof.
  intros Pi Hj0 Pj0 He Hd.
  assert (Hiff : forall j, 0 <= j < i -> P j -> didx comp j0 = didx comp j <-> eqv i j).
  { intros j Hj Pj. rewrite (lb_same _ _ _ HB j0 j Hj0 Hj Pj0 Pj). split; intros Hx; eapply eqv_trans; try done. by apply eqv_sym. }
  split; [apply HB|..].
  - intros j Hj Pj. rewrite Hd. case_decide; apply (lb_live _ _ _ HB); try done; lia.
  - intros j Hj Pj. rewrite Hd. case_decide; [by subst|]. apply (lb_ghost _ _ _ HB); [lia|done].
  - intros j k Hj Hk Pj Pk. rewrite !Hd. do 2 case_decide; subst.
    + split; [|done]. intros _. eapply eqv_trans; [done|]. by apply eqv_sym.
    + apply Hiff; [lia|done].
    + split; [intros Hx; apply eqv_sym, Hiff; [lia|done|done]|intros Hx; symmetry; apply Hiff; [lia|done|by apply eqv_sym]].
    + apply (lb_same _ _ _ HB); [lia|lia|done|done].
  - intros j d Hj Pj. rewrite Hd. intros Hdj.
    assert (Hex : exists k, 0 <= k < j /\ k < i /\ P k /\ didx comp k = d).
    { case_decide as Hji.
      - destruct (lb_first _ _ _ HB j0 d Hj0 Pj0 Hdj) as (k & Hk & Pk & Hdk). exists k. split; [lia|]. split; [lia|done].
      - destruct (lb_first _ _ _ HB j d ltac:(lia) Pj Hdj) as (k & Hk & Pk & Hdk). exists k. split; [lia|]. split; [lia|done]. }
    destruct Hex as (k & Hk & Hki & Pk & Hdk). exists k. rewrite Hd, decide_False by lia. done.
  - intros d Hdk. destruct (lb_onto _ _ _ HB d Hdk) as (j & Hj & Pj & Hdj). exists j. rewrite Hd, decide_False by lia. split; [lia|done].
Qed.

Lemma label_new : P i -> eqv i i -> (forall j, 0 <= j < i -> P j -> ~ eqv i j) -> (forall j, didx comp' j = if decide (j = i) then K else didx comp j) ->
  labelled (i + 1) comp' (K + 1).
Proof.
  intros Pi Hii Hno Hd. pose proof (lb_count _ _ _ HB) as HK. split; [lia|..].
  - intros j Hj Pj. rewrite Hd. case_decide; [lia|]. pose proof (lb_live _ _ _ HB j ltac:(lia) Pj). lia.
  - intros j Hj Pj. rewrite Hd. case_decide; [by subst|]. apply (lb_ghost _ _ _ HB); [lia|done].
  - intros j k Hj Hk Pj Pk. rewrite !Hd. do 2 case_decide; subst.
    + tauto.
    + pose proof (lb_live _ _ _ HB k ltac:(lia) Pk). split; [lia|]. intros Hx. by destruct (Hno k); [lia|..].
    + pose proof (lb_live _ _ _ HB j ltac:(lia) Pj). split; [lia|]. intros Hx. destruct (Hno j); [lia|done|by apply eqv_sym].
    + apply (lb_same _ _ _ HB); [lia|lia|done|done].
  - intros j d Hj Pj. rewrite Hd. intros Hdj.
    assert (Hex : exists k, 0 <= k < j /\ k < i /\ P k /\ didx comp k = d).
    { case_decide as Hji.
      - destruct (lb_onto _ _ _ HB d Hdj) as (k & Hk & Pk & Hdk). exists k. split; [lia|]. split; [lia|done].
      - destruct (lb_first _ _ _ HB j d ltac:(lia) Pj Hdj) as (k & Hk & Pk & Hdk). exists k. split; [lia|]. split; [lia|done]. }
    destruct Hex as (k & Hk & Hki & Pk & Hdk). exists k. rewrite Hd, decide_False by lia. done.
  - intros d Hdk. destruct (decide (d = K)) as [->|].
    + exists i. rewrite Hd, decide_True by done. split; [lia|done].
    + destruct (lb_onto _ _ _ HB d ltac:(lia)) as (j & Hj & Pj & Hdj). exists j. rewrite Hd, decide_False by lia. split; [lia|done].
Qed.
End extend.

(** The labels are determined by the classes. *)
Lemma label_le n comp comp' K K' i : labelled n comp K -> labelled n comp' K' -> (forall j, 0 <= j < i -> didx comp j = didx comp' j) ->
  0 <= i < n -> P i -> didx comp i <= didx comp' i.
Proof.
  intros HB HB' Hprev Hi Pi. destruct (Z.le_gt_cases (didx comp i) (didx comp' i)) as [|Hlt]; [done|]. exfalso.
  pose proof (lb_live _ _ _ HB' i Hi Pi). destruct (lb_first _ _ _ HB i (didx comp' i) Hi Pi ltac:(lia)) as (j & Hj & Pj & Hdj).
  assert (He : didx comp' j = didx comp' i) by (by rewrite <- Hprev).
  apply (lb_same _ _ _ HB') in He; [|lia|done..]. apply (lb_same _ _ _ HB) in He; [lia|lia|done..].
Qed.

Lemma label_unique n comp comp' K K' : (forall i, P i \/ ~ P i) -> labelled n comp K -> labelled n comp' K' ->
  Z.of_nat (length comp) = n -> Z.of_nat (length comp') = n -> comp = comp' /\ K = K'.
Proof.
  intros Hdec HB HB' Hl Hl'.
  assert (Hd : forall i, 0 <= i -> i < n -> didx comp i = didx comp' i).
  { intros i Hi0. pattern i. apply Zlt_0_ind; [|done]. clear i Hi0. intros i IH Hi Hin. destruct (Hdec i) as [Pi|Pi].
    - apply Z.le_antisymm; [eapply (label_le n)|eapply (label_le n)]; try done; intros j Hj; [|symmetry]; apply IH; lia.
    - by rewrite (lb_ghost _ _ _ HB), (lb_ghost _ _ _ HB'). }
  split.
  - apply list_eq. intros i. rewrite <- !aget_nat. destruct (decide (Z.of_nat i < n)) as [Hi|Hi].
    + rewrite !didx_get by lia. by rewrite Hd by lia.
    + rewrite !aget_nat, !lookup_ge_None_2 by lia. done.
  - apply Z.le_antisymm; apply Z.nlt_ge; intros Hlt.
    + pose proof (lb_count _ _ _ HB'). destruct (lb_onto _ _ _ HB K' ltac:(lia)) as (i & Hi & Pi & Hdi). pose proof (lb_live _ _ _ HB' i Hi Pi).
      rewrite Hd in Hdi by lia. lia.
    + pose proof (lb_count _ _ _ HB). destruct (lb_onto _ _ _ HB' K ltac:(lia)) as (i & Hi & Pi & Hdi). pose proof (lb_live _ _ _ HB i Hi Pi).
      rewrite <- Hd in Hdi by lia. lia.
Qed.
End labels.

(** ** The relabelling pass *)

Section relabel.
Context (n live : Z) (P : Z -> Prop) (dense : list Z) (HL : Z.of_nat (length dense) = n) (HD : dense_ok P n dense live) (Hdec : forall i, P i \/ ~ P i).
Context (uf0 : Slices.UnionFindSlice) (HV0 : valid live uf0).

Definition same_class (i j : Z) : Prop := same (abs uf0) (didx dense i) (didx dense j).
Definition root_is (i r : Z) : Prop := rep (Sets.parent (abs uf0)) (didx dense i) r.

Lemma class_sym i j : same_class i j -> same_class j i.
Proof. apply same_sym. Qed.

Lemma class_trans i j k : same_class i j -> same_class j k -> same_class i k.
Proof. apply same_trans. Qed.

Lemma class_root i j r : root_is i r -> same_class i j <-> root_is j r.
Proof.
  intros Hi. unfold same_class, root_is in *. split; intros Hs.
  - destruct Hs as [<-|(q & Hq & Hj)]; [done|]. by rewrite (rep_det _ _ _ _ Hi Hq).
  - right. by exists r.
Qed.

Record relabelled (i : Z) (st : list Z * gmap Z Z * Z * Slices.UnionFindSlice) : Prop := {
  rl_length : Z.of_nat (length st.1.1.1) = n;
  rl_labels : labelled P same_class i st.1.1.1 st.1.2;
  rl_rest : forall j, i <= j -> didx st.1.1.1 j = -1;
  rl_remap : forall r d, st.1.1.2 !! r = Some d <-> exists j, 0 <= j < i /\ P j /\ root_is j r /\ didx st.1.1.1 j = d;
  rl_valid : valid live st.2;
  rl_reps : forall y q, rep (Sets.parent (abs st.2)) y q <-> rep (Sets.parent (abs uf0)) y q;
}.

Lemma relabelled_step i st : relabelled i st -> 0 <= i < n -> exists st', relabel_step dense st i = Some st' /\ relabelled (i + 1) st'.
Proof.
  intros [Hlen HB Hrest Hmap HV Hreps] Hi. destruct st as [[[comp remap] next] uf]. cbn [fst snd] in *.
  unfold relabel_step. rewrite (didx_get dense i) by lia. cbn [mbind option_bind]. destruct (Hdec i) as [Pi|Pi].
  2:{ rewrite (dn_ghost _ _ _ _ HD i Hi Pi). eexists. split; [done|]. split; cbn [fst snd]; try done.
      - apply (label_ghost P same_class i comp comp next HB Pi). intros j. case_decide; [subst; apply Hrest; lia|done].
      - intros j Hj. apply Hrest. lia.
      - intros r d. rewrite Hmap. split; intros (j & Hj & Pj & Hr); exists j; (split; [|done]); [lia|]. destruct (decide (j = i)); [by subst|lia]. }
  pose proof (dn_live _ _ _ _ HD i Hi Pi) as Hdi. destruct (Z.ltb_spec (didx dense i) 0); [lia|].
  destruct (find_keeps live uf (didx dense i) HV Hdi) as (r & uf' & -> & HV' & _ & Hr & Hk). cbn [mbind option_bind].
  assert (Hroot : root_is i r) by (by apply Hreps). assert (Hreps' : forall y q, rep (Sets.parent (abs uf')) y q <-> rep (Sets.parent (abs uf0)) y q) by (intros; by rewrite Hk).
  assert (Hset : forall d, exists comp', aset comp i d = Some comp' /\ Z.of_nat (length comp') = n /\ forall j, didx comp' j = if decide (j = i) then d else didx comp j).
  { intros d. eexists. split; [apply aset_Some; lia|]. split; [by rewrite length_insert|]. apply didx_set. apply aset_Some. lia. }
  assert (Hone : forall q j, root_is j q -> root_is j r -> q = r) by (intros q j H1 H2; by eapply rep_det).
  destruct (remap !! r) as [id|] eqn:Em.
  - destruct (Hset id) as (comp' & -> & Hl' & Hd). cbn [mbind option_bind]. eexists. split; [done|]. destruct (proj1 (Hmap r id) Em) as (j0 & Hj0 & Pj0 & Hr0 & Hd0).
    split; cbn [fst snd]; try done.
    + apply (label_old P same_class class_sym class_trans i comp comp' next HB j0 Pi Hj0 Pj0); [by apply (class_root i j0 r)|by rewrite Hd0].
    + intros j Hj. rewrite Hd, decide_False by lia. apply Hrest. lia.
    + intros q d. rewrite Hmap. split.
      * intros (j & Hj & Pj & Hq & Hdj). exists j. rewrite Hd, decide_False by lia. split; [lia|done].
      * intros (j & Hj & Pj & Hq & Hdj). rewrite Hd in Hdj. case_decide; [subst; rewrite (Hone q i Hq Hroot); by exists j0|]. exists j. split; [lia|done].
  - destruct (Hset next) as (comp' & -> & Hl' & Hd). cbn [mbind option_bind]. eexists. split; [done|].
    assert (Hnew : forall j, 0 <= j < i -> P j -> root_is j r -> False).
    { intros j Hj Pj Hjr. assert (Hs : remap !! r = Some (didx comp j)) by (apply Hmap; by exists j). by rewrite Hs in Em. }
    split; cbn [fst snd]; try done.
    + apply (label_new P same_class class_sym i comp comp' next HB ltac:(lia) Pi); [by left| |done].
      intros j Hj Pj Hs. apply (Hnew j Hj Pj). by apply (class_root i j r).
    + intros j Hj. rewrite Hd, decide_False by lia. apply Hrest. lia.
    + intros q d. destruct (decide (q = r)) as [->|Hqr].
      * rewrite lookup_insert_eq. split.
        { intros [= <-]. exists i. rewrite Hd, decide_True by done. split; [lia|done]. }
        { intros (j & Hj & Pj & Hq & Hdj). rewrite Hd in Hdj. case_decide; [by subst|]. destruct (Hnew j); [lia|done..]. }
      * rewrite lookup_insert_ne, Hmap by done. split; intros (j & Hj & Pj & Hq & Hdj); exists j; rewrite Hd in *.
        { rewrite decide_False by lia. split; [lia|done]. }
        { case_decide; [subst; by rewrite (Hone q i Hq Hroot) in Hqr|]. split; [lia|done]. }
Qed.

Lemma relabel_labels : exists comp K, wccRelabel uf0 dense n = Some (comp, K) /\ Z.of_nat (length comp) = n /\ labelled P same_class n comp K.
Proof.
  assert (Hghost : forall j, didx (wccGhostComponent n) j = -1).
  { intros j. unfold didx, aget, wccGhostComponent. case_decide; [|done]. destruct (replicate _ _ !! _) eqn:E; [|done]. by apply lookup_replicate in E as [-> _]. }
  destruct (loop_seqZ (relabel_step dense) relabelled 0 n (wccGhostComponent n, ∅, 0, uf0)) as ([[[comp remap] K] uf] & E & HR).
  - lia.
  - split; cbn [fst snd]; [unfold wccGhostComponent; rewrite length_replicate; lia|split; intros; try done; lia|done| |done|done].
    intros r d. split; [by rewrite lookup_empty|intros (j & Hj & _); lia].
  - intros i st Hi HR. apply relabelled_step; [done|lia].
  - exists comp, K. unfold wccRelabel. rewrite E. cbn. split; [done|]. split; apply HR.
Qed.
End relabel.

(** ** Components of the arc relation *)

Section arcs.
Context {W : Type}.
Implicit Types (c : @CSR W).
Abbreviation slot := (Z * option W * option Z)%type.

(** There is an arc from [u] to [v]. *)
Definition arc c (u v : Z) : Prop :=
  0 <= u < MaxNodeID c /\ exists k, vert (vertices c) u <= k < vert (vertices c) (u + 1) /\ aget (edges c) k = Some v.
Definition touched c (i : Z) : Prop := exists j, arc c i j \/ arc c j i.

(** The components of [c], numbered by their smallest nodes; -1 for a node without arcs. *)
Definition components c (comp : list Z) (K : Z) : Prop :=
  Z.of_nat (length comp) = MaxNodeID c /\ labelled (touched c) (rtsc (arc c)) (MaxNodeID c) comp K.

Lemma labelled_ext P Q (E F : Z -> Z -> Prop) n comp K : (forall i, 0 <= i < n -> P i <-> Q i) -> (forall i j, P i -> P j -> E i j <-> F i j) ->
  labelled P E n comp K -> labelled Q F n comp K.
Proof.
  intros HPQ HEF HB. split.
  - apply HB.
  - intros i Hi Qi. apply (lb_live _ _ _ _ _ HB); [done|]. by apply HPQ.
  - intros i Hi Qi. apply (lb_ghost _ _ _ _ _ HB); [done|]. by rewrite HPQ.
  - intros i j Hi Hj Qi Qj. apply HPQ in Qi, Qj; [|done..]. rewrite <- HEF by done. by apply (lb_same _ _ _ _ _ HB).
  - intros i d Hi Qi Hd. apply HPQ in Qi; [|done]. destruct (lb_first _ _ _ _ _ HB i d Hi Qi Hd) as (j & Hj & Pj & Hdj).
    exists j. split; [done|]. split; [|done]. apply HPQ; [lia|done].
  - intros d Hd. destruct (lb_onto _ _ _ _ _ HB d Hd) as (i & Hi & Pi & Hdi). exists i. split; [done|]. split; [|done]. by apply HPQ.
Qed.

Section snapshot.
Context (s : bool * bool) (l : list slot) (c : @CSR W) (H : wf s l c).
Abbreviation n := (MaxNodeID c).
Abbreviation A := (arc_list c l).

Lemma arc_list_length : length A = length l.
Proof. by rewrite <- (arc_list_snd s l c H) at 2; rewrite length_fmap. Qed.

(** The arc at index [k] belongs to the source whose run holds [k]. *)
Lemma arc_at u k x : 0 <= u < n -> vert (vertices c) u <= k < vert (vertices c) (u + 1) -> aget l k = Some x -> aget A k = Some (u, x).
Proof.
  intros Hu Hk Hx. pose proof (max_length c s l H) as Hm. pose proof (wf_offsets _ _ _ H) as HO.
  assert (Hpre : length (flat_map (fun u => pair u <$> run (vertices c) u l) (seqZ 0 u)) = Z.to_nat (vert (vertices c) u)).
  { rewrite <- (length_fmap snd), flat_map_snd, run_split_slice by (done || lia). rewrite Z.add_0_l, (wf_first _ _ _ H). unfold slice.
    pose proof (vert_bounds _ _ u HO ltac:(lia)). rewrite length_take, length_drop. lia. }
  pose proof (vert_bounds _ _ u HO ltac:(lia)) as Hb. apply aget_Some in Hx as [Hk0 Hx]. apply aget_Some. split; [done|]. unfold arc_list.
  replace n with (u + (1 + (n - u - 1))) by lia. rewrite seqZ_app, flat_map_app by lia. rewrite lookup_app_r by lia. rewrite Hpre.
  rewrite seqZ_app by lia. change (seqZ (0 + u) 1) with [0 + u]. rewrite flat_map_app. cbn [flat_map]. rewrite app_nil_r, Z.add_0_l.
  pose proof (run_lengths s l c u H Hu) as Hlen. rewrite lookup_app_l by (rewrite length_fmap; lia). rewrite list_lookup_fmap. unfold run, slice.
  rewrite lookup_take_lt, lookup_drop by lia. replace (Z.to_nat (vert (vertices c) u) + (Z.to_nat k - Z.to_nat (vert (vertices c) u)))%nat with (Z.to_nat k) by lia.
  by rewrite Hx.
Qed.

(** The slots of a run, by their indices. *)
Lemma run_index u x : 0 <= u < n -> x ∈ run (vertices c) u l <-> exists k, vert (vertices c) u <= k < vert (vertices c) (u + 1) /\ aget l k = Some x.
Proof.
  intros Hu. destruct (run_bounds s l c H u Hu) as (lo & hi & Hlo & Hhi & Hb & Hb2 & ->). unfold vert. rewrite Hlo, Hhi. cbn. split.
  - intros Hx. apply list_elem_of_lookup in Hx as [i Hi]. unfold slice in Hi. apply lookup_take_Some in Hi as [Hi Hlt]. rewrite lookup_drop in Hi.
    exists (lo + Z.of_nat i). split; [lia|]. apply aget_Some. split; [lia|]. by replace (Z.to_nat (lo + Z.of_nat i)) with (Z.to_nat lo + i)%nat by lia.
  - intros (k & Hk & Hx). apply aget_Some in Hx as [_ Hx]. unfold slice. apply list_elem_of_lookup. exists (Z.to_nat (k - lo)).
    rewrite lookup_take_lt, lookup_drop by lia. by replace (Z.to_nat lo + Z.to_nat (k - lo))%nat with (Z.to_nat k) by lia.
Qed.

(** An index of a run holds a slot. *)
Lemma index_slot u k : 0 <= u < n -> vert (vertices c) u <= k < vert (vertices c) (u + 1) -> exists x, aget l k = Some x.
Proof.
  intros Hu Hk. destruct (run_bounds s l c H u Hu) as (lo & hi & Hlo & Hhi & Hb & Hb2 & _). unfold vert in Hk. rewrite Hlo, Hhi in Hk. cbn in Hk.
  apply aget_is_Some. lia.
Qed.

Lemma arc_iff u v : arc c u v <-> exists x, (u, x) ∈ A /\ v = dst x.
Proof.
  unfold arc. setoid_rewrite (arc_list_iff s l c H). cbn [fst snd]. split.
  - intros (Hu & k & Hk & Hv). destruct (index_slot u k Hu Hk) as [x Hx]. rewrite (edge_get s l c k x H Hx) in Hv. injection Hv as <-.
    exists x. rewrite run_index by done. eauto.
  - intros (x & [Hu Hx] & ->). split; [done|]. apply run_index in Hx as (k & Hk & Hx); [|done]. exists k. split; [done|]. by apply (edge_get s l c k x H).
Qed.

Lemma touched_iff i : touched c i <-> incident l c i.
Proof.
  unfold touched, incident. setoid_rewrite arc_iff. split.
  - intros (j & [(x & He & ->)|(x & He & ->)]); eexists; (split; [done|]); cbn; auto.
  - intros ([u x] & He & [->| ->]); cbn; [exists (dst x); left|exists u; right]; exists x; done.
Qed.

Section numbered.
Context (dense : list Z) (live : Z) (HL : Z.of_nat (length dense) = n) (HD : dense_ok (incident l c) n dense live).

Lemma dense_linked i j : incident l c i -> incident l c j ->
  rtsc (linked (dense_pairs l c dense)) (didx dense i) (didx dense j) <-> rtsc (arc c) i j.
Proof.
  intros Hi Hj. assert (Hends : dense_pairs l c dense = (fun p => (didx dense p.1, didx dense p.2)) <$> ((fun e => (fst e, dst (snd e))) <$> A)).
  { unfold dense_pairs. by rewrite <- list_fmap_compose. }
  rewrite Hends, (linked_rename (didx dense) (incident l c)); try done.
  - apply rtsc_iff. intros u v. rewrite arc_iff. unfold linked. rewrite list_elem_of_fmap. split.
    + intros ([a x] & [= -> ->] & He). by exists x.
    + intros (x & He & ->). by exists (u, x).
  - intros a b Ha Hb. apply (dense_inj _ _ _ _ a b HD); try done; by eapply incident_range.
  - apply Forall_fmap, Forall_forall. intros e He. split; exists e; auto.
Qed.

(** Any union-find with the partition of the arcs gives the components. *)
Lemma relabel_components uf : parts live (dense_pairs l c dense) uf -> exists comp K, wccRelabel uf dense n = Some (comp, K) /\ components c comp K.
Proof.
  intros [HV Hs]. pose proof (incident_dec s l c H) as Hdec.
  assert (Hn : 0 <= n) by (unfold MaxNodeID; lia).
  destruct (relabel_labels n live (incident l c) dense HL HD Hdec uf HV) as (comp & K & E & Hl & HB). exists comp, K. split; [done|]. split; [done|].
  revert HB. apply labelled_ext; [intros i _; symmetry; apply touched_iff|]. intros i j Hi Hj. unfold same_class. by rewrite Hs, dense_linked.
Qed.
End numbered.

Lemma components_unique comp comp' K K' : components c comp K -> components c comp' K' -> comp = comp' /\ K = K'.
Proof.
  intros [Hl HB] [Hl' HB']. eapply (label_unique (touched c)); try done.
  intros i. rewrite touched_iff. by apply (incident_dec s).
Qed.
End snapshot.
End arcs.
