(* ===== verification/ComponentsProps.v ===== *)
(** * Connected components: the serial and the parallel algorithms

    The parallel sweep over edge ranges and the merge of its private forests, and what
    both algorithms return. *)

From Stdlib Require Import ZArith Lia.
From stdpp Require Import gmap list_numbers relations.
From S2P Require Import Prelude Csr CsrRows CsrGraph CsrScatter CsrViews CsrChecks CsrSymmetric IntersectSeek UnionFind UnionFindProps Components ComponentsFacts.

Local Open Scope Z_scope.

(** ** Searches and bounded loops *)

Lemma Search_spec n (f : Z -> option bool) : 0 <= n -> (forall i, 0 <= i < n -> exists b, f i = Some b) ->
  (forall i j, 0 <= i <= j -> j < n -> f i = Some true -> f j = Some true) ->
  exists r, Search n f = Some r /\ 0 <= r <= n /\ (forall i, 0 <= i < r -> f i = Some false) /\ (forall i, r <= i < n -> f i = Some true).
Proof.
  intros Hn Hf Hmono. unfold Search.
  assert (G : forall fuel i j, 0 <= i <= j -> j <= n -> j - i < Z.of_nat fuel -> (forall k, 0 <= k < i -> f k = Some false) -> (forall k, j <= k < n -> f k = Some true) ->
    exists r, Search_loop fuel f i j = Some r /\ 0 <= r <= n /\ (forall k, 0 <= k < r -> f k = Some false) /\ (forall k, r <= k < n -> f k = Some true)).
  2:{ apply G; lia. }
  induction fuel as [|fuel IH]; intros i j Hij Hjn Hfu Hlo Hhi; [lia|]. cbn [Search_loop]. destruct (Z.ltb_spec i j) as [Hlt|].
  2:{ exists i. assert (i = j) by lia. subst. spl; [done|lia|lia|done|done]. }
  pose proof (Z.div_lt_upper_bound (i + j) 2 j ltac:(lia) ltac:(lia)) as H1. pose proof (Z.div_le_lower_bound (i + j) 2 i ltac:(lia) ltac:(lia)) as H2.
  set (h := (i + j) / 2) in *. destruct (Hf h ltac:(lia)) as [[] Eh]; rewrite Eh; cbn [mbind option_bind].
  - apply IH; try lia; [done|]. intros k Hk. apply (Hmono h); [lia|lia|done].
  - apply IH; try lia; [|done]. intros k Hk. destruct (decide (k < i)); [apply Hlo; lia|]. destruct (Hf k ltac:(lia)) as [[] Ek]; [|done].
    rewrite (Hmono k h) in Eh; [done|lia|lia|done].
Qed.

Lemma optimal_loop_spec fuel ratio w : 1 <= w -> w = 1 \/ w * w <= ratio -> ratio - w < Z.of_nat fuel -> (0 < fuel)%nat ->
  exists r, optimal_loop fuel ratio w = Some r /\ 1 <= r /\ (r = 1 \/ r * r <= ratio).
Proof.
  revert w. induction fuel as [|fuel IH]; intros w Hw Hsq Hf Hpos; [lia|]. cbn [optimal_loop]. destruct (Z.leb_spec ((w + 1) * (w + 1)) ratio) as [Hle|].
  - apply IH; [lia|by right|lia|]. nia.
  - exists w. done.
Qed.

Lemma wccMergeOptimalWorkers_spec numEdges live : 0 <= numEdges -> exists r, wccMergeOptimalWorkers numEdges live = Some r /\ 1 <= r /\ (r = 1 \/ r * r <= numEdges).
Proof.
  intros He. unfold wccMergeOptimalWorkers. destruct (Z.leb_spec live 0); [exists 1; split; [done|lia]|].
  assert (Hq : 0 <= Z.quot numEdges live <= numEdges).
  { rewrite Z.quot_div_nonneg by lia. split; [apply Z.div_pos; lia|]. apply Z.div_le_upper_bound; nia. }
  destruct (optimal_loop_spec (S (Z.to_nat (Z.quot numEdges live))) (Z.quot numEdges live) 1) as (r & E & Hr & Hsq); [lia|by left|lia|lia|].
  exists r. split; [done|]. split; [done|]. destruct Hsq; [by left|right; lia].
Qed.

(** ** Pairs united in any order *)

Lemma rtsc_app_ext ps qs rs : (forall x y, rtsc (linked qs) x y <-> rtsc (linked rs) x y) -> forall x y, rtsc (linked (ps ++ qs)) x y <-> rtsc (linked (ps ++ rs)) x y.
Proof.
  assert (G : forall qs rs, (forall x y, rtsc (linked qs) x y <-> rtsc (linked rs) x y) -> forall x y, rtsc (linked (ps ++ qs)) x y -> rtsc (linked (ps ++ rs)) x y).
  { clear. intros qs rs He x y. induction 1 as [x|x y z Hxy _ IH]; [done|]. etrans; [|exact IH]. clear IH.
    assert (Hin : forall u v, linked (ps ++ qs) u v -> rtsc (linked (ps ++ rs)) u v).
    { intros u v [Hu|Hu]%elem_of_app; [apply rtsc_lr; unfold linked; apply elem_of_app; by left|].
      assert (Hr : rtsc (linked rs) u v) by (apply He; by apply rtsc_lr). revert Hr. apply (rtsc_congruence id). intros a b Hab. unfold linked. apply elem_of_app. by right. }
    destruct Hxy as [Hxy|Hxy]; [by apply Hin|]. symmetry. by apply Hin. }
  intros He x y. split; apply G; [done|]. intros a b. by rewrite He.
Qed.

(** Replaying every element against its representative replays the partition. *)
Lemma merged live ps qs global local : 0 <= live < 2 ^ 62 -> parts live ps global -> parts live qs local ->
  exists g, wccMergeInto global local live = Some g /\ parts live (ps ++ qs) g.
Proof.
  intros Hlive HG [HVL HSL]. unfold wccMergeInto.
  destruct (loop_seqZ (fun '(global, local) n => '(r, local) ← Slices.Find n local; if r =? n then Some (global, local) else '(_, global) ← Slices.Union n r global; Some (global, local))
    (fun i st => valid live st.2 /\ (forall y q, rep (Sets.parent (abs st.2)) y q <-> rep (Sets.parent (abs local)) y q) /\
      exists rs, parts live (ps ++ rs) st.1 /\ (forall x y, (x, y) ∈ rs -> rep (Sets.parent (abs local)) x y) /\
        forall x r, 0 <= x < i -> rep (Sets.parent (abs local)) x r -> x = r \/ (x, r) ∈ rs) 0 live (global, local)) as ([g lc] & E & HV & Hreps & rs & HP & Hrs & Hall).
  - lia.
  - cbn [fst snd]. split; [done|]. split; [done|]. exists []. rewrite app_nil_r. split; [done|]. split; [intros x y Hxy; by apply elem_of_nil in Hxy|lia].
  - intros i [g lc] Hi (HV & Hreps & rs & HP & Hrs & Hall). cbn [fst snd] in *.
    destruct (find_keeps live lc i HV ltac:(unfold in_range; lia)) as (r & lc' & -> & HV' & Hr & Hrep & Hk). cbn [mbind option_bind].
    assert (Hk' : forall y q, rep (Sets.parent (abs lc')) y q <-> rep (Sets.parent (abs local)) y q) by (intros; by rewrite Hk).
    apply Hreps in Hrep. destruct (Z.eqb_spec r i) as [->|Hne].
    + exists (g, lc'). split; [done|]. split; [done|]. split; [done|]. exists rs. split; [done|]. split; [done|]. intros x q Hx Hq.
      destruct (decide (x = i)) as [->|]; [left; by eapply rep_det|]. apply Hall; [lia|done].
    + destruct (parts_union live _ g i r Hlive HP ltac:(unfold in_range; lia) Hr) as (v & g' & -> & HP' & _). cbn. exists (g', lc'). split; [done|].
      split; [done|]. split; [done|]. exists (rs ++ [(i, r)]). rewrite app_assoc. split; [done|]. split.
      * intros x y [Hxy|Hxy]%elem_of_app; [by apply Hrs|]. apply list_elem_of_singleton in Hxy. by simplify_eq.
      * intros x q Hx Hq. destruct (decide (x = i)) as [->|]; [rewrite (rep_det _ _ _ _ Hq Hrep); right; set_solver|].
        destruct (Hall x q ltac:(lia) Hq); [by left|right; set_solver].
  - exists g. rewrite E. cbn. split; [done|]. revert HP. apply parts_ext, rtsc_app_ext. intros x y. rewrite <- HSL. split.
    + induction 1 as [x|x y z Hxy _ IH]; [by left|]. eapply same_trans; [|done].
      destruct Hxy as [Hxy|Hxy]; apply Hrs, same_rep in Hxy; [done|by apply same_sym].
    + intros [->|(r & Hx & Hy)]; [done|].
      assert (Hone : forall z, rep (Sets.parent (abs local)) z r -> rtsc (linked rs) z r).
      { intros z Hz. assert (Hzr : in_range live z) by (apply (valid_known live local z HVL); by eapply rep_known).
        destruct (Hall z r Hzr Hz) as [->|Hin]; [done|]. by apply rtsc_lr. }
      etrans; [by apply Hone|]. symmetry. by apply Hone.
Qed.

(** ** Sweeping a range of edges *)

Section range.
Context {W : Type}.
Abbreviation slot := (Z * option W * option Z)%type.
Context (s : bool * bool) (l : list slot) (c : @CSR W) (H : wf s l c).
Abbreviation n := (MaxNodeID c).
Abbreviation A := (arc_list c l).

Lemma row_of_spec fuel k u : 0 <= u < n -> vert (vertices c) u <= k < Z.of_nat (length l) -> n - u < Z.of_nat fuel ->
  exists u', row_of fuel (vertices c) k u = Some u' /\ 0 <= u' < n /\ vert (vertices c) u' <= k < vert (vertices c) (u' + 1).
Proof.
  revert u. induction fuel as [|fuel IH]; intros u Hu Hk Hf; [lia|]. cbn [row_of]. pose proof (max_length c s l H) as Hm.
  rewrite vert_get by lia. cbn [mbind option_bind]. destruct (Z.leb_spec (vert (vertices c) (u + 1)) k) as [Hle|]; [|exists u; split; [done|]; lia].
  apply IH; [|lia|lia]. split; [lia|]. destruct (decide (u + 1 = n)) as [He|]; [|lia]. rewrite He, (wf_end _ _ _ H) in Hle. lia.
Qed.

Context (dense : list Z) (live : Z) (HL : Z.of_nat (length dense) = n) (HD : dense_ok (incident l c) n dense live) (Hlive : 0 <= live < 2 ^ 62).
Abbreviation pairs := (dense_pairs l c dense).

Lemma pair_at k e : aget A k = Some e -> aget pairs k = Some (didx dense (fst e), didx dense (dst (snd e))).
Proof. intros He. unfold dense_pairs. by rewrite aget_fmap, He. Qed.

Lemma slice_snoc {B} lo k (xs : list B) x : 0 <= lo <= k -> aget xs k = Some x -> slice lo (k + 1) xs = slice lo k xs ++ [x].
Proof.
  intros Hk Hx. apply aget_Some in Hx as [_ Hx]. unfold slice. replace (Z.to_nat (k + 1 - lo)) with (S (Z.to_nat (k - lo))) by lia.
  apply take_S_r. rewrite lookup_drop. by replace (Z.to_nat lo + Z.to_nat (k - lo))%nat with (Z.to_nat k) by lia.
Qed.

Lemma edge_range_swept ps uf elo ehi : 0 <= elo <= ehi -> ehi <= Z.of_nat (length l) -> parts live ps uf ->
  exists uf', wccUnionEdgeRange uf dense c elo ehi n = Some uf' /\ parts live (ps ++ slice elo ehi pairs) uf'.
Proof.
  intros Hlo Hhi HP. unfold wccUnionEdgeRange. destruct (Z.leb_spec ehi elo) as [Hle|Hlt].
  { exists uf. split; [done|]. replace ehi with elo by lia. unfold slice. rewrite Z.sub_diag. cbn. by rewrite app_nil_r. }
  pose proof (max_length c s l H) as Hm. pose proof (wf_offsets _ _ _ H) as HO. assert (Hn : 0 <= n) by (unfold MaxNodeID; lia).
  destruct (Search_spec n (fun i => v ← aget (vertices c) (i + 1); Some (elo <? v)) Hn) as (u & -> & Hu & Hbelow & Habove).
  { intros i Hi. rewrite vert_get by lia. eexists. done. }
  { intros i j Hi Hj. rewrite !vert_get by lia. cbn. intros [= Hv]. f_equal. apply Z.ltb_lt in Hv. apply Z.ltb_lt.
    pose proof (vert_le _ _ (i + 1) (j + 1) HO ltac:(lia) ltac:(lia)). lia. }
  cbn [mbind option_bind].
  assert (Hun : u < n).
  { destruct (decide (u = n)) as [->|Hun]; [|lia]. destruct (decide (n = 0)) as [H0|Hn0].
    - pose proof (wf_end _ _ _ H) as He. rewrite H0, (wf_first _ _ _ H) in He. lia.
    - specialize (Hbelow (n - 1) ltac:(lia)). rewrite vert_get in Hbelow by lia. cbn in Hbelow. replace (n - 1 + 1) with n in Hbelow by lia.
      rewrite (wf_end _ _ _ H) in Hbelow. injection Hbelow as Hb. apply Z.ltb_ge in Hb. lia. }
  assert (Hstart : vert (vertices c) u <= elo).
  { destruct (decide (u = 0)) as [->|]; [rewrite (wf_first _ _ _ H); lia|]. specialize (Hbelow (u - 1) ltac:(lia)). rewrite vert_get in Hbelow by lia.
    cbn in Hbelow. replace (u - 1 + 1) with u in Hbelow by lia. injection Hbelow as Hb. by apply Z.ltb_ge in Hb. }
  destruct (loop_seqZ (fun '(uf, u) k => u ← row_of (S (length (vertices c))) (vertices c) k u; e ← aget (edges c) k; dv ← aget dense e;
      if dv <? 0 then Some (uf, u) else du ← aget dense u; '(_, uf) ← Slices.Union du dv uf; Some (uf, u))
    (fun k st => parts live (ps ++ slice elo k pairs) st.1 /\ 0 <= st.2 < n /\ vert (vertices c) st.2 <= k) elo (ehi - elo) (uf, u)) as ([uf' u'] & E & HP' & _).
  - lia.
  - cbn [fst snd]. unfold slice. rewrite Z.sub_diag. cbn [take]. rewrite app_nil_r. split; [done|]. lia.
  - intros k [uf1 u1] Hk (HP1 & Hu1 & Hk1). cbn [fst snd] in *. destruct (row_of_spec (S (length (vertices c))) k u1) as (u2 & -> & Hu2 & Hrow); [done|lia|lia|].
    cbn [mbind option_bind]. destruct (aget_is_Some l k ltac:(lia)) as [x Hx]. rewrite (edge_get s l c k x H Hx). cbn [mbind option_bind].
    pose proof (arc_at s l c H u2 k x Hu2 Hrow Hx) as Hat. assert (He : (u2, x) ∈ A) by (apply aget_Some in Hat as [_ Hat]; by eapply list_elem_of_lookup_2).
    pose proof (arc_dst s l c H _ He) as [_ Hd]. pose proof (arc_live s l c H dense live HD _ He) as [Hlu Hld]. cbn [fst snd] in *.
    rewrite (didx_get dense (dst x)) by lia. cbn [mbind option_bind]. destruct (Z.ltb_spec (didx dense (dst x)) 0); [lia|]. rewrite (didx_get dense u2) by lia. cbn [mbind option_bind].
    destruct (parts_union live _ uf1 (didx dense u2) (didx dense (dst x)) Hlive HP1 Hlu Hld) as (v & uf2 & -> & HP2 & _). cbn [mbind option_bind].
    exists (uf2, u2). split; [done|]. cbn [fst snd]. rewrite (slice_snoc elo k pairs (didx dense u2, didx dense (dst x))), app_assoc by (lia || by rewrite (pair_at k (u2, x))).
    split; [done|]. lia.
  - rewrite E. cbn. exists uf'. split; [done|]. by replace (elo + (ehi - elo)) with ehi in HP' by lia.
Qed.
End range.

(** ** The private forests and their merge *)

Lemma mapM_build {X Y} (f : X -> option Y) (Q : X -> Y -> Prop) xs : (forall x, x ∈ xs -> exists y, f x = Some y /\ Q x y) ->
  exists ys, mapM f xs = Some ys /\ Forall2 Q xs ys.
Proof.
  induction xs as [|x xs IH]; intros Hf; [by exists []|]. destruct (Hf x ltac:(left)) as (y & Ey & Qy).
  destruct IH as (ys & Eys & Qys); [intros z Hz; apply Hf; by right|]. exists (y :: ys). cbn. rewrite Ey. cbn. rewrite Eys. cbn. split; [done|by constructor].
Qed.

Lemma merge_all {X} live (part : X -> list (Z * Z)) ws locals ps global : 0 <= live < 2 ^ 62 -> parts live ps global ->
  Forall2 (fun w uf => parts live (part w) uf) ws locals ->
  exists g, loop (fun global local => wccMergeInto global local live) global locals = Some g /\ parts live (ps ++ flat_map part ws) g.
Proof.
  intros Hlive HP HF. revert ps global HP. induction HF as [|w uf ws locals Hw _ IH]; intros ps global HP; [exists global; by rewrite app_nil_r|].
  destruct (merged live ps (part w) global uf Hlive HP Hw) as (g1 & E1 & HP1). destruct (IH _ _ HP1) as (g & E & HP'). exists g.
  cbn [loop flat_map]. rewrite E1. cbn. split; [done|]. by rewrite app_assoc.
Qed.

Section forest.
Context {W : Type}.
Abbreviation slot := (Z * option W * option Z)%type.
Context (s : bool * bool) (l : list slot) (c : @CSR W) (H : wf s l c).
Abbreviation n := (MaxNodeID c).
Abbreviation numEdges := (Z.of_nat (length (edges c))).
Context (dense : list Z) (live : Z) (HL : Z.of_nat (length dense) = n) (HD : dense_ok (incident l c) n dense live) (Hlive : 0 <= live < 2 ^ 62).
Abbreviation pairs := (dense_pairs l c dense).

Lemma edges_length : numEdges = Z.of_nat (length l).
Proof. unfold edges. by rewrite (rows_length _ _ _ (wf_rows _ _ _ H)). Qed.

Lemma pairs_length : length pairs = length l.
Proof. unfold dense_pairs. rewrite length_fmap. by apply (arc_list_length s). Qed.

Lemma cuts_cover (nw m : Z) : 0 < nw -> 0 <= m <= nw ->
  flat_map (fun w => slice (w * numEdges / nw) ((w + 1) * numEdges / nw) pairs) (seqZ 0 m) = slice 0 (m * numEdges / nw) pairs.
Proof.
  intros Hnw. rewrite edges_length. pattern m. intros Hm. revert Hm. generalize m. clear m. intros m [H0 H1]. revert H1. pattern m. apply natlike_ind; [|intros k Hk IH Hle|done].
  - intros _. by rewrite Z.mul_0_l, Z.div_0_l by lia.
  - replace (Z.succ k) with (k + 1) in * by lia. rewrite seqZ_app, flat_map_app, IH by lia. change (seqZ (0 + k) 1) with [0 + k]. cbn [flat_map].
    rewrite app_nil_r, Z.add_0_l. symmetry. apply slice_split; [split; [lia|apply Z.div_pos; lia]|apply Z.div_le_mono; lia].
Qed.

Lemma int64_cut nw w : 2 <= nw -> nw * nw <= numEdges < 2 ^ 42 -> 0 <= w <= nw -> Z.quot (int64 (w * numEdges)) nw = w * numEdges / nw.
Proof.
  intros Hnw Hsq Hw. assert (Hlt : nw < 2 ^ 21) by nia. rewrite int64_small by nia. apply Z.quot_div_nonneg; nia.
Qed.

Lemma parallel_parts nw : nw <= 1 \/ nw * nw <= numEdges -> numEdges < 2 ^ 42 -> exists uf, parallel_forest c dense live n nw = Some uf /\ parts live pairs uf.
Proof.
  intros Hnw HE. unfold parallel_forest. cbv zeta. destruct (parts_new live Hlive) as (uf0 & Enew & HP0). pose proof edges_length as Hlen. pose proof pairs_length as Hpl.
  destruct ((nw <=? 1) || _) eqn:Eb.
  { rewrite Enew. cbn [mbind option_bind]. destruct (edge_range_swept s l c H dense live HL HD Hlive [] uf0 0 numEdges) as (uf & E & HP); [lia|lia|done|].
    exists uf. split; [done|]. rewrite Hlen, <- Hpl, slice_all in HP. done. }
  bool_to_prop. destruct Hnw as [|Hsq]; [lia|].
  destruct (mapM_build (fun w => uf ← Slices.NewSlice live;
      wccUnionEdgeRange uf dense c (Z.quot (int64 (w * numEdges)) nw) (Z.quot (int64 ((w + 1) * numEdges)) nw) n)
    (fun w uf => parts live (slice (w * numEdges / nw) ((w + 1) * numEdges / nw) pairs) uf) (seqZ 0 nw)) as (locals & -> & HF).
  - intros w Hw. apply elem_of_seqZ in Hw. rewrite !int64_cut by lia. rewrite Enew. cbn [mbind option_bind].
    apply (edge_range_swept s l c H dense live HL HD Hlive []); [|rewrite <- Hlen; apply Z.div_le_upper_bound; nia|done].
    split; [apply Z.div_pos; nia|apply Z.div_le_mono; nia].
  - cbn [mbind option_bind]. rewrite Enew. cbn [mbind option_bind].
    destruct (merge_all live _ _ _ [] uf0 Hlive HP0 HF) as (g & -> & HP). exists g. split; [done|].
    rewrite cuts_cover in HP by lia. rewrite Z.mul_comm, Z.div_mul in HP by lia. by rewrite Hlen, <- Hpl, slice_all in HP.
Qed.

Lemma workers_bound procs numWorkers : exists nw, parallel_workers procs numEdges live numWorkers = Some nw /\ (nw <= 1 \/ nw * nw <= numEdges).
Proof.
  clear H HL HD Hlive dense. unfold parallel_workers. destruct (wccMergeOptimalWorkers_spec numEdges live ltac:(lia)) as (r & -> & Hr & Hsq). cbn [mbind option_bind].
  eexists. split; [done|]. match goal with |- context [if ?b then r else ?x] => destruct b eqn:Eb; [|set (y := x) in *; clearbody y] end; bool_to_prop; nia.
Qed.
End forest.

(** ** Properties *)

Section properties.
Context {W E : Type}.
Implicit Types (c : @CSR W) (ctx : nat -> option E).

(** What both algorithms compute from a snapshot with nodes. *)
Lemma serial_parts s l c dense live : wf s l c -> Z.of_nat (length dense) = MaxNodeID c -> dense_ok (incident l c) (MaxNodeID c) dense live -> 0 <= live < 2 ^ 62 ->
  exists uf0 uf, Slices.NewSlice live = Some uf0 /\ wcc_sweep c dense (MaxNodeID c) uf0 = Some uf /\ parts live (dense_pairs l c dense) uf.
Proof.
  intros H HL HD Hlive. destruct (parts_new live Hlive) as (uf0 & Enew & HP0).
  destruct (swept s l c H dense live HL HD uf0 [] Hlive HP0) as (uf & E1 & HP). by exists uf0, uf.
Qed.

Lemma ghost_components s l c dense : wf s l c -> dense_ok (incident l c) (MaxNodeID c) dense 0 -> components c (wccGhostComponent (MaxNodeID c)) 0.
Proof.
  intros H HD. assert (Hno : forall i, 0 <= i < MaxNodeID c -> ~ touched c i).
  { intros i Hi Ht. apply (touched_iff s l c H) in Ht. pose proof (dn_live _ _ _ _ HD i Hi Ht). lia. }
  assert (Hn : 0 <= MaxNodeID c) by (unfold MaxNodeID; lia).
  split; [unfold wccGhostComponent; rewrite length_replicate; lia|]. split; try done.
  - intros i Hi Pi. by destruct (Hno i Hi).
  - intros i Hi _. unfold didx, aget, wccGhostComponent. rewrite decide_True, lookup_replicate_2 by lia. done.
  - intros i j Hi _ Pi. by destruct (Hno i Hi).
  - intros i d Hi Pi. by destruct (Hno i Hi).
  - intros d Hd. lia.
Qed.

(** C18: on any snapshot that passes its checks, [WCC] terminates without a panic and,
    unless the context was cancelled at one of its two checkpoints, labels the nodes by
    their weakly connected components: nodes with an arc share a label exactly when the
    symmetric closure of the arcs joins them, every other node has label -1, and the
    [K] labels are numbered by the order in which they first occur. *)
Theorem wcc_components c ctx : checked c -> MaxNodeID c < 2 ^ 62 -> exists r, WCCCtx ctx c = Some r /\
  match r with
  | inl e => ctx 0%nat = Some e \/ (ctx 0%nat = None /\ ctx 1%nat = Some e)
  | inr (comp, K) => ctx 0%nat = None /\ components c comp K
  end.
Proof.
  intros HC Hmax. pose proof (checked_wf c HC) as H. set (l := slots_of (arcs c)) in *. unfold WCCCtx. destruct (ctx 0%nat) as [e|] eqn:E0.
  { exists (inl e). split; [done|by left]. }
  destruct (dense_built _ l c H) as (dense & live & -> & HL & HD). pose proof (dn_bound _ _ _ _ HD) as Hb.
  destruct (Z.eqb_spec (MaxNodeID c) 0) as [Hz|Hz].
  { exists (inr ([], 0)). split; [done|]. split; [done|]. split; [by rewrite Hz|]. rewrite Hz. split; intros; lia. }
  cbn [mbind option_bind]. destruct (Z.eqb_spec live 0) as [->|].
  { eexists. split; [done|]. split; [done|]. by eapply ghost_components. }
  destruct (serial_parts _ l c dense live H HL HD ltac:(lia)) as (uf0 & uf & -> & E2 & HP). cbn [mbind option_bind]. rewrite E2. cbn [mbind option_bind].
  destruct (ctx 1%nat) as [e|] eqn:E1; [exists (inl e); split; [done|by right]|].
  destruct (relabel_components _ l c H dense live HL HD uf HP) as (comp & K & -> & Hcomp). by exists (inr (comp, K)).
Qed.

(** C17: the parallel algorithm, with its edge ranges, private forests and merge,
    returns exactly what the serial one does, for every number of workers. *)
Theorem wcc_parallel_equals_serial procs ctx c numWorkers : checked c -> MaxNodeID c < 2 ^ 62 -> Z.of_nat (length (edges c)) < 2 ^ 42 ->
  WCCParallelCtx procs ctx c numWorkers = WCCCtx ctx c.
Proof.
  intros HC Hmax HE. pose proof (checked_wf c HC) as H. set (l := slots_of (arcs c)) in *. unfold WCCParallelCtx, WCCCtx. destruct (ctx 0%nat) as [e|]; [done|].
  case_match; [done|]. destruct (dense_built _ l c H) as (dense & live & -> & HL & HD). pose proof (dn_bound _ _ _ _ HD) as Hb. cbn [mbind option_bind].
  case_match; [done|]. destruct (workers_bound c live procs numWorkers) as (nw & -> & Hnw). cbn [mbind option_bind].
  destruct (parallel_parts _ l c H dense live HL HD ltac:(lia) nw Hnw HE) as (g & -> & HG). cbn [mbind option_bind].
  destruct (serial_parts _ l c dense live H HL HD ltac:(lia)) as (uf0 & uf & -> & E2 & HP). cbn [mbind option_bind]. rewrite E2. cbn [mbind option_bind].
  destruct (relabel_components _ l c H dense live HL HD uf HP) as (comp & K & -> & Hc1).
  destruct (relabel_components _ l c H dense live HL HD g HG) as (comp' & K' & -> & Hc2).
  by destruct (components_unique _ l c H _ _ _ _ Hc1 Hc2) as [-> ->].
Qed.
End properties.

(** *** Witnesses *)

Definition wcc_wit : @CSR Z := mkCSR [0; 1; 1; 1; 2; 2] (mkCols [2; 4] None None) 4 2 false.

Lemma wcc_wit_checked : checked wcc_wit.
Proof. split; [split|..]; try by vm_compute. by repeat constructor. Qed.

Lemma wcc_components_witness : WCCCtx (fun _ => @None unit) wcc_wit = Some (inr ([0; -1; 0; 1; 1], 2)) /\ components wcc_wit [0; -1; 0; 1; 1] 2.
Proof.
  destruct (wcc_components wcc_wit (fun _ => @None unit) wcc_wit_checked) as (r & Er & Hr); [by vm_compute|].
  assert (Ev : WCCCtx (fun _ => @None unit) wcc_wit = Some (inr ([0; -1; 0; 1; 1], 2))) by (by vm_compute).
  split; [exact Ev|]. rewrite Ev in Er. injection Er as <-. apply Hr.
Defined.

Lemma wcc_parallel_equals_serial_witness : WCCParallelCtx 8 (fun _ => @None unit) wcc_wit 4 = Some (inr ([0; -1; 0; 1; 1], 2)).
Proof.
  rewrite (wcc_parallel_equals_serial 8 (fun _ => @None unit) wcc_wit 4 wcc_wit_checked); [by vm_compute|by vm_compute|by vm_compute].
Defined.
