(* ===== verification/Spanning.v ===== *)
(** * Spanning forests: Kruskal's algorithm is minimum

    Forests as lists of edges each of which joins two classes of those before it, the
    number of edges they can have, and the proof that the greedy choice over the
    candidates in ascending order is a minimum spanning forest. *)

From Stdlib Require Import ZArith Lia.
From stdpp Require Import gmap list_numbers relations sorting.
From S2P Require Import Prelude Csr CsrRows CsrGraph CsrScatter CsrViews CsrChecks CsrSymmetric UnionFind UnionFindProps Components ComponentsFacts.

Local Open Scope Z_scope.

Local Abbreviation card := base.size.

(** ** Counting classes *)

Section classes.
Implicit Types (ps qs : list (Z * Z)) (x y a b : Z) (U : gset Z).

(** The representatives of the partition the pairs generate. *)
Definition merge_class (r : Z -> Z) (p : Z * Z) : Z -> Z := fun x => if decide (r x = r p.1) then r p.2 else r x.
Definition class_of ps : Z -> Z := foldl merge_class id ps.

Lemma class_of_snoc ps p x : class_of (ps ++ [p]) x = if decide (class_of ps x = class_of ps p.1) then class_of ps p.2 else class_of ps x.
Proof. unfold class_of. by rewrite foldl_app. Qed.

Lemma linked_snoc ps a b x y : rtsc (linked (ps ++ [(a, b)])) x y <->
  rtsc (linked ps) x y \/ (rtsc (linked ps) x a /\ rtsc (linked ps) y b) \/ (rtsc (linked ps) x b /\ rtsc (linked ps) y a).
Proof.
  assert (Hj : forall ps x y, rtsc (linked ps) x y <-> rtsc (joined ((fun p => Sets.CUnion p.1 p.2) <$> ps)) x y).
  { intros qs u v. apply rtsc_iff. intros c d. by rewrite joined_pairs. }
  rewrite !Hj, fmap_app. apply joined_union.
Qed.

Lemma class_of_iff ps x y : class_of ps x = class_of ps y <-> rtsc (linked ps) x y.
Proof.
  revert x y. induction ps as [|[a b] ps IH] using rev_ind; intros x y.
  - cbn. split; [by intros ->|]. induction 1 as [|x y z [Hs|Hs] _ _]; [done|by apply elem_of_nil in Hs..].
  - rewrite linked_snoc, <- !IH, !class_of_snoc. cbn [fst snd]. repeat case_decide; split; intros; naive_solver congruence.
Qed.

Lemma linked_nil x y : rtsc (linked []) x y <-> x = y.
Proof. by rewrite <- class_of_iff. Qed.

(** The classes that the nodes of [U] fall into. *)
Definition classes U ps : gset Z := set_map (class_of ps) U.

Lemma classes_nil U : classes U [] = U.
Proof. unfold classes. apply set_eq. intros z. rewrite elem_of_map. split; [by intros (x & -> & Hx)|intros Hz; by exists z]. Qed.

Lemma classes_snoc U ps a b : a ∈ U -> b ∈ U -> Z.of_nat (card (classes U (ps ++ [(a, b)]))) =
  Z.of_nat (card (classes U ps)) - (if decide (class_of ps a = class_of ps b) then 0 else 1).
Proof.
  intros Ha Hb. assert (Hc : forall z, z ∈ classes U (ps ++ [(a, b)]) <-> exists x, x ∈ U /\ z = class_of (ps ++ [(a, b)]) x) by (intros z; unfold classes; set_solver).
  assert (Hc0 : forall z, z ∈ classes U ps <-> exists x, x ∈ U /\ z = class_of ps x) by (intros z; unfold classes; set_solver).
  case_decide as Hd.
  - rewrite Z.sub_0_r. do 2 f_equal. apply set_eq. intros z. rewrite Hc, Hc0. split; intros (x & Hx & ->); exists x; (split; [done|]);
      rewrite class_of_snoc; cbn [fst snd]; case_decide; congruence.
  - assert (Heq : classes U (ps ++ [(a, b)]) = classes U ps ∖ {[class_of ps a]}).
    { apply set_eq. intros z. rewrite elem_of_difference, elem_of_singleton, Hc, Hc0. split.
      - intros (x & Hx & ->). rewrite class_of_snoc. cbn [fst snd]. case_decide; [split; [by exists b|congruence]|split; [by exists x|congruence]].
      - intros [(x & Hx & ->) Hne]. exists x. split; [done|]. rewrite class_of_snoc. cbn [fst snd]. by rewrite decide_False. }
    rewrite Heq. assert (Hin : class_of ps a ∈ classes U ps) by (apply Hc0; by exists a).
    rewrite size_difference by set_solver. rewrite size_singleton. assert (card (classes U ps) <> 0)%nat; [|lia].
    intros Hz. apply size_empty_inv in Hz. set_solver.
Qed.

Definition within U ps : Prop := Forall (fun p => p.1 ∈ U /\ p.2 ∈ U) ps.

Lemma classes_lower U ps : within U ps -> Z.of_nat (card U) - Z.of_nat (length ps) <= Z.of_nat (card (classes U ps)).
Proof.
  unfold within. induction ps as [|[a b] ps IH] using rev_ind; intros HU.
  - rewrite classes_nil. cbn. lia.
  - apply Forall_app in HU as [HU Hab]. rewrite Forall_singleton in Hab. destruct Hab as [Ha Hb]. rewrite (classes_snoc U ps a b Ha Hb), length_app. specialize (IH HU). cbn. case_decide; lia.
Qed.

(** Each pair joins two classes of the pairs before it. *)
Definition forest ps : Prop := forall ps1 a b ps2, ps = ps1 ++ (a, b) :: ps2 -> ~ rtsc (linked ps1) a b.

Lemma forest_snoc ps a b : forest (ps ++ [(a, b)]) <-> forest ps /\ ~ rtsc (linked ps) a b.
Proof.
  split.
  - intros HF. split; [|by apply (HF ps a b [])]. intros ps1 u v ps2 ->. apply (HF ps1 u v (ps2 ++ [(a, b)])). by rewrite <- app_assoc.
  - intros [HF Hab] ps1 u v ps2 Heq. destruct ps2 as [|q ps2 _] using rev_ind; [by apply app_inj_tail in Heq as [-> [= -> ->]]|].
    rewrite app_comm_cons, app_assoc in Heq. apply app_inj_tail in Heq as [-> _]. by eapply HF.
Qed.

Lemma classes_forest U ps : within U ps -> forest ps -> Z.of_nat (card (classes U ps)) = Z.of_nat (card U) - Z.of_nat (length ps).
Proof.
  unfold within. induction ps as [|[a b] ps IH] using rev_ind; intros HU HF.
  - rewrite classes_nil. cbn. lia.
  - apply Forall_app in HU as [HU Hab]. rewrite Forall_singleton in Hab. destruct Hab as [Ha Hb]. apply forest_snoc in HF as [HF Hno].
    rewrite (classes_snoc U ps a b Ha Hb), length_app. specialize (IH HU HF). cbn. rewrite decide_False by (by rewrite class_of_iff). lia.
Qed.

Lemma class_self ps x : class_of ps (class_of ps x) = class_of ps x.
Proof.
  revert x. induction ps as [|[a b] ps IH] using rev_ind; intros x; [done|]. rewrite !class_of_snoc. cbn [fst snd].
  destruct (decide (class_of ps x = class_of ps a)); rewrite IH; by repeat case_decide.
Qed.

Lemma size_image (f : Z -> Z) U : (card (set_map f U : gset Z) <= card U)%nat.
Proof.
  induction U as [|x U Hx IH] using set_ind_L; [done|]. rewrite set_map_union_L, set_map_singleton_L, size_union_alt.
  rewrite (size_union {[x]} U) by set_solver. rewrite !size_singleton. pose proof (subseteq_size ((set_map f U : gset Z) ∖ {[f x]}) (set_map f U) ltac:(set_solver)). lia.
Qed.

(** A finer partition has at least as many classes. *)
Lemma classes_finer U ps qs : (forall x y, rtsc (linked ps) x y -> rtsc (linked qs) x y) -> (card (classes U qs) <= card (classes U ps))%nat.
Proof.
  intros Hf. assert (Heq : classes U qs = set_map (class_of qs) (classes U ps)).
  { unfold classes. apply set_eq. intros z. rewrite !elem_of_map. split.
    - intros (x & -> & Hx). exists (class_of ps x). split; [apply class_of_iff, Hf, class_of_iff; by rewrite class_self|]. apply elem_of_map. by exists x.
    - intros (w & -> & Hw). apply elem_of_map in Hw as (x & -> & Hx). exists x. split; [|done]. apply class_of_iff, Hf, class_of_iff, class_self. }
  rewrite Heq. apply size_image.
Qed.

Lemma linked_closed ps qs : (forall p, p ∈ ps -> rtsc (linked qs) p.1 p.2) -> forall x y, rtsc (linked ps) x y -> rtsc (linked qs) x y.
Proof.
  intros Hp x y. induction 1 as [|x y z Hxy _ IH]; [done|]. etrans; [|exact IH].
  destruct Hxy as [Hxy|Hxy]; apply Hp in Hxy; [done|by symmetry].
Qed.

(** A forest inside the closure of some pairs has no more edges than they are. *)
Lemma forest_bound ps qs : forest ps -> (forall p, p ∈ ps -> rtsc (linked qs) p.1 p.2) -> (length ps <= length qs)%nat.
Proof.
  intros HF Hp. set (U := list_to_set (ps.*1 ++ ps.*2 ++ qs.*1 ++ qs.*2) : gset Z).
  assert (HU : forall rs, rs ⊆ ps ++ qs -> within U rs).
  { intros rs Hrs. apply Forall_forall. intros [a b] Hab. apply Hrs, elem_of_app in Hab. cbn. unfold U. rewrite !elem_of_list_to_set, !elem_of_app, !list_elem_of_fmap.
    assert (Hex : forall l : list (Z * Z), (a, b) ∈ l -> (exists q, a = q.1 /\ q ∈ l) /\ (exists q, b = q.2 /\ q ∈ l)) by (intros l Hl; split; by exists (a, b)).
    destruct Hab as [Hab|Hab]; destruct (Hex _ Hab); tauto. }
  pose proof (classes_forest U ps ltac:(apply HU; set_solver) HF) as H1. pose proof (classes_lower U qs ltac:(apply HU; set_solver)) as H2.
  pose proof (classes_finer U ps qs (linked_closed ps qs Hp)) as H3. lia.
Qed.

Lemma linked_mono ps qs : ps ⊆ qs -> forall x y, rtsc (linked ps) x y -> rtsc (linked qs) x y.
Proof. intros Hsub. apply linked_closed. intros [a b] Hp. apply rtsc_lr. by apply Hsub. Qed.

(** Forests with as many edges as they can have join all of their nodes. *)
Lemma forest_full U ps : within U ps -> forest ps -> Z.of_nat (length ps) = Z.of_nat (card U) - 1 -> forall x y, x ∈ U -> y ∈ U -> rtsc (linked ps) x y.
Proof.
  intros HU HF Hl x y Hx Hy. pose proof (classes_forest U ps HU HF) as Hc. apply class_of_iff.
  assert (H1 : card (classes U ps) = 1%nat) by lia. apply size_1_elem_of in H1 as [z Hz]. apply leibniz_equiv in Hz.
  assert (Hin : forall w, w ∈ U -> class_of ps w = z) by (intros w Hw; apply (elem_of_singleton (C:=gset Z)); rewrite <- Hz; unfold classes; apply elem_of_map; by exists w).
  by rewrite !Hin.
Qed.
End classes.

(** ** Sums and thresholds *)

Section sums.
Implicit Types (A B : list Z) (t : Z).

Definition sumZ A : Z := foldr Z.add 0 A.
Definition below A t : Z := Z.of_nat (length (filter (fun x => x <= t) A)).

Lemma zsum_plus f g n : zsum (fun i => f i + g i) n = zsum f n + zsum g n.
Proof. induction n as [|n IH]; cbn; [done|]. rewrite IH. lia. Qed.

Lemma zsum_le f g n : (forall i, f i <= g i) -> zsum f n <= zsum g n.
Proof. intros Hfg. induction n as [|n IH]; cbn; [done|]. specialize (Hfg n). lia. Qed.

Lemma value_by_thresholds lo n x : lo <= x <= lo + Z.of_nat n -> x = lo + Z.of_nat n - zsum (fun i => if decide (x <= lo + Z.of_nat i) then 1 else 0) n.
Proof.
  induction n as [|n IH]; intros Hx; [cbn; lia|]. cbn [zsum]. case_decide; [rewrite IH at 1 by lia; lia|].
  rewrite (zsum_ext _ (fun _ => 0)) by (intros i Hi; rewrite decide_False by lia; done).
  assert (Hz : forall m, zsum (fun _ => 0) m = 0) by (induction m; cbn; lia). rewrite Hz. lia.
Qed.

Lemma sum_by_thresholds lo n A : Forall (fun x => lo <= x <= lo + Z.of_nat n) A ->
  sumZ A = Z.of_nat (length A) * (lo + Z.of_nat n) - zsum (fun i => below A (lo + Z.of_nat i)) n.
Proof.
  induction 1 as [|x A Hx _ IH].
  - cbn. unfold below. cbn. assert (Hz : forall m, zsum (fun _ => 0) m = 0) by (induction m; cbn; lia). rewrite Hz. lia.
  - cbn [sumZ foldr length]. fold (sumZ A). rewrite IH, (value_by_thresholds lo n x Hx) at 1.
    rewrite (zsum_ext (fun i => below (x :: A) (lo + Z.of_nat i)) (fun i => (if decide (x <= lo + Z.of_nat i) then 1 else 0) + below A (lo + Z.of_nat i))).
    + rewrite zsum_plus. lia.
    + intros i _. unfold below. rewrite filter_cons. case_decide; cbn [length]; lia.
Qed.

(** The list with more elements below every threshold has the smaller sum. *)
Lemma sum_dominated A B : length A = length B -> (forall t, below B t <= below A t) -> sumZ A <= sumZ B.
Proof.
  intros Hl Ht. assert (Hb : exists lo n, Forall (fun x => lo <= x <= lo + Z.of_nat n) (A ++ B)).
  { clear. induction (A ++ B) as [|x C (lo & n & IH)]; [by exists 0, 0%nat|].
    exists (Z.min lo x), (Z.to_nat (Z.max (lo + Z.of_nat n) x - Z.min lo x)). constructor; [lia|]. eapply Forall_impl; [exact IH|]. cbn. lia. }
  destruct Hb as (lo & n & Hb). apply Forall_app in Hb as [HA HB]. rewrite (sum_by_thresholds lo n A HA), (sum_by_thresholds lo n B HB), Hl.
  pose proof (zsum_le (fun i => below B (lo + Z.of_nat i)) (fun i => below A (lo + Z.of_nat i)) n ltac:(intros; apply Ht)). lia.
Qed.
End sums.

(** ** The greedy choice *)

Section greedy.
Context {E : Type} (ends : E -> Z * Z) (val : E -> Z).
Implicit Types (e : E) (cand out F : list E).

(** The edges of [cand] in order, each kept when it joins two classes of those before. *)
Inductive greedy : list E -> list E -> Prop :=
  | greedy_nil : greedy [] []
  | greedy_take cand out e : greedy cand out -> ~ rtsc (linked (ends <$> cand)) (ends e).1 (ends e).2 -> greedy (cand ++ [e]) (out ++ [e])
  | greedy_skip cand out e : greedy cand out -> rtsc (linked (ends <$> cand)) (ends e).1 (ends e).2 -> greedy (cand ++ [e]) out.

Lemma linked_ends_snoc cand e x y : rtsc (linked (ends <$> (cand ++ [e]))) x y <-> rtsc (linked ((ends <$> cand) ++ [((ends e).1, (ends e).2)])) x y.
Proof. rewrite fmap_app. cbn. by destruct (ends e). Qed.

Lemma greedy_closed cand out : greedy cand out -> forall x y, rtsc (linked (ends <$> out)) x y <-> rtsc (linked (ends <$> cand)) x y.
Proof.
  induction 1 as [|cand out e _ IH Hno|cand out e _ IH Hyes]; [done|..]; intros x y; rewrite !linked_ends_snoc, !linked_snoc; rewrite ?IH; [done|].
  rewrite <- !class_of_iff in *. split; [by left|]. intros [?|[[H1 H2]|[H1 H2]]]; congruence.
Qed.

Lemma greedy_incl cand out : greedy cand out -> out ⊆ cand.
Proof. clear val. induction 1; set_solver. Qed.

Lemma greedy_forest cand out : greedy cand out -> forest (ends <$> out).
Proof.
  induction 1 as [|cand out e HG IH Hno|cand out e _ IH _]; [intros ps1 a b ps2 Heq; by destruct ps1| |done].
  rewrite fmap_app. cbn. destruct (ends e) as [a b] eqn:Ee. apply forest_snoc. split; [done|]. rewrite greedy_closed; [|done]. by rewrite ?Ee in Hno.
Qed.

Definition upto (t : Z) (l : list E) : list E := filter (fun e => val e <= t) l.
Definition ascending cand : Prop := forall pre e suf, cand = pre ++ e :: suf -> forall x, x ∈ pre -> val x <= val e.

Lemma ascending_init cand e : ascending (cand ++ [e]) -> ascending cand /\ forall x, x ∈ cand -> val x <= val e.
Proof.
  intros HA. split; [|by apply (HA cand e [])]. intros pre d suf ->. apply (HA pre d (suf ++ [e])). by rewrite <- app_assoc.
Qed.

(** Below a threshold, the choice is the choice among the candidates below it. *)
Lemma greedy_upto t cand out : greedy cand out -> ascending cand -> greedy (upto t cand) (upto t out).
Proof.
  unfold upto. induction 1 as [|cand out e HG IH Hno|cand out e HG IH Hyes]; intros HA; [constructor|..]; apply ascending_init in HA as [HA He]; rewrite !filter_app.
  - destruct (decide (val e <= t)) as [Hle|Hgt].
    + assert (Hall : forall l, l ⊆ cand -> filter (fun e => val e <= t) l = l) by (intros l Hl; apply filter_all, Forall_forall; intros x Hx; specialize (He x (Hl x Hx)); lia).
      rewrite filter_cons_True, filter_nil by done. rewrite !Hall by (reflexivity || by eapply greedy_incl). by apply greedy_take.
    + rewrite filter_cons_False by done. cbn. rewrite !app_nil_r. by apply IH.
  - destruct (decide (val e <= t)) as [Hle|Hgt].
    + assert (Hall : forall l, l ⊆ cand -> filter (fun e => val e <= t) l = l) by (intros l Hl; apply filter_all, Forall_forall; intros x Hx; specialize (He x (Hl x Hx)); lia).
      rewrite filter_cons_True, filter_nil by done. rewrite !Hall by (reflexivity || by eapply greedy_incl). by apply greedy_skip.
    + rewrite filter_cons_False by done. cbn. rewrite !app_nil_r. by apply IH.
Qed.

Lemma forest_upto t F : forest (ends <$> F) -> forest (ends <$> upto t F).
Proof.
  unfold upto. induction F as [|e F IH] using rev_ind; intros HF; [done|]. rewrite fmap_app in HF. cbn in HF. rewrite filter_app.
  destruct (ends e) as [a b] eqn:Ee. apply forest_snoc in HF as [HF Hno]. specialize (IH HF). destruct (decide (val e <= t)) as [Hle|Hgt].
  - rewrite filter_cons_True by done. rewrite fmap_app. cbn. rewrite Ee. apply forest_snoc. split; [done|]. intros Hx. apply Hno. revert Hx. apply linked_mono.
    intros p Hp. apply list_elem_of_fmap in Hp as (d & -> & Hd). apply list_elem_of_fmap. exists d. split; [done|]. by apply list_elem_of_filter in Hd as [_ Hd].
  - rewrite filter_cons_False by done. cbn. by rewrite app_nil_r.
Qed.

Lemma below_upto l t : below (val <$> l) t = Z.of_nat (length (upto t l)).
Proof. unfold below, upto. f_equal. induction l as [|e l IH]; [done|]. cbn [fmap list_fmap]. rewrite !filter_cons. case_decide; cbn [length]; [f_equal|]; apply IH. Qed.

(** No spanning forest costs less than the greedy choice in ascending order. *)
Lemma greedy_minimum cand out F : greedy cand out -> ascending cand -> F ⊆ cand -> forest (ends <$> F) ->
  (forall x y, rtsc (linked (ends <$> F)) x y <-> rtsc (linked (ends <$> cand)) x y) -> sumZ (val <$> out) <= sumZ (val <$> F).
Proof.
  intros HG HA HFc HF Hspan. assert (Hself : forall l e, e ∈ l -> rtsc (linked (ends <$> l)) (ends e).1 (ends e).2).
  { intros l e He. apply rtsc_lr. unfold linked. apply list_elem_of_fmap. exists e. by destruct (ends e). }
  apply sum_dominated.
  - rewrite !length_fmap. rewrite <- (length_fmap ends out), <- (length_fmap ends F). apply Nat.le_antisymm.
    + apply forest_bound; [by eapply greedy_forest|]. intros p Hp. apply list_elem_of_fmap in Hp as (e & -> & He). apply Hspan, Hself. by eapply greedy_incl.
    + apply forest_bound; [done|]. intros p Hp. apply list_elem_of_fmap in Hp as (e & -> & He). apply (greedy_closed cand); [done|]. apply Hself. by apply HFc.
  - intros t. rewrite !below_upto. apply Nat2Z.inj_le. rewrite <- (length_fmap ends (upto t F)), <- (length_fmap ends (upto t out)).
    apply forest_bound; [by apply forest_upto|]. intros p Hp. apply list_elem_of_fmap in Hp as (e & -> & He). apply (greedy_closed (upto t cand)); [by apply greedy_upto|].
    apply Hself. unfold upto in *. apply list_elem_of_filter in He as [Hle He]. apply list_elem_of_filter. split; [done|]. by apply HFc.
Qed.
End greedy.

(** ** Kruskal's algorithm *)

(** The order the comparison of a weight type follows: the values that are not refused
    are compared as integers (for the finite floating-point values, as multiples of
    the smallest one). *)
Class WeightOrder (W : Type) `{!Weight W} := {
  w_val : W -> Z;
  w_zero_valid : floatInvalid w_zero = false;
  w_lt_val : forall a b, floatInvalid a = false -> floatInvalid b = false -> w_lt a b = (w_val a <? w_val b);
}.

Section kruskal.
Context {W E : Type} `{WO : WeightOrder W}.
Abbreviation slot := (Z * option W * option Z)%type.
Abbreviation edge := (@MSTEdge W).
Implicit Types (c : @CSR W) (ctx : nat -> option E) (es out F : list edge).

Definition ends_of (e : edge) : Z * Z := (From e, To e).
Definition cost es : Z := sumZ ((fun e => w_val (Weight_ e)) <$> es).

(** The edges of [c] the algorithm considers: each arc towards a node that is not
    smaller, with its weight. *)
Definition is_edge c (e : edge) : Prop :=
  0 <= From e < MaxNodeID c /\ From e <= To e /\ exists k, vert (vertices c) (From e) <= k < vert (vertices c) (From e + 1) /\
    aget (edges c) k = Some (To e) /\ match weights c with None => Weight_ e = w_zero | Some ws => aget ws k = Some (Weight_ e) end.
Definition up c (u v : Z) : Prop := arc c u v /\ u <= v.

(** What [sort.Slice] promises of the sorted candidates. *)
Record sorts (sortByWeight : list edge -> list edge) : Prop := {
  so_perm : forall es, sortByWeight es ≡ₚ es;
  so_order : forall es, Forall (fun e => floatInvalid (Weight_ e) = false) es ->
    forall pre e suf x, sortByWeight es = pre ++ e :: suf -> x ∈ pre -> w_lt (Weight_ e) (Weight_ x) = false;
}.

Section snapshot.
Context (s : bool * bool) (l : list slot) (c : @CSR W) (H : wf s l c).
Abbreviation n := (MaxNodeID c).
Abbreviation A := (arc_list c l).

Definition edge_of (e : Z * slot) : edge := mkMSTEdge (default w_zero (wt (snd e))) (fst e) (dst (snd e)).
Definition up_list : list edge := edge_of <$> filter (fun e => fst e <= dst (snd e)) A.

Lemma weight_at k x : aget l k = Some x -> match weights c with None => Some w_zero | Some ws => aget ws k end = Some (default w_zero (wt x)).
Proof.
  intros Hx. pose proof (r_weights _ _ _ (wf_rows _ _ _ H)) as Hc. unfold weights. destruct (cW (arcs c)) as [ws|]; cbn in Hc.
  - pose proof (f_equal (fun ys => aget ys k) Hc) as Hg. cbv beta in Hg. rewrite !aget_fmap, Hx in Hg. cbn in Hg. destruct (aget ws k) as [w|]; [|done]. cbn in Hg. injection Hg as ->. done.
  - apply aget_Some in Hx as [_ Hx]. rewrite Forall_fmap in Hc. rewrite (Forall_lookup_1 _ _ _ _ Hc Hx). done.
Qed.

Lemma edge_iff e : is_edge c e <-> e ∈ up_list.
Proof.
  unfold up_list, is_edge. rewrite list_elem_of_fmap. split.
  - intros (Hu & Hle & k & Hk & Hv & Hw). destruct (index_slot s l c H _ k Hu Hk) as [x Hx]. rewrite (edge_get s l c k x H Hx) in Hv. injection Hv as Hv.
    exists (From e, x). rewrite list_elem_of_filter. cbn [fst snd]. rewrite Hv. split.
    + pose proof (weight_at k x Hx) as Hwx. destruct e as [w u v]. unfold edge_of. cbn [fst snd Weight_ From To] in *. rewrite Hv. f_equal.
      destruct (weights c); [by rewrite Hw in Hwx; injection Hwx|]. injection Hwx as <-. done.
    + split; [done|]. pose proof (arc_at s l c H _ k x Hu Hk Hx) as Ha. apply aget_Some in Ha as [_ Ha]. by eapply list_elem_of_lookup_2.
  - intros ([u x] & -> & He). apply list_elem_of_filter in He as [Hle He]. cbn [fst snd edge_of From To Weight_] in *.
    apply (arc_list_iff s l c H) in He as [Hu Hx]. cbn [fst snd] in *. split; [done|]. split; [done|].
    apply (run_index s l c H) in Hx as (k & Hk & Hx); [|done]. exists k. split; [done|]. split; [by apply (edge_get s l c k x H)|].
    pose proof (weight_at k x Hx) as Hw. destruct (weights c); [done|]. by injection Hw.
Qed.

(** The candidates are the edges, in the order of the arrays. *)
Section candidates.
Context (dense : list Z) (live : Z) (HL : Z.of_nat (length dense) = n) (HD : dense_ok (incident l c) n dense live).

Lemma loop_filter (xs : list (Z * slot)) st : loop (fun st e => if dst (snd e) <? fst e then Some st else Some (st ++ [edge_of e])) st xs =
  Some (st ++ (edge_of <$> filter (fun e => fst e <= dst (snd e)) xs)).
Proof.
  revert st. induction xs as [|e xs IH]; intros st; cbn [loop]; [by rewrite app_nil_r|]. rewrite filter_cons. destruct (Z.ltb_spec (dst (snd e)) (fst e)).
  - cbn. by rewrite decide_False, IH by lia.
  - cbn. rewrite decide_True, IH by lia. by rewrite <- app_assoc.
Qed.

Lemma candidates_list : kruskal_candidates c dense n = Some up_list.
Proof.
  unfold kruskal_candidates, up_list. etrans; [|apply (loop_filter A [])].
  apply (live_loop s l c H dense live HL HD (fun cand u k => v ← aget (edges c) k; if v <? u then Some cand
    else w ← match weights c with None => Some w_zero | Some ws => aget ws k end; Some (cand ++ [mkMSTEdge w u v]))).
  intros st u k x Hu Hx. rewrite (edge_get s l c k x H Hx). cbn [mbind option_bind fst snd]. destruct (dst x <? u); [done|]. by rewrite (weight_at k x Hx).
Qed.

(** *** The scan *)

Definition dense_ends (e : edge) : Z * Z := (didx dense (From e), didx dense (To e)).
Definition total_of es : W := foldl w_add w_zero (Weight_ <$> es).

Lemma edge_incident e : e ∈ up_list -> incident l c (From e) /\ incident l c (To e).
Proof.
  unfold up_list. rewrite list_elem_of_fmap. intros (a & -> & Ha). apply list_elem_of_filter in Ha as [_ Ha]. cbn. split; exists a; auto.
Qed.

Lemma edge_dense e : e ∈ up_list -> in_range live (dense_ends e).1 /\ in_range live (dense_ends e).2.
Proof.
  intros He. apply edge_incident in He as [H1 H2]. split; cbn; apply (dn_live _ _ _ _ HD); try done; by eapply incident_range.
Qed.

(** Once the forest has one edge less than there are nodes, nothing more is taken. *)
Lemma greedy_full pre out rest : greedy dense_ends pre out -> Forall (fun e => in_range live (dense_ends e).1 /\ in_range live (dense_ends e).2) (pre ++ rest) ->
  Z.of_nat (length out) = live - 1 -> greedy dense_ends (pre ++ rest) out.
Proof.
  intros HG HI Hl. set (U := list_to_set (seqZ 0 live) : gset Z).
  assert (HU : forall x, in_range live x -> x ∈ U) by (intros x Hx; unfold U; apply elem_of_list_to_set, elem_of_seqZ; unfold in_range in Hx; lia).
  assert (Hcard : Z.of_nat (card U) = live) by (unfold U; rewrite size_list_to_set, length_seqZ by apply NoDup_seqZ; pose proof (dn_bound _ _ _ _ HD); lia).
  assert (Hjoined : forall x y, in_range live x -> in_range live y -> rtsc (linked (dense_ends <$> pre)) x y).
  { intros x y Hx Hy. apply (greedy_closed dense_ends pre out HG). apply (forest_full U); [|by eapply greedy_forest|by rewrite length_fmap, Hcard|by apply HU..].
    apply Forall_fmap, Forall_forall. intros e He. apply Forall_app in HI as [HI _]. rewrite Forall_forall in HI.
    destruct (HI e); [by eapply greedy_incl|]. split; by apply HU. }
  induction rest as [|e rest IH] using rev_ind; [by rewrite app_nil_r|]. rewrite app_assoc. rewrite app_assoc in HI. apply Forall_app in HI as [HI He].
  rewrite Forall_singleton in He. destruct He as [H1 H2]. apply greedy_skip; [by apply IH|]. specialize (Hjoined _ _ H1 H2). revert Hjoined. rewrite fmap_app. apply linked_mono. set_solver.
Qed.

Lemma scan_greedy ctx rest : forall i calls pre uf out, 0 <= live < 2 ^ 62 -> Forall (fun e => in_range live (dense_ends e).1 /\ in_range live (dense_ends e).2) (pre ++ rest) ->
  Forall (fun e => 0 <= From e < n /\ 0 <= To e < n) rest -> greedy dense_ends pre out -> parts live (dense_ends <$> pre) uf ->
  exists r, kruskal_scan ctx dense live i calls uf out (total_of out) rest = Some r /\
  match r with
  | inl (ErrInvalidInput, _) => False
  | inl (Cancelled e, _) => exists k, ctx k = Some e
  | inr (out', total) => greedy dense_ends (pre ++ rest) out' /\ total = total_of out'
  end.
Proof.
  induction rest as [|e rest IH]; intros i calls pre uf out Hlive HI HN HG HP; cbn [kruskal_scan].
  { eexists. split; [done|]. by rewrite app_nil_r. }
  destruct (if Z.land (Z.of_nat i) 4095 =? 0 then ctx calls else None) as [err|] eqn:Ec.
  { eexists. split; [done|]. cbn. destruct (Z.land _ _ =? 0); [by eexists|done]. }
  apply Forall_cons in HN as [[Hf Ht] HN]. rewrite !didx_get by lia. cbn [mbind option_bind].
  assert (He : in_range live (dense_ends e).1 /\ in_range live (dense_ends e).2) by (rewrite Forall_forall in HI; apply HI; set_solver).
  destruct He as [H1 H2]. destruct (parts_union live _ uf (didx dense (From e)) (didx dense (To e)) Hlive HP H1 H2) as (v & uf' & -> & HP' & Hv). cbn [mbind option_bind].
  assert (Hpre : pre ++ e :: rest = (pre ++ [e]) ++ rest) by (by rewrite <- app_assoc). rewrite Hpre in *.
  assert (HP2 : parts live (dense_ends <$> (pre ++ [e])) uf') by (by rewrite fmap_app).
  destruct v.
  - assert (HG' : greedy dense_ends (pre ++ [e]) (out ++ [e])) by (apply greedy_take; [done|by apply Hv]).
    assert (Htot : w_add (total_of out) (Weight_ e) = total_of (out ++ [e])) by (unfold total_of; by rewrite fmap_app, foldl_app).
    rewrite Htot. destruct (Z.eqb_spec (Z.of_nat (length (out ++ [e]))) (live - 1)) as [Hfull|]; [|by apply IH].
    eexists. split; [done|]. cbn. split; [by apply greedy_full|done].
  - apply IH; try done. apply greedy_skip; [done|]. cbn. apply class_of_iff. destruct (decide (class_of (dense_ends <$> pre) (didx dense (From e)) = class_of (dense_ends <$> pre) (didx dense (To e)))) as [|Hne]; [done|].
    rewrite class_of_iff in Hne. by apply Hv in Hne.
Qed.

(** The choice by dense indices is the choice by nodes. *)
Lemma greedy_nodes cand out : greedy dense_ends cand out -> cand ⊆ up_list -> greedy ends_of cand out.
Proof.
  assert (Hren : forall es e, es ⊆ up_list -> e ∈ up_list -> rtsc (linked (dense_ends <$> es)) (dense_ends e).1 (dense_ends e).2 <-> rtsc (linked (ends_of <$> es)) (ends_of e).1 (ends_of e).2).
  { intros es e Hes He. replace (dense_ends <$> es) with ((fun p => (didx dense p.1, didx dense p.2)) <$> (ends_of <$> es)) by (by rewrite <- list_fmap_compose).
    apply edge_incident in He as [H1 H2]. cbn. apply (linked_rename (didx dense) (incident l c)); try done.
    - intros a b Ha Hb. apply (dense_inj _ _ _ _ a b HD); try done; by eapply incident_range.
    - apply Forall_fmap, Forall_forall. intros d Hd. by apply edge_incident, Hes. }
  induction 1 as [|cand out e HG IH Hno|cand out e HG IH Hyes]; intros Hsub; [constructor|apply greedy_take|apply greedy_skip]; try (apply IH; set_solver);
    by rewrite <- Hren by set_solver.
Qed.
End candidates.

(** *** Minimum spanning forests *)

(** [out] is a spanning forest of the edges of [c] and no other costs less. *)
Record minimum_forest out : Prop := {
  mf_edges : Forall (is_edge c) out;
  mf_forest : forest (ends_of <$> out);
  mf_spans : forall u v, rtsc (linked (ends_of <$> out)) u v <-> rtsc (up c) u v;
  mf_least : forall F, Forall (is_edge c) F -> forest (ends_of <$> F) -> (forall u v, rtsc (linked (ends_of <$> F)) u v <-> rtsc (up c) u v) -> cost out <= cost F;
}.

Lemma up_linked u v : rtsc (linked (ends_of <$> up_list)) u v <-> rtsc (up c) u v.
Proof.
  apply rtsc_iff. clear u v. intros u v. unfold linked, up. rewrite list_elem_of_fmap, (arc_iff s l c H). split.
  - intros (d & [= -> ->] & He). unfold up_list in He. apply list_elem_of_fmap in He as ([u x] & -> & He). apply list_elem_of_filter in He as [Hle He]. cbn in *.
    split; [by exists x|done].
  - intros [(x & He & ->) Hle]. exists (edge_of (u, x)). split; [done|]. unfold up_list. apply list_elem_of_fmap. exists (u, x). split; [done|].
    by apply list_elem_of_filter.
Qed.

Lemma edges_up_list F : Forall (is_edge c) F <-> F ⊆ up_list.
Proof. rewrite Forall_forall. split; intros HF e He; apply edge_iff; by apply HF. Qed.

Lemma greedy_minimum_forest cand out : cand ≡ₚ up_list -> ascending (fun e => w_val (Weight_ e)) cand -> greedy ends_of cand out -> minimum_forest out.
Proof.
  intros Hperm HA HG. assert (Hsub : forall e, e ∈ cand <-> e ∈ up_list) by (intros e; by rewrite Hperm).
  assert (Hl : forall u v, rtsc (linked (ends_of <$> cand)) u v <-> rtsc (up c) u v).
  { intros u v. rewrite <- up_linked. apply rtsc_iff. intros a b. unfold linked. by rewrite Hperm. }
  split.
  - apply edges_up_list. intros e He. apply Hsub. exact (greedy_incl ends_of cand out HG e He).
  - by eapply greedy_forest.
  - intros u v. by rewrite (greedy_closed ends_of cand out HG).
  - intros F HF HFf HFs. apply (greedy_minimum ends_of _ cand); try done.
    + intros e He. apply Hsub. by apply edges_up_list in HF; apply HF.
    + intros u v. by rewrite HFs, Hl.
Qed.

(** A snapshot whose only arcs are loops has the empty forest. *)
Lemma loops_minimum : (forall u v, arc c u v -> u = v) -> minimum_forest [].
Proof.
  intros Hloop. assert (Hup : forall u v, rtsc (up c) u v <-> u = v).
  { intros u v. split; [|by intros ->]. induction 1 as [|x y z [[Hs _]|[Hs _]] _ IH]; [done|by rewrite (Hloop _ _ Hs)|by rewrite <- (Hloop _ _ Hs)]. }
  split; [constructor|intros ps1 a b ps2 Heq; by destruct ps1|intros u v; by rewrite linked_nil, Hup|].
  intros F HF HFf _. destruct F as [|e F]; [done|]. exfalso. apply (HFf [] (From e) (To e) (ends_of <$> F)); [done|]. apply linked_nil. apply Hloop.
  apply Forall_inv in HF. destruct HF as (Hu & _ & k & Hk & Hv & _). split; [done|]. by exists k.
Qed.
End snapshot.

(** *** The property *)

(** C16: on a snapshot that passes its checks, [KruskalMST] terminates without a panic;
    it refuses a snapshot only for a weight that is not a number or infinite, stops
    early only when the context was cancelled, and otherwise returns a spanning forest
    of the edges it considers (one direction of each pair) that no spanning forest of
    those edges undercuts, with the sum of its weights; on a symmetric snapshot the
    forest joins exactly the nodes the arcs join. *)
Theorem kruskal_minimum sortByWeight c ctx : sorts sortByWeight -> checked c -> MaxNodeID c < 2 ^ 62 ->
  exists r, KruskalMSTCtx sortByWeight ctx c = Some r /\
  match r with
  | inl (ErrInvalidInput, _) => exists ws w, weights c = Some ws /\ w ∈ ws /\ floatInvalid w = true
  | inl (Cancelled e, _) => exists k, ctx k = Some e
  | inr (out, total) => minimum_forest c out /\ total = total_of out /\
      ((forall u v, arc c u v -> arc c v u) -> forall u v, rtsc (linked (ends_of <$> out)) u v <-> rtsc (arc c) u v)
  end.
Proof.
  intros HS HC Hmax. pose proof (checked_wf c HC) as H. set (l := slots_of (arcs c)) in *.
  assert (Hsym : forall out, minimum_forest c out -> (forall u v, arc c u v -> arc c v u) -> forall u v, rtsc (linked (ends_of <$> out)) u v <-> rtsc (arc c) u v).
  { intros out [_ _ Hsp _] Hs u v. rewrite Hsp. split; [apply (rtsc_congruence id); by intros a b [? _]|].
    induction 1 as [|x y z Hxy _ IH]; [done|]. etrans; [|exact IH]. assert (Hboth : arc c x y /\ arc c y x) by (destruct Hxy; split; auto).
    destruct (Z.le_ge_cases x y); [apply rtsc_lr|apply rtsc_rl]; split; tauto. }
  assert (Hempty : (forall u v, arc c u v -> u = v) -> exists r : @mst_error E * W + list edge * W, Some (inr ([], w_zero)) = Some r /\
    match r with inr (out, total) => minimum_forest c out /\ total = total_of out /\ ((forall u v, arc c u v -> arc c v u) -> forall u v, rtsc (linked (ends_of <$> out)) u v <-> rtsc (arc c) u v) | _ => False end).
  { intros Hloop. eexists. split; [done|]. pose proof (loops_minimum c Hloop) as HM. split; [done|]. split; [done|]. by apply Hsym. }
  assert (Hin : forall u v, arc c u v -> 0 <= u < MaxNodeID c /\ 0 <= v < MaxNodeID c /\ incident l c u /\ incident l c v).
  { intros u v Ha. apply (arc_iff _ l c H) in Ha as (x & He & ->). pose proof (arc_dst _ l c H _ He) as [H1 H2]. cbn in *. split; [done|]. split; [done|]. split; exists (u, x); auto. }
  unfold KruskalMSTCtx. destruct (ctx 0%nat) as [err|] eqn:E0; [eexists; split; [done|]; by exists 0%nat|]. cbv zeta.
  destruct (Z.leb_spec (MaxNodeID c) 1) as [Hle|_].
  { destruct Hempty as ([[]|[out total]] & E1 & Hr); [intros u v Ha; apply Hin in Ha; lia|done|]. by eexists. }
  destruct (anyFloatInvalid (weights c)) eqn:Ef.
  { eexists. split; [done|]. cbn. unfold anyFloatInvalid in Ef. destruct (weights c) as [ws|]; [|done]. apply existsb_exists in Ef as (w & Hw & Hf).
    exists ws, w. split; [done|]. split; [by apply list_elem_of_In|done]. }
  destruct (dense_built _ l c H) as (dense & live & -> & HL & HD). pose proof (dn_bound _ _ _ _ HD) as Hb. cbn [mbind option_bind].
  destruct (Z.leb_spec live 1) as [Hle|Hlt].
  { destruct Hempty as ([[]|[out total]] & E1 & Hr); [|done|by eexists]. intros u v Ha. apply Hin in Ha as (Hu & Hv & Iu & Iv).
    apply (dense_inj _ _ _ _ u v HD); try done. pose proof (dn_live _ _ _ _ HD u Hu Iu). pose proof (dn_live _ _ _ _ HD v Hv Iv). lia. }
  rewrite (candidates_list _ l c H dense live HL HD). cbn [mbind option_bind]. destruct (parts_new live ltac:(lia)) as (uf & -> & HP). cbn [mbind option_bind].
  set (cand := sortByWeight (up_list l c)). assert (Hperm : cand ≡ₚ up_list l c) by apply HS.
  assert (Hcand : forall e, e ∈ cand -> e ∈ up_list l c) by (intros e; by rewrite Hperm).
  destruct (scan_greedy _ l c H dense live HL HD ctx cand 0%nat 1%nat [] uf []) as (r & Hr & Hspec); [lia| | |constructor|done|].
  { apply Forall_forall. intros e He. apply (edge_dense _ l c H dense live HD). by apply Hcand. }
  { apply Forall_forall. intros e He. apply Hcand, (edge_incident l c) in He as [H1 H2]. split; by eapply incident_range. }
  exists r. split; [exact Hr|]. destruct r as [[[|err] tot]|[out total]]; [done|done|]. cbn [app] in Hspec. destruct Hspec as [HG ->].
  assert (HM : minimum_forest c out); [|split; [done|]; split; [done|by apply Hsym]].
  assert (Hvalid : forall e, e ∈ up_list l c -> floatInvalid (Weight_ e) = false).
  { intros e He. apply (edge_iff _ l c H) in He as (_ & _ & k & _ & _ & Hw). unfold anyFloatInvalid in Ef. destruct (weights c) as [ws|]; [|rewrite Hw; apply w_zero_valid].
    destruct (floatInvalid (Weight_ e)) eqn:Ew; [|done]. rewrite <- Ef. symmetry. apply existsb_exists. exists (Weight_ e). split; [|done].
    apply aget_Some in Hw as [_ Hw]. by eapply list_elem_of_In, list_elem_of_lookup_2. }
  apply (greedy_minimum_forest _ l c H cand); [done| |by eapply greedy_nodes; [done..|intros e; apply Hcand]].
  intros pre e suf Heq x Hx. assert (Hin2 : e ∈ up_list l c /\ x ∈ up_list l c) by (split; apply Hcand; rewrite Heq; set_solver). destruct Hin2 as [He2 Hx2].
  pose proof (so_order _ HS (up_list l c) ltac:(apply Forall_forall; exact Hvalid) pre e suf x Heq Hx) as Hlt2.
  rewrite w_lt_val in Hlt2 by (by apply Hvalid). by apply Z.ltb_ge in Hlt2.
Qed.
End kruskal.

(** *** Witness: 64-bit integer weights *)

#[export] Instance int_weight : Weight Z := {| w_zero := 0; w_lt := Z.ltb; w_add a b := int64 (a + b); floatInvalid _ := false |}.
#[export] Instance int_order : WeightOrder Z := {| w_val := id; w_zero_valid := eq_refl; w_lt_val _ _ _ _ := eq_refl |}.

Definition lighter (a b : @MSTEdge Z) : Prop := Weight_ a <= Weight_ b.
#[export] Instance lighter_dec a b : Decision (lighter a b) := Z_le_dec _ _.
#[export] Instance lighter_total : Total lighter.
Proof. intros a b. unfold lighter. lia. Qed.
#[export] Instance lighter_trans : Transitive lighter.
Proof. intros a b d. unfold lighter. lia. Qed.

Lemma merge_sorts : sorts (merge_sort lighter).
Proof.
  split; [intros es; apply merge_sort_Permutation|]. intros es _ pre e suf x Heq Hx. pose proof (StronglySorted_merge_sort lighter es) as HS. rewrite Heq in HS.
  cbn. apply Z.ltb_ge. change (lighter x e). clear Heq. induction pre as [|y pre IH]; [by apply elem_of_nil in Hx|].
  apply elem_of_cons in Hx as [->|Hx]; inversion HS as [|? ? HS' HF]; subst; [|by apply IH]. rewrite Forall_forall in HF. apply HF. set_solver.
Qed.

Definition mst_wit : @CSR Z := mkCSR [0; 2; 4; 6] (mkCols [1; 2; 0; 2; 0; 1] (Some [5; 1; 5; 2; 1; 2]) None) 3 6 true.

Lemma mst_wit_checked : checked mst_wit.
Proof. split; [split|..]; try by vm_compute. by repeat constructor. Qed.

Lemma kruskal_minimum_witness : exists out, KruskalMSTCtx (merge_sort lighter) (fun _ => @None unit) mst_wit = Some (inr (out, 3)) /\ minimum_forest mst_wit out /\
  out = [mkMSTEdge 1 0 2; mkMSTEdge 2 1 2].
Proof.
  destruct (kruskal_minimum (merge_sort lighter) mst_wit (fun _ => @None unit) merge_sorts mst_wit_checked) as (r & Er & Hr); [by vm_compute|].
  assert (Ev : KruskalMSTCtx (merge_sort lighter) (fun _ => @None unit) mst_wit = Some (inr ([mkMSTEdge 1 0 2; mkMSTEdge 2 1 2], 3))) by (by vm_compute).
  exists [mkMSTEdge 1 0 2; mkMSTEdge 2 1 2]. split; [exact Ev|]. rewrite Ev in Er. injection Er as <-. split; [apply Hr|done].
Defined.
