(* ===== verification/Mapper.v ===== *)
(** * The node mapper (src/graph/mapper.go, mapper_reserve.go, mapper_restore.go, mapper_watermark.go)

    The interning of user keys as node ids: 256 shards chosen by the key's hash, each
    with a forward map, a reverse table with its bitset of holes, and a paged tail for
    the indices past a gap.  An operation of a shard is what the source does under one
    acquisition of the shard's lock; [None] is a run-time panic or a loop that runs out
    of fuel.  Capacities are not part of the state, and an allocation is taken to succeed: the reverse
    table a load makes for a very large index is one the program may have no memory for. *)

From Stdlib Require Import ZArith Lia.
From stdpp Require Import gmap list_numbers.
From S2P Require Import Prelude Csr.

Local Open Scope Z_scope.

(** ** Hashes and ids *)

Definition fnvOffset : Z := 14695981039346656037.
Definition fnvPrime : Z := 1099511628211.

Definition fnv_byte (h b : Z) : Z := u64 (Z.lxor h b * fnvPrime).
Definition fnv1aString (s : list Z) : Z := foldl fnv_byte fnvOffset s.

Fixpoint fnv_word (n : nat) (h v : Z) : Z :=
  match n with O => h | S n => fnv_word n (fnv_byte h (Z.land v 255)) (Z.shiftr v 8) end.
Definition fnv1aUint64 (v : Z) : Z := fnv_word 8 fnvOffset v.

Definition mapperShardCount : Z := 256.
Definition mapperShardBits : Z := 8.
Definition mapperShardMask : Z := mapperShardCount - 1.
Definition mapperPageBits : Z := 6.
Definition mapperPageSize : Z := Z.shiftl 1 mapperPageBits.
Definition mapperPageMask : Z := mapperPageSize - 1.
Definition mapperTailGap : Z := mapperPageSize.

Definition packNodeID (shard idx : Z) : Z := Z.lor (u64 (Z.shiftl idx mapperShardBits)) (Z.land shard mapperShardMask).
Definition unpackNodeID (id : Z) : Z * Z := (Z.land id mapperShardMask, Z.shiftr id mapperShardBits).
Definition MapperShardOf (id : Z) : Z := Z.land id mapperShardMask.

Inductive keyKind := kindOther | kindString | kindInt | kindInt8 | kindInt16 | kindInt32 | kindInt64
  | kindUint | kindUint8 | kindUint16 | kindUint32 | kindUint64 | kind16Bytes.

(** A key type: the dynamic type of [any(k)], and the value the hash reads, an integer
    for the integer kinds and bytes otherwise: for the kinds without a fast path, the
    bytes [fmt.Fprintf(h, "%v", v)] writes. *)
Class MapperKey (N : Type) := {
  key_kind : N -> keyKind;
  key_int : N -> Z;
  key_bytes : N -> list Z;
  zeroKey : N;
  addressDependent : N -> bool;
}.

(** The type switch on [any(zero)]. *)
Definition detectKeyKind {N} `{!MapperKey N} : keyKind := key_kind (zeroKey : N).

(** Every value of a type that is not an interface has that type. *)
Class MapperKeyLaws (N : Type) `{!MapperKey N} :=
  kind_static (k : N) : detectKeyKind (N:=N) <> kindOther -> key_kind k = detectKeyKind (N:=N).

Definition key_hash {N} `{!MapperKey N} (kind : keyKind) (k : N) : Z :=
  match kind with
  | kindString | kind16Bytes | kindOther => fnv1aString (key_bytes k)
  | kindInt | kindInt64 | kindUint | kindUint64 => fnv1aUint64 (u64 (key_int k))
  | kindInt8 | kindUint8 => fnv1aUint64 (u64 (u8 (key_int k)))
  | kindInt16 | kindUint16 => fnv1aUint64 (u64 (u16 (key_int k)))
  | kindInt32 | kindUint32 => fnv1aUint64 (u64 (u32 (key_int k)))
  end.

(** *** Id reservers

    [ReserveIDs] on a reserver that reads the reserved limits: the reserver after the
    call and its publications, pairs of a shard and a limit, in their order. *)
Class IDReserver (R : Type) := ReserveIDs : (Z -> Z) -> Z -> Z -> R -> R * list (Z * Z).

(** [storeMax] on the limit of a shard. *)
Definition raise_limit (lim : Z -> Z) (p : Z * Z) : Z -> Z := <[p.1 := Z.max (lim p.1) p.2]> lim.

(** What the mapper relies on: on a reserver in a proper state, the limit of the shard is
    at least [need] afterwards. *)
Class IDReserverLaws (R : Type) `{!IDReserver R} := {
  reserver_ok : R -> Prop;
  reserve_keeps lim shard need r : reserver_ok r -> 0 <= shard < mapperShardCount -> 0 <= need <= 2 ^ 56 -> reserver_ok (ReserveIDs lim shard need r).1;
  reserve_covers lim shard need r : reserver_ok r -> 0 <= shard < mapperShardCount -> 0 <= need <= 2 ^ 56 ->
    need <= foldl raise_limit lim (ReserveIDs lim shard need r).2 shard;
}.

Section mapper.
Context {N : Type} `{Countable N} `{!MapperKey N} {R : Type} `{!IDReserver R}.

Definition mapperShardFor (k : N) : Z := Z.land (key_hash (key_kind k) k) mapperShardMask.

(** ** Bitsets *)

Definition bit_get (words : list Z) (i : Z) : bool :=
  match aget words (Z.shiftr i 6) with Some w => Z.testbit w (Z.land i 63) | None => false end.
(** [words[i>>6] |= 1 << (i & 63)], the word being there. *)
Definition bit_set (words : list Z) (i : Z) : option (list Z) :=
  w ← aget words (Z.shiftr i 6); aset words (Z.shiftr i 6) (Z.lor w (Z.shiftl 1 (Z.land i 63))).
(** [words[i>>6] &^= 1 << (i & 63)] *)
Definition bit_clear (words : list Z) (i : Z) : option (list Z) :=
  w ← aget words (Z.shiftr i 6); aset words (Z.shiftr i 6) (Z.ldiff w (Z.shiftl 1 (Z.land i 63))).
(** The bitset grown with zero words to hold bit [i]. *)
Definition bit_room (words : list Z) (i : Z) : list Z :=
  words ++ replicate (Z.to_nat (Z.shiftr i 6 + 1 - Z.of_nat (length words))) 0.

(** ** Shards *)

Record mapperShard := mkShard {
  forward : gmap N Z;
  forwardDeletes : Z;
  reverse : list N;
  holes : list Z;
  holeCount : Z;
  tail : list (option (list N));
  tailBase : Z;
  tailLen : Z;
  tailHoles : list Z;
  tailHoleCount : Z;
  next : Z;
}.

Definition new_shard : mapperShard := mkShard ∅ 0 [] [] 0 [] 0 0 [] 0 0.

Definition with_forward f d s := mkShard f d (reverse s) (holes s) (holeCount s) (tail s) (tailBase s) (tailLen s) (tailHoles s) (tailHoleCount s) (next s).
Definition with_reverse r s := mkShard (forward s) (forwardDeletes s) r (holes s) (holeCount s) (tail s) (tailBase s) (tailLen s) (tailHoles s) (tailHoleCount s) (next s).
Definition with_holes h n s := mkShard (forward s) (forwardDeletes s) (reverse s) h n (tail s) (tailBase s) (tailLen s) (tailHoles s) (tailHoleCount s) (next s).
Definition with_tail t b n s := mkShard (forward s) (forwardDeletes s) (reverse s) (holes s) (holeCount s) t b n (tailHoles s) (tailHoleCount s) (next s).
Definition with_tailHoles h n s := mkShard (forward s) (forwardDeletes s) (reverse s) (holes s) (holeCount s) (tail s) (tailBase s) (tailLen s) h n (next s).
Definition with_next n s := mkShard (forward s) (forwardDeletes s) (reverse s) (holes s) (holeCount s) (tail s) (tailBase s) (tailLen s) (tailHoles s) (tailHoleCount s) n.

Definition rlen (s : mapperShard) : Z := Z.of_nat (length (reverse s)).

Definition endLocked s : Z := if negb (tailLen s =? 0) then tailBase s + tailLen s else rlen s.

Definition isHoleLocked s (idx : Z) : bool := bit_get (holes s) idx.

Definition setHoleLocked s (idx : Z) : option mapperShard :=
  let h := bit_room (holes s) idx in
  if bit_get h idx then Some (with_holes h (holeCount s) s)
  else h ← bit_set h idx; Some (with_holes h (holeCount s + 1) s).

Fixpoint grow_loop (n : nat) s : option mapperShard :=
  match n with
  | O => Some s
  | S n => s ← setHoleLocked s (rlen s); grow_loop n (with_reverse (reverse s ++ [zeroKey]) s)
  end.
Definition growToLocked s (idx : Z) : option mapperShard := grow_loop (Z.to_nat (idx - rlen s)) s.

Definition tailBitLocked s (rel : Z) : bool := bit_get (tailHoles s) rel.

Definition isTailHoleLocked s (rel : Z) : option bool :=
  pg ← aget (tail s) (Z.shiftr rel mapperPageBits);
  Some (match pg with None => true | Some _ => tailBitLocked s rel end).

Definition setTailHoleLocked s (rel : Z) : option mapperShard :=
  let h := bit_room (tailHoles s) rel in
  if bit_get h rel then Some (with_tailHoles h (tailHoleCount s) s)
  else h ← bit_set h rel; Some (with_tailHoles h (tailHoleCount s + 1) s).

Fixpoint tail_gap_loop (n : nat) s : option mapperShard :=
  match n with
  | O => Some s
  | S n => s ← setTailHoleLocked s (tailLen s); tail_gap_loop n (with_tail (tail s) (tailBase s) (tailLen s + 1) s)
  end.

(** The write of one slot of the tail, its page being allocated first if need be. *)
Definition tail_store s (rel : Z) (k : N) : option mapperShard :=
  let p := Z.shiftr rel mapperPageBits in
  let t := tail s ++ replicate (Z.to_nat (p + 1 - Z.of_nat (length (tail s)))) None in
  pg ← aget t p;
  let vals := match pg with Some vals => vals | None => replicate (Z.to_nat mapperPageSize) zeroKey end in
  vals ← aset vals (Z.land rel mapperPageMask) k;
  t ← aset t p (Some vals);
  Some (with_tail t (tailBase s) (tailLen s) s).

(** The part of [bindAtLocked] that binds a slot of the tail. *)
Definition bind_tail s (idx : Z) (k : N) : option mapperShard :=
  let rel := u64 (idx - tailBase s) in
  s ← tail_gap_loop (Z.to_nat (rel - tailLen s)) s;
  s ← (if rel <? tailLen s then h ← bit_clear (tailHoles s) rel; Some (with_tailHoles h (tailHoleCount s - 1) s)
       else Some (with_tail (tail s) (tailBase s) (rel + 1) s));
  tail_store s rel k.

Definition bindAtLocked s (idx : Z) (k : N) : option mapperShard :=
  let dense := rlen s in
  if (tailLen s =? 0) && (u64 (idx - dense) <? mapperTailGap) then
    s ← growToLocked s idx; Some (with_reverse (reverse s ++ [k]) s)
  else
    let s := (if tailLen s =? 0 then with_tail (tail s) idx (tailLen s) s else s) in
    if idx <? tailBase s then s ← growToLocked s idx; Some (with_reverse (reverse s ++ [k]) s)
    else bind_tail s idx k.

Definition resolveTailLocked s (idx : Z) : option (option N) :=
  if (tailLen s =? 0) || (idx <? tailBase s) || (tailLen s <=? idx - tailBase s) then Some None
  else
    let rel := idx - tailBase s in
    hole ← isTailHoleLocked s rel;
    if (hole : bool) then Some None
    else pg ← aget (tail s) (Z.shiftr rel mapperPageBits); vals ← pg; k ← aget vals (Z.land rel mapperPageMask); Some (Some k).

(** The cut of the holes at the end of the tail; [fuel] is the tail's length. *)
Fixpoint tail_cut (fuel : nat) s : option mapperShard :=
  match fuel with
  | O => Some s
  | S fuel =>
      if tailLen s =? 0 then Some s
      else
        hole ← isTailHoleLocked s (tailLen s - 1);
        if (hole : bool) then
          let s := with_tail (tail s) (tailBase s) (tailLen s - 1) s in
          s ← (if tailBitLocked s (tailLen s) then h ← bit_clear (tailHoles s) (tailLen s); Some (with_tailHoles h (tailHoleCount s - 1) s) else Some s);
          tail_cut fuel s
        else Some s
  end.

(** The pages and the words of the bitset left after the cut. *)
Definition tail_fit s : option mapperShard :=
  let pages := Z.shiftr (tailLen s + mapperPageMask) mapperPageBits in
  t ← (if Z.of_nat (length (tail s)) <? pages then None else Some (take (Z.to_nat pages) (tail s)));
  let s := with_tail t (tailBase s) (tailLen s) s in
  if tailLen s =? 0 then Some (with_tailHoles [] 0 (with_tail [] 0 0 s))
  else
    let words := Z.shiftr (tailLen s + 63) 6 in
    Some (if words <? Z.of_nat (length (tailHoles s)) then with_tailHoles (take (Z.to_nat words) (tailHoles s)) (tailHoleCount s) s else s).

Definition unplaceTailLocked s (idx : Z) : option (mapperShard * bool) :=
  if (tailLen s =? 0) || (idx <? tailBase s) || (tailLen s <=? idx - tailBase s) then Some (s, false)
  else
    let rel := idx - tailBase s in
    hole ← isTailHoleLocked s rel;
    if (hole : bool) then Some (s, false)
    else
      let p := Z.shiftr rel mapperPageBits in
      pg ← aget (tail s) p; vals ← pg;
      vals ← aset vals (Z.land rel mapperPageMask) zeroKey;
      t ← aset (tail s) p (Some vals);
      s ← setTailHoleLocked (with_tail t (tailBase s) (tailLen s) s) rel;
      let lo := Z.shiftl p mapperPageBits in
      let hi := Z.min (Z.shiftl (p + 1) mapperPageBits) (tailLen s) in
      t ← (if forallb (tailBitLocked s) (seqZ lo (hi - lo)) then aset (tail s) p None else Some (tail s));
      let s := with_next (Z.max (next s) (tailBase s + tailLen s)) (with_tail t (tailBase s) (tailLen s) s) in
      s ← tail_cut (Z.to_nat (tailLen s)) s;
      s ← tail_fit s;
      Some (s, true).

(** The cut of the holes at the end of the reverse table: the length left. *)
Fixpoint reverse_cut (fuel : nat) s (n : Z) : option (mapperShard * Z) :=
  match fuel with
  | O => Some (s, n)
  | S fuel =>
      if (0 <? n) && isHoleLocked s (n - 1) then
        h ← bit_clear (holes s) (n - 1);
        reverse_cut fuel (with_holes h (holeCount s - 1) s) (n - 1)
      else Some (s, n)
  end.

Definition trimTrailingHolesLocked s : option mapperShard :=
  let oldLen := rlen s in
  let s := with_next (Z.max (next s) oldLen) s in
  '(s, n) ← reverse_cut (Z.to_nat oldLen) s oldLen;
  if n =? oldLen then Some s
  else
    let s := with_reverse (take (Z.to_nat n) (reverse s)) s in
    let words := Z.shiftr (n + 63) 6 in
    Some (if holeCount s =? 0 then with_holes [] (holeCount s) s
          else if words <? Z.of_nat (length (holes s)) then with_holes (take (Z.to_nat words) (holes s)) (holeCount s) s
          else s).

(** ** The mapper *)

Record Mapper := mkMapper {
  kind : keyKind;
  shards : Z -> mapperShard;
  idLimit : Z -> Z;
  reserver : option R;
}.

Definition NewMapper : Mapper := mkMapper (detectKeyKind (N:=N)) (fun _ => new_shard) (fun _ => 0) None.

Definition shardFor (m : Mapper) (k : N) : Z :=
  match kind m with kindOther => mapperShardFor k | kd => Z.land (key_hash kd k) mapperShardMask end.

Definition with_shard (i : Z) s (m : Mapper) : Mapper := mkMapper (kind m) (<[i:=s]> (shards m)) (idLimit m) (reserver m).

Definition SetIDReserver (r : option R) (m : Mapper) : Mapper := mkMapper (kind m) (shards m) (fun _ => 0) r.

Definition publish (m : Mapper) (p : Z * Z) : Mapper := mkMapper (kind m) (shards m) (raise_limit (idLimit m) p) (reserver m).
Definition PublishReservation (shard limit : Z) (m : Mapper) : option Mapper :=
  if (0 <=? shard) && (shard <? mapperShardCount) then Some (publish m (shard, limit)) else None.
Definition ReservedLimit (shard : Z) (m : Mapper) : option Z :=
  if (0 <=? shard) && (shard <? mapperShardCount) then Some (idLimit m shard) else None.
Definition MaxUint64 : Z := 2 ^ 64 - 1.
Definition ReservedLimits (m : Mapper) : list Z :=
  (fun i => if idLimit m i =? MaxUint64 then 0 else idLimit m i) <$> seqZ 0 mapperShardCount.

Definition RestoreNext (shard nx : Z) (m : Mapper) : option Mapper :=
  if (0 <=? shard) && (shard <? mapperShardCount) then
    let s := shards m shard in Some (with_shard shard (with_next (Z.max nx (endLocked s)) s) m)
  else None.

(** *** Interning *)

Section hook.
Context {H_ : Type} (onCreate : option (Z -> H_ -> H_)).

Definition internSlowHook (shardIdx : Z) (k : N) (m : Mapper) (h : H_) : option (Mapper * H_ * Z * bool) :=
  let s := shards m shardIdx in
  match forward s !! k with
  | Some id => Some (m, h, id, false)
  | None =>
      let idx := Z.max (next s) (endLocked s) in
      let m := match reserver m with
          | None => m
          | Some r =>
              if idLimit m shardIdx <=? idx then
                let '(r, pubs) := ReserveIDs (idLimit m) shardIdx (u64 (idx + 1)) r in
                foldl publish (mkMapper (kind m) (shards m) (idLimit m) (Some r)) pubs
              else m
          end in
      let id := packNodeID shardIdx idx in
      s ← (if (tailLen s =? 0) && (idx =? rlen s) then Some (with_reverse (reverse s ++ [k]) s) else bindAtLocked s idx k);
      let s := with_forward (<[k:=id]> (forward s)) (forwardDeletes s) (with_next (u64 (idx + 1)) s) in
      Some (with_shard shardIdx s m, match onCreate with Some f => f id h | None => h end, id, true)
  end.

(** The two critical sections of an intern: the read-locked lookup and, when it
    missed, the write-locked slow path, in which the key may have appeared since. *)
Definition intern_fast (k : N) (m : Mapper) : option Z := forward (shards m (shardFor m k)) !! k.
Definition InternNewHook (k : N) (m : Mapper) (h : H_) : option (Mapper * H_ * Z * bool) :=
  match intern_fast k m with
  | Some id => Some (m, h, id, false)
  | None => internSlowHook (shardFor m k) k m h
  end.
End hook.

Definition InternNew (k : N) (m : Mapper) : option (Mapper * Z * bool) :=
  '(m, _, id, created) ← InternNewHook (H_:=unit) None k m tt; Some (m, id, created).
Definition Intern (k : N) (m : Mapper) : option (Mapper * Z) :=
  '(m, id, _) ← InternNew k m; Some (m, id).

Definition Lookup (k : N) (m : Mapper) : option Z := forward (shards m (shardFor m k)) !! k.

Definition resolve_shard (s : mapperShard) (idx : Z) : option (option N) :=
  if rlen s <=? idx then resolveTailLocked s idx
  else if isHoleLocked s idx then Some None
  else k ← aget (reverse s) idx; Some (Some k).
Definition Resolve (id : Z) (m : Mapper) : option (option N) :=
  let '(shardIdx, idx) := unpackNodeID id in resolve_shard (shards m shardIdx) idx.

(** *** Walks *)

Section walk.
Context {St : Type} (fn : Z -> N -> St -> St * bool).

(** The slots [xs] from index [i] on, the skipped ones left out; the flag tells
    whether to go on. *)
Fixpoint visit_slots (skip : Z -> bool) (id_of : Z -> Z) (i : Z) (xs : list N) (st : St) : St * bool :=
  match xs with
  | [] => (st, true)
  | x :: xs =>
      if skip i then visit_slots skip id_of (i + 1) xs st
      else
        let '(st, go) := fn (id_of i) x st in
        if (go : bool) then visit_slots skip id_of (i + 1) xs st else (st, false)
  end.

Fixpoint walkTailLocked (s : mapperShard) (shardIdx p : Z) (pages : list (option (list N))) (st : St) : St * bool :=
  match pages with
  | [] => (st, true)
  | None :: pages => walkTailLocked s shardIdx (p + 1) pages st
  | Some vals :: pages =>
      let lo := Z.shiftl p mapperPageBits in
      let hi := Z.min (lo + mapperPageSize) (tailLen s) in
      let '(st, go) := visit_slots (tailBitLocked s) (fun rel => packNodeID shardIdx (tailBase s + rel)) lo (take (Z.to_nat (hi - lo)) vals) st in
      if (go : bool) then walkTailLocked s shardIdx (p + 1) pages st else (st, false)
  end.

(** One shard of the walk, under its read lock. *)
Definition walk_shard (s : mapperShard) (shardIdx : Z) (st : St) : St * bool :=
  let '(st, go) := visit_slots (isHoleLocked s) (packNodeID shardIdx) 0 (reverse s) st in
  if negb go then (st, false)
  else if tailLen s =? 0 then (st, true)
  else walkTailLocked s shardIdx 0 (tail s) st.

Fixpoint walk_shards (m : Mapper) (is_ : list Z) (st : St) : St :=
  match is_ with
  | [] => st
  | i :: is_ => let '(st, go) := walk_shard (shards m i) i st in if (go : bool) then walk_shards m is_ st else st
  end.
Definition Walk (m : Mapper) (st : St) : St := walk_shards m (seqZ 0 mapperShardCount) st.
End walk.

Record MapperCursor := mkCursor { c_shard : Z; c_intra : Z }.
Definition Done (c : MapperCursor) : bool := mapperShardCount <=? c_shard c.

(** The loop over the reverse table: the ids, the index and the limit left. *)
Fixpoint append_dense (fuel : nat) (s : mapperShard) (shard n intra limit : Z) (dst : list Z) : option (list Z * Z * Z) :=
  match fuel with
  | O => None
  | S fuel =>
      if (intra <? n) && (0 <? limit) then
        if isHoleLocked s intra then append_dense fuel s shard n (intra + 1) limit dst
        else append_dense fuel s shard n (intra + 1) (limit - 1) (dst ++ [packNodeID shard intra])
      else Some (dst, intra, limit)
  end.

Fixpoint append_tail (fuel : nat) (s : mapperShard) (shard n intra limit : Z) (dst : list Z) : option (list Z * Z * Z) :=
  match fuel with
  | O => None
  | S fuel =>
      if (intra <? n) && (0 <? limit) then
        let rel := u64 (intra - tailBase s) in
        pg ← aget (tail s) (Z.shiftr rel mapperPageBits);
        match pg with
        | None => append_tail fuel s shard n (Z.min n (tailBase s + (Z.lor rel mapperPageMask) + 1)) limit dst
        | Some _ =>
            hole ← isTailHoleLocked s rel;
            if (hole : bool) then append_tail fuel s shard n (intra + 1) limit dst
            else append_tail fuel s shard n (intra + 1) (limit - 1) (dst ++ [packNodeID shard intra])
        end
      else Some (dst, intra, limit)
  end.

(** One turn of the loop over the shards, under the shard's read lock. *)
Definition append_shard (s : mapperShard) (cur : MapperCursor) (limit : Z) (dst : list Z) : option (list Z * MapperCursor * Z) :=
  let shard := c_shard cur in
  let n := rlen s in
  '(dst, intra, limit) ← append_dense (S (Z.to_nat (n - c_intra cur))) s shard n (c_intra cur) limit dst;
  '(dst, intra, limit, n) ←
    (if negb (tailLen s =? 0) then
       let intra := Z.max intra (tailBase s) in
       let n := tailBase s + tailLen s in
       '(dst, intra, limit) ← append_tail (S (Z.to_nat (n - intra))) s shard n intra limit dst;
       Some (dst, intra, limit, n)
     else Some (dst, intra, limit, n));
  Some (dst, (if n <=? intra then mkCursor (shard + 1) 0 else mkCursor shard intra), limit).

Fixpoint append_loop (fuel : nat) (m : Mapper) (dst : list Z) (cur : MapperCursor) (limit : Z) : option (list Z * MapperCursor) :=
  match fuel with
  | O => None
  | S fuel =>
      if (0 <? limit) && (c_shard cur <? mapperShardCount) then
        '(dst, cur, limit) ← append_shard (shards m (c_shard cur)) cur limit dst;
        append_loop fuel m dst cur limit
      else Some (dst, cur)
  end.
Definition AppendIDs (dst : list Z) (cur : MapperCursor) (limit : Z) (m : Mapper) : option (list Z * MapperCursor) :=
  append_loop (S (S (Z.to_nat (mapperShardCount - c_shard cur)))) m dst cur limit.

(** *** Counts and marks *)

Definition shard_len (s : mapperShard) : Z := rlen s - holeCount s + tailLen s - tailHoleCount s.
Definition Len (m : Mapper) : Z := foldl (fun n i => n + shard_len (shards m i)) 0 (seqZ 0 mapperShardCount).

Definition MaxNodeID (m : Mapper) : Z :=
  let maxIntra := foldl (fun e i => Z.max e (endLocked (shards m i))) 0 (seqZ 0 mapperShardCount) in
  if maxIntra =? 0 then 0 else u64 (packNodeID (mapperShardCount - 1) (maxIntra - 1) + 1).

Record MapperWatermark := mkWatermark { wm : Z -> Z }.
Definition mark (s : mapperShard) : Z := Z.max (next s) (endLocked s).
Definition Watermark (m : Mapper) : MapperWatermark := mkWatermark (fun i => mark (shards m i)).
Definition Covers (id : Z) (w : MapperWatermark) : bool := let '(shard, idx) := unpackNodeID id in idx <? wm w shard.
Definition Next (w : MapperWatermark) : list Z := wm w <$> seqZ 0 mapperShardCount.

(** *** Recovery *)

Inductive place_error := OtherShard | BoundElsewhere (cur : Z) | SlotHeld.

Definition place_shard (s : mapperShard) (idx : Z) (k : N) : option (place_error + mapperShard) :=
  if idx <? rlen s then
    if negb (isHoleLocked s idx) then Some (inl SlotHeld)
    else
      r ← aset (reverse s) idx k;
      h ← bit_clear (holes s) idx;
      Some (inr (with_holes h (holeCount s - 1) (with_reverse r s)))
  else if negb (tailLen s =? 0) && (tailBase s <=? idx) && (idx - tailBase s <? tailLen s) then
    hole ← isTailHoleLocked s (idx - tailBase s);
    if negb hole then Some (inl SlotHeld) else s ← bindAtLocked s idx k; Some (inr s)
  else s ← bindAtLocked s idx k; Some (inr s).

Definition PlaceUnborn (k : N) (id : Z) (m : Mapper) : option (Mapper * (place_error + bool)) :=
  let '(shardIdx, idx) := unpackNodeID id in
  if negb (shardFor m k =? shardIdx) then Some (m, inl OtherShard)
  else
    let s := shards m shardIdx in
    match forward s !! k with
    | Some cur => Some (m, if cur =? id then inr false else inl (BoundElsewhere cur))
    | None =>
        r ← place_shard s idx k;
        match r with
        | inl e => Some (m, inl e)
        | inr s =>
            let s := with_next (Z.max (next s) (u64 (idx + 1))) (with_forward (<[k:=id]> (forward s)) (forwardDeletes s) s) in
            Some (with_shard shardIdx s m, inr true)
        end
    end.

(** The bookkeeping of a deletion from the forward map. *)
Definition delete_forward (k : N) (s : mapperShard) : mapperShard :=
  let f := delete k (forward s) in
  let d := forwardDeletes s + 1 in
  with_forward f (if (64 <=? d) && (Z.of_nat (size f) <=? d) then 0 else d) s.

Definition unplace_shard (s : mapperShard) (idx : Z) : option (mapperShard * bool) :=
  if rlen s <=? idx then unplaceTailLocked s idx
  else
    r ← aset (reverse s) idx zeroKey;
    s ← setHoleLocked (with_reverse r s) idx;
    s ← (if idx =? rlen s - 1 then trimTrailingHolesLocked s else Some s);
    Some (s, true).

Definition Unplace (k : N) (id : Z) (m : Mapper) : option (Mapper * bool) :=
  let '(shardIdx, idx) := unpackNodeID id in
  let s := shards m shardIdx in
  if negb (bool_decide (forward s !! k = Some id)) then Some (m, false)
  else
    '(s, ok) ← unplace_shard s idx;
    if negb ok then Some (with_shard shardIdx s m, false) else Some (with_shard shardIdx (delete_forward k s) m, true).

Record MapperEntry := mkEntry { Key : N; ID : Z }.

Inductive load_error := ErrMapperNotEmpty | ErrShard (notPortable : bool) | ErrAboveMark | ErrDuplicateIndex | ErrDuplicateKey.

Definition shard_empty (s : mapperShard) : bool :=
  bool_decide (size (forward s) = 0%nat) && (rlen s =? 0) && (tailLen s =? 0) && (next s =? 0).

(** The grouping of the entries by shard, in their order. *)
Fixpoint bucket_entries (marks : option (Z -> Z)) (es : list MapperEntry) (buckets : Z -> list (Z * N)) : load_error + (Z -> list (Z * N)) :=
  match es with
  | [] => inr buckets
  | e :: es =>
      let '(shardIdx, intraIdx) := unpackNodeID (ID e) in
      if negb (shardIdx =? mapperShardFor (Key e)) then inl (ErrShard (addressDependent (Key e)))
      else if (match marks with Some nx => nx shardIdx <=? intraIdx | None => false end) then inl ErrAboveMark
      else bucket_entries marks es (<[shardIdx := buckets shardIdx ++ [(intraIdx, Key e)]]> buckets)
  end.

(** The commit of one sorted bucket; [prev] is the index of the entry before. *)
Fixpoint load_bucket (shardIdx : Z) (prev : option Z) (bucket : list (Z * N)) (s : mapperShard) : option (mapperShard * option load_error) :=
  match bucket with
  | [] => Some (s, None)
  | (intra, k) :: bucket =>
      if bool_decide (prev = Some intra) then Some (s, Some ErrDuplicateIndex)
      else if bool_decide (is_Some (forward s !! k)) then Some (s, Some ErrDuplicateKey)
      else
        s ← growToLocked s intra;
        let s := with_forward (<[k := packNodeID shardIdx intra]> (forward s)) (forwardDeletes s) (with_reverse (reverse s ++ [k]) s) in
        load_bucket shardIdx (Some intra) bucket s
  end.

Section load.
(** [sort.Slice(bucket, ...)] by the index within the shard. *)
Context (sortByIntra : list (Z * N) -> list (Z * N)).

(** The commit of one shard's bucket.  The reverse table is made with room up to the largest index;
    capacities are no part of a shard, so that allocation does not fail here. *)
Definition load_shard (marks : option (Z -> Z)) (buckets : Z -> list (Z * N)) (m : Mapper) (i : Z) : option (Mapper * option load_error) :=
  let hw := match marks with Some nx => nx i | None => 0 end in
  let s := shards m i in
  match buckets i with
  | [] => Some (if 0 <? hw then with_shard i (with_next hw s) m else m, None)
  | b =>
      let b := sortByIntra b in
      lastEntry ← last b;
      let top := u64 (lastEntry.1 + 1) in
      '(s, err) ← load_bucket i None b (with_forward ∅ (forwardDeletes s) (with_reverse [] s));
      match err with
      | Some e => Some (with_shard i s m, Some e)
      | None => Some (with_shard i (with_next (Z.max hw top) s) m, None)
      end
  end.

Fixpoint load_shards (marks : option (Z -> Z)) (buckets : Z -> list (Z * N)) (is_ : list Z) (m : Mapper) : option (Mapper * option load_error) :=
  match is_ with
  | [] => Some (m, None)
  | i :: is_ =>
      '(m, err) ← load_shard marks buckets m i;
      match err with Some e => Some (m, Some e) | None => load_shards marks buckets is_ m end
  end.

Definition LoadFrom (es : list MapperEntry) (marks : option (Z -> Z)) (m : Mapper) : option (Mapper * option load_error) :=
  if negb (forallb (fun i => shard_empty (shards m i)) (seqZ 0 mapperShardCount)) then Some (m, Some ErrMapperNotEmpty)
  else match bucket_entries marks es (fun _ => []) with
  | inl e => Some (m, Some e)
  | inr buckets => load_shards marks buckets (seqZ 0 mapperShardCount) m
  end.
End load.
End mapper.
