(* ===== verification/MapperFacts.v ===== *)
(** * The node mapper: bitsets and the slots of a shard

    A bitset stands for the set of its bits.  A shard stands for its slots, the function
    from the index in the shard to the key bound there that [Resolve] computes: every
    operation of a shard is an update of that function that keeps the shard's
    invariant. *)

From Stdlib Require Import ZArith Lia.
From stdpp Require Import gmap list_numbers.
From S2P Require Import Prelude Csr CsrRows Mapper.

Local Open Scope Z_scope.

(** ** Bitsets *)

Definition bits_are (words : list Z) (X : gset Z) : Prop := forall i, bit_get words i = true <-> i ∈ X.

Lemma land63 i : Z.land i 63 = i mod 64.
Proof. apply (Z.land_ones i 6). lia. Qed.

Lemma shr6 i : Z.shiftr i 6 = i / 64.
Proof. apply Z.shiftr_div_pow2. lia. Qed.

Lemma bit_get_alt words i : bit_get words i = match aget words (i / 64) with Some w => Z.testbit w (i mod 64) | None => false end.
Proof. unfold bit_get. by rewrite land63, shr6. Qed.

Lemma bits_word words X i : bits_are words X -> i ∈ X -> exists w, aget words (i / 64) = Some w.
Proof. intros HX Hi. apply HX in Hi. rewrite bit_get_alt in Hi. case_match; [eauto|done]. Qed.

Lemma bits_nonneg words X i : bits_are words X -> i ∈ X -> 0 <= i.
Proof. intros HX Hi. destruct (bits_word _ _ _ HX Hi) as [w Hw%aget_range]. pose proof (Z.div_mod i 64). pose proof (Z.mod_pos_bound i 64). lia. Qed.

Lemma bits_dec words X i : bits_are words X -> bit_get words i = bool_decide (i ∈ X).
Proof. intros HX. apply eq_true_iff_eq. rewrite (HX i), bool_decide_eq_true. done. Qed.

Lemma same_word i j : i / 64 = j / 64 -> i mod 64 = j mod 64 -> i = j.
Proof. intros. rewrite (Z.div_mod i 64), (Z.div_mod j 64) by lia. congruence. Qed.

(** A word updated at one bit. *)
Lemma bits_update words X i w f Y :
  0 <= i -> bits_are words X -> aget words (i / 64) = Some w ->
  (forall b, 0 <= b -> Z.testbit (f w) b = if decide (b = i mod 64) then bool_decide (i ∈ Y) else Z.testbit w b) ->
  (forall j, j <> i -> j ∈ Y <-> j ∈ X) ->
  bits_are (<[Z.to_nat (i / 64) := f w]> words) Y.
Proof.
  intros Hi HX Hw Hf HY j. rewrite bit_get_alt. pose proof (aget_range _ _ _ Hw) as Hr. apply aget_Some in Hw as [_ Hw].
  destruct (decide (0 <= j / 64)) as [Hj|Hj].
  2:{ unfold aget. rewrite decide_False by done. split; [done|]. intros Hin. exfalso.
    assert (j <> i) as Hn by (intros ->; lia). rewrite HY in Hin by done. apply (bits_nonneg _ _ _ HX) in Hin. apply Hj. apply Z.div_pos; lia. }
  unfold aget. rewrite decide_True by done. destruct (decide (i / 64 = j / 64)) as [E|E].
  - rewrite E, list_lookup_insert_eq by (rewrite <- E; lia). rewrite Hf by (apply Z.mod_pos_bound; lia). destruct (decide (j mod 64 = i mod 64)) as [Hd|Hd].
    + pose proof (same_word _ _ E (eq_sym Hd)) as ->. apply bool_decide_eq_true.
    + rewrite HY by congruence. rewrite <- (HX j), bit_get_alt. unfold aget. rewrite !decide_True by done.
      rewrite <- E, Hw. done.
  - rewrite list_lookup_insert_ne by lia. rewrite HY by congruence. rewrite <- (HX j), bit_get_alt.
    unfold aget. by rewrite decide_True.
Qed.

Lemma testbit_one n b : 0 <= n -> 0 <= b -> Z.testbit (Z.shiftl 1 n) b = bool_decide (b = n).
Proof.
  intros. rewrite Z.shiftl_1_l, Z.pow2_bits_eqb by done.
  apply eq_true_iff_eq. rewrite bool_decide_eq_true, Z.eqb_eq. split; congruence.
Qed.

Lemma bit_set_bits words X i w : 0 <= i -> bits_are words X -> aget words (i / 64) = Some w ->
  exists words', bit_set words i = Some words' /\ bits_are words' ({[i]} ∪ X) /\ length words' = length words.
Proof.
  intros Hi HX Hw. unfold bit_set. rewrite land63, shr6, Hw. cbn.
  rewrite aset_Some by (by apply aget_range in Hw). eexists. split; [done|]. split; [|apply length_insert].
  apply (bits_update words X i w (fun w => Z.lor w (Z.shiftl 1 (i mod 64)))); [done..| |set_solver].
  intros b Hb. rewrite Z.lor_spec, testbit_one by (try apply Z.mod_pos_bound; lia).
  destruct (decide (b = i mod 64)); [rewrite !bool_decide_true by set_solver; apply orb_true_r|].
  by rewrite bool_decide_false, orb_false_r by done.
Qed.

Lemma bit_clear_bits words X i : bits_are words X -> i ∈ X ->
  exists words', bit_clear words i = Some words' /\ bits_are words' (X ∖ {[i]}) /\ length words' = length words.
Proof.
  intros HX Hi. destruct (bits_word _ _ _ HX Hi) as [w Hw]. unfold bit_clear. rewrite land63, shr6, Hw. cbn.
  rewrite aset_Some by (by apply aget_range in Hw). eexists. split; [done|]. split; [|apply length_insert].
  apply (bits_update words X i w (fun w => Z.ldiff w (Z.shiftl 1 (i mod 64)))); [by eapply bits_nonneg|done..| |set_solver].
  intros b Hb. rewrite Z.ldiff_spec, testbit_one by (try apply Z.mod_pos_bound; lia).
  destruct (decide (b = i mod 64)); [rewrite bool_decide_true, bool_decide_false by set_solver; apply andb_false_r|].
  by rewrite bool_decide_false, andb_true_r by done.
Qed.

Lemma bit_room_bits words X i : 0 <= i -> bits_are words X ->
  bits_are (bit_room words i) X /\ exists w, aget (bit_room words i) (i / 64) = Some w.
Proof.
  intros Hi HX. unfold bit_room. rewrite shr6. split.
  - intros j. rewrite <- (HX j), !bit_get_alt. unfold aget. case_decide; [|done].
    destruct (decide (Z.to_nat (j / 64) < length words)%nat).
    + by rewrite lookup_app_l.
    + rewrite lookup_app_r, (lookup_ge_None_2 words) by lia. case_match eqn:E; [|done].
      apply lookup_replicate in E as [-> _]. rewrite Z.testbit_0_l. done.
  - apply aget_is_Some. rewrite length_app, length_replicate. pose proof (Z.div_pos i 64). lia.
Qed.

Lemma bit_take_bits words X n : bits_are words X -> (forall i, i ∈ X -> i < n) ->
  bits_are (take (Z.to_nat (Z.shiftr (n + 63) 6)) words) X.
Proof.
  intros HX Hn j. rewrite shr6. split; intros Hj.
  - apply HX. rewrite bit_get_alt in *. unfold aget in *. case_decide; [|done].
    destruct (decide (Z.to_nat (j / 64) < Z.to_nat ((n + 63) / 64))%nat); [by rewrite lookup_take_lt in Hj|].
    by rewrite lookup_take_ge in Hj by lia.
  - pose proof (bits_nonneg _ _ _ HX Hj) as H0. pose proof (Hn j Hj) as Hlt. rewrite <- (HX j) in Hj.
    rewrite bit_get_alt in *. unfold aget in *. case_decide; [|done].
    rewrite lookup_take_lt; [done|]. assert (j / 64 < (n + 63) / 64); [|lia].
    assert (j / 64 + 1 <= (n + 63) / 64); [|lia]. rewrite <- Z.div_add by lia. apply Z.div_le_mono; lia.
Qed.

Lemma bits_nil : bits_are [] ∅.
Proof. intros i. rewrite bit_get_alt. unfold aget. case_decide; set_solver. Qed.

(** ** The slots of a shard *)

Lemma page_of rel : Z.shiftr rel mapperPageBits = rel / 64.
Proof. exact (shr6 rel). Qed.

Lemma in_page rel : Z.land rel mapperPageMask = rel mod 64.
Proof. exact (land63 rel). Qed.

Lemma page_count n : Z.shiftr (n + mapperPageMask) mapperPageBits = (n + 63) / 64.
Proof. exact (shr6 (n + 63)). Qed.

Lemma page_start p : Z.shiftl p mapperPageBits = 64 * p.
Proof. unfold mapperPageBits. rewrite Z.shiftl_mul_pow2 by lia. change (2 ^ 6) with 64. lia. Qed.

Section shard.
Context {N : Type} `{Countable N} `{!MapperKey N}.
Implicit Types (s : mapperShard (N:=N)) (HX TX : gset Z) (i rel idx : Z).

(** The cell of a slot of the tail. *)
Definition tcell s rel : option N := pg ← aget (tail s) (rel / 64); vals ← pg; aget vals (rel mod 64).

(** What holds of the bitsets and the tail at every point of an operation: [HX] are the
    holes of the reverse table, [TX] those of the tail. *)
Record core s HX TX : Prop := {
  c_holes : bits_are (holes s) HX;
  c_count : holeCount s = Z.of_nat (size HX);
  c_bound : forall i, i ∈ HX -> i < rlen s;
  c_tholes : bits_are (tailHoles s) TX;
  c_tcount : tailHoleCount s = Z.of_nat (size TX);
  c_tbound : forall i, i ∈ TX -> i < tailLen s;
  c_full : forall p vals, aget (tail s) p = Some (Some vals) -> Z.of_nat (length vals) = 64;
  c_base : tailLen s <> 0 -> rlen s <= tailBase s;
  c_len : 0 <= tailLen s /\ 0 <= tailBase s;
}.

(** Every slot of the tail that is not a hole, [e] apart, has a cell. *)
Definition cells s TX (e : Z) : Prop := forall rel, 0 <= rel < tailLen s -> rel ∉ TX -> rel <> e -> is_Some (tcell s rel).

Record rep s HX TX : Prop := {
  r_core : core s HX TX;
  r_pages : Z.of_nat (length (tail s)) = (tailLen s + 63) / 64;
  r_cells : cells s TX (-1);
}.
Definition shard_ok s : Prop := exists HX TX, rep s HX TX.

Definition view s HX TX i : option N :=
  if decide (i < rlen s) then if decide (i ∈ HX) then None else aget (reverse s) i
  else if decide (tailBase s <= i < tailBase s + tailLen s) then
    if decide (i - tailBase s ∈ TX) then None else tcell s (i - tailBase s)
  else None.

Lemma page_Some s rel : 0 <= rel < tailLen s -> (tailLen s + 63) / 64 <= Z.of_nat (length (tail s)) ->
  exists pg, aget (tail s) (rel / 64) = Some pg.
Proof.
  intros Hr Hp. apply aget_is_Some. split; [apply Z.div_pos; lia|].
  assert (rel / 64 + 1 <= (tailLen s + 63) / 64); [|lia].
  rewrite <- Z.div_add by lia. apply Z.div_le_mono; lia.
Qed.

Lemma tail_hole s HX TX rel : core s HX TX -> cells s TX (-1) -> 0 <= rel < tailLen s ->
  (tailLen s + 63) / 64 <= Z.of_nat (length (tail s)) -> isTailHoleLocked s rel = Some (bool_decide (rel ∈ TX)).
Proof.
  intros Hc Hcell Hr Hp. destruct (page_Some s rel Hr Hp) as [pg Hpg].
  unfold isTailHoleLocked. rewrite page_of, Hpg. cbn. destruct pg as [vals|].
  - unfold tailBitLocked. by rewrite (bits_dec _ _ _ (c_tholes _ _ _ Hc)).
  - case_bool_decide as Hin; [done|]. destruct (Hcell rel Hr Hin) as [k Hk]; [lia|]. unfold tcell in Hk. by rewrite Hpg in Hk.
Qed.

Lemma tail_read s rel k : tcell s rel = Some k ->
  exists vals, aget (tail s) (rel / 64) = Some (Some vals) /\ aget vals (rel mod 64) = Some k.
Proof. unfold tcell. destruct (aget (tail s) (rel / 64)) as [[vals|]|]; cbn; [eauto|done..]. Qed.

(** The source's two reads of a slot are the view. *)
Lemma resolve_view s HX TX i : rep s HX TX -> 0 <= i -> resolve_shard s i = Some (view s HX TX i).
Proof.
  intros [Hc Hp Hcell] Hi. unfold resolve_shard, view.
  destruct (Z.leb_spec (rlen s) i) as [Hd|Hd].
  - rewrite decide_False by lia. unfold resolveTailLocked. pose proof (c_len _ _ _ Hc).
    destruct (decide (tailBase s <= i < tailBase s + tailLen s)) as [Hin|Hout].
    2:{ destruct (Z.eqb_spec (tailLen s) 0); [done|]. destruct (Z.ltb_spec i (tailBase s)); [done|].
      destruct (Z.leb_spec (tailLen s) (i - tailBase s)); [done|lia]. }
    destruct (Z.eqb_spec (tailLen s) 0); [lia|]. destruct (Z.ltb_spec i (tailBase s)); [lia|].
    destruct (Z.leb_spec (tailLen s) (i - tailBase s)); [lia|]. cbn.
    rewrite (tail_hole s HX TX) by (done || lia). cbn. case_bool_decide as Hh; [by rewrite decide_True|].
    rewrite decide_False by done. destruct (Hcell (i - tailBase s)) as [k Hk]; [lia|done|lia|].
    destruct (tail_read _ _ _ Hk) as (vals & Hv & Hk'). rewrite page_of, in_page, Hv. cbn. by rewrite Hk', Hk.
  - rewrite decide_True by lia. unfold isHoleLocked. rewrite (bits_dec _ _ _ (c_holes _ _ _ Hc)).
    case_bool_decide; [by rewrite decide_True|]. rewrite decide_False by done.
    destruct (aget_is_Some (reverse s) i) as [k Hk]; [unfold rlen in Hd; lia|]. by rewrite Hk.
Qed.

(** The key bound to a slot. *)
Definition slot s i : option N := default None (resolve_shard s i).

Lemma slot_view s HX TX i : rep s HX TX -> 0 <= i -> slot s i = view s HX TX i.
Proof. intros Hr Hi. unfold slot. by rewrite (resolve_view s HX TX). Qed.

Lemma resolve_slot s i : shard_ok s -> 0 <= i -> resolve_shard s i = Some (slot s i).
Proof. intros (HX & TX & Hr) Hi. rewrite (slot_view s HX TX) by done. by apply resolve_view. Qed.

Lemma slot_end s i : shard_ok s -> endLocked s <= i -> slot s i = None.
Proof.
  intros (HX & TX & Hr) Hi. pose proof (r_core _ _ _ Hr) as Hc. pose proof (c_len _ _ _ Hc). pose proof (c_base _ _ _ Hc).
  assert (0 <= rlen s) by (unfold rlen; lia).
  assert (rlen s <= i /\ tailBase s + tailLen s <= i \/ rlen s <= i /\ tailLen s = 0) as Hcase.
  { unfold endLocked in Hi. destruct (Z.eqb_spec (tailLen s) 0); cbn in Hi; lia. }
  rewrite (slot_view s HX TX) by (done || lia). unfold view. rewrite !decide_False by lia. done.
Qed.

Lemma new_shard_ok : shard_ok new_shard.
Proof.
  exists ∅, ∅. split; [split; try done; try apply bits_nil; cbn|done|].
  - intros p vals Hp%aget_range. cbn in Hp. lia.
  - intros rel Hr. cbn in Hr. lia.
Qed.

(** *** The reverse table *)

Lemma core_push s HX TX k : core s HX TX -> tailLen s = 0 \/ rlen s < tailBase s ->
  core (with_reverse (reverse s ++ [k]) s) HX TX.
Proof.
  intros Hc Hd. destruct Hc. split; try done; unfold rlen in *; cbn in *; rewrite ?length_app; cbn.
  - intros i Hi%c_bound0. lia.
  - lia.
Qed.

Lemma rep_push s HX TX k : rep s HX TX -> tailLen s = 0 \/ rlen s < tailBase s ->
  rep (with_reverse (reverse s ++ [k]) s) HX TX.
Proof. intros [Hc Hp Hcell] Hd. split; [by apply core_push|done..]. Qed.

Lemma view_push s HX TX k i : core s HX TX -> tailLen s = 0 \/ rlen s < tailBase s -> 0 <= i ->
  view (with_reverse (reverse s ++ [k]) s) HX TX i = if decide (i = rlen s) then Some k else view s HX TX i.
Proof.
  intros Hc Hd Hi. unfold view. cbn. unfold rlen. cbn. rewrite length_app. cbn. fold (rlen s).
  destruct (decide (i = rlen s)) as [->|Hn].
  - rewrite decide_True by (unfold rlen; lia). rewrite decide_False by (intros Hx%(c_bound _ _ _ Hc); lia).
    unfold rlen. rewrite aget_nat, lookup_app_r, Nat.sub_diag by lia. done.
  - destruct (decide (i < rlen s)) as [Hlt|Hge].
    + rewrite !decide_True by (unfold rlen in *; lia). case_decide; [done|]. unfold aget. rewrite !decide_True by done.
      apply lookup_app_l. unfold rlen in *. lia.
    + rewrite decide_False by (unfold rlen in *; lia). done.
Qed.

(** A hole pushed: the step of [growToLocked]. *)
Lemma grow_step s HX TX : rep s HX TX -> tailLen s = 0 \/ rlen s < tailBase s ->
  exists h, setHoleLocked s (rlen s) = Some (with_holes h (holeCount s + 1) s) /\
    rep (with_reverse (reverse s ++ [zeroKey]) (with_holes h (holeCount s + 1) s)) ({[rlen s]} ∪ HX) TX /\
    forall i, 0 <= i -> view (with_reverse (reverse s ++ [zeroKey]) (with_holes h (holeCount s + 1) s)) ({[rlen s]} ∪ HX) TX i = view s HX TX i.
Proof.
  intros [Hc Hp Hcell] Hd. assert (0 <= rlen s) as H0 by (unfold rlen; lia).
  assert (rlen s ∉ HX) as Hni by (intros Hx%(c_bound _ _ _ Hc); lia).
  destruct (bit_room_bits _ _ (rlen s) H0 (c_holes _ _ _ Hc)) as [Hr [w Hw]].
  destruct (bit_set_bits _ _ _ _ H0 Hr Hw) as (h & Hset & Hh & _). exists h.
  split; [|split].
  - unfold setHoleLocked. rewrite (bits_dec _ _ _ Hr), bool_decide_false by done. by rewrite Hset.
  - split; [|done..]. destruct Hc. split; try done; unfold rlen in *; cbn; rewrite ?length_app; cbn.
    + rewrite size_union, size_singleton by set_solver. lia.
    + intros i Hi. destruct (decide (i ∈ HX)) as [Hin%c_bound0|Hin]; [lia|]. assert (i = Z.of_nat (length (reverse s))) by set_solver. lia.
    + lia.
  - intros i Hi. unfold view. cbn. unfold rlen. cbn. rewrite length_app. cbn. fold (rlen s).
    destruct (decide (i = rlen s)) as [->|Hn].
    + rewrite decide_True by (unfold rlen; lia). rewrite decide_True by set_solver.
      rewrite !decide_False by lia. done.
    + destruct (decide (i < rlen s)) as [Hlt|Hge].
      * rewrite decide_True by (unfold rlen in *; lia). destruct (decide (i ∈ HX)); [by rewrite decide_True by set_solver|].
        rewrite decide_False by set_solver. unfold aget. rewrite !decide_True by done. apply lookup_app_l. unfold rlen in *. lia.
      * rewrite decide_False by (unfold rlen in *; lia). done.
Qed.

(** A change of a shard that leaves its slots, its keys and its tail. *)
Record quiet (s s' : mapperShard) : Prop := {
  q_ok : shard_ok s';
  q_slot : forall i, 0 <= i -> slot s' i = slot s i;
  q_len : shard_len s' = shard_len s;
  q_tail : tailLen s' = tailLen s /\ tailBase s' = tailBase s;
  q_next : next s' = next s /\ forward s' = forward s /\ forwardDeletes s' = forwardDeletes s;
}.

Lemma quiet_refl s : shard_ok s -> quiet s s.
Proof. by split. Qed.

Lemma quiet_trans s1 s2 s3 : quiet s1 s2 -> quiet s2 s3 -> quiet s1 s3.
Proof.
  intros [? S1 ? [? ?] (? & ? & ?)] [? S2 ? [? ?] (? & ? & ?)].
  split; try done; [intros i Hi; by rewrite S2, S1|congruence|split; congruence|repeat split; congruence].
Qed.

Lemma grow_loop_ok n : forall s, shard_ok s -> tailLen s = 0 \/ rlen s + Z.of_nat n <= tailBase s ->
  exists s', grow_loop n s = Some s' /\ quiet s s' /\ rlen s' = rlen s + Z.of_nat n.
Proof.
  induction n as [|n IH]; intros s Hok Hd; cbn.
  { exists s. split; [done|]. split; [by apply quiet_refl|lia]. }
  pose proof Hok as (HX & TX & Hr).
  destruct (grow_step s HX TX Hr) as (h & -> & Hr1 & Hv1); [lia|]. cbn -[with_reverse with_holes].
  set (s1 := with_reverse _ _) in *. assert (quiet s s1) as Q1.
  { split; [by eexists _, _| | |done..].
    - intros i Hi. rewrite (slot_view _ _ _ _ Hr1), (slot_view _ _ _ _ Hr) by done. auto.
    - unfold shard_len, rlen. cbn. rewrite length_app. cbn. lia. }
  assert (rlen s1 = rlen s + 1) as E1 by (unfold rlen; cbn; rewrite length_app; cbn; lia).
  destruct (IH s1) as (s' & Hg & Q2 & E2); [apply Q1|rewrite E1; cbn; lia|].
  exists s'. split; [exact Hg|]. split; [by eapply quiet_trans|lia].
Qed.

(** A key bound to a free slot. *)
Record binds (s s' : mapperShard) (idx : Z) (k : N) : Prop := {
  b_ok : shard_ok s';
  b_slot : forall i, 0 <= i -> slot s' i = if decide (i = idx) then Some k else slot s i;
  b_len : shard_len s' = shard_len s + 1;
  b_end : endLocked s' = Z.max (endLocked s) (idx + 1);
  b_next : next s' = next s /\ forward s' = forward s /\ forwardDeletes s' = forwardDeletes s;
}.

Lemma push_binds s k : shard_ok s -> tailLen s = 0 \/ rlen s < tailBase s ->
  binds s (with_reverse (reverse s ++ [k]) s) (rlen s) k.
Proof.
  intros (HX & TX & Hr) Hd. pose proof (rep_push s HX TX k Hr Hd) as Hr'. split; [by eexists _, _| | | |done].
  - intros i Hi. rewrite (slot_view _ _ _ _ Hr'), (slot_view _ _ _ _ Hr) by done. apply view_push; [apply Hr|done..].
  - unfold shard_len, rlen. cbn. rewrite length_app. cbn. lia.
  - unfold endLocked. cbn. destruct (Z.eqb_spec (tailLen s) 0); cbn; unfold rlen in *; cbn; rewrite ?length_app; cbn; [lia|].
    pose proof (c_len _ _ _ (r_core _ _ _ Hr)). lia.
Qed.

Lemma quiet_binds s1 s2 s3 idx k : quiet s1 s2 -> endLocked s2 <= Z.max (endLocked s1) (idx + 1) -> endLocked s1 <= endLocked s2 ->
  binds s2 s3 idx k -> binds s1 s3 idx k.
Proof.
  intros [? S1 ? [? ?] (? & ? & ?)] He He' [? S2 ? ? (? & ? & ?)].
  split; try done; [intros i Hi; rewrite S2, S1; done|congruence|lia|repeat split; congruence].
Qed.

(** The growth of the reverse table up to a free index and the push of the key. *)
Lemma grow_push s idx k : shard_ok s -> rlen s <= idx -> tailLen s = 0 \/ idx < tailBase s ->
  exists s', (s ← growToLocked s idx; Some (with_reverse (reverse s ++ [k]) s)) = Some s' /\ binds s s' idx k.
Proof.
  intros Hok Hi Hd. unfold growToLocked.
  destruct (grow_loop_ok (Z.to_nat (idx - rlen s)) s Hok) as (s1 & -> & Q & E); [lia|]. cbn.
  assert (rlen s1 = idx) as E1 by lia. eexists. split; [done|].
  pose proof (q_tail _ _ Q) as [Et Eb].
  assert (endLocked s1 = if tailLen s =? 0 then idx else endLocked s) as Ee.
  { unfold endLocked. rewrite Et, Eb, E1. by destruct (Z.eqb_spec (tailLen s) 0). }
  pose proof (push_binds s1 k (q_ok _ _ Q)) as Hb. rewrite E1, Et, Eb in Hb.
  eapply quiet_binds; [exact Q|rewrite Ee; destruct (Z.eqb_spec (tailLen s) 0); lia| |by apply Hb].
  rewrite Ee. unfold endLocked. destruct (Z.eqb_spec (tailLen s) 0); cbn; lia.
Qed.

(** *** The tail *)

(** The holes of the tail and its length changed. *)
Definition retail (h : list Z) (c n : Z) s : mapperShard := with_tailHoles h c (with_tail (tail s) (tailBase s) n s).

Lemma core_retail s HX TX h TX' n : core s HX TX -> bits_are h TX' -> (forall i, i ∈ TX' -> i < n) -> 0 <= n ->
  rlen s <= tailBase s -> core (retail h (Z.of_nat (size TX')) n s) HX TX'.
Proof. intros [] Hh Hb Hn Hbase. split; try done. cbn. lia. Qed.

Lemma set_tail_hole s HX TX rel : core s HX TX -> 0 <= rel -> rel ∉ TX ->
  exists h, setTailHoleLocked s rel = Some (with_tailHoles h (tailHoleCount s + 1) s) /\ bits_are h ({[rel]} ∪ TX).
Proof.
  intros Hc H0 Hni. destruct (bit_room_bits _ _ rel H0 (c_tholes _ _ _ Hc)) as [Hr [w Hw]].
  destruct (bit_set_bits _ _ _ _ H0 Hr Hw) as (h & Hset & Hh & _). exists h. split; [|done].
  unfold setTailHoleLocked. rewrite (bits_dec _ _ _ Hr), bool_decide_false by done. by rewrite Hset.
Qed.

Lemma size_add x (X : gset Z) : x ∉ X -> Z.of_nat (size ({[x]} ∪ X)) = Z.of_nat (size X) + 1.
Proof. intros Hx. rewrite size_union, size_singleton by set_solver. lia. Qed.

Lemma size_remove x (X : gset Z) : x ∈ X -> Z.of_nat (size (X ∖ {[x]})) = Z.of_nat (size X) - 1.
Proof.
  intros Hx. assert (X = {[x]} ∪ X ∖ {[x]}) as E by (apply set_eq; intros y; destruct (decide (y = x)); set_solver).
  rewrite E at 2. rewrite size_add by set_solver. lia.
Qed.

Lemma tail_gap_ok n : forall s HX TX, core s HX TX -> rlen s <= tailBase s ->
  exists h TX', tail_gap_loop n s = Some (retail h (Z.of_nat (size TX')) (tailLen s + Z.of_nat n) s) /\
    core (retail h (Z.of_nat (size TX')) (tailLen s + Z.of_nat n) s) HX TX' /\
    Z.of_nat (size TX') = tailHoleCount s + Z.of_nat n /\
    forall x, x ∈ TX' <-> x ∈ TX \/ tailLen s <= x < tailLen s + Z.of_nat n.
Proof.
  induction n as [|n IH]; intros s HX TX Hc Hb; pose proof (c_len _ _ _ Hc) as [H0 H1].
  - exists (tailHoles s), TX. cbn [tail_gap_loop]. change (Z.of_nat 0) with 0. rewrite Z.add_0_r, <- (c_tcount _ _ _ Hc).
    assert (retail (tailHoles s) (tailHoleCount s) (tailLen s) s = s) as -> by (by destruct s).
    split; [done|]. split; [done|]. split; [lia|]. intros x. split; [by left|intros [|]; [done|lia]].
  - assert (tailLen s ∉ TX) as Hni by (intros Hx%(c_tbound _ _ _ Hc); lia).
    destruct (set_tail_hole s HX TX (tailLen s) Hc H0 Hni) as (h & Hset & Hh). cbn [tail_gap_loop]. rewrite Hset. cbn [mbind option_bind].
    set (s1 := with_tail _ _ _ _). assert (core s1 HX ({[tailLen s]} ∪ TX)) as Hc1.
    { pose proof (core_retail s HX TX h ({[tailLen s]} ∪ TX) (tailLen s + 1) Hc Hh) as Hc1.
      rewrite (size_add _ _ Hni), <- (c_tcount _ _ _ Hc) in Hc1. apply Hc1; [|lia|done].
      intros i Hi. destruct (decide (i ∈ TX)) as [Hin%(c_tbound _ _ _ Hc)|Hin]; [lia|]. assert (i = tailLen s) by set_solver. lia. }
    destruct (IH s1 HX _ Hc1 Hb) as (h' & TX' & Hg & Hc' & Hsz & HTX). exists h', TX'.
    assert (tailLen s1 = tailLen s + 1) as El by done. assert (tailHoleCount s1 = tailHoleCount s + 1) as Ec by done.
    replace (tailLen s + Z.of_nat (S n)) with (tailLen s1 + Z.of_nat n) by lia.
    split; [exact Hg|]. split; [exact Hc'|]. split; [lia|].
    intros x. rewrite HTX, elem_of_union, elem_of_singleton. intuition lia.
Qed.

Lemma aget_insert {A} (l : list A) p q x : 0 <= p < Z.of_nat (length l) ->
  aget (<[Z.to_nat p := x]> l) q = if decide (q = p) then Some x else aget l q.
Proof.
  intros Hp. unfold aget. case_decide as Hq.
  - destruct (decide (q = p)) as [->|Hn]; [apply list_lookup_insert_eq; lia|apply list_lookup_insert_ne; lia].
  - by rewrite decide_False by lia.
Qed.

Lemma aget_app_pad {A} (l : list A) n x p : aget (l ++ replicate n x) p = 
  if decide (0 <= p < Z.of_nat (length l)) then aget l p else if decide (0 <= p < Z.of_nat (length l) + Z.of_nat n) then Some x else None.
Proof.
  unfold aget. destruct (decide (0 <= p < Z.of_nat (length l))).
  - rewrite !decide_True by lia. apply lookup_app_l. lia.
  - destruct (decide (0 <= p)); [|by rewrite decide_False by lia]. rewrite lookup_app_r by lia.
    case_decide; [apply lookup_replicate_2; lia|apply lookup_ge_None_2; rewrite length_replicate; lia].
Qed.

(** The write of a slot of the tail. *)
Lemma tail_store_ok s HX TX rel k : core s HX TX -> cells s TX rel -> 0 <= rel < tailLen s -> rel ∉ TX ->
  Z.max (Z.of_nat (length (tail s))) (rel / 64 + 1) = (tailLen s + 63) / 64 ->
  exists t, tail_store s rel k = Some (with_tail t (tailBase s) (tailLen s) s) /\
    rep (with_tail t (tailBase s) (tailLen s) s) HX TX /\
    (forall r, tcell (with_tail t (tailBase s) (tailLen s) s) rel = Some k /\
      (r <> rel -> 0 <= r -> is_Some (tcell s r) -> tcell (with_tail t (tailBase s) (tailLen s) s) r = tcell s r)).
Proof.
  intros Hc Hcell Hr Hni Hpg. unfold tail_store. rewrite page_of, in_page. cbn zeta.
  pose proof (Z.div_pos rel 64) as Hp0. pose proof (Z.mod_pos_bound rel 64) as Hm.
  set (t0 := tail s ++ _). assert (Z.of_nat (length t0) = (tailLen s + 63) / 64) as Hl0.
  { unfold t0. rewrite length_app, length_replicate. lia. }
  destruct (aget_is_Some t0 (rel / 64)) as [pg Hpg0]; [lia|]. rewrite Hpg0. cbn.
  set (vals := match pg with Some vals => vals | None => _ end).
  assert (Z.of_nat (length vals) = 64) as Hlv.
  { unfold vals. destruct pg as [v|]; [|done]. unfold t0 in Hpg0. rewrite aget_app_pad in Hpg0. repeat case_decide; simplify_eq.
    eapply c_full; [done|exact Hpg0]. }
  rewrite aset_Some by lia. cbn. rewrite aset_Some by lia. cbn. eexists. split; [done|].
  set (vals' := <[_ := k]> vals). set (t := <[_ := Some vals']> t0).
  assert (forall q, aget t q = if decide (q = rel / 64) then Some (Some vals') else aget t0 q) as Ht.
  { intros q. apply aget_insert. lia. }
  assert (forall r, r <> rel -> 0 <= r -> is_Some (tcell s r) -> tcell (with_tail t (tailBase s) (tailLen s) s) r = tcell s r) as Hother.
  { intros r Hne H0 [x Hx]. destruct (tail_read _ _ _ Hx) as (vs & Hv & Hx'). pose proof (aget_range _ _ _ Hv) as Hrg.
    assert (aget t0 (r / 64) = Some (Some vs)) as Hv0 by (unfold t0; rewrite aget_app_pad; by rewrite decide_True).
    unfold tcell. cbn. rewrite Ht, Hv. cbn. destruct (decide (r / 64 = rel / 64)) as [E|E]; [|by rewrite Hv0].
    cbn. unfold vals'. rewrite aget_insert by lia. rewrite decide_False by (intros E2; apply Hne; by apply same_word).
    rewrite <- E, Hv0 in Hpg0. by simplify_eq. }
  assert (tcell (with_tail t (tailBase s) (tailLen s) s) rel = Some k) as Hself.
  { unfold tcell. cbn. rewrite Ht, decide_True by done. cbn. unfold vals'. rewrite aget_insert by lia. by rewrite decide_True. }
  split; [split|intros r; split; [exact Hself|apply Hother]].
  - destruct Hc. split; try done. cbn. intros p vs Hp. rewrite Ht in Hp. case_decide.
    + injection Hp as <-. unfold vals'. by rewrite length_insert.
    + unfold t0 in Hp. rewrite aget_app_pad in Hp. repeat case_decide; simplify_eq. by eapply c_full0.
  - cbn. unfold t. by rewrite length_insert.
  - intros r Hr2 Hni2 _. destruct (decide (r = rel)) as [->|Hn]; [by rewrite Hself|]. cbn in Hr2.
    destruct (Hcell r) as [x Hx]; [done..|]. rewrite Hother; [by exists x|done|lia|by exists x].
Qed.

Lemma pages_max a rel : 0 <= a -> 0 <= rel -> Z.max ((a + 63) / 64) (rel / 64 + 1) = (Z.max a (rel + 1) + 63) / 64.
Proof.
  intros Ha Hr. assert (rel / 64 + 1 = (rel + 1 + 63) / 64) as -> by (rewrite <- Z.div_add by lia; f_equal; lia).
  destruct (decide (a <= rel + 1)).
  - rewrite !Z.max_r; [done|lia|apply Z.div_le_mono; lia].
  - rewrite !Z.max_l; [done|lia|apply Z.div_le_mono; lia].
Qed.

(** The state in which the tail has been made to reach the slot and the slot is not a hole. *)
Lemma tail_open_ok s HX TX rel : core s HX TX -> rlen s <= tailBase s -> 0 <= rel -> (rel < tailLen s -> rel ∈ TX) ->
  exists h TX', (s ← tail_gap_loop (Z.to_nat (rel - tailLen s)) s;
      if rel <? tailLen s then h ← bit_clear (tailHoles s) rel; Some (with_tailHoles h (tailHoleCount s - 1) s)
      else Some (with_tail (tail s) (tailBase s) (rel + 1) s)) = Some (retail h (Z.of_nat (size TX')) (Z.max (tailLen s) (rel + 1)) s) /\
    core (retail h (Z.of_nat (size TX')) (Z.max (tailLen s) (rel + 1)) s) HX TX' /\
    Z.max (tailLen s) (rel + 1) - Z.of_nat (size TX') = tailLen s - tailHoleCount s + 1 /\
    forall x, 0 <= x < Z.max (tailLen s) (rel + 1) -> x ∉ TX' <-> x = rel \/ x < tailLen s /\ x ∉ TX.
Proof.
  intros Hc Hb H0 Hin. pose proof (c_len _ _ _ Hc) as [Hl _].
  destruct (tail_gap_ok (Z.to_nat (rel - tailLen s)) s HX TX Hc Hb) as (h1 & TX1 & -> & Hc1 & Hsz & HTX). cbn [mbind option_bind].
  cbn [tailLen tailHoles tailHoleCount retail with_tailHoles with_tail].
  destruct (decide (rel < tailLen s)) as [Hlt|Hge].
  - replace (Z.to_nat (rel - tailLen s)) with 0%nat in * by lia. rewrite Z.add_0_r in *.
    destruct (Z.ltb_spec rel (tailLen s)); [|lia]. assert (rel ∈ TX1) as Hin1 by (apply HTX; auto).
    destruct (bit_clear_bits _ _ _ (c_tholes _ _ _ Hc1) Hin1) as (h & Hclr & Hh & _). cbn in Hclr. rewrite Hclr. cbn [mbind option_bind].
    exists h, (TX1 ∖ {[rel]}). rewrite size_remove, Z.max_l by (done || lia). split; [done|].
    assert (forall i, i ∈ TX1 ∖ {[rel]} -> i < tailLen s) as Hbd.
    { intros i [Hi _]%elem_of_difference. apply HTX in Hi as [Hi%(c_tbound _ _ _ Hc)|]; lia. }
    pose proof (core_retail s HX TX h _ (tailLen s) Hc Hh Hbd Hl Hb) as Hcr. rewrite size_remove in Hcr by done.
    split; [done|]. split; [lia|]. intros x Hx. rewrite elem_of_difference, elem_of_singleton, HTX.
    destruct (decide (x = rel)) as [->|]; [tauto|]. intuition lia.
  - replace (tailLen s + Z.of_nat (Z.to_nat (rel - tailLen s))) with rel in * by lia.
    destruct (Z.ltb_spec rel rel); [lia|]. exists h1, TX1. rewrite Z.max_r by lia. split; [done|].
    split; [|split; [lia|]].
    + apply (core_retail s HX TX h1 TX1 (rel + 1) Hc (c_tholes _ _ _ Hc1)); [|lia|done].
      intros i Hi. apply HTX in Hi as [Hi%(c_tbound _ _ _ Hc)|]; lia.
    + intros x Hx. rewrite HTX. split; [intros Hn; destruct (decide (x = rel)); [tauto|right; split; [|tauto]]|].
      * destruct (decide (x < tailLen s)); [done|]. exfalso. apply Hn. lia.
      * intros [->|[Hx1 Hx2]] [Hi|]; [apply (c_tbound _ _ _ Hc) in Hi; lia|lia|done|lia].
Qed.

Lemma bind_tail_ok s HX TX idx k : rep s HX TX -> rlen s <= tailBase s -> tailBase s <= idx < 2 ^ 64 ->
  (idx - tailBase s < tailLen s -> idx - tailBase s ∈ TX) ->
  exists s' TX', bind_tail s idx k = Some s' /\ rep s' HX TX' /\
    (forall i, 0 <= i -> view s' HX TX' i = if decide (i = idx) then Some k else view s HX TX i) /\
    shard_len s' = shard_len s + 1 /\ tailLen s' = Z.max (tailLen s) (idx - tailBase s + 1) /\ tailBase s' = tailBase s /\
    next s' = next s /\ forward s' = forward s /\ forwardDeletes s' = forwardDeletes s.
Proof.
  intros [Hc Hp Hcell] Hb Hi Hin. pose proof (c_len _ _ _ Hc) as [Hl Hb0]. unfold bind_tail. rewrite u64_small by lia.
  set (rel := idx - tailBase s) in *. cbn zeta.
  destruct (tail_open_ok s HX TX rel Hc Hb) as (h & TX' & Hop & Hc' & Hsz & HTX); [lia|done|].
  set (s2 := retail _ _ _ _) in *.
  destruct (tail_store_ok s2 HX TX' rel k Hc') as (t & Hst & Hr & Hcl).
  { intros r Hr Hni Hne. cbn in Hr. apply HTX in Hni as [|[Hr1 Hr2]]; [done| |done]. apply (Hcell r); [lia|done|lia]. }
  { cbn. lia. } { apply HTX; [lia|by left]. } { cbn. rewrite Hp. apply pages_max; lia. }
  exists (with_tail t (tailBase s2) (tailLen s2) s2), TX'.
  split. { revert Hop. destruct (tail_gap_loop _ _); cbn; [|done]. intros ->. exact Hst. }
  split; [done|]. split; [|split; [unfold shard_len, rlen; cbn; lia|done]].
  intros i H0. unfold view. cbn. unfold rlen. cbn. fold (rlen s).
  destruct (decide (i < rlen s)); [by rewrite (decide_False (P:=i = idx)) by lia|].
  destruct (decide (i = idx)) as [->|Hn].
  - fold rel. rewrite decide_True by lia. rewrite decide_False by (apply HTX; [lia|by left]). apply (Hcl 0).
  - destruct (decide (tailBase s <= i < tailBase s + tailLen s)) as [Ht|Ht].
    + rewrite decide_True by lia. pose proof (HTX (i - tailBase s) ltac:(lia)) as HT.
      destruct (decide (i - tailBase s ∈ TX)) as [Hx|Hx].
      * rewrite decide_True; [done|]. destruct (decide (i - tailBase s ∈ TX')); [done|]. exfalso. apply HT in n0 as [|[_ ?]]; [unfold rel in *; lia|done].
      * rewrite decide_False by (apply HT; right; split; [lia|done]). apply Hcl; [unfold rel; lia|lia|]. apply Hcell; [lia|done|lia].
    + case_decide; [|done]. rewrite decide_True; [done|]. destruct (decide (i - tailBase s ∈ TX')) as [|Hx]; [done|]. exfalso.
      apply HTX in Hx as [|[? _]]; unfold rel in *; lia.
Qed.

(** A key bound at a free index at or past the end of the reverse table. *)
Lemma bindAt_ok s idx k : shard_ok s -> rlen s <= idx < 2 ^ 64 -> slot s idx = None ->
  exists s', bindAtLocked s idx k = Some s' /\ binds s s' idx k.
Proof.
  intros Hok Hi Hs. assert (0 <= rlen s) by (unfold rlen; lia). unfold bindAtLocked. cbn zeta. rewrite u64_small by lia.
  destruct (Z.eqb_spec (tailLen s) 0) as [E0|E0]; cbn [andb].
  - destruct (Z.ltb_spec (idx - rlen s) mapperTailGap) as [Hg|Hg]; [apply grow_push; [done|lia|by left]|].
    rewrite E0. cbn [tailBase with_tail]. destruct (Z.ltb_spec idx idx); [lia|].
    destruct Hok as (HX & TX & [Hc Hp Hcell]).
    set (s1 := with_tail (tail s) idx 0 s). assert (rep s1 HX TX) as Hr1.
    { split; [destruct Hc; split; try done; cbn; rewrite <- ?E0; try done; lia|cbn; by rewrite Hp, E0|].
      intros r Hr. cbn in Hr. lia. }
    destruct (bind_tail_ok s1 HX TX idx k Hr1) as (s' & TX' & Hbt & Hr' & Hv & Hlen & Htl & Htb & Hn);
      [exact (proj1 Hi)|exact (conj (Z.le_refl _) (proj2 Hi))|intros Hlt; change (idx - idx < 0) in Hlt; lia|].
    exists s'. split; [done|]. assert (rep s HX TX) as Hr by done.
    split; [by eexists _, _| |rewrite Hlen; unfold shard_len, rlen; cbn; lia| |done].
    + intros i Hi0. rewrite (slot_view _ _ _ _ Hr'), (slot_view _ _ _ _ Hr), Hv by done. case_decide; [done|].
      unfold view. cbn. unfold rlen. cbn. case_decide; [done|]. rewrite !decide_False by lia. done.
    + unfold endLocked. rewrite Htl, Htb, E0. cbn. replace (idx - idx + 1) with 1 by lia. change (Z.max 0 1) with 1. cbn. fold (rlen s). lia.
  - destruct (Z.ltb_spec idx (tailBase s)); [apply grow_push; [done|lia|by right]|].
    pose proof Hok as (HX & TX & Hr). pose proof (c_base _ _ _ (r_core _ _ _ Hr) E0). pose proof (c_len _ _ _ (r_core _ _ _ Hr)).
    destruct (bind_tail_ok s HX TX idx k Hr) as (s' & TX' & Hbt & Hr' & Hv & Hlen & Htl & Htb & Hn); [lia|lia| |].
    { intros Hlt. destruct (decide (idx - tailBase s ∈ TX)) as [|Hx]; [done|]. exfalso.
      rewrite (slot_view _ _ _ _ Hr) in Hs by lia. unfold view in Hs.
      rewrite decide_False, decide_True, decide_False in Hs by (done || lia).
      destruct (r_cells _ _ _ Hr (idx - tailBase s)) as [x Hx']; [lia|done|lia|congruence]. }
    exists s'. split; [done|]. split; [by eexists _, _| |done| |done].
    + intros i Hi0. rewrite (slot_view _ _ _ _ Hr'), (slot_view _ _ _ _ Hr), Hv by done. done.
    + unfold endLocked. rewrite Htl, Htb. destruct (Z.eqb_spec (tailLen s) 0); [done|]. destruct (Z.eqb_spec (Z.max (tailLen s) (idx - tailBase s + 1)) 0); cbn; lia.
Qed.

(** *** Slots given back *)

Record frees (s s' : mapperShard) (idx : Z) : Prop := {
  f_ok : shard_ok s';
  f_slot : forall i, 0 <= i -> slot s' i = if decide (i = idx) then None else slot s i;
  f_len : shard_len s' = shard_len s - 1;
  f_mark : mark s' = mark s;
  f_end : endLocked s' <= endLocked s /\ next s <= next s';
  f_forward : forward s' = forward s /\ forwardDeletes s' = forwardDeletes s;
}.

(** The cut of the trailing holes of the reverse table, as the holes left below [n]. *)
Lemma reverse_cut_ok fuel : forall s (n : Z) X, bits_are (holes s) X -> holeCount s = Z.of_nat (size X) ->
  (forall i, i ∈ X -> i < n) -> 0 <= n ->
  exists h X' n', reverse_cut fuel s n = Some (with_holes h (Z.of_nat (size X')) s, n') /\ 0 <= n' <= n /\ bits_are h X' /\
    n' - Z.of_nat (size X') = n - Z.of_nat (size X) /\
    (forall i, i ∈ X' -> i < n') /\ (forall i, i ∈ X <-> i ∈ X' \/ n' <= i < n).
Proof.
  induction fuel as [|fuel IH]; intros s n X HX Hc Hb H0; cbn [reverse_cut].
  { exists (holes s), X, n. rewrite <- Hc. split; [by destruct s|]. split; [lia|]. split; [done|]. split; [lia|].
    split; [done|]. intros i. split; [by left|intros [|]; [done|lia]]. }
  unfold isHoleLocked. rewrite (bits_dec _ _ _ HX). destruct (Z.ltb_spec 0 n) as [Hn|Hn]; cbn [andb]; [case_bool_decide as Hin|].
  - destruct (bit_clear_bits _ _ _ HX Hin) as (h & -> & Hh & _). cbn [mbind option_bind].
    assert (Z.of_nat (size (X ∖ {[n - 1]})) = Z.of_nat (size X) - 1) as Hsz by (by apply size_remove).
    destruct (IH (with_holes h (holeCount s - 1) s) (n - 1) (X ∖ {[n - 1]})) as (h' & X' & n' & Hr & Hn' & Hh' & Hsz' & Hb' & HX');
      [done|cbn; lia| |lia|].
    { intros i [Hi Hne]%elem_of_difference. rewrite elem_of_singleton in Hne. apply Hb in Hi. lia. }
    exists h', X', n'. split; [exact Hr|]. split; [lia|]. split; [done|]. split; [lia|]. split; [done|].
    intros i. specialize (HX' i). rewrite elem_of_difference, elem_of_singleton in HX'.
    destruct (decide (i = n - 1)) as [->|]; [|assert (n' <= i < n - 1 <-> n' <= i < n) by lia; tauto]. split; [right; lia|done].
  - exists (holes s), X, n. rewrite <- Hc. split; [by destruct s|]. split; [lia|]. split; [done|]. split; [lia|].
    split; [done|]. intros i. split; [by left|intros [|]; [done|lia]].
  - exists (holes s), X, n. rewrite <- Hc. split; [by destruct s|]. split; [lia|]. split; [done|]. split; [lia|].
    split; [done|]. intros i. split; [by left|intros [|]; [done|lia]].
Qed.

(** The trim changes no slot and keeps the mark. *)
Lemma trim_ok s : shard_ok s -> exists s', trimTrailingHolesLocked s = Some s' /\ shard_ok s' /\
  (forall i, 0 <= i -> slot s' i = slot s i) /\ shard_len s' = shard_len s /\ mark s' = mark s /\ (endLocked s' <= endLocked s /\ next s <= next s') /\
  forward s' = forward s /\ forwardDeletes s' = forwardDeletes s.
Proof.
  intros (HX & TX & Hr). pose proof Hr as [Hc Hp Hcell]. pose proof (c_len _ _ _ Hc) as [Hl _]. pose proof (c_base _ _ _ Hc) as Hbase.
  assert (0 <= rlen s) as H0 by (unfold rlen; lia). unfold trimTrailingHolesLocked. cbn zeta.
  set (s1 := with_next (Z.max (next s) (rlen s)) s).
  destruct (reverse_cut_ok (Z.to_nat (rlen s)) s1 (rlen s) HX (c_holes _ _ _ Hc) (c_count _ _ _ Hc) (c_bound _ _ _ Hc) H0)
    as (h & X' & n & -> & Hn & Hh & Hsz & Hb & HX'). cbn [mbind option_bind].
  assert (forall h', bits_are h' X' -> exists s', with_holes h' (Z.of_nat (size X')) (with_reverse (take (Z.to_nat n) (reverse s)) s1) = s' /\ shard_ok s' /\
    (forall i, 0 <= i -> slot s' i = slot s i) /\ shard_len s' = shard_len s /\ mark s' = mark s /\ (endLocked s' <= endLocked s /\ next s <= next s') /\
    forward s' = forward s /\ forwardDeletes s' = forwardDeletes s) as Hmain.
  { intros h' Hh'. eexists. split; [done|]. set (s' := with_holes _ _ _).
    assert (rlen s' = n) as En by (unfold rlen in *; cbn; rewrite length_take; lia).
    assert (rep s' X' TX) as Hr'.
    { split; [|done..]. destruct Hc. split; try done; rewrite ?En; [done|]. cbn. intros Ht. specialize (c_base0 Ht). lia. }
    split; [by eexists _, _|]. split; [|split; [|split; [|split; [|done]]]].
    - intros i Hi. rewrite (slot_view _ _ _ _ Hr'), (slot_view _ _ _ _ Hr) by done. unfold view. rewrite En. cbn.
      destruct (decide (i < n)).
      + rewrite (decide_True (P:=i < rlen s)) by lia.
        assert (i ∈ X' <-> i ∈ HX) as Hiff by (rewrite HX'; intuition lia).
        destruct (decide (i ∈ HX)); [by rewrite decide_True by tauto|]. rewrite decide_False by tauto.
        unfold aget. rewrite !decide_True by done. apply lookup_take_lt. lia.
      + destruct (decide (i < rlen s)); [|done]. rewrite (decide_True (P:=i ∈ HX)) by (apply HX'; lia).
        case_decide; [|done]. exfalso. assert (tailLen s <> 0) as Ht by lia. specialize (Hbase Ht). lia.
    - unfold shard_len. rewrite En. cbn. rewrite (c_count _ _ _ Hc). lia.
    - unfold mark, endLocked. rewrite En. cbn. destruct (Z.eqb_spec (tailLen s) 0) as [|Ht]; cbn; [lia|].
      specialize (Hbase Ht). lia.
    - split; [|cbn; lia]. unfold endLocked. rewrite En. cbn. destruct (Z.eqb_spec (tailLen s) 0); cbn; lia. }
  cbn [reverse with_holes with_reverse].
  destruct (Z.eqb_spec n (rlen s)) as [->|Hne].
  - destruct (Hmain h Hh) as (s' & Hs' & Hok & Hrest). exists s'. split; [|by split].
    rewrite <- Hs'. f_equal. unfold s1, with_reverse, with_holes, with_next. cbn. f_equal.
    rewrite take_ge; [done|]. unfold rlen. lia.
  - cbn [holeCount holes with_holes with_reverse].
    destruct (Z.eqb_spec (Z.of_nat (size X')) 0) as [E|E].
    + destruct (Hmain []) as (s' & Hs' & Hrest); [|exists s'; split; [by rewrite <- Hs'|exact Hrest]].
      assert (X' = ∅) as -> by (apply leibniz_equiv, size_empty_inv; lia). apply bits_nil.
    + destruct (Z.ltb_spec (Z.shiftr (n + 63) 6) (Z.of_nat (length h))).
      * destruct (Hmain _ (bit_take_bits _ _ n Hh Hb)) as (s' & Hs' & Hrest). exists s'. split; [by rewrite <- Hs'|exact Hrest].
      * destruct (Hmain _ Hh) as (s' & Hs' & Hrest). exists s'. split; [by rewrite <- Hs'|exact Hrest].
Qed.

(** The slot of the reverse table made a hole. *)
Lemma unplace_dense s idx k : shard_ok s -> 0 <= idx < rlen s -> slot s idx = Some k ->
  exists s', unplace_shard s idx = Some (s', true) /\ frees s s' idx.
Proof.
  intros (HX & TX & Hr) Hi Hs. pose proof Hr as [Hc Hp Hcell]. rewrite (slot_view _ _ _ _ Hr) in Hs by lia.
  unfold view in Hs. rewrite decide_True in Hs by lia. destruct (decide (idx ∈ HX)) as [|Hni]; [done|].
  unfold unplace_shard. destruct (Z.leb_spec (rlen s) idx); [lia|].
  rewrite aset_Some by (unfold rlen in Hi; lia). cbn [mbind option_bind].
  set (s1 := with_reverse (<[_ := zeroKey]> (reverse s)) s).
  destruct (bit_room_bits _ _ idx (proj1 Hi) (c_holes _ _ _ Hc)) as [Hrm [w Hw]].
  destruct (bit_set_bits _ _ _ _ (proj1 Hi) Hrm Hw) as (h & Hset & Hh & _).
  assert (setHoleLocked s1 idx = Some (with_holes h (holeCount s + 1) s1)) as ->.
  { unfold setHoleLocked. cbn zeta. change (holes s1) with (holes s). rewrite (bits_dec _ _ _ Hrm), bool_decide_false by done. by rewrite Hset. }
  cbn [mbind option_bind]. set (s2 := with_holes h (holeCount s + 1) s1).
  assert (rlen s2 = rlen s) as El by (unfold rlen; cbn; by rewrite length_insert).
  assert (rep s2 ({[idx]} ∪ HX) TX) as Hr2.
  { split; [|done..]. destruct Hc. split; try done; rewrite ?El; try done.
    - cbn. rewrite size_add by done. lia.
    - intros i Hin. destruct (decide (i ∈ HX)) as [Hx%c_bound0|]; [done|]. assert (i = idx) by set_solver. lia. }
  assert (frees s s2 idx) as [F1 F2 F3 F4 F7 F5].
  { split; [by eexists _, _| |unfold shard_len; rewrite El; cbn; lia|unfold mark, endLocked; rewrite El; done|unfold endLocked; rewrite El; done|done].
    intros i Hi0. rewrite (slot_view _ _ _ _ Hr2), (slot_view _ _ _ _ Hr) by done. unfold view. rewrite El. cbn.
    destruct (decide (i = idx)) as [->|Hn]; [by rewrite !decide_True by (lia || set_solver)|].
    case_decide; [|done]. destruct (decide (i ∈ HX)); [by rewrite decide_True by set_solver|]. rewrite decide_False by set_solver.
    rewrite aget_insert by (unfold rlen in Hi; lia). by rewrite decide_False. }
  destruct (idx =? rlen s2 - 1); [|exists s2; split; [done|by split]].
  destruct (trim_ok s2 F1) as (s' & -> & Hok & Hsl & Hln & Hmk & Hen & Hfw). exists s'. split; [done|].
  destruct F5 as [F5 F6]. destruct Hfw as [G5 G6]. split; [done| |congruence..|lia|split; congruence].
  intros i Hi0. by rewrite Hsl, F2.
Qed.

Lemma tail_cut_ok fuel : forall s HX TX, core s HX TX -> cells s TX (-1) -> rlen s <= tailBase s ->
  (tailLen s + 63) / 64 <= Z.of_nat (length (tail s)) ->
  exists h TX' n, tail_cut fuel s = Some (retail h (Z.of_nat (size TX')) n s) /\ 0 <= n <= tailLen s /\ bits_are h TX' /\
    n - Z.of_nat (size TX') = tailLen s - Z.of_nat (size TX) /\ (forall i, i ∈ TX' -> i < n) /\
    (forall i, i ∈ TX <-> i ∈ TX' \/ n <= i < tailLen s).
Proof.
  induction fuel as [|fuel IH]; intros s HX TX Hc Hcell Hb Hp; pose proof (c_len _ _ _ Hc) as [Hl _].
  all: assert (exists h TX' n, Some s = Some (retail h (Z.of_nat (size TX')) n s) /\ 0 <= n <= tailLen s /\ bits_are h TX' /\
    n - Z.of_nat (size TX') = tailLen s - Z.of_nat (size TX) /\ (forall i, i ∈ TX' -> i < n) /\
    (forall i, i ∈ TX <-> i ∈ TX' \/ n <= i < tailLen s)) as Hstop.
  1, 3: exists (tailHoles s), TX, (tailLen s); rewrite <- (c_tcount _ _ _ Hc); split; [by destruct s|]; split; [lia|];
    split; [apply Hc|]; split; [lia|]; split; [apply Hc|]; intros i; split; [by left|intros [|]; [done|lia]].
  { exact Hstop. }
  cbn [tail_cut]. destruct (Z.eqb_spec (tailLen s) 0) as [E0|E0]; [exact Hstop|].
  rewrite (tail_hole s HX TX) by (done || lia). cbn [mbind option_bind]. case_bool_decide as Hin; [|exact Hstop]. clear Hstop.
  unfold tailBitLocked. cbn [tailHoles tailLen tailHoleCount with_tail]. rewrite (bits_dec _ _ _ (c_tholes _ _ _ Hc)), bool_decide_true by done.
  destruct (bit_clear_bits _ _ _ (c_tholes _ _ _ Hc) Hin) as (h & -> & Hh & _). cbn [mbind option_bind].
  set (n := tailLen s - 1) in *. set (s1 := with_tailHoles h (tailHoleCount s - 1) _).
  assert (Z.of_nat (size (TX ∖ {[n]})) = Z.of_nat (size TX) - 1) as Hsz by (by apply size_remove).
  assert (forall i, i ∈ TX ∖ {[n]} -> i < n) as Hbd.
  { intros i [Hi Hne]%elem_of_difference. rewrite elem_of_singleton in Hne. apply (c_tbound _ _ _ Hc) in Hi. lia. }
  assert (core s1 HX (TX ∖ {[n]})) as Hc1.
  { pose proof (core_retail s HX TX h _ n Hc Hh Hbd ltac:(lia) Hb) as Hcr. rewrite Hsz, <- (c_tcount _ _ _ Hc) in Hcr. exact Hcr. }
  destruct (IH s1 HX _ Hc1) as (h' & TX' & n' & Hr & Hn' & Hh' & Hsz' & Hb' & HX'); [|exact Hb| |].
  { intros r Hr Hni Hne. change (tailLen s1) with n in Hr. apply (Hcell r); [lia| |done]. intros Hx. apply Hni, elem_of_difference.
    split; [done|]. rewrite elem_of_singleton. lia. }
  { change (tailLen s1) with n. etransitivity; [|exact Hp]. apply Z.div_le_mono; lia. }
  change (tailLen s1) with n in *. exists h', TX', n'. split; [exact Hr|]. split; [lia|]. split; [done|]. split; [lia|]. split; [done|].
  intros i. specialize (HX' i). rewrite elem_of_difference, elem_of_singleton in HX'.
  destruct (decide (i = n)) as [->|]; [split; [right; lia|done]|]. assert (n' <= i < n <-> n' <= i < tailLen s) by lia. tauto.
Qed.

Lemma tcell_take s n r : 0 <= r < n ->
  (pg ← aget (take (Z.to_nat ((n + 63) / 64)) (tail s)) (r / 64); vals ← pg; aget vals (r mod 64)) = tcell s r.
Proof.
  intros Hr. unfold tcell. f_equal. unfold aget. case_decide; [|done]. apply lookup_take_lt.
  assert (r / 64 + 1 <= (n + 63) / 64); [|lia]. rewrite <- Z.div_add by lia. apply Z.div_le_mono; lia.
Qed.

Lemma tail_fit_ok s HX TX : core s HX TX -> cells s TX (-1) -> (tailLen s + 63) / 64 <= Z.of_nat (length (tail s)) ->
  exists s', tail_fit s = Some s' /\ rep s' HX TX /\ (forall i, 0 <= i -> view s' HX TX i = view s HX TX i) /\
    shard_len s' = shard_len s /\ tailLen s' = tailLen s /\ (tailLen s <> 0 -> tailBase s' = tailBase s) /\ rlen s' = rlen s /\
    next s' = next s /\ forward s' = forward s /\ forwardDeletes s' = forwardDeletes s.
Proof.
  intros Hc Hcell Hp. pose proof (c_len _ _ _ Hc) as [Hl _]. unfold tail_fit. rewrite page_count.
  assert (0 <= (tailLen s + 63) / 64) as Hp0 by (apply Z.div_pos; lia).
  destruct (Z.ltb_spec (Z.of_nat (length (tail s))) ((tailLen s + 63) / 64)); [lia|]. cbn [mbind option_bind].
  cbn [tailLen with_tail tailHoles tailHoleCount]. destruct (Z.eqb_spec (tailLen s) 0) as [E0|E0].
  - assert (TX = ∅) as ->.
    { apply set_eq. intros x. split; [|set_solver]. intros Hx. pose proof (bits_nonneg _ _ _ (c_tholes _ _ _ Hc) Hx).
      apply (c_tbound _ _ _ Hc) in Hx. lia. }
    eexists. split; [done|]. split; [|split; [|split]].
    + split; [destruct Hc; split; try done; cbn; try apply bits_nil; intros p vals Hx%aget_range; cbn in Hx; lia|done|].
      intros r Hr. cbn in Hr. lia.
    + intros i Hi. unfold view. cbn. unfold rlen. cbn. fold (rlen s). case_decide; [done|]. rewrite !decide_False by lia. done.
    + unfold shard_len, rlen. cbn. rewrite E0, (c_tcount _ _ _ Hc). done.
    + done.
  - set (s1 := with_tail (take (Z.to_nat ((tailLen s + 63) / 64)) (tail s)) (tailBase s) (tailLen s) s).
    assert (forall h, bits_are h TX -> exists s', with_tailHoles h (tailHoleCount s) s1 = s' /\ rep s' HX TX /\
      (forall i, 0 <= i -> view s' HX TX i = view s HX TX i)) as Hmain.
    { intros h Hh. eexists. split; [done|]. split.
      - split; [destruct Hc; split; try done|cbn; rewrite length_take; lia|].
        + cbn. intros p vals Hx. eapply (c_full0 p). apply aget_Some in Hx as [? Hx]. apply aget_Some. split; [done|].
          apply lookup_take_Some in Hx. tauto.
        + intros r Hr Hni Hne. unfold tcell. cbn. cbn in Hr. rewrite tcell_take by done. by apply Hcell.
      - intros i Hi. unfold view. cbn. unfold rlen. cbn. fold (rlen s). case_decide; [done|]. case_decide; [|done]. case_decide; [done|].
        unfold tcell at 1. cbn. apply tcell_take. lia. }
    destruct (Z.ltb_spec (Z.shiftr (tailLen s + 63) 6) (Z.of_nat (length (tailHoles s)))).
    + destruct (Hmain _ (bit_take_bits _ _ _ (c_tholes _ _ _ Hc) (c_tbound _ _ _ Hc))) as (s' & Hs' & Hr & Hv).
      eexists. split; [by rewrite Hs'|]. by rewrite <- Hs' in *.
    + destruct (Hmain _ (c_tholes _ _ _ Hc)) as (s' & Hs' & Hr & Hv). exists s'.
      split; [f_equal; rewrite <- Hs'; by destruct s|]. by rewrite <- Hs' in *.
Qed.

Lemma page_bounds rel : 64 * (rel / 64) <= rel < 64 * (rel / 64 + 1).
Proof. pose proof (Z.div_mod rel 64). pose proof (Z.mod_pos_bound rel 64). lia. Qed.

(** The page of the slot freed when it binds nothing. *)
Lemma page_free_ok s HX TX rel : core s HX TX -> cells s TX (-1) -> 0 <= rel < tailLen s -> rel / 64 < Z.of_nat (length (tail s)) ->
  let p := rel / 64 in
  exists t, (if forallb (tailBitLocked s) (seqZ (64 * p) (Z.min (64 * (p + 1)) (tailLen s) - 64 * p)) then aset (tail s) p None else Some (tail s)) = Some t /\
    length t = length (tail s) /\ core (with_tail t (tailBase s) (tailLen s) s) HX TX /\
    (forall r, 0 <= r < tailLen s -> r ∉ TX -> tcell (with_tail t (tailBase s) (tailLen s) s) r = tcell s r).
Proof.
  intros Hc Hcell Hr Hp p. assert (0 <= p) as H0 by (apply Z.div_pos; lia).
  destruct (forallb _ _) eqn:Ef; [|eexists; split; [done|]; split; [done|]; split; [by destruct Hc|done]].
  rewrite aset_Some by lia. eexists. split; [done|]. split; [apply length_insert|]. split.
  - destruct Hc. split; try done. cbn. intros q vals. rewrite aget_insert by lia. case_decide; [done|]. apply c_full0.
  - intros r Hr2 Hni. unfold tcell. cbn. rewrite aget_insert by lia. case_decide as E; [|done]. exfalso. apply Hni.
    rewrite forallb_forall in Ef. rewrite <- (c_tholes _ _ _ Hc r). apply Ef, list_elem_of_In, elem_of_seqZ.
    pose proof (page_bounds r). rewrite E in *. lia.
Qed.

Lemma unplace_tail s idx k : shard_ok s -> rlen s <= idx -> slot s idx = Some k ->
  exists s', unplaceTailLocked s idx = Some (s', true) /\ frees s s' idx.
Proof.
  intros (HX & TX & Hr) Hi Hs. pose proof Hr as [Hc Hp Hcell]. pose proof (c_len _ _ _ Hc) as [Hl Hb0].
  assert (0 <= rlen s) as Hrl by (unfold rlen; lia). rewrite (slot_view _ _ _ _ Hr) in Hs by lia.
  unfold view in Hs. rewrite decide_False in Hs by lia. case_decide as Hin; [|done]. case_decide as Hni; [done|].
  set (rel := idx - tailBase s) in *. pose proof (c_base _ _ _ Hc ltac:(lia)) as Hbase.
  unfold unplaceTailLocked. fold rel.
  destruct (Z.eqb_spec (tailLen s) 0) as [|Ht0]; [lia|]. destruct (Z.ltb_spec idx (tailBase s)); [lia|].
  destruct (Z.leb_spec (tailLen s) rel); [lia|]. cbn [orb]. rewrite (tail_hole s HX TX) by (done || lia).
  rewrite bool_decide_false by done. cbn [mbind option_bind]. cbn zeta. rewrite page_of, in_page, !page_start.
  destruct (tail_read _ _ _ Hs) as (vals & Hv & Hk). rewrite Hv. cbn [mbind option_bind].
  pose proof (aget_range _ _ _ Hv) as Hrp. pose proof (aget_range _ _ _ Hk) as Hrm.
  rewrite aset_Some by done. cbn [mbind option_bind]. rewrite aset_Some by done. cbn [mbind option_bind].
  set (t1 := <[Z.to_nat (rel / 64) := _]> (tail s)). set (s1 := with_tail t1 (tailBase s) (tailLen s) s).
  assert (core s1 HX TX) as Hc1.
  { destruct Hc. split; try done. cbn. intros p vs. unfold t1. rewrite aget_insert by done. case_decide; [|apply c_full0].
    intros E. injection E as <-. rewrite length_insert. by eapply c_full0. }
  assert (forall r, r <> rel -> tcell s1 r = tcell s r) as Hcell1.
  { intros r Hne. unfold tcell. cbn. unfold t1. rewrite aget_insert by done. case_decide as E; [|done]. rewrite E, Hv. cbn.
    rewrite aget_insert by done. rewrite decide_False; [done|]. intros E2. by apply Hne, same_word. }
  destruct (set_tail_hole s1 HX TX rel Hc1) as (h & -> & Hh); [lia|done|]. cbn [mbind option_bind].
  set (s2 := with_tailHoles h _ s1).
  assert (core s2 HX ({[rel]} ∪ TX)) as Hc2.
  { pose proof (core_retail s1 HX TX h ({[rel]} ∪ TX) (tailLen s) Hc1 Hh) as Hc2. rewrite size_add, <- (c_tcount _ _ _ Hc) in Hc2 by done.
    apply Hc2; [|lia|done]. intros i Hx. destruct (decide (i ∈ TX)) as [Hx2%(c_tbound _ _ _ Hc)|]; [done|]. assert (i = rel) by set_solver. lia. }
  assert (cells s2 ({[rel]} ∪ TX) (-1)) as Hcell2.
  { intros r Hr2 Hni2 Hne. change (tcell s2 r) with (tcell s1 r). rewrite Hcell1 by set_solver. apply Hcell; [done|set_solver|done]. }
  change (tailLen s2) with (tailLen s). change (tail s2) with t1.
  destruct (page_free_ok s2 HX _ rel Hc2 Hcell2) as (t & Ht & Hlt & Hc3 & Hcell3);
    [cbn; lia|cbn; unfold t1; rewrite length_insert; lia|]. cbn zeta in Ht.
  change (tailLen s2) with (tailLen s) in *. change (tail s2) with t1 in Ht. rewrite Ht. cbn [mbind option_bind]. change (tailBase s2) with (tailBase s) in *.
  set (s3 := with_next _ _). assert (core s3 HX ({[rel]} ∪ TX)) as Hc3' by (by destruct Hc3).
  assert (forall r, 0 <= r < tailLen s -> r ∉ ({[rel]} ∪ TX : gset Z) -> tcell s3 r = tcell s r) as Htc.
  { intros r Hr2 Hni2. etransitivity; [exact (Hcell3 r Hr2 Hni2)|]. change (tcell s2 r) with (tcell s1 r). apply Hcell1. set_solver. }
  assert (cells s3 ({[rel]} ∪ TX) (-1)) as Hcell3'.
  { intros r Hr2 Hni2 Hne. rewrite Htc by done. apply Hcell; [done|set_solver|done]. }
  change (tailLen s3) with (tailLen s) in *.
  assert ((tailLen s + 63) / 64 <= Z.of_nat (length (tail s3))) as Hp3.
  { cbn. rewrite Hlt. cbn. unfold t1. rewrite length_insert. lia. }
  destruct (tail_cut_ok (Z.to_nat (tailLen s)) s3 HX _ Hc3' Hcell3' Hbase Hp3) as (h4 & TX4 & n & -> & Hn & Hh4 & Hsz4 & Hb4 & HT4).
  cbn [mbind option_bind]. change (tailLen s3) with (tailLen s) in *.
  pose proof (core_retail s3 HX _ h4 TX4 n Hc3' Hh4 Hb4 (proj1 Hn) Hbase) as Hc4. set (s4 := retail _ _ n s3) in *.
  destruct (tail_fit_ok s4 HX TX4 Hc4) as (s5 & -> & Hr5 & Hv5 & Hl5 & Htl5 & Htb5 & Hrl5 & Hn5 & Hf5).
  { intros r Hr2 Hni2 Hne. change (tailLen s4) with n in Hr2. assert (0 <= r < tailLen s) as Hr3 by lia. apply Hcell3'; [done| |done]. rewrite HT4. intros [|]; [done|lia]. }
  { etransitivity; [|exact Hp3]. apply Z.div_le_mono; cbn; lia. }
  cbn [mbind option_bind]. exists s5. split; [done|]. change (tailLen s4) with n in *.
  split; [by eexists _, _| |rewrite Hl5; unfold shard_len; cbn; unfold rlen; cbn; rewrite (c_tcount _ _ _ Hc), size_add in * by done; lia| | |done].
  - intros i Hi0. rewrite (slot_view _ _ _ _ Hr5), (slot_view _ _ _ _ Hr), Hv5 by done. unfold view.
    change (rlen s4) with (rlen s). change (reverse s4) with (reverse s). change (tailBase s4) with (tailBase s). change (tailLen s4) with n.
    change (tcell s4 (i - tailBase s)) with (tcell s3 (i - tailBase s)).
    destruct (decide (i < rlen s)); [by rewrite (decide_False (P:=i = idx)) by lia|].
    assert (i - tailBase s ∈ TX4 \/ n <= i - tailBase s < tailLen s <-> i = idx \/ i - tailBase s ∈ TX) as HT.
    { rewrite <- HT4, elem_of_union, elem_of_singleton. unfold rel. split; intros [|]; auto; left; lia. }
    destruct (decide (i = idx)) as [->|Hne].
    + case_decide; [|done]. rewrite decide_True; [done|]. destruct (proj2 HT) as [|]; [by left|done|lia].
    + destruct (decide (tailBase s <= i < tailBase s + tailLen s)) as [Ht2|Ht2].
      * destruct (decide (i - tailBase s ∈ TX)) as [Hx|Hx].
        -- case_decide; [|done]. rewrite decide_True; [done|]. destruct (proj2 HT) as [|]; [by right|done|lia].
        -- assert (~ (i - tailBase s ∈ TX4 \/ n <= i - tailBase s < tailLen s)) as Hno by tauto.
           rewrite decide_True, decide_False by (tauto || lia). apply Htc; [lia|]. rewrite HT4. exact Hno.
      * by rewrite decide_False by lia.
  - unfold mark, endLocked. rewrite Htl5, Hn5, Hrl5. cbn. unfold rlen. cbn. fold (rlen s).
    destruct (Z.eqb_spec n 0) as [|Hn0]; destruct (Z.eqb_spec (tailLen s) 0); cbn; [lia|lia|lia|]. rewrite Htb5 by done. cbn. lia.
  - rewrite Hn5. split; [|cbn; lia]. unfold endLocked. rewrite Htl5, Hrl5. cbn. unfold rlen. cbn. fold (rlen s).
    destruct (Z.eqb_spec n 0) as [|Hn0]; destruct (Z.eqb_spec (tailLen s) 0); cbn; [lia|lia|lia|]. rewrite Htb5 by done. cbn. lia.
Qed.

(** Any bound slot is given back. *)
Lemma unplace_ok s idx k : shard_ok s -> 0 <= idx -> slot s idx = Some k ->
  exists s', unplace_shard s idx = Some (s', true) /\ frees s s' idx.
Proof.
  intros Hok Hi Hs. destruct (decide (rlen s <= idx)) as [Hge|]; [|eapply unplace_dense; [done|lia|done]].
  unfold unplace_shard. destruct (Z.leb_spec (rlen s) idx); [|lia]. by eapply unplace_tail.
Qed.

(** A hole of the reverse table filled. *)
Lemma fill_dense s idx k : shard_ok s -> 0 <= idx < rlen s -> slot s idx = None ->
  isHoleLocked s idx = true /\
  exists s', (r ← aset (reverse s) idx k; h ← bit_clear (holes s) idx; Some (with_holes h (holeCount s - 1) (with_reverse r s))) = Some s' /\
    binds s s' idx k.
Proof.
  intros (HX & TX & Hr) Hi Hs. pose proof Hr as [Hc Hp Hcell]. rewrite (slot_view _ _ _ _ Hr) in Hs by lia.
  unfold view in Hs. rewrite decide_True in Hs by lia.
  destruct (decide (idx ∈ HX)) as [Hin|Hni].
  2:{ destruct (aget_is_Some (reverse s) idx) as [x Hx]; [unfold rlen in Hi; lia|congruence]. }
  split; [by apply (c_holes _ _ _ Hc)|]. rewrite aset_Some by (unfold rlen in Hi; lia). cbn [mbind option_bind].
  destruct (bit_clear_bits _ _ _ (c_holes _ _ _ Hc) Hin) as (h & -> & Hh & _). cbn [mbind option_bind].
  eexists. split; [done|]. set (s' := with_holes _ _ _).
  assert (rlen s' = rlen s) as El by (unfold rlen; cbn; by rewrite length_insert).
  assert (rep s' (HX ∖ {[idx]}) TX) as Hr'.
  { split; [|done..]. destruct Hc. split; try done; rewrite ?El; try done.
    - cbn. rewrite size_remove by done. lia.
    - intros i [Hx _]%elem_of_difference. auto. }
  split; [by eexists _, _| |unfold shard_len; rewrite El; cbn; lia| |done].
  - intros i Hi0. rewrite (slot_view _ _ _ _ Hr'), (slot_view _ _ _ _ Hr) by done. unfold view. rewrite El. cbn.
    destruct (decide (i < rlen s)); [|by rewrite (decide_False (P:=i = idx)) by lia].
    rewrite aget_insert by (unfold rlen in Hi; lia). destruct (decide (i = idx)) as [->|].
    + by rewrite decide_False by set_solver.
    + destruct (decide (i ∈ HX)); [by rewrite decide_True by set_solver|by rewrite decide_False by set_solver].
  - unfold endLocked. rewrite El. cbn. pose proof (c_len _ _ _ Hc). pose proof (c_base _ _ _ Hc).
    destruct (Z.eqb_spec (tailLen s) 0); cbn; lia.
Qed.

Lemma place_free s idx k : shard_ok s -> 0 <= idx < 2 ^ 64 -> slot s idx = None ->
  exists s', place_shard s idx k = Some (inr s') /\ binds s s' idx k.
Proof.
  intros Hok Hi Hs. unfold place_shard. destruct (Z.ltb_spec idx (rlen s)) as [Hlt|Hge].
  - destruct (fill_dense s idx k Hok) as (-> & s' & He & Hb); [lia|done|]. cbn [negb]. exists s'. split; [|done].
    revert He. destruct (aset _ _ _); cbn; [|done]. destruct (bit_clear _ _); cbn; [|done]. intros He. by injection He as ->.
  - destruct (bindAt_ok s idx k Hok) as (s' & Hb & Hbs); [lia|done|]. rewrite Hb. cbn [mbind option_bind].
    destruct (_ && _) eqn:Ein; [|by exists s']. bool_to_prop. destruct Hok as (HX & TX & Hr). pose proof Hr as [Hc Hp Hcell].
    rewrite (tail_hole s HX TX) by (done || lia). cbn [mbind option_bind]. rewrite bool_decide_true; [by exists s'|].
    destruct (decide (idx - tailBase s ∈ TX)) as [|Hni]; [done|]. exfalso. rewrite (slot_view _ _ _ _ Hr) in Hs by lia.
    unfold view in Hs. rewrite decide_False, decide_True, decide_False in Hs by (done || lia).
    destruct (Hcell (idx - tailBase s)) as [x Hx]; [lia|done|lia|congruence].
Qed.

Lemma place_held s idx k k' : shard_ok s -> 0 <= idx -> slot s idx = Some k' -> place_shard s idx k = Some (inl SlotHeld).
Proof.
  intros (HX & TX & Hr) Hi Hs. pose proof Hr as [Hc Hp Hcell]. rewrite (slot_view _ _ _ _ Hr) in Hs by lia.
  unfold view in Hs. unfold place_shard. destruct (Z.ltb_spec idx (rlen s)) as [Hlt|Hge].
  - rewrite decide_True in Hs by done. case_decide as Hni; [done|]. unfold isHoleLocked.
    by rewrite (bits_dec _ _ _ (c_holes _ _ _ Hc)), bool_decide_false.
  - rewrite decide_False in Hs by lia. case_decide as Hin; [|done]. case_decide as Hni; [done|]. pose proof (c_len _ _ _ Hc).
    destruct (Z.eqb_spec (tailLen s) 0) as [|Ht]; [lia|]. destruct (Z.leb_spec (tailBase s) idx); [|lia].
    destruct (Z.ltb_spec (idx - tailBase s) (tailLen s)); [|lia]. cbn [negb andb].
    rewrite (tail_hole s HX TX) by (done || lia). cbn [mbind option_bind]. by rewrite bool_decide_false.
Qed.
End shard.
