(* ===== verification/MapperTable.v ===== *)
(** * The node mapper as a table of keys and ids

    The abstract mapper is a finite map from keys to ids and, for every shard, the index
    its next new key receives.  This file holds the invariant of a mapper, the correspondence with a
    table, and the lemmas that every operation keeps it; MapperProps.v states what
    follows for the program. *)

From Stdlib Require Import ZArith Lia.
From stdpp Require Import gmap list_numbers.
From S2P Require Import Prelude Csr CsrRows Mapper MapperFacts.

Local Open Scope Z_scope.

(** ** Ids *)

Lemma pack_value i idx : 0 <= i < 256 -> 0 <= idx < 2 ^ 56 -> packNodeID i idx = idx * 256 + i.
Proof.
  intros Hi Hx. unfold packNodeID. change mapperShardMask with (Z.ones 8). rewrite (Z.land_ones i 8) by lia. rewrite Z.mod_small by (change (2 ^ 8) with 256; lia).
  rewrite Z.shiftl_mul_pow2 by (unfold mapperShardBits; lia). unfold mapperShardBits.
  rewrite u64_small by (change (2 ^ 8) with 256; lia). rewrite Z.lor_comm. rewrite <- (Z.shiftl_mul_pow2 idx 8) by lia.
  rewrite lor_shiftl by (change (2 ^ 8) with 256; lia). change (2 ^ 8) with 256. lia.
Qed.

Lemma unpack_value id : unpackNodeID id = (id mod 256, id / 256).
Proof.
  unfold unpackNodeID. change mapperShardMask with (Z.ones 8). rewrite Z.land_ones by lia.
  rewrite Z.shiftr_div_pow2 by (unfold mapperShardBits; lia). done.
Qed.

Lemma unpack_pack i idx : 0 <= i < 256 -> 0 <= idx < 2 ^ 56 -> unpackNodeID (packNodeID i idx) = (i, idx).
Proof.
  intros Hi Hx. rewrite unpack_value, pack_value by done. rewrite Z.add_comm, Z.mod_add, Z.div_add by lia.
  rewrite Z.mod_small, Z.div_small by lia. done.
Qed.

Lemma unpack_range id i idx : 0 <= id < 2 ^ 64 -> unpackNodeID id = (i, idx) -> 0 <= i < 256 /\ 0 <= idx < 2 ^ 56.
Proof.
  rewrite unpack_value. intros Hid E. injection E as <- <-. split; [apply Z.mod_pos_bound; lia|].
  split; [apply Z.div_pos; lia|apply Z.div_lt_upper_bound; lia].
Qed.

Lemma pack_unpack id i idx : 0 <= id < 2 ^ 64 -> unpackNodeID id = (i, idx) -> id = packNodeID i idx.
Proof.
  intros Hid E. destruct (unpack_range _ _ _ Hid E) as [Hi Hx]. rewrite pack_value by done.
  rewrite unpack_value in E. injection E as <- <-. pose proof (Z.div_mod id 256). lia.
Qed.

Lemma pack_inj i idx j jdx : 0 <= i < 256 -> 0 <= idx < 2 ^ 56 -> 0 <= j < 256 -> 0 <= jdx < 2 ^ 56 ->
  packNodeID i idx = packNodeID j jdx -> i = j /\ idx = jdx.
Proof. intros Hi Hx Hj Hy E. pose proof (unpack_pack i idx Hi Hx) as E1. rewrite E, unpack_pack in E1 by done. by injection E1. Qed.

(** The last index of a shard is left out, so that one past it is an index too. *)
Definition maxIndex : Z := 2 ^ 56 - 1.

Section table.
Context {N : Type} `{Countable N} `{!MapperKey N} `{!MapperKeyLaws N} {R : Type} `{!IDReserver R}.
Implicit Types (s : mapperShard (N:=N)) (m : Mapper (N:=N) (R:=R)) (k : N) (i idx id : Z).

Lemma home_range k : 0 <= mapperShardFor k < 256.
Proof.
  unfold mapperShardFor. change mapperShardMask with (Z.ones 8). rewrite Z.land_ones by lia.
  change 256 with (2 ^ 8). apply Z.mod_pos_bound. lia.
Qed.

(** The two ways the source hashes a key agree. *)
Lemma shardFor_home m k : kind m = detectKeyKind (N:=N) -> shardFor m k = mapperShardFor k.
Proof.
  intros E. unfold shardFor, mapperShardFor. rewrite E. pose proof (kind_static k) as Hk.
  destruct (detectKeyKind (N:=N)) eqn:Ed; try done; by rewrite Hk.
Qed.

(** ** The invariant of a shard *)

Record shard_inv (i : Z) s : Prop := {
  si_ok : shard_ok s;
  si_end : endLocked s <= maxIndex;
  si_next : 0 <= next s;
  si_slot k id : forward s !! k = Some id <-> exists idx, 0 <= idx /\ id = packNodeID i idx /\ slot s idx = Some k;
  si_home k : is_Some (forward s !! k) -> mapperShardFor k = i;
  si_len : shard_len s = Z.of_nat (size (forward s));
}.

Lemma end_nonneg s : shard_ok s -> 0 <= endLocked s.
Proof.
  intros (HX & TX & Hr). pose proof (c_len _ _ _ (r_core _ _ _ Hr)). unfold endLocked, rlen.
  destruct (Z.eqb_spec (tailLen s) 0); cbn; lia.
Qed.

Lemma slot_bound i s idx k : shard_inv i s -> 0 <= idx -> slot s idx = Some k -> idx < endLocked s /\ idx < maxIndex.
Proof.
  intros Hs H0 Hk. assert (idx < endLocked s); [|pose proof (si_end _ _ Hs); lia].
  destruct (Z.lt_ge_cases idx (endLocked s)); [done|]. rewrite (slot_end s idx (si_ok _ _ Hs)) in Hk by done. done.
Qed.

(** The marks and the keys are not part of the slots. *)
Lemma shard_ok_frame s n f d : shard_ok s -> shard_ok (with_next n (with_forward f d s)).
Proof. intros (HX & TX & [[] ? ?]). exists HX, TX. split; [by split|done|done]. Qed.

Lemma shard_ok_next s n : shard_ok s -> shard_ok (with_next n s).
Proof. intros (HX & TX & [[] ? ?]). exists HX, TX. split; [by split|done|done]. Qed.

Lemma inv_next i s n : shard_inv i s -> 0 <= n -> shard_inv i (with_next n s).
Proof. intros [] Hn. split; try done. by apply shard_ok_next. Qed.

(** A new binding. *)
Lemma inv_bind i s s' idx k n : 0 <= i < 256 -> shard_inv i s -> binds s s' idx k -> 0 <= idx < maxIndex ->
  mapperShardFor k = i -> forward s !! k = None -> slot s idx = None -> 0 <= n ->
  shard_inv i (with_next n (with_forward (<[k := packNodeID i idx]> (forward s')) (forwardDeletes s') s')).
Proof.
  intros Hi Hs [Hok Hsl Hl He (Hn & Hf & Hd)] Hx Hk Hnone Hfree H0. unfold maxIndex in *.
  split; [by apply shard_ok_frame| |done| | |].
  - change (endLocked s' <= maxIndex). rewrite He. pose proof (si_end _ _ Hs). unfold maxIndex in *. lia.
  - intros k' id. cbn. rewrite Hf. change (slot (with_next _ _)) with (slot s').
    destruct (decide (k' = k)) as [->|Hne].
    + rewrite lookup_insert_eq. split.
      * intros E. injection E as <-. exists idx. split; [lia|]. split; [done|]. rewrite Hsl by lia. by rewrite decide_True.
      * intros (j & Hj & -> & Hslot). rewrite Hsl in Hslot by done. case_decide as E; [by subst j|].
        assert (forward s !! k = Some (packNodeID i j)) as Hf'; [|congruence]. apply (si_slot _ _ Hs). eauto.
    + rewrite lookup_insert_ne by done. rewrite (si_slot _ _ Hs). split; intros (j & Hj & -> & Hslot).
      * exists j. split; [done|]. split; [done|]. rewrite Hsl by done. rewrite decide_False; [done|]. congruence.
      * exists j. split; [done|]. split; [done|]. rewrite Hsl in Hslot by done. case_decide; [congruence|done].
  - intros k'. cbn. rewrite Hf. destruct (decide (k' = k)) as [->|Hne]; [done|]. rewrite lookup_insert_ne by done. apply Hs.
  - change (shard_len s' = Z.of_nat (size (<[k := packNodeID i idx]> (forward s')))). rewrite Hl, Hf, map_size_insert_None by done.
    rewrite (si_len _ _ Hs). lia.
Qed.

(** A binding given back. *)
Lemma inv_free i s s' idx k : 0 <= i < 256 -> shard_inv i s -> frees s s' idx -> 0 <= idx -> slot s idx = Some k -> shard_inv i (delete_forward k s').
Proof.
  intros Hi Hs [Hok Hsl Hl Hm [He Hn] [Hf Hd]] Hx Hk. assert (forward s !! k = Some (packNodeID i idx)) as Hfk by (apply (si_slot _ _ Hs); eauto).
  pose proof (si_end _ _ Hs). pose proof (si_next _ _ Hs). unfold delete_forward. cbn zeta.
  split; [|change (endLocked s' <= maxIndex); lia|cbn; lia| | |].
  - destruct Hok as (HX & TX & [[] ? ?]). exists HX, TX. split; [by split|done|done].
  - intros k' id. cbn. change (slot (with_forward _ _ _)) with (slot s'). rewrite Hf, lookup_delete_Some, (si_slot _ _ Hs). split.
    + intros (Hne & j & Hj & -> & Hslot). exists j. split; [done|]. split; [done|]. rewrite Hsl by done. rewrite decide_False; [done|]. congruence.
    + intros (j & Hj & -> & Hslot). rewrite Hsl in Hslot by done. case_decide as E; [done|]. split; [|by exists j].
      intros ->. assert (forward s !! k' = Some (packNodeID i j)) as Hf2 by (apply (si_slot _ _ Hs); eauto).
      assert (packNodeID i j = packNodeID i idx) as Ep by congruence. pose proof (slot_bound _ _ _ _ Hs Hj Hslot). pose proof (slot_bound _ _ _ _ Hs Hx Hk).
      unfold maxIndex in *. apply pack_inj in Ep as [_ ->]; [done|lia..].
  - intros k' [id Hid]. cbn in Hid. rewrite Hf in Hid. apply lookup_delete_Some in Hid as [_ Hid]. apply (si_home _ _ Hs). by exists id.
  - change (shard_len s' = Z.of_nat (size (delete k (forward s')))). rewrite Hl, Hf, (si_len _ _ Hs).
    pose proof (map_size_delete_Some k (forward s) (ex_intro _ _ Hfk)) as Hsz.
    pose proof (map_size_ne_0_lookup_2 (forward s) k (ex_intro _ _ Hfk)). rewrite Hsz. lia.
Qed.

(** ** The table *)

Record table := mkTable { t_ids : gmap N Z; t_marks : Z -> Z }.
Definition empty_table : table := mkTable ∅ (fun _ => 0).
Definition t_bind k id (n : Z) (t : table) : table :=
  mkTable (<[k := id]> (t_ids t)) (<[mapperShardFor k := n]> (t_marks t)).
Definition t_next (t : table) k : Z := t_marks t (mapperShardFor k).
Definition t_new (t : table) k : Z := packNodeID (mapperShardFor k) (t_next t k).

(** The operations of a mapper and what they return. *)
Inductive op :=
  | OpIntern (k : N) | OpLookup (k : N) | OpResolve (id : Z) | OpUnplace (k : N) (id : Z) | OpPlace (k : N) (id : Z)
  | OpLen | OpMaxNodeID | OpCovers (id : Z) | OpRestoreNext (shard next : Z) | OpPublish (shard limit : Z) | OpSetReserver (r : option R).

Inductive res :=
  | RIntern (id : Z) (created : bool) | RLookup (o : option Z) | RResolve (o : option N) | RBool (b : bool)
  | RPlace (o : place_error + bool) | RNumber (z : Z) | RDone.

(** What an operation returns on a table, and the table after it. *)
Inductive tstep (t : table) : op -> res -> table -> Prop :=
  | ts_intern_old k id : t_ids t !! k = Some id -> tstep t (OpIntern k) (RIntern id false) t
  | ts_intern_new k : t_ids t !! k = None ->
      tstep t (OpIntern k) (RIntern (t_new t k) true) (t_bind k (t_new t k) (t_next t k + 1) t)
  | ts_lookup k : tstep t (OpLookup k) (RLookup (t_ids t !! k)) t
  | ts_resolve k id : t_ids t !! k = Some id -> tstep t (OpResolve id) (RResolve (Some k)) t
  | ts_resolve_none id : (forall k, t_ids t !! k <> Some id) -> tstep t (OpResolve id) (RResolve None) t
  | ts_unplace k id : t_ids t !! k = Some id ->
      tstep t (OpUnplace k id) (RBool true) (mkTable (delete k (t_ids t)) (t_marks t))
  | ts_unplace_not k id : t_ids t !! k <> Some id -> tstep t (OpUnplace k id) (RBool false) t
  | ts_place_shard k id : MapperShardOf id <> mapperShardFor k -> tstep t (OpPlace k id) (RPlace (inl OtherShard)) t
  | ts_place_same k id : MapperShardOf id = mapperShardFor k -> t_ids t !! k = Some id -> tstep t (OpPlace k id) (RPlace (inr false)) t
  | ts_place_bound k id cur : MapperShardOf id = mapperShardFor k -> t_ids t !! k = Some cur -> cur <> id ->
      tstep t (OpPlace k id) (RPlace (inl (BoundElsewhere cur))) t
  | ts_place_held k id k' : MapperShardOf id = mapperShardFor k -> t_ids t !! k = None -> t_ids t !! k' = Some id ->
      tstep t (OpPlace k id) (RPlace (inl SlotHeld)) t
  | ts_place k id : MapperShardOf id = mapperShardFor k -> t_ids t !! k = None -> (forall k', t_ids t !! k' <> Some id) ->
      tstep t (OpPlace k id) (RPlace (inr true)) (t_bind k id (Z.max (t_next t k) ((unpackNodeID id).2 + 1)) t)
  | ts_len : tstep t OpLen (RNumber (Z.of_nat (size (t_ids t)))) t
  | ts_max n : (forall k id, t_ids t !! k = Some id -> id < n) -> n <= 2 ^ 64 -> tstep t OpMaxNodeID (RNumber n) t
  | ts_covers id : tstep t (OpCovers id) (RBool ((unpackNodeID id).2 <? t_marks t (unpackNodeID id).1)) t
  | ts_restore i nx e : e <= t_marks t i -> (forall k id, t_ids t !! k = Some id -> mapperShardFor k = i -> (unpackNodeID id).2 < e) ->
      tstep t (OpRestoreNext i nx) RDone (mkTable (t_ids t) (<[i := Z.max nx e]> (t_marks t)))
  | ts_publish i l : tstep t (OpPublish i l) RDone t
  | ts_reserver r : tstep t (OpSetReserver r) RDone t.

(** The same operation on a mapper. *)
Definition exec (o : op) m : option (Mapper * res) :=
  match o with
  | OpIntern k => '(m, id, created) ← InternNew k m; Some (m, RIntern id created)
  | OpLookup k => Some (m, RLookup (Lookup k m))
  | OpResolve id => o ← Resolve id m; Some (m, RResolve o)
  | OpUnplace k id => '(m, b) ← Unplace k id m; Some (m, RBool b)
  | OpPlace k id => '(m, r) ← PlaceUnborn k id m; Some (m, RPlace r)
  | OpLen => Some (m, RNumber (Len m))
  | OpMaxNodeID => Some (m, RNumber (MaxNodeID m))
  | OpCovers id => Some (m, RBool (Covers id (Watermark m)))
  | OpRestoreNext i nx => m ← RestoreNext i nx m; Some (m, RDone)
  | OpPublish i l => m ← PublishReservation i l m; Some (m, RDone)
  | OpSetReserver r => Some (SetIDReserver r m, RDone)
  end.

(** The arguments are in range, and a key that is new finds its shard's last index free. *)
Definition is_id (id : Z) : bool := (0 <=? id) && (id <? 2 ^ 64).
Definition is_shard (i : Z) : bool := (0 <=? i) && (i <? 256).
Definition fits (o : op) m : bool :=
  match o with
  | OpIntern k => bool_decide (is_Some (Lookup k m)) || (mark (shards m (mapperShardFor k)) <? maxIndex)
  | OpResolve id | OpUnplace _ id | OpCovers id => is_id id
  | OpPlace _ id => is_id id && ((unpackNodeID id).2 <? maxIndex)
  | OpRestoreNext i nx => is_shard i && is_id nx
  | OpPublish i _ => is_shard i
  | _ => true
  end.

(** ** The correspondence *)

Record sim m (t : table) : Prop := {
  s_kind : kind m = detectKeyKind (N:=N);
  s_shards i : 0 <= i < 256 -> shard_inv i (shards m i);
  s_ids k : t_ids t !! k = forward (shards m (mapperShardFor k)) !! k;
  s_marks i : 0 <= i < 256 -> t_marks t i = mark (shards m i);
  s_len : zsum (fun j => shard_len (shards m (Z.of_nat j))) 256 = Z.of_nat (size (t_ids t));
}.

(** What an empty mapper is, what every operation keeps and what [LoadFrom] establishes. *)
Definition well_formed m : Prop := exists t, sim m t.

Lemma sim_new : sim NewMapper empty_table.
Proof.
  split; [done| |done|done|done]. intros i Hi. split; try done; [apply new_shard_ok| |intros k [? ?]; done].
  intros k id. split; [done|]. intros (idx & Hx & -> & Hk). rewrite slot_end in Hk; [done|apply new_shard_ok|done].
Qed.

Lemma ids_slot m t k id : sim m t -> t_ids t !! k = Some id ->
  exists idx, 0 <= idx < maxIndex /\ id = packNodeID (mapperShardFor k) idx /\ slot (shards m (mapperShardFor k)) idx = Some k /\
    idx < endLocked (shards m (mapperShardFor k)).
Proof.
  intros Hs Hk. rewrite (s_ids _ _ Hs) in Hk. pose proof (s_shards _ _ Hs _ (home_range k)) as Hi.
  apply (si_slot _ _ Hi) in Hk as (idx & Hx & -> & Hk). pose proof (slot_bound _ _ _ _ Hi Hx Hk). exists idx. tauto.
Qed.

Lemma slot_ids m t i idx k : sim m t -> 0 <= i < 256 -> 0 <= idx -> slot (shards m i) idx = Some k ->
  mapperShardFor k = i /\ t_ids t !! k = Some (packNodeID i idx).
Proof.
  intros Hs Hi Hx Hk. pose proof (s_shards _ _ Hs _ Hi) as Hsi.
  assert (forward (shards m i) !! k = Some (packNodeID i idx)) as Hf by (apply (si_slot _ _ Hsi); eauto).
  pose proof (si_home _ _ Hsi k (ex_intro _ _ Hf)) as <-. by rewrite (s_ids _ _ Hs).
Qed.

Lemma unpack_small i idx : 0 <= i < 256 -> 0 <= idx < maxIndex -> unpackNodeID (packNodeID i idx) = (i, idx).
Proof. intros Hi Hx. apply unpack_pack; [done|unfold maxIndex in Hx; lia]. Qed.

(** One slot and one key: an id in range is bound to the key its slot holds. *)
Lemma slot_none_ids m t id i idx : sim m t -> 0 <= id < 2 ^ 64 -> unpackNodeID id = (i, idx) ->
  slot (shards m i) idx = None -> forall k, t_ids t !! k <> Some id.
Proof.
  intros Hs Hid Hu Hn k Hk. destruct (ids_slot _ _ _ _ Hs Hk) as (j & Hj & -> & Hsl & _).
  rewrite unpack_small in Hu by (done || apply home_range). injection Hu as <- <-. congruence.
Qed.

Lemma slot_some_ids m t id i idx k : sim m t -> 0 <= id < 2 ^ 64 -> unpackNodeID id = (i, idx) ->
  slot (shards m i) idx = Some k -> t_ids t !! k = Some id /\ mapperShardFor k = i.
Proof.
  intros Hs Hid Hu Hsl. destruct (unpack_range _ _ _ Hid Hu) as [Hi Hx].
  destruct (slot_ids _ _ _ _ _ Hs Hi (proj1 Hx) Hsl) as [Hh Hk]. by rewrite <- (pack_unpack _ _ _ Hid Hu) in Hk.
Qed.

(** One shard replaced. *)
Lemma sim_update m t i s' t' lim r : sim m t -> 0 <= i < 256 -> shard_inv i s' ->
  (forall k, mapperShardFor k = i -> t_ids t' !! k = forward s' !! k) ->
  (forall k, mapperShardFor k <> i -> t_ids t' !! k = t_ids t !! k) ->
  (forall j, t_marks t' j = if decide (i = j) then mark s' else t_marks t j) ->
  Z.of_nat (size (t_ids t')) - Z.of_nat (size (t_ids t)) = shard_len s' - shard_len (shards m i) ->
  sim (mkMapper (kind m) (<[i:=s']> (shards m)) lim r) t'.
Proof.
  intros Hs Hi Hs' Hk1 Hk2 Hm Hsz. split; cbn [kind shards].
  - apply Hs.
  - intros j Hj. rewrite fn_insert_dec. destruct (decide (i = j)) as [<-|]; [done|by apply Hs].
  - intros k. rewrite fn_insert_dec. destruct (decide (i = mapperShardFor k)) as [E|]; [by apply Hk1|].
    rewrite Hk2 by congruence. apply Hs.
  - intros j Hj. rewrite Hm, fn_insert_dec. case_decide; [done|by apply Hs].
  - rewrite (zsum_update (fun j => shard_len (shards m (Z.of_nat j))) _ 256 (Z.to_nat i)).
    + rewrite (s_len _ _ Hs), Z2Nat.id, fn_insert_eq by lia. lia.
    + lia.
    + intros j Hj. rewrite fn_insert_dec, decide_False by lia. done.
Qed.

(** The limits and the reserver are not part of the correspondence. *)
Lemma sim_limits m t lim r : sim m t -> sim (mkMapper (kind m) (shards m) lim r) t.
Proof. intros []. by split. Qed.

Lemma publish_all pubs : forall m, kind (foldl publish m pubs) = kind m /\ shards (foldl publish m pubs) = shards m /\
  reserver (foldl publish m pubs) = reserver m /\ idLimit (foldl publish m pubs) = foldl raise_limit (idLimit m) pubs.
Proof. induction pubs as [|p pubs IH]; intros m; cbn; [done|]. by destruct (IH (publish m p)) as (-> & -> & -> & ->). Qed.

(** ** Interning *)

Lemma mark_nonneg i s : shard_inv i s -> 0 <= mark s.
Proof. intros Hs. unfold mark. pose proof (si_next _ _ Hs). lia. Qed.

(** What the slow path does for a new key: the reserver is asked when the index is not
    below the limit, and the key takes the shard's mark. *)
Definition reserved m (i idx : Z) : Mapper :=
  match reserver m with
  | Some r => if idLimit m i <=? idx then
      let '(r, pubs) := ReserveIDs (idLimit m) i (idx + 1) r in foldl publish (mkMapper (kind m) (shards m) (idLimit m) (Some r)) pubs
    else m
  | None => m
  end.

Lemma reserved_shards m i idx : kind (reserved m i idx) = kind m /\ shards (reserved m i idx) = shards m.
Proof.
  unfold reserved. destruct (reserver m) as [r|]; [|done]. destruct (_ <=? _); [|done]. destruct (ReserveIDs _ _ _ _) as [r' pubs].
  by destruct (publish_all pubs (mkMapper (kind m) (shards m) (idLimit m) (Some r'))) as (-> & -> & _).
Qed.

Lemma intern_new_shard i s k : 0 <= i < 256 -> shard_inv i s -> mapperShardFor k = i -> forward s !! k = None -> mark s < maxIndex ->
  exists s', (if (tailLen s =? 0) && (mark s =? rlen s) then Some (with_reverse (reverse s ++ [k]) s) else bindAtLocked s (mark s) k) = Some s' /\
    binds s s' (mark s) k /\
    shard_inv i (with_next (mark s + 1) (with_forward (<[k := packNodeID i (mark s)]> (forward s')) (forwardDeletes s') s')) /\
    mark (with_next (mark s + 1) (with_forward (<[k := packNodeID i (mark s)]> (forward s')) (forwardDeletes s') s')) = mark s + 1.
Proof.
  intros Hi Hs Hk Hf Hm. pose proof (mark_nonneg _ _ Hs) as H0. pose proof (si_ok _ _ Hs) as Hok.
  assert (endLocked s <= mark s) as He by (unfold mark; lia).
  assert (slot s (mark s) = None) as Hsl by (by apply slot_end).
  assert (rlen s <= mark s) as Hrl.
  { destruct Hok as (HX & TX & Hr). pose proof (c_base _ _ _ (r_core _ _ _ Hr)). pose proof (c_len _ _ _ (r_core _ _ _ Hr)).
    revert He. unfold endLocked. destruct (Z.eqb_spec (tailLen s) 0); cbn; lia. }
  assert (exists s', (if (tailLen s =? 0) && (mark s =? rlen s) then Some (with_reverse (reverse s ++ [k]) s) else bindAtLocked s (mark s) k) = Some s' /\
    binds s s' (mark s) k) as (s' & E & Hb).
  { destruct (_ && _) eqn:Eb; [|apply bindAt_ok; [done|unfold maxIndex in Hm; lia|done]]. bool_to_prop.
    eexists. split; [done|]. replace (mark s) with (rlen s) by done. apply push_binds; auto. }
  exists s'. split; [done|]. split; [done|]. split; [by apply inv_bind with (s:=s); [..|lia]|].
  unfold mark at 1. change (endLocked (with_next _ _)) with (endLocked s'). cbn. rewrite (b_end _ _ _ _ Hb). lia.
Qed.

Lemma intern_ok {H_} (onCreate : option (Z -> H_ -> H_)) m t k h : sim m t ->
  is_Some (t_ids t !! k) \/ t_marks t (mapperShardFor k) < maxIndex ->
  match t_ids t !! k with
  | Some id => InternNewHook onCreate k m h = Some (m, h, id, false)
  | None => exists s', InternNewHook onCreate k m h =
      Some (with_shard (mapperShardFor k) s' (reserved m (mapperShardFor k) (t_next t k)),
        match onCreate with Some f => f (t_new t k) h | None => h end, t_new t k, true) /\
      sim (with_shard (mapperShardFor k) s' (reserved m (mapperShardFor k) (t_next t k))) (t_bind k (t_new t k) (t_next t k + 1) t) /\
      forall j, 0 <= j -> slot s' j = if decide (j = t_next t k) then Some k else slot (shards m (mapperShardFor k)) j
  end.
Proof.
  intros Hs Hfit. unfold InternNewHook, intern_fast. rewrite shardFor_home by apply Hs. rewrite <- (s_ids _ _ Hs).
  pose proof (s_ids _ _ Hs k) as Ek. set (i := mapperShardFor k) in *. pose proof (home_range k) as Hi. fold i in Hi.
  destruct (t_ids t !! k) as [id|] eqn:E; [done|]. destruct Hfit as [[? ?]|Hfit]; [done|].
  unfold t_new, t_next. fold i. rewrite (s_marks _ _ Hs i Hi) in *. pose proof (s_shards _ _ Hs i Hi) as Hsi.
  set (s := shards m i) in *. destruct (intern_new_shard i s k Hi Hsi eq_refl (eq_sym Ek) Hfit) as (s' & Es' & Hb & Hinv & Hmk).
  pose proof (mark_nonneg _ _ Hsi) as Hm0. set (s2 := with_next _ _) in *.
  exists s2. assert (u64 (mark s + 1) = mark s + 1) as Eu by (apply u64_small; unfold maxIndex in Hfit; lia).
  split; [|split].
  - unfold internSlowHook. fold s. rewrite <- Ek. cbn zeta. change (Z.max (next s) (endLocked s)) with (mark s). rewrite Eu.
    rewrite Es'. reflexivity.
  - unfold with_shard. destruct (reserved_shards m i (mark s)) as [-> ->]. apply sim_update with (t:=t); try done.
    + intros k' Hk'. cbn. rewrite (proj1 (proj2 (b_next _ _ _ _ Hb))). destruct (decide (k' = k)) as [->|]; [by rewrite !lookup_insert_eq|].
      rewrite !lookup_insert_ne by done. rewrite (s_ids _ _ Hs), Hk'. done.
    + intros k' Hk'. cbn. rewrite lookup_insert_ne; [done|]. by intros <-.
    + intros j. cbn. rewrite fn_insert_dec, Hmk. done.
    + cbn [t_bind t_ids]. rewrite map_size_insert_None by done. change (shard_len s2) with (shard_len s'). rewrite (b_len _ _ _ _ Hb). unfold s. lia.
  - intros j Hj. change (slot s2) with (slot s'). by apply (b_slot _ _ _ _ Hb).
Qed.

(** ** Recovery placements and withdrawals *)

Lemma resolve_ok m t id : sim m t -> 0 <= id < 2 ^ 64 ->
  exists o, Resolve id m = Some o /\ match o with Some k => t_ids t !! k = Some id | None => forall k, t_ids t !! k <> Some id end.
Proof.
  intros Hs Hid. unfold Resolve. destruct (unpackNodeID id) as [i idx] eqn:Hu. destruct (unpack_range _ _ _ Hid Hu) as [Hi Hx].
  rewrite resolve_slot by (apply (si_ok _ _ (s_shards _ _ Hs i Hi)) || lia). eexists. split; [done|].
  destruct (slot (shards m i) idx) as [k|] eqn:Hsl; [by eapply slot_some_ids|by eapply slot_none_ids].
Qed.

Lemma unplace_sim m t k id : sim m t -> 0 <= id < 2 ^ 64 ->
  exists m', Unplace k id m = Some (m', bool_decide (t_ids t !! k = Some id)) /\
    sim m' (if decide (t_ids t !! k = Some id) then mkTable (delete k (t_ids t)) (t_marks t) else t).
Proof.
  intros Hs Hid. unfold Unplace. destruct (unpackNodeID id) as [i idx] eqn:Hu. destruct (unpack_range _ _ _ Hid Hu) as [Hi Hx].
  pose proof (s_shards _ _ Hs i Hi) as Hsi. set (s := shards m i) in *. destruct (decide (t_ids t !! k = Some id)) as [Hk|Hk].
  - destruct (ids_slot _ _ _ _ Hs Hk) as (j & Hj & Eid & Hsl & _). pose proof Hu as Hu2. rewrite Eid, unpack_small in Hu2 by (done || apply home_range).
    injection Hu2 as Eh ->. rewrite Eh in Hsl. pose proof Hk as Hkf. rewrite (s_ids _ _ Hs), Eh in Hkf. fold s in Hkf, Hsl.
    destruct (unplace_ok s idx k (si_ok _ _ Hsi) (proj1 Hx) Hsl) as (s' & E & Hf).
    rewrite (bool_decide_true (forward s !! k = Some id)) by done. cbn [negb]. rewrite E. cbn [mbind option_bind negb].
    eexists. split; [by rewrite bool_decide_true|]. unfold with_shard. pose proof (inv_free _ _ _ _ _ Hi Hsi Hf (proj1 Hx) Hsl) as Hinv.
    pose proof (f_forward _ _ _ Hf) as [Ff _]. apply sim_update with (t:=t); try done.
    + intros k' Hk'. cbn. rewrite Ff. destruct (decide (k' = k)) as [->|]; [by rewrite !lookup_delete_eq|].
      rewrite !lookup_delete_ne by done. rewrite (s_ids _ _ Hs), Hk'. done.
    + intros k' Hk'. cbn. rewrite lookup_delete_ne; [done|]. by intros <-.
    + intros j. cbn. change (mark (delete_forward k s')) with (mark s'). rewrite (f_mark _ _ _ Hf). case_decide as Ej; [|done]. subst j. by apply Hs.
    + cbn [t_ids]. change (shard_len (delete_forward k s')) with (shard_len s'). rewrite (f_len _ _ _ Hf). fold s.
      pose proof (map_size_delete_Some k (t_ids t) (ex_intro _ _ Hk)) as ->. pose proof (map_size_ne_0_lookup_2 (t_ids t) k (ex_intro _ _ Hk)). lia.
  - exists m. rewrite (bool_decide_false (t_ids t !! k = Some id)) by done. split; [|done].
    rewrite bool_decide_false; [done|]. intros E. apply Hk. rewrite (s_ids _ _ Hs).
    rewrite (si_home _ _ Hsi k (ex_intro _ _ E)). exact E.
Qed.

Lemma shard_of_id id i idx : unpackNodeID id = (i, idx) -> MapperShardOf id = i.
Proof. unfold unpackNodeID, MapperShardOf. intros E. by injection E. Qed.

Lemma place_sim m t k id : sim m t -> 0 <= id < 2 ^ 64 -> (unpackNodeID id).2 < maxIndex ->
  exists m' r t', PlaceUnborn k id m = Some (m', r) /\ tstep t (OpPlace k id) (RPlace r) t' /\ sim m' t'.
Proof.
  intros Hs Hid Hmax. unfold PlaceUnborn. destruct (unpackNodeID id) as [i idx] eqn:Hu. cbn in Hmax.
  destruct (unpack_range _ _ _ Hid Hu) as [Hi Hx]. pose proof (shard_of_id _ _ _ Hu) as Hof.
  rewrite shardFor_home by apply Hs. destruct (Z.eqb_spec (mapperShardFor k) i) as [Hh|Hh]; cbn [negb].
  2:{ exists m, (inl OtherShard), t. split; [done|]. split; [|done]. constructor. congruence. }
  assert (MapperShardOf id = mapperShardFor k) as Hof' by congruence.
  pose proof (s_shards _ _ Hs i Hi) as Hsi. pose proof (s_ids _ _ Hs k) as Ek. rewrite Hh in Ek. set (s := shards m i) in *.
  rewrite <- Ek. destruct (t_ids t !! k) as [cur|] eqn:E.
  { destruct (Z.eqb_spec cur id) as [->|Hne]; eexists m, _, t; (split; [done|]); (split; [|done]); by constructor. }
  destruct (slot s idx) as [k'|] eqn:Hsl.
  { rewrite (place_held s idx k k' (si_ok _ _ Hsi) (proj1 Hx) Hsl). eexists m, _, t. split; [done|]. split; [|done].
    apply (ts_place_held _ _ _ k'); [done..|]. by eapply slot_some_ids. }
  destruct (place_free s idx k (si_ok _ _ Hsi)) as (s' & -> & Hb); [lia|done|]. cbn [mbind option_bind].
  rewrite u64_small by lia. set (n := Z.max (next s') (idx + 1)).
  assert (next s' = next s) as En by apply Hb.
  pose proof (si_next _ _ Hsi) as Hn0. rewrite (pack_unpack _ _ _ Hid Hu).
  pose proof (inv_bind i s s' idx k n Hi Hsi Hb ltac:(lia) Hh (eq_sym Ek) Hsl ltac:(lia)) as Hinv.
  set (s2 := with_next n _) in *. exists (with_shard i s2 m), (inr true), (t_bind k (packNodeID i idx) (Z.max (t_next t k) (idx + 1)) t).
  split; [done|]. split.
  { pose proof (ts_place t k (packNodeID i idx)) as Hts. rewrite <- (pack_unpack _ _ _ Hid Hu) in *. rewrite Hu in Hts. cbn in Hts.
    apply Hts; [done..|]. by eapply slot_none_ids. }
  unfold with_shard. apply sim_update with (t:=t); try done.
  - intros k' Hk'. cbn. rewrite (proj1 (proj2 (b_next _ _ _ _ Hb))). destruct (decide (k' = k)) as [->|]; [by rewrite !lookup_insert_eq|].
    rewrite !lookup_insert_ne by done. rewrite (s_ids _ _ Hs), Hk'. done.
  - intros k' Hk'. cbn. rewrite lookup_insert_ne; [done|]. by intros <-.
  - intros j. cbn. rewrite fn_insert_dec, Hh. case_decide; [|done]. unfold t_next. rewrite Hh, (s_marks _ _ Hs) by done. fold s.
    unfold mark. change (endLocked s2) with (endLocked s'). rewrite (b_end _ _ _ _ Hb). cbn. unfold n. lia.
  - cbn [t_bind t_ids]. rewrite map_size_insert_None by done. change (shard_len s2) with (shard_len s'). rewrite (b_len _ _ _ _ Hb). fold s. lia.
Qed.

Lemma restore_sim m t i nx : sim m t -> 0 <= i < 256 -> 0 <= nx ->
  exists m', RestoreNext i nx m = Some m' /\
    sim m' (mkTable (t_ids t) (<[i := Z.max nx (endLocked (shards m i))]> (t_marks t))).
Proof.
  intros Hs Hi Hn. unfold RestoreNext. change mapperShardCount with 256.
  destruct (Z.leb_spec 0 i); [|lia]. destruct (Z.ltb_spec i 256); [|lia]. cbn [andb]. eexists. split; [done|].
  pose proof (s_shards _ _ Hs i Hi) as Hsi. set (s := shards m i) in *. unfold with_shard. apply sim_update with (t:=t); try done.
  - apply inv_next; [done|lia].
  - intros k Hk. cbn. rewrite (s_ids _ _ Hs), Hk. done.
  - intros j. cbn. rewrite fn_insert_dec. case_decide; [|done]. unfold mark. change (endLocked (with_next _ s)) with (endLocked s). cbn. lia.
  - cbn [t_ids]. change (shard_len (with_next _ s)) with (shard_len s). fold s. lia.
Qed.

(** ** Counts and marks *)

Lemma foldl_shards (f : Z -> Z) n : foldl (fun a i => a + f i) 0 (seqZ 0 (Z.of_nat n)) = zsum (fun j => f (Z.of_nat j)) n.
Proof.
  induction n as [|n IH]; [done|]. rewrite seqZ_S, foldl_app, IH. cbn. by rewrite ?Z.add_0_l.
Qed.

Lemma len_ok m t : sim m t -> Len m = Z.of_nat (size (t_ids t)).
Proof. intros Hs. unfold Len. rewrite <- (s_len _ _ Hs). apply (foldl_shards (fun i => shard_len (shards m i)) 256). Qed.

Lemma foldl_max (f : Z -> Z) l : forall a, a <= foldl (fun e i => Z.max e (f i)) a l /\ (forall i, i ∈ l -> f i <= foldl (fun e i => Z.max e (f i)) a l) /\
  (foldl (fun e i => Z.max e (f i)) a l = a \/ exists i, i ∈ l /\ foldl (fun e i => Z.max e (f i)) a l = f i).
Proof.
  induction l as [|x l IH]; intros a; cbn; [split; [lia|]; split; [by intros i ?%not_elem_of_nil|by left]|].
  destruct (IH (Z.max a (f x))) as (H1 & H2 & H3). split; [lia|]. split.
  - intros i [->|Hi]%elem_of_cons; [lia|auto].
  - destruct H3 as [H3|(i & Hi & H3)]; [|right; exists i; split; [by right|done]].
    destruct (Z.max_spec a (f x)) as [[_ E]|[_ E]]; rewrite E in *; [right; exists x; split; [left|done]|by left].
Qed.

Lemma max_ok m t : sim m t -> (forall k id, t_ids t !! k = Some id -> id < MaxNodeID m) /\ 0 <= MaxNodeID m <= 2 ^ 64.
Proof.
  intros Hs. unfold MaxNodeID. change mapperShardCount with 256.
  destruct (foldl_max (fun i => endLocked (shards m i)) (seqZ 0 256) 0) as (H0 & H1 & H2). set (e := foldl _ _ _) in *. cbn zeta.
  assert (e <= maxIndex) as He.
  { destruct H2 as [->|(i & Hi & ->)]; [unfold maxIndex; lia|]. apply elem_of_seqZ in Hi. apply (si_end i), (s_shards _ _ Hs). lia. }
  assert (forall k id, t_ids t !! k = Some id -> 0 < e /\ id < 256 * e) as Hk.
  { intros k id Hk. destruct (ids_slot _ _ _ _ Hs Hk) as (j & Hj & -> & _ & Hje). pose proof (home_range k).
    specialize (H1 (mapperShardFor k)). rewrite elem_of_seqZ in H1. specialize (H1 ltac:(lia)). cbn beta in H1.
    rewrite pack_value by (unfold maxIndex in *; lia). lia. }
  destruct (Z.eqb_spec e 0) as [E|E].
  { split; [|lia]. intros k id ?%Hk. lia. }
  unfold maxIndex in *. rewrite pack_value by lia. rewrite u64_small by lia. split; [|lia]. intros k id Hid%Hk. lia.
Qed.

Lemma covers_ok m t id : sim m t -> 0 <= id < 2 ^ 64 -> Covers id (Watermark m) = ((unpackNodeID id).2 <? t_marks t (unpackNodeID id).1).
Proof.
  intros Hs Hid. unfold Covers. destruct (unpackNodeID id) as [i idx] eqn:Hu. destruct (unpack_range _ _ _ Hid Hu) as [Hi _].
  cbn. by rewrite (s_marks _ _ Hs).
Qed.

(** ** Every operation is a step of the table *)

Lemma exec_step m t o : sim m t -> fits o m = true -> exists m' r t', exec o m = Some (m', r) /\ tstep t o r t' /\ sim m' t'.
Proof.
  intros Hs Hf. destruct o as [k|k|id|k id|k id| | |id|i nx|i l|r]; cbn [exec fits] in Hf |- *; unfold is_id, is_shard in Hf.
  - assert (is_Some (t_ids t !! k) \/ t_marks t (mapperShardFor k) < maxIndex) as Hfit.
    { apply orb_true_iff in Hf as [Hf%bool_decide_eq_true|Hf%Z.ltb_lt].
      - left. unfold Lookup in Hf. rewrite shardFor_home in Hf by apply Hs. by rewrite (s_ids _ _ Hs).
      - right. rewrite (s_marks _ _ Hs); [done|apply home_range]. }
    pose proof (intern_ok None m t k tt Hs Hfit) as Hi. unfold InternNew. destruct (t_ids t !! k) as [id|] eqn:E.
    + rewrite Hi. cbn. eexists m, _, t. split; [done|]. split; [by constructor|done].
    + destruct Hi as (s' & -> & Hs' & _). cbn. eexists _, _, _. split; [done|]. split; [by constructor|done].
  - eexists m, _, t. split; [done|]. split; [|done]. unfold Lookup. rewrite shardFor_home by apply Hs.
    rewrite <- (s_ids _ _ Hs). constructor.
  - destruct (resolve_ok m t id Hs) as (o & -> & Ho); [bool_to_prop; lia|]. cbn. eexists m, _, t. split; [done|]. split; [|done].
    destruct o; by constructor.
  - destruct (unplace_sim m t k id Hs) as (m' & -> & Hs'); [bool_to_prop; lia|]. cbn. eexists m', _, _. split; [done|]. split; [|exact Hs'].
    destruct (decide (t_ids t !! k = Some id)); [rewrite bool_decide_true by done|rewrite bool_decide_false by done]; by constructor.
  - destruct (place_sim m t k id Hs) as (m' & r & t' & -> & Ht & Hs'); [bool_to_prop; lia|bool_to_prop; lia|]. cbn. by eexists m', _, t'.
  - eexists m, _, t. split; [done|]. split; [|done]. rewrite (len_ok m t Hs). constructor.
  - eexists m, _, t. split; [done|]. split; [|done]. destruct (max_ok m t Hs). constructor; [done|lia].
  - eexists m, _, t. split; [done|]. split; [|done]. rewrite (covers_ok m t id Hs) by (bool_to_prop; lia). constructor.
  - destruct (restore_sim m t i nx Hs) as (m' & -> & Hs'); [bool_to_prop; lia|unfold is_id in Hf; bool_to_prop; lia|]. cbn. eexists m', _, _. split; [done|]. split; [|exact Hs'].
    constructor.
    + rewrite (s_marks _ _ Hs) by (bool_to_prop; lia). unfold mark. lia.
    + intros k id Hk Hh. destruct (ids_slot _ _ _ _ Hs Hk) as (j & Hj & -> & _ & Hje).
      rewrite unpack_small by (done || apply home_range). by rewrite Hh in Hje.
  - unfold PublishReservation. change mapperShardCount with 256. rewrite Hf. cbn. eexists _, _, t. split; [done|]. split; [constructor|].
    by apply sim_limits.
  - eexists _, _, t. split; [done|]. split; [constructor|]. by apply sim_limits.
Qed.

End table.
