(* ===== verification/MapperWalk.v ===== *)
(** * The node mapper: walks

    [Walk] and [AppendIDs] against the list of the bindings in the order of the shards
    and of the indices within each. *)

From Stdlib Require Import ZArith Lia.
From stdpp Require Import gmap list_numbers sorting.
From S2P Require Import Prelude Csr CsrRows Mapper MapperFacts MapperTable.

Local Open Scope Z_scope.

Section walk.
Context {N : Type} `{Countable N} `{!MapperKey N} {R : Type} `{!IDReserver R}.
Implicit Types (s : mapperShard (N:=N)) (m : Mapper (N:=N) (R:=R)) (k : N) (i idx id lo hi : Z).

(** The bindings of a shard at the indices from [lo] to [hi], excluded. *)
Definition entry s i idx : option (Z * N) := k ← slot s idx; Some (packNodeID i idx, k).
Definition entries s i lo hi : list (Z * N) := omap (entry s i) (seqZ lo (hi - lo)).
Definition ids s i lo hi : list Z := (entries s i lo hi).*1.

Lemma entries_nil s i lo hi : hi <= lo -> entries s i lo hi = [].
Proof. intros Hle. unfold entries. by rewrite seqZ_nil by lia. Qed.

Lemma entries_app s i lo mid hi : lo <= mid <= hi -> entries s i lo hi = entries s i lo mid ++ entries s i mid hi.
Proof.
  intros Hle. unfold entries. rewrite <- omap_app. f_equal.
  replace (hi - lo) with ((mid - lo) + (hi - mid)) by lia. rewrite seqZ_app by lia. do 2 f_equal. lia.
Qed.

Lemma entries_step s i lo hi : lo < hi ->
  entries s i lo hi = match slot s lo with Some k => (packNodeID i lo, k) :: entries s i (lo + 1) hi | None => entries s i (lo + 1) hi end.
Proof.
  intros Hlt. unfold entries. rewrite seqZ_cons by lia. replace (Z.pred (hi - lo)) with (hi - (lo + 1)) by lia.
  cbn. unfold entry at 1. destruct (slot s lo); done.
Qed.

Lemma entries_none s i lo hi : (forall idx, lo <= idx < hi -> slot s idx = None) -> entries s i lo hi = [].
Proof.
  intros Hn. destruct (Z.le_gt_cases hi lo) as [|Hlt]; [by apply entries_nil|].
  remember (Z.to_nat (hi - lo)) as n eqn:En. revert lo Hn Hlt En.
  induction n as [|n IH]; intros lo Hn Hlt En; [lia|]. rewrite entries_step by done. rewrite Hn by lia.
  destruct (decide (lo + 1 < hi)); [|by apply entries_nil; lia]. apply IH; [intros; apply Hn; lia|lia|lia].
Qed.

Lemma entries_end s i lo hi : shard_ok s -> endLocked s <= hi -> entries s i lo hi = entries s i lo (endLocked s).
Proof.
  intros Hok Hle. destruct (decide (lo <= endLocked s)).
  - rewrite (entries_app s i lo (endLocked s) hi) by lia. rewrite (entries_none s i (endLocked s) hi); [by rewrite app_nil_r|].
    intros idx Hx. apply slot_end; [done|lia].
  - rewrite (entries_nil s i lo (endLocked s)) by lia. apply entries_none. intros idx Hx. apply slot_end; [done|lia].
Qed.

Definition shard_entries s i : list (Z * N) := entries s i 0 (endLocked s).
(** Every binding, in the order of the walk. *)
Definition all_entries m : list (Z * N) := seqZ 0 mapperShardCount ≫= fun i => shard_entries (shards m i) i.

(** The reads of a slot below the end of the reverse table, and in the tail. *)
Lemma dense_slot s HX TX idx : rep s HX TX -> 0 <= idx < rlen s ->
  slot s idx = (if isHoleLocked s idx then None else aget (reverse s) idx) /\ (isHoleLocked s idx = true <-> slot s idx = None).
Proof.
  intros Hr Hi. rewrite (slot_view _ _ _ _ Hr) by lia. unfold view, isHoleLocked. rewrite decide_True by lia.
  rewrite (bits_dec _ _ _ (c_holes _ _ _ (r_core _ _ _ Hr))). destruct (aget_is_Some (reverse s) idx) as [k ->]; [unfold rlen in Hi; lia|].
  case_bool_decide; [by rewrite decide_True|by rewrite decide_False].
Qed.

Lemma tail_slot s HX TX rel : rep s HX TX -> 0 <= rel < tailLen s ->
  slot s (tailBase s + rel) = (if tailBitLocked s rel then None else tcell s rel) /\
  isTailHoleLocked s rel = Some (tailBitLocked s rel) /\ (tailBitLocked s rel = true <-> slot s (tailBase s + rel) = None).
Proof.
  intros Hr Hi. pose proof Hr as [Hc Hp Hcell]. pose proof (c_base _ _ _ Hc ltac:(lia)). pose proof (c_len _ _ _ Hc).
  assert (0 <= rlen s) by (unfold rlen; lia).
  rewrite (slot_view _ _ _ _ Hr) by lia. unfold view. rewrite decide_False, decide_True by lia.
  replace (tailBase s + rel - tailBase s) with rel by lia. unfold tailBitLocked at 1 3. rewrite (bits_dec _ _ _ (c_tholes _ _ _ Hc)).
  rewrite (tail_hole s HX TX) by (done || lia). unfold tailBitLocked. rewrite (bits_dec _ _ _ (c_tholes _ _ _ Hc)).
  split; [by case_bool_decide; [rewrite decide_True|rewrite decide_False]|]. split; [done|].
  case_bool_decide; [by rewrite decide_True|rewrite decide_False by done]. destruct (Hcell rel) as [k Hk]; [lia|done|lia|]. by rewrite Hk.
Qed.

(** Past the reverse table and before the tail nothing is bound. *)
Lemma gap_slot s HX TX idx : rep s HX TX -> rlen s <= idx < tailBase s -> slot s idx = None.
Proof.
  intros Hr Hi. assert (0 <= rlen s) by (unfold rlen; lia). rewrite (slot_view _ _ _ _ Hr) by lia. unfold view.
  by rewrite !decide_False by lia.
Qed.

(** ** [Walk] *)

Section visit.
Context {St : Type} (fn : Z -> N -> St -> St * bool).

(** The bindings visited in order, up to the first that stops the walk. *)
Fixpoint scan (es : list (Z * N)) (st : St) : St * bool :=
  match es with
  | [] => (st, true)
  | e :: es => let '(st, go) := fn e.1 e.2 st in if (go : bool) then scan es st else (st, false)
  end.

Lemma scan_app es1 es2 st : scan (es1 ++ es2) st = let '(st, go) := scan es1 st in if (go : bool) then scan es2 st else (st, false).
Proof. revert st. induction es1 as [|e es1 IH]; intros st; cbn; [done|]. destruct (fn e.1 e.2 st) as [st' []]; [apply IH|done]. Qed.

(** A run of slots visited is the scan of their bindings. *)
Lemma visit_entries s i skip id_of off lo xs : forall st,
  (forall j x, xs !! j = Some x -> skip (lo + Z.of_nat j) = false -> slot s (off + lo + Z.of_nat j) = Some x) ->
  (forall j, (j < length xs)%nat -> skip (lo + Z.of_nat j) = true -> slot s (off + lo + Z.of_nat j) = None) ->
  (forall j, id_of j = packNodeID i (off + j)) ->
  visit_slots fn skip id_of lo xs st = scan (entries s i (off + lo) (off + lo + Z.of_nat (length xs))) st.
Proof.
  revert lo. induction xs as [|x xs IH]; intros lo st H1 H2 Hid; cbn [visit_slots length].
  { by rewrite entries_nil by lia. }
  rewrite entries_step by lia.
  assert (forall st, visit_slots fn skip id_of (lo + 1) xs st = scan (entries s i (off + lo + 1) (off + lo + Z.of_nat (S (length xs)))) st) as Hrest.
  { intros st'. rewrite IH; [f_equal; f_equal; lia| | |done].
    - intros j y Hy Hs. specialize (H1 (S j) y Hy). replace (lo + 1 + Z.of_nat j) with (lo + Z.of_nat (S j)) in * by lia.
      replace (off + (lo + 1) + Z.of_nat j) with (off + lo + Z.of_nat (S j)) by lia. auto.
    - intros j Hj Hs. specialize (H2 (S j)). replace (lo + 1 + Z.of_nat j) with (lo + Z.of_nat (S j)) in * by lia.
      replace (off + (lo + 1) + Z.of_nat j) with (off + lo + Z.of_nat (S j)) by lia. apply H2; [cbn; lia|done]. }
  specialize (H1 0%nat x eq_refl). specialize (H2 0%nat ltac:(cbn; lia)). rewrite !Z.add_0_r in *.
  destruct (skip lo) eqn:Es.
  - rewrite (H2 eq_refl). apply Hrest.
  - rewrite (H1 eq_refl). cbn [scan fst snd]. rewrite Hid. destruct (fn _ x st) as [st' []]; [apply Hrest|done].
Qed.

Lemma walk_dense s HX TX i st : rep s HX TX ->
  visit_slots fn (isHoleLocked s) (packNodeID i) 0 (reverse s) st = scan (entries s i 0 (rlen s)) st.
Proof.
  intros Hr. rewrite (visit_entries s i _ _ 0 0); [done| | |intros j; by rewrite Z.add_0_l].
  - intros j x Hx Hs. rewrite !Z.add_0_l in *. pose proof (lookup_lt_Some _ _ _ Hx). destruct (dense_slot s HX TX (Z.of_nat j) Hr) as [E _]; [unfold rlen; lia|].
    rewrite Hs in E. rewrite E. by rewrite aget_nat.
  - intros j Hj Hs. rewrite !Z.add_0_l in *. apply (dense_slot s HX TX (Z.of_nat j) Hr); [unfold rlen; lia|done].
Qed.

(** The tail from a page on. *)
Lemma walk_tail s HX TX i pages : forall p st, rep s HX TX -> 0 <= p -> pages = drop (Z.to_nat p) (tail s) ->
  walkTailLocked fn s i p pages st = scan (entries s i (tailBase s + 64 * p) (tailBase s + tailLen s)) st.
Proof.
  induction pages as [|pg pages IH]; intros p st Hr H0 Hpg; pose proof (r_pages _ _ _ Hr) as Hlen; pose proof (c_len _ _ _ (r_core _ _ _ Hr)) as Hl.
  { cbn. rewrite entries_nil; [done|]. assert (length (tail s) <= Z.to_nat p)%nat by (apply (f_equal length) in Hpg; rewrite length_drop in Hpg; cbn in Hpg; lia).
    pose proof (Z.div_mod (tailLen s + 63) 64). pose proof (Z.mod_pos_bound (tailLen s + 63) 64). lia. }
  assert (aget (tail s) p = Some pg) as Hget.
  { apply aget_Some. split; [done|]. pose proof (lookup_drop (tail s) (Z.to_nat p) 0) as E. rewrite <- Hpg, Nat.add_0_r in E. by rewrite <- E. }
  assert (pages = drop (Z.to_nat (p + 1)) (tail s)) as Hpg'.
  { replace (Z.to_nat (p + 1)) with (Z.to_nat p + 1)%nat by lia. rewrite <- drop_drop, <- Hpg. done. }
  pose proof (aget_range _ _ _ Hget) as Hrg.
  assert (64 * p < tailLen s) as Hin.
  { pose proof (Z.div_mod (tailLen s + 63) 64). pose proof (Z.mod_pos_bound (tailLen s + 63) 64). lia. }
  set (hi := Z.min (64 * p + 64) (tailLen s)).
  assert (forall rel, 64 * p <= rel < hi -> rel / 64 = p) as Hdiv by (intros rel Hrel; symmetry; apply (Z.div_unique rel 64 p (rel - 64 * p)); lia).
  assert (forall st, walkTailLocked fn s i (p + 1) pages st = scan (entries s i (tailBase s + hi) (tailBase s + tailLen s)) st) as Hrest.
  { intros st'. rewrite IH by (done || lia). destruct (Z.le_gt_cases (64 * p + 64) (tailLen s)).
    - do 2 f_equal. unfold hi. lia.
    - by rewrite !entries_nil by lia. }
  rewrite (entries_app s i _ (tailBase s + hi)) by lia. rewrite scan_app. cbn [walkTailLocked]. destruct pg as [vals|].
  - rewrite page_start. change mapperPageSize with 64. fold hi. pose proof (c_full _ _ _ (r_core _ _ _ Hr) _ _ Hget) as Hfull.
    assert (Z.of_nat (length (take (Z.to_nat (hi - 64 * p)) vals)) = hi - 64 * p) as Htl by (rewrite length_take; lia).
    rewrite (visit_entries s i _ _ (tailBase s) (64 * p)); [|intros j x Hx Hs|intros j Hj Hs|done].
    + rewrite Htl. replace (tailBase s + 64 * p + (hi - 64 * p)) with (tailBase s + hi) by lia. destruct (scan _ st) as [st' []]; [apply Hrest|done].
    + pose proof (lookup_lt_Some _ _ _ Hx). rewrite lookup_take_lt in Hx by lia. rewrite <- Z.add_assoc.
      destruct (tail_slot s HX TX (64 * p + Z.of_nat j) Hr) as [-> _]; [lia|]. rewrite Hs. unfold tcell. rewrite Hdiv by lia. rewrite Hget. cbn.
      apply aget_Some. rewrite <- Hx. rewrite (Z.mul_comm 64 p), (Z.add_comm (p * 64)), Z.mod_add, Z.mod_small by lia. split; [lia|f_equal; lia].
    + rewrite <- Z.add_assoc. apply (tail_slot s HX TX (64 * p + Z.of_nat j) Hr); [lia|done].
  - rewrite (entries_none s i _ (tailBase s + hi)); [apply Hrest|]. intros idx Hx.
    destruct (tail_slot s HX TX (idx - tailBase s) Hr) as [E _]; [lia|]. replace (tailBase s + (idx - tailBase s)) with idx in E by lia. rewrite E.
    case_match; [done|]. unfold tcell. rewrite Hdiv by lia. by rewrite Hget.
Qed.

Lemma walk_shard_ok s i st : shard_ok s -> walk_shard fn s i st = scan (shard_entries s i) st.
Proof.
  intros (HX & TX & Hr). unfold walk_shard, shard_entries. rewrite (walk_dense s HX TX) by done.
  pose proof (c_len _ _ _ (r_core _ _ _ Hr)) as Hl. pose proof (c_base _ _ _ (r_core _ _ _ Hr)) as Hb. assert (0 <= rlen s) by (unfold rlen; lia).
  unfold endLocked. destruct (Z.eqb_spec (tailLen s) 0) as [E|E]; cbn [negb].
  - by destruct (scan _ st) as [st' []].
  - specialize (Hb E). rewrite (entries_app s i 0 (rlen s) (tailBase s + tailLen s)), scan_app by lia. destruct (scan (entries s i 0 (rlen s)) st) as [st' []]; [|done].
    cbn [negb]. rewrite (walk_tail s HX TX i (tail s) 0) by (done || lia). rewrite Z.mul_0_r, Z.add_0_r.
    rewrite (entries_app s i (rlen s) (tailBase s) (tailBase s + tailLen s)) by lia. rewrite (entries_none s i (rlen s) (tailBase s)); [done|].
    intros idx Hx. by eapply gap_slot.
Qed.

Lemma walk_shards_ok m l : forall st, (forall i, i ∈ l -> shard_ok (shards m i)) ->
  walk_shards fn m l st = (scan (l ≫= fun i => shard_entries (shards m i) i) st).1.
Proof.
  induction l as [|i l IH]; intros st Hok; cbn [walk_shards]; [done|]. rewrite walk_shard_ok by (apply Hok; left).
  change ((i :: l) ≫= fun i => shard_entries (shards m i) i) with (shard_entries (shards m i) i ++ (l ≫= fun i => shard_entries (shards m i) i)).
  rewrite scan_app. destruct (scan _ st) as [st' []]; [|done]. apply IH. intros j Hj. apply Hok. by right.
Qed.
End visit.

(** ** [AppendIDs] *)

Lemma ids_app s i lo mid hi : lo <= mid <= hi -> ids s i lo hi = ids s i lo mid ++ ids s i mid hi.
Proof. intros Hle. unfold ids. by rewrite (entries_app s i lo mid hi), fmap_app. Qed.

Lemma ids_nil s i lo hi : hi <= lo -> ids s i lo hi = [].
Proof. intros Hle. unfold ids. by rewrite entries_nil. Qed.

Lemma ids_none s i lo hi : (forall idx, lo <= idx < hi -> slot s idx = None) -> ids s i lo hi = [].
Proof. intros Hn. unfold ids. by rewrite entries_none. Qed.

Lemma ids_cons s i lo hi : lo < hi ->
  ids s i lo hi = match slot s lo with Some _ => packNodeID i lo :: ids s i (lo + 1) hi | None => ids s i (lo + 1) hi end.
Proof. intros Hlt. unfold ids. rewrite entries_step by done. by destruct (slot s lo). Qed.

(** The result of a loop that appended the ids of the slots from [lo] to [e]. *)
Definition appended s i lo e (limit : Z) (dst : list Z) : list Z * Z * Z :=
  (dst ++ ids s i lo e, e, limit - Z.of_nat (length (ids s i lo e))).

Lemma appended_skip s i lo e limit dst : lo < e -> slot s lo = None -> appended s i (lo + 1) e limit dst = appended s i lo e limit dst.
Proof. intros Hlt Hn. unfold appended. rewrite (ids_cons s i lo e) by done. by rewrite Hn. Qed.

Lemma appended_take s i lo e limit dst k : lo < e -> slot s lo = Some k ->
  appended s i (lo + 1) e (limit - 1) (dst ++ [packNodeID i lo]) = appended s i lo e limit dst.
Proof.
  intros Hlt Hn. unfold appended. rewrite (ids_cons s i lo e) by done. rewrite Hn, <- app_assoc. cbn [app length]. f_equal. lia.
Qed.

Lemma appended_here s i lo limit dst : appended s i lo lo limit dst = (dst, lo, limit).
Proof. unfold appended. rewrite ids_nil by lia. cbn. by rewrite app_nil_r, Z.sub_0_r. Qed.

Lemma appended_left s i lo e limit dst : 
  (appended s i lo e limit dst).2 = limit - Z.of_nat (length (ids s i lo e)).
Proof. done. Qed.

(** How far a loop from [lo] to [n] with a limit goes. *)
Definition stops s i lo n e (limit : Z) : Prop :=
  lo <= e <= Z.max lo n /\ 0 <= limit - Z.of_nat (length (ids s i lo e)) /\ (n <= e \/ limit - Z.of_nat (length (ids s i lo e)) = 0).

Lemma stops_here s i lo n limit : 0 <= limit -> ((lo <? n) && (0 <? limit)) = false -> stops s i lo n lo limit.
Proof.
  intros Hl Hf. unfold stops. rewrite ids_nil by lia. cbn [length]. apply andb_false_iff in Hf as [Hf%Z.ltb_ge|Hf%Z.ltb_ge]; lia.
Qed.

Lemma stops_skip s i lo n e limit : lo < n -> slot s lo = None -> stops s i (lo + 1) n e limit -> stops s i lo n e limit.
Proof. intros Hlt Hn (H1 & H2 & H3). unfold stops. rewrite (ids_cons s i lo e) by lia. rewrite Hn. lia. Qed.

Lemma stops_take s i lo n e limit k : lo < n -> slot s lo = Some k -> stops s i (lo + 1) n e (limit - 1) -> stops s i lo n e limit.
Proof. intros Hlt Hn (H1 & H2 & H3). unfold stops. rewrite (ids_cons s i lo e) by lia. rewrite Hn. cbn [length]. lia. Qed.

Lemma append_dense_ok fuel : forall s HX TX i lo limit dst, rep s HX TX -> 0 <= lo -> 0 <= limit -> (Z.to_nat (rlen s - lo) < fuel)%nat ->
  exists e, append_dense fuel s i (rlen s) lo limit dst = Some (appended s i lo e limit dst) /\ stops s i lo (rlen s) e limit.
Proof.
  induction fuel as [|fuel IH]; intros s HX TX i lo limit dst Hr H0 Hl Hf; [lia|]. cbn [append_dense].
  destruct (_ && _) eqn:Eb; [|exists lo; rewrite appended_here; split; [done|by apply stops_here]]. bool_to_prop.
  destruct (dense_slot s HX TX lo Hr) as [E Hh]; [lia|]. destruct (isHoleLocked s lo) eqn:Ehole.
  - destruct (IH s HX TX i (lo + 1) limit dst) as (e & -> & Hst); [done|lia..|]. exists e.
    rewrite appended_skip by (destruct Hst; lia || done). split; [done|]. by apply stops_skip.
  - destruct (aget_is_Some (reverse s) lo) as [k Hk]; [unfold rlen in *; lia|]. rewrite Hk in E.
    destruct (IH s HX TX i (lo + 1) (limit - 1) (dst ++ [packNodeID i lo])) as (e & -> & Hst); [done|lia..|]. exists e.
    rewrite (appended_take _ _ _ _ _ _ k) by (destruct Hst; lia || done). split; [done|]. by apply (stops_take _ _ _ _ _ _ k).
Qed.

Lemma appended_jump s i lo mid e limit dst : lo <= mid <= e -> (forall idx, lo <= idx < mid -> slot s idx = None) ->
  appended s i mid e limit dst = appended s i lo e limit dst.
Proof. intros Hle Hn. unfold appended. rewrite (ids_app s i lo mid e) by done. by rewrite (ids_none s i lo mid). Qed.

Lemma stops_jump s i lo mid n e limit : lo <= mid <= n -> (forall idx, lo <= idx < mid -> slot s idx = None) ->
  stops s i mid n e limit -> stops s i lo n e limit.
Proof.
  intros Hle Hn (H1 & H2 & H3). unfold stops. rewrite (ids_app s i lo mid e) by lia. rewrite (ids_none s i lo mid) by done. cbn [length app]. lia.
Qed.

Lemma page_last rel : 0 <= rel -> Z.lor rel mapperPageMask + 1 = 64 * (rel / 64 + 1).
Proof.
  intros Hr. change mapperPageMask with 63. pose proof (Z.div_mod rel 64 ltac:(lia)) as E. pose proof (Z.mod_pos_bound rel 64 ltac:(lia)) as Hm.
  assert (Z.lor rel 63 = 63 + rel / 64 * 2 ^ 6) as ->; [|change (2 ^ 6) with 64; lia].
  rewrite <- lor_shiftl by (try (change (2 ^ 6) with 64); try apply Z.div_pos; lia).
  apply Z.bits_inj'. intros b Hb. rewrite !Z.lor_spec. change 63 with (Z.ones 6). destruct (Z.lt_ge_cases b 6).
  - by rewrite (Z.ones_spec_low 6 b), orb_true_r by lia.
  - rewrite (Z.ones_spec_high 6 b), orb_false_r by lia. cbn [orb]. rewrite Z.shiftl_spec by done.
    change (rel / 64) with (rel / 2 ^ 6). rewrite Z.div_pow2_bits by lia. f_equal. lia.
Qed.

Lemma append_tail_ok fuel : forall s HX TX i lo limit dst, rep s HX TX -> endLocked s <= maxIndex -> tailLen s <> 0 -> tailBase s <= lo -> 0 <= limit ->
  (Z.to_nat (tailBase s + tailLen s - lo) < fuel)%nat ->
  exists e, append_tail fuel s i (tailBase s + tailLen s) lo limit dst = Some (appended s i lo e limit dst) /\
    stops s i lo (tailBase s + tailLen s) e limit.
Proof.
  induction fuel as [|fuel IH]; intros s HX TX i lo limit dst Hr He Ht H0 Hl Hf; [lia|]. cbn [append_tail].
  destruct (_ && _) eqn:Eb; [|exists lo; rewrite appended_here; split; [done|by apply stops_here]]. bool_to_prop.
  pose proof (c_len _ _ _ (r_core _ _ _ Hr)) as Hlen. unfold endLocked in He. destruct (Z.eqb_spec (tailLen s) 0); [done|]. cbn [negb] in He.
  unfold maxIndex in He. rewrite u64_small by lia. set (rel := lo - tailBase s). cbn zeta. rewrite page_of.
  assert (0 <= rel < tailLen s) as Hrel by (unfold rel; lia). assert (lo = tailBase s + rel) as Elo by (unfold rel; lia).
  destruct (page_Some s rel Hrel) as [pg Hpg]; [rewrite (r_pages _ _ _ Hr); lia|]. rewrite Hpg. cbn [mbind option_bind].
  destruct (tail_slot s HX TX rel Hr Hrel) as (Es & Ehole & Hh). destruct pg as [vals|].
  - rewrite Ehole. cbn [mbind option_bind]. destruct (tailBitLocked s rel) eqn:Ebit.
    + destruct (IH s HX TX i (lo + 1) limit dst) as (e & -> & Hst); [done|unfold endLocked, maxIndex; destruct (Z.eqb_spec (tailLen s) 0); [done|cbn; lia]|lia..|].
      exists e. rewrite appended_skip by (destruct Hst; lia || (rewrite Elo; by rewrite Es)). split; [done|]. apply stops_skip; [lia|by rewrite Elo|done].
    + destruct (r_cells _ _ _ Hr rel Hrel) as [k Hk]; [|lia|].
      { intros Hin. apply (c_tholes _ _ _ (r_core _ _ _ Hr)) in Hin. unfold tailBitLocked in Ebit. congruence. }
      rewrite Hk in Es. rewrite <- Elo in Es.
      destruct (IH s HX TX i (lo + 1) (limit - 1) (dst ++ [packNodeID i lo])) as (e & -> & Hst); [done|unfold endLocked, maxIndex; destruct (Z.eqb_spec (tailLen s) 0); [done|cbn; lia]|lia..|].
      exists e. rewrite (appended_take _ _ _ _ _ _ k) by (destruct Hst; lia || done). split; [done|]. by apply (stops_take _ _ _ _ _ _ k).
  - replace (tailBase s + Z.lor rel mapperPageMask + 1) with (tailBase s + (Z.lor rel mapperPageMask + 1)) by lia. rewrite page_last by lia.
    pose proof (page_bounds rel) as Hpb. set (mid := Z.min _ _).
    assert (lo < mid <= tailBase s + tailLen s) as Hmid by (unfold mid; lia).
    assert (forall idx, lo <= idx < mid -> slot s idx = None) as Hnone.
    { intros idx Hx. destruct (tail_slot s HX TX (idx - tailBase s) Hr) as [E _]; [lia|].
      replace (tailBase s + (idx - tailBase s)) with idx in E by lia. rewrite E. case_match; [done|]. unfold tcell.
      assert ((idx - tailBase s) / 64 = rel / 64) as ->; [|by rewrite Hpg].
      symmetry. apply (Z.div_unique _ 64 _ (idx - tailBase s - 64 * (rel / 64))); [|lia]. unfold mid in Hx. lia. }
    destruct (IH s HX TX i mid limit dst) as (e & -> & Hst); [done|unfold endLocked, maxIndex; destruct (Z.eqb_spec (tailLen s) 0); [done|cbn; lia]|lia..|].
    exists e. rewrite (appended_jump s i lo mid e) by (try done; destruct Hst; lia). split; [done|]. eapply stops_jump; [|done..]. lia.
Qed.

(** The ids left in the reverse table do not exhaust the limit, or the shard has no tail:
    otherwise the source goes on to the tail with ids left behind. *)
Definition tail_safe s i lo (limit : Z) : Prop := tailLen s = 0 \/ rlen s <= lo \/ Z.of_nat (length (ids s i lo (rlen s))) < limit.

Lemma append_shard_ok s i lo limit dst : shard_inv i s -> 0 <= lo -> 0 < limit -> tail_safe s i lo limit ->
  exists e cur', append_shard s (mkCursor i lo) limit dst = Some (dst ++ ids s i lo e, cur', limit - Z.of_nat (length (ids s i lo e))) /\
    lo <= e /\ 0 <= limit - Z.of_nat (length (ids s i lo e)) /\
    (cur' = mkCursor (i + 1) 0 /\ endLocked s <= e \/ cur' = mkCursor i e /\ limit - Z.of_nat (length (ids s i lo e)) = 0).
Proof.
  intros Hs H0 Hl Hsafe. pose proof (si_ok _ _ Hs) as (HX & TX & Hr). pose proof (c_len _ _ _ (r_core _ _ _ Hr)) as Hlen.
  unfold append_shard. cbn [c_shard c_intra].
  destruct (append_dense_ok (S (Z.to_nat (rlen s - lo))) s HX TX i lo limit dst Hr H0) as (e & -> & He1 & He2 & He3); [lia..|].
  cbn [mbind option_bind appended]. destruct (Z.eqb_spec (tailLen s) 0) as [Et|Et]; cbn [negb].
  - cbn [mbind option_bind]. assert (endLocked s = rlen s) as Ee by (unfold endLocked; by rewrite Et).
    destruct (Z.leb_spec (rlen s) e); eexists e, _; (split; [done|]); (split; [lia|]); (split; [lia|]); [left; split; [done|lia]|right; split; [done|lia]].
  - pose proof (c_base _ _ _ (r_core _ _ _ Hr) Et) as Hb. assert (endLocked s = tailBase s + tailLen s) as Ee by (unfold endLocked; by destruct (Z.eqb_spec (tailLen s) 0)).
    assert (rlen s <= e) as Hre.
    { destruct Hsafe as [|[|Hlt]]; [done|lia|]. destruct He3 as [|He3]; [done|]. destruct (Z.le_gt_cases (rlen s) e); [done|].
      rewrite (ids_app s i lo e (rlen s)), length_app in Hlt by lia. lia. }
    set (mid := Z.max e (tailBase s)).
    assert (forall idx, e <= idx < mid -> slot s idx = None) as Hnone by (intros idx Hx; eapply gap_slot; [done|unfold mid in Hx; lia]).
    set (limit' := limit - Z.of_nat (length (ids s i lo e))) in *.
    destruct (append_tail_ok (S (Z.to_nat (tailBase s + tailLen s - mid))) s HX TX i mid limit' (dst ++ ids s i lo e) Hr (si_end _ _ Hs) Et)
      as (e2 & -> & Hst); [unfold mid; lia|lia|lia|]. cbn [mbind option_bind appended].
    assert (ids s i lo e2 = ids s i lo e ++ ids s i mid e2) as Eids.
    { destruct Hst as [Hst _]. rewrite (ids_app s i lo e e2), (ids_app s i e mid e2) by (unfold mid in *; lia). by rewrite (ids_none s i e mid). }
    destruct Hst as (Hs1 & Hs2 & Hs3).
    assert (limit' - Z.of_nat (length (ids s i mid e2)) = limit - Z.of_nat (length (ids s i lo e2))) as El.
    { rewrite Eids, length_app. unfold limit'. lia. }
    rewrite El, <- app_assoc, <- Eids in *.
    destruct (Z.leb_spec (tailBase s + tailLen s) e2); eexists e2, _; (split; [done|]); (split; [unfold mid in *; lia|]); (split; [lia|]);
      [left; split; [done|lia]|right; split; [done|lia]].
Qed.

(** *** Batches *)

Definition all_inv m : Prop := forall i, 0 <= i < 256 -> shard_inv i (shards m i).
Definition no_tails m : Prop := forall i, 0 <= i < 256 -> tailLen (shards m i) = 0.

Definition shard_ids m i : list Z := ids (shards m i) i 0 (endLocked (shards m i)).
(** The ids from a cursor on, in the order of the walk. *)
Definition from m (c : MapperCursor) : list Z :=
  if Done c then [] else
    ids (shards m (c_shard c)) (c_shard c) (c_intra c) (endLocked (shards m (c_shard c))) ++
    (seqZ (c_shard c + 1) (255 - c_shard c) ≫= shard_ids m).

Definition cursor_ok (c : MapperCursor) : Prop := 0 <= c_shard c /\ 0 <= c_intra c.

Lemma from_done m c : Done c = true -> from m c = [].
Proof. intros E. unfold from. by rewrite E. Qed.

Lemma from_shard m i lo : 0 <= i < 256 ->
  from m (mkCursor i lo) = ids (shards m i) i lo (endLocked (shards m i)) ++ from m (mkCursor (i + 1) 0).
Proof.
  intros Hi. unfold from, Done. cbn [c_shard c_intra]. change mapperShardCount with 256. destruct (Z.leb_spec 256 i); [lia|].
  f_equal. destruct (Z.leb_spec 256 (i + 1)).
  - by rewrite seqZ_nil by lia.
  - rewrite seqZ_cons by lia. cbn [mbind list_bind]. unfold shard_ids at 1. f_equal. f_equal. f_equal; lia.
Qed.

Lemma ids_end s i lo e : shard_ok s -> endLocked s <= e -> ids s i lo e = ids s i lo (endLocked s).
Proof. intros Hok He. unfold ids. by rewrite (entries_end s i lo e). Qed.

(** What is safe for a call: no shard has a tail, or the limit is not reached. *)
Definition call_safe m c (limit : Z) : Prop := no_tails m \/ Z.of_nat (length (from m c)) < limit.

Lemma call_tail_safe m i lo limit : all_inv m -> 0 <= i < 256 -> 0 <= lo -> call_safe m (mkCursor i lo) limit -> tail_safe (shards m i) i lo limit.
Proof.
  intros Hinv Hi H0 [Hn|Hlt]; [left; by apply Hn|]. destruct (Z.le_gt_cases (rlen (shards m i)) lo); [by right; left|]. right. right.
  rewrite from_shard, length_app in Hlt by done.
  assert (rlen (shards m i) <= endLocked (shards m i)) as Hre.
  { destruct (si_ok _ _ (Hinv i Hi)) as (HX & TX & Hr). pose proof (c_len _ _ _ (r_core _ _ _ Hr)). pose proof (c_base _ _ _ (r_core _ _ _ Hr)).
    unfold endLocked. destruct (Z.eqb_spec (tailLen (shards m i)) 0); cbn; lia. }
  rewrite (ids_app _ i lo (rlen (shards m i))), length_app in Hlt by lia. lia.
Qed.

Lemma append_loop_ok fuel : forall m c limit dst, all_inv m -> cursor_ok c -> 0 <= limit -> call_safe m c limit ->
  (Z.to_nat (256 - c_shard c) + 1 < fuel)%nat ->
  exists l c', append_loop fuel m dst c limit = Some (dst ++ l, c') /\ from m c = l ++ from m c' /\ cursor_ok c' /\
    Z.of_nat (length l) <= limit /\ (Done c' = true \/ Z.of_nat (length l) = limit).
Proof.
  induction fuel as [|fuel IH]; intros m [i lo] limit dst Hinv [H0 H1] Hl Hsafe Hf; [lia|]. cbn [append_loop c_shard c_intra] in *.
  change mapperShardCount with 256. destruct (_ && _) eqn:Eb.
  2:{ exists [], (mkCursor i lo). rewrite app_nil_r. split; [done|]. split; [done|]. split; [done|]. split; [done|].
    unfold Done. cbn [c_shard length]. change mapperShardCount with 256. apply andb_false_iff in Eb as [Eb%Z.ltb_ge|Eb%Z.ltb_ge]; [right; lia|left; by apply Z.leb_le]. }
  bool_to_prop. assert (0 <= i < 256) as Hi by lia.
  destruct (append_shard_ok (shards m i) i lo limit dst (Hinv i Hi) H1) as (e & c1 & -> & He & Hleft & Hc1); [done|by apply call_tail_safe|].
  cbn [mbind option_bind]. set (l1 := ids (shards m i) i lo e) in *.
  assert (from m (mkCursor i lo) = l1 ++ from m c1 /\ cursor_ok c1) as [Efrom Hok1].
  { rewrite from_shard by done. destruct Hc1 as [[-> Hend]|[-> _]].
    - unfold l1. rewrite (ids_end _ i lo e) by (done || apply (si_ok _ _ (Hinv i Hi))). split; [done|]. split; cbn; lia.
    - rewrite (from_shard m i e) by done. rewrite app_assoc. split; [|split; cbn; lia]. f_equal. unfold l1.
      destruct (Z.le_gt_cases e (endLocked (shards m i))) as [Hle|Hgt]; [by apply ids_app|].
      rewrite (ids_nil _ i e) by lia. rewrite app_nil_r. symmetry. apply ids_end; [apply (si_ok _ _ (Hinv i Hi))|lia]. }
  destruct (decide (limit - Z.of_nat (length l1) = 0)) as [Ez|Enz].
  - exists l1, c1. rewrite Ez. split; [destruct fuel; [lia|done]|]. split; [done|]. split; [done|]. split; lia.
  - destruct Hc1 as [[-> Hend]|[_ ?]]; [|done].
    destruct (IH m (mkCursor (i + 1) 0) (limit - Z.of_nat (length l1)) (dst ++ l1)) as (l2 & c' & -> & E2 & Hok' & Hlen2 & Hd2);
      [done|done|done| |cbn [c_shard]; lia|].
    { destruct Hsafe as [|Hlt]; [by left|right]. rewrite Efrom, length_app in Hlt. lia. }
    exists (l1 ++ l2), c'. rewrite <- !app_assoc, <- E2, length_app. split; [done|]. split; [done|]. split; [done|]. split; [lia|].
    destruct Hd2; [by left|right; lia].
Qed.

Lemma append_ids_ok m c limit dst : all_inv m -> cursor_ok c -> 0 < limit -> call_safe m c limit ->
  exists c', AppendIDs dst c limit m = Some (dst ++ take (Z.to_nat limit) (from m c), c') /\ cursor_ok c' /\
    from m c' = drop (Z.to_nat limit) (from m c) /\ (Done c' = true \/ Z.of_nat (length (take (Z.to_nat limit) (from m c))) = limit).
Proof.
  intros Hinv Hc Hl Hsafe. unfold AppendIDs.
  destruct (append_loop_ok (S (S (Z.to_nat (mapperShardCount - c_shard c)))) m c limit dst Hinv Hc) as (l & c' & E & Efrom & Hok & Hlen & Hd);
    [lia|done|change mapperShardCount with 256; lia|]. exists c'. rewrite E.
  assert (take (Z.to_nat limit) (from m c) = l /\ drop (Z.to_nat limit) (from m c) = from m c') as [-> ->].
  { rewrite Efrom. destruct Hd as [Hd|Hd].
    - rewrite (from_done m c' Hd), app_nil_r. split; [apply take_ge; lia|apply drop_ge; lia].
    - split; [rewrite take_app_length' by lia; done|rewrite drop_app_length' by lia; done]. }
  done.
Qed.

(** Calls until the cursor is done. *)
Fixpoint drain (fuel : nat) m (limit : Z) (c : MapperCursor) (dst : list Z) : option (list Z) :=
  match fuel with
  | O => None
  | S fuel => if Done c then Some dst else '(dst, c) ← AppendIDs dst c limit m; drain fuel m limit c dst
  end.

Lemma drain_ok fuel : forall m limit c dst, all_inv m -> no_tails m -> 0 < limit -> cursor_ok c -> (S (length (from m c)) < fuel)%nat ->
  drain fuel m limit c dst = Some (dst ++ from m c).
Proof.
  induction fuel as [|fuel IH]; intros m limit c dst Hinv Hn Hl Hc Hf; [lia|]. cbn [drain]. destruct (Done c) eqn:Ed.
  { by rewrite (from_done m c Ed), app_nil_r. }
  destruct (append_ids_ok m c limit dst Hinv Hc Hl (or_introl Hn)) as (c' & -> & Hc' & Efrom & Hd). cbn [mbind option_bind].
  destruct Hd as [Hd|Hd].
  - destruct fuel as [|fuel]; [lia|]. cbn [drain]. rewrite Hd. f_equal. f_equal. apply take_ge.
    rewrite (from_done m c' Hd) in Efrom. apply (f_equal length) in Efrom. rewrite length_drop in Efrom. cbn in Efrom. lia.
  - rewrite length_take in Hd. rewrite IH; [|done..|].
    + rewrite Efrom, <- app_assoc. by rewrite take_drop.
    + rewrite Efrom, length_drop. lia.
Qed.

Lemma from_start m : from m (mkCursor 0 0) = (all_entries m).*1.
Proof.
  assert (forall l, (l ≫= fun i => shard_entries (shards m i) i).*1 = l ≫= shard_ids m) as Hl.
  { induction l as [|i l IH]; [done|]. cbn [mbind list_bind]. rewrite fmap_app. f_equal. exact IH. }
  unfold all_entries. rewrite Hl. unfold from. cbn [Done c_shard c_intra]. change (mapperShardCount <=? 0) with false. cbn iota.
  change (seqZ 0 mapperShardCount) with (0 :: seqZ 1 255). done.
Qed.
End walk.

(** * The node mapper: restoring a snapshot

    [LoadFrom] accepts exactly the well-formed entries and rebuilds the mapper they describe. *)

Local Open Scope Z_scope.

Section load.
Context {N : Type} `{Countable N} `{!MapperKey N} `{!MapperKeyLaws N} {R : Type} `{!IDReserver R}.
Implicit Types (s : mapperShard (N:=N)) (m : Mapper (N:=N) (R:=R)) (k : N) (i idx id : Z) (e : MapperEntry (N:=N)) (b : list (Z * N)).

Definition e_shard e : Z := (unpackNodeID (ID e)).1.
Definition e_index e : Z := (unpackNodeID (ID e)).2.
Definition e_slot e : Z * N := (e_index e, Key e).

Lemma entry_id_split e : is_id (ID e) = true -> ID e = packNodeID (e_shard e) (e_index e) /\ 0 <= e_shard e < 256 /\ 0 <= e_index e < 2 ^ 56.
Proof.
  unfold is_id. intros Hid. bool_to_prop. unfold e_shard, e_index. destruct (unpackNodeID (ID e)) as [i x] eqn:U. cbn [fst snd].
  split; [apply pack_unpack; [lia|done]|apply (unpack_range (ID e)); [lia|done]].
Qed.

(** ** The grouping by shard *)

Definition bucket (es : list MapperEntry) (i : Z) : list (Z * N) := e_slot <$> filter (fun e => e_shard e = i) es.

Definition entry_error (marks : option (Z -> Z)) e : option load_error :=
  if negb (e_shard e =? mapperShardFor (Key e)) then Some (ErrShard (addressDependent (Key e)))
  else if (match marks with Some nx => nx (e_shard e) <=? e_index e | None => false end) then Some ErrAboveMark else None.

Lemma bucket_entries_ok marks es : forall buckets,
  match bucket_entries marks es buckets with
  | inl err => exists e, e ∈ es /\ entry_error marks e = Some err
  | inr bs => (forall i, bs i = buckets i ++ bucket es i) /\ forall e, e ∈ es -> entry_error marks e = None
  end.
Proof.
  induction es as [|e es IH]; intros buckets; cbn [bucket_entries].
  { split; [intros i; by rewrite app_nil_r|by intros e ?%not_elem_of_nil]. }
  assert (unpackNodeID (ID e) = (e_shard e, e_index e)) as -> by (unfold e_shard, e_index; by destruct (unpackNodeID (ID e))).
  pose proof (eq_refl (entry_error marks e)) as Ee. unfold entry_error at 1 in Ee.
  destruct (negb _) eqn:E1; [exists e; split; [left|done]|]. destruct (match marks with Some nx => _ | None => _ end) eqn:E2; [exists e; split; [left|done]|].
  specialize (IH (<[e_shard e := buckets (e_shard e) ++ [e_slot e]]> buckets)). fold (e_slot e). destruct (bucket_entries _ _ _) as [err|bs].
  - destruct IH as (e' & Hin & He'). exists e'. split; [by right|done].
  - destruct IH as [Hb Hok]. split.
    + intros i. rewrite Hb, fn_insert_dec. unfold bucket. rewrite filter_cons. destruct (decide (e_shard e = i)) as [<-|Hd]; [|done]. cbn. by rewrite <- app_assoc.
    + intros e' [->|Hin]%elem_of_cons; [done|by apply Hok].
Qed.

(** Duplicates are within one shard. *)
Lemma bucket_nodup_ids es : Forall (fun e => is_id (ID e) = true) es ->
  NoDup (ID <$> es) <-> forall i, NoDup (bucket es i).*1.
Proof.
  intros Hid. induction Hid as [|e es He Hes IH]; [split; [intros _ i|intros _]; constructor|]. rewrite fmap_cons, NoDup_cons, IH. clear IH. unfold bucket. split.
  - intros [Hn Hb] i. rewrite filter_cons. case_decide as Hd; [|apply Hb]. cbn. constructor; [|apply Hb]. intros Hin. apply Hn.
    apply list_elem_of_fmap in Hin as (x & Ex & Hx). apply list_elem_of_fmap in Hx as (e' & -> & [Hs Hin]%list_elem_of_filter).
    apply list_elem_of_fmap. exists e'. split; [|done]. rewrite Forall_forall in Hes. specialize (Hes e' Hin).
    destruct (entry_id_split e He) as [E1 _]. destruct (entry_id_split e' Hes) as [E2 _].
    change (e_index e = e_index e') in Ex. change (e_shard e' = i) in Hs. rewrite E1, E2, Ex, Hd, Hs. done.
  - intros Hb. split.
    + intros Hin. apply list_elem_of_fmap in Hin as (e' & E & Hin). specialize (Hb (e_shard e)). rewrite filter_cons_True in Hb by done. cbn in Hb.
      apply NoDup_cons in Hb as [Hn _]. apply Hn. apply list_elem_of_fmap. exists (e_slot e').
      split; [change (e_index e = e_index e'); unfold e_index; by rewrite E|]. apply list_elem_of_fmap. exists e'. split; [done|].
      apply list_elem_of_filter. split; [change (e_shard e' = e_shard e); unfold e_shard; by rewrite E|done].
    + intros i. specialize (Hb i). rewrite filter_cons in Hb. case_decide; [|done]. cbn in Hb. by apply NoDup_cons in Hb as [_ Hb].
Qed.

Lemma bucket_nodup_keys es : Forall (fun e => e_shard e = mapperShardFor (Key e)) es ->
  NoDup (Key <$> es) <-> forall i, NoDup (bucket es i).*2.
Proof.
  intros Hid. induction Hid as [|e es He Hes IH]; [split; [intros _ i|intros _]; constructor|]. rewrite fmap_cons, NoDup_cons, IH. clear IH. unfold bucket. split.
  - intros [Hn Hb] i. rewrite filter_cons. case_decide as Hd; [|apply Hb]. cbn. constructor; [|apply Hb]. intros Hin. apply Hn.
    apply list_elem_of_fmap in Hin as (x & Ex & Hx). apply list_elem_of_fmap in Hx as (e' & -> & [Hs Hin]%list_elem_of_filter).
    apply list_elem_of_fmap. exists e'. split; [exact Ex|done].
  - intros Hb. split.
    + intros Hin. apply list_elem_of_fmap in Hin as (e' & E & Hin). specialize (Hb (e_shard e)). rewrite filter_cons_True in Hb by done. cbn in Hb.
      apply NoDup_cons in Hb as [Hn _]. apply Hn. apply list_elem_of_fmap. exists (e_slot e'). split; [exact E|].
      apply list_elem_of_fmap. exists e'. split; [done|]. apply list_elem_of_filter. split; [|done].
      rewrite Forall_forall in Hes. change (e_shard e' = e_shard e). rewrite (Hes e' Hin). congruence.
    + intros i. specialize (Hb i). rewrite filter_cons in Hb. case_decide; [|done]. cbn in Hb. by apply NoDup_cons in Hb as [_ Hb].
Qed.

(** ** One bucket *)

Definition by_index (x y : Z * N) : Prop := x.1 <= y.1.

(** One past the index before. *)
Definition past (prev : option Z) : Z := match prev with Some p => p + 1 | None => 0 end.

Definition bucket_good (prev : option Z) b s : Prop :=
  NoDup b.*1 /\ NoDup b.*2 /\ forall x, x ∈ b -> prev <> Some x.1 /\ forward s !! x.2 = None.

Lemma load_bucket_ok i b : forall prev s, 0 <= i < 256 -> shard_inv i s -> tailLen s = 0 -> rlen s = past prev ->
  StronglySorted by_index b -> (forall x, x ∈ b -> past prev <= x.1 + 1 /\ 0 <= x.1 < maxIndex /\ mapperShardFor x.2 = i) ->
  exists s' err, load_bucket i prev b s = Some (s', err) /\ (err = None <-> bucket_good prev b s) /\
    (err = None -> shard_inv i s' /\ tailLen s' = 0 /\ next s' = next s /\ rlen s' = default (past prev) ((fun x => x.1 + 1) <$> last b) /\
      forall k id, forward s' !! k = Some id <-> forward s !! k = Some id \/ exists idx, (idx, k) ∈ b /\ id = packNodeID i idx).
Proof.
  induction b as [|[idx k] b IH]; intros prev s Hi Hs Ht Hrl Hsort Hb; cbn [load_bucket].
  { exists s, None. split; [done|]. split; [split; [|done]; intros _; split; [constructor|split; [constructor|by intros x ?%not_elem_of_nil]]|].
    intros _. split; [done|]. split; [done|]. split; [done|]. split; [done|]. intros k id. split; [by left|intros [|(? & ?%not_elem_of_nil & _)]; done]. }
  destruct (Hb (idx, k) ltac:(left)) as (Hp & Hx & Hk). cbn in Hp, Hx, Hk.
  case_bool_decide as Hdup.
  { exists s, (Some ErrDuplicateIndex). split; [done|]. split; [|done]. split; [done|]. intros (_ & _ & Hg).
    destruct (Hg (idx, k) ltac:(left)) as [Hne _]. done. }
  case_bool_decide as Hkey.
  { exists s, (Some ErrDuplicateKey). split; [done|]. split; [|done]. split; [done|]. intros (_ & _ & Hg).
    destruct (Hg (idx, k) ltac:(left)) as [_ Hne]. cbn in Hne. rewrite Hne in Hkey. by destruct Hkey. }
  assert (forward s !! k = None) as Hfree by (destruct (forward s !! k) eqn:E; [exfalso; apply Hkey; by eexists|done]).
  assert (rlen s <= idx) as Hge.
  { rewrite Hrl. destruct prev as [p|]; cbn in *; [|lia]. assert (p <> idx) by congruence. lia. }
  assert (slot s idx = None) as Hsl by (apply slot_end; [apply Hs|unfold endLocked; rewrite Ht; cbn; lia]).
  destruct (grow_push s idx k (si_ok _ _ Hs) Hge) as (s1 & Eg & Hbind); [by left|].
  destruct (growToLocked s idx) as [s0|] eqn:Eg0; cbn in Eg; [|done]. injection Eg as E1. cbn [mbind option_bind]. rewrite E1.
  pose proof (inv_bind i s s1 idx k (next s) Hi Hs Hbind Hx Hk Hfree Hsl (si_next _ _ Hs)) as Hinv.
  destruct (b_next _ _ _ _ Hbind) as (En & Ef & Efd).
  assert (with_forward (<[k:=packNodeID i idx]> (forward s0)) (forwardDeletes s0) s1 =
    with_next (next s) (with_forward (<[k:=packNodeID i idx]> (forward s1)) (forwardDeletes s1) s1)) as Es.
  { rewrite <- E1. cbn. unfold with_next, with_forward. cbn. rewrite <- En, <- E1. done. }
  rewrite Es. set (s2 := with_next _ _) in *.
  assert (tailLen s1 = 0) as Ht1.
  { revert Eg0. unfold growToLocked. destruct (grow_loop_ok (Z.to_nat (idx - rlen s)) s (si_ok _ _ Hs)) as (s0' & E0 & Q & _); [by left|].
    rewrite E0. intros E. injection E as ->. rewrite <- E1. cbn. rewrite (proj1 (q_tail _ _ Q)). done. }
  assert (rlen s2 = idx + 1) as Hrl2.
  { change (rlen s2) with (rlen s1). pose proof (b_end _ _ _ _ Hbind) as Hend. unfold endLocked in Hend. rewrite Ht, Ht1 in Hend. cbn in Hend. lia. }
  apply StronglySorted_inv in Hsort as [Hsort Hall]. rewrite Forall_forall in Hall.
  destruct (IH (Some idx) s2 Hi Hinv Ht1 Hrl2 Hsort) as (s' & err & -> & Hiff & Hres).
  { intros x Hxb. destruct (Hb x ltac:(by right)) as (_ & ? & ?). specialize (Hall x Hxb). unfold by_index in Hall. cbn in *. split; [lia|done]. }
  exists s', err. split; [done|]. split.
  - rewrite Hiff. unfold bucket_good. rewrite !fmap_cons, !NoDup_cons. cbn [fst snd]. split.
    + intros (Hn1 & Hn2 & Hg). split; [split; [|done]|split; [split; [|done]|]].
      * intros Hin. apply list_elem_of_fmap in Hin as (x & -> & Hxb). destruct (Hg x Hxb) as [Hne _]. done.
      * intros Hin. apply list_elem_of_fmap in Hin as (x & -> & Hxb). destruct (Hg x Hxb) as [_ Hne]. cbn in Hne. by rewrite lookup_insert_eq in Hne.
      * intros x [->|Hxb]%elem_of_cons; [done|]. destruct (Hg x Hxb) as [Hne Hf]. cbn in Hf. rewrite Ef, lookup_insert_None in Hf. split; [|tauto].
        intros ->. cbn in Hrl. destruct (Hb x ltac:(by right)) as (Hp' & _). cbn in Hp'. specialize (Hall x Hxb). unfold by_index in Hall. cbn in Hall. lia.
    + intros ((Hn1 & Hn1') & (Hn2 & Hn2') & Hg). split; [done|]. split; [done|]. intros x Hxb. destruct (Hg x ltac:(by right)) as [_ Hf]. split.
      * intros E. injection E as E. apply Hn1. apply list_elem_of_fmap. by exists x.
      * cbn. rewrite Ef, lookup_insert_None. split; [done|]. intros ->. apply Hn2. apply list_elem_of_fmap. by exists x.
  - intros He. destruct (Hres He) as (Hs' & Ht' & En' & Hrl' & Hf'). split; [done|]. split; [done|]. split; [done|]. split.
    + rewrite Hrl'. destruct b as [|y b]; [done|]. cbn [past last]. destruct (last (y :: b)) as [z|] eqn:El; [done|]. by apply last_None in El.
    + intros k' id. rewrite Hf'. cbn. rewrite Ef, lookup_insert_Some. split.
      * intros [[[<- <-]|[Hne Hf2]]|(j & Hj & ->)]; [right; exists idx; split; [left|done]|by left|right; exists j; split; [by right|done]].
      * intros [Hf2|(j & [Hj|Hj]%elem_of_cons & ->)]; [left; right; split; [congruence|done]|injection Hj as -> ->; left; by left|right; by exists j].
Qed.

(** ** Every mapper whose shards are well-formed is a table *)

Lemma ids_union m n : all_inv m -> (n <= 256)%nat ->
  exists M : gmap N Z, (forall k, M !! k = if decide (mapperShardFor k < Z.of_nat n) then forward (shards m (mapperShardFor k)) !! k else None) /\
    zsum (fun j => shard_len (shards m (Z.of_nat j))) n = Z.of_nat (size M).
Proof.
  intros Hinv. induction n as [|n IH]; intros Hn.
  { exists ∅. split; [|done]. intros k. pose proof (home_range k). by rewrite decide_False by lia. }
  destruct IH as (M & HM & Hsz); [lia|]. pose proof (Hinv (Z.of_nat n) ltac:(lia)) as Hs. set (F := forward (shards m (Z.of_nat n))).
  assert (forall k, is_Some (F !! k) -> mapperShardFor k = Z.of_nat n) as Hhome by apply Hs.
  assert (M ##ₘ F) as Hdisj.
  { apply map_disjoint_spec. intros k x y Hx Hy. rewrite HM in Hx. case_decide; [|done]. assert (mapperShardFor k = Z.of_nat n) by (apply Hhome; by exists y). lia. }
  exists (M ∪ F). split.
  - intros k. destruct (F !! k) as [id|] eqn:E.
    + assert (mapperShardFor k = Z.of_nat n) as Eh by (apply Hhome; by exists id). rewrite decide_True, Eh by lia.
      rewrite lookup_union_r; [done|]. rewrite HM. by rewrite decide_False by lia.
    + rewrite lookup_union_l by done. rewrite HM. repeat case_decide; try done; try lia.
      assert (mapperShardFor k = Z.of_nat n) as -> by lia. done.
  - cbn [zsum]. rewrite Hsz, map_size_disj_union by done. rewrite (si_len _ _ Hs). unfold F. lia.
Qed.

Lemma inv_sim m : all_inv m -> kind m = detectKeyKind (N:=N) -> exists t, sim m t.
Proof.
  intros Hinv Hk. destruct (ids_union m 256 Hinv) as (M & HM & Hsz); [lia|]. exists (mkTable M (fun i => mark (shards m i))).
  split; [done|done| |done|done]. intros k. cbn. rewrite HM. pose proof (home_range k). by rewrite decide_True by lia.
Qed.

(** ** One shard *)

(** One past the highest index of a bucket. *)
Definition index_top b : Z := foldr (fun x t => Z.max (x.1 + 1) t) 0 b.

Lemma index_top_ub b x : x ∈ b -> x.1 + 1 <= index_top b.
Proof. induction b as [|y b IH]; [by intros ?%not_elem_of_nil|].
  change (index_top (y :: b)) with (Z.max (y.1 + 1) (index_top b)). intros [->|Hx]%elem_of_cons; [lia|]. specialize (IH Hx). lia.
Qed.

Lemma index_top_le b n : 0 <= n -> (forall x, x ∈ b -> x.1 + 1 <= n) -> index_top b <= n.
Proof.
  intros Hn. induction b as [|y b IH]; intros Hb; [done|]. change (index_top (y :: b)) with (Z.max (y.1 + 1) (index_top b)).
  specialize (IH (fun x Hx => Hb x ltac:(by right))).
  specialize (Hb y ltac:(left)). lia.
Qed.

Lemma index_top_perm b b' : b ≡ₚ b' -> index_top b = index_top b'.
Proof. unfold index_top. induction 1; cbn; lia. Qed.

Lemma sorted_top b x : StronglySorted by_index b -> last b = Some x -> 0 <= x.1 -> x.1 + 1 = index_top b.
Proof.
  intros Hs Hl H0. apply Z.le_antisymm; [apply index_top_ub, last_Some_elem_of, Hl|].
  apply index_top_le; [lia|]. intros y Hy. apply last_Some in Hl as [b' ->].
  apply elem_of_app in Hy as [Hy|Hy]; [|apply list_elem_of_singleton in Hy as ->; lia].
  assert (by_index y x) as Hle; [|unfold by_index in Hle; lia]. clear H0. induction b' as [|z b' IH]; [by apply not_elem_of_nil in Hy|].
  apply StronglySorted_inv in Hs as [Hs Hall]. apply elem_of_cons in Hy as [->|Hy]; [|by apply IH].
  rewrite Forall_forall in Hall. apply Hall, elem_of_app. right. left.
Qed.

(** [sort.Slice] by the index. *)
Class SortLaws (sort : list (Z * N) -> list (Z * N)) := {
  sort_perm b : sort b ≡ₚ b;
  sort_sorted b : StronglySorted by_index (sort b);
}.
Context (sort : list (Z * N) -> list (Z * N)) `{!SortLaws sort}.

Definition empty_shard s : Prop := forward s = ∅ /\ rlen s = 0 /\ tailLen s = 0 /\ next s = 0.

Lemma shard_empty_ok s : shard_empty s = true <-> empty_shard s.
Proof.
  unfold shard_empty, empty_shard. rewrite !andb_true_iff, bool_decide_eq_true, map_size_empty_iff, !Z.eqb_eq. tauto.
Qed.

Lemma empty_reset s i : shard_inv i s -> empty_shard s -> with_forward ∅ (forwardDeletes s) (with_reverse [] s) = s.
Proof.
  intros Hs (Hf & Hr & _ & _). unfold with_forward, with_reverse. cbn. rewrite <- Hf.
  assert (reverse s = []) as <-; [|by destruct s]. unfold rlen in Hr. destruct (reverse s); [done|cbn in Hr; lia].
Qed.

Definition load_mark (marks : option (Z -> Z)) (i : Z) : Z := match marks with Some nx => nx i | None => 0 end.

Record loaded (marks : option (Z -> Z)) (i : Z) b s : Prop := {
  l_inv : shard_inv i s;
  l_ids k id : forward s !! k = Some id <-> exists idx, (idx, k) ∈ b /\ id = packNodeID i idx;
  l_mark : mark s = Z.max (load_mark marks i) (index_top b);
}.

Lemma load_shard_ok marks bs m i : 0 <= i < 256 -> shard_inv i (shards m i) -> empty_shard (shards m i) -> 0 <= load_mark marks i ->
  (forall x, x ∈ bs i -> 0 <= x.1 < maxIndex /\ mapperShardFor x.2 = i) ->
  exists m' err, load_shard sort marks bs m i = Some (m', err) /\ (err = None <-> NoDup (bs i).*1 /\ NoDup (bs i).*2) /\
    kind m' = kind m /\ (forall j, j <> i -> shards m' j = shards m j) /\ (err = None -> loaded marks i (bs i) (shards m' i)).
Proof.
  intros Hi Hs He Hmk Hb. unfold load_shard. fold (load_mark marks i). cbn zeta. pose proof He as (Hf & Hr & Ht & Hn).
  destruct (bs i) as [|x b] eqn:Eb.
  - assert (mark (shards m i) = 0) as Em by (unfold mark, endLocked; rewrite Ht, Hr, Hn; done).
    assert (forall k id, forward (shards m i) !! k = Some id <-> exists idx, (idx, k) ∈ ([] : list (Z * N)) /\ id = packNodeID i idx) as Hids.
    { intros k id. rewrite Hf. split; [done|]. intros (? & ?%not_elem_of_nil & _). done. }
    eexists _, None. split; [done|]. split; [split; [intros _; split; constructor|done]|]. split; [by destruct (0 <? _)|].
    split; [intros j Hj; destruct (0 <? _); [|done]; cbn; by rewrite fn_insert_dec, decide_False by congruence|]. intros _.
    destruct (Z.ltb_spec 0 (load_mark marks i)).
    + cbn. rewrite fn_insert_eq. split; [by apply inv_next|done|]. unfold mark. change (endLocked (with_next _ _)) with (endLocked (shards m i)). cbn.
      unfold endLocked. rewrite Ht, Hr. cbn. done.
    + split; [done|done|]. cbn. lia.
  - pose proof (sort_perm (x :: b)) as Hp. pose proof (sort_sorted (x :: b)) as Hsd. set (sb := sort (x :: b)) in *.
    assert (exists z, last sb = Some z /\ z ∈ sb) as (z & El & Hz).
    { destruct (last sb) as [z|] eqn:E; [exists z; split; [done|by apply last_Some_elem_of]|]. apply last_None in E. rewrite E in Hp. by apply Permutation_nil_l in Hp. }
    rewrite El. cbn [mbind option_bind]. rewrite (empty_reset _ i) by done.
    assert (forall y, y ∈ sb -> 0 <= y.1 < maxIndex /\ mapperShardFor y.2 = i) as Hsb by (intros y Hy; apply Hb; by rewrite <- Hp).
    destruct (Hsb z Hz) as [Hzr _]. rewrite u64_small by (unfold maxIndex in Hzr; lia).
    destruct (load_bucket_ok i sb None (shards m i) Hi Hs Ht Hr Hsd) as (s' & err & -> & Hiff & Hres).
    { intros y Hy. destruct (Hsb y Hy) as [? ?]. split; [cbn; lia|done]. }
    cbn [mbind option_bind].
    assert (err = None <-> NoDup (x :: b).*1 /\ NoDup (x :: b).*2) as Hiff'.
    { rewrite Hiff. unfold bucket_good. rewrite Hp. split; [tauto|]. intros [? ?]. split; [done|]. split; [done|]. intros y Hy. split; [done|]. by rewrite Hf. }
    destruct err as [err|].
    + eexists _, _. split; [done|]. split; [exact Hiff'|]. split; [done|]. split; [|done]. intros j Hj. cbn. by rewrite fn_insert_dec, decide_False by congruence.
    + eexists _, None. split; [done|]. split; [exact Hiff'|]. split; [done|]. split; [intros j Hj; cbn; by rewrite fn_insert_dec, decide_False by congruence|].
      intros _. destruct (Hres eq_refl) as (Hs' & Ht' & En' & Hrl' & Hf'). cbn. rewrite fn_insert_eq.
      assert (z.1 + 1 = index_top (x :: b)) as Etop by (rewrite <- (index_top_perm _ _ Hp); apply sorted_top; [done|done|lia]).
      split; [apply inv_next; [done|lia]| |].
      * intros k id. cbn. rewrite Hf', Hf. setoid_rewrite Hp. split; [intros [|]; done|by right].
      * unfold mark. change (endLocked (with_next _ _)) with (endLocked s'). cbn [next with_next]. unfold endLocked. rewrite Ht', Hrl', El. cbn -[index_top]. lia.
Qed.

Lemma load_shards_ok marks bs l : forall m, NoDup l -> (forall i, i ∈ l -> 0 <= i < 256 /\ shard_inv i (shards m i) /\ empty_shard (shards m i) /\ 0 <= load_mark marks i /\
    (forall x, x ∈ bs i -> 0 <= x.1 < maxIndex /\ mapperShardFor x.2 = i)) ->
  exists m' err, load_shards sort marks bs l m = Some (m', err) /\ (err = None <-> forall i, i ∈ l -> NoDup (bs i).*1 /\ NoDup (bs i).*2) /\
    kind m' = kind m /\ (forall j, j ∉ l -> shards m' j = shards m j) /\ (err = None -> forall i, i ∈ l -> loaded marks i (bs i) (shards m' i)).
Proof.
  induction l as [|i l IH]; intros m Hnd Hl; cbn [load_shards].
  { exists m, None. split; [done|]. split; [split; [by intros _ i ?%not_elem_of_nil|done]|]. split; [done|]. split; [done|by intros _ i ?%not_elem_of_nil]. }
  apply NoDup_cons in Hnd as [Hni Hnd]. destruct (Hl i ltac:(left)) as (Hi & Hs & He & Hm & Hb).
  destruct (load_shard_ok marks bs m i Hi Hs He Hm Hb) as (m1 & err & -> & Hiff & Hk & Hsame & Hload). cbn [mbind option_bind].
  destruct err as [err|].
  { exists m1, (Some err). split; [done|]. split; [split; [done|]|].
    - intros Hall. assert (Some err = None) as Hx; [|done]. apply Hiff, Hall. left.
    - split; [done|]. split; [intros j Hj; apply Hsame; intros ->; apply Hj; left|done]. }
  destruct (IH m1 Hnd) as (m' & err & -> & Hiff' & Hk' & Hsame' & Hload').
  { intros j Hj. destruct (Hl j ltac:(by right)) as (? & ? & ? & ? & ?). rewrite Hsame by (by intros ->). done. }
  exists m', err. split; [done|]. split; [|split; [congruence|split]].
  - rewrite Hiff'. split; [intros Hall j [->|Hj]%elem_of_cons; [by apply Hiff|by apply Hall]|intros Hall j Hj; apply Hall; by right].
  - intros j Hj. apply not_elem_of_cons in Hj as [Hj1 Hj2]. rewrite Hsame' by done. by apply Hsame.
  - intros He' j [->|Hj]%elem_of_cons; [rewrite Hsame' by done; by apply Hload|by apply Hload'].
Qed.

(** ** [LoadFrom] *)

Definition good_entries (marks : option (Z -> Z)) (es : list MapperEntry) : Prop :=
  (forall e, e ∈ es -> e_shard e = mapperShardFor (Key e) /\ match marks with Some nx => e_index e < nx (e_shard e) | None => True end) /\
  NoDup (ID <$> es) /\ NoDup (Key <$> es).

Lemma entry_error_None marks e : entry_error marks e = None <->
  e_shard e = mapperShardFor (Key e) /\ match marks with Some nx => e_index e < nx (e_shard e) | None => True end.
Proof.
  unfold entry_error. destruct (Z.eqb_spec (e_shard e) (mapperShardFor (Key e))) as [E|E]; cbn [negb]; [|split; [done|tauto]].
  destruct marks as [nx|]; [|tauto]. destruct (Z.leb_spec (nx (e_shard e)) (e_index e)); [split; [done|lia]|tauto].
Qed.

Lemma load_from_ok marks es m : all_inv m -> (forall i, 0 <= i < 256 -> empty_shard (shards m i) /\ 0 <= load_mark marks i) ->
  Forall (fun e => is_id (ID e) = true /\ e_index e < maxIndex) es ->
  exists m' err, LoadFrom sort es marks m = Some (m', err) /\ (err = None <-> good_entries marks es) /\
    (err = None -> kind m' = kind m /\ forall i, 0 <= i < 256 -> loaded marks i (bucket es i) (shards m' i)).
Proof.
  intros Hinv Hempty Hes. unfold LoadFrom.
  assert (forallb (fun i => shard_empty (shards m i)) (seqZ 0 mapperShardCount) = true) as ->.
  { apply forallb_forall. intros i Hi%list_elem_of_In%elem_of_seqZ. change mapperShardCount with 256 in Hi. apply shard_empty_ok, Hempty. lia. }
  cbn [negb]. pose proof (bucket_entries_ok marks es (fun _ => [])) as Hbe. destruct (bucket_entries _ _ _) as [err|bs].
  { exists m, (Some err). split; [done|]. split; [|done]. split; [done|]. intros [Hg _]. destruct Hbe as (e & Hin & He).
    rewrite (proj2 (entry_error_None marks e)) in He by (by apply Hg). done. }
  destruct Hbe as [Hbs Hok]. cbn in Hbs. rewrite Forall_forall in Hes.
  assert (Forall (fun e => e_shard e = mapperShardFor (Key e)) es) as Hhome.
  { apply Forall_forall. intros e Hin. by apply (entry_error_None marks), Hok. }
  destruct (load_shards_ok marks bs (seqZ 0 mapperShardCount) m) as (m' & err & -> & Hiff & Hk & _ & Hload); [apply NoDup_seqZ| |].
  { intros i Hi%elem_of_seqZ. change mapperShardCount with 256 in Hi. destruct (Hempty i ltac:(lia)) as [? ?]. split; [lia|]. split; [apply Hinv; lia|].
    split; [done|]. split; [done|]. intros x Hx. rewrite Hbs in Hx. unfold bucket in Hx. apply list_elem_of_fmap in Hx as (e & -> & [Hsh Hin]%list_elem_of_filter).
    destruct (Hes e Hin) as [Hid Hmx]. destruct (entry_id_split e Hid) as (_ & _ & Hx). unfold e_slot. cbn [fst snd]. split; [lia|].
    rewrite Forall_forall in Hhome. by rewrite <- (Hhome e Hin). }
  exists m', err. split; [done|]. split.
  - rewrite Hiff. unfold good_entries. rewrite bucket_nodup_ids by (apply Forall_forall; intros e Hin; by apply Hes). rewrite bucket_nodup_keys by done.
    assert (forall i, ~ 0 <= i < 256 -> bucket es i = []) as Hout.
    { intros i Hi. unfold bucket. rewrite filter_none; [done|]. apply Forall_forall. intros e Hin <-. apply Hi. destruct (Hes e Hin) as [Hid _]. by apply entry_id_split. }
    split.
    + intros Hall. split; [intros e Hin; by apply entry_error_None, Hok|].
      assert (forall i, NoDup (bucket es i).*1 /\ NoDup (bucket es i).*2) as Hb; [|split; intros i; apply Hb].
      intros i. destruct (decide (0 <= i < 256)) as [Hi|Hi]; [|rewrite Hout by done; split; constructor].
      rewrite <- Hbs. apply Hall, elem_of_seqZ. change mapperShardCount with 256. lia.
    + intros (_ & H1 & H2) i _. rewrite Hbs. split; auto.
  - intros He. split; [done|]. intros i Hi. rewrite <- Hbs. apply Hload; [done|]. apply elem_of_seqZ. change mapperShardCount with 256. lia.
Qed.
End load.
