(* ===== verification/MapperProps.v ===== *)
(** * The node mapper: properties

    A run of operations on a mapper is a run of the abstract table; keys and ids are in
    bijection; no id is issued twice, and a watermark separates the ids issued before it from
    those issued after. *)

From Stdlib Require Import ZArith Lia.
From stdpp Require Import gmap list_numbers sorting.
From S2P Require Import Prelude Csr Mapper MapperFacts MapperTable MapperWalk.

Local Open Scope Z_scope.

(** ** Runs *)

Section runs.
Context {N : Type} `{Countable N} `{!MapperKey N} {R : Type} `{!IDReserver R}.
Implicit Types (m : Mapper (N:=N) (R:=R)) (s : mapperShard (N:=N)) (k : N) (i idx lo id : Z).

Fixpoint run (ops : list op) m : option (Mapper * list res) :=
  match ops with
  | [] => Some (m, [])
  | o :: ops => '(m, r) ← exec o m; '(m, rs) ← run ops m; Some (m, r :: rs)
  end.

Fixpoint fits_run (ops : list op) m : bool :=
  match ops with
  | [] => true
  | o :: ops => fits o m && match exec o m with Some (m, _) => fits_run ops m | None => true end
  end.

Inductive truns : table -> list (op (R:=R)) -> list res -> table -> Prop :=
  | tr_nil t : truns t [] [] t
  | tr_cons t o ops r t' rs t'' : tstep t o r t' -> truns t' ops rs t'' -> truns t (o :: ops) (r :: rs) t''.

(** The ids the run's interns created. *)
Definition created (rs : list (res (N:=N))) : list Z := omap (fun r => match r with RIntern id true => Some id | _ => None end) rs.

Definition is_restore (o : op (N:=N) (R:=R)) : bool := match o with OpRestoreNext _ _ => true | _ => false end.

Context `{!MapperKeyLaws N}.

Lemma run_sim ops : forall m t, sim m t -> fits_run ops m = true ->
  exists m' rs t', run ops m = Some (m', rs) /\ truns t ops rs t' /\ sim m' t'.
Proof.
  induction ops as [|o ops IH]; intros m t Hs Hf; cbn [run fits_run] in *.
  { eexists m, [], t. split; [done|]. split; [constructor|done]. }
  apply andb_true_iff in Hf as [Hf Hfs]. destruct (exec_step m t o Hs Hf) as (m1 & r & t1 & E & Ht & Hs1). rewrite E in *.
  destruct (IH m1 t1 Hs1 Hfs) as (m' & rs & t' & E' & Hts & Hs'). cbn [mbind option_bind]. rewrite E'. cbn [mbind option_bind].
  eexists m', _, t'. split; [done|]. split; [by econstructor|done].
Qed.

Lemma run_start r ops : fits_run ops (SetIDReserver r NewMapper) = true ->
  exists m rs t, run ops (SetIDReserver r NewMapper) = Some (m, rs) /\ truns empty_table ops rs t /\ sim m t.
Proof. intros Hf. apply run_sim; [|done]. apply sim_limits. apply sim_new. Qed.

Lemma lookup_ids m t k : sim m t -> Lookup k m = t_ids t !! k.
Proof. intros Hs. unfold Lookup. rewrite shardFor_home by apply Hs. symmetry. apply Hs. Qed.

(** The ids an operation creates are those its shard's mark passes. *)
Lemma step_marks m t o m' r t' : sim m t -> fits o m = true -> exec o m = Some (m', r) -> tstep t o r t' -> sim m' t' ->
  is_restore o = false ->
  (forall i, t_marks t i <= t_marks t' i) /\
  match r with RIntern id true => exists i idx, 0 <= i < 256 /\ 0 <= idx < maxIndex /\ id = packNodeID i idx /\ t_marks t i = idx /\ idx < t_marks t' i | _ => True end.
Proof.
  intros Hs Hf E Ht Hs' Hr. destruct Ht as [| k Hnone| | | | | | | | | | k id Hof Hnone Hfree| | | |i nx e He Hb| |]; try done; try (split; [cbn; lia|done]).
  - cbn. pose proof (home_range k) as Hk. set (i := mapperShardFor k) in *. split.
    + intros j. rewrite fn_insert_dec. case_decide; [subst j; unfold t_next; fold i; lia|lia].
    + exists i, (t_next t k). cbn [fits] in Hf. apply orb_true_iff in Hf as [Hf%bool_decide_eq_true|Hf%Z.ltb_lt].
      { rewrite (lookup_ids m t k Hs), Hnone in Hf. by destruct Hf. }
      fold i in Hf. unfold t_next. fold i. rewrite fn_insert_eq, (s_marks _ _ Hs) by done.
      pose proof (mark_nonneg _ _ (s_shards _ _ Hs i Hk)). unfold t_new, t_next. fold i. rewrite (s_marks _ _ Hs) by done.
      repeat split; try done; lia.
  - split; [|done]. cbn. intros j. rewrite fn_insert_dec. case_decide; [subst j; unfold t_next; lia|lia].
Qed.

(** What a run without a mark restored does to the marks and the ids it creates. *)
Lemma run_marks ops : forall m t m' rs, sim m t -> fits_run ops m = true -> forallb (negb ∘ is_restore) ops = true -> run ops m = Some (m', rs) ->
  exists t', sim m' t' /\ (forall i, t_marks t i <= t_marks t' i) /\ NoDup (created rs) /\
    forall id, id ∈ created rs -> exists i idx, 0 <= i < 256 /\ 0 <= idx < maxIndex /\ id = packNodeID i idx /\ t_marks t i <= idx < t_marks t' i.
Proof.
  induction ops as [|o ops IH]; intros m t m' rs Hs Hf Hnr E; cbn [run fits_run forallb] in *.
  { injection E as <- <-. exists t. split; [done|]. split; [lia|]. split; [constructor|]. by intros id ?%not_elem_of_nil. }
  apply andb_true_iff in Hf as [Hf Hfs]. apply andb_true_iff in Hnr as [Hn Hns]. apply negb_true_iff in Hn.
  destruct (exec_step m t o Hs Hf) as (m1 & r & t1 & E1 & Ht & Hs1). rewrite E1 in E, Hfs. cbn [mbind option_bind] in E.
  destruct (run ops m1) as [[m2 rs2]|] eqn:E2; cbn in E; [|done]. injection E as <- <-.
  destruct (step_marks m t o m1 r t1 Hs Hf E1 Ht Hs1 Hn) as [Hm1 Hr].
  destruct (IH m1 t1 m2 rs2 Hs1 Hfs Hns E2) as (t' & Hs' & Hm2 & Hnd & Hid). exists t'. split; [done|].
  split; [intros i; specialize (Hm1 i); specialize (Hm2 i); lia|].
  assert (forall id, id ∈ created rs2 -> exists i idx, 0 <= i < 256 /\ 0 <= idx < maxIndex /\ id = packNodeID i idx /\ t_marks t i <= idx < t_marks t' i) as Hid2.
  { intros id (i & idx & Hi & Hx & -> & Hlt)%Hid. exists i, idx. specialize (Hm1 i). repeat split; try done; lia. }
  destruct r as [id [|]| | | | | |]; try (split; [exact Hnd|exact Hid2]).
  destruct Hr as (i & idx & Hi & Hx & -> & Hmi & Hlt). change (created (RIntern (packNodeID i idx) true :: rs2)) with (packNodeID i idx :: created rs2). split.
  - constructor; [|done]. intros (j & jdx & Hj & Hjx & Ep & Hjlt)%Hid. unfold maxIndex in *. apply pack_inj in Ep as [<- <-]; [lia|lia..].
  - intros id [->|Hin]%elem_of_cons; [|by apply Hid2]. exists i, idx. specialize (Hm2 i). repeat split; try done; lia.
Qed.

(** ** The properties *)

(** C10: every run of operations of the mapper (interns, lookups, resolutions, withdrawals,
    recovery placements, restored marks, reservations published, reservers installed) on
    arguments in range, from an empty mapper, completes without a panic, and it
    answers exactly as the table of keys and ids does: a new key gets the mark of the
    shard it hashes to, an id resolves to the key it is bound to and to nothing when it is
    a hole, a withdrawal succeeds exactly on a binding, a placement refuses exactly what
    contradicts the table. *)
Theorem mapper_refines_table (r : option R) (ops : list (op (N:=N))) :
  fits_run ops (SetIDReserver r NewMapper) = true ->
  exists m rs t, run ops (SetIDReserver r NewMapper) = Some (m, rs) /\ truns empty_table ops rs t /\
    (forall k, Lookup k m = t_ids t !! k) /\ (forall i, 0 <= i < 256 -> mark (shards m i) = t_marks t i).
Proof.
  intros Hf. destruct (run_start r ops Hf) as (m & rs & t & E & Ht & Hs). exists m, rs, t. split; [done|]. split; [done|].
  split; [intros k; by apply lookup_ids|intros i Hi; symmetry; by apply Hs].
Qed.

(** C11: an id is issued once.  In a run in which no mark is restored, the ids created are pairwise
    distinct, whatever is withdrawn or placed meanwhile, and a watermark taken anywhere in the run covers every id created before it and none
    created after it. *)
Theorem ids_never_reissued (r : option R) (ops1 ops2 : list (op (N:=N))) m1 rs1 m2 rs2 :
  fits_run (ops1 ++ ops2) (SetIDReserver r NewMapper) = true -> forallb (negb ∘ is_restore) (ops1 ++ ops2) = true ->
  run ops1 (SetIDReserver r NewMapper) = Some (m1, rs1) -> run ops2 m1 = Some (m2, rs2) ->
  NoDup (created (rs1 ++ rs2)) /\
  (forall id, id ∈ created rs1 -> Covers id (Watermark m1) = true) /\
  (forall id, id ∈ created rs2 -> Covers id (Watermark m1) = false /\ Covers id (Watermark m2) = true).
Proof.
  intros Hf Hn E1 E2. rewrite forallb_app in Hn. apply andb_true_iff in Hn as [Hn1 Hn2].
  assert (fits_run ops1 (SetIDReserver r NewMapper) = true /\ fits_run ops2 m1 = true) as [Hf1 Hf2].
  { clear Hn1 Hn2 E2. revert Hf E1. generalize (SetIDReserver r (NewMapper (N:=N))). revert rs1. induction ops1 as [|o ops IH]; intros rs1 m Hf E1.
    - by injection E1 as <- <-.
    - cbn [fits_run app run] in *. apply andb_true_iff in Hf as [Hf Hfs]. rewrite Hf. destruct (exec o m) as [[m' r']|]; [|done]. cbn in E1.
      destruct (run ops m') as [[m'' rs]|] eqn:Er; cbn in E1; [|done]. injection E1 as <- <-. by apply (IH rs m'). }
  assert (sim (SetIDReserver r NewMapper) empty_table) as Hs0 by apply sim_limits, sim_new.
  destruct (run_marks _ _ _ _ _ Hs0 Hf1 Hn1 E1) as (t1 & Hs1 & Hm1 & Hd1 & Hi1).
  destruct (run_marks _ _ _ _ _ Hs1 Hf2 Hn2 E2) as (t2 & Hs2 & Hm2 & Hd2 & Hi2).
  assert (forall m t i idx, sim m t -> 0 <= i < 256 -> 0 <= idx < maxIndex -> Covers (packNodeID i idx) (Watermark m) = (idx <? t_marks t i)) as Hcov.
  { intros m t i idx Hs Hi Hx. unfold Covers. rewrite unpack_small by done. cbn. by rewrite (s_marks _ _ Hs). }
  split; [|split].
  - unfold created. rewrite omap_app. apply NoDup_app. split; [done|]. split; [|done].
    intros id (i & idx & Hi & Hx & -> & Hlt)%Hi1 (j & jdx & Hj & Hjx & Ep & Hjlt)%Hi2. unfold maxIndex in *. apply pack_inj in Ep as [<- <-]; [lia|lia..].
  - intros id (i & idx & Hi & Hx & -> & Hlt)%Hi1. rewrite (Hcov m1 t1) by done. apply Z.ltb_lt. lia.
  - intros id (i & idx & Hi & Hx & -> & Hlt)%Hi2. rewrite (Hcov m1 t1), (Hcov m2 t2) by done. split; [apply Z.ltb_ge|apply Z.ltb_lt]; lia.
Qed.

(** ** Scans *)

(** A mapper some run reaches. *)
Definition reached m : Prop := exists r ops rs, fits_run ops (SetIDReserver r NewMapper) = true /\ run ops (SetIDReserver r NewMapper) = Some (m, rs).

Lemma reached_sim m : reached m -> exists t, sim m t.
Proof. intros (r & ops & rs & Hf & E). destruct (run_start r ops Hf) as (m' & rs' & t & E' & _ & Hs). rewrite E in E'. injection E' as <- _. by exists t. Qed.

Lemma sim_inv m t : sim m t -> all_inv m.
Proof. intros Hs i Hi. by apply Hs. Qed.

(** The walk that collects the ids it visits. *)
Definition walk_ids m : list Z := Walk (fun id _ l => (l ++ [id], true)) m [].

Lemma scan_collect (es : list (Z * N)) l : scan (fun id _ l => (l ++ [id], true)) es l = (l ++ es.*1, true).
Proof. revert l. induction es as [|e es IH]; intros l; cbn; [by rewrite app_nil_r|]. by rewrite IH, <- app_assoc. Qed.

Lemma walk_ids_from m : all_inv m -> walk_ids m = from m (mkCursor 0 0).
Proof.
  intros Hinv. unfold walk_ids, Walk. rewrite walk_shards_ok by (intros i Hi%elem_of_seqZ; apply (Hinv i); change mapperShardCount with 256 in Hi; lia).
  by rewrite scan_collect, from_start.
Qed.

(** The turns of a scan, each under the read lock of one shard: each may see another mapper. *)
Fixpoint turns (obs : list (Mapper (N:=N) (R:=R) * Z)) (c : MapperCursor) (dst : list Z) : option (list Z * MapperCursor) :=
  match obs with
  | [] => Some (dst, c)
  | (m, limit) :: obs => if Done c then Some (dst, c) else '(dst, c, _) ← append_shard (shards m (c_shard c)) c limit dst; turns obs c dst
  end.

Definition ahead (c : MapperCursor) (i idx : Z) : Prop := c_shard c < i \/ c_shard c = i /\ c_intra c <= idx.

Lemma elem_of_ids s i lo e id : id ∈ ids s i lo e <-> exists idx, lo <= idx < e /\ id = packNodeID i idx /\ is_Some (slot s idx).
Proof.
  unfold ids, entries. rewrite list_elem_of_fmap. setoid_rewrite list_elem_of_omap. setoid_rewrite elem_of_seqZ. unfold entry. split.
  - intros ([id' k] & -> & idx & Hx & E). exists idx. destruct (slot s idx) as [k'|]; [|done]. cbn in E. injection E as <- <-. split; [lia|]. split; [done|]. by eexists.
  - intros (idx & Hx & -> & k & Hk). exists (packNodeID i idx, k). split; [done|]. exists idx. rewrite Hk. split; [lia|done].
Qed.

Lemma ids_nodup s i lo e : 0 <= i < 256 -> 0 <= lo -> shard_inv i s -> NoDup (ids s i lo e).
Proof.
  intros Hi. remember (Z.to_nat (e - lo)) as n eqn:En. revert lo En. induction n as [|n IH]; intros lo En H0 Hs.
  { rewrite ids_nil by lia. constructor. }
  rewrite ids_cons by lia. destruct (slot s lo) as [k|] eqn:Ek; [|apply IH; [lia|lia|done]]. constructor; [|apply IH; [lia|lia|done]].
  rewrite elem_of_ids. intros (idx & Hx & Ep & k' & Hk'). pose proof (slot_bound _ _ _ _ Hs H0 Ek). pose proof (slot_bound i s idx k' Hs ltac:(lia) Hk').
  unfold maxIndex in *. apply pack_inj in Ep as [_ ->]; lia.
Qed.

Lemma turns_ok (obs : list (Mapper (N:=N) (R:=R) * Z)) : forall c dst, Forall (fun o => all_inv o.1 /\ no_tails o.1 /\ 0 < o.2) obs -> cursor_ok c ->
  exists l c', turns obs c dst = Some (dst ++ l, c') /\ NoDup l /\ (forall i idx, ahead c' i idx -> ahead c i idx) /\
    (forall id, id ∈ l -> exists i idx o, id = packNodeID i idx /\ 0 <= i < 256 /\ 0 <= idx < maxIndex /\ ahead c i idx /\ ~ ahead c' i idx /\
      o ∈ obs /\ is_Some (slot (shards o.1 i) idx)) /\
    (forall i idx, 0 <= i < 256 -> 0 <= idx -> ahead c i idx -> ~ ahead c' i idx -> (forall o, o ∈ obs -> is_Some (slot (shards o.1 i) idx)) -> packNodeID i idx ∈ l).
Proof.
  induction obs as [|[m limit] obs IH]; intros c dst Hobs Hc; cbn [turns].
  { exists [], c. rewrite app_nil_r. split; [done|]. split; [constructor|]. split; [done|]. split; [by intros id ?%not_elem_of_nil|]. done. }
  destruct (Done c) eqn:Ed.
  { exists [], c. rewrite app_nil_r. split; [done|]. split; [constructor|]. split; [done|]. split; [by intros id ?%not_elem_of_nil|]. done. }
  apply Forall_cons in Hobs as [(Hinv & Hnt & Hl) Hobs]. cbn in Hinv, Hnt, Hl. destruct c as [i lo]. destruct Hc as [H0 H1]. cbn in H0, H1.
  unfold Done in Ed. cbn [c_shard] in Ed |- *. change mapperShardCount with 256 in Ed. apply Z.leb_gt in Ed. assert (0 <= i < 256) as Hi by lia.
  pose proof (Hinv i Hi) as Hs.
  destruct (append_shard_ok (shards m i) i lo limit dst Hs H1 Hl (or_introl (Hnt i Hi))) as (e & c1 & -> & He & _ & Hc1). cbn [mbind option_bind].
  set (l1 := ids (shards m i) i lo e) in *.
  assert (cursor_ok c1) as Hok1 by (destruct Hc1 as [[-> _]|[-> _]]; split; cbn; lia).
  assert (forall j idx, ahead c1 j idx -> ahead (mkCursor i lo) j idx) as Hah.
  { intros j idx. unfold ahead. destruct Hc1 as [[-> _]|[-> _]]; cbn; lia. }
  destruct (IH c1 (dst ++ l1) Hobs Hok1) as (l2 & c' & -> & Hnd & Hmono & Hin & Hall). exists (l1 ++ l2), c'.
  assert (forall id, id ∈ l1 -> exists idx, id = packNodeID i idx /\ 0 <= idx < maxIndex /\ lo <= idx < e /\ is_Some (slot (shards m i) idx)) as Hl1.
  { intros id (idx & Hx & -> & k & Hk)%elem_of_ids. exists idx. pose proof (slot_bound i (shards m i) idx k Hs ltac:(lia) Hk). split; [done|]. split; [lia|]. split; [done|]. by exists k. }
  assert (forall idx, lo <= idx < e -> is_Some (slot (shards m i) idx) -> ~ ahead c1 i idx) as Hnot by (intros idx Hx _; unfold ahead; destruct Hc1 as [[-> _]|[-> _]]; cbn; lia).
  split; [by rewrite <- app_assoc|]. split; [|split; [auto|split]].
  - apply NoDup_app. split; [by apply ids_nodup|]. split; [|done]. intros id (idx & -> & Hx & Hxe & Hsl)%Hl1 (j & jdx & o & Ep & Hj & Hjx & Ha & _)%Hin.
    unfold maxIndex in *. apply pack_inj in Ep as [<- <-]; [|lia..]. by apply (Hnot idx).
  - intros id [(idx & -> & Hx & Hxe & Hsl)%Hl1|(j & jdx & o & -> & Hj & Hjx & Ha & Hna & Ho & Hsl)%Hin]%elem_of_app.
    + exists i, idx, (m, limit). split; [done|]. split; [done|]. split; [done|]. split; [right; cbn; lia|]. split; [|split; [by left|done]].
      intros Ha%Hmono. by apply (Hnot idx).
    + exists j, jdx, o. split; [done|]. split; [done|]. split; [done|]. split; [auto|]. split; [done|]. split; [by right|done].
  - intros j jdx Hj Hj0 Ha Hna Hb. apply elem_of_app. destruct (Hb (m, limit) ltac:(left)) as [k Hk]. cbn in Hk.
    assert (ahead c1 j jdx \/ j = i /\ lo <= jdx < e) as [Ha1|[-> Hx]].
    { unfold ahead in *. cbn in Ha. destruct Ha as [Ha|[<- Ha]]; [left; destruct Hc1 as [[-> _]|[-> _]]; cbn; lia|].
      destruct Hc1 as [[-> Hend]|[-> _]]; cbn; [|destruct (Z.lt_ge_cases jdx e); lia]. right.
      destruct (slot_bound i (shards m i) jdx k Hs ltac:(lia) Hk). lia. }
    + right. apply Hall; [done|done|done|done|]. intros o Ho. apply Hb. by right.
    + left. apply elem_of_ids. exists jdx. split; [done|]. split; [done|]. by exists k.
Qed.

(** C25: on a mapper whose shards have no tail, [AppendIDs] called again and again from the zero cursor with
    any positive limit finishes, and the batches together are exactly the ids [Walk]
    visits, in its order; on any mapper one call with a limit no smaller than
    the number of ids and one more returns them all and leaves the cursor done. *)
Theorem append_ids_is_walk m (limit : Z) : reached m -> 0 < limit ->
  (no_tails m -> drain (2 + length (walk_ids m)) m limit (mkCursor 0 0) [] = Some (walk_ids m)) /\
  (Z.of_nat (length (walk_ids m)) < limit -> exists c, AppendIDs [] (mkCursor 0 0) limit m = Some (walk_ids m, c) /\ Done c = true).
Proof.
  intros [t Hs]%reached_sim Hl. pose proof (sim_inv _ _ Hs) as Hinv. rewrite (walk_ids_from m Hinv). assert (cursor_ok (mkCursor 0 0)) as Hc by (split; cbn; lia).
  split; intros Hn.
  - by rewrite drain_ok by (done || lia).
  - destruct (append_ids_ok m (mkCursor 0 0) limit [] Hinv Hc Hl (or_intror Hn)) as (c' & E & _ & _ & Hd). exists c'.
    rewrite E, take_ge in * by lia. split; [done|]. destruct Hd; [done|lia].
Qed.

(** C26: a scan that runs while the mapper changes.  Each turn locks one shard and may
    see a later mapper than the turn before; however the mapper changed in between, as long as no
    turn sees a shard that has a tail, and whatever the batch sizes, a scan that
    finishes returns no id twice, returns only ids bound at some turn, and returns every id bound
    at all of them.  With a tail it may skip ids: [append_ids_skips]. *)
Theorem interleaved_scan (obs : list (Mapper (N:=N) (R:=R) * Z)) l c :
  Forall (fun o => reached o.1 /\ no_tails o.1 /\ 0 < o.2) obs -> turns obs (mkCursor 0 0) [] = Some (l, c) -> Done c = true ->
  NoDup l /\ (forall id, id ∈ l -> exists o k, o ∈ obs /\ Lookup k o.1 = Some id) /\
  (forall id, (forall o, o ∈ obs -> exists k, Lookup k o.1 = Some id) -> id ∈ l).
Proof.
  intros Hobs E Hd. assert (cursor_ok (mkCursor 0 0)) as Hc by (split; cbn; lia).
  assert (forall o, o ∈ obs -> exists t, sim o.1 t) as Hsim by (intros o Ho; rewrite Forall_forall in Hobs; by apply reached_sim, Hobs).
  destruct (turns_ok obs (mkCursor 0 0) []) as (l' & c' & E' & Hnd & _ & Hin & Hall); [|done|].
  { apply Forall_forall. intros o Ho. destruct (Hsim o Ho) as [t Hs]. rewrite Forall_forall in Hobs. destruct (Hobs o Ho) as (_ & ? & ?).
    split; [by eapply sim_inv|done]. }
  rewrite E in E'. injection E' as -> ->. cbn [app] in *. split; [done|]. split.
  - intros id (i & idx & o & -> & Hi & Hx & _ & _ & Ho & k & Hk)%Hin. exists o, k. split; [done|]. destruct (Hsim o Ho) as [t Hs].
    rewrite (lookup_ids o.1 t k Hs). by apply (slot_ids o.1 t i idx k Hs Hi (proj1 Hx)).
  - intros id Hb. destruct obs as [|o obs]; [injection E as _ <-; done|].
    destruct (Hb o ltac:(left)) as [k Hk]. destruct (Hsim o ltac:(left)) as [t Hs]. rewrite (lookup_ids _ t) in Hk by done.
    destruct (ids_slot _ _ _ _ Hs Hk) as (idx & Hx & -> & _ & _). pose proof (home_range k) as Hi. apply Hall; [done|lia| | |].
    + unfold ahead. cbn. lia.
    + unfold Done in Hd. change mapperShardCount with 256 in Hd. apply Z.leb_le in Hd. unfold ahead. lia.
    + intros o' Ho'. destruct (Hb o' Ho') as [k' Hk']. destruct (Hsim o' Ho') as [t' Hs']. rewrite (lookup_ids _ t') in Hk' by done.
      destruct (ids_slot _ _ _ _ Hs' Hk') as (jdx & Hjx & Ep & Hsl & _). pose proof (home_range k') as Hj. unfold maxIndex in *.
      apply pack_inj in Ep as [-> ->]; [|lia..]. by exists k'.
Qed.

(** ** Snapshots *)

(** The walk that collects the entries a snapshot holds. *)
Definition walk_entries m : list (MapperEntry (N:=N)) := Walk (fun id k l => (l ++ [mkEntry k id], true)) m [].

Lemma walk_entries_eq m : all_inv m -> walk_entries m = (fun p => mkEntry p.2 p.1) <$> all_entries m.
Proof.
  intros Hinv. unfold walk_entries, Walk. rewrite walk_shards_ok by (intros i Hi%elem_of_seqZ; apply (Hinv i); change mapperShardCount with 256 in Hi; lia).
  assert (forall es l, scan (fun id (k : N) l => (l ++ [mkEntry k id], true)) es l = (l ++ ((fun p => mkEntry p.2 p.1) <$> es), true)) as Hsc; [|by rewrite Hsc].
  induction es as [|p es IH]; intros l; cbn; [by rewrite app_nil_r|]. by rewrite IH, <- app_assoc.
Qed.

Lemma elem_of_all m t id k : sim m t -> (id, k) ∈ all_entries m <-> t_ids t !! k = Some id.
Proof.
  intros Hs. unfold all_entries. rewrite list_elem_of_bind. unfold shard_entries, entries. setoid_rewrite list_elem_of_omap. setoid_rewrite elem_of_seqZ.
  unfold entry. change mapperShardCount with 256. split.
  - intros (i & (idx & Hx & E) & Hi). destruct (slot (shards m i) idx) as [k'|] eqn:Esl; [|done]. cbn in E. injection E as <- ->.
    by apply (slot_ids m t i idx k Hs ltac:(lia) ltac:(lia)).
  - intros Hk. destruct (ids_slot m t k id Hs Hk) as (idx & Hx & -> & Hsl & He). pose proof (home_range k). exists (mapperShardFor k).
    split; [|lia]. exists idx. split; [lia|]. by rewrite Hsl.
Qed.

Lemma all_nodup m : all_inv m -> NoDup (all_entries m).*1.
Proof.
  intros Hinv. assert ((all_entries m).*1 = seqZ 0 256 ≫= shard_ids m) as ->.
  { unfold all_entries. change mapperShardCount with 256. generalize (seqZ 0 256). intros l. induction l as [|i l IH]; [done|].
    cbn [mbind list_bind]. rewrite fmap_app. f_equal. exact IH. }
  assert (forall l, NoDup l -> (forall i, i ∈ l -> 0 <= i < 256) -> NoDup (l ≫= shard_ids m)) as Hgen; [|apply Hgen; [apply NoDup_seqZ|intros i Hi%elem_of_seqZ; lia]].
  assert (forall i id, 0 <= i < 256 -> id ∈ shard_ids m i -> exists idx, 0 <= idx < 2 ^ 56 /\ id = packNodeID i idx) as Hform.
  { intros i id Hi (idx & Hx & -> & k & Hk)%elem_of_ids. exists idx. pose proof (slot_bound i (shards m i) idx k (Hinv i Hi) ltac:(lia) Hk). unfold maxIndex in *. split; [lia|done]. }
  induction l as [|i l IH]; intros Hnd Hl; [constructor|]. apply NoDup_cons in Hnd as [Hni Hnd]. cbn [mbind list_bind].
  apply NoDup_app. split; [apply ids_nodup; [apply Hl; left|lia|apply Hinv, Hl; left]|]. split; [|apply IH; [done|intros j Hj; apply Hl; by right]].
  intros id (idx & Hx & ->)%Hform Hin; [|apply Hl; left]. apply list_elem_of_bind in Hin as (j & Hj & Hjl).
  apply Hform in Hj as (jdx & Hjx & Ep); [|apply Hl; by right]. apply pack_inj in Ep as [-> _]; [done|apply Hl; left|done|apply Hl; by right|done].
Qed.

(** What a walk visits. *)
Lemma walk_bindings m t : sim m t -> NoDup (ID <$> walk_entries m) /\ forall k id, mkEntry k id ∈ walk_entries m <-> t_ids t !! k = Some id.
Proof.
  intros Hs. pose proof (sim_inv _ _ Hs) as Hinv. rewrite (walk_entries_eq m Hinv). split; [rewrite <- list_fmap_compose; apply (all_nodup m Hinv)|].
  intros k id. rewrite <- (elem_of_all m t id k Hs), list_elem_of_fmap. split; [intros ([id' k'] & E & Hx); by injection E as -> ->|intros Hx; by exists (id, k)].
Qed.

(** C22: after every such run keys and ids are in bijection: a key looks up as an id exactly
    when the id resolves to the key; the id names the shard the key hashes to, lies below
    the size [MaxNodeID] gives and is covered by a watermark taken then; resolving any
    id does not panic, and [Len] counts the keys.  [Walk] visits exactly the bindings that
    [Lookup] answers, each id once. *)
Theorem mapper_bijection (r : option R) (ops : list (op (N:=N))) :
  fits_run ops (SetIDReserver r NewMapper) = true ->
  exists m rs, run ops (SetIDReserver r NewMapper) = Some (m, rs) /\
    (forall id, 0 <= id < 2 ^ 64 -> exists o, Resolve id m = Some o /\ forall k, Lookup k m = Some id <-> o = Some k) /\
    (forall k id, Lookup k m = Some id -> 0 <= id < MaxNodeID m /\ MapperShardOf id = mapperShardFor k /\ Covers id (Watermark m) = true) /\
    (exists keys : gset N, Len m = Z.of_nat (size keys) /\ forall k, k ∈ keys <-> is_Some (Lookup k m)) /\
    NoDup (ID <$> walk_entries m) /\ (forall k id, mkEntry k id ∈ walk_entries m <-> Lookup k m = Some id).
Proof.
  intros Hf. destruct (run_start r ops Hf) as (m & rs & t & E & _ & Hs). exists m, rs. split; [done|].
  pose proof (fun k => lookup_ids m t k Hs) as Hl.
  assert (forall k id, t_ids t !! k = Some id -> exists idx, 0 <= id < 2 ^ 64 /\ unpackNodeID id = (mapperShardFor k, idx) /\
    idx < mark (shards m (mapperShardFor k))) as Hrange.
  { intros k id Hk. destruct (ids_slot _ _ _ _ Hs Hk) as (idx & Hx & -> & Hsl & He). exists idx. pose proof (home_range k).
    rewrite unpack_small by done. split; [|split; [done|unfold mark; lia]]. unfold maxIndex in Hx. rewrite pack_value by lia. lia. }
  split; [|split; [|split; [|split]]].
  - intros id Hid. destruct (resolve_ok m t id Hs Hid) as (o & Ho & Hk). exists o. split; [done|]. intros k. rewrite Hl. split.
    + intros E1. destruct o as [k'|]; [|by apply Hk in E1]. f_equal.
      destruct (ids_slot _ _ _ _ Hs E1) as (j & Hj & -> & Hsl & _). destruct (ids_slot _ _ _ _ Hs Hk) as (j' & Hj' & Ep & Hsl' & _).
      pose proof (home_range k). pose proof (home_range k'). unfold maxIndex in *. apply pack_inj in Ep as [Eh ->]; [|lia..].
      rewrite Eh in Hsl. congruence.
    + intros ->. done.
  - intros k id Hk. rewrite Hl in Hk. destruct (Hrange k id Hk) as (idx & Hid & Hu & Hm). destruct (max_ok m t Hs) as [Hmax _].
    split; [split; [lia|by apply (Hmax k)]|]. split; [by eapply shard_of_id|].
    rewrite (covers_ok m t id Hs Hid), Hu. cbn. rewrite (s_marks _ _ Hs) by apply home_range. by apply Z.ltb_lt.
  - exists (dom (t_ids t)). rewrite size_dom, (len_ok m t Hs). split; [done|]. intros k. rewrite Hl, elem_of_dom. done.
  - by eapply walk_bindings.
  - intros k id. rewrite Hl. by apply walk_bindings.
Qed.

Lemma fresh_shards (r : option R) (marks : option (Z -> Z)) : (forall i, 0 <= i < 256 -> 0 <= load_mark marks i) ->
  all_inv (SetIDReserver r (NewMapper (N:=N))) /\
  forall i, 0 <= i < 256 -> empty_shard (shards (SetIDReserver r (NewMapper (N:=N))) i) /\ 0 <= load_mark marks i.
Proof. intros Hm. split; [intros i Hi; by apply sim_new|]. intros i Hi. split; [done|auto]. Qed.

Lemma loaded_ids m marks es : kind m = detectKeyKind (N:=N) -> good_entries marks es -> Forall (fun e => is_id (ID e) = true /\ e_index e < maxIndex) es ->
  (forall i, 0 <= i < 256 -> loaded marks i (bucket es i) (shards m i)) ->
  exists t, sim m t /\ forall k id, t_ids t !! k = Some id <-> mkEntry k id ∈ es.
Proof.
  intros Hk [Hg _] Hes Hl. rewrite Forall_forall in Hes. destruct (inv_sim m) as [t Hs]; [intros i Hi; by apply (l_inv _ _ _ _ (Hl i Hi))|done|].
  exists t. split; [done|]. intros k id. rewrite (s_ids _ _ Hs). pose proof (home_range k) as Hi. rewrite (l_ids _ _ _ _ (Hl _ Hi)). unfold bucket. split.
  - intros (idx & Hin & ->). apply list_elem_of_fmap in Hin as (e & Ex & [Hsh Hin]%list_elem_of_filter). unfold e_slot in Ex. injection Ex as -> ->.
    destruct (Hes e Hin) as [Hid _]. destruct (entry_id_split e Hid) as [E _]. rewrite <- Hsh. change (unpackNodeID (ID e)).2 with (e_index e). rewrite <- E. by destruct e.
  - intros Hin. destruct (Hes _ Hin) as [Hid _]. destruct (entry_id_split _ Hid) as [E _]. destruct (Hg _ Hin) as [Hh _]. cbn [Key] in Hh. rewrite Hh in E. cbn [ID] in E.
    exists (e_index (mkEntry k id)). split; [|done]. apply list_elem_of_fmap. exists (mkEntry k id). split; [done|]. by apply list_elem_of_filter.
Qed.

Context (sort : list (Z * N) -> list (Z * N)) `{!SortLaws sort}.

(** C24: [LoadFrom] on an empty mapper returns without an error exactly when the entries are well-formed:
    each id names the shard its key hashes to and an index below that shard's mark when marks are
    given, and no id and no key occurs twice.  The mapper it leaves then
    binds exactly the entries, whatever their order, resolves every other id to nothing, and its next new key in a shard gets the mark given, or one past the
    highest index restored when that is larger. *)
Theorem load_exact (r : option R) (marks : option (Z -> Z)) (es : list (MapperEntry (N:=N))) :
  Forall (fun e => is_id (ID e) = true /\ e_index e < maxIndex) es -> (forall i, 0 <= i < 256 -> 0 <= load_mark marks i) ->
  exists m err, LoadFrom sort es marks (SetIDReserver r NewMapper) = Some (m, err) /\ (err = None <-> good_entries marks es) /\
    (err = None -> (forall k id, Lookup k m = Some id <-> mkEntry k id ∈ es) /\
      (forall id, 0 <= id < 2 ^ 64 -> exists o, Resolve id m = Some o /\ forall k, o = Some k <-> mkEntry k id ∈ es) /\
      (forall i, 0 <= i < 256 -> mark (shards m i) = Z.max (load_mark marks i) (index_top (bucket es i)))).
Proof.
  intros Hes Hm. destruct (fresh_shards r marks Hm) as [Hinv Hemp].
  destruct (load_from_ok sort marks es _ Hinv Hemp Hes) as (m & err & E & Hiff & Hres). exists m, err. split; [done|]. split; [done|].
  intros He. destruct (Hres He) as [Hk Hl]. destruct (loaded_ids m marks es Hk (proj1 Hiff He) Hes Hl) as (t & Hs & Hids).
  split; [intros k id; rewrite (lookup_ids m t k Hs); apply Hids|]. split; [|intros i Hi; apply (Hl i Hi)].
  intros id Hid. destruct (resolve_ok m t id Hs Hid) as (o & Ho & Hk'). exists o. split; [done|]. intros k. rewrite <- Hids.
  destruct o as [k'|]; [|split; [done|intros Hx; by apply Hk' in Hx]]. split; [intros Ek; by injection Ek as <-|]. intros Hx.
  f_equal. destruct (ids_slot _ _ _ _ Hs Hx) as (j & Hj & -> & Hsl & _). destruct (ids_slot _ _ _ _ Hs Hk') as (j' & Hj' & Ep & Hsl' & _).
  pose proof (home_range k). pose proof (home_range k'). unfold maxIndex in *. apply pack_inj in Ep as [Eh ->]; [|lia..]. rewrite Eh in Hsl. congruence.
Qed.

(** C23: a snapshot restores the mapper it was taken from: the entries [Walk] visits, in any order, loaded with the marks
    a watermark records, are accepted, and the new mapper looks up every key and resolves every
    id as the old one does, has the same marks, and gives the next new key the same id. *)
Theorem load_round_trip m (r : option R) (es : list (MapperEntry (N:=N))) : reached m -> es ≡ₚ walk_entries m ->
  exists m', LoadFrom sort es (Some (wm (Watermark m))) (SetIDReserver r NewMapper) = Some (m', None) /\
    (forall k, Lookup k m' = Lookup k m) /\ (forall id, 0 <= id < 2 ^ 64 -> Resolve id m' = Resolve id m) /\
    (forall k, fits (OpIntern k) m = true -> exists m1 m1' id created, InternNew k m = Some (m1, id, created) /\ InternNew k m' = Some (m1', id, created)).
Proof.
  intros [t Hs]%reached_sim Hp. pose proof (sim_inv _ _ Hs) as Hinv. rewrite (walk_entries_eq m Hinv) in Hp.
  assert (forall k id, mkEntry k id ∈ es <-> t_ids t !! k = Some id) as Hin.
  { intros k id. rewrite Hp, <- (walk_entries_eq m Hinv). by apply walk_bindings. }
  assert (forall e, e ∈ es -> exists idx, 0 <= idx < maxIndex /\ ID e = packNodeID (mapperShardFor (Key e)) idx /\ idx < mark (shards m (mapperShardFor (Key e)))) as Hform.
  { intros [k id] Hx%Hin. destruct (ids_slot _ _ _ _ Hs Hx) as (idx & Hr & -> & _ & He). exists idx. split; [done|]. split; [done|]. cbn. unfold mark. lia. }
  assert (Forall (fun e => is_id (ID e) = true /\ e_index e < maxIndex) es) as Hes.
  { apply Forall_forall. intros e Hx. destruct (Hform e Hx) as (idx & Hr & E & _). pose proof (home_range (Key e)). unfold e_index, is_id. rewrite E.
    rewrite unpack_small by done. unfold maxIndex in *. rewrite pack_value by lia. split; [apply andb_true_iff; split; [apply Z.leb_le|apply Z.ltb_lt]; lia|cbn; lia]. }
  assert (good_entries (Some (wm (Watermark m))) es) as Hg.
  { split; [|split].
    - intros e Hx. destruct (Hform e Hx) as (idx & Hr & E & Hm). pose proof (home_range (Key e)). unfold e_shard, e_index. rewrite E, unpack_small by done. done.
    - rewrite Hp, <- list_fmap_compose. apply (all_nodup m Hinv).
    - apply NoDup_fmap_2_strong.
      + intros [k id] [k' id'] Hx Hy E. cbn in E. subst k'. apply Hin in Hx, Hy. congruence.
      + rewrite Hp. apply NoDup_fmap; [intros [? ?] [? ?] E; by injection E as -> ->|]. eapply NoDup_fmap_1, (all_nodup m Hinv). }
  assert (forall i, 0 <= i < 256 -> 0 <= load_mark (Some (wm (Watermark m))) i) as Hm0 by (intros i Hi; cbn; eapply mark_nonneg; by apply Hinv).
  destruct (fresh_shards r _ Hm0) as [Hinv0 Hemp].
  destruct (load_from_ok sort _ es _ Hinv0 Hemp Hes) as (m' & err & E & Hiff & Hres). rewrite (proj2 Hiff Hg) in *. destruct (Hres eq_refl) as [Hk Hl].
  destruct (loaded_ids m' _ es Hk Hg Hes Hl) as (t' & Hs' & Hids). exists m'. split; [done|].
  assert (forall k, t_ids t' !! k = t_ids t !! k) as Heq by (intros k; apply option_eq; intros id; by rewrite Hids, Hin).
  assert (forall i, 0 <= i < 256 -> t_marks t' i = t_marks t i) as Hmarks.
  { intros i Hi. rewrite (s_marks _ _ Hs'), (s_marks _ _ Hs), (l_mark _ _ _ _ (Hl i Hi)) by done. cbn [load_mark wm Watermark]. apply Z.max_l.
    apply index_top_le; [eapply mark_nonneg; by apply Hinv|]. intros x Hx. unfold bucket in Hx. apply list_elem_of_fmap in Hx as (e & -> & [<- Hx]%list_elem_of_filter).
    destruct Hg as [Hg _]. destruct (Hg e Hx) as [_ Hlt]. change (e_index e < mark (shards m (e_shard e))) in Hlt.
    change (e_index e + 1 <= mark (shards m (e_shard e))). lia. }
  split; [intros k; by rewrite (lookup_ids m' t' k Hs'), (lookup_ids m t k Hs)|]. split.
  - intros id Hid. destruct (resolve_ok m t id Hs Hid) as (o & -> & Ho). destruct (resolve_ok m' t' id Hs' Hid) as (o' & -> & Ho'). f_equal.
    destruct o as [k|], o' as [k'|]; [|rewrite <- Heq in Ho; by apply Ho' in Ho|rewrite Heq in Ho'; by apply Ho in Ho'|done]. rewrite Heq in Ho'. f_equal.
    destruct (ids_slot _ _ _ _ Hs Ho) as (j & Hj & -> & Hsl & _). destruct (ids_slot _ _ _ _ Hs Ho') as (j' & Hj' & Ep & Hsl' & _).
    pose proof (home_range k). pose proof (home_range k'). unfold maxIndex in *. apply pack_inj in Ep as [Eh ->]; [|lia..]. rewrite Eh in Hsl. congruence.
  - intros k Hf. destruct (exec_step m t (OpIntern k) Hs Hf) as (m1 & r1 & t1 & E1 & Ht1 & _).
    assert (fits (OpIntern k) m' = true) as Hf'.
    { cbn [fits] in *. rewrite (lookup_ids m' t' k Hs'), Heq, <- (lookup_ids m t k Hs). pose proof (home_range k) as Hi.
      rewrite <- (s_marks _ _ Hs' _ Hi), Hmarks, (s_marks _ _ Hs _ Hi) by done. exact Hf. }
    destruct (exec_step m' t' (OpIntern k) Hs' Hf') as (m1' & r1' & t1' & E1' & Ht1' & _). cbn [exec] in E1, E1'.
    destruct (InternNew k m) as [[[x1 id] c]|]; cbn in E1; [|done]. destruct (InternNew k m') as [[[x1' id'] c']|]; cbn in E1'; [|done].
    injection E1 as <- <-. injection E1' as <- <-. pose proof (Heq k) as Hq.
    assert (t_new t' k = t_new t k) as En by (unfold t_new, t_next; by rewrite Hmarks by apply home_range).
    assert (id' = id /\ c' = c) as [-> ->] by (inversion Ht1; inversion Ht1'; subst; split; congruence). by eexists _, _, id, c.
Qed.
End runs.

(** ** Witnesses: a mapper of [int] keys with a reserver that reserves what it is asked for *)

#[export] Instance int_key : MapperKey Z :=
  {| key_kind _ := kindInt; key_int k := k; key_bytes _ := []; zeroKey := 0; addressDependent _ := false |}.
#[export] Instance int_key_laws : MapperKeyLaws Z.
Proof. by intros k _. Qed.

#[export] Instance exact_reserver : IDReserver unit := fun _ shard need r => (r, [(shard, need)]).
Definition sample_ops : list (op (N:=Z) (R:=unit)) :=
  let id := packNodeID (mapperShardFor 7) in
  [OpIntern 7; OpIntern 8; OpIntern 7; OpUnplace 7 (id 0); OpIntern 7; OpPlace 9 (packNodeID (mapperShardFor 9) 70);
   OpPlace 9 (packNodeID (mapperShardFor 9) 3); OpPlace 10 (packNodeID (mapperShardFor 10) 2); OpPlace 7 (packNodeID (mapperShardFor 9) 0);
   OpIntern 9; OpLookup 7; OpResolve (id 0); OpResolve (id 1); OpLen; OpMaxNodeID; OpCovers (id 5)].

Lemma mapper_refines_table_witness : exists m rs t, run sample_ops (SetIDReserver (Some tt) NewMapper) = Some (m, rs) /\
  truns empty_table sample_ops rs t /\ Lookup 7 m = t_ids t !! 7.
Proof.
  destruct (mapper_refines_table (Some tt) sample_ops) as (m & rs & t & E & Ht & Hl & _); [vm_compute; reflexivity|].
  exists m, rs, t. split; [exact E|]. split; [exact Ht|apply Hl].
Defined.

Lemma mapper_bijection_witness : exists m rs, run sample_ops (SetIDReserver (Some tt) NewMapper) = Some (m, rs) /\
  Lookup 7 m = Some (packNodeID (mapperShardFor 7) 1) /\ Resolve (packNodeID (mapperShardFor 7) 1) m = Some (Some 7) /\
  mkEntry 7 (packNodeID (mapperShardFor 7) 1) ∈ walk_entries m.
Proof.
  destruct (mapper_bijection (Some tt) sample_ops) as (m & rs & E & Hb & Hk & _ & _ & Hw); [vm_compute; reflexivity|].
  exists m, rs. split; [exact E|].
  assert (Lookup 7 m = Some (packNodeID (mapperShardFor 7) 1)) as Hl.
  { clear Hb Hk Hw. revert E. vm_compute. intros E. injection E as <- _. reflexivity. }
  split; [exact Hl|]. split; [|exact (proj2 (Hw 7 _) Hl)]. destruct (Hk _ _ Hl) as (Hr & _). destruct (Hb (packNodeID (mapperShardFor 7) 1)) as (o & Ho & Hiff); [vm_compute; split; congruence|].
  rewrite Ho. f_equal. apply Hiff. exact Hl.
Defined.

Lemma ids_never_reissued_witness : exists m rs, run sample_ops (SetIDReserver (Some tt) NewMapper) = Some (m, rs) /\ NoDup (created rs) /\ length (created rs) = 3%nat.
Proof.
  destruct (run sample_ops (SetIDReserver (Some tt) NewMapper)) as [[m rs]|] eqn:E; [|vm_compute in E; discriminate].
  exists m, rs. split; [reflexivity|]. split.
  - destruct (ids_never_reissued (Some tt) sample_ops [] m rs m []) as [Hn _]; [vm_compute; reflexivity|vm_compute; reflexivity|exact E|reflexivity|].
    rewrite app_nil_r in Hn. exact Hn.
  - revert E. vm_compute. intros E. injection E as _ <-. reflexivity.
Defined.

(** A mapper of two keys in one shard, and the scan of it in batches of one, before and after a third key is interned there. *)
Definition scan_ops : list (op (N:=Z) (R:=unit)) := [OpIntern 7; OpIntern 440].
Definition late_op : op (N:=Z) (R:=unit) := OpIntern 521.
Definition reach (ops : list op) : Mapper (N:=Z) (R:=unit) :=
  match run ops (SetIDReserver None NewMapper) with Some (m, _) => m | None => NewMapper end.

Lemma reach_reached ops : fits_run ops (SetIDReserver None NewMapper) = true -> reached (reach ops).
Proof.
  intros Hf. destruct (run_start None ops Hf) as (m & rs & t & E & _). exists None, ops, rs. split; [done|]. unfold reach. by rewrite E.
Qed.

(** Whether no shard has a tail. *)
Definition no_tails_b (m : Mapper (N:=Z) (R:=unit)) : bool := forallb (fun i => tailLen (shards m i) =? 0) (seqZ 0 256).
Lemma no_tails_b_ok m : no_tails_b m = true -> no_tails m.
Proof. unfold no_tails_b. rewrite forallb_forall. intros Hf i Hi. apply Z.eqb_eq, Hf, list_elem_of_In, elem_of_seqZ. lia. Qed.

Lemma append_ids_is_walk_witness : drain 4 (reach scan_ops) 1 (mkCursor 0 0) [] = Some (walk_ids (reach scan_ops)) /\ length (walk_ids (reach scan_ops)) = 2%nat.
Proof.
  assert (length (walk_ids (reach scan_ops)) = 2%nat) as Hl by (vm_compute; reflexivity). split; [|exact Hl].
  assert (4 = 2 + length (walk_ids (reach scan_ops)))%nat as -> by (rewrite Hl; reflexivity).
  refine (proj1 (append_ids_is_walk (reach scan_ops) 1 _ _) _); [apply reach_reached; vm_compute; reflexivity|lia|].
  apply no_tails_b_ok. vm_compute. reflexivity.
Defined.

(** The observations of a scan that sees the third key from its second turn in the shard on. *)
Definition sample_obs : list (Mapper (N:=Z) (R:=unit) * Z) :=
  replicate (S (Z.to_nat (mapperShardFor 7))) (reach scan_ops, 1) ++ replicate 258 (reach (scan_ops ++ [late_op]), 1).

Lemma interleaved_scan_witness : exists l c, turns sample_obs (mkCursor 0 0) [] = Some (l, c) /\ NoDup l /\ length l = 3%nat.
Proof.
  destruct (turns sample_obs (mkCursor 0 0) []) as [[l c]|] eqn:E; [|vm_compute in E; discriminate]. exists l, c. split; [reflexivity|].
  assert (length l = 3%nat /\ Done c = true) as [Hl Hd] by (revert E; vm_compute; intros E; injection E as <- <-; split; reflexivity).
  split; [|exact Hl]. apply (interleaved_scan sample_obs l c); [|exact E|exact Hd].
  unfold sample_obs. apply Forall_app. split; apply Forall_replicate;
    (split; [apply reach_reached; vm_compute; reflexivity|split; [apply no_tails_b_ok; vm_compute; reflexivity|cbn; lia]]).
Defined.

(** A scan in batches over a shard that has a tail: the limit reached in the reverse
    table, the source moves the cursor to the tail and the rest of the reverse table is never visited.
    Here three keys are bound, the third past a mark that recovery restored, and batches of one
    return two of them. *)
Lemma append_ids_skips : let sh := mapperShardFor 7 in let m := reach (scan_ops ++ [OpRestoreNext sh 200; late_op]) in
  walk_ids m = [packNodeID sh 0; packNodeID sh 1; packNodeID sh 200] /\
  drain 10 m 1 (mkCursor 0 0) [] = Some [packNodeID sh 0; packNodeID sh 200].
Proof. vm_compute. split; reflexivity. Qed.

(** A sort of a bucket. *)
#[export] Instance by_index_dec : RelDecision (by_index (N:=Z)).
Proof. intros x y. unfold by_index. apply _. Defined.
Definition sort_bucket : list (Z * Z) -> list (Z * Z) := merge_sort by_index.
#[export] Instance sort_bucket_laws : SortLaws sort_bucket.
Proof.
  split; intros b; [apply merge_sort_Permutation|]. apply Sorted_StronglySorted; [intros x y z; unfold by_index; lia|].
  apply Sorted_merge_sort. intros x y. unfold by_index. lia.
Qed.

Definition snapshot : list (MapperEntry (N:=Z)) := let sh := mapperShardFor 7 in [mkEntry 521 (packNodeID sh 90); mkEntry 7 (packNodeID sh 2)].

Lemma load_exact_witness : exists m, LoadFrom sort_bucket snapshot (Some (fun _ => 100)) (SetIDReserver (R:=unit) None NewMapper) = Some (m, None) /\
  Lookup 521 m = Some (packNodeID (mapperShardFor 7) 90) /\ mark (shards m (mapperShardFor 7)) = 100.
Proof.
  destruct (load_exact sort_bucket (R:=unit) None (Some (fun _ => 100)) snapshot) as (m & err & E & _ & Hres).
  - repeat constructor; vm_compute; reflexivity.
  - intros i _. cbn. lia.
  - assert (err = None) as -> by (revert E; vm_compute; intros E; injection E as _ <-; reflexivity).
    destruct (Hres eq_refl) as (Hl & _ & Hm). exists m. split; [exact E|]. split; [apply Hl; left|].
    rewrite Hm by (vm_compute; split; congruence). vm_compute. reflexivity.
Defined.

Lemma load_round_trip_witness : exists m', LoadFrom sort_bucket (rev (walk_entries (reach scan_ops))) (Some (wm (Watermark (reach scan_ops)))) (SetIDReserver (R:=unit) None NewMapper) = Some (m', None) /\
  forall k, Lookup k m' = Lookup k (reach scan_ops).
Proof.
  destruct (load_round_trip sort_bucket (reach scan_ops) None (rev (walk_entries (reach scan_ops)))) as (m' & E & Hl & _).
  - apply reach_reached. vm_compute. reflexivity.
  - symmetry. apply Permutation_rev.
  - exists m'. split; [exact E|exact Hl].
Defined.
