(* ===== verification/WalControl.v ===== *)
(** * The write-ahead log's container: control file, segment headers, control records (src/store/wal/control.go)

    The fixed-size codecs that identify a log and its segments, the names of segment
    files, and the control records that ride in frames: id reservations, the exact marks of a clean close and
    the seal of a legacy log.  File and directory operations are not modelled. *)

From Stdlib Require Import ZArith Lia.
From stdpp Require Import list_numbers.
From S2P Require Import Prelude Wire TxnCodec Wal.

Local Open Scope Z_scope.

(** ** The control file *)

Definition NoFramePos : Z := 2 ^ 64 - 1.
Definition ControlPrefixTruncated : Z := Z.shiftl 1 0.
Definition ControlLegacyV1Pending : Z := Z.shiftl 1 1.
Definition controlSize : nat := 64.
Definition controlVersion : Z := 1.
Definition segHeaderSize : nat := 32.
Definition segVersion : Z := 2.
Definition controlMagic : list Z := [0x47; 0x47; 0x43; 0x54].
Definition segmentMagic : list Z := [0x47; 0x47; 0x57; 0x53].

Record Control := mkControl {
  C_StoreID : Z;
  OldestRetainedPos : Z;
  PrevFramePosAtOR : Z;
  CheckpointRedoPos : Z;
  CreatedUnixNano : Z;
  Flags : Z;
}.

Definition control_body (c : Control) : list Z :=
  controlMagic ++ putLE 2 controlVersion ++ putLE 2 (Z.of_nat controlSize) ++ putLE 8 (C_StoreID c) ++ putLE 4 (Flags c) ++
  [0; 0; 0; 0] ++ putLE 8 (OldestRetainedPos c) ++ putLE 8 (PrevFramePosAtOR c) ++ putLE 8 (CheckpointRedoPos c) ++ putLE 8 (CreatedUnixNano c).
Definition encodeControl (c : Control) : list Z := control_body c ++ putLE 4 (crc_update 0 (control_body c)) ++ [0; 0; 0; 0].

Definition bytes_eqb (a b : list Z) : bool := bool_decide (a = b).

Definition decodeControl (b : list Z) : option Control :=
  if negb (length b =? controlSize)%nat || negb (bytes_eqb (slice 0 4 b) controlMagic) ||
     negb (le_at 4 6 b =? controlVersion) || negb (le_at 6 8 b =? Z.of_nat controlSize) ||
     negb (le_at 56 60 b =? crc_update 0 (slice 0 56 b)) then None
  else
    let c := mkControl (le_at 8 16 b) (le_at 24 32 b) (le_at 32 40 b) (le_at 40 48 b) (le_at 48 56 b) (le_at 16 20 b) in
    if C_StoreID c =? 0 then None else Some c.

(** ** Segment headers *)

Definition segment_body (storeID segNo : Z) : list Z :=
  segmentMagic ++ putLE 2 segVersion ++ putLE 2 (Z.of_nat segHeaderSize) ++ putLE 8 storeID ++ putLE 8 segNo ++ [0; 0; 0; 0].
Definition encodeSegmentHeader (storeID segNo : Z) : list Z :=
  segment_body storeID segNo ++ putLE 4 (crc_update 0 (segment_body storeID segNo)).

Definition decodeSegmentHeader (b : list Z) : option (Z * Z) :=
  if negb (length b =? segHeaderSize)%nat || negb (bytes_eqb (slice 0 4 b) segmentMagic) ||
     negb (le_at 4 6 b =? segVersion) || negb (le_at 6 8 b =? Z.of_nat segHeaderSize) ||
     negb (le_at 28 32 b =? crc_update 0 (slice 0 28 b)) then None
  else Some (le_at 8 16 b, le_at 16 24 b).

(** ** Segment names

    A name is the bytes of a string. *)

Definition segmentExt : list Z := [0x2E; 0x77; 0x61; 0x6C].
Definition hex_digit (d : Z) : Z := if d <? 10 then 0x30 + d else 0x61 + (d - 10).
(** [%016x] of a 64-bit number. *)
Fixpoint hex_digits (n : nat) (v : Z) : list Z :=
  match n with O => [] | S n => hex_digits n (v / 16) ++ [hex_digit (v mod 16)] end.
Definition segmentName (segNo : Z) : list Z := hex_digits 16 segNo ++ segmentExt.

Definition unhex (b : Z) : option Z :=
  if (0x30 <=? b) && (b <=? 0x39) then Some (b - 0x30)
  else if (0x61 <=? b) && (b <=? 0x66) then Some (b - 0x61 + 10)
  else if (0x41 <=? b) && (b <=? 0x46) then Some (b - 0x41 + 10)
  else None.
(** [strconv.ParseUint(s, 16, 64)] on sixteen characters, which cannot overflow. *)
Definition ParseUint16 (s : list Z) : option Z := foldl (fun a b => a ← a; d ← unhex b; Some (a * 16 + d)) (Some 0) s.

Definition CutSuffix (s suffix : list Z) : option (list Z) :=
  let n := (length s - length suffix)%nat in
  if (length suffix <=? length s)%nat && bytes_eqb (drop n s) suffix then Some (take n s) else None.

Definition parseSegmentName (name : list Z) : option Z :=
  base ← CutSuffix name segmentExt;
  if negb (length base =? 16)%nat then None else ParseUint16 base.

(** ** Control records *)

Definition ControlRecordTag : Z := 0xFC.
Definition CtlReserveIDs : Z := 1.
Definition CtlNextIDsExact : Z := 2.
Definition CtlLegacySeal : Z := 3.
Definition legacySealSize : nat := 18.
Definition ReserveIDsSize : nat := 11.
Definition idShards : nat := 256.

(** What a decoder makes of a payload: one of another kind, one of its kind that does not
    parse, or a record. *)
Inductive ctl (A : Type) := OtherKind | Corrupt | Record_ (a : A).
Arguments OtherKind {A}.
Arguments Corrupt {A}.
Arguments Record_ {A} a.

Definition is_kind (kind : Z) (payload : list Z) : bool :=
  match payload with t :: k :: _ => (t =? ControlRecordTag) && (k =? kind) | _ => false end.

Definition AppendReserveIDs (dst : list Z) (shard limit : Z) : list Z := dst ++ [ControlRecordTag; CtlReserveIDs; shard] ++ putLE 8 limit.
Definition DecodeReserveIDs (payload : list Z) : ctl (Z * Z) :=
  if negb (is_kind CtlReserveIDs payload) then OtherKind
  else if negb (length payload =? ReserveIDsSize)%nat then Corrupt
  else match payload with _ :: _ :: shard :: rest => Record_ (shard, getLE rest) | _ => Corrupt end.

Definition AppendNextIDsExact (dst next : list Z) : list Z :=
  foldl AppendUvarint (dst ++ [ControlRecordTag; CtlNextIDsExact]) next.

Fixpoint decode_marks (n : nat) (b : list Z) : option (list Z * list Z) :=
  match n with
  | O => Some ([], b)
  | S n => '(v, k) ← Uvarint b; '(vs, b) ← decode_marks n (drop k b); Some (v :: vs, b)
  end.
Definition DecodeNextIDsExact (payload : list Z) : ctl (list Z) :=
  if negb (is_kind CtlNextIDsExact payload) then OtherKind
  else match decode_marks idShards (drop 2 payload) with
  | Some (next, []) => Record_ next
  | _ => Corrupt
  end.

Record LegacySeal := mkSeal { SealStoreID : Z; V2StartPos : Z }.
#[export] Instance LegacySeal_eq_dec : EqDecision LegacySeal.
Proof. solve_decision. Defined.
Definition EncodeLegacySeal (s : LegacySeal) : list Z := [ControlRecordTag; CtlLegacySeal] ++ putLE 8 (SealStoreID s) ++ putLE 8 (V2StartPos s).
Definition DecodeLegacySeal (payload : list Z) : option LegacySeal :=
  if negb (length payload =? legacySealSize)%nat || negb (is_kind CtlLegacySeal payload) then None
  else Some (mkSeal (le_at 2 10 payload) (le_at 10 18 payload)).

(** ** Checksummed bodies *)

Lemma slice_whole (b : list Z) n : (length b = n)%nat -> slice 0 n b = b.
Proof. intros <-. unfold slice. rewrite drop_0, Nat.sub_0_r. apply firstn_all. Qed.

Lemma crc_u32 p : bytes p -> is_u32 (crc_update 0 p).
Proof. intros Hp. apply crc_update_range; [done|]. unfold is_u32. lia. Qed.

Lemma getLE_crc p : bytes p -> getLE (putLE 4 (crc_update 0 p)) = crc_update 0 p.
Proof. intros Hp. apply getLE_putLE. exact (crc_u32 p Hp). Qed.

(** One byte of a body or of its checksum changed: the checksum no longer fits. *)
Lemma corrupt_sum body pre b b' post : bytes body -> body ++ putLE 4 (crc_update 0 body) = pre ++ b :: post -> is_byte b' -> b <> b' ->
  getLE (drop (length body) (pre ++ b' :: post)) <> crc_update 0 (take (length body) (pre ++ b' :: post)).
Proof.
  intros Hb E Hb' Hne. assert (bytes (pre ++ b :: post)) as Hall by (rewrite <- E; apply Forall_app; auto with gograph).
  apply Forall_app in Hall as [Hpre Hpost]. apply Forall_cons in Hpost as [Hbb Hpost].
  destruct (Nat.lt_ge_cases (length pre) (length body)) as [Hlt|Hge].
  - assert (exists mid, body = pre ++ b :: mid /\ post = mid ++ putLE 4 (crc_update 0 body)) as (mid & Eb & Ep).
    { assert (take (length body) (pre ++ b :: post) = body) as Et by (rewrite <- E; apply take_app_length).
      exists (take (length body - S (length pre)) post). rewrite take_app, take_ge in Et by lia.
      destruct (length body - length pre)%nat as [|k] eqn:Ek; [lia|]. cbn [firstn] in Et. replace (length body - S (length pre))%nat with k by lia. split; [done|].
      assert (drop (length body) (pre ++ b :: post) = putLE 4 (crc_update 0 body)) as Ed by (rewrite <- E; apply drop_app_length).
      rewrite drop_app, drop_ge in Ed by lia. rewrite Ek in Ed. cbn [skipn app] in Ed. rewrite <- Ed. by rewrite take_drop. }
    assert (length (pre ++ b' :: mid) = length body) as El by (rewrite Eb, !length_app; done).
    rewrite Ep. assert (pre ++ b' :: mid ++ putLE 4 (crc_update 0 body) = (pre ++ b' :: mid) ++ putLE 4 (crc_update 0 body)) as -> by (by rewrite <- app_assoc).
    rewrite <- El, drop_app_length, take_app_length. rewrite getLE_crc by done. rewrite Eb. apply crc_one_byte; try done.
    rewrite Eb in Hb. apply Forall_app in Hb as [_ Hb]. by apply Forall_cons in Hb as [_ Hb].
  - assert (take (length body) (pre ++ b :: post) = body) as Et by (rewrite <- E; apply take_app_length).
    assert (drop (length body) (pre ++ b :: post) = putLE 4 (crc_update 0 body)) as Ed by (rewrite <- E; apply drop_app_length).
    rewrite take_app_le in Et by done. rewrite drop_app_le in Ed by done. rewrite take_app_le, drop_app_le by done. rewrite Et.
    set (d := drop (length body) pre) in *. intros Eg.
    assert (length (d ++ b' :: post) = 4%nat) as Hl4.
    { transitivity (length (d ++ b :: post)); [by rewrite !length_app|]. by rewrite Ed, length_putLE. }
    assert (bytes (d ++ b' :: post)) as Hbd by (apply Forall_app; split; [by apply Forall_drop|by constructor]).
    rewrite <- Eg, putLE_getLE in Ed by done. apply app_inv_head in Ed. injection Ed as ->. done.
Qed.

(** ** The properties *)

Definition control_ok (c : Control) : Prop :=
  0 < C_StoreID c < 2 ^ 64 /\ 0 <= OldestRetainedPos c < 2 ^ 64 /\ 0 <= PrevFramePosAtOR c < 2 ^ 64 /\
  0 <= CheckpointRedoPos c < 2 ^ 64 /\ 0 <= CreatedUnixNano c < 2 ^ 64 /\ 0 <= Flags c < 2 ^ 32.

Lemma bytes_control c : bytes (control_body c).
Proof. unfold control_body. repeat (apply Forall_app; split); auto with gograph; apply (bool_decide_unpack _); vm_compute; done. Qed.

Lemma bytes_segment i n : bytes (segment_body i n).
Proof. unfold segment_body. repeat (apply Forall_app; split); auto with gograph; apply (bool_decide_unpack _); vm_compute; done. Qed.

Lemma length_control c : length (control_body c) = 56%nat.
Proof. reflexivity. Qed.

Lemma length_segment i n : length (segment_body i n) = 28%nat.
Proof. reflexivity. Qed.

(** The decoders read the checksum after the body. *)
Lemma decodeControl_sum b : decodeControl b <> None -> length b = controlSize /\ getLE (take 4 (drop 56 b)) = crc_update 0 (take 56 b).
Proof.
  unfold decodeControl. destruct (_ || _) eqn:E; [done|]. intros _. rewrite !orb_false_iff, !negb_false_iff in E. destruct E as ((((E1 & _) & _) & _) & E2).
  apply Nat.eqb_eq in E1. apply Z.eqb_eq in E2. split; [done|]. exact E2.
Qed.

Lemma decodeSegment_sum b : decodeSegmentHeader b <> None -> length b = segHeaderSize /\ getLE (take 4 (drop 28 b)) = crc_update 0 (take 28 b).
Proof.
  unfold decodeSegmentHeader. destruct (_ || _) eqn:E; [done|]. intros _. rewrite !orb_false_iff, !negb_false_iff in E. destruct E as ((((E1 & _) & _) & _) & E2).
  apply Nat.eqb_eq in E1. apply Z.eqb_eq in E2. split; [done|]. exact E2.
Qed.

(** A field of an encoding. *)
Lemma le_field (i j n : nat) (b : list Z) z : slice i j b = putLE n z -> 0 <= z < width n -> le_at i j b = z.
Proof. intros E Hz. unfold le_at. rewrite E. by apply getLE_putLE. Qed.

Lemma decode_control_pad c pad : control_ok c \/ C_StoreID c = 0 -> length pad = 4%nat ->
  decodeControl (control_body c ++ putLE 4 (crc_update 0 (control_body c)) ++ pad) = (if C_StoreID c =? 0 then None else Some c).
Proof.
  intros Hc Hp. destruct pad as [|p0 [|p1 [|p2 [|p3 [|]]]]]; try done. clear Hp.
  set (b := control_body c ++ putLE 4 (crc_update 0 (control_body c)) ++ [p0; p1; p2; p3]). unfold decodeControl.
  assert (length b = controlSize) as Hl by done. rewrite Hl, Nat.eqb_refl.
  assert (slice 0 4 b = controlMagic) as -> by done. assert (le_at 4 6 b = controlVersion) as -> by done.
  assert (le_at 6 8 b = Z.of_nat controlSize) as -> by done. unfold bytes_eqb. rewrite bool_decide_true, !Z.eqb_refl by done. cbn [negb orb].
  assert (slice 0 56 b = control_body c) as -> by done.
  rewrite (le_field 56 60 4 _ (crc_update 0 (control_body c))); [|done|exact (crc_u32 _ (bytes_control c))].
  rewrite Z.eqb_refl. cbn [negb]. cbn zeta. cbn [C_StoreID].
  rewrite (le_field 8 16 8 _ (C_StoreID c)); [|done|destruct Hc as [Hc| ->]; [unfold control_ok in Hc; change (width 8) with (2 ^ 64); lia|done]].
  destruct (Z.eqb_spec (C_StoreID c) 0) as [|Hne]; [done|]. destruct Hc as [(H1 & H2 & H3 & H4 & H5 & H6)|]; [|done].
  rewrite (le_field 24 32 8 _ (OldestRetainedPos c)), (le_field 32 40 8 _ (PrevFramePosAtOR c)), (le_field 40 48 8 _ (CheckpointRedoPos c)),
    (le_field 48 56 8 _ (CreatedUnixNano c)), (le_field 16 20 4 _ (Flags c)) by done.
  by destruct c.
Qed.

Lemma decode_control_encode c : control_ok c \/ C_StoreID c = 0 -> decodeControl (encodeControl c) = (if C_StoreID c =? 0 then None else Some c).
Proof. intros Hc. by apply decode_control_pad. Qed.

Lemma decode_segment_encode i n : 0 <= i < 2 ^ 64 -> 0 <= n < 2 ^ 64 -> decodeSegmentHeader (encodeSegmentHeader i n) = Some (i, n).
Proof.
  intros Hi Hn. unfold decodeSegmentHeader.
  assert (length (encodeSegmentHeader i n) = segHeaderSize) as Hl by done. rewrite Hl, Nat.eqb_refl.
  assert (slice 0 4 (encodeSegmentHeader i n) = segmentMagic) as -> by done. assert (le_at 4 6 (encodeSegmentHeader i n) = segVersion) as -> by done.
  assert (le_at 6 8 (encodeSegmentHeader i n) = Z.of_nat segHeaderSize) as -> by done. unfold bytes_eqb. rewrite bool_decide_true, !Z.eqb_refl by done. cbn [negb orb].
  assert (slice 0 28 (encodeSegmentHeader i n) = segment_body i n) as -> by done.
  rewrite (le_field 28 32 4 _ (crc_update 0 (segment_body i n))); [|done|exact (crc_u32 _ (bytes_segment i n))].
  rewrite Z.eqb_refl. cbn [negb]. by rewrite (le_field 8 16 8 _ i), (le_field 16 24 8 _ n).
Qed.

(** C40: the control file and the segment headers: what is written is read back, a control file without a store id
    excepted.  The checked part, the first sixty bytes of a control file and the whole of a segment header,
    is refused when any one byte of it was changed to another value; the four
    padding bytes that end a control file are not read. *)
Theorem container_headers :
  (forall c, control_ok c -> length (encodeControl c) = controlSize /\ decodeControl (encodeControl c) = Some c) /\
  (forall c, C_StoreID c = 0 -> decodeControl (encodeControl c) = None) /\
  (forall c pre b b' post pad, control_body c ++ putLE 4 (crc_update 0 (control_body c)) = pre ++ b :: post -> is_byte b' -> b <> b' ->
    decodeControl (pre ++ b' :: post ++ pad) = None) /\
  (forall c pad, control_ok c -> length pad = 4%nat -> decodeControl (control_body c ++ putLE 4 (crc_update 0 (control_body c)) ++ pad) = Some c) /\
  (forall storeID segNo, 0 <= storeID < 2 ^ 64 -> 0 <= segNo < 2 ^ 64 ->
    length (encodeSegmentHeader storeID segNo) = segHeaderSize /\ decodeSegmentHeader (encodeSegmentHeader storeID segNo) = Some (storeID, segNo)) /\
  (forall storeID segNo pre b b' post, encodeSegmentHeader storeID segNo = pre ++ b :: post -> is_byte b' -> b <> b' ->
    decodeSegmentHeader (pre ++ b' :: post) = None).
Proof.
  split; [|split; [|split; [|split; [|split]]]].
  - intros c Hc. split; [done|]. rewrite decode_control_encode by auto. destruct (Z.eqb_spec (C_StoreID c) 0); [unfold control_ok in Hc; lia|done].
  - intros c Hc. rewrite decode_control_encode by auto. by rewrite Hc.
  - intros c pre b b' post pad E Hb' Hne. destruct (decodeControl _) eqn:Ed; [|done]. exfalso.
    destruct (decodeControl_sum (pre ++ b' :: post ++ pad)) as [_ Hs]; [by rewrite Ed|].
    apply (corrupt_sum (control_body c) pre b b' post (bytes_control c) E Hb' Hne). rewrite length_control.
    assert (length (pre ++ b' :: post) = 60%nat) as Hl by (transitivity (length (pre ++ b :: post)); [by rewrite !length_app|by rewrite <- E]).
    assert (pre ++ b' :: post ++ pad = (pre ++ b' :: post) ++ pad) as Ea by (by rewrite <- app_assoc). rewrite Ea in Hs.
    rewrite take_app_le in Hs by lia. rewrite drop_app_le in Hs by lia. rewrite take_app_le in Hs by (rewrite length_drop; lia).
    rewrite (take_ge (drop 56 _)) in Hs by (rewrite length_drop; lia). exact Hs.
  - intros c pad Hc Hp. rewrite decode_control_pad by auto. destruct (Z.eqb_spec (C_StoreID c) 0); [unfold control_ok in Hc; lia|done].
  - intros i n Hi Hn. split; [done|by apply decode_segment_encode].
  - intros i n pre b b' post E Hb' Hne. destruct (decodeSegmentHeader _) eqn:Ed; [|done]. exfalso.
    destruct (decodeSegment_sum (pre ++ b' :: post)) as [Hl Hs]; [by rewrite Ed|].
    apply (corrupt_sum (segment_body i n) pre b b' post (bytes_segment i n) E Hb' Hne). rewrite length_segment.
    rewrite (take_ge (drop 28 _)) in Hs by (rewrite length_drop, Hl; done). exact Hs.
Qed.

(** ** Names *)

Lemma unhex_digit d : 0 <= d < 16 -> unhex (hex_digit d) = Some d.
Proof. intros Hd. apply (small_range (fun d => unhex (hex_digit d) = Some d) 16); [vm_compute; reflexivity|done]. Qed.

Lemma parse_hex n : forall v, 0 <= v < 16 ^ Z.of_nat n -> ParseUint16 (hex_digits n v) = Some v.
Proof.
  induction n as [|n IH]; intros v Hv; cbn [hex_digits].
  - change (16 ^ Z.of_nat 0) with 1 in Hv. assert (v = 0) as -> by lia. done.
  - unfold ParseUint16. rewrite foldl_app. fold (ParseUint16 (hex_digits n (v / 16))). rewrite IH.
    + cbn [foldl mbind option_bind]. rewrite unhex_digit by (apply Z.mod_pos_bound; lia). cbn. f_equal. pose proof (Z.div_mod v 16). lia.
    + rewrite Nat2Z.inj_succ, Z.pow_succ_r in Hv by lia. split; [apply Z.div_pos; lia|apply Z.div_lt_upper_bound; lia].
Qed.

Lemma length_hex n v : length (hex_digits n v) = n.
Proof. revert v. induction n as [|n IH]; intros v; cbn [hex_digits]; [done|]. rewrite length_app, IH. cbn. lia. Qed.

Lemma parse_name n : 0 <= n < 2 ^ 64 -> parseSegmentName (segmentName n) = Some n.
Proof.
  intros Hn. unfold parseSegmentName, CutSuffix, segmentName. rewrite length_app, length_hex. change (length segmentExt) with 4%nat.
  change (16 + 4 - 4)%nat with 16%nat. rewrite drop_app_length', take_app_length' by (symmetry; apply length_hex).
  unfold bytes_eqb. rewrite bool_decide_true by done. cbn [Nat.leb Nat.add andb mbind option_bind]. rewrite length_hex. cbn [Nat.eqb negb].
  apply parse_hex. change (16 ^ Z.of_nat 16) with (2 ^ 64). done.
Qed.

(** ** Control records *)

Lemma put_uvarints next : forall dst, foldl AppendUvarint dst next = dst ++ (next ≫= put_uvarint MaxVarintLen64).
Proof.
  induction next as [|v next IH]; intros dst; cbn [foldl mbind list_bind]; [by rewrite app_nil_r|]. rewrite IH. unfold AppendUvarint. by rewrite <- app_assoc.
Qed.

Lemma decode_marks_put next rest : Forall (fun v => 0 <= v < 2 ^ 64) next ->
  decode_marks (length next) ((next ≫= put_uvarint MaxVarintLen64) ++ rest) = Some (next, rest).
Proof.
  induction 1 as [|v next Hv _ IH]; [done|]. cbn [length decode_marks].
  change ((v :: next) ≫= put_uvarint MaxVarintLen64) with (put_uvarint MaxVarintLen64 v ++ (next ≫= put_uvarint MaxVarintLen64)). rewrite <- app_assoc.
  destruct (Uvarint_put v ((next ≫= put_uvarint MaxVarintLen64) ++ rest) Hv) as [-> _]. cbn [mbind option_bind]. rewrite drop_app_length, IH. done.
Qed.

Definition is_mark (v : Z) : Prop := 0 <= v < 2 ^ 64.

Lemma decode_reserve shard limit : is_mark limit -> DecodeReserveIDs (AppendReserveIDs [] shard limit) = Record_ (shard, limit).
Proof. intros Hl. unfold DecodeReserveIDs. cbn -[putLE getLE]. rewrite length_putLE. cbn -[putLE getLE]. by rewrite getLE_putLE. Qed.

Lemma decode_exact next : length next = idShards -> Forall is_mark next -> DecodeNextIDsExact (AppendNextIDsExact [] next) = Record_ next.
Proof.
  intros Hl Hn. unfold DecodeNextIDsExact, AppendNextIDsExact. rewrite put_uvarints, <- Hl.
  change (drop 2 (([] ++ [ControlRecordTag; CtlNextIDsExact]) ++ (next ≫= put_uvarint MaxVarintLen64))) with (next ≫= put_uvarint MaxVarintLen64).
  change (is_kind CtlNextIDsExact (([] ++ [ControlRecordTag; CtlNextIDsExact]) ++ (next ≫= put_uvarint MaxVarintLen64))) with true. cbn [negb].
  pose proof (decode_marks_put next [] Hn) as E. rewrite app_nil_r in E. by rewrite E.
Qed.

(** the control records and the segment names are read back as they were written, each decoder
    takes the records of the other kinds for another kind, and a reservation or a
    list of marks followed by another byte does not parse. *)
Theorem control_records_round_trip :
  (forall shard limit, is_mark limit -> let p := AppendReserveIDs [] shard limit in
    DecodeReserveIDs p = Record_ (shard, limit) /\ DecodeNextIDsExact p = OtherKind /\ DecodeLegacySeal p = None /\
    forall x rest, DecodeReserveIDs (p ++ x :: rest) = Corrupt) /\
  (forall next, length next = idShards -> Forall is_mark next -> let p := AppendNextIDsExact [] next in
    DecodeNextIDsExact p = Record_ next /\ DecodeReserveIDs p = OtherKind /\ DecodeLegacySeal p = None /\
    forall x rest, DecodeNextIDsExact (p ++ x :: rest) = Corrupt) /\
  (forall s, 0 <= SealStoreID s < 2 ^ 64 -> 0 <= V2StartPos s < 2 ^ 64 -> let p := EncodeLegacySeal s in
    DecodeLegacySeal p = Some s /\ DecodeReserveIDs p = OtherKind /\ DecodeNextIDsExact p = OtherKind) /\
  (forall n, 0 <= n < 2 ^ 64 -> parseSegmentName (segmentName n) = Some n).
Proof.
  split; [|split; [|split]].
  - intros shard limit Hl. cbn zeta. split; [by apply decode_reserve|]. split; [done|]. split; [done|]. intros x rest.
    unfold DecodeReserveIDs. cbn -[putLE getLE]. rewrite length_app, length_putLE. cbn -[putLE getLE]. done.
  - intros next Hl Hn. cbn zeta. split; [by apply decode_exact|]. unfold AppendNextIDsExact. rewrite put_uvarints. split; [done|].
    split; [unfold DecodeLegacySeal; destruct (negb _); done|]. intros x rest. unfold DecodeNextIDsExact. rewrite <- app_assoc.
    change (is_kind CtlNextIDsExact (([] ++ [ControlRecordTag; CtlNextIDsExact]) ++ (next ≫= put_uvarint MaxVarintLen64) ++ x :: rest)) with true. cbn [negb].
    change (drop 2 (([] ++ [ControlRecordTag; CtlNextIDsExact]) ++ (next ≫= put_uvarint MaxVarintLen64) ++ x :: rest)) with ((next ≫= put_uvarint MaxVarintLen64) ++ x :: rest).
    by rewrite <- Hl, decode_marks_put.
  - intros s H1 H2. cbn zeta. split; [|done]. unfold DecodeLegacySeal.
    change (negb (length (EncodeLegacySeal s) =? legacySealSize)%nat || negb (is_kind CtlLegacySeal (EncodeLegacySeal s))) with false. cbn iota.
    rewrite (le_field 2 10 8 _ (SealStoreID s)), (le_field 10 18 8 _ (V2StartPos s)) by done. by destruct s.
  - apply parse_name.
Qed.

Definition sample_control : Control := mkControl 77 4096 NoFramePos 0 1700000000 3.

Lemma container_headers_witness : decodeControl (encodeControl sample_control) = Some sample_control /\
  decodeControl (control_body sample_control ++ putLE 4 (crc_update 0 (control_body sample_control)) ++ [1; 2; 3; 4]) = Some sample_control /\
  decodeSegmentHeader (encodeSegmentHeader 77 3) = Some (77, 3).
Proof.
  split; [|split].
  - apply (proj1 container_headers). repeat split; vm_compute; congruence.
  - apply (proj1 (proj2 (proj2 (proj2 container_headers)))); [repeat split; vm_compute; congruence|reflexivity].
  - apply (proj2 (proj2 (proj2 (proj2 container_headers)))); split; vm_compute; congruence.
Defined.

Lemma control_records_round_trip_witness : DecodeReserveIDs (AppendReserveIDs [] 5 64) = Record_ (5, 64) /\
  DecodeNextIDsExact (AppendNextIDsExact [] (replicate idShards 300)) = Record_ (replicate idShards 300).
Proof.
  split.
  - apply (proj1 control_records_round_trip). split; vm_compute; congruence.
  - apply (proj1 (proj2 control_records_round_trip)); [reflexivity|]. apply Forall_replicate. split; vm_compute; congruence.
Defined.
