(* ===== verification/IdReserve.v ===== *)
(** * Node id reservations and their replay (src/store/txn/idreserve.go, src/store/recovery/idreplay.go)

    The reserver a durable store installs in its mapper: a new id is issued only below a limit that a
    record in the write-ahead log covers, so that the marks recovery derives from the log
    never let an id be issued a second time.  The log writer is an interface: its
    buffering, framing and files are not modelled. *)

From Stdlib Require Import ZArith Lia.
From stdpp Require Import gmap list_numbers.
From S2P Require Import Prelude Csr Wire TxnCodec WalControl Mapper MapperFacts MapperTable MapperProps.

Local Open Scope Z_scope.

(** ** The log writer *)

(** What the reserver uses of [wal.Writer]: the checks and the rollover at the start of a run,
    the append of one payload inside it, and, for the statements, the payloads appended. *)
Class RunWriter (W : Type) := {
  run_starts : W -> W * bool;
  run_emit : list Z -> W -> W * bool;
  wal_log : W -> list (list Z);
}.

(** An append that succeeds adds the payload; one that fails leaves no whole frame. *)
Class RunWriterLaws (W : Type) `{!RunWriter W} := {
  starts_log w : wal_log (run_starts w).1 = wal_log w;
  emit_log p w : wal_log (run_emit p w).1 = if (run_emit p w).2 then wal_log w ++ [p] else wal_log w;
}.

Section reserve.
Context {W : Type} `{!RunWriter W}.

(** [AppendRun]: the callback runs when the run starts; [None] is an error of either. *)
Definition AppendRun {A} (fn : W -> W * option A) (w : W) : W * option A :=
  let '(w, ok) := run_starts w in if (ok : bool) then fn w else (w, None).

(** ** The reserver *)

Definition DefaultIDBatch : Z := 64.
Definition MaxIDBatch : Z := 65536.

Record idReserver := mkReserver { wlog : W; batch : Z -> Z; closed : bool }.
Definition newIDReserver (w : W) : idReserver := mkReserver w (fun _ => 0) false.

Definition batchOf (r : idReserver) (shard : Z) : Z := if negb (batch r shard =? 0) then batch r shard else DefaultIDBatch.

(** The publications of [fail]: every shard unlimited. *)
Definition fail_ : list (Z * Z) := (fun s => (s, MaxUint64)) <$> seqZ 0 mapperShardCount.

Definition reserve_run (lim : Z -> Z) (shard need : Z) (r : idReserver) (w : W) : W * option ((Z -> Z) * list (Z * Z)) :=
  if need <=? lim shard then (w, Some (batch r, []))
  else
    let k := batchOf r shard in
    let limit := u64 (need + k) in
    let '(w, ok) := run_emit (AppendReserveIDs [] (u8 shard) limit) w in
    if (ok : bool) then (w, Some (if k <? MaxIDBatch then <[shard := Z.min (2 * k) MaxIDBatch]> (batch r) else batch r, [(shard, limit)]))
    else (w, None).

#[export] Instance idReserver_ReserveIDs : IDReserver idReserver := fun lim shard need r =>
  let '(w, res) := AppendRun (reserve_run lim shard need r) (wlog r) in
  match res with
  | Some (b, pubs) => (mkReserver w b (closed r), pubs)
  | None => (mkReserver w (batch r) (closed r), fail_)
  end.

(** [close], given the marks of the mapper; the flag is false on an append error. *)
Definition close (marks : list Z) (r : idReserver) : idReserver * bool :=
  if closed r then (r, true)
  else
    let '(w, res) := AppendRun (fun w => let '(w, ok) := run_emit (AppendNextIDsExact [] marks) w in (w, if (ok : bool) then Some tt else None)) (wlog r) in
    (mkReserver w (batch r) true, match res with Some _ => true | None => false end).

(** ** The replay *)

Record idReplay := mkReplay { cur : Z -> Z; bound : Z -> Z; seen : Z -> bool }.

Section mapper.
Context {N : Type} `{Countable N} `{!MapperKey N} {R : Type} `{!IDReserver R}.

Definition newIDReplay (m : Mapper (N:=N) (R:=R)) (base : option (Z -> Z)) : idReplay :=
  let cur := fun i => match base with Some b => Z.max (wm (Watermark m) i) (b i) | None => wm (Watermark m) i end in
  mkReplay cur cur (fun _ => false).

(** [apply]: the marks restored shard by shard. *)
Definition apply (ir : idReplay) (m : Mapper (N:=N) (R:=R)) : option Mapper :=
  foldl (fun o i => m ← o; RestoreNext i (cur ir i) m) (Some m) (seqZ 0 mapperShardCount).
End mapper.

Definition reserve (shard limit : Z) (ir : idReplay) : idReplay :=
  mkReplay (<[shard := Z.max (cur ir shard) limit]> (cur ir)) (<[shard := Z.max (bound ir shard) limit]> (bound ir)) (<[shard := true]> (seen ir)).

(** Over the 256 marks of the record. *)
Definition exact (next : list Z) (crossed : bool) (ir : idReplay) : idReplay :=
  mkReplay (fun i => match aget next i with Some v => if crossed then v else Z.max (cur ir i) v | None => cur ir i end)
    (fun i => match aget next i with Some v => Z.max (bound ir i) v | None => bound ir i end)
    (fun i => match aget next i with Some _ => true | None => seen ir i end).

(** The annex check; true is [ErrIDBeyondReservation]. *)
Definition check (id : Z) (ir : idReplay) : bool :=
  let shard := MapperShardOf id in
  let idx := Z.shiftr id 8 in
  seen ir shard && (bound ir shard <=? idx).

(** What the replay loop makes of one payload, given whether the redo position has been crossed; [None] stops
    the replay on a control record that does not parse or is of no known kind, and a payload that is no control record is left to the
    rest of the replay. *)
Definition replay_payload (crossed : bool) (p : list Z) (ir : idReplay) : option idReplay :=
  match DecodeReserveIDs p with
  | Record_ (shard, limit) => Some (reserve shard limit ir)
  | Corrupt => None
  | OtherKind =>
      match DecodeNextIDsExact p with
      | Record_ next => Some (exact next crossed ir)
      | Corrupt => None
      | OtherKind =>
          if match p with b :: _ => (b =? ControlRecordTag) && bool_decide (DecodeLegacySeal p = None) | [] => false end then None else Some ir
      end
  end.
Definition replay_ids (frames : list (list Z * bool)) (ir : idReplay) : option idReplay :=
  foldl (fun ir f => ir ← ir; replay_payload f.2 f.1 ir) (Some ir) frames.
End reserve.
Arguments idReserver W : clear implicits.

(** ** Limits *)

Lemma raise_ge pubs : forall lim i, lim i <= foldl raise_limit lim pubs i.
Proof.
  induction pubs as [|[s x] pubs IH]; intros lim i; cbn [foldl]; [lia|]. etransitivity; [|apply IH]. unfold raise_limit. cbn [fst snd].
  rewrite fn_insert_dec. case_decide; [subst|]; lia.
Qed.

Lemma raise_in pubs : forall lim i x, (i, x) ∈ pubs -> x <= foldl raise_limit lim pubs i.
Proof.
  induction pubs as [|[s y] pubs IH]; intros lim i x Hin; [by apply not_elem_of_nil in Hin|]. cbn [foldl]. apply elem_of_cons in Hin as [E|Hin]; [|by apply IH].
  injection E as -> ->. etransitivity; [|apply raise_ge]. unfold raise_limit. cbn [fst snd]. rewrite fn_insert_eq. lia.
Qed.

(** A limit raised is the one before or one that was published. *)
Lemma raise_from pubs : forall lim i, foldl raise_limit lim pubs i = lim i \/ (i, foldl raise_limit lim pubs i) ∈ pubs.
Proof.
  induction pubs as [|[s y] pubs IH]; intros lim i; cbn [foldl]; [by left|]. destruct (IH (raise_limit lim (s, y)) i) as [->|Hin]; [|right; by right].
  unfold raise_limit. cbn [fst snd]. rewrite fn_insert_dec. case_decide as E; [subst s|by left].
  destruct (Z.max_spec (lim i) y) as [[_ ->]|[_ ->]]; [right; left|by left].
Qed.

Lemma elem_of_fail i x : (i, x) ∈ fail_ <-> 0 <= i < 256 /\ x = MaxUint64.
Proof.
  unfold fail_. rewrite list_elem_of_fmap. setoid_rewrite elem_of_seqZ. change mapperShardCount with 256.
  split; [intros (s & E & Hs); injection E as -> ->; split; [lia|done]|intros [Hi ->]; exists i; split; [done|lia]].
Qed.

Section laws.
Context {W : Type} `{!RunWriter W} `{!RunWriterLaws W}.
Implicit Types (r : idReserver W) (w : W).

Definition batch_ok r : Prop := forall s, 0 <= batch r s <= MaxIDBatch.

Lemma batchOf_range r s : batch_ok r -> 1 <= batchOf r s <= MaxIDBatch.
Proof.
  intros Hr. specialize (Hr s). unfold batchOf, DefaultIDBatch, MaxIDBatch in *. destruct (Z.eqb_spec (batch r s) 0); cbn; lia.
Qed.

(** What one call does: nothing, a failure that lifts every limit, or one record and its publication. *)
Lemma reserve_cases lim shard need r : batch_ok r -> 0 <= shard < mapperShardCount -> 0 <= need <= 2 ^ 56 ->
  let '(r', pubs) := ReserveIDs lim shard need r in batch_ok r' /\ closed r' = closed r /\
  ((pubs = [] /\ need <= lim shard /\ wal_log (wlog r') = wal_log (wlog r)) \/
   (pubs = fail_ /\ wal_log (wlog r') = wal_log (wlog r)) \/
   exists limit, need < limit < 2 ^ 63 /\ pubs = [(shard, limit)] /\ wal_log (wlog r') = wal_log (wlog r) ++ [AppendReserveIDs [] shard limit]).
Proof.
  intros Hr Hs Hn. unfold ReserveIDs, idReserver_ReserveIDs, AppendRun. pose proof (starts_log (wlog r)) as Hst.
  destruct (run_starts (wlog r)) as [w1 ok1]. cbn [fst] in Hst. destruct ok1; [|split; [done|]; split; [done|]; right; by left].
  unfold reserve_run. destruct (Z.leb_spec need (lim shard)); [split; [done|]; split; [done|]; by left|].
  pose proof (batchOf_range r shard Hr) as Hb. unfold MaxIDBatch in Hb. rewrite u64_small by lia.
  change mapperShardCount with 256 in Hs. assert (u8 shard = shard) as -> by (apply Z.mod_small; lia).
  pose proof (emit_log (AppendReserveIDs [] shard (need + batchOf r shard)) w1) as Hem. destruct (run_emit _ w1) as [w2 ok2]. cbn [fst snd] in Hem.
  destruct ok2.
  - split; [|split; [done|]; right; right; exists (need + batchOf r shard); split; [lia|]; split; [done|]; cbn; by rewrite Hem, Hst].
    intros s. cbn. destruct (batchOf r shard <? MaxIDBatch); [|apply Hr]. rewrite fn_insert_dec. case_decide; [unfold MaxIDBatch; lia|apply Hr].
  - split; [done|]. split; [done|]. right. left. split; [done|]. cbn. by rewrite Hem.
Qed.

#[export] Instance idReserver_laws : IDReserverLaws (idReserver W).
Proof.
  unshelve refine (Build_IDReserverLaws _ _ batch_ok _ _).
  - intros lim shard need r Hr Hs Hn. pose proof (reserve_cases lim shard need r Hr Hs Hn) as Hc. destruct (ReserveIDs lim shard need r) as [r' pubs]. exact (proj1 Hc).
  - intros lim shard need r Hr Hs Hn. pose proof (reserve_cases lim shard need r Hr Hs Hn) as Hc. destruct (ReserveIDs lim shard need r) as [r' pubs].
    cbn [snd]. destruct Hc as (_ & _ & [(-> & Hle & _)|[(-> & _)|(limit & Hl & -> & _)]]).
    + done.
    + change mapperShardCount with 256 in Hs. etransitivity; [|apply (raise_in fail_ lim shard MaxUint64), elem_of_fail; done]. unfold MaxUint64. lia.
    + etransitivity; [|apply (raise_in _ lim shard limit); left]. lia.
Defined.
End laws.

(** ** Sessions

    A session is a run on a mapper of a store: the reserver installed, ids interned and given
    back, nothing else touching the limits or the marks. *)

Section session.
Context {N : Type} `{Countable N} `{!MapperKey N} `{!MapperKeyLaws N} {W : Type} `{!RunWriter W} `{!RunWriterLaws W}.
Implicit Types (m : Mapper (N:=N) (R:=idReserver W)) (r : idReserver W) (w : W) (i idx id : Z).

Definition session_op (o : op (N:=N) (R:=idReserver W)) : bool :=
  match o with OpRestoreNext _ _ | OpPublish _ _ | OpSetReserver _ => false | _ => true end.

(** The payloads the mapper's reserver has appended. *)
Definition log_of m : list (list Z) := match reserver m with Some r => wal_log (wlog r) | None => [] end.

(** The reservations a log holds. *)
Definition reservations (log : list (list Z)) : list (Z * Z) := omap (fun p => match DecodeReserveIDs p with Record_ x => Some x | _ => None end) log.

(** The session's part of the log is reservations, and every limit is one of them, zero, or unlimited. *)
Record session (log0 : list (list Z)) m (r : idReserver W) (new : list (list Z)) : Prop := {
  ss_reserver : reserver m = Some r;
  ss_ok : batch_ok r;
  ss_log : wal_log (wlog r) = log0 ++ new;
  ss_new p : p ∈ new -> exists s l, 0 <= s < 256 /\ is_mark l /\ p = AppendReserveIDs [] s l;
  ss_limit i : 0 <= i < 256 -> idLimit m i = 0 \/ idLimit m i = MaxUint64 \/ (i, idLimit m i) ∈ reservations new;
}.

Lemma limits_kept o m m' x : exec o m = Some (m', x) -> session_op o = true -> (forall k, o <> OpIntern k) ->
  reserver m' = reserver m /\ idLimit m' = idLimit m.
Proof.
  intros E Hs Hne. destruct o as [k|k|id|k id|k id| | |id|i nx|i l|r]; cbn [exec session_op] in E, Hs; try done.
  - by destruct (Hne k).
  - by injection E as <- <-.
  - destruct (Resolve id m); cbn in E; [|done]. by injection E as <- <-.
  - unfold Unplace in E. destruct (unpackNodeID id) as [i idx]. destruct (negb _); cbn in E; [by injection E as <- <-|].
    destruct (unplace_shard _ _) as [[s ok]|]; cbn in E; [|done]. destruct (negb ok); cbn in E; by injection E as <- <-.
  - unfold PlaceUnborn in E. destruct (unpackNodeID id) as [i idx]. destruct (negb _); cbn in E; [by injection E as <- <-|].
    destruct (forward _ !! k); cbn in E; [by injection E as <- <-|]. destruct (place_shard _ _ _) as [[e|s]|]; cbn in E; [..|done]; by injection E as <- <-.
  - by injection E as <- <-.
  - by injection E as <- <-.
  - by injection E as <- <-.
Qed.

(** The limits after the reserver was asked. *)
Lemma reserved_session log0 m r new i idx : session log0 m r new -> 0 <= i < 256 -> 0 <= idx < maxIndex ->
  exists r' new', session log0 (reserved m i idx) r' (new ++ new') /\ (forall j, idLimit m j <= idLimit (reserved m i idx) j) /\ idx < idLimit (reserved m i idx) i.
Proof.
  intros [Hres Hok Hlog Hnew Hlim] Hi Hx. unfold reserved. rewrite Hres. destruct (Z.leb_spec (idLimit m i) idx) as [Hle|Hgt].
  2:{ exists r, []. rewrite app_nil_r. split; [by split|]. split; [done|done]. }
  unfold maxIndex in Hx. pose proof (reserve_cases (idLimit m) i (idx + 1) r Hok Hi ltac:(lia)) as Hc.
  pose proof (reserve_covers (idLimit m) i (idx + 1) r Hok Hi ltac:(lia)) as Hcov. destruct (ReserveIDs (idLimit m) i (idx + 1) r) as [r' pubs]. cbn [snd] in Hcov.
  destruct Hc as (Hok' & _ & Hcase). set (m0 := mkMapper _ _ _ _).
  destruct (publish_all pubs m0) as (_ & _ & Er & El). cbn [idLimit m0] in El.
  assert (forall j, idLimit m j <= idLimit (foldl publish m0 pubs) j) as Hmono by (intros j; rewrite El; apply raise_ge).
  assert (idx < idLimit (foldl publish m0 pubs) i) as Hlt by (rewrite El; cbn; lia).
  exists r'. destruct Hcase as [(-> & _ & Hw)|[(-> & Hw)|(limit & Hl & -> & Hw)]].
  - exists []. rewrite app_nil_r. split; [|split; [exact Hmono|exact Hlt]]. split; [exact Er|exact Hok'|by rewrite Hw|exact Hnew|]. intros j Hj. rewrite El. by apply Hlim.
  - exists []. rewrite app_nil_r. split; [|split; [exact Hmono|exact Hlt]]. split; [exact Er|exact Hok'|by rewrite Hw|exact Hnew|]. intros j Hj. rewrite El. right. left.
    assert (MaxUint64 <= foldl raise_limit (idLimit m) fail_ j) as H1 by (apply raise_in, elem_of_fail; split; [exact Hj|reflexivity]).
    destruct (raise_from fail_ (idLimit m) j) as [E|E]; [|by apply elem_of_fail in E as [_ E]]. rewrite E in *.
    destruct (Hlim j Hj) as [E2|[E2|E2]]; [unfold MaxUint64 in *; lia|done|]. apply Z.le_antisymm; [|done].
    unfold reservations in E2. apply list_elem_of_omap in E2 as (p & Hp & Ep). destruct (Hnew p Hp) as (s & l & _ & Hml & ->). rewrite decode_reserve in Ep by done.
    injection Ep as _ <-. unfold is_mark in Hml. unfold MaxUint64. lia.
  - exists [AppendReserveIDs [] i limit]. split; [|split; [exact Hmono|exact Hlt]]. split; [exact Er|exact Hok'|by rewrite Hw, Hlog, app_assoc| |].
    + intros p [Hp|Hp]%elem_of_app; [by apply Hnew|]. apply list_elem_of_singleton in Hp as ->. exists i, limit. split; [done|]. split; [unfold is_mark; lia|done].
    + intros j Hj. rewrite El. destruct (raise_from [(i, limit)] (idLimit m) j) as [->|E].
      * destruct (Hlim j Hj) as [|[|Hin]]; [by left|by right; left|right; right]. unfold reservations in *. rewrite omap_app. apply elem_of_app. by left.
      * right. right. apply list_elem_of_singleton in E. assert (j = i /\ foldl raise_limit (idLimit m) [(i, limit)] j = limit) as [-> ->] by (injection E as E1 E2; split; assumption).
        unfold reservations. rewrite omap_app. apply elem_of_app. right.
        cbn [omap list_omap]. rewrite decode_reserve by (unfold is_mark; lia). left.
Qed.

Lemma session_run ops : forall log0 m t r new m' rs, sim m t -> session log0 m r new -> fits_run ops m = true -> forallb session_op ops = true ->
  run ops m = Some (m', rs) -> exists t' r' new', sim m' t' /\ session log0 m' r' (new ++ new') /\ (forall i, idLimit m i <= idLimit m' i) /\
    forall id, id ∈ created rs -> exists i idx, 0 <= i < 256 /\ 0 <= idx < maxIndex /\ id = packNodeID i idx /\ idx < idLimit m' i.
Proof.
  induction ops as [|o ops IH]; intros log0 m t r new m' rs Hs Hss Hf Hop E; cbn [run fits_run forallb] in *.
  { injection E as <- <-. exists t, r, []. rewrite app_nil_r. split; [done|]. split; [done|]. split; [done|]. by intros id ?%not_elem_of_nil. }
  apply andb_true_iff in Hf as [Hf Hfs]. apply andb_true_iff in Hop as [Hop Hops].
  destruct (exec_step m t o Hs Hf) as (m1 & x & t1 & E1 & Ht & Hs1). rewrite E1 in E, Hfs. cbn [mbind option_bind] in E.
  destruct (run ops m1) as [[m2 rs2]|] eqn:E2; cbn in E; [|done]. injection E as <- <-.
  assert (exists r1 new1, session log0 m1 r1 (new ++ new1) /\ (forall i, idLimit m i <= idLimit m1 i) /\
    match x with RIntern id true => exists i idx, 0 <= i < 256 /\ 0 <= idx < maxIndex /\ id = packNodeID i idx /\ idx < idLimit m1 i | _ => True end) as (r1 & new1 & Hss1 & Hm1 & Hx).
  { assert ((exists k, o = OpIntern k) \/ forall k, o <> OpIntern k) as [[k ->]|Hne] by (destruct o; (by right) || (left; by eexists)).
    - cbn [fits exec] in Hf, E1. assert (is_Some (t_ids t !! k) \/ t_marks t (mapperShardFor k) < maxIndex) as Hfit.
      { apply orb_true_iff in Hf as [Hf%bool_decide_eq_true|Hf%Z.ltb_lt]; [left; by rewrite <- (lookup_ids m t k Hs)|right].
        rewrite (s_marks _ _ Hs); [done|apply home_range]. }
      pose proof (intern_ok None m t k tt Hs Hfit) as Hi. unfold InternNew in E1. destruct (t_ids t !! k) as [id|] eqn:Ek.
      + rewrite Hi in E1. cbn in E1. injection E1 as <- <-. exists r, []. by rewrite app_nil_r.
      + destruct Hi as (s' & Ei & _ & _). rewrite Ei in E1. cbn in E1. injection E1 as <- <-. pose proof (home_range k) as Hk. destruct Hfit as [[? ?]|Hfit]; [done|].
        assert (0 <= t_next t k) as H0 by (unfold t_next; rewrite (s_marks _ _ Hs) by done; eapply mark_nonneg; by apply Hs).
        destruct (reserved_session log0 m r new (mapperShardFor k) (t_next t k) Hss Hk (conj H0 Hfit)) as (r' & new' & Hss' & Hmono & Hlt).
        exists r', new'. split; [destruct Hss'; by split|]. split; [exact Hmono|]. exists (mapperShardFor k), (t_next t k). done.
    - destruct (limits_kept o m m1 x E1 Hop Hne) as [Er El]. exists r, []. rewrite app_nil_r, El. split; [|split; [done|]].
      + destruct Hss as [H1 H2 H3 H4 H5]. split; [by rewrite Er|done|done|done|]. intros i Hi. rewrite El. by apply H5.
      + destruct Ht; try done. by destruct (Hne k). }
  destruct (IH log0 m1 t1 r1 (new ++ new1) m2 rs2 Hs1 Hss1 Hfs Hops E2) as (t' & r' & new' & Hs' & Hss' & Hm2 & Hid).
  exists t', r', (new1 ++ new'). rewrite app_assoc. split; [done|]. split; [done|]. split; [intros i; etransitivity; [apply Hm1|apply Hm2]|].
  intros id Hin. destruct x as [id' [|]| | | | | |]; try by apply Hid.
  change (created (RIntern id' true :: rs2)) with (id' :: created rs2) in Hin. apply elem_of_cons in Hin as [->|Hin]; [|by apply Hid].
  destruct Hx as (i & idx & Hi & Hxr & -> & Hlt). exists i, idx. specialize (Hm2 i). repeat split; try done; lia.
Qed.
End session.

(** ** Replays *)

Lemma foldl_bind {A B} (f : A -> B -> option B) l : forall b, foldl (fun b a => b ← b; f a b) b l = (b ← b; foldl (fun b a => b ← b; f a b) (Some b) l).
Proof.
  induction l as [|a l IH]; intros b; cbn; [by destruct b|]. rewrite IH. destruct b as [b|]; cbn; [|done]. by rewrite <- IH.
Qed.

Lemma replay_cons f fs ir : replay_ids (f :: fs) ir = (ir ← replay_payload f.2 f.1 ir; replay_ids fs ir).
Proof. unfold replay_ids. cbn [foldl]. by rewrite (foldl_bind (fun f ir => replay_payload f.2 f.1 ir)). Qed.

Lemma replay_app fs gs ir : replay_ids (fs ++ gs) ir = (ir ← replay_ids fs ir; replay_ids gs ir).
Proof. unfold replay_ids. rewrite foldl_app. apply (foldl_bind (fun f ir => replay_payload f.2 f.1 ir)). Qed.

(** A payload the replay goes past. *)
Definition parses (p : list Z) : Prop := bytes p /\ replay_payload false p (mkReplay (fun _ => 0) (fun _ => 0) (fun _ => false)) <> None.

Definition nonneg (ir : idReplay) : Prop := forall i, 0 <= i < 256 -> 0 <= cur ir i.

Lemma uvarint_loop_nonneg b : forall i x s v n, uvarint_loop i x s b = Some (v, n) -> 0 <= v.
Proof.
  induction b as [|c b IH]; intros i x s v n E; cbn [uvarint_loop] in E; [done|]. case_bool_decide; [done|]. destruct (c <? 128).
  - destruct (_ && _); [done|]. injection E as <- _. apply Z.mod_pos_bound. lia.
  - by apply IH in E.
Qed.

Lemma decode_marks_nonneg n : forall b vs rest, decode_marks n b = Some (vs, rest) -> Forall (fun v => 0 <= v) vs.
Proof.
  induction n as [|n IH]; intros b vs rest E; cbn [decode_marks] in E; [injection E as <- _; constructor|].
  destruct (Uvarint b) as [[v k]|] eqn:Eu; cbn in E; [|done]. destruct (decode_marks n _) as [[vs' b']|] eqn:Em; cbn in E; [|done]. injection E as <- _.
  constructor; [by eapply uvarint_loop_nonneg|by eapply IH].
Qed.

Lemma aget_nonneg l i v : Forall (fun v => 0 <= v) l -> aget l i = Some v -> 0 <= v.
Proof. intros Hl E. apply CsrRows.aget_Some in E as [_ E]. rewrite Forall_lookup in Hl. by apply (Hl _ _ E). Qed.

Lemma replay_step crossed p ir : parses p -> nonneg ir -> exists ir', replay_payload crossed p ir = Some ir' /\ nonneg ir'.
Proof.
  intros [Hb Hp] Hn. unfold replay_payload in *. destruct (DecodeReserveIDs p) as [| |[shard limit]] eqn:E1.
  - destruct (DecodeNextIDsExact p) as [| |next] eqn:E2.
    + destruct (match p with [] => false | b :: _ => _ end); [done|]. by eexists.
    + done.
    + eexists. split; [done|]. assert (Forall (fun v => 0 <= v) next) as Hnn.
      { unfold DecodeNextIDsExact in E2. destruct (negb _); [done|]. destruct (decode_marks _ _) as [[vs [|]]|] eqn:Em; try done. injection E2 as <-. by eapply decode_marks_nonneg. }
      intros i Hi. cbn. destruct (aget next i) as [v|] eqn:Ev; [|by apply Hn]. pose proof (aget_nonneg _ _ _ Hnn Ev). destruct crossed; lia.
  - done.
  - eexists. split; [done|]. intros i Hi. cbn. rewrite fn_insert_dec. case_decide; [subst i|by apply Hn]. specialize (Hn shard Hi). lia.
Qed.

Lemma replay_all fs : forall ir, Forall parses fs.*1 -> nonneg ir -> exists ir', replay_ids fs ir = Some ir' /\ nonneg ir'.
Proof.
  induction fs as [|f fs IH]; intros ir Hp Hn; [by exists ir|]. rewrite replay_cons. apply Forall_cons in Hp as [Hp Hps].
  destruct (replay_step f.2 f.1 ir Hp Hn) as (ir1 & -> & Hn1). cbn. by apply IH.
Qed.

(** Reservations only raise the marks, to their limits at least. *)
Lemma replay_reservations fs : forall ir, (forall p, p ∈ fs.*1 -> exists s l, 0 <= s < 256 /\ is_mark l /\ p = AppendReserveIDs [] s l) -> nonneg ir ->
  exists ir', replay_ids fs ir = Some ir' /\ nonneg ir' /\ (forall i, cur ir i <= cur ir' i /\ bound ir i <= bound ir' i) /\
    forall i l, (i, l) ∈ reservations fs.*1 -> l <= cur ir' i /\ l <= bound ir' i.
Proof.
  induction fs as [|f fs IH]; intros ir Hp Hn.
  { exists ir. split; [done|]. split; [done|]. split; [lia|]. by intros i l ?%not_elem_of_nil. }
  rewrite replay_cons. destruct (Hp f.1 ltac:(left)) as (s & l & Hs & Hl & E). unfold replay_payload at 1. rewrite E, decode_reserve by done. cbn [mbind option_bind].
  destruct (IH (reserve s l ir)) as (ir' & -> & Hn' & Hmono & Hin); [intros p Hpin; apply Hp; by right| |].
  { intros i Hi. cbn. rewrite fn_insert_dec. case_decide; [subst i|by apply Hn]. specialize (Hn s Hi). lia. }
  exists ir'. split; [done|]. split; [done|]. split.
  - intros i. destruct (Hmono i) as [H1 H2]. cbn in H1, H2. rewrite fn_insert_dec in H1, H2. case_decide; [subst|]; lia.
  - intros i x Hix. unfold reservations in Hix. cbn [fmap list_fmap omap list_omap] in Hix. rewrite E, decode_reserve in Hix by done.
    apply elem_of_cons in Hix as [Ex|Hix]; [|by apply Hin]. injection Ex as -> ->. destruct (Hmono s) as [H1 H2]. cbn in H1, H2. rewrite !fn_insert_eq in H1, H2. lia.
Qed.

Section recover.
Context {N : Type} `{Countable N} `{!MapperKey N} `{!MapperKeyLaws N} {W : Type} `{!RunWriter W} `{!RunWriterLaws W}.
Implicit Types (m : Mapper (N:=N) (R:=idReserver W)) (r : idReserver W) (w : W) (i idx id : Z).

(** The marks restored shard by shard. *)
Lemma apply_ok ir (l : list Z) : forall m t, sim m t -> nonneg ir -> NoDup l -> (forall i, i ∈ l -> 0 <= i < 256) ->
  exists m' t', foldl (fun (o : option Mapper) (i : Z) => m ← o; RestoreNext i (cur ir i) m) (Some m) l = Some m' /\ sim m' t' /\
    (forall i, i ∈ l -> cur ir i <= t_marks t' i) /\ forall i, i ∉ l -> t_marks t' i = t_marks t i.
Proof.
  induction l as [|i l IH]; intros m t Hs Hn Hnd Hl.
  { exists m, t. split; [done|]. split; [done|]. split; [by intros i ?%not_elem_of_nil|done]. }
  apply NoDup_cons in Hnd as [Hni Hnd]. cbn [foldl mbind option_bind]. destruct (restore_sim m t i (cur ir i) Hs (Hl i ltac:(left)) (Hn i (Hl i ltac:(left)))) as (m1 & -> & Hs1).
  destruct (IH m1 _ Hs1 Hn Hnd (fun j Hj => Hl j ltac:(by right))) as (m' & t' & E & Hs' & Hin & Hout). exists m', t'. split; [done|]. split; [done|]. split.
  - intros j [->|Hj]%elem_of_cons; [|by apply Hin]. rewrite Hout by done. cbn. rewrite fn_insert_eq. lia.
  - intros j Hj. apply not_elem_of_cons in Hj as [Hj1 Hj2]. rewrite Hout by done. cbn. rewrite fn_insert_dec, decide_False by congruence. done.
Qed.

(** What restoring the marks makes of every shard: its mark, floored at the shard's assigned length, and nothing else. *)
Lemma apply_shards ir (l : list Z) : forall m m', NoDup l ->
  foldl (fun (o : option Mapper) (i : Z) => m ← o; RestoreNext i (cur ir i) m) (Some m) l = Some m' ->
  kind m' = kind m /\ forall i, shards m' i = if decide (i ∈ l) then with_next (Z.max (cur ir i) (endLocked (shards m i))) (shards m i) else shards m i.
Proof.
  induction l as [|j l IH]; intros m m' Hnd E.
  { injection E as <-. split; [done|]. intros i. by rewrite decide_False by apply not_elem_of_nil. }
  apply NoDup_cons in Hnd as [Hj Hnd]. cbn [foldl mbind option_bind] in E. rewrite (foldl_bind (fun i m => RestoreNext i (cur ir i) m)) in E.
  destruct (RestoreNext j (cur ir j) m) as [m1|] eqn:E1; cbn [mbind option_bind] in E; [|done]. apply IH in E as [Ek Es]; [|done].
  unfold RestoreNext in E1. destruct (_ && _); [|done]. injection E1 as <-. split; [exact Ek|].
  intros i. rewrite Es. cbn [shards with_shard]. rewrite !fn_insert_dec. destruct (decide (i = j)) as [->|Hne].
  - by rewrite (decide_False (P := j ∈ l)), (decide_True (P := j = j)), (decide_True (P := j ∈ j :: l)) by (done || by left).
  - rewrite (decide_ext (i ∈ l) (i ∈ j :: l)) by (rewrite elem_of_cons; tauto). by rewrite !(decide_False (P := j = i)) by congruence.
Qed.

(** The marks and the bindings [apply] leaves. *)
Lemma apply_marks ir m t : sim m t -> nonneg ir -> exists m', apply ir m = Some m' /\ well_formed m' /\
  (forall i, 0 <= i < 256 -> mark (shards m' i) = Z.max (cur ir i) (endLocked (shards m i))) /\ forall k, Lookup k m' = Lookup k m.
Proof.
  intros Hs Hn. assert (forall i, i ∈ seqZ 0 mapperShardCount <-> 0 <= i < 256) as Hseq by (intros i; rewrite elem_of_seqZ; change mapperShardCount with 256; lia).
  destruct (apply_ok ir (seqZ 0 mapperShardCount) m t Hs Hn) as (m' & t' & E & Hs' & _); [apply NoDup_seqZ|intros i; apply Hseq|].
  exists m'. split; [exact E|]. split; [by exists t'|]. apply apply_shards in E as [Ek Es]; [|apply NoDup_seqZ]. split.
  - intros i Hi. rewrite Es, decide_True by by apply Hseq. unfold mark. change (endLocked (with_next _ ?s)) with (endLocked s). cbn [next with_next]. lia.
  - intros k. unfold Lookup, shardFor. rewrite Ek, Es. by case_decide.
Qed.

Lemma session_start m t w : sim m t -> session (wal_log w) (SetIDReserver (Some (newIDReserver w)) m) (newIDReserver w) [].
Proof.
  intros Hs. split; [done| |by rewrite app_nil_r|by intros p ?%not_elem_of_nil|by left]. intros s. cbn. unfold MaxIDBatch. lia.
Qed.

Lemma limit_range id i idx : 0 <= i < 256 -> 0 <= idx < maxIndex -> id = packNodeID i idx -> MapperShardOf id = i /\ Z.shiftr id 8 = idx.
Proof.
  intros Hi Hx ->. pose proof (unpack_small i idx Hi Hx) as Hu. split; [by eapply shard_of_id|]. unfold unpackNodeID in Hu. by injection Hu.
Qed.

(** The reservation of a created id is in the log, unless every limit was lifted. *)
Lemma created_reserved m t w ops m' rs : sim m t -> forallb session_op ops = true -> fits_run ops (SetIDReserver (Some (newIDReserver w)) m) = true ->
  run ops (SetIDReserver (Some (newIDReserver w)) m) = Some (m', rs) ->
  exists t' r' new, sim m' t' /\ session (wal_log w) m' r' new /\ forall id, id ∈ created rs -> exists i idx, 0 <= i < 256 /\ 0 <= idx < maxIndex /\ id = packNodeID i idx /\
    (idLimit m' i = MaxUint64 \/ exists limit, (i, limit) ∈ reservations new /\ idx < limit).
Proof.
  intros Hs Hop Hf E.
  destruct (session_run ops (wal_log w) _ t (newIDReserver w) [] m' rs (sim_limits _ _ _ _ Hs) (session_start m t w Hs) Hf Hop E) as (t' & r' & new & Hs' & Hss & _ & Hid).
  exists t', r', new. split; [done|]. split; [done|]. intros id (i & idx & Hi & Hx & -> & Hlt)%Hid. exists i, idx. split; [done|]. split; [done|]. split; [done|].
  destruct (ss_limit _ _ _ _ Hss i Hi) as [El|[El|El]]; [lia|by left|right]. by exists (idLimit m' i).
Qed.

Lemma session_log log0 m r new : session log0 m r new -> log_of m = log0 ++ new.
Proof. intros Hs. unfold log_of. rewrite (ss_reserver _ _ _ _ Hs). apply Hs. Qed.

(** What a log keeps between two of its states. *)
Lemma between {A} (log0 new new' l : list A) : log0 ++ new `prefix_of` l -> l `prefix_of` log0 ++ (new ++ new') ->
  exists a b, l = log0 ++ (new ++ a) /\ new' = a ++ b.
Proof.
  intros [a ->] [b E]. exists a, b. split; [by rewrite <- app_assoc|]. rewrite <- !app_assoc in E. by do 2 apply app_inv_head in E.
Qed.

(** C20: node ids survive a crash.  A store runs a session over its log, interning and giving back keys in any order, and stops
    anywhere, the log losing any part of what the session appended after some point of it; a new process
    recovers some mapper, replays the id records of the log that is left over its marks and restores
    the marks the replay computed.  Then every id issued up to that point is accepted by the annex
    check, is covered by the marks, and is never issued by the new process, unless an
    append of the session had failed and lifted the shard's limit. *)
Theorem reservations_survive_crash m w ops1 ops2 m1 rs1 m' rs2 frames m2 (base : option (Z -> Z)) :
  well_formed m -> well_formed m2 -> Forall parses (wal_log w) ->
  forallb session_op (ops1 ++ ops2) = true -> fits_run ops1 (SetIDReserver (Some (newIDReserver w)) m) = true -> fits_run ops2 m1 = true ->
  run ops1 (SetIDReserver (Some (newIDReserver w)) m) = Some (m1, rs1) -> run ops2 m1 = Some (m', rs2) ->
  log_of m1 `prefix_of` frames.*1 -> frames.*1 `prefix_of` log_of m' ->
  exists ir m3, replay_ids frames (newIDReplay m2 base) = Some ir /\ apply ir m2 = Some m3 /\ well_formed m3 /\
    forall id, id ∈ created rs1 -> idLimit m1 (MapperShardOf id) = MaxUint64 \/
      (check id ir = false /\ Covers id (Watermark m3) = true /\
       forall ops3 m4 rs3, fits_run ops3 m3 = true -> forallb (negb ∘ is_restore) ops3 = true -> run ops3 m3 = Some (m4, rs3) -> id ∉ created rs3).
Proof.
  intros [t Hs] [t2 Hs2] Hparse Hop Hf1 Hf2 E E' Hpre Hfr. rewrite forallb_app in Hop. apply andb_true_iff in Hop as [Hop1 Hop2].
  destruct (created_reserved m t w ops1 m1 rs1 Hs Hop1 Hf1 E) as (t1 & r1 & new & Hs1 & Hss & Hid).
  destruct (session_run ops2 (wal_log w) m1 t1 r1 new m' rs2 Hs1 Hss Hf2 Hop2 E') as (t' & r' & new' & _ & Hss' & _ & _).
  rewrite (session_log _ _ _ _ Hss) in Hpre. rewrite (session_log _ _ _ _ Hss') in Hfr.
  destruct (between _ _ _ _ Hpre Hfr) as (a & b & E1' & ->). destruct (fmap_app_inv _ _ _ _ E1') as (fs & gs & Efs & Egs & ->).
  assert (nonneg (newIDReplay m2 base)) as Hn0.
  { intros i Hi. cbn. pose proof (mark_nonneg _ _ (s_shards _ _ Hs2 i Hi)). destruct base; lia. }
  destruct (replay_all fs (newIDReplay m2 base)) as (ir1 & E1 & Hn1); [by rewrite <- Efs|done|].
  destruct (replay_reservations gs ir1) as (ir & E2 & Hn2 & _ & Hres); [intros p Hp; rewrite <- Egs in Hp; apply (ss_new _ _ _ _ Hss'); set_solver|done|].
  destruct (apply_ok ir (seqZ 0 mapperShardCount) m2 t2 Hs2 Hn2) as (m3 & t3 & E3 & Hs3 & Hm3 & _);
    [apply NoDup_seqZ|intros i Hi%elem_of_seqZ; change mapperShardCount with 256 in Hi; lia|].
  exists ir, m3. split; [by rewrite replay_app, E1|]. split; [exact E3|]. split; [by exists t3|].
  intros id (i & idx & Hi & Hx & Eid & Hcase)%Hid. destruct (limit_range id i idx Hi Hx Eid) as [Hsh Hidx]. rewrite Hsh.
  destruct Hcase as [|(limit & Hin & Hlt)]; [by left|right]. destruct (Hres i limit) as [Hc Hb]; [unfold reservations; rewrite <- Egs, omap_app; apply elem_of_app; by left|].
  assert (limit <= t_marks t3 i) as Hmk by (etransitivity; [exact Hc|]; apply Hm3, elem_of_seqZ; change mapperShardCount with 256; lia).
  split; [|split].
  - unfold check. rewrite Hsh, Hidx. destruct (Z.leb_spec (bound ir i) idx); [lia|]. apply andb_false_r.
  - rewrite Eid. unfold Covers. rewrite unpack_small by done. cbn. rewrite <- (s_marks _ _ Hs3) by done. apply Z.ltb_lt. lia.
  - intros ops3 m4 rs3 Hf3 Hr3 E4 Hin3. destruct (run_marks ops3 m3 t3 m4 rs3 Hs3 Hf3 Hr3 E4) as (t4 & _ & _ & _ & Hcr).
    destruct (Hcr id Hin3) as (j & jdx & Hj & Hjx & Ej & Hge & _). rewrite Eid in Ej. unfold maxIndex in *. apply pack_inj in Ej as [<- <-]; lia.
Qed.

Definition crossing (frames : list (list Z * bool)) : Prop := exists fs f, frames = fs ++ [(f, true)].

Lemma crossing_last frames f : last frames = Some (f, true) -> crossing frames.
Proof. intros [fs ->]%last_Some. by exists fs, f. Qed.

Lemma marks_list m t : sim m t -> (forall i, 0 <= i < 256 -> mark (shards m i) < 2 ^ 64) ->
  length (Next (Watermark m)) = idShards /\ Forall is_mark (Next (Watermark m)) /\ forall i, 0 <= i < 256 -> aget (Next (Watermark m)) i = Some (mark (shards m i)).
Proof.
  intros Hs Hm. unfold Next. split; [reflexivity|]. split.
  - apply Forall_fmap, Forall_forall. intros i Hi%elem_of_seqZ. change mapperShardCount with 256 in Hi. unfold compose, is_mark. cbn.
    pose proof (mark_nonneg _ _ (s_shards _ _ Hs i ltac:(lia))). specialize (Hm i ltac:(lia)). lia.
  - intros i Hi. rewrite CsrRows.aget_fmap. unfold aget. rewrite decide_True by lia. rewrite lookup_seqZ_lt by (change mapperShardCount with 256; lia). cbn. do 3 f_equal. lia.
Qed.

(** C21: a clean close wastes no id.  When the close appends its record, the replay of the log the
    next process reads, past the redo position, gives every shard exactly the mark it had at the close, whatever the records before it said;
    restoring the replay's marks over the mapper that process has loaded succeeds, leaves every
    shard's mark at the one at the close, or at the shard's assigned length when that is larger, and
    changes no binding; and the close appends nothing a second time. *)
Theorem clean_close_exact m w ops m' rs r' frames m2 (base : option (Z -> Z)) :
  well_formed m -> well_formed m2 -> Forall parses (wal_log w) ->
  forallb session_op ops = true -> fits_run ops (SetIDReserver (Some (newIDReserver w)) m) = true ->
  run ops (SetIDReserver (Some (newIDReserver w)) m) = Some (m', rs) -> (forall i, 0 <= i < 256 -> mark (shards m' i) < 2 ^ 64) ->
  (exists r, reserver m' = Some r /\ closed r = false /\ close (Next (Watermark m')) r = (r', true)) -> frames.*1 = wal_log (wlog r') -> crossing frames ->
  (exists ir m3, replay_ids frames (newIDReplay m2 base) = Some ir /\ (forall i, 0 <= i < 256 -> cur ir i = mark (shards m' i)) /\
    apply ir m2 = Some m3 /\ well_formed m3 /\
    (forall i, 0 <= i < 256 -> mark (shards m3 i) = Z.max (mark (shards m' i)) (endLocked (shards m2 i))) /\
    forall k, Lookup k m3 = Lookup k m2) /\
  forall marks, close marks r' = (r', true).
Proof.
  intros [t Hs] [t2 Hs2] Hparse Hop Hf E Hmk (r & Er & Hcl & Hclose) Hfr (fs & f & ->).
  destruct (created_reserved m t w ops m' rs Hs Hop Hf E) as (t' & r0 & new & Hs' & Hss & _).
  rewrite (ss_reserver _ _ _ _ Hss) in Er. injection Er as ->. destruct (marks_list m' t' Hs' Hmk) as (Hlen & Hmarks & Hget).
  unfold close in Hclose. rewrite Hcl in Hclose. unfold AppendRun in Hclose. pose proof (starts_log (wlog r)) as Hst.
  destruct (run_starts (wlog r)) as [w1 ok1]. cbn [fst] in Hst. destruct ok1; [|done]. pose proof (emit_log (AppendNextIDsExact [] (Next (Watermark m'))) w1) as Hem.
  destruct (run_emit _ w1) as [w2 ok2]. cbn [fst snd] in Hem. destruct ok2; [|done]. injection Hclose as <-. cbn [wlog] in Hfr.
  rewrite Hem, Hst, (ss_log _ _ _ _ Hss), fmap_app in Hfr. apply app_inj_tail in Hfr as [Hfs Hf1]. cbn in Hf1. subst f. split; [|done].
  assert (nonneg (newIDReplay m2 base)) as Hn0.
  { intros i Hi. cbn. pose proof (mark_nonneg _ _ (s_shards _ _ Hs2 i Hi)). destruct base; lia. }
  destruct (fmap_app_inv _ _ _ _ Hfs) as (fs1 & fs2 & E1 & E2 & ->).
  destruct (replay_all fs1 (newIDReplay m2 base)) as (ir1 & R1 & Hn1); [by rewrite <- E1|done|].
  destruct (replay_reservations fs2 ir1) as (ir2 & R2 & Hn2 & _ & _); [intros p Hp; rewrite <- E2 in Hp; by apply (ss_new _ _ _ _ Hss)|done|].
  set (ir := exact (Next (Watermark m')) true ir2).
  assert (forall i, 0 <= i < 256 -> cur ir i = mark (shards m' i)) as Hcur by (intros i Hi; cbn; by rewrite Hget).
  destruct (apply_marks ir m2 t2 Hs2) as (m3 & E3 & Hw3 & Hm3 & Hl3).
  { intros i Hi. rewrite Hcur by done. eapply mark_nonneg. by apply (s_shards _ _ Hs'). }
  exists ir, m3. split; [|split; [exact Hcur|]; split; [exact E3|]; split; [exact Hw3|]; split; [|exact Hl3]].
  - rewrite !replay_app, R1. cbn [mbind option_bind]. rewrite R2. cbn [mbind option_bind]. rewrite replay_cons. cbn [fst snd].
    unfold replay_payload. rewrite decode_exact by done.
    assert (DecodeReserveIDs (AppendNextIDsExact [] (Next (Watermark m'))) = OtherKind) as ->; [|done].
    unfold AppendNextIDsExact. by rewrite put_uvarints.
  - intros i Hi. by rewrite Hm3, Hcur.
Qed.
End recover.

(** ** Witnesses: a writer that keeps its payloads in memory *)

#[export] Instance memory_writer : RunWriter (list (list Z)) :=
  {| run_starts w := (w, true); run_emit p w := (w ++ [p], true); wal_log w := w |}.
#[export] Instance memory_writer_laws : RunWriterLaws (list (list Z)).
Proof. by split. Qed.

Definition store_mapper : Mapper (N:=Z) (R:=idReserver (list (list Z))) := NewMapper.
Definition store_ops : list (op (N:=Z) (R:=idReserver (list (list Z)))) := [OpIntern 7; OpIntern 440; OpUnplace 440 (packNodeID (mapperShardFor 7) 1)].
Definition store_start (w : list (list Z)) := SetIDReserver (Some (newIDReserver w)) store_mapper.
Definition store_end (w : list (list Z)) : Mapper := match run store_ops (store_start w) with Some (m, _) => m | None => store_mapper end.

Lemma store_well_formed : well_formed store_mapper.
Proof. exists empty_table. apply sim_new. Qed.

Definition old_log : list (list Z) := [AppendReserveIDs [] 3 64; [1; 2; 3]].

Lemma old_log_parses : Forall parses (wal_log old_log).
Proof. repeat constructor; (try (apply (bool_decide_unpack _); vm_compute; done)); vm_compute; discriminate. Qed.

(** The two ids of the session, one of them given back: the log holds one reservation of 65 for
    their shard, the mark the replay computes. *)
Lemma reservations_survive_crash_witness : exists ir m3,
  replay_ids ((fun p => (p, true)) <$> log_of (store_end old_log)) (newIDReplay store_mapper None) = Some ir /\ apply ir store_mapper = Some m3 /\
  cur ir (mapperShardFor 7) = 65 /\ Covers (packNodeID (mapperShardFor 7) 1) (Watermark m3) = true.
Proof.
  assert (exists rs, run store_ops (store_start old_log) = Some (store_end old_log, rs) /\ packNodeID (mapperShardFor 7) 1 ∈ created rs) as (rs & E & Hin).
  { unfold store_end. destruct (run store_ops (store_start old_log)) as [[m rs]|] eqn:E; [|vm_compute in E; discriminate].
    exists rs. split; [reflexivity|]. revert E. vm_compute. intros E. injection E as _ <-. right. left. }
  destruct (reservations_survive_crash store_mapper old_log store_ops [] (store_end old_log) rs (store_end old_log) [] ((fun p => (p, true)) <$> log_of (store_end old_log)) store_mapper None
    store_well_formed store_well_formed old_log_parses) as (ir & m3 & E1 & E2 & _ & Hid);
    [vm_compute; reflexivity|vm_compute; reflexivity|reflexivity|exact E|reflexivity|rewrite <- list_fmap_compose, list_fmap_id; done|rewrite <- list_fmap_compose, list_fmap_id; done|].
  exists ir, m3. split; [exact E1|]. split; [exact E2|]. split.
  - clear Hid E2. revert E1. vm_compute. intros E1. injection E1 as <-. reflexivity.
  - destruct (Hid _ Hin) as [Hu|(_ & Hc & _)]; [vm_compute in Hu; discriminate|exact Hc].
Defined.

Lemma clean_close_exact_witness : exists r', close (Next (Watermark (store_end old_log))) (default (newIDReserver []) (reserver (store_end old_log))) = (r', true) /\
  exists ir m3, replay_ids ((fun p => (p, true)) <$> wal_log (wlog r')) (newIDReplay store_mapper None) = Some ir /\ apply ir store_mapper = Some m3 /\
    mark (shards m3 (mapperShardFor 7)) = 2.
Proof.
  destruct (close _ _) as [r' b] eqn:Ec. assert (b = true) as -> by (revert Ec; vm_compute; intros Ec; injection Ec as _ <-; reflexivity).
  exists r'. split; [reflexivity|].
  assert (exists rs, run store_ops (store_start old_log) = Some (store_end old_log, rs)) as (rs & E).
  { unfold store_end. destruct (run store_ops (store_start old_log)) as [[m rs]|] eqn:E; [|vm_compute in E; discriminate]. exists rs. reflexivity. }
  destruct (clean_close_exact store_mapper old_log store_ops (store_end old_log) rs r' ((fun p => (p, true)) <$> wal_log (wlog r')) store_mapper None
    store_well_formed store_well_formed old_log_parses) as [(ir & m3 & Er & _ & Ea & _ & Hm & _) _].
  - vm_compute; reflexivity.
  - vm_compute; reflexivity.
  - exact E.
  - intros i Hi. apply (small_range (fun i => mark (shards (store_end old_log) i) < 2 ^ 64) 256); [vm_compute; reflexivity|exact Hi].
  - exists (default (newIDReserver []) (reserver (store_end old_log))). split; [vm_compute; reflexivity|]. split; [vm_compute; reflexivity|exact Ec].
  - rewrite <- list_fmap_compose. apply list_fmap_id.
  - apply (crossing_last _ (AppendNextIDsExact [] (Next (Watermark (store_end old_log))))). revert Ec. vm_compute. intros Ec. injection Ec as <-. reflexivity.
  - exists ir, m3. split; [exact Er|]. split; [exact Ea|]. rewrite (Hm (mapperShardFor 7)) by (vm_compute; split; congruence). vm_compute. reflexivity.
Defined.

(** A key interned after the clean close: the index is still below the limit, so nothing is appended, and the
    exact marks stay the last word of the log although they do not cover the id. *)
Lemma intern_after_close_unlogged : let m := store_end [] in
  match reserver m with
  | Some r =>
      let '(r1, _) := close (Next (Watermark m)) r in
      match InternNew 521 (mkMapper (kind m) (shards m) (idLimit m) (Some r1)) with
      | Some (m', id, created) => created = true /\ log_of m' = wal_log (wlog r1) /\
          match replay_ids ((fun p => (p, true)) <$> log_of m') (newIDReplay store_mapper None) with
          | Some ir => (unpackNodeID id).1 = mapperShardFor 7 /\ cur ir (mapperShardFor 7) <= (unpackNodeID id).2
          | None => False
          end
      | None => False
      end
  | None => False
  end.
Proof. vm_compute. repeat split; discriminate. Qed.
